(* ===== verification/_CoqProject ===== *)
-Q . S2P
Prelude.v
Float32.v
CxxStd.v
Bytes.v
External.v
Bits.v
Popcount.v
Varint.v
VarintRead.v
VarintArm.v
VarintShuffle.v
WireFormat.v
ParseCtx.v
RepeatedField.v
ArenaParts.v
SerialArena.v
Metadata.v
HasBits.v
OutStream.v
CodedInput.v
TableParser.v
Int128.v
SwissGroup.v
SwissProbe.v
SwissTable.v
SwissMulti.v
SwissMachine.v
PtrField.v
Process.v
Projects.v
Messages.v
Codec.v
Tasks.v
TaskGen.v
Server.v
Schedule.v
Client.v
System.v
Progress.v
Discovery.v
Daemon.v
Window.v
Console.v
Locks.v
Build.v
Examples.v
