(* ===== verification/Prelude.v ===== *)
(** * Verification of FreeDistributedBuild

    ** The program

    A build is distributed over the machines of a local network.  The console
    ([console/]) reads the project registry and a build file, expands it into
    tasks, announces itself by a multicast datagram and serves tasks over TCP.
    Daemons ([daemon/]) answer the announcement, connect, tell how many cores
    they have to spare, run the tasks they are sent as child processes and
    return the results.  Both sides speak protobuf messages ([protocol/]) and
    share the project registry ([common/]).

    ** The files, and what they model

    - [Prelude]: machine integers [wrapU]/[wrapS] (written [u8] ... [i32]),
      the [outcome] monad ([Ret], an exception, undefined behaviour [UB]) with
      its notations and tactics, lemmas on transition systems and lists.
    - [Float32]: IEEE single precision as exact rationals with round to even.
    - [CxxStd]: the parts of the C++ library the program uses (substrings,
      [get_time], [atof], C strings).
    - [Bytes]: little-endian numbers and strings as bytes.
    - [External]: the contracts of the libraries that are not in the
      repository (smallUtils, tinyxml2) as type classes - XML, strings,
      files, packet and datagram nodes, processes - each with a concrete
      instance.
    - The vendored headers the messages are written and read with
      ([absl/numeric/bits.h], [absl/numeric/int128.h] and, under
      [google/protobuf/],
      [io/coded_stream.h], [wire_format_lite.h], [parse_context.h],
      [varint_shuffle.h], [repeated_field.h], [repeated_ptr_field.h],
      [serial_arena.h] and the
      headers it is made from, [metadata_lite.h], [has_bits.h] and the
      [generated_message_tctable] headers), over an explicit memory:
      [Bits], [Popcount]: bit counting; [Int128]: 128-bit integers on two
      halves and on the compiler's own; [Varint], [VarintRead]: varints,
      ZigZag, tags and fixed-width numbers; [VarintArm], [VarintShuffle]: the
      decoders for 64-bit ARM and for the table-driven parser;
      [WireFormat]: field writers and sizes; [OutStream], [CodedInput]: the
      buffered streams [EpsCopyOutputStream], [CodedOutputStream] and
      [CodedInputStream] with the field functions on them; [ParseCtx]:
      [EpsCopyInputStream] and [ParseContext]; [RepeatedField]: the growable
      array of [repeated] fields on arenas; [PtrField]: the array of pointers
      to repeated strings and messages, over a heap of objects; [ArenaParts], [SerialArena]: the
      arena itself, whose free lists and cleanup nodes are words of the memory
      it hands out; [Metadata], [HasBits]: the tagged word with a message's
      arena and unknown fields, and its presence bits; [TableParser]: the
      packed entries of the parse tables, dispatch on a tag, the fallback
      for unknown fields and the parser of packed closed enums.
    - The hash tables under absl's containers
      ([absl/container/internal/raw_hash_set.h]): [SwissGroup]: groups of
      control bytes, by a 64-bit word, SSE2 and NEON; [SwissProbe]:
      capacities, growth, the probe sequence, the array of control bytes;
      [SwissTable]: the table and its invariant [SwissTable.wf];
      [SwissMulti]: copying, merging and comparing two tables;
      [SwissMachine]: sequences of calls on two tables against two lists.
    - [Process]: [daemon/Process.cpp]; [Projects]: [common/project.cpp];
      [Messages]: [protocol/*.proto] and [protocol/tcp_protobufnode.cpp].
    - [Codec]: an inhabitant of the serialiser's contract [MessageCodec],
      built on [Varint].
    - [Tasks], [TaskGen]: [console/console.h] and the functions
      [taskGenerator] and [loadConfig] of [console/console.cpp].
    - [Server]: [console/tcp_protobufserver.cpp]; [Schedule]: the scheduling
      contract and its refinement by the server; [Console]: [main] of
      [console/console.cpp], with the monitoring loop interleaved with the
      handlers of the server's thread; [Locks]: the same two threads critical
      section by critical section.
    - [System]: one console, many daemons and the links between them, as one
      transition system over [Server] and [Client]; [Progress]: how a build
      is brought to its end; [Build]: the whole system with the monitoring
      loop, from the task list [loadConfig] makes to the exit status, and
      [main] with the functions it calls ([Build.fdbconsole]).
    - [Client]: [daemon/tcp_protobufclient.cpp]; [Discovery]: the function
      [sendBroadcast] and [protocol/whoishere.h]; [Daemon]:
      [daemon/udp_daemonserver.cpp] and [daemon/daemon.cpp]; [Window]:
      [daemon/window.cpp].
    - [Examples]: one small build run through the definitions; it applies the
      theorems of the other files.

    ** State and operations

    The object of a class is a record of its members; an operation is a
    function from the state to the state and the result, with the name of the
    method (a prefix [cl_], [ud_] where two classes share a name).  Pointers
    to connections are identities ([NodeId]) into a map of nodes, so that the
    pointer a task keeps and the node it points to are related as in the
    program.  Mutexes are taken per task, so the unit of interleaving between
    the server's thread and the console's main thread is one critical section
    ([Locks.lock_step]).  [Locks.handlers_atomic] matches every run of
    sections by a run of whole handlers ([Console.con_step]); elsewhere what
    the server's thread does for one event is one [Schedule.server_step].  The host - clock, threads, files,
    processes, sockets - is an argument of the operation that consults it,
    and a loop that consults it repeatedly takes a sequence.

    ** What the theorems show

    - Scheduling: the server refines a contract in which a job is pending,
      running on one connected node, or done ([Schedule.server_refines]);
      what is done stays done; a result counts only from the node that holds
      the task; a lost connection releases exactly its tasks; the order of
      the build file is kept and capacity is respected.
    - The whole system: under every interleaving of connections, crashes,
      packets in flight and work, every task the console has given away is
      accounted for, all packets on the wire are well typed, and no state is
      a dead end: every one can still reach the end of the build, with exact
      totals and exit status 0 ([Build.build_succeeds]); a daemon with one core gets
      no second task while its connection lasts ([System.one_core_starves]).
    - Monitoring: the counters are exact under every interleaving of critical
      sections, the loop ends with success only when all tasks have results
      ([Locks]), and it does end once they have ([Console.monitor_detects]);
      the exit status tells the truth about the registry, the build file, the
      announcement and the run ([Build.console_exit]).
    - Daemon: the index loop of [doWork], with its wrap-around decrement, is
      one pass over the tasks, reports each ended one once and forgets none;
      receiving terminates; the discovery state machine moves along its
      edges only; an announcement sent by the console is accepted.
    - Build file and registry: identifiers are consecutive, tasks are ready
      to be sent, the free-core count is bounded and monotone in the
      percentage, the work-time window includes both ends.
    - Wire format: what is written is read back (datagram, varints, tags,
      ZigZag, fields of every type, packed and repeated ones), whatever the
      boundaries of the buffers; sizes computed in advance are the sizes
      written; the alternative decoders agree with the wire format; nesting
      and limits are given back; message set items parse in either order; a
      repeated field is the list of its elements and grows at constant
      amortised cost.
    - Messages: a program that uses the metadata words of its messages as
      intended never touches a container that is not there, shares none and
      leaks none ([Metadata.metadata_refines]); the tag of a field selects
      that field's entry and no other ([TableParser.dispatch_exact]); a packed
      closed enum is split exactly between its field and the unknown fields
      ([TableParser.packed_enum_exact]), over however many chunks of the input
      it is spread; repeated strings and messages hold
      the values a list would, every object of the heap has one owner, and
      none is lost, whatever is merged, copied, swapped, handed over or taken
      back, on any arenas ([PtrField.ptr_field_owns]).
    - 128-bit integers: the code on two halves computes what the compiler's
      types compute ([Int128.uint128_portable]), the signed one except for one
      sum and one difference that it leaves undefined
      ([Int128.int128_portable], [Int128.early_sum]).
    - Hash tables: whatever the hash function and the addresses, two tables
      answer every sequence of calls, copies, merges and comparisons as lists
      of elements with distinct keys do, and every loop ends inside the array
      ([SwissMachine.swiss_table_refines]); the three groups meet one
      interface ([GroupLaws]), the word exactly
      ([SwissGroup.word_group_exact]).
    - Arenas: every word of an arena's blocks has one owner; whatever its
      users ask for and write, what they were given stays disjoint and apart
      from the arena's own records, no request within the documented sizes
      and alignments and with a destructor is undefined behaviour
      ([SerialArena.arena_safe]; a null destructor is the exception,
      [SerialArena.null_destructor_overruns]), and every registered
      destructor is found again, block by block, the newest first
      ([SerialArena.arena_cleanups_kept]).

    The functions that the vendored headers declare and the library's source
    files define are parameters with the contract their documentation states
    ([OutFallbackLaws], [InFallbackLaws], [Next_spec], [SerialArenaOutLaws], [Malloc],
    [UnknownFieldSet], [PtrFieldOut], [Umul128], and for the hash tables
    [ShuffleLaw], [PrepareLaw], [EraseLaw], [ClearLaw], [Sse2Laws],
    [NeonLaws]); a concrete stream, concrete heaps and a concrete table show
    that the contracts can be met.

    ** Fuel and bounds

    Loops over vectors are recursions over lists.  The packet loops take the
    queue length plus one ([Server.recv_loop_total],
    [Client.client_recv_total] show that more changes nothing), the task loop
    takes the length of the vector ([Client.doWork_sweep]), [UnsafeVarint]
    takes ten steps, the most a 64-bit value needs.  The loops that read
    fields until a limit take more steps than there are bytes, and every step
    consumes at least one; the loop over a message set item takes one step
    per tag of the item; the reader of packed varints one per number and chunk,
    of which there are at most as many as bytes; the prefetch loops of the arena take at most sixteen
    and six lines ([SerialArena.prefetch_ends]); a probe loop of a hash table
    takes one step per group ([SwissProbe.probe_covers]).  Hypotheses such as [length < 2 ^ 64] say that a
    vector fits its index type, and [sys_small] that no packet reaches 2 GiB,
    where protobuf refuses to parse.

    ** What is not modelled

    The submodules smallUtils and tinyxml2 and the generated protobuf classes
    are not in the repository: parameters and classes stand for them.  Log
    and terminal output, the drawing of the tray menu and the build
    description have no state of their own.  Of the vendored headers, cords,
    arena strings, the representation of unknown field sets, the thread-safe
    arena around [SerialArena], the conversions between 128-bit integers and
    floating point and the functions of the parse tables (the
    headers only declare them) are left out, as are the headers the messages
    of the program never reach (descriptors, reflection, text format,
    the other containers, hash functions, time).  Of the hash tables, inline
    storage of one element, transfers by [memcpy], debug and sanitizer
    builds, sampling and node handles are left out. *)

From stdpp Require Export base option list strings gmap.
From Stdlib Require Export ZArith Lia.

#[global] Open Scope Z_scope.

(** ** Machine integers *)

(** [wrapU w z] is the value an unsigned [w]-bit object holds after [z] has
    been stored in it, [wrapS w z] the value of a two's complement one. *)
Definition wrapU (w z : Z) : Z := z mod 2 ^ w.
Definition wrapS (w z : Z) : Z := (z + 2 ^ (w - 1)) mod 2 ^ w - 2 ^ (w - 1).

Definition inU (w z : Z) : Prop := 0 <= z < 2 ^ w.
Definition inS (w z : Z) : Prop := - 2 ^ (w - 1) <= z < 2 ^ (w - 1).

Abbreviation u8 := (wrapU 8).
Abbreviation u16 := (wrapU 16).
Abbreviation u32 := (wrapU 32).
Abbreviation u64 := (wrapU 64).
Abbreviation i32 := (wrapS 32).
Abbreviation i64 := (wrapS 64).

Lemma pow2_pos w : 0 <= w -> 0 < 2 ^ w.
Proof. intros; now apply Z.pow_pos_nonneg. Qed.

Lemma pow2_half w : 0 < w -> 2 ^ w = 2 * 2 ^ (w - 1).
Proof. intros Hw. rewrite <- Z.pow_succ_r by lia. f_equal; lia. Qed.

Lemma wrapU_range w z : 0 <= w -> inU w (wrapU w z).
Proof. intros Hw. apply Z.mod_pos_bound, pow2_pos, Hw. Qed.

Lemma wrapU_id w z : inU w z -> wrapU w z = z.
Proof. intros H. now apply Z.mod_small. Qed.

Lemma wrapU_idem w z : wrapU w (wrapU w z) = wrapU w z.
Proof. apply Zmod_mod. Qed.

Lemma wrapS_range w z : 0 < w -> inS w (wrapS w z).
Proof.
  intros Hw. unfold inS, wrapS.
  pose proof (Z.mod_pos_bound (z + 2 ^ (w - 1)) (2 ^ w) (pow2_pos w ltac:(lia))).
  rewrite (pow2_half w) in * by lia. lia.
Qed.

Lemma wrapS_id w z : 0 < w -> inS w z -> wrapS w z = z.
Proof.
  unfold inS, wrapS. intros Hw H. rewrite Z.mod_small; [lia|].
  rewrite (pow2_half w) by lia. lia.
Qed.

(** Converting through an unsigned object first loses nothing: this is the
    implicit [uint32_t] to [int32_t] conversion of a protobuf setter. *)
Lemma wrapS_wrapU w z : 0 < w -> wrapS w (wrapU w z) = wrapS w z.
Proof.
  intros Hw. unfold wrapS, wrapU. f_equal.
  rewrite Zplus_mod_idemp_l. reflexivity.
Qed.

Lemma wrapU_wrapS w z : 0 < w -> wrapU w (wrapS w z) = wrapU w z.
Proof.
  intros Hw. unfold wrapS, wrapU.
  rewrite Zminus_mod_idemp_l. f_equal. lia.
Qed.

Create HintDb machine.
#[export] Hint Resolve wrapU_range wrapS_range pow2_pos : machine.

(** ** Outcomes *)

(** The result of running a piece of C++: a value, a thrown standard
    exception or the end of the program by a fatal log message, or undefined
    behaviour (a null dereference, a read past a buffer, a conversion out of
    range). *)
Inductive exn := out_of_range | filesystem_error | fatal_message.

Inductive outcome (A : Type) :=
| Ret (a : A)
| Throw (e : exn)
| UB.
Arguments Ret {A} a.
Arguments Throw {A} e.
Arguments UB {A}.

#[export] Instance exn_eq_dec : EqDecision exn.
Proof. solve_decision. Defined.

#[export] Instance outcome_eq_dec `{EqDecision A} : EqDecision (outcome A).
Proof. solve_decision. Defined.

Definition obind {A B} (m : outcome A) (k : A -> outcome B) : outcome B :=
  match m with Ret a => k a | Throw e => Throw e | UB => UB end.

Declare Scope outcome_scope.
Delimit Scope outcome_scope with outcome.
Notation "'do' x <- m ; k" := (obind m (fun x => k))
  (at level 100, x pattern, m at level 99, k at level 200, right associativity) : outcome_scope.
#[global] Open Scope outcome_scope.

Fixpoint ofold {A S} (f : A -> S -> outcome S) (l : list A) (s : S) : outcome S :=
  match l with
  | [] => Ret s
  | a :: l' => do s' <- f a s; ofold f l' s'
  end.

Lemma obind_Ret_inv {A B} (m : outcome A) (k : A -> outcome B) b :
  obind m k = Ret b -> exists a, m = Ret a /\ k a = Ret b.
Proof. destruct m; simpl; intros H; try discriminate; eauto. Qed.

Lemma obind_assoc {A B C} (m : outcome A) (f : A -> outcome B) (g : B -> outcome C) :
  obind (obind m f) g = obind m (fun a => obind (f a) g).
Proof. now destruct m. Qed.

Lemma ofold_app {A S} (f : A -> S -> outcome S) l1 l2 s :
  ofold f (l1 ++ l2) s = obind (ofold f l1 s) (ofold f l2).
Proof.
  revert s; induction l1 as [|a l1 IH]; intros s; simpl; [done|].
  destruct (f a s); simpl; auto.
Qed.

(** An invariant of the body is an invariant of the loop. *)
Lemma ofold_inv {A S} (P : S -> Prop) (f : A -> S -> outcome S) l s s' :
  (forall a t t', a ∈ l -> P t -> f a t = Ret t' -> P t') ->
  P s -> ofold f l s = Ret s' -> P s'.
Proof.
  revert s; induction l as [|a l IH]; intros s Hf Hs; simpl.
  - now intros [= <-].
  - intros (t & Ht & Hrest)%obind_Ret_inv.
    eapply (IH t); [|eapply Hf; [| |exact Ht]|exact Hrest]; [|left|done].
    intros; eapply Hf; [right|..]; eauto.
Qed.

Ltac inv_outcome :=
  repeat match goal with
  | H : obind _ _ = Ret _ |- _ => apply obind_Ret_inv in H as (? & ? & ?)
  | H : Ret _ = Ret _ |- _ => injection H as H; simplify_eq
  | H : Throw _ = Ret _ |- _ => discriminate H
  | H : UB = Ret _ |- _ => discriminate H
  end.

(** ** Reachability *)

Section reachability.
Context {S : Type} (init : S -> Prop) (step : S -> S -> Prop).

Inductive reachable : S -> Prop :=
| reach_init s : init s -> reachable s
| reach_step s s' : reachable s -> step s s' -> reachable s'.

Lemma reachable_inv (I : S -> Prop) :
  (forall s, init s -> I s) ->
  (forall s s', I s -> step s s' -> I s') ->
  forall s, reachable s -> I s.
Proof. intros Hi Hs s; induction 1; eauto. Qed.

Lemma reachable_rtc s s' : reachable s -> rtc step s s' -> reachable s'.
Proof. intros Hs; induction 1; eauto using reach_step. Qed.
End reachability.

Lemma rtc_preserves {S} (step : S -> S -> Prop) (I : S -> Prop) :
  (forall s s', I s -> step s s' -> I s') ->
  forall s s', rtc step s s' -> I s -> I s'.
Proof. intros Hs s s'; induction 1; eauto. Qed.

(** ** Lists *)

Lemma Forall_list_insert {A} (P : A -> Prop) l i x :
  Forall P l -> P x -> Forall P (<[i := x]> l).
Proof. intros; apply Forall_insert; auto. Qed.

Lemma list_filter_ext {A} (P Q : A -> Prop) `{!forall x, Decision (P x)} `{!forall x, Decision (Q x)}
    (l : list A) :
  (forall x, x ∈ l -> P x <-> Q x) -> filter P l = filter Q l.
Proof.
  induction l as [|a l IH]; intros Hl; [done|]. rewrite !filter_cons, IH by set_solver.
  repeat case_decide; rewrite ?Hl in *; set_solver.
Qed.

(** ** Strings *)

Section strings.
Open Scope string_scope.
Implicit Types s t p : string.

Lemma length_append s t : String.length (s +:+ t) = (String.length s + String.length t)%nat.
Proof. induction s; simpl; auto. Qed.

Lemma substring_0_all s : String.substring 0 (String.length s) s = s.
Proof. induction s as [|a s IH]; simpl; [done|]. by rewrite IH. Qed.

Lemma substring_after s t n : String.substring (String.length s) n (s +:+ t) = String.substring 0 n t.
Proof. induction s; simpl; auto. Qed.

Lemma substring_split s k :
  (k <= String.length s)%nat ->
  s = String.substring 0 k s +:+ String.substring k (String.length s - k) s.
Proof.
  revert k; induction s as [|a s IH]; intros [|k] Hk; simpl in *; try lia; try done.
  - by rewrite substring_0_all.
  - rewrite (IH k ltac:(lia)) at 1. done.
Qed.

(** The last bytes of [s], as [substr] with one argument returns them. *)
Definition suffix_of (n : nat) s : string :=
  String.substring (String.length s - n) (String.length s - (String.length s - n)) s.

Definition ends_with (m s : string) : Prop := exists p, s = p +:+ m.

Lemma suffix_of_spec m s :
  (String.length m <= String.length s)%nat ->
  suffix_of (String.length m) s = m <-> ends_with m s.
Proof.
  intros Hl. unfold suffix_of. split.
  - intros E. eexists. rewrite (substring_split s (String.length s - String.length m)) at 1 by lia.
    rewrite E. done.
  - intros [p ->]. rewrite length_append.
    replace (String.length p + String.length m - String.length m)%nat with (String.length p) by lia.
    rewrite substring_after.
    replace (String.length p + String.length m - String.length p)%nat with (String.length m) by lia.
    apply substring_0_all.
Qed.

#[export] Instance ends_with_dec m s : Decision (ends_with m s).
Proof.
  destruct (decide (String.length m <= String.length s)%nat) as [Hl|Hl].
  - destruct (decide (suffix_of (String.length m) s = m)) as [E|E];
      [left|right]; by rewrite <- suffix_of_spec.
  - right. intros [p ->]. rewrite length_append in Hl. lia.
Defined.
End strings.
