(* ===== verification/Float32.v ===== *)
(** * IEEE binary32 arithmetic, as far as the scheduler's core count needs it

    [Projects::getFreeCore] and [Projects::loadWorkTime] compute with C++
    [float].  A finite [float] is modelled by the rational it denotes; every
    operation rounds the exact result to 24 significant bits, ties to even,
    with the exponent range of binary32 (subnormals included).  Signed zeros
    are identified: no operation of the program tells them apart. *)

From Stdlib Require Import Setoid QArith Qround Qabs Qpower Lqa.
From S2P Require Import Prelude.
Local Open Scope Q_scope.

(** ** Rounding a rational to a binary floating-point grid *)

Definition q2 (e : Z) : Q := Qpower (2 # 1) e.

Definition ilog2 (q : Q) : Z :=
  let n := Qnum q in
  let d := Zpos (Qden q) in
  let e := (Z.log2 n - Z.log2 d)%Z in
  if (2 ^ Z.max e 0 * d <=? n * 2 ^ Z.max (- e) 0)%Z then e else (e - 1)%Z.

(** Round to the nearest integer, ties to even. *)
Definition rne (a : Q) : Z :=
  let f := Qfloor a in
  match Qcompare (a - inject_Z f) (1 # 2) with
  | Lt => f
  | Gt => (f + 1)%Z
  | Eq => if Z.even f then f else (f + 1)%Z
  end.

Definition ulp_exp (p emin : Z) (q : Q) : Z := Z.max (ilog2 q - (p - 1)) emin.

Definition round_pos (p emin : Z) (q : Q) : Q :=
  let e := ulp_exp p emin q in
  inject_Z (rne (q * q2 (- e))) * q2 e.

Definition round (p emin : Z) (q : Q) : Q :=
  match Qcompare q 0 with
  | Eq => 0
  | Gt => round_pos p emin q
  | Lt => - round_pos p emin (- q)
  end.

(** ** Values and operations of [float] *)

Inductive f32 := F_fin (q : Q) | F_inf (neg : bool) | F_nan.

#[export] Instance f32_eq_dec : EqDecision f32.
Proof. intros a b. unfold Decision. repeat decide equality. Defined.

Definition f32_max_bound : Q := q2 128.

(** The [float] nearest to an exact result. *)
Definition mk_f32 (q : Q) : f32 :=
  let r := round 24 (-149) q in
  if Qle_bool f32_max_bound r then F_inf false
  else if Qle_bool r (- f32_max_bound) then F_inf true
  else F_fin (Qred r).

Definition Qneg_b (q : Q) : bool := (Qnum q <? 0)%Z.

Definition f32_of_Z (z : Z) : f32 := mk_f32 (inject_Z z).

Definition f32_mul (a b : f32) : f32 :=
  match a, b with
  | F_fin x, F_fin y => mk_f32 (x * y)
  | F_fin x, F_inf s | F_inf s, F_fin x =>
      if Qeq_bool x 0 then F_nan else F_inf (xorb s (Qneg_b x))
  | F_inf s, F_inf t => F_inf (xorb s t)
  | _, _ => F_nan
  end.

(** Division by a positive literal. *)
Definition f32_div_lit (a : f32) (b : Q) : f32 :=
  match a with
  | F_fin x => mk_f32 (x / b)
  | F_inf s => F_inf s
  | F_nan => F_nan
  end.

(** Addition of a finite literal. *)
Definition f32_add_lit (a : f32) (b : Q) : f32 :=
  match a with
  | F_fin x => mk_f32 (x + b)
  | F_inf s => F_inf s
  | F_nan => F_nan
  end.

(** [a < b]; false as soon as one side is a NaN. *)
Definition f32_ltb (a b : f32) : bool :=
  match a, b with
  | F_nan, _ | _, F_nan => false
  | F_fin x, F_fin y => negb (Qle_bool y x)
  | F_inf true, F_inf true => false
  | F_inf true, _ => true
  | _, F_inf false => match a with F_inf false => false | _ => true end
  | _, _ => false
  end.

(** [std::clamp (v, lo, hi)]. *)
Definition f32_clamp (v lo hi : f32) : f32 :=
  if f32_ltb v lo then lo else if f32_ltb hi v then hi else v.

(** [static_cast<uint32_t>]: truncation towards zero, undefined when the
    truncated value does not fit. *)
Definition f32_to_u32 (a : f32) : outcome Z :=
  match a with
  | F_fin q =>
      let t := Z.quot (Qnum q) (Zpos (Qden q)) in
      if ((0 <=? t) && (t <? 2 ^ 32))%Z then Ret t else UB
  | _ => UB
  end.

(** ** Powers of two *)

Lemma q2_pos e : 0 < q2 e.
Proof. apply Qpower_0_lt. reflexivity. Qed.

Lemma q2_add a b : q2 (a + b) == q2 a * q2 b.
Proof. apply Qpower_plus. discriminate. Qed.

Lemma q2_mono a b : (a <= b)%Z -> q2 a <= q2 b.
Proof. intros H. apply Qpower_le_compat_l; [done|discriminate]. Qed.

Lemma q2_Z e : (0 <= e)%Z -> q2 e == inject_Z (2 ^ e).
Proof. intros H. unfold q2. rewrite (Zpower_Qpower 2 e H). reflexivity. Qed.

Lemma q2_opp e : q2 e * q2 (- e) == 1.
Proof. rewrite <- q2_add. replace (e + - e)%Z with 0%Z by lia. reflexivity. Qed.

Lemma q2_S e : q2 (e + 1) == 2 * q2 e.
Proof. rewrite q2_add. change (q2 1) with (2 # 1). ring. Qed.

(** Comparing a power of two with a fraction is comparing integers. *)
Lemma q2_mul_den e : q2 e * inject_Z (2 ^ Z.max (- e) 0) == inject_Z (2 ^ Z.max e 0).
Proof.
  rewrite <- !q2_Z, <- q2_add by lia.
  replace (e + Z.max (- e) 0)%Z with (Z.max e 0) by lia. reflexivity.
Qed.

Lemma inject_Z_pos z : (0 < z)%Z -> 0 < inject_Z z.
Proof. intros H. change 0 with (inject_Z 0). now rewrite <- Zlt_Qlt. Qed.

Lemma frac_mul n d : (n # d) * inject_Z (Zpos d) == inject_Z n.
Proof. unfold Qeq; simpl. lia. Qed.

Lemma q2_le_frac e n d :
  q2 e <= n # d <-> (2 ^ Z.max e 0 * Zpos d <= n * 2 ^ Z.max (- e) 0)%Z.
Proof.
  set (b := (2 ^ Z.max (- e) 0)%Z).
  assert (Hb : (0 < b)%Z) by (apply Z.pow_pos_nonneg; lia).
  rewrite Zle_Qle, !inject_Z_mult, <- q2_mul_den.
  fold b. rewrite <- (frac_mul n d).
  rewrite <- (Qmult_le_r (q2 e) (n # d) (inject_Z b * inject_Z (Zpos d))).
  - setoid_replace (q2 e * inject_Z b * inject_Z (Zpos d))
      with (q2 e * (inject_Z b * inject_Z (Zpos d))) using relation Qeq by ring.
    setoid_replace ((n # d) * inject_Z (Zpos d) * inject_Z b)
      with ((n # d) * (inject_Z b * inject_Z (Zpos d))) using relation Qeq by ring.
    reflexivity.
  - apply Qmult_lt_0_compat; apply inject_Z_pos; lia.
Qed.

Lemma ilog2_spec q : 0 < q -> q2 (ilog2 q) <= q /\ q < q2 (ilog2 q + 1).
Proof.
  destruct q as [n d]; intros Hq.
  assert (Hn : (0 < n)%Z) by (unfold Qlt in Hq; simpl in Hq; lia).
  unfold ilog2; simpl Qnum; simpl Qden.
  pose proof (Z.log2_spec n Hn) as [Hn1 Hn2].
  pose proof (Z.log2_spec (Zpos d) eq_refl) as [Hd1 Hd2].
  pose proof (Z.log2_nonneg n); pose proof (Z.log2_nonneg (Zpos d)).
  set (ln := Z.log2 n) in *; set (ld := Z.log2 (Zpos d)) in *.
  assert (Hlo : q2 (ln - ld - 1) <= n # d).
  { apply q2_le_frac. etransitivity.
    - apply Z.mul_le_mono_nonneg_l; [lia|]. apply Z.lt_le_incl, Hd2.
    - rewrite <- Z.pow_add_r by lia.
      etransitivity; [|apply Z.mul_le_mono_nonneg_r; [lia|exact Hn1]].
      rewrite <- Z.pow_add_r by lia. apply Z.pow_le_mono_r; lia. }
  assert (Hhi : n # d < q2 (ln - ld + 1)).
  { apply Qnot_le_lt. rewrite q2_le_frac. apply Z.lt_nge.
    eapply Z.lt_le_trans.
    - apply Z.mul_lt_mono_pos_r; [apply pow2_pos; lia|exact Hn2].
    - rewrite <- Z.pow_add_r by lia.
      etransitivity; [|apply Z.mul_le_mono_nonneg_l; [lia|exact Hd1]].
      rewrite <- Z.pow_add_r by lia. apply Z.pow_le_mono_r; lia. }
  destruct (Z.leb_spec (2 ^ Z.max (ln - ld) 0 * Zpos d) (n * 2 ^ Z.max (- (ln - ld)) 0))
    as [E|E].
  - split; [now apply q2_le_frac|exact Hhi].
  - split; [exact Hlo|]. apply Qnot_le_lt. rewrite q2_le_frac.
    replace (ln - ld - 1 + 1)%Z with (ln - ld)%Z by lia. lia.
Qed.

(** The exponent of the binade is determined by its bounds. *)
Lemma ilog2_mono x y : 0 < x -> x <= y -> (ilog2 x <= ilog2 y)%Z.
Proof.
  intros Hx Hxy.
  assert (Hy : 0 < y) by (eapply Qlt_le_trans; eauto).
  destruct (ilog2_spec x Hx) as [Hx1 _], (ilog2_spec y Hy) as [_ Hy2].
  destruct (Z.le_gt_cases (ilog2 x) (ilog2 y)) as [?|H]; [done|].
  exfalso. apply (Qlt_irrefl (q2 (ilog2 x))).
  eapply Qle_lt_trans; [exact Hx1|]. eapply Qle_lt_trans; [exact Hxy|].
  eapply Qlt_le_trans; [exact Hy2|]. apply q2_mono. lia.
Qed.

(** ** Rounding to an integer *)

Lemma rne_cases a :
  (rne a = Qfloor a /\ a - inject_Z (Qfloor a) <= 1 # 2) \/
  (rne a = (Qfloor a + 1)%Z /\ 1 # 2 <= a - inject_Z (Qfloor a)).
Proof.
  unfold rne. destruct (Qcompare_spec (a - inject_Z (Qfloor a)) (1 # 2)) as [E|E|E].
  - destruct (Z.even _); [left|right]; split; try done; lra.
  - left; split; [done|lra].
  - right; split; [done|lra].
Qed.

Lemma rne_bounds a : inject_Z (rne a) - (1 # 2) <= a /\ a <= inject_Z (rne a) + (1 # 2).
Proof.
  pose proof (Qfloor_le a); pose proof (Qlt_floor a) as H2.
  rewrite inject_Z_plus in H2. change (inject_Z 1) with 1 in H2.
  destruct (rne_cases a) as [[-> H1]|[-> H1]];
    [|rewrite inject_Z_plus; change (inject_Z 1) with 1]; lra.
Qed.

#[export] Instance rne_proper : Proper (Qeq ==> eq) rne.
Proof.
  intros a b E. unfold rne. rewrite (Qfloor_comp a b E).
  enough (H : Qcompare (a - inject_Z (Qfloor b)) (1 # 2)
            = Qcompare (b - inject_Z (Qfloor b)) (1 # 2)) by now rewrite H.
  apply Qcompare_comp; [|reflexivity]. now apply Qplus_comp.
Qed.

Lemma rne_mono a b : a <= b -> (rne a <= rne b)%Z.
Proof.
  intros Hab. destruct (Z.le_gt_cases (rne a) (rne b)) as [?|H]; [done|].
  assert (Hq : inject_Z (rne b) + 1 <= inject_Z (rne a)).
  { change 1 with (inject_Z 1). rewrite <- inject_Z_plus, <- Zle_Qle. lia. }
  pose proof (rne_bounds a) as [Ha _]; pose proof (rne_bounds b) as [_ Hb].
  assert (E : a == b) by lra. rewrite E. lia.
Qed.

Lemma rne_Z z : rne (inject_Z z) = z.
Proof.
  pose proof (rne_bounds (inject_Z z)) as [H1 H2].
  assert (H3 : inject_Z (rne (inject_Z z)) < inject_Z (z + 1))
    by (rewrite inject_Z_plus; change (inject_Z 1) with 1; lra).
  assert (H4 : inject_Z z < inject_Z (rne (inject_Z z) + 1))
    by (rewrite inject_Z_plus; change (inject_Z 1) with 1; lra).
  rewrite <- Zlt_Qlt in H3, H4. lia.
Qed.

(** ** Rounding to a floating-point grid *)

Section rounding.
Context (p emin : Z) (Hp : (1 <= p)%Z).

Lemma grid_scale x z e : x <= inject_Z z * q2 e <-> x * q2 (- e) <= inject_Z z.
Proof.
  rewrite <- (Qmult_le_r x _ (q2 (- e))) by apply q2_pos.
  rewrite <- Qmult_assoc, q2_opp, Qmult_1_r. reflexivity.
Qed.

Lemma grid_scale_ge x z e : inject_Z z * q2 e <= x <-> inject_Z z <= x * q2 (- e).
Proof.
  rewrite <- (Qmult_le_r _ x (q2 (- e))) by apply q2_pos.
  rewrite <- Qmult_assoc, q2_opp, Qmult_1_r. reflexivity.
Qed.

Lemma round_pos_le_grid x z :
  x <= inject_Z z * q2 (ulp_exp p emin x) ->
  round_pos p emin x <= inject_Z z * q2 (ulp_exp p emin x).
Proof.
  intros H%grid_scale. apply Qmult_le_compat_r; [|apply Qlt_le_weak, q2_pos].
  apply rne_mono in H. rewrite rne_Z in H. now rewrite <- Zle_Qle.
Qed.

Lemma round_pos_ge_grid x z :
  inject_Z z * q2 (ulp_exp p emin x) <= x ->
  inject_Z z * q2 (ulp_exp p emin x) <= round_pos p emin x.
Proof.
  intros H%grid_scale_ge. apply Qmult_le_compat_r; [|apply Qlt_le_weak, q2_pos].
  apply rne_mono in H. rewrite rne_Z in H. now rewrite <- Zle_Qle.
Qed.

Lemma q2_on_grid k e : (e <= k)%Z -> q2 k == inject_Z (2 ^ (k - e)) * q2 e.
Proof.
  intros H. rewrite <- q2_Z, <- q2_add by lia.
  replace (k - e + e)%Z with k by lia. reflexivity.
Qed.

(** A multiple of a power of two at least as large as the grid step is
    not changed by rounding. *)
Lemma round_pos_exact x z f :
  x == inject_Z z * q2 f -> (ulp_exp p emin x <= f)%Z -> round_pos p emin x == x.
Proof.
  intros E H. set (e := ulp_exp p emin x) in *.
  assert (E' : x == inject_Z (z * 2 ^ (f - e)) * q2 e).
  { rewrite inject_Z_mult, <- Qmult_assoc, <- q2_on_grid; done. }
  apply Qle_antisym.
  - eapply Qle_trans; [apply round_pos_le_grid|]; apply Qle_lteq; right;
      [exact E'|symmetry; exact E'].
  - eapply Qle_trans; [|apply round_pos_ge_grid]; apply Qle_lteq; right;
      [exact E'|symmetry; exact E'].
Qed.

Lemma round_pos_mono x y : 0 < x -> x <= y -> round_pos p emin x <= round_pos p emin y.
Proof.
  intros Hx Hxy. pose proof (ilog2_mono x y Hx Hxy) as Hlog.
  assert (Hy : 0 < y) by (eapply Qlt_le_trans; eauto).
  destruct (Z.eq_dec (ulp_exp p emin x) (ulp_exp p emin y)) as [E|E].
  - unfold round_pos. rewrite E.
    apply Qmult_le_compat_r; [|apply Qlt_le_weak, q2_pos].
    rewrite <- Zle_Qle. apply rne_mono.
    apply Qmult_le_compat_r; [done|apply Qlt_le_weak, q2_pos].
  - set (k := ilog2 y).
    assert (Hk : (ilog2 x < k)%Z) by (unfold ulp_exp in E; lia).
    assert (Hk' : (ulp_exp p emin x <= k)%Z) by (unfold ulp_exp in *; lia).
    assert (Hk'' : (ulp_exp p emin y <= k)%Z) by (unfold ulp_exp in *; lia).
    apply (Qle_trans _ (q2 k)).
    + rewrite (q2_on_grid _ _ Hk'). apply round_pos_le_grid.
      rewrite <- (q2_on_grid _ _ Hk'). destruct (ilog2_spec x Hx) as [_ H].
      apply Qlt_le_weak, (Qlt_le_trans _ _ _ H), q2_mono. lia.
    + rewrite (q2_on_grid _ _ Hk''). apply round_pos_ge_grid.
      rewrite <- (q2_on_grid _ _ Hk''). apply ilog2_spec, Hy.
Qed.

Lemma round_pos_nonneg x : 0 < x -> 0 <= round_pos p emin x.
Proof.
  intros Hx. setoid_replace 0 with (inject_Z 0 * q2 (ulp_exp p emin x))
    using relation Qeq by (unfold Qeq; simpl; lia).
  apply round_pos_ge_grid. rewrite Qmult_0_l. now apply Qlt_le_weak.
Qed.
End rounding.

Lemma round_of_pos p emin x : 0 < x -> round p emin x = round_pos p emin x.
Proof. intros H%Qgt_alt. unfold round. now rewrite H. Qed.

Lemma round_of_zero p emin x : x == 0 -> round p emin x = 0.
Proof. intros H%Qeq_alt. unfold round. now rewrite H. Qed.

Lemma round_mono p emin x y :
  (1 <= p)%Z -> 0 <= x -> x <= y -> 0 <= round p emin x <= round p emin y.
Proof.
  intros Hp Hx Hxy. apply Qle_lteq in Hx as [Hx|Hx].
  - assert (Hy : 0 < y) by (eapply Qlt_le_trans; eauto).
    rewrite !round_of_pos by done. split; [now apply round_pos_nonneg|].
    now apply round_pos_mono.
  - rewrite round_of_zero by (now symmetry). split; [apply Qle_refl|].
    destruct (Qlt_le_dec 0 y) as [Hy|Hy].
    + rewrite round_of_pos by done. now apply round_pos_nonneg.
    + rewrite round_of_zero; [apply Qle_refl|]. lra.
Qed.

Lemma ilog2_lt x k : 0 < x -> x < q2 k -> (ilog2 x < k)%Z.
Proof.
  intros Hx H. destruct (Z.lt_ge_cases (ilog2 x) k) as [?|Hk]; [done|].
  exfalso. apply (Qlt_irrefl x). eapply Qlt_le_trans; [exact H|].
  eapply Qle_trans; [apply q2_mono, Hk|]. apply ilog2_spec, Hx.
Qed.

(** ** Exactness and bounds for [float] *)

Definition is_f32 (q : Q) : Prop := 0 < q /\ q < f32_max_bound /\ round 24 (-149) q == q.

(** Integers and half-integers of small magnitude are [float]s. *)
Lemma is_f32_half n : (0 < n < 2 ^ 24)%Z -> is_f32 (n # 2).
Proof.
  intros Hn. assert (Hpos : 0 < n # 2) by (unfold Qlt; simpl; lia).
  assert (Hlt : n # 2 < q2 23) by (unfold Qlt, q2; simpl; lia).
  split; [done|]. split.
  - eapply Qlt_trans; [exact Hlt|]. reflexivity.
  - rewrite round_of_pos by done. apply (round_pos_exact 24 (-149) _ n (-1)).
    + unfold Qeq, q2; simpl. lia.
    + pose proof (ilog2_lt _ _ Hpos Hlt). unfold ulp_exp. lia.
Qed.

Lemma is_f32_int n : (0 < n < 2 ^ 24)%Z -> is_f32 (inject_Z n).
Proof.
  intros Hn. assert (Hpos : 0 < inject_Z n) by (apply inject_Z_pos; lia).
  assert (Hlt : inject_Z n < q2 24) by (rewrite q2_Z, <- Zlt_Qlt; lia).
  split; [done|]. split.
  - eapply Qlt_trans; [exact Hlt|]. reflexivity.
  - rewrite round_of_pos by done. apply (round_pos_exact 24 (-149) _ n 0).
    + now rewrite Qmult_1_r.
    + pose proof (ilog2_lt _ _ Hpos Hlt). unfold ulp_exp. lia.
Qed.

(** Rounding never crosses a [float]. *)
Lemma mk_f32_le q b :
  is_f32 b -> 0 <= q -> q <= b ->
  exists r, mk_f32 q = F_fin r /\ r == round 24 (-149) q /\ 0 <= r /\ r <= b.
Proof.
  intros (Hb0 & Hb1 & Hb2) Hq Hqb.
  pose proof (round_mono 24 (-149) q b ltac:(lia) Hq Hqb) as [H0 H1].
  rewrite Hb2 in H1. set (r := round 24 (-149) q) in *.
  exists (Qred r). pose proof (Qred_correct r) as Er. split; [|lra].
  unfold mk_f32. fold r.
  replace (Qle_bool f32_max_bound r) with false.
  - replace (Qle_bool r (- f32_max_bound)) with false; [done|].
    symmetry. apply not_true_is_false. rewrite Qle_bool_iff.
    apply Qlt_not_le. eapply Qlt_le_trans; [|exact H0]. reflexivity.
  - symmetry. apply not_true_is_false. rewrite Qle_bool_iff.
    apply Qlt_not_le. eapply Qle_lt_trans; eauto.
Qed.

Lemma mk_f32_exact b : is_f32 b -> mk_f32 b = F_fin (Qred b).
Proof.
  intros Hb. destruct (mk_f32_le b b Hb) as (r & Hr & Hr' & _);
    [apply Qlt_le_weak, Hb|apply Qle_refl|].
  unfold mk_f32 in *. destruct (Qle_bool _ _); [done|].
  destruct (Qle_bool _ _); [done|]. f_equal. apply Qred_complete, Hb.
Qed.

(** Truncation of a small non-negative [float] succeeds. *)
Lemma f32_to_u32_fin q n :
  0 <= q -> q < inject_Z (n + 1) -> (0 <= n < 2 ^ 32)%Z ->
  exists t, f32_to_u32 (F_fin q) = Ret t /\ (0 <= t <= n)%Z.
Proof.
  destruct q as [a d]; intros H0 H1 Hn. unfold f32_to_u32; simpl.
  unfold Qle in H0; unfold Qlt in H1; simpl in H0, H1.
  rewrite Z.quot_div_nonneg by lia.
  assert (Hd : (0 <= a / Zpos d <= n)%Z).
  { split; [apply Z.div_pos; lia|].
    apply Z.lt_succ_r, Z.div_lt_upper_bound; lia. }
  exists (a / Zpos d)%Z. split; [|done].
  replace ((0 <=? _) && _)%Z with true; [done|]. symmetry. lia.
Qed.

(** A clamped value that is not a NaN lies in the interval. *)
Lemma f32_clamp_range v lo hi :
  lo <= hi -> v <> F_nan ->
  exists q, f32_clamp v (F_fin lo) (F_fin hi) = F_fin q /\ lo <= q /\ q <= hi.
Proof.
  intros Hlh Hv. unfold f32_clamp. destruct v as [q|[]|]; simpl; [|eauto using Qle_refl..|done].
  - destruct (Qle_bool lo q) eqn:E1; simpl.
    + destruct (Qle_bool q hi) eqn:E2; simpl.
      * apply Qle_bool_iff in E1, E2. eauto.
      * exists hi; auto using Qle_refl.
    + exists lo; auto using Qle_refl.
Qed.

Lemma f32_to_u32_mono q1 q2 t1 t2 :
  0 <= q1 -> q1 <= q2 ->
  f32_to_u32 (F_fin q1) = Ret t1 -> f32_to_u32 (F_fin q2) = Ret t2 -> (t1 <= t2)%Z.
Proof.
  destruct q1 as [a b], q2 as [c d]; unfold Qle, f32_to_u32; simpl. intros H0 Hle H1 H2.
  repeat case_match; simplify_eq.
  rewrite !Z.quot_div_nonneg by nia.
  apply Z.div_le_lower_bound; [lia|].
  pose proof (Z.mul_div_le a (Zpos b) ltac:(lia)).
  apply (Z.mul_le_mono_pos_r _ _ (Zpos b)); [lia|]. nia.
Qed.
