(* ===== verification/CxxStd.v ===== *)
(** * The C++ standard library, as far as the program uses it

    [std::string] is [string] (a list of bytes), positions are [size_t]
    values in [Z].  [std::get_time] and [std::atof] follow the C and C++
    standards in the "C" locale. *)

From Stdlib Require Import QArith Ascii String.
From S2P Require Import Prelude Float32.
Local Open Scope string_scope.
Local Open Scope Z_scope.

(** ** std::string *)

Definition str_len (s : string) : Z := Z.of_nat (String.length s).

(** [s.find(c)], [None] for [npos]. *)
Fixpoint find_char (c : ascii) (s : string) : option Z :=
  match s with
  | EmptyString => None
  | String a s' => if ascii_dec a c then Some 0 else (Z.add 1) <$> find_char c s'
  end.

(** [s.rfind(c)]. *)
Fixpoint rfind_char (c : ascii) (s : string) : option Z :=
  match s with
  | EmptyString => None
  | String a s' =>
      match rfind_char c s' with
      | Some k => Some (1 + k)
      | None => if ascii_dec a c then Some 0 else None
      end
  end.

(** [s.substr(pos)] and [s.substr(pos, n)]: throw when [pos > size()]. *)
Definition substr_from (s : string) (pos : Z) : outcome string :=
  if str_len s <? pos then Throw out_of_range
  else Ret (String.substring (Z.to_nat pos) (String.length s - Z.to_nat pos) s).

Definition substr (s : string) (pos n : Z) : outcome string :=
  if str_len s <? pos then Throw out_of_range
  else Ret (String.substring (Z.to_nat pos)
              (Nat.min (Z.to_nat n) (String.length s - Z.to_nat pos)) s).

(** The bytes of a C string: everything before the first NUL; [None] when
    there is none. *)
Fixpoint c_str_prefix (s : string) : option string :=
  match s with
  | EmptyString => None
  | String a s' => if ascii_dec a zero then Some "" else String a <$> c_str_prefix s'
  end.

(** What a function that takes [s.c_str()] sees. *)
Definition c_str (s : string) : string := default s (c_str_prefix s).

Definition empty (s : string) : bool := match s with EmptyString => true | _ => false end.

(** ** Characters *)

Definition chr (a : ascii) : Z := Z.of_nat (nat_of_ascii a).

Definition isspace (a : ascii) : bool := (chr a =? 32) || ((9 <=? chr a) && (chr a <=? 13)).

Definition digit_val (base : Z) (a : ascii) : option Z :=
  let c := chr a in
  let v := if (48 <=? c) && (c <=? 57) then Some (c - 48)
           else if (97 <=? c) && (c <=? 122) then Some (c - 87)
           else if (65 <=? c) && (c <=? 90) then Some (c - 55)
           else None in
  match v with Some d => if d <? base then Some d else None | None => None end.

Fixpoint skip_ws (s : string) : string :=
  match s with
  | String a s' => if isspace a then skip_ws s' else s
  | EmptyString => s
  end.

(** ** std::get_time(&t, "%H:%M") *)

(** A numeric field of at most two digits with an upper bound. *)
Definition get_num (hi : Z) (s : string) : option (Z * string) :=
  match s with
  | String a s1 =>
      match digit_val 10 a with
      | None => None
      | Some d1 =>
          let '(v, r) :=
            match s1 with
            | String b s2 =>
                match digit_val 10 b with
                | Some d2 => (10 * d1 + d2, s2)
                | None => (d1, s1)
                end
            | EmptyString => (d1, s1)
            end in
          if v <=? hi then Some (v, r) else None
      end
  | EmptyString => None
  end.

(** [None] is a stream left in the failed state. *)
Definition get_time_HM (s : string) : option (Z * Z) :=
  match get_num 23 (skip_ws s) with
  | Some (h, String c r) =>
      if ascii_dec c ":" then
        match get_num 59 r with
        | Some (m, _) => Some (h, m)
        | None => None
        end
      else None
  | _ => None
  end.

Lemma digit_val_range base a d : digit_val base a = Some d -> 0 <= d < base.
Proof.
  unfold digit_val. intros H. repeat case_match; simplify_eq; lia.
Qed.

Lemma get_num_range hi s v r : get_num hi s = Some (v, r) -> 0 <= v <= hi.
Proof.
  unfold get_num. intros H.
  destruct s as [|a s1]; [done|]. destruct (digit_val 10 a) eqn:E1; [|done].
  apply digit_val_range in E1.
  destruct s1 as [|b s2]; [|destruct (digit_val 10 b) eqn:E2];
    try apply digit_val_range in E2; case_match; simplify_eq; lia.
Qed.

Lemma get_time_HM_range s h m : get_time_HM s = Some (h, m) -> 0 <= h <= 23 /\ 0 <= m <= 59.
Proof.
  unfold get_time_HM. intros H. repeat case_match; simplify_eq.
  eauto using get_num_range.
Qed.

(** ** std::atof *)

(** A [double] before it is rounded. *)
Inductive xnum := X_fin (q : Q) | X_inf (neg : bool) | X_nan.

Fixpoint take_digits (base : Z) (s : string) (acc n : Z) : Z * Z * string :=
  match s with
  | String a s' =>
      match digit_val base a with
      | Some d => take_digits base s' (acc * base + d) (n + 1)
      | None => (acc, n, s)
      end
  | EmptyString => (acc, n, s)
  end.

Definition take_sign (s : string) : bool * string :=
  match s with
  | String a s' =>
      if ascii_dec a "-" then (true, s')
      else if ascii_dec a "+" then (false, s') else (false, s)
  | EmptyString => (false, s)
  end.

(** The exponent after the marker [lo] or [up]; 0 when it is missing. *)
Definition take_exp (lo up : ascii) (s : string) : Z :=
  match s with
  | String a s' =>
      if bool_decide (a = lo) || bool_decide (a = up) then
        let '(neg, r) := take_sign s' in
        let '(v, n, _) := take_digits 10 r 0 0 in
        if n =? 0 then 0 else if neg then - v else v
      else 0
  | EmptyString => 0
  end.

(** The digits of a mantissa: its value without the point, the number of
    digits, the number of digits after the point, the rest. *)
Definition take_mantissa (base : Z) (s : string) : Z * Z * Z * string :=
  let '(ip, n1, r) := take_digits base s 0 0 in
  match r with
  | String a r' =>
      if ascii_dec a "." then
        let '(m, n2, r'') := take_digits base r' ip 0 in (m, n1 + n2, n2, r'')
      else (ip, n1, 0, r)
  | EmptyString => (ip, n1, 0, r)
  end.

Definition to_lower_char (a : ascii) : ascii :=
  if (65 <=? chr a) && (chr a <=? 90) then ascii_of_nat (Z.to_nat (chr a + 32)) else a.

Fixpoint to_lower (s : string) : string :=
  match s with
  | EmptyString => EmptyString
  | String a s' => String (to_lower_char a) (to_lower s')
  end.

Definition Zpow_Q (b e : Z) : Q := Qpower (inject_Z b) e.

Definition strtod_abs (s : string) : xnum :=
  let l := to_lower s in
  if String.prefix "0x" l && negb (snd (fst (fst (take_mantissa 16 (String.substring 2 (String.length s) s)))) =? 0)
  then
    let '(m, _, f, r) := take_mantissa 16 (String.substring 2 (String.length s) s) in
    X_fin (inject_Z m * Zpow_Q 16 (- f) * Zpow_Q 2 (take_exp "p" "P" r))
  else if String.prefix "inf" l then X_inf false
  else if String.prefix "nan" l then X_nan
  else
    let '(m, n, f, r) := take_mantissa 10 s in
    if n =? 0 then X_fin 0
    else X_fin (inject_Z m * Zpow_Q 10 (take_exp "e" "E" r - f)).

Definition round_f64 (x : xnum) : xnum :=
  match x with
  | X_fin q =>
      let r := round 53 (-1074) q in
      if Qle_bool (q2 1024) r then X_inf false
      else if Qle_bool r (- q2 1024) then X_inf true else X_fin (Qred r)
  | _ => x
  end.

Definition atof (s : string) : xnum :=
  let '(neg, r) := take_sign (skip_ws s) in
  round_f64
    match strtod_abs r with
    | X_fin q => X_fin (if neg then - q else q)%Q
    | X_inf _ => X_inf neg
    | X_nan => X_nan
    end.

(** [static_cast<float>] of a [double]. *)
Definition f32_of_f64 (x : xnum) : f32 :=
  match x with
  | X_fin q => mk_f32 q
  | X_inf s => F_inf s
  | X_nan => F_nan
  end.

Example atof_decimal : f32_of_f64 (atof " 62.5%") = F_fin (125 # 2).
Proof. vm_compute. reflexivity. Qed.
Example atof_exponent : f32_of_f64 (atof "-1.5e2") = F_fin (-150 # 1).
Proof. vm_compute. reflexivity. Qed.
Example atof_hex : f32_of_f64 (atof "0x1F") = F_fin (31 # 1).
Proof. vm_compute. reflexivity. Qed.
Example atof_tenth : f32_of_f64 (atof "0.1") = F_fin (13421773 # 134217728).
Proof. vm_compute. reflexivity. Qed.
Example atof_none : f32_of_f64 (atof "abc") = F_fin 0.
Proof. vm_compute. reflexivity. Qed.
Example get_time_example : get_time_HM "09:30" = Some (9, 30).
Proof. reflexivity. Qed.
Example get_time_bad_hour : get_time_HM "24:00" = None.
Proof. reflexivity. Qed.
