(* ===== verification/Bytes.v ===== *)
(** * Bytes in memory

    Little-endian numbers as lists of bytes, and C strings as bytes: shared
    by the discovery packet and the wire format. *)

From Stdlib Require Import String Ascii.
From S2P Require Import Prelude CxxStd.
Local Open Scope string_scope.
Local Open Scope Z_scope.
Local Open Scope list_scope.

Abbreviation bytes := (list Z).

Definition is_byte (b : Z) : Prop := 0 <= b < 256.

(** The [n] low bytes of [z], least significant first. *)
Fixpoint le_bytes (n : nat) (z : Z) : bytes :=
  match n with
  | O => []
  | S n => z mod 256 :: le_bytes n (z / 256)
  end.

Fixpoint le_value (l : bytes) : Z :=
  match l with
  | [] => 0
  | b :: l => b + 256 * le_value l
  end.

Lemma le_bytes_length n z : length (le_bytes n z) = n.
Proof. revert z; induction n; simpl; auto. Qed.

Lemma le_bytes_byte n z : Forall is_byte (le_bytes n z).
Proof.
  revert z; induction n as [|n IH]; intros z; simpl; constructor; [|done].
  apply Z.mod_pos_bound. lia.
Qed.

Lemma le_value_bytes n z : le_value (le_bytes n z) = z mod 256 ^ Z.of_nat n.
Proof.
  revert z. induction n as [|n IH]; intros z; [by rewrite Z.mod_1_r|].
  cbn [le_bytes le_value]. rewrite IH, Nat2Z.inj_succ, Z.pow_succ_r by lia.
  rewrite (Z.rem_mul_r z 256) by lia. done.
Qed.

Lemma le_roundtrip n z : 0 <= z < 256 ^ Z.of_nat n -> le_value (le_bytes n z) = z.
Proof. intros Hz. rewrite le_value_bytes. by apply Z.mod_small. Qed.

Lemma le_value_range l : Forall is_byte l -> 0 <= le_value l < 256 ^ Z.of_nat (length l).
Proof.
  induction 1 as [|b l Hb Hl IH]; [simpl; lia|].
  cbn [le_value length]. rewrite Nat2Z.inj_succ, Z.pow_succ_r by lia. unfold is_byte in *. lia.
Qed.

Lemma le_bytes_value l : Forall is_byte l -> le_bytes (length l) (le_value l) = l.
Proof.
  induction 1 as [|b l Hb Hl IH]; [done|]. cbn [le_value length le_bytes]. unfold is_byte in *.
  rewrite (Z.mul_comm 256), Z_mod_plus_full, Z.mod_small, Z.div_add by lia.
  rewrite Z.div_small, Z.add_0_l by lia. by rewrite IH.
Qed.

(** ** Characters and bytes *)

Definition bytes_of_string (s : string) : bytes := chr <$> list_ascii_of_string s.

Definition ascii_of_Z (b : Z) : ascii := ascii_of_nat (Z.to_nat b).

Definition string_of_bytes (l : bytes) : string := string_of_list_ascii (ascii_of_Z <$> l).

Lemma ascii_of_chr a : ascii_of_Z (chr a) = a.
Proof. unfold ascii_of_Z, chr. by rewrite Nat2Z.id, ascii_nat_embedding. Qed.

Lemma chr_byte a : is_byte (chr a).
Proof. unfold is_byte, chr. pose proof (nat_ascii_bounded a). lia. Qed.

Lemma chr_of_Z b : is_byte b -> chr (ascii_of_Z b) = b.
Proof. unfold is_byte, ascii_of_Z, chr. intros Hb. rewrite nat_ascii_embedding by lia. lia. Qed.

Lemma bytes_of_string_byte s : Forall is_byte (bytes_of_string s).
Proof. unfold bytes_of_string. apply Forall_fmap, Forall_true. intros a. apply chr_byte. Qed.

Lemma bytes_of_string_length s : length (bytes_of_string s) = String.length s.
Proof. unfold bytes_of_string. rewrite length_fmap. induction s; simpl; auto. Qed.

Lemma string_bytes_string s : string_of_bytes (bytes_of_string s) = s.
Proof.
  unfold string_of_bytes, bytes_of_string. rewrite <- list_fmap_compose.
  rewrite (list_fmap_ext _ id); [rewrite list_fmap_id; apply string_of_list_ascii_of_string|].
  intros i a _. simpl. apply ascii_of_chr.
Qed.

Lemma bytes_string_bytes l : Forall is_byte l -> bytes_of_string (string_of_bytes l) = l.
Proof.
  intros Hl. unfold string_of_bytes, bytes_of_string. rewrite list_ascii_of_string_of_list_ascii.
  induction Hl as [|b l Hb Hl IH]; [done|]. csimpl. by rewrite IH, chr_of_Z.
Qed.

(** The C string at the start of a buffer: [None] when it is not terminated. *)
Fixpoint c_string (l : bytes) : option string :=
  match l with
  | [] => None
  | b :: l => if b =? 0 then Some "" else String (ascii_of_Z b) <$> c_string l
  end.

(** No byte of the string is the terminator. *)
Definition nul_free (s : string) : Prop := Forall (fun b => b <> 0) (bytes_of_string s).

#[export] Instance nul_free_dec s : Decision (nul_free s).
Proof. unfold nul_free. apply _. Defined.

Lemma c_string_app s l : nul_free s -> c_string (bytes_of_string s ++ 0 :: l) = Some s.
Proof.
  unfold nul_free, bytes_of_string. induction s as [|a s IH]; csimpl; intros Hs; [done|].
  apply Forall_cons in Hs as [Ha Hs]. destruct (Z.eqb_spec (chr a) 0); [done|].
  rewrite IH by done. simpl. by rewrite ascii_of_chr.
Qed.
