(* ===== verification/External.v ===== *)
(** * Interfaces to the code the repository does not contain

    The program is written against two git submodules, [external/tinyxml2]
    and [external/smallUtils], and against protobuf code generated at build
    time.  None of it is in the repository, so each appears here as a type
    class: the operations the program calls, with the few laws of their
    documentation that the theorems use.  Each class has a concrete instance,
    which shows that its laws can hold and lets the model be run. *)

From Stdlib Require Import Ascii String.
From S2P Require Import Prelude CxxStd.
Local Open Scope string_scope.
Local Open Scope Z_scope.

(** ** tinyxml2 and its smallUtils helper *)

Class XmlDom (D E : Type) := {
  doc_FirstChildElement : D -> string -> option E;
  FirstChildElement : E -> string -> option E;
  NextSiblingElement : E -> string -> option E;
  GetText : E -> option string;
  getAttributeString : E -> string -> string -> bool -> string;
  getAttributeBool : E -> string -> bool -> bool;
  (** Documents are finite: walking right along a sibling chain ends. *)
  sib_rank : E -> nat;
  sib_rank_next e n e' : NextSiblingElement e n = Some e' -> (sib_rank e' < sib_rank e)%nat;
}.

Section xml_loop.
Context `{XmlDom D E}.

(** The elements visited by
    [for (auto e = r->FirstChildElement(n); e; e = e->NextSiblingElement(n))],
    with the rank of the first one as the bound on the number of steps. *)
Fixpoint chain (fuel : nat) (n : string) (o : option E) : list E :=
  match fuel, o with
  | S fuel', Some e => e :: chain fuel' n (NextSiblingElement e n)
  | _, _ => []
  end.

Definition elements_from (n : string) (o : option E) : list E :=
  match o with Some e => chain (S (sib_rank e)) n o | None => [] end.

Definition children (r : E) (n : string) : list E :=
  elements_from n (FirstChildElement r n).

Lemma chain_fuel n o k1 k2 :
  (forall e, o = Some e -> (sib_rank e < k1)%nat /\ (sib_rank e < k2)%nat) ->
  chain k1 n o = chain k2 n o.
Proof.
  revert o k2; induction k1 as [|k1 IH]; intros o k2 Hk; destruct o as [e|].
  - specialize (Hk e eq_refl). lia.
  - now destruct k2.
  - destruct (Hk e eq_refl) as [H1 H2]. destruct k2 as [|k2]; [lia|]. simpl. f_equal.
    apply IH. intros e' He'. pose proof (sib_rank_next _ _ _ He'). lia.
  - now destruct k2.
Qed.

(** The bound is enough: the loop visits the first element and then goes
    on from its next sibling until there is none. *)
Lemma elements_from_unfold n e :
  elements_from n (Some e) = e :: elements_from n (NextSiblingElement e n).
Proof.
  unfold elements_from at 1. simpl chain. f_equal.
  destruct (NextSiblingElement e n) as [e'|] eqn:He; simpl.
  - apply (chain_fuel n (Some e') (sib_rank e) (S (sib_rank e'))).
    intros ? [= <-]. pose proof (sib_rank_next _ _ _ He). lia.
  - now destruct (sib_rank e).
Qed.
End xml_loop.

(** ** smallUtils: strings *)

Class StringUtils := {
  (** [su::String_replace(s, from, to, flag)] *)
  String_replace : string -> string -> string -> bool -> string;
  String_tolower : string -> string;
  String_rawFilename : string -> string;
  String_filenamePath : string -> string;
  (** [su::fs::addSeparator(path)] *)
  addSeparator : string -> string;
}.

(** [from] occurs in [s]. *)
Definition occurs (from s : string) : Prop := String.index 0 from s <> None.

(** Replacing a text that does not occur changes nothing. *)
Class StringUtilsLaws `{StringUtils} := {
  replace_absent s from to flag :
    ~ occurs from s -> String_replace s from to flag = s;
}.

(** ** smallUtils: files *)

(** [su::fs::load], [su::fs::save] and [su::fs::deleteFile] over the state of
    the disk: result codes, equal to [fs_OK] on success, and the bytes read. *)
Class FileSystem (F : Type) := {
  fs_OK : Z;
  fs_load : F -> string -> Z * string;
  fs_save : F -> string -> string -> Z * F;
  fs_deleteFile : F -> string -> F;
  save_load f path data :
    (fs_save f path data).1 = fs_OK -> fs_load (fs_save f path data).2 path = (fs_OK, data);
}.

(** ** smallUtils: the packet node under a TCP connection *)

(** [su::Net::PacketNode]: a queue of received packets and an outgoing
    stream.  [send] returns the number the library returns. *)
Class PacketNode (N : Type) := {
  countRecvPackets : N -> nat;
  extractRecvPacket : N -> string * N;
  clearRecvPackets : N -> N;
  PacketNode_send : N -> string -> Z * N;
  extract_count n : (0 < countRecvPackets n)%nat ->
    countRecvPackets (extractRecvPacket n).2 = (countRecvPackets n - 1)%nat;
  clear_count n : countRecvPackets (clearRecvPackets n) = O;
  (** Sending leaves the receive queue alone. *)
  send_count n p : countRecvPackets (PacketNode_send n p).2 = countRecvPackets n;
}.

(** ** smallUtils: the datagram node

    [su::Net::UdpNode]: received datagrams with the address they came from. *)
Class UdpNode (Q : Type) := {
  countOfPackets : Q -> nat;
  extractPacket : Q -> (list Z * Z) * Q;
  clearPackets : Q -> Q;
  udp_extract_count q : (0 < countOfPackets q)%nat ->
    countOfPackets (extractPacket q).2 = (countOfPackets q - 1)%nat;
  udp_clear_count q : countOfPackets (clearPackets q) = O;
}.

(** ** smallUtils: process exit codes

    The enumerators of [su::Process::ExitCodeResult] that the program names.
    The repository's own copy of the class, [daemon/Process.h], gives them
    the values of the instance in [Process.v]. *)
Class ExitCodes := {
  NoInit : Z;
  NotStarted : Z;
  Exited : Z;
  exit_codes_distinct : NoInit <> NotStarted /\ NoInit <> Exited /\ NotStarted <> Exited;
}.

(** ** smallUtils: child processes

    [su::Process::AppObject], seen through an observation [W] of the operating
    system: whether the process runs, and the result code with the exit code
    that was written, if one was. *)
Class ProcessOps (W P : Type) := {
  proc_isRunning : W -> P -> bool;
  proc_getExitCode : W -> P -> Z * option Z;
}.

(** ** Concrete instances *)

(** A document as a tree whose nodes carry their right siblings. *)
Inductive toy_elt :=
  ToyElt (tag : string) (attrs : list (string * string)) (text : option string)
         (kids right : list toy_elt).

Module Toy.
Definition tag (e : toy_elt) := match e with ToyElt t _ _ _ _ => t end.
Definition attrs (e : toy_elt) := match e with ToyElt _ a _ _ _ => a end.
Definition text (e : toy_elt) := match e with ToyElt _ _ t _ _ => t end.
Definition kids (e : toy_elt) := match e with ToyElt _ _ _ k _ => k end.
Definition right_of (e : toy_elt) := match e with ToyElt _ _ _ _ r => r end.

(** The first element called [n], with what follows it as its siblings. *)
Fixpoint first_named (n : string) (l : list toy_elt) : option toy_elt :=
  match l with
  | [] => None
  | ToyElt t a x k _ :: l' =>
      if decide (t = n) then Some (ToyElt t a x k l') else first_named n l'
  end.

Definition attr (e : toy_elt) (n : string) : option string :=
  snd <$> List.find (fun p => bool_decide (p.1 = n)) (attrs e).

Lemma first_named_rank n l e :
  first_named n l = Some e -> (length (right_of e) < length l)%nat.
Proof.
  induction l as [|[t a x k r] l IH]; simpl; [done|].
  case_decide; [intros [= <-]; simpl; lia|]. intros Hn%IH. lia.
Qed.
End Toy.

#[export] Program Instance toy_xml : XmlDom (list toy_elt) toy_elt := {|
  doc_FirstChildElement d n := Toy.first_named n d;
  FirstChildElement e n := Toy.first_named n (Toy.kids e);
  NextSiblingElement e n := Toy.first_named n (Toy.right_of e);
  GetText := Toy.text;
  getAttributeString e n d _ := default d (Toy.attr e n);
  getAttributeBool e n d :=
    match Toy.attr e n with Some v => bool_decide (v = "true") | None => d end;
  sib_rank e := length (Toy.right_of e);
|}.
Next Obligation. intros ? ? ? Hn. now apply Toy.first_named_rank in Hn. Qed.

(** Left-to-right replacement of all occurrences of a non-empty text. *)
Fixpoint toy_replace (fuel : nat) (s from to : string) : string :=
  match fuel with
  | O => s
  | S fuel' =>
      match String.index 0 from s with
      | Some k =>
          String.substring 0 k s ++ to ++
          toy_replace fuel'
            (String.substring (k + String.length from) (String.length s) s) from to
      | None => s
      end
  end.

Definition toy_filename (s : string) : string :=
  match rfind_char "\" s with
  | Some p => String.substring (Z.to_nat p + 1) (String.length s) s
  | None => s
  end.

#[export] Instance toy_strings : StringUtils := {|
  String_replace s from to _ :=
    if empty from then s else toy_replace (String.length s) s from to;
  String_tolower := to_lower;
  String_rawFilename s :=
    match rfind_char "." s with
    | Some p => String.substring 0 (Z.to_nat p) s
    | None => s
    end;
  String_filenamePath s :=
    match rfind_char "\" s with
    | Some p => String.substring 0 (Z.to_nat p) s
    | None => ""
    end;
  addSeparator s := s ++ "\";
|}.

#[export] Instance toy_strings_laws : StringUtilsLaws.
Proof.
  split. intros s from to flag H. simpl.
  destruct (empty from); [done|]. destruct (String.length s); [done|]. simpl.
  unfold occurs in H. destruct (String.index 0 from s); [|done].
  exfalso. now apply H.
Qed.

(** A connection as a first-in first-out queue and the list of packets sent. *)
Record toy_node := { tn_recv : list string; tn_sent : list string }.

#[export] Program Instance toy_packet_node : PacketNode toy_node := {|
  countRecvPackets n := length (tn_recv n);
  extractRecvPacket n :=
    (default "" (head (tn_recv n)), {| tn_recv := tail (tn_recv n); tn_sent := tn_sent n |});
  clearRecvPackets n := {| tn_recv := []; tn_sent := tn_sent n |};
  PacketNode_send n p := (str_len p, {| tn_recv := tn_recv n; tn_sent := (tn_sent n ++ [p])%list |});
|}.
Next Obligation. intros [[|x l] s]; simpl; lia. Qed.
Next Obligation. done. Qed.
Next Obligation. done. Qed.

#[export] Program Instance toy_udp_node : UdpNode (list (list Z * Z)) := {|
  countOfPackets := length;
  extractPacket q := (default ([], 0) (head q), tail q);
  clearPackets q := [];
|}.
Next Obligation. intros [|x l]; simpl; lia. Qed.
Next Obligation. done. Qed.

(** A disk as a map from paths to contents; the path "" cannot be written. *)
Definition toy_load (f : gmap string string) (p : string) : Z * string :=
  match f !! p with Some d => (0, d) | None => (2, "") end.
Definition toy_save (f : gmap string string) (p d : string) : Z * gmap string string :=
  if empty p then (1, f) else (0, <[p := d]> f).

Lemma toy_save_load f p d : (toy_save f p d).1 = 0 -> toy_load (toy_save f p d).2 p = (0, d).
Proof.
  unfold toy_save, toy_load. destruct (empty p); simpl; [intros; lia|]. intros _.
  by rewrite lookup_insert_eq.
Qed.

#[export] Instance toy_fs : FileSystem (gmap string string) := {|
  fs_OK := 0;
  fs_load := toy_load;
  fs_save := toy_save;
  fs_deleteFile f p := delete p f;
  save_load := toy_save_load;
|}.
