(* ===== verification/Bits.v ===== *)
(** * Bit operations ([absl/numeric/internal/bits.h], [absl/numeric/bits.h])

    The portable branch of each function - the one compiled when no builtin
    is available - against arithmetic definitions: the number of leading and
    trailing zero bits, rotations, and the powers of two around a number.
    [VarintSize32] and its kin rest on these. *)

From S2P Require Import Prelude.
Local Open Scope Z_scope.
Local Open Scope list_scope.

(** ** Functions of the headers *)

(** [static_cast<T>(x << s)] and [~x] for an unsigned type of [w] bits. *)
Definition shlU (w x s : Z) : Z := wrapU w (Z.shiftl x s).
Definition notU (w x : Z) : Z := wrapU w (Z.lnot x).

Definition IsPowerOf2 (x : Z) : bool := negb (x =? 0) && (Z.land x (wrapU 32 (x - 1)) =? 0).

(** [s & (digits - 1)] and [(-s) & (digits - 1)] for an [int] [s]. *)
Definition RotateRight (w x s : Z) : Z :=
  Z.lor (wrapU w (Z.shiftr x (Z.land s (w - 1)))) (shlU w x (Z.land (- s) (w - 1))).

Definition RotateLeft (w x s : Z) : Z :=
  Z.lor (shlU w x (Z.land s (w - 1))) (wrapU w (Z.shiftr x (Z.land (- s) (w - 1)))).

(** The string literal that is subscripted, with its terminator. *)
Definition clz_table : list Z := [4; 3; 2; 2; 1; 1; 1; 1; 0; 0; 0; 0; 0; 0; 0; 0].

(** [if (x >> k) { zeroes -= k; x >>= k; }] *)
Definition clz_stage (k : Z) (st : Z * Z) : Z * Z :=
  let '(zeroes, x) := st in
  if Z.shiftr x k =? 0 then (zeroes, x) else (zeroes - k, Z.shiftr x k).

Definition clz_end (st : Z * Z) : Z := nth (Z.to_nat st.2) clz_table 0 + st.1.

Definition CountLeadingZeroes32 (x : Z) : Z :=
  clz_end (clz_stage 4 (clz_stage 8 (clz_stage 16 (28, x)))).

Definition CountLeadingZeroes16 (x : Z) : Z := CountLeadingZeroes32 x - 16.

Definition CountLeadingZeroes64 (x : Z) : Z :=
  clz_end (clz_stage 4 (clz_stage 8 (clz_stage 16 (clz_stage 32 (60, x))))).

Definition CountLeadingZeroes (w x : Z) : Z :=
  if w <=? 16 then CountLeadingZeroes16 (wrapU 16 x) - (16 - w)
  else if w <=? 32 then CountLeadingZeroes32 (wrapU 32 x) - (32 - w)
  else CountLeadingZeroes64 x.

(** [if (x & mask) c -= k;] *)
Definition ctz_stage (x : Z) (c : Z) (mk : Z * Z) : Z :=
  if Z.land x mk.1 =? 0 then c else c - mk.2.

(** [x &= ~x + 1]. *)
Definition lowest_bit (w x : Z) : Z := Z.land x (wrapU w (notU w x + 1)).

Definition CountTrailingZeroesNonzero32 (x : Z) : Z :=
  let x := lowest_bit 32 x in
  fold_left (ctz_stage x)
    [(0x0000FFFF, 16); (0x00FF00FF, 8); (0x0F0F0F0F, 4); (0x33333333, 2); (0x55555555, 1)] 31.

Definition CountTrailingZeroesNonzero64 (x : Z) : Z :=
  let x := lowest_bit 64 x in
  fold_left (ctz_stage x)
    [(0x00000000FFFFFFFF, 32); (0x0000FFFF0000FFFF, 16); (0x00FF00FF00FF00FF, 8);
     (0x0F0F0F0F0F0F0F0F, 4); (0x3333333333333333, 2); (0x5555555555555555, 1)] 63.

Definition CountTrailingZeroesNonzero16 (x : Z) : Z := CountTrailingZeroesNonzero32 x.

Definition CountTrailingZeroes (w x : Z) : Z :=
  if x =? 0 then w
  else if w <=? 16 then CountTrailingZeroesNonzero16 (wrapU 16 x)
  else if w <=? 32 then CountTrailingZeroesNonzero32 (wrapU 32 x)
  else CountTrailingZeroesNonzero64 x.

(** [(T{1} << (x + promotion)) >> promotion]: computed in [max w 32] bits. *)
Definition BitCeilPromotionHelper (w x promotion : Z) : Z :=
  wrapU w (Z.shiftr (shlU (Z.max w 32) 1 (x + promotion)) promotion).

Definition BitCeilNonPowerOf2 (w x : Z) : Z :=
  BitCeilPromotionHelper w (w - CountLeadingZeroes w x) (if 32 <=? w then 0 else 32 - w).

Definition rotl := RotateLeft.
Definition rotr := RotateRight.
Definition countl_zero := CountLeadingZeroes.
Definition countl_one (w x : Z) : Z := countl_zero w (notU w x).
Definition countr_zero := CountTrailingZeroes.
Definition countr_one (w x : Z) : Z := countr_zero w (notU w x).
Definition has_single_bit (w x : Z) : bool := negb (x =? 0) && (Z.land x (wrapU w (x - 1)) =? 0).
Definition bit_width (w x : Z) : Z := w - countl_zero w x.
Definition bit_floor (w x : Z) : Z := if x =? 0 then 0 else shlU w 1 (bit_width w x - 1).
Definition bit_ceil (w x : Z) : Z :=
  if has_single_bit w x then shlU w 1 (bit_width w x - 1) else BitCeilNonPowerOf2 w x.

(** ** Leading zeroes *)

(** The number of bits of [x]. *)
Definition bit_length (x : Z) : Z := if x =? 0 then 0 else Z.log2 x + 1.

Lemma bit_length_shiftr x k :
  0 <= x -> 0 <= k -> Z.shiftr x k <> 0 -> bit_length (Z.shiftr x k) = bit_length x - k.
Proof.
  intros Hx Hk Hne. unfold bit_length.
  destruct (Z.eqb_spec (Z.shiftr x k) 0); [done|].
  destruct (Z.eqb_spec x 0) as [->|Hx0]; [by rewrite Z.shiftr_0_l in Hne|].
  rewrite Z.log2_shiftr by lia.
  assert (k <= Z.log2 x); [|lia]. destruct (Z.le_gt_cases k (Z.log2 x)) as [|Hlt]; [done|].
  exfalso. apply Hne, Z.shiftr_eq_0; lia.
Qed.

Lemma bit_length_bounds x w : 0 <= w -> 0 <= x < 2 ^ w -> 0 <= bit_length x <= w.
Proof.
  intros Hw Hx. unfold bit_length. destruct (Z.eqb_spec x 0); [lia|].
  pose proof (Z.log2_nonneg x). pose proof (proj1 (Z.log2_lt_pow2 x w ltac:(lia))). lia.
Qed.

Lemma clz_stage_spec k z x z' x' :
  0 <= k -> 0 <= x < 2 ^ (2 * k) -> clz_stage k (z, x) = (z', x') ->
  0 <= x' < 2 ^ k /\ z' - bit_length x' = z - bit_length x.
Proof.
  intros Hk Hx. unfold clz_stage. destruct (Z.eqb_spec (Z.shiftr x k) 0) as [Hz|Hz]; intros [= <- <-].
  - split; [|done]. split; [lia|]. rewrite Z.shiftr_div_pow2 in Hz by lia.
    apply Z.div_small_iff in Hz; [lia|]. pose proof (Z.pow_pos_nonneg 2 k). lia.
  - rewrite bit_length_shiftr by lia. split; [|lia]. rewrite Z.shiftr_div_pow2 by lia.
    pose proof (Z.pow_pos_nonneg 2 k ltac:(lia) ltac:(lia)).
    split; [apply Z.div_pos; lia|]. apply Z.div_lt_upper_bound; [lia|].
    rewrite <- Z.pow_add_r by lia. replace (k + k) with (2 * k) by lia. lia.
Qed.

Lemma clz_end_spec z x : 0 <= x < 16 -> clz_end (z, x) = z + 4 - bit_length x.
Proof.
  intros Hx. change (nth (Z.to_nat x) clz_table 0 + z = z + 4 - bit_length x).
  assert (Hc : forall n, (n < 16)%nat -> nth n clz_table 0 = 4 - bit_length (Z.of_nat n)).
  { intros n Hn. do 16 (destruct n as [|n]; [reflexivity|]). lia. }
  rewrite Hc by lia. rewrite Z2Nat.id by lia. lia.
Qed.

Lemma clz32_spec x : inU 32 x -> CountLeadingZeroes32 x = 32 - bit_length x.
Proof.
  unfold inU, CountLeadingZeroes32. intros Hx.
  destruct (clz_stage 16 (28, x)) as [z1 x1] eqn:E1. apply clz_stage_spec in E1 as [H1' E1]; [|lia..].
  destruct (clz_stage 8 (z1, x1)) as [z2 x2] eqn:E2. apply clz_stage_spec in E2 as [H2' E2]; [|lia..].
  destruct (clz_stage 4 (z2, x2)) as [z3 x3] eqn:E3. apply clz_stage_spec in E3 as [H3' E3]; [|lia..].
  rewrite clz_end_spec by lia. lia.
Qed.

Lemma clz64_spec x : inU 64 x -> CountLeadingZeroes64 x = 64 - bit_length x.
Proof.
  unfold inU, CountLeadingZeroes64. intros Hx.
  destruct (clz_stage 32 (60, x)) as [z0 x0] eqn:E0. apply clz_stage_spec in E0 as [H0' E0]; [|lia..].
  destruct (clz_stage 16 (z0, x0)) as [z1 x1] eqn:E1. apply clz_stage_spec in E1 as [H1' E1]; [|lia..].
  destruct (clz_stage 8 (z1, x1)) as [z2 x2] eqn:E2. apply clz_stage_spec in E2 as [H2' E2]; [|lia..].
  destruct (clz_stage 4 (z2, x2)) as [z3 x3] eqn:E3. apply clz_stage_spec in E3 as [H3' E3]; [|lia..].
  rewrite clz_end_spec by lia. lia.
Qed.

(** The widths of the unsigned types. *)
Definition unsigned_width (w : Z) : Prop := w = 8 \/ w = 16 \/ w = 32 \/ w = 64.

Lemma inU_mono w1 w2 x : 0 <= w1 <= w2 -> inU w1 x -> inU w2 x.
Proof. unfold inU. intros Hw Hx. pose proof (Z.pow_le_mono_r 2 w1 w2). lia. Qed.

Lemma clz_spec w x : unsigned_width w -> inU w x -> CountLeadingZeroes w x = w - bit_length x.
Proof.
  intros Hw Hx. unfold CountLeadingZeroes, CountLeadingZeroes16.
  destruct Hw as [->|[->|[->| ->]]]; simpl.
  - rewrite wrapU_id, clz32_spec by (eapply inU_mono; [|exact Hx]; lia). lia.
  - rewrite wrapU_id, clz32_spec by (eapply inU_mono; [|exact Hx]; lia). lia.
  - rewrite wrapU_id, clz32_spec by (eapply inU_mono; [|exact Hx]; lia). lia.
  - by apply clz64_spec.
Qed.

Lemma bit_width_spec w x : unsigned_width w -> inU w x -> bit_width w x = bit_length x.
Proof. intros. unfold bit_width, countl_zero. rewrite clz_spec by done. lia. Qed.

(** ** The bit operations *)

(** The portable count of leading zeroes, for each unsigned type, is
    the width less the number of bits of the argument; so [bit_width] is that
    number of bits. *)
Lemma countl_zero_correct w x :
  unsigned_width w -> inU w x ->
  countl_zero w x = w - bit_length x /\ bit_width w x = bit_length x.
Proof. intros Hw Hx. split; [by apply clz_spec|by apply bit_width_spec]. Qed.

(** ** Trailing zeroes *)

(** [x] is an odd multiple of [2 ^ k]. *)
Definition trailing (x k : Z) : Prop := 0 <= k /\ exists m, x = 2 ^ k * (2 * m + 1).

Lemma trailing_exists x : 0 < x -> exists k, trailing x k.
Proof.
  intros Hx. assert (0 <= x) as H0 by lia. revert Hx.
  revert x H0. apply (Z_lt_induction (fun x => 0 < x -> exists k, trailing x k)).
  intros x IH Hx. destruct (Z.Even_or_Odd x) as [[y ->]|[y ->]].
  - destruct (IH y ltac:(lia) ltac:(lia)) as (k & Hk & m & Em). exists (k + 1).
    split; [lia|]. exists m. rewrite Em at 1. rewrite Z.pow_add_r by lia. lia.
  - exists 0. split; [lia|]. exists y. lia.
Qed.

Lemma trailing_lowest x k : trailing x k -> Z.land x (- x) = 2 ^ k.
Proof.
  intros [Hk [m ->]].
  assert (E : - (2 ^ k * (2 * m + 1)) = Z.lnot (2 ^ k * (2 * m + 1) - 1)) by (unfold Z.lnot; lia).
  rewrite E. apply Z.bits_inj'. intros i Hi. rewrite Z.land_spec, Z.lnot_spec, Z.pow2_bits_eqb by lia.
  replace (2 ^ k * (2 * m + 1)) with ((2 * m + 1) * 2 ^ k) by lia.
  replace ((2 * m + 1) * 2 ^ k - 1) with (2 * m * 2 ^ k + (2 ^ k - 1)) by lia.
  assert (Hones : Z.land (2 * m * 2 ^ k) (2 ^ k - 1) = 0).
  { rewrite Z.sub_1_r, <- Z.ones_equiv, Z.land_ones by lia. apply Z.mod_mul.
    pose proof (Z.pow_pos_nonneg 2 k). lia. }
  rewrite (Z.add_nocarry_lxor _ _ Hones), Z.lxor_spec.
  destruct (Z.lt_trichotomy i k) as [Hlt|[->|Hgt]].
  - rewrite Z.mul_pow2_bits_low by lia. by destruct (Z.eqb_spec k i); [lia|].
  - rewrite !Z.mul_pow2_bits by lia. rewrite Z.sub_diag, Z.eqb_refl.
    rewrite (Z.testbit_odd_0 m), Z.testbit_even_0. rewrite Z.sub_1_r, <- Z.ones_equiv.
    rewrite Z.ones_spec_high by lia. done.
  - rewrite !Z.mul_pow2_bits by lia. rewrite Z.sub_1_r, <- Z.ones_equiv, Z.ones_spec_high by lia.
    replace (i - k) with (Z.succ (i - k - 1)) by lia.
    rewrite Z.testbit_odd_succ, Z.testbit_even_succ by lia.
    destruct (Z.eqb_spec k i); [lia|]. by destruct (Z.testbit m _).
Qed.

Lemma land_wrap w x y : 0 <= w -> inU w x -> Z.land x (wrapU w y) = Z.land x y.
Proof.
  intros Hw Hx. unfold wrapU. rewrite <- Z.land_ones, (Z.land_comm y), Z.land_assoc by lia.
  rewrite Z.land_ones by lia. f_equal. by apply Z.mod_small.
Qed.

Lemma lowest_bit_spec w x k : 0 <= w -> inU w x -> trailing x k -> lowest_bit w x = 2 ^ k.
Proof.
  intros Hw Hx Ht. unfold lowest_bit, notU. rewrite land_wrap by done.
  rewrite <- (land_wrap w x (wrapU w (Z.lnot x) + 1)) by done.
  unfold wrapU. rewrite Zplus_mod_idemp_l. fold (wrapU w (Z.lnot x + 1)).
  rewrite land_wrap by done. replace (Z.lnot x + 1) with (- x) by (unfold Z.lnot; lia).
  by apply trailing_lowest.
Qed.

Lemma trailing_lt w x k : 0 <= w -> inU w x -> 0 < x -> trailing x k -> 0 <= k < w.
Proof.
  intros Hw Hx Hpos [Hk [m Em]]. split; [done|]. unfold inU in Hx.
  destruct (Z.lt_ge_cases k w) as [|Hge]; [done|].
  pose proof (Z.pow_le_mono_r 2 w k ltac:(lia) Hge).
  pose proof (Z.pow_pos_nonneg 2 k). assert (0 <= m) by nia. nia.
Qed.

(** One check per position of the isolated bit. *)
Lemma ctz32_table : forallb (fun k =>
  fold_left (ctz_stage (2 ^ Z.of_nat k))
    [(0x0000FFFF, 16); (0x00FF00FF, 8); (0x0F0F0F0F, 4); (0x33333333, 2); (0x55555555, 1)] 31
  =? Z.of_nat k) (seq 0 32) = true.
Proof. vm_compute. reflexivity. Qed.

Lemma ctz64_table : forallb (fun k =>
  fold_left (ctz_stage (2 ^ Z.of_nat k))
    [(0x00000000FFFFFFFF, 32); (0x0000FFFF0000FFFF, 16); (0x00FF00FF00FF00FF, 8);
     (0x0F0F0F0F0F0F0F0F, 4); (0x3333333333333333, 2); (0x5555555555555555, 1)] 63
  =? Z.of_nat k) (seq 0 64) = true.
Proof. vm_compute. reflexivity. Qed.

Lemma table_entry (f : nat -> Z) n k :
  forallb (fun k => f k =? Z.of_nat k) (seq 0 n) = true -> 0 <= k < Z.of_nat n -> f (Z.to_nat k) = k.
Proof.
  intros Hall Hk. rewrite forallb_forall in Hall.
  specialize (Hall (Z.to_nat k)). rewrite Z.eqb_eq, Z2Nat.id in Hall by lia.
  apply Hall. apply in_seq. lia.
Qed.

Lemma ctz32_spec x k : inU 32 x -> 0 < x -> trailing x k -> CountTrailingZeroesNonzero32 x = k.
Proof.
  intros Hx Hpos Ht. unfold CountTrailingZeroesNonzero32. rewrite (lowest_bit_spec 32 x k) by done.
  assert (Hk : 0 <= k < 32) by (eapply trailing_lt; eauto; lia).
  rewrite <- (table_entry _ 32 k ctz32_table) at 2 by lia. by rewrite Z2Nat.id by lia.
Qed.

Lemma ctz64_spec x k : inU 64 x -> 0 < x -> trailing x k -> CountTrailingZeroesNonzero64 x = k.
Proof.
  intros Hx Hpos Ht. unfold CountTrailingZeroesNonzero64. rewrite (lowest_bit_spec 64 x k) by done.
  assert (Hk : 0 <= k < 64) by (eapply trailing_lt; eauto; lia).
  rewrite <- (table_entry _ 64 k ctz64_table) at 2 by lia. by rewrite Z2Nat.id by lia.
Qed.

Lemma countr_zero_is w x k :
  unsigned_width w -> inU w x -> 0 < x -> trailing x k -> countr_zero w x = k.
Proof.
  intros Hw Hx Hpos Hk. unfold countr_zero, CountTrailingZeroes, CountTrailingZeroesNonzero16.
  destruct (Z.eqb_spec x 0); [lia|].
  destruct Hw as [->|[->|[->| ->]]]; simpl;
    try rewrite wrapU_id by (eapply inU_mono; [|exact Hx]; lia);
    (apply ctz32_spec || apply ctz64_spec); try done; (eapply inU_mono; [|exact Hx]; lia).
Qed.

(** The portable count of trailing zeroes, for each unsigned type, is
    the exponent of the largest power of two that divides the argument, and
    the width for zero. *)
Theorem countr_zero_correct w x :
  unsigned_width w -> inU w x ->
  countr_zero w 0 = w /\ (0 < x -> trailing x (countr_zero w x)).
Proof.
  intros Hw Hx. split; [done|]. intros Hpos. destruct (trailing_exists x Hpos) as [k Hk].
  by rewrite (countr_zero_is w x k).
Qed.

(** ** Rotations *)

Lemma land_width w s : unsigned_width w -> Z.land s (w - 1) = s mod w.
Proof. intros [->|[->|[->| ->]]]; [exact (Z.land_ones s 3 ltac:(lia))|exact (Z.land_ones s 4 ltac:(lia))
  |exact (Z.land_ones s 5 ltac:(lia))|exact (Z.land_ones s 6 ltac:(lia))]. Qed.

Lemma wrapU_testbit w x i : 0 <= w -> 0 <= i ->
  Z.testbit (wrapU w x) i = (i <? w) && Z.testbit x i.
Proof.
  intros Hw Hi. unfold wrapU. destruct (Z.ltb_spec i w).
  - by rewrite Z.mod_pow2_bits_low by lia.
  - by rewrite Z.mod_pow2_bits_high by lia.
Qed.

Lemma inU_testbit w x i : inU w x -> 0 <= w <= i -> Z.testbit x i = false.
Proof. intros Hx Hi. rewrite <- (wrapU_id w x Hx), wrapU_testbit by lia. by destruct (Z.ltb_spec i w); [lia|]. Qed.

Lemma mod_opp_shift w i s : 0 < w -> 0 <= i < w ->
  (s mod w <= i -> (i - s) mod w = i - s mod w /\ (0 < s mod w -> w <= i + (- s) mod w)
     /\ (s mod w = 0 -> (- s) mod w = 0)) /\
  (i < s mod w -> (i - s) mod w = i + (- s) mod w).
Proof.
  intros Hw Hi. pose proof (Z.mod_pos_bound s w Hw) as Hb.
  pose proof (Z.div_mod s w ltac:(lia)) as Hd.
  assert (Hopp : 0 < s mod w -> (- s) mod w = w - s mod w).
  { intros Hp. symmetry. apply (Z.mod_unique_pos _ _ (- (s / w) - 1)); lia. }
  split; intros Hle.
  - repeat split.
    + symmetry. apply (Z.mod_unique_pos _ _ (- (s / w))); lia.
    + intros Hp. rewrite Hopp by done. lia.
    + intros Hz. symmetry. apply (Z.mod_unique_pos _ _ (- (s / w))); lia.
  - rewrite Hopp by lia. symmetry. apply (Z.mod_unique_pos _ _ (- (s / w) - 1)); lia.
Qed.

(** Bit [i] of the rotated number is bit [i - s], cyclically. *)
Lemma RotateLeft_bits w x s i :
  unsigned_width w -> inU w x -> 0 <= i < w ->
  Z.testbit (RotateLeft w x s) i = Z.testbit x ((i - s) mod w).
Proof.
  intros Hw Hx Hi. assert (Hw0 : 0 < w) by (unfold unsigned_width in Hw; lia).
  unfold RotateLeft, shlU. rewrite !land_width by done.
  pose proof (Z.mod_pos_bound s w Hw0). pose proof (Z.mod_pos_bound (- s) w Hw0).
  rewrite Z.lor_spec, !wrapU_testbit by lia. destruct (Z.ltb_spec i w); [|lia]. simpl.
  rewrite Z.shiftr_spec by lia. destruct (mod_opp_shift w i s Hw0 Hi) as [Hge Hlt].
  destruct (Z.le_gt_cases (s mod w) i) as [Hle|Hgt].
  - destruct (Hge Hle) as (-> & Hhi & Hz). rewrite Z.shiftl_spec by lia.
    destruct (Z.eq_dec (s mod w) 0) as [E|E].
    + rewrite E, Hz, Z.sub_0_r, Z.add_0_r by done. by destruct (Z.testbit x i).
    + rewrite (inU_testbit w x (i + (- s) mod w)) by (done || lia). by rewrite orb_false_r.
  - rewrite Hlt by lia. rewrite Z.shiftl_spec_low by lia. done.
Qed.

Lemma RotateRight_left w x s : RotateRight w x s = RotateLeft w x (- s).
Proof. unfold RotateRight, RotateLeft. rewrite Z.opp_involutive. apply Z.lor_comm. Qed.

Lemma RotateLeft_range w x s : unsigned_width w -> inU w x -> inU w (RotateLeft w x s).
Proof.
  intros Hw Hx. assert (Hw0 : 0 < w) by (unfold unsigned_width in Hw; lia).
  enough (RotateLeft w x s = wrapU w (RotateLeft w x s)) as -> by (apply wrapU_range; lia).
  apply Z.bits_inj'. intros i Hi. rewrite wrapU_testbit by lia. destruct (Z.ltb_spec i w); [done|]. simpl.
  unfold RotateLeft, shlU. rewrite Z.lor_spec, !wrapU_testbit by lia. by destruct (Z.ltb_spec i w); [lia|].
Qed.

(** [rotl] moves every bit of the word cyclically by any [int], negative
    ones included, and [rotr] undoes it. *)
Theorem rot_correct w x s :
  unsigned_width w -> inU w x ->
  (forall i, 0 <= i < w -> Z.testbit (rotl w x s) i = Z.testbit x ((i - s) mod w)) /\
  rotr w (rotl w x s) s = x.
Proof.
  intros Hw Hx. assert (Hw0 : 0 < w) by (unfold unsigned_width in Hw; lia).
  split; [intros; by apply RotateLeft_bits|]. unfold rotl, rotr. rewrite RotateRight_left.
  apply Z.bits_inj'. intros i Hi. destruct (Z.lt_ge_cases i w).
  - rewrite RotateLeft_bits by (done || by apply RotateLeft_range).
    rewrite RotateLeft_bits by (done || by apply Z.mod_pos_bound).
    rewrite Zminus_mod_idemp_l. replace (i - - s - s) with i by lia. by rewrite Z.mod_small by lia.
  - rewrite !(inU_testbit w) by (done || lia || (repeat apply RotateLeft_range; done)). done.
Qed.

(** ** Powers of two *)

Lemma land_pred x k m : 0 <= k -> 0 <= m -> x = 2 ^ k * (2 * m + 1) -> Z.land x (x - 1) = 2 ^ k * (2 * m).
Proof.
  intros Hk Hm Ex. pose proof (trailing_lowest x k (conj Hk (ex_intro _ m Ex))) as Hl.
  assert (E : - x = Z.lnot (x - 1)) by (unfold Z.lnot; lia). rewrite E in Hl.
  change (Z.land x (Z.lnot (x - 1))) with (Z.land x (Z.lnot (x - 1))) in Hl.
  rewrite <- Z.ldiff_land in Hl.
  assert (Hsum : x = Z.ldiff x (x - 1) + Z.land x (x - 1)).
  { rewrite Z.add_nocarry_lxor, Z.lxor_lor; [by rewrite Z.lor_ldiff_and| |].
    all: apply Z.bits_inj'; intros i Hi; rewrite Z.bits_0, Z.land_spec, Z.ldiff_spec, Z.land_spec;
      by destruct (Z.testbit x i), (Z.testbit (x - 1) i). }
  rewrite Hl in Hsum. lia.
Qed.

Lemma has_single_bit_spec w x :
  0 <= w -> inU w x -> has_single_bit w x = true <-> exists k, 0 <= k /\ x = 2 ^ k.
Proof.
  intros Hw Hx. unfold has_single_bit. destruct (Z.eqb_spec x 0) as [->|Hne]; simpl.
  { split; [done|]. intros (k & Hk & E). pose proof (Z.pow_pos_nonneg 2 k). lia. }
  rewrite land_wrap by done.
  destruct (trailing_exists x ltac:(unfold inU in Hx; lia)) as (k & Hk & m & E).
  pose proof (Z.pow_pos_nonneg 2 k ltac:(lia) Hk).
  assert (Hm : 0 <= m) by (unfold inU in Hx; nia).
  rewrite (land_pred x k m) by done. rewrite Z.eqb_eq. split.
  - intros Hz. exists k. assert (m = 0) as -> by nia. lia.
  - intros (j & Hj & E2). destruct (Z.eq_dec m 0) as [->|]; [lia|]. exfalso.
    assert (Hjk : k < j).
    { destruct (Z.lt_ge_cases k j) as [|Hge]; [done|].
      pose proof (Z.pow_le_mono_r 2 j k ltac:(lia) Hge). nia. }
    replace j with (k + 1 + (j - k - 1)) in E2 by lia.
    rewrite !Z.pow_add_r in E2 by lia. change (2 ^ 1) with 2 in E2.
    assert (2 * m + 1 = 2 * 2 ^ (j - k - 1)) by nia. lia.
Qed.

Lemma bit_length_pow2 k : 0 <= k -> bit_length (2 ^ k) = k + 1.
Proof.
  intros Hk. unfold bit_length. pose proof (Z.pow_pos_nonneg 2 k ltac:(lia) Hk).
  destruct (Z.eqb_spec (2 ^ k) 0); [lia|]. by rewrite Z.log2_pow2.
Qed.

Lemma shlU_one w k : 0 <= k < w -> shlU w 1 k = 2 ^ k.
Proof.
  intros Hk. unfold shlU. rewrite Z.shiftl_1_l. apply wrapU_id. unfold inU.
  pose proof (Z.pow_pos_nonneg 2 k). pose proof (Z.pow_lt_mono_r 2 k w). lia.
Qed.

Lemma BitCeil_spec w x :
  unsigned_width w -> inU w x -> bit_length x < w -> BitCeilNonPowerOf2 w x = 2 ^ bit_length x.
Proof.
  intros Hw Hx Hl. pose proof (bit_length_bounds x w) as Hb. unfold inU in Hx.
  assert (Hw0 : 0 < w) by (unfold unsigned_width in Hw; lia). specialize (Hb ltac:(lia) Hx).
  unfold BitCeilNonPowerOf2, BitCeilPromotionHelper. rewrite clz_spec by done.
  replace (w - (w - bit_length x)) with (bit_length x) by lia.
  set (p := if 32 <=? w then 0 else 32 - w).
  assert (Hp : 0 <= p /\ w + p = Z.max w 32).
  { subst p. destruct (Z.leb_spec 32 w); lia. }
  rewrite shlU_one by lia. rewrite Z.shiftr_div_pow2 by lia.
  rewrite Z.pow_add_r, Z.div_mul by (try lia; pose proof (Z.pow_pos_nonneg 2 p); lia).
  apply wrapU_id. unfold inU. pose proof (Z.pow_pos_nonneg 2 (bit_length x)).
  pose proof (Z.pow_lt_mono_r 2 (bit_length x) w). lia.
Qed.

(** The powers of two around a number: [bit_floor] is the largest one
    that does not exceed it, and [bit_ceil] the smallest one that is not below
    it, as long as that one fits the type. *)
Theorem bit_ceil_floor w x :
  unsigned_width w -> 0 < x <= 2 ^ (w - 1) ->
  bit_floor w x = 2 ^ Z.log2 x /\ bit_ceil w x = 2 ^ Z.log2_up x.
Proof.
  intros Hw Hx. assert (Hw0 : 0 < w) by (unfold unsigned_width in Hw; lia).
  assert (Hu : inU w x) by (unfold inU; rewrite (pow2_half w) by lia; lia).
  assert (Hlog : 0 <= Z.log2 x <= w - 1).
  { pose proof (Z.log2_nonneg x). pose proof (Z.log2_le_mono x (2 ^ (w - 1)) ltac:(lia)) as Hm.
    rewrite Z.log2_pow2 in Hm by lia. lia. }
  assert (Hbl : bit_length x = Z.log2 x + 1) by (unfold bit_length; destruct (Z.eqb_spec x 0); lia).
  split.
  - unfold bit_floor. destruct (Z.eqb_spec x 0); [lia|]. rewrite bit_width_spec, Hbl by done.
    rewrite shlU_one by lia. f_equal. lia.
  - unfold bit_ceil. destruct (has_single_bit w x) eqn:Hs.
    + apply has_single_bit_spec in Hs as (k & Hk & E); [|lia|done].
      rewrite bit_width_spec, E, bit_length_pow2, Z.log2_up_pow2 by done.
      rewrite E, Z.log2_pow2 in Hlog by done. rewrite shlU_one by lia. f_equal. lia.
    + assert (Hnp : forall k, 0 <= k -> x <> 2 ^ k).
      { intros k Hk E. enough (has_single_bit w x = true) by congruence.
        apply has_single_bit_spec; [lia|done|eauto]. }
      assert (Hup : Z.log2_up x = Z.log2 x + 1).
      { destruct (Z.eq_dec (Z.log2_up x) (Z.log2 x)) as [E|E].
        - symmetry in E. apply Z.log2_log2_up_exact in E as [k E]; [|lia].
          destruct (Z.lt_ge_cases k 0) as [Hneg|]; [|by destruct (Hnp k)].
          rewrite Z.pow_neg_r in E by done. lia.
        - pose proof (Z.le_log2_log2_up x). pose proof (Z.le_log2_up_succ_log2 x). lia. }
      assert (Hlt : Z.log2 x < w - 1).
      { destruct (Z.eq_dec (Z.log2 x) (w - 1)) as [E|]; [|lia]. exfalso.
        apply (Hnp (w - 1)); [lia|]. pose proof (Z.log2_spec x ltac:(lia)) as Hsp. rewrite E in Hsp. lia. }
      rewrite BitCeil_spec, Hbl, Hup by (done || lia). done.
Qed.

(** ** Witnesses *)

Lemma countl_zero_correct_witness : inU 32 300 /\ countl_zero 32 300 = 23.
Proof.
  assert (Hx : inU 32 300) by (unfold inU; lia). split; [exact Hx|].
  rewrite (proj1 (countl_zero_correct 32 300 (or_intror (or_intror (or_introl eq_refl))) Hx)). reflexivity.
Defined.

Lemma countr_zero_correct_witness : inU 8 40 /\ trailing 40 (countr_zero 8 40).
Proof.
  assert (Hx : inU 8 40) by (unfold inU; lia). split; [exact Hx|].
  apply (proj2 (countr_zero_correct 8 40 (or_introl eq_refl) Hx)). lia.
Defined.

Lemma rot_correct_witness : rotr 8 (rotl 8 0xb1 3) 3 = 0xb1.
Proof.
  apply (proj2 (rot_correct 8 0xb1 3 (or_introl eq_refl) ltac:(unfold inU; lia))).
Defined.

Lemma bit_ceil_floor_witness : bit_floor 16 100 = 64 /\ bit_ceil 16 100 = 128.
Proof. exact (bit_ceil_floor 16 100 (or_intror (or_introl eq_refl)) ltac:(lia)). Defined.
