(* ===== verification/Popcount.v ===== *)
(** * Counting the one bits of a word ([absl/numeric/internal/bits.h])

    The portable branch of [popcount]: three rounds that add neighbouring
    fields of a word in parallel, and a multiplication that sums its bytes.
    Each round acts on every byte by itself, which reduces it to a table of
    256 entries. *)

From S2P Require Import Prelude Bits.
Local Open Scope Z_scope.

(** ** The functions *)

Definition Popcount32 (x : Z) : Z :=
  let x := wrapU 32 (x - Z.land (Z.shiftr x 1) 0x55555555) in
  let x := wrapU 32 (Z.land (Z.shiftr x 2) 0x33333333 + Z.land x 0x33333333) in
  Z.shiftr (wrapU 32 (Z.land (wrapU 32 (x + Z.shiftr x 4)) 0xF0F0F0F * 0x1010101)) 24.

Definition Popcount64 (x : Z) : Z :=
  let x := wrapU 64 (x - Z.land (Z.shiftr x 1) 0x5555555555555555) in
  let x := wrapU 64 (Z.land (Z.shiftr x 2) 0x3333333333333333 + Z.land x 0x3333333333333333) in
  Z.shiftr (wrapU 64 (Z.land (wrapU 64 (x + Z.shiftr x 4)) 0xF0F0F0F0F0F0F0F * 0x101010101010101)) 56.

(** [w] is the width of the unsigned type. *)
Definition Popcount (w x : Z) : Z := if w <=? 32 then Popcount32 x else Popcount64 x.
Definition popcount := Popcount.

(** ** The number of one bits *)

Fixpoint ones (n : nat) (x : Z) : Z :=
  match n with O => 0 | S n => x mod 2 + ones n (x / 2) end.

Lemma ones_app n k x : ones (n + k) x = ones n x + ones k (x / 2 ^ Z.of_nat n).
Proof.
  revert x. induction n as [|n IH]; intros x; [simpl; by rewrite Z.div_1_r|].
  cbn [ones plus]. rewrite IH, Z.div_div by lia. rewrite Nat2Z.inj_succ, Z.pow_succ_r by lia. lia.
Qed.

Lemma ones_testbits n x :
  0 <= x -> ones n x = Z.of_nat (length (filter (fun i => Z.testbit x (Z.of_nat i) = true) (seq 0 n))).
Proof.
  revert x. induction n as [|n IH]; intros x Hx; [done|]. cbn [ones seq].
  rewrite filter_cons, IH by (apply Z.div_pos; lia). rewrite <- seq_shift.
  assert (Hb : forall i, Z.testbit x (Z.of_nat (S i)) = Z.testbit (x / 2) (Z.of_nat i)).
  { intros i. rewrite Nat2Z.inj_succ, Z.div2_bits by lia. done. }
  assert (E : forall l, length (filter (fun i => Z.testbit x (Z.of_nat i) = true) (map S l)) =
    length (filter (fun i => Z.testbit (x / 2) (Z.of_nat i) = true) l)).
  { intros l. induction l as [|i l IHl]; [done|]. simpl map. rewrite !filter_cons.
    destruct (decide (Z.testbit x (Z.of_nat (S i)) = true)) as [Hd|Hd]; rewrite Hb in Hd;
      [rewrite decide_True by done|rewrite decide_False by done]; simpl; by rewrite IHl. }
  pose proof (Z.mod_pos_bound x 2 ltac:(lia)).
  case_decide as Hd; change (Z.of_nat 0) with 0 in Hd; pose proof (Z.bit0_mod x) as H0; cbn [length]; rewrite E.
  - rewrite Hd in H0. simpl in H0. lia.
  - apply not_true_is_false in Hd. rewrite Hd in H0. simpl in H0. lia.
Qed.

(** ** Bytes side by side *)

(** The byte [c], [n] times. *)
Fixpoint rep (n : nat) (c : Z) : Z := match n with O => 0 | S n => c + 256 * rep n c end.

(** [g] on each of the [n] low bytes. *)
Fixpoint each (g : Z -> Z) (n : nat) (x : Z) : Z :=
  match n with O => 0 | S n => g (x mod 256) + 256 * each g n (x / 256) end.

Definition byte_fun (g : Z -> Z) : Prop := forall a, 0 <= a < 256 -> 0 <= g a < 256.

Lemma each_range g n x : byte_fun g -> 0 <= each g n x < 256 ^ Z.of_nat n.
Proof.
  intros Hg. revert x. induction n as [|n IH]; intros x; [simpl; lia|]. cbn [each].
  specialize (Hg (x mod 256) ltac:(apply Z.mod_pos_bound; lia)). specialize (IH (x / 256)).
  rewrite Nat2Z.inj_succ, Z.pow_succ_r by lia. lia.
Qed.

Lemma each_split g n a b : 0 <= a < 256 -> each g (S n) (a + 256 * b) = g a + 256 * each g n b.
Proof.
  intros Ha. cbn [each]. f_equal; [f_equal|do 2 f_equal].
  - symmetry. apply (Z.mod_unique_pos _ _ b); lia.
  - symmetry. apply (Z.div_unique_pos _ _ _ a); lia.
Qed.

Lemma each_each g h n x : byte_fun h -> each g n (each h n x) = each (fun a => g (h a)) n x.
Proof.
  intros Hh. revert x. induction n as [|n IH]; intros x; [done|].
  change (each h (S n) x) with (h (x mod 256) + 256 * each h n (x / 256)).
  rewrite each_split by (apply Hh, Z.mod_pos_bound; lia). rewrite IH. done.
Qed.

Lemma each_ext g h n x : (forall a, 0 <= a < 256 -> g a = h a) -> each g n x = each h n x.
Proof.
  intros Hg. revert x. induction n as [|n IH]; intros x; [done|]. cbn [each].
  by rewrite Hg, IH by (apply Z.mod_pos_bound; lia).
Qed.

Lemma split_testbit a b i :
  0 <= a < 256 -> 0 <= i -> Z.testbit (a + 256 * b) i = if i <? 8 then Z.testbit a i else Z.testbit b (i - 8).
Proof.
  intros Ha Hi. destruct (Z.ltb_spec i 8).
  - rewrite <- (Z.mod_pow2_bits_low (a + 256 * b) 8 i) by lia. f_equal. symmetry.
    apply (Z.mod_unique_pos _ _ b); lia.
  - replace i with (i - 8 + 8) at 1 by lia. rewrite <- Z.div_pow2_bits by lia. f_equal. symmetry.
    apply (Z.div_unique_pos _ _ _ a); lia.
Qed.

Lemma land_byte a c : 0 <= a < 256 -> 0 <= Z.land a c < 256.
Proof.
  intros Ha. split; [apply Z.land_nonneg; lia|].
  pose proof (Z.land_ones (Z.land a c) 8 ltac:(lia)) as E.
  assert (Z.land a (Z.ones 8) = a) as E2 by (rewrite Z.land_ones by lia; apply Z.mod_small; lia).
  rewrite <- Z.land_assoc, (Z.land_comm c), Z.land_assoc, E2 in E. rewrite E. apply Z.mod_pos_bound. lia.
Qed.

Lemma land_split a b c d :
  0 <= a < 256 -> 0 <= c < 256 -> Z.land (a + 256 * b) (c + 256 * d) = Z.land a c + 256 * Z.land b d.
Proof.
  intros Ha Hc. apply Z.bits_inj'. intros i Hi.
  rewrite Z.land_spec, !split_testbit by (done || by apply land_byte).
  destruct (i <? 8); by rewrite Z.land_spec.
Qed.

(** A shift by [k] drags the low bits of the next byte along. *)
Lemma shiftr_split k a b :
  0 <= k <= 8 -> Z.shiftr (a + 256 * b) k = a / 2 ^ k + 2 ^ (8 - k) * b.
Proof.
  intros Hk. rewrite Z.shiftr_div_pow2 by lia.
  replace (256 * b) with (2 ^ (8 - k) * b * 2 ^ k)
    by (change 256 with (2 ^ 8); replace 8 with (8 - k + k) at 2 by lia; rewrite Z.pow_add_r by lia; lia).
  rewrite Z.div_add by (pose proof (Z.pow_pos_nonneg 2 k); lia). lia.
Qed.

(** ** The three rounds *)

Definition pair_byte (a : Z) : Z := a - Z.land (a / 2) 0x55.
Definition nibble_byte (a : Z) : Z := Z.land (a / 4) 0x33 + Z.land a 0x33.
Definition sum_byte (a : Z) : Z := Z.land (a + a / 16) 0x0F.

(** One entry per byte, for what the next byte can drag in. *)
Definition below (n : nat) : list Z := Z.of_nat <$> seq 0 n.

Lemma in_below n a : 0 <= a < Z.of_nat n -> a ∈ below n.
Proof.
  intros Ha. apply list_elem_of_fmap. exists (Z.to_nat a). split; [lia|]. apply elem_of_seq. lia.
Qed.

Lemma bytes_table (f : Z -> bool) : forallb f (below 256) = true -> forall a, 0 <= a < 256 -> f a = true.
Proof. intros Hf a Ha. rewrite forallb_forall in Hf. apply Hf, list_elem_of_In, in_below. lia. Qed.

Lemma bytes_table2 (f : Z -> Z -> bool) k :
  forallb (fun a => forallb (f a) (below k)) (below 256) = true ->
  forall a b, 0 <= a < 256 -> 0 <= b < Z.of_nat k -> f a b = true.
Proof.
  intros Hf a b Ha Hb. pose proof (bytes_table _ Hf a Ha) as Hr. cbn beta in Hr.
  rewrite forallb_forall in Hr. apply Hr, list_elem_of_In, in_below. lia.
Qed.

Lemma pair_dragged a b : 0 <= a < 256 -> 0 <= b < 2 -> Z.land (a / 2 + 128 * b) 0x55 = Z.land (a / 2) 0x55.
Proof.
  intros Ha Hb. apply Z.eqb_eq.
  apply (bytes_table2 (fun a b => Z.land (a / 2 + 128 * b) 0x55 =? Z.land (a / 2) 0x55) 2); [|done|done].
  vm_compute. reflexivity.
Qed.

Lemma nibble_dragged a b : 0 <= a < 256 -> 0 <= b < 4 -> Z.land (a / 4 + 64 * b) 0x33 = Z.land (a / 4) 0x33.
Proof.
  intros Ha Hb. apply Z.eqb_eq.
  apply (bytes_table2 (fun a b => Z.land (a / 4 + 64 * b) 0x33 =? Z.land (a / 4) 0x33) 4); [|done|done].
  vm_compute. reflexivity.
Qed.

Lemma byte_fun_table g : forallb (fun a => (0 <=? g a) && (g a <? 256)) (below 256) = true -> byte_fun g.
Proof. intros Hg a Ha. pose proof (bytes_table _ Hg a Ha) as Hr. cbn beta in Hr. lia. Qed.

Lemma pair_byte_fun : byte_fun pair_byte.
Proof. apply byte_fun_table. vm_compute. reflexivity. Qed.
Lemma nibble_byte_fun : byte_fun (fun a => nibble_byte (pair_byte a)).
Proof. apply byte_fun_table. vm_compute. reflexivity. Qed.

(** [x - ((x >> 1) & 0x55...)] *)
Lemma pair_round n x :
  0 <= x < 256 ^ Z.of_nat n -> x - Z.land (Z.shiftr x 1) (rep n 0x55) = each pair_byte n x.
Proof.
  revert x. induction n as [|n IH]; intros x Hx; [simpl in *; rewrite Z.land_0_r; lia|].
  rewrite Nat2Z.inj_succ, Z.pow_succ_r in Hx by lia.
  pose proof (Z.mod_pos_bound x 256 ltac:(lia)) as Ha. pose proof (Z.div_mod x 256 ltac:(lia)) as Ex.
  cbn [each rep]. rewrite <- (IH (x / 256)) by (split; [apply Z.div_pos|apply Z.div_lt_upper_bound]; lia).
  set (a := x mod 256) in *. set (b := x / 256) in *. replace x with (a + 256 * b) by lia.
  rewrite shiftr_split by lia. change (2 ^ 1) with 2. change (2 ^ (8 - 1)) with 128.
  pose proof (Z.div_mod b 2 ltac:(lia)) as Eb. pose proof (Z.mod_pos_bound b 2 ltac:(lia)) as Hb.
  rewrite Z.shiftr_div_pow2 by lia. change (2 ^ 1) with 2.
  replace (a / 2 + 128 * b) with (a / 2 + 128 * (b mod 2) + 256 * (b / 2)) by lia.
  rewrite land_split by (pose proof (Z.div_lt_upper_bound a 2 128); pose proof (Z.div_pos a 2); lia).
  rewrite pair_dragged by done. unfold pair_byte. lia.
Qed.

(** [((x >> 2) & 0x33...) + (x & 0x33...)] *)
Lemma nibble_round n x :
  0 <= x < 256 ^ Z.of_nat n ->
  Z.land (Z.shiftr x 2) (rep n 0x33) + Z.land x (rep n 0x33) = each nibble_byte n x.
Proof.
  revert x. induction n as [|n IH]; intros x Hx; [simpl in *; rewrite !Z.land_0_r; lia|].
  rewrite Nat2Z.inj_succ, Z.pow_succ_r in Hx by lia.
  pose proof (Z.mod_pos_bound x 256 ltac:(lia)) as Ha. pose proof (Z.div_mod x 256 ltac:(lia)) as Ex.
  cbn [each rep]. rewrite <- (IH (x / 256)) by (split; [apply Z.div_pos|apply Z.div_lt_upper_bound]; lia).
  set (a := x mod 256) in *. set (b := x / 256) in *. replace x with (a + 256 * b) by lia.
  rewrite shiftr_split, (land_split a b) by lia. change (2 ^ 2) with 4. change (2 ^ (8 - 2)) with 64.
  pose proof (Z.div_mod b 4 ltac:(lia)) as Eb. pose proof (Z.mod_pos_bound b 4 ltac:(lia)) as Hb.
  rewrite Z.shiftr_div_pow2 by lia. change (2 ^ 2) with 4.
  replace (a / 4 + 64 * b) with (a / 4 + 64 * (b mod 4) + 256 * (b / 4)) by lia.
  rewrite land_split by (pose proof (Z.div_lt_upper_bound a 4 64); pose proof (Z.div_pos a 4); lia).
  rewrite nibble_dragged by done. unfold nibble_byte. lia.
Qed.

(** After two rounds every nibble holds a count, at most 4. *)
Definition counts (a : Z) : Z := nibble_byte (pair_byte a).

Lemma counts_bound a : 0 <= a < 256 -> 0 <= counts a <= 0x44 /\ counts a mod 16 <= 4.
Proof.
  intros Ha. pose proof (bytes_table (fun a => (0 <=? counts a) && (counts a <=? 0x44) && (counts a mod 16 <=? 4))) as Ht.
  specialize (Ht ltac:(vm_compute; reflexivity) a Ha). cbn beta in Ht. lia.
Qed.

Lemma sum_dragged a b : 0 <= a < 256 -> 0 <= b < 5 -> Z.land (a + a / 16 + 16 * b) 0x0F = sum_byte a.
Proof.
  intros Ha Hb. apply Z.eqb_eq.
  apply (bytes_table2 (fun a b => Z.land (a + a / 16 + 16 * b) 0x0F =? sum_byte a) 5); [|done|done].
  vm_compute. reflexivity.
Qed.

(** [(x + (x >> 4)) & 0x0F...] on such words. *)
Lemma sum_round n x :
  0 <= x < 256 ^ Z.of_nat n ->
  Z.land (each counts n x + Z.shiftr (each counts n x) 4) (rep n 0x0F) = each (fun a => sum_byte (counts a)) n x.
Proof.
  revert x. induction n as [|n IH]; intros x Hx; [simpl; done|].
  rewrite Nat2Z.inj_succ, Z.pow_succ_r in Hx by lia.
  pose proof (Z.mod_pos_bound x 256 ltac:(lia)) as Ha.
  cbn [each rep]. rewrite <- (IH (x / 256)) by (split; [apply Z.div_pos|apply Z.div_lt_upper_bound]; lia).
  destruct (counts_bound (x mod 256) Ha) as [Hc _]. set (c := counts (x mod 256)) in *.
  set (b := each counts n (x / 256)).
  assert (Hb : 0 <= b mod 16 <= 4).
  { pose proof (Z.mod_pos_bound b 16 ltac:(lia)). split; [lia|]. subst b. destruct n as [|n]; [done|]. cbn [each].
    pose proof (Z.mod_pos_bound (x / 256) 256 ltac:(lia)) as Ha'. destruct (counts_bound _ Ha') as [_ Hm].
    replace (256 * each counts n (x / 256 / 256)) with (16 * each counts n (x / 256 / 256) * 16) by lia.
    by rewrite Z.mod_add by lia. }
  rewrite shiftr_split by lia. change (2 ^ 4) with 16. change (2 ^ (8 - 4)) with 16.
  pose proof (Z.div_mod b 16 ltac:(lia)) as Eb. rewrite (Z.shiftr_div_pow2 b) by lia. change (2 ^ 4) with 16.
  replace (c + 256 * b + (c / 16 + 16 * b)) with (c + c / 16 + 16 * (b mod 16) + 256 * (b + b / 16)) by lia.
  rewrite land_split by (pose proof (Z.div_le_upper_bound c 16 5 ltac:(lia) ltac:(lia)); pose proof (Z.div_pos c 16); lia).
  rewrite sum_dragged by lia. done.
Qed.

(** ** The sum of the bytes *)

Definition count_byte (a : Z) : Z := sum_byte (counts a).

Fixpoint total (n : nat) (x : Z) : Z :=
  match n with O => 0 | S n => count_byte (x mod 256) + total n (x / 256) end.

Lemma count_byte_ones a : 0 <= a < 256 -> count_byte a = ones 8 a /\ 0 <= count_byte a <= 8.
Proof.
  intros Ha.
  pose proof (bytes_table (fun a => (count_byte a =? ones 8 a) && (0 <=? count_byte a) && (count_byte a <=? 8))) as Ht.
  specialize (Ht ltac:(vm_compute; reflexivity) a Ha). cbn beta in Ht. lia.
Qed.

Lemma ones_mod n x : ones n (x mod 2 ^ Z.of_nat n) = ones n x.
Proof.
  revert x. induction n as [|n IH]; intros x; [done|]. cbn [ones].
  rewrite Nat2Z.inj_succ, Z.pow_succ_r, Z.rem_mul_r by (try lia; pose proof (Z.pow_pos_nonneg 2 (Z.of_nat n)); lia).
  rewrite <- (IH (x / 2)). f_equal.
  - rewrite (Z.mul_comm 2), Z.mod_add, Zmod_mod by lia. done.
  - f_equal. rewrite (Z.mul_comm 2), Z.div_add by lia. rewrite (Z.div_small (x mod 2)); [lia|apply Z.mod_pos_bound; lia].
Qed.

Lemma total_ones n x : total n x = ones (8 * n) x.
Proof.
  revert x. induction n as [|n IH]; intros x; [done|]. cbn [total].
  replace (8 * S n)%nat with (8 + 8 * n)%nat by lia. rewrite ones_app, IH.
  rewrite (proj1 (count_byte_ones (x mod 256) ltac:(apply Z.mod_pos_bound; lia))).
  change (x mod 256) with (x mod 2 ^ Z.of_nat 8). by rewrite (ones_mod 8 x).
Qed.

(** The rounds of one word of [n] bytes. *)
Lemma rounds n x (w := 8 * Z.of_nat n) :
  0 <= x < 2 ^ w ->
  let x1 := wrapU w (x - Z.land (Z.shiftr x 1) (rep n 0x55)) in
  let x2 := wrapU w (Z.land (Z.shiftr x1 2) (rep n 0x33) + Z.land x1 (rep n 0x33)) in
  Z.land (wrapU w (x2 + Z.shiftr x2 4)) (rep n 0x0F) = each count_byte n x.
Proof.
  intros Hx x1 x2. assert (Ew : 2 ^ w = 256 ^ Z.of_nat n).
  { subst w. rewrite Z.pow_mul_r by lia. done. }
  rewrite Ew in Hx. assert (E1 : x1 = each pair_byte n x).
  { subst x1. rewrite pair_round by done. apply wrapU_id. unfold inU. rewrite Ew. apply each_range, pair_byte_fun. }
  assert (E2 : x2 = each counts n x).
  { subst x2. rewrite E1, nibble_round by (apply each_range, pair_byte_fun).
    rewrite each_each by apply pair_byte_fun. apply wrapU_id. unfold inU. rewrite Ew. apply each_range, nibble_byte_fun. }
  rewrite <- sum_round, <- E2 by done. unfold count_byte.
  assert (Hm : forall y, Z.land (wrapU w y) (rep n 0x0F) = Z.land y (rep n 0x0F)); [|apply Hm].
  intros y. rewrite !(Z.land_comm _ (rep n _)). apply land_wrap; [lia|]. unfold inU. rewrite Ew.
  clear. induction n as [|n IH]; [simpl; lia|]. rewrite Nat2Z.inj_succ, Z.pow_succ_r by lia. cbn [rep]. lia.
Qed.

(** The multiplication puts the sum of the bytes into the top byte. *)
Lemma top_byte4 y0 y1 y2 y3 :
  0 <= y0 <= 8 -> 0 <= y1 <= 8 -> 0 <= y2 <= 8 -> 0 <= y3 <= 8 ->
  Z.shiftr (wrapU 32 ((y0 + 256 * (y1 + 256 * (y2 + 256 * (y3 + 256 * 0)))) * 0x1010101)) 24 = y0 + (y1 + (y2 + (y3 + 0))).
Proof.
  intros. rewrite Z.shiftr_div_pow2 by lia. unfold wrapU. change (2 ^ 32) with 4294967296. change (2 ^ 24) with 16777216.
  set (low := (y0) + 256 * ((y0 + y1) + 256 * (y0 + y1 + y2))).
  set (high := (y1 + y2 + y3) + 256 * ((y2 + y3) + 256 * (y3))).
  set (s := y0 + y1 + y2 + y3).
  transitivity ((low + 16777216 * s) / 16777216).
  - f_equal. symmetry. apply (Z.mod_unique_pos _ _ high); subst low high s; lia.
  - rewrite (Z.mul_comm _ s), Z.div_add by lia. rewrite Z.div_small by (subst low; lia). subst s. lia.
Qed.

Lemma top_byte8 y0 y1 y2 y3 y4 y5 y6 y7 :
  0 <= y0 <= 8 -> 0 <= y1 <= 8 -> 0 <= y2 <= 8 -> 0 <= y3 <= 8 ->
  0 <= y4 <= 8 -> 0 <= y5 <= 8 -> 0 <= y6 <= 8 -> 0 <= y7 <= 8 ->
  Z.shiftr (wrapU 64 ((y0 + 256 * (y1 + 256 * (y2 + 256 * (y3 + 256 * (y4 + 256 * (y5 + 256 * (y6 + 256 * (y7 + 256 * 0))))))))
    * 0x101010101010101)) 56 = y0 + (y1 + (y2 + (y3 + (y4 + (y5 + (y6 + (y7 + 0))))))).
Proof.
  intros. rewrite Z.shiftr_div_pow2 by lia. unfold wrapU. change (2 ^ 64) with 18446744073709551616. change (2 ^ 56) with 72057594037927936.
  set (low := (y0) + 256 * ((y0 + y1) + 256 * ((y0 + y1 + y2) + 256 * ((y0 + y1 + y2 + y3) + 256 * ((y0 + y1 + y2 + y3 + y4) + 256 * ((y0 + y1 + y2 + y3 + y4 + y5) + 256 * (y0 + y1 + y2 + y3 + y4 + y5 + y6))))))).
  set (high := (y1 + y2 + y3 + y4 + y5 + y6 + y7) + 256 * ((y2 + y3 + y4 + y5 + y6 + y7) + 256 * ((y3 + y4 + y5 + y6 + y7) + 256 * ((y4 + y5 + y6 + y7) + 256 * ((y5 + y6 + y7) + 256 * ((y6 + y7) + 256 * (y7))))))).
  set (s := y0 + y1 + y2 + y3 + y4 + y5 + y6 + y7).
  transitivity ((low + 72057594037927936 * s) / 72057594037927936).
  - f_equal. symmetry. apply (Z.mod_unique_pos _ _ high); subst low high s; lia.
  - rewrite (Z.mul_comm _ s), Z.div_add by lia. rewrite Z.div_small by (subst low; lia). subst s. lia.
Qed.

Lemma Popcount32_ones x : inU 32 x -> Popcount32 x = ones 32 x.
Proof.
  intros Hx. unfold Popcount32. pose proof (rounds 4 x Hx) as E. cbn zeta in E.
  change (8 * Z.of_nat 4) with 32 in E.
  change (rep 4 0x55) with 0x55555555 in E. change (rep 4 0x33) with 0x33333333 in E. change (rep 4 0x0F) with 0xF0F0F0F in E.
  rewrite E. change (ones 32 x) with (ones (8 * 4) x). rewrite <- total_ones. apply top_byte4; apply count_byte_ones, Z.mod_pos_bound; lia.
Qed.

Lemma Popcount64_ones x : inU 64 x -> Popcount64 x = ones 64 x.
Proof.
  intros Hx. unfold Popcount64. pose proof (rounds 8 x Hx) as E. cbn zeta in E.
  change (8 * Z.of_nat 8) with 64 in E.
  change (rep 8 0x55) with 0x5555555555555555 in E. change (rep 8 0x33) with 0x3333333333333333 in E.
  change (rep 8 0x0F) with 0xF0F0F0F0F0F0F0F in E.
  rewrite E. change (ones 64 x) with (ones (8 * 8) x). rewrite <- total_ones. apply top_byte8; apply count_byte_ones, Z.mod_pos_bound; lia.
Qed.

Lemma ones_high n k x : 0 <= x < 2 ^ Z.of_nat n -> ones (n + k) x = ones n x.
Proof.
  intros Hx. rewrite ones_app, Z.div_small by done. enough (ones k 0 = 0) by lia.
  induction k as [|k IH]; [done|]. cbn [ones]. by rewrite Z.mod_0_l, Z.div_0_l, IH by lia.
Qed.

(** The portable population count of each unsigned type is the number of its
    one bits. *)
Theorem popcount_correct w x :
  unsigned_width w -> inU w x ->
  popcount w x = Z.of_nat (length (filter (fun i => Z.testbit x (Z.of_nat i) = true) (seq 0 (Z.to_nat w)))).
Proof.
  intros Hw Hx. rewrite <- ones_testbits by apply Hx. unfold popcount, Popcount.
  assert (H32 : w <= 32 -> inU 32 x) by (intros; eapply inU_mono; [|exact Hx]; unfold unsigned_width in Hw; lia).
  destruct (Z.leb_spec w 32).
  - rewrite Popcount32_ones by auto. destruct Hw as [->|[->|[->| ->]]]; [|..|lia].
    + exact (ones_high 8 24 x Hx).
    + exact (ones_high 16 16 x Hx).
    + reflexivity.
  - destruct Hw as [->|[->|[->| ->]]]; try lia. by rewrite Popcount64_ones.
Qed.

(** A number is a power of two when it has one one bit. *)
Example popcount_max : popcount 64 (2 ^ 64 - 1) = 64 /\ popcount 8 0xA5 = 4.
Proof. vm_compute. by split. Qed.
