(* ===== verification/Varint.v ===== *)
(** * Varints, fixed-width numbers, tags and ZigZag
    ([google/protobuf/io/coded_stream.h], [google/protobuf/wire_format_lite.h])

    The scalar encodings of the wire format.  Code that writes through a
    [uint8_t*] is a function on a [cursor], the pointer and the memory it
    points into; [pokes] is the specification of such a function by the bytes
    it stores. *)

From S2P Require Import Prelude Bytes Bits.
Local Open Scope Z_scope.
Local Open Scope list_scope.

(** ** Memory *)

Abbreviation memory := (gmap Z Z).

Record cursor := mkCursor { ptr : Z; mem : memory }.

(** [*ptr++ = b]. *)
Definition poke (b : Z) (c : cursor) : cursor := mkCursor (ptr c + 1) (<[ptr c := b]> (mem c)).

Definition pokes (l : bytes) (c : cursor) : cursor := fold_left (fun c b => poke b c) l c.

(** [memcpy(ptr, data, size)] followed by [ptr + size]. *)
Definition memcpy_advance (data : bytes) (c : cursor) : cursor := pokes data c.

(** The byte at an address, and [n] consecutive ones. *)
Definition byte_at (m : memory) (p : Z) : Z := default 0 (m !! p).

Fixpoint bytes_at (m : memory) (p : Z) (n : nat) : bytes :=
  match n with O => [] | S n => byte_at m p :: bytes_at m (p + 1) n end.

Lemma pokes_app l1 l2 c : pokes (l1 ++ l2) c = pokes l2 (pokes l1 c).
Proof. apply fold_left_app. Qed.

Lemma pokes_ptr l c : ptr (pokes l c) = ptr c + Z.of_nat (length l).
Proof. revert c; induction l as [|b l IH]; intros c; simpl; [lia|]. rewrite IH. simpl. lia. Qed.

(** A write touches its own range only. *)
Lemma pokes_frame l c a :
  a < ptr c \/ ptr c + Z.of_nat (length l) <= a -> mem (pokes l c) !! a = mem c !! a.
Proof.
  revert c; induction l as [|b l IH]; intros c Ha; [done|]. cbn [pokes fold_left]. cbn [length] in Ha.
  change (fold_left _ l (poke b c)) with (pokes l (poke b c)).
  rewrite IH by (simpl; lia). simpl. rewrite lookup_insert_ne; [done|lia].
Qed.

Lemma pokes_read l c : bytes_at (mem (pokes l c)) (ptr c) (length l) = l.
Proof.
  revert c; induction l as [|b l IH]; intros c; [done|]. cbn [pokes fold_left length bytes_at].
  change (fold_left _ l (poke b c)) with (pokes l (poke b c)). f_equal.
  - unfold byte_at. rewrite pokes_frame by (simpl; lia). simpl. by rewrite lookup_insert_eq.
  - apply (IH (poke b c)).
Qed.

Lemma bytes_at_length m p n : length (bytes_at m p n) = n.
Proof. revert p; induction n; intros; simpl; auto. Qed.

Lemma bytes_at_app m p n1 n2 :
  bytes_at m p (n1 + n2) = bytes_at m p n1 ++ bytes_at m (p + Z.of_nat n1) n2.
Proof.
  revert p; induction n1 as [|n1 IH]; intros p; simpl; [by rewrite Z.add_0_r|].
  f_equal. rewrite IH. do 2 f_equal. lia.
Qed.

Lemma bytes_at_ext m1 m2 p n :
  (forall a, p <= a < p + Z.of_nat n -> m1 !! a = m2 !! a) -> bytes_at m1 p n = bytes_at m2 p n.
Proof.
  revert p; induction n as [|n IH]; intros p Hm; simpl; [done|].
  f_equal; [unfold byte_at; by rewrite Hm by lia|apply IH; intros a Ha; apply Hm; lia].
Qed.

(** ** Varints: the code *)

(** The loop of [UnsafeVarint]; an unsigned 64-bit value has at most ten
    groups of seven bits. *)
Fixpoint UnsafeVarint_loop (fuel : nat) (value : Z) (c : cursor) : cursor :=
  match fuel with
  | O => poke (u8 value) c
  | S fuel =>
      if 0x80 <=? value
      then UnsafeVarint_loop fuel (Z.shiftr value 7) (poke (u8 (Z.lor value 0x80)) c)
      else poke (u8 value) c
  end.

Definition UnsafeVarint (value : Z) (c : cursor) : cursor := UnsafeVarint_loop 10 value c.
Definition UnsafeWriteSize (value : Z) (c : cursor) : cursor := UnsafeVarint_loop 10 value c.

Definition WriteVarint32ToArray (value : Z) (target : cursor) : cursor := UnsafeVarint value target.
Definition WriteVarint64ToArray (value : Z) (target : cursor) : cursor := UnsafeVarint value target.
Definition WriteVarint32SignExtendedToArray (value : Z) (target : cursor) : cursor :=
  WriteVarint64ToArray (u64 value) target.
Definition WriteTagToArray (value : Z) (target : cursor) : cursor := WriteVarint32ToArray value target.

(** The portable branches: one byte at a time. *)
Definition WriteLittleEndian32ToArray (value : Z) (target : cursor) : cursor :=
  poke (u8 (Z.shiftr value 24)) (poke (u8 (Z.shiftr value 16))
    (poke (u8 (Z.shiftr value 8)) (poke (u8 value) target))).

Definition WriteLittleEndian64ToArray (value : Z) (target : cursor) : cursor :=
  let part0 := u32 value in
  let part1 := u32 (Z.shiftr value 32) in
  let target := poke (u8 part0) target in
  let target := poke (u8 (Z.shiftr part0 8)) target in
  let target := poke (u8 (Z.shiftr part0 16)) target in
  let target := poke (u8 (Z.shiftr part0 24)) target in
  let target := poke (u8 part1) target in
  let target := poke (u8 (Z.shiftr part1 8)) target in
  let target := poke (u8 (Z.shiftr part1 16)) target in
  poke (u8 (Z.shiftr part1 24)) target.

Definition WriteRawToArray (data : bytes) (target : cursor) : cursor := memcpy_advance data target.
Definition WriteStringToArray (str : bytes) (target : cursor) : cursor := WriteRawToArray str target.

(** [(log2value * 9 + 73) / 64] *)
Definition VarintSize32 (value : Z) : Z :=
  let log2value := u32 (31 - countl_zero 32 (Z.lor value 1)) in
  u32 (log2value * 9 + 73) / 64.
Definition VarintSize32PlusOne (value : Z) : Z :=
  let log2value := u32 (31 - countl_zero 32 (Z.lor value 1)) in
  u32 (log2value * 9 + 73 + 64) / 64.
Definition VarintSize64 (value : Z) : Z :=
  let log2value := u32 (63 - countl_zero 64 (Z.lor value 1)) in
  u32 (log2value * 9 + 73) / 64.
Definition VarintSize64PlusOne (value : Z) : Z :=
  let log2value := u32 (63 - countl_zero 64 (Z.lor value 1)) in
  u32 (log2value * 9 + 73 + 64) / 64.
Definition VarintSize32SignExtended (value : Z) : Z := VarintSize64 (u64 value).
Definition VarintSize32SignExtendedPlusOne (value : Z) : Z := VarintSize64PlusOne (u64 value).

(** [StaticVarintSize32], and [TagSize] of the output stream. *)
Definition StaticVarintSize32 (value : Z) : Z :=
  if value <? 2 ^ 7 then 1 else if value <? 2 ^ 14 then 2 else if value <? 2 ^ 21 then 3
  else if value <? 2 ^ 28 then 4 else 5.
Definition stream_TagSize (tag : Z) : Z :=
  if tag <? 2 ^ 7 then 1 else if tag <? 2 ^ 14 then 2 else if tag <? 2 ^ 21 then 3
  else if tag <? 2 ^ 28 then 4 else 5.

(** ** Varints: the specification *)

Fixpoint varint_bytes (n : nat) (v : Z) : bytes :=
  match n with
  | O => []
  | S n => if v <? 128 then [v] else (128 + v mod 128) :: varint_bytes n (v / 128)
  end.

Definition varint (v : Z) : bytes := varint_bytes 10 v.

Fixpoint varint_value (l : bytes) : Z :=
  match l with
  | [] => 0
  | b :: l => b mod 128 + 128 * varint_value l
  end.

(** All bytes but the last one have the continuation bit. *)
Fixpoint varint_form (l : bytes) : Prop :=
  match l with
  | [] => False
  | [b] => 0 <= b < 128
  | b :: l => 128 <= b < 256 /\ varint_form l
  end.

Lemma pow128 n : 128 ^ Z.of_nat (S n) = 128 * 128 ^ Z.of_nat n.
Proof. rewrite Nat2Z.inj_succ, Z.pow_succ_r by lia. done. Qed.

Lemma low_byte v : 0 <= v < 128 -> u8 v = v.
Proof. intros Hv. apply wrapU_id. unfold inU. lia. Qed.

Lemma cont_byte v : 0 <= v -> u8 (Z.lor v 0x80) = 128 + v mod 128.
Proof.
  intros Hv. unfold wrapU. change 256 with (2 ^ 8).
  rewrite <- Z.land_ones, Z.land_lor_distr_l by lia. rewrite Z.land_ones by lia.
  change (Z.land 0x80 (Z.ones 8)) with 0x80.
  replace (v mod 2 ^ 8) with (v mod 128 + (v / 128 mod 2) * 128)
    by (change (2 ^ 8) with (128 * 2); rewrite Z.rem_mul_r by lia; lia).
  pose proof (Z.mod_pos_bound v 128 ltac:(lia)) as Hm.
  assert (Hl : forall r, 0 <= r < 128 -> Z.lor r 128 = r + 128).
  { intros r Hr. rewrite Z.add_nocarry_lxor, Z.lxor_lor; [done|..].
    all: change 128 with (2 ^ 7) in *; apply Z.bits_inj'; intros i Hi;
      rewrite Z.bits_0, Z.land_spec, Z.pow2_bits_eqb by lia;
      destruct (Z.eqb_spec 7 i) as [<-|]; [|by rewrite andb_false_r];
      rewrite <- (Z.mod_small r (2 ^ 7)), Z.mod_pow2_bits_high by lia; done. }
  destruct (Z.mod_pos_bound (v / 128) 2 ltac:(lia)) as [H0' H1'].
  assert (v / 128 mod 2 = 0 \/ v / 128 mod 2 = 1) as [-> | ->] by lia.
  - rewrite Z.mul_0_l, Z.add_0_r, Hl; lia.
  - rewrite Z.mul_1_l, <- Hl by lia. rewrite <- Z.lor_assoc, Z.lor_diag, Hl; lia.
Qed.

Lemma varint_bytes_enough n k v :
  0 <= v < 128 ^ Z.of_nat n -> (n <= k)%nat -> (1 <= n)%nat -> varint_bytes k v = varint_bytes n v.
Proof.
  revert k v. induction n as [|n IH]; intros k v Hv Hk Hn; [lia|].
  destruct k as [|k]; [lia|]. cbn [varint_bytes]. destruct (Z.ltb_spec v 128); [done|]. f_equal.
  rewrite pow128 in Hv. destruct n as [|n]; [simpl in Hv; lia|].
  apply IH; [|lia|lia]. split; [apply Z.div_pos; lia|apply Z.div_lt_upper_bound; lia].
Qed.

Lemma UnsafeVarint_loop_spec n v c :
  0 <= v < 128 ^ Z.of_nat (S n) -> UnsafeVarint_loop n v c = pokes (varint_bytes (S n) v) c.
Proof.
  revert v c. induction n as [|n IH]; intros v c Hv; cbn [UnsafeVarint_loop varint_bytes].
  - change (128 ^ Z.of_nat 1) with 128 in Hv. destruct (Z.ltb_spec v 128); [|lia].
    by rewrite low_byte by lia.
  - destruct (Z.leb_spec 0x80 v), (Z.ltb_spec v 128); try lia.
    + rewrite cont_byte by lia. rewrite Z.shiftr_div_pow2 by lia. change (2 ^ 7) with 128.
      rewrite IH; [done|]. rewrite pow128 in Hv.
      split; [apply Z.div_pos; lia|apply Z.div_lt_upper_bound; lia].
    + by rewrite low_byte by lia.
Qed.

Lemma varint_bytes_form n v : 0 <= v < 128 ^ Z.of_nat n -> (1 <= n)%nat -> varint_form (varint_bytes n v).
Proof.
  revert v. induction n as [|n IH]; intros v Hv Hn; [lia|]. cbn [varint_bytes].
  destruct (Z.ltb_spec v 128); [simpl; lia|]. rewrite pow128 in Hv.
  destruct n as [|n]; [simpl in Hv; lia|].
  assert (Hrest : varint_form (varint_bytes (S n) (v / 128))).
  { apply IH; [|lia]. split; [apply Z.div_pos; lia|apply Z.div_lt_upper_bound; lia]. }
  pose proof (Z.mod_pos_bound v 128 ltac:(lia)).
  destruct (varint_bytes (S n) (v / 128)) as [|b l] eqn:E; [done|]. split; [lia|exact Hrest].
Qed.

Lemma varint_bytes_value n v : 0 <= v < 128 ^ Z.of_nat n -> varint_value (varint_bytes n v) = v.
Proof.
  revert v. induction n as [|n IH]; intros v Hv; [simpl in *; lia|]. cbn [varint_bytes].
  destruct (Z.ltb_spec v 128); [simpl; rewrite Z.mod_small; lia|]. cbn [varint_value].
  rewrite pow128 in Hv.
  rewrite IH by (split; [apply Z.div_pos; lia|apply Z.div_lt_upper_bound; lia]).
  replace (128 + v mod 128) with (v mod 128 + 1 * 128) by lia. rewrite Z_mod_plus_full, Zmod_mod.
  pose proof (Z.div_mod v 128 ltac:(lia)). lia.
Qed.

Lemma varint_bytes_byte n v : 0 <= v -> Forall is_byte (varint_bytes n v).
Proof.
  revert v. induction n as [|n IH]; intros v Hv; cbn [varint_bytes]; [constructor|].
  pose proof (Z.mod_pos_bound v 128 ltac:(lia)).
  destruct (Z.ltb_spec v 128); constructor; try (unfold is_byte; lia); [constructor|].
  apply IH, Z.div_pos; lia.
Qed.

Lemma u64_128 v : inU 64 v -> 0 <= v < 128 ^ Z.of_nat 10.
Proof. unfold inU. lia. Qed.

Lemma UnsafeVarint_spec v c : inU 64 v -> UnsafeVarint v c = pokes (varint v) c.
Proof.
  intros Hv. unfold UnsafeVarint, varint. rewrite UnsafeVarint_loop_spec by (unfold inU in Hv; lia).
  by rewrite (varint_bytes_enough 10 11 v (u64_128 v Hv)) by lia.
Qed.

Lemma inU_32_64 v : inU 32 v -> inU 64 v.
Proof. unfold inU. lia. Qed.

(** ** Sizes *)

Definition varint_size (v : Z) : Z := Z.of_nat (length (varint v)).

Lemma varint_bytes_length n v :
  0 <= v < 128 ^ Z.of_nat n -> (1 <= n)%nat ->
  Z.of_nat (length (varint_bytes n v)) = (if v =? 0 then 0 else Z.log2 v / 7) + 1.
Proof.
  revert v. induction n as [|n IH]; intros v Hv Hn; [lia|]. cbn [varint_bytes].
  destruct (Z.ltb_spec v 128) as [Hlt|Hge].
  - destruct (Z.eqb_spec v 0); [done|]. simpl. rewrite Z.div_small; [done|].
    split; [apply Z.log2_nonneg|]. apply Z.log2_lt_pow2; lia.
  - rewrite pow128 in Hv. destruct n as [|n]; [simpl in Hv; lia|]. cbn [length].
    assert (1 <= v / 128) by (apply Z.div_le_lower_bound; lia).
    rewrite Nat2Z.inj_succ, IH; [|split; [lia|apply Z.div_lt_upper_bound; lia]|lia].
    destruct (Z.eqb_spec (v / 128) 0); [lia|]. destruct (Z.eqb_spec v 0); [lia|].
    change 128 with (2 ^ 7). rewrite <- Z.shiftr_div_pow2, Z.log2_shiftr by lia.
    assert (7 <= Z.log2 v) by (apply Z.log2_le_pow2; lia).
    replace (Z.log2 v) with (Z.max 0 (Z.log2 v - 7) + 1 * 7) at 2 by lia.
    rewrite Z.div_add by lia. lia.
Qed.

Lemma varint_size_log v : inU 64 v -> varint_size v = (if v =? 0 then 0 else Z.log2 v / 7) + 1.
Proof. intros Hv. apply varint_bytes_length; [by apply u64_128|lia]. Qed.

(** The multiplication that replaces the division by seven. *)
Lemma size_table : forallb (fun k =>
  ((Z.of_nat k * 9 + 73) / 64 =? Z.of_nat k / 7 + 1) &&
  ((Z.of_nat k * 9 + 73 + 64) / 64 =? Z.of_nat k / 7 + 2)) (seq 0 64) = true.
Proof. vm_compute. reflexivity. Qed.

Lemma size_formula k : 0 <= k < 64 -> (k * 9 + 73) / 64 = k / 7 + 1 /\ (k * 9 + 73 + 64) / 64 = k / 7 + 2.
Proof.
  intros Hk. pose proof size_table as Ht. rewrite forallb_forall in Ht.
  specialize (Ht (Z.to_nat k) ltac:(apply in_seq; lia)). rewrite Z2Nat.id in Ht by lia.
  apply andb_true_iff in Ht as [H1' H2']. lia.
Qed.

Lemma lor_1 v : 0 <= v -> Z.lor v 1 = if Z.even v then v + 1 else v.
Proof.
  intros Hv. rewrite Z.lor_comm. apply Z.bits_inj'. intros i Hi. rewrite Z.lor_spec.
  destruct (Z.eq_dec i 0) as [->|Hne].
  - rewrite !Z.bit0_odd. destruct (Z.even v) eqn:E; simpl.
    + by rewrite Z.add_1_r, Z.odd_succ, E.
    + by rewrite <- Z.negb_even, E.
  - change 1 with (2 ^ 0). rewrite Z.pow2_bits_eqb by lia. destruct (Z.eqb_spec 0 i); [lia|]. simpl.
    destruct (Z.even v) eqn:E; [|done]. apply Z.even_spec in E as [m ->].
    replace i with (Z.succ (i - 1)) by lia. change (2 ^ 0) with 1.
    by rewrite Z.testbit_even_succ, Z.testbit_odd_succ by lia.
Qed.

Lemma log2_lor_1 v : 0 <= v -> 0 < Z.lor v 1 /\ Z.log2 (Z.lor v 1) = Z.log2 v.
Proof.
  intros Hv. pose proof (Z.log2_nonneg v). rewrite Z.log2_lor by lia. change (Z.log2 1) with 0.
  rewrite Z.max_l by lia.
  split; [|done]. rewrite lor_1 by done. destruct (Z.even v) eqn:E; [lia|].
  destruct (Z.eq_dec v 0) as [->|]; [done|lia].
Qed.

Lemma lor_1_range w v : 0 < w -> inU w v -> inU w (Z.lor v 1).
Proof.
  intros Hw Hv. destruct (log2_lor_1 v) as [Hp Hl]; [by destruct Hv|].
  split; [lia|]. apply Z.log2_lt_pow2; [done|]. rewrite Hl. unfold inU in Hv.
  destruct (Z.eq_dec v 0) as [->|]; [done|]. apply Z.log2_lt_pow2; lia.
Qed.

Lemma log2value_spec w v : w = 32 \/ w = 64 -> inU w v ->
  u32 (w - 1 - countl_zero w (Z.lor v 1)) = Z.log2 v /\ 0 <= Z.log2 v < w.
Proof.
  intros Hw Hv. assert (Hu : unsigned_width w) by (unfold unsigned_width; lia).
  destruct (log2_lor_1 v) as [Hp Hl]; [by destruct Hv|].
  unfold countl_zero. rewrite clz_spec by (done || apply lor_1_range; lia || done).
  assert (Hb : 0 <= Z.log2 v < w).
  { split; [apply Z.log2_nonneg|]. destruct Hv as [Hv0 Hv1].
    destruct (Z.eq_dec v 0) as [->|]; [destruct Hw; subst; done|]. apply Z.log2_lt_pow2; lia. }
  unfold bit_length. destruct (Z.eqb_spec (Z.lor v 1) 0); [lia|]. rewrite Hl.
  split; [|done]. rewrite wrapU_id by (unfold inU; lia). lia.
Qed.

Lemma VarintSize32_spec v : inU 32 v -> VarintSize32 v = varint_size v /\ VarintSize32PlusOne v = varint_size v + 1.
Proof.
  intros Hv. destruct (log2value_spec 32 v) as [E Hb]; [by left|done|].
  unfold VarintSize32, VarintSize32PlusOne. change 31 with (32 - 1). rewrite E.
  rewrite varint_size_log by (by apply inU_32_64). rewrite !wrapU_id by (unfold inU; lia).
  destruct (size_formula (Z.log2 v)) as [-> ->]; [lia|].
  destruct (Z.eqb_spec v 0) as [->|]; [done|lia].
Qed.

Lemma VarintSize64_spec v : inU 64 v -> VarintSize64 v = varint_size v /\ VarintSize64PlusOne v = varint_size v + 1.
Proof.
  intros Hv. destruct (log2value_spec 64 v) as [E Hb]; [by right|done|].
  unfold VarintSize64, VarintSize64PlusOne. change 63 with (64 - 1). rewrite E.
  rewrite varint_size_log by done. rewrite !wrapU_id by (unfold inU; lia).
  destruct (size_formula (Z.log2 v)) as [-> ->]; [lia|].
  destruct (Z.eqb_spec v 0) as [->|]; [done|lia].
Qed.

Lemma varint_size_bounds v : inU 64 v -> 1 <= varint_size v <= 10.
Proof.
  intros Hv. rewrite varint_size_log by done. unfold inU in Hv.
  destruct (Z.eqb_spec v 0); [lia|]. pose proof (Z.log2_nonneg v).
  assert (Z.log2 v < 64) by (apply Z.log2_lt_pow2; lia).
  pose proof (Z.div_pos (Z.log2 v) 7). assert (Z.log2 v / 7 < 10) by (apply Z.div_lt_upper_bound; lia). lia.
Qed.

Lemma varint_size_32 v : inU 32 v -> 1 <= varint_size v <= 5.
Proof.
  intros Hv. rewrite varint_size_log by (by apply inU_32_64). unfold inU in Hv.
  destruct (Z.eqb_spec v 0); [lia|]. pose proof (Z.log2_nonneg v).
  assert (Z.log2 v < 32) by (apply Z.log2_lt_pow2; lia).
  pose proof (Z.div_pos (Z.log2 v) 7). assert (Z.log2 v / 7 < 5) by (apply Z.div_lt_upper_bound; lia). lia.
Qed.

Lemma size_thresholds v k : 0 <= k <= 9 -> inU 64 v -> varint_size v <= k + 1 <-> v < 2 ^ (7 * (k + 1)).
Proof.
  intros Hk Hv. rewrite varint_size_log by done. unfold inU in Hv.
  destruct (Z.eqb_spec v 0) as [->|Hne].
  { pose proof (Z.pow_pos_nonneg 2 (7 * (k + 1))). lia. }
  rewrite (Z.log2_lt_pow2 v) by lia. pose proof (Z.div_mod (Z.log2 v) 7 ltac:(lia)).
  pose proof (Z.mod_pos_bound (Z.log2 v) 7 ltac:(lia)). lia.
Qed.

Lemma stream_TagSize_spec tag : inU 32 tag -> stream_TagSize tag = varint_size tag.
Proof.
  intros Ht. pose proof (varint_size_32 tag Ht) as Hb. apply inU_32_64 in Ht.
  pose proof (size_thresholds tag 0 ltac:(lia) Ht) as H0'.
  pose proof (size_thresholds tag 1 ltac:(lia) Ht) as H1'.
  pose proof (size_thresholds tag 2 ltac:(lia) Ht) as H2'.
  pose proof (size_thresholds tag 3 ltac:(lia) Ht) as H3'.
  unfold stream_TagSize. simpl Z.mul in *.
  destruct (Z.ltb_spec tag (2 ^ 7)), (Z.ltb_spec tag (2 ^ 14)), (Z.ltb_spec tag (2 ^ 21)),
    (Z.ltb_spec tag (2 ^ 28)); lia.
Qed.

(** The sizes that protobuf computes without encoding are exact: for
    every 32-bit and every 64-bit value the branch-free formula (with its
    leading-zero count) is the number of bytes [UnsafeVarint] stores, between
    1 and 5 or 10. *)
Lemma varint_size_exact v c :
  (inU 32 v -> VarintSize32 v = ptr (UnsafeVarint v c) - ptr c /\ 1 <= VarintSize32 v <= 5 /\
     StaticVarintSize32 v = VarintSize32 v) /\
  (inU 64 v -> VarintSize64 v = ptr (UnsafeVarint v c) - ptr c /\ 1 <= VarintSize64 v <= 10 /\
     VarintSize64PlusOne v = VarintSize64 v + 1).
Proof.
  split; intros Hv.
  - pose proof (inU_32_64 v Hv) as Hv'. rewrite UnsafeVarint_spec, pokes_ptr by done.
    rewrite (proj1 (VarintSize32_spec v Hv)). pose proof (varint_size_32 v Hv).
    change (StaticVarintSize32 v) with (stream_TagSize v). rewrite stream_TagSize_spec by done.
    unfold varint_size in *. lia.
  - rewrite UnsafeVarint_spec, pokes_ptr by done. destruct (VarintSize64_spec v Hv) as [-> ->].
    pose proof (varint_size_bounds v Hv). unfold varint_size in *. lia.
Qed.

(** ** ZigZag *)

Definition ZigZagEncode (w n : Z) : Z := Z.lxor (shlU w (wrapU w n) 1) (wrapU w (Z.shiftr n (w - 1))).
Definition ZigZagDecode (w n : Z) : Z :=
  wrapS w (Z.lxor (Z.shiftr n 1) (wrapU w (notU w (Z.land n 1) + 1))).

Definition ZigZagEncode32 := ZigZagEncode 32.
Definition ZigZagDecode32 := ZigZagDecode 32.
Definition ZigZagEncode64 := ZigZagEncode 64.
Definition ZigZagDecode64 := ZigZagDecode 64.

Lemma lxor_ones w x : 0 <= w -> inU w x -> Z.lxor x (2 ^ w - 1) = 2 ^ w - 1 - x.
Proof.
  intros Hw Hx. rewrite Z.sub_1_r, <- Z.ones_equiv.
  rewrite Z.sub_nocarry_ldiff.
  - apply Z.bits_inj'. intros i Hi. rewrite Z.lxor_spec, Z.ldiff_spec.
    destruct (Z.lt_ge_cases i w).
    + rewrite Z.ones_spec_low by lia. by destruct (Z.testbit x i).
    + rewrite Z.ones_spec_high, (inU_testbit w) by (done || lia). done.
  - apply Z.bits_inj'. intros i Hi. rewrite Z.bits_0, Z.ldiff_spec.
    destruct (Z.lt_ge_cases i w).
    + rewrite Z.ones_spec_low by lia. by rewrite andb_false_r.
    + by rewrite (inU_testbit w) by (done || lia).
Qed.

(** Non-negative numbers become even ones, negative numbers odd ones. *)
Lemma ZigZagEncode_spec w n :
  1 < w -> inS w n -> ZigZagEncode w n = if n <? 0 then - 2 * n - 1 else 2 * n.
Proof.
  intros Hw Hn. unfold ZigZagEncode, shlU. pose proof (pow2_half w ltac:(lia)) as Hh.
  pose proof (Z.pow_pos_nonneg 2 (w - 1) ltac:(lia) ltac:(lia)) as Hp. destruct Hn as [Hn0 Hn1].
  rewrite Z.shiftl_mul_pow2, Z.shiftr_div_pow2 by lia. change (2 ^ 1) with 2.
  destruct (Z.ltb_spec n 0) as [Hneg|Hpos].
  - assert (E : n / 2 ^ (w - 1) = - 1).
    { symmetry. apply (Z.div_unique_pos _ _ _ (n + 2 ^ (w - 1))); lia. }
    rewrite E. unfold wrapU. rewrite Zmult_mod_idemp_l.
    assert (Em1 : (-1) mod 2 ^ w = 2 ^ w - 1).
    { symmetry. apply (Z.mod_unique_pos _ _ (-1)); lia. }
    assert (E2 : (n * 2) mod 2 ^ w = 2 ^ w + 2 * n).
    { symmetry. apply (Z.mod_unique_pos _ _ (-1)); lia. }
    rewrite Em1, E2, lxor_ones by (try lia; unfold inU; lia). lia.
  - assert (E : n / 2 ^ (w - 1) = 0) by (apply Z.div_small; lia).
    rewrite E. unfold wrapU. rewrite Z.mod_0_l by lia. rewrite Z.lxor_0_r, Zmult_mod_idemp_l.
    rewrite Z.mod_small; lia.
Qed.

Lemma ZigZagDecode_spec w n :
  1 < w -> inU w n -> ZigZagDecode w n = if Z.even n then n / 2 else - (n / 2) - 1.
Proof.
  intros Hw Hn. unfold ZigZagDecode, notU. pose proof (pow2_half w ltac:(lia)) as Hh.
  pose proof (Z.pow_pos_nonneg 2 (w - 1) ltac:(lia) ltac:(lia)) as Hp. destruct Hn as [Hn0 Hn1].
  rewrite Z.shiftr_div_pow2 by lia. change (2 ^ 1) with 2.
  assert (El : Z.land n 1 = n mod 2) by (apply (Z.land_ones n 1); lia). rewrite El.
  unfold wrapU. rewrite Zplus_mod_idemp_l. rewrite Zmod_even.
  pose proof (Z.div_mod n 2 ltac:(lia)) as Hd. pose proof (Z.mod_pos_bound n 2 ltac:(lia)) as Hb.
  destruct (Z.even n).
  - change (Z.lnot 0 + 1) with 0. rewrite Z.mod_0_l by lia. rewrite Z.lxor_0_r.
    apply wrapS_id; [lia|]. unfold inS. lia.
  - change (Z.lnot 1 + 1) with (-1).
    assert (Em1 : (-1) mod 2 ^ w = 2 ^ w - 1) by (symmetry; apply (Z.mod_unique_pos _ _ (-1)); lia).
    rewrite Em1, lxor_ones by (try lia; unfold inU; lia). unfold wrapS.
    rewrite <- (Z.mod_unique_pos (2 ^ w - 1 - n / 2 + 2 ^ (w - 1)) (2 ^ w) 1
                 (2 ^ (w - 1) - 1 - n / 2)); lia.
Qed.

(** ZigZag is a bijection between the signed and the unsigned numbers of
    a width, and it maps numbers of small magnitude to small numbers. *)
Lemma zigzag_roundtrip w n m :
  1 < w -> inS w n -> inU w m ->
  ZigZagDecode w (ZigZagEncode w n) = n /\ ZigZagEncode w (ZigZagDecode w m) = m /\
  inU w (ZigZagEncode w n) /\ ZigZagEncode w n <= 2 * Z.abs n.
Proof.
  intros Hw Hn Hm. pose proof (pow2_half w ltac:(lia)) as Hh.
  pose proof (Z.pow_pos_nonneg 2 (w - 1) ltac:(lia) ltac:(lia)) as Hp.
  assert (Hr : inU w (ZigZagEncode w n)).
  { rewrite ZigZagEncode_spec by done. unfold inS, inU in *. destruct (Z.ltb_spec n 0); lia. }
  split; [|split; [|split; [done|]]].
  - rewrite ZigZagDecode_spec by done. rewrite ZigZagEncode_spec by done.
    destruct (Z.ltb_spec n 0).
    + replace (- 2 * n - 1) with (2 * (- n - 1) + 1) by lia. rewrite Z.even_odd.
      rewrite Z.mul_comm, Z.div_add_l by lia. change (1 / 2) with 0. lia.
    + rewrite Z.even_mul. simpl. rewrite Z.mul_comm, Z.div_mul by lia. done.
  - rewrite (ZigZagDecode_spec w m) by done. pose proof (Z.div_mod m 2 ltac:(lia)) as Hd.
    rewrite Zmod_even in Hd. unfold inU in Hm. rewrite ZigZagEncode_spec.
    + destruct (Z.even m); [destruct (Z.ltb_spec (m / 2) 0)|destruct (Z.ltb_spec (- (m / 2) - 1) 0)]; lia.
    + done.
    + unfold inS. destruct (Z.even m); lia.
  - rewrite ZigZagEncode_spec by done. destruct (Z.ltb_spec n 0); lia.
Qed.

(** ** Tags *)

Inductive WireType :=
| WIRETYPE_VARINT | WIRETYPE_FIXED64 | WIRETYPE_LENGTH_DELIMITED | WIRETYPE_START_GROUP
| WIRETYPE_END_GROUP | WIRETYPE_FIXED32.

Definition WireType_value (t : WireType) : Z :=
  match t with
  | WIRETYPE_VARINT => 0 | WIRETYPE_FIXED64 => 1 | WIRETYPE_LENGTH_DELIMITED => 2
  | WIRETYPE_START_GROUP => 3 | WIRETYPE_END_GROUP => 4 | WIRETYPE_FIXED32 => 5
  end.

Inductive FieldType :=
| TYPE_DOUBLE | TYPE_FLOAT | TYPE_INT64 | TYPE_UINT64 | TYPE_INT32 | TYPE_FIXED64 | TYPE_FIXED32
| TYPE_BOOL | TYPE_STRING | TYPE_GROUP | TYPE_MESSAGE | TYPE_BYTES | TYPE_UINT32 | TYPE_ENUM
| TYPE_SFIXED32 | TYPE_SFIXED64 | TYPE_SINT32 | TYPE_SINT64.

#[export] Instance WireType_eq_dec : EqDecision WireType.
Proof. solve_decision. Defined.
#[export] Instance FieldType_eq_dec : EqDecision FieldType.
Proof. solve_decision. Defined.

Definition kTagTypeBits : Z := 3.
Definition kTagTypeMask : Z := Z.shiftl 1 kTagTypeBits - 1.

Definition MakeTag (field_number : Z) (type : WireType) : Z :=
  u32 (Z.lor (u32 (Z.shiftl (u32 field_number) 3)) (WireType_value type)).

(** [static_cast<WireType>]; the result is kept as a number, since the values
    6 and 7 are no enumerators. *)
Definition GetTagWireType (tag : Z) : Z := Z.land tag kTagTypeMask.
Definition GetTagFieldNumber (tag : Z) : Z := i32 (Z.shiftr tag kTagTypeBits).

Definition TagSize (field_number : Z) (type : FieldType) : Z :=
  let result := VarintSize32 (u32 (Z.shiftl field_number kTagTypeBits)) in
  if bool_decide (type = TYPE_GROUP) then result * 2 else result.

Definition kMessageSetItemNumber : Z := 1.
Definition kMessageSetTypeIdNumber : Z := 2.
Definition kMessageSetMessageNumber : Z := 3.
Definition kMessageSetItemStartTag : Z := MakeTag kMessageSetItemNumber WIRETYPE_START_GROUP.
Definition kMessageSetItemEndTag : Z := MakeTag kMessageSetItemNumber WIRETYPE_END_GROUP.
Definition kMessageSetTypeIdTag : Z := MakeTag kMessageSetTypeIdNumber WIRETYPE_VARINT.
Definition kMessageSetMessageTag : Z := MakeTag kMessageSetMessageNumber WIRETYPE_LENGTH_DELIMITED.

(** Field numbers the format allows. *)
Definition valid_field (n : Z) : Prop := 0 < n < 2 ^ 29.

Lemma WireType_range t : 0 <= WireType_value t < 8.
Proof. by destruct t. Qed.

Lemma lor_low_bits n x : 0 <= x < 8 -> Z.lor (n * 2 ^ 3) x = n * 2 ^ 3 + x.
Proof.
  intros Hx. rewrite Z.add_nocarry_lxor, Z.lxor_lor; [done|..].
  all: apply Z.bits_inj'; intros i Hi; rewrite Z.bits_0, Z.land_spec;
    destruct (Z.lt_ge_cases i 3);
      [by rewrite Z.mul_pow2_bits_low by lia
      |rewrite <- (Z.mod_small x (2 ^ 3)) by lia; by rewrite Z.mod_pow2_bits_high, andb_false_r by lia].
Qed.

Lemma MakeTag_spec n t : 0 <= n < 2 ^ 29 -> MakeTag n t = 8 * n + WireType_value t.
Proof.
  intros Hn. pose proof (WireType_range t) as Ht. unfold MakeTag.
  rewrite Z.shiftl_mul_pow2 by lia. rewrite !(wrapU_id 32 n) by (unfold inU; lia).
  rewrite (wrapU_id 32 (n * _)) by (unfold inU; lia).
  rewrite lor_low_bits by lia. rewrite wrapU_id by (unfold inU; lia). lia.
Qed.

Lemma MakeTag_range n t : valid_field n -> 8 <= MakeTag n t /\ inU 32 (MakeTag n t).
Proof.
  intros Hn. unfold valid_field in Hn. pose proof (WireType_range t).
  rewrite MakeTag_spec by lia. unfold inU. lia.
Qed.

Lemma WriteTag_advance tag c : inU 32 tag -> ptr (WriteTagToArray tag c) - ptr c = varint_size tag.
Proof.
  intros Ht. unfold WriteTagToArray, WriteVarint32ToArray.
  rewrite UnsafeVarint_spec, pokes_ptr by (by apply inU_32_64). unfold varint_size. lia.
Qed.

(** The size of a tag does not depend on its wire type. *)
Lemma tag_bytes n t :
  0 < n < 2 ^ 29 -> VarintSize32 (u32 (Z.shiftl n kTagTypeBits)) = varint_size (MakeTag n t).
Proof.
  intros Hn. pose proof (WireType_range t) as Ht. pose proof (MakeTag_range n t Hn) as [_ Hr].
  rewrite MakeTag_spec in * by lia.
  rewrite Z.shiftl_mul_pow2 by (unfold kTagTypeBits; lia). change (2 ^ kTagTypeBits) with 8.
  rewrite wrapU_id by (unfold inU; lia).
  rewrite (proj1 (VarintSize32_spec (n * 8) ltac:(unfold inU; lia))).
  rewrite <- !stream_TagSize_spec by (done || unfold inU; lia). unfold stream_TagSize.
  destruct (Z.ltb_spec (n * 8) (2 ^ 7)), (Z.ltb_spec (8 * n + WireType_value t) (2 ^ 7)); try lia.
  destruct (Z.ltb_spec (n * 8) (2 ^ 14)), (Z.ltb_spec (8 * n + WireType_value t) (2 ^ 14)); try lia.
  destruct (Z.ltb_spec (n * 8) (2 ^ 21)), (Z.ltb_spec (8 * n + WireType_value t) (2 ^ 21)); try lia.
  destruct (Z.ltb_spec (n * 8) (2 ^ 28)), (Z.ltb_spec (8 * n + WireType_value t) (2 ^ 28)); lia.
Qed.

(** A tag gives back the field number and the wire type it was made
    from, and its size does not depend on the wire type: [TagSize] is the
    number of bytes of the tag, twice for a group. *)
Lemma tag_roundtrip n t ft c :
  valid_field n ->
  GetTagFieldNumber (MakeTag n t) = n /\ GetTagWireType (MakeTag n t) = WireType_value t /\
  (ft <> TYPE_GROUP -> TagSize n ft = ptr (WriteTagToArray (MakeTag n t) c) - ptr c) /\
  TagSize n TYPE_GROUP = 2 * (ptr (WriteTagToArray (MakeTag n t) c) - ptr c).
Proof.
  intros Hn. pose proof (WireType_range t) as Ht. pose proof (MakeTag_range n t Hn) as [_ Hr].
  unfold valid_field in Hn. rewrite MakeTag_spec in * by lia.
  pose proof (tag_bytes n t Hn) as Hsz. rewrite MakeTag_spec in Hsz by lia.
  rewrite <- (WriteTag_advance _ c Hr) in Hsz.
  split; [|split; [|split]].
  - unfold GetTagFieldNumber, kTagTypeBits. rewrite Z.shiftr_div_pow2 by lia. change (2 ^ 3) with 8.
    replace (8 * n + WireType_value t) with (WireType_value t + n * 8) by lia.
    rewrite Z.div_add, Z.div_small by lia. apply wrapS_id; [lia|]. unfold inS. lia.
  - unfold GetTagWireType. change kTagTypeMask with (Z.ones 3). rewrite Z.land_ones by lia.
    replace (8 * n + WireType_value t) with (WireType_value t + n * 2 ^ 3) by lia.
    rewrite Z_mod_plus_full. by apply Z.mod_small.
  - intros Hg. unfold TagSize. rewrite bool_decide_eq_false_2 by done. exact Hsz.
  - unfold TagSize. rewrite bool_decide_eq_true_2 by done. lia.
Qed.

(** ** Fixed-width numbers *)

Lemma byte_of_shift v k : 0 <= k -> u8 (Z.shiftr v (8 * k)) = (v / 256 ^ k) mod 256.
Proof.
  intros Hk. unfold wrapU. rewrite Z.shiftr_div_pow2 by lia. rewrite Z.pow_mul_r by lia. done.
Qed.

Lemma le_bytes_4 v : le_bytes 4 v =
  [u8 v; u8 (Z.shiftr v 8); u8 (Z.shiftr v 16); u8 (Z.shiftr v 24)].
Proof.
  cbn [le_bytes]. rewrite !Z.div_div by lia.
  pose proof (byte_of_shift v 1 ltac:(lia)) as E1. pose proof (byte_of_shift v 2 ltac:(lia)) as E2.
  pose proof (byte_of_shift v 3 ltac:(lia)) as E3. change (8 * 1) with 8 in E1.
  change (8 * 2) with 16 in E2. change (8 * 3) with 24 in E3.
  rewrite E1, E2, E3. done.
Qed.

Lemma WriteLittleEndian32_spec v c : WriteLittleEndian32ToArray v c = pokes (le_bytes 4 v) c.
Proof. rewrite le_bytes_4. done. Qed.

Lemma le_bytes_split n1 n2 v :
  le_bytes (n1 + n2) v = le_bytes n1 v ++ le_bytes n2 (v / 256 ^ Z.of_nat n1).
Proof.
  revert v. induction n1 as [|n1 IH]; intros v; [by rewrite Z.div_1_r|].
  cbn [le_bytes Nat.add app]. f_equal. rewrite IH. do 2 f_equal.
  rewrite Nat2Z.inj_succ, Z.pow_succ_r, Z.div_div by lia. done.
Qed.

Lemma le_bytes_wrap n v : le_bytes n (v mod 256 ^ Z.of_nat n) = le_bytes n v.
Proof.
  rewrite <- (le_bytes_value (le_bytes n v)) by apply le_bytes_byte.
  by rewrite le_bytes_length, le_value_bytes.
Qed.

Lemma WriteLittleEndian64_spec v c : inU 64 v -> WriteLittleEndian64ToArray v c = pokes (le_bytes 8 v) c.
Proof.
  intros Hv. rewrite (le_bytes_split 4 4). unfold WriteLittleEndian64ToArray.
  rewrite <- (le_bytes_wrap 4 v). change (v mod 256 ^ Z.of_nat 4) with (u32 v).
  assert (E : u32 (Z.shiftr v 32) = v / 256 ^ Z.of_nat 4).
  { rewrite Z.shiftr_div_pow2 by lia. change (256 ^ Z.of_nat 4) with (2 ^ 32). unfold inU in Hv.
    apply wrapU_id. split; [apply Z.div_pos; lia|apply Z.div_lt_upper_bound; lia]. }
  rewrite <- E, !le_bytes_4. done.
Qed.

(** ** Witnesses *)

Lemma zigzag_roundtrip_witness : ZigZagDecode 32 (ZigZagEncode 32 (-3)) = -3 /\ ZigZagEncode32 (-3) = 5.
Proof.
  split; [|reflexivity].
  apply (zigzag_roundtrip 32 (-3) 5); [lia|unfold inS; lia|unfold inU; lia].
Defined.

Lemma tag_roundtrip_witness : GetTagFieldNumber (MakeTag 9 WIRETYPE_VARINT) = 9.
Proof. apply (tag_roundtrip 9 WIRETYPE_VARINT TYPE_BOOL (mkCursor 0 ∅)). unfold valid_field. lia. Defined.

Lemma varint_size_exact_witness : VarintSize32 300 = 2 /\ VarintSize64 (2 ^ 63) = 10.
Proof.
  split.
  - exact (eq_trans (proj1 (proj1 (varint_size_exact 300 (mkCursor 0 ∅)) ltac:(unfold inU; lia)))
      ltac:(vm_compute; reflexivity)).
  - exact (eq_trans (proj1 (proj2 (varint_size_exact (2 ^ 63) (mkCursor 0 ∅)) ltac:(unfold inU; lia)))
      ltac:(vm_compute; reflexivity)).
Defined.
