(* ===== verification/VarintRead.v ===== *)
(** * Reading varints and tags ([google/protobuf/parse_context.h])

    The parsers of the wire format's scalars as they run over memory: the
    byte-pair decoder behind [ParseBigVarint], the rotating decoder behind
    [ReadTagInlined], and the entry points that fall back to functions of the
    library's source files.  A null pointer is [None]. *)

From S2P Require Import Prelude Bytes Bits Varint.
Local Open Scope Z_scope.
Local Open Scope list_scope.

Implicit Types (m : memory) (p : Z).

(** ** Loads *)

(** [EndianHelper<n>::Load] on a little-endian host. *)
Definition EndianLoad (n : nat) m p : Z := le_value (bytes_at m p n).
Definition UnalignedLoad (n : nat) m p : Z := EndianLoad n m p.

(** ** Pairs of bytes *)

(** The value, and the pointer moved by one or two. *)
Definition DecodeTwoBytes m p : Z * Z :=
  let value := UnalignedLoad 2 m p in
  let x := u32 (wrapS 8 value) in
  let value := Z.land value x in
  let value := u32 (value + x) in
  (value, p + if value <? x then 2 else 1).

Fixpoint ParseBigVarint_loop (fuel : nat) (i : Z) m p (res : Z) : option (Z * Z) :=
  match fuel with
  | O => None
  | S fuel =>
      let '(tmp, pnew) := DecodeTwoBytes m (p + 2 * i) in
      let res := u64 (res + u64 (Z.shiftl (u64 (tmp - 2)) (14 * i - 1))) in
      if 0 <=? wrapS 16 tmp then Some (pnew, res)
      else ParseBigVarint_loop fuel (i + 1) m p res
  end.

Definition ParseBigVarint m p : option (Z * Z) :=
  let '(tmp, pnew) := DecodeTwoBytes m p in
  let res := Z.shiftr tmp 1 in
  if 0 <=? wrapS 16 tmp then Some (pnew, res)
  else ParseBigVarint_loop 4 1 m p res.

(** ** Rotations *)

Definition RotRight7AndReplaceLowByte (res byte : Z) : Z :=
  let res := RotateLeft 64 res (-7) in
  let res := Z.land res (u64 (Z.lnot 0xFF)) in
  Z.lor res (Z.land 0xFF byte).

(** The pointer and [*out]. *)
Definition ReadTagInlined m p : option Z * Z :=
  let res := Z.land 0xFF (byte_at m p) in
  if 128 <=? res then
    let res := RotRight7AndReplaceLowByte res (byte_at m (p + 1)) in
    if negb (Z.land res 0x80 =? 0) then
      let res := RotRight7AndReplaceLowByte res (byte_at m (p + 2)) in
      if negb (Z.land res 0x80 =? 0) then
        let res := RotRight7AndReplaceLowByte res (byte_at m (p + 3)) in
        if negb (Z.land res 0x80 =? 0) then
          let res := RotRight7AndReplaceLowByte res (byte_at m (p + 4)) in
          if negb (Z.land res 0x80 =? 0) then (None, 0)
          else (Some (p + 5), u32 (RotateLeft 64 res 28))
        else (Some (p + 4), u32 (RotateLeft 64 res 21))
      else (Some (p + 3), u32 (RotateLeft 64 res 14))
    else (Some (p + 2), u32 (RotateLeft 64 res 7))
  else (Some (p + 1), u32 res).

(** ** Entry points *)

Section entry.
(** Functions of [parse_context.cc]: given the pointer to the first byte and
    what has been read, the pointer behind the number and the number. *)
Context (VarintParseSlow64 : memory -> Z -> Z -> option Z * Z).
Context (VarintParseSlow32 : memory -> Z -> Z -> option Z * Z).
Context (ReadTagFallback : memory -> Z -> Z -> option Z * Z).
Context (ReadSizeFallback : memory -> Z -> Z -> option Z * Z).

(** [VarintParse<uint64_t>] and [VarintParse<uint32_t>], portable branch. *)
Definition VarintParse64 m p : option Z * Z :=
  let res := byte_at m p in
  if Z.land res 0x80 =? 0 then (Some (p + 1), res) else VarintParseSlow64 m p res.
Definition VarintParse32 m p : option Z * Z :=
  let res := byte_at m p in
  if Z.land res 0x80 =? 0 then (Some (p + 1), res) else VarintParseSlow32 m p res.

Definition ReadTag m p : option Z * Z :=
  let res := byte_at m p in
  if res <? 128 then (Some (p + 1), res)
  else
    let second := byte_at m (p + 1) in
    let res := u32 (res + u32 (Z.shiftl (u32 (second - 1)) 7)) in
    if second <? 128 then (Some (p + 2), res) else ReadTagFallback m p res.

Definition ReadSize m p : option Z * Z :=
  let res := byte_at m p in
  if res <? 128 then (Some (p + 1), res)
  else let x := ReadSizeFallback m p res in (x.1, u32 x.2).

Definition ReadVarint64 m p : option Z * Z := VarintParse64 m p.
Definition ReadVarint32 m p : option Z * Z := VarintParse32 m p.
Definition ReadVarintZigZag64 m p : option Z * Z :=
  let '(p', tmp) := VarintParse64 m p in (p', ZigZagDecode64 tmp).
Definition ReadVarintZigZag32 m p : option Z * Z :=
  let '(p', tmp) := VarintParse64 m p in (p', ZigZagDecode32 (u32 tmp)).
End entry.

(** ** The bytes at a pointer *)

Definition reads m p (l : bytes) : Prop := bytes_at m p (length l) = l.

Lemma reads_cons m p b l : reads m p (b :: l) <-> byte_at m p = b /\ reads m (p + 1) l.
Proof. unfold reads. simpl. split; [by intros [= -> ->]|intros [-> ->]; done]. Qed.

Lemma reads_app m p l1 l2 :
  reads m p (l1 ++ l2) <-> reads m p l1 /\ reads m (p + Z.of_nat (length l1)) l2.
Proof.
  revert p. induction l1 as [|b l1 IH]; intros p; cbn [app length].
  - rewrite Z.add_0_r. split; [by intros|by intros [_ ?]].
  - rewrite !reads_cons, IH. replace (p + 1 + Z.of_nat (length l1)) with (p + Z.of_nat (S (length l1))) by lia.
    tauto.
Qed.

Lemma reads_pokes l c : reads (mem (pokes l c)) (ptr c) l.
Proof. apply pokes_read. Qed.

Lemma land_0x80 b : is_byte b -> (Z.land b 0x80 =? 0) = (b <? 128).
Proof.
  intros Hb. unfold is_byte in Hb.
  assert (Hc : forallb (fun n => Bool.eqb (Z.land (Z.of_nat n) 0x80 =? 0) (Z.of_nat n <? 128)) (seq 0 256) = true)
    by (vm_compute; reflexivity).
  rewrite forallb_forall in Hc. specialize (Hc (Z.to_nat b) ltac:(apply in_seq; lia)).
  rewrite Z2Nat.id in Hc by lia. by apply Bool.eqb_prop.
Qed.

Lemma form_byte l : varint_form l -> Forall is_byte l.
Proof.
  induction l as [|b l IH]; [done|]. simpl. destruct l as [|b' l].
  - intros Hb. constructor; [unfold is_byte; lia|constructor].
  - intros [Hb Hl]. constructor; [unfold is_byte; lia|by apply IH].
Qed.

(** ** Pairs of bytes: correctness *)

Lemma load2 m p b0 b1 : byte_at m p = b0 -> byte_at m (p + 1) = b1 -> UnalignedLoad 2 m p = b0 + 256 * b1.
Proof. intros <- <-. unfold UnalignedLoad, EndianLoad. simpl. lia. Qed.

Lemma DecodeTwoBytes_last m p b0 :
  byte_at m p = b0 -> 0 <= b0 < 128 -> is_byte (byte_at m (p + 1)) ->
  DecodeTwoBytes m p = (2 * b0, p + 1).
Proof.
  intros E0 Hb Hb1. unfold DecodeTwoBytes. rewrite (load2 m p b0 (byte_at m (p + 1))) by done.
  set (b1 := byte_at m (p + 1)) in *. unfold is_byte in Hb1.
  assert (Ex : wrapS 8 (b0 + 256 * b1) = b0).
  { unfold wrapS. change (2 ^ (8 - 1)) with 128. change (2 ^ 8) with 256.
    replace (b0 + 256 * b1 + 128) with (b0 + 128 + b1 * 256) by lia.
    rewrite Z_mod_plus_full, Z.mod_small; lia. }
  rewrite Ex, (wrapU_id 32 b0) by (unfold inU; lia).
  assert (El : Z.land (b0 + 256 * b1) b0 = b0).
  { apply Z.bits_inj'. intros i Hi. rewrite Z.land_spec. destruct (Z.lt_ge_cases i 8) as [Hlt|Hge].
    - replace (Z.testbit (b0 + 256 * b1) i) with (Z.testbit b0 i); [by destruct (Z.testbit b0 i)|].
      rewrite <- (Z.mod_small b0 (2 ^ 8)) at 1 by lia.
      replace ((b0 mod 2 ^ 8)) with ((b0 + 256 * b1) mod 2 ^ 8); [by rewrite Z.mod_pow2_bits_low by lia|].
      change (2 ^ 8) with 256. rewrite Z.mul_comm, Z_mod_plus_full. done.
    - rewrite <- (Z.mod_small b0 (2 ^ 8)) at 2 3 by lia.
      by rewrite Z.mod_pow2_bits_high, andb_false_r by lia. }
  rewrite El, wrapU_id by (unfold inU; lia).
  destruct (Z.ltb_spec (b0 + b0) b0); [lia|]. f_equal. lia.
Qed.

Lemma DecodeTwoBytes_more m p b0 b1 :
  byte_at m p = b0 -> byte_at m (p + 1) = b1 -> 128 <= b0 < 256 -> is_byte b1 ->
  DecodeTwoBytes m p = (2 * (b0 mod 128 + 128 * b1), p + 2).
Proof.
  intros E0 E1 Hb Hb1. unfold DecodeTwoBytes. rewrite (load2 m p b0 b1) by done. unfold is_byte in Hb1.
  assert (Ex : u32 (wrapS 8 (b0 + 256 * b1)) = 2 ^ 32 - 256 + b0).
  { assert (wrapS 8 (b0 + 256 * b1) = b0 - 256) as ->.
    { unfold wrapS. change (2 ^ (8 - 1)) with 128. change (2 ^ 8) with 256.
      replace (b0 + 256 * b1 + 128) with (b0 - 128 + (b1 + 1) * 256) by lia.
      rewrite Z_mod_plus_full, Z.mod_small; lia. }
    unfold wrapU. symmetry. apply (Z.mod_unique_pos _ _ (-1)); lia. }
  rewrite Ex.
  assert (El : Z.land (b0 + 256 * b1) (2 ^ 32 - 256 + b0) = b0 + 256 * b1).
  { replace (2 ^ 32 - 256 + b0) with (b0 + 256 * (2 ^ 24 - 1)) by lia.
    assert (Hsplit : forall y, 0 <= y -> forall i, 0 <= i ->
      Z.testbit (b0 + 256 * y) i = if i <? 8 then Z.testbit b0 i else Z.testbit y (i - 8)).
    { intros y Hy i Hi. destruct (Z.ltb_spec i 8).
      - rewrite <- (Z.mod_pow2_bits_low (b0 + 256 * y) 8), <- (Z.mod_pow2_bits_low b0 8) by lia.
        change (2 ^ 8) with 256. by rewrite Z.mul_comm, Z_mod_plus_full.
      - replace y with ((b0 + 256 * y) / 2 ^ 8) at 2.
        + rewrite Z.div_pow2_bits by lia. f_equal. lia.
        + change (2 ^ 8) with 256. rewrite Z.mul_comm, Z.div_add, Z.div_small by lia. lia. }
    apply Z.bits_inj'. intros i Hi. rewrite Z.land_spec, !Hsplit by lia.
    destruct (Z.ltb_spec i 8); [by destruct (Z.testbit b0 i)|].
    destruct (Z.lt_ge_cases (i - 8) 24).
    - rewrite Z.sub_1_r, <- Z.ones_equiv, Z.ones_spec_low by lia. by rewrite andb_true_r.
    - rewrite (inU_testbit 8 b1) by (unfold inU; lia). done. }
  rewrite El. unfold wrapU.
  assert (Em : (b0 + 256 * b1 + (2 ^ 32 - 256 + b0)) mod 2 ^ 32 = 2 * (b0 mod 128 + 128 * b1)).
  { assert (b0 mod 128 = b0 - 128) as -> by (symmetry; apply (Z.mod_unique_pos _ _ 1); lia).
    symmetry. apply (Z.mod_unique_pos _ _ 1); lia. }
  rewrite Em. pose proof (Z.mod_pos_bound b0 128 ltac:(lia)).
  destruct (Z.ltb_spec (2 * (b0 mod 128 + 128 * b1)) (2 ^ 32 - 256 + b0)); [done|lia].
Qed.

(** [static_cast<int16_t>(tmp) >= 0]. *)
Lemma int16_sign t : 0 <= t < 2 ^ 16 -> (0 <=? wrapS 16 t) = (t <? 2 ^ 15).
Proof.
  intros Ht. unfold wrapS. change (2 ^ (16 - 1)) with (2 ^ 15).
  destruct (Z.ltb_spec t (2 ^ 15)).
  - rewrite Z.mod_small by lia. lia.
  - replace (t + 2 ^ 15) with (t - 2 ^ 15 + 1 * 2 ^ 16) by lia. rewrite Z_mod_plus_full, Z.mod_small by lia. lia.
Qed.

(** The loop, when [2 i] bytes with continuation bits have been read: [res]
    is their value plus the continuation bit of the last one. *)
Lemma ParseBigVarint_loop_spec fuel i m p res l :
  1 <= i -> varint_form l -> (length l <= 2 * fuel)%nat -> reads m (p + 2 * i) l ->
  is_byte (byte_at m (p + 2 * i + Z.of_nat (length l))) -> 0 <= res ->
  ParseBigVarint_loop fuel i m p (u64 (res + 2 ^ (14 * i))) =
    Some (p + 2 * i + Z.of_nat (length l), u64 (res + 2 ^ (14 * i) * varint_value l)).
Proof.
  revert i res l. induction fuel as [|fuel IH]; intros i res l Hi Hl Hlen Hr Hnext Hres;
    [destruct l; simpl in *; [done|lia]|].
  cbn [ParseBigVarint_loop].
  assert (Hpow : 2 ^ (14 * i) = 2 * 2 ^ (14 * i - 1)).
  { rewrite <- Z.pow_succ_r by lia. f_equal. lia. }
  assert (Hadd : forall t, u64 (u64 (res + 2 ^ (14 * i)) + u64 (Z.shiftl (u64 (2 * t - 2)) (14 * i - 1)))
                 = u64 (res + 2 ^ (14 * i) * t)).
  { intros t. unfold wrapU. rewrite Z.shiftl_mul_pow2 by lia.
    rewrite Zmult_mod_idemp_l, Zplus_mod_idemp_l, Zplus_mod_idemp_r. f_equal. nia. }
  destruct l as [|b0 l]; [done|]. apply reads_cons in Hr as [E0 Hr].
  destruct l as [|b1 l].
  - simpl in Hl. rewrite (DecodeTwoBytes_last m _ b0) by (done || exact Hnext).
    rewrite Hadd, int16_sign by lia. destruct (Z.ltb_spec (2 * b0) (2 ^ 15)); [|lia].
    cbn [varint_value length]. rewrite (Z.mod_small b0) by lia. repeat f_equal; lia.
  - destruct Hl as [Hb0 Hl]. apply reads_cons in Hr as [E1 Hr].
    pose proof (form_byte _ Hl) as Hby. apply Forall_cons in Hby as [Hb1 Hby].
    rewrite (DecodeTwoBytes_more m _ b0 b1) by done.
    rewrite Hadd. pose proof (Z.mod_pos_bound b0 128 ltac:(lia)). unfold is_byte in Hb1.
    rewrite int16_sign by lia. destruct l as [|b2 l].
    + simpl in Hl. destruct (Z.ltb_spec (2 * (b0 mod 128 + 128 * b1)) (2 ^ 15)); [|lia].
      cbn [varint_value length]. rewrite (Z.mod_small b1) by lia. repeat f_equal; lia.
    + destruct Hl as [Hb1' Hl]. destruct (Z.ltb_spec (2 * (b0 mod 128 + 128 * b1)) (2 ^ 15)); [lia|].
      assert (Eb1 : b1 = b1 mod 128 + 128).
      { rewrite (Z.mod_eq b1) by lia. assert (b1 / 128 = 1) as ->; [|lia].
        symmetry. apply (Z.div_unique_pos _ _ _ (b1 - 128)); lia. }
      assert (Hnp : 2 ^ (14 * (i + 1)) = 2 ^ (14 * i) * (128 * 128)).
      { replace (14 * (i + 1)) with (14 * i + 14) by lia. by rewrite Z.pow_add_r by lia. }
      replace (res + 2 ^ (14 * i) * (b0 mod 128 + 128 * b1))
        with (res + 2 ^ (14 * i) * (b0 mod 128 + 128 * (b1 mod 128)) + 2 ^ (14 * (i + 1)))
        by (rewrite Hnp; nia).
      assert (0 < 2 ^ (14 * i)) by (apply Z.pow_pos_nonneg; lia).
      pose proof (Z.mod_pos_bound b1 128 ltac:(lia)).
      rewrite (IH (i + 1) _ (b2 :: l)).
      * cbn [varint_value length]. rewrite Hnp. f_equal. f_equal; [lia|]. f_equal. ring.
      * lia.
      * exact Hl.
      * simpl in *. lia.
      * replace (p + 2 * (i + 1)) with (p + 2 * i + 1 + 1) by lia. exact Hr.
      * cbn [length] in *. replace (p + 2 * (i + 1) + Z.of_nat (S (length l)))
          with (p + 2 * i + Z.of_nat (S (S (S (length l))))) by lia. exact Hnext.
      * nia.
Qed.

(** Memory holds bytes. *)
Definition mem_ok m : Prop := forall a, is_byte (byte_at m a).

Lemma poke_ok b c : is_byte b -> mem_ok (mem c) -> mem_ok (mem (poke b c)).
Proof.
  intros Hb Hm a. unfold byte_at. simpl. destruct (decide (a = ptr c)) as [->|Hne].
  - by rewrite lookup_insert_eq.
  - rewrite lookup_insert_ne by done. apply Hm.
Qed.

Lemma pokes_ok l c : Forall is_byte l -> mem_ok (mem c) -> mem_ok (mem (pokes l c)).
Proof.
  intros Hl. revert c. induction Hl as [|b l Hb Hl IH]; intros c Hm; [done|].
  apply (IH (poke b c)). by apply poke_ok.
Qed.

Lemma empty_ok : mem_ok ∅.
Proof. intros a. unfold byte_at. rewrite lookup_empty. unfold is_byte; simpl. lia. Qed.

Lemma ParseBigVarint_spec m p l :
  mem_ok m -> varint_form l -> (length l <= 10)%nat -> reads m p l ->
  ParseBigVarint m p = Some (p + Z.of_nat (length l), u64 (varint_value l)).
Proof.
  intros Hm Hl Hlen Hr. unfold ParseBigVarint.
  assert (Hhalf : forall x, Z.shiftr (2 * x) 1 = x).
  { intros x. rewrite Z.shiftr_div_pow2 by lia. rewrite Z.mul_comm. by apply Z.div_mul. }
  destruct l as [|b0 l]; [done|]. apply reads_cons in Hr as [E0 Hr]. destruct l as [|b1 l].
  - simpl in Hl. rewrite (DecodeTwoBytes_last m p b0) by (done || apply Hm).
    rewrite Hhalf, int16_sign by lia. destruct (Z.ltb_spec (2 * b0) (2 ^ 15)); [|lia].
    cbn [varint_value length]. rewrite (Z.mod_small b0) by lia.
    rewrite wrapU_id by (unfold inU; lia). f_equal. f_equal; lia.
  - destruct Hl as [Hb0 Hl]. apply reads_cons in Hr as [E1 Hr].
    pose proof (form_byte _ Hl) as Hby. apply Forall_cons in Hby as [Hb1 Hby].
    rewrite (DecodeTwoBytes_more m p b0 b1) by done. rewrite Hhalf.
    pose proof (Z.mod_pos_bound b0 128 ltac:(lia)). unfold is_byte in Hb1.
    rewrite int16_sign by lia. destruct l as [|b2 l].
    + simpl in Hl. destruct (Z.ltb_spec (2 * (b0 mod 128 + 128 * b1)) (2 ^ 15)); [|lia].
      cbn [varint_value length]. rewrite (Z.mod_small b1) by lia.
      rewrite wrapU_id by (unfold inU; lia). f_equal. f_equal; lia.
    + destruct Hl as [Hb1' Hl]. destruct (Z.ltb_spec (2 * (b0 mod 128 + 128 * b1)) (2 ^ 15)); [lia|].
      pose proof (Z.mod_pos_bound b1 128 ltac:(lia)).
      assert (Eb1 : b1 = b1 mod 128 + 128).
      { rewrite (Z.mod_eq b1) by lia. assert (b1 / 128 = 1) as ->; [|lia].
        symmetry. apply (Z.div_unique_pos _ _ _ (b1 - 128)); lia. }
      assert (Estart : b0 mod 128 + 128 * b1 =
        u64 (b0 mod 128 + 128 * (b1 mod 128) + 2 ^ (14 * 1))).
      { rewrite wrapU_id by (unfold inU; lia). lia. }
      rewrite Estart, (ParseBigVarint_loop_spec 4 1 m p _ (b2 :: l)).
      * cbn [varint_value length]. f_equal. f_equal; [lia|]. f_equal. change (2 ^ (14 * 1)) with (128 * 128). ring.
      * lia.
      * exact Hl.
      * simpl in *. lia.
      * replace (p + 2 * 1) with (p + 1 + 1) by lia. exact Hr.
      * apply Hm.
      * lia.
Qed.

(** Varints survive the wire: what [UnsafeVarint] writes for any 64-bit
    value is read back by [ParseBigVarint] as the same value, and the reader
    ends exactly where the writer did. *)
Lemma varint_roundtrip v c :
  inU 64 v -> mem_ok (mem c) ->
  let c' := UnsafeVarint v c in ParseBigVarint (mem c') (ptr c) = Some (ptr c', v).
Proof.
  intros Hv Hm c'. subst c'. rewrite UnsafeVarint_spec by done. pose proof (u64_128 v Hv) as Hb.
  pose proof (varint_size_bounds v Hv) as Hs. unfold varint_size in Hs.
  rewrite (ParseBigVarint_spec _ _ (varint v)).
  - rewrite pokes_ptr. unfold varint at 2. rewrite varint_bytes_value by done. by rewrite wrapU_id.
  - apply pokes_ok; [|done]. apply varint_bytes_byte. unfold inU in Hv. lia.
  - apply varint_bytes_form; [done|lia].
  - lia.
  - apply reads_pokes.
Qed.

(** ** Rotations: correctness *)

Lemma lor_disjoint x y k : 0 <= k -> 0 <= y < 2 ^ k -> Z.lor (x * 2 ^ k) y = x * 2 ^ k + y.
Proof.
  intros Hk Hy. rewrite Z.add_nocarry_lxor, Z.lxor_lor; [done|..].
  all: apply Z.bits_inj'; intros i Hi; rewrite Z.bits_0, Z.land_spec;
    destruct (Z.lt_ge_cases i k);
      [by rewrite Z.mul_pow2_bits_low by lia
      |by rewrite (inU_testbit k y), andb_false_r by (done || lia)].
Qed.

Lemma rotl64_split x s a :
  0 < a < 64 -> s mod 64 = a -> inU 64 x ->
  RotateLeft 64 x s = (x mod 2 ^ (64 - a)) * 2 ^ a + x / 2 ^ (64 - a).
Proof.
  intros Ha Es Hx. unfold RotateLeft, shlU.
  assert (Hw : unsigned_width 64) by (unfold unsigned_width; lia).
  rewrite !land_width, Es by done.
  assert (Eo : (- s) mod 64 = 64 - a).
  { rewrite (Z.div_mod s 64), Es by lia. symmetry. apply (Z.mod_unique_pos _ _ (- (s / 64) - 1)); lia. }
  rewrite Eo, Z.shiftl_mul_pow2, Z.shiftr_div_pow2 by lia. unfold wrapU, inU in *.
  assert (H64 : 2 ^ 64 = 2 ^ (64 - a) * 2 ^ a) by (rewrite <- Z.pow_add_r by lia; f_equal; lia).
  assert (Hp : 0 < 2 ^ a) by (apply Z.pow_pos_nonneg; lia).
  assert (Hq : 0 < 2 ^ (64 - a)) by (apply Z.pow_pos_nonneg; lia).
  assert (Hdiv : 0 <= x / 2 ^ (64 - a) < 2 ^ a).
  { split; [apply Z.div_pos; lia|apply Z.div_lt_upper_bound; lia]. }
  assert (2 ^ a <= 2 ^ 64) by (apply Z.pow_le_mono_r; lia).
  rewrite (Z.mod_small (x / _)) by lia. rewrite H64 at 1. rewrite Zmult_mod_distr_r.
  by apply lor_disjoint; [lia|].
Qed.

(** The state of the tag reader after [k] continuation bytes: their value on
    top, the last byte at the bottom. *)
Lemma rotate_in T b c k :
  1 <= k <= 4 -> 0 <= T < 2 ^ (7 * (k - 1)) -> 0 <= b < 256 -> is_byte c -> 128 <= b ->
  RotRight7AndReplaceLowByte (T * 2 ^ (64 - 7 * (k - 1)) + b) c =
    (T + (b mod 128) * 2 ^ (7 * (k - 1))) * 2 ^ (64 - 7 * k) + c.
Proof.
  intros Hk HT Hb Hc Hb'. unfold is_byte in Hc. unfold RotRight7AndReplaceLowByte.
  assert (HP : 0 < 2 ^ (7 * (k - 1))) by (apply Z.pow_pos_nonneg; lia).
  assert (H57 : 2 ^ (64 - 7 * (k - 1)) = 128 * 2 ^ (64 - 7 * k)).
  { change 128 with (2 ^ 7). rewrite <- Z.pow_add_r by lia. f_equal. lia. }
  assert (H36 : 2 ^ (64 - 7 * k) = 256 * 2 ^ (56 - 7 * k)).
  { change 256 with (2 ^ 8). rewrite <- Z.pow_add_r by lia. f_equal. lia. }
  assert (Hq : 0 < 2 ^ (56 - 7 * k)) by (apply Z.pow_pos_nonneg; lia).
  assert (Htop : 2 ^ (7 * (k - 1)) * 2 ^ (64 - 7 * k) = 2 ^ 57).
  { rewrite <- Z.pow_add_r by lia. f_equal. lia. }
  assert (Hin : inU 64 (T * 2 ^ (64 - 7 * (k - 1)) + b)).
  { unfold inU. rewrite H57. change (2 ^ 64) with (128 * 2 ^ 57). rewrite <- Htop. nia. }
  rewrite (rotl64_split _ (-7) 57) by (done || lia).
  replace (64 - 57) with 7 by lia. change (2 ^ 7) with 128. rewrite H57.
  replace (T * (128 * 2 ^ (64 - 7 * k)) + b) with (b + (T * 2 ^ (64 - 7 * k)) * 128) by ring.
  rewrite Z_mod_plus_full, Z.div_add by lia.
  assert (Eq : b / 128 = 1) by (symmetry; apply (Z.div_unique_pos _ _ _ (b - 128)); lia).
  rewrite Eq. pose proof (Z.mod_pos_bound b 128 ltac:(lia)).
  set (X := T + b mod 128 * 2 ^ (7 * (k - 1))).
  assert (EX : b mod 128 * 2 ^ 57 + (1 + T * 2 ^ (64 - 7 * k)) = X * 2 ^ (56 - 7 * k) * 2 ^ 8 + 1).
  { subst X. rewrite <- Htop, H36. change (2 ^ 8) with 256. ring. }
  rewrite EX.
  assert (HX : 0 <= X < 2 ^ (7 * k)).
  { subst X. replace (7 * k) with (7 + 7 * (k - 1)) by lia. rewrite Z.pow_add_r by lia. nia. }
  assert (Hclear : Z.land (X * 2 ^ (56 - 7 * k) * 2 ^ 8 + 1) (u64 (Z.lnot 255)) = X * 2 ^ (56 - 7 * k) * 2 ^ 8).
  { rewrite land_wrap; [|lia|].
    - apply Z.bits_inj'. intros i Hi. rewrite Z.land_spec, Z.lnot_spec by lia.
      change 255 with (Z.ones 8). destruct (Z.lt_ge_cases i 8) as [Hlt|Hge].
      + rewrite Z.ones_spec_low, andb_false_r, Z.mul_pow2_bits_low by lia. done.
      + rewrite Z.ones_spec_high, andb_true_r by lia.
        rewrite <- lor_disjoint, Z.lor_spec by lia.
        change 1 with (2 ^ 0). rewrite Z.pow2_bits_eqb by lia.
        destruct (Z.eqb_spec 0 i); [lia|]. apply orb_false_r.
    - unfold inU. assert (2 ^ (7 * k) * 2 ^ (56 - 7 * k) = 2 ^ 56).
      { rewrite <- Z.pow_add_r by lia. f_equal. lia. }
      change (2 ^ 64) with (2 ^ 56 * 2 ^ 8). nia. }
  rewrite Hclear. change 255 with (Z.ones 8). rewrite Z.land_comm, Z.land_ones by lia.
  rewrite (Z.mod_small c) by (change (2 ^ 8) with 256; lia).
  rewrite lor_disjoint by lia. rewrite H36. change (2 ^ 8) with 256. ring.
Qed.

(** The final rotation. *)
Lemma rotate_out T b k :
  1 <= k <= 4 -> 0 <= T < 2 ^ (7 * k) -> 0 <= b < 128 ->
  RotateLeft 64 (T * 2 ^ (64 - 7 * k) + b) (7 * k) = T + b * 2 ^ (7 * k).
Proof.
  intros Hk HT Hb. assert (Hp : 2 ^ 8 <= 2 ^ (64 - 7 * k)) by (apply Z.pow_le_mono_r; lia).
  change (2 ^ 8) with 256 in Hp.
  assert (H64 : 2 ^ (7 * k) * 2 ^ (64 - 7 * k) = 2 ^ 64) by (rewrite <- Z.pow_add_r by lia; f_equal; lia).
  rewrite (rotl64_split _ (7 * k) (7 * k)); [|lia|apply Z.mod_small; lia|unfold inU; nia].
  rewrite Z.add_comm, (Z.add_comm _ b), Z_mod_plus_full, Z.div_add by lia.
  rewrite Z.mod_small, Z.div_small by lia. lia.
Qed.

Lemma low_test X b k : 8 <= k -> is_byte b -> (Z.land (X * 2 ^ k + b) 0x80 =? 0) = (b <? 128).
Proof.
  intros Hk Hb. rewrite <- land_0x80 by done. f_equal. unfold is_byte in Hb.
  assert (2 ^ 8 <= 2 ^ k) by (apply Z.pow_le_mono_r; lia).
  rewrite <- lor_disjoint by lia. rewrite Z.land_lor_distr_l.
  assert (Z.land (X * 2 ^ k) 128 = 0) as ->; [|by rewrite Z.lor_0_l].
  apply Z.bits_inj'. intros i Hi. change 128 with (2 ^ 7). rewrite Z.land_spec, Z.pow2_bits_eqb, Z.bits_0 by lia.
  destruct (Z.eqb_spec 7 i) as [<-|]; [|by rewrite andb_false_r]. by rewrite Z.mul_pow2_bits_low by lia.
Qed.

Lemma first_byte b : is_byte b -> Z.land 0xFF b = b.
Proof.
  intros Hb. change 255 with (Z.ones 8). rewrite Z.land_comm, Z.land_ones by lia.
  apply Z.mod_small. exact Hb.
Qed.

Lemma mod128 b : 128 <= b < 256 -> b mod 128 = b - 128.
Proof. intros Hb. symmetry. apply (Z.mod_unique_pos _ _ 1); lia. Qed.

(** One more byte of a tag: either it ends here or the state moves on. *)
Lemma tag_step T b c k :
  1 <= k <= 4 -> 0 <= T < 2 ^ (7 * (k - 1)) -> 128 <= b < 256 -> is_byte c ->
  let T' := T + (b mod 128) * 2 ^ (7 * (k - 1)) in
  0 <= T' < 2 ^ (7 * k) /\
  RotRight7AndReplaceLowByte (T * 2 ^ (64 - 7 * (k - 1)) + b) c = T' * 2 ^ (64 - 7 * k) + c /\
  negb (Z.land (T' * 2 ^ (64 - 7 * k) + c) 0x80 =? 0) = (128 <=? c).
Proof.
  intros Hk HT Hb Hc T'.
  assert (HP : 0 < 2 ^ (7 * (k - 1))) by (apply Z.pow_pos_nonneg; lia).
  pose proof (Z.mod_pos_bound b 128 ltac:(lia)).
  split; [|split].
  - subst T'. replace (7 * k) with (7 + 7 * (k - 1)) by lia. rewrite Z.pow_add_r by lia. nia.
  - apply rotate_in; try done; lia.
  - rewrite low_test by (done || lia). destruct (Z.ltb_spec c 128), (Z.leb_spec 128 c); simpl; lia.
Qed.

Lemma ReadTagInlined_spec m p l :
  mem_ok m -> varint_form l -> (length l <= 5)%nat -> reads m p l ->
  ReadTagInlined m p = (Some (p + Z.of_nat (length l)), u32 (varint_value l)).
Proof.
  intros Hm Hl Hlen Hr. unfold ReadTagInlined.
  destruct l as [|b0 l]; [done|]. apply reads_cons in Hr as [E0 Hr].
  rewrite first_byte, E0 by apply Hm. destruct l as [|b1 l].
  { simpl in Hl. destruct (Z.leb_spec 128 b0); [lia|]. cbn [varint_value length].
    rewrite (Z.mod_small b0) by lia. f_equal; f_equal; lia. }
  destruct Hl as [Hb0 Hl]. apply reads_cons in Hr as [E1 Hr].
  destruct (Z.leb_spec 128 b0); [|lia]. rewrite E1.
  destruct (tag_step 0 b0 b1 1) as (HT1 & R1 & L1); [lia|simpl; lia|done|rewrite <- E1; apply Hm|].
  change (0 * 2 ^ (64 - 7 * (1 - 1)) + b0) with b0 in R1. rewrite R1, L1. destruct l as [|b2 l].
  { simpl in Hl. destruct (Z.leb_spec 128 b1); [lia|]. change 7 with (7 * 1) at 2.
    rewrite rotate_out by lia. cbn [varint_value length]. rewrite (Z.mod_small b1) by lia.
    apply (f_equal2 pair); [f_equal; lia|f_equal; cbn; lia]. }
  destruct Hl as [Hb1 Hl]. apply reads_cons in Hr as [E2 Hr].
  destruct (Z.leb_spec 128 b1); [|lia]. replace (p + 1 + 1) with (p + 2) in * by lia. rewrite E2.
  destruct (tag_step _ b1 b2 2 ltac:(lia) HT1 Hb1) as (HT2 & R2 & L2); [rewrite <- E2; apply Hm|].
  change (64 - 7 * (2 - 1)) with (64 - 7 * 1) in R2. rewrite R2, L2. destruct l as [|b3 l].
  { simpl in Hl. destruct (Z.leb_spec 128 b2); [lia|]. change 14 with (7 * 2) at 1.
    rewrite rotate_out by lia. cbn [varint_value length]. rewrite (Z.mod_small b2) by lia.
    apply (f_equal2 pair); [f_equal; lia|f_equal; cbn; lia]. }
  destruct Hl as [Hb2 Hl]. apply reads_cons in Hr as [E3 Hr].
  destruct (Z.leb_spec 128 b2); [|lia]. replace (p + 2 + 1) with (p + 3) in * by lia. rewrite E3.
  destruct (tag_step _ b2 b3 3 ltac:(lia) HT2 Hb2) as (HT3 & R3 & L3); [rewrite <- E3; apply Hm|].
  change (64 - 7 * (3 - 1)) with (64 - 7 * 2) in R3. rewrite R3, L3. destruct l as [|b4 l].
  { simpl in Hl. destruct (Z.leb_spec 128 b3); [lia|]. change 21 with (7 * 3) at 1.
    rewrite rotate_out by lia. cbn [varint_value length]. rewrite (Z.mod_small b3) by lia.
    apply (f_equal2 pair); [f_equal; lia|f_equal; cbn; lia]. }
  destruct Hl as [Hb3 Hl]. apply reads_cons in Hr as [E4 Hr].
  destruct (Z.leb_spec 128 b3); [|lia]. replace (p + 3 + 1) with (p + 4) in * by lia. rewrite E4.
  destruct (tag_step _ b3 b4 4 ltac:(lia) HT3 Hb3) as (HT4 & R4 & L4); [rewrite <- E4; apply Hm|].
  change (64 - 7 * (4 - 1)) with (64 - 7 * 3) in R4. rewrite R4, L4.
  destruct l as [|b5 l]; [|simpl in Hlen; lia].
  simpl in Hl. destruct (Z.leb_spec 128 b4); [lia|]. change 28 with (7 * 4) at 1.
  rewrite rotate_out by lia. cbn [varint_value length]. rewrite (Z.mod_small b4) by lia.
  apply (f_equal2 pair); [f_equal; lia|f_equal; cbn; lia].
Qed.

(** Five continuation bytes are refused. *)
Lemma ReadTagInlined_overlong m p l :
  mem_ok m -> reads m p l -> length l = 5%nat -> Forall (fun b => 128 <= b < 256) l ->
  ReadTagInlined m p = (None, 0).
Proof.
  intros Hm Hr Hlen Hl. do 5 (destruct l as [|? l]; [done|]). destruct l; [|done].
  rewrite !reads_cons in Hr. destruct Hr as (E0 & E1 & E2 & E3 & E4 & _).
  rewrite !Forall_cons in Hl. destruct Hl as (B0 & B1 & B2 & B3 & B4 & _).
  replace (p + 1 + 1) with (p + 2) in * by lia. replace (p + 2 + 1) with (p + 3) in * by lia.
  replace (p + 3 + 1) with (p + 4) in * by lia.
  unfold ReadTagInlined. rewrite first_byte, E0, E1, E2, E3, E4 by apply Hm.
  destruct (Z.leb_spec 128 z); [|lia].
  destruct (tag_step 0 z z0 1) as (HT1 & R1 & L1); [lia|simpl; lia|done|unfold is_byte; lia|].
  change (0 * 2 ^ (64 - 7 * (1 - 1)) + z) with z in R1. rewrite R1, L1. destruct (Z.leb_spec 128 z0); [|lia].
  destruct (tag_step _ z0 z1 2 ltac:(lia) HT1 B1) as (HT2 & R2 & L2); [unfold is_byte; lia|].
  change (64 - 7 * (2 - 1)) with (64 - 7 * 1) in R2. rewrite R2, L2. destruct (Z.leb_spec 128 z1); [|lia].
  destruct (tag_step _ z1 z2 3 ltac:(lia) HT2 B2) as (HT3 & R3 & L3); [unfold is_byte; lia|].
  change (64 - 7 * (3 - 1)) with (64 - 7 * 2) in R3. rewrite R3, L3. destruct (Z.leb_spec 128 z2); [|lia].
  destruct (tag_step _ z2 z3 4 ltac:(lia) HT3 B3) as (HT4 & R4 & L4); [unfold is_byte; lia|].
  change (64 - 7 * (4 - 1)) with (64 - 7 * 3) in R4. rewrite R4, L4. by destruct (Z.leb_spec 128 z3); [|lia].
Qed.

Lemma varint_32_form v : inU 32 v -> varint_form (varint v) /\ (length (varint v) <= 5)%nat /\
  varint_value (varint v) = v /\ Forall is_byte (varint v).
Proof.
  intros Hv. pose proof (varint_size_32 v Hv) as Hs. unfold varint_size in Hs.
  assert (Hb : 0 <= v < 128 ^ Z.of_nat 10) by (unfold inU in Hv; lia).
  split; [apply varint_bytes_form; [done|lia]|]. split; [lia|].
  split; [by apply varint_bytes_value|]. apply varint_bytes_byte. lia.
Qed.

(** A tag survives the wire: the register-rotating reader returns exactly
    the 32-bit tag that was written and stops behind it; five bytes that all
    ask for a continuation are refused. *)
Lemma tag_wire tag c :
  inU 32 tag -> mem_ok (mem c) ->
  let c' := WriteTagToArray tag c in
  ReadTagInlined (mem c') (ptr c) = (Some (ptr c'), tag) /\
  forall l, length l = 5%nat -> Forall (fun b => 128 <= b < 256) l ->
    ReadTagInlined (mem (pokes l c)) (ptr c) = (None, 0).
Proof.
  intros Ht Hm c'. subst c'. unfold WriteTagToArray, WriteVarint32ToArray.
  rewrite UnsafeVarint_spec by (by apply inU_32_64).
  destruct (varint_32_form tag Ht) as (Hf & Hl & Hv & Hb). split.
  - rewrite (ReadTagInlined_spec _ _ (varint tag)); [|by apply pokes_ok|done..|apply reads_pokes].
    by rewrite pokes_ptr, Hv, wrapU_id.
  - intros l Hlen Hbs. apply (ReadTagInlined_overlong _ _ l); [|apply reads_pokes|done..].
    apply pokes_ok; [|done]. eapply Forall_impl; [exact Hbs|]. unfold is_byte. intros; simpl in *; lia.
Qed.

(** ** Fixed-width numbers *)

Lemma load_reads n m p v :
  reads m p (le_bytes n v) -> 0 <= v < 256 ^ Z.of_nat n -> UnalignedLoad n m p = v.
Proof.
  unfold reads, UnalignedLoad, EndianLoad. rewrite le_bytes_length. intros -> Hv. by apply le_roundtrip.
Qed.

(** Fixed-width numbers survive the wire, in little-endian order and
    whatever the host's. *)
Theorem fixed_roundtrip v w c :
  inU 32 v -> inU 64 w ->
  UnalignedLoad 4 (mem (WriteLittleEndian32ToArray v c)) (ptr c) = v /\
  UnalignedLoad 8 (mem (WriteLittleEndian64ToArray w c)) (ptr c) = w /\
  ptr (WriteLittleEndian32ToArray v c) = ptr c + 4 /\ ptr (WriteLittleEndian64ToArray w c) = ptr c + 8.
Proof.
  intros Hv Hw. rewrite WriteLittleEndian32_spec, WriteLittleEndian64_spec by done.
  rewrite !pokes_ptr, !le_bytes_length.
  split; [apply load_reads; [apply reads_pokes|exact Hv]|].
  split; [apply load_reads; [apply reads_pokes|exact Hw]|]. lia.
Qed.

(** ** The entry points, given what their fallbacks are for *)

Section entry_facts.
Context (VarintParseSlow64 : memory -> Z -> Z -> option Z * Z).
Context (ReadTagFallback : memory -> Z -> Z -> option Z * Z).
Context (ReadSizeFallback : memory -> Z -> Z -> option Z * Z).

(** [VarintParseSlow64] finishes a varint whose first byte has been read. *)
Definition slow64_spec : Prop := forall m p l,
  mem_ok m -> varint_form l -> (2 <= length l <= 10)%nat -> reads m p l ->
  VarintParseSlow64 m p (byte_at m p) = (Some (p + Z.of_nat (length l)), u64 (varint_value l)).

(** [ReadTagFallback] finishes a tag of which two bytes have been read. *)
Definition tag_fallback_spec : Prop := forall m p l res,
  mem_ok m -> varint_form l -> (3 <= length l <= 5)%nat -> reads m p l ->
  res = u32 (byte_at m p + u32 (Z.shiftl (u32 (byte_at m (p + 1) - 1)) 7)) ->
  ReadTagFallback m p res = (Some (p + Z.of_nat (length l)), u32 (varint_value l)).

Lemma VarintParse64_spec m p l :
  slow64_spec -> mem_ok m -> varint_form l -> (length l <= 10)%nat -> reads m p l ->
  VarintParse64 VarintParseSlow64 m p = (Some (p + Z.of_nat (length l)), u64 (varint_value l)).
Proof.
  intros Hslow Hm Hl Hlen Hr. unfold VarintParse64. rewrite land_0x80 by apply Hm.
  pose proof Hr as Hr'. destruct l as [|b0 l]; [done|]. apply reads_cons in Hr' as [E0 _]. rewrite E0.
  destruct l as [|b1 l].
  - simpl in Hl. destruct (Z.ltb_spec b0 128); [|lia]. cbn [varint_value length].
    rewrite (Z.mod_small b0), wrapU_id by (unfold inU; lia). apply (f_equal2 pair); [f_equal; lia|lia].
  - pose proof Hl as [Hb0 _]. destruct (Z.ltb_spec b0 128); [lia|].
    pose proof (Hslow m p (b0 :: b1 :: l)) as Hs. rewrite E0 in Hs. apply Hs;
      [done|exact Hl|cbn [length] in *; lia|exact Hr].
Qed.

Lemma ReadTag_spec m p l :
  tag_fallback_spec -> mem_ok m -> varint_form l -> (length l <= 5)%nat -> reads m p l ->
  ReadTag ReadTagFallback m p = (Some (p + Z.of_nat (length l)), u32 (varint_value l)).
Proof.
  intros Htag Hm Hl Hlen Hr.
  unfold ReadTag. pose proof Hr as Hr'.
  destruct l as [|b0 l]; [done|]. apply reads_cons in Hr' as [E0 Hr'].
  destruct l as [|b1 l].
  - simpl in Hl. rewrite E0. destruct (Z.ltb_spec b0 128); [|lia]. cbn [varint_value length].
    rewrite (Z.mod_small b0), wrapU_id by (unfold inU; lia). apply (f_equal2 pair); [f_equal; lia|lia].
  - pose proof Hl as [Hb0 Hl']. apply reads_cons in Hr' as [E1 _].
    assert (Hb1 : is_byte b1) by (rewrite <- E1; apply Hm). unfold is_byte in Hb1.
    destruct (Z.ltb_spec (byte_at m p) 128); [lia|].
    destruct l as [|b2 l].
    + simpl in Hl'. destruct (Z.ltb_spec (byte_at m (p + 1)) 128); [|lia].
      rewrite E0, E1. cbn [varint_value length]. rewrite (mod128 b0), (Z.mod_small b1) by lia.
      apply (f_equal2 pair); [f_equal; lia|]. rewrite Z.shiftl_mul_pow2 by lia. unfold wrapU.
      rewrite Zmult_mod_idemp_l, Zplus_mod_idemp_r.
      f_equal. lia.
    + destruct Hl' as [Hb1' _]. destruct (Z.ltb_spec (byte_at m (p + 1)) 128); [lia|].
      apply (Htag m p (b0 :: b1 :: b2 :: l)); [done|exact Hl|cbn [length] in *; lia|exact Hr|reflexivity].
Qed.

(** All readers agree: on any varint of at most ten bytes the generic
    [VarintParse] and [ParseBigVarint], and on any tag of at most five bytes
    [ReadTag] and [ReadTagInlined], return the same pointer and number. *)
Lemma readers_agree m p l :
  slow64_spec -> tag_fallback_spec -> mem_ok m -> varint_form l -> reads m p l ->
  ((length l <= 10)%nat ->
     VarintParse64 VarintParseSlow64 m p = (Some (p + Z.of_nat (length l)), u64 (varint_value l)) /\
     ParseBigVarint m p = Some (p + Z.of_nat (length l), u64 (varint_value l))) /\
  ((length l <= 5)%nat -> ReadTag ReadTagFallback m p = ReadTagInlined m p).
Proof.
  intros Hslow Htag Hm Hl Hr. split; intros Hlen.
  { split; [by apply VarintParse64_spec|by apply ParseBigVarint_spec]. }
  by rewrite (ReadTagInlined_spec m p l), (ReadTag_spec m p l).
Qed.

Lemma varint_value_nonneg l : 0 <= varint_value l.
Proof.
  induction l as [|b l IH]; [simpl; lia|]. cbn [varint_value]. pose proof (Z.mod_pos_bound b 128 ltac:(lia)). lia.
Qed.

(** [ReadSizeFallback] finishes a size that does not fit one byte; sizes
    close to the largest [int] are refused. *)
Definition size_fallback_spec : Prop := forall m p l,
  mem_ok m -> varint_form l -> (2 <= length l <= 5)%nat -> reads m p l ->
  varint_value l < 2 ^ 31 - 16 ->
  ReadSizeFallback m p (byte_at m p) = (Some (p + Z.of_nat (length l)), varint_value l).

Lemma ReadSize_spec m p l :
  size_fallback_spec -> mem_ok m -> varint_form l -> (length l <= 5)%nat -> reads m p l ->
  varint_value l < 2 ^ 31 - 16 ->
  ReadSize ReadSizeFallback m p = (Some (p + Z.of_nat (length l)), varint_value l).
Proof.
  intros Hsize Hm Hl Hlen Hr Hv. unfold ReadSize. pose proof Hr as Hr'.
  destruct l as [|b0 [|b1 l]]; [done| |].
  - apply reads_cons in Hr' as [E0 _]. simpl in Hl. rewrite E0.
    destruct (Z.ltb_spec b0 128); [|lia]. cbn [varint_value length].
    rewrite Z.mod_small by lia. apply (f_equal2 pair); [f_equal; lia|lia].
  - apply reads_cons in Hr' as [E0 _]. pose proof Hl as [Hb0 _].
    destruct (Z.ltb_spec (byte_at m p) 128); [lia|].
    rewrite (Hsize m p (b0 :: b1 :: l)) by (done || cbn [length] in *; lia). cbn [fst snd].
    rewrite wrapU_id; [done|]. pose proof (varint_value_nonneg (b0 :: b1 :: l)). unfold inU. lia.
Qed.

Lemma ReadSize_small m p b : byte_at m p = b -> b < 128 -> ReadSize ReadSizeFallback m p = (Some (p + 1), b).
Proof. intros E Hb. unfold ReadSize. rewrite E. by destruct (Z.ltb_spec b 128); [|lia]. Qed.
End entry_facts.

(** ** Loaded bytes *)

Lemma bytes_at_lookup m p n i : (i < n)%nat -> bytes_at m p n !! i = Some (byte_at m (p + Z.of_nat i)).
Proof.
  revert p i. induction n as [|n IH]; intros p [|i] Hi; [lia|lia| |]; simpl.
  - by rewrite Z.add_0_r.
  - rewrite IH by lia. do 2 f_equal. lia.
Qed.

Lemma bytes_at_ok m p n : mem_ok m -> Forall is_byte (bytes_at m p n).
Proof. intros Hm. revert p. induction n; intros p; simpl; constructor; auto. Qed.

(** ** Concrete inputs *)

Module Toy_varint.
(** 300 is [AC 02] on the wire; the memory holds it at address 100. *)
Definition wire_300 : bytes := [0xAC; 0x02].
Definition at_100 : cursor := pokes wire_300 (mkCursor 100 ∅).

(** The out-of-line halves of the readers, by the general routine. *)
Definition slow64 (m : memory) (p res : Z) : option Z * Z :=
  match ParseBigVarint m p with Some (p', v) => (Some p', v) | None => (None, 0) end.
Definition tag_fallback (m : memory) (p res : Z) : option Z * Z := ReadTagInlined m p.

Lemma slow64_ok : slow64_spec slow64.
Proof. intros m p l Hm Hf Hl Hr. unfold slow64. by rewrite (ParseBigVarint_spec m p l) by (done || lia). Qed.

Lemma tag_fallback_ok : tag_fallback_spec tag_fallback.
Proof.
  intros m p l res Hm Hf Hl Hr _. unfold tag_fallback. rewrite (ReadTagInlined_spec m p l) by (done || lia). done.
Qed.

Lemma at_100_ok : mem_ok (mem at_100).
Proof. apply pokes_ok; [repeat constructor; unfold is_byte; lia|apply empty_ok]. Qed.

Lemma wire_300_form : varint_form wire_300.
Proof. cbn. lia. Qed.
End Toy_varint.

Lemma varint_roundtrip_witness :
  ParseBigVarint (mem (UnsafeVarint 300 (mkCursor 100 ∅))) 100 = Some (102, 300).
Proof.
  refine (eq_trans (varint_roundtrip 300 (mkCursor 100 ∅) _ empty_ok) _);
    [unfold inU; lia|vm_compute; reflexivity].
Defined.

Lemma tag_wire_witness :
  ReadTagInlined (mem (WriteTagToArray 0x80A (mkCursor 7 ∅))) 7 = (Some 9, 0x80A) /\
  ReadTagInlined (mem (pokes [255; 255; 255; 255; 255] (mkCursor 7 ∅))) 7 = (None, 0).
Proof.
  destruct (tag_wire 0x80A (mkCursor 7 ∅) ltac:(unfold inU; lia) empty_ok) as [H1 H2]. split.
  - exact (eq_trans H1 ltac:(vm_compute; reflexivity)).
  - apply H2; [reflexivity|repeat constructor; lia].
Defined.

Lemma fixed_roundtrip_witness :
  UnalignedLoad 4 (mem (WriteLittleEndian32ToArray 0xDEADBEEF (mkCursor 0 ∅))) 0 = 0xDEADBEEF.
Proof.
  exact (proj1 (fixed_roundtrip 0xDEADBEEF 5 (mkCursor 0 ∅) ltac:(unfold inU; lia) ltac:(unfold inU; lia))).
Defined.

Lemma readers_agree_witness :
  VarintParse64 Toy_varint.slow64 (mem Toy_varint.at_100) 100 = (Some 102, 300) /\
  ReadTag Toy_varint.tag_fallback (mem Toy_varint.at_100) 100 = (Some 102, 300).
Proof.
  destruct (readers_agree Toy_varint.slow64 Toy_varint.tag_fallback (mem Toy_varint.at_100) 100
    Toy_varint.wire_300 Toy_varint.slow64_ok Toy_varint.tag_fallback_ok Toy_varint.at_100_ok
    Toy_varint.wire_300_form eq_refl) as [H1 H2].
  split; [exact (eq_trans (proj1 (H1 ltac:(cbn; lia))) ltac:(vm_compute; reflexivity))|].
  exact (eq_trans (H2 ltac:(cbn; lia)) ltac:(vm_compute; reflexivity)).
Defined.
