(* ===== verification/VarintArm.v ===== *)
(** * The varint decoders for 64-bit ARM ([google/protobuf/parse_context.h])

    [VarintParse] as it is compiled for that platform, for both widths: the
    data bits of all bytes are extracted and merged at once, and the length
    comes from the first cleared continuation bit. *)

From S2P Require Import Prelude Bytes Bits Varint VarintRead.
Local Open Scope Z_scope.
Local Open Scope list_scope.

Definition Ubfx7 (data start : Z) : Z := Z.land (Z.shiftr data start) 0x7f.

Definition ExtractAndMergeTwoChunks (data first_byte : Z) : Z :=
  let first := Ubfx7 data (first_byte * 8) in
  let second := Ubfx7 data ((first_byte + 1) * 8) in
  Z.lor first (shlU 64 second 7).

Record SlowPathEncodedInfo := mkInfo {
  si_p : Z;
  si_last8 : Z;
  si_valid_bits : Z;
  si_valid_chunk_bits : Z;
  si_masked_cont_bits : Z;
}.

Definition ComputeLengthAndUpdateP m p : SlowPathEncodedInfo :=
  let last8 := EndianLoad 8 m (p + 2) in
  let mask := 0x8080808080808080 in
  let masked_cont_bits := Z.land mask (notU 64 last8) in
  let valid_bits := countr_zero 64 masked_cont_bits in
  let set_continuation_bits := Z.shiftr valid_bits 3 in
  mkInfo (p + set_continuation_bits + 3) last8 valid_bits (valid_bits - set_continuation_bits)
    masked_cont_bits.

Definition kResultMaskUnshifted : Z := 0xffffffffffffc000.

Definition VarintParseSlowArm64 m p (first8 : Z) : option Z * Z :=
  let info := ComputeLengthAndUpdateP m p in
  let merged_01 := ExtractAndMergeTwoChunks first8 0 in
  let merged_23 := ExtractAndMergeTwoChunks first8 2 in
  let merged_45 := ExtractAndMergeTwoChunks first8 4 in
  let result := Z.lor (Z.lor merged_01 (shlU 64 merged_23 14)) (shlU 64 merged_45 28) in
  let result_mask := shlU 64 kResultMaskUnshifted (si_valid_chunk_bits info) in
  if si_masked_cont_bits info =? 0 then (None, 0)
  else
    let result :=
      if negb (Z.land (si_valid_bits info) 0x20 =? 0) then
        let merged_67 := ExtractAndMergeTwoChunks first8 6 in
        let merged_89 := ExtractAndMergeTwoChunks (si_last8 info) 6 in
        let result := Z.lor result (shlU 64 merged_67 42) in
        Z.lor result (shlU 64 merged_89 56)
      else result in
    let result := Z.land result (notU 64 result_mask) in
    (Some (si_p info), result).

(** The chunks of a 32-bit number, without the test for a long encoding. *)
Definition VarintParseSlowArm32 m p (first8 : Z) : option Z * Z :=
  let info := ComputeLengthAndUpdateP m p in
  let merged_12 := ExtractAndMergeTwoChunks first8 1 in
  let merged_34 := ExtractAndMergeTwoChunks first8 3 in
  let result := Ubfx7 first8 0 in
  let result := Z.lor result (shlU 64 merged_12 7) in
  let result := Z.lor result (shlU 64 merged_34 21) in
  let result_mask := shlU 64 kResultMaskUnshifted (si_valid_chunk_bits info) in
  let result := Z.land result (notU 64 result_mask) in
  if si_masked_cont_bits info =? 0 then (None, 0)
  else (Some (si_p info), u32 result).

(** [VarintParse] of that platform; [slow] is [VarintParseSlowArm] for the
    type of the result. *)
Definition VarintParseArm (slow : memory -> Z -> Z -> option Z * Z) m p : option Z * Z :=
  let first8 := EndianLoad 8 m p in
  if Z.land first8 0x80 =? 0 then (Some (p + 1), u8 first8)
  else if Z.land first8 0x8000 =? 0 then
    let chunk1 := Ubfx7 first8 0 in
    let chunk2 := Ubfx7 first8 8 in
    (Some (p + 2), Z.lor chunk1 (shlU 64 chunk2 7))
  else slow m p first8.

Definition VarintParseArm64 := VarintParseArm VarintParseSlowArm64.
Definition VarintParseArm32 := VarintParseArm VarintParseSlowArm32.

(** The [i]-th byte of a loaded word. *)
Lemma le_value_digit l i b :
  Forall is_byte l -> l !! i = Some b -> (le_value l / 256 ^ Z.of_nat i) mod 256 = b.
Proof.
  intros Hl. revert i. induction Hl as [|a l Ha Hl IH]; intros [|i] Hi; [done..| |].
  - injection Hi as ->. cbn [le_value]. rewrite Z.div_1_r. unfold is_byte in Ha.
    rewrite Z.mul_comm, Z_mod_plus_full. by apply Z.mod_small.
  - cbn [le_value]. simpl in Hi. rewrite <- (IH i Hi). unfold is_byte in Ha.
    rewrite Nat2Z.inj_succ, Z.pow_succ_r, <- Z.div_div by lia.
    rewrite (Z.mul_comm 256), Z.div_add, (Z.div_small a), Z.add_0_l by lia. done.
Qed.

Lemma load_digit n m p i :
  mem_ok m -> (i < n)%nat -> (EndianLoad n m p / 256 ^ Z.of_nat i) mod 256 = byte_at m (p + Z.of_nat i).
Proof. intros Hm Hi. apply le_value_digit; [by apply bytes_at_ok|by apply bytes_at_lookup]. Qed.

Lemma load_range n m p : mem_ok m -> 0 <= EndianLoad n m p < 256 ^ Z.of_nat n.
Proof.
  intros Hm. unfold EndianLoad. pose proof (le_value_range _ (bytes_at_ok m p n Hm)) as Hr.
  by rewrite bytes_at_length in Hr.
Qed.

Lemma load_testbit n m p i k :
  mem_ok m -> (i < n)%nat -> 0 <= k < 8 ->
  Z.testbit (EndianLoad n m p) (8 * Z.of_nat i + k) = Z.testbit (byte_at m (p + Z.of_nat i)) k.
Proof.
  intros Hm Hi Hk. rewrite <- (load_digit n m p i) by done. change 256 with (2 ^ 8).
  rewrite Z.mod_pow2_bits_low by lia. rewrite <- Z.pow_mul_r by lia.
  rewrite Z.div_pow2_bits by lia. f_equal. lia.
Qed.

Lemma mod_256_128 q : (q mod 256) mod 128 = q mod 128.
Proof.
  change 256 with (128 * 2). rewrite Z.rem_mul_r by lia.
  by rewrite (Z.mul_comm 128), Z_mod_plus_full, Zmod_mod.
Qed.

Lemma Ubfx7_load n m p i :
  mem_ok m -> (i < n)%nat -> Ubfx7 (EndianLoad n m p) (Z.of_nat i * 8) = byte_at m (p + Z.of_nat i) mod 128.
Proof.
  intros Hm Hi. unfold Ubfx7. rewrite <- (load_digit n m p i) by done.
  change 0x7f with (Z.ones 7). rewrite Z.land_ones, Z.shiftr_div_pow2 by lia.
  rewrite Z.mul_comm, Z.pow_mul_r by lia. change (2 ^ 8) with 256. change (2 ^ 7) with 128.
  by rewrite mod_256_128.
Qed.

Lemma merge_chunks a b : 0 <= a < 128 -> 0 <= b < 128 -> Z.lor a (shlU 64 b 7) = a + 128 * b.
Proof.
  intros Ha Hb. unfold shlU. rewrite Z.shiftl_mul_pow2 by lia. rewrite wrapU_id by (unfold inU; lia).
  rewrite Z.lor_comm, lor_disjoint by lia. lia.
Qed.

Lemma ExtractAndMerge_load m p i :
  mem_ok m -> (S i < 8)%nat ->
  ExtractAndMergeTwoChunks (EndianLoad 8 m p) (Z.of_nat i) =
    byte_at m (p + Z.of_nat i) mod 128 + 128 * (byte_at m (p + Z.of_nat (S i)) mod 128).
Proof.
  intros Hm Hi. unfold ExtractAndMergeTwoChunks.
  replace (Z.of_nat i + 1) with (Z.of_nat (S i)) by lia. rewrite !Ubfx7_load by (done || lia).
  apply merge_chunks; apply Z.mod_pos_bound; lia.
Qed.

(** The continuation bits: bit [j] of the masked word. *)
Lemma masked_testbit m p j :
  mem_ok m -> 0 <= j < 64 ->
  Z.testbit (si_masked_cont_bits (ComputeLengthAndUpdateP m p)) j =
    (j mod 8 =? 7) && (byte_at m (p + 2 + j / 8) <? 128).
Proof.
  intros Hm Hj. cbn [ComputeLengthAndUpdateP si_masked_cont_bits]. unfold notU.
  rewrite Z.land_spec, wrapU_testbit, Z.lnot_spec by lia.
  pose proof (Z.div_pos j 8 ltac:(lia) ltac:(lia)) as Hq0.
  assert (Ej : j = 8 * Z.of_nat (Z.to_nat (j / 8)) + j mod 8).
  { pose proof (Z.div_mod j 8 ltac:(lia)). lia. }
  pose proof (Z.mod_pos_bound j 8 ltac:(lia)) as Hb.
  assert (Hq : (Z.to_nat (j / 8) < 8)%nat).
  { assert (j / 8 < 8) by (apply Z.div_lt_upper_bound; lia). lia. }
  assert (Emask : Z.testbit 0x8080808080808080 j = (j mod 8 =? 7)).
  { assert (Hc : forallb (fun n => Bool.eqb (Z.testbit 0x8080808080808080 (Z.of_nat n))
      (Z.of_nat n mod 8 =? 7)) (seq 0 64) = true) by (vm_compute; reflexivity).
    rewrite forallb_forall in Hc. specialize (Hc (Z.to_nat j) ltac:(apply in_seq; lia)).
    rewrite Z2Nat.id in Hc by lia. by apply Bool.eqb_prop. }
  rewrite Emask. destruct (Z.ltb_spec j 64); [|lia]. simpl.
  destruct (Z.eqb_spec (j mod 8) 7) as [E7|]; [|done]. simpl.
  rewrite Ej at 1. rewrite load_testbit by (done || lia).
  replace (p + 2 + Z.of_nat (Z.to_nat (j / 8))) with (p + 2 + j / 8) by lia.
  rewrite E7. set (b := byte_at m _). assert (Hbb : is_byte b) by apply Hm.
  rewrite <- land_0x80 by done. rewrite <- (Z.land_comm 0x80).
  change 0x80 with (2 ^ 7). destruct (Z.testbit b 7) eqn:Et; simpl.
  - symmetry. apply Z.eqb_neq. intros Hz.
    assert (Z.testbit (Z.land (2 ^ 7) b) 7 = false) as Hf by (by rewrite Hz).
    by rewrite Z.land_spec, Z.pow2_bits_true, Et in Hf by lia.
  - symmetry. apply Z.eqb_eq. apply Z.bits_inj'. intros i Hi.
    rewrite Z.land_spec, Z.pow2_bits_eqb, Z.bits_0 by lia.
    destruct (Z.eqb_spec 7 i) as [<-|]; [by rewrite Et|done].
Qed.

Lemma trailing_bits x k :
  0 <= k -> Z.testbit x k = true -> (forall j, 0 <= j < k -> Z.testbit x j = false) -> trailing x k.
Proof.
  intros Hk Ht Hlow. split; [done|]. exists (x / 2 ^ k / 2).
  assert (Hmod : x mod 2 ^ k = 0).
  { apply Z.bits_inj'. intros i Hi. rewrite Z.bits_0. destruct (Z.lt_ge_cases i k).
    - rewrite Z.mod_pow2_bits_low by lia. apply Hlow. lia.
    - by rewrite Z.mod_pow2_bits_high by lia. }
  pose proof (Z.pow_pos_nonneg 2 k ltac:(lia) Hk).
  pose proof (Z.div_mod x (2 ^ k) ltac:(lia)) as Hd. pose proof (Z.div_mod (x / 2 ^ k) 2 ltac:(lia)) as Hd2.
  assert (Hodd : (x / 2 ^ k) mod 2 = 1).
  { replace k with (0 + k) in Ht by lia. rewrite <- Z.div_pow2_bits in Ht by lia.
    rewrite Z.bit0_odd in Ht. rewrite Zmod_odd, Ht. done. }
  nia.
Qed.

(** The length: [k] more bytes ask for a continuation, the next one does not. *)
Lemma length_info m p k :
  mem_ok m -> 0 <= k < 8 ->
  (forall i, 0 <= i < k -> 128 <= byte_at m (p + 2 + i)) -> byte_at m (p + 2 + k) < 128 ->
  let info := ComputeLengthAndUpdateP m p in
  si_masked_cont_bits info <> 0 /\ si_valid_bits info = 8 * k + 7 /\
  si_p info = p + k + 3 /\ si_valid_chunk_bits info = 7 * k + 7.
Proof.
  intros Hm Hk Hcont Hlast info.
  assert (Hu : inU 64 (si_masked_cont_bits info)).
  { subst info. cbn [ComputeLengthAndUpdateP si_masked_cont_bits]. unfold notU.
    rewrite Z.land_comm. unfold wrapU. rewrite <- Z.land_ones, <- Z.land_assoc by lia.
    assert (E : Z.land (Z.ones 64) 0x8080808080808080 = 0x8080808080808080) by reflexivity.
    rewrite E, <- E, Z.land_assoc, (Z.land_comm _ (Z.ones 64)), <- Z.land_assoc, Z.land_comm.
    rewrite Z.land_ones by lia. apply (wrapU_range 64). lia. }
  assert (Hdiv : (8 * k + 7) / 8 = k) by (symmetry; apply (Z.div_unique_pos _ _ _ 7); lia).
  assert (Ht : trailing (si_masked_cont_bits info) (8 * k + 7)).
  { apply trailing_bits; [lia| |].
    - subst info. rewrite masked_testbit by (done || lia). rewrite Hdiv.
      replace ((8 * k + 7) mod 8) with 7 by (apply (Z.mod_unique_pos _ _ k); lia).
      simpl. lia.
    - intros j Hj. subst info. rewrite masked_testbit by (done || lia).
      destruct (Z.eqb_spec (j mod 8) 7) as [E7|]; [|done]. simpl.
      pose proof (Z.div_mod j 8 ltac:(lia)). specialize (Hcont (j / 8)). lia. }
  assert (Hne : si_masked_cont_bits info <> 0).
  { intros E. destruct Ht as [_ [q Eq]]. rewrite E in Eq.
    assert (Hpp : 0 < 2 ^ (8 * k + 7)) by (apply Z.pow_pos_nonneg; lia).
    symmetry in Eq. apply Z.mul_eq_0 in Eq. lia. }
  assert (Hvb : si_valid_bits info = 8 * k + 7).
  { change (countr_zero 64 (si_masked_cont_bits info) = 8 * k + 7).
    unfold countr_zero, CountTrailingZeroes. destruct (Z.eqb_spec (si_masked_cont_bits info) 0); [done|].
    change (64 <=? 16) with false. change (64 <=? 32) with false. cbv iota. apply ctz64_spec; [done|destruct Hu; lia|done]. }
  assert (Hs : Z.shiftr (8 * k + 7) 3 = k) by (rewrite Z.shiftr_div_pow2 by lia; exact Hdiv).
  split; [done|]. split; [done|].
  change (si_p info) with (p + Z.shiftr (si_valid_bits info) 3 + 3).
  change (si_valid_chunk_bits info) with (si_valid_bits info - Z.shiftr (si_valid_bits info) 3).
  rewrite Hvb, Hs. lia.
Qed.

Lemma varint_value_app l1 l2 :
  varint_value (l1 ++ l2) = varint_value l1 + 128 ^ Z.of_nat (length l1) * varint_value l2.
Proof.
  induction l1 as [|b l1 IH]; [cbn [app varint_value length]; change (128 ^ Z.of_nat 0) with 1; lia|].
  cbn [app varint_value length]. rewrite IH, pow128. ring.
Qed.

Lemma varint_value_range l : 0 <= varint_value l < 128 ^ Z.of_nat (length l).
Proof.
  induction l as [|b l IH]; [simpl; lia|]. cbn [varint_value length]. rewrite pow128.
  pose proof (Z.mod_pos_bound b 128 ltac:(lia)). lia.
Qed.

Lemma varint_value_prefix m p n k :
  (n <= k)%nat -> varint_value (bytes_at m p k) mod 128 ^ Z.of_nat n = varint_value (bytes_at m p n).
Proof.
  intros Hn. replace k with (n + (k - n))%nat by lia. rewrite bytes_at_app, varint_value_app.
  rewrite bytes_at_length, Z.mul_comm, Z_mod_plus_full.
  pose proof (varint_value_range (bytes_at m p n)) as Hr. rewrite bytes_at_length in Hr.
  by apply Z.mod_small.
Qed.

Lemma mask_bits x s :
  inU 64 x -> 0 <= s -> Z.land x (notU 64 (shlU 64 kResultMaskUnshifted s)) = x mod 2 ^ (14 + s).
Proof.
  intros Hx Hs. apply Z.bits_inj'. intros i Hi. destruct (Z.lt_ge_cases i 64) as [Hlt|Hge].
  - unfold notU, shlU. rewrite Z.land_spec, wrapU_testbit, Z.lnot_spec, wrapU_testbit by lia.
    destruct (Z.ltb_spec i 64); [|lia]. simpl. rewrite Z.shiftl_spec by lia.
    assert (Hk : forall j, 0 <= j < 64 -> Z.testbit kResultMaskUnshifted j = (14 <=? j)).
    { intros j Hj. assert (Hc : forallb (fun n => Bool.eqb (Z.testbit kResultMaskUnshifted (Z.of_nat n))
        (14 <=? Z.of_nat n)) (seq 0 64) = true) by (vm_compute; reflexivity).
      rewrite forallb_forall in Hc. specialize (Hc (Z.to_nat j) ltac:(apply in_seq; lia)).
      rewrite Z2Nat.id in Hc by lia. by apply Bool.eqb_prop. }
    assert (Em : Z.testbit kResultMaskUnshifted (i - s) = (14 + s <=? i)).
    { destruct (Z.lt_ge_cases i s).
      - rewrite Z.testbit_neg_r by lia. destruct (Z.leb_spec (14 + s) i); lia.
      - rewrite Hk by lia. destruct (Z.leb_spec 14 (i - s)), (Z.leb_spec (14 + s) i); lia. }
    rewrite Em. destruct (Z.leb_spec (14 + s) i); simpl.
    + by rewrite Z.mod_pow2_bits_high, andb_false_r by lia.
    + by rewrite Z.mod_pow2_bits_low, andb_true_r by lia.
  - rewrite Z.land_spec, (inU_testbit 64 x) by (done || lia). simpl.
    destruct (Z.lt_ge_cases i (14 + s)).
    + rewrite Z.mod_pow2_bits_low by lia. symmetry. apply (inU_testbit 64); [done|lia].
    + by rewrite Z.mod_pow2_bits_high by lia.
Qed.

Lemma lor_shlU x y k :
  0 <= k -> 0 <= x < 2 ^ k -> 0 <= y -> k <= 64 ->
  Z.lor x (shlU 64 y k) = u64 (x + y * 2 ^ k).
Proof.
  intros Hk Hx Hy Hk64. unfold shlU, wrapU. rewrite Z.shiftl_mul_pow2 by lia.
  assert (H64 : 2 ^ 64 = 2 ^ (64 - k) * 2 ^ k) by (rewrite <- Z.pow_add_r by lia; f_equal; lia).
  assert (Hp : 0 < 2 ^ k) by (apply Z.pow_pos_nonneg; lia).
  assert (Hq : 0 < 2 ^ (64 - k)) by (apply Z.pow_pos_nonneg; lia).
  rewrite H64, Zmult_mod_distr_r, Z.lor_comm, lor_disjoint by lia.
  pose proof (Z.mod_pos_bound y (2 ^ (64 - k)) Hq).
  rewrite (Z.div_mod y (2 ^ (64 - k))) at 2 by lia.
  replace (x + (2 ^ (64 - k) * (y / 2 ^ (64 - k)) + y mod 2 ^ (64 - k)) * 2 ^ k)
    with (y mod 2 ^ (64 - k) * 2 ^ k + x + (y / 2 ^ (64 - k)) * (2 ^ (64 - k) * 2 ^ k)) by ring.
  rewrite Z_mod_plus_full. symmetry. apply Z.mod_small. nia.
Qed.

(** The first six chunks, and all ten. *)
Lemma merged_low m p :
  mem_ok m ->
  let first8 := EndianLoad 8 m p in
  Z.lor (Z.lor (ExtractAndMergeTwoChunks first8 0) (shlU 64 (ExtractAndMergeTwoChunks first8 2) 14))
    (shlU 64 (ExtractAndMergeTwoChunks first8 4) 28) = varint_value (bytes_at m p 6).
Proof.
  intros Hm first8. subst first8.
  pose proof (ExtractAndMerge_load m p 0 Hm ltac:(lia)) as E0.
  pose proof (ExtractAndMerge_load m p 2 Hm ltac:(lia)) as E2.
  pose proof (ExtractAndMerge_load m p 4 Hm ltac:(lia)) as E4.
  change (Z.of_nat 0) with 0 in E0. change (Z.of_nat 2) with 2 in E2. change (Z.of_nat 4) with 4 in E4.
  rewrite E0, E2, E4. cbn [bytes_at varint_value Z.of_nat].
  replace (p + 1 + 1) with (p + 2) by lia. replace (p + 2 + 1) with (p + 3) by lia.
  replace (p + 3 + 1) with (p + 4) by lia. replace (p + 4 + 1) with (p + 5) by lia. rewrite Z.add_0_r.
  change (p + Z.of_nat 1) with (p + 1). change (p + Z.of_nat 3) with (p + 3).
  change (p + Z.of_nat 5) with (p + 5).
  pose proof (Z.mod_pos_bound (byte_at m p) 128 ltac:(lia)).
  pose proof (Z.mod_pos_bound (byte_at m (p + 1)) 128 ltac:(lia)).
  pose proof (Z.mod_pos_bound (byte_at m (p + 2)) 128 ltac:(lia)).
  pose proof (Z.mod_pos_bound (byte_at m (p + 3)) 128 ltac:(lia)).
  pose proof (Z.mod_pos_bound (byte_at m (p + 4)) 128 ltac:(lia)).
  pose proof (Z.mod_pos_bound (byte_at m (p + 5)) 128 ltac:(lia)).
  rewrite (lor_shlU _ _ 14) by lia. rewrite (wrapU_id 64) by (unfold inU; lia).
  rewrite (lor_shlU _ _ 28) by lia. rewrite (wrapU_id 64) by (unfold inU; lia). lia.
Qed.

Lemma merged_all m p :
  mem_ok m ->
  Z.lor (Z.lor (varint_value (bytes_at m p 6)) (shlU 64 (ExtractAndMergeTwoChunks (EndianLoad 8 m p) 6) 42))
    (shlU 64 (ExtractAndMergeTwoChunks (EndianLoad 8 m (p + 2)) 6) 56) = u64 (varint_value (bytes_at m p 10)).
Proof.
  intros Hm. pose proof (ExtractAndMerge_load m p 6 Hm ltac:(lia)) as E6.
  pose proof (ExtractAndMerge_load m (p + 2) 6 Hm ltac:(lia)) as E8.
  change (Z.of_nat 6) with 6 in E6, E8. rewrite E6, E8.
  pose proof (varint_value_range (bytes_at m p 6)) as Hr. rewrite bytes_at_length in Hr.
  change (bytes_at m p 10) with (bytes_at m p (6 + 4)). rewrite bytes_at_app, varint_value_app, bytes_at_length.
  set (v6 := varint_value (bytes_at m p 6)) in *. cbn [bytes_at varint_value].
  replace (p + Z.of_nat 6 + 1 + 1 + 1) with (p + 9) by lia.
  replace (p + Z.of_nat 6 + 1 + 1) with (p + 8) by lia.
  replace (p + Z.of_nat 6 + 1) with (p + 7) by lia. change (p + Z.of_nat 6) with (p + 6).
  replace (p + 2 + Z.of_nat 7) with (p + 9) by lia. replace (p + 2 + 6) with (p + 8) by lia.
  change (p + Z.of_nat 7) with (p + 7).
  pose proof (Z.mod_pos_bound (byte_at m (p + 6)) 128 ltac:(lia)).
  pose proof (Z.mod_pos_bound (byte_at m (p + 7)) 128 ltac:(lia)).
  pose proof (Z.mod_pos_bound (byte_at m (p + 8)) 128 ltac:(lia)).
  pose proof (Z.mod_pos_bound (byte_at m (p + 9)) 128 ltac:(lia)).
  change (128 ^ Z.of_nat 6) with (2 ^ 42) in *.
  rewrite (lor_shlU _ _ 42) by lia. rewrite (wrapU_id 64) by (unfold inU; lia).
  rewrite (lor_shlU _ _ 56) by lia. f_equal. lia.
Qed.

Lemma form_bytes l m p :
  varint_form l -> reads m p l ->
  exists n, length l = S n /\ (forall i, 0 <= i < Z.of_nat n -> 128 <= byte_at m (p + i)) /\
    byte_at m (p + Z.of_nat n) < 128.
Proof.
  revert p. induction l as [|b l IH]; intros p Hf Hr; [done|]. apply reads_cons in Hr as [Eb Hr].
  destruct l as [|b1 l].
  - exists 0%nat. split; [done|]. split; [lia|]. change (Z.of_nat 0) with 0. rewrite Z.add_0_r, Eb.
    simpl in Hf. lia.
  - destruct Hf as [Hb Hf]. destruct (IH (p + 1) Hf Hr) as (n & En & Hc & Hl).
    exists (S n). split; [cbn [length] in *; lia|]. split.
    + intros i Hi. destruct (decide (i = 0)) as [->|]; [rewrite Z.add_0_r; lia|].
      replace (p + i) with (p + 1 + (i - 1)) by lia. apply Hc. lia.
    + by replace (p + Z.of_nat (S n)) with (p + 1 + Z.of_nat n) by lia.
Qed.

Lemma load_cont m p i :
  mem_ok m -> (i < 8)%nat ->
  (Z.land (EndianLoad 8 m p) (Z.shiftl 0x80 (8 * Z.of_nat i)) =? 0) = (byte_at m (p + Z.of_nat i) <? 128).
Proof.
  intros Hm Hi. rewrite <- land_0x80 by apply Hm. set (b := byte_at m (p + Z.of_nat i)).
  assert (E : Z.land (EndianLoad 8 m p) (Z.shiftl 0x80 (8 * Z.of_nat i)) =
              Z.shiftl (Z.land b 0x80) (8 * Z.of_nat i)).
  { apply Z.bits_inj'. intros j Hj. rewrite Z.land_spec, !Z.shiftl_spec, Z.land_spec by lia.
    destruct (decide (j = 8 * Z.of_nat i + 7)) as [->|Hne].
    - rewrite load_testbit by (done || lia). by replace (8 * Z.of_nat i + 7 - 8 * Z.of_nat i) with 7 by lia.
    - change 0x80 with (2 ^ 7). destruct (Z.lt_ge_cases (j - 8 * Z.of_nat i) 0).
      + by rewrite !(Z.testbit_neg_r _ (j - 8 * Z.of_nat i)), !andb_false_r by lia.
      + rewrite Z.pow2_bits_false by lia. by rewrite !andb_false_r. }
  rewrite E. apply eq_true_iff_eq. rewrite !Z.eqb_eq, Z.shiftl_mul_pow2 by lia.
  assert (0 < 2 ^ (8 * Z.of_nat i)) by (apply Z.pow_pos_nonneg; lia).
  rewrite Z.mul_eq_0. lia.
Qed.

Lemma form_length_info m p l :
  mem_ok m -> varint_form l -> (3 <= length l <= 10)%nat -> reads m p l ->
  let info := ComputeLengthAndUpdateP m p in
  si_masked_cont_bits info <> 0 /\ si_valid_bits info = 8 * (Z.of_nat (length l) - 3) + 7 /\
  si_p info = p + Z.of_nat (length l) /\ si_valid_chunk_bits info = 7 * (Z.of_nat (length l) - 3) + 7.
Proof.
  intros Hm Hf Hlen Hr info. destruct (form_bytes l m p Hf Hr) as (n & En & Hcont & Hlast).
  destruct (length_info m p (Z.of_nat (length l) - 3) Hm ltac:(lia)) as (Hne & Hvb & Hp & Hvc).
  { intros i Hi. replace (p + 2 + i) with (p + (2 + i)) by lia. apply Hcont. lia. }
  { replace (p + 2 + (Z.of_nat (length l) - 3)) with (p + Z.of_nat n) by lia. done. }
  split; [done|]. split; [done|]. split; [|done]. fold info in Hp. rewrite Hp. lia.
Qed.

(** The slow decoder, for the lengths its entry point sends to it. *)
Lemma slow_arm64 m p l :
  mem_ok m -> varint_form l -> (3 <= length l <= 10)%nat -> reads m p l ->
  VarintParseSlowArm64 m p (EndianLoad 8 m p) =
    (Some (p + Z.of_nat (length l)), u64 (varint_value l)).
Proof.
  intros Hm Hf Hlen Hr. destruct (form_length_info m p l Hm Hf Hlen Hr) as (Hne & Hvb & Hp & Hvc).
  set (k := Z.of_nat (length l) - 3) in *.
  unfold VarintParseSlowArm64. destruct (Z.eqb_spec (si_masked_cont_bits (ComputeLengthAndUpdateP m p)) 0); [done|].
  rewrite Hvb, Hp, Hvc, (merged_low m p Hm).
  f_equal.
  change (si_last8 (ComputeLengthAndUpdateP m p)) with (EndianLoad 8 m (p + 2)).
  rewrite (merged_all m p Hm).
  assert (Epow : 2 ^ (14 + (7 * k + 7)) = 128 ^ Z.of_nat (length l)).
  { change 128 with (2 ^ 7). rewrite <- Z.pow_mul_r by lia. f_equal. lia. }
  assert (Elong : (Z.land (8 * k + 7) 0x20 =? 0) = (k <? 4)).
  { assert (Hk : k = 0 \/ k = 1 \/ k = 2 \/ k = 3 \/ k = 4 \/ k = 5 \/ k = 6 \/ k = 7) by lia.
    destruct Hk as [E|[E|[E|[E|[E|[E|[E|E]]]]]]]; rewrite E; reflexivity. }
  rewrite Elong.
  assert (El : varint_value l = varint_value (bytes_at m p (length l))) by (unfold reads in Hr; by rewrite Hr).
  rewrite El.
  pose proof (varint_value_range (bytes_at m p (length l))) as Hvr. rewrite bytes_at_length in Hvr.
  destruct (Z.ltb_spec k 4); cbn [negb].
  - pose proof (varint_value_range (bytes_at m p 6)) as H6. rewrite bytes_at_length in H6.
    change (128 ^ Z.of_nat 6) with (2 ^ 42) in H6.
    rewrite mask_bits, Epow, varint_value_prefix by (unfold inU; lia).
    rewrite wrapU_id; [done|]. split; [lia|]. apply (Z.lt_le_trans _ _ _ (proj2 Hvr)).
    change (2 ^ 64) with (2 * 128 ^ 9). apply (Z.le_trans _ (128 ^ 9)); [apply Z.pow_le_mono_r; lia|lia].
  - rewrite mask_bits by (try apply (wrapU_range 64); lia).
    destruct (decide (length l = 10%nat)) as [E10|N10].
    + rewrite E10 in *. apply Z.mod_small. pose proof (wrapU_range 64 (varint_value (bytes_at m p 10)) ltac:(lia)) as Hu.
      unfold inU in Hu. rewrite Epow. split; [lia|]. apply (Z.lt_trans _ (2 ^ 64)); [lia|].
      change (128 ^ Z.of_nat 10) with (2 ^ 70). lia.
    + assert (Hsmall : 128 ^ Z.of_nat (length l) <= 2 ^ 63).
      { change (2 ^ 63) with (128 ^ 9). apply Z.pow_le_mono_r; lia. }
      rewrite (wrapU_id 64 (varint_value (bytes_at m p (length l)))) by (unfold inU; lia).
      rewrite Epow, <- (varint_value_prefix m p (length l) 10) by lia. unfold wrapU.
      replace (2 ^ 64) with (128 ^ Z.of_nat (length l) * 2 ^ (64 - 7 * Z.of_nat (length l))).
      * assert (0 < 2 ^ (64 - 7 * Z.of_nat (length l))) by (apply Z.pow_pos_nonneg; lia).
        rewrite Z.rem_mul_r by lia. by rewrite Z.mul_comm, Z_mod_plus_full, Zmod_mod.
      * change 128 with (2 ^ 7). rewrite <- Z.pow_mul_r, <- Z.pow_add_r by lia. f_equal. lia.
Qed.

(** The chunks 0 to 4. *)
Lemma merged_five m p :
  mem_ok m ->
  let first8 := EndianLoad 8 m p in
  Z.lor (Z.lor (Ubfx7 first8 0) (shlU 64 (ExtractAndMergeTwoChunks first8 1) 7))
    (shlU 64 (ExtractAndMergeTwoChunks first8 3) 21) = varint_value (bytes_at m p 5).
Proof.
  intros Hm first8. subst first8.
  pose proof (Ubfx7_load 8 m p 0 Hm ltac:(lia)) as E0.
  pose proof (ExtractAndMerge_load m p 1 Hm ltac:(lia)) as E1.
  pose proof (ExtractAndMerge_load m p 3 Hm ltac:(lia)) as E3.
  change (Z.of_nat 0 * 8) with 0 in E0. change (Z.of_nat 0) with 0 in E0. rewrite Z.add_0_r in E0.
  change (Z.of_nat 1) with 1 in E1. change (Z.of_nat 3) with 3 in E3.
  rewrite E0, E1, E3. cbn [bytes_at varint_value].
  replace (p + 1 + 1) with (p + 2) by lia. replace (p + 2 + 1) with (p + 3) by lia.
  replace (p + 3 + 1) with (p + 4) by lia.
  change (p + Z.of_nat 2) with (p + 2). change (p + Z.of_nat 4) with (p + 4).
  pose proof (Z.mod_pos_bound (byte_at m p) 128 ltac:(lia)).
  pose proof (Z.mod_pos_bound (byte_at m (p + 1)) 128 ltac:(lia)).
  pose proof (Z.mod_pos_bound (byte_at m (p + 2)) 128 ltac:(lia)).
  pose proof (Z.mod_pos_bound (byte_at m (p + 3)) 128 ltac:(lia)).
  pose proof (Z.mod_pos_bound (byte_at m (p + 4)) 128 ltac:(lia)).
  rewrite (lor_shlU _ _ 7) by lia. rewrite (wrapU_id 64) by (unfold inU; lia).
  rewrite (lor_shlU _ _ 21) by lia. rewrite (wrapU_id 64) by (unfold inU; lia). lia.
Qed.

Lemma slow_arm32 m p l :
  mem_ok m -> varint_form l -> (3 <= length l <= 10)%nat -> reads m p l ->
  VarintParseSlowArm32 m p (EndianLoad 8 m p) =
    (Some (p + Z.of_nat (length l)), u32 (varint_value l)).
Proof.
  intros Hm Hf Hlen Hr. destruct (form_length_info m p l Hm Hf Hlen Hr) as (Hne & Hvb & Hp & Hvc).
  unfold VarintParseSlowArm32. rewrite Hvc, Hp, (merged_five m p Hm).
  destruct (Z.eqb_spec (si_masked_cont_bits (ComputeLengthAndUpdateP m p)) 0); [done|]. f_equal.
  assert (El : varint_value l = varint_value (bytes_at m p (length l))) by (unfold reads in Hr; by rewrite Hr).
  pose proof (varint_value_range (bytes_at m p 5)) as H5. rewrite bytes_at_length in H5.
  change (128 ^ Z.of_nat 5) with (2 ^ 35) in H5.
  rewrite mask_bits by (unfold inU; lia).
  replace (14 + (7 * (Z.of_nat (length l) - 3) + 7)) with (7 * Z.of_nat (length l)) by lia.
  rewrite El, Z.pow_mul_r by lia. change (2 ^ 7) with 128.
  destruct (decide (length l <= 5)%nat) as [Hle|Hgt].
  - by rewrite varint_value_prefix by lia.
  - rewrite <- (varint_value_prefix m p 5 (length l)) by lia. change (128 ^ Z.of_nat 5) with (2 ^ 35).
    rewrite (Z.mod_small (_ mod 2 ^ 35)).
    + unfold wrapU. change (2 ^ 35) with (2 ^ 32 * 8). rewrite Z.rem_mul_r by lia.
      by rewrite (Z.mul_comm (2 ^ 32)), Z_mod_plus_full, Zmod_mod.
    + pose proof (Z.mod_pos_bound (varint_value (bytes_at m p (length l))) (2 ^ 35) ltac:(lia)).
      split; [lia|]. apply (Z.lt_le_trans _ (2 ^ 35)); [lia|]. change (2 ^ 35) with (128 ^ 5).
      apply Z.pow_le_mono_r; lia.
Qed.

(** *** Both widths *)

(** The part of the decoder that does not depend on the width. *)
Lemma arm_entry slow w m p :
  mem_ok m -> 14 <= w ->
  (forall l, varint_form l -> (3 <= length l <= 10)%nat -> reads m p l ->
     slow m p (EndianLoad 8 m p) = (Some (p + Z.of_nat (length l)), wrapU w (varint_value l))) ->
  (forall l, varint_form l -> (length l <= 10)%nat -> reads m p l ->
     VarintParseArm slow m p = (Some (p + Z.of_nat (length l)), wrapU w (varint_value l))) /\
  (128 <= byte_at m p -> 128 <= byte_at m (p + 1) -> VarintParseArm slow m p = slow m p (EndianLoad 8 m p)).
Proof.
  intros Hm Hw Hslow. assert (Hw14 : 2 ^ 14 <= 2 ^ w) by (apply Z.pow_le_mono_r; lia).
  pose proof (load_cont m p 0 Hm ltac:(lia)) as L0. pose proof (load_cont m p 1 Hm ltac:(lia)) as L1.
  change (Z.shiftl 0x80 (8 * Z.of_nat 0)) with 0x80 in L0. change (Z.shiftl 0x80 (8 * Z.of_nat 1)) with 0x8000 in L1.
  change (Z.of_nat 0) with 0 in L0. change (Z.of_nat 1) with 1 in L1. rewrite Z.add_0_r in L0.
  unfold VarintParseArm. rewrite L0, L1. split.
  - intros l Hf Hlen Hr. destruct l as [|b0 [|b1 [|b2 l]]]; [done| | |].
    + apply reads_cons in Hr as [E0 _]. simpl in Hf. rewrite E0.
      destruct (Z.ltb_spec b0 128); [|lia]. cbn [length varint_value]. f_equal.
      pose proof (load_digit 8 m p 0 Hm ltac:(lia)) as Hd. change (Z.of_nat 0) with 0 in Hd.
      rewrite Z.pow_0_r, Z.div_1_r, Z.add_0_r, E0 in Hd.
      transitivity b0; [exact Hd|]. rewrite wrapU_id; unfold inU; rewrite Z.mod_small; lia.
    + pose proof Hr as Hr'. apply reads_cons in Hr as [E0 Hr]. apply reads_cons in Hr as [E1 _]. simpl in Hf.
      rewrite E0, E1. destruct (Z.ltb_spec b0 128); [lia|]. destruct (Z.ltb_spec b1 128); [|lia].
      cbn [length]. f_equal.
      pose proof (Ubfx7_load 8 m p 0 Hm ltac:(lia)) as U0. pose proof (Ubfx7_load 8 m p 1 Hm ltac:(lia)) as U1.
      change (Z.of_nat 0 * 8) with 0 in U0. change (Z.of_nat 1 * 8) with 8 in U1.
      change (Z.of_nat 0) with 0 in U0. change (Z.of_nat 1) with 1 in U1. rewrite Z.add_0_r in U0.
      rewrite U0, U1, E0, E1, merge_chunks by (apply Z.mod_pos_bound; lia). cbn [varint_value].
      pose proof (Z.mod_pos_bound b0 128 ltac:(lia)). pose proof (Z.mod_pos_bound b1 128 ltac:(lia)).
      rewrite wrapU_id by (unfold inU; lia). lia.
    + pose proof Hr as Hr'. apply reads_cons in Hr as [E0 Hr]. apply reads_cons in Hr as [E1 _].
      pose proof Hf as Hf'. destruct Hf as (Hb0 & Hb1 & _). rewrite E0, E1.
      destruct (Z.ltb_spec b0 128); [lia|]. destruct (Z.ltb_spec b1 128); [lia|].
      apply Hslow; [done|cbn [length] in *; lia|done].
  - intros H0 H1'. destruct (Z.ltb_spec (byte_at m p) 128); [lia|].
    by destruct (Z.ltb_spec (byte_at m (p + 1)) 128); [lia|].
Qed.

(** Without an end there is nothing to decode. *)
Lemma all_continue m p :
  mem_ok m -> (forall i, 0 <= i < 10 -> 128 <= byte_at m (p + i)) ->
  si_masked_cont_bits (ComputeLengthAndUpdateP m p) = 0.
Proof.
  intros Hm Hall. apply Z.bits_inj'. intros j Hj. rewrite Z.bits_0. destruct (Z.lt_ge_cases j 64) as [Hlt|Hge].
    - rewrite masked_testbit by (done || lia). destruct (Z.eqb_spec (j mod 8) 7); [|done]. simpl.
      assert (0 <= j / 8 < 8) by (split; [apply Z.div_pos; lia|apply Z.div_lt_upper_bound; lia]).
      specialize (Hall (2 + j / 8) ltac:(lia)). rewrite Z.add_assoc in Hall. lia.
    - cbn [ComputeLengthAndUpdateP si_masked_cont_bits]. rewrite Z.land_spec.
      rewrite (inU_testbit 64 0x8080808080808080) by (unfold inU; lia || done). done.
Qed.

(** The branch-free varint decoders used on 64-bit ARM agree with the
    wire format, for both widths: a well-formed varint of at most ten bytes is
    consumed exactly and yields its value modulo 2^64 or 2^32; ten bytes that
    all ask for a continuation are refused by both. *)
Lemma varint_arm m p :
  mem_ok m ->
  (forall l, varint_form l -> (length l <= 10)%nat -> reads m p l ->
     VarintParseArm64 m p = (Some (p + Z.of_nat (length l)), u64 (varint_value l)) /\
     VarintParseArm32 m p = (Some (p + Z.of_nat (length l)), u32 (varint_value l))) /\
  ((forall i, 0 <= i < 10 -> 128 <= byte_at m (p + i)) ->
     fst (VarintParseArm64 m p) = None /\ fst (VarintParseArm32 m p) = None).
Proof.
  intros Hm.
  destruct (arm_entry VarintParseSlowArm64 64 m p Hm ltac:(lia)) as [R64 S64]; [intros; by apply slow_arm64|].
  destruct (arm_entry VarintParseSlowArm32 32 m p Hm ltac:(lia)) as [R32 S32]; [intros; by apply slow_arm32|].
  split; [intros l Hf Hl Hr; split; [by apply R64|by apply R32]|]. intros Hall.
  pose proof (Hall 0 ltac:(lia)) as H0. rewrite Z.add_0_r in H0. specialize (Hall 1 ltac:(lia)) as H1.
  unfold VarintParseArm64, VarintParseArm32. rewrite S64, S32 by done.
  unfold VarintParseSlowArm64, VarintParseSlowArm32. by rewrite (all_continue m p Hm Hall).
Qed.

Lemma varint_arm_witness :
  VarintParseArm64 (mem Toy_varint.at_100) 100 = (Some 102, 300) /\
  VarintParseArm32 (mem Toy_varint.at_100) 100 = (Some 102, 300).
Proof.
  exact (proj1 (varint_arm _ 100 Toy_varint.at_100_ok) Toy_varint.wire_300
    Toy_varint.wire_300_form ltac:(cbn; lia) eq_refl).
Defined.
