(* ===== verification/VarintShuffle.v ===== *)
(** * The shifting varint decoder ([google/protobuf/varint_shuffle.h])

    [ShiftMixParseVarint] reads a varint without masking a single data byte:
    every byte is shifted into place over a field of ones, and since a byte
    that asks for a continuation is negative, the conjunction of all of them
    is the number read so far with ones above it.  The template parameters
    are arguments: the width of the result, and the limit on the bytes read. *)

From S2P Require Import Prelude Bytes Bits Varint VarintRead VarintArm.
From Stdlib Require Import Btauto.
Local Open Scope Z_scope.
Local Open Scope list_scope.

Implicit Types (m : memory) (p : Z).

(** ** The functions *)

Definition VarintShlByte (n : Z) (byte ones : Z) : Z :=
  i64 (Z.lor (shlU 64 (u64 byte) (n * 7)) (Z.shiftr (u64 ones) (64 - n * 7))).

(** [VarintShl], with the new value. *)
Definition VarintShl (n byte ones : Z) : bool * Z :=
  let res := VarintShlByte n byte ones in (0 <=? res, res).

(** [VarintShlAnd], with the new value of [res]. *)
Definition VarintShlAnd (n byte ones res : Z) : bool * Z :=
  let res := Z.land res (VarintShlByte n byte ones) in (0 <=? res, res).

(** The byte at [p] as an [int8_t]. *)
Definition next m p : Z := wrapS 8 (byte_at m p).

(** The labels [done1] and [limit1], [done2] and [limit2]. *)
Definition at_done1 p res1 res2 : option Z * Z := (Some p, Z.land res1 res2).
Definition at_done2 p res1 res2 res3 : option Z * Z := at_done1 p res1 (Z.land res2 res3).

(** The tenth byte. *)
Definition tenth_byte (is64 : bool) m p res1 res2 res3 : option Z * Z :=
  let last := next m p in
  let p := p + 1 in
  if last =? 1 then at_done2 p res1 res2 res3
  else if negb (Z.land last 0x80 =? 0) then (None, res1)
  else if is64 && (Z.land last 1 =? 0) then at_done2 p res1 res2 (i64 (Z.lxor res3 (2 ^ 63)))
  else at_done2 p res1 res2 res3.

(** The bytes six to nine of a 64-bit number, each with its accumulator. *)
Definition high_bytes64 (limit : Z) m p res1 res2 res3 : option Z * Z :=
  let '(ok, res2) := VarintShlAnd 5 (next m (p + 5)) res1 res2 in
  if ok : bool then at_done2 (p + 6) res1 res2 res3 else
  if limit <=? 6 then at_done2 (p + 6) res1 res2 res3 else
  let '(ok, res3) := VarintShlAnd 6 (next m (p + 6)) res1 res3 in
  if ok : bool then at_done2 (p + 7) res1 res2 res3 else
  if limit <=? 7 then at_done2 (p + 7) res1 res2 res3 else
  let '(ok, res2) := VarintShlAnd 7 (next m (p + 7)) res1 res2 in
  if ok : bool then at_done2 (p + 8) res1 res2 res3 else
  if limit <=? 8 then at_done2 (p + 8) res1 res2 res3 else
  let '(ok, res3) := VarintShlAnd 8 (next m (p + 8)) res1 res3 in
  if ok : bool then at_done2 (p + 9) res1 res2 res3 else
  if limit <=? 9 then at_done2 (p + 9) res1 res2 res3 else
  tenth_byte true m (p + 9) res1 res2 res3.

(** A 32-bit number skips them. *)
Definition high_bytes32 (limit : Z) m p res1 res2 res3 : option Z * Z :=
  if Z.land (next m (p + 5)) 0x80 =? 0 then at_done2 (p + 6) res1 res2 res3 else
  if limit <=? 6 then at_done2 (p + 6) res1 res2 res3 else
  if Z.land (next m (p + 6)) 0x80 =? 0 then at_done2 (p + 7) res1 res2 res3 else
  if limit <=? 7 then at_done2 (p + 7) res1 res2 res3 else
  if Z.land (next m (p + 7)) 0x80 =? 0 then at_done2 (p + 8) res1 res2 res3 else
  if limit <=? 8 then at_done2 (p + 8) res1 res2 res3 else
  if Z.land (next m (p + 8)) 0x80 =? 0 then at_done2 (p + 9) res1 res2 res3 else
  if limit <=? 9 then at_done2 (p + 9) res1 res2 res3 else
  tenth_byte false m (p + 9) res1 res2 res3.

Definition ShiftMixParseVarint (is64 : bool) (limit : Z) m p : option Z * Z :=
  let res1 := next m p in
  if 0 <=? res1 then (Some (p + 1), res1) else
  if limit <=? 1 then (Some (p + 1), res1) else
  let '(ok, res2) := VarintShl 1 (next m (p + 1)) res1 in
  if ok : bool then at_done1 (p + 2) res1 res2 else
  if limit <=? 2 then at_done1 (p + 2) res1 res2 else
  let '(ok, res3) := VarintShl 2 (next m (p + 2)) res1 in
  if ok : bool then at_done2 (p + 3) res1 res2 res3 else
  if limit <=? 3 then at_done2 (p + 3) res1 res2 res3 else
  let '(ok, res2) := VarintShlAnd 3 (next m (p + 3)) res1 res2 in
  if ok : bool then at_done2 (p + 4) res1 res2 res3 else
  if limit <=? 4 then at_done2 (p + 4) res1 res2 res3 else
  let '(ok, res3) := VarintShlAnd 4 (next m (p + 4)) res1 res3 in
  if ok : bool then at_done2 (p + 5) res1 res2 res3 else
  if limit <=? 5 then at_done2 (p + 5) res1 res2 res3 else
  if is64 then high_bytes64 limit m p res1 res2 res3 else high_bytes32 limit m p res1 res2 res3.

(** ** One byte in its place *)

Lemma next_spec m p : mem_ok m -> next m p = if byte_at m p <? 128 then byte_at m p else byte_at m p - 256.
Proof.
  intros Hm. pose proof (Hm p) as Hb. unfold is_byte in Hb. unfold next, wrapS. change (2 ^ (8 - 1)) with 128. change (2 ^ 8) with 256.
  destruct (Z.ltb_spec (byte_at m p) 128).
  - rewrite Z.mod_small by lia. lia.
  - replace (byte_at m p + 128) with (byte_at m p - 128 + 1 * 256) by lia. rewrite Z_mod_plus_full, Z.mod_small by lia. lia.
Qed.

(** The value of the [n]-th byte with ones below it. *)
Definition placed (n s : Z) : Z := (s + 1) * 2 ^ (7 * n) - 1.

Lemma VarintShlByte_spec n s ones :
  0 < n <= 8 -> -128 <= s < 128 -> -128 <= ones < 0 -> VarintShlByte n s ones = placed n s.
Proof.
  intros Hn Hs Ho. unfold VarintShlByte, placed, shlU. rewrite (Z.mul_comm n 7).
  assert (Hpq : 2 ^ 64 = 2 ^ (64 - 7 * n) * 2 ^ (7 * n)) by (rewrite <- Z.pow_add_r by lia; f_equal; lia).
  assert (HP : 128 <= 2 ^ (7 * n) <= 2 ^ 56).
  { split; [change 128 with (2 ^ 7)|]; apply Z.pow_le_mono_r; lia. }
  assert (HQ : 256 <= 2 ^ (64 - 7 * n)) by (change 256 with (2 ^ 8); apply Z.pow_le_mono_r; lia).
  rewrite Z.shiftl_mul_pow2, Z.shiftr_div_pow2 by lia. unfold wrapU.
  assert (E1 : (s mod 2 ^ 64 * 2 ^ (7 * n)) mod 2 ^ 64 = s mod 2 ^ (64 - 7 * n) * 2 ^ (7 * n)).
  { rewrite Zmult_mod_idemp_l, Hpq. by rewrite Zmult_mod_distr_r. }
  assert (E2 : ones mod 2 ^ 64 / 2 ^ (64 - 7 * n) = 2 ^ (7 * n) - 1).
  { replace (ones mod 2 ^ 64) with (ones + 2 ^ 64) by (apply (Z.mod_unique_pos _ _ (-1)); lia).
    symmetry. apply (Z.div_unique_pos _ _ _ (2 ^ (64 - 7 * n) + ones)); [lia|]. rewrite Hpq. lia. }
  rewrite E1, E2, lor_disjoint by lia.
  pose proof (Z.div_mod s (2 ^ (64 - 7 * n)) ltac:(lia)) as Hd.
  set (P := 2 ^ (7 * n)) in *. set (Q := 2 ^ (64 - 7 * n)) in *.
  unfold wrapS. change (2 ^ (64 - 1)) with (2 ^ 63).
  replace (s mod Q * P + (P - 1) + 2 ^ 63) with ((s + 1) * P - 1 + 2 ^ 63 + - (s / Q) * (Q * P)) by lia.
  rewrite <- Hpq, Z_mod_plus_full, Z.mod_small by nia. lia.
Qed.

Lemma placed_sign n s : 0 <= n -> (0 <=? placed n s) = (0 <=? s).
Proof.
  intros Hn. unfold placed. pose proof (Z.pow_pos_nonneg 2 (7 * n) ltac:(lia) ltac:(lia)).
  destruct (Z.leb_spec 0 s); [apply Z.leb_le|apply Z.leb_gt]; nia.
Qed.

Lemma land_sign x y : (0 <=? Z.land x y) = (0 <=? x) || (0 <=? y).
Proof.
  apply eq_true_iff_eq. rewrite orb_true_iff, !Z.leb_le. apply Z.land_nonneg.
Qed.

Lemma next_range m p : mem_ok m -> -128 <= next m p < 128.
Proof. intros Hm. rewrite next_spec by done. pose proof (Hm p) as Hb. unfold is_byte in Hb. case_match; lia. Qed.

Lemma next_sign m p : mem_ok m -> (0 <=? next m p) = (byte_at m p <? 128).
Proof.
  intros Hm. rewrite next_spec by done. pose proof (Hm p) as Hb. unfold is_byte in Hb.
  destruct (Z.ltb_spec (byte_at m p) 128); lia.
Qed.

Lemma next_cont m p : mem_ok m -> (Z.land (next m p) 0x80 =? 0) = (byte_at m p <? 128).
Proof.
  intros Hm. rewrite <- land_0x80 by apply Hm. rewrite next_spec by done.
  destruct (byte_at m p <? 128); [done|]. f_equal. change 0x80 with (2 ^ 7). apply Z.bits_inj'. intros i Hi.
  rewrite !Z.land_spec, Z.pow2_bits_eqb by lia. destruct (Z.eqb_spec 7 i) as [<-|]; [|by rewrite !andb_false_r].
  rewrite !andb_true_r. rewrite <- (Z.mod_pow2_bits_low (byte_at m p - 256) 8), <- (Z.mod_pow2_bits_low (byte_at m p) 8) by lia.
  replace (byte_at m p - 256) with (byte_at m p + -1 * 2 ^ 8) by lia. by rewrite Z_mod_plus_full.
Qed.

(** ** The conjunction of the bytes *)

(** What the first [k] bytes have left. *)
Fixpoint gathered (k : nat) m p : Z :=
  match k with O => -1 | S k => Z.land (gathered k m p) (placed (Z.of_nat k) (next m (p + Z.of_nat k))) end.

Definition continues (k : nat) m p : Prop := forall i, 0 <= i < Z.of_nat k -> 128 <= byte_at m (p + i).

(** A field of ones above [k] bits, and ones below them. *)
Lemma land_above v s k :
  0 <= k -> 0 <= v < 2 ^ k -> Z.land (v - 2 ^ k) ((s + 1) * 2 ^ k - 1) = v + s * 2 ^ k.
Proof.
  intros Hk Hv. replace (v - 2 ^ k) with (-1 * 2 ^ k + v) by lia.
  replace ((s + 1) * 2 ^ k - 1) with (s * 2 ^ k + Z.ones k) by (rewrite Z.ones_equiv; lia).
  rewrite <- !lor_disjoint by (rewrite ?Z.ones_equiv; lia).
  replace (v + s * 2 ^ k) with (s * 2 ^ k + v) by lia. rewrite <- (lor_disjoint s v) by lia.
  apply Z.bits_inj'. intros i Hi. rewrite Z.land_spec, !Z.lor_spec.
  assert (Hl : i < k -> Z.testbit (s * 2 ^ k) i = false /\ Z.testbit (-1 * 2 ^ k) i = false /\ Z.testbit (Z.ones k) i = true).
  { intros Hik. rewrite !Z.mul_pow2_bits_low, Z.ones_spec_low by lia. done. }
  assert (Hh : k <= i -> Z.testbit (-1 * 2 ^ k) i = true /\ Z.testbit v i = false /\ Z.testbit (Z.ones k) i = false).
  { intros Hik. rewrite Z.mul_pow2_bits, Z.bits_m1, Z.ones_spec_high by lia. split; [done|]. split; [|done].
    by apply (inU_testbit k). }
  destruct (Z.lt_ge_cases i k) as [Hik|Hik].
  - destruct (Hl Hik) as (-> & -> & ->). by rewrite andb_true_r.
  - destruct (Hh Hik) as (-> & -> & ->). by rewrite orb_false_r.
Qed.

Lemma varint_value_snoc k m p :
  varint_value (bytes_at m p (S k)) =
    varint_value (bytes_at m p k) + 2 ^ (7 * Z.of_nat k) * (byte_at m (p + Z.of_nat k) mod 128).
Proof.
  replace (S k) with (k + 1)%nat by lia. rewrite bytes_at_app, varint_value_app, bytes_at_length. cbn [bytes_at varint_value].
  rewrite Z.pow_mul_r by lia. change (2 ^ 7) with 128. lia.
Qed.

Lemma gathered_low k m p : 0 <= varint_value (bytes_at m p k) < 2 ^ (7 * Z.of_nat k).
Proof.
  pose proof (varint_value_range (bytes_at m p k)) as Hr. rewrite bytes_at_length in Hr.
  rewrite Z.pow_mul_r by lia. exact Hr.
Qed.

Lemma gathered_cont k m p :
  mem_ok m -> continues k m p ->
  gathered k m p = varint_value (bytes_at m p k) - 2 ^ (7 * Z.of_nat k).
Proof.
  intros Hm. induction k as [|k IH]; intros Hc; [done|]. cbn [gathered].
  rewrite IH by (intros i Hi; apply Hc; lia). unfold placed.
  pose proof (gathered_low k m p). rewrite land_above, varint_value_snoc by lia.
  specialize (Hc (Z.of_nat k) ltac:(lia)). pose proof (Hm (p + Z.of_nat k)) as Hb. unfold is_byte in Hb.
  rewrite next_spec by done. destruct (Z.ltb_spec (byte_at m (p + Z.of_nat k)) 128); [lia|].
  rewrite mod128 by lia. replace (7 * Z.of_nat (S k)) with (7 + 7 * Z.of_nat k) by lia.
  rewrite Z.pow_add_r by lia. change (2 ^ 7) with 128. lia.
Qed.

(** The last byte clears the ones above. *)
Lemma gathered_end k m p :
  mem_ok m -> continues k m p -> byte_at m (p + Z.of_nat k) < 128 ->
  gathered (S k) m p = varint_value (bytes_at m p (S k)).
Proof.
  intros Hm Hc Hl. cbn [gathered]. rewrite gathered_cont by done. unfold placed.
  pose proof (gathered_low k m p). rewrite land_above, varint_value_snoc by lia.
  pose proof (Hm (p + Z.of_nat k)) as Hb. unfold is_byte in Hb.
  rewrite next_spec by done. destruct (Z.ltb_spec (byte_at m (p + Z.of_nat k)) 128); [|lia].
  rewrite (Z.mod_small (byte_at m _)) by lia. lia.
Qed.

(** ** The decoder *)

Definition width (is64 : bool) : Z := if is64 then 64 else 32.

(** The outcome with the bytes [k] read, when they are gathered in order. *)
Definition gathered_at (k : nat) m p : option Z * Z := (Some (p + Z.of_nat k), gathered k m p).

Lemma gathered_first m p : gathered 1 m p = next m p.
Proof.
  cbn [gathered]. unfold placed. rewrite Z.add_0_r, Z.mul_0_r. change (2 ^ 0) with 1.
  rewrite Z.land_m1_l. lia.
Qed.

(** The bytes may be gathered in any order. *)
Ltac gather_land :=
  repeat match goal with |- context [gathered (S ?k) ?m ?p] =>
    match k with
    | O => rewrite (gathered_first m p)
    | _ => change (gathered (S k) m p) with (Z.land (gathered k m p) (placed (Z.of_nat k) (next m (p + Z.of_nat k))))
    end end;
  change (Z.of_nat 1) with 1; change (Z.of_nat 2) with 2; change (Z.of_nat 3) with 3; change (Z.of_nat 4) with 4;
  change (Z.of_nat 5) with 5; change (Z.of_nat 6) with 6; change (Z.of_nat 7) with 7; change (Z.of_nat 8) with 8;
  apply Z.bits_inj'; intros ? _; rewrite !Z.land_spec; btauto.
Ltac gather := unfold at_done2, at_done1, gathered_at; apply (f_equal2 pair); [done|gather_land].

(** One byte: it is the last one, or the limit is reached, or there is more. *)
Ltac one_byte m p i limit j :=
  let E := fresh "E" in
  destruct (byte_at m (p + i) <? 128) eqn:E; cbn [orb]; [gather|];
  destruct (limit <=? j); [gather|].

(** Where the decoder stops: at a last byte, or at the limit. *)
Definition stops (limit : Z) m p (j : Z) : bool := (byte_at m (p + j) <? 128) || (limit <=? j + 1).

(** The bytes up to the fifth, and where the two widths part. *)
Lemma shift_mix_low is64 limit m p :
  mem_ok m ->
  ShiftMixParseVarint is64 limit m p =
    if stops limit m p 0 then gathered_at 1 m p else
    if stops limit m p 1 then gathered_at 2 m p else
    if stops limit m p 2 then gathered_at 3 m p else
    if stops limit m p 3 then gathered_at 4 m p else
    if stops limit m p 4 then gathered_at 5 m p else
    let res2 := Z.land (placed 1 (next m (p + 1))) (placed 3 (next m (p + 3))) in
    let res3 := Z.land (placed 2 (next m (p + 2))) (placed 4 (next m (p + 4))) in
    if is64 then high_bytes64 limit m p (next m p) res2 res3 else high_bytes32 limit m p (next m p) res2 res3.
Proof.
  intros Hm. cbn zeta. unfold ShiftMixParseVarint, VarintShl, VarintShlAnd, stops.
  change (0 + 1) with 1. change (1 + 1) with 2. change (2 + 1) with 3. change (3 + 1) with 4. change (4 + 1) with 5.
  rewrite next_sign by done. replace (p + 0) with p by lia. pose proof (next_range m p Hm) as Hr.
  destruct (Z.ltb_spec (byte_at m p) 128) as [Hb|Hb]; [by unfold gathered_at; rewrite gathered_first|]. cbn [orb].
  destruct (limit <=? 1); [by unfold gathered_at; rewrite gathered_first|].
  assert (Hneg : -128 <= next m p < 0).
  { rewrite next_spec by done. pose proof (Hm p) as Hx. unfold is_byte in Hx. destruct (Z.ltb_spec (byte_at m p) 128); lia. }
  rewrite !VarintShlByte_spec by (try apply next_range; done || lia).
  rewrite !land_sign, !placed_sign, !next_sign by (done || lia).
  one_byte m p 1 limit 2. one_byte m p 2 limit 3. one_byte m p 3 limit 4. one_byte m p 4 limit 5. done.
Qed.

(** The bytes six to nine. *)
Lemma shift_mix_high64 limit m p :
  mem_ok m -> continues 5 m p ->
  let r1 := next m p in
  let r2 := Z.land (placed 1 (next m (p + 1))) (placed 3 (next m (p + 3))) in
  let r3 := Z.land (placed 2 (next m (p + 2))) (placed 4 (next m (p + 4))) in
  high_bytes64 limit m p r1 r2 r3 =
    if stops limit m p 5 then gathered_at 6 m p else
    if stops limit m p 6 then gathered_at 7 m p else
    if stops limit m p 7 then gathered_at 8 m p else
    if stops limit m p 8 then gathered_at 9 m p else
    tenth_byte true m (p + 9) r1
      (Z.land (Z.land r2 (placed 5 (next m (p + 5)))) (placed 7 (next m (p + 7))))
      (Z.land (Z.land r3 (placed 6 (next m (p + 6)))) (placed 8 (next m (p + 8)))).
Proof.
  intros Hm Hc r1 r2 r3. cbn zeta. unfold high_bytes64, VarintShlAnd, stops.
  change (5 + 1) with 6. change (6 + 1) with 7. change (7 + 1) with 8. change (8 + 1) with 9. subst r1 r2 r3.
  assert (Hneg : -128 <= next m p < 0).
  { pose proof (Hc 0 ltac:(lia)) as H0. rewrite Z.add_0_r in H0. pose proof (Hm p) as Hx. unfold is_byte in Hx.
    rewrite next_spec by done. destruct (Z.ltb_spec (byte_at m p) 128); lia. }
  rewrite !VarintShlByte_spec by (try apply next_range; done || lia).
  rewrite !land_sign, !placed_sign, !next_sign by (done || lia).
  assert (Hb : forall i, 0 <= i < 5 -> (byte_at m (p + i) <? 128) = false) by (intros i Hi; apply Z.ltb_ge, Hc; lia).
  rewrite (Hb 1), (Hb 2), (Hb 3), (Hb 4) by lia. cbn [orb].
  one_byte m p 5 limit 6. one_byte m p 6 limit 7. one_byte m p 7 limit 8. one_byte m p 8 limit 9. done.
Qed.

Lemma shift_mix_high32 limit m p r1 r2 r3 :
  mem_ok m ->
  high_bytes32 limit m p r1 r2 r3 =
    if stops limit m p 5 then at_done2 (p + 6) r1 r2 r3 else
    if stops limit m p 6 then at_done2 (p + 7) r1 r2 r3 else
    if stops limit m p 7 then at_done2 (p + 8) r1 r2 r3 else
    if stops limit m p 8 then at_done2 (p + 9) r1 r2 r3 else
    tenth_byte false m (p + 9) r1 r2 r3.
Proof.
  intros Hm. unfold high_bytes32, stops. rewrite !next_cont by done.
  repeat (destruct (_ <? 128); cbn [orb]; [done|]; destruct (limit <=? _); [done|]). done.
Qed.

(** The bytes whose data bits are taken. *)
Definition taken (is64 : bool) (k : nat) : nat := if is64 then k else Nat.min k 5.

Ltac nat_const H :=
  match type of H with context [Z.of_nat ?k] =>
    let v := eval vm_compute in (Z.of_nat k) in change (Z.of_nat k) with v in H end.

Lemma shift_mix_stops is64 limit m p k :
  mem_ok m -> (k < 9)%nat -> (forall j, 0 <= j < Z.of_nat k -> stops limit m p j = false) ->
  stops limit m p (Z.of_nat k) = true ->
  ShiftMixParseVarint is64 limit m p = (Some (p + Z.of_nat (S k)), gathered (taken is64 (S k)) m p).
Proof.
  intros Hm Hk Hgo Hstop. rewrite shift_mix_low by done. cbn zeta.
  assert (Hc : forall n, (n <= k)%nat -> continues n m p).
  { intros n Hn i Hi. specialize (Hgo i ltac:(lia)). unfold stops in Hgo. apply orb_false_iff in Hgo as [Hgo _]. lia. }
  do 5 (destruct k as [|k]; [nat_const Hstop; repeat rewrite Hgo by lia; rewrite Hstop; by destruct is64|]).
  rewrite (Hgo 0), (Hgo 1), (Hgo 2), (Hgo 3), (Hgo 4) by lia. destruct is64.
  - rewrite shift_mix_high64 by (done || apply Hc; lia). cbn zeta.
    do 4 (destruct k as [|k]; [nat_const Hstop; repeat rewrite Hgo by lia; by rewrite Hstop|]). lia.
  - rewrite shift_mix_high32 by done.
    do 4 (destruct k as [|k]; [nat_const Hstop; repeat rewrite Hgo by lia; rewrite Hstop;
      change (taken false _) with 5%nat; gather|]). lia.
Qed.

Lemma shift_mix_tenth is64 limit m p :
  mem_ok m -> (forall j, 0 <= j < 9 -> stops limit m p j = false) ->
  exists r1 r2 r3, ShiftMixParseVarint is64 limit m p = tenth_byte is64 m (p + 9) r1 r2 r3 /\
    Z.land r1 (Z.land r2 r3) = gathered (taken is64 9) m p.
Proof.
  intros Hm Hgo. rewrite shift_mix_low by done. cbn zeta.
  assert (Hc : continues 5 m p).
  { intros i Hi. specialize (Hgo i ltac:(lia)). unfold stops in Hgo. apply orb_false_iff in Hgo as [Hgo _]. lia. }
  rewrite (Hgo 0), (Hgo 1), (Hgo 2), (Hgo 3), (Hgo 4) by lia. destruct is64.
  - rewrite shift_mix_high64 by done. cbn zeta. rewrite (Hgo 5), (Hgo 6), (Hgo 7), (Hgo 8) by lia.
    eexists _, _, _. split; [reflexivity|]. change (taken true 9) with 9%nat. gather_land.
  - rewrite shift_mix_high32 by done. rewrite (Hgo 5), (Hgo 6), (Hgo 7), (Hgo 8) by lia.
    eexists _, _, _. split; [reflexivity|]. change (taken false 9) with 5%nat. gather_land.
Qed.

(** *** The value *)

Lemma neg_bit63 x : - 2 ^ 63 <= x < 2 ^ 63 -> Z.testbit x 63 = (x <? 0).
Proof.
  intros Hx. destruct (Z.ltb_spec x 0).
  - apply Z.testbit_true; [lia|]. replace (x / 2 ^ 63) with (-1); [done|].
    apply (Z.div_unique_pos _ _ _ (x + 2 ^ 63)); lia.
  - apply (inU_testbit 63); [unfold inU; lia|lia].
Qed.

(** Clearing the top bit of the last accumulator. *)
Lemma clear_top v r1 r2 r3 :
  0 <= v < 2 ^ 63 -> Z.land r1 (Z.land r2 r3) = v - 2 ^ 63 ->
  Z.land r1 (Z.land r2 (i64 (Z.lxor r3 (2 ^ 63)))) = v.
Proof.
  intros Hv E.
  assert (Hbits : forall i, Z.testbit r1 i && (Z.testbit r2 i && Z.testbit r3 i) = Z.testbit (v - 2 ^ 63) i)
    by (intros i; by rewrite <- E, !Z.land_spec).
  assert (Ht : Z.testbit r3 63 = true).
  { pose proof (Hbits 63) as H63. rewrite (neg_bit63 (v - 2 ^ 63)) in H63 by lia. rewrite (proj2 (Z.ltb_lt _ _)) in H63 by lia.
    by apply andb_true_iff in H63 as [_ [_ ?]%andb_true_iff]. }
  set (y := i64 (Z.lxor r3 (2 ^ 63))).
  assert (Hy : forall i, 0 <= i < 64 -> Z.testbit y i = xorb (Z.testbit r3 i) (i =? 63)).
  { intros i Hi. subst y. unfold wrapS.
    rewrite <- (Z.mod_pow2_bits_low _ 64 i), Zminus_mod_idemp_l by lia. rewrite Z.add_simpl_r, Z.mod_pow2_bits_low by lia.
    rewrite Z.lxor_spec, Z.pow2_bits_eqb by lia. by rewrite (Z.eqb_sym 63). }
  assert (Hr : - 2 ^ 63 <= y < 2 ^ 63) by apply (wrapS_range 64 _ ltac:(lia)).
  assert (Hpos : 0 <= y).
  { pose proof (Hy 63 ltac:(lia)) as Hb. rewrite Ht, neg_bit63 in Hb by done.
    change (xorb true (63 =? 63)) with false in Hb. by apply Z.ltb_ge in Hb. }
  apply Z.bits_inj'. intros i Hi. rewrite !Z.land_spec. destruct (Z.lt_ge_cases i 63).
  - rewrite Hy by lia. destruct (Z.eqb_spec i 63); [lia|]. rewrite xorb_false_r, Hbits.
    rewrite <- (Z.mod_pow2_bits_low _ 63 i), <- (Z.mod_pow2_bits_low v 63 i) by lia.
    f_equal. replace (v - 2 ^ 63) with (v + -1 * 2 ^ 63) by lia. apply Z_mod_plus_full.
  - rewrite (inU_testbit 63 y), (inU_testbit 63 v) by (unfold inU; lia). by rewrite !andb_false_r.
Qed.

Lemma wrap_taken is64 k m p :
  wrapU (width is64) (varint_value (bytes_at m p (taken is64 k))) = wrapU (width is64) (varint_value (bytes_at m p k)).
Proof.
  destruct is64; [done|]. unfold taken, width. destruct (decide (k <= 5)%nat); [by rewrite Nat.min_l by lia|].
  rewrite Nat.min_r by lia. rewrite <- (varint_value_prefix m p 5 k) by lia.
  change (128 ^ Z.of_nat 5) with (2 ^ 32 * 8). unfold wrapU. rewrite Z.rem_mul_r by lia.
  by rewrite (Z.mul_comm (2 ^ 32)), Z_mod_plus_full, Zmod_mod.
Qed.

Lemma wrap_minus is64 v k :
  wrapU (width is64) (v - 2 ^ (width is64 + Z.of_nat k)) = wrapU (width is64) v.
Proof.
  assert (Hw : 0 <= width is64) by (destruct is64; simpl; lia).
  rewrite Z.pow_add_r by lia. unfold wrapU.
  replace (v - 2 ^ width is64 * 2 ^ Z.of_nat k) with (v + - 2 ^ Z.of_nat k * 2 ^ width is64) by lia. apply Z_mod_plus_full.
Qed.

(** The value at the last of at most nine bytes. *)
Lemma gathered_value is64 n m p :
  mem_ok m -> (n < 9)%nat -> continues n m p -> byte_at m (p + Z.of_nat n) < 128 ->
  wrapU (width is64) (gathered (taken is64 (S n)) m p) = wrapU (width is64) (varint_value (bytes_at m p (S n))).
Proof.
  intros Hm Hn Hc Hlast. rewrite <- (wrap_taken is64 (S n)).
  destruct (decide (taken is64 (S n) = S n)) as [->|Hne]; [by rewrite gathered_end|].
  destruct is64; [done|]. unfold taken in *. rewrite Nat.min_r by lia.
  rewrite gathered_cont by (done || (intros i Hi; apply Hc; lia)). apply (wrap_minus false _ 3).
Qed.

(** The tenth byte. *)
Lemma tenth_value is64 m p r1 r2 r3 :
  mem_ok m -> continues 9 m p -> byte_at m (p + 9) < 128 ->
  Z.land r1 (Z.land r2 r3) = gathered (taken is64 9) m p ->
  exists v, tenth_byte is64 m (p + 9) r1 r2 r3 = (Some (p + 10), v) /\
    wrapU (width is64) v = wrapU (width is64) (varint_value (bytes_at m p 10)).
Proof.
  intros Hm Hc Hlast Eg. unfold tenth_byte. rewrite next_cont, next_spec by done.
  destruct (Z.ltb_spec (byte_at m (p + 9)) 128); [|lia]. cbn [negb].
  replace (p + 9 + 1) with (p + 10) by lia. set (b := byte_at m (p + 9)) in *.
  assert (Hb : 0 <= b < 128) by (pose proof (Hm (p + 9)) as Hx; unfold is_byte in Hx; subst b; lia).
  pose proof (varint_value_snoc 9 m p) as Es. change (Z.of_nat 9) with 9 in Es. fold b in Es.
  rewrite (Z.mod_small b) in Es by lia. change (7 * 9) with 63 in Es.
  pose proof (gathered_low 9 m p) as Hlow. change (7 * Z.of_nat 9) with 63 in Hlow.
  set (v9 := varint_value (bytes_at m p 9)) in *.
  destruct is64; cbn [andb].
  - change (taken true 9) with 9%nat in Eg. rewrite gathered_cont in Eg by done. change (7 * Z.of_nat 9) with 63 in Eg.
    fold v9 in Eg. change (width true) with 64. rewrite Es.
    assert (Hodd : Z.land b 1 = b mod 2) by (apply (Z.land_ones b 1); lia).
    pose proof (Z.div_mod b 2 ltac:(lia)) as Hd. pose proof (Z.mod_pos_bound b 2 ltac:(lia)) as Hm2.
    assert (Hwrap : wrapU 64 (v9 + 2 ^ 63 * b) = wrapU 64 (v9 + 2 ^ 63 * (b mod 2))).
    { unfold wrapU. replace (v9 + 2 ^ 63 * b) with (v9 + 2 ^ 63 * (b mod 2) + (b / 2) * 2 ^ 64) by lia.
      apply Z_mod_plus_full. }
    rewrite Hwrap, Hodd.
    assert (Hneg : wrapU 64 (v9 - 2 ^ 63) = wrapU 64 (v9 + 2 ^ 63 * 1)).
    { unfold wrapU. replace (v9 + 2 ^ 63 * 1) with (v9 - 2 ^ 63 + 1 * 2 ^ 64) by lia. by rewrite Z_mod_plus_full. }
    destruct (Z.eqb_spec b 1) as [E1|N1].
    + eexists. split; [reflexivity|]. rewrite Eg, Hneg. rewrite E1. done.
    + destruct (Z.eqb_spec (b mod 2) 0) as [E0|N0]; eexists; (split; [reflexivity|]).
      * rewrite (clear_top v9) by done. by rewrite E0, Z.mul_0_r, Z.add_0_r.
      * rewrite Eg, Hneg. by replace (b mod 2) with 1 by lia.
  - change (taken false 9) with 5%nat in Eg. rewrite gathered_cont in Eg by (done || (intros i Hi; apply Hc; lia)).
    change (7 * Z.of_nat 5) with 35 in Eg.
    assert (Hv : wrapU (width false) (Z.land r1 (Z.land r2 r3)) = wrapU (width false) (varint_value (bytes_at m p 10))).
    { rewrite Eg, <- (wrap_taken false 10). apply (wrap_minus false _ 3). }
    destruct (b =? 1); eexists; (split; [reflexivity|]); exact Hv.
Qed.

(** C40: the shifting decoder, for both widths and every limit up to ten,
    agrees with the wire format: a varint that ends within the limit is
    consumed exactly and yields its value modulo the width; one that does not
    leaves a negative number at the limit, and ten bytes that all ask for a
    continuation are refused. *)
Theorem shift_mix_varint is64 limit m p :
  mem_ok m -> 1 <= limit <= 10 ->
  (forall l, varint_form l -> Z.of_nat (length l) <= limit -> reads m p l -> exists v,
     ShiftMixParseVarint is64 limit m p = (Some (p + Z.of_nat (length l)), v) /\
     wrapU (width is64) v = wrapU (width is64) (varint_value l)) /\
  (continues (Z.to_nat limit) m p ->
     if limit =? 10 then fst (ShiftMixParseVarint is64 limit m p) = None
     else exists v, ShiftMixParseVarint is64 limit m p = (Some (p + limit), v) /\ v < 0).
Proof.
  intros Hm Hl. split.
  - intros l Hf Hlen Hr. destruct (form_bytes l m p Hf Hr) as (n & En & Hc & Hlast).
    assert (El : varint_value l = varint_value (bytes_at m p (S n))) by (unfold reads in Hr; by rewrite <- En, Hr).
    rewrite El, En. destruct (decide (n < 9)%nat) as [Hn|Hn].
    + exists (gathered (taken is64 (S n)) m p). split; [|by apply gathered_value].
      apply shift_mix_stops; [done|done| |].
      * intros j Hj. unfold stops. specialize (Hc j Hj). lia.
      * unfold stops. lia.
    + assert (n = 9%nat) as -> by lia. assert (limit = 10) as -> by lia.
      destruct (shift_mix_tenth is64 10 m p Hm) as (r1 & r2 & r3 & -> & Eg).
      { intros j Hj. unfold stops. specialize (Hc j ltac:(lia)). lia. }
      by apply tenth_value.
  - intros Hc. destruct (Z.eqb_spec limit 10) as [->|Hne].
    + destruct (shift_mix_tenth is64 10 m p Hm) as (r1 & r2 & r3 & -> & _).
      { intros j Hj. unfold stops. specialize (Hc j ltac:(lia)). lia. }
      specialize (Hc 9 ltac:(lia)). unfold tenth_byte. rewrite next_cont by done.
      destruct (Z.ltb_spec (byte_at m (p + 9)) 128); [lia|].
      pose proof (Hm (p + 9)) as Hb. unfold is_byte in Hb. rewrite next_spec by done.
      destruct (Z.ltb_spec (byte_at m (p + 9)) 128); [lia|]. by destruct (Z.eqb_spec (byte_at m (p + 9) - 256) 1); [lia|].
    + set (k := Z.to_nat (limit - 1)). exists (gathered (taken is64 (S k)) m p).
      replace (p + limit) with (p + Z.of_nat (S k)) by lia. split.
      * apply shift_mix_stops; [done|lia| |].
        -- intros j Hj. unfold stops. specialize (Hc j ltac:(lia)). lia.
        -- unfold stops. lia.
      * set (t := taken is64 (S k)). assert (Ht : (t <= Z.to_nat limit)%nat) by (subst t; unfold taken; destruct is64; lia).
        rewrite gathered_cont; [pose proof (gathered_low t m p); lia|done|]. intros i Hi. apply Hc. lia.
Qed.

Lemma shift_mix_varint_witness :
  (exists v, ShiftMixParseVarint false 10 (mem Toy_varint.at_100) 100 = (Some 102, v) /\ u32 v = 300) /\
  (exists v, ShiftMixParseVarint true 1 (mem Toy_varint.at_100) 100 = (Some 101, v) /\ v < 0).
Proof.
  split.
  - exact (proj1 (shift_mix_varint false 10 _ 100 Toy_varint.at_100_ok ltac:(lia)) Toy_varint.wire_300
      Toy_varint.wire_300_form ltac:(cbn; lia) eq_refl).
  - apply (proj2 (shift_mix_varint true 1 _ 100 Toy_varint.at_100_ok ltac:(lia))). intros i Hi.
    assert (i = 0) as -> by lia. vm_compute. discriminate.
Defined.
