(* ===== verification/WireFormat.v ===== *)
(** * The scalar writers of the wire format ([google/protobuf/wire_format_lite.h])

    [WireFormatLite]'s functions that write to an array and those that
    compute sizes, one definition per function (the overloads for repeated
    fields have the suffix [_rep]), and the bytes they are to produce.  A
    [float] or [double] is its bit pattern. *)

From S2P Require Import Prelude CxxStd Bytes Bits Varint.
Local Open Scope Z_scope.
Local Open Scope list_scope.

(** ** The code *)

(** [absl::bit_cast] between a floating-point number and its bits. *)
Definition EncodeFloat (value : Z) : Z := value.
Definition DecodeFloat (value : Z) : Z := value.
Definition EncodeDouble (value : Z) : Z := value.
Definition DecodeDouble (value : Z) : Z := value.

Definition WireFormatLite_WriteTagToArray (field_number : Z) (type : WireType) (target : cursor) : cursor :=
  WriteTagToArray (MakeTag field_number type) target.

Definition WriteInt32NoTagToArray (value : Z) (target : cursor) : cursor :=
  WriteVarint32SignExtendedToArray value target.
Definition WriteInt64NoTagToArray (value : Z) (target : cursor) : cursor :=
  WriteVarint64ToArray (u64 value) target.
Definition WriteUInt32NoTagToArray (value : Z) (target : cursor) : cursor :=
  WriteVarint32ToArray value target.
Definition WriteUInt64NoTagToArray (value : Z) (target : cursor) : cursor :=
  WriteVarint64ToArray value target.
Definition WriteSInt32NoTagToArray (value : Z) (target : cursor) : cursor :=
  WriteVarint32ToArray (ZigZagEncode32 value) target.
Definition WriteSInt64NoTagToArray (value : Z) (target : cursor) : cursor :=
  WriteVarint64ToArray (ZigZagEncode64 value) target.
Definition WriteFixed32NoTagToArray (value : Z) (target : cursor) : cursor :=
  WriteLittleEndian32ToArray value target.
Definition WriteFixed64NoTagToArray (value : Z) (target : cursor) : cursor :=
  WriteLittleEndian64ToArray value target.
Definition WriteSFixed32NoTagToArray (value : Z) (target : cursor) : cursor :=
  WriteLittleEndian32ToArray (u32 value) target.
Definition WriteSFixed64NoTagToArray (value : Z) (target : cursor) : cursor :=
  WriteLittleEndian64ToArray (u64 value) target.
Definition WriteFloatNoTagToArray (value : Z) (target : cursor) : cursor :=
  WriteLittleEndian32ToArray (EncodeFloat value) target.
Definition WriteDoubleNoTagToArray (value : Z) (target : cursor) : cursor :=
  WriteLittleEndian64ToArray (EncodeDouble value) target.
Definition WriteBoolNoTagToArray (value : bool) (target : cursor) : cursor :=
  WriteVarint32ToArray (if value then 1 else 0) target.
Definition WriteEnumNoTagToArray (value : Z) (target : cursor) : cursor :=
  WriteVarint32SignExtendedToArray value target.

(** The [do] loop reads the first element before it tests the size. *)
Definition WritePrimitiveNoTagToArray {T} (value : list T) (Writer : T -> cursor -> cursor)
    (target : cursor) : outcome cursor :=
  match value with
  | [] => UB
  | x :: rest => Ret (fold_left (fun t x => Writer x t) rest (Writer x target))
  end.

(** On a little-endian host the array is copied; [size] is [sizeof(T)], and
    the byte count is an [int]. *)
Definition WriteFixedNoTagToArray (little_endian : bool) (size : nat) (value : list Z)
    (Writer : Z -> cursor -> cursor) (target : cursor) : outcome cursor :=
  if little_endian then
    if Z.of_nat (length value) * Z.of_nat size <? 2 ^ 31
    then Ret (memcpy_advance (concat (le_bytes size <$> value)) target)
    else UB
  else WritePrimitiveNoTagToArray value Writer target.

Definition WriteInt32NoTagToArray_rep (value : list Z) (target : cursor) : outcome cursor :=
  WritePrimitiveNoTagToArray value WriteInt32NoTagToArray target.
Definition WriteInt64NoTagToArray_rep (value : list Z) (target : cursor) : outcome cursor :=
  WritePrimitiveNoTagToArray value WriteInt64NoTagToArray target.
Definition WriteUInt32NoTagToArray_rep (value : list Z) (target : cursor) : outcome cursor :=
  WritePrimitiveNoTagToArray value WriteUInt32NoTagToArray target.
Definition WriteUInt64NoTagToArray_rep (value : list Z) (target : cursor) : outcome cursor :=
  WritePrimitiveNoTagToArray value WriteUInt64NoTagToArray target.
Definition WriteSInt32NoTagToArray_rep (value : list Z) (target : cursor) : outcome cursor :=
  WritePrimitiveNoTagToArray value WriteSInt32NoTagToArray target.
Definition WriteSInt64NoTagToArray_rep (value : list Z) (target : cursor) : outcome cursor :=
  WritePrimitiveNoTagToArray value WriteSInt64NoTagToArray target.
Definition WriteFixed32NoTagToArray_rep (little_endian : bool) (value : list Z) (target : cursor) : outcome cursor :=
  WriteFixedNoTagToArray little_endian 4 value WriteFixed32NoTagToArray target.
Definition WriteFixed64NoTagToArray_rep (little_endian : bool) (value : list Z) (target : cursor) : outcome cursor :=
  WriteFixedNoTagToArray little_endian 8 value WriteFixed64NoTagToArray target.
Definition WriteSFixed32NoTagToArray_rep (little_endian : bool) (value : list Z) (target : cursor) : outcome cursor :=
  WriteFixedNoTagToArray little_endian 4 value WriteSFixed32NoTagToArray target.
Definition WriteSFixed64NoTagToArray_rep (little_endian : bool) (value : list Z) (target : cursor) : outcome cursor :=
  WriteFixedNoTagToArray little_endian 8 value WriteSFixed64NoTagToArray target.
Definition WriteFloatNoTagToArray_rep (little_endian : bool) (value : list Z) (target : cursor) : outcome cursor :=
  WriteFixedNoTagToArray little_endian 4 value WriteFloatNoTagToArray target.
Definition WriteDoubleNoTagToArray_rep (little_endian : bool) (value : list Z) (target : cursor) : outcome cursor :=
  WriteFixedNoTagToArray little_endian 8 value WriteDoubleNoTagToArray target.
Definition WriteBoolNoTagToArray_rep (value : list bool) (target : cursor) : outcome cursor :=
  WritePrimitiveNoTagToArray value WriteBoolNoTagToArray target.
Definition WriteEnumNoTagToArray_rep (value : list Z) (target : cursor) : outcome cursor :=
  WritePrimitiveNoTagToArray value WriteEnumNoTagToArray target.

Definition WriteInt32ToArray (field_number : Z) (value : Z) (target : cursor) : cursor :=
  let target := WireFormatLite_WriteTagToArray field_number WIRETYPE_VARINT target in
  WriteInt32NoTagToArray value target.
Definition WriteInt64ToArray (field_number : Z) (value : Z) (target : cursor) : cursor :=
  let target := WireFormatLite_WriteTagToArray field_number WIRETYPE_VARINT target in
  WriteInt64NoTagToArray value target.
Definition WriteUInt32ToArray (field_number : Z) (value : Z) (target : cursor) : cursor :=
  let target := WireFormatLite_WriteTagToArray field_number WIRETYPE_VARINT target in
  WriteUInt32NoTagToArray value target.
Definition WriteUInt64ToArray (field_number : Z) (value : Z) (target : cursor) : cursor :=
  let target := WireFormatLite_WriteTagToArray field_number WIRETYPE_VARINT target in
  WriteUInt64NoTagToArray value target.
Definition WriteSInt32ToArray (field_number : Z) (value : Z) (target : cursor) : cursor :=
  let target := WireFormatLite_WriteTagToArray field_number WIRETYPE_VARINT target in
  WriteSInt32NoTagToArray value target.
Definition WriteSInt64ToArray (field_number : Z) (value : Z) (target : cursor) : cursor :=
  let target := WireFormatLite_WriteTagToArray field_number WIRETYPE_VARINT target in
  WriteSInt64NoTagToArray value target.
Definition WriteFixed32ToArray (field_number : Z) (value : Z) (target : cursor) : cursor :=
  let target := WireFormatLite_WriteTagToArray field_number WIRETYPE_FIXED32 target in
  WriteFixed32NoTagToArray value target.
Definition WriteFixed64ToArray (field_number : Z) (value : Z) (target : cursor) : cursor :=
  let target := WireFormatLite_WriteTagToArray field_number WIRETYPE_FIXED64 target in
  WriteFixed64NoTagToArray value target.
Definition WriteSFixed32ToArray (field_number : Z) (value : Z) (target : cursor) : cursor :=
  let target := WireFormatLite_WriteTagToArray field_number WIRETYPE_FIXED32 target in
  WriteSFixed32NoTagToArray value target.
Definition WriteSFixed64ToArray (field_number : Z) (value : Z) (target : cursor) : cursor :=
  let target := WireFormatLite_WriteTagToArray field_number WIRETYPE_FIXED64 target in
  WriteSFixed64NoTagToArray value target.
Definition WriteFloatToArray (field_number : Z) (value : Z) (target : cursor) : cursor :=
  let target := WireFormatLite_WriteTagToArray field_number WIRETYPE_FIXED32 target in
  WriteFloatNoTagToArray value target.
Definition WriteDoubleToArray (field_number : Z) (value : Z) (target : cursor) : cursor :=
  let target := WireFormatLite_WriteTagToArray field_number WIRETYPE_FIXED64 target in
  WriteDoubleNoTagToArray value target.
Definition WriteBoolToArray (field_number : Z) (value : bool) (target : cursor) : cursor :=
  let target := WireFormatLite_WriteTagToArray field_number WIRETYPE_VARINT target in
  WriteBoolNoTagToArray value target.
Definition WriteEnumToArray (field_number : Z) (value : Z) (target : cursor) : cursor :=
  let target := WireFormatLite_WriteTagToArray field_number WIRETYPE_VARINT target in
  WriteEnumNoTagToArray value target.

Definition WritePrimitiveToArray {T} (field_number : Z) (value : list T)
    (Writer : Z -> T -> cursor -> cursor) (target : cursor) : cursor :=
  match value with
  | [] => target
  | x :: rest => fold_left (fun t x => Writer field_number x t) rest (Writer field_number x target)
  end.

Definition WriteInt32ToArray_rep (field_number : Z) (value : list Z) (target : cursor) : cursor :=
  WritePrimitiveToArray field_number value WriteInt32ToArray target.
Definition WriteInt64ToArray_rep (field_number : Z) (value : list Z) (target : cursor) : cursor :=
  WritePrimitiveToArray field_number value WriteInt64ToArray target.
Definition WriteUInt32ToArray_rep (field_number : Z) (value : list Z) (target : cursor) : cursor :=
  WritePrimitiveToArray field_number value WriteUInt32ToArray target.
Definition WriteUInt64ToArray_rep (field_number : Z) (value : list Z) (target : cursor) : cursor :=
  WritePrimitiveToArray field_number value WriteUInt64ToArray target.
Definition WriteSInt32ToArray_rep (field_number : Z) (value : list Z) (target : cursor) : cursor :=
  WritePrimitiveToArray field_number value WriteSInt32ToArray target.
Definition WriteSInt64ToArray_rep (field_number : Z) (value : list Z) (target : cursor) : cursor :=
  WritePrimitiveToArray field_number value WriteSInt64ToArray target.
Definition WriteFixed32ToArray_rep (field_number : Z) (value : list Z) (target : cursor) : cursor :=
  WritePrimitiveToArray field_number value WriteFixed32ToArray target.
Definition WriteFixed64ToArray_rep (field_number : Z) (value : list Z) (target : cursor) : cursor :=
  WritePrimitiveToArray field_number value WriteFixed64ToArray target.
Definition WriteSFixed32ToArray_rep (field_number : Z) (value : list Z) (target : cursor) : cursor :=
  WritePrimitiveToArray field_number value WriteSFixed32ToArray target.
Definition WriteSFixed64ToArray_rep (field_number : Z) (value : list Z) (target : cursor) : cursor :=
  WritePrimitiveToArray field_number value WriteSFixed64ToArray target.
Definition WriteFloatToArray_rep (field_number : Z) (value : list Z) (target : cursor) : cursor :=
  WritePrimitiveToArray field_number value WriteFloatToArray target.
Definition WriteDoubleToArray_rep (field_number : Z) (value : list Z) (target : cursor) : cursor :=
  WritePrimitiveToArray field_number value WriteDoubleToArray target.
Definition WriteBoolToArray_rep (field_number : Z) (value : list bool) (target : cursor) : cursor :=
  WritePrimitiveToArray field_number value WriteBoolToArray target.
Definition WriteEnumToArray_rep (field_number : Z) (value : list Z) (target : cursor) : cursor :=
  WritePrimitiveToArray field_number value WriteEnumToArray target.

Section delimited.
(** [CodedOutputStream::WriteStringWithSizeToArray], defined out of line. *)
Context (WriteStringWithSizeToArray : bytes -> cursor -> cursor).

Definition WireFormatLite_WriteStringToArray (field_number : Z) (value : bytes) (target : cursor) : cursor :=
  let target := WireFormatLite_WriteTagToArray field_number WIRETYPE_LENGTH_DELIMITED target in
  WriteStringWithSizeToArray value target.
Definition WriteBytesToArray (field_number : Z) (value : bytes) (target : cursor) : cursor :=
  let target := WireFormatLite_WriteTagToArray field_number WIRETYPE_LENGTH_DELIMITED target in
  WriteStringWithSizeToArray value target.

(** A message is given by its cached size and its serialiser. *)
Context {M : Type} (GetCachedSize : M -> Z) (SerializeWithCachedSizesToArray : M -> cursor -> cursor).

Definition InternalWriteGroupNoVirtualToArray (field_number : Z) (value : M) (target : cursor) : cursor :=
  let target := WireFormatLite_WriteTagToArray field_number WIRETYPE_START_GROUP target in
  let target := SerializeWithCachedSizesToArray value target in
  WireFormatLite_WriteTagToArray field_number WIRETYPE_END_GROUP target.
Definition InternalWriteMessageNoVirtualToArray (field_number : Z) (value : M) (target : cursor) : cursor :=
  let target := WireFormatLite_WriteTagToArray field_number WIRETYPE_LENGTH_DELIMITED target in
  let target := WriteVarint32ToArray (u32 (GetCachedSize value)) target in
  SerializeWithCachedSizesToArray value target.
End delimited.

Definition Int32Size (value : Z) : Z := VarintSize32SignExtended value.
Definition Int64Size (value : Z) : Z := VarintSize64 (u64 value).
Definition UInt32Size (value : Z) : Z := VarintSize32 value.
Definition UInt64Size (value : Z) : Z := VarintSize64 value.
Definition SInt32Size (value : Z) : Z := VarintSize32 (ZigZagEncode32 value).
Definition SInt64Size (value : Z) : Z := VarintSize64 (ZigZagEncode64 value).
Definition EnumSize (value : Z) : Z := VarintSize32SignExtended value.
Definition Int32SizePlusOne (value : Z) : Z := VarintSize32SignExtendedPlusOne value.
Definition Int64SizePlusOne (value : Z) : Z := VarintSize64PlusOne (u64 value).
Definition UInt32SizePlusOne (value : Z) : Z := VarintSize32PlusOne value.
Definition UInt64SizePlusOne (value : Z) : Z := VarintSize64PlusOne value.
Definition SInt32SizePlusOne (value : Z) : Z := VarintSize32PlusOne (ZigZagEncode32 value).
Definition SInt64SizePlusOne (value : Z) : Z := VarintSize64PlusOne (ZigZagEncode64 value).
Definition EnumSizePlusOne (value : Z) : Z := VarintSize32SignExtendedPlusOne value.

Definition kFixed32Size : Z := 4.
Definition kFixed64Size : Z := 8.
Definition kSFixed32Size : Z := 4.
Definition kSFixed64Size : Z := 8.
Definition kFloatSize : Z := 4.
Definition kDoubleSize : Z := 8.
Definition kBoolSize : Z := 1.

Definition LengthDelimitedSize (length : Z) : Z := u64 (length + VarintSize32 (u32 length)).
Definition StringSize (value : bytes) : Z := LengthDelimitedSize (Z.of_nat (length value)).
Definition BytesSize (value : bytes) : Z := LengthDelimitedSize (Z.of_nat (length value)).
(** Messages and groups, by their [ByteSizeLong]. *)
Definition GroupSize (ByteSizeLong : Z) : Z := ByteSizeLong.
Definition MessageSize (ByteSizeLong : Z) : Z := LengthDelimitedSize ByteSizeLong.

(** ** The specification *)

(** The scalar types with writers of their own. *)
Inductive scalar :=
| S_Int32 | S_Int64 | S_UInt32 | S_UInt64 | S_SInt32 | S_SInt64 | S_Fixed32 | S_Fixed64 | S_SFixed32 | S_SFixed64 | S_Float | S_Double | S_Bool | S_Enum.

#[export] Instance scalar_eq_dec : EqDecision scalar.
Proof. solve_decision. Defined.

Definition sc_type (s : scalar) : FieldType :=
  match s with
  | S_Int32 => TYPE_INT32
  | S_Int64 => TYPE_INT64
  | S_UInt32 => TYPE_UINT32
  | S_UInt64 => TYPE_UINT64
  | S_SInt32 => TYPE_SINT32
  | S_SInt64 => TYPE_SINT64
  | S_Fixed32 => TYPE_FIXED32
  | S_Fixed64 => TYPE_FIXED64
  | S_SFixed32 => TYPE_SFIXED32
  | S_SFixed64 => TYPE_SFIXED64
  | S_Float => TYPE_FLOAT
  | S_Double => TYPE_DOUBLE
  | S_Bool => TYPE_BOOL
  | S_Enum => TYPE_ENUM
  end.

Definition sc_wire (s : scalar) : WireType :=
  match s with
  | S_Int32 => WIRETYPE_VARINT
  | S_Int64 => WIRETYPE_VARINT
  | S_UInt32 => WIRETYPE_VARINT
  | S_UInt64 => WIRETYPE_VARINT
  | S_SInt32 => WIRETYPE_VARINT
  | S_SInt64 => WIRETYPE_VARINT
  | S_Fixed32 => WIRETYPE_FIXED32
  | S_Fixed64 => WIRETYPE_FIXED64
  | S_SFixed32 => WIRETYPE_FIXED32
  | S_SFixed64 => WIRETYPE_FIXED64
  | S_Float => WIRETYPE_FIXED32
  | S_Double => WIRETYPE_FIXED64
  | S_Bool => WIRETYPE_VARINT
  | S_Enum => WIRETYPE_VARINT
  end.

(** The values of the type. *)
Definition sc_ok (s : scalar) (v : Z) : Prop :=
  match s with
  | S_Int32 => inS 32 v
  | S_Int64 => inS 64 v
  | S_UInt32 => inU 32 v
  | S_UInt64 => inU 64 v
  | S_SInt32 => inS 32 v
  | S_SInt64 => inS 64 v
  | S_Fixed32 => inU 32 v
  | S_Fixed64 => inU 64 v
  | S_SFixed32 => inS 32 v
  | S_SFixed64 => inS 64 v
  | S_Float => inU 32 v
  | S_Double => inU 64 v
  | S_Bool => v = 0 \/ v = 1
  | S_Enum => inS 32 v
  end.

(** The bytes of a value on the wire. *)
Definition sc_bytes (s : scalar) (v : Z) : bytes :=
  match s with
  | S_Int32 => varint (u64 v)
  | S_Int64 => varint (u64 v)
  | S_UInt32 => varint v
  | S_UInt64 => varint v
  | S_SInt32 => varint (ZigZagEncode32 v)
  | S_SInt64 => varint (ZigZagEncode64 v)
  | S_Fixed32 => le_bytes 4 v
  | S_Fixed64 => le_bytes 8 v
  | S_SFixed32 => le_bytes 4 v
  | S_SFixed64 => le_bytes 8 v
  | S_Float => le_bytes 4 v
  | S_Double => le_bytes 8 v
  | S_Bool => varint v
  | S_Enum => varint (u64 v)
  end.

Definition sc_size (s : scalar) (v : Z) : Z :=
  match s with
  | S_Int32 => Int32Size v
  | S_Int64 => Int64Size v
  | S_UInt32 => UInt32Size v
  | S_UInt64 => UInt64Size v
  | S_SInt32 => SInt32Size v
  | S_SInt64 => SInt64Size v
  | S_Fixed32 => kFixed32Size
  | S_Fixed64 => kFixed64Size
  | S_SFixed32 => kSFixed32Size
  | S_SFixed64 => kSFixed64Size
  | S_Float => kFloatSize
  | S_Double => kDoubleSize
  | S_Bool => kBoolSize
  | S_Enum => EnumSize v
  end.

(** The writers, by type. *)
Definition write_no_tag (s : scalar) (v : Z) (c : cursor) : cursor :=
  match s with
  | S_Int32 => WriteInt32NoTagToArray v c
  | S_Int64 => WriteInt64NoTagToArray v c
  | S_UInt32 => WriteUInt32NoTagToArray v c
  | S_UInt64 => WriteUInt64NoTagToArray v c
  | S_SInt32 => WriteSInt32NoTagToArray v c
  | S_SInt64 => WriteSInt64NoTagToArray v c
  | S_Fixed32 => WriteFixed32NoTagToArray v c
  | S_Fixed64 => WriteFixed64NoTagToArray v c
  | S_SFixed32 => WriteSFixed32NoTagToArray v c
  | S_SFixed64 => WriteSFixed64NoTagToArray v c
  | S_Float => WriteFloatNoTagToArray v c
  | S_Double => WriteDoubleNoTagToArray v c
  | S_Bool => WriteBoolNoTagToArray (negb (v =? 0)) c
  | S_Enum => WriteEnumNoTagToArray v c
  end.

Definition write_field (s : scalar) (n v : Z) (c : cursor) : cursor :=
  match s with
  | S_Int32 => WriteInt32ToArray n v c
  | S_Int64 => WriteInt64ToArray n v c
  | S_UInt32 => WriteUInt32ToArray n v c
  | S_UInt64 => WriteUInt64ToArray n v c
  | S_SInt32 => WriteSInt32ToArray n v c
  | S_SInt64 => WriteSInt64ToArray n v c
  | S_Fixed32 => WriteFixed32ToArray n v c
  | S_Fixed64 => WriteFixed64ToArray n v c
  | S_SFixed32 => WriteSFixed32ToArray n v c
  | S_SFixed64 => WriteSFixed64ToArray n v c
  | S_Float => WriteFloatToArray n v c
  | S_Double => WriteDoubleToArray n v c
  | S_Bool => WriteBoolToArray n (negb (v =? 0)) c
  | S_Enum => WriteEnumToArray n v c
  end.

Definition write_no_tag_rep (le : bool) (s : scalar) (l : list Z) (c : cursor) : outcome cursor :=
  match s with
  | S_Int32 => WriteInt32NoTagToArray_rep l c
  | S_Int64 => WriteInt64NoTagToArray_rep l c
  | S_UInt32 => WriteUInt32NoTagToArray_rep l c
  | S_UInt64 => WriteUInt64NoTagToArray_rep l c
  | S_SInt32 => WriteSInt32NoTagToArray_rep l c
  | S_SInt64 => WriteSInt64NoTagToArray_rep l c
  | S_Fixed32 => WriteFixed32NoTagToArray_rep le l c
  | S_Fixed64 => WriteFixed64NoTagToArray_rep le l c
  | S_SFixed32 => WriteSFixed32NoTagToArray_rep le l c
  | S_SFixed64 => WriteSFixed64NoTagToArray_rep le l c
  | S_Float => WriteFloatNoTagToArray_rep le l c
  | S_Double => WriteDoubleNoTagToArray_rep le l c
  | S_Bool => WriteBoolNoTagToArray_rep ((fun v => negb (v =? 0)) <$> l) c
  | S_Enum => WriteEnumNoTagToArray_rep l c
  end.

Definition write_field_rep (s : scalar) (n : Z) (l : list Z) (c : cursor) : cursor :=
  match s with
  | S_Int32 => WriteInt32ToArray_rep n l c
  | S_Int64 => WriteInt64ToArray_rep n l c
  | S_UInt32 => WriteUInt32ToArray_rep n l c
  | S_UInt64 => WriteUInt64ToArray_rep n l c
  | S_SInt32 => WriteSInt32ToArray_rep n l c
  | S_SInt64 => WriteSInt64ToArray_rep n l c
  | S_Fixed32 => WriteFixed32ToArray_rep n l c
  | S_Fixed64 => WriteFixed64ToArray_rep n l c
  | S_SFixed32 => WriteSFixed32ToArray_rep n l c
  | S_SFixed64 => WriteSFixed64ToArray_rep n l c
  | S_Float => WriteFloatToArray_rep n l c
  | S_Double => WriteDoubleToArray_rep n l c
  | S_Bool => WriteBoolToArray_rep n ((fun v => negb (v =? 0)) <$> l) c
  | S_Enum => WriteEnumToArray_rep n l c
  end.

Definition field_bytes (s : scalar) (n v : Z) : bytes := varint (MakeTag n (sc_wire s)) ++ sc_bytes s v.

(** ** Facts *)

Lemma ZigZagEncode_range w n : 1 < w -> inS w n -> inU w (ZigZagEncode w n).
Proof.
  intros Hw Hn. rewrite ZigZagEncode_spec by done. pose proof (pow2_half w ltac:(lia)) as Hh.
  unfold inS, inU in *. destruct (Z.ltb_spec n 0); lia.
Qed.

Lemma write_no_tag_spec s v c : sc_ok s v -> write_no_tag s v c = pokes (sc_bytes s v) c.
Proof.
  destruct s; simpl; intros Hv.
  - apply UnsafeVarint_spec, wrapU_range. lia.
  - apply UnsafeVarint_spec, wrapU_range. lia.
  - by apply UnsafeVarint_spec, inU_32_64.
  - by apply UnsafeVarint_spec.
  - apply UnsafeVarint_spec, inU_32_64, ZigZagEncode_range; [lia|done].
  - apply UnsafeVarint_spec, ZigZagEncode_range; [lia|done].
  - apply WriteLittleEndian32_spec.
  - by apply WriteLittleEndian64_spec.
  - unfold WriteSFixed32NoTagToArray. rewrite WriteLittleEndian32_spec. exact (f_equal (fun l => pokes l c) (le_bytes_wrap 4 v)).
  - unfold WriteSFixed64NoTagToArray. rewrite WriteLittleEndian64_spec by (apply wrapU_range; lia).
    exact (f_equal (fun l => pokes l c) (le_bytes_wrap 8 v)).
  - apply WriteLittleEndian32_spec.
  - by apply WriteLittleEndian64_spec.
  - unfold WriteBoolNoTagToArray. destruct Hv as [-> | ->]; apply UnsafeVarint_spec; unfold inU; lia.
  - apply UnsafeVarint_spec, wrapU_range. lia.
Qed.

Lemma write_field_tag s n v c :
  write_field s n v c = write_no_tag s v (WireFormatLite_WriteTagToArray n (sc_wire s) c).
Proof. by destruct s. Qed.

Lemma write_field_spec s n v c :
  valid_field n -> sc_ok s v -> write_field s n v c = pokes (field_bytes s n v) c.
Proof.
  intros Hn Hv. rewrite write_field_tag, write_no_tag_spec by done. unfold field_bytes.
  rewrite pokes_app. f_equal. apply UnsafeVarint_spec, inU_32_64. by apply MakeTag_range.
Qed.

Lemma sc_size_spec s v : sc_ok s v -> Z.of_nat (length (sc_bytes s v)) = sc_size s v.
Proof.
  destruct s; simpl; intros Hv;
    try reflexivity;
    try (symmetry; apply VarintSize64_spec; first [done | apply wrapU_range; lia | by apply ZigZagEncode_range; [lia|]]).
  - symmetry. by apply VarintSize32_spec.
  - symmetry. apply VarintSize32_spec. by apply ZigZagEncode_range; [lia|].
  - by destruct Hv as [-> | ->].
Qed.

Lemma fold_pokes {A} (f : A -> bytes) (W : A -> cursor -> cursor) l c :
  (forall x c, x ∈ l -> W x c = pokes (f x) c) ->
  fold_left (fun t x => W x t) l c = pokes (concat (f <$> l)) c.
Proof.
  revert c. induction l as [|x l IH]; intros c Hl; [done|]. csimpl. rewrite pokes_app, Hl by set_solver.
  apply IH. set_solver.
Qed.

(** A bool is written through its own type. *)
Lemma rep_shape s n l c :
  write_field_rep s n l c = WritePrimitiveToArray n l (write_field s) c.
Proof.
  destruct s; try done. unfold write_field_rep, WriteBoolToArray_rep, WritePrimitiveToArray.
  destruct l as [|x l]; csimpl; [done|]. generalize (WriteBoolToArray n (negb (x =? 0)) c). clear.
  induction l as [|y l IH]; intros c; csimpl; [done|]. apply IH.
Qed.

Lemma no_tag_shape le s l c :
  le = false \/ sc_wire s = WIRETYPE_VARINT ->
  write_no_tag_rep le s l c = WritePrimitiveNoTagToArray l (write_no_tag s) c.
Proof.
  intros [-> | Hw]; destruct s; try done;
    (unfold write_no_tag_rep, WriteBoolNoTagToArray_rep, WritePrimitiveNoTagToArray;
     destruct l as [|x l]; csimpl; [done|]; f_equal;
     generalize (WriteBoolNoTagToArray (negb (x =? 0)) c); clear;
     induction l as [|y l IH]; intros c; csimpl; [done|]; apply IH).
Qed.

Definition fixed_size (s : scalar) : nat :=
  match sc_wire s with WIRETYPE_FIXED32 => 4 | WIRETYPE_FIXED64 => 8 | _ => 0 end.

(** Every scalar writer of every type produces exactly the bytes of the
    wire format - tag and value - and as many as [TagSize] and the size
    function of the type announce; writing a repeated field is writing its
    elements one after the other, and the packed form, copied as a block on a
    little-endian host or written element by element, is their bytes in
    order. *)
Lemma scalar_write_exact s n v le l c :
  valid_field n -> sc_ok s v -> Forall (sc_ok s) l ->
  write_field s n v c = pokes (field_bytes s n v) c /\
  Z.of_nat (length (field_bytes s n v)) = TagSize n (sc_type s) + sc_size s v /\
  write_field_rep s n l c = pokes (concat (field_bytes s n <$> l)) c /\
  (l <> [] -> Z.of_nat (length l) * Z.of_nat (fixed_size s) < 2 ^ 31 ->
   write_no_tag_rep le s l c = Ret (pokes (concat (sc_bytes s <$> l)) c)).
Proof.
  intros Hn Hv Hl. rewrite Forall_forall in Hl.
  split; [by apply write_field_spec|]. split; [|split].
  - unfold field_bytes. rewrite length_app, Nat2Z.inj_add, sc_size_spec by done. f_equal.
    unfold TagSize. rewrite bool_decide_eq_false_2 by (by destruct s). symmetry. by apply tag_bytes.
  - rewrite rep_shape. rewrite <- (fold_pokes (field_bytes s n) (write_field s n));
      [by destruct l|]. intros x c' Hx. apply write_field_spec; auto.
  - intros Hne Hsz. destruct (decide (le = false \/ sc_wire s = WIRETYPE_VARINT)) as [Hd|Hd].
    + rewrite no_tag_shape by done. rewrite <- (fold_pokes (sc_bytes s) (write_no_tag s)).
      * by destruct l.
      * intros x c' Hx. apply write_no_tag_spec; auto.
    + assert (le = true) as -> by (destruct le; [done|]; exfalso; apply Hd; by left).
      assert (Hb : forall k W, fixed_size s = k -> (sc_bytes s <$> l) = (le_bytes k <$> l) ->
        WriteFixedNoTagToArray true k l W c = Ret (pokes (concat (sc_bytes s <$> l)) c)).
      { intros k W Ek ->. unfold WriteFixedNoTagToArray. rewrite Ek in Hsz.
        destruct (Z.ltb_spec (Z.of_nat (length l) * Z.of_nat k) (2 ^ 31)); [done|lia]. }
      destruct s; simpl in Hd; try (exfalso; apply Hd; by right); by apply Hb.
Qed.

Lemma scalar_write_exact_witness :
  ptr (write_field S_SInt32 5 (-3) (mkCursor 40 ∅)) = 42 /\
  write_no_tag_rep true S_Fixed32 [1; 2] (mkCursor 0 ∅) =
    Ret (pokes [1; 0; 0; 0; 2; 0; 0; 0] (mkCursor 0 ∅)).
Proof.
  split.
  - rewrite (proj1 (scalar_write_exact S_SInt32 5 (-3) true [] (mkCursor 40 ∅)
      ltac:(unfold valid_field; lia) ltac:(unfold sc_ok, inS; lia) ltac:(constructor))).
    vm_compute. reflexivity.
  - apply (scalar_write_exact S_Fixed32 5 1 true [1; 2] (mkCursor 0 ∅)).
    + unfold valid_field; lia.
    + unfold sc_ok, inU; lia.
    + repeat constructor; unfold inU; lia.
    + discriminate.
    + reflexivity.
Defined.
