(* ===== verification/ParseCtx.v ===== *)
(** * The input stream of the parser ([google/protobuf/parse_context.h])

    [EpsCopyInputStream] and [ParseContext] with their inline methods: limits,
    the end-of-data test, recursion depth, groups, packed and repeated
    fields, and the generic loop [WireFormatParser].  The object is a record
    threaded through the methods; pointers are addresses in the memory it
    carries, [None] is the null pointer.  What [parse_context.cc] defines is a
    parameter, and the contract those functions document is [DoneFallback_spec]
    and its neighbours. *)

From Stdlib Require Import Lia.
From S2P Require Import Prelude CxxStd Bytes Bits Varint VarintRead.
Local Open Scope Z_scope.
Local Open Scope list_scope.

Definition kSlopBytes : Z := 16.
Definition kMaxCordBytesToCopy : Z := 512.
(** The enumerators of [aliasing_]; other values are address differences. *)
Definition kNoAliasing : Z := 0.
Definition kOnPatch : Z := 1.
Definition kNoDelta : Z := 2.

(** The members of [EpsCopyInputStream] and [ParseContext]; [x_patch] is the
    address of [patch_buffer_], [x_zcis] the stream below. *)
Record Ctx (St : Type) := mkCtx {
  x_mem : memory;
  x_limit_end : Z;
  x_buffer_end : Z;
  x_next_chunk : option Z;
  x_size : Z;
  x_limit : Z;
  x_last_tag_minus_1 : Z;
  x_overall_limit : Z;
  x_aliasing : Z;
  x_depth : Z;
  x_group_depth : Z;
  x_patch : Z;
  x_zcis : St;
}.
Arguments mkCtx {St} _ _ _ _ _ _ _ _ _ _ _ _ _.
Arguments x_mem {St} _.
Arguments x_limit_end {St} _.
Arguments x_buffer_end {St} _.
Arguments x_next_chunk {St} _.
Arguments x_size {St} _.
Arguments x_limit {St} _.
Arguments x_last_tag_minus_1 {St} _.
Arguments x_overall_limit {St} _.
Arguments x_aliasing {St} _.
Arguments x_depth {St} _.
Arguments x_group_depth {St} _.
Arguments x_patch {St} _.
Arguments x_zcis {St} _.

Section ctx.
Context {St : Type}.
Implicit Types (x : Ctx St) (ptr size : Z).

Definition x_set_limits (limit limit_end : Z) x : Ctx St :=
  mkCtx (x_mem x) limit_end (x_buffer_end x) (x_next_chunk x) (x_size x) limit (x_last_tag_minus_1 x)
    (x_overall_limit x) (x_aliasing x) (x_depth x) (x_group_depth x) (x_patch x) (x_zcis x).
Definition x_set_last_tag (v : Z) x : Ctx St :=
  mkCtx (x_mem x) (x_limit_end x) (x_buffer_end x) (x_next_chunk x) (x_size x) (x_limit x) v
    (x_overall_limit x) (x_aliasing x) (x_depth x) (x_group_depth x) (x_patch x) (x_zcis x).
Definition x_set_depth (v : Z) x : Ctx St :=
  mkCtx (x_mem x) (x_limit_end x) (x_buffer_end x) (x_next_chunk x) (x_size x) (x_limit x)
    (x_last_tag_minus_1 x) (x_overall_limit x) (x_aliasing x) v (x_group_depth x) (x_patch x) (x_zcis x).
Definition x_set_group_depth (v : Z) x : Ctx St :=
  mkCtx (x_mem x) (x_limit_end x) (x_buffer_end x) (x_next_chunk x) (x_size x) (x_limit x)
    (x_last_tag_minus_1 x) (x_overall_limit x) (x_aliasing x) (x_depth x) v (x_patch x) (x_zcis x).
Definition x_set_stream (size overall : Z) (z : St) x : Ctx St :=
  mkCtx (x_mem x) (x_limit_end x) (x_buffer_end x) (x_next_chunk x) size (x_limit x)
    (x_last_tag_minus_1 x) overall (x_aliasing x) (x_depth x) (x_group_depth x) (x_patch x) z.

(** ** [EpsCopyInputStream] *)

(** [ZeroCopyInputStream::BackUp] and [Next]: the latter stores a data pointer
    and a size. *)
Context (zcis_BackUp : Z -> St -> St) (zcis_Next : St -> bool * Z * Z * St).

Definition StreamBackUp (count : Z) x : Ctx St :=
  x_set_stream (x_size x) (x_overall_limit x + count) (zcis_BackUp count (x_zcis x)) x.

Definition StreamNext x : bool * Z * Ctx St :=
  let '(res, data, size, z) := zcis_Next (x_zcis x) in
  (res, data, x_set_stream size (if res then x_overall_limit x - size else x_overall_limit x) z x).

Definition BackUp ptr x : Ctx St :=
  let count :=
    if bool_decide (x_next_chunk x = Some (x_patch x)) then x_buffer_end x + kSlopBytes - ptr
    else x_size x + (x_buffer_end x - ptr) in
  if 0 <? count then StreamBackUp count x else x.

(** [PushLimit]: the token is the change of the limit. *)
Definition PushLimit ptr (limit : Z) x : Z * Ctx St :=
  let limit := limit + (ptr - x_buffer_end x) in
  let limit_end := x_buffer_end x + Z.min 0 limit in
  let old_limit := x_limit x in
  (old_limit - limit, x_set_limits limit limit_end x).

Definition LastTag x : Z := u32 (x_last_tag_minus_1 x + 1).
Definition ConsumeEndGroup (start_tag : Z) x : bool * Ctx St :=
  (x_last_tag_minus_1 x =? start_tag, x_set_last_tag 0 x).
Definition EndedAtLimit x : bool := x_last_tag_minus_1 x =? 0.
Definition EndedAtEndOfStream x : bool := x_last_tag_minus_1 x =? 1.
Definition SetLastTag (tag : Z) x : Ctx St := x_set_last_tag (u32 (tag - 1)) x.
Definition SetEndOfStream x : Ctx St := x_set_last_tag 1 x.

Definition PopLimit (delta : Z) x : bool * Ctx St :=
  let limit := x_limit x + delta in
  let x := x_set_limits limit (x_limit_end x) x in
  if negb (EndedAtLimit x) then (false, x)
  else (true, x_set_limits limit (x_buffer_end x + Z.min 0 limit) x).

Definition IsExceedingLimit ptr x : bool :=
  (x_limit_end x <? ptr)
  && (bool_decide (x_next_chunk x = None) || (x_limit x <? ptr - x_buffer_end x)).
Definition AliasingEnabled x : bool := negb (x_aliasing x =? kNoAliasing).
Definition BytesUntilLimit ptr x : Z := x_limit x + (x_buffer_end x - ptr).
Definition MaximumReadSize ptr x : Z := (x_limit_end x - ptr) + kSlopBytes.
Definition DataAvailable ptr x : bool := ptr <? x_limit_end x.

(** The bytes that can be read from [ptr] without another buffer. *)
Definition in_buffer ptr x : Z := x_buffer_end x + kSlopBytes - ptr.

(** Functions of [parse_context.cc]. *)
Context (SkipFallback : Z -> Z -> Ctx St -> option Z * Ctx St).
Context (ReadStringFallback : Z -> Z -> Ctx St -> option Z * bytes * Ctx St).
Context (AppendStringFallback : Z -> Z -> bytes -> Ctx St -> option Z * bytes * Ctx St).
Context (DoneFallback : Z -> Z -> Ctx St -> (option Z * bool) * Ctx St).
Context (Next : Ctx St -> option Z * Ctx St).
Context (InitFromStream : Ctx St -> Z * Ctx St).

Definition Skip ptr size x : option Z * Ctx St :=
  if size <=? in_buffer ptr x then (Some (ptr + size), x) else SkipFallback ptr size x.

Definition ReadString ptr size x : option Z * bytes * Ctx St :=
  if size <=? in_buffer ptr x then (Some (ptr + size), bytes_at (x_mem x) ptr (Z.to_nat size), x)
  else ReadStringFallback ptr size x.

Definition AppendString ptr size (s : bytes) x : option Z * bytes * Ctx St :=
  if size <=? in_buffer ptr x then (Some (ptr + size), s ++ bytes_at (x_mem x) ptr (Z.to_nat size), x)
  else AppendStringFallback ptr size s x.

(** The pointer is not null; the boolean says that the end is reached. *)
Definition DoneWithCheck ptr (d : Z) x : bool * option Z * Ctx St :=
  if ptr <? x_limit_end x then (false, Some ptr, x)
  else
    let overrun := ptr - x_buffer_end x in
    if overrun =? x_limit x then
      (true, if (0 <? overrun) && bool_decide (x_next_chunk x = None) then None else Some ptr, x)
    else
      let '(res, x) := DoneFallback overrun d x in (res.2, res.1, x).

(** [InitFrom(string_view)]: [flat] lies at [data]. *)
Definition InitFrom (data size : Z) x : Z * Ctx St :=
  if kSlopBytes <? size then
    let e := data + size - kSlopBytes in
    (data,
     mkCtx (x_mem x) e e (Some (x_patch x)) (x_size x) kSlopBytes (x_last_tag_minus_1 x) 0
       (if x_aliasing x =? kOnPatch then kNoDelta else x_aliasing x)
       (x_depth x) (x_group_depth x) (x_patch x) (x_zcis x))
  else
    let m := mem (pokes (bytes_at (x_mem x) data (Z.to_nat size)) (mkCursor (x_patch x) (x_mem x))) in
    let e := x_patch x + size in
    (x_patch x,
     mkCtx m e e None (x_size x) 0 (x_last_tag_minus_1 x) 0
       (if x_aliasing x =? kOnPatch then u64 (data - x_patch x) else x_aliasing x)
       (x_depth x) (x_group_depth x) (x_patch x) (x_zcis x)).

(** [InitFrom(zcis, limit)]. *)
Definition InitFromLimited (limit : Z) x : Z * Ctx St :=
  if limit =? -1 then InitFromStream x
  else
    let x := x_set_stream (x_size x) limit (x_zcis x) x in
    let '(res, x) := InitFromStream x in
    let l := limit - (x_buffer_end x - res) in
    (res, x_set_limits l (x_buffer_end x + Z.min 0 l) x).

(** The loop of [AppendSize], run with what it appends to. *)
Fixpoint AppendSize_loop (fuel : nat) ptr size (chunk_size : Z) (acc : bytes) x : option Z * bytes * Ctx St :=
  match fuel with
  | O => (None, acc, x)
  | S fuel =>
      if bool_decide (x_next_chunk x = None) then (None, acc, x)
      else
        let acc := acc ++ bytes_at (x_mem x) ptr (Z.to_nat chunk_size) in
        let size := size - chunk_size in
        if x_limit x <=? kSlopBytes then (None, acc, x)
        else
          match Next x with
          | (None, x) => (None, acc, x)
          | (Some ptr, x) =>
              let ptr := ptr + kSlopBytes in
              let chunk_size := in_buffer ptr x in
              if chunk_size <? size then AppendSize_loop fuel ptr size chunk_size acc x
              else (Some (ptr + size), acc ++ bytes_at (x_mem x) ptr (Z.to_nat size), x)
          end
  end.

Definition AppendSize (fuel : nat) ptr size (acc : bytes) x : option Z * bytes * Ctx St :=
  AppendSize_loop fuel ptr size (in_buffer ptr x) acc x.

(** [AppendUntilEnd] and the [AppendString] built on it. *)
Fixpoint AppendUntilEnd_loop (fuel : nat) ptr (acc : bytes) x : option Z * bytes * Ctx St :=
  match fuel with
  | O => (None, acc, x)
  | S fuel =>
      if kSlopBytes <? x_limit x then
        let acc := acc ++ bytes_at (x_mem x) ptr (Z.to_nat (in_buffer ptr x)) in
        match Next x with
        | (None, x) => (Some (x_limit_end x), acc, x)
        | (Some ptr, x) => AppendUntilEnd_loop fuel (ptr + kSlopBytes) acc x
        end
      else
        let e := x_buffer_end x + x_limit x in
        (Some e, acc ++ bytes_at (x_mem x) ptr (Z.to_nat (e - ptr)), x)
  end.

Definition AppendUntilEnd (fuel : nat) ptr (acc : bytes) x : option Z * bytes * Ctx St :=
  if x_limit x <? ptr - x_buffer_end x then (None, acc, x) else AppendUntilEnd_loop fuel ptr acc x.

(** ** [ParseContext] *)

Context (VarintParseSlow64 : memory -> Z -> Z -> option Z * Z).
Context (ReadTagFallback : memory -> Z -> Z -> option Z * Z).
Context (ReadSizeFallback : memory -> Z -> Z -> option Z * Z).

(** [group_depth_] starts at [INT_MIN]. *)
Definition INT_MIN : Z := - 2 ^ 31.
Definition INT_MAX : Z := 2 ^ 31 - 1.

Definition TrackCorrectEnding x : Ctx St := x_set_group_depth 0 x.
Definition Done ptr x : bool * option Z * Ctx St := DoneWithCheck ptr (x_group_depth x) x.
Definition depth x : Z := x_depth x.

(** The constructors: a depth, aliasing, and the flat input. *)
Definition ParseContext_new (d : Z) (aliasing : bool) (m : memory) (patch : Z) (z : St) (data size : Z)
    : Z * Ctx St :=
  InitFrom data size
    (mkCtx m 0 0 None 0 0 0 INT_MAX (if aliasing then kOnPatch else kNoAliasing) d INT_MIN patch z).
Definition ParseContext_spawn x (m : memory) (patch : Z) (z : St) (data size : Z) : Z * Ctx St :=
  InitFrom data size
    (mkCtx m 0 0 None 0 0 0 INT_MAX kNoAliasing (x_depth x) INT_MIN patch z).

(** The token is written only on success. *)
Definition ReadSizeAndPushLimitAndDepthInlined ptr x : option (Z * Z) * Ctx St :=
  let '(p, size) := ReadSize ReadSizeFallback (x_mem x) ptr in
  match p with
  | None => (None, x)
  | Some ptr =>
      if x_depth x <=? 0 then (None, x)
      else
        let '(old, x) := PushLimit ptr (i32 size) x in
        (Some (ptr, old), x_set_depth (x_depth x - 1) x)
  end.

(** The callbacks change the object that is parsed, of type [U]. *)
Context {U : Type}.
Implicit Types (u : U).

(** [ParseLengthDelimitedInlined], and [ParseMessage] with the parse loop of a
    message table. *)
Definition ParseLengthDelimitedInlined (func : Z -> U -> Ctx St -> option Z * U * Ctx St) ptr u x
    : option Z * U * Ctx St :=
  match ReadSizeAndPushLimitAndDepthInlined ptr x with
  | (None, x) => (None, u, x)
  | (Some (ptr, old), x) =>
      let '(p, u, x) := func ptr u x in
      let x := x_set_depth (x_depth x + 1) x in
      let '(ok, x) := PopLimit old x in
      (if negb ok then None else p, u, x)
  end.

Definition ParseMessage (ParseLoop : Z -> U -> Ctx St -> option Z * U * Ctx St) ptr u x
    : option Z * U * Ctx St :=
  ParseLengthDelimitedInlined ParseLoop ptr u x.

Definition ParseGroup (_InternalParse : Z -> U -> Ctx St -> option Z * U * Ctx St) ptr (tag : Z) u x
    : option Z * U * Ctx St :=
  let x := x_set_depth (x_depth x - 1) x in
  if x_depth x <? 0 then (None, u, x)
  else
    let x := x_set_group_depth (x_group_depth x + 1) x in
    let '(p, u, x) := _InternalParse ptr u x in
    let x := x_set_group_depth (x_group_depth x - 1) x in
    let x := x_set_depth (x_depth x + 1) x in
    let '(ok, x) := ConsumeEndGroup tag x in
    (if negb ok then None else p, u, x).

(** [ReadRepeatedFixed]: elements of [n] bytes, tags of [k] bytes. *)
Fixpoint ReadRepeatedFixed (fuel n k : nat) ptr (expected_tag : Z) (out : list Z) x : Z * list Z :=
  match fuel with
  | O => (ptr, out)
  | S fuel =>
      let out := out ++ [UnalignedLoad n (x_mem x) ptr] in
      let ptr := ptr + Z.of_nat n in
      if x_limit_end x <=? ptr then (ptr, out)
      else if UnalignedLoad k (x_mem x) ptr =? expected_tag
      then ReadRepeatedFixed fuel n k (ptr + Z.of_nat k) expected_tag out x
      else (ptr, out)
  end.

(** [num] elements of [n] bytes from [ptr]. *)
Fixpoint load_all (num n : nat) ptr (m : memory) : list Z :=
  match num with
  | O => []
  | S num => UnalignedLoad n m ptr :: load_all num n (ptr + Z.of_nat n) m
  end.

Fixpoint ReadPackedFixed_loop (fuel n : nat) ptr size nbytes (out : list Z) x
    : option (Z * Z) * list Z * Ctx St :=
  match fuel with
  | O => (None, out, x)
  | S fuel =>
      if nbytes <? size then
        let num := nbytes / Z.of_nat n in
        let block_size := num * Z.of_nat n in
        let out := out ++ load_all (Z.to_nat num) n ptr (x_mem x) in
        let size := size - block_size in
        if x_limit x <=? kSlopBytes then (None, out, x)
        else
          match Next x with
          | (None, x) => (None, out, x)
          | (Some ptr, x) =>
              let ptr := ptr + (kSlopBytes - (nbytes - block_size)) in
              ReadPackedFixed_loop fuel n ptr size (in_buffer ptr x) out x
          end
      else (Some (ptr, size), out, x)
  end.

Definition ReadPackedFixed (fuel n : nat) (ptr : option Z) size (out : list Z) x : option Z * list Z * Ctx St :=
  match ptr with
  | None => (None, out, x)
  | Some ptr =>
      match ReadPackedFixed_loop fuel n ptr size (in_buffer ptr x) out x with
      | (None, out, x) => (None, out, x)
      | (Some (ptr, size), out, x) =>
          let num := size / Z.of_nat n in
          let block_size := num * Z.of_nat n in
          if num =? 0 then (if size =? block_size then Some ptr else None, out, x)
          else
            let out := out ++ load_all (Z.to_nat num) n ptr (x_mem x) in
            let ptr := ptr + block_size in
            (if negb (size =? block_size) then None else Some ptr, out, x)
      end
  end.

(** [add] appends to the list of numbers read. *)
Fixpoint ReadPackedVarintArray (fuel : nat) ptr (e : Z) (out : list Z) (m : memory) : option Z * list Z :=
  match fuel with
  | O => (None, out)
  | S fuel =>
      if ptr <? e then
        match VarintParse64 VarintParseSlow64 m ptr with
        | (None, _) => (None, out)
        | (Some ptr, varint) => ReadPackedVarintArray fuel ptr e (out ++ [varint]) m
        end
      else (Some ptr, out)
  end.

(** The [while] loop of [ReadPackedVarint]; the local array [buf] lies at
    [buf_addr] and is zero behind the copied bytes. *)
Fixpoint ReadPackedVarint_loop (fuel : nat) (buf_addr : Z) ptr size (chunk_size : Z) (out : list Z) x
    : option Z * list Z * Ctx St :=
  match fuel with
  | O => (None, out, x)
  | S fuel' =>
      if chunk_size <? size then
        match ReadPackedVarintArray fuel ptr (x_buffer_end x) out (x_mem x) with
        | (None, out) => (None, out, x)
        | (Some ptr, out) =>
            let overrun := ptr - x_buffer_end x in
            if size - chunk_size <=? kSlopBytes then
              let buf := mem (pokes (bytes_at (x_mem x) (x_buffer_end x) 16 ++ replicate 10 0)
                                (mkCursor buf_addr (x_mem x))) in
              let e := buf_addr + (size - chunk_size) in
              match ReadPackedVarintArray fuel (buf_addr + overrun) e out buf with
              | (None, out) => (None, out, x)
              | (Some res, out) =>
                  (if negb (res =? e) then None else Some (x_buffer_end x + (res - buf_addr)), out, x)
              end
            else
              let size := size - (overrun + chunk_size) in
              if x_limit x <=? kSlopBytes then (None, out, x)
              else
                match Next x with
                | (None, x) => (None, out, x)
                | (Some ptr, x) =>
                    let ptr := ptr + overrun in
                    ReadPackedVarint_loop fuel' buf_addr ptr size (x_buffer_end x - ptr) out x
                end
        end
      else
        let e := ptr + size in
        match ReadPackedVarintArray fuel ptr e out (x_mem x) with
        | (None, out) => (None, out, x)
        | (Some ptr, out) => (if e =? ptr then Some ptr else None, out, x)
        end
  end.

(** [size_callback] sees the size first. *)
Definition ReadPackedVarint (fuel : nat) (buf_addr : Z) ptr (size_callback : Z -> U -> U) u (out : list Z) x
    : option Z * U * list Z * Ctx St :=
  let '(p, size) := ReadSize ReadSizeFallback (x_mem x) ptr in
  let size := i32 size in
  let u := size_callback size u in
  match p with
  | None => (None, u, out, x)
  | Some ptr =>
      let '(r, out, x) := ReadPackedVarint_loop fuel buf_addr ptr size (x_buffer_end x - ptr) out x in
      (r, u, out, x)
  end.

(** ** The generic parse loop *)

(** The methods of a field parser. *)
Record FieldSink := mkSink {
  AddVarint : Z -> Z -> U -> U;
  AddFixed64 : Z -> Z -> U -> U;
  AddFixed32 : Z -> Z -> U -> U;
  ParseLengthDelimited : Z -> Z -> U -> Ctx St -> option Z * U * Ctx St;
  sink_ParseGroup : Z -> Z -> U -> Ctx St -> option Z * U * Ctx St;
}.
Implicit Types (k : FieldSink).

(** An end-group tag never gets here; the code aborts on it. *)
Definition FieldParser (tag : Z) k ptr u x : outcome (option Z * U * Ctx St) :=
  let number := u32 (Z.shiftr tag 3) in
  if number =? 0 then Ret (None, u, x)
  else
    let type := Z.land tag 7 in
    if type =? WireType_value WIRETYPE_VARINT then
      match VarintParse64 VarintParseSlow64 (x_mem x) ptr with
      | (None, _) => Ret (None, u, x)
      | (Some ptr, value) => Ret (Some ptr, AddVarint k number value u, x)
      end
    else if type =? WireType_value WIRETYPE_FIXED64 then
      let value := UnalignedLoad 8 (x_mem x) ptr in
      Ret (Some (ptr + 8), AddFixed64 k number value u, x)
    else if type =? WireType_value WIRETYPE_LENGTH_DELIMITED then
      Ret (ParseLengthDelimited k number ptr u x)
    else if type =? WireType_value WIRETYPE_START_GROUP then
      Ret (sink_ParseGroup k number ptr u x)
    else if type =? WireType_value WIRETYPE_END_GROUP then Throw fatal_message
    else if type =? WireType_value WIRETYPE_FIXED32 then
      let value := UnalignedLoad 4 (x_mem x) ptr in
      Ret (Some (ptr + 4), AddFixed32 k number value u, x)
    else Ret (None, u, x).

(** The fuel bounds the number of fields. *)
Fixpoint WireFormatParser (fuel : nat) k (ptr : option Z) u x : outcome (option Z * U * Ctx St) :=
  match fuel, ptr with
  | O, _ | _, None => Ret (None, u, x)
  | S fuel, Some ptr =>
      let '(done, p, x) := Done ptr x in
      if done : bool then Ret (p, u, x)
      else
        match p with
        | None => Ret (None, u, x)
        | Some ptr =>
            let '(p, tag) := ReadTag ReadTagFallback (x_mem x) ptr in
            match p with
            | None => Ret (None, u, x)
            | Some ptr =>
                if (tag =? 0) || (Z.land tag 7 =? 4) then Ret (Some ptr, u, SetLastTag tag x)
                else
                  do (p, u, x) <- FieldParser tag k ptr u x;
                  match p with
                  | None => Ret (None, u, x)
                  | Some ptr => WireFormatParser fuel k (Some ptr) u x
                  end
            end
        end
  end.
End ctx.

(** ** The input as a list of bytes *)

Section ctx_facts.
Context {St : Type}.
Implicit Types (x : Ctx St) (ptr size : Z) (l : bytes).

(** What lies behind the slop region: the next chunk and the stream below. *)
Context (upcoming : Ctx St -> bytes).

(** From [ptr] up to the limit the input is [l]: the buffer and its slop region
    show a prefix, the rest is still to come. *)
Record stream_view x ptr l : Prop := {
  sv_length : BytesUntilLimit ptr x = Z.of_nat (length l);
  sv_slop : ptr <= x_buffer_end x + kSlopBytes;
  sv_bytes : forall i b, l !! i = Some b -> Z.of_nat i < in_buffer ptr x ->
    byte_at (x_mem x) (ptr + Z.of_nat i) = b;
  sv_coming : forall i b, l !! i = Some b -> in_buffer ptr x <= Z.of_nat i ->
    upcoming x !! (i - Z.to_nat (in_buffer ptr x))%nat = Some b;
  sv_ok : Forall is_byte l;
  sv_end : x_limit_end x = x_buffer_end x + Z.min 0 (x_limit x);
  sv_last : x_next_chunk x = None -> x_limit x <= 0;
  sv_mem : mem_ok (x_mem x);
}.

(** What every step of the parser keeps. *)
Definition same_parse x x' : Prop :=
  x_last_tag_minus_1 x' = x_last_tag_minus_1 x /\ x_depth x' = x_depth x /\
  x_group_depth x' = x_group_depth x.

#[export] Instance same_parse_preorder : PreOrder same_parse.
Proof. split; [done|]. intros x y z (? & ? & ?) (? & ? & ?). unfold same_parse. repeat split; congruence. Qed.

Lemma view_reads x ptr l1 l2 :
  stream_view x ptr (l1 ++ l2) -> Z.of_nat (length l1) <= in_buffer ptr x -> reads (x_mem x) ptr l1.
Proof.
  intros Hv Hin. unfold reads. apply list_eq. intros i.
  destruct (decide (i < length l1)%nat) as [Hi|Hi].
  - rewrite bytes_at_lookup by done. destruct (lookup_lt_is_Some_2 l1 i Hi) as [b Hb].
    rewrite Hb. f_equal. apply (sv_bytes _ _ _ Hv); [by apply lookup_app_l_Some|lia].
  - rewrite !(proj2 (lookup_ge_None _ _)); [done|lia|rewrite bytes_at_length; lia].
Qed.

Lemma view_advance x ptr l1 l2 :
  stream_view x ptr (l1 ++ l2) -> Z.of_nat (length l1) <= in_buffer ptr x ->
  stream_view x (ptr + Z.of_nat (length l1)) l2.
Proof.
  intros [Hl Hs Hb Hc Hok He Hn Hm] Hin. unfold BytesUntilLimit, in_buffer in *. rewrite length_app in Hl.
  apply Forall_app in Hok as [_ Hok].
  assert (Hi2 : forall i b, l2 !! i = Some b -> (l1 ++ l2) !! (length l1 + i)%nat = Some b).
  { intros i b Hi. rewrite lookup_app_r by lia. by replace (length l1 + i - length l1)%nat with i by lia. }
  split; try done; unfold BytesUntilLimit, in_buffer; [lia|lia| |].
  - intros i b Hi Hib. rewrite <- (Hb _ b (Hi2 _ _ Hi)); [f_equal; lia|lia].
  - intros i b Hi Hib. rewrite <- (Hc _ b (Hi2 _ _ Hi)); [f_equal; lia|lia].
Qed.

(** The view from a place before: memory shows what lies between. *)
Lemma view_back x ptr l q :
  stream_view x ptr l -> q <= ptr -> stream_view x q (bytes_at (x_mem x) q (Z.to_nat (ptr - q)) ++ l).
Proof.
  intros [Hl Hs Hb Hc Hok He Hn Hm] Hq. set (k := Z.to_nat (ptr - q)).
  assert (Hk : ptr = q + Z.of_nat k) by lia. unfold BytesUntilLimit, in_buffer in *.
  assert (Hi : forall i, (k <= i)%nat -> (bytes_at (x_mem x) q k ++ l) !! i = l !! (i - k)%nat).
  { intros i Hi. by rewrite lookup_app_r, bytes_at_length by (by rewrite bytes_at_length). }
  split; try done; unfold BytesUntilLimit, in_buffer; rewrite ?length_app, ?bytes_at_length; try lia.
  - intros i b. destruct (decide (i < k)%nat).
    + rewrite lookup_app_l, bytes_at_lookup by (done || by rewrite bytes_at_length). by intros [= <-].
    + rewrite Hi by lia. intros E Hin. rewrite <- (Hb _ b E) by lia. f_equal. lia.
  - intros i b E Hin. rewrite Hi in E by lia. rewrite <- (Hc _ b E) by lia. f_equal. lia.
  - apply Forall_app. split; [by apply bytes_at_ok|done].
Qed.

(** ** The end-of-data test *)

Context (SkipFallback : Z -> Z -> Ctx St -> option Z * Ctx St).
Context (AppendStringFallback : Z -> Z -> bytes -> Ctx St -> option Z * bytes * Ctx St).
Context (DoneFallback : Z -> Z -> Ctx St -> (option Z * bool) * Ctx St).
Context (VarintParseSlow64 : memory -> Z -> Z -> option Z * Z).
Context (ReadTagFallback : memory -> Z -> Z -> option Z * Z).
Context (ReadSizeFallback : memory -> Z -> Z -> option Z * Z).

(** "Advances to next buffer chunk returns a pointer to the same logical
    place in the stream"; not called at the limit. *)
Definition DoneFallback_spec : Prop := forall x ptr d l,
  stream_view x ptr l -> l <> [] -> x_limit_end x <= ptr ->
  exists p' x', DoneFallback (ptr - x_buffer_end x) d x = ((Some p', false), x') /\
    stream_view x' p' l /\ p' < x_limit_end x' /\ same_parse x x'.

(** Appends what lies beyond the buffer. *)
Definition AppendStringFallback_spec : Prop := forall x ptr s l1 l2,
  stream_view x ptr (l1 ++ l2) -> in_buffer ptr x < Z.of_nat (length l1) ->
  exists p' x', AppendStringFallback ptr (Z.of_nat (length l1)) s x = (Some p', s ++ l1, x') /\
    stream_view x' p' l2 /\ same_parse x x'.

(** "Each chunk has kSlopBytes past its end that overlap with the first
    kSlopBytes of the next chunk": the place given back is where the chunk
    ended, in a chunk that is not empty; not called unless more than the slop
    region is left. *)
Definition Next_spec (Next : Ctx St -> option Z * Ctx St) : Prop := forall x l,
  stream_view x (x_buffer_end x) l -> kSlopBytes < x_limit x ->
  exists p' x', Next x = (Some p', x') /\ stream_view x' p' l /\ p' < x_buffer_end x' /\ same_parse x x'.

Lemma Done_at_limit x ptr : stream_view x ptr [] -> Done DoneFallback ptr x = (true, Some ptr, x).
Proof.
  intros [Hl Hs _ _ _ He Hn _]. unfold Done, DoneWithCheck, BytesUntilLimit in *. simpl in Hl.
  destruct (Z.ltb_spec ptr (x_limit_end x)); [lia|].
  destruct (Z.eqb_spec (ptr - x_buffer_end x) (x_limit x)); [|lia].
  destruct (Z.ltb_spec 0 (ptr - x_buffer_end x)); [|done].
  rewrite bool_decide_eq_false_2; [done|]. intros Hnone%Hn. lia.
Qed.

Lemma Done_before_limit x ptr l :
  DoneFallback_spec -> stream_view x ptr l -> l <> [] ->
  exists p' x', Done DoneFallback ptr x = (false, Some p', x') /\
    stream_view x' p' l /\ p' < x_limit_end x' /\ same_parse x x'.
Proof.
  intros Hd Hv Hne. unfold Done, DoneWithCheck. destruct (Z.ltb_spec ptr (x_limit_end x)).
  { exists ptr, x. done. }
  destruct (Z.eqb_spec (ptr - x_buffer_end x) (x_limit x)) as [E|E].
  { pose proof (sv_length _ _ _ Hv) as Hl. unfold BytesUntilLimit in Hl. destruct l; [done|]. simpl in Hl. lia. }
  destruct (Hd x ptr (x_group_depth x) l Hv Hne) as (p' & x' & E' & Hv' & Hlt & Hs); [lia|].
  rewrite E'. exists p', x'. done.
Qed.

Lemma AppendString_spec x ptr s l1 l2 :
  AppendStringFallback_spec -> stream_view x ptr (l1 ++ l2) ->
  exists p' x', AppendString AppendStringFallback ptr (Z.of_nat (length l1)) s x = (Some p', s ++ l1, x') /\
    stream_view x' p' l2 /\ same_parse x x'.
Proof.
  intros Ha Hv. unfold AppendString. destruct (Z.leb_spec (Z.of_nat (length l1)) (in_buffer ptr x)) as [Hle|Hgt].
  - eexists _, x. split; [|split; [by apply view_advance|done]]. do 3 f_equal.
    rewrite Nat2Z.id. exact (view_reads x ptr l1 l2 Hv Hle).
  - by apply Ha.
Qed.

(** ** Fields on the wire *)

Inductive wfield :=
| FVarint (n v : Z) | FFixed64 (n v : Z) | FFixed32 (n v : Z) | FLen (n : Z) (s : bytes).

Definition wf_bytes (f : wfield) : bytes :=
  match f with
  | FVarint n v => varint (MakeTag n WIRETYPE_VARINT) ++ varint v
  | FFixed64 n v => varint (MakeTag n WIRETYPE_FIXED64) ++ le_bytes 8 v
  | FFixed32 n v => varint (MakeTag n WIRETYPE_FIXED32) ++ le_bytes 4 v
  | FLen n s => varint (MakeTag n WIRETYPE_LENGTH_DELIMITED) ++ varint (Z.of_nat (length s)) ++ s
  end.

Definition wf_ok (f : wfield) : Prop :=
  match f with
  | FVarint n v => valid_field n /\ inU 64 v
  | FFixed64 n v => valid_field n /\ inU 64 v
  | FFixed32 n v => valid_field n /\ inU 32 v
  | FLen n s => valid_field n /\ Z.of_nat (length s) < 2 ^ 31 - 16
  end.

(** A field parser that keeps what it is given; strings are read as the
    callers of [AppendString] read them. *)
Definition keep_len (number ptr : Z) (u : list wfield) x : option Z * list wfield * Ctx St :=
  let '(p, size) := ReadSize ReadSizeFallback (x_mem x) ptr in
  match p with
  | None => (None, u, x)
  | Some ptr =>
      let '(p, s, x) := AppendString AppendStringFallback ptr (i32 size) [] x in
      (p, u ++ [FLen number s], x)
  end.

Definition keep : FieldSink (St := St) (U := list wfield) :=
  mkSink (fun n v u => u ++ [FVarint n v]) (fun n v u => u ++ [FFixed64 n v])
    (fun n v u => u ++ [FFixed32 n v]) keep_len (fun _ _ u x => (None, u, x)).

Lemma tag_parts n t :
  valid_field n -> Z.land (MakeTag n t) 7 = WireType_value t /\ u32 (Z.shiftr (MakeTag n t) 3) = n.
Proof.
  intros Hn. pose proof (WireType_range t). unfold valid_field in Hn. rewrite MakeTag_spec by lia. split.
  - change 7 with (Z.ones 3). rewrite Z.land_ones by lia.
    replace (8 * n + WireType_value t) with (WireType_value t + n * 2 ^ 3) by lia.
    rewrite Z_mod_plus_full. by apply Z.mod_small.
  - rewrite Z.shiftr_div_pow2 by lia. change (2 ^ 3) with 8.
    rewrite <- (Z.div_unique_pos (8 * n + WireType_value t) 8 n (WireType_value t)) by lia.
    apply wrapU_id. unfold inU. lia.
Qed.

Lemma u32_size v : inU 32 v -> (length (varint v) <= 5)%nat.
Proof. intros Hv. by apply varint_32_form. Qed.

Lemma u64_varint v : inU 64 v ->
  varint_form (varint v) /\ (length (varint v) <= 10)%nat /\ u64 (varint_value (varint v)) = v.
Proof.
  intros Hv. pose proof (u64_128 v Hv) as Hb. pose proof (varint_size_bounds v Hv) as Hs. unfold varint_size in Hs.
  split; [apply varint_bytes_form; [done|lia]|]. split; [lia|].
  unfold varint. rewrite varint_bytes_value by done. by apply wrapU_id.
Qed.

(** The tag at the pointer. *)
Lemma read_tag x ptr n t rest :
  tag_fallback_spec ReadTagFallback -> stream_view x ptr (varint (MakeTag n t) ++ rest) -> valid_field n ->
  ptr < x_limit_end x ->
  exists p1, ReadTag ReadTagFallback (x_mem x) ptr = (Some p1, MakeTag n t) /\
    stream_view x p1 rest /\ 12 <= in_buffer p1 x.
Proof.
  intros Ht Hv Hn Hlt. destruct (MakeTag_range n t Hn) as [_ Hr].
  destruct (varint_32_form _ Hr) as (Hf & Hl & Hval & _).
  pose proof (sv_end _ _ _ Hv) as He. unfold in_buffer, kSlopBytes.
  assert (Hin : Z.of_nat (length (varint (MakeTag n t))) <= in_buffer ptr x)
    by (unfold in_buffer, kSlopBytes; lia).
  eexists. split; [|split; [by apply view_advance|lia]].
  rewrite (ReadTag_spec ReadTagFallback _ _ (varint (MakeTag n t))); try done.
  - by rewrite Hval, wrapU_id.
  - apply (sv_mem _ _ _ Hv).
  - by eapply view_reads.
Qed.

Lemma field_step x ptr f rest u :
  AppendStringFallback_spec -> slow64_spec VarintParseSlow64 -> size_fallback_spec ReadSizeFallback ->
  wf_ok f ->
  let '(n, t, payload) :=
    match f with
    | FVarint n v => (n, WIRETYPE_VARINT, varint v)
    | FFixed64 n v => (n, WIRETYPE_FIXED64, le_bytes 8 v)
    | FFixed32 n v => (n, WIRETYPE_FIXED32, le_bytes 4 v)
    | FLen n s => (n, WIRETYPE_LENGTH_DELIMITED, varint (Z.of_nat (length s)) ++ s)
    end in
  stream_view x ptr (payload ++ rest) -> 12 <= in_buffer ptr x ->
  exists p' x', FieldParser VarintParseSlow64 (MakeTag n t) keep ptr u x = Ret (Some p', u ++ [f], x') /\
    stream_view x' p' rest /\ same_parse x x'.
Proof.
  intros Ha Hs Hz Hok. destruct f as [n v|n v|n v|n s]; cbn [wf_ok] in Hok; destruct Hok as [Hn Hv0];
    intros Hv Hin; unfold FieldParser.
  - destruct (tag_parts n WIRETYPE_VARINT Hn) as [E1 E2]. rewrite E1, E2.
    destruct (Z.eqb_spec n 0); [unfold valid_field in Hn; lia|]. cbn [WireType_value Z.eqb].
    destruct (u64_varint v Hv0) as (Hf & Hl & Hval).
    rewrite (VarintParse64_spec _ _ _ (varint v)); try done.
    + rewrite Hval. eexists _, x. split; [done|]. split; [|done]. apply view_advance; [done|lia].
    + apply (sv_mem _ _ _ Hv).
    + eapply view_reads; [done|lia].
  - destruct (tag_parts n WIRETYPE_FIXED64 Hn) as [E1 E2]. rewrite E1, E2.
    destruct (Z.eqb_spec n 0); [unfold valid_field in Hn; lia|]. cbn [WireType_value Z.eqb Pos.eqb].
    assert (Hl : length (le_bytes 8 v) = 8%nat) by apply le_bytes_length.
    rewrite (load_reads 8 _ _ v); [|eapply view_reads; [done|lia]|exact Hv0].
    eexists _, x. split; [done|]. split; [|done].
    pose proof (view_advance _ _ _ _ Hv ltac:(lia)) as Hv'. rewrite Hl in Hv'. exact Hv'.
  - destruct (tag_parts n WIRETYPE_FIXED32 Hn) as [E1 E2]. rewrite E1, E2.
    destruct (Z.eqb_spec n 0); [unfold valid_field in Hn; lia|]. cbn [WireType_value Z.eqb Pos.eqb].
    assert (Hl : length (le_bytes 4 v) = 4%nat) by apply le_bytes_length.
    rewrite (load_reads 4 _ _ v); [|eapply view_reads; [done|lia]|exact Hv0].
    eexists _, x. split; [done|]. split; [|done].
    pose proof (view_advance _ _ _ _ Hv ltac:(lia)) as Hv'. rewrite Hl in Hv'. exact Hv'.
  - destruct (tag_parts n WIRETYPE_LENGTH_DELIMITED Hn) as [E1 E2]. rewrite E1, E2.
    destruct (Z.eqb_spec n 0); [unfold valid_field in Hn; lia|]. cbn [WireType_value Z.eqb Pos.eqb].
    rewrite <- app_assoc in Hv.
    assert (Hu : inU 32 (Z.of_nat (length s))) by (unfold inU; lia).
    destruct (varint_32_form _ Hu) as (Hf & Hl & Hval & _).
    cbn [ParseLengthDelimited keep]. unfold keep_len.
    rewrite (ReadSize_spec _ _ _ (varint (Z.of_nat (length s)))); try done; try lia.
    + rewrite Hval. rewrite wrapS_id by (unfold inS; lia).
      destruct (AppendString_spec x (ptr + Z.of_nat (length (varint (Z.of_nat (length s))))) [] s rest Ha)
        as (p' & x' & E & Hv' & Hp); [apply view_advance; [done|lia]|].
      rewrite E. exists p', x'. done.
    + apply (sv_mem _ _ _ Hv).
    + eapply view_reads; [done|lia].
Qed.

Lemma parser_loop fs fuel x ptr u :
  DoneFallback_spec -> AppendStringFallback_spec -> slow64_spec VarintParseSlow64 ->
  tag_fallback_spec ReadTagFallback -> size_fallback_spec ReadSizeFallback ->
  Forall wf_ok fs -> (length fs < fuel)%nat -> stream_view x ptr (concat (wf_bytes <$> fs)) ->
  exists p' x',
    WireFormatParser DoneFallback VarintParseSlow64 ReadTagFallback fuel keep (Some ptr) u x
      = Ret (Some p', u ++ fs, x') /\
    stream_view x' p' [] /\ same_parse x x'.
Proof.
  intros Hd Ha Hs Ht Hz Hok. revert fuel x ptr u.
  induction Hok as [|f fs Hf Hfs IH]; intros fuel x ptr u Hfuel Hv; (destruct fuel as [|fuel]; [simpl in Hfuel; lia|]);
    cbn [WireFormatParser].
  - rewrite Done_at_limit by done. rewrite app_nil_r. by exists ptr, x.
  - csimpl in Hv. destruct (Done_before_limit x ptr _ Hd Hv) as (p1 & x1 & -> & Hv1 & Hlt & Hsame1).
    { intros E. apply (f_equal length) in E. rewrite length_app in E. simpl in E.
      destruct f; simpl in E; rewrite length_app in E;
        match type of E with context [varint ?t] => pose proof (varint_size_bounds t) as Hb end;
        unfold varint_size in Hb; cbn [wf_ok] in Hf; destruct Hf as [Hn _];
        match type of E with context [MakeTag _ ?t] => pose proof (MakeTag_range _ t Hn) as [_ Hr] end;
        specialize (Hb (inU_32_64 _ Hr)); lia. }
    pose proof (field_step x1) as Hstep.
    assert (Htag : exists n t payload, wf_bytes f = varint (MakeTag n t) ++ payload /\ valid_field n /\
      WireType_value t <> 4 /\
      forall q, stream_view x1 q (payload ++ concat (wf_bytes <$> fs)) -> 12 <= in_buffer q x1 ->
        exists p' x', FieldParser VarintParseSlow64 (MakeTag n t) keep q u x1 = Ret (Some p', u ++ [f], x') /\
          stream_view x' p' (concat (wf_bytes <$> fs)) /\ same_parse x1 x').
    { destruct f as [n v|n v|n v|n s]; eexists n, _, _; (split; [reflexivity|]);
        (split; [apply Hf|]); (split; [done|]); intros q;
        [apply (Hstep q (FVarint n v))|apply (Hstep q (FFixed64 n v))
        |apply (Hstep q (FFixed32 n v))|apply (Hstep q (FLen n s))]; done. }
    destruct Htag as (n & t & payload & Eb & Hn & H4 & Hf').
    rewrite Eb, <- app_assoc in Hv1.
    destruct (read_tag x1 p1 n t _ Ht Hv1 Hn Hlt) as (p2 & E2 & Hv2 & Hin2). rewrite E2.
    destruct (tag_parts n t Hn) as [Ety _]. destruct (MakeTag_range n t Hn) as [Hpos _].
    destruct (Z.eqb_spec (MakeTag n t) 0); [lia|]. rewrite Ety.
    destruct (Z.eqb_spec (WireType_value t) 4); [done|]. cbn [orb].
    destruct (Hf' p2 Hv2 Hin2) as (p3 & x3 & -> & Hv3 & Hsame3). cbn [obind].
    destruct (IH fuel x3 p3 (u ++ [f]) ltac:(simpl in Hfuel; lia) Hv3) as (p' & x' & -> & Hv' & Hsame').
    exists p', x'. rewrite <- app_assoc. split; [done|]. split; [done|].
    etransitivity; [exact Hsame1|]. by etransitivity.
Qed.

(** ** Flat input *)

Lemma InitFrom_view data l x :
  mem_ok (x_mem x) -> Forall is_byte l -> reads (x_mem x) data l ->
  let '(p, x') := InitFrom data (Z.of_nat (length l)) x in
  stream_view x' p l /\ same_parse x x'.
Proof.
  intros Hm Hl Hr. unfold InitFrom. destruct (Z.ltb_spec kSlopBytes (Z.of_nat (length l))) as [Hbig|Hsmall].
  - split; [|done]. split; cbn [x_mem x_limit_end x_buffer_end x_next_chunk x_limit BytesUntilLimit in_buffer];
      unfold BytesUntilLimit, in_buffer, kSlopBytes in *; cbn [x_buffer_end x_limit]; try done; try lia.
    + intros i b Hi _. pose proof (lookup_lt_Some _ _ _ Hi) as Hlt. unfold reads in Hr.
      rewrite <- Hr, bytes_at_lookup in Hi by done. by injection Hi as <-.
    + intros i b Hi. pose proof (lookup_lt_Some _ _ _ Hi). lia.
  - rewrite Nat2Z.id. unfold reads in Hr. rewrite Hr. split; [|done]. set (c := mkCursor (x_patch x) (x_mem x)).
    pose proof (reads_pokes l c) as Hp.
    split; unfold BytesUntilLimit, in_buffer, kSlopBytes in *; cbn [x_mem x_limit_end x_buffer_end x_next_chunk x_limit];
      try done; try lia.
    + intros i b Hi _. pose proof (lookup_lt_Some _ _ _ Hi) as Hlt. unfold reads in Hp.
      rewrite <- Hp, bytes_at_lookup in Hi by done. by injection Hi as <-.
    + intros i b Hi. pose proof (lookup_lt_Some _ _ _ Hi). lia.
    + by apply pokes_ok.
Qed.

Lemma wf_bytes_ok f : wf_ok f -> match f with FLen _ s => Forall is_byte s | _ => True end -> Forall is_byte (wf_bytes f).
Proof.
  intros Hok Hs. assert (Hv : forall v, 0 <= v -> Forall is_byte (varint v)) by (intros; by apply varint_bytes_byte).
  destruct f as [n v|n v|n v|n s]; cbn [wf_ok wf_bytes] in *; destruct Hok as [Hn Hv0];
    rewrite !Forall_app; repeat split; try apply le_bytes_byte; try done; apply Hv;
    try (unfold inU in Hv0; lia); try (match goal with |- 0 <= MakeTag n ?t => pose proof (MakeTag_range n t Hn) as [_ Hr]; unfold inU in Hr; lia end); lia.
Qed.

(** C25: the generic parser reads what was written: over a flat array that
    holds any sequence of well-formed fields - varints, fixed-width numbers
    and byte strings - it ends without an error, at the end of the input, with
    exactly those fields in order; one step of fuel more than there are fields
    is enough, and neither depth nor group depth has changed. *)
Theorem wire_parser_roundtrip fs fuel d al m patch z data :
  DoneFallback_spec -> AppendStringFallback_spec -> slow64_spec VarintParseSlow64 ->
  tag_fallback_spec ReadTagFallback -> size_fallback_spec ReadSizeFallback ->
  Forall wf_ok fs -> Forall (fun f => match f with FLen _ s => Forall is_byte s | _ => True end) fs ->
  mem_ok m -> reads m data (concat (wf_bytes <$> fs)) -> (length fs < fuel)%nat ->
  exists p x p' x',
    ParseContext_new d al m patch z data (Z.of_nat (length (concat (wf_bytes <$> fs)))) = (p, x) /\
    WireFormatParser DoneFallback VarintParseSlow64 ReadTagFallback fuel keep (Some p) [] x
      = Ret (Some p', fs, x') /\
    BytesUntilLimit p' x' = 0 /\ EndedAtLimit x' = true /\ depth x' = d /\ x_group_depth x' = INT_MIN.
Proof.
  intros Hd Ha Hs Ht Hz Hok Hby Hm Hr Hfuel. unfold ParseContext_new.
  set (x0 := mkCtx m _ _ _ _ _ _ _ _ _ _ _ _).
  assert (Hb : Forall is_byte (concat (wf_bytes <$> fs))).
  { clear -Hok Hby. induction fs as [|f fs IH]; csimpl; [constructor|].
    apply Forall_cons in Hok as [Hf Hok]. apply Forall_cons in Hby as [Hf' Hby].
    apply Forall_app. split; [by apply wf_bytes_ok|by apply IH]. }
  pose proof (InitFrom_view data (concat (wf_bytes <$> fs)) x0 Hm Hb Hr) as Hinit.
  destruct (InitFrom data _ x0) as [p x]. destruct Hinit as [Hv (Hlast & Hdep & Hgd)].
  destruct (parser_loop fs fuel x p [] Hd Ha Hs Ht Hz Hok Hfuel Hv) as (p' & x' & E & Hv' & (Hlast' & Hdep' & Hgd')).
  exists p, x, p', x'. split; [done|]. split; [exact E|].
  split; [apply (sv_length _ _ _ Hv')|]. unfold EndedAtLimit, depth.
  rewrite Hlast', Hlast, Hdep', Hdep, Hgd', Hgd. done.
Qed.

(** ** Limits and depth *)

Context {U : Type}.

Definition balanced (func : Z -> U -> Ctx St -> option Z * U * Ctx St) : Prop :=
  forall q v y q' v' y', func q v y = (q', v', y') ->
    x_buffer_end y' = x_buffer_end y /\ x_limit y' = x_limit y /\ x_depth y' = x_depth y /\
    x_group_depth y' = x_group_depth y.

(** Nesting is bounded and leaves no trace: a nested message is entered
    only with depth left and sees one less and exactly the announced number
    of bytes; when it is left without an error, the inner parser has ended at
    that limit, and limit, its derived end and depth are what they were; a
    group is left without an error only by its own end tag. *)
Lemma nesting_balanced func ptr tag u x :
  balanced func -> x_limit_end x = x_buffer_end x + Z.min 0 (x_limit x) ->
  (forall p' u' x', ParseLengthDelimitedInlined ReadSizeFallback func ptr u x = (Some p', u', x') ->
     x_limit x' = x_limit x /\ x_limit_end x' = x_limit_end x /\ x_depth x' = x_depth x /\
     EndedAtLimit x' = true /\ 0 < x_depth x /\
     exists q size y, ReadSize ReadSizeFallback (x_mem x) ptr = (Some q, size) /\
       (func q u y).1.1 = Some p' /\ BytesUntilLimit q y = i32 size /\ x_depth y = x_depth x - 1) /\
  (forall p' u' x', ParseGroup func ptr tag u x = (Some p', u', x') ->
     x_limit x' = x_limit x /\ x_depth x' = x_depth x /\ x_group_depth x' = x_group_depth x /\
     EndedAtLimit x' = true /\ 0 < x_depth x /\
     exists y, (func ptr u y).1.1 = Some p' /\ x_last_tag_minus_1 (func ptr u y).2 = tag /\
       x_depth y = x_depth x - 1).
Proof.
  intros Hb He. split; intros p' u' x'.
  - unfold ParseLengthDelimitedInlined, ReadSizeAndPushLimitAndDepthInlined.
    destruct (ReadSize ReadSizeFallback (x_mem x) ptr) as [[q|] size] eqn:Er; [|done].
    destruct (Z.leb_spec (x_depth x) 0); [done|]. cbn [PushLimit].
    match goal with |- context [func q u ?y] => set (y0 := y); destruct (func q u y0) as [[p1 u1] y1] eqn:Ef end.
    destruct (Hb _ _ _ _ _ _ Ef) as (Hbe & Hlim & Hdep & _).
    unfold PopLimit. set (y2 := x_set_limits _ _ _).
    destruct (EndedAtLimit y2) eqn:Eend; cbn [negb]; [|done]. intros [= -> -> <-].
    assert (Elim : x_limit y1 + (x_limit x - (i32 size + (q - x_buffer_end x))) = x_limit x).
    { rewrite Hlim. subst y0. cbn. lia. }
    split; [exact Elim|]. split; [cbn [x_set_limits x_limit_end x_limit x_buffer_end y2]|].
    { cbn [x_set_depth x_limit x_buffer_end]. rewrite Elim, Hbe, He. done. }
    split; [cbn; rewrite Hdep; subst y0; cbn; lia|]. split; [exact Eend|]. split; [lia|].
    exists q, size, y0. rewrite Ef. repeat split. subst y0. unfold BytesUntilLimit. cbn. lia.
  - unfold ParseGroup. cbn [x_depth x_set_depth]. destruct (Z.ltb_spec (x_depth x - 1) 0); [done|].
    match goal with |- context [func ptr u ?y] => set (y0 := y); destruct (func ptr u y0) as [[p1 u1] y1] eqn:Ef end.
    destruct (Hb _ _ _ _ _ _ Ef) as (Hbe & Hlim & Hdep & Hgd).
    unfold ConsumeEndGroup. cbn [x_last_tag_minus_1 x_set_depth x_set_group_depth].
    destruct (Z.eqb_spec (x_last_tag_minus_1 y1) tag) as [Et|]; cbn [negb]; [|done]. intros [= -> -> <-].
    cbn. rewrite Hlim, Hdep, Hgd. repeat (split; [subst y0; cbn; lia || done|]).
    exists y0. rewrite Ef. done.
Qed.

(** ** Packed varints *)

#[local] Abbreviation packed vs := (concat (varint <$> vs)).

Lemma packed_cons (v : Z) (vs : list Z) : packed (v :: vs) = varint v ++ packed vs.
Proof. done. Qed.

Lemma packed_app (vs1 vs2 : list Z) : packed (vs1 ++ vs2) = packed vs1 ++ packed vs2.
Proof. by rewrite fmap_app, concat_app. Qed.

Lemma varint_length v : inU 64 v -> (1 <= length (varint v) <= 10)%nat.
Proof. intros Hv. pose proof (varint_size_bounds v Hv) as Hs. unfold varint_size in Hs. lia. Qed.

(** Reading up to [e]: the numbers that begin before it. *)
Lemma packed_array fuel m ptr e (vs out : list Z) :
  slow64_spec VarintParseSlow64 -> mem_ok m -> Forall (inU 64) vs -> reads m ptr (packed vs) ->
  (length vs < fuel)%nat -> e <= ptr + Z.of_nat (length (packed vs)) ->
  (vs = [] \/ ptr + Z.of_nat (length (packed (removelast vs))) < e) ->
  ReadPackedVarintArray VarintParseSlow64 fuel ptr e out m =
    (Some (ptr + Z.of_nat (length (packed vs))), out ++ vs).
Proof.
  intros Hs Hm Hv. revert fuel ptr out. induction Hv as [|v vs Hv Hvs IH]; intros fuel ptr out Hr Hfuel He Hlast;
    (destruct fuel as [|fuel]; [simpl in Hfuel; lia|]); cbn [ReadPackedVarintArray].
  - simpl in He. destruct (Z.ltb_spec ptr e); [lia|]. rewrite app_nil_r. simpl. by rewrite Z.add_0_r.
  - rewrite packed_cons in Hr, He. apply reads_app in Hr as [Hr1 Hr2]. rewrite length_app in He.
    pose proof (varint_length v Hv) as Hlen.
    destruct (Z.ltb_spec ptr e).
    2: { destruct Hlast as [?|Hlast]; [done|]. lia. }
    destruct (u64_varint v Hv) as (Hf & Hl & Hval).
    rewrite (VarintParse64_spec _ _ _ (varint v)) by done. rewrite Hval.
    rewrite (IH fuel (ptr + Z.of_nat (length (varint v))) (out ++ [v]) Hr2 ltac:(simpl in Hfuel; lia)).
    + rewrite packed_cons, length_app, <- app_assoc. do 2 f_equal. lia.
    + lia.
    + destruct vs as [|w vs]; [by left|right]. destruct Hlast as [?|Hlast]; [done|].
      change (removelast (v :: w :: vs)) with (v :: removelast (w :: vs)) in Hlast.
      rewrite packed_cons, length_app in Hlast. lia.
Qed.

(** The numbers split where the boundary is first reached. *)
Lemma packed_split (vs : list Z) (k : Z) :
  k <= Z.of_nat (length (packed vs)) ->
  exists vs1 vs2, vs = vs1 ++ vs2 /\ k <= Z.of_nat (length (packed vs1)) /\
    (vs1 = [] \/ Z.of_nat (length (packed (removelast vs1))) < k).
Proof.
  induction vs as [|v vs IH] using rev_ind; intros Hk; [exists [], []; by repeat split; [|left]|].
  destruct (Z.le_gt_cases k (Z.of_nat (length (packed vs)))) as [Hle|Hgt].
  - destruct (IH Hle) as (vs1 & vs2 & -> & H1' & H2'). exists vs1, (vs2 ++ [v]). by rewrite app_assoc.
  - exists (vs ++ [v]), []. rewrite app_nil_r. split; [done|]. split; [done|].
    right. rewrite removelast_last. lia.
Qed.

(** What the local array shows of the slop region. *)
Lemma slop_copy m a buf_addr n l :
  mem_ok m -> reads m (a + Z.of_nat n) l -> (n + length l <= 16)%nat ->
  let buf := mem (pokes (bytes_at m a 16 ++ replicate 10 0) (mkCursor buf_addr m)) in
  mem_ok buf /\ reads buf (buf_addr + Z.of_nat n) l.
Proof.
  intros Hm Hr Hn. cbn zeta. set (c := mkCursor buf_addr m).
  assert (Hb : Forall is_byte (bytes_at m a 16 ++ replicate 10 0)).
  { apply Forall_app. split; [by apply bytes_at_ok|by repeat constructor]. }
  split; [by apply pokes_ok|].
  pose proof (reads_pokes (bytes_at m a 16 ++ replicate 10 0) c) as Hp. revert Hp.
  generalize (mem (pokes (bytes_at m a 16 ++ replicate 10 0) c)). intros buf Hp.
  assert (E : bytes_at m a 16 = take n (bytes_at m a 16) ++ l ++ drop (n + length l) (bytes_at m a 16)).
  { rewrite <- (take_drop n (bytes_at m a 16)) at 1. f_equal.
    rewrite <- (take_drop (length l) (drop n (bytes_at m a 16))) at 1. rewrite drop_drop. f_equal.
    replace 16%nat with (n + (length l + (16 - n - length l)))%nat by lia.
    rewrite !bytes_at_app. unfold reads in Hr. rewrite Hr.
    rewrite drop_app_length' by (by rewrite bytes_at_length). by rewrite take_app_length. }
  rewrite E, <- !app_assoc in Hp. apply reads_app in Hp as [_ Hp]. rewrite length_take, bytes_at_length in Hp.
  replace (n `min` 16)%nat with n in Hp by lia. by apply reads_app in Hp as [Hp _].
Qed.

Context (Next : Ctx St -> option Z * Ctx St).

(** The last of the numbers begins before the end. *)
Lemma last_number (vs : list Z) (k : Z) :
  Forall (inU 64) vs -> Z.of_nat (length (packed vs)) <= k ->
  vs = [] \/ Z.of_nat (length (packed (removelast vs))) < k.
Proof.
  intros Hvs Hk. destruct vs as [|v vs] using rev_ind; [by left|right]. rewrite removelast_last.
  rewrite packed_app, length_app in Hk. apply Forall_app in Hvs as [_ Hv]. apply Forall_inv in Hv.
  pose proof (varint_length v Hv). rewrite packed_cons, length_app in Hk. lia.
Qed.

(** The numbers that begin in the chunk end in its slop region. *)
Lemma in_chunk (vs1 : list Z) (k : Z) :
  Forall (inU 64) vs1 -> vs1 = [] \/ Z.of_nat (length (packed (removelast vs1))) < k ->
  Z.of_nat (length (packed vs1)) <= Z.max 0 (k + 9).
Proof.
  intros Hvs Hlast. destruct vs1 as [|v vs1] using rev_ind; [simpl; lia|].
  destruct Hlast as [Hlast|Hlast]; [by destruct vs1|]. rewrite removelast_last in Hlast.
  apply Forall_app in Hvs as [_ Hv]. apply Forall_inv in Hv. pose proof (varint_length v Hv).
  rewrite packed_app, length_app, packed_cons, length_app. simpl. lia.
Qed.

Lemma packed_loop fuel buf_addr ptr vs out x :
  slow64_spec VarintParseSlow64 -> mem_ok (x_mem x) -> Forall (inU 64) vs -> (length vs < fuel)%nat ->
  reads (x_mem x) ptr (packed vs) -> Z.of_nat (length (packed vs)) <= in_buffer ptr x ->
  ReadPackedVarint_loop Next VarintParseSlow64 fuel buf_addr ptr (Z.of_nat (length (packed vs)))
    (x_buffer_end x - ptr) out x = (Some (ptr + Z.of_nat (length (packed vs))), out ++ vs, x).
Proof.
  intros Hs Hm Hvs Hfuel Hr Hin. destruct fuel as [|fuel]; [lia|]. cbn [ReadPackedVarint_loop].
  unfold in_buffer, kSlopBytes in *. destruct (Z.ltb_spec (x_buffer_end x - ptr) (Z.of_nat (length (packed vs)))) as [Hbig|Hsmall].
  - destruct (packed_split vs (x_buffer_end x - ptr) ltac:(lia)) as (vs1 & vs2 & -> & Hk & Hlast).
    rewrite packed_app, length_app in *. apply Forall_app in Hvs as [Hv1 Hv2]. apply reads_app in Hr as [Hr1 Hr2].
    rewrite (packed_array _ _ _ _ vs1) by (done || lia || (destruct Hlast; [by left|right; lia])).
    destruct (Z.leb_spec (Z.of_nat (length (packed vs1) + length (packed vs2)) - (x_buffer_end x - ptr)) 16); [|lia].
    set (overrun := ptr + Z.of_nat (length (packed vs1)) - x_buffer_end x).
    assert (Eo : overrun = Z.of_nat (Z.to_nat overrun)) by lia.
    destruct (slop_copy (x_mem x) (x_buffer_end x) buf_addr (Z.to_nat overrun) (packed vs2) Hm) as [Hbm Hbr].
    { replace (x_buffer_end x + Z.of_nat (Z.to_nat overrun)) with (ptr + Z.of_nat (length (packed vs1))) by lia. done. }
    { lia. }
    rewrite <- Eo in Hbr.
    rewrite (packed_array _ _ _ _ vs2); try done; try lia.
    + rewrite <- app_assoc. match goal with |- context [negb (?a =? ?b)] => replace a with b by lia end.
      rewrite Z.eqb_refl. cbn [negb]. do 3 f_equal. lia.
    + destruct (last_number vs2 _ Hv2 (Z.le_refl _)); [by left|right; lia].
  - rewrite (packed_array _ _ _ _ vs); try done; try lia.
    + by rewrite Z.eqb_refl.
    + destruct (last_number vs _ Hvs (Z.le_refl _)); [by left|right; lia].
Qed.

(** One chunk of a field that runs beyond the slop region: the numbers that
    begin in the chunk are read, and the rest is read from the next chunk, with
    less beyond its end. *)
Lemma packed_chunk fuel buf_addr ptr vs rest out x :
  slow64_spec VarintParseSlow64 -> Next_spec Next -> Forall (inU 64) vs -> (length vs < S fuel)%nat ->
  stream_view x ptr (packed vs ++ rest) -> in_buffer ptr x < Z.of_nat (length (packed vs)) ->
  exists vs1 vs2 p x', vs = vs1 ++ vs2 /\
    ReadPackedVarint_loop Next VarintParseSlow64 (S fuel) buf_addr ptr (Z.of_nat (length (packed vs)))
      (x_buffer_end x - ptr) out x =
    ReadPackedVarint_loop Next VarintParseSlow64 fuel buf_addr p (Z.of_nat (length (packed vs2)))
      (x_buffer_end x' - p) (out ++ vs1) x' /\
    stream_view x' p (packed vs2 ++ rest) /\ same_parse x x' /\
    Z.of_nat (length (packed vs2)) - in_buffer p x' < Z.of_nat (length (packed vs)) - in_buffer ptr x.
Proof.
  intros Hs Hnx Hvs Hfuel Hv Hbig. pose proof (sv_slop _ _ _ Hv) as Hslop. unfold in_buffer, kSlopBytes in Hbig, Hslop.
  destruct (packed_split vs (x_buffer_end x - ptr) ltac:(lia)) as (vs1 & vs2 & -> & Hk & Hlast).
  apply Forall_app in Hvs as [Hv1 Hv2]. pose proof (in_chunk vs1 _ Hv1 Hlast) as Hc.
  rewrite packed_app, length_app in *. rewrite <- app_assoc in Hv.
  assert (Hin : Z.of_nat (length (packed vs1)) <= in_buffer ptr x) by (unfold in_buffer, kSlopBytes; lia).
  pose proof (view_reads x ptr _ _ Hv Hin) as Hr. pose proof (view_advance x ptr _ _ Hv Hin) as Hv'.
  set (q := ptr + Z.of_nat (length (packed vs1))) in *.
  assert (Hq : x_buffer_end x <= q) by (unfold q; lia).
  assert (Hlim : kSlopBytes < x_limit x).
  { pose proof (sv_length _ _ _ Hv) as Hl. unfold BytesUntilLimit, kSlopBytes in *. rewrite !length_app in Hl. lia. }
  pose proof (view_back x q _ (x_buffer_end x) Hv' Hq) as Hend.
  destruct (Hnx x _ Hend Hlim) as (p & x' & En & Hvn & Hlt & Hsame).
  set (overrun := q - x_buffer_end x) in *. assert (Ho : 0 <= overrun <= 16) by (unfold overrun, q; lia).
  pose proof (view_advance x' p _ _ Hvn) as Hvo. rewrite bytes_at_length in Hvo.
  specialize (Hvo ltac:(unfold in_buffer, kSlopBytes; lia)). rewrite Z2Nat.id in Hvo by lia.
  exists vs1, vs2, (p + overrun), x'. split; [done|]. split; [|split; [done|split; [done|unfold in_buffer, overrun, q; lia]]].
  cbn [ReadPackedVarint_loop]. rewrite (proj2 (Z.ltb_lt (x_buffer_end x - ptr) _)) by lia.
  rewrite (packed_array _ _ _ _ vs1) by (done || apply (sv_mem _ _ _ Hv) || (rewrite length_app in Hfuel; lia) || lia ||
    (destruct Hlast; [by left|right; lia])).
  fold q. fold overrun. unfold kSlopBytes in *. rewrite (proj2 (Z.leb_gt _ _)), (proj2 (Z.leb_gt _ _)) by lia. rewrite En.
  f_equal. unfold overrun, q. lia.
Qed.

(** The whole field, over as many chunks as it takes. *)
Lemma packed_chunks fuel buf_addr ptr vs rest out x :
  slow64_spec VarintParseSlow64 -> Next_spec Next -> Forall (inU 64) vs ->
  Z.of_nat (length vs) + Z.max 0 (Z.of_nat (length (packed vs)) - in_buffer ptr x) < Z.of_nat fuel ->
  stream_view x ptr (packed vs ++ rest) ->
  exists p' x',
    ReadPackedVarint_loop Next VarintParseSlow64 fuel buf_addr ptr (Z.of_nat (length (packed vs)))
      (x_buffer_end x - ptr) out x = (Some p', out ++ vs, x') /\
    stream_view x' p' rest /\ same_parse x x' /\
    (Z.of_nat (length (packed vs)) <= in_buffer ptr x -> x' = x).
Proof.
  intros Hs Hnx. revert ptr vs out x. induction fuel as [|fuel IH]; intros ptr vs out x Hvs Hfuel Hv; [lia|].
  destruct (Z.le_gt_cases (Z.of_nat (length (packed vs))) (in_buffer ptr x)) as [Hle|Hgt].
  - eexists _, x. split; [|split; [by apply view_advance|done]].
    apply packed_loop; try done; [apply (sv_mem _ _ _ Hv)|lia|by eapply view_reads].
  - destruct (packed_chunk fuel buf_addr ptr vs rest out x Hs Hnx Hvs ltac:(lia) Hv Hgt)
      as (vs1 & vs2 & p & x1 & -> & -> & Hv1 & Hsame & Hless).
    apply Forall_app in Hvs as [_ Hvs2]. rewrite length_app in Hfuel.
    destruct (IH p vs2 (out ++ vs1) x1 Hvs2 ltac:(lia) Hv1) as (p' & x' & -> & Hv' & Hsame' & _).
    exists p', x'. rewrite <- app_assoc. split; [done|]. split; [done|]. split; [by etransitivity|lia].
Qed.

(** A packed field of varints is read exactly, wherever the chunks of the
    stream end, also when it is finished from the local copy of the slop
    region: the numbers are added in order, the size callback sees the byte
    count once, what follows the field comes next, and a field that the buffer
    and its slop region hold leaves the stream as it was.  The length of the
    field lies in the buffer or its slop region, as it does behind a tag that
    the parser has read. *)
Lemma packed_varints_read fuel buf_addr ptr (cb : Z -> U -> U) u out vs rest x :
  slow64_spec VarintParseSlow64 -> size_fallback_spec ReadSizeFallback -> Next_spec Next ->
  Forall (inU 64) vs -> (length vs + length (packed vs) < fuel)%nat ->
  Z.of_nat (length (packed vs)) < 2 ^ 31 - 16 ->
  let len := varint (Z.of_nat (length (packed vs))) in
  stream_view x ptr (len ++ packed vs ++ rest) -> Z.of_nat (length len) <= in_buffer ptr x ->
  exists p' x',
    ReadPackedVarint Next VarintParseSlow64 ReadSizeFallback fuel buf_addr ptr cb u out x
      = (Some p', cb (Z.of_nat (length (packed vs))) u, out ++ vs, x') /\
    stream_view x' p' rest /\ same_parse x x' /\
    (Z.of_nat (length (len ++ packed vs)) <= in_buffer ptr x -> x' = x).
Proof.
  intros Hs Hz Hnx Hvs Hfuel Hsize len Hv Hin. set (n := Z.of_nat (length (packed vs))) in *.
  assert (Hu : inU 32 n) by (unfold inU; lia).
  destruct (varint_32_form n Hu) as (Hf & Hl & Hval & _). fold len in Hf, Hl, Hval.
  pose proof (view_advance _ _ _ _ Hv Hin) as Hv1. pose proof (sv_slop _ _ _ Hv1) as Hslop.
  destruct (packed_chunks fuel buf_addr (ptr + Z.of_nat (length len)) vs rest out x Hs Hnx Hvs) as (p' & x' & E & Hv' & Hsame & Heq); [|exact Hv1|].
  { unfold in_buffer in *. lia. }
  exists p', x'. unfold ReadPackedVarint. rewrite (ReadSize_spec _ _ _ len); try done.
  - rewrite Hval, wrapS_id by (unfold inS; lia). unfold n. rewrite E. split; [done|]. split; [done|]. split; [done|].
    rewrite length_app. intros Hall. apply Heq. unfold in_buffer in *. lia.
  - apply (sv_mem _ _ _ Hv).
  - by eapply view_reads.
  - by rewrite Hval.
Qed.
End ctx_facts.

(** ** Concrete inputs *)

(** A stream that is a list of bytes: the fallbacks move what the buffer still
    holds and everything up to the limit into a new buffer. *)
Module Toy_ctx.
Abbreviation C := (Ctx bytes).
Implicit Types (x : C) (ptr : Z) (l : bytes).

Definition coming x : bytes := x_zcis x.

Definition flip ptr x : Z * C :=
  let more := take (Z.to_nat (x_limit x - kSlopBytes)) (x_zcis x) in
  let data := bytes_at (x_mem x) ptr (Z.to_nat (in_buffer ptr x)) ++ more in
  let a := x_patch x in
  let e := a + Z.of_nat (length data) in
  let limit := x_limit x - kSlopBytes - Z.of_nat (length more) in
  (a,
   mkCtx (mem (pokes data (mkCursor a (x_mem x)))) (e + Z.min 0 limit) e None 0 limit (x_last_tag_minus_1 x)
     (x_overall_limit x) (x_aliasing x) (x_depth x) (x_group_depth x) a []).

Lemma flip_data ptr x l :
  stream_view coming x ptr l ->
  bytes_at (x_mem x) ptr (Z.to_nat (in_buffer ptr x))
    ++ take (Z.to_nat (x_limit x - kSlopBytes)) (x_zcis x) = l
    ++ drop (length l) (bytes_at (x_mem x) ptr (Z.to_nat (in_buffer ptr x))).
Proof.
  intros [Hl Hs Hb Hc Hok He Hn Hm]. unfold BytesUntilLimit, coming in *.
  set (k := Z.to_nat (in_buffer ptr x)). assert (Hk : Z.of_nat k = in_buffer ptr x) by (unfold in_buffer in *; lia).
  apply list_eq. intros i. destruct (decide (i < k)%nat) as [Hi|Hi].
  - rewrite lookup_app_l by (by rewrite bytes_at_length). rewrite bytes_at_lookup by done.
    destruct (decide (i < length l)%nat) as [Hil|Hil].
    + rewrite lookup_app_l by done. destruct (lookup_lt_is_Some_2 l i Hil) as [b Hib]. rewrite Hib. f_equal.
      apply Hb; [done|lia].
    + rewrite lookup_app_r by lia. rewrite lookup_drop. replace (length l + (i - length l))%nat with i by lia.
      by rewrite bytes_at_lookup.
  - rewrite lookup_app_r by (rewrite bytes_at_length; lia). rewrite bytes_at_length.
    destruct (decide (i < length l)%nat) as [Hil|Hil].
    + rewrite lookup_app_l by done. destruct (lookup_lt_is_Some_2 l i Hil) as [b Hib]. rewrite Hib.
      rewrite lookup_take. rewrite decide_True by (unfold in_buffer, kSlopBytes in *; lia).
      apply (Hc i b Hib). lia.
    + rewrite (lookup_app_r l) by lia. rewrite lookup_take, decide_False by (unfold in_buffer, kSlopBytes in *; lia).
      symmetry. apply lookup_ge_None. rewrite length_drop, bytes_at_length. lia.
Qed.

Lemma flip_view ptr x l :
  stream_view coming x ptr l ->
  let '(p, x') := flip ptr x in
  stream_view coming x' p l /\ Z.of_nat (length l) + kSlopBytes <= in_buffer p x' /\
  (l <> [] -> p < x_limit_end x') /\ same_parse x x'.
Proof.
  intros Hv. pose proof (flip_data ptr x l Hv) as Hdata. unfold flip.
  set (more := take _ (x_zcis x)) in *. set (k := Z.to_nat (in_buffer ptr x)) in *.
  set (data := bytes_at (x_mem x) ptr k ++ more) in *.
  destruct Hv as [Hl Hs Hb Hc Hok He Hn Hm]. unfold BytesUntilLimit in Hl.
  assert (Hk : Z.of_nat k = in_buffer ptr x) by (unfold in_buffer in *; lia).
  assert (Hlen : length data = (k + length more)%nat) by (unfold data; by rewrite length_app, bytes_at_length).
  assert (Hge : (length l <= length data)%nat) by (rewrite Hdata, length_app; lia).
  unfold in_buffer, kSlopBytes in *.
  assert (Hd : Forall is_byte data).
  { rewrite Hdata. apply Forall_app. split; [done|]. apply Forall_drop. by apply bytes_at_ok. }
  pose proof (reads_pokes data (mkCursor (x_patch x) (x_mem x))) as Hr. cbn [Varint.ptr] in Hr.
  assert (Hne : l <> [] -> (0 < length l)%nat) by (destruct l; simpl; [done|lia]).
  split; [split|split; [|split]]; unfold BytesUntilLimit, in_buffer, kSlopBytes; cbn [x_limit x_buffer_end x_limit_end x_next_chunk x_mem];
    try done; try lia.
  - intros i b Hi _. pose proof (lookup_lt_Some _ _ _ Hi) as Hlt. unfold reads in Hr.
    assert (Hdi : data !! i = Some b) by (rewrite Hdata; by apply lookup_app_l_Some).
    rewrite <- Hr, bytes_at_lookup in Hdi by lia. by injection Hdi.
  - intros i b Hi Hge'. pose proof (lookup_lt_Some _ _ _ Hi). lia.
  - by apply pokes_ok.
  - intros Hpos%Hne. lia.
Qed.

Definition done_fallback (overrun d : Z) x : (option Z * bool) * C :=
  let '(p, x) := flip (x_buffer_end x + overrun) x in ((Some p, false), x).
Definition append_fallback ptr size (s : bytes) x : option Z * bytes * C :=
  let '(p, x) := flip ptr x in (Some (p + size), s ++ bytes_at (x_mem x) p (Z.to_nat size), x).
Definition size_fallback (m : memory) (p res : Z) : option Z * Z :=
  match ParseBigVarint m p with Some (p', v) => (Some p', v) | None => (None, 0) end.

Lemma done_fallback_ok : DoneFallback_spec coming done_fallback.
Proof.
  intros x ptr d l Hv Hne Hge. unfold done_fallback.
  replace (x_buffer_end x + (ptr - x_buffer_end x)) with ptr by lia.
  pose proof (flip_view ptr x l Hv) as Hf. destruct (flip ptr x) as [p x']. destruct Hf as (Hv' & _ & Hlt & Hsame).
  exists p, x'. auto.
Qed.

Lemma append_fallback_ok : AppendStringFallback_spec coming append_fallback.
Proof.
  intros x ptr s l1 l2 Hv Hge. unfold append_fallback.
  pose proof (flip_view ptr x _ Hv) as Hf. destruct (flip ptr x) as [p x']. destruct Hf as (Hv' & Hin & _ & Hsame).
  rewrite length_app in Hin. unfold kSlopBytes in Hin.
  exists (p + Z.of_nat (length l1)), x'. split; [|split; [apply view_advance; [done|lia]|done]].
  pose proof (view_reads coming x' p l1 l2 Hv' ltac:(lia)) as Hr. unfold reads in Hr. by rewrite Nat2Z.id, Hr.
Qed.

Definition next_chunk x : option Z * C := let '(p, x) := flip (x_buffer_end x) x in (Some p, x).

Lemma next_chunk_ok : Next_spec coming next_chunk.
Proof.
  intros x l Hv Hlim. unfold next_chunk. pose proof (flip_view (x_buffer_end x) x l Hv) as Hf.
  destruct (flip (x_buffer_end x) x) as [p x']. destruct Hf as (Hv' & Hin & _ & Hsame).
  exists p, x'. split_and!; try done. pose proof (sv_length _ _ _ _ Hv) as Hl.
  unfold BytesUntilLimit, in_buffer, kSlopBytes in *. lia.
Qed.

Lemma size_fallback_ok : size_fallback_spec size_fallback.
Proof.
  intros m p l Hm Hf Hl Hr Hv. unfold size_fallback. rewrite (ParseBigVarint_spec m p l) by (done || lia).
  f_equal. apply wrapU_id. pose proof (varint_value_nonneg l). unfold inU. lia.
Qed.

(** A number, a text longer than the slop region, and a fixed-width number. *)
Definition fields : list wfield :=
  [FVarint 1 300; FLen 2 (le_bytes 24 0x414243); FFixed32 3 0xDEADBEEF].
Definition input : cursor := pokes (concat (wf_bytes <$> fields)) (mkCursor 1000 ∅).

Lemma fields_ok : Forall wf_ok fields.
Proof. repeat constructor; unfold valid_field, inU; vm_compute; done. Qed.

Lemma fields_bytes : Forall (fun f => match f with FLen _ s => Forall is_byte s | _ => True end) fields.
Proof. unfold fields. rewrite !Forall_cons. repeat split; [apply le_bytes_byte|constructor]. Qed.

Lemma input_ok : mem_ok (mem input).
Proof.
  apply pokes_ok; [|apply empty_ok]. vm_compute concat. repeat constructor; done.
Qed.

(** Three packed numbers whose last byte lies behind the end of the buffer. *)
Definition packed_input : cursor :=
  pokes (varint 6 ++ concat (varint <$> [3; 270; 86942])) (mkCursor 1000 ∅).
Definition packed_ctx : C :=
  mkCtx (mem packed_input) 1004 1004 (Some 5000) 0 3 0 0 kNoAliasing 100 INT_MIN 5000 [].

Lemma numbers_ok : Forall (inU 64) [3; 270; 86942].
Proof. unfold inU. repeat (constructor; [lia|]). constructor. Qed.

Lemma packed_view :
  stream_view coming packed_ctx 1000 (varint 6 ++ concat (varint <$> [3; 270; 86942]) ++ []).
Proof.
  split; try done.
  - intros i b Hi _. do 7 (destruct i as [|i]; [vm_compute in Hi |- *; congruence|]). by destruct i.
  - intros i b Hi Hge. apply lookup_lt_Some in Hi. change (in_buffer 1000 packed_ctx) with 20 in Hge. change (length _) with 7%nat in Hi. lia.
  - repeat constructor; done.
  - apply pokes_ok; [|apply empty_ok]. repeat constructor; done.
Qed.

(** Twenty-five numbers, most of which lie in the next chunk. *)
Definition long_numbers : list Z := 3 :: 270 :: 86942 :: replicate 22 7.
Definition long_field : bytes := varint 28 ++ concat (varint <$> long_numbers).
Definition long_ctx : C :=
  mkCtx (mem (pokes (take 20 long_field) (mkCursor 1000 ∅))) 1004 1004 (Some 5000) 0 25 0 0 kNoAliasing 100 INT_MIN 5000
    (drop 20 long_field).

Lemma long_ok : Forall (inU 64) long_numbers.
Proof.
  unfold long_numbers, inU. do 3 (constructor; [lia|]). apply Forall_replicate. lia.
Qed.

Lemma long_view : stream_view coming long_ctx 1000 (varint 28 ++ concat (varint <$> long_numbers) ++ []).
Proof.
  rewrite app_nil_r. change (varint 28 ++ concat (varint <$> long_numbers)) with long_field.
  assert (Hok : Forall is_byte long_field) by (apply (bool_decide_unpack _); vm_compute; exact I).
  split; try done.
  - intros i b Hi Hin. change (in_buffer 1000 long_ctx) with 20 in Hin.
    do 20 (destruct i as [|i]; [vm_compute in Hi |- *; congruence|]). lia.
  - intros i b Hi Hge. change (in_buffer 1000 long_ctx) with 20 in *. change (coming long_ctx) with (drop 20 long_field).
    rewrite lookup_drop. by replace (20 + (i - Z.to_nat 20))%nat with i by lia.
  - apply pokes_ok; [|apply empty_ok]. by apply Forall_take.
Qed.

(** A nested parser that goes to the limit. *)
Definition to_limit (ptr : Z) (u : Z) x : option Z * Z * C := (Some (ptr + BytesUntilLimit ptr x), u + 1, x).

Lemma to_limit_balanced : balanced to_limit.
Proof. by intros q v y q' v' y' [= <- <- <-]. Qed.
End Toy_ctx.

Lemma wire_parser_roundtrip_witness :
  exists p x p' x',
    ParseContext_new 100 false (mem Toy_ctx.input) 5000 ([] : bytes) 1000 34 = (p, x) /\
    WireFormatParser Toy_ctx.done_fallback Toy_varint.slow64 Toy_varint.tag_fallback 4
      (keep Toy_ctx.append_fallback Toy_ctx.size_fallback) (Some p) [] x = Ret (Some p', Toy_ctx.fields, x') /\
    BytesUntilLimit p' x' = 0 /\ EndedAtLimit x' = true /\ depth x' = 100 /\ x_group_depth x' = INT_MIN.
Proof.
  exact (wire_parser_roundtrip Toy_ctx.coming Toy_ctx.append_fallback Toy_ctx.done_fallback
    Toy_varint.slow64 Toy_varint.tag_fallback Toy_ctx.size_fallback
    Toy_ctx.fields 4 100 false (mem Toy_ctx.input) 5000 [] 1000
    Toy_ctx.done_fallback_ok Toy_ctx.append_fallback_ok Toy_varint.slow64_ok Toy_varint.tag_fallback_ok
    Toy_ctx.size_fallback_ok Toy_ctx.fields_ok Toy_ctx.fields_bytes Toy_ctx.input_ok
    (reads_pokes _ _) ltac:(cbn; lia)).
Defined.

(** A field that the local copy of the slop region finishes. *)
Lemma packed_varints_read_witness :
  exists p' x',
    ReadPackedVarint Toy_ctx.next_chunk Toy_varint.slow64 Toy_ctx.size_fallback 10 9000 1000
      (fun n u => n + u) 0 [] Toy_ctx.packed_ctx = (Some p', 6, [3; 270; 86942], x') /\ x' = Toy_ctx.packed_ctx.
Proof.
  destruct (packed_varints_read Toy_ctx.coming Toy_varint.slow64 Toy_ctx.size_fallback Toy_ctx.next_chunk
    10 9000 1000 (fun n u => n + u) 0 [] [3; 270; 86942] [] Toy_ctx.packed_ctx
    Toy_varint.slow64_ok Toy_ctx.size_fallback_ok Toy_ctx.next_chunk_ok
    Toy_ctx.numbers_ok ltac:(vm_compute; lia) eq_refl Toy_ctx.packed_view ltac:(vm_compute; discriminate))
    as (p' & x' & E & _ & _ & Hx). exists p', x'. split; [exact E|]. apply Hx. vm_compute. discriminate.
Defined.

Lemma nesting_balanced_witness :
  ParseLengthDelimitedInlined Toy_ctx.size_fallback Toy_ctx.to_limit 1000 0 Toy_ctx.packed_ctx
    = (Some 1007, 1, Toy_ctx.packed_ctx) /\
  x_limit Toy_ctx.packed_ctx = 3.
Proof.
  split; [vm_compute; reflexivity|].
  exact (proj1 (proj1 (nesting_balanced Toy_ctx.size_fallback Toy_ctx.to_limit 1000 0 0 Toy_ctx.packed_ctx
    Toy_ctx.to_limit_balanced eq_refl) 1007 1 Toy_ctx.packed_ctx eq_refl)).
Defined.
