(* ===== verification/RepeatedField.v ===== *)
(** * The array behind a repeated field ([google/protobuf/repeated_field.h])

    [RepeatedField<Element>]: a growing array that keeps the arena it was
    created with.  The array is a list of slots, where [None] is memory that
    holds no element; an index is a [Z] and what C++ leaves undefined - a slot
    outside the array, an element that was never written, an overflowing
    [int] - is [UB].  The build is the release build, without debug checks. *)

From S2P Require Import Prelude.
Local Open Scope Z_scope.
Local Open Scope list_scope.

(** ** Capacities *)

Definition int_max : Z := 2 ^ 31 - 1.

(** [a + b] in [int]. *)
Definition int_add (a b : Z) : outcome Z := if a + b <=? int_max then Ret (a + b) else UB.

(** [AllocateAtLeast] of the release build: [operator new] with that size. *)
Definition AllocateAtLeast (size : Z) : Z := size.

Section sizes.
(** [sizeof(Element)]. *)
Context (size_of : Z).

(** The header is a pointer or an element, aligned to eight bytes. *)
Definition kRepHeaderSize : Z := (Z.max 8 size_of + 7) / 8 * 8.
Definition RepeatedFieldLowerClampLimit : Z := kRepHeaderSize / size_of.

Definition CalculateReserveSize (total_size new_size : Z) : Z :=
  let lower_limit := RepeatedFieldLowerClampLimit in
  if new_size <? lower_limit then lower_limit
  else
    let kMaxSizeBeforeClamp := (int_max - kRepHeaderSize) / 2 in
    if kMaxSizeBeforeClamp <? total_size then int_max
    else
      let doubled_size := 2 * total_size + kRepHeaderSize / size_of in
      Z.max doubled_size new_size.
End sizes.

(** ** The class *)

(** [arena_or_elements_]: the arena while there is no array, else the elements,
    behind a header with the arena.  [None] is the null pointer. *)
Inductive store (T : Type) :=
| Arena_ptr (arena : option Z)
| Elements (arena : option Z) (slots : list (option T)).
Arguments Arena_ptr {T} _.
Arguments Elements {T} _ _.

Record RepeatedField (T : Type) := mkField {
  current_size : Z;
  total_size : Z;
  arena_or_elements : store T;
}.
Arguments mkField {T} _ _ _.
Arguments current_size {T} _.
Arguments total_size {T} _.
Arguments arena_or_elements {T} _.

Section field.
Context {T : Type} (size_of : Z).
Implicit Types (f g other : RepeatedField T) (v : T) (l : list T).

(** [rep()->arena] and the elements, as [rep()] and [elements()] find them. *)
Definition rep_arena f : option Z := match arena_or_elements f with Elements a _ => a | Arena_ptr _ => None end.
Definition elements f : list (option T) := match arena_or_elements f with Elements _ s => s | Arena_ptr _ => [] end.
Definition set_elements (s : list (option T)) f : RepeatedField T :=
  match arena_or_elements f with
  | Elements a _ => mkField (current_size f) (total_size f) (Elements a s)
  | Arena_ptr _ => f
  end.

Definition GetOwningArena f : option Z :=
  if total_size f =? 0 then match arena_or_elements f with Arena_ptr a => a | Elements _ _ => None end
  else rep_arena f.

Definition with_size (n : Z) f : RepeatedField T := mkField n (total_size f) (arena_or_elements f).

(** The elements in use. *)
Definition in_use f : list (option T) := take (Z.to_nat (current_size f)) (elements f).

(** [new (elements() + i) Element(v)], and [n] of them from [i]. *)
Definition store_slots (i : Z) (s : list (option T)) f : outcome (RepeatedField T) :=
  if (0 <=? i) && (i + Z.of_nat (length s) <=? Z.of_nat (length (elements f)))
  then Ret (set_elements (list_inserts (Z.to_nat i) s (elements f)) f) else UB.

(** The slots a smaller size leaves behind are "uninitialized" memory. *)
Definition forget (from : Z) (s : list (option T)) : list (option T) :=
  take (Z.to_nat from) s ++ replicate (length s - Z.to_nat from) None.

(** [ExchangeCurrentSize], which returns the previous size. *)
Definition ExchangeCurrentSize (new_size : Z) f : Z * RepeatedField T :=
  let prev_size := current_size f in
  let f := if new_size <? prev_size then set_elements (forget new_size (elements f)) f else f in
  (prev_size, with_size new_size f).

(** The constructors: empty, on an arena. *)
Definition RepeatedField_new (arena : option Z) : RepeatedField T := mkField 0 0 (Arena_ptr arena).

(** The old array is released; what it holds is moved. *)
Definition GrowNoAnnotate (cur new_size : Z) f : RepeatedField T :=
  let arena := GetOwningArena f in
  let new_size := CalculateReserveSize size_of (total_size f) new_size in
  let bytes := kRepHeaderSize size_of + size_of * new_size in
  let new_size :=
    if decide (arena = None)
    then Z.min ((AllocateAtLeast bytes - kRepHeaderSize size_of) / size_of) int_max
    else new_size in
  let moved := if (0 <? total_size f) && (0 <? cur) then take (Z.to_nat cur) (elements f) else [] in
  mkField (current_size f) new_size
    (Elements arena (moved ++ replicate (Z.to_nat new_size - length moved) None)).
Definition Grow (cur new_size : Z) f : RepeatedField T := GrowNoAnnotate cur new_size f.

Definition rf_Reserve (new_size : Z) f : RepeatedField T :=
  if total_size f <? new_size then Grow (current_size f) new_size f else f.
Definition rf_empty f : bool := current_size f =? 0.
Definition rf_size f : Z := current_size f.
Definition rf_Capacity f : Z := total_size f.

(** Reading and writing one element; [at] tests the index. *)
Definition rf_Get (index : Z) f : outcome T :=
  if 0 <=? index then match elements f !! Z.to_nat index with Some (Some v) => Ret v | _ => UB end else UB.
Definition rf_at (index : Z) f : outcome T :=
  if index <? 0 then Throw fatal_message
  else if current_size f <=? index then Throw fatal_message
  else rf_Get index f.
Definition rf_Set (index : Z) v f : outcome (RepeatedField T) := store_slots index [Some v] f.

Definition AddAlreadyReserved v f : outcome (RepeatedField T) :=
  do n <- int_add (current_size f) 1;
  let '(i, f) := ExchangeCurrentSize n f in
  store_slots i [Some v] f.
(** Numbers made without a value are not initialised. *)
Definition AddAlreadyReserved_uninit f : outcome (RepeatedField T) :=
  do n <- int_add (current_size f) 1;
  let '(i, f) := ExchangeCurrentSize n f in
  store_slots i [None] f.
Definition AddNAlreadyReserved (n : Z) f : outcome (RepeatedField T) :=
  if n <? 0 then UB
  else
    do m <- int_add (current_size f) n;
    let '(i, f) := ExchangeCurrentSize m f in
    store_slots i (replicate (Z.to_nat n) None) f.

Definition rf_Add v f : outcome (RepeatedField T) :=
  do f <- (if current_size f =? total_size f
           then do n <- int_add (current_size f) 1; Ret (Grow (current_size f) n f) else Ret f);
  do new_size <- int_add (current_size f) 1;
  let '(i, f) := ExchangeCurrentSize new_size f in
  store_slots i [Some v] f.

(** [Add()], whose caller writes the element. *)
Definition rf_Add_uninit f : outcome (RepeatedField T) :=
  do f <- (if current_size f =? total_size f
           then do n <- int_add (current_size f) 1; Ret (Grow (current_size f) n f) else Ret f);
  do new_size <- int_add (current_size f) 1;
  let '(i, f) := ExchangeCurrentSize new_size f in
  store_slots i [None] f.

Definition AddForwardIterator (l : list T) f : outcome (RepeatedField T) :=
  do new_size <- int_add (current_size f) (Z.of_nat (length l));
  let f := if total_size f <? new_size then Grow (current_size f) new_size f else f in
  let '(i, f) := ExchangeCurrentSize new_size f in
  store_slots i (Some <$> l) f.

(** The loop of [AddInputIterator]: [first] is a position in the array, and
    the size is set at the end. *)
Fixpoint input_loop (l : list T) (first : Z) f : outcome (Z * RepeatedField T) :=
  match l with
  | [] => Ret (first, f)
  | v :: l =>
      do f <- (if first =? total_size f
               then do n <- int_add first 1; Ret (GrowNoAnnotate first n f) else Ret f);
      do f <- store_slots first [Some v] f;
      input_loop l (first + 1) f
  end.
Definition AddInputIterator (l : list T) f : outcome (RepeatedField T) :=
  do (first, f) <- input_loop l (current_size f) f;
  Ret (with_size first f).
Definition rf_Add_range (forward : bool) (l : list T) f : outcome (RepeatedField T) :=
  if forward then AddForwardIterator l f else AddInputIterator l f.

Definition rf_Truncate (new_size : Z) f : RepeatedField T :=
  if new_size <? current_size f then (ExchangeCurrentSize new_size f).2 else f.
Definition rf_RemoveLast f : outcome (RepeatedField T) :=
  if current_size f <=? 0 then UB else Ret (ExchangeCurrentSize (current_size f - 1) f).2.
Definition rf_Clear f : RepeatedField T := (ExchangeCurrentSize 0 f).2.

Definition rf_Resize (new_size : Z) v f : outcome (RepeatedField T) :=
  if new_size <? 0 then UB
  else if current_size f <? new_size then
    let f := if total_size f <? new_size then Grow (current_size f) new_size f else f in
    let '(first, f) := ExchangeCurrentSize new_size f in
    store_slots first (replicate (Z.to_nat (current_size f - first)) (Some v)) f
  else if new_size <? current_size f then Ret (ExchangeCurrentSize new_size f).2
  else Ret f.

(** The two loops of [ExtractSubrange], by the number of rounds left. *)
Fixpoint extract_loop (n : nat) (i : Z) f : outcome (list T) :=
  match n with
  | O => Ret []
  | S n => do v <- rf_Get i f; do l <- extract_loop n (i + 1) f; Ret (v :: l)
  end.
Fixpoint shift_loop (n : nat) (num i : Z) f : outcome (RepeatedField T) :=
  match n with
  | O => Ret f
  | S n => do v <- rf_Get i f; do f <- rf_Set (i - num) v f; shift_loop n num (i + 1) f
  end.
(** [wanted] tells that [elements] is not null. *)
Definition ExtractSubrange (start num : Z) (wanted : bool) f : outcome (list T * RepeatedField T) :=
  do out <- (if wanted then extract_loop (Z.to_nat num) start f else Ret []);
  if 0 <? num then
    do f <- shift_loop (Z.to_nat (current_size f - (start + num))) num (start + num) f;
    Ret (out, rf_Truncate (current_size f - num) f)
  else Ret (out, f).

(** [erase] of the positions from [first] to [last]; the position returned is
    [first]. *)
Definition rf_erase_range (first last : Z) f : outcome (Z * RepeatedField T) :=
  if first =? last then Ret (first, f)
  else if (last <? first) || (current_size f <? last) then UB
  else
    let moved := drop (Z.to_nat last) (in_use f) in
    do f <- store_slots first moved f;
    Ret (first, rf_Truncate (first + Z.of_nat (length moved)) f).
Definition rf_erase (position : Z) f : outcome (Z * RepeatedField T) := rf_erase_range position (position + 1) f.

Definition rf_SwapElements (index1 index2 : Z) f : outcome (RepeatedField T) :=
  do v1 <- rf_Get index1 f;
  do v2 <- rf_Get index2 f;
  do f <- rf_Set index1 v2 f;
  rf_Set index2 v1 f.

(** ** Two fields *)

Definition rf_MergeFrom other f : outcome (RepeatedField T) :=
  if current_size other =? 0 then Ret f
  else
    do n <- int_add (current_size f) (current_size other);
    let f := rf_Reserve n f in
    let '(i, f) := ExchangeCurrentSize n f in
    store_slots i (in_use other) f.

(** [same] tells that both are one object. *)
Definition rf_CopyFrom (same : bool) other f : outcome (RepeatedField T) :=
  if same then Ret f else rf_MergeFrom other (rf_Clear f).
Definition rf_assign (same : bool) other f : outcome (RepeatedField T) :=
  if same then Ret f else rf_CopyFrom false other f.

Definition RepeatedField_copy (arena : option Z) (rhs : RepeatedField T) : outcome (RepeatedField T) :=
  let f := RepeatedField_new arena in
  if current_size rhs =? 0 then Ret f
  else
    let f := Grow 0 (current_size rhs) f in
    let '(_, f) := ExchangeCurrentSize (current_size rhs) f in
    store_slots 0 (in_use rhs) f.
Definition RepeatedField_range (forward : bool) (l : list T) : outcome (RepeatedField T) :=
  rf_Add_range forward l (RepeatedField_new None).
Definition rf_Assign_range (forward : bool) (l : list T) f : outcome (RepeatedField T) :=
  rf_Add_range forward l (rf_Clear f).

Definition rf_InternalSwap f other : RepeatedField T * RepeatedField T := (other, f).

(** [Swap]: this field and the other one afterwards. *)
Definition rf_Swap (same : bool) f other : outcome (RepeatedField T * RepeatedField T) :=
  if same then Ret (f, other)
  else if decide (GetOwningArena f = GetOwningArena other) then Ret (rf_InternalSwap f other)
  else
    do temp <- rf_MergeFrom f (RepeatedField_new (GetOwningArena other));
    do f <- rf_CopyFrom false other f;
    Ret (f, temp).

(** The move constructor and the move assignment: the new field, and what is
    left of the other one. *)
Definition RepeatedField_move other : outcome (RepeatedField T * RepeatedField T) :=
  let f := RepeatedField_new None in
  if decide (GetOwningArena other = None) then Ret (rf_InternalSwap f other)
  else do f <- rf_CopyFrom false other f; Ret (f, other).
Definition rf_move_assign (same : bool) other f : outcome (RepeatedField T * RepeatedField T) :=
  if same then Ret (f, other)
  else if decide (GetOwningArena f = GetOwningArena other) then Ret (rf_InternalSwap f other)
  else do f <- rf_CopyFrom false other f; Ret (f, other).

Definition SpaceUsedExcludingSelfLong f : Z :=
  if 0 <? total_size f then total_size f * size_of + kRepHeaderSize size_of else 0.
End field.

(** ** Facts *)

Lemma header_spec (size_of : Z) :
  0 < size_of -> 8 <= kRepHeaderSize size_of /\ size_of <= kRepHeaderSize size_of /\
  1 <= kRepHeaderSize size_of / size_of <= 15.
Proof.
  intros Hs. unfold kRepHeaderSize. pose proof (Z_div_mod_eq_full (Z.max 8 size_of + 7) 8) as Hd.
  pose proof (Z.mod_pos_bound (Z.max 8 size_of + 7) 8 ltac:(lia)) as Hm.
  set (h := (Z.max 8 size_of + 7) / 8 * 8) in *. assert (8 <= h /\ size_of <= h <= Z.max 8 size_of + 7) by lia.
  split; [lia|]. split; [lia|]. split; [apply Z.div_le_lower_bound; lia|].
  apply Z.lt_succ_r, Z.div_lt_upper_bound; lia.
Qed.

(** The new capacity is enough, an [int], and at least twice the old one until
    that overflows; no step of the computation overflows. *)
Lemma reserve_size (size_of total new_size : Z) :
  0 < size_of -> 0 <= total < new_size -> new_size <= int_max ->
  total = 0 \/ RepeatedFieldLowerClampLimit size_of <= total ->
  let c := CalculateReserveSize size_of total new_size in
  new_size <= c <= int_max /\ RepeatedFieldLowerClampLimit size_of <= c /\ (2 * total <= c \/ c = int_max).
Proof.
  intros Hs Ht Hn Hlow. destruct (header_spec size_of Hs) as (H1 & H2 & H3).
  unfold CalculateReserveSize, RepeatedFieldLowerClampLimit in *. cbv zeta.
  destruct (Z.ltb_spec new_size (kRepHeaderSize size_of / size_of)) as [Hl|Hl].
  { unfold int_max in *. lia. }
  destruct (Z.ltb_spec ((int_max - kRepHeaderSize size_of) / 2) total) as [Hc|Hc].
  { unfold int_max in *. lia. }
  assert (2 * total <= int_max - kRepHeaderSize size_of).
  { pose proof (Z.mul_div_le (int_max - kRepHeaderSize size_of) 2). lia. }
  assert (kRepHeaderSize size_of / size_of <= kRepHeaderSize size_of).
  { apply Z.div_le_upper_bound; [lia|]. nia. }
  unfold int_max in *. lia.
Qed.

Lemma inserts_split {A} c (s l : list A) :
  (c + length s <= length l)%nat -> list_inserts c s l = take c l ++ s ++ drop (c + length s) l.
Proof.
  intros Hl. rewrite <- (take_drop c l) at 1. replace c with (length (take c l) + 0)%nat at 1 by (rewrite length_take; lia).
  rewrite list_inserts_app_r. f_equal. rewrite <- (take_drop (length s) (drop c l)) at 1.
  rewrite list_inserts_0_r by (rewrite length_take, length_drop; lia). by rewrite drop_drop.
Qed.

Section facts.
Context {T : Type} (size_of : Z) (Hsize : 0 < size_of).
Implicit Types (f g other : RepeatedField T) (v : T) (l : list (option T)).

(** The representation invariant: the sizes are [int]s in order, and the store
    is an array of [total_size] slots, or the arena when that is zero. *)
Definition rep_ok f : Prop :=
  0 <= current_size f <= total_size f /\ total_size f <= int_max /\
  Z.of_nat (length (elements f)) = total_size f /\
  match arena_or_elements f with
  | Arena_ptr _ => total_size f = 0
  | Elements _ _ => RepeatedFieldLowerClampLimit size_of <= total_size f
  end.

(** [f'] has the elements [l], on the same arena and with no less room. *)
Definition becomes f f' l : Prop :=
  rep_ok f' /\ in_use f' = l /\ GetOwningArena f' = GetOwningArena f /\ total_size f <= total_size f'.

Lemma new_ok a : rep_ok (RepeatedField_new (T := T) a) /\ in_use (RepeatedField_new (T := T) a) = [] /\
  GetOwningArena (RepeatedField_new (T := T) a) = a.
Proof. unfold rep_ok, int_max. simpl. split; [lia|]. by split. Qed.

Lemma in_use_length f : rep_ok f -> Z.of_nat (length (in_use f)) = current_size f.
Proof. intros (H1 & H2 & H3 & _). unfold in_use. rewrite length_take. lia. Qed.

Lemma lower_pos : 1 <= RepeatedFieldLowerClampLimit size_of.
Proof. destruct (header_spec size_of Hsize) as (_ & _ & ?). unfold RepeatedFieldLowerClampLimit. lia. Qed.

Lemma arena_of f :
  rep_ok f -> GetOwningArena f = match arena_or_elements f with Arena_ptr a | Elements a _ => a end.
Proof.
  intros (H1 & H2 & H3 & H4). unfold GetOwningArena, rep_arena. pose proof lower_pos.
  destruct (arena_or_elements f); [by rewrite H4|]. by destruct (Z.eqb_spec (total_size f) 0); [lia|].
Qed.

Lemma becomes_refl f : rep_ok f -> becomes f f (in_use f).
Proof. intros Hf. unfold becomes. by split_and!. Qed.

Lemma becomes_trans f1 f2 f3 l1 l2 : becomes f1 f2 l1 -> becomes f2 f3 l2 -> becomes f1 f3 l2.
Proof. intros (A1 & A2 & A3 & A4) (B1 & B2 & B3 & B4). unfold becomes. split_and!; try done; [congruence|lia]. Qed.

(** Growing keeps the elements and makes room. *)
Lemma Grow_spec new_size f :
  rep_ok f -> total_size f < new_size -> new_size <= int_max ->
  becomes f (Grow size_of (current_size f) new_size f) (in_use f) /\
  total_size (Grow size_of (current_size f) new_size f) = CalculateReserveSize size_of (total_size f) new_size /\
  new_size <= total_size (Grow size_of (current_size f) new_size f) /\
  current_size (Grow size_of (current_size f) new_size f) = current_size f.
Proof.
  intros Hf Ht Hn. pose proof Hf as (H1 & H2 & H3 & H4). pose proof lower_pos.
  destruct (reserve_size size_of (total_size f) new_size Hsize ltac:(lia) Hn) as ([Hc1 Hc2] & Hc3 & _).
  { destruct (arena_or_elements f); [by left|by right]. }
  set (c := CalculateReserveSize size_of (total_size f) new_size) in *.
  assert (Ea : (if decide (GetOwningArena f = None)
    then Z.min ((AllocateAtLeast (kRepHeaderSize size_of + size_of * c) - kRepHeaderSize size_of) / size_of) int_max
    else c) = c).
  { destruct (decide _); [|done]. unfold AllocateAtLeast.
    replace (kRepHeaderSize size_of + size_of * c - kRepHeaderSize size_of) with (c * size_of) by lia.
    rewrite Z.div_mul by lia. lia. }
  unfold Grow, GrowNoAnnotate. fold c. rewrite Ea. simpl.
  set (moved := if (0 <? total_size f) && (0 <? current_size f)
    then take (Z.to_nat (current_size f)) (elements f) else []).
  assert (Em : moved = in_use f).
  { unfold moved, in_use. destruct (Z.ltb_spec 0 (total_size f)); simpl;
      [destruct (Z.ltb_spec 0 (current_size f)); [done|]|];
      (replace (Z.to_nat (current_size f)) with 0%nat by lia; done). }
  clearbody moved. subst moved. pose proof (in_use_length f Hf) as Hlen.
  split; [|by split_and!]. unfold becomes.
  assert (Hok : rep_ok (mkField (current_size f) c (Elements (GetOwningArena f)
    (in_use f ++ replicate (Z.to_nat c - length (in_use f)) None)))).
  { unfold rep_ok, elements. simpl. rewrite length_app, length_replicate. split_and!; try lia. }
  split; [done|]. split; [|split; [by rewrite arena_of|simpl; lia]].
  unfold in_use at 1, elements. simpl. rewrite take_app_le by lia. apply take_ge. lia.
Qed.

Lemma elements_set s f :
  length s = length (elements f) -> elements (set_elements s f) = s /\
  current_size (set_elements s f) = current_size f /\ total_size (set_elements s f) = total_size f /\
  (rep_ok f -> rep_ok (set_elements s f) /\ GetOwningArena (set_elements s f) = GetOwningArena f).
Proof.
  intros Hl. assert (He : elements (set_elements s f) = s /\
    current_size (set_elements s f) = current_size f /\ total_size (set_elements s f) = total_size f).
  { unfold set_elements, elements in *. destruct (arena_or_elements f) eqn:E; simpl in *; [|done].
    rewrite E. split_and!; [|done..]. by destruct s. }
  destruct He as (E1 & E2 & E3). split_and!; try done. intros (H1 & H2 & H3 & H4).
  assert (Hok : rep_ok (set_elements s f)).
  { unfold rep_ok. rewrite E1, E2, E3, Hl. split_and!; try done; try lia.
    unfold set_elements. by destruct (arena_or_elements f) eqn:E; simpl; [rewrite E|]. }
  split; [done|]. rewrite !arena_of by done. unfold set_elements.
  by destruct (arena_or_elements f) eqn:E; simpl; [rewrite E|].
Qed.

Lemma resize_ok n f :
  rep_ok f -> 0 <= n <= total_size f ->
  rep_ok (with_size n f) /\
  GetOwningArena (with_size n f) = GetOwningArena f.
Proof.
  intros (H1 & H2 & H3 & H4) Hn. split; [|done]. unfold rep_ok, elements in *. simpl. by split_and!; try lia.
Qed.

Lemma forget_length n (s : list (option T)) : 0 <= n <= Z.of_nat (length s) -> length (forget n s) = length s.
Proof. intros Hn. unfold forget. rewrite length_app, length_take, length_replicate. lia. Qed.

(** Shrinking keeps the first elements. *)
Lemma shrink_spec n f :
  rep_ok f -> 0 <= n <= current_size f ->
  becomes f (ExchangeCurrentSize n f).2 (take (Z.to_nat n) (in_use f)) /\
  current_size (ExchangeCurrentSize n f).2 = n /\ total_size (ExchangeCurrentSize n f).2 = total_size f.
Proof.
  intros Hf Hn. pose proof Hf as (H1 & H2 & H3 & _). unfold ExchangeCurrentSize. simpl.
  set (g := if n <? current_size f then set_elements (forget n (elements f)) f else f).
  assert (Hg : rep_ok g /\ GetOwningArena g = GetOwningArena f /\ total_size g = total_size f /\
    take (Z.to_nat n) (elements g) = take (Z.to_nat n) (elements f)).
  { subst g. destruct (Z.ltb_spec n (current_size f)); [|done].
    destruct (elements_set (forget n (elements f)) f (forget_length n (elements f) ltac:(lia))) as (E1 & E2 & E3 & E4).
    destruct (E4 Hf) as [E5 E6]. split_and!; try done. rewrite E1. unfold forget.
    rewrite take_app_le by (rewrite length_take; lia). rewrite take_take. f_equal. lia. }
  destruct Hg as (G1 & G2 & G3 & G4). rewrite <- G3.
  destruct (resize_ok n g G1 ltac:(lia)) as [R1 R2].
  split; [|done]. split; [done|]. split; [|split; [by rewrite R2|simpl; lia]].
  unfold in_use, elements in *. simpl. rewrite G4, take_take. f_equal. lia.
Qed.

(** Writing behind the elements in use, where there is room. *)
Lemma append_spec s f :
  rep_ok f -> current_size f + Z.of_nat (length s) <= total_size f ->
  exists f', (let '(i, f) := ExchangeCurrentSize (current_size f + Z.of_nat (length s)) f in store_slots i s f) = Ret f' /\
    becomes f f' (in_use f ++ s) /\ total_size f' = total_size f.
Proof.
  intros Hf Hr. pose proof Hf as (H1 & H2 & H3 & _). unfold ExchangeCurrentSize.
  destruct (Z.ltb_spec (current_size f + Z.of_nat (length s)) (current_size f)); [lia|].
  destruct (resize_ok (current_size f + Z.of_nat (length s)) f Hf ltac:(lia)) as [R1 R2].
  set (g := with_size _ _) in *. assert (Eg : elements g = elements f) by done.
  unfold store_slots. rewrite Eg. rewrite (proj2 (Z.leb_le 0 _)) by lia.
  rewrite (proj2 (Z.leb_le _ _)) by lia. simpl. eexists. split; [reflexivity|].
  destruct (elements_set (list_inserts (Z.to_nat (current_size f)) s (elements f)) g) as (E1 & E2 & E3 & E4).
  { by rewrite length_inserts. }
  destruct (E4 R1) as [E5 E6]. split; [|by rewrite E3].
  split; [done|]. split; [|split; [by rewrite E6|rewrite E3; simpl; lia]].
  unfold in_use. rewrite E1, E2, inserts_split, app_assoc by lia. simpl.
  rewrite take_app_le by (rewrite length_app, length_take; lia).
  apply take_ge. rewrite length_app, length_take. lia.
Qed.

(** Writing inside the elements in use. *)
Lemma write_spec i s f :
  rep_ok f -> 0 <= i -> i + Z.of_nat (length s) <= current_size f ->
  exists f', store_slots i s f = Ret f' /\ becomes f f' (list_inserts (Z.to_nat i) s (in_use f)) /\
    current_size f' = current_size f.
Proof.
  intros Hf Hi Hr. pose proof Hf as (H1 & H2 & H3 & _). unfold store_slots.
  rewrite (proj2 (Z.leb_le 0 i)), (proj2 (Z.leb_le _ _)) by lia. eexists. split; [reflexivity|].
  destruct (elements_set (list_inserts (Z.to_nat i) s (elements f)) f) as (E1 & E2 & E3 & E4).
  { by rewrite length_inserts. }
  destruct (E4 Hf) as [E5 E6]. split; [|done]. split; [done|]. split; [|split; [done|lia]].
  unfold in_use. rewrite E1, E2, !inserts_split by (rewrite ?length_take; lia).
  rewrite take_take, Nat.min_l by lia.
  rewrite !app_assoc, take_app_ge by (rewrite length_app, length_take; lia). f_equal.
  rewrite length_app, length_take, skipn_firstn_comm. f_equal. lia.
Qed.

(** Room for [n] more elements: grow when they do not fit. *)
Lemma grow_if_spec n f :
  rep_ok f -> current_size f + n <= int_max ->
  becomes f (rf_Reserve size_of (current_size f + n) f) (in_use f) /\
  current_size (rf_Reserve size_of (current_size f + n) f) = current_size f /\
  current_size f + n <= total_size (rf_Reserve size_of (current_size f + n) f).
Proof.
  intros Hf Hn. unfold rf_Reserve. destruct (Z.ltb_spec (total_size f) (current_size f + n)).
  - destruct (Grow_spec (current_size f + n) f Hf ltac:(lia) Hn) as (B & _ & C & D). by split_and!.
  - split; [by apply becomes_refl|]. by split.
Qed.

Lemma int_add_Ret a b : a + b <= int_max -> int_add a b = Ret (a + b).
Proof. intros Hl. unfold int_add. by rewrite (proj2 (Z.leb_le _ _)) by lia. Qed.

(** The test of [Add] is the test of [Reserve]. *)
Lemma add_room f :
  rep_ok f -> current_size f + 1 <= int_max ->
  (if current_size f =? total_size f
   then do n <- int_add (current_size f) 1; Ret (Grow size_of (current_size f) n f) else Ret f) =
  Ret (rf_Reserve size_of (current_size f + 1) f).
Proof.
  intros (H1 & H2 & _) Hn. rewrite int_add_Ret by done. unfold rf_Reserve. simpl.
  destruct (Z.eqb_spec (current_size f) (total_size f)), (Z.ltb_spec (total_size f) (current_size f + 1)); [done|lia|lia|done].
Qed.

(** Appending after making room. *)
Lemma reserve_append s f :
  rep_ok f -> current_size f + Z.of_nat (length s) <= int_max ->
  exists f', (let '(i, f) := ExchangeCurrentSize (current_size f + Z.of_nat (length s))
                (rf_Reserve size_of (current_size f + Z.of_nat (length s)) f) in store_slots i s f) = Ret f' /\
    becomes f f' (in_use f ++ s) /\
    total_size f' = total_size (rf_Reserve size_of (current_size f + Z.of_nat (length s)) f).
Proof.
  intros Hf Hn. destruct (grow_if_spec (Z.of_nat (length s)) f Hf Hn) as (B & C & D).
  set (g := rf_Reserve size_of (current_size f + Z.of_nat (length s)) f) in *.
  destruct (append_spec s g ltac:(apply B) ltac:(lia)) as (f' & E & F & G). rewrite C in E.
  exists f'. split; [exact E|]. split; [|exact G]. rewrite (proj1 (proj2 B)) in F. by eapply becomes_trans.
Qed.

Lemma rf_Add_spec v f :
  rep_ok f -> current_size f + 1 <= int_max ->
  exists f', rf_Add size_of v f = Ret f' /\ becomes f f' (in_use f ++ [Some v]) /\
    total_size f' = total_size (rf_Reserve size_of (current_size f + 1) f).
Proof.
  intros Hf Hn. destruct (reserve_append [Some v] f Hf Hn) as (f' & E & F). exists f'. split; [|exact F].
  unfold rf_Add. rewrite add_room by done. cbn [obind].
  destruct (grow_if_spec 1 f Hf Hn) as (_ & C & _). rewrite C, int_add_Ret by done. exact E.
Qed.

Lemma rf_Add_uninit_spec f :
  rep_ok f -> current_size f + 1 <= int_max ->
  exists f', rf_Add_uninit size_of f = Ret f' /\ becomes f f' (in_use f ++ [None]).
Proof.
  intros Hf Hn. destruct (reserve_append [None] f Hf Hn) as (f' & E & F & _). exists f'. split; [|exact F].
  unfold rf_Add_uninit. rewrite add_room by done. cbn [obind].
  destruct (grow_if_spec 1 f Hf Hn) as (_ & C & _). rewrite C, int_add_Ret by done. exact E.
Qed.

Lemma AddNAlreadyReserved_spec n f :
  rep_ok f -> 0 <= n -> current_size f + n <= total_size f ->
  exists f', AddNAlreadyReserved n f = Ret f' /\ becomes f f' (in_use f ++ replicate (Z.to_nat n) None) /\
    total_size f' = total_size f.
Proof.
  intros Hf Hn Hr. pose proof Hf as (_ & H2 & _).
  destruct (append_spec (replicate (Z.to_nat n) None) f Hf) as (f' & E & F).
  { rewrite length_replicate. lia. }
  rewrite length_replicate, Z2Nat.id in E by lia. exists f'. split; [|exact F].
  unfold AddNAlreadyReserved. destruct (Z.ltb_spec n 0); [lia|]. by rewrite int_add_Ret by lia.
Qed.

Lemma AddAlreadyReserved_spec v f :
  rep_ok f -> current_size f < total_size f ->
  exists f', AddAlreadyReserved v f = Ret f' /\ becomes f f' (in_use f ++ [Some v]) /\ total_size f' = total_size f.
Proof.
  intros Hf Hr. pose proof Hf as (_ & H2 & _).
  destruct (append_spec [Some v] f Hf ltac:(simpl; lia)) as (f' & E & F). exists f'. split; [|exact F].
  unfold AddAlreadyReserved. by rewrite int_add_Ret by lia.
Qed.

Lemma AddForwardIterator_spec (l : list T) f :
  rep_ok f -> current_size f + Z.of_nat (length l) <= int_max ->
  exists f', AddForwardIterator size_of l f = Ret f' /\ becomes f f' (in_use f ++ (Some <$> l)).
Proof.
  intros Hf Hn. destruct (reserve_append (Some <$> l) f Hf) as (f' & E & F & _).
  { by rewrite length_fmap. }
  rewrite length_fmap in E. exists f'. split; [|exact F]. unfold AddForwardIterator.
  rewrite int_add_Ret by done. exact E.
Qed.

Lemma store_slots_size n i s f :
  store_slots i s (with_size n f) = (do f <- store_slots i s f; Ret (with_size n f)).
Proof.
  unfold store_slots. change (elements (with_size n f)) with (elements f).
  destruct (_ && _); [|done]. simpl. unfold set_elements, with_size. simpl.
  by destruct (arena_or_elements f) eqn:E; simpl; rewrite ?E.
Qed.

(** The loop of [AddInputIterator] is a sequence of [Add]s, with a size that
    is written back once. *)
Lemma input_loop_adds (l : list T) first f :
  rep_ok (with_size first f) -> first + Z.of_nat (length l) <= int_max ->
  (do (first, f) <- input_loop size_of l first f; Ret (with_size first f)) =
  ofold (rf_Add size_of) l (with_size first f).
Proof.
  revert first f. induction l as [|v l IH]; intros first f Hf Hn; [done|]. cbn [length] in Hn.
  destruct (rf_Add_spec v (with_size first f) Hf ltac:(simpl; lia)) as (f1 & E & F & _).
  cbn [ofold]. rewrite E. cbn [obind]. unfold rf_Add in E. rewrite add_room in E by (done || simpl; lia).
  cbn [obind] in E. cbn [input_loop].
  assert (Eg : (if first =? total_size f then do n <- int_add first 1; Ret (GrowNoAnnotate size_of first n f) else Ret f)
    = Ret (if first =? total_size f then GrowNoAnnotate size_of first (first + 1) f else f)).
  { rewrite int_add_Ret by lia. by destruct (first =? total_size f). }
  rewrite Eg. cbn [obind]. set (g := if first =? total_size f then _ else f) in *.
  assert (Er : rf_Reserve size_of (current_size (with_size first f) + 1) (with_size first f) = with_size first g).
  { pose proof Hf as (H1 & _). simpl in H1. unfold rf_Reserve, g. simpl.
    destruct (Z.ltb_spec (total_size f) (first + 1)), (Z.eqb_spec first (total_size f)); (done || lia). }
  rewrite Er in E. simpl in E. rewrite int_add_Ret in E by lia. cbn [obind] in E. unfold ExchangeCurrentSize in E.
  simpl in E. rewrite (proj2 (Z.ltb_ge (first + 1) first)) in E by lia.
  change (with_size (first + 1) (with_size first g)) with (with_size (first + 1) g) in E.
  rewrite store_slots_size in E. destruct (store_slots first [Some v] g) as [g'| |] eqn:Es; [|done..].
  injection E as <-. cbn [obind]. apply IH; [apply F|lia].
Qed.

Lemma rf_Add_all (l : list T) f :
  rep_ok f -> current_size f + Z.of_nat (length l) <= int_max ->
  exists f', ofold (rf_Add size_of) l f = Ret f' /\ becomes f f' (in_use f ++ (Some <$> l)).
Proof.
  revert f. induction l as [|v l IH]; intros f Hf Hn; csimpl.
  - exists f. split; [done|]. rewrite app_nil_r. by apply becomes_refl.
  - cbn [length] in Hn. destruct (rf_Add_spec v f Hf ltac:(lia)) as (f1 & E & F & _). rewrite E. cbn [obind].
    pose proof (in_use_length f1 (proj1 F)) as Hl. rewrite (proj1 (proj2 F)), length_app, Nat2Z.inj_add in Hl.
    pose proof (in_use_length f Hf). simpl in Hl.
    destruct (IH f1 (proj1 F) ltac:(lia)) as (f2 & E2 & F2). exists f2. split; [done|].
    rewrite (proj1 (proj2 F)), <- app_assoc in F2. by eapply becomes_trans.
Qed.

Lemma rf_Add_range_spec forward (l : list T) f :
  rep_ok f -> current_size f + Z.of_nat (length l) <= int_max ->
  exists f', rf_Add_range size_of forward l f = Ret f' /\ becomes f f' (in_use f ++ (Some <$> l)).
Proof.
  intros Hf Hn. destruct forward; [by apply AddForwardIterator_spec|]. unfold rf_Add_range, AddInputIterator.
  assert (Ef : with_size (current_size f) f = f) by (by destruct f).
  rewrite input_loop_adds by (by rewrite ?Ef). rewrite Ef. by apply rf_Add_all.
Qed.

Lemma rf_Get_in_use i f :
  rep_ok f -> 0 <= i < current_size f ->
  rf_Get i f = match in_use f !! Z.to_nat i with Some (Some v) => Ret v | _ => UB end.
Proof.
  intros Hf Hi. unfold rf_Get, in_use. rewrite (proj2 (Z.leb_le 0 i)) by lia. by rewrite lookup_take_lt by lia.
Qed.

Lemma rf_Set_spec i v f :
  rep_ok f -> 0 <= i < current_size f ->
  exists f', rf_Set i v f = Ret f' /\ becomes f f' (<[Z.to_nat i := Some v]> (in_use f)) /\
    current_size f' = current_size f.
Proof. intros Hf Hi. apply (write_spec i [Some v]); [done|lia|simpl; lia]. Qed.

Lemma rf_Truncate_spec n f :
  rep_ok f -> 0 <= n -> becomes f (rf_Truncate n f) (take (Z.to_nat n) (in_use f)).
Proof.
  intros Hf Hn. unfold rf_Truncate. destruct (Z.ltb_spec n (current_size f)).
  - apply shrink_spec; [done|lia].
  - rewrite take_ge; [by apply becomes_refl|]. pose proof (in_use_length f Hf). lia.
Qed.

Lemma rf_Resize_spec n v f :
  rep_ok f -> 0 <= n <= int_max ->
  exists f', rf_Resize size_of n v f = Ret f' /\
    becomes f f' (take (Z.to_nat n) (in_use f) ++ replicate (Z.to_nat n - length (in_use f)) (Some v)).
Proof.
  intros Hf Hn. pose proof (in_use_length f Hf) as Hl. unfold rf_Resize. destruct (Z.ltb_spec n 0); [lia|].
  destruct (Z.ltb_spec (current_size f) n) as [Hlt|Hge].
  - destruct (reserve_append (replicate (Z.to_nat (n - current_size f)) (Some v)) f Hf) as (f' & E & F & _).
    { rewrite length_replicate. lia. }
    rewrite length_replicate in E. rewrite Z2Nat.id, Z.add_sub_assoc, Z.add_simpl_l in E by lia.
    exists f'. rewrite take_ge by lia.
    replace (Z.to_nat n - length (in_use f))%nat with (Z.to_nat (n - current_size f)) by lia. split; [|exact F].
    rewrite <- E. unfold rf_Reserve, ExchangeCurrentSize. simpl. set (g := if total_size f <? n then _ else f).
    assert (Ec : current_size g = current_size f) by (unfold g; by destruct (total_size f <? n)). by rewrite Ec.
  - replace (Z.to_nat n - length (in_use f))%nat with 0%nat by lia. rewrite app_nil_r.
    destruct (Z.ltb_spec n (current_size f)).
    + eexists. split; [reflexivity|]. apply shrink_spec; [done|lia].
    + exists f. split; [done|]. rewrite take_ge by lia. by apply becomes_refl.
Qed.

(** The loops of [ExtractSubrange]. *)
Lemma extract_loop_spec n i f :
  rep_ok f -> 0 <= i -> i + Z.of_nat n <= current_size f -> Forall is_Some (take n (drop (Z.to_nat i) (in_use f))) ->
  exists out, extract_loop n i f = Ret out /\ Some <$> out = take n (drop (Z.to_nat i) (in_use f)).
Proof.
  intros Hf. revert i. induction n as [|n IH]; intros i Hi Hr Hs; [by exists []|].
  pose proof (in_use_length f Hf) as Hl.
  destruct (lookup_lt_is_Some_2 (in_use f) (Z.to_nat i) ltac:(lia)) as [x Hx].
  rewrite (drop_S _ _ _ Hx) in Hs |- *. cbn [take] in Hs |- *. apply Forall_cons in Hs as [[v ->] Hs].
  cbn [extract_loop]. rewrite rf_Get_in_use, Hx by (done || lia). cbn [obind].
  destruct (IH (i + 1) ltac:(lia) ltac:(lia)) as (out & E & F).
  { by replace (Z.to_nat (i + 1)) with (S (Z.to_nat i)) by lia. }
  rewrite E. exists (v :: out). split; [done|]. csimpl. rewrite F.
  by replace (Z.to_nat (i + 1)) with (S (Z.to_nat i)) by lia.
Qed.

Lemma shift_loop_spec n num i f :
  rep_ok f -> 0 < num <= i -> i + Z.of_nat n <= current_size f ->
  Forall is_Some (take n (drop (Z.to_nat i) (in_use f))) ->
  exists f', shift_loop n num i f = Ret f' /\
    becomes f f' (list_inserts (Z.to_nat (i - num)) (take n (drop (Z.to_nat i) (in_use f))) (in_use f)) /\
    current_size f' = current_size f.
Proof.
  revert i f. induction n as [|n IH]; intros i f Hf Hi Hr Hs.
  - exists f. split; [done|]. by split; [apply becomes_refl|].
  - pose proof (in_use_length f Hf) as Hl.
    destruct (lookup_lt_is_Some_2 (in_use f) (Z.to_nat i) ltac:(lia)) as [x Hx].
    rewrite (drop_S _ _ _ Hx) in Hs |- *. cbn [take list_inserts] in Hs |- *. apply Forall_cons in Hs as [[v ->] Hs].
    cbn [shift_loop]. rewrite rf_Get_in_use, Hx by (done || lia). cbn [obind].
    destruct (rf_Set_spec (i - num) v f Hf ltac:(lia)) as (f1 & E & F & G). rewrite E. cbn [obind].
    replace (S (Z.to_nat i)) with (Z.to_nat (i + 1)) in * by lia.
    assert (Ed : drop (Z.to_nat (i + 1)) (in_use f1) = drop (Z.to_nat (i + 1)) (in_use f)).
    { rewrite (proj1 (proj2 F)). apply drop_insert_lt. lia. }
    destruct (IH (i + 1) f1 (proj1 F) ltac:(lia) ltac:(lia)) as (f2 & E2 & F2 & G2); [by rewrite Ed|].
    exists f2. split; [done|]. split; [|by rewrite G2]. rewrite Ed, (proj1 (proj2 F)) in F2.
    replace (Z.to_nat (i + 1 - num)) with (S (Z.to_nat (i - num))) in F2 by lia.
    rewrite <- list_insert_inserts_lt in F2 by lia. by eapply becomes_trans.
Qed.

Lemma ExtractSubrange_spec start num wanted f :
  rep_ok f -> 0 <= start -> 0 <= num -> start + num <= current_size f ->
  Forall is_Some (drop (Z.to_nat start) (in_use f)) ->
  exists out f', ExtractSubrange start num wanted f = Ret (out, f') /\
    becomes f f' (take (Z.to_nat start) (in_use f) ++ drop (Z.to_nat (start + num)) (in_use f)) /\
    (wanted = true -> Some <$> out = take (Z.to_nat num) (drop (Z.to_nat start) (in_use f))).
Proof.
  intros Hf Hs Hn Hr Ha. pose proof (in_use_length f Hf) as Hl. unfold ExtractSubrange.
  assert (Ho : exists out, (if wanted then extract_loop (Z.to_nat num) start f else Ret []) = Ret out /\
    (wanted = true -> Some <$> out = take (Z.to_nat num) (drop (Z.to_nat start) (in_use f)))).
  { destruct wanted; [|by exists []].
    destruct (extract_loop_spec (Z.to_nat num) start f Hf Hs ltac:(lia)) as (out & E & F); [by apply Forall_take|].
    by exists out. }
  destruct Ho as (out & -> & Ho). cbn [obind]. destruct (Z.ltb_spec 0 num).
  - destruct (shift_loop_spec (Z.to_nat (current_size f - (start + num))) num (start + num) f Hf ltac:(lia) ltac:(lia))
      as (f1 & E & F & G).
    { apply Forall_take. replace (Z.to_nat (start + num)) with (Z.to_nat start + Z.to_nat num)%nat by lia.
      rewrite <- drop_drop. by apply Forall_drop. }
    rewrite E. cbn [obind]. exists out, (rf_Truncate (current_size f1 - num) f1). split; [done|]. split; [|done].
    pose proof (rf_Truncate_spec (current_size f1 - num) f1 (proj1 F) ltac:(lia)) as Ht.
    eapply becomes_trans; [exact F|]. rewrite (proj1 (proj2 F)) in Ht.
    rewrite inserts_split in Ht by (rewrite length_take, length_drop; lia).
    rewrite (take_ge (drop _ _)) in Ht by (rewrite length_drop; lia).
    replace (Z.to_nat (start + num - num)) with (Z.to_nat start) in Ht by lia.
    rewrite app_assoc, take_app_le in Ht by (rewrite length_app, length_take, length_drop; lia).
    by rewrite take_ge in Ht by (rewrite length_app, length_take, length_drop; lia).
  - exists out, f. split; [done|]. split; [|done]. replace num with 0 by lia. rewrite Z.add_0_r, take_drop.
    by apply becomes_refl.
Qed.

Lemma rf_erase_range_spec a b f :
  rep_ok f -> 0 <= a <= b -> b <= current_size f ->
  exists f', rf_erase_range a b f = Ret (a, f') /\
    becomes f f' (take (Z.to_nat a) (in_use f) ++ drop (Z.to_nat b) (in_use f)).
Proof.
  intros Hf Ha Hb. pose proof (in_use_length f Hf) as Hl. unfold rf_erase_range. destruct (Z.eqb_spec a b) as [->|Hne].
  { exists f. rewrite take_drop. split; [done|by apply becomes_refl]. }
  rewrite (proj2 (Z.ltb_ge b a)), (proj2 (Z.ltb_ge (current_size f) b)) by lia. simpl.
  destruct (write_spec a (drop (Z.to_nat b) (in_use f)) f Hf ltac:(lia)) as (f1 & E & F & G).
  { rewrite length_drop. lia. }
  rewrite E. cbn [obind]. eexists. split; [reflexivity|].
  pose proof (rf_Truncate_spec (a + Z.of_nat (length (drop (Z.to_nat b) (in_use f)))) f1 (proj1 F) ltac:(lia)) as Ht.
  eapply becomes_trans; [exact F|]. rewrite (proj1 (proj2 F)), inserts_split in Ht by (rewrite length_drop; lia).
  rewrite app_assoc, take_app_le in Ht by (rewrite length_app, length_take, length_drop; lia).
  by rewrite take_ge in Ht by (rewrite length_app, length_take, length_drop; lia).
Qed.

Lemma rf_MergeFrom_spec other f :
  rep_ok f -> rep_ok other -> current_size f + current_size other <= int_max ->
  exists f', rf_MergeFrom size_of other f = Ret f' /\ becomes f f' (in_use f ++ in_use other).
Proof.
  intros Hf Ho Hn. pose proof (in_use_length other Ho) as Hl. unfold rf_MergeFrom.
  destruct (Z.eqb_spec (current_size other) 0) as [E0|Hne].
  - exists f. split; [done|]. assert (in_use other = []) as -> by (apply length_zero_iff_nil; lia).
    rewrite app_nil_r. by apply becomes_refl.
  - rewrite int_add_Ret by done. cbn [obind]. rewrite <- Hl in Hn |- *.
    destruct (reserve_append (in_use other) f Hf Hn) as (f' & E & F & _). by exists f'.
Qed.

Lemma rf_Clear_spec f : rep_ok f -> becomes f (rf_Clear f) [] /\ current_size (rf_Clear f) = 0.
Proof.
  intros Hf. pose proof Hf as (H1 & _). destruct (shrink_spec 0 f Hf ltac:(lia)) as (A & B & _). by split.
Qed.

Lemma rf_CopyFrom_spec other f :
  rep_ok f -> rep_ok other ->
  exists f', rf_CopyFrom size_of false other f = Ret f' /\ becomes f f' (in_use other).
Proof.
  intros Hf Ho. destruct (rf_Clear_spec f Hf) as [A B]. pose proof Ho as (H1 & H2 & _).
  destruct (rf_MergeFrom_spec other (rf_Clear f) (proj1 A) Ho ltac:(lia)) as (f' & E & F).
  exists f'. split; [exact E|]. rewrite (proj1 (proj2 A)) in F. by eapply becomes_trans.
Qed.

Lemma rf_Swap_elements i j f a b :
  rep_ok f -> 0 <= i < current_size f -> 0 <= j < current_size f ->
  in_use f !! Z.to_nat i = Some (Some a) -> in_use f !! Z.to_nat j = Some (Some b) ->
  exists f', rf_SwapElements i j f = Ret f' /\
    becomes f f' (<[Z.to_nat j := Some a]> (<[Z.to_nat i := Some b]> (in_use f))).
Proof.
  intros Hf Hi Hj Ea Eb. unfold rf_SwapElements. rewrite !rf_Get_in_use, Ea, Eb by done. cbn [obind].
  destruct (rf_Set_spec i b f Hf Hi) as (f1 & E & F & G). rewrite E. cbn [obind].
  destruct (rf_Set_spec j a f1 (proj1 F) ltac:(lia)) as (f2 & E2 & F2 & _).
  exists f2. split; [done|]. rewrite (proj1 (proj2 F)) in F2. by eapply becomes_trans.
Qed.

(** ** The field as a list *)

(** What a caller can do with one field; [other] is a different object unless
    [same] is set. *)
Inductive rf_op :=
| R_Add (v : T)
| R_Add_uninit
| R_Reserved (v : T)
| R_ReservedN (n : Z)
| R_Range (forward : bool) (l : list T)
| R_Assign (forward : bool) (l : list T)
| R_Reserve (n : Z)
| R_Set (i : Z) (v : T)
| R_SwapElements (i j : Z)
| R_Truncate (n : Z)
| R_RemoveLast
| R_Clear
| R_Resize (n : Z) (v : T)
| R_Extract (start num : Z) (wanted : bool)
| R_Erase (first last : Z)
| R_Merge (other : RepeatedField T)
| R_Copy (same : bool) (other : RepeatedField T).

Definition run_rf (w : rf_op) f : outcome (RepeatedField T) :=
  match w with
  | R_Add v => rf_Add size_of v f
  | R_Add_uninit => rf_Add_uninit size_of f
  | R_Reserved v => AddAlreadyReserved v f
  | R_ReservedN n => AddNAlreadyReserved n f
  | R_Range forward l => rf_Add_range size_of forward l f
  | R_Assign forward l => rf_Assign_range size_of forward l f
  | R_Reserve n => Ret (rf_Reserve size_of n f)
  | R_Set i v => rf_Set i v f
  | R_SwapElements i j => rf_SwapElements i j f
  | R_Truncate n => Ret (rf_Truncate n f)
  | R_RemoveLast => rf_RemoveLast f
  | R_Clear => Ret (rf_Clear f)
  | R_Resize n v => rf_Resize size_of n v f
  | R_Extract start num wanted => do r <- ExtractSubrange start num wanted f; Ret r.2
  | R_Erase first last => do r <- rf_erase_range first last f; Ret r.2
  | R_Merge other => rf_MergeFrom size_of other f
  | R_Copy same other => rf_assign size_of same other f
  end.

(** The same on lists. *)
Definition spec_rf (w : rf_op) l : list (option T) :=
  match w with
  | R_Add v | R_Reserved v => l ++ [Some v]
  | R_Add_uninit => l ++ [None]
  | R_ReservedN n => l ++ replicate (Z.to_nat n) None
  | R_Range _ vs => l ++ (Some <$> vs)
  | R_Assign _ vs => Some <$> vs
  | R_Reserve _ => l
  | R_Set i v => <[Z.to_nat i := Some v]> l
  | R_SwapElements i j =>
      match l !! Z.to_nat i, l !! Z.to_nat j with
      | Some a, Some b => <[Z.to_nat j := a]> (<[Z.to_nat i := b]> l)
      | _, _ => l
      end
  | R_Truncate n => take (Z.to_nat n) l
  | R_RemoveLast => take (length l - 1) l
  | R_Clear => []
  | R_Resize n v => take (Z.to_nat n) l ++ replicate (Z.to_nat n - length l) (Some v)
  | R_Extract start num _ => take (Z.to_nat start) l ++ drop (Z.to_nat (start + num)) l
  | R_Erase first last => take (Z.to_nat first) l ++ drop (Z.to_nat last) l
  | R_Merge other => l ++ in_use other
  | R_Copy same other => if same then l else in_use other
  end.

(** Indices in range, sizes that fit in an [int], room where it is promised,
    and no read of an element that was never written. *)
Definition rf_pre (w : rf_op) f : Prop :=
  let n := current_size f in
  match w with
  | R_Add _ | R_Add_uninit => n + 1 <= int_max
  | R_Reserved _ => n < total_size f
  | R_ReservedN m => 0 <= m /\ n + m <= total_size f
  | R_Range _ l => n + Z.of_nat (length l) <= int_max
  | R_Assign _ l => Z.of_nat (length l) <= int_max
  | R_Reserve m => m <= int_max
  | R_Set i _ => 0 <= i < n
  | R_SwapElements i j =>
      0 <= i < n /\ 0 <= j < n /\ exists a b, in_use f !! Z.to_nat i = Some (Some a) /\ in_use f !! Z.to_nat j = Some (Some b)
  | R_Truncate m => 0 <= m
  | R_RemoveLast => 0 < n
  | R_Clear => True
  | R_Resize m _ => 0 <= m <= int_max
  | R_Extract start num _ =>
      0 <= start /\ 0 <= num /\ start + num <= n /\ Forall is_Some (drop (Z.to_nat start) (in_use f))
  | R_Erase first last => 0 <= first <= last /\ last <= n
  | R_Merge other => rep_ok other /\ n + current_size other <= int_max
  | R_Copy _ other => rep_ok other
  end.

(** C33: [RepeatedField] implements a list: on a field that satisfies the
    representation invariant every operation, called as its documentation
    demands, is defined, does to the elements what the list operation does,
    keeps the invariant and the arena, and never gives back room; [at] finds
    every element and stops the program on every other index. *)
Theorem field_is_list w f :
  rep_ok f -> rf_pre w f ->
  exists f', run_rf w f = Ret f' /\ rep_ok f' /\ in_use f' = spec_rf w (in_use f) /\
    GetOwningArena f' = GetOwningArena f /\ total_size f <= total_size f' /\
    forall i, rf_at i f' =
      if (0 <=? i) && (i <? rf_size f')
      then match in_use f' !! Z.to_nat i with Some (Some v) => Ret v | _ => UB end
      else Throw fatal_message.
Proof.
  intros Hf Hp. assert (Hr : exists f', run_rf w f = Ret f' /\ becomes f f' (spec_rf w (in_use f))).
  { destruct w as [v| |v|n|fw l|fw l|n|i v|i j|n| | |n v|st n wd|a b|other|same other]; simpl in Hp |- *.
    - destruct (rf_Add_spec v f Hf Hp) as (f' & E & F & _). by exists f'.
    - by apply rf_Add_uninit_spec.
    - destruct (AddAlreadyReserved_spec v f Hf Hp) as (f' & E & F & _). by exists f'.
    - destruct (AddNAlreadyReserved_spec n f Hf (proj1 Hp) (proj2 Hp)) as (f' & E & F & _). by exists f'.
    - by apply rf_Add_range_spec.
    - destruct (rf_Clear_spec f Hf) as [A B].
      destruct (rf_Add_range_spec fw l (rf_Clear f) (proj1 A) ltac:(lia)) as (f' & E & F).
      exists f'. split; [done|]. rewrite (proj1 (proj2 A)) in F. by eapply becomes_trans.
    - eexists. split; [reflexivity|].
      destruct (Z_le_gt_dec n (total_size f)).
      + unfold rf_Reserve. rewrite (proj2 (Z.ltb_ge _ _)) by lia. by apply becomes_refl.
      + replace n with (current_size f + (n - current_size f)) in Hp |- * by lia. by apply grow_if_spec.
    - destruct (rf_Set_spec i v f Hf Hp) as (f' & E & F & _). by exists f'.
    - destruct Hp as (Hi & Hj & a & b & Ea & Eb). rewrite Ea, Eb. by apply rf_Swap_elements.
    - eexists. split; [reflexivity|]. by apply rf_Truncate_spec.
    - unfold rf_RemoveLast. rewrite (proj2 (Z.leb_gt _ _)) by lia. eexists. split; [reflexivity|].
      pose proof (in_use_length f Hf). replace (length (in_use f) - 1)%nat with (Z.to_nat (current_size f - 1)) by lia.
      apply shrink_spec; [done|lia].
    - eexists. split; [reflexivity|]. by apply rf_Clear_spec.
    - by apply rf_Resize_spec.
    - destruct Hp as (P1 & P2 & P3 & P4).
      destruct (ExtractSubrange_spec st n wd f Hf P1 P2 P3 P4) as (out & f' & -> & F & _). by exists f'.
    - destruct (rf_erase_range_spec a b f Hf (proj1 Hp) (proj2 Hp)) as (f' & -> & F). by exists f'.
    - destruct Hp. by apply rf_MergeFrom_spec.
    - destruct same; [exists f; split; [done|by apply becomes_refl]|by apply rf_CopyFrom_spec]. }
  destruct Hr as (f' & E & F & F2 & F3 & F4). exists f'. split_and!; try done. intros i. unfold rf_at, rf_size.
  destruct (Z.ltb_spec i 0); [by rewrite (proj2 (Z.leb_gt 0 i)) by lia|]. rewrite (proj2 (Z.leb_le 0 i)) by lia.
  destruct (Z.leb_spec (current_size f') i), (Z.ltb_spec i (current_size f')); try lia; [done|].
  by apply rf_Get_in_use.
Qed.

(** ** The cost of growing *)

(** How many elements [Add] moves to a new array. *)
Definition add_cost f : Z := if current_size f =? total_size f then current_size f else 0.
Fixpoint adds_cost (l : list T) f : Z :=
  match l with
  | [] => 0
  | v :: l => add_cost f + match rf_Add size_of v f with Ret f' => adds_cost l f' | _ => 0 end
  end.

Lemma adds_cost_bound (l : list T) f c :
  rep_ok f -> current_size f + Z.of_nat (length l) <= int_max ->
  c <= 2 * current_size f -> (c <= total_size f \/ total_size f = int_max) ->
  c + adds_cost l f <= 2 * (current_size f + Z.of_nat (length l)).
Proof.
  revert f c. induction l as [|v l IH]; intros f c Hf Hn H1 H2; cbn [adds_cost]; [cbn [length]; lia|].
  cbn [length] in Hn |- *. destruct (rf_Add_spec v f Hf ltac:(lia)) as (f1 & -> & F & Ft).
  pose proof Hf as (G1 & G2 & _ & G4). pose proof (in_use_length f1 (proj1 F)) as Hl.
  rewrite (proj1 (proj2 F)), length_app, Nat2Z.inj_add, in_use_length in Hl by done. simpl in Hl.
  specialize (IH f1 (c + add_cost f) (proj1 F) ltac:(lia)). unfold add_cost in *. unfold rf_Reserve in Ft.
  destruct (Z.eqb_spec (current_size f) (total_size f)) as [He|He].
  - rewrite (proj2 (Z.ltb_lt _ _)) in Ft by lia.
    destruct (Grow_spec (current_size f + 1) f Hf ltac:(lia) ltac:(lia)) as (_ & Et & _). rewrite Et in Ft.
    destruct (reserve_size size_of (total_size f) (current_size f + 1) Hsize ltac:(lia) ltac:(lia)) as (_ & _ & Hd).
    { destruct (arena_or_elements f); [by left|by right]. }
    specialize (IH ltac:(lia)). lia.
  - rewrite (proj2 (Z.ltb_ge _ _)) in Ft by lia. specialize (IH ltac:(lia) ltac:(lia)). lia.
Qed.

(** C34: adding one element at a time moves, over the whole life of a field, at
    most two elements per element added; after [Reserve] it moves none. *)
Theorem add_amortised (l : list T) a :
  Z.of_nat (length l) <= int_max ->
  adds_cost l (RepeatedField_new a) <= 2 * Z.of_nat (length l) /\
  forall f n, rep_ok f -> n <= int_max -> current_size f + Z.of_nat (length l) <= n ->
    adds_cost l (rf_Reserve size_of n f) = 0.
Proof.
  intros Hl. split.
  - destruct (new_ok a) as (H1 & _). pose proof (adds_cost_bound l (RepeatedField_new a) 0 H1) as Hb. simpl in Hb.
    specialize (Hb ltac:(lia) ltac:(lia) ltac:(lia)). lia.
  - intros f n Hf Hn Hr. assert (Hg : rep_ok (rf_Reserve size_of n f) /\ current_size (rf_Reserve size_of n f) = current_size f /\
      (n <= total_size (rf_Reserve size_of n f))).
    { unfold rf_Reserve. destruct (Z.ltb_spec (total_size f) n); [|done].
      destruct (Grow_spec n f Hf ltac:(lia) Hn) as (B & _ & C & D). split; [apply B|done]. }
    destruct Hg as (G1 & G2 & G3). revert G1 G2 G3. generalize (rf_Reserve size_of n f) as g. clear Hf.
    intros g G1 G2 G3. rewrite <- G2 in Hr. clear G2 Hl f. revert g G1 G3 Hr.
    induction l as [|v l IH]; intros g G1 G3 Hr; [done|]. cbn [length] in Hr. cbn [adds_cost]. unfold add_cost.
    destruct (Z.eqb_spec (current_size g) (total_size g)); [lia|].
    destruct (rf_Add_spec v g G1 ltac:(lia)) as (g1 & -> & F & Ft). pose proof (in_use_length g1 (proj1 F)) as Hl.
    rewrite (proj1 (proj2 F)), length_app, Nat2Z.inj_add, in_use_length in Hl by done. simpl in Hl.
    rewrite IH; [done|apply F|destruct F as (_ & _ & _ & ?); lia|lia].
Qed.

Lemma RepeatedField_copy_spec a rhs :
  rep_ok rhs ->
  exists f', RepeatedField_copy size_of a rhs = Ret f' /\ rep_ok f' /\ in_use f' = in_use rhs /\ GetOwningArena f' = a.
Proof.
  intros Hr. destruct (new_ok a) as (N1 & N2 & N3). pose proof Hr as (R1 & R2 & _). pose proof (in_use_length rhs Hr) as Hl.
  unfold RepeatedField_copy. destruct (Z.eqb_spec (current_size rhs) 0) as [E0|Hne].
  - exists (RepeatedField_new a). split_and!; try done. rewrite N2. symmetry. apply length_zero_iff_nil. lia.
  - destruct (reserve_append (in_use rhs) (RepeatedField_new a) N1 ltac:(simpl; lia)) as (f' & E & (F1 & F2 & F3 & _) & _).
    simpl in E. unfold rf_Reserve in E. simpl in E. rewrite Hl, (proj2 (Z.ltb_lt _ _)) in E by lia.
    exists f'. split; [exact E|]. rewrite N2 in F2. by rewrite N3 in F3.
Qed.

(** [Swap] and the moves exchange or carry over the elements and leave
    every field on its own arena, whether the arenas are the same (the
    representations are exchanged) or not (the elements are copied). *)
Lemma swap_and_move f other :
  rep_ok f -> rep_ok other ->
  (exists f' other', rf_Swap size_of false f other = Ret (f', other') /\ rep_ok f' /\ rep_ok other' /\
     in_use f' = in_use other /\ in_use other' = in_use f /\
     GetOwningArena f' = GetOwningArena f /\ GetOwningArena other' = GetOwningArena other) /\
  (exists f' other', rf_move_assign size_of false other f = Ret (f', other') /\ rep_ok f' /\ rep_ok other' /\
     in_use f' = in_use other /\ GetOwningArena f' = GetOwningArena f /\ GetOwningArena other' = GetOwningArena other) /\
  (exists f' other', RepeatedField_move size_of other = Ret (f', other') /\ rep_ok f' /\ rep_ok other' /\
     in_use f' = in_use other /\ GetOwningArena f' = None /\
     in_use other' = (if decide (GetOwningArena other = None) then [] else in_use other)) /\
  (forall a, exists f', RepeatedField_copy size_of a other = Ret f' /\ rep_ok f' /\
     in_use f' = in_use other /\ GetOwningArena f' = a).
Proof.
  intros Hf Ho. split_and!.
  - unfold rf_Swap. destruct (decide (GetOwningArena f = GetOwningArena other)) as [E|E].
    { exists other, f. by split_and!. }
    destruct (new_ok (GetOwningArena other)) as (N1 & N2 & N3). pose proof Hf as (G1 & G2 & _).
    destruct (rf_MergeFrom_spec f (RepeatedField_new (GetOwningArena other)) N1 Hf ltac:(simpl; lia)) as (t & -> & T1 & T2 & T3 & _).
    cbn [obind]. destruct (rf_CopyFrom_spec other f Hf Ho) as (f' & -> & F1 & F2 & F3 & _). cbn [obind].
    exists f', t. rewrite N2 in T2. by split_and!.
  - unfold rf_move_assign. destruct (decide (GetOwningArena f = GetOwningArena other)) as [E|E].
    { exists other, f. by split_and!. }
    destruct (rf_CopyFrom_spec other f Hf Ho) as (f' & -> & F1 & F2 & F3 & _). exists f', other. by split_and!.
  - destruct (new_ok None) as (N1 & N2 & N3). unfold RepeatedField_move.
    destruct (decide (GetOwningArena other = None)) as [E|E].
    { exists other, (RepeatedField_new None). by split_and!. }
    destruct (rf_CopyFrom_spec other (RepeatedField_new None) N1 Ho) as (f' & -> & F1 & F2 & F3 & _).
    exists f', other. split_and!; try done.
  - intros a. by apply RepeatedField_copy_spec.
Qed.
End facts.

(** ** Concrete fields *)

Module Toy_field.
(** A field of 4-byte numbers on the heap. *)
Definition two : RepeatedField Z := mkField 2 2 (Elements None [Some 5; Some 6]).
Definition one : RepeatedField Z := mkField 1 4 (Elements (Some 640) [Some 9; None; None; None]).

Lemma two_ok : rep_ok 4 two.
Proof. unfold rep_ok, int_max. vm_compute. intuition discriminate. Qed.
Lemma one_ok : rep_ok 4 one.
Proof. unfold rep_ok, int_max. vm_compute. intuition discriminate. Qed.
End Toy_field.

Lemma field_is_list_witness :
  exists f', run_rf 4 (R_Add 7) Toy_field.two = Ret f' /\ in_use f' = [Some 5; Some 6; Some 7] /\
    total_size Toy_field.two <= total_size f' /\ rf_at 3 f' = Throw fatal_message.
Proof.
  destruct (field_is_list 4 ltac:(lia) (R_Add 7) Toy_field.two Toy_field.two_ok
    ltac:(vm_compute; discriminate)) as (f' & E & _ & U & _ & H & A).
  exists f'. split; [exact E|]. split; [exact U|]. split; [exact H|]. rewrite A.
  vm_compute in E. injection E as <-. reflexivity.
Defined.

Lemma add_amortised_witness :
  adds_cost 4 [1; 2; 3; 4; 5; 6; 7; 8; 9; 10] (RepeatedField_new None) = 8 /\
  adds_cost 4 [1; 2; 3; 4; 5; 6; 7; 8; 9; 10] (RepeatedField_new None) <= 20.
Proof.
  split; [vm_compute; reflexivity|].
  exact (proj1 (add_amortised 4 ltac:(lia) [1; 2; 3; 4; 5; 6; 7; 8; 9; 10] None ltac:(vm_compute; discriminate))).
Defined.

Lemma swap_and_move_witness :
  exists f' other', rf_Swap 4 false Toy_field.two Toy_field.one = Ret (f', other') /\
    in_use f' = [Some 9] /\ in_use other' = [Some 5; Some 6] /\ GetOwningArena other' = Some 640.
Proof.
  destruct (swap_and_move 4 ltac:(lia) Toy_field.two Toy_field.one Toy_field.two_ok Toy_field.one_ok)
    as ((f' & other' & E & _ & _ & U & V & _ & A) & _).
  exists f', other'. split; [exact E|]. split; [exact U|]. split; [exact V|exact A].
Defined.
