(* ===== verification/ArenaParts.v ===== *)
(** * The parts of an arena

    What [SerialArena] is put together from, under [google/protobuf/]:
    [arena_align.h] (rounding to an alignment), [arena_cleanup.h] (the nodes
    that remember which destructor to run on which object), [string_block.h]
    (blocks of [std::string] objects) and [arena_allocation_policy.h] (a
    pointer with a flag in its low bits).

    Addresses are numbers of 64 bits.  The memory an arena hands out and keeps
    its own records in is a map from the addresses of 8-byte words to their
    values; reading a word that was never written is undefined behaviour, as
    is an address that is not a multiple of eight. *)

From S2P Require Import Prelude Bits.
Local Open Scope Z_scope.
Local Open Scope list_scope.

(** ** Memory *)

Abbreviation Mem := (gmap Z Z).

Definition load_word (a : Z) (m : Mem) : outcome Z :=
  if a mod 8 =? 0 then match m !! a with Some v => Ret v | None => UB end else UB.
Definition write (a v : Z) (m : Mem) : outcome Mem := if a mod 8 =? 0 then Ret (<[a := v]> m) else UB.

(** The words of the [n] bytes at [p]. *)
Definition words (p n : Z) : list Z := (fun i => p + 8 * Z.of_nat i) <$> seq 0 (Z.to_nat (n / 8)).

(** ** Alignment *)

(** [(n & (align - 1)) == 0U], [(n + align - 1) & ~(align - 1)] and
    [n & ~(align - 1)], for a number or a pointer [n]. *)
Definition default_align : Z := 8.
Definition default_IsAligned (n : Z) : bool := Z.land n (u64 (default_align - 1)) =? 0.
Definition default_Ceil (n : Z) : Z := Z.land (u64 (n + default_align - 1)) (notU 64 (default_align - 1)).
Definition default_Floor (n : Z) : Z := Z.land n (notU 64 (default_align - 1)).
Definition default_Padded (n : Z) : Z := n.
Definition default_CeilDefaultAligned (ptr : Z) : Z := ptr.
Definition default_CheckAligned (ptr : Z) : Z := ptr.

Record ArenaAlign := mkAlign { align : Z }.

Definition aa_IsDefault (a : ArenaAlign) : bool := false.
Definition aa_IsAligned (a : ArenaAlign) (n : Z) : bool := Z.land n (u64 (align a - 1)) =? 0.
Definition aa_Ceil (a : ArenaAlign) (n : Z) : Z := Z.land (u64 (n + align a - 1)) (notU 64 (u64 (align a - 1))).
Definition aa_Floor (a : ArenaAlign) (n : Z) : Z := Z.land n (notU 64 (u64 (align a - 1))).
Definition aa_Padded (a : ArenaAlign) (n : Z) : Z := u64 (n + align a - default_align).
Definition aa_CeilDefaultAligned (a : ArenaAlign) (ptr : Z) : Z := aa_Ceil a ptr.
Definition aa_CheckAligned (a : ArenaAlign) (ptr : Z) : Z := ptr.
Definition ArenaAlignAs (n : Z) : ArenaAlign := mkAlign n.

(** [ArenaAlignAs<align>()] chooses a class when the program is compiled: the
    two alternatives of [AlignFactory].  [None] is [ArenaAlignDefault]. *)
Definition AlignFactory_Create (n : Z) : option ArenaAlign :=
  if n <=? default_align then None else Some (mkAlign n).
Definition ArenaAlignOf (alignof : Z) : option ArenaAlign := AlignFactory_Create alignof.

(** ** Allocation policies *)

(** [block_alloc] and [block_dealloc] are addresses of functions. *)
Record AllocationPolicy := mkPolicy {
  start_block_size : Z;
  max_block_size : Z;
  block_alloc : Z;
  block_dealloc : Z;
}.
Definition kDefaultStartBlockSize : Z := 256.
Definition kDefaultMaxBlockSize : Z := Z.shiftl 32 10.
Definition AllocationPolicy_new : AllocationPolicy := mkPolicy kDefaultStartBlockSize kDefaultMaxBlockSize 0 0.
Definition policy_IsDefault (p : AllocationPolicy) : bool :=
  (start_block_size p =? kDefaultStartBlockSize) && (max_block_size p =? kDefaultMaxBlockSize)
  && (block_alloc p =? 0) && (block_dealloc p =? 0).

(** [TaggedAllocationPolicyPtr] is its [policy_]. *)
Definition kTagsMask : Z := 7.
Definition kPtrMask : Z := notU 64 kTagsMask.
Definition kUserOwnedInitialBlock : Z := 1.
Definition set_policy (policy policy_ : Z) : Z := Z.lor policy (Z.land policy_ kTagsMask).
Definition get_policy (policy_ : Z) : Z := Z.land policy_ kPtrMask.
Definition get_mask (kMask policy_ : Z) : Z := Z.land policy_ kMask.
Definition set_mask (kMask : Z) (v : bool) (policy_ : Z) : Z :=
  if v then Z.lor policy_ kMask else Z.land policy_ (notU 64 kMask).
Definition is_user_owned_initial_block (policy_ : Z) : bool := negb (get_mask kUserOwnedInitialBlock policy_ =? 0).
Definition set_is_user_owned_initial_block (v : bool) (policy_ : Z) : Z := set_mask kUserOwnedInitialBlock v policy_.

(** ** Cleanup nodes *)

Inductive Tag := kDynamic | kString | kCord.

#[export] Instance Tag_eq_dec : EqDecision Tag.
Proof. solve_decision. Defined.

(** The number of a tag, and the tag of a number, where no name is left over. *)
Definition tag_num (t : Tag) : Z := match t with kDynamic => 0 | kString => 1 | kCord => 2 end.
Definition tag_of (n : Z) : Tag := if n =? 1 then kString else if n =? 2 then kCord else kDynamic.

Definition sizeof_DynamicNode : Z := 16.
Definition sizeof_TaggedNode : Z := 8.

(** What the host's library and compiler decide: the alignment of the two
    tagged classes, and where the instances of [arena_destruct_object] are. *)
Class CleanupHost := {
  alignof_string : Z;
  alignof_cord : Z;
  destruct_string : Z;
  destruct_cord : Z;
}.

Section cleanup.
Context `{Host : CleanupHost}.

Definition EnableSpecializedTags : bool := (8 <=? alignof_string) && (8 <=? alignof_cord).

Definition CreateNode (tag : Tag) (pos elem destructor : Z) (m : Mem) : outcome Mem :=
  let dynamic := do m <- write pos elem m; write (pos + 8) destructor m in
  if EnableSpecializedTags then
    match tag with
    | kString => write pos (Z.lor elem (tag_num kString)) m
    | kCord => write pos (Z.lor elem (tag_num kCord)) m
    | kDynamic => dynamic
    end
  else dynamic.

Definition PrefetchNode (elem_address : Z) (m : Mem) : outcome Z :=
  if EnableSpecializedTags then
    do elem <- load_word elem_address m;
    if decide (tag_of (Z.land elem 3) = kDynamic) then Ret sizeof_DynamicNode else Ret sizeof_TaggedNode
  else Ret sizeof_DynamicNode.

(** The destructor that runs, the object it runs on, and the node's size. *)
Definition DestroyNode (pos : Z) (m : Mem) : outcome (Z * Z * Z) :=
  do elem <- load_word pos m;
  let dynamic :=
    do destructor <- load_word (pos + 8) m;
    Ret (destructor, u64 (elem - tag_num kDynamic), sizeof_DynamicNode) in
  if EnableSpecializedTags then
    match tag_of (Z.land elem 3) with
    | kString => Ret (destruct_string, u64 (elem - tag_num kString), sizeof_TaggedNode)
    | kCord => Ret (destruct_cord, u64 (elem - tag_num kCord), sizeof_TaggedNode)
    | kDynamic => dynamic
    end
  else dynamic.

(** The pointer that is appended to [out], and the node's size. *)
Definition PeekNode (pos : Z) (m : Mem) (out : list Z) : outcome (Z * list Z) :=
  do elem <- load_word pos m;
  let out := out ++ [Z.land elem (notU 64 3)] in
  if EnableSpecializedTags then
    match tag_of (Z.land elem 3) with
    | kString | kCord => Ret (sizeof_TaggedNode, out)
    | kDynamic => Ret (sizeof_DynamicNode, out)
    end
  else Ret (sizeof_DynamicNode, out).

Definition cleanup_Type (destructor : Z) : Tag :=
  if EnableSpecializedTags then
    if destructor =? destruct_string then kString
    else if destructor =? destruct_cord then kCord
    else kDynamic
  else kDynamic.

Definition Tag_Size (tag : Tag) : Z :=
  if negb EnableSpecializedTags then sizeof_DynamicNode
  else match tag with kDynamic => sizeof_DynamicNode | kString => sizeof_TaggedNode | kCord => sizeof_TaggedNode end.

Definition cleanup_Size (destructor : Z) : Z :=
  if destructor =? 0 then 0 else Tag_Size (cleanup_Type destructor).
End cleanup.

(** ** String blocks *)

Record StringBlock := mkStringBlock {
  sb_next : Z;
  heap_allocated : bool;
  allocated_size : Z;
  sb_next_size : Z;
}.

(** [sizeof(std::string)]: 32 bytes in two libraries, 24 in a third. *)
Class StringHost := { sizeof_string : Z }.

Section string_block.
Context `{Host : StringHost}.

(** A pointer, two bit fields in four bytes and four bytes. *)
Definition sizeof_StringBlock : Z := 16.
Definition min_size : Z := 256.
Definition max_size : Z := 8192.

Definition RoundedSize (size : Z) : Z := u32 (size - u64 (size - sizeof_StringBlock) mod sizeof_string).

(** [allocated_size_ : 31]. *)
Definition StringBlock_new (next : Z) (heap : bool) (size next_size : Z) : StringBlock :=
  mkStringBlock next heap (wrapU 31 size) next_size.

(** A null [next] is [None]; else its address comes with it. *)
Definition NextSize (block : option (Z * StringBlock)) : Z :=
  match block with Some (_, b) => sb_next_size b | None => min_size end.
Definition address (block : option (Z * StringBlock)) : Z := match block with Some (p, _) => p | None => 0 end.

Definition StringBlock_Emplace (n : Z) (next : option (Z * StringBlock)) : StringBlock :=
  let count := u32 n in
  let doubled := u32 (count * 2) in
  let next_size := match next with Some _ => Z.min doubled max_size | None => min_size end in
  StringBlock_new (address next) false (RoundedSize count) next_size.

(** The size to ask [operator new] for, and the block it is made. *)
Definition StringBlock_New (next : option (Z * StringBlock)) : Z * StringBlock :=
  let '(size, next_size) :=
    match next with
    | Some (_, b) => (sb_next_size b, Z.min (u32 (sb_next_size b * 2)) max_size)
    | None => (min_size, min_size)
    end in
  let size := RoundedSize size in
  (size, StringBlock_new (address next) true size next_size).

(** The size given back to the heap. *)
Definition StringBlock_Delete (b : StringBlock) : Z := if heap_allocated b then allocated_size b else 0.
Definition effective_size (b : StringBlock) : Z := u64 (allocated_size b - sizeof_StringBlock).
Definition AtOffset (p offset : Z) : Z := p + sizeof_StringBlock + offset.
Definition sb_begin (p : Z) : Z := AtOffset p 0.
Definition sb_end (p : Z) (b : StringBlock) : Z := AtOffset p (effective_size b).
End string_block.

(** ** Words *)

(** A multiple of eight, as a pointer or a size is. *)
Definition aligned8 (n : Z) : Prop := n mod 8 = 0.

Lemma aligned8_add a b : aligned8 a -> aligned8 b -> aligned8 (a + b).
Proof. unfold aligned8. intros. rewrite Zplus_mod, H, H0. done. Qed.

Lemma aligned8_sub a b : aligned8 a -> aligned8 b -> aligned8 (a - b).
Proof. unfold aligned8. intros. rewrite Zminus_mod, H, H0. done. Qed.

Lemma aligned8_mul k : aligned8 (8 * k).
Proof. unfold aligned8. by rewrite Z.mul_comm, Z_mod_mult. Qed.

Lemma aligned8_8 : aligned8 8.
Proof. done. Qed.

Create HintDb aligned.
#[export] Hint Resolve aligned8_add aligned8_sub aligned8_mul aligned8_8 : aligned.

Lemma aligned8_form a : aligned8 a -> exists k, a = 8 * k.
Proof. unfold aligned8. intros. exists (a / 8). pose proof (Z.div_mod a 8). lia. Qed.

Lemma elem_of_words w p n : w ∈ words p n <-> exists i, w = p + 8 * i /\ 0 <= i < n / 8.
Proof.
  unfold words. rewrite list_elem_of_fmap. setoid_rewrite elem_of_seq. split.
  - intros (i & -> & Hi). exists (Z.of_nat i). split; [done|lia].
  - intros (i & -> & Hi). exists (Z.to_nat i). split; [f_equal; lia|lia].
Qed.

Lemma elem_of_words_range w p n : w ∈ words p n -> p <= w /\ w + 8 <= p + n.
Proof.
  rewrite elem_of_words. intros (i & -> & Hi). pose proof (Z.mul_div_le n 8 ltac:(lia)). lia.
Qed.

Lemma elem_of_words_aligned w p n : aligned8 p -> w ∈ words p n -> aligned8 w.
Proof. rewrite elem_of_words. intros Hp (i & -> & _). auto using aligned8_add, aligned8_mul. Qed.

Lemma words_nil p n : n < 8 -> words p n = [].
Proof.
  intros Hn. unfold words. replace (Z.to_nat (n / 8)) with 0%nat; [done|].
  pose proof (Z.div_lt_upper_bound n 8 1). lia.
Qed.

Lemma words_app p a b : aligned8 a -> 0 <= a -> 0 <= b -> words p (a + b) = words p a ++ words (p + a) b.
Proof.
  intros [k ->]%aligned8_form Ha Hb. unfold words.
  replace ((8 * k + b) / 8) with (k + b / 8) by (rewrite (Z.mul_comm 8), Z.div_add_l; lia).
  replace (8 * k / 8) with k by (rewrite Z.mul_comm, Z.div_mul; lia).
  pose proof (Z.div_pos b 8). rewrite Z2Nat.inj_add, seq_app, fmap_app by lia. f_equal.
  rewrite Nat.add_0_l, <- (Nat.add_0_r (Z.to_nat k)), <- fmap_add_seq, <- list_fmap_compose.
  apply list_fmap_ext. intros i x _. simpl. lia.
Qed.

Lemma words_cons p n : 8 <= n -> words p n = p :: words (p + 8) (n - 8).
Proof.
  intros Hn. replace n with (8 + (n - 8)) at 1 by lia.
  rewrite words_app by (done || lia). unfold words at 1. simpl. f_equal. lia.
Qed.

Lemma words_prefix p a b : aligned8 a -> 0 <= a <= b -> words p a ⊆+ words p b.
Proof.
  intros H Hab. replace b with (a + (b - a)) by lia. rewrite words_app by (done || lia).
  apply submseteq_inserts_r. done.
Qed.

Lemma elem_of_submseteq_words x p a b : a <= b -> x ∈ words p a -> x ∈ words p b.
Proof.
  intros Hab. rewrite !elem_of_words. intros (i & -> & Hi). exists i. split; [done|].
  pose proof (Z.div_le_mono a b 8). lia.
Qed.

Lemma NoDup_words p n : NoDup (words p n).
Proof. unfold words. apply NoDup_fmap_2; [intros i j ?; lia|]. apply NoDup_seq. Qed.

Lemma load_insert a v (m : Mem) : aligned8 a -> load_word a (<[a := v]> m) = Ret v.
Proof. intros Ha. unfold load_word. rewrite Ha. simpl. by rewrite lookup_insert_eq. Qed.

Lemma load_Some a v (m : Mem) : aligned8 a -> m !! a = Some v -> load_word a m = Ret v.
Proof. intros Ha E. unfold load_word. by rewrite Ha, E. Qed.

Lemma write_Ret a v (m : Mem) : aligned8 a -> write a v m = Ret (<[a := v]> m).
Proof. intros Ha. unfold write. by rewrite Ha. Qed.

(** ** Rounding *)

(** Clearing the low [k] bits. *)
Lemma land_high n k :
  inU 64 n -> 0 <= k < 64 -> Z.land n (notU 64 (2 ^ k - 1)) = 2 ^ k * (n / 2 ^ k).
Proof.
  intros Hn Hk. unfold notU. rewrite land_wrap by (done || lia).
  replace (2 ^ k - 1) with (Z.ones k) by (rewrite Z.ones_equiv; lia).
  rewrite <- Z.ldiff_land, Z.ldiff_ones_r by lia.
  rewrite Z.shiftl_mul_pow2, Z.shiftr_div_pow2 by lia. lia.
Qed.

Lemma land_low n k : 0 <= k < 64 -> Z.land n (2 ^ k - 1) = n mod 2 ^ k.
Proof.
  intros Hk. replace (2 ^ k - 1) with (Z.ones k) by (rewrite Z.ones_equiv; lia).
  apply Z.land_ones. lia.
Qed.

(** What rounding to a power of two is for. *)
Lemma round_up n a : 0 < a -> n <= a * ((n + a - 1) / a) < n + a.
Proof.
  intros Ha. pose proof (Z.div_mod (n + a - 1) a). pose proof (Z.mod_pos_bound (n + a - 1) a). lia.
Qed.

Lemma aa_Ceil_eq k n :
  0 <= k < 64 -> 0 <= n -> n + 2 ^ k - 1 < 2 ^ 64 ->
  aa_Ceil (mkAlign (2 ^ k)) n = 2 ^ k * ((n + 2 ^ k - 1) / 2 ^ k).
Proof.
  intros Hk Hn Hb. unfold aa_Ceil; simpl. pose proof (Z.pow_pos_nonneg 2 k ltac:(lia) ltac:(lia)).
  assert (Hs : forall z, 0 <= z < 2 ^ 64 -> u64 z = z) by (intros; by apply wrapU_id).
  rewrite !Hs by (try lia; pose proof (Z.pow_lt_mono_r 2 k 64); lia).
  apply land_high; [unfold inU; lia|lia].
Qed.

Lemma default_Ceil_eq n : default_Ceil n = aa_Ceil (mkAlign (2 ^ 3)) n.
Proof. reflexivity. Qed.

Lemma default_Ceil_spec n : 0 <= n -> n + 7 < 2 ^ 64 -> n <= default_Ceil n < n + 8 /\ aligned8 (default_Ceil n).
Proof.
  intros Hn Hb. rewrite default_Ceil_eq, aa_Ceil_eq by (simpl; lia). change (2 ^ 3) with 8.
  split; [apply (round_up n 8); lia|apply aligned8_mul].
Qed.

Lemma default_Ceil_id n : aligned8 n -> 0 <= n -> n + 7 < 2 ^ 64 -> default_Ceil n = n.
Proof.
  intros Ha Hn Hb. destruct (default_Ceil_spec n Hn Hb) as [H1 H2].
  apply aligned8_form in Ha as [i ->]. apply aligned8_form in H2 as [j E]. lia.
Qed.

(** Rounding a pointer that is a multiple of eight up to a larger power of
    two moves it on by less than the alignment, and by a multiple of eight. *)
Lemma aa_Ceil_ptr k p :
  0 <= k < 64 -> aligned8 p -> 0 <= p -> p + 2 ^ k - 1 < 2 ^ 64 ->
  p <= aa_Ceil (mkAlign (2 ^ k)) p <= p + Z.max 0 (2 ^ k - 8) /\ aligned8 (aa_Ceil (mkAlign (2 ^ k)) p)
  /\ (2 ^ k | aa_Ceil (mkAlign (2 ^ k)) p).
Proof.
  intros Hk Hp Hp0 Hb. rewrite aa_Ceil_eq by done. apply aligned8_form in Hp as [i ->].
  set (c := (8 * i + 2 ^ k - 1) / 2 ^ k).
  pose proof (Z.pow_pos_nonneg 2 k ltac:(lia) ltac:(lia)).
  pose proof (round_up (8 * i) (2 ^ k) ltac:(lia)) as R. fold c in R.
  split; [|split; [|by exists c; lia]].
  - split; [lia|]. destruct (Z.le_gt_cases k 2) as [Hle|Hgt].
    + replace (2 ^ k * c) with (8 * i); [lia|]. unfold c.
      assert (Hk' : k = 0 \/ k = 1 \/ k = 2) by lia.
      destruct Hk' as [-> | [-> | ->]]; Z.to_euclidean_division_equations; lia.
    + replace k with (3 + (k - 3)) in * by lia. rewrite Z.pow_add_r in * by lia.
      change (2 ^ 3) with 8 in *. lia.
  - destruct (Z.le_gt_cases k 2) as [Hle|Hgt].
    + assert (Hk' : k = 0 \/ k = 1 \/ k = 2) by lia. unfold aligned8, c.
      destruct Hk' as [-> | [-> | ->]]; Z.to_euclidean_division_equations; lia.
    + replace k with (3 + (k - 3)) by lia. rewrite Z.pow_add_r by lia. change (2 ^ 3) with 8.
      rewrite <- Z.mul_assoc. apply aligned8_mul.
Qed.

(** [Ceil] and [Floor] give the nearest multiples of the alignment,
    [IsAligned] tells the multiples, and [Padded] is the least room in which
    [n] bytes can be aligned from any multiple of eight. *)
Lemma align_correct k n :
  0 <= k < 64 -> 0 <= n -> n + 2 ^ k - 1 < 2 ^ 64 ->
  let a := ArenaAlignAs (2 ^ k) in
  ((2 ^ k | aa_Ceil a n) /\ n <= aa_Ceil a n /\ forall m, (2 ^ k | m) -> n <= m -> aa_Ceil a n <= m) /\
  ((2 ^ k | aa_Floor a n) /\ aa_Floor a n <= n /\ forall m, (2 ^ k | m) -> m <= n -> m <= aa_Floor a n) /\
  (aa_IsAligned a n = true <-> (2 ^ k | n)) /\
  (3 <= k ->
    (forall p, aligned8 p -> 0 <= p -> p + 2 ^ k - 1 < 2 ^ 64 -> aa_Ceil a p + n <= p + aa_Padded a n) /\
    aa_Ceil a 8 + n = 8 + aa_Padded a n).
Proof.
  intros Hk Hn Hb a. pose proof (Z.pow_pos_nonneg 2 k ltac:(lia) ltac:(lia)).
  pose proof (Z.pow_lt_mono_r 2 k 64 ltac:(lia) ltac:(lia) ltac:(lia)).
  assert (Hu : u64 (2 ^ k - 1) = 2 ^ k - 1) by (apply wrapU_id; unfold inU; lia).
  split; [|split; [|split]].
  - unfold a, ArenaAlignAs. rewrite aa_Ceil_eq by done. pose proof (round_up n (2 ^ k) ltac:(lia)).
    set (c := (n + 2 ^ k - 1) / 2 ^ k) in *. split; [by exists c; lia|]. split; [lia|].
    intros m [j ->] Hm. assert (c <= j) by nia. nia.
  - unfold aa_Floor, a; simpl. rewrite Hu, land_high by (unfold inU; lia).
    pose proof (Z.div_mod n (2 ^ k)). pose proof (Z.mod_pos_bound n (2 ^ k)).
    set (c := n / 2 ^ k) in *. split; [by exists c; lia|]. split; [lia|].
    intros m [j ->] Hm. assert (j <= c) by nia. nia.
  - unfold aa_IsAligned, a; simpl. rewrite Hu, land_low, Z.eqb_eq by lia. apply Z.mod_divide. lia.
  - intros H3. assert (E8 : 8 <= 2 ^ k) by (apply (Z.pow_le_mono_r 2 3 k); lia).
    assert (Hp : aa_Padded a n = n + 2 ^ k - 8) by (apply wrapU_id; unfold inU; simpl; lia).
    rewrite Hp. split.
    + intros p Hp8 Hp0 Hpb. pose proof (proj1 (aa_Ceil_ptr k p Hk Hp8 Hp0 Hpb)). unfold a, ArenaAlignAs. lia.
    + unfold a, ArenaAlignAs. destruct (Z.le_gt_cases (8 + 2 ^ k) (2 ^ 64)) as [Hle|Hgt].
      * rewrite aa_Ceil_eq by lia.
        replace ((8 + 2 ^ k - 1) / 2 ^ k) with 1; [lia|].
        apply Z.div_unique_pos with (r := 7); lia.
      * exfalso. assert (2 ^ k <= 2 ^ 63) by (apply Z.pow_le_mono_r; lia). lia.
Qed.

(** ** The tagged pointer *)

Lemma land_lor_low p t n k :
  0 <= k -> p mod 2 ^ k = 0 -> 0 <= t < 2 ^ k -> n = Z.ones k ->
  Z.lor p t = p + t /\ Z.land (Z.lor p t) n = t /\ Z.land p t = 0.
Proof.
  intros Hk Hp Ht ->. assert (H0 : Z.land p t = 0).
  { replace t with (Z.land t (Z.ones k)) by (rewrite Z.land_ones, Z.mod_small; lia).
    rewrite (Z.land_comm t), Z.land_assoc, Z.land_ones, Hp by lia. apply Z.land_0_l. }
  split; [|split; [|done]].
  - pose proof (Z.add_lor_land p t). lia.
  - rewrite Z.land_lor_distr_l, !Z.land_ones, Hp, Z.lor_0_l by lia. by apply Z.mod_small.
Qed.

Lemma notU_testbit x i : 0 <= i -> Z.testbit (notU 64 x) i = (i <? 64) && negb (Z.testbit x i).
Proof. intros Hi. unfold notU. by rewrite wrapU_testbit, Z.lnot_spec by lia. Qed.

Lemma seven_testbit i : 0 <= i -> Z.testbit 7 i = (i <? 3).
Proof.
  intros Hi. change 7 with (Z.ones 3). destruct (Z.ltb_spec i 3).
  - apply Z.ones_spec_low. lia.
  - apply Z.ones_spec_high. lia.
Qed.

Lemma one_testbit i : 0 <= i -> Z.testbit 1 i = (i =? 0).
Proof.
  intros Hi. change 1 with (Z.ones 1). destruct (Z.eqb_spec i 0) as [->|]; [done|].
  apply Z.ones_spec_high. lia.
Qed.

Lemma user_owned_bit q : is_user_owned_initial_block q = Z.testbit q 0.
Proof.
  unfold is_user_owned_initial_block, get_mask, kUserOwnedInitialBlock.
  change 1 with (Z.ones 1). rewrite Z.land_ones by lia. change (2 ^ 1) with 2.
  rewrite <- Z.bit0_mod. by destruct (Z.testbit q 0).
Qed.

Lemma get_policy_bit q i : 0 <= i -> inU 64 q -> Z.testbit (get_policy q) i = negb (i <? 3) && Z.testbit q i.
Proof.
  intros Hi Hq. unfold get_policy, kPtrMask, kTagsMask.
  rewrite Z.land_spec, notU_testbit, seven_testbit by lia.
  destruct (Z.ltb_spec i 64); simpl; [by rewrite andb_comm|].
  rewrite (inU_testbit 64 q i) by (done || lia). by destruct (i <? 3).
Qed.

Lemma inU_bits x : 0 <= x -> (forall i, 64 <= i -> Z.testbit x i = false) -> inU 64 x.
Proof.
  intros Hx Hb. split; [done|]. destruct (Z.eq_dec x 0) as [->|Hne]; [done|].
  apply Z.log2_lt_pow2; [lia|]. destruct (Z.lt_ge_cases (Z.log2 x) 64) as [|Hge]; [done|].
  specialize (Hb _ Hge). rewrite Z.bit_log2 in Hb; [done|lia].
Qed.

Ltac mask_bits :=
  repeat first [rewrite Z.land_spec | rewrite Z.lor_spec | rewrite notU_testbit by lia
    | rewrite seven_testbit by lia | rewrite one_testbit by lia].

(** The policy and the flag do not disturb each other. *)
Lemma tagged_policy policy q v :
  inU 64 policy -> aligned8 policy -> inU 64 q ->
  get_policy (set_policy policy q) = policy /\
  is_user_owned_initial_block (set_policy policy q) = is_user_owned_initial_block q /\
  get_policy (set_is_user_owned_initial_block v q) = get_policy q /\
  is_user_owned_initial_block (set_is_user_owned_initial_block v q) = v.
Proof.
  intros Hp Ha Hq.
  assert (Hlow : forall i, 0 <= i < 3 -> Z.testbit policy i = false).
  { apply aligned8_form in Ha as [j ->]. intros i Hi. rewrite Z.mul_comm. change 8 with (2 ^ 3).
    apply Z.mul_pow2_bits_low. lia. }
  assert (Hhigh : forall x i, inU 64 x -> 64 <= i -> Z.testbit x i = false).
  { intros x i Hx Hi. apply (inU_testbit 64); [done|lia]. }
  assert (I1 : inU 64 (set_policy policy q)).
  { apply inU_bits; [apply Z.lor_nonneg; split; [apply Hp|apply Z.land_nonneg; left; apply Hq]|].
    intros i Hi. unfold set_policy, kTagsMask. mask_bits. rewrite !Hhigh by done. by destruct (i <? 3). }
  assert (I2 : inU 64 (set_is_user_owned_initial_block v q)).
  { unfold set_is_user_owned_initial_block, set_mask, kUserOwnedInitialBlock. apply inU_bits.
    - destruct v; [apply Z.lor_nonneg|apply Z.land_nonneg]; unfold inU in Hq; lia.
    - intros i Hi. destruct v; mask_bits; rewrite (Hhigh q) by done; [|done]. destruct (Z.eqb_spec i 0); [lia|done]. }
  rewrite !user_owned_bit. split; [|split; [|split]].
  - apply Z.bits_inj_iff'. intros i Hi. rewrite get_policy_bit by done. unfold set_policy, kTagsMask. mask_bits.
    destruct (Z.ltb_spec i 3); simpl; [by rewrite Hlow by lia|]. by rewrite andb_false_r, orb_false_r.
  - unfold set_policy, kTagsMask. mask_bits. rewrite Hlow by lia. simpl. by rewrite andb_true_r.
  - apply Z.bits_inj_iff'. intros i Hi. rewrite !get_policy_bit by done.
    destruct (Z.ltb_spec i 3); simpl; [done|]. unfold set_is_user_owned_initial_block, set_mask, kUserOwnedInitialBlock.
    assert (Hne : (i =? 0) = false) by lia. destruct v; mask_bits; rewrite Hne.
    + by rewrite orb_false_r.
    + destruct (Z.ltb_spec i 64); [by rewrite andb_true_r|]. by rewrite Hhigh by done.
  - unfold set_is_user_owned_initial_block, set_mask, kUserOwnedInitialBlock. destruct v; mask_bits; simpl.
    + apply orb_true_r.
    + apply andb_false_r.
Qed.

(** ** Nodes *)

Section nodes.
Context `{Host : CleanupHost}.
Implicit Types (m : Mem).

(** The memory at [pos] holds the node of an object and its destructor. *)
Definition cleanup_node_at m (pos elem destructor : Z) : Prop :=
  match cleanup_Type destructor with
  | kDynamic => m !! pos = Some elem /\ m !! (pos + 8) = Some destructor
  | t => m !! pos = Some (elem + tag_num t)
  end.

(** What an object must be: an address with two low bits to spare. *)
Definition taggable (elem : Z) : Prop := inU 64 elem /\ elem mod 4 = 0.

Lemma taggable_tag elem t :
  taggable elem -> inU 64 (elem + tag_num t) /\ Z.lor elem (tag_num t) = elem + tag_num t /\
  tag_of (Z.land (elem + tag_num t) 3) = t /\ u64 (elem + tag_num t - tag_num t) = elem /\
  Z.land (elem + tag_num t) (notU 64 3) = elem.
Proof.
  intros [He H4]. assert (Ht : 0 <= tag_num t < 2 ^ 2) by (destruct t; simpl; lia).
  destruct (land_lor_low elem (tag_num t) 3 2) as (E1 & E2 & _); [lia|done|done|done|].
  assert (Hin : inU 64 (elem + tag_num t)).
  { unfold inU in *. apply Z.mod_divide in H4 as [j ->]; [|done]. destruct t; simpl in *; lia. }
  split; [done|]. split; [done|]. rewrite <- E1 at 1. rewrite E2. split; [by destruct t|]. split.
  - replace (elem + tag_num t - tag_num t) with elem by lia. by apply wrapU_id.
  - change 3 with (2 ^ 2 - 1). rewrite land_high by (done || lia).
    apply Z.mod_divide in H4 as [j ->]; [|done]. change (2 ^ 2) with 4 in *.
    rewrite Z.div_add_l, (Z.div_small (tag_num t)) by lia. lia.
Qed.

Lemma Tag_Size_cases destructor :
  Tag_Size (cleanup_Type destructor) = match cleanup_Type destructor with kDynamic => 16 | _ => 8 end.
Proof.
  unfold Tag_Size, cleanup_Type. destruct EnableSpecializedTags; [|done].
  by repeat case_match.
Qed.

Lemma tagged_enabled destructor : cleanup_Type destructor <> kDynamic -> EnableSpecializedTags = true.
Proof. unfold cleanup_Type. by destruct EnableSpecializedTags. Qed.

(** [CreateNode] writes the node and nothing outside its size. *)
Lemma CreateNode_spec pos elem destructor m :
  aligned8 pos -> taggable elem ->
  exists m', CreateNode (cleanup_Type destructor) pos elem destructor m = Ret m' /\
    cleanup_node_at m' pos elem destructor /\
    forall a, a ∉ words pos (Tag_Size (cleanup_Type destructor)) -> m' !! a = m !! a.
Proof.
  intros Ha He. pose proof (fun t => taggable_tag elem t He) as Ht. rewrite Tag_Size_cases.
  assert (Ha8 : aligned8 (pos + 8)) by auto with aligned.
  unfold CreateNode, cleanup_node_at.
  destruct (cleanup_Type destructor) eqn:E; cbv match.
  - exists (<[pos + 8 := destructor]> (<[pos := elem]> m)).
    split; [rewrite !write_Ret by done; simpl; by rewrite write_Ret by done; destruct EnableSpecializedTags|].
    split; [split; [rewrite lookup_insert_ne, lookup_insert_eq by lia; done|by rewrite lookup_insert_eq]|].
    intros a Hn. rewrite !words_cons in Hn by lia. rewrite !not_elem_of_cons in Hn.
    by rewrite !lookup_insert_ne by naive_solver.
  - rewrite (tagged_enabled destructor), write_Ret by (done || by rewrite E).
    exists (<[pos := elem + 1]> m). split; [by pose proof (proj1 (proj2 (Ht kString))) as ->|].
    split; [by rewrite lookup_insert_eq|]. intros a Hn. rewrite words_cons in Hn by lia.
    rewrite not_elem_of_cons in Hn. by rewrite lookup_insert_ne by naive_solver.
  - rewrite (tagged_enabled destructor), write_Ret by (done || by rewrite E).
    exists (<[pos := elem + 2]> m). split; [by pose proof (proj1 (proj2 (Ht kCord))) as ->|].
    split; [by rewrite lookup_insert_eq|]. intros a Hn. rewrite words_cons in Hn by lia.
    rewrite not_elem_of_cons in Hn. by rewrite lookup_insert_ne by naive_solver.
Qed.

(** A node is read as it was written, and its size is found. *)
Lemma node_read m pos elem destructor out :
  aligned8 pos -> taggable elem -> cleanup_node_at m pos elem destructor ->
  DestroyNode pos m = Ret (destructor, elem, Tag_Size (cleanup_Type destructor)) /\
  PeekNode pos m out = Ret (Tag_Size (cleanup_Type destructor), out ++ [elem]) /\
  PrefetchNode pos m = Ret (Tag_Size (cleanup_Type destructor)).
Proof.
  intros Ha He. pose proof (fun t => taggable_tag elem t He) as Ht.
  assert (Ha8 : aligned8 (pos + 8)) by auto with aligned.
  rewrite Tag_Size_cases. unfold cleanup_node_at, DestroyNode, PeekNode, PrefetchNode.
  destruct (Ht kDynamic) as (_ & _ & D1 & D2 & D3). simpl in D1, D2, D3. rewrite Z.add_0_r in D1, D2, D3.
  destruct (cleanup_Type destructor) eqn:E; simpl.
  - intros [E1 E2]. rewrite (load_Some _ _ _ Ha E1). simpl. rewrite (load_Some _ _ _ Ha8 E2). simpl.
    rewrite D1, D2, D3. by destruct EnableSpecializedTags.
  - intros E1. rewrite (load_Some _ _ _ Ha E1). simpl.
    rewrite (tagged_enabled destructor) by (by rewrite E).
    destruct (Ht kString) as (_ & _ & R1 & R2 & R3). simpl in R1, R2, R3. rewrite R1, R2, R3. unfold cleanup_Type in E. repeat case_match; try done.
    by replace destruct_string with destructor by lia.
  - intros E1. rewrite (load_Some _ _ _ Ha E1). simpl.
    rewrite (tagged_enabled destructor) by (by rewrite E).
    destruct (Ht kCord) as (_ & _ & R1 & R2 & R3). simpl in R1, R2, R3. rewrite R1, R2, R3. unfold cleanup_Type in E. repeat case_match; try done.
    by replace destruct_cord with destructor by lia.
Qed.

Lemma node_at_ext m m' pos elem destructor :
  (forall a, a ∈ words pos (Tag_Size (cleanup_Type destructor)) -> m' !! a = m !! a) ->
  cleanup_node_at m pos elem destructor -> cleanup_node_at m' pos elem destructor.
Proof.
  rewrite Tag_Size_cases. unfold cleanup_node_at. intros H. 
  destruct (cleanup_Type destructor); simpl in H.
  - rewrite !H; [done|..]; rewrite !words_cons by lia; set_solver.
  - rewrite H; [done|]; rewrite words_cons by lia; set_solver.
  - rewrite H; [done|]; rewrite words_cons by lia; set_solver.
Qed.
End nodes.

(** ** Sizes of string blocks *)

Section string_sizes.
Context `{Host : StringHost}.

(** A string fits the smallest block and keeps its pointers aligned. *)
Class StringHostLaws := {
  sizeof_string_fits : 0 < sizeof_string <= 240;
  sizeof_string_aligned : aligned8 sizeof_string;
}.
Context `{Laws : StringHostLaws}.

(** What [New] and [Emplace] make of every block. *)
Definition string_block_ok (b : StringBlock) : Prop :=
  (exists k, 1 <= k /\ effective_size b = k * sizeof_string) /\
  allocated_size b = sizeof_StringBlock + effective_size b /\ allocated_size b <= max_size /\
  aligned8 (sb_next_size b) /\ min_size <= sb_next_size b <= max_size.

Definition string_next_ok (next : option (Z * StringBlock)) : Prop :=
  match next with Some (_, b) => string_block_ok b | None => True end.

Lemma NextSize_range next :
  string_next_ok next -> aligned8 (NextSize next) /\ min_size <= NextSize next <= max_size.
Proof. destruct next as [[p b]|]; [by intros (_ & _ & _ & H)|]. by split; [|unfold NextSize, max_size, min_size; lia]. Qed.

Lemma RoundedSize_spec size :
  min_size <= size <= max_size ->
  exists k, 1 <= k /\ RoundedSize size = sizeof_StringBlock + k * sizeof_string /\
    size - sizeof_string < RoundedSize size <= size.
Proof.
  unfold min_size, max_size, RoundedSize, sizeof_StringBlock. intros Hs.
  pose proof sizeof_string_fits as [Hp H240].
  rewrite (wrapU_id 64 (size - 16)) by (unfold inU; lia).
  assert (Hne : sizeof_string <> 0) by lia.
  pose proof (Z.div_mod (size - 16) sizeof_string Hne).
  pose proof (Z.mod_pos_bound (size - 16) sizeof_string Hp).
  set (r := (size - 16) mod sizeof_string) in *. exists ((size - 16) / sizeof_string).
  rewrite wrapU_id by (unfold inU; lia). split; [|lia].
  apply Z.div_le_lower_bound; lia.
Qed.

Lemma StringBlock_new_ok p heap size next_size :
  min_size <= size <= max_size -> aligned8 next_size -> min_size <= next_size <= max_size ->
  string_block_ok (StringBlock_new p heap (RoundedSize size) next_size).
Proof.
  intros Hs Ha Hn. destruct (RoundedSize_spec size Hs) as (k & Hk & E & Hle).
  unfold string_block_ok, effective_size; simpl. pose proof sizeof_string_fits.
  unfold min_size, max_size, sizeof_StringBlock in *.
  rewrite !(wrapU_id 31) by (unfold inU; nia). rewrite wrapU_id by (unfold inU; nia).
  split; [by exists k; lia|]. split; [lia|]. split; [lia|]. done.
Qed.

Lemma doubled_ok s :
  aligned8 s -> min_size <= s <= max_size ->
  aligned8 (Z.min (u32 (s * 2)) max_size) /\ min_size <= Z.min (u32 (s * 2)) max_size <= max_size.
Proof.
  unfold min_size, max_size. intros Ha Hs. rewrite wrapU_id by (unfold inU; lia). split; [|lia].
  apply Z.min_case; [|done]. apply aligned8_form in Ha as [j ->].
  rewrite <- Z.mul_assoc. apply aligned8_mul.
Qed.

Lemma StringBlock_Emplace_ok next :
  string_next_ok next ->
  let b := StringBlock_Emplace (NextSize next) next in
  string_block_ok b /\ allocated_size b <= NextSize next /\ heap_allocated b = false.
Proof.
  intros Hn b. destruct (NextSize_range next Hn) as [Ha Hr]. destruct (RoundedSize_spec _ Hr) as (k & Hk & E & Hle).
  assert (E32 : u32 (NextSize next) = NextSize next) by (apply wrapU_id; unfold min_size, max_size, inU in *; lia).
  unfold b, StringBlock_Emplace. rewrite E32. split; [|split; [|done]].
  - apply StringBlock_new_ok; [done|..]; (destruct next as [[p sb]|]; [by apply doubled_ok|done]).
  - simpl. rewrite wrapU_id; [lia|]. unfold min_size, max_size, inU, sizeof_StringBlock in *.
    pose proof sizeof_string_fits. nia.
Qed.

Lemma StringBlock_New_ok next :
  string_next_ok next ->
  let '(size, b) := StringBlock_New next in
  string_block_ok b /\ allocated_size b = size /\ StringBlock_Delete b = size.
Proof.
  intros Hn. destruct (NextSize_range next Hn) as [Ha Hr]. destruct (RoundedSize_spec _ Hr) as (k & Hk & E & Hle).
  assert (E31 : wrapU 31 (RoundedSize (NextSize next)) = RoundedSize (NextSize next)).
  { apply wrapU_id. unfold min_size, max_size, inU, sizeof_StringBlock in *. pose proof sizeof_string_fits. nia. }
  unfold StringBlock_New. destruct next as [[p sb]|]; simpl in *.
  - split; [|done]. apply StringBlock_new_ok; [done|..]; by apply doubled_ok.
  - split; [|done]. by apply StringBlock_new_ok.
Qed.

(** A chain of blocks, each made from the one before it. *)
Inductive string_chain : option (Z * StringBlock) -> Prop :=
| chain_null : string_chain None
| chain_emplace p next : string_chain next -> string_chain (Some (p, StringBlock_Emplace (NextSize next) next))
| chain_new p next : string_chain next -> string_chain (Some (p, (StringBlock_New next).2)).

(** Every block of a chain holds a whole number of strings, at least one, and
    is between 256 bytes less a string and 8 KiB in size. *)
Lemma string_chain_ok next : string_chain next -> string_next_ok next.
Proof.
  induction 1 as [|p next _ IH|p next _ IH]; [done|..]; simpl.
  - by apply StringBlock_Emplace_ok.
  - pose proof (StringBlock_New_ok _ IH). destruct (StringBlock_New next). naive_solver.
Qed.
End string_sizes.
