(* ===== verification/SerialArena.v ===== *)
(** * An arena ([google/protobuf/serial_arena.h])

    [SerialArena] hands out the memory messages and repeated fields are built
    in.  It cuts objects from the front of a block and the nodes of its
    cleanup list from the back, strings from blocks of their own, and keeps
    the arrays that growing repeated fields give back in lists by size, whose
    links and heads are written into that very memory.

    The state is a record of the members, with the memory itself as one more;
    the chains that start at [head_] and [string_block_] are lists.  What the
    class declares and [arena.cc] defines - getting another block - is the
    class [SerialArenaOut], with what the header says about it as
    [SerialArenaOutLaws].  Pointers have 64 bits and the build is the release
    build, without debug checks. *)

From S2P Require Import Prelude Bits ArenaParts.
Local Open Scope Z_scope.
Local Open Scope list_scope.

(** ** Blocks *)

Record ArenaBlock := mkBlock { cleanup_nodes : Z; block_size : Z }.

(** [sizeof(ArenaBlock)]: two pointers and a size. *)
Definition sizeof_ArenaBlock : Z := 24.
Definition ArenaBlock_sentry (this : Z) : ArenaBlock := mkBlock this 0.
Definition ArenaBlock_new (size : Z) : ArenaBlock := mkBlock 0 size.
Definition Pointer (this n : Z) : Z := this + n.
Definition block_Limit (this : Z) (b : ArenaBlock) : Z := Pointer this (Z.land (block_size b) (u64 (-8))).
Definition IsSentry (b : ArenaBlock) : bool := block_size b =? 0.
Definition kBlockHeaderSize : Z := default_Ceil sizeof_ArenaBlock.

Inductive AllocationClient := kDefault | kArray.

(** ** The class *)

Record SerialArena := mkArena {
  ptr_ : Z;
  limit_ : Z;
  prefetch_ptr_ : Z;
  prefetch_limit_ : Z;
  string_block_ : list (Z * StringBlock);
  string_block_unused_ : Z;
  head_ : list (Z * ArenaBlock);
  space_used_ : Z;
  space_allocated_ : Z;
  cached_block_length_ : Z;
  cached_blocks_ : Z;
  memory : Mem;
}.

(** The initialisers of the members. *)
Definition SerialArena_init (m : Mem) : SerialArena := mkArena 0 0 0 0 [] 0 [] 0 0 0 0 m.

Definition set_ptr (p : Z) (a : SerialArena) : SerialArena :=
  mkArena p (limit_ a) (prefetch_ptr_ a) (prefetch_limit_ a) (string_block_ a) (string_block_unused_ a)
    (head_ a) (space_used_ a) (space_allocated_ a) (cached_block_length_ a) (cached_blocks_ a) (memory a).
Definition with_limit (p : Z) (a : SerialArena) : SerialArena :=
  mkArena (ptr_ a) p (prefetch_ptr_ a) (prefetch_limit_ a) (string_block_ a) (string_block_unused_ a)
    (head_ a) (space_used_ a) (space_allocated_ a) (cached_block_length_ a) (cached_blocks_ a) (memory a).
Definition set_prefetch (p l : Z) (a : SerialArena) : SerialArena :=
  mkArena (ptr_ a) (limit_ a) p l (string_block_ a) (string_block_unused_ a)
    (head_ a) (space_used_ a) (space_allocated_ a) (cached_block_length_ a) (cached_blocks_ a) (memory a).
Definition set_string (b : list (Z * StringBlock)) (unused : Z) (a : SerialArena) : SerialArena :=
  mkArena (ptr_ a) (limit_ a) (prefetch_ptr_ a) (prefetch_limit_ a) b unused
    (head_ a) (space_used_ a) (space_allocated_ a) (cached_block_length_ a) (cached_blocks_ a) (memory a).
Definition set_space (used allocated : Z) (a : SerialArena) : SerialArena :=
  mkArena (ptr_ a) (limit_ a) (prefetch_ptr_ a) (prefetch_limit_ a) (string_block_ a) (string_block_unused_ a)
    (head_ a) used allocated (cached_block_length_ a) (cached_blocks_ a) (memory a).
Definition set_cached (length blocks : Z) (a : SerialArena) : SerialArena :=
  mkArena (ptr_ a) (limit_ a) (prefetch_ptr_ a) (prefetch_limit_ a) (string_block_ a) (string_block_unused_ a)
    (head_ a) (space_used_ a) (space_allocated_ a) length blocks (memory a).
Definition set_memory (m : Mem) (a : SerialArena) : SerialArena :=
  mkArena (ptr_ a) (limit_ a) (prefetch_ptr_ a) (prefetch_limit_ a) (string_block_ a) (string_block_unused_ a)
    (head_ a) (space_used_ a) (space_allocated_ a) (cached_block_length_ a) (cached_blocks_ a) m.
Definition set_range (p limit : Z) (a : SerialArena) : SerialArena := with_limit limit (set_ptr p (set_prefetch p limit a)).

Definition SpaceAllocated (a : SerialArena) : Z := space_allocated_ a.
Definition AddSpaceUsed (n : Z) (a : SerialArena) : SerialArena :=
  set_space (u64 (space_used_ a + n)) (space_allocated_ a) a.
Definition AddSpaceAllocated (n : Z) (a : SerialArena) : SerialArena :=
  set_space (space_used_ a) (u64 (space_allocated_ a + n)) a.

Definition AlignUpTo (n a : Z) : Z := if a <=? 8 then default_Ceil n else aa_Padded (ArenaAlignAs a) n.
Definition AlignTo (p a : Z) : Z :=
  if a <=? default_align then default_CeilDefaultAligned p else aa_CeilDefaultAligned (ArenaAlignAs a) p.

(** ** Prefetching: hints to the cache that change only their own positions *)

Definition CACHELINE_SIZE : Z := 64.
Definition kPrefetchForwardsDegree : Z := CACHELINE_SIZE * 16.
Definition kPrefetchBackwardsDegree : Z := CACHELINE_SIZE * 6.

(** The two loops; a line of [CACHELINE_SIZE] bytes in every turn. *)
Fixpoint prefetch_up (fuel : nat) (p stop : Z) : Z :=
  match fuel with
  | O => p
  | S f => if p <? stop then prefetch_up f (p + CACHELINE_SIZE) stop else p
  end.
Fixpoint prefetch_down (fuel : nat) (p stop : Z) : Z :=
  match fuel with
  | O => p
  | S f => if stop <? p then prefetch_down f (p - CACHELINE_SIZE) stop else p
  end.

Definition MaybePrefetchForwards (next : Z) (a : SerialArena) : SerialArena :=
  if kPrefetchForwardsDegree <? prefetch_ptr_ a - next then a
  else if prefetch_ptr_ a <? prefetch_limit_ a then
    let prefetch_ptr := Z.max next (prefetch_ptr_ a) in
    let stop := Z.min (prefetch_limit_ a) (prefetch_ptr + CACHELINE_SIZE * 16) in
    set_prefetch (prefetch_up 17 prefetch_ptr stop) (prefetch_limit_ a) a
  else a.

Definition MaybePrefetchBackwards (limit : Z) (a : SerialArena) : SerialArena :=
  if kPrefetchBackwardsDegree <? limit - prefetch_limit_ a then a
  else if prefetch_ptr_ a <? prefetch_limit_ a then
    let prefetch_limit := Z.min limit (prefetch_limit_ a) in
    let stop := Z.max (prefetch_ptr_ a) (prefetch_limit - kPrefetchBackwardsDegree) in
    set_prefetch (prefetch_ptr_ a) (prefetch_down 7 prefetch_limit stop) a
  else a.

(** ** Memory cut from the block *)

(** The pointer, or [None] for false. *)
Definition MaybeAllocateAligned (n : Z) (a : SerialArena) : option (Z * SerialArena) :=
  let ret := ptr_ a in
  let next := u64 (ret + n) in
  if limit_ a <? next then None
  else Some (ret, MaybePrefetchForwards next (set_ptr next a)).

(** ** The lists of returned arrays *)

(** [std::copy] and [std::fill] on words. *)
Fixpoint copy_words (n : nat) (src dst : Z) (m : Mem) : outcome Mem :=
  match n with
  | O => Ret m
  | S n => do v <- load_word src m; do m <- write dst v m; copy_words n (src + 8) (dst + 8) m
  end.
Fixpoint fill_words (n : nat) (dst : Z) (m : Mem) : outcome Mem :=
  match n with
  | O => Ret m
  | S n => do m <- write dst 0 m; fill_words n (dst + 8) m
  end.

(** A null pointer is 0. *)
Definition TryAllocateFromCachedBlock (size : Z) (a : SerialArena) : outcome (Z * SerialArena) :=
  if size <? 16 then Ret (0, a)
  else
    let index := bit_width 64 (size - 1) - 4 in
    if cached_block_length_ a <=? index then Ret (0, a)
    else
      let slot := cached_blocks_ a + 8 * index in
      do cached_head <- load_word slot (memory a);
      if cached_head =? 0 then Ret (0, a)
      else
        do next <- load_word cached_head (memory a);
        do m <- write slot next (memory a);
        Ret (cached_head, set_memory m a).

(** [PROTOBUF_ASSUME(size >= 16)] on a 64-bit platform. *)
Definition ReturnArrayMemory (p size : Z) (a : SerialArena) : outcome SerialArena :=
  if size <? 16 then UB
  else
    let index := bit_width 64 size - 5 in
    let length := cached_block_length_ a in
    if length <=? index then
      let new_size := size / 8 in
      do m <- copy_words (Z.to_nat length) (cached_blocks_ a) p (memory a);
      if new_size <? length then UB
      else
        do m <- fill_words (Z.to_nat (new_size - length)) (p + 8 * length) m;
        Ret (set_cached (u8 (Z.min 64 new_size)) p (set_memory m a))
    else
      let slot := cached_blocks_ a + 8 * index in
      do cached_head <- load_word slot (memory a);
      do m <- write p cached_head (memory a);
      do m <- write slot p m;
      Ret (set_memory m a).

(** ** What is defined in [arena.cc] *)

Class SerialArenaOut := {
  AllocateAlignedFallback : Z -> SerialArena -> outcome (Z * SerialArena);
  AllocateAlignedWithCleanupFallback : Z -> Z -> Z -> SerialArena -> outcome (Z * SerialArena);
  AddCleanupFallback : Z -> Z -> SerialArena -> outcome SerialArena;
  AllocateFromStringBlockFallback : SerialArena -> outcome (Z * SerialArena);
  FreeStringBlocks_from : list (Z * StringBlock) -> Z -> SerialArena -> Z * SerialArena;
}.

Section arena.
Context `{CH : CleanupHost, SH : StringHost, Out : SerialArenaOut}.

Definition AllocateAligned (alloc_client : AllocationClient) (n : Z) (a : SerialArena) : outcome (Z * SerialArena) :=
  do (res, a) <- match alloc_client with kArray => TryAllocateFromCachedBlock n a | kDefault => Ret (0, a) end;
  if negb (res =? 0) then Ret (res, a)
  else match MaybeAllocateAligned n a with
       | Some r => Ret r
       | None => AllocateAlignedFallback n a
       end.

(** ** Cleanups *)

Definition AddCleanupFromExisting (elem destructor : Z) (a : SerialArena) : outcome SerialArena :=
  let tag := cleanup_Type destructor in
  let n := Tag_Size tag in
  let a := with_limit (limit_ a - n) a in
  let a := MaybePrefetchBackwards (limit_ a) a in
  do m <- CreateNode tag (limit_ a) elem destructor (memory a);
  Ret (set_memory m a).

Definition AllocateAlignedWithCleanup (n align destructor : Z) (a : SerialArena) : outcome (Z * SerialArena) :=
  let n := default_Ceil n in
  let ret := aa_CeilDefaultAligned (ArenaAlignAs align) (ptr_ a) in
  let next := u64 (ret + n) in
  if limit_ a <? u64 (next + cleanup_Size destructor) then AllocateAlignedWithCleanupFallback n align destructor a
  else
    do a <- AddCleanupFromExisting ret destructor (set_ptr next a);
    Ret (ret, MaybePrefetchForwards next a).

Definition AddCleanup (elem destructor : Z) (a : SerialArena) : outcome SerialArena :=
  let required := cleanup_Size destructor in
  let has := u64 (limit_ a - ptr_ a) in
  if has <? required then AddCleanupFallback elem destructor a
  else AddCleanupFromExisting elem destructor a.

(** ** Strings *)

Definition MaybeAllocateString (a : SerialArena) : outcome (option Z * SerialArena) :=
  let unused_bytes := string_block_unused_ a in
  if unused_bytes =? 0 then Ret (None, a)
  else
    let unused_bytes := u64 (unused_bytes - sizeof_string) in
    match string_block_ a with
    | (b, _) :: _ => Ret (Some (AtOffset b unused_bytes), set_string (string_block_ a) unused_bytes a)
    | [] => UB
    end.

Definition MaybeAllocateStringWithCleanup (a : SerialArena) : outcome (Z * SerialArena) :=
  do (p, a) <- MaybeAllocateString a;
  Ret (default 0 p, a).

Definition AllocateFromStringBlock (a : SerialArena) : outcome (Z * SerialArena) :=
  do (p, a) <- MaybeAllocateString a;
  match p with Some p => Ret (p, a) | None => AllocateFromStringBlockFallback a end.

Definition FreeStringBlocks (a : SerialArena) : Z * SerialArena :=
  match string_block_ a with
  | [] => (0, a)
  | sb => FreeStringBlocks_from sb (string_block_unused_ a) a
  end.
End arena.

(** ** What the header says about getting another block *)

(** The memory an arena has: its blocks and its string blocks. *)
Definition extent (a : SerialArena) : list (Z * Z) :=
  ((fun b => (b.1, block_size b.2)) <$> head_ a) ++ ((fun b => (b.1, allocated_size b.2)) <$> string_block_ a).

(** Addresses stay far below the end of the address space. *)
Definition addr_max : Z := 2 ^ 62.

Definition in_space (p n : Z) : Prop := 0 < p /\ 0 <= n /\ p + n <= addr_max.

(** The heap gives memory that is not in use. *)
Definition fresh_region (p n : Z) (a : SerialArena) : Prop :=
  aligned8 p /\ in_space p n /\ Forall (fun r => p + n <= r.1 \/ r.1 + r.2 <= p) (extent a).

(** The chain of blocks as [cleanup_nodes] is to describe it: each block's
    nodes begin there, and those of the block in use at [limit_]. *)
Definition blocks_in_use (a : SerialArena) : list (Z * ArenaBlock) :=
  match head_ a with
  | [] => []
  | (p, b) :: rest => (p, mkBlock (limit_ a) (block_size b)) :: rest
  end.

(** [AllocateNewBlock(room)]: the head of the chain is a new block, with room
    for that many bytes behind its header; the arena allocates from it, and
    the block it used so far keeps in [cleanup_nodes] where its nodes begin. *)
Record new_block (room : Z) (a a1 : SerialArena) : Prop := {
  nb_fresh : exists p b,
    head_ a1 = (p, b) :: blocks_in_use a /\ fresh_region p (block_size b) a /\
    ptr_ a1 = p + kBlockHeaderSize /\ limit_ a1 = block_Limit p b /\
    p + kBlockHeaderSize + room <= block_Limit p b /\
    forall w, w ∉ words p (block_size b) -> memory a1 !! w = memory a !! w;
  nb_string : string_block_ a1 = string_block_ a;
  nb_unused : string_block_unused_ a1 = string_block_unused_ a;
  nb_length : cached_block_length_ a1 = cached_block_length_ a;
  nb_cached : cached_blocks_ a1 = cached_blocks_ a;
}.

(** A request the arena can be made. *)
Definition good_size (n : Z) : Prop := 0 <= n < addr_max.
Definition good_align (n : Z) : Prop := exists k, 0 <= k <= 60 /\ n = 2 ^ k.

(** Every fallback gets a block with enough room and does there what there
    was no room for; or it throws, when there is no memory. *)
Class SerialArenaOutLaws `{CH : CleanupHost, SH : StringHost, Out : SerialArenaOut} := {
  AllocateAlignedFallback_law n a :
    good_size n -> aligned8 n ->
    (exists e, AllocateAlignedFallback n a = Throw e) \/
    exists a1 r, new_block n a a1 /\ MaybeAllocateAligned n a1 = Some r /\ AllocateAlignedFallback n a = Ret r;
  AllocateAlignedWithCleanupFallback_law n align destructor a :
    good_size n -> aligned8 n -> good_align align -> destructor <> 0 ->
    (exists e, AllocateAlignedWithCleanupFallback n align destructor a = Throw e) \/
    exists a1, new_block (AlignUpTo n align + cleanup_Size destructor) a a1 /\
      AllocateAlignedWithCleanupFallback n align destructor a = AllocateAlignedWithCleanup n align destructor a1;
  AddCleanupFallback_law elem destructor a :
    destructor <> 0 ->
    (exists e, AddCleanupFallback elem destructor a = Throw e) \/
    exists a1, new_block (cleanup_Size destructor) a a1 /\
      AddCleanupFallback elem destructor a = AddCleanupFromExisting elem destructor a1;
  AllocateFromStringBlockFallback_law a :
    string_block_unused_ a = 0 ->
    (exists e, AllocateFromStringBlockFallback a = Throw e) \/
    exists p b a1 used allocated,
      AllocateFromStringBlockFallback a =
        Ret (AtOffset p (effective_size b - sizeof_string),
             set_string ((p, b) :: string_block_ a) (effective_size b - sizeof_string) (set_space used allocated a1)) /\
      ((MaybeAllocateAligned (NextSize (head (string_block_ a))) a = Some (p, a1) /\
        b = StringBlock_Emplace (NextSize (head (string_block_ a))) (head (string_block_ a))) \/
       (b = (StringBlock_New (head (string_block_ a))).2 /\ fresh_region p (allocated_size b) a /\
        exists m, a1 = set_memory m a /\ forall w, w ∉ words p (allocated_size b) -> m !! w = memory a !! w));
}.

(** ** Prefetching leaves everything else alone *)

Lemma forwards_same next a :
  exists p, MaybePrefetchForwards next a = set_prefetch p (prefetch_limit_ a) a.
Proof. unfold MaybePrefetchForwards. repeat case_match; [|by eexists|]; exists (prefetch_ptr_ a); by destruct a. Qed.

Lemma backwards_same l a :
  exists p, MaybePrefetchBackwards l a = set_prefetch (prefetch_ptr_ a) p a.
Proof. unfold MaybePrefetchBackwards. repeat case_match; [|by eexists|]; exists (prefetch_limit_ a); by destruct a. Qed.

(** The loops end where they should, after at most 16 and 6 lines: the fuel
    never runs out. *)
Lemma prefetch_up_done fuel p stop :
  stop <= p + CACHELINE_SIZE * Z.of_nat fuel -> stop <= prefetch_up fuel p stop.
Proof.
  revert p. induction fuel as [|f IH]; simpl; intros p H; [lia|].
  destruct (Z.ltb_spec p stop); [|lia]. apply IH. unfold CACHELINE_SIZE in *. lia.
Qed.

Lemma prefetch_down_done fuel p stop :
  p - CACHELINE_SIZE * Z.of_nat fuel <= stop -> prefetch_down fuel p stop <= stop.
Proof.
  revert p. induction fuel as [|f IH]; simpl; intros p H; [lia|].
  destruct (Z.ltb_spec stop p); [|lia]. apply IH. unfold CACHELINE_SIZE in *. lia.
Qed.

Lemma prefetch_ends next a :
  let stop := Z.min (prefetch_limit_ a) (Z.max next (prefetch_ptr_ a) + CACHELINE_SIZE * 16) in
  stop <= prefetch_up 17 (Z.max next (prefetch_ptr_ a)) stop.
Proof. apply prefetch_up_done. unfold CACHELINE_SIZE. lia. Qed.

Lemma prefetch_back_ends limit a :
  let stop := Z.max (prefetch_ptr_ a) (Z.min limit (prefetch_limit_ a) - kPrefetchBackwardsDegree) in
  prefetch_down 7 (Z.min limit (prefetch_limit_ a)) stop <= stop.
Proof. apply prefetch_down_done. unfold kPrefetchBackwardsDegree, CACHELINE_SIZE. lia. Qed.

(** ** Sizes of returned arrays *)

(** The list an array of [size] bytes goes to, and the one a request for [n]
    bytes looks into. *)
Definition return_class (size : Z) : Z := bit_width 64 size - 5.
Definition request_class (n : Z) : Z := bit_width 64 (n - 1) - 4.
#[global] Arguments return_class : simpl never.
#[global] Arguments request_class : simpl never.

Lemma return_class_fits size : 16 <= size < 2 ^ 64 -> 0 <= return_class size <= 59 /\ 2 ^ (return_class size + 4) <= size.
Proof.
  intros Hs. unfold return_class. rewrite bit_width_spec by (unfold inU, unsigned_width; lia).
  unfold bit_length. destruct (Z.eqb_spec size 0); [lia|].
  pose proof (Z.log2_spec size ltac:(lia)). pose proof (Z.log2_le_mono 16 size ltac:(lia)).
  change (Z.log2 16) with 4 in *. pose proof (proj1 (Z.log2_lt_pow2 size 64 ltac:(lia)) ltac:(lia)).
  replace (Z.log2 size + 1 - 5 + 4) with (Z.log2 size) by lia. lia.
Qed.

Lemma request_class_fits n : 16 <= n < 2 ^ 64 -> 0 <= request_class n <= 60 /\ n <= 2 ^ (request_class n + 4).
Proof.
  intros Hs. unfold request_class. rewrite bit_width_spec by (unfold inU, unsigned_width; lia).
  unfold bit_length. destruct (Z.eqb_spec (n - 1) 0); [lia|].
  pose proof (Z.log2_spec (n - 1) ltac:(lia)). pose proof (Z.log2_le_mono 15 (n - 1) ltac:(lia)).
  change (Z.log2 15) with 3 in *. pose proof (proj1 (Z.log2_lt_pow2 (n - 1) 64 ltac:(lia)) ltac:(lia)).
  replace (Z.log2 (n - 1) + 1 - 4 + 4) with (Z.succ (Z.log2 (n - 1))) by lia. lia.
Qed.

(** The header says that list [i] is for blocks of [8 + 2 ^ (i + 3)] bytes;
    from the second on these go to the list before. *)
Lemma natural_sizes i : 1 <= i <= 50 -> return_class (8 + 2 ^ (i + 3)) = i - 1.
Proof.
  intros Hi. assert (Hp : 2 ^ 4 <= 2 ^ (i + 3) <= 2 ^ 53) by (split; apply Z.pow_le_mono_r; lia).
  unfold return_class. rewrite bit_width_spec by (unfold inU, unsigned_width; lia).
  unfold bit_length. destruct (Z.eqb_spec (8 + 2 ^ (i + 3)) 0); [lia|].
  replace (Z.log2 (8 + 2 ^ (i + 3))) with (i + 3); [lia|]. symmetry. apply Z.log2_unique; [lia|].
  rewrite Z.pow_succ_r by lia. lia.
Qed.

(** An array that finds no list is large enough to be the table of the lists
    there are, with one more. *)
Lemma table_fits size length :
  16 <= size < 2 ^ 64 -> 0 <= length <= return_class size -> length + 2 <= size / 8.
Proof.
  intros Hs Hl. destruct (return_class_fits size Hs) as [Hc Hp].
  apply Z.div_le_lower_bound; [lia|].
  assert (length + 2 <= 2 ^ (length + 1)).
  { pose proof (Z.pow_gt_lin_r 2 (length + 1) ltac:(lia) ltac:(lia)). lia. }
  assert (2 ^ (length + 1) * 2 ^ 3 <= 2 ^ (return_class size + 4)).
  { rewrite <- Z.pow_add_r by lia. apply Z.pow_le_mono_r; lia. }
  change (2 ^ 3) with 8 in *. lia.
Qed.

(** ** Who owns which word *)

Section ownership.
Context `{CH : CleanupHost, SH : StringHost}.

(** Runs of cleanup nodes, and the lists of returned arrays: list [i] holds
    arrays of at least [2 ^ (i + 4)] bytes. *)
Definition nodes_size (l : list (Z * Z)) : Z := foldr (fun e s => Tag_Size (cleanup_Type e.2) + s) 0 l.
Definition run_words (run : Z * list (Z * Z)) : list Z := words run.1 (nodes_size run.2).

Fixpoint cache_words (i : Z) (C : list (list Z)) : list Z :=
  match C with
  | [] => []
  | l :: C' => (l ≫= fun p => words p (2 ^ (i + 4))) ++ cache_words (i + 1) C'
  end.

Definition free_words (a : SerialArena) : list Z := words (ptr_ a) (limit_ a - ptr_ a).
Definition string_space (a : SerialArena) : list Z :=
  match string_block_ a with
  | (b, _) :: _ => words (b + sizeof_StringBlock) (string_block_unused_ a)
  | [] => []
  end.
Definition private_words (a : SerialArena) (runs : list (Z * list (Z * Z))) (C : list (list Z)) : list Z :=
  (runs ≫= run_words) ++ cache_words 0 C ++ words (cached_blocks_ a) (8 * cached_block_length_ a).
Definition live_words (live : list (Z * Z)) : list Z := live ≫= fun r => words r.1 r.2.
Definition strings_words (strs : list Z) : list Z := strs ≫= fun p => words p sizeof_string.

(** The nodes of a run lie one behind the other, the newest first. *)
Fixpoint nodes_at (m : Mem) (pos : Z) (l : list (Z * Z)) : Prop :=
  match l with
  | [] => True
  | (elem, destructor) :: l' =>
      taggable elem /\ cleanup_node_at m pos elem destructor /\ nodes_at m (pos + Tag_Size (cleanup_Type destructor)) l'
  end.

(** A list of returned arrays, linked through their first words; the heads
    are the words of the table. *)
Fixpoint list_at (m : Mem) (h : Z) (l : list Z) : Prop :=
  match l with
  | [] => h = 0
  | p :: l' => h = p /\ p <> 0 /\ aligned8 p /\ exists next, m !! p = Some next /\ list_at m next l'
  end.
Definition cache_at (m : Mem) (table : Z) (C : list (list Z)) : Prop :=
  forall i l, C !! i = Some l -> exists h, m !! (table + 8 * Z.of_nat i) = Some h /\ list_at m h l.

(** One run for every block, from the block's first node to its end; without
    a block there is no room for a node. *)
Definition runs_of (a : SerialArena) (runs : list (Z * list (Z * Z))) : Prop :=
  Forall2 (fun b run => run.1 = cleanup_nodes b.2 /\ run.1 + nodes_size run.2 = block_Limit b.1 b.2)
    (blocks_in_use a) runs /\
  (head_ a = [] -> limit_ a = 0).

(** The arena, what has been handed out and not given back, the strings, and
    the cleanups that were asked for, the newest first. *)
Record World := mkWorld {
  w_arena : SerialArena;
  w_live : list (Z * Z);
  w_strings : list Z;
  w_log : list (Z * Z);
}.

Definition owned (w : World) (runs : list (Z * list (Z * Z))) (C : list (list Z)) : list Z :=
  free_words (w_arena w) ++ string_space (w_arena w) ++ private_words (w_arena w) runs C
  ++ live_words (w_live w) ++ strings_words (w_strings w).

Definition inside (a : SerialArena) (x : Z) : Prop :=
  aligned8 x /\ Exists (fun r => r.1 <= x /\ x + 8 <= r.1 + r.2) (extent a).

Record arena_inv (w : World) (runs : list (Z * list (Z * Z))) (C : list (list Z)) : Prop := {
  ai_range : aligned8 (ptr_ (w_arena w)) /\ aligned8 (limit_ (w_arena w)) /\
             0 <= ptr_ (w_arena w) <= limit_ (w_arena w) /\ limit_ (w_arena w) <= addr_max;
  ai_extent : Forall (fun r => in_space r.1 r.2) (extent (w_arena w));
  ai_owned : NoDup (owned w runs C) /\ Forall (inside (w_arena w)) (owned w runs C);
  ai_cache : cache_at (memory (w_arena w)) (cached_blocks_ (w_arena w)) C /\
             Z.of_nat (length C) = cached_block_length_ (w_arena w) /\ Z.of_nat (length C) <= 64 /\
             aligned8 (cached_blocks_ (w_arena w));
  ai_runs : runs_of (w_arena w) runs /\ (runs ≫= snd) = w_log w /\
            Forall (fun r => aligned8 r.1 /\ nodes_at (memory (w_arena w)) r.1 r.2) runs;
  ai_strings : (exists j, 0 <= j /\ string_block_unused_ (w_arena w) = j * sizeof_string) /\
               (string_block_unused_ (w_arena w) <> 0 -> string_block_ (w_arena w) <> []) /\
               string_block_unused_ (w_arena w) <= max_size /\
               string_next_ok (head (string_block_ (w_arena w)));
  ai_live : Forall (fun r => aligned8 r.1 /\ aligned8 r.2 /\ good_size r.2) (w_live w);
}.

Lemma blocks_in_use_extent a :
  (fun b => (b.1, block_size b.2)) <$> blocks_in_use a = (fun b => (b.1, block_size b.2)) <$> head_ a.
Proof. unfold blocks_in_use. by destruct (head_ a) as [|[p b] rest]. Qed.

(** The run of the block in use is the first; a node put before it makes it
    longer. *)
Lemma runs_of_head a runs :
  runs_of a runs -> 0 < limit_ a -> exists l runs', runs = (limit_ a, l) :: runs'.
Proof.
  intros [Hf Hn] Hl. unfold blocks_in_use in Hf. destruct (head_ a) as [|[p b] rest]; [by rewrite Hn in Hl|].
  apply Forall2_cons_inv_l in Hf as ([q l] & runs' & [Hq _] & _ & ->). simpl in Hq. subst q. by eexists l, runs'.
Qed.

Lemma runs_of_push a a' e d l runs :
  head_ a' = head_ a -> runs_of a ((limit_ a, l) :: runs) -> 0 < limit_ a ->
  limit_ a' + Tag_Size (cleanup_Type d) = limit_ a ->
  runs_of a' ((limit_ a', (e, d) :: l) :: runs).
Proof.
  intros Eh [Hf Hn] Hl El. unfold runs_of, blocks_in_use in *. rewrite Eh.
  destruct (head_ a) as [|[p b] rest]; [by rewrite Hn in Hl|]. apply Forall2_cons in Hf as [[_ Hs] Hf].
  split; [|done]. constructor; [|done]. split; [done|]. unfold block_Limit in *. simpl in *. lia.
Qed.

(** *** Lemmas on the words of the parts *)

Lemma Tag_Size_pos d : (Tag_Size (cleanup_Type d) = 8 \/ Tag_Size (cleanup_Type d) = 16).
Proof. rewrite Tag_Size_cases. case_match; auto. Qed.

Lemma Tag_Size_aligned d : aligned8 (Tag_Size (cleanup_Type d)).
Proof. by destruct (Tag_Size_pos d) as [-> | ->]. Qed.

Lemma nodes_size_ok l : 0 <= nodes_size l /\ aligned8 (nodes_size l).
Proof.
  induction l as [|[e d] l [IH1 IH2]]; simpl; [done|]. split.
  - destruct (Tag_Size_pos d); lia.
  - auto using Tag_Size_aligned with aligned.
Qed.

Lemma run_words_cons pos e d l :
  run_words (pos, (e, d) :: l) =
    words pos (Tag_Size (cleanup_Type d)) ++ run_words (pos + Tag_Size (cleanup_Type d), l).
Proof.
  unfold run_words; simpl. destruct (nodes_size_ok l), (Tag_Size_pos d);
  apply words_app; auto using Tag_Size_aligned; lia.
Qed.

Lemma nodes_at_ext m m' pos l :
  (forall x, x ∈ run_words (pos, l) -> m' !! x = m !! x) -> nodes_at m pos l -> nodes_at m' pos l.
Proof.
  revert pos. induction l as [|[e d] l IH]; intros pos Hx; [done|]. rewrite run_words_cons in Hx.
  simpl. intros (He & Hn & Hl). split; [done|]. split.
  - eapply node_at_ext; [|done]. intros x Hin. apply Hx, elem_of_app. by left.
  - apply IH; [|done]. intros x Hin. apply Hx, elem_of_app. by right.
Qed.

Lemma list_at_ext m m' h l : (forall p, p ∈ l -> m' !! p = m !! p) -> list_at m h l -> list_at m' h l.
Proof.
  revert h. induction l as [|p l IH]; simpl; intros h Hx; [done|].
  intros (-> & Hp & Ha & next & E & Hl). split; [done|]. split; [done|]. split; [done|].
  exists next. split; [rewrite Hx; [done|set_solver]|]. apply IH; [set_solver|done].
Qed.

Lemma pow4_class i : 0 <= i -> 16 <= 2 ^ (i + 4) /\ aligned8 (2 ^ (i + 4)).
Proof.
  intros Hi. split; [apply (Z.pow_le_mono_r 2 4); lia|].
  replace (i + 4) with (3 + (i + 1)) by lia. rewrite Z.pow_add_r by lia. apply aligned8_mul.
Qed.

Lemma cache_words_elem i C k l p :
  0 <= i -> C !! k = Some l -> p ∈ l -> words p (2 ^ (i + Z.of_nat k + 4)) ⊆ cache_words i C.
Proof.
  revert i k. induction C as [|l0 C IH]; intros i [|k] Hi; simpl; try done.
  - intros [= ->] Hp x Hx. apply elem_of_app. left. apply list_elem_of_bind. exists p.
    split; [|done]. by rewrite Z.add_0_r in Hx.
  - intros Hk Hp x Hx. apply elem_of_app. right. eapply (IH (i + 1) k); [lia|done..|].
    by replace (i + 1 + Z.of_nat k + 4) with (i + Z.of_nat (S k) + 4) by lia.
Qed.

Lemma cache_member i C k l p : 0 <= i -> C !! k = Some l -> p ∈ l -> p ∈ cache_words i C.
Proof.
  intros Hi Hk Hp. eapply cache_words_elem; [done..|]. destruct (pow4_class (i + Z.of_nat k)); [lia|].
  rewrite words_cons by lia. set_solver.
Qed.

Lemma cache_words_push i C k l p :
  C !! k = Some l -> cache_words i (<[k := p :: l]> C) ≡ₚ words p (2 ^ (i + Z.of_nat k + 4)) ++ cache_words i C.
Proof.
  revert i k. induction C as [|l0 C IH]; intros i [|k]; simpl; try done.
  - intros [= ->]. rewrite Z.add_0_r. by rewrite <- app_assoc.
  - intros Hk. rewrite (IH (i + 1) k) by done.
    replace (i + 1 + Z.of_nat k + 4) with (i + Z.of_nat (S k) + 4) by lia.
    rewrite !app_assoc. apply Permutation_app_tail, Permutation_app_comm.
Qed.

Lemma cache_words_pop i C k l p :
  C !! k = Some (p :: l) -> cache_words i C ≡ₚ words p (2 ^ (i + Z.of_nat k + 4)) ++ cache_words i (<[k := l]> C).
Proof.
  intros Hk. rewrite <- (cache_words_push i (<[k := l]> C) k l p).
  - rewrite list_insert_insert, decide_True by done. by rewrite list_insert_id.
  - apply list_lookup_insert_eq. by eapply lookup_lt_Some.
Qed.

Lemma cache_words_empties i C n : cache_words i (C ++ replicate n []) = cache_words i C.
Proof.
  revert i. induction C as [|l C IH]; intros i; simpl; [|by rewrite IH].
  revert i. induction n as [|n IHn]; intros i; simpl; auto.
Qed.

Lemma table_word i (table len : Z) : 0 <= i < len -> table + 8 * i ∈ words table (8 * len).
Proof. intros Hi. apply elem_of_words. exists i. split; [done|]. rewrite Z.mul_comm, Z.div_mul; lia. Qed.

Lemma runs_ext m m' (runs : list (Z * list (Z * Z))) :
  (forall x, x ∈ (runs ≫= run_words) -> m' !! x = m !! x) ->
  Forall (fun r => aligned8 r.1 /\ nodes_at m r.1 r.2) runs -> Forall (fun r => aligned8 r.1 /\ nodes_at m' r.1 r.2) runs.
Proof.
  intros Hx. rewrite !Forall_forall. intros Hr [pos l] Hin. destruct (Hr _ Hin) as [Ha Hn]. split; [done|].
  eapply nodes_at_ext; [|exact Hn]. intros x Hxx. apply Hx. apply list_elem_of_bind. by exists (pos, l).
Qed.

(** List [k] of the table is replaced; the others are as they were. *)
Lemma cache_update m m' table C k l' h' :
  m' !! (table + 8 * Z.of_nat k) = Some h' -> list_at m' h' l' ->
  (forall i l, i <> k -> C !! i = Some l ->
    m' !! (table + 8 * Z.of_nat i) = m !! (table + 8 * Z.of_nat i) /\ forall p, p ∈ l -> m' !! p = m !! p) ->
  cache_at m table C -> cache_at m' table (<[k := l']> C).
Proof.
  intros Eh Hl' Hx Hc i l Hi. destruct (decide (i = k)) as [->|Hne].
  - rewrite list_lookup_insert_eq in Hi; [|by eapply lookup_lt_Some in Hi; rewrite length_insert in Hi].
    simplify_eq. by exists h'.
  - rewrite list_lookup_insert_ne in Hi by done. destruct (Hc i l Hi) as (h & Eh1 & Hl).
    destruct (Hx i l Hne Hi) as [E1 E2]. exists h. rewrite E1. split; [done|]. by eapply list_at_ext.
Qed.

Lemma cache_ext m m' table C len :
  Z.of_nat (length C) = len ->
  (forall x, x ∈ cache_words 0 C ++ words table (8 * len) -> m' !! x = m !! x) ->
  cache_at m table C -> cache_at m' table C.
Proof.
  intros Hlen Hx Hc i l Hi. destruct (Hc i l Hi) as (h & Eh & Hl). exists h. split.
  - rewrite Hx; [done|]. rewrite elem_of_app. right. apply table_word. apply lookup_lt_Some in Hi. lia.
  - eapply list_at_ext; [|done]. intros p Hp. apply Hx. rewrite elem_of_app. left. by eapply cache_member.
Qed.

(** The predicates on the arena's own data depend on the words it owns for
    them, and on no others. *)
Lemma private_ext (w : World) runs C m' :
  arena_inv w runs C ->
  (forall x, x ∈ private_words (w_arena w) runs C -> m' !! x = memory (w_arena w) !! x) ->
  cache_at m' (cached_blocks_ (w_arena w)) C /\ Forall (fun r => aligned8 r.1 /\ nodes_at m' r.1 r.2) runs.
Proof.
  intros I Hx. destruct (ai_cache _ _ _ I) as (Hc & Hlen & _). destruct (ai_runs _ _ _ I) as (_ & _ & Hr).
  unfold private_words in Hx. split.
  - eapply cache_ext; [done| |done]. intros x Hin. apply Hx. rewrite elem_of_app. by right.
  - eapply runs_ext; [|done]. intros x Hin. apply Hx. rewrite elem_of_app. by left.
Qed.

(** The order in which memory was handed out does not matter. *)
#[export] Instance live_words_Permutation : Proper (Permutation ==> Permutation) live_words.
Proof. intros l1 l2 Hp. unfold live_words. by rewrite Hp. Qed.

(** What is the arena's own is nobody else's, and its three parts are apart. *)
Lemma private_apart (w : World) runs C x :
  arena_inv w runs C -> x ∈ private_words (w_arena w) runs C ->
  (x ∉ free_words (w_arena w)) /\ (x ∉ string_space (w_arena w)) /\
  (x ∉ live_words (w_live w)) /\ (x ∉ strings_words (w_strings w)).
Proof.
  intros I Hx. destruct (ai_owned _ _ _ I) as [Hn _]. unfold owned in Hn.
  apply NoDup_app in Hn as (_ & H1 & Hn). apply NoDup_app in Hn as (_ & H2 & Hn).
  apply NoDup_app in Hn as (_ & H3 & _). specialize (H3 x Hx).
  set_solver.
Qed.

Lemma table_apart (w : World) runs C x :
  arena_inv w runs C -> x ∈ words (cached_blocks_ (w_arena w)) (8 * cached_block_length_ (w_arena w)) ->
  (x ∉ (runs ≫= run_words)) /\ (x ∉ cache_words 0 C).
Proof.
  intros I Hx. destruct (ai_owned _ _ _ I) as [Hn _]. unfold owned, private_words in Hn.
  apply NoDup_app in Hn as (_ & _ & Hn). apply NoDup_app in Hn as (_ & _ & Hn).
  apply NoDup_app in Hn as (Hn & _ & _). apply NoDup_app in Hn as (_ & H1 & Hn).
  apply NoDup_app in Hn as (_ & H2 & _). split; [|by intros ?%H2].
  intros Hr%H1. apply Hr, elem_of_app. by right.
Qed.
End ownership.

(** ** Every operation keeps the invariant *)

Section operations.
Context `{CH : CleanupHost, SH : StringHost, SHL : !StringHostLaws}.
Implicit Types (a : SerialArena) (w : World) (m : Mem) (runs : list (Z * list (Z * Z))) (C : list (list Z)).

Definition with_arena a w : World := mkWorld a (w_live w) (w_strings w) (w_log w).

(** Words may change hands and be lost, but not appear from nowhere. *)
Lemma owned_shrink w runs C w' runs' C' :
  arena_inv w runs C -> extent (w_arena w') = extent (w_arena w) ->
  owned w' runs' C' ⊆+ owned w runs C ->
  NoDup (owned w' runs' C') /\ Forall (inside (w_arena w')) (owned w' runs' C').
Proof.
  intros I E Hs. destruct (ai_owned _ _ _ I) as [Hn Hf]. split.
  - apply submseteq_Permutation in Hs as [k Hk]. rewrite Hk in Hn. by apply NoDup_app in Hn as [? _].
  - rewrite Forall_forall in Hf |- *. intros x Hx. unfold inside. rewrite E. apply Hf.
    by eapply elem_of_submseteq.
Qed.

(** Changing words that are not the arena's own changes nothing for it. *)
Lemma inv_set_memory w runs C m' :
  arena_inv w runs C ->
  (forall x, x ∈ private_words (w_arena w) runs C -> m' !! x = memory (w_arena w) !! x) ->
  arena_inv (with_arena (set_memory m' (w_arena w)) w) runs C.
Proof.
  intros I Hx. destruct (private_ext w runs C m' I Hx) as [H1 H2]. destruct w as [a live strs log]. split; simpl.
  - apply (ai_range _ _ _ I).
  - apply (ai_extent _ _ _ I).
  - apply (ai_owned _ _ _ I).
  - split; [done|]. apply (ai_cache _ _ _ I).
  - destruct (ai_runs _ _ _ I) as (A & B & _). done.
  - apply (ai_strings _ _ _ I).
  - apply (ai_live _ _ _ I).
Qed.

Lemma inv_prefetch p l w runs C :
  arena_inv w runs C -> arena_inv (with_arena (set_prefetch p l (w_arena w)) w) runs C.
Proof. destruct w as [a live strs log]. intros [? ? ? ? ? ? ?]. by split. Qed.

Lemma inv_space u l w runs C :
  arena_inv w runs C -> arena_inv (with_arena (set_space u l (w_arena w)) w) runs C.
Proof. destruct w as [a live strs log]. intros [? ? ? ? ? ? ?]. by split. Qed.

(** *** A new block *)

Lemma fresh_not_inside p n a x : fresh_region p n a -> x ∈ words p n -> ~ inside a x.
Proof.
  intros (_ & _ & Hf) Hx%elem_of_words_range [_ He]. rewrite Exists_exists in He.
  rewrite Forall_forall in Hf. destruct He as (r & Hr & Hin). specialize (Hf r Hr). lia.
Qed.

Lemma block_Limit_range p b :
  aligned8 p -> 0 <= block_size b < 2 ^ 64 -> aligned8 (block_Limit p b) /\ block_Limit p b <= p + block_size b.
Proof.
  intros Hp Hb. unfold block_Limit, Pointer. change (u64 (-8)) with (notU 64 (2 ^ 3 - 1)).
  rewrite land_high by (unfold inU; lia). change (2 ^ 3) with 8. pose proof (Z.mul_div_le (block_size b) 8).
  split; [auto with aligned|lia].
Qed.

Lemma fresh_size p n a : fresh_region p n a -> 0 <= n < 2 ^ 64.
Proof. unfold fresh_region, in_space, addr_max. lia. Qed.

Lemma new_block_inv room w runs C a1 :
  arena_inv w runs C -> 0 <= room -> new_block room (w_arena w) a1 ->
  arena_inv (with_arena a1 w) ((limit_ a1, []) :: runs) C /\ ptr_ a1 + room <= limit_ a1.
Proof.
  intros I Hroom [(p & b & Eh & Hf & Ep & El & Hroom1 & Hm) Es Eu Ec Et].
  pose proof (fresh_size _ _ _ Hf) as Hsz. pose proof Hf as (Hp & Hsp & Hdis).
  destruct (block_Limit_range p b Hp Hsz) as [Hl8 Hl].
  assert (Hhdr : kBlockHeaderSize = 24) by reflexivity. rewrite Hhdr in *.
  assert (Hext : extent a1 ≡ₚ (p, block_size b) :: extent (w_arena w)).
  { unfold extent. by rewrite Eh, Es, fmap_cons, blocks_in_use_extent. }
  assert (Hin : forall x, inside (w_arena w) x -> inside a1 x).
  { intros x [Hx He]. split; [done|]. rewrite Hext. by right. }
  assert (Hfree : free_words a1 ⊆+ words p (block_size b)).
  { unfold free_words. rewrite Ep, El.
    trans (words p (24 + (block_Limit p b - (p + 24)))).
    - rewrite (words_app p 24) by (done || lia). by apply submseteq_inserts_l.
    - apply words_prefix; [|lia]. replace (24 + (block_Limit p b - (p + 24))) with (block_Limit p b - p) by lia.
      auto with aligned. }
  assert (Hpriv : forall x, x ∈ private_words (w_arena w) runs C -> inside (w_arena w) x).
  { intros x Hx. destruct (ai_owned _ _ _ I) as [_ Hall]. rewrite Forall_forall in Hall. apply Hall.
    unfold owned. rewrite !elem_of_app. tauto. }
  destruct (private_ext w runs C (memory a1) I) as [H1 H2].
  { intros x Hx. apply Hm. intros Hc. by eapply fresh_not_inside; [..|apply Hpriv]. }
  destruct w as [a live strs log]; simpl in *. split; [split; simpl|lia].
  - rewrite Ep, El. split; [auto with aligned|]. unfold in_space, addr_max in *. split; [done|]. lia.
  - rewrite Hext. constructor; [done|]. apply (ai_extent _ _ _ I).
  - destruct (ai_owned _ _ _ I) as [Hn Hall]. 
    assert (Hsub : exists k, owned (mkWorld a live strs log) runs C ≡ₚ free_words a ++ k /\
      owned (mkWorld a1 live strs log) ((limit_ a1, []) :: runs) C ≡ₚ free_words a1 ++ k).
    { unfold owned, private_words, string_space; simpl. rewrite Es, Eu, Ec, Et.
      eexists. by split. }
    destruct Hsub as (k & E1 & E2). rewrite E2. rewrite E1 in Hn, Hall.
    apply NoDup_app in Hn as (_ & _ & Hnk). apply Forall_app in Hall as [_ Hk].
    assert (Hnf : NoDup (free_words a1)) by apply NoDup_words. split.
    + apply NoDup_app. split; [done|]. split; [|done]. intros x Hx Hxk. rewrite Forall_forall in Hk.
      eapply fresh_not_inside; [done| |by apply Hk]. exact (elem_of_submseteq _ _ _ Hx Hfree).
    + apply Forall_app. split; [|eapply Forall_impl; [done|auto]].
      rewrite Forall_forall. intros x Hx. pose proof (elem_of_submseteq _ _ _ Hx Hfree) as Hxp.
      split; [exact (elem_of_words_aligned _ _ _ Hp Hxp)|]. rewrite Hext. left. simpl.
      apply elem_of_words_range in Hxp. lia.
  - rewrite Ec, Et. split; [done|]. apply (ai_cache _ _ _ I).
  - destruct (ai_runs _ _ _ I) as ([A _] & B & _). split.
    { split; [|by rewrite Eh]. unfold blocks_in_use. rewrite Eh. constructor; [|done]. split; [done|].
      rewrite El. simpl. by rewrite Z.add_0_r. }
    split; [done|]. constructor; [|done]. split; [|done]. simpl. by rewrite El.
  - rewrite Es, Eu. apply (ai_strings _ _ _ I).
  - apply (ai_live _ _ _ I).
Qed.

(** *** Cutting memory from the block *)

Lemma u64_small z : 0 <= z < 2 ^ 64 -> u64 z = z.
Proof. intros. by apply wrapU_id. Qed.

Lemma MaybeAllocateAligned_spec n w runs C :
  arena_inv w runs C -> good_size n ->
  MaybeAllocateAligned n (w_arena w) =
    if limit_ (w_arena w) <? ptr_ (w_arena w) + n then None
    else Some (ptr_ (w_arena w),
               MaybePrefetchForwards (ptr_ (w_arena w) + n) (set_ptr (ptr_ (w_arena w) + n) (w_arena w))).
Proof.
  intros I Hn. unfold MaybeAllocateAligned. destruct (ai_range _ _ _ I) as (_ & _ & H1 & H2).
  unfold good_size, addr_max in *. by rewrite u64_small by lia.
Qed.

(** [n] bytes at [ret] leave the free words; what lies before them is lost. *)
Lemma cut_front a ret n :
  aligned8 (ptr_ a) -> aligned8 ret -> aligned8 n -> 0 <= n -> ptr_ a <= ret -> ret + n <= limit_ a ->
  free_words a = words (ptr_ a) (ret - ptr_ a) ++ words ret n ++ free_words (set_ptr (ret + n) a).
Proof.
  intros Hp Hr Hn H0 Hl Hle. unfold free_words; simpl.
  rewrite <- words_app by (done || lia). replace ret with (ptr_ a + (ret - ptr_ a)) at 2 by lia.
  rewrite <- words_app; [f_equal; lia|auto with aligned|lia..].
Qed.

Lemma inv_cut w runs C ret n :
  arena_inv w runs C -> aligned8 ret -> aligned8 n -> good_size n ->
  ptr_ (w_arena w) <= ret -> ret + n <= limit_ (w_arena w) ->
  arena_inv (mkWorld (set_ptr (ret + n) (w_arena w)) ((ret, n) :: w_live w) (w_strings w) (w_log w)) runs C.
Proof.
  intros I Hr Hn Hg Hle Hle2. destruct (ai_range _ _ _ I) as (Hp & Hl & Hr1 & Hr2). unfold good_size in Hg.
  destruct w as [a live strs log]; simpl in *. split; simpl.
  - split; [auto with aligned|]. split; [done|]. lia.
  - apply (ai_extent _ _ _ I).
  - eapply owned_shrink; [exact I|done|]. unfold owned; simpl.
    rewrite (cut_front a ret n) by (done || lia).
    unfold private_words, string_space, free_words; simpl. solve_submseteq.
  - apply (ai_cache _ _ _ I).
  - apply (ai_runs _ _ _ I).
  - apply (ai_strings _ _ _ I).
  - constructor; [done|]. apply (ai_live _ _ _ I).
Qed.

Lemma inv_forwards next w runs C :
  arena_inv w runs C -> arena_inv (with_arena (MaybePrefetchForwards next (w_arena w)) w) runs C.
Proof. intros I. destruct (forwards_same next (w_arena w)) as [q ->]. by apply inv_prefetch. Qed.

Lemma maybe_allocate n w runs C p a' :
  arena_inv w runs C -> good_size n -> aligned8 n ->
  MaybeAllocateAligned n (w_arena w) = Some (p, a') ->
  arena_inv (mkWorld a' ((p, n) :: w_live w) (w_strings w) (w_log w)) runs C.
Proof.
  intros I Hg Hn. rewrite (MaybeAllocateAligned_spec n w runs C) by done.
  destruct (Z.ltb_spec (limit_ (w_arena w)) (ptr_ (w_arena w) + n)) as [|Hle]; [done|]. intros [= <- <-].
  destruct (ai_range _ _ _ I) as (Hp & _ & _).
  exact (inv_forwards _ _ _ _ (inv_cut w runs C (ptr_ (w_arena w)) n I Hp Hn Hg ltac:(lia) Hle)).
Qed.

Lemma MaybeAllocateAligned_strings n a p a' :
  MaybeAllocateAligned n a = Some (p, a') ->
  string_block_ a' = string_block_ a /\ string_block_unused_ a' = string_block_unused_ a.
Proof.
  unfold MaybeAllocateAligned. case_match; [done|]. intros [= _ <-].
  destruct (forwards_same (u64 (ptr_ a + n)) (set_ptr (u64 (ptr_ a + n)) a)) as [q ->]. done.
Qed.

(** *** The lists of returned arrays *)

Lemma cache_slot w runs C k l :
  arena_inv w runs C -> C !! k = Some l ->
  let slot := cached_blocks_ (w_arena w) + 8 * Z.of_nat k in
  aligned8 slot /\ slot ∈ words (cached_blocks_ (w_arena w)) (8 * cached_block_length_ (w_arena w)) /\
  exists h, memory (w_arena w) !! slot = Some h /\ list_at (memory (w_arena w)) h l.
Proof.
  intros I Hk slot. destruct (ai_cache _ _ _ I) as (Hc & Hlen & _ & Ha).
  split; [unfold slot; auto with aligned|]. split; [|by apply Hc].
  apply table_word. apply lookup_lt_Some in Hk. lia.
Qed.

Lemma slots_differ (table : Z) i k : i <> k -> table + 8 * Z.of_nat i <> table + 8 * Z.of_nat k.
Proof. lia. Qed.

(** Writing the slot of list [k], and words that are not the arena's own. *)
Lemma cache_write w runs C k l l' h' m' :
  arena_inv w runs C -> C !! k = Some l ->
  (forall x, x <> cached_blocks_ (w_arena w) + 8 * Z.of_nat k -> x ∈ private_words (w_arena w) runs C ->
    m' !! x = memory (w_arena w) !! x) ->
  m' !! (cached_blocks_ (w_arena w) + 8 * Z.of_nat k) = Some h' -> list_at m' h' l' ->
  cache_at m' (cached_blocks_ (w_arena w)) (<[k := l']> C) /\
  Forall (fun r => aligned8 r.1 /\ nodes_at m' r.1 r.2) runs.
Proof.
  intros I Hk Hx Eh Hl'. destruct (cache_slot w runs C k l I Hk) as (_ & Hs & _).
  destruct (ai_cache _ _ _ I) as (Hc & Hlen & _). destruct (ai_runs _ _ _ I) as (_ & _ & Hr).
  destruct (table_apart w runs C _ I Hs) as [Nr Nc]. split.
  - eapply cache_update; [exact Eh|exact Hl'| |exact Hc]. intros i li Hne Hi. split.
    + apply Hx; [by apply slots_differ|]. unfold private_words. rewrite !elem_of_app. right; right.
      apply table_word. apply lookup_lt_Some in Hi. lia.
    + intros p Hp. assert (p ∈ cache_words 0 C) by (by eapply cache_member).
      apply Hx; [by intros ->|]. unfold private_words. rewrite !elem_of_app. tauto.
  - eapply runs_ext; [|exact Hr]. intros x Hin. apply Hx; [by intros ->|].
    unfold private_words. rewrite !elem_of_app. tauto.
Qed.

(** The lists, the table and what is handed out change together: their words
    change hands among themselves. *)
Lemma inv_cache w runs C m' len' table' C' live' :
  arena_inv w runs C ->
  cache_at m' table' C' -> Forall (fun r => aligned8 r.1 /\ nodes_at m' r.1 r.2) runs ->
  Z.of_nat (length C') = len' -> len' <= 64 -> aligned8 table' ->
  Forall (fun r => aligned8 r.1 /\ aligned8 r.2 /\ good_size r.2) live' ->
  (cache_words 0 C' ++ words table' (8 * len')) ++ live_words live' ⊆+
    (cache_words 0 C ++ words (cached_blocks_ (w_arena w)) (8 * cached_block_length_ (w_arena w))) ++ live_words (w_live w) ->
  arena_inv (mkWorld (set_cached len' table' (set_memory m' (w_arena w))) live' (w_strings w) (w_log w)) runs C'.
Proof.
  intros I Hc Hr Hlen H64 Ha Hl Hs. destruct w as [a live strs log]; simpl in *. split; simpl.
  - apply (ai_range _ _ _ I).
  - apply (ai_extent _ _ _ I).
  - eapply owned_shrink; [exact I|done|]. unfold owned, private_words; simpl.
    change (free_words (set_cached _ _ _)) with (free_words a). change (string_space (set_cached _ _ _)) with (string_space a).
    apply submseteq_Permutation in Hs as [lost Hs].
    etrans; [|apply (Permutation_submseteq (free_words a ++ string_space a ++ (runs ≫= run_words) ++
      ((cache_words 0 C ++ words (cached_blocks_ a) (8 * cached_block_length_ a)) ++ live_words live) ++ strings_words strs));
      solve_Permutation].
    rewrite Hs. solve_submseteq.
  - by rewrite Hlen.
  - destruct (ai_runs _ _ _ I) as (A & B & _). done.
  - apply (ai_strings _ _ _ I).
  - done.
Qed.

Lemma live_tail_ok w runs C r live :
  arena_inv w runs C -> w_live w ≡ₚ r :: live -> Forall (fun r => aligned8 r.1 /\ aligned8 r.2 /\ good_size r.2) live.
Proof. intros I Hp. pose proof (ai_live _ _ _ I) as Hl. rewrite Hp in Hl. by apply Forall_cons in Hl as [_ Hl]. Qed.

(** [TryAllocateFromCachedBlock] gives null, or the first array of the list
    for the size, which is large enough. *)
Lemma try_cached n w runs C :
  arena_inv w runs C -> good_size n -> aligned8 n ->
  (TryAllocateFromCachedBlock n (w_arena w) = Ret (0, w_arena w) /\
   forall p l, 16 <= n -> C !! Z.to_nat (request_class n) <> Some (p :: l)) \/
  exists p l a', C !! Z.to_nat (request_class n) = Some (p :: l) /\ p <> 0 /\
    TryAllocateFromCachedBlock n (w_arena w) = Ret (p, a') /\
    arena_inv (mkWorld a' ((p, n) :: w_live w) (w_strings w) (w_log w)) runs (<[Z.to_nat (request_class n) := l]> C).
Proof.
  intros I Hg Hn. unfold TryAllocateFromCachedBlock. destruct (Z.ltb_spec n 16) as [|H16]; [left; split; [done|lia]|].
  change (bit_width 64 (n - 1) - 4) with (request_class n).
  destruct (request_class_fits n) as [Hr Hfit]; [unfold good_size, addr_max in Hg; lia|].
  destruct (ai_cache _ _ _ I) as (Hc & Hlen & H64 & Ha).
  destruct (Z.leb_spec (cached_block_length_ (w_arena w)) (request_class n)) as [|Hlt].
  { left. split; [done|]. intros p l _ Hk. apply lookup_lt_Some in Hk. lia. }
  set (k := Z.to_nat (request_class n)) in *. assert (Ek : request_class n = Z.of_nat k) by lia.
  destruct (lookup_lt_is_Some_2 C k ltac:(lia)) as [l0 Hk].
  destruct (cache_slot w runs C k l0 I Hk) as (Hs8 & Hs & h & Eh & Hl). rewrite Ek.
  rewrite (load_Some _ _ _ Hs8 Eh). cbn [obind]. destruct l0 as [|p l]; simpl in Hl.
  { subst h. left. split; [done|]. intros p l _. by rewrite Hk. }
  destruct Hl as (-> & Hp0 & Hp8 & next & Enext & Hl). right.
  destruct (Z.eqb_spec p 0); [done|]. rewrite (load_Some _ _ _ Hp8 Enext). cbn [obind]. rewrite write_Ret by done. cbn [obind].
  eexists p, l, _. split; [done|]. split; [done|]. split; [reflexivity|].
  set (m' := <[_ := next]> (memory (w_arena w))).
  destruct (cache_write w runs C k (p :: l) l next m' I Hk) as [H1 H2].
  { intros x Hne _. unfold m'. by rewrite lookup_insert_ne by done. }
  { apply lookup_insert_eq. }
  { eapply list_at_ext; [|exact Hl]. intros q Hq. unfold m'. rewrite lookup_insert_ne; [done|]. intros <-.
    apply (proj2 (table_apart w runs C _ I Hs)). eapply cache_member; [done|exact Hk|]. by right. }
  assert (Hpow : words p n ⊆+ words p (2 ^ (Z.of_nat k + 4))) by (apply words_prefix; [done|rewrite <- Ek; lia]).
  clearbody m' k.
  refine (inv_cache w runs C m' _ _ _ _ I H1 H2 _ _ Ha _ _); [by rewrite length_insert|lia|by constructor; [|apply (ai_live _ _ _ I)]|].
  rewrite (cache_words_pop 0 C k l p Hk), Z.add_0_l. apply submseteq_Permutation in Hpow as [lost ->].
  unfold live_words; simpl. solve_submseteq.
Qed.

Lemma copy_words_spec n src dst m :
  aligned8 src -> aligned8 dst ->
  (forall i, (i < n)%nat -> is_Some (m !! (src + 8 * Z.of_nat i))) ->
  (forall i j, (i < n)%nat -> (j < n)%nat -> src + 8 * Z.of_nat i <> dst + 8 * Z.of_nat j) ->
  exists m', copy_words n src dst m = Ret m' /\
    (forall i, (i < n)%nat -> m' !! (dst + 8 * Z.of_nat i) = m !! (src + 8 * Z.of_nat i)) /\
    forall x, (forall i, (i < n)%nat -> x <> dst + 8 * Z.of_nat i) -> m' !! x = m !! x.
Proof.
  revert src dst m. induction n as [|n IH]; intros src dst m Hs Hd Hr Hne.
  { exists m. split; [done|]. split; [lia|done]. }
  destruct (Hr 0%nat ltac:(lia)) as [v Ev]. rewrite Z.add_0_r in Ev.
  cbn [copy_words]. rewrite (load_Some _ _ _ Hs Ev). cbn [obind]. rewrite write_Ret by done. cbn [obind].
  assert (Hnext : forall b (i : nat), b + 8 + 8 * Z.of_nat i = b + 8 * Z.of_nat (S i)) by lia.
  destruct (IH (src + 8) (dst + 8) (<[dst := v]> m)) as (m' & E & H1 & H2); [auto with aligned..| | |].
  - intros i Hi. rewrite Hnext. specialize (Hne (S i) 0%nat). rewrite lookup_insert_ne by lia. apply Hr. lia.
  - intros i j Hi Hj. rewrite !Hnext. apply Hne; lia.
  - exists m'. split; [exact E|]. split.
    + intros [|i] Hi.
      * rewrite !Z.add_0_r, Ev, H2; [apply lookup_insert_eq|]. lia.
      * rewrite <- !Hnext, H1 by lia. rewrite Hnext. specialize (Hne (S i) 0%nat). by rewrite lookup_insert_ne by lia.
    + intros x Hx. rewrite H2.
      * rewrite lookup_insert_ne; [done|]. specialize (Hx 0%nat). lia.
      * intros i Hi. rewrite Hnext. apply Hx. lia.
Qed.

Lemma fill_words_spec n dst m :
  aligned8 dst ->
  exists m', fill_words n dst m = Ret m' /\
    (forall i, (i < n)%nat -> m' !! (dst + 8 * Z.of_nat i) = Some 0) /\
    forall x, (forall i, (i < n)%nat -> x <> dst + 8 * Z.of_nat i) -> m' !! x = m !! x.
Proof.
  revert dst m. induction n as [|n IH]; intros dst m Hd.
  { exists m. split; [done|]. split; [lia|done]. }
  cbn [fill_words]. rewrite write_Ret by done. cbn [obind].
  assert (Hnext : forall b (i : nat), b + 8 + 8 * Z.of_nat i = b + 8 * Z.of_nat (S i)) by lia.
  destruct (IH (dst + 8) (<[dst := 0]> m)) as (m' & E & H1 & H2); [auto with aligned|].
  exists m'. split; [exact E|]. split.
  - intros [|i] Hi.
    + rewrite Z.add_0_r, H2; [apply lookup_insert_eq|]. lia.
    + rewrite <- Hnext. apply H1. lia.
  - intros x Hx. rewrite H2.
    + rewrite lookup_insert_ne; [done|]. specialize (Hx 0%nat). lia.
    + intros i Hi. rewrite Hnext. apply Hx. lia.
Qed.

(** The caller gives back what it was given. *)
Lemma live_split w runs C p n live :
  arena_inv w runs C -> w_live w ≡ₚ (p, n) :: live ->
  aligned8 p /\ aligned8 n /\ good_size n /\ (forall x, x ∈ words p n -> x ∉ private_words (w_arena w) runs C) /\
  (forall x, x ∈ words p n -> inside (w_arena w) x).
Proof.
  intros I Hp. pose proof (ai_live _ _ _ I) as Hl. rewrite Hp in Hl. apply Forall_cons in Hl as [(H1 & H2 & H3) _].
  split; [done|]. split; [done|]. split; [done|].
  assert (Hx : forall x, x ∈ words p n -> x ∈ live_words (w_live w)).
  { intros x Hx. apply list_elem_of_bind. exists (p, n). split; [done|]. rewrite Hp. by left. }
  split.
  - intros x Hin Hpr. destruct (private_apart w runs C x I Hpr) as (_ & _ & Hn & _). by apply Hn, Hx.
  - intros x Hin. destruct (ai_owned _ _ _ I) as [_ Hall]. rewrite Forall_forall in Hall. apply Hall.
    unfold owned. rewrite !elem_of_app. pose proof (Hx x Hin). tauto.
Qed.

(** A word of the arena's blocks is not at address 0. *)
Lemma inside_positive w runs C x : arena_inv w runs C -> inside (w_arena w) x -> 0 < x.
Proof.
  intros I [_ He]. pose proof (ai_extent _ _ _ I) as Hf. rewrite Forall_forall in Hf.
  apply Exists_exists in He as (r & Hr & Hx). specialize (Hf r Hr). unfold in_space in Hf. lia.
Qed.

(** The table is copied into an array that finds no list, and the rest of it
    is filled with null pointers. *)
Lemma table_moved p n size w runs C live :
  arena_inv w runs C -> w_live w ≡ₚ (p, n) :: live -> 16 <= size <= n ->
  cached_block_length_ (w_arena w) <= return_class size ->
  exists m', ReturnArrayMemory p size (w_arena w) = Ret (set_cached (u8 (Z.min 64 (size / 8))) p (set_memory m' (w_arena w))) /\
    (forall i, (i < length C)%nat -> m' !! (p + 8 * Z.of_nat i) = memory (w_arena w) !! (cached_blocks_ (w_arena w) + 8 * Z.of_nat i)) /\
    (forall i, (length C <= i)%nat -> Z.of_nat i < size / 8 -> m' !! (p + 8 * Z.of_nat i) = Some 0) /\
    forall x, x ∈ private_words (w_arena w) runs C -> m' !! x = memory (w_arena w) !! x.
Proof.
  intros I Hlive Hs Hcls. destruct (live_split w runs C p n live I Hlive) as (Hp8 & Hn8 & Hg & Hpriv & Hin).
  unfold good_size, addr_max in Hg. destruct (return_class_fits size ltac:(lia)) as [Hr Hfit].
  destruct (ai_cache _ _ _ I) as (Hc & Hlen & H64 & Ha).
  unfold ReturnArrayMemory. destruct (Z.ltb_spec size 16); [lia|].
  change (bit_width 64 size - 5) with (return_class size).
  destruct (Z.leb_spec (cached_block_length_ (w_arena w)) (return_class size)); [|lia].
  pose proof (table_fits size (cached_block_length_ (w_arena w)) ltac:(lia) ltac:(lia)) as Htab.
  set (len := cached_block_length_ (w_arena w)) in *. set (ns := size / 8) in *.
  assert (Hns : 8 * ns <= size) by (apply Z.mul_div_le; lia).
  assert (Hpw : forall i, 0 <= i < ns -> p + 8 * i ∈ words p n).
  { intros i Hi. eapply elem_of_submseteq; [apply (table_word i p ns Hi)|]. apply words_prefix; [apply aligned8_mul|lia]. }
  destruct (copy_words_spec (Z.to_nat len) (cached_blocks_ (w_arena w)) p (memory (w_arena w))) as (m1 & E1 & Hc1 & Ho1); [done|done| | |].
  { intros i Hi. destruct (lookup_lt_is_Some_2 C i ltac:(lia)) as [l Hl]. destruct (Hc i l Hl) as (h & -> & _). done. }
  { intros i j Hi Hj Heq. apply (Hpriv (p + 8 * Z.of_nat j)); [apply Hpw; lia|]. rewrite <- Heq.
    unfold private_words. rewrite !elem_of_app. right; right. apply table_word. lia. }
  rewrite E1. cbn [obind]. destruct (Z.ltb_spec ns len); [lia|].
  destruct (fill_words_spec (Z.to_nat (ns - len)) (p + 8 * len) m1) as (m2 & E2 & Hc2 & Ho2); [auto with aligned|].
  rewrite E2. cbn [obind]. exists m2. split; [reflexivity|]. split; [|split].
  - intros i Hi. rewrite Ho2 by lia. apply Hc1. lia.
  - intros i Hi Hin2. specialize (Hc2 (i - length C)%nat ltac:(lia)). rewrite <- Hc2. f_equal. lia.
  - intros x Hx. rewrite Ho2, Ho1; [done|..]; intros i Hi ->; eapply Hpriv; try exact Hx.
    + apply Hpw. lia.
    + replace (p + 8 * len + 8 * Z.of_nat i) with (p + 8 * (len + Z.of_nat i)) by lia. apply Hpw. lia.
Qed.

Lemma return_grows p n size w runs C live :
  arena_inv w runs C -> w_live w ≡ₚ (p, n) :: live -> 16 <= size <= n ->
  cached_block_length_ (w_arena w) <= return_class size ->
  exists a', ReturnArrayMemory p size (w_arena w) = Ret a' /\
    arena_inv (mkWorld a' live (w_strings w) (w_log w)) runs (C ++ replicate (Z.to_nat (Z.min 64 (size / 8)) - length C) []).
Proof.
  intros I Hlive Hs Hcls. destruct (live_split w runs C p n live I Hlive) as (Hp8 & Hn8 & Hg & _ & _).
  unfold good_size, addr_max in Hg. destruct (ai_cache _ _ _ I) as (Hc & Hlen & H64 & Ha).
  pose proof (table_fits size (cached_block_length_ (w_arena w)) ltac:(lia) ltac:(lia)) as Htab.
  destruct (table_moved p n size w runs C live I Hlive Hs Hcls) as (m' & E & Hlo & Hhi & Hout).
  set (ns := size / 8) in *. assert (Hns : 8 * ns <= size) by (apply Z.mul_div_le; lia).
  rewrite (wrapU_id 8 (Z.min 64 ns)) in E by (unfold inU; lia). eexists. split; [exact E|].
  destruct (private_ext w runs C m' I Hout) as [_ Hruns].
  refine (inv_cache w runs C m' _ _ _ _ I _ Hruns _ _ Hp8 _ _); [| |lia|by eapply live_tail_ok|].
  - intros i l Hi. apply lookup_app_Some in Hi as [Hi|[Hge2 Hi]].
    + destruct (Hc i l Hi) as (h & Eh & Hl). exists h. rewrite Hlo by (by eapply lookup_lt_Some). split; [done|].
      eapply list_at_ext; [|done]. intros q Hq. apply Hout. unfold private_words. rewrite !elem_of_app.
      right; left. by eapply cache_member.
    + apply lookup_replicate in Hi as [-> Hi]. exists 0. split; [apply Hhi; lia|done].
  - rewrite length_app, length_replicate. lia.
  - assert (Htw : words p (8 * Z.min 64 ns) ⊆+ words p n) by (apply words_prefix; [apply aligned8_mul|lia]).
    apply submseteq_Permutation in Htw as [lost Hw]. rewrite cache_words_empties, Hlive.
    unfold live_words; simpl. rewrite Hw. solve_submseteq.
Qed.

(** An array that finds its list becomes the first of it. *)
Lemma return_links p n size w runs C live :
  arena_inv w runs C -> w_live w ≡ₚ (p, n) :: live -> 16 <= size <= n ->
  return_class size < cached_block_length_ (w_arena w) ->
  exists a' l, C !! Z.to_nat (return_class size) = Some l /\ ReturnArrayMemory p size (w_arena w) = Ret a' /\
    arena_inv (mkWorld a' live (w_strings w) (w_log w)) runs (<[Z.to_nat (return_class size) := p :: l]> C).
Proof.
  intros I Hlive Hs Hcls. destruct (live_split w runs C p n live I Hlive) as (Hp8 & Hn8 & Hg & Hpriv & Hin).
  unfold good_size, addr_max in Hg. destruct (return_class_fits size ltac:(lia)) as [Hr Hfit].
  destruct (ai_cache _ _ _ I) as (Hc & Hlen & H64 & Ha).
  unfold ReturnArrayMemory. destruct (Z.ltb_spec size 16); [lia|].
  change (bit_width 64 size - 5) with (return_class size).
  destruct (Z.leb_spec (cached_block_length_ (w_arena w)) (return_class size)); [lia|].
  set (k := Z.to_nat (return_class size)) in *. assert (Ek : return_class size = Z.of_nat k) by lia. rewrite Ek.
  destruct (lookup_lt_is_Some_2 C k ltac:(lia)) as [l Hk].
  destruct (cache_slot w runs C k l I Hk) as (Hs8 & Hsw & h & Eh & Hl).
  assert (Hpn : p ∈ words p n) by (rewrite words_cons by lia; by left).
  assert (Hpp := Hpriv p Hpn). pose proof (inside_positive w runs C p I (Hin p Hpn)) as Hp0.
  assert (Hmem : forall x, x ∈ cache_words 0 C \/ x ∈ words (cached_blocks_ (w_arena w)) (8 * cached_block_length_ (w_arena w)) -> x <> p).
  { intros x Hx ->. apply Hpp. unfold private_words. rewrite !elem_of_app. tauto. }
  assert (Hslot := Hmem _ (or_intror Hsw)).
  rewrite (load_Some _ _ _ Hs8 Eh). cbn [obind]. rewrite write_Ret by done. cbn [obind].
  rewrite write_Ret by done. cbn [obind]. eexists _, l. split; [done|]. split; [reflexivity|].
  set (m' := <[_ := p]> _).
  destruct (cache_write w runs C k l (p :: l) p m' I Hk) as [H1 H2].
  { intros x Hne Hx. unfold m'. rewrite lookup_insert_ne by done. apply lookup_insert_ne. by intros ->. }
  { apply lookup_insert_eq. }
  { simpl. split; [done|]. split; [lia|]. split; [done|]. exists h. split.
    - unfold m'. rewrite lookup_insert_ne by done. apply lookup_insert_eq.
    - eapply list_at_ext; [|exact Hl]. intros q Hq. assert (q ∈ cache_words 0 C) by (by eapply cache_member).
      unfold m'. rewrite !lookup_insert_ne; [done| |].
      + intros <-. by eapply (Hmem p); [left|].
      + intros <-. apply (proj2 (table_apart w runs C _ I Hsw)). done. }
  assert (Hpow : words p (2 ^ (Z.of_nat k + 4)) ⊆+ words p n).
  { apply words_prefix; [apply pow4_class; lia|]. rewrite <- Ek. destruct (pow4_class (return_class size)); lia. }
  clearbody m' k.
  refine (inv_cache w runs C m' _ _ _ _ I H1 H2 _ _ Ha _ _); [by rewrite length_insert|lia|by eapply live_tail_ok|].
  rewrite (cache_words_push 0 C k l p Hk), Hlive, Z.add_0_l.
  apply submseteq_Permutation in Hpow as [lost Hpow]. unfold live_words; simpl. rewrite Hpow. solve_submseteq.
Qed.

(** *** Cleanups *)

(** The node goes to the end of the free words, in front of the last one. *)
Lemma add_existing elem d w runs C :
  arena_inv w runs C -> taggable elem -> ptr_ (w_arena w) + Tag_Size (cleanup_Type d) <= limit_ (w_arena w) ->
  exists a' runs', AddCleanupFromExisting elem d (w_arena w) = Ret a' /\
    arena_inv (mkWorld a' (w_live w) (w_strings w) ((elem, d) :: w_log w)) runs' C.
Proof.
  intros I He Hle. destruct (ai_range _ _ _ I) as (Hp & Hl & Hr1 & Hr2).
  destruct (ai_runs _ _ _ I) as (Hof & Elog & Hruns).
  assert (Hlim : 0 < limit_ (w_arena w)) by (destruct (Tag_Size_pos d); lia).
  destruct (runs_of_head _ _ Hof Hlim) as (l & rest & Eruns).
  set (n := Tag_Size (cleanup_Type d)) in *. pose proof (Tag_Size_pos d) as Hn. fold n in Hn.
  pose proof (Tag_Size_aligned d) as Hn8. fold n in Hn8.
  assert (Hpos : aligned8 (limit_ (w_arena w) - n)) by auto with aligned.
  assert (Hfree : free_words (w_arena w) =
    words (ptr_ (w_arena w)) (limit_ (w_arena w) - n - ptr_ (w_arena w)) ++ words (limit_ (w_arena w) - n) n).
  { unfold free_words. replace (limit_ (w_arena w) - n) with (ptr_ (w_arena w) + (limit_ (w_arena w) - n - ptr_ (w_arena w))) at 2 by lia.
    rewrite <- words_app; [f_equal; lia|auto with aligned|lia..]. }
  unfold AddCleanupFromExisting. fold n. cbv zeta.
  destruct (backwards_same (limit_ (w_arena w) - n) (with_limit (limit_ (w_arena w) - n) (w_arena w))) as [q Eq].
  cbn [limit_ with_limit] in Eq |- *. rewrite Eq. cbn [limit_ memory set_prefetch with_limit].
  destruct (CreateNode_spec (limit_ (w_arena w) - n) elem d (memory (w_arena w)) Hpos He) as (m' & -> & Hnode & Hout).
  cbn [obind]. fold n in Hout. eexists _, ((limit_ (w_arena w) - n, (elem, d) :: l) :: rest). split; [reflexivity|].
  destruct (private_ext w runs C m' I) as [H1 H2].
  { intros x Hx. apply Hout. intros Hc. destruct (private_apart w runs C x I Hx) as [Hf _]. apply Hf.
    rewrite Hfree, elem_of_app. by right. }
  rewrite Eruns in H2. apply Forall_cons in H2 as [[_ H2] H3]. cbn [fst snd] in H2.
  pose proof (run_words_cons (limit_ (w_arena w) - n) elem d l) as Hrun. fold n in Hrun.
  replace (limit_ (w_arena w) - n + n) with (limit_ (w_arena w)) in Hrun by lia.
  destruct w as [a live strs log]; simpl in *. split; simpl.
  - split; [done|]. split; [done|]. lia.
  - apply (ai_extent _ _ _ I).
  - eapply owned_shrink; [exact I|done|]. unfold owned, private_words; simpl. rewrite Hfree, Hrun, Eruns.
    change (free_words (set_memory _ _)) with (words (ptr_ a) (limit_ a - n - ptr_ a)).
    change (string_space (set_memory _ _)) with (string_space a). cbn. solve_submseteq.
  - split; [done|]. apply (ai_cache _ _ _ I).
  - split.
    { rewrite Eruns in Hof. refine (runs_of_push a _ elem d l rest _ Hof Hlim _); [done|simpl; fold n; lia]. }
    split; [rewrite <- Elog, Eruns; done|]. constructor; [|done]. simpl. split; [done|].
    split; [done|]. split; [done|]. fold n. by replace (limit_ a - n + n) with (limit_ a) by lia.
  - apply (ai_strings _ _ _ I).
  - apply (ai_live _ _ _ I).
Qed.

(** *** Strings *)

(** The last string of the block that is not in use. *)
Lemma inv_string w runs C b sb rest :
  arena_inv w runs C -> string_block_ (w_arena w) = (b, sb) :: rest -> string_block_unused_ (w_arena w) <> 0 ->
  let unused := string_block_unused_ (w_arena w) - sizeof_string in
  0 <= unused /\
  arena_inv (mkWorld (set_string (string_block_ (w_arena w)) unused (w_arena w)) (w_live w)
    (AtOffset b unused :: w_strings w) (w_log w)) runs C.
Proof.
  intros I Esb Hne unused. destruct (ai_strings _ _ _ I) as ((j & Hj & Ej) & Hb & Hmax & Hok).
  pose proof sizeof_string_fits as Hsz. pose proof sizeof_string_aligned as Ha.
  assert (Hj1 : 1 <= j). { assert (j <> 0) by (intros ->; lia). lia. }
  assert (Eu : unused = (j - 1) * sizeof_string) by (unfold unused; lia).
  assert (Hu : 0 <= unused) by (rewrite Eu; nia). split; [done|].
  assert (Hu8 : aligned8 unused).
  { rewrite Eu. apply aligned8_form in Ha as [i Ei]. rewrite Ei. replace ((j - 1) * (8 * i)) with (8 * ((j - 1) * i)) by lia.
    apply aligned8_mul. }
  assert (Hsp : string_space (w_arena w) = words (b + sizeof_StringBlock) unused ++ words (AtOffset b unused) sizeof_string).
  { unfold string_space, AtOffset. rewrite Esb. rewrite <- words_app by (done || lia). f_equal. unfold unused. lia. }
  clearbody unused. destruct w as [a live strs log]; simpl in *. split; simpl.
  - apply (ai_range _ _ _ I).
  - apply (ai_extent _ _ _ I).
  - eapply owned_shrink; [exact I|done|]. unfold owned; simpl. rewrite Hsp.
    unfold string_space; simpl. rewrite Esb.
    unfold private_words, free_words, strings_words; simpl. solve_submseteq.
  - apply (ai_cache _ _ _ I).
  - apply (ai_runs _ _ _ I).
  - split; [exists (j - 1); split; [lia|done]|]. split; [by rewrite Esb|]. split; [nia|done].
  - apply (ai_live _ _ _ I).
Qed.

(** A new block of strings, in memory that nobody owns. *)
Lemma inv_install w runs C p b m' :
  arena_inv w runs C -> string_block_unused_ (w_arena w) = 0 -> string_block_ok b -> aligned8 p ->
  in_space p (allocated_size b) -> (forall x, x ∈ words p (allocated_size b) -> x ∉ owned w runs C) ->
  (forall x, x ∉ words p (allocated_size b) -> m' !! x = memory (w_arena w) !! x) ->
  arena_inv (with_arena (set_string ((p, b) :: string_block_ (w_arena w)) (effective_size b)
    (set_memory m' (w_arena w))) w) runs C.
Proof.
  intros I Hu0 Hb Hp Hsp Hdis Hm. destruct (private_ext w runs C m' I) as [H1 H2].
  { intros x Hx. apply Hm. intros Hc. apply (Hdis x Hc). unfold owned. rewrite !elem_of_app. tauto. }
  pose proof Hb as ((k & Hk & Ek) & Ea & Hmax & _). pose proof sizeof_string_fits as Hsz.
  assert (He : 0 <= effective_size b) by (rewrite Ek; nia).
  assert (Hspace : words (p + sizeof_StringBlock) (effective_size b) ⊆+ words p (allocated_size b)).
  { rewrite Ea, (words_app p sizeof_StringBlock) by (done || lia). by apply submseteq_inserts_l. }
  destruct (ai_owned _ _ _ I) as [Hn Hall].
  destruct w as [a live strs log]; simpl in *.
  assert (Hin : forall x, inside a x -> inside (set_string ((p, b) :: string_block_ a) (effective_size b) (set_memory m' a)) x).
  { intros x [Hx Hex]. split; [done|]. unfold extent; simpl. rewrite Exists_exists in Hex |- *.
    destruct Hex as (r & Hr & Hrx). exists r. split; [|done]. unfold extent in Hr. rewrite !elem_of_app in *. set_solver. }
  split; simpl.
  - apply (ai_range _ _ _ I).
  - pose proof (ai_extent _ _ _ I) as Hext. unfold extent in Hext |- *; simpl in *.
    apply Forall_app in Hext as [X1 X2]. apply Forall_app. split; [done|]. by constructor.
  - assert (E : owned (mkWorld (set_string ((p, b) :: string_block_ a) (effective_size b) (set_memory m' a)) live strs log) runs C
        ⊆+ words (p + sizeof_StringBlock) (effective_size b) ++ owned (mkWorld a live strs log) runs C).
    { unfold owned, private_words, free_words; simpl. unfold string_space at 1. simpl. solve_submseteq. }
    assert (Hnd : NoDup (words (p + sizeof_StringBlock) (effective_size b) ++ owned (mkWorld a live strs log) runs C)).
    { apply NoDup_app. split; [apply NoDup_words|]. split; [|done]. intros x Hx. apply Hdis.
      exact (elem_of_submseteq _ _ _ Hx Hspace). }
    split.
    + apply submseteq_Permutation in E as [lost E]. rewrite E in Hnd. by apply NoDup_app in Hnd as [? _].
    + apply Forall_forall. intros x Hx. apply (elem_of_submseteq _ _ _ Hx) in E. apply elem_of_app in E as [E|E].
      * apply (elem_of_submseteq _ _ _ E) in Hspace. split; [exact (elem_of_words_aligned _ _ _ Hp Hspace)|].
        apply Exists_exists. exists (p, allocated_size b). split; [unfold extent; simpl; set_solver|].
        by apply elem_of_words_range in Hspace.
      * rewrite Forall_forall in Hall. by apply Hin, Hall.
  - split; [done|]. apply (ai_cache _ _ _ I).
  - destruct (ai_runs _ _ _ I) as (A & B & _). done.
  - split; [by exists k; split; [lia|]|]. split; [done|]. split; [unfold sizeof_StringBlock in *; lia|done].
  - apply (ai_live _ _ _ I).
Qed.

(** Memory that has been handed out, taken from the list. *)
Lemma inv_forget a p n live strs log runs C :
  arena_inv (mkWorld a ((p, n) :: live) strs log) runs C ->
  arena_inv (mkWorld a live strs log) runs C /\ aligned8 p /\
  (forall x, x ∈ words p n -> x ∉ owned (mkWorld a live strs log) runs C) /\
  (8 <= n -> in_space p n).
Proof.
  intros I. pose proof (ai_live _ _ _ I) as Hl. simpl in Hl. apply Forall_cons in Hl as [(Hp & Hn & Hg) Hl].
  assert (E : owned (mkWorld a ((p, n) :: live) strs log) runs C ≡ₚ words p n ++ owned (mkWorld a live strs log) runs C).
  { unfold owned, live_words; simpl. solve_Permutation. }
  destruct (ai_owned _ _ _ I) as [Hnd Hall]. rewrite E in Hnd, Hall. simpl in Hall.
  apply NoDup_app in Hnd as (_ & Hdis & _). apply Forall_app in Hall as [Hall _]. split; [|split; [done|split; [done|]]].
  - split; try apply I; simpl; [|done]. eapply owned_shrink; [exact I|done|]. rewrite E. by apply submseteq_inserts_l.
  - intros Hn8. rewrite Forall_forall in Hall. simpl in Hp, Hn. apply aligned8_form in Hn as [j ->].
    assert (Hlast : p + 8 * (j - 1) ∈ words p (8 * j)) by (apply table_word; lia).
    assert (Hfirst : p ∈ words p (8 * j)) by (rewrite words_cons by lia; by left).
    destruct (Hall _ Hlast) as [_ He1]. pose proof (inside_positive _ _ _ _ I (Hall _ Hfirst)).
    apply Exists_exists in He1 as (r & Hr & Hrx). pose proof (ai_extent _ _ _ I) as Hext.
    rewrite Forall_forall in Hext. specialize (Hext r Hr). unfold in_space in *. simpl in Hg. unfold good_size in Hg. lia.
Qed.
End operations.

(** ** The operations, with the fallbacks *)

Section complete.
Context `{CH : CleanupHost, SH : StringHost, Out : SerialArenaOut}.
Context {SHL : StringHostLaws} {Laws : SerialArenaOutLaws}.
Implicit Types (a : SerialArena) (w : World).

Definition ok w : Prop := exists runs C, arena_inv w runs C.

(** A result that keeps the invariant, or a lack of memory. *)
Definition returns_ok {A} (r : outcome A) (Q : A -> Prop) : Prop := (exists e, r = Throw e) \/ exists x, r = Ret x /\ Q x.

Lemma AllocateAligned_ok client n w :
  ok w -> good_size n -> aligned8 n ->
  returns_ok (AllocateAligned client n (w_arena w))
    (fun r => ok (mkWorld r.2 ((r.1, n) :: w_live w) (w_strings w) (w_log w))).
Proof.
  intros (runs & C & I) Hg Hn. unfold AllocateAligned, returns_ok.
  assert (Hslow : returns_ok (match MaybeAllocateAligned n (w_arena w) with Some r => Ret r | None => AllocateAlignedFallback n (w_arena w) end)
    (fun r => ok (mkWorld r.2 ((r.1, n) :: w_live w) (w_strings w) (w_log w)))).
  { unfold returns_ok. destruct (MaybeAllocateAligned n (w_arena w)) as [[p a']|] eqn:E.
    { right. eexists. split; [done|]. exists runs, C. by apply (maybe_allocate n w). }
    destruct (AllocateAlignedFallback_law n (w_arena w) Hg Hn) as [|(a1 & [p a'] & Hnb & E1 & ->)]; [by left|].
    right. eexists. split; [done|]. destruct (new_block_inv n w runs C a1 I ltac:(unfold good_size in Hg; lia) Hnb) as [I1 _].
    exists ((limit_ a1, []) :: runs), C. exact (maybe_allocate n _ _ _ p a' I1 Hg Hn E1). }
  destruct client; [exact Hslow|].
  destruct (try_cached n w runs C I Hg Hn) as [[-> _]|(p & l & a' & _ & Hp & -> & I')]; [exact Hslow|].
  cbn [obind]. destruct (Z.eqb_spec p 0); [done|]. right. eexists. split; [reflexivity|]. by eexists _, _.
Qed.

Lemma cleanup_Size_pos d : d <> 0 -> cleanup_Size d = Tag_Size (cleanup_Type d).
Proof. unfold cleanup_Size. by destruct (Z.eqb_spec d 0). Qed.

Lemma AddCleanup_ok elem d w :
  ok w -> taggable elem -> d <> 0 ->
  returns_ok (AddCleanup elem d (w_arena w)) (fun a' => ok (mkWorld a' (w_live w) (w_strings w) ((elem, d) :: w_log w))).
Proof.
  intros (runs & C & I) He Hd. unfold AddCleanup, returns_ok. destruct (ai_range _ _ _ I) as (_ & _ & Hr1 & Hr2).
  rewrite u64_small by (unfold addr_max in Hr2; lia). rewrite (cleanup_Size_pos d Hd).
  pose proof (Tag_Size_pos d). destruct (Z.ltb_spec (limit_ (w_arena w) - ptr_ (w_arena w)) (Tag_Size (cleanup_Type d))).
  - destruct (AddCleanupFallback_law elem d (w_arena w) Hd) as [|(a1 & Hnb & ->)]; [by left|]. right.
    rewrite (cleanup_Size_pos d Hd) in Hnb. assert (Hroom0 : 0 <= Tag_Size (cleanup_Type d)) by lia.
    destruct (new_block_inv _ w runs C a1 I Hroom0 Hnb) as [I1 Hroom].
    destruct (add_existing elem d _ _ _ I1 He Hroom) as (a' & runs' & E & I'). exists a'. split; [exact E|].
    by exists runs', C.
  - right. destruct (add_existing elem d w runs C I He ltac:(lia)) as (a' & runs' & E & I').
    exists a'. split; [exact E|]. by exists runs', C.
Qed.

(** A null destructor is taken to need no room, and gets a node all the same:
    in a full block the node is written over what was handed out last. *)
Lemma null_destructor_overruns elem a a' :
  destruct_string <> 0 -> destruct_cord <> 0 ->
  ptr_ a = limit_ a -> AddCleanup elem 0 a = Ret a' -> limit_ a' = ptr_ a' - 16.
Proof.
  intros Hs Hc Hl. unfold AddCleanup. rewrite Hl, Z.sub_diag. cbn -[AddCleanupFromExisting].
  unfold AddCleanupFromExisting. cbv zeta.
  replace (Tag_Size (cleanup_Type 0)) with 16.
  - destruct (backwards_same (limit_ (with_limit (limit_ a - 16) a)) (with_limit (limit_ a - 16) a)) as [q ->].
    intros (m & _ & [= <-])%obind_Ret_inv. simpl. lia.
  - rewrite Tag_Size_cases. unfold cleanup_Type. destruct EnableSpecializedTags; [|done].
    destruct (Z.eqb_spec 0 destruct_string); [lia|]. by destruct (Z.eqb_spec 0 destruct_cord); [lia|].
Qed.

(** The object and its node, where there is room for both. *)
Lemma cleanup_fits n k d w runs C :
  arena_inv w runs C -> good_size n -> aligned8 n -> 0 <= k <= 60 -> d <> 0 ->
  aa_Ceil (mkAlign (2 ^ k)) (ptr_ (w_arena w)) + n + Tag_Size (cleanup_Type d) <= limit_ (w_arena w) ->
  exists a' runs', AllocateAlignedWithCleanup n (2 ^ k) d (w_arena w) = Ret (aa_Ceil (mkAlign (2 ^ k)) (ptr_ (w_arena w)), a') /\
    arena_inv (mkWorld a' ((aa_Ceil (mkAlign (2 ^ k)) (ptr_ (w_arena w)), n) :: w_live w) (w_strings w)
      ((aa_Ceil (mkAlign (2 ^ k)) (ptr_ (w_arena w)), d) :: w_log w)) runs' C.
Proof.
  intros I Hg Hn Hk Hd Hle. destruct (ai_range _ _ _ I) as (Hp & _ & Hr1 & Hr2).
  unfold AllocateAlignedWithCleanup, ArenaAlignAs, aa_CeilDefaultAligned. cbv zeta.
  assert (Hk60 : 2 ^ k <= 2 ^ 60) by (apply Z.pow_le_mono_r; lia).
  unfold good_size, addr_max in *. rewrite (default_Ceil_id n), (cleanup_Size_pos d Hd) by (done || lia).
  destruct (aa_Ceil_ptr k (ptr_ (w_arena w))) as (Hc1 & Hc2 & _); [lia|done|lia|lia|].
  set (ret := aa_Ceil _ _) in *. pose proof (Tag_Size_pos d).
  rewrite (u64_small (ret + n)), u64_small by lia.
  destruct (Z.ltb_spec (limit_ (w_arena w)) (ret + n + Tag_Size (cleanup_Type d))); [lia|].
  pose proof (inv_cut w runs C ret n I Hc2 Hn Hg ltac:(lia) ltac:(lia)) as I1.
  assert (Ht : taggable ret).
  { split; [unfold inU; lia|]. apply aligned8_form in Hc2 as [i ->]. replace (8 * i) with (2 * i * 4) by lia. by apply Z_mod_mult. }
  destruct (add_existing ret d _ _ _ I1 Ht ltac:(simpl; lia)) as (a' & runs' & E & I2). simpl in E, I2.
  rewrite E. cbn [obind]. eexists _, runs'. split; [reflexivity|]. exact (inv_forwards (ret + n) _ _ _ I2).
Qed.

(** Without the room the fallback is called, with the size rounded up. *)
Lemma cleanup_no_room n k d w runs C :
  arena_inv w runs C -> good_size n -> aligned8 n -> 0 <= k <= 60 -> d <> 0 ->
  limit_ (w_arena w) < aa_Ceil (mkAlign (2 ^ k)) (ptr_ (w_arena w)) + n + Tag_Size (cleanup_Type d) ->
  AllocateAlignedWithCleanup n (2 ^ k) d (w_arena w) = AllocateAlignedWithCleanupFallback n (2 ^ k) d (w_arena w).
Proof.
  intros I Hg Hn Hk Hd Hno. destruct (ai_range _ _ _ I) as (Hp & _ & Hr1 & Hr2).
  assert (Hk60 : 2 ^ k <= 2 ^ 60) by (apply Z.pow_le_mono_r; lia). unfold good_size, addr_max in *.
  destruct (aa_Ceil_ptr k (ptr_ (w_arena w))) as ([Hb0 Hb] & _ & _); [lia|done|lia|lia|].
  unfold AllocateAlignedWithCleanup, ArenaAlignAs, aa_CeilDefaultAligned. cbv zeta.
  pose proof (Tag_Size_pos d). rewrite (default_Ceil_id n), (cleanup_Size_pos d Hd) by (done || lia).
  rewrite (u64_small (_ + n)), u64_small by lia.
  by destruct (Z.ltb_spec (limit_ (w_arena w)) (aa_Ceil (mkAlign (2 ^ k)) (ptr_ (w_arena w)) + n + Tag_Size (cleanup_Type d))); [|lia].
Qed.

Lemma AlignUpTo_eq n k :
  good_size n -> aligned8 n -> 0 <= k <= 60 -> AlignUpTo n (2 ^ k) = n + Z.max 0 (2 ^ k - 8).
Proof.
  intros Hg Hn Hk. assert (Hk60 : 2 ^ k <= 2 ^ 60) by (apply Z.pow_le_mono_r; lia).
  unfold AlignUpTo, good_size, addr_max in *. destruct (Z.leb_spec (2 ^ k) 8).
  - rewrite default_Ceil_id by (done || lia). lia.
  - unfold aa_Padded, ArenaAlignAs, default_align; cbn [align]. rewrite u64_small by lia. lia.
Qed.

Lemma aligned_ptr k w runs C :
  arena_inv w runs C -> 0 <= k <= 60 ->
  let ret := aa_Ceil (mkAlign (2 ^ k)) (ptr_ (w_arena w)) in
  (2 ^ k | ret) /\ ret <= ptr_ (w_arena w) + Z.max 0 (2 ^ k - 8).
Proof.
  intros I Hk ret. destruct (ai_range _ _ _ I) as (Hp & _ & Hr1 & Hr2). unfold addr_max in Hr2.
  assert (Hk60 : 2 ^ k <= 2 ^ 60) by (apply Z.pow_le_mono_r; lia).
  destruct (aa_Ceil_ptr k (ptr_ (w_arena w))) as (Hb & _ & Hdv); [lia|done|lia|lia|]. split; [done|apply Hb].
Qed.

Lemma AllocateAlignedWithCleanup_ok n align d w :
  ok w -> 0 <= n < addr_max - 8 -> good_align align -> d <> 0 ->
  returns_ok (AllocateAlignedWithCleanup n align d (w_arena w))
    (fun r => (align | r.1) /\
      ok (mkWorld r.2 ((r.1, default_Ceil n) :: w_live w) (w_strings w) ((r.1, d) :: w_log w))).
Proof.
  intros (runs & C & I) Hn (k & Hk & ->) Hd. unfold addr_max in Hn.
  destruct (default_Ceil_spec n) as [Hc1 Hc8]; [lia..|].
  assert (Hg : good_size (default_Ceil n)) by (unfold good_size, addr_max; lia).
  assert (Eidem : AllocateAlignedWithCleanup n (2 ^ k) d (w_arena w) = AllocateAlignedWithCleanup (default_Ceil n) (2 ^ k) d (w_arena w)).
  { unfold AllocateAlignedWithCleanup. by rewrite (default_Ceil_id (default_Ceil n)) by (done || lia). }
  rewrite Eidem. set (n' := default_Ceil n) in *. clearbody n'. clear Eidem Hc1.
  destruct (Z.le_gt_cases (aa_Ceil (mkAlign (2 ^ k)) (ptr_ (w_arena w)) + n' + Tag_Size (cleanup_Type d)) (limit_ (w_arena w))) as [Hfit|Hno].
  { right. destruct (cleanup_fits n' k d w runs C I Hg Hc8 Hk Hd Hfit) as (a' & runs' & E & I'). eexists. split; [exact E|].
    split; [by apply (aligned_ptr k w runs C)|]. by exists runs', C. }
  rewrite (cleanup_no_room n' k d w runs C) by done.
  destruct (AllocateAlignedWithCleanupFallback_law n' (2 ^ k) d (w_arena w) Hg Hc8 ltac:(by exists k) Hd)
    as [|(a1 & Hnb & ->)]; [by left|].
  rewrite (cleanup_Size_pos d Hd) in Hnb. pose proof (Tag_Size_pos d). rewrite AlignUpTo_eq in Hnb by done.
  assert (Hroom0 : 0 <= n' + Z.max 0 (2 ^ k - 8) + Tag_Size (cleanup_Type d)) by (unfold good_size in Hg; lia).
  destruct (new_block_inv _ w runs C a1 I Hroom0 Hnb) as [I1 Hroom]. destruct (aligned_ptr k _ _ _ I1 Hk) as [Hd1 Hb1].
  right. destruct (cleanup_fits n' k d _ _ _ I1 Hg Hc8 Hk Hd) as (a' & runs' & E & I'); [simpl in *; lia|].
  eexists. split; [exact E|]. split; [exact Hd1|]. by exists runs', C.
Qed.

Lemma ReturnArrayMemory_ok p n size live w :
  ok w -> w_live w ≡ₚ (p, n) :: live -> 16 <= size <= n ->
  exists a', ReturnArrayMemory p size (w_arena w) = Ret a' /\ ok (mkWorld a' live (w_strings w) (w_log w)).
Proof.
  intros (runs & C & I) Hl Hs.
  destruct (Z.lt_ge_cases (return_class size) (cached_block_length_ (w_arena w))) as [Hlt|Hge].
  - destruct (return_links p n size w runs C live I Hl Hs Hlt) as (a' & l & _ & E & I'). exists a'. split; [done|]. by eexists _, _.
  - destruct (return_grows p n size w runs C live I Hl Hs Hge) as (a' & E & I'). exists a'. split; [done|]. by eexists _, _.
Qed.

(** The string at the end of a block that has just been installed. *)
Lemma first_string p b w runs C m' :
  arena_inv w runs C -> string_block_unused_ (w_arena w) = 0 -> string_block_ok b -> aligned8 p ->
  in_space p (allocated_size b) -> (forall x, x ∈ words p (allocated_size b) -> x ∉ owned w runs C) ->
  (forall x, x ∉ words p (allocated_size b) -> m' !! x = memory (w_arena w) !! x) ->
  ok (mkWorld (set_string ((p, b) :: string_block_ (w_arena w)) (effective_size b - sizeof_string) (set_memory m' (w_arena w)))
        (w_live w) (AtOffset p (effective_size b - sizeof_string) :: w_strings w) (w_log w)).
Proof.
  intros I Hu Hb Hp Hsp Hdis Hm. pose proof (inv_install w runs C p b m' I Hu Hb Hp Hsp Hdis Hm) as I1.
  pose proof Hb as ((k & Hk & Ek) & _). pose proof sizeof_string_fits.
  destruct (inv_string _ _ _ p b (string_block_ (w_arena w)) I1) as [_ I2]; [done|simpl; nia|]. by exists runs, C.
Qed.

Lemma set_memory_same a : set_memory (memory a) a = a.
Proof. by destruct a. Qed.

Lemma AllocateFromStringBlock_ok w :
  ok w ->
  returns_ok (AllocateFromStringBlock (w_arena w)) (fun r => ok (mkWorld r.2 (w_live w) (r.1 :: w_strings w) (w_log w))).
Proof.
  intros (runs & C & I). unfold AllocateFromStringBlock, MaybeAllocateString, returns_ok.
  destruct (ai_strings _ _ _ I) as (_ & Hb & Hmax & Hok).
  destruct (Z.eqb_spec (string_block_unused_ (w_arena w)) 0) as [Hu|Hu].
  - cbn [obind]. destruct (AllocateFromStringBlockFallback_law (w_arena w) Hu)
      as [|(p & b & a1 & used & alloc & -> & [[E ->]|(-> & Hf & m & -> & Hm)])]; [by left|..]; right; eexists; (split; [reflexivity|]).
    + destruct (NextSize_range _ Hok) as [Hn8 Hnr]. unfold min_size, max_size in Hnr.
      destruct (StringBlock_Emplace_ok _ Hok) as (Hbok & Hle & _). set (b := StringBlock_Emplace _ _) in *.
      assert (Hg : good_size (NextSize (head (string_block_ (w_arena w))))) by (unfold good_size, addr_max; lia).
      pose proof (inv_forget _ _ _ _ _ _ _ _ (maybe_allocate _ w runs C p a1 I Hg Hn8 E)) as (I1 & Hp & Hdis & Hsp).
      pose proof Hbok as (_ & Ea & _). pose proof Hbok as ((k & Hk & Ek) & _). pose proof sizeof_string_fits.
      assert (H0 : 0 <= allocated_size b) by (rewrite Ea, Ek; unfold sizeof_StringBlock; nia).
      destruct (MaybeAllocateAligned_strings _ _ _ _ E) as [E1 E2]. cbn [fst snd].
      pose proof (inv_space used alloc _ _ _ I1) as I2. rewrite <- E1.
      rewrite <- (set_memory_same (set_space used alloc a1)).
      apply (first_string p b _ runs C (memory (set_space used alloc a1)) I2); [by simpl; rewrite E2|done|done| | |done].
      * destruct (Hsp ltac:(lia)) as (S1 & S2 & S3). split; [done|]. lia.
      * intros x Hx. apply Hdis. revert Hx. apply elem_of_submseteq_words; lia.
    + pose proof (StringBlock_New_ok _ Hok) as Hnew. destruct (StringBlock_New _) as [size b]. destruct Hnew as (Hbok & _ & _).
      destruct Hf as (Hp & Hsp & Hdis). cbn [fst snd].
      pose proof (inv_space used alloc _ _ _ I) as I2.
      apply (first_string p b _ runs C m I2 Hu Hbok Hp Hsp); [|done].
      intros x Hx Hox. destruct (ai_owned _ _ _ I) as [_ Hall]. rewrite Forall_forall in Hall.
      by eapply fresh_not_inside; [split|exact Hx|apply Hall].
  - specialize (Hb Hu). destruct (string_block_ (w_arena w)) as [|[b sb] rest] eqn:Esb; [done|].
    destruct (inv_string w runs C b sb rest I Esb Hu) as [H0 I1]. unfold max_size in Hmax. pose proof sizeof_string_fits.
    rewrite u64_small by lia. cbn [obind]. right. eexists. split; [reflexivity|]. rewrite Esb in I1. by exists runs, C.
Qed.

(** ** The life of an arena *)

(** What its users can do: ask for memory, for objects that are to be
    destroyed, for strings, register a destructor, give an array back, and
    write what they like into what they were given. *)
Inductive arena_step w : World -> Prop :=
| st_allocate client n p a' :
    good_size n -> aligned8 n -> AllocateAligned client n (w_arena w) = Ret (p, a') ->
    arena_step w (mkWorld a' ((p, n) :: w_live w) (w_strings w) (w_log w))
| st_object n align d p a' :
    0 <= n < addr_max - 8 -> good_align align -> d <> 0 ->
    AllocateAlignedWithCleanup n align d (w_arena w) = Ret (p, a') ->
    arena_step w (mkWorld a' ((p, default_Ceil n) :: w_live w) (w_strings w) ((p, d) :: w_log w))
| st_cleanup elem d a' :
    taggable elem -> d <> 0 -> AddCleanup elem d (w_arena w) = Ret a' ->
    arena_step w (mkWorld a' (w_live w) (w_strings w) ((elem, d) :: w_log w))
| st_string p a' :
    AllocateFromStringBlock (w_arena w) = Ret (p, a') ->
    arena_step w (mkWorld a' (w_live w) (p :: w_strings w) (w_log w))
| st_return p n size live a' :
    w_live w ≡ₚ (p, n) :: live -> 16 <= size <= n -> ReturnArrayMemory p size (w_arena w) = Ret a' ->
    arena_step w (mkWorld a' live (w_strings w) (w_log w))
| st_use m' :
    (forall x, x ∉ live_words (w_live w) ++ strings_words (w_strings w) -> m' !! x = memory (w_arena w) !! x) ->
    arena_step w (with_arena (set_memory m' (w_arena w)) w)
| st_space used allocated :
    arena_step w (with_arena (AddSpaceAllocated allocated (AddSpaceUsed used (w_arena w))) w).

Definition arena_start w : Prop := exists m, w = mkWorld (SerialArena_init m) [] [] [].
Definition arena_reachable : World -> Prop := reachable arena_start arena_step.

Lemma init_ok m : ok (mkWorld (SerialArena_init m) [] [] []).
Proof.
  exists [], []. split; simpl; try done.
  - split; constructor.
  - split; [by exists 0|]. done.
Qed.

Lemma returns_ok_Ret {A} (x : A) (Q : A -> Prop) : returns_ok (Ret x) Q -> Q x.
Proof. intros [[e E]|(y & [= ->] & H)]; [done|done]. Qed.

Lemma step_ok w w' : ok w -> arena_step w w' -> ok w'.
Proof.
  intros Hok [client n p a' Hg Hn E|n al d p a' Hn Hal Hd E|elem d a' He Hd E|p a' E|p n size live a' Hl Hs E|m' Hm|u l].
  - pose proof (AllocateAligned_ok client n w Hok Hg Hn) as R. rewrite E in R. by apply returns_ok_Ret in R.
  - pose proof (AllocateAlignedWithCleanup_ok n al d w Hok Hn Hal Hd) as R. rewrite E in R. by apply returns_ok_Ret in R as [_ R].
  - pose proof (AddCleanup_ok elem d w Hok He Hd) as R. rewrite E in R. by apply returns_ok_Ret in R.
  - pose proof (AllocateFromStringBlock_ok w Hok) as R. rewrite E in R. by apply returns_ok_Ret in R.
  - destruct (ReturnArrayMemory_ok p n size live w Hok Hl Hs) as (a2 & E2 & R). rewrite E in E2. by simplify_eq.
  - destruct Hok as (runs & C & I). exists runs, C. apply inv_set_memory; [done|]. intros x Hx. apply Hm.
    destruct (private_apart w runs C x I Hx) as (_ & _ & H1 & H2). rewrite elem_of_app. tauto.
  - destruct Hok as (runs & C & I). exists runs, C.
    exact (inv_space _ _ _ _ _ (inv_space (u64 (space_used_ (w_arena w) + u)) (space_allocated_ (w_arena w)) _ _ _ I)).
Qed.

Lemma reachable_ok w : arena_reachable w -> ok w.
Proof. apply reachable_inv; [intros w0 [m ->]; apply init_ok|]. intros. by eapply step_ok. Qed.

(** C26: whatever memory, objects and strings are asked of an arena, arrays
    given back and destructors registered, and whatever is written into the
    memory it gives, the objects and strings it has handed out share no word
    with one another, lie in its blocks, and stay apart from the memory it
    will hand out next; and every further such request is served, or throws
    for want of memory, but never runs into undefined behaviour.  The requests
    are those of a correct caller: sizes below [2 ^ 62], aligned where
    [AllocateAligned] asks for it, alignments that are powers of two, objects
    whose address can carry a tag, arrays of at least 16 bytes given back with
    no more than their size, and no null destructor - for which [AddCleanup]
    overruns memory that was handed out, see [null_destructor_overruns]. *)
Theorem arena_safe w :
  arena_reachable w ->
  NoDup (live_words (w_live w) ++ strings_words (w_strings w)) /\
  (forall x, x ∈ live_words (w_live w) ++ strings_words (w_strings w) ->
    inside (w_arena w) x /\ (x ∉ free_words (w_arena w)) /\ (x ∉ string_space (w_arena w))) /\
  (forall client n, good_size n -> aligned8 n -> AllocateAligned client n (w_arena w) <> UB) /\
  (forall n align d, 0 <= n < addr_max - 8 -> good_align align -> d <> 0 ->
    AllocateAlignedWithCleanup n align d (w_arena w) <> UB) /\
  (forall elem d, taggable elem -> d <> 0 -> AddCleanup elem d (w_arena w) <> UB) /\
  AllocateFromStringBlock (w_arena w) <> UB /\
  (forall p n size, (p, n) ∈ w_live w -> 16 <= size <= n -> exists a', ReturnArrayMemory p size (w_arena w) = Ret a').
Proof.
  intros Hok%reachable_ok. pose proof Hok as (runs & C & I). destruct (ai_owned _ _ _ I) as [Hn Hall].
  unfold owned in Hn. apply NoDup_app in Hn as (_ & H1 & Hn). apply NoDup_app in Hn as (_ & H2 & Hn).
  apply NoDup_app in Hn as (_ & _ & Hn). rewrite Forall_forall in Hall.
  assert (Hr : forall A (r : outcome A) Q, returns_ok r Q -> r <> UB) by (by intros A r Q [[e ->]|(x & -> & _)]).
  split; [done|]. split; [|split; [|split; [|split; [|split]]]].
  - intros x Hx. assert (Hx3 : x ∈ private_words (w_arena w) runs C ++ live_words (w_live w) ++ strings_words (w_strings w))
      by (apply elem_of_app; by right).
    split; [apply Hall; unfold owned; rewrite !elem_of_app in *; tauto|].
    split; [|by intros ?%H2]. intros Hc%H1. apply Hc, elem_of_app. by right.
  - intros. by eapply Hr, AllocateAligned_ok.
  - intros. by eapply Hr, AllocateAlignedWithCleanup_ok.
  - intros. by eapply Hr, AddCleanup_ok.
  - by eapply Hr, AllocateFromStringBlock_ok.
  - intros p n size Hin Hs. apply elem_of_Permutation in Hin as [live Hl].
    destruct (ReturnArrayMemory_ok p n size live w Hok Hl Hs) as (a' & E & _). by exists a'.
Qed.

(** The nodes of a block, read one after the other up to its end; and the
    nodes of all the blocks, the block in use first. *)
Fixpoint read_nodes (fuel : nat) (pos stop : Z) (m : Mem) : outcome (list (Z * Z)) :=
  match fuel with
  | O => UB
  | S fuel =>
      if pos <? stop then
        do (node, size) <- DestroyNode pos m;
        do rest <- read_nodes fuel (pos + size) stop m;
        Ret ((node.2, node.1) :: rest)
      else Ret []
  end.

Definition read_block (m : Mem) (b : Z * ArenaBlock) : outcome (list (Z * Z)) :=
  read_nodes (S (Z.to_nat (block_Limit b.1 b.2 - cleanup_nodes b.2))) (cleanup_nodes b.2) (block_Limit b.1 b.2) m.

Fixpoint read_blocks (m : Mem) (bs : list (Z * ArenaBlock)) : outcome (list (Z * Z)) :=
  match bs with
  | [] => Ret []
  | b :: bs => do l <- read_block m b; do rest <- read_blocks m bs; Ret (l ++ rest)
  end.

Lemma nodes_size_length l : 8 * Z.of_nat (length l) <= nodes_size l.
Proof. induction l as [|[e d] l IH]; [done|]. cbn [length nodes_size foldr snd]. destruct (Tag_Size_pos d); unfold nodes_size in IH; lia. Qed.

Lemma read_nodes_spec m fuel pos l :
  (length l < fuel)%nat -> aligned8 pos -> nodes_at m pos l -> read_nodes fuel pos (pos + nodes_size l) m = Ret l.
Proof.
  revert fuel pos. induction l as [|[e d] l IH]; intros fuel pos Hf Hp; (destruct fuel as [|fuel]; [simpl in Hf; lia|]); cbn [read_nodes].
  - simpl. by rewrite Z.add_0_r, Z.ltb_irrefl.
  - simpl. intros (He & Hn & Hl). pose proof (Tag_Size_pos d). destruct (nodes_size_ok l) as [Hs _]. unfold nodes_size in *.
    rewrite (proj2 (Z.ltb_lt _ _)) by lia.
    destruct (node_read m pos e d [] Hp He Hn) as (-> & _ & _). simpl. rewrite Z.add_assoc.
    rewrite IH; [done|simpl in Hf; lia|auto using Tag_Size_aligned with aligned|done].
Qed.

(** C27: every destructor that was registered is still there to be called, on
    its own object, and no other: the nodes of the block in use begin at the
    limit, those of every block filled before at the place the block has kept,
    and reading them with [DestroyNode] up to the end of each block, the
    block in use first, gives exactly the objects and destructors registered,
    the newest first.  (Registering a null destructor is excluded, as for
    the safety of the arena.) *)
Theorem arena_cleanups_kept w :
  arena_reachable w -> read_blocks (memory (w_arena w)) (blocks_in_use (w_arena w)) = Ret (w_log w).
Proof.
  intros (runs & C & I)%reachable_ok. destruct (ai_runs _ _ _ I) as ([Hf _] & <- & Hr). clear I. revert Hr.
  induction Hf as [|[p b] [q l] bs runs' [Hq Hs] _ IH]; intros Hr; [done|].
  apply Forall_cons in Hr as [[Hq8 Hn] Hr]. simpl in *. subst q. pose proof (nodes_size_length l).
  unfold read_block. cbn [fst snd]. rewrite <- Hs, read_nodes_spec; [|lia|done..]. cbn [obind]. by rewrite IH.
Qed.

(** An array that is given back serves the next request of the size its list
    is for. *)
Lemma array_reused w p n size live a' m :
  arena_reachable w -> w_live w ≡ₚ (p, n) :: live -> 16 <= size <= n ->
  return_class size < cached_block_length_ (w_arena w) ->
  ReturnArrayMemory p size (w_arena w) = Ret a' ->
  16 <= m -> good_size m -> aligned8 m -> request_class m = return_class size ->
  exists a2, AllocateAligned kArray m a' = Ret (p, a2).
Proof.
  intros (runs & C & I)%reachable_ok Hl Hs Hc E H16 Hg Hm Ec.
  destruct (return_links p n size w runs C live I Hl Hs Hc) as (a1 & l & Hk & E1 & I1). rewrite E in E1. simplify_eq.
  assert (Hlk : <[Z.to_nat (request_class m) := p :: l]> C !! Z.to_nat (request_class m) = Some (p :: l)).
  { apply list_lookup_insert_eq. rewrite Ec. by eapply lookup_lt_Some. }
  rewrite <- Ec in I1. unfold AllocateAligned.
  destruct (try_cached m _ _ _ I1 Hg Hm) as [[_ Hnone]|(p' & l' & a2 & Hk' & Hp' & E2 & _)].
  { by eapply Hnone in H16. }
  rewrite Hlk in Hk'. simplify_eq. simpl in E2. rewrite E2. cbn [obind].
  destruct (Z.eqb_spec p' 0); [done|]. by exists a2.
Qed.
End complete.

(** ** A concrete heap, and an arena in use *)

Module Toy_arena.
#[global] Instance host : CleanupHost := {|
  alignof_string := 8; alignof_cord := 8; destruct_string := 0x1000; destruct_cord := 0x2000 |}.
#[global] Instance strings : StringHost := {| sizeof_string := 32 |}.
#[global] Instance strings_laws : StringHostLaws.
Proof. split; [|done]. change sizeof_string with 32. lia. Qed.

(** The first address behind everything the arena has. *)
Definition top (a : SerialArena) : Z := foldr (fun r t => Z.max (r.1 + r.2) t) 4096 (extent a).
Definition next_addr (a : SerialArena) : Z := 8 * ((top a + 7) / 8).

Lemma next_addr_fresh n a : 0 <= n -> next_addr a + n <= addr_max -> fresh_region (next_addr a) n a.
Proof.
  intros Hn Hb. assert (Ht : 4096 <= top a /\ Forall (fun r => r.1 + r.2 <= top a) (extent a)).
  { unfold top. induction (extent a) as [|r l [IH1 IH2]]; simpl; [done|]. split; [lia|]. constructor; [lia|].
    eapply Forall_impl; [exact IH2|]. simpl. lia. }
  destruct Ht as [Ht Hf]. pose proof (round_up (top a) 8). unfold next_addr in *.
  replace (top a + 7) with (top a + 8 - 1) in * by lia. split; [apply aligned8_mul|].
  split; [unfold in_space; lia|]. eapply Forall_impl; [exact Hf|]. simpl. lia.
Qed.

Definition size_for (room : Z) : Z := 8 * ((24 + room + 7) / 8 + 28).

Definition take_block (room : Z) (a : SerialArena) : option SerialArena :=
  let p := next_addr a in
  let b := ArenaBlock_new (size_for room) in
  if p + size_for room <=? addr_max
  then Some (set_range (p + kBlockHeaderSize) (block_Limit p b)
    (mkArena (ptr_ a) (limit_ a) (prefetch_ptr_ a) (prefetch_limit_ a) (string_block_ a) (string_block_unused_ a)
      ((p, b) :: blocks_in_use a) (space_used_ a) (u64 (space_allocated_ a + size_for room)) (cached_block_length_ a)
      (cached_blocks_ a) (memory a)))
  else None.

Lemma take_block_new room a a1 : 0 <= room -> take_block room a = Some a1 -> new_block room a a1.
Proof.
  intros Hr. unfold take_block. destruct (Z.leb_spec (next_addr a + size_for room) addr_max) as [Hle|]; [|done].
  intros [= <-]. split; simpl; try done. eexists (next_addr a), _. split; [done|]. simpl.
  assert (Hs : 24 + room <= size_for room) by (unfold size_for; pose proof (round_up (24 + room) 8); replace (24 + room + 7) with (24 + room + 8 - 1) by lia; lia).
  split; [apply next_addr_fresh; lia|]. split; [done|]. split; [done|]. split; [|done].
  destruct (next_addr_fresh (size_for room) a ltac:(lia) Hle) as (_ & (Hp & _ & _) & _).
  unfold block_Limit, Pointer, ArenaBlock_new; simpl. change (u64 (-8)) with (notU 64 (2 ^ 3 - 1)).
  rewrite land_high by (unfold inU, addr_max in *; lia). change (2 ^ 3) with 8.
  change kBlockHeaderSize with 24. unfold size_for in *.
  rewrite (Z.mul_comm 8 (_ + 28)), Z.div_mul by done. lia.
Qed.

Definition or_throw {A} (o : option A) : outcome A := match o with Some x => Ret x | None => Throw fatal_message end.

Definition aligned_fallback (n : Z) (a : SerialArena) : outcome (Z * SerialArena) :=
  do a1 <- or_throw (take_block n a); or_throw (MaybeAllocateAligned n a1).

(** [AllocateAlignedWithCleanup] where there is room. *)
Definition cleanup_here (n align destructor : Z) (a : SerialArena) : outcome (Z * SerialArena) :=
  let n := default_Ceil n in
  let ret := aa_CeilDefaultAligned (ArenaAlignAs align) (ptr_ a) in
  let next := u64 (ret + n) in
  if limit_ a <? u64 (next + cleanup_Size destructor) then Throw fatal_message
  else do a <- AddCleanupFromExisting ret destructor (set_ptr next a); Ret (ret, MaybePrefetchForwards next a).

Definition cleanup_fallback (n align destructor : Z) (a : SerialArena) : outcome (Z * SerialArena) :=
  do a1 <- or_throw (take_block (AlignUpTo n align + cleanup_Size destructor) a); cleanup_here n align destructor a1.

Definition add_fallback (elem destructor : Z) (a : SerialArena) : outcome SerialArena :=
  do a1 <- or_throw (take_block (cleanup_Size destructor) a); AddCleanupFromExisting elem destructor a1.

Definition string_fallback (a : SerialArena) : outcome (Z * SerialArena) :=
  let next := head (string_block_ a) in
  do (p, b, a1) <-
    match MaybeAllocateAligned (NextSize next) a with
    | Some (p, a1) => Ret (p, StringBlock_Emplace (NextSize next) next, a1)
    | None =>
        let b := (StringBlock_New next).2 in
        if next_addr a + allocated_size b <=? addr_max then Ret (next_addr a, b, a) else Throw fatal_message
    end;
  let unused := effective_size b - sizeof_string in
  Ret (AtOffset p unused, set_string ((p, b) :: string_block_ a) unused a1).

#[global] Instance out : SerialArenaOut := {|
  AllocateAlignedFallback := aligned_fallback;
  AllocateAlignedWithCleanupFallback := cleanup_fallback;
  AddCleanupFallback := add_fallback;
  AllocateFromStringBlockFallback := string_fallback;
  FreeStringBlocks_from := fun _ _ a => (0, a) |}.

Lemma Tag_Size_nonneg d : 0 <= cleanup_Size d.
Proof. unfold cleanup_Size. case_match; [lia|]. destruct (Tag_Size_pos d); lia. Qed.

#[global] Instance out_laws : SerialArenaOutLaws.
Proof.
  split.
  - intros n a Hg Hn. simpl. unfold aligned_fallback, good_size in *.
    destruct (take_block n a) as [a1|] eqn:E1; simpl; [|by left; eexists].
    destruct (MaybeAllocateAligned n a1) as [r|] eqn:E2; simpl; [|by left; eexists].
    right. exists a1, r. split; [apply take_block_new; [lia|done]|done].
  - intros n al d a Hg Hn (k & Hk & ->) Hd. simpl. unfold cleanup_fallback.
    destruct (take_block _ a) as [a1|] eqn:E1; simpl; [|by left; eexists]. unfold cleanup_here.
    destruct (limit_ a1 <? _) eqn:E2; [by left; eexists|]. right. exists a1. split.
    + apply take_block_new; [|done]. rewrite AlignUpTo_eq by done. pose proof (Tag_Size_nonneg d). unfold good_size in Hg. lia.
    + unfold AllocateAlignedWithCleanup. by rewrite E2.
  - intros e d a Hd. simpl. unfold add_fallback.
    destruct (take_block _ a) as [a1|] eqn:E1; simpl; [|by left; eexists]. right. exists a1. split; [|done].
    apply take_block_new; [apply Tag_Size_nonneg|done].
  - intros a Hu. simpl. unfold string_fallback.
    destruct (MaybeAllocateAligned (NextSize (head (string_block_ a))) a) as [[p a1]|] eqn:E; cbn [obind].
    { right. eexists p, _, a1, (space_used_ a1), (space_allocated_ a1). split; [|by left].
      by destruct a1. }
    set (b := (StringBlock_New (head (string_block_ a))).2).
    destruct (Z.leb_spec (next_addr a + allocated_size b) addr_max) as [Hle|]; cbn [obind]; [|by left; eexists].
    right. exists (next_addr a), b, a, (space_used_ a), (space_allocated_ a). split; [by destruct a|]. right.
    split; [done|]. split.
    + apply next_addr_fresh; [|done]. unfold b, StringBlock_New. destruct (head (string_block_ a)) as [[q nb]|]; simpl; apply wrapU_range; lia.
    + exists (memory a). split; [by destruct a|done].
Qed.

(** A run: the array of 200 bytes that is given back becomes the table, the
    one of 64 bytes is given out twice, and the last object needs another
    block. *)
Definition is_ret {A} (r : outcome A) : bool := match r with Ret _ => true | _ => false end.
Definition get (r : outcome (Z * SerialArena)) : Z * SerialArena :=
  match r with Ret x => x | _ => (0, SerialArena_init ∅) end.
Definition get_arena (r : outcome SerialArena) : SerialArena := match r with Ret a => a | _ => SerialArena_init ∅ end.

Lemma get_spec r : is_ret r = true -> r = Ret ((get r).1, (get r).2).
Proof. by destruct r as [[p a]| |]. Qed.
Lemma get_arena_spec r : is_ret r = true -> r = Ret (get_arena r).
Proof. by destruct r. Qed.

Definition r1 := get (AllocateAligned kArray 200 (SerialArena_init ∅)).
Definition r2 := get (AllocateAlignedWithCleanup 40 16 destruct_string r1.2).
Definition r3 := get (AllocateFromStringBlock r2.2).
Definition a4 := get_arena (ReturnArrayMemory r1.1 200 r3.2).
Definition r5 := get (AllocateAligned kArray 64 a4).
Definition a6 := get_arena (ReturnArrayMemory r5.1 64 r5.2).
Definition r7 := get (AllocateAligned kArray 64 a6).
Definition a8 := get_arena (AddCleanup r7.1 0x3000 r7.2).
Definition r9 := get (AllocateAlignedWithCleanup 120 16 0x3000 a8).

Definition w0 : World := mkWorld (SerialArena_init ∅) [] [] [].
Definition w1 : World := mkWorld r1.2 [(r1.1, 200)] [] [].
Definition w2 : World := mkWorld r2.2 [(r2.1, 40); (r1.1, 200)] [] [(r2.1, destruct_string)].
Definition w3 : World := mkWorld r3.2 [(r2.1, 40); (r1.1, 200)] [r3.1] [(r2.1, destruct_string)].
Definition w4 : World := mkWorld a4 [(r2.1, 40)] [r3.1] [(r2.1, destruct_string)].
Definition w5 : World := mkWorld r5.2 [(r5.1, 64); (r2.1, 40)] [r3.1] [(r2.1, destruct_string)].
Definition w6 : World := mkWorld a6 [(r2.1, 40)] [r3.1] [(r2.1, destruct_string)].
Definition w7 : World := mkWorld r7.2 [(r7.1, 64); (r2.1, 40)] [r3.1] [(r2.1, destruct_string)].
Definition w8 : World := mkWorld a8 [(r7.1, 64); (r2.1, 40)] [r3.1] [(r7.1, 0x3000); (r2.1, destruct_string)].
Definition used : World :=
  mkWorld r9.2 [(r9.1, 120); (r7.1, 64); (r2.1, 40)] [r3.1] [(r9.1, 0x3000); (r7.1, 0x3000); (r2.1, destruct_string)].

Example given_twice : r7.1 = r5.1.
Proof. vm_compute. reflexivity. Qed.

Lemma runs1 : is_ret (AllocateAligned kArray 200 (SerialArena_init ∅)) = true.
Proof. by vm_compute. Qed.
Lemma runs2 : is_ret (AllocateAlignedWithCleanup 40 16 destruct_string r1.2) = true.
Proof. by vm_compute. Qed.
Lemma runs3 : is_ret (AllocateFromStringBlock r2.2) = true.
Proof. by vm_compute. Qed.
Lemma runs4 : is_ret (ReturnArrayMemory r1.1 200 r3.2) = true.
Proof. by vm_compute. Qed.
Lemma runs5 : is_ret (AllocateAligned kArray 64 a4) = true.
Proof. by vm_compute. Qed.
Lemma runs6 : is_ret (ReturnArrayMemory r5.1 64 r5.2) = true.
Proof. by vm_compute. Qed.
Lemma runs7 : is_ret (AllocateAligned kArray 64 a6) = true.
Proof. by vm_compute. Qed.
Lemma runs8 : is_ret (AddCleanup r7.1 0x3000 r7.2) = true.
Proof. by vm_compute. Qed.

Lemma runs9 : is_ret (AllocateAlignedWithCleanup 120 16 0x3000 a8) = true.
Proof. by vm_compute. Qed.

Lemma good64 n : 0 <= n < 1000 -> good_size n.
Proof. unfold good_size, addr_max. lia. Qed.
Lemma align16 : good_align 16.
Proof. by exists 4. Qed.
Lemma taggable7 : taggable r7.1.
Proof. split; by vm_compute. Qed.

Lemma used_reachable : arena_reachable used.
Proof.
  apply (reach_step _ _ w8); [|exact (st_object w8 120 16 0x3000 r9.1 r9.2 ltac:(done) align16 ltac:(done) (get_spec _ runs9))].
  apply (reach_step _ _ w7); [|exact (st_cleanup w7 r7.1 0x3000 a8 taggable7 ltac:(done) (get_arena_spec _ runs8))].
  apply (reach_step _ _ w6); [|exact (st_allocate w6 kArray 64 r7.1 r7.2 (good64 64 ltac:(done)) eq_refl (get_spec _ runs7))].
  apply (reach_step _ _ w5); [|exact (st_return w5 r5.1 64 64 [(r2.1, 40)] a6 (Permutation_refl _) ltac:(done) (get_arena_spec _ runs6))].
  apply (reach_step _ _ w4); [|exact (st_allocate w4 kArray 64 r5.1 r5.2 (good64 64 ltac:(done)) eq_refl (get_spec _ runs5))].
  apply (reach_step _ _ w3); [|exact (st_return w3 r1.1 200 200 [(r2.1, 40)] a4 (Permutation_swap _ _ _) ltac:(done) (get_arena_spec _ runs4))].
  apply (reach_step _ _ w2); [|exact (st_string w2 r3.1 r3.2 (get_spec _ runs3))].
  apply (reach_step _ _ w1); [|exact (st_object w1 40 16 destruct_string r2.1 r2.2 ltac:(done) align16 ltac:(done) (get_spec _ runs2))].
  apply (reach_step _ _ w0); [|exact (st_allocate w0 kArray 200 r1.1 r1.2 (good64 200 ltac:(done)) eq_refl (get_spec _ runs1))].
  apply reach_init. by eexists.
Qed.
End Toy_arena.

Lemma arena_safe_witness :
  NoDup (live_words (w_live Toy_arena.used) ++ strings_words (w_strings Toy_arena.used)).
Proof. exact (proj1 (arena_safe Toy_arena.used Toy_arena.used_reachable)). Defined.

(** A node in the block in use and two in the block filled before. *)
Lemma arena_cleanups_kept_witness :
  (1 < length (head_ (w_arena Toy_arena.used)))%nat /\
  read_blocks (memory (w_arena Toy_arena.used)) (blocks_in_use (w_arena Toy_arena.used)) =
    Ret [(Toy_arena.r9.1, 0x3000); (Toy_arena.r7.1, 0x3000); (Toy_arena.r2.1, destruct_string)].
Proof. split; [vm_compute; lia|]. exact (arena_cleanups_kept Toy_arena.used Toy_arena.used_reachable). Defined.
