(* ===== verification/Metadata.v ===== *)
(** * The metadata word of a message ([google/protobuf/metadata_lite.h])

    Every message keeps its arena and its unknown fields in one tagged word,
    [InternalMetadata]: the arena itself while there are no unknown fields,
    else a container with both.  The words of several messages live beside a
    heap of containers; an address is a [Z], and using or freeing what is not
    there is [UB].  The theorem: whatever is done to the messages, each has
    the unknown fields it should have, its arena, and its own container. *)

From Stdlib Require Import String Lia.
From S2P Require Import Prelude.
Local Open Scope string_scope.
Local Open Scope Z_scope.
Local Open Scope list_scope.

(** ** Unknown fields *)

(** What [T] is for: the empty set, [Clear] and [MergeFrom]. *)
Class UnknownFieldSet (T : Type) := {
  uf_empty : T;
  uf_Clear : T -> T;
  (** [uf_MergeFrom other self] *)
  uf_MergeFrom : T -> T -> T;
  uf_clear_empty x : uf_Clear x = uf_empty;
  uf_merge_empty x : uf_MergeFrom uf_empty x = x;
}.

(** The lite messages keep the bytes. *)
#[export] Program Instance string_fields : UnknownFieldSet string := {|
  uf_empty := "";
  uf_Clear _ := "";
  uf_MergeFrom other self := (self ++ other)%string;
|}.
Next Obligation. done. Qed.
Next Obligation.
  change (forall x, (x ++ "")%string = x). induction x as [|c x IH]; [done|].
  change (String c (x ++ "") = String c x). by f_equal.
Qed.

(** ** The word *)

Definition kUnknownFieldsTagMask : Z := 1.
Definition kPtrTagMask : Z := kUnknownFieldsTagMask.
Definition kPtrValueMask : Z := Z.lnot kPtrTagMask.

Definition HasUnknownFieldsTag (ptr : Z) : bool := negb (Z.land ptr kUnknownFieldsTagMask =? 0).
Definition PtrValue (ptr : Z) : Z := Z.land ptr kPtrValueMask.
Definition have_unknown_fields (ptr : Z) : bool := HasUnknownFieldsTag ptr.
Definition raw_arena_ptr (ptr : Z) : Z := ptr.

(** [Container], and the arena it was made on ([0] for [operator new]). *)
Record Container (T : Type) := mkContainer { c_home : Z; c_arena : Z; c_unknown_fields : T }.
Arguments mkContainer {T} _ _ _.
Arguments c_home {T} _.
Arguments c_arena {T} _.
Arguments c_unknown_fields {T} _.

(** The containers, and the words of the messages by name. *)
Record Heap (T : Type) := mkHeap { containers : gmap Z (Container T); words : gmap nat Z }.
Arguments mkHeap {T} _ _.
Arguments containers {T} _.
Arguments words {T} _.

(** An address for a new object, aligned, where none is in use. *)
Class Malloc := {
  malloc : gset Z -> Z;
  malloc_fresh used : malloc used ∉ used;
  malloc_aligned used : 0 < malloc used /\ malloc used mod 2 = 0;
}.

Section metadata.
Context {T : Type} `{UnknownFieldSet T} `{Malloc}.
Implicit Types (h : Heap T) (n : nat) (ptr p : Z).

Definition word n h : outcome Z := match words h !! n with Some ptr => Ret ptr | None => UB end.
Definition set_word n ptr h : Heap T := mkHeap (containers h) (<[n := ptr]> (words h)).
Definition container p h : outcome (Container T) := match containers h !! p with Some c => Ret c | None => UB end.
Definition set_container p (c : Container T) h : Heap T := mkHeap (<[p := c]> (containers h)) (words h).
Definition set_fields (x : T) (c : Container T) : Container T := mkContainer (c_home c) (c_arena c) x.

(** [InternalMetadata(Arena* )]. *)
Definition InternalMetadata_new (arena : Z) : Z := arena.

Definition md_arena n h : outcome Z :=
  do ptr <- word n h;
  if have_unknown_fields ptr then do c <- container (PtrValue ptr) h; Ret (c_arena c) else Ret (PtrValue ptr).

Definition unknown_fields (default_instance : outcome T) n h : outcome T :=
  do ptr <- word n h;
  if have_unknown_fields ptr then do c <- container (PtrValue ptr) h; Ret (c_unknown_fields c) else default_instance.

(** [Arena::Create<Container<T>>]: a container with empty unknown fields. *)
Definition Create (arena : Z) h : Z * Heap T :=
  let p := malloc (dom (containers h)) in
  (p, set_container p (mkContainer arena 0 uf_empty) h).

(** The pointer returned is that of the container the fields are in. *)
Definition mutable_unknown_fields_slow n h : outcome (Z * Heap T) :=
  do my_arena <- md_arena n h;
  let '(p, h) := Create my_arena h in
  let ptr := Z.lor p kUnknownFieldsTagMask in
  let h := set_word n ptr h in
  do c <- container p h;
  Ret (p, set_container p (mkContainer (c_home c) my_arena (c_unknown_fields c)) h).

Definition mutable_unknown_fields n h : outcome (Z * Heap T) :=
  do ptr <- word n h;
  if have_unknown_fields ptr then Ret (PtrValue ptr, h) else mutable_unknown_fields_slow n h.

(** [delete]: only what [operator new] has made. *)
Definition delete_container p h : outcome (Heap T) :=
  do c <- container p h;
  if c_home c =? 0 then Ret (mkHeap (delete p (containers h)) (words h)) else UB.

Definition DeleteOutOfLineHelper n h : outcome (Heap T) :=
  do ptr <- word n h;
  do h <- delete_container (PtrValue ptr) h;
  Ret (set_word n 0 h).

Definition md_Delete n h : outcome (Heap T) :=
  do ptr <- word n h;
  if have_unknown_fields ptr then DeleteOutOfLineHelper n h else Ret h.

(** Something done to the fields behind the pointer [p]. *)
Definition update (f : T -> T) p h : outcome (Heap T) :=
  do c <- container p h; Ret (set_container p (set_fields (f (c_unknown_fields c)) c) h).

Definition DoClear n h : outcome (Heap T) :=
  do (p, h) <- mutable_unknown_fields n h; update uf_Clear p h.

(** [other] is read through its pointer: it may be the fields themselves. *)
Definition DoMergeFrom n (other : Z) h : outcome (Heap T) :=
  do (p, h) <- mutable_unknown_fields n h;
  do c <- container other h;
  update (uf_MergeFrom (c_unknown_fields c)) p h.

Definition DoSwap n (other : Z) h : outcome (Heap T) :=
  do (p, h) <- mutable_unknown_fields n h;
  do c <- container p h;
  do o <- container other h;
  let h := set_container p (set_fields (c_unknown_fields o) c) h in
  do o <- container other h;
  Ret (set_container other (set_fields (c_unknown_fields c) o) h).

Definition md_Swap n other h : outcome (Heap T) :=
  do ptr <- word n h;
  do optr <- word other h;
  if have_unknown_fields ptr || have_unknown_fields optr
  then do (q, h) <- mutable_unknown_fields other h; DoSwap n q h
  else Ret h.

Definition md_InternalSwap n other h : outcome (Heap T) :=
  do ptr <- word n h;
  do optr <- word other h;
  Ret (set_word other ptr (set_word n optr h)).

Definition md_MergeFrom n other h : outcome (Heap T) :=
  do optr <- word other h;
  if have_unknown_fields optr then DoMergeFrom n (PtrValue optr) h else Ret h.

Definition md_Clear n h : outcome (Heap T) :=
  do ptr <- word n h;
  if have_unknown_fields ptr then DoClear n h else Ret h.
End metadata.

(** [LiteUnknownFieldSetter]: the buffer after the constructor, and what the
    destructor does with it. *)
Section setter.
Context `{Malloc}.
Implicit Types (h : Heap string) (n : nat).

(** [swap] of a local string with the fields behind [p]. *)
Definition swap_with (buffer : string) (p : Z) h : outcome (string * Heap string) :=
  do c <- container p h;
  Ret (c_unknown_fields c, set_container p (set_fields buffer c) h).

Definition LiteUnknownFieldSetter_new n h : outcome (string * Heap string) :=
  do ptr <- word n h;
  if have_unknown_fields ptr then do (p, h) <- mutable_unknown_fields n h; swap_with "" p h
  else Ret ("", h).

Definition LiteUnknownFieldSetter_delete n (buffer : string) h : outcome (Heap string) :=
  if bool_decide (buffer = "") then Ret h
  else do (p, h) <- mutable_unknown_fields n h; do (_, h) <- swap_with buffer p h; Ret h.
End setter.

(** ** What the words mean *)

Section meaning.
Context {T : Type} `{UnknownFieldSet T} `{Malloc}.
Implicit Types (h : Heap T) (n m : nat) (ptr p : Z).

Lemma tag_test ptr : HasUnknownFieldsTag ptr = Z.odd ptr.
Proof.
  unfold HasUnknownFieldsTag, kUnknownFieldsTagMask. rewrite <- Z.bit0_odd. change 1 with (Z.ones 1).
  rewrite Z.land_ones, <- Z.bit0_mod by lia. by destruct (Z.testbit ptr 0).
Qed.

Lemma untagged p : p mod 2 = 0 -> HasUnknownFieldsTag p = false /\ PtrValue p = p.
Proof.
  intros Hp. rewrite tag_test. assert (Ho : Z.odd p = false) by (by rewrite Zodd_mod, Hp). split; [done|].
  apply Z.bits_inj'. intros k Hk. unfold PtrValue, kPtrValueMask, kPtrTagMask, kUnknownFieldsTagMask.
  rewrite Z.land_spec, Z.lnot_spec by done. destruct (decide (k = 0)) as [->|Hne].
  - by rewrite Z.bit0_odd, Ho.
  - change 1 with (2 ^ 0). rewrite Z.pow2_bits_false by done. apply andb_true_r.
Qed.

Lemma tagged p : p mod 2 = 0 -> HasUnknownFieldsTag (Z.lor p kUnknownFieldsTagMask) = true /\
  PtrValue (Z.lor p kUnknownFieldsTagMask) = p.
Proof.
  intros Hp. split.
  - rewrite tag_test, <- Z.bit0_odd, Z.lor_spec. apply orb_true_r.
  - rewrite <- (proj2 (untagged p Hp)) at 2. apply Z.bits_inj'. intros k Hk.
    unfold PtrValue. rewrite !Z.land_spec, Z.lor_spec. unfold kPtrValueMask, kPtrTagMask, kUnknownFieldsTagMask.
    rewrite Z.lnot_spec by done. destruct (Z.testbit p k), (Z.testbit 1 k); done.
Qed.

(** A word: an arena, or the address of a container of this arena. *)
Inductive shows h ptr : Z -> option (Z * T) -> Prop :=
| shows_arena : ptr mod 2 = 0 -> shows h ptr ptr None
| shows_container p c :
    ptr = Z.lor p kUnknownFieldsTagMask -> p mod 2 = 0 -> containers h !! p = Some c -> c_home c = c_arena c ->
    shows h ptr (c_arena c) (Some (p, c_unknown_fields c)).

(** The messages are well kept: every word means something, no two words share
    a container, and every container is in use. *)
Record kept h : Prop := {
  kept_word n ptr : words h !! n = Some ptr -> exists a x, shows h ptr a x /\ a mod 2 = 0;
  kept_own n m ptr : words h !! n = Some ptr -> words h !! m = Some ptr -> HasUnknownFieldsTag ptr = true -> n = m;
  kept_used p : is_Some (containers h !! p) -> p mod 2 = 0 /\ exists n, words h !! n = Some (Z.lor p kUnknownFieldsTagMask);
}.

(** What the messages are, to their users: an arena and unknown fields. *)
Definition message_of h ptr : Z * T :=
  if HasUnknownFieldsTag ptr then
    match containers h !! PtrValue ptr with Some c => (c_arena c, c_unknown_fields c) | None => (0, uf_empty) end
  else (ptr, uf_empty).
Definition messages h : gmap nat (Z * T) := message_of h <$> words h.

Lemma shows_message h ptr a x : shows h ptr a x -> message_of h ptr = (a, from_option snd uf_empty x).
Proof.
  unfold message_of. destruct 1 as [Hp|p c -> Hp Hc Ho].
  - by destruct (untagged ptr Hp) as [-> _].
  - destruct (tagged p Hp) as [-> ->]. by rewrite Hc.
Qed.

Lemma odd_word p : HasUnknownFieldsTag (Z.lor p kUnknownFieldsTagMask) = true.
Proof. rewrite tag_test, <- Z.bit0_odd, Z.lor_spec. apply orb_true_r. Qed.

Lemma lor_inj p q : p mod 2 = 0 -> q mod 2 = 0 -> Z.lor p kUnknownFieldsTagMask = Z.lor q kUnknownFieldsTagMask -> p = q.
Proof. intros Hp Hq E. by rewrite <- (proj2 (tagged p Hp)), E, (proj2 (tagged q Hq)). Qed.

(** The container of a message. *)
Definition has_container h n p (c : Container T) : Prop :=
  words h !! n = Some (Z.lor p kUnknownFieldsTagMask) /\ p mod 2 = 0 /\ containers h !! p = Some c /\ c_home c = c_arena c.

Lemma kept_cases h n ptr :
  kept h -> words h !! n = Some ptr ->
  (HasUnknownFieldsTag ptr = false /\ ptr mod 2 = 0 /\ messages h !! n = Some (ptr, uf_empty)) \/
  (HasUnknownFieldsTag ptr = true /\ exists c, has_container h n (PtrValue ptr) c /\
     c_arena c mod 2 = 0 /\ messages h !! n = Some (c_arena c, c_unknown_fields c)).
Proof.
  intros HK Hn. destruct (kept_word h HK n ptr Hn) as (a & x & Hs & Ha).
  unfold messages. rewrite lookup_fmap, Hn. csimpl. rewrite (shows_message _ _ _ _ Hs).
  destruct Hs as [Hp|p c -> Hp Hc Ho].
  - left. by destruct (untagged ptr Hp) as [-> _].
  - right. destruct (tagged p Hp) as [Ht Hv]. rewrite Hv. split; [done|]. exists c. by repeat split.
Qed.

Lemma message_word h n a x : messages h !! n = Some (a, x) -> is_Some (words h !! n).
Proof. unfold messages. rewrite lookup_fmap. destruct (words h !! n); [by eexists|done]. Qed.

(** New contents of a container change one message. *)
Lemma write_fields h n p c x :
  kept h -> has_container h n p c ->
  kept (set_container p (set_fields x c) h) /\ has_container (set_container p (set_fields x c) h) n p (set_fields x c) /\
  messages (set_container p (set_fields x c) h) = <[n := (c_arena c, x)]> (messages h).
Proof.
  intros HK (Hn & Hp & Hc & Ho). set (h' := set_container p (set_fields x c) h).
  assert (Hother : forall m ptr, m <> n -> words h !! m = Some ptr -> HasUnknownFieldsTag ptr = true -> PtrValue ptr <> p).
  { intros m ptr Hm Hptr Ht E. apply Hm. apply (kept_own h HK m n ptr Hptr); [|done].
    destruct (kept_cases h m ptr HK Hptr) as [[? _]|(_ & d & (Hw & _) & _)]; [congruence|]. rewrite E in Hw. congruence. }
  assert (Hc' : containers h' !! p = Some (set_fields x c)) by (apply lookup_insert_eq).
  split; [|split].
  - split.
    + intros m ptr Hm. change (words h' !! m) with (words h !! m) in Hm. destruct (decide (m = n)) as [->|Hne].
      * rewrite Hn in Hm. injection Hm as <-. destruct (kept_word h HK n _ Hn) as (a & y & Hs & Ha).
        pose proof (shows_message _ _ _ _ Hs) as E. unfold message_of in E.
        destruct (tagged p Hp) as [Ht Hv]. rewrite Ht, Hv, Hc in E. injection E as <- _.
        exists (c_arena c), (Some (p, x)). split; [|done]. by apply (shows_container h' _ p (set_fields x c)).
      * destruct (kept_word h HK m ptr Hm) as (a & y & Hs & Ha). exists a, y. split; [|done].
        destruct Hs as [Hq|q d -> Hq Hd Hod]; [by constructor|]. apply shows_container; [done|done| |done].
        pose proof (Hother m _ Hne Hm (odd_word q)) as Hqp. rewrite (proj2 (tagged q Hq)) in Hqp.
        simpl. by rewrite lookup_insert_ne.
    + apply HK.
    + intros q Hq. apply (kept_used h HK). simpl in Hq. destruct (decide (q = p)) as [->|Hne]; [by rewrite Hc; eexists|].
      by rewrite lookup_insert_ne in Hq.
  - by repeat split.
  - apply map_eq. intros m. unfold messages. rewrite lookup_fmap. simpl. destruct (decide (m = n)) as [->|Hne].
    + rewrite lookup_insert_eq, Hn. csimpl. unfold message_of. destruct (tagged p Hp) as [-> ->]. by rewrite Hc'.
    + rewrite lookup_insert_ne, lookup_fmap by done. destruct (words h !! m) as [ptr|] eqn:Em; [|done]. csimpl. f_equal.
      unfold message_of. destruct (HasUnknownFieldsTag ptr) eqn:Et; [|done]. simpl.
      by rewrite lookup_insert_ne by (by eapply not_eq_sym, Hother).
Qed.

Lemma container_Ret h n p c : has_container h n p c -> container p h = Ret c.
Proof. intros (_ & _ & Hc & _). unfold container. by rewrite Hc. Qed.

Lemma word_Ret h n ptr : words h !! n = Some ptr -> word n h = Ret ptr.
Proof. intros Hn. unfold word. by rewrite Hn. Qed.

Lemma md_arena_spec h n a x : kept h -> messages h !! n = Some (a, x) -> md_arena n h = Ret a.
Proof.
  intros HK Hm. destruct (message_word _ _ _ _ Hm) as [ptr Hn]. unfold md_arena, have_unknown_fields.
  rewrite (word_Ret _ _ _ Hn). cbn [obind]. destruct (kept_cases h n ptr HK Hn) as [(Ht & He & E)|(Ht & c & Hc & _ & E)];
    rewrite Ht; rewrite Hm in E; injection E as -> ->.
  - by rewrite (proj2 (untagged ptr He)).
  - by rewrite (container_Ret _ _ _ _ Hc).
Qed.

Lemma unknown_fields_spec h n a x d :
  kept h -> messages h !! n = Some (a, x) -> d = Ret uf_empty -> unknown_fields d n h = Ret x.
Proof.
  intros HK Hm ->. destruct (message_word _ _ _ _ Hm) as [ptr Hn]. unfold unknown_fields, have_unknown_fields.
  rewrite (word_Ret _ _ _ Hn). cbn [obind]. destruct (kept_cases h n ptr HK Hn) as [(Ht & He & E)|(Ht & c & Hc & _ & E)];
    rewrite Ht; rewrite Hm in E; injection E as -> ->; [done|]. by rewrite (container_Ret _ _ _ _ Hc).
Qed.

Lemma kept_fresh h m ptr :
  kept h -> words h !! m = Some ptr -> HasUnknownFieldsTag ptr = true -> PtrValue ptr <> malloc (dom (containers h)).
Proof.
  intros HK Hm Ht E. destruct (kept_cases h m ptr HK Hm) as [[? _]|(_ & d & (_ & _ & Hd & _) & _)]; [congruence|].
  apply (malloc_fresh (dom (containers h))). rewrite <- E. apply elem_of_dom. by eexists.
Qed.

(** A container for a message that has none. *)
Lemma new_container h n a :
  kept h -> words h !! n = Some a -> HasUnknownFieldsTag a = false -> a mod 2 = 0 ->
  let p := malloc (dom (containers h)) in
  let c := mkContainer a a uf_empty in
  let h' := mkHeap (<[p := c]> (containers h)) (<[n := Z.lor p kUnknownFieldsTagMask]> (words h)) in
  kept h' /\ has_container h' n p c /\ messages h' = messages h /\
  (forall m q d, m <> n -> has_container h m q d -> has_container h' m q d).
Proof.
  intros HK Hn Ha He. cbv zeta. set (p := malloc (dom (containers h))). set (c := mkContainer a a uf_empty).
  set (h' := mkHeap _ _). destruct (malloc_aligned (dom (containers h))) as [_ Hp]. fold p in Hp.
  assert (Hold : forall m ptr, m <> n -> words h' !! m = Some ptr -> words h !! m = Some ptr).
  { intros m ptr Hne. simpl. by rewrite lookup_insert_ne. }
  assert (Hcont : forall q d, containers h !! q = Some d -> containers h' !! q = Some d).
  { intros q d Hq. simpl. rewrite lookup_insert_ne; [done|]. intros <-.
    apply (malloc_fresh (dom (containers h))), elem_of_dom. by eexists. }
  assert (Hnew : has_container h' n p c) by (split; [apply lookup_insert_eq|]; split; [done|]; split; [apply lookup_insert_eq|done]).
  split; [|split; [exact Hnew|split]].
  - split.
    + intros m ptr Hm. destruct (decide (m = n)) as [->|Hne].
      * destruct Hnew as (Hw & _ & Hc & _). rewrite Hw in Hm. injection Hm as <-.
        exists a, (Some (p, uf_empty)). split; [by apply (shows_container h' _ p c)|done].
      * destruct (kept_word h HK m ptr (Hold m ptr Hne Hm)) as (b & y & Hs & Hb). exists b, y. split; [|done].
        destruct Hs as [Hq|q d -> Hq Hd Hod]; [by constructor|]. apply shows_container; auto.
    + intros m k ptr Hm Hk Ht. destruct (decide (m = n)) as [->|Hmn], (decide (k = n)) as [->|Hkn]; [done| | |].
      * exfalso. apply (kept_fresh h k ptr HK (Hold k ptr Hkn Hk) Ht). simpl in Hm. rewrite lookup_insert_eq in Hm.
        injection Hm as <-. by apply tagged.
      * exfalso. apply (kept_fresh h m ptr HK (Hold m ptr Hmn Hm) Ht). simpl in Hk. rewrite lookup_insert_eq in Hk.
        injection Hk as <-. by apply tagged.
      * by apply (kept_own h HK m k ptr); auto.
    + intros q Hq. simpl in Hq. destruct (decide (q = p)) as [->|Hne]; [split; [done|]; exists n; apply Hnew|].
      rewrite lookup_insert_ne in Hq by done. destruct (kept_used h HK q Hq) as [Hqe [m Hm]]. split; [done|]. exists m. simpl.
      rewrite lookup_insert_ne; [done|]. intros <-. rewrite Hn in Hm. injection Hm as ->.
      by rewrite odd_word in Ha.
  - apply map_eq. intros m. unfold messages. rewrite !lookup_fmap. destruct (decide (m = n)) as [->|Hne].
    + destruct Hnew as (-> & _ & Hc & _). rewrite Hn. csimpl. unfold message_of. destruct (tagged p Hp) as [-> ->].
      by rewrite Hc, Ha.
    + simpl. rewrite lookup_insert_ne by done. destruct (words h !! m) as [ptr|] eqn:Em; [|done]. csimpl. f_equal.
      unfold message_of. destruct (HasUnknownFieldsTag ptr) eqn:Et; [|done]. simpl.
      by rewrite lookup_insert_ne by (by eapply not_eq_sym, kept_fresh).
  - intros m q d Hne (Hw & Hq & Hd & Hod). split; [simpl; by rewrite lookup_insert_ne|]. by repeat split; auto.
Qed.

Lemma mutable_spec h n a x :
  kept h -> messages h !! n = Some (a, x) ->
  exists p c h', mutable_unknown_fields n h = Ret (p, h') /\ kept h' /\ has_container h' n p c /\
    c_arena c = a /\ c_unknown_fields c = x /\ messages h' = messages h /\
    (forall m q d, has_container h m q d -> has_container h' m q d).
Proof.
  intros HK Hm. destruct (message_word _ _ _ _ Hm) as [ptr Hn].
  pose proof (md_arena_spec h n a x HK Hm) as Harena.
  unfold mutable_unknown_fields, have_unknown_fields. rewrite (word_Ret _ _ _ Hn). cbn [obind].
  destruct (kept_cases h n ptr HK Hn) as [(Ht & He & E)|(Ht & c & Hc & _ & E)]; rewrite Ht; rewrite Hm in E; injection E as -> ->.
  - destruct (new_container h n ptr HK Hn Ht He) as (HK' & Hc' & Hmsg & Hkeep).
    set (p := malloc (dom (containers h))) in *. set (c := mkContainer ptr ptr uf_empty) in *.
    exists p, c, (mkHeap (<[p := c]> (containers h)) (<[n := Z.lor p kUnknownFieldsTagMask]> (words h))).
    split; [|do 5 (split; [done|])].
    + unfold mutable_unknown_fields_slow. rewrite Harena. unfold Create, container, set_container, set_word; simpl.
      fold p. rewrite lookup_insert_eq. simpl. by rewrite insert_insert_eq.
    + intros m q d Hd. destruct (decide (m = n)) as [->|Hne]; [|by apply Hkeep].
      destruct Hd as (Hw & Hq & _). rewrite Hn in Hw. injection Hw as ->. by rewrite odd_word in Ht.
  - exists (PtrValue ptr), c, h. by do 6 (split; [done|]).
Qed.

(** ** The operations *)

Lemma update_spec h n p c f :
  kept h -> has_container h n p c ->
  exists h', update f p h = Ret h' /\ kept h' /\ messages h' = <[n := (c_arena c, f (c_unknown_fields c))]> (messages h).
Proof.
  intros HK Hc. unfold update. rewrite (container_Ret _ _ _ _ Hc). cbn [obind]. eexists. split; [done|].
  by destruct (write_fields h n p c (f (c_unknown_fields c)) HK Hc) as (? & _ & ?).
Qed.

(** A change through the pointer of [mutable_unknown_fields]. *)
Lemma mutate_spec h n a x f :
  kept h -> messages h !! n = Some (a, x) ->
  exists h', (do (p, h) <- mutable_unknown_fields n h; update f p h) = Ret h' /\ kept h' /\
    messages h' = <[n := (a, f x)]> (messages h).
Proof.
  intros HK Hm. destruct (mutable_spec h n a x HK Hm) as (p & c & h1 & -> & HK1 & Hc & <- & <- & <- & _). cbn [obind].
  by apply update_spec.
Qed.

Lemma message_same h n a x : messages h !! n = Some (a, x) -> <[n := (a, x)]> (messages h) = messages h.
Proof. apply insert_id. Qed.

Lemma untagged_empty h n ptr a x :
  kept h -> words h !! n = Some ptr -> HasUnknownFieldsTag ptr = false -> messages h !! n = Some (a, x) ->
  x = uf_empty /\ a = ptr.
Proof.
  intros HK Hn Ht Hm. destruct (kept_cases h n ptr HK Hn) as [(_ & _ & E)|(? & _)]; [|congruence].
  rewrite Hm in E. by injection E.
Qed.

Lemma md_Clear_spec h n a x :
  kept h -> messages h !! n = Some (a, x) ->
  exists h', md_Clear n h = Ret h' /\ kept h' /\ messages h' = <[n := (a, uf_empty)]> (messages h).
Proof.
  intros HK Hm. destruct (message_word _ _ _ _ Hm) as [ptr Hn]. unfold md_Clear, DoClear, have_unknown_fields.
  rewrite (word_Ret _ _ _ Hn). cbn [obind]. destruct (HasUnknownFieldsTag ptr) eqn:Ht.
  - destruct (mutate_spec h n a x uf_Clear HK Hm) as (h' & -> & HK' & E). exists h'. by rewrite uf_clear_empty in E.
  - exists h. destruct (untagged_empty h n ptr a x HK Hn Ht Hm) as [-> _]. by rewrite message_same.
Qed.

Lemma md_MergeFrom_spec h n m a x b y :
  kept h -> messages h !! n = Some (a, x) -> messages h !! m = Some (b, y) ->
  exists h', md_MergeFrom n m h = Ret h' /\ kept h' /\ messages h' = <[n := (a, uf_MergeFrom y x)]> (messages h).
Proof.
  intros HK Hm Ho. destruct (message_word _ _ _ _ Ho) as [ptr Hn]. unfold md_MergeFrom, DoMergeFrom, have_unknown_fields.
  rewrite (word_Ret _ _ _ Hn). cbn [obind]. destruct (HasUnknownFieldsTag ptr) eqn:Ht.
  - destruct (kept_cases h m ptr HK Hn) as [[? _]|(_ & d & Hd & _ & E)]; [congruence|]. rewrite Ho in E. injection E as -> ->.
    destruct (mutable_spec h n a x HK Hm) as (p & c & h1 & -> & HK1 & Hc & <- & <- & <- & Hkeep). cbn [obind].
    rewrite (container_Ret _ _ _ _ (Hkeep m _ d Hd)). cbn [obind]. by apply update_spec.
  - exists h. destruct (untagged_empty h m ptr b y HK Hn Ht Ho) as [-> _]. by rewrite uf_merge_empty, message_same.
Qed.

Lemma md_Swap_spec h n m a x b y :
  kept h -> messages h !! n = Some (a, x) -> messages h !! m = Some (b, y) ->
  exists h', md_Swap n m h = Ret h' /\ kept h' /\ messages h' = <[m := (b, x)]> (<[n := (a, y)]> (messages h)).
Proof.
  intros HK Hm Ho. destruct (message_word _ _ _ _ Hm) as [ptr Hn]. destruct (message_word _ _ _ _ Ho) as [optr Hon].
  unfold md_Swap, DoSwap, have_unknown_fields. rewrite (word_Ret _ _ _ Hn), (word_Ret _ _ _ Hon). cbn [obind].
  destruct (HasUnknownFieldsTag ptr || HasUnknownFieldsTag optr) eqn:Et.
  - destruct (mutable_spec h m b y HK Ho) as (q & d & h1 & -> & HK1 & Hd & <- & <- & Emsg & _). cbn [obind].
    rewrite <- Emsg in Hm |- *. destruct (mutable_spec h1 n a x HK1 Hm) as (p & c & h2 & -> & HK2 & Hc & <- & <- & <- & Hkeep).
    apply Hkeep in Hd. cbn [obind]. rewrite (container_Ret _ _ _ _ Hc), (container_Ret _ _ _ _ Hd). cbn [obind].
    destruct (write_fields h2 n p c (c_unknown_fields d) HK2 Hc) as (HK3 & Hc3 & E3).
    destruct (decide (n = m)) as [->|Hne].
    + destruct Hc as (Hw & Hp & Hcc & _), Hd as (Hw' & Hq & Hdc & _). rewrite Hw in Hw'. injection Hw' as Hpq.
      apply lor_inj in Hpq; [|done..]. subst q. rewrite Hcc in Hdc. injection Hdc as <-.
      rewrite (container_Ret _ _ _ _ Hc3). cbn [obind]. eexists. split; [done|].
      destruct (write_fields _ m p _ (c_unknown_fields c) HK3 Hc3) as (HK4 & _ & E4).
      split; [exact HK4|]. by rewrite E4, E3.
    + set (h3 := set_container p (set_fields (c_unknown_fields d) c) h2) in *.
      assert (Hqp : q <> p) by (intros ->; apply Hne; apply (kept_own h2 HK2 n m _ (proj1 Hc) (proj1 Hd)), odd_word).
      assert (Hd3 : has_container h3 m q d).
      { destruct Hd as (? & ? & Hdc & ?). repeat split; try done. simpl. by rewrite lookup_insert_ne. }
      rewrite (container_Ret _ _ _ _ Hd3). cbn [obind]. eexists. split; [done|].
      destruct (write_fields h3 m q d (c_unknown_fields c) HK3 Hd3) as (HK4 & _ & E4). split; [exact HK4|]. by rewrite E4, E3.
  - apply orb_false_iff in Et as [Et Eo]. exists h. split; [done|]. split; [done|].
    destruct (untagged_empty h n ptr a x HK Hn Et Hm) as [-> ->]. destruct (untagged_empty h m optr b y HK Hon Eo Ho) as [-> ->].
    by rewrite (message_same h n), message_same.
Qed.

Lemma md_InternalSwap_spec h n m a x b y :
  kept h -> messages h !! n = Some (a, x) -> messages h !! m = Some (b, y) ->
  exists h', md_InternalSwap n m h = Ret h' /\ kept h' /\ messages h' = <[m := (a, x)]> (<[n := (b, y)]> (messages h)).
Proof.
  intros HK Hm Ho. destruct (message_word _ _ _ _ Hm) as [ptr Hn]. destruct (message_word _ _ _ _ Ho) as [optr Hon].
  unfold md_InternalSwap. rewrite (word_Ret _ _ _ Hn), (word_Ret _ _ _ Hon). cbn [obind]. eexists. split; [done|].
  set (h' := set_word m ptr (set_word n optr h)).
  set (swapped := fun k => if decide (k = m) then n else if decide (k = n) then m else k).
  assert (Hsw : forall k ptr', words h' !! k = Some ptr' -> words h !! swapped k = Some ptr').
  { intros k ptr'. unfold h', swapped; simpl. destruct (decide (k = m)) as [->|Hkm].
    - rewrite lookup_insert_eq. congruence.
    - rewrite lookup_insert_ne by done. destruct (decide (k = n)) as [->|Hkn]; [rewrite lookup_insert_eq; congruence|].
      by rewrite lookup_insert_ne. }
  assert (Hinj : forall k l, swapped k = swapped l -> k = l).
  { intros k l. unfold swapped. repeat destruct (decide _); congruence. }
  split.
  - split.
    + intros k ptr' Hk. destruct (kept_word h HK _ _ (Hsw k ptr' Hk)) as (c & z & Hs & Hc). exists c, z. split; [|done].
      by destruct Hs; constructor.
    + intros k l ptr' Hk Hl Ht. apply Hinj. by apply (kept_own h HK _ _ ptr'); [apply Hsw|apply Hsw|].
    + intros p Hp. destruct (kept_used h HK p Hp) as [Hpe [k Hk]]. split; [done|]. exists (swapped k). unfold h', swapped; simpl.
      destruct (decide (k = m)) as [->|Hkm].
      * destruct (decide (n = m)) as [->|Hnm]; [rewrite lookup_insert_eq; congruence|].
        rewrite lookup_insert_ne by done. rewrite lookup_insert_eq. congruence.
      * destruct (decide (k = n)) as [->|Hkn]; [rewrite lookup_insert_eq; congruence|]. by rewrite !lookup_insert_ne.
  - unfold messages in *. unfold h'; simpl. rewrite !fmap_insert. rewrite lookup_fmap, Hn in Hm. rewrite lookup_fmap, Hon in Ho.
    injection Hm as Em. injection Ho as Eo. rewrite <- Em, <- Eo. done.
Qed.

(** [Delete], in the destructor of a message that is not on an arena. *)
Lemma md_Delete_spec h n x :
  kept h -> messages h !! n = Some (0, x) ->
  exists h', md_Delete n h = Ret h' /\ kept h' /\ messages h' = <[n := (0, uf_empty)]> (messages h).
Proof.
  intros HK Hm. destruct (message_word _ _ _ _ Hm) as [ptr Hn]. unfold md_Delete, have_unknown_fields.
  rewrite (word_Ret _ _ _ Hn). cbn [obind]. destruct (HasUnknownFieldsTag ptr) eqn:Ht.
  2:{ exists h. destruct (untagged_empty h n ptr 0 x HK Hn Ht Hm) as [-> _]. by rewrite message_same. }
  destruct (kept_cases h n ptr HK Hn) as [[? _]|(_ & c & Hc & _ & E)]; [congruence|]. rewrite Hm in E. injection E as E0 ->.
  unfold DeleteOutOfLineHelper, delete_container. rewrite (word_Ret _ _ _ Hn). cbn [obind].
  rewrite (container_Ret _ _ _ _ Hc). cbn [obind]. destruct Hc as (Hw & Hp & Hc & Ho). rewrite Ho, <- E0. cbn [Z.eqb obind].
  eexists. split; [done|]. set (h' := set_word n 0 _). set (p := PtrValue ptr) in *.
  assert (Hold : forall m ptr', m <> n -> words h' !! m = Some ptr' -> words h !! m = Some ptr').
  { intros m ptr' Hne. simpl. by rewrite lookup_insert_ne. }
  assert (Hother : forall m q d, m <> n -> has_container h m q d -> containers h' !! q = Some d).
  { intros m q d Hne (Hwq & Hq & Hd & _). simpl. rewrite lookup_delete_ne; [done|]. intros ->. apply Hne.
    apply (kept_own h HK m n _ Hwq Hw), odd_word. }
  split.
  - split.
    + intros m ptr' Hm'. destruct (decide (m = n)) as [->|Hne].
      * simpl in Hm'. rewrite lookup_insert_eq in Hm'. injection Hm' as <-. exists 0, None. by split; [constructor|].
      * pose proof (Hold m ptr' Hne Hm') as Hmo. destruct (kept_word h HK m ptr' Hmo) as (b & y & Hs & Hb).
        exists b, y. split; [|done]. destruct Hs as [Hq|q d -> Hq Hd Hod]; [by constructor|].
        apply shows_container; [done|done| |done]. by apply (Hother m).
    + intros m k ptr' Hm' Hk Ht'. assert (forall l, words h' !! l = Some ptr' -> l <> n).
      { intros l Hl ->. simpl in Hl. rewrite lookup_insert_eq in Hl. by injection Hl as <-. }
      apply (kept_own h HK m k ptr'); auto.
    + intros q Hq. simpl in Hq. destruct (decide (q = p)) as [->|Hne]; [rewrite lookup_delete_eq in Hq; by destruct Hq|].
      rewrite lookup_delete_ne in Hq by done. destruct (kept_used h HK q Hq) as [Hqe [m Hm']]. split; [done|]. exists m. simpl.
      rewrite lookup_insert_ne; [done|]. intros <-. apply Hne. rewrite Hn in Hm'. injection Hm' as ->.
      symmetry. by apply tagged.
  - apply map_eq. intros m. unfold messages. rewrite lookup_fmap. destruct (decide (m = n)) as [->|Hne].
    + simpl. by rewrite !lookup_insert_eq.
    + simpl. rewrite !lookup_insert_ne, lookup_fmap by done. destruct (words h !! m) as [ptr'|] eqn:Em; [|done].
      csimpl. f_equal. unfold message_of. destruct (HasUnknownFieldsTag ptr') eqn:Et; [|done].
      destruct (kept_cases h m ptr' HK Em) as [[? _]|(_ & d & Hd & _)]; [congruence|].
      pose proof (Hother m _ d Hne Hd) as Hd'. destruct Hd as (_ & _ & Hd & _). by rewrite Hd', Hd.
Qed.
End meaning.

(** ** A message's life *)

(** What a program does with the metadata of its messages. *)
Inductive op (T : Type) :=
| op_new (n : nat) (arena : Z)
| op_mutate (n : nat) (f : T -> T)
| op_clear (n : nat)
| op_merge (n other : nat)
| op_swap (n other : nat)
| op_internal_swap (n other : nat)
| op_delete (n : nat).
Arguments op_new {T} _ _.
Arguments op_mutate {T} _ _.
Arguments op_clear {T} _.
Arguments op_merge {T} _ _.
Arguments op_swap {T} _ _.
Arguments op_internal_swap {T} _ _.
Arguments op_delete {T} _.

Section life.
Context {T : Type} `{UnknownFieldSet T} `{Malloc}.
Implicit Types (h : Heap T) (n m : nat) (M : gmap nat (Z * T)) (o : op T).

(** By the code. *)
Definition exec o h : outcome (Heap T) :=
  match o with
  | op_new n arena => Ret (set_word n (InternalMetadata_new arena) h)
  | op_mutate n f => do (p, h) <- mutable_unknown_fields n h; update f p h
  | op_clear n => md_Clear n h
  | op_merge n other => md_MergeFrom n other h
  | op_swap n other => md_Swap n other h
  | op_internal_swap n other => md_InternalSwap n other h
  | op_delete n => md_Delete n h
  end.

Fixpoint exec_all (l : list (op T)) h : outcome (Heap T) :=
  match l with [] => Ret h | o :: l => do h <- exec o h; exec_all l h end.

(** As the user sees it: each message is an arena and unknown fields.  A
    message is made once, on an aligned arena or none; [Delete] is for a
    message on no arena. *)
Definition intend o M : option (gmap nat (Z * T)) :=
  match o with
  | op_new n arena => if bool_decide (M !! n = None /\ arena mod 2 = 0) then Some (<[n := (arena, uf_empty)]> M) else None
  | op_mutate n f => v ← M !! n; Some (<[n := (v.1, f v.2)]> M)
  | op_clear n => v ← M !! n; Some (<[n := (v.1, uf_empty)]> M)
  | op_merge n other => v ← M !! n; w ← M !! other; Some (<[n := (v.1, uf_MergeFrom w.2 v.2)]> M)
  | op_swap n other => v ← M !! n; w ← M !! other; Some (<[other := (w.1, v.2)]> (<[n := (v.1, w.2)]> M))
  | op_internal_swap n other => v ← M !! n; w ← M !! other; Some (<[other := v]> (<[n := w]> M))
  | op_delete n => v ← M !! n; if v.1 =? 0 then Some (<[n := (0, uf_empty)]> M) else None
  end.

Fixpoint intend_all (l : list (op T)) M : option (gmap nat (Z * T)) :=
  match l with [] => Some M | o :: l => M ← intend o M; intend_all l M end.

Lemma new_kept h n a :
  kept h -> words h !! n = None -> a mod 2 = 0 ->
  kept (set_word n a h) /\ messages (set_word n a h) = <[n := (a, uf_empty)]> (messages h).
Proof.
  intros HK Hn Ha. destruct (untagged a Ha) as [Ht _]. split.
  - split.
    + intros m ptr Hm. simpl in Hm. destruct (decide (m = n)) as [->|Hne].
      * rewrite lookup_insert_eq in Hm. injection Hm as <-. exists a, None. by split; [constructor|].
      * rewrite lookup_insert_ne in Hm by done. destruct (kept_word h HK m ptr Hm) as (b & y & Hs & Hb).
        exists b, y. split; [|done]. by destruct Hs; constructor.
    + intros m k ptr Hm Hk Hp. assert (forall l, words (set_word n a h) !! l = Some ptr -> words h !! l = Some ptr) as Hold.
      { intros l. simpl. destruct (decide (l = n)) as [->|Hne]; [rewrite lookup_insert_eq; congruence|].
        by rewrite lookup_insert_ne. }
      apply (kept_own h HK m k ptr); auto.
    + intros p Hp. destruct (kept_used h HK p Hp) as [Hpe [m Hm]]. split; [done|]. exists m. simpl.
      rewrite lookup_insert_ne; [done|]. intros <-. congruence.
  - unfold messages. simpl. rewrite fmap_insert. unfold message_of at 1. by rewrite Ht.
Qed.

(** One operation does what it should. *)
Lemma exec_spec o h M :
  kept h -> intend o (messages h) = Some M -> exists h', exec o h = Ret h' /\ kept h' /\ messages h' = M.
Proof.
  intros HK. destruct o as [n a|n f|n|n m|n m|n m|n]; simpl.
  1:{ case_bool_decide as Hc; [|done]. destruct Hc as [Hn Ha]. intros [= <-]. eexists. split; [done|].
      apply new_kept; [done| |done]. unfold messages in Hn. rewrite lookup_fmap in Hn. by destruct (words h !! n). }
  all: destruct (messages h !! n) as [[a x]|] eqn:Hn; [|done]; csimpl.
  3-5: destruct (messages h !! m) as [[b y]|] eqn:Hm; [|done]; csimpl.
  6: destruct (a =? 0) eqn:Ea; [|done]; apply Z.eqb_eq in Ea as ->.
  all: intros [= <-].
  - by apply mutate_spec.
  - by eapply md_Clear_spec.
  - by eapply md_MergeFrom_spec.
  - by apply md_Swap_spec.
  - by apply md_InternalSwap_spec.
  - by eapply md_Delete_spec.
Qed.

Lemma exec_all_spec l h M :
  kept h -> intend_all l (messages h) = Some M -> exists h', exec_all l h = Ret h' /\ kept h' /\ messages h' = M.
Proof.
  revert h. induction l as [|o l IH]; intros h HK; simpl.
  - intros [= <-]. by exists h.
  - destruct (intend o (messages h)) as [M1|] eqn:E; [|done]. csimpl. intros HM.
    destruct (exec_spec o h M1 HK E) as (h1 & -> & HK1 & <-). by apply IH.
Qed.

Definition no_messages : Heap T := mkHeap ∅ ∅.

Lemma no_messages_kept : kept no_messages /\ messages no_messages = ∅.
Proof.
  split; [|done]. split; intros *; simpl; rewrite lookup_empty; [done|done|by intros [? [=]]].
Qed.

(** C29: the tagged words implement their messages: a program that makes each
    message once and deletes the metadata only of messages on no arena never
    uses or frees a container that is not there, every message has the arena
    it was made with (or swapped to) and exactly its unknown fields, and every
    container left belongs to one message, was made on its arena, and is found
    through that message's word, so none is leaked or shared. *)
Theorem metadata_refines l M :
  intend_all l ∅ = Some M ->
  exists h, exec_all l no_messages = Ret h /\ messages h = M /\
    (forall n a x, M !! n = Some (a, x) -> md_arena n h = Ret a /\ unknown_fields (Ret uf_empty) n h = Ret x) /\
    (forall p c, containers h !! p = Some c ->
       exists n, M !! n = Some (c_home c, c_unknown_fields c) /\ words h !! n = Some (Z.lor p kUnknownFieldsTagMask) /\
         forall m, words h !! m = Some (Z.lor p kUnknownFieldsTagMask) -> m = n).
Proof.
  destruct no_messages_kept as [HK0 E0]. intros HM. rewrite <- E0 in HM.
  destruct (exec_all_spec l no_messages M HK0 HM) as (h & Eh & HK & <-). exists h. do 2 (split; [done|]). split.
  - intros n a x Hn. split; [by eapply md_arena_spec|by eapply unknown_fields_spec].
  - intros p c Hc. destruct (kept_used h HK p) as [Hpe [n Hn]]; [by eexists|]. exists n.
    destruct (kept_cases h n _ HK Hn) as [[Ht _]|(_ & d & (_ & _ & Hd & Ho) & _ & E)]; [by rewrite odd_word in Ht|].
    rewrite (proj2 (tagged p Hpe)), Hc in Hd. injection Hd as ->. rewrite Ho. do 2 (split; [done|]).
    intros m Hm. apply (kept_own h HK m n _ Hm Hn), odd_word.
Qed.
End life.

(** ** Reading the unknown fields of a lite message *)

Section setter_spec.
Context `{Malloc}.
Implicit Types (h : Heap string) (n : nat).

Lemma swap_with_spec h n a x buffer :
  kept h -> messages h !! n = Some (a, x) ->
  exists h', (do (p, h) <- mutable_unknown_fields n h; swap_with buffer p h) = Ret (x, h') /\ kept h' /\
    messages h' = <[n := (a, buffer)]> (messages h).
Proof.
  intros HK Hn. destruct (mutable_spec h n a x HK Hn) as (p & c & h1 & -> & HK1 & Hc & <- & <- & <- & _).
  cbn [obind]. unfold swap_with. rewrite (container_Ret _ _ _ _ Hc). cbn [obind]. eexists. split; [done|].
  by destruct (write_fields h1 n p c buffer HK1 Hc) as (? & _ & ?).
Qed.

(** A setter's life: the fields are taken out, appended to, and put back. *)
Lemma LiteUnknownFieldSetter_spec h n a x f :
  kept h -> messages h !! n = Some (a, x) ->
  exists h', (do (buffer, h) <- LiteUnknownFieldSetter_new n h; LiteUnknownFieldSetter_delete n (f buffer) h) = Ret h' /\
    kept h' /\ messages h' = <[n := (a, f x)]> (messages h).
Proof.
  intros HK Hn.
  assert (exists h1, LiteUnknownFieldSetter_new n h = Ret (x, h1) /\ kept h1 /\ messages h1 = <[n := (a, "")]> (messages h))
    as (h1 & -> & HK1 & E1).
  { destruct (message_word _ _ _ _ Hn) as [ptr Hw]. unfold LiteUnknownFieldSetter_new, have_unknown_fields.
    rewrite (word_Ret _ _ _ Hw). cbn [obind]. destruct (HasUnknownFieldsTag ptr) eqn:Ht; [by apply swap_with_spec|].
    exists h. destruct (untagged_empty h n ptr a x HK Hw Ht Hn) as [-> _]. by rewrite message_same. }
  cbn [obind]. unfold LiteUnknownFieldSetter_delete. case_bool_decide as Hf; [exists h1; by rewrite Hf|].
  assert (Hn1 : messages h1 !! n = Some (a, "")) by (by rewrite E1, lookup_insert_eq).
  destruct (swap_with_spec h1 n a "" (f x) HK1 Hn1) as (h2 & E2 & HK2 & M2). exists h2.
  destruct (mutable_unknown_fields n h1) as [[p h']| |]; try discriminate E2. cbn [obind] in *. rewrite E2. cbn [obind].
  split; [done|]. split; [done|]. by rewrite M2, E1, insert_insert_eq.
Qed.
End setter_spec.

(** ** A concrete heap *)

Module Toy_heap.
(** Above everything in use. *)
Definition highest (used : gset Z) : Z := foldr Z.max 0 (elements used).

Lemma highest_bound used p : p ∈ used -> p <= highest used.
Proof.
  intros Hp. apply elem_of_elements in Hp. unfold highest. induction (elements used) as [|q l IH]; [by apply elem_of_nil in Hp|].
  simpl. apply elem_of_cons in Hp as [-> |Hp]; [lia|]. specialize (IH Hp). lia.
Qed.

Lemma highest_pos used : 0 <= highest used.
Proof. unfold highest. induction (elements used); simpl; lia. Qed.

#[global] Program Instance toy_malloc : Malloc := {| malloc used := 2 * (highest used + 1) |}.
Next Obligation. intros used Hin. pose proof (highest_bound used _ Hin). pose proof (highest_pos used). lia. Qed.
Next Obligation. intros used. pose proof (highest_pos used). split; [lia|]. rewrite Z.mul_comm. by apply Z.mod_mul. Qed.

(** A message on an arena, two on the heap; one is destroyed. *)
Definition life : list (op string) :=
  [op_new 0 640; op_new 1 0; op_mutate 0 (fun x => x ++ "ab")%string; op_merge 1 0; op_mutate 1 (fun x => x ++ "c")%string;
   op_swap 0 1; op_new 2 0; op_merge 2 2; op_clear 1; op_internal_swap 1 2; op_mutate 1 (fun _ => "d"); op_delete 1].
Definition outcome_of_life : gmap nat (Z * string) := {[0%nat := (640, "abc"); 1%nat := (0, ""); 2%nat := (0, "")]}.
End Toy_heap.

Lemma metadata_refines_witness :
  exists h, exec_all Toy_heap.life no_messages = Ret h /\ messages h = Toy_heap.outcome_of_life /\
    (forall n a x, Toy_heap.outcome_of_life !! n = Some (a, x) ->
       md_arena n h = Ret a /\ unknown_fields (Ret uf_empty) n h = Ret x) /\
    (forall p c, containers h !! p = Some c ->
       exists n, Toy_heap.outcome_of_life !! n = Some (c_home c, c_unknown_fields c) /\
         words h !! n = Some (Z.lor p kUnknownFieldsTagMask) /\
         forall m, words h !! m = Some (Z.lor p kUnknownFieldsTagMask) -> m = n).
Proof. apply (metadata_refines Toy_heap.life Toy_heap.outcome_of_life). vm_compute. reflexivity. Defined.
