(* ===== verification/HasBits.v ===== *)
(** * The presence bits of a message ([google/protobuf/has_bits.h])

    An array of [doublewords] 32-bit words, one bit for each optional field.
    The code works on words; the theorems say what that does to the set of
    fields that are present. *)

From S2P Require Import Prelude.
From S2P Require Import Bytes.
From S2P Require Import Bits.
Local Open Scope Z_scope.

(** [uint32_t has_bits_[doublewords]]. *)
Definition HasBits : Set := list Z.
Implicit Types b rhs : list Z.

Definition HasBits_new (doublewords : nat) : HasBits := replicate doublewords 0.

(** [Copy]: the first [n] words of [src], zeros behind; reading [src] or
    writing [dst] out of range is undefined. *)
Definition write_word (ix : nat) (v : Z) b : outcome (list Z) :=
  if bool_decide (ix < length b)%nat then Ret (<[ix := v]> b) else UB.

Definition read_word (src : list Z) (ix : nat) : outcome Z := match src !! ix with Some v => Ret v | None => UB end.

Definition HasBits_Copy (dst src : list Z) (n : nat) : outcome (list Z) :=
  do dst <- ofold (fun ix dst => do v <- read_word src ix; write_word ix v dst) (seq 0 n) dst;
  ofold (fun ix dst => write_word ix 0 dst) (seq n (length dst - n)) dst.

(** [HasBits(std::initializer_list<uint32_t>)]. *)
Definition HasBits_of (doublewords : nat) (has_bits : list Z) : outcome HasBits :=
  HasBits_Copy (HasBits_new doublewords) has_bits (length has_bits).

(** [memset(has_bits_, 0, sizeof(has_bits_))]. *)
Definition HasBits_Clear (b : HasBits) : HasBits := replicate (length b) 0.

(** [operator[]], and a write through it. *)
Definition HasBits_at (b : HasBits) (index : nat) : outcome Z := read_word b index.
Definition HasBits_set (b : HasBits) (index : nat) (v : Z) : outcome HasBits := write_word index v b.

(** [memcmp] of the bytes. *)
Fixpoint memcmp_zero (x y : bytes) : bool :=
  match x, y with
  | [], [] => true
  | c :: x, d :: y => (c =? d) && memcmp_zero x y
  | _, _ => false
  end.

Definition word_bytes b : bytes := concat (le_bytes 4 <$> b).
Definition HasBits_eq (b rhs : HasBits) : bool := memcmp_zero (word_bytes b) (word_bytes rhs).
Definition HasBits_neq (b rhs : HasBits) : bool := negb (HasBits_eq b rhs).

(** [Or]: the loop over the [doublewords] words of both. *)
Definition HasBits_Or (b rhs : HasBits) : outcome HasBits :=
  ofold (fun i b => do x <- HasBits_at b i; do y <- HasBits_at rhs i; write_word i (Z.lor x y) b) (seq 0 (length b)) b.

(** [empty]: the general loop, and the specialisations up to four words. *)
Fixpoint HasBits_empty_loop b : bool :=
  match b with [] => true | bits :: b => if negb (bits =? 0) then false else HasBits_empty_loop b end.

Definition HasBits_empty (b : HasBits) : bool :=
  match b with
  | [x] => x =? 0
  | [x; y] => Z.lor x y =? 0
  | [x; y; z] => Z.lor (Z.lor x y) z =? 0
  | [x; y; z; t] => Z.lor (Z.lor (Z.lor x y) z) t =? 0
  | _ => HasBits_empty_loop b
  end.

(** ** The fields that are present *)

(** What generated code calls [_has_bits_[i / 32] & (1u << (i % 32))]. *)
Definition present b (i : nat) : bool :=
  match b !! (i / 32)%nat with Some x => Z.testbit x (Z.of_nat (i mod 32)) | None => false end.

Definition words32 b : Prop := Forall (inU 32) b.

Lemma read_word_Ret (l : list Z) i v : l !! i = Some v -> read_word l i = Ret v.
Proof. intros E. unfold read_word. by rewrite E. Qed.

Lemma write_word_Ret b i v : (i < length b)%nat -> write_word i v b = Ret (<[i := v]> b).
Proof. intros E. unfold write_word. by rewrite bool_decide_true. Qed.

(** A loop that writes one word after the other. *)
Lemma write_loop (f : nat -> list Z -> outcome Z) (g : nat -> Z) n k b :
  (k + n <= length b)%nat ->
  (forall i c, (k <= i < k + n)%nat -> length c = length b -> (forall j, (i <= j)%nat -> c !! j = b !! j) -> f i c = Ret (g i)) ->
  ofold (fun i c => do v <- f i c; write_word i v c) (seq k n) b =
  Ret (take k b ++ (g <$> seq k n) ++ drop (k + n) b).
Proof.
  revert k b. induction n as [|n IH]; intros k b Hk Hf; simpl.
  - by rewrite Nat.add_0_r, take_drop.
  - rewrite (Hf k b) by (done || lia). cbn [obind]. rewrite write_word_Ret by lia. cbn [obind]. rewrite IH.
    + f_equal. rewrite (take_S_r _ _ (g k)) by (apply list_lookup_insert_eq; lia).
      rewrite take_insert_ge by lia. rewrite drop_insert_lt by lia. rewrite <- app_assoc. simpl.
      by replace (k + S n)%nat with (S (k + n)) by lia.
    + rewrite length_insert. lia.
    + intros i c Hi Hl Hc. apply Hf; [lia|by rewrite length_insert in Hl|].
      intros j Hj. rewrite (Hc j Hj). apply list_lookup_insert_ne. lia.
Qed.

Lemma HasBits_of_spec doublewords l :
  (length l <= doublewords)%nat -> HasBits_of doublewords l = Ret (l ++ replicate (doublewords - length l) 0).
Proof.
  intros Hl. unfold HasBits_of, HasBits_Copy.
  rewrite (write_loop (fun ix _ => read_word l ix) (fun ix => l !!! ix)).
  2:{ unfold HasBits_new. rewrite length_replicate. lia. }
  2:{ intros i c Hi _ _. apply read_word_Ret. destruct (lookup_lt_is_Some_2 l i) as [v Hv]; [lia|].
      by rewrite Hv, (list_lookup_total_correct _ _ _ Hv). }
  cbn [obind]. assert (E : (fun ix => l !!! ix) <$> seq 0 (length l) = l).
  { apply list_eq. intros i. rewrite list_lookup_fmap. destruct (decide (i < length l)%nat) as [Hi|Hi].
    - rewrite lookup_seq_lt by done. simpl. symmetry. by apply list_lookup_lookup_total_lt.
    - rewrite lookup_seq_ge by lia. symmetry. apply lookup_ge_None. lia. }
  rewrite E. simpl. unfold HasBits_new. rewrite drop_replicate.
  set (b := l ++ replicate (doublewords - length l) 0).
  assert (Hb : length b = doublewords) by (unfold b; rewrite length_app, length_replicate; lia). rewrite Hb.
  pose proof (write_loop (fun _ _ => Ret 0) (fun _ => 0) (doublewords - length l) (length l) b) as W.
  cbn [obind] in W. rewrite W by (done || lia). f_equal.
  unfold b. rewrite take_app_length, drop_ge by (rewrite length_app, length_replicate; lia).
  f_equal. rewrite app_nil_r. apply list_eq. intros i. rewrite list_lookup_fmap.
  destruct (decide (i < doublewords - length l)%nat) as [Hi|Hi].
  - rewrite lookup_seq_lt by done. symmetry. by apply lookup_replicate_2.
  - rewrite lookup_seq_ge by lia. symmetry. apply lookup_ge_None. rewrite length_replicate. lia.
Qed.

Lemma HasBits_Or_spec b rhs : length rhs = length b -> HasBits_Or b rhs = Ret (zip_with Z.lor b rhs).
Proof.
  intros Hl. unfold HasBits_Or, HasBits.
  pose proof (write_loop (fun i c => do x <- HasBits_at c i; do y <- HasBits_at rhs i; Ret (Z.lor x y))
    (fun i => Z.lor (b !!! i) (rhs !!! i)) (length b) 0 b) as W.
  assert (E : forall l c, ofold (fun i c => do x <- HasBits_at c i; do y <- HasBits_at rhs i; write_word i (Z.lor x y) c) l c =
    ofold (fun i c => do v <- (do x <- HasBits_at c i; do y <- HasBits_at rhs i; Ret (Z.lor x y)); write_word i v c) l c).
  { induction l as [|i l IH]; intros c; simpl; [done|]. destruct (HasBits_at c i); try done. cbn [obind].
    destruct (HasBits_at rhs i); try done. cbn [obind]. destruct (write_word i _ c); try done. apply IH. }
  unfold HasBits in E, W. rewrite E, W; [|lia|].
  - f_equal. simpl. rewrite drop_all, app_nil_r. apply list_eq. intros i. rewrite list_lookup_fmap, lookup_zip_with.
    destruct (decide (i < length b)%nat) as [Hi|Hi].
    + rewrite lookup_seq_lt by done. simpl. rewrite (list_lookup_lookup_total_lt b i Hi).
      by rewrite (list_lookup_lookup_total_lt rhs i) by lia.
    + rewrite lookup_seq_ge by lia. by rewrite (lookup_ge_None_2 b i) by lia.
  - intros i c Hi Hc Hsame. unfold HasBits_at. rewrite (read_word_Ret c i (b !!! i)).
    + cbn [obind]. rewrite (read_word_Ret rhs i (rhs !!! i)); [done|]. apply list_lookup_lookup_total_lt. lia.
    + rewrite Hsame by lia. apply list_lookup_lookup_total_lt. lia.
Qed.

(** The union of the fields. *)
Lemma HasBits_Or_present b rhs i :
  length rhs = length b ->
  exists c, HasBits_Or b rhs = Ret c /\ length c = length b /\ present c i = present b i || present rhs i.
Proof.
  intros Hl. exists (zip_with Z.lor b rhs). split; [by apply HasBits_Or_spec|].
  split; [rewrite length_zip_with; lia|]. unfold present. rewrite lookup_zip_with.
  generalize (i / 32)%nat (i mod 32)%nat. clear i. intros i k.
  destruct (b !! i) as [x|] eqn:Ex; simpl.
  - destruct (lookup_lt_is_Some_2 rhs i) as [y Hy]; [rewrite Hl; by eapply lookup_lt_Some|]. rewrite Hy. simpl.
    apply Z.lor_spec.
  - destruct (rhs !! i) eqn:Ey; [|done]. apply lookup_lt_Some in Ey. apply lookup_ge_None in Ex. lia.
Qed.

Lemma HasBits_Clear_present b i : present (HasBits_Clear b) i = false.
Proof.
  unfold present, HasBits_Clear. destruct (replicate _ _ !! _) as [x|] eqn:E; [|done].
  apply lookup_replicate in E as [-> _]. apply Z.bits_0.
Qed.

Lemma HasBits_empty_zero b : HasBits_empty b = bool_decide (Forall (fun x => x = 0) b).
Proof.
  assert (L : forall b, HasBits_empty_loop b = bool_decide (Forall (fun x => x = 0) b)).
  { clear b. induction b as [|x b IH]; [done|]. simpl. destruct (Z.eqb_spec x 0) as [->|Hx]; simpl.
    - rewrite IH. apply bool_decide_ext. rewrite Forall_cons. tauto.
    - symmetry. apply bool_decide_false. intros Hf. by inversion Hf. }
  assert (E : forall x y, (Z.lor x y =? 0) = (x =? 0) && (y =? 0)).
  { intros x y. apply eq_true_iff_eq. rewrite andb_true_iff, !Z.eqb_eq. apply Z.lor_eq_0_iff. }
  rewrite <- L. unfold HasBits_empty.
  destruct b as [|x [|y [|z [|t [|? ?]]]]]; [done| | | | |done]; simpl; rewrite ?E;
    repeat (destruct (_ =? 0); simpl); done.
Qed.

Lemma HasBits_empty_present b :
  words32 b -> HasBits_empty b = true <-> forall i, present b i = false.
Proof.
  intros Hb. rewrite HasBits_empty_zero, bool_decide_eq_true. split.
  - intros Hz i. unfold present. destruct (b !! _) as [x|] eqn:E; [|done].
    rewrite (Forall_lookup_1 _ _ _ _ Hz E). apply Z.bits_0.
  - intros Hp. apply Forall_lookup. intros i x Hx. apply Z.bits_inj'. intros k Hk. rewrite Z.bits_0.
    destruct (decide (k < 32)) as [Hlt|Hge].
    + specialize (Hp (32 * i + Z.to_nat k)%nat). unfold present in Hp.
      replace ((32 * i + Z.to_nat k) / 32)%nat with i in Hp by (rewrite Nat.mul_comm, Nat.div_add_l, Nat.div_small; lia).
      replace ((32 * i + Z.to_nat k) mod 32)%nat with (Z.to_nat k) in Hp
        by (rewrite Nat.add_comm, Nat.mul_comm, Nat.Div0.mod_add, Nat.mod_small; lia).
      by rewrite Hx, Z2Nat.id in Hp.
    + pose proof (Forall_lookup_1 _ _ _ _ Hb Hx) as Hr. apply (inU_testbit 32); [done|lia].
Qed.

Lemma memcmp_zero_eq x y : memcmp_zero x y = bool_decide (x = y).
Proof.
  revert y. induction x as [|c x IH]; intros [|d y]; simpl; try done.
  rewrite IH. destruct (Z.eqb_spec c d) as [->|Hne]; simpl.
  - apply bool_decide_ext. naive_solver.
  - symmetry. apply bool_decide_false. congruence.
Qed.

Lemma word_bytes_inj b rhs : words32 b -> words32 rhs -> word_bytes b = word_bytes rhs -> b = rhs.
Proof.
  intros Hb. revert rhs. induction Hb as [|x b Hx _ IH]; intros rhs Hr E; destruct Hr as [|y rhs Hy Hr]; try done.
  change (le_bytes 4 x ++ word_bytes b = le_bytes 4 y ++ word_bytes rhs) in E. apply app_inj_1 in E as [Exy E]; [|done].
  apply (f_equal le_value) in Exy. rewrite !le_roundtrip in Exy by (unfold inU in *; done). f_equal; [done|]. by apply IH.
Qed.

(** [operator==]: the same fields are present. *)
Lemma HasBits_eq_spec b rhs : words32 b -> words32 rhs -> HasBits_eq b rhs = bool_decide (b = rhs).
Proof.
  intros Hb Hr. unfold HasBits_eq. rewrite memcmp_zero_eq. apply bool_decide_ext. split; [by apply word_bytes_inj|by intros ->].
Qed.
