(* ===== verification/OutStream.v ===== *)
(** * The buffered output stream ([google/protobuf/io/coded_stream.h])

    [EpsCopyOutputStream], which always leaves room for sixteen more bytes
    behind the end of its buffer, [CodedOutputStream] on top of it, and the
    functions of [WireFormatLite] that write to it.  The position is a
    [cursor]; what [coded_stream.cc] defines is a parameter, and the contract
    of those functions is the class [OutFallbackLaws]. *)

From S2P Require Import Prelude CxxStd Bytes Bits Varint WireFormat.
Local Open Scope Z_scope.
Local Open Scope list_scope.

Definition out_kSlopBytes : Z := 16.

(** The members of [EpsCopyOutputStream]; [o_buffer] is the address of the
    member [buffer_], [None] is the null pointer. *)
Record OutStream (St : Type) := mkOut {
  o_end : Z;
  o_buffer_end : option Z;
  o_stream : option St;
  o_had_error : bool;
  o_aliasing_enabled : bool;
  o_deterministic : bool;
  o_buffer : Z;
}.
Arguments mkOut {St} _ _ _ _ _ _ _.
Arguments o_end {St} _.
Arguments o_buffer_end {St} _.
Arguments o_stream {St} _.
Arguments o_had_error {St} _.
Arguments o_aliasing_enabled {St} _.
Arguments o_deterministic {St} _.
Arguments o_buffer {St} _.

(** The functions of [coded_stream.cc] and of the stream below. *)
Class OutFallbacks (St : Type) := {
  EnsureSpaceFallback : cursor -> OutStream St -> cursor * OutStream St;
  WriteRawFallback : bytes -> cursor -> OutStream St -> cursor * OutStream St;
  WriteAliasedRaw : bytes -> cursor -> OutStream St -> cursor * OutStream St;
  WriteStringMaybeAliasedOutline : Z -> bytes -> cursor -> OutStream St -> cursor * OutStream St;
  WriteStringOutline : Z -> bytes -> cursor -> OutStream St -> cursor * OutStream St;
  WriteCordOutline : bytes -> cursor -> OutStream St -> cursor * OutStream St;
  FlushAndResetBuffer : cursor -> OutStream St -> cursor * OutStream St;
  out_Trim : cursor -> OutStream St -> cursor * OutStream St;
  out_ByteCount : cursor -> OutStream St -> Z;
  out_Skip : Z -> cursor -> OutStream St -> bool * cursor * OutStream St;
  out_WriteCord : bytes -> cursor -> OutStream St -> cursor * OutStream St;
  out_GetDirectBufferPointer : cursor -> OutStream St -> bool * (Z * Z) * cursor * OutStream St;
  out_GetDirectBufferForNBytesAndAdvance : Z -> cursor -> OutStream St -> option Z * cursor * OutStream St;
  out_EnableAliasing : bool -> OutStream St -> OutStream St;
  zcos_ByteCount : St -> Z;
  zcos_Next : St -> bool * Z * Z * St;
}.

Section out.
Context {St : Type} `{OutFallbacks St}.
Implicit Types (o : OutStream St) (c : cursor).

Definition o_set_end (e : Z) (be : option Z) o : OutStream St :=
  mkOut e be (o_stream o) (o_had_error o) (o_aliasing_enabled o) (o_deterministic o) (o_buffer o).

(** The constructors: from a stream, for an array, and from a stream whose
    first buffer is known.  The first and the third set [*pp]. *)
Definition OutStream_new (stream : St) (deterministic : bool) (buffer : Z) : Z * OutStream St :=
  (buffer, mkOut buffer (Some buffer) (Some stream) false false deterministic buffer).
Definition OutStream_array (data size : Z) (deterministic : bool) (buffer : Z) : OutStream St :=
  mkOut (data + size) None None false false deterministic buffer.

Definition SetInitialBuffer (data size : Z) o : Z * OutStream St :=
  if out_kSlopBytes <? size then (data, o_set_end (data + size - out_kSlopBytes) None o)
  else (o_buffer o, o_set_end (o_buffer o + size) (Some data) o).

Definition OutStream_eager (data size : Z) (stream : St) (deterministic : bool) (buffer : Z)
    : Z * OutStream St :=
  SetInitialBuffer data size (mkOut 0 (Some buffer) (Some stream) false false deterministic buffer).

Definition EnsureSpace c o : cursor * OutStream St :=
  if o_end o <=? ptr c then EnsureSpaceFallback c o else (c, o).

(** [size] is the length of [data]. *)
Definition WriteRaw (data : bytes) c o : cursor * OutStream St :=
  if o_end o - ptr c <? Z.of_nat (length data) then WriteRawFallback data c o
  else (memcpy_advance data c, o).

Definition WriteRawMaybeAliased (data : bytes) c o : cursor * OutStream St :=
  if o_aliasing_enabled o then WriteAliasedRaw data c o else WriteRaw data c o.

(** A tag byte sequence, one byte of length, and the text. *)
Definition write_short (num : Z) (s : bytes) c : cursor :=
  let c := UnsafeVarint (Z.lor (u32 (Z.shiftl num 3)) 2) c in
  let c := poke (u8 (Z.of_nat (length s))) c in
  memcpy_advance s c.

Definition too_long (num : Z) (s : bytes) c o : bool :=
  let size := Z.of_nat (length s) in
  (128 <=? size) || (o_end o - ptr c + 16 - stream_TagSize (u32 (Z.shiftl num 3)) - 1 <? size).

Definition WriteStringMaybeAliased (num : Z) (s : bytes) c o : cursor * OutStream St :=
  if too_long num s c o then WriteStringMaybeAliasedOutline num s c o else (write_short num s c, o).
Definition WriteBytesMaybeAliased (num : Z) (s : bytes) c o : cursor * OutStream St :=
  WriteStringMaybeAliased num s c o.
Definition out_WriteString (num : Z) (s : bytes) c o : cursor * OutStream St :=
  if too_long num s c o then WriteStringOutline num s c o else (write_short num s c, o).
Definition WriteBytes (num : Z) (s : bytes) c o : cursor * OutStream St := out_WriteString num s c o.

Definition out_WriteTag (num wt : Z) c : cursor := UnsafeVarint (Z.lor (u32 (Z.shiftl num 3)) wt) c.
Definition WriteLengthDelim (num size : Z) c : cursor := UnsafeWriteSize size (out_WriteTag num 2 c).

(** A cord is its bytes. *)
Definition WriteString_cord (num : Z) (s : bytes) c o : cursor * OutStream St :=
  let '(c, o) := EnsureSpace c o in
  WriteCordOutline s (out_WriteTag num 2 c) o.

(** The [do] loop of [WriteVarintPacked], from the element that follows. *)
Fixpoint packed_loop {T} (encode : T -> Z) (r : list T) c o : cursor * OutStream St :=
  match r with
  | [] => (c, o)
  | v :: r =>
      let '(c, o) := EnsureSpace c o in
      packed_loop encode r (UnsafeVarint (encode v) c) o
  end.

(** With no elements the loop reads behind the array. *)
Definition WriteVarintPacked {T} (num : Z) (r : list T) (size : Z) (encode : T -> Z) c o
    : outcome (cursor * OutStream St) :=
  let '(c, o) := EnsureSpace c o in
  let c := WriteLengthDelim (u32 num) (u32 size) c in
  match r with [] => UB | _ => Ret (packed_loop encode r c o) end.

Definition Encode32 (v : Z) : Z := v.
Definition Encode64 (v : Z) : Z := v.
Definition out_ZigZagEncode32 (v : Z) : Z := Z.lxor (u32 (Z.shiftl (u32 v) 1)) (u32 (Z.shiftr v 31)).
Definition out_ZigZagEncode64 (v : Z) : Z := Z.lxor (u64 (Z.shiftl (u64 v) 1)) (u64 (Z.shiftr v 63)).

(** The elements are converted to the parameter type of the encoder. *)
Definition WriteInt32Packed (num : Z) (r : list Z) (size : Z) c o :=
  WriteVarintPacked num r size (fun v => Encode64 (u64 v)) c o.
Definition WriteUInt32Packed (num : Z) (r : list Z) (size : Z) c o :=
  WriteVarintPacked num r size Encode32 c o.
Definition WriteSInt32Packed (num : Z) (r : list Z) (size : Z) c o :=
  WriteVarintPacked num r size out_ZigZagEncode32 c o.
Definition WriteInt64Packed (num : Z) (r : list Z) (size : Z) c o :=
  WriteVarintPacked num r size (fun v => Encode64 (u64 v)) c o.
Definition WriteUInt64Packed (num : Z) (r : list Z) (size : Z) c o :=
  WriteVarintPacked num r size Encode64 c o.
Definition WriteSInt64Packed (num : Z) (r : list Z) (size : Z) c o :=
  WriteVarintPacked num r size out_ZigZagEncode64 c o.
Definition WriteEnumPacked (num : Z) (r : list Z) (size : Z) c o :=
  WriteVarintPacked num r size (fun v => Encode64 (u64 v)) c o.

(** On a little-endian host all three instances of [WriteRawLittleEndian] copy
    the array. *)
Definition WriteRawLittleEndian (data : bytes) c o : cursor * OutStream St := WriteRaw data c o.

(** [element_size] bytes per element; the byte count is an [int]. *)
Definition WriteFixedPacked (num : Z) (element_size : nat) (r : list Z) c o
    : outcome (cursor * OutStream St) :=
  let '(c, o) := EnsureSpace c o in
  let data := concat (le_bytes element_size <$> r) in
  let size := Z.of_nat (length data) in
  let c := WriteLengthDelim (u32 num) (u32 size) c in
  if size <? 2 ^ 31 then Ret (WriteRawLittleEndian data c o) else UB.

Definition HadError o : bool := o_had_error o.
Definition SetSerializationDeterministic (value : bool) o : OutStream St :=
  mkOut (o_end o) (o_buffer_end o) (o_stream o) (o_had_error o) (o_aliasing_enabled o) value (o_buffer o).
Definition IsSerializationDeterministic o : bool := o_deterministic o.
Definition GetSize (p : Z) o : Z := o_end o + out_kSlopBytes - p.

(** The buffer inside the object takes what is written after an error. *)
Definition out_Error o : Z * OutStream St :=
  (o_buffer o,
   mkOut (o_buffer o + out_kSlopBytes) (o_buffer_end o) (o_stream o) true (o_aliasing_enabled o)
     (o_deterministic o) (o_buffer o)).
End out.

(** ** [CodedOutputStream] *)

(** [cur_] with the memory it points into, [impl_] and [start_count_]. *)
Record Coded (St : Type) := mkCoded { k_cur : cursor; k_impl : OutStream St; k_start : Z }.
Arguments mkCoded {St} _ _ _.
Arguments k_cur {St} _.
Arguments k_impl {St} _.
Arguments k_start {St} _.

Section coded.
Context {St : Type} `{OutFallbacks St}.
Implicit Types (k : Coded St).

(** Run a method of [impl_] on [cur_]. *)
Definition on_impl (f : cursor -> OutStream St -> cursor * OutStream St) k : Coded St :=
  let '(c, o) := f (k_cur k) (k_impl k) in mkCoded c o (k_start k).
Definition Cur k : cursor := k_cur k.
Definition SetCur (c : cursor) k : Coded St := mkCoded c (k_impl k) (k_start k).

Definition InitEagerly k : Coded St :=
  match o_stream (k_impl k) with
  | None => k
  | Some stream =>
      let '(res, data, size, stream) := zcos_Next stream in
      let o := mkOut (o_end (k_impl k)) (o_buffer_end (k_impl k)) (Some stream) (o_had_error (k_impl k))
                 (o_aliasing_enabled (k_impl k)) (o_deterministic (k_impl k)) (o_buffer (k_impl k)) in
      if res && (0 <? size) then
        let '(p, o) := SetInitialBuffer data size o in mkCoded (mkCursor p (mem (k_cur k))) o (k_start k)
      else mkCoded (k_cur k) o (k_start k)
  end.

(** The two constructors; [deterministic] is the process-wide default. *)
Definition CodedOutputStream_new (stream : St) (deterministic eager_init : bool) (buffer : Z) (m : memory) : Coded St :=
  let '(p, o) := OutStream_new stream deterministic buffer in
  let k := mkCoded (mkCursor p m) o (zcos_ByteCount stream) in
  if eager_init then InitEagerly k else k.

Definition co_HadError k : bool * Coded St :=
  let k := on_impl FlushAndResetBuffer k in (HadError (k_impl k), k).
Definition co_Trim k : Coded St := on_impl out_Trim k.
Definition co_Skip (count : Z) k : bool * Coded St :=
  let '(res, c, o) := out_Skip count (k_cur k) (k_impl k) in (res, mkCoded c o (k_start k)).
(** The result with [*data] and [*size]. *)
Definition co_GetDirectBufferPointer k : bool * (Z * Z) * Coded St :=
  let '(res, buf, c, o) := out_GetDirectBufferPointer (k_cur k) (k_impl k) in (res, buf, mkCoded c o (k_start k)).
Definition co_GetDirectBufferForNBytesAndAdvance (size : Z) k : option Z * Coded St :=
  let '(res, c, o) := out_GetDirectBufferForNBytesAndAdvance size (k_cur k) (k_impl k) in
  (res, mkCoded c o (k_start k)).
Definition co_WriteCord (cord : bytes) k : Coded St := on_impl (out_WriteCord cord) k.
Definition co_WriteRaw (data : bytes) k : Coded St := on_impl (WriteRaw data) k.
Definition co_WriteRawMaybeAliased (data : bytes) k : Coded St := on_impl (WriteRawMaybeAliased data) k.
(** The size is cast to [int]. *)
Definition co_WriteString (str : bytes) k : outcome (Coded St) :=
  if Z.of_nat (length str) <? 2 ^ 31 then Ret (co_WriteRaw str k) else UB.
Definition WriteLittleEndian32 (value : Z) k : Coded St :=
  let k := on_impl EnsureSpace k in SetCur (WriteLittleEndian32ToArray value (Cur k)) k.
Definition WriteLittleEndian64 (value : Z) k : Coded St :=
  let k := on_impl EnsureSpace k in SetCur (WriteLittleEndian64ToArray value (Cur k)) k.
Definition WriteVarint32 (value : Z) k : Coded St :=
  let k := on_impl EnsureSpace k in SetCur (WriteVarint32ToArray value (Cur k)) k.
Definition WriteVarint64 (value : Z) k : Coded St :=
  let k := on_impl EnsureSpace k in SetCur (WriteVarint64ToArray value (Cur k)) k.
Definition WriteVarint32SignExtended (value : Z) k : Coded St := WriteVarint64 (u64 value) k.
Definition co_WriteTag (value : Z) k : Coded St := WriteVarint32 value k.
Definition co_ByteCount k : Z := i32 (out_ByteCount (k_cur k) (k_impl k) - k_start k).
Definition co_EnableAliasing (enabled : bool) k : Coded St :=
  mkCoded (k_cur k) (out_EnableAliasing enabled (k_impl k)) (k_start k).
Definition co_SetSerializationDeterministic (value : bool) k : Coded St :=
  mkCoded (k_cur k) (SetSerializationDeterministic value (k_impl k)) (k_start k).
Definition co_IsSerializationDeterministic k : bool := IsSerializationDeterministic (k_impl k).

(** ** [WireFormatLite], to a stream *)

Definition WriteTag (field_number : Z) (type : WireType) (output : Coded St) : Coded St :=
  co_WriteTag (MakeTag field_number type) output.
Definition WriteInt32NoTag (value : Z) (output : Coded St) : Coded St := WriteVarint32SignExtended value output.
Definition WriteInt64NoTag (value : Z) (output : Coded St) : Coded St := WriteVarint64 (u64 value) output.
Definition WriteUInt32NoTag (value : Z) (output : Coded St) : Coded St := WriteVarint32 value output.
Definition WriteUInt64NoTag (value : Z) (output : Coded St) : Coded St := WriteVarint64 value output.
Definition WriteSInt32NoTag (value : Z) (output : Coded St) : Coded St := WriteVarint32 (ZigZagEncode32 value) output.
Definition WriteSInt64NoTag (value : Z) (output : Coded St) : Coded St := WriteVarint64 (ZigZagEncode64 value) output.
Definition WriteFixed32NoTag (value : Z) (output : Coded St) : Coded St := WriteLittleEndian32 value output.
Definition WriteFixed64NoTag (value : Z) (output : Coded St) : Coded St := WriteLittleEndian64 value output.
Definition WriteSFixed32NoTag (value : Z) (output : Coded St) : Coded St := WriteLittleEndian32 (u32 value) output.
Definition WriteSFixed64NoTag (value : Z) (output : Coded St) : Coded St := WriteLittleEndian64 (u64 value) output.
Definition WriteFloatNoTag (value : Z) (output : Coded St) : Coded St := WriteLittleEndian32 (EncodeFloat value) output.
Definition WriteDoubleNoTag (value : Z) (output : Coded St) : Coded St := WriteLittleEndian64 (EncodeDouble value) output.
Definition WriteBoolNoTag (value : bool) (output : Coded St) : Coded St :=
  WriteVarint32 (if value then 1 else 0) output.
Definition WriteEnumNoTag (value : Z) (output : Coded St) : Coded St := WriteVarint32SignExtended value output.

(** A message is given by its cached size and its serialiser. *)
Context {M : Type} (GetCachedSize : M -> Z) (SerializeWithCachedSizes : M -> Coded St -> Coded St).

Definition WriteGroupNoVirtual (field_number : Z) (value : M) (output : Coded St) : Coded St :=
  let output := WriteTag field_number WIRETYPE_START_GROUP output in
  let output := SerializeWithCachedSizes value output in
  WriteTag field_number WIRETYPE_END_GROUP output.
Definition WriteMessageNoVirtual (field_number : Z) (value : M) (output : Coded St) : Coded St :=
  let output := WriteTag field_number WIRETYPE_LENGTH_DELIMITED output in
  let output := WriteVarint32 (u32 (GetCachedSize value)) output in
  SerializeWithCachedSizes value output.
End coded.

(** ** What the fallbacks promise *)

(** [written] is everything written up to the position, whether it lies in the
    stream or still in the buffer; [sent] what the stream below holds; [out_usable] that the position lies in the
    buffer or in the sixteen bytes behind it.  "The underlying stream can
    produce an error.  Use HadError to check for errors." *)
Class OutFallbackLaws (St : Type) `{OutFallbacks St} := {
  written : cursor -> OutStream St -> bytes;
  sent : St -> bytes;
  out_usable : cursor -> OutStream St -> Prop;
  (** [r] follows [c] and [o] by [l], unless an error has occurred. *)
  appends (l : bytes) (c : cursor) (o : OutStream St) (r : cursor * OutStream St) : Prop :=
    out_usable r.1 r.2 /\ (o_had_error o = true -> o_had_error r.2 = true) /\
    (o_had_error r.2 = false -> written r.1 r.2 = written c o ++ l);
  new_law stream det buffer m :
    let '(p, o) := OutStream_new stream det buffer in
    out_usable (mkCursor p m) o /\ written (mkCursor p m) o = sent stream;
  next_law stream stream' det buffer m res data size :
    zcos_Next stream = (res, data, size, stream') ->
    let o := mkOut buffer (Some buffer) (Some stream') false false det buffer in
    let '(p, o) := if res && (0 <? size) then SetInitialBuffer data size o else (buffer, o) in
    out_usable (mkCursor p m) o /\ written (mkCursor p m) o = sent stream;
  poke_law c o l :
    out_usable c o -> ptr c + Z.of_nat (length l) <= o_end o + out_kSlopBytes ->
    out_usable (pokes l c) o /\ written (pokes l c) o = written c o ++ l;
  ensure_law c o :
    out_usable c o -> o_end o <= ptr c ->
    appends [] c o (EnsureSpaceFallback c o) /\
    ptr (EnsureSpaceFallback c o).1 < o_end (EnsureSpaceFallback c o).2;
  raw_law data c o : out_usable c o -> appends data c o (WriteRawFallback data c o);
  aliased_law data c o : out_usable c o -> appends data c o (WriteAliasedRaw data c o);
  outline_law num s c o :
    out_usable c o -> valid_field num -> Z.of_nat (length s) < 2 ^ 31 ->
    appends (varint (MakeTag num WIRETYPE_LENGTH_DELIMITED) ++ varint (Z.of_nat (length s)) ++ s) c o
      (WriteStringOutline num s c o);
  aliased_outline_law num s c o :
    out_usable c o -> valid_field num -> Z.of_nat (length s) < 2 ^ 31 ->
    appends (varint (MakeTag num WIRETYPE_LENGTH_DELIMITED) ++ varint (Z.of_nat (length s)) ++ s) c o
      (WriteStringMaybeAliasedOutline num s c o);
}.

Section out_facts.
Context {St : Type} `{OutFallbackLaws St}.
Implicit Types (o : OutStream St) (c : cursor) (k : Coded St).

Lemma appends_refl c o : out_usable c o -> appends [] c o (c, o).
Proof. intros Hu. unfold appends. simpl. by rewrite app_nil_r. Qed.

Lemma appends_trans l1 l2 c o r1 r2 : appends l1 c o r1 -> appends l2 r1.1 r1.2 r2 -> appends (l1 ++ l2) c o r2.
Proof.
  intros (U1 & E1 & W1) (U2 & E2 & W2). split; [done|]. split; [auto|]. intros He. rewrite W2 by done.
  rewrite W1, app_assoc; [done|]. destruct (o_had_error r1.2) eqn:Er; [|done]. by rewrite E2 in He.
Qed.

(** Bytes that fit are stored. *)
Lemma appends_pokes l c o :
  out_usable c o -> ptr c + Z.of_nat (length l) <= o_end o + out_kSlopBytes -> appends l c o (pokes l c, o).
Proof. intros Hu Hr. destruct (poke_law c o l Hu Hr). by split. Qed.

Lemma EnsureSpace_spec c o :
  out_usable c o -> appends [] c o (EnsureSpace c o) /\ ptr (EnsureSpace c o).1 < o_end (EnsureSpace c o).2.
Proof.
  intros Hu. unfold EnsureSpace. destruct (Z.leb_spec (o_end o) (ptr c)); [by apply ensure_law|].
  split; [by apply appends_refl|done].
Qed.

(** After [EnsureSpace] sixteen bytes can be stored without a test. *)
Lemma ensured_write l c o :
  out_usable c o -> (length l <= 16)%nat ->
  appends l c o (let '(c, o) := EnsureSpace c o in (pokes l c, o)).
Proof.
  intros Hu Hl. destruct (EnsureSpace_spec c o Hu) as [Ha Hlt]. destruct (EnsureSpace c o) as [c1 o1]. simpl in Hlt.
  apply (appends_trans [] l _ _ _ _ Ha). apply appends_pokes; [apply Ha|]. unfold out_kSlopBytes. simpl. lia.
Qed.

Lemma WriteRaw_spec data c o : out_usable c o -> appends data c o (WriteRaw data c o).
Proof.
  intros Hu. unfold WriteRaw. destruct (Z.ltb_spec (o_end o - ptr c) (Z.of_nat (length data))); [by apply raw_law|].
  apply appends_pokes; [done|]. unfold out_kSlopBytes. lia.
Qed.

Lemma WriteRawMaybeAliased_spec data c o : out_usable c o -> appends data c o (WriteRawMaybeAliased data c o).
Proof.
  intros Hu. unfold WriteRawMaybeAliased. destruct (o_aliasing_enabled o); [by apply aliased_law|by apply WriteRaw_spec].
Qed.

(** *** Tags, lengths and short strings *)

Lemma tag_number n t : valid_field n -> Z.lor (u32 (Z.shiftl n 3)) (WireType_value t) = MakeTag n t.
Proof.
  intros Hn. pose proof (WireType_range t). unfold valid_field in Hn. rewrite MakeTag_spec by lia.
  rewrite Z.shiftl_mul_pow2 by lia. rewrite wrapU_id by (unfold inU; lia).
  rewrite lor_low_bits by lia. lia.
Qed.

Lemma write_tag_pokes n t c :
  valid_field n -> out_WriteTag n (WireType_value t) c = pokes (varint (MakeTag n t)) c.
Proof.
  intros Hn. unfold out_WriteTag. rewrite tag_number by done.
  apply UnsafeVarint_spec, inU_32_64. by apply MakeTag_range.
Qed.

Lemma tag_length n t : valid_field n -> (length (varint (MakeTag n t)) <= 5)%nat.
Proof.
  intros Hn. destruct (MakeTag_range n t Hn) as [_ Hr]. pose proof (varint_size_32 _ Hr) as Hs.
  unfold varint_size in Hs. lia.
Qed.

Lemma varint_32_length v : inU 32 v -> (length (varint v) <= 5)%nat.
Proof. intros Hv. pose proof (varint_size_32 _ Hv) as Hs. unfold varint_size in Hs. lia. Qed.

Lemma varint_64_length v : inU 64 v -> (length (varint v) <= 10)%nat.
Proof. intros Hv. pose proof (varint_size_bounds _ Hv) as Hs. unfold varint_size in Hs. lia. Qed.

(** A length-delimited field. *)
Definition delimited (num : Z) (s : bytes) : bytes :=
  varint (MakeTag num WIRETYPE_LENGTH_DELIMITED) ++ varint (Z.of_nat (length s)) ++ s.

Lemma write_short_spec num s c o :
  out_usable c o -> valid_field num -> too_long num s c o = false ->
  appends (delimited num s) c o (write_short num s c, o).
Proof.
  intros Hu Hn Hl. unfold too_long in Hl. apply orb_false_iff in Hl as [H1%Z.leb_gt H2%Z.ltb_ge].
  pose proof (MakeTag_range num WIRETYPE_LENGTH_DELIMITED Hn) as [_ Hr].
  assert (Et : stream_TagSize (u32 (Z.shiftl num 3)) = varint_size (MakeTag num WIRETYPE_LENGTH_DELIMITED)).
  { rewrite <- (tag_bytes num WIRETYPE_LENGTH_DELIMITED Hn). unfold kTagTypeBits.
    rewrite stream_TagSize_spec by (apply wrapU_range; lia). symmetry. apply VarintSize32_spec, wrapU_range. lia. }
  assert (Ev : varint (Z.of_nat (length s)) = [Z.of_nat (length s)]).
  { unfold varint. cbn [varint_bytes]. by destruct (Z.ltb_spec (Z.of_nat (length s)) 128); [|lia]. }
  replace (write_short num s c) with (pokes (delimited num s) c).
  - apply appends_pokes; [done|]. unfold delimited. rewrite Ev, !length_app. cbn [length].
    unfold varint_size in Et. unfold out_kSlopBytes. lia.
  - unfold write_short, delimited. rewrite Ev. fold (out_WriteTag num 2 c).
    change 2 with (WireType_value WIRETYPE_LENGTH_DELIMITED).
    rewrite write_tag_pokes by done. rewrite !pokes_app. unfold memcpy_advance. f_equal.
    unfold pokes at 1. simpl. f_equal. symmetry. apply Z.mod_small. lia.
Qed.

Lemma out_WriteString_spec num s c o :
  out_usable c o -> valid_field num -> Z.of_nat (length s) < 2 ^ 31 ->
  appends (delimited num s) c o (out_WriteString num s c o) /\
  appends (delimited num s) c o (WriteStringMaybeAliased num s c o).
Proof.
  intros Hu Hn Hs. unfold out_WriteString, WriteStringMaybeAliased. destruct (too_long num s c o) eqn:El.
  - split; [by apply outline_law|by apply aliased_outline_law].
  - split; by apply write_short_spec.
Qed.

(** *** Packed fields *)

(** Tag and length, after [EnsureSpace]. *)
Lemma delim_spec num size c o :
  out_usable c o -> valid_field num -> inU 32 size ->
  appends (varint (MakeTag num WIRETYPE_LENGTH_DELIMITED) ++ varint size) c o
    (let '(c, o) := EnsureSpace c o in (WriteLengthDelim (u32 num) (u32 size) c, o)).
Proof.
  intros Hu Hn Hs.
  pose proof (ensured_write (varint (MakeTag num WIRETYPE_LENGTH_DELIMITED) ++ varint size) c o Hu) as Ha.
  rewrite length_app in Ha. pose proof (tag_length num WIRETYPE_LENGTH_DELIMITED Hn).
  pose proof (varint_32_length size Hs). specialize (Ha ltac:(lia)). destruct (EnsureSpace c o) as [c1 o1].
  unfold WriteLengthDelim. rewrite !wrapU_id by (done || (unfold valid_field in Hn; unfold inU; lia)).
  change 2 with (WireType_value WIRETYPE_LENGTH_DELIMITED). rewrite write_tag_pokes by done.
  change (UnsafeWriteSize size) with (UnsafeVarint size). rewrite UnsafeVarint_spec by (by apply inU_32_64).
  by rewrite <- pokes_app.
Qed.

Lemma packed_loop_spec {T} (encode : T -> Z) r c o :
  Forall (fun v => inU 64 (encode v)) r -> out_usable c o ->
  appends (concat ((fun v => varint (encode v)) <$> r)) c o (packed_loop encode r c o).
Proof.
  intros Hr. revert c o. induction Hr as [|v r Hv Hr IH]; intros c o Hu; csimpl; [by apply appends_refl|].
  pose proof (ensured_write (varint (encode v)) c o Hu) as Ha.
  pose proof (varint_64_length (encode v) Hv). specialize (Ha ltac:(lia)).
  destruct (EnsureSpace c o) as [c1 o1]. rewrite UnsafeVarint_spec by done.
  apply (appends_trans _ _ _ _ _ _ Ha). apply IH. apply Ha.
Qed.

Lemma WriteVarintPacked_spec {T} num (encode : T -> Z) r size c o :
  Forall (fun v => inU 64 (encode v)) r -> out_usable c o -> valid_field num -> r <> [] ->
  size = Z.of_nat (length (concat ((fun v => varint (encode v)) <$> r))) -> size < 2 ^ 31 ->
  exists r', WriteVarintPacked num r size encode c o = Ret r' /\
    appends (delimited num (concat ((fun v => varint (encode v)) <$> r))) c o r'.
Proof.
  intros Hr Hu Hn Hne Es Hs. pose proof (delim_spec num size c o Hu Hn ltac:(unfold inU; lia)) as Hd.
  unfold WriteVarintPacked. destruct (EnsureSpace c o) as [c1 o1]. destruct r as [|v r]; [done|].
  eexists. split; [reflexivity|]. unfold delimited. rewrite <- Es, app_assoc.
  apply (appends_trans _ _ _ _ _ _ Hd). apply packed_loop_spec; [done|apply Hd].
Qed.

Lemma WriteFixedPacked_spec num (size : nat) (r : list Z) data c o :
  concat (le_bytes size <$> r) = data ->
  out_usable c o -> valid_field num -> Z.of_nat (length data) < 2 ^ 31 ->
  exists r', WriteFixedPacked num size r c o = Ret r' /\ appends (delimited num data) c o r'.
Proof.
  intros Ed Hu Hn Hs. pose proof (delim_spec num (Z.of_nat (length data)) c o Hu Hn ltac:(unfold inU; lia)) as Hd.
  unfold WriteFixedPacked. rewrite Ed. destruct (EnsureSpace c o) as [c1 o1].
  destruct (Z.ltb_spec (Z.of_nat (length data)) (2 ^ 31)); [|lia].
  eexists. split; [reflexivity|]. unfold delimited. rewrite app_assoc.
  apply (appends_trans _ _ _ _ _ _ Hd). apply WriteRaw_spec, Hd.
Qed.
End out_facts.

(** ** Sequences of writes *)

(** The bytes of an array of a scalar type, as the packed form holds them. *)
Definition packed_bytes (s : scalar) (l : list Z) : bytes := concat (sc_bytes s <$> l).

Section writes.
Context {St : Type} `{OutFallbackLaws St}.
Context {M : Type} (GetCachedSize : M -> Z) (SerializeWithCachedSizes : M -> Coded St -> Coded St).
Implicit Types (o : OutStream St) (c : cursor) (k : Coded St).

(** The writers of [CodedOutputStream] by type. *)
Definition write_stream (s : scalar) (v : Z) k : Coded St :=
  match s with
  | S_Int32 => WriteInt32NoTag v k
  | S_Int64 => WriteInt64NoTag v k
  | S_UInt32 => WriteUInt32NoTag v k
  | S_UInt64 => WriteUInt64NoTag v k
  | S_SInt32 => WriteSInt32NoTag v k
  | S_SInt64 => WriteSInt64NoTag v k
  | S_Fixed32 => WriteFixed32NoTag v k
  | S_Fixed64 => WriteFixed64NoTag v k
  | S_SFixed32 => WriteSFixed32NoTag v k
  | S_SFixed64 => WriteSFixed64NoTag v k
  | S_Float => WriteFloatNoTag v k
  | S_Double => WriteDoubleNoTag v k
  | S_Bool => WriteBoolNoTag (negb (v =? 0)) k
  | S_Enum => WriteEnumNoTag v k
  end.

(** The packed writers by type; the varint ones are given the size. *)
Definition write_packed (s : scalar) (num : Z) (l : list Z) c o : outcome (cursor * OutStream St) :=
  let size := Z.of_nat (length (packed_bytes s l)) in
  match s with
  | S_Int32 => WriteInt32Packed num l size c o
  | S_Int64 => WriteInt64Packed num l size c o
  | S_UInt32 => WriteUInt32Packed num l size c o
  | S_UInt64 => WriteUInt64Packed num l size c o
  | S_SInt32 => WriteSInt32Packed num l size c o
  | S_SInt64 => WriteSInt64Packed num l size c o
  | S_Fixed32 | S_SFixed32 | S_Float => WriteFixedPacked num 4 l c o
  | S_Fixed64 | S_SFixed64 | S_Double => WriteFixedPacked num 8 l c o
  | S_Bool => WriteFixedPacked num 1 l c o
  | S_Enum => WriteEnumPacked num l size c o
  end.

Inductive out_op :=
| W_tag (n : Z) (t : WireType)
| W_scalar (s : scalar) (v : Z)
| W_raw (data : bytes)
| W_aliased (data : bytes)
| W_string (n : Z) (s : bytes)
| W_string_aliased (n : Z) (s : bytes)
| W_packed (s : scalar) (n : Z) (l : list Z)
| W_message (n : Z) (m : M)
| W_group (n : Z) (m : M).

Definition on_impl_out (f : cursor -> OutStream St -> outcome (cursor * OutStream St)) k : outcome (Coded St) :=
  do (c, o) <- f (k_cur k) (k_impl k); Ret (mkCoded c o (k_start k)).

Definition run_op (w : out_op) k : outcome (Coded St) :=
  match w with
  | W_tag n t => Ret (WriteTag n t k)
  | W_scalar s v => Ret (write_stream s v k)
  | W_raw data => co_WriteString data k
  | W_aliased data => Ret (co_WriteRawMaybeAliased data k)
  | W_string n s => Ret (on_impl (out_WriteString n s) k)
  | W_string_aliased n s => Ret (on_impl (WriteStringMaybeAliased n s) k)
  | W_packed s n l => on_impl_out (write_packed s n l) k
  | W_message n m => Ret (WriteMessageNoVirtual GetCachedSize SerializeWithCachedSizes n m k)
  | W_group n m => Ret (WriteGroupNoVirtual SerializeWithCachedSizes n m k)
  end.

Definition run_ops (l : list out_op) k : outcome (Coded St) := ofold run_op l k.

(** [k'] follows [k] by [l]. *)
Definition coded_appends (l : bytes) k k' : Prop :=
  appends l (k_cur k) (k_impl k) (k_cur k', k_impl k').
Definition coded_usable k : Prop := out_usable (k_cur k) (k_impl k).

(** The bytes of a message, its size and its serialiser. *)
Context (body : M -> bytes).

Definition op_bytes (w : out_op) : bytes :=
  match w with
  | W_tag n t => varint (MakeTag n t)
  | W_scalar s v => sc_bytes s v
  | W_raw data | W_aliased data => data
  | W_string n s | W_string_aliased n s => delimited n s
  | W_packed s n l => delimited n (packed_bytes s l)
  | W_message n m => delimited n (body m)
  | W_group n m => varint (MakeTag n WIRETYPE_START_GROUP) ++ body m ++ varint (MakeTag n WIRETYPE_END_GROUP)
  end.

(** Field numbers, values and sizes the format allows; a packed field has an
    element. *)
Definition op_ok (w : out_op) : Prop :=
  match w with
  | W_tag n _ | W_group n _ => valid_field n
  | W_scalar s v => sc_ok s v
  | W_raw data | W_aliased data => Z.of_nat (length data) < 2 ^ 31
  | W_string n s | W_string_aliased n s => valid_field n /\ Z.of_nat (length s) < 2 ^ 31
  | W_packed s n l =>
      valid_field n /\ l <> [] /\ Forall (sc_ok s) l /\ Z.of_nat (length (packed_bytes s l)) < 2 ^ 31
  | W_message n m => valid_field n /\ Z.of_nat (length (body m)) < 2 ^ 31
  end.

Lemma coded_trans l1 l2 k1 k2 k3 : coded_appends l1 k1 k2 -> coded_appends l2 k2 k3 -> coded_appends (l1 ++ l2) k1 k3.
Proof. apply appends_trans. Qed.

Lemma coded_usable_after l k k' : coded_appends l k k' -> coded_usable k'.
Proof. intros Ha. apply Ha. Qed.

Lemma on_impl_spec l f k :
  appends l (k_cur k) (k_impl k) (f (k_cur k) (k_impl k)) -> coded_appends l k (on_impl f k).
Proof. unfold coded_appends, on_impl. by destruct (f _ _) as [c o]. Qed.

Lemma ensured_coded l k (f : cursor -> cursor) :
  (length l <= 16)%nat -> coded_usable k -> (forall c, f c = pokes l c) ->
  coded_appends l k (let k := on_impl EnsureSpace k in SetCur (f (Cur k)) k).
Proof.
  intros Hl Hu Hf. pose proof (ensured_write l (k_cur k) (k_impl k) Hu Hl) as Ha.
  unfold coded_appends, on_impl. destruct (EnsureSpace _ _) as [c1 o1]. simpl. by rewrite Hf.
Qed.

Lemma sc_length s v : sc_ok s v -> (length (sc_bytes s v) <= 10)%nat.
Proof.
  destruct s; simpl; intros Hv; try lia;
    first [apply varint_64_length; first [done|apply wrapU_range; lia]|idtac].
  - pose proof (varint_32_length v Hv). lia.
  - pose proof (varint_32_length (ZigZagEncode32 v) (ZigZagEncode_range 32 v ltac:(lia) Hv)). lia.
  - apply varint_64_length, ZigZagEncode_range; [lia|done].
  - destruct Hv as [-> | ->]; simpl; lia.
Qed.

(** A scalar written to a stream: space for sixteen bytes, then the writer
    for arrays. *)
Lemma write_stream_array s v k :
  write_stream s v k = (let k := on_impl EnsureSpace k in SetCur (write_no_tag s v (Cur k)) k).
Proof. by destruct s. Qed.

Lemma write_stream_spec s v k : sc_ok s v -> coded_usable k -> coded_appends (sc_bytes s v) k (write_stream s v k).
Proof.
  intros Hv Hu. rewrite write_stream_array. apply (ensured_coded _ k (write_no_tag s v)); [|done|].
  - pose proof (sc_length s v Hv). lia.
  - intros c. by apply write_no_tag_spec.
Qed.

Lemma stream_tag n t k : valid_field n -> coded_usable k -> coded_appends (varint (MakeTag n t)) k (WriteTag n t k).
Proof.
  intros Hn Hu. destruct (MakeTag_range n t Hn) as [_ Hr].
  exact (write_stream_spec S_UInt32 (MakeTag n t) k Hr Hu).
Qed.

(** The encoders of the packed writers, by type. *)
Lemma write_packed_spec s n l c o :
  op_ok (W_packed s n l) -> out_usable c o ->
  exists r, write_packed s n l c o = Ret r /\ appends (delimited n (packed_bytes s l)) c o r.
Proof.
  intros (Hn & Hne & Hl & Hs) Hu.
  assert (Hv : forall encode : Z -> Z,
    (forall v, sc_ok s v -> inU 64 (encode v)) -> sc_bytes s = (fun v => varint (encode v)) ->
    exists r, WriteVarintPacked n l (Z.of_nat (length (packed_bytes s l))) encode c o = Ret r /\
      appends (delimited n (packed_bytes s l)) c o r).
  { intros encode Hr He. unfold packed_bytes in *. rewrite He in *.
    apply WriteVarintPacked_spec; try done. by apply (Forall_impl _ _ _ Hl). }
  assert (Hf : forall size : nat, (forall v, sc_ok s v -> sc_bytes s v = le_bytes size v) ->
    exists r, WriteFixedPacked n size l c o = Ret r /\ appends (delimited n (packed_bytes s l)) c o r).
  { intros size He. apply WriteFixedPacked_spec; try done. unfold packed_bytes. f_equal.
    apply list_fmap_ext. intros i v Hi. rewrite Forall_lookup in Hl. by rewrite He by (by eapply Hl). }
  destruct s; simpl in Hv, Hf |- *;
    first [apply Hf; by intros|apply Hv; [|reflexivity]; intros v Hok| apply Hf; by intros v [-> | ->]].
  - apply wrapU_range; lia.
  - apply wrapU_range; lia.
  - by apply inU_32_64.
  - done.
  - by apply inU_32_64, (ZigZagEncode_range 32).
  - by apply (ZigZagEncode_range 64).
  - apply wrapU_range; lia.
Qed.

Context (Hser : forall m k, coded_usable k -> coded_appends (body m) k (SerializeWithCachedSizes m k))
  (Hsize : forall m, GetCachedSize m = Z.of_nat (length (body m))).

Lemma message_spec n m k :
  op_ok (W_message n m) -> coded_usable k ->
  coded_appends (delimited n (body m)) k (WriteMessageNoVirtual GetCachedSize SerializeWithCachedSizes n m k).
Proof.
  intros [Hn Hm] Hu. unfold WriteMessageNoVirtual. rewrite Hsize, wrapU_id by (unfold inU; lia).
  pose proof (stream_tag n WIRETYPE_LENGTH_DELIMITED k Hn Hu) as H1.
  eapply coded_trans; [exact H1|]. apply coded_usable_after in H1.
  pose proof (write_stream_spec S_UInt32 (Z.of_nat (length (body m))) _ ltac:(simpl; unfold inU; lia) H1) as H2.
  eapply coded_trans; [exact H2|]. apply Hser. by apply coded_usable_after in H2.
Qed.

Lemma group_spec n m k :
  valid_field n -> coded_usable k ->
  coded_appends (op_bytes (W_group n m)) k (WriteGroupNoVirtual SerializeWithCachedSizes n m k).
Proof.
  intros Hn Hu. pose proof (stream_tag n WIRETYPE_START_GROUP k Hn Hu) as H1.
  eapply coded_trans; [exact H1|]. apply coded_usable_after in H1. pose proof (Hser m _ H1) as H2.
  eapply coded_trans; [exact H2|]. apply coded_usable_after in H2. by apply stream_tag.
Qed.

Lemma run_op_spec w k :
  op_ok w -> coded_usable k -> exists k', run_op w k = Ret k' /\ coded_appends (op_bytes w) k k'.
Proof.
  intros Hw Hu. destruct w as [n t|s v|data|data|n s|n s|s n l|n m|n m]; simpl.
  - eexists. split; [reflexivity|by apply stream_tag].
  - eexists. split; [reflexivity|by apply write_stream_spec].
  - unfold co_WriteString. destruct (Z.ltb_spec (Z.of_nat (length data)) (2 ^ 31)); [|simpl in Hw; lia].
    eexists. split; [reflexivity|by apply on_impl_spec, WriteRaw_spec].
  - eexists. split; [reflexivity|by apply on_impl_spec, WriteRawMaybeAliased_spec].
  - eexists. split; [reflexivity|]. by apply on_impl_spec, out_WriteString_spec; try apply Hw.
  - eexists. split; [reflexivity|]. by apply on_impl_spec, out_WriteString_spec; try apply Hw.
  - destruct (write_packed_spec s n l _ _ Hw Hu) as ([c o] & Er & Ha).
    unfold on_impl_out. rewrite Er. by eexists.
  - eexists. split; [reflexivity|by apply message_spec].
  - eexists. split; [reflexivity|by apply group_spec].
Qed.

Lemma run_ops_spec ops k :
  Forall op_ok ops -> coded_usable k ->
  exists k', run_ops ops k = Ret k' /\ coded_appends (concat (op_bytes <$> ops)) k k'.
Proof.
  intros Ho. revert k. induction Ho as [|w ops Hw Ho IH]; intros k Hu; csimpl.
  - eexists. split; [reflexivity|]. by apply appends_refl.
  - destruct (run_op_spec w k Hw Hu) as (k1 & E1 & A1).
    destruct (IH k1 (coded_usable_after _ _ _ A1)) as (k2 & E2 & A2).
    exists k2. unfold run_ops in *. simpl. rewrite E1. split; [exact E2|]. by eapply coded_trans.
Qed.

(** A new stream stands behind what the stream below holds, with or without a
    first buffer. *)
Lemma new_stream_spec stream det eager buffer m :
  let k := CodedOutputStream_new stream det eager buffer m in
  coded_usable k /\ written (k_cur k) (k_impl k) = sent stream /\ HadError (k_impl k) = false.
Proof.
  pose proof (new_law stream det buffer m) as Hn. unfold CodedOutputStream_new, InitEagerly, coded_usable.
  unfold OutStream_new in *. destruct eager; [|by split; [|split]; [apply Hn..|]]. simpl.
  destruct (zcos_Next stream) as [[[res data] size] stream'] eqn:En.
  pose proof (next_law _ _ det buffer m _ _ _ En) as Hx. simpl in Hx.
  destruct (res && (0 <? size)); [|by split; [|split]; [apply Hx..|]].
  unfold SetInitialBuffer in *. destruct (out_kSlopBytes <? size); by split; [|split]; [apply Hx..|].
Qed.

(** C37: writing any sequence of tags, scalars, raw bytes, strings, packed
    fields, messages and groups to a stream just opened - eagerly or not,
    wherever the buffer ends - never runs out of space; an error of the stream
    below is remembered, and when there is none the stream holds exactly what
    it held before and the bytes of the wire format, in order. *)
Theorem stream_writes_exact ops stream det eager buffer m :
  Forall op_ok ops ->
  exists k', run_ops ops (CodedOutputStream_new stream det eager buffer m) = Ret k' /\ coded_usable k' /\
    (HadError (k_impl k') = false ->
     written (k_cur k') (k_impl k') = sent stream ++ concat (op_bytes <$> ops)) /\
    (forall ops' k'', Forall op_ok ops' -> run_ops ops' k' = Ret k'' -> HadError (k_impl k') = true ->
     HadError (k_impl k'') = true).
Proof.
  intros Ho. destruct (new_stream_spec stream det eager buffer m) as (Hu & Hw & He).
  destruct (run_ops_spec ops _ Ho Hu) as (k' & Er & Ha). exists k'. split; [done|].
  pose proof (coded_usable_after _ _ _ Ha) as Hu'. split; [done|]. split.
  - intros Hn. rewrite <- Hw. by apply Ha.
  - intros ops' k'' Ho' Er' Ht. destruct (run_ops_spec ops' _ Ho' Hu') as (k2 & E2 & A2).
    rewrite E2 in Er'. injection Er' as <-. by apply A2.
Qed.
End writes.

(** ** A concrete stream *)

(** A stream that keeps the bytes it is given, at most [limit] of them, offers
    a first buffer of eight bytes and is otherwise fed from the buffer inside
    the object. *)
Module Toy_out.
Definition limit : nat := 64.

(** What lies in the buffer before the position. *)
Definition pending (c : cursor) (o : OutStream bytes) : bytes :=
  bytes_at (mem c) (o_buffer o) (Z.to_nat (ptr c - o_buffer o)).
Definition held (o : OutStream bytes) : bytes := default [] (o_stream o).

(** Everything up to the position and [data] go to the stream. *)
Definition put (data : bytes) (c : cursor) (o : OutStream bytes) : cursor * OutStream bytes :=
  let all := held o ++ pending c o ++ data in
  let '(p, o) :=
    if (length all <=? limit)%nat then
      (o_buffer o, mkOut (o_buffer o + out_kSlopBytes) None (Some all) (o_had_error o) (o_aliasing_enabled o)
                     (o_deterministic o) (o_buffer o))
    else out_Error o in
  (mkCursor p (mem c), o).
Definition put_field (num : Z) (s : bytes) := put (delimited num s).

#[global] Instance toy_fallbacks : OutFallbacks bytes := {|
  EnsureSpaceFallback := put [];
  WriteRawFallback := put;
  WriteAliasedRaw := put;
  WriteStringMaybeAliasedOutline := put_field;
  WriteStringOutline := put_field;
  WriteCordOutline s := put (varint (Z.of_nat (length s)) ++ s);
  FlushAndResetBuffer := put [];
  out_Trim := put [];
  out_ByteCount c o := Z.of_nat (length (held o ++ pending c o));
  out_Skip _ c o := (false, c, o);
  out_WriteCord := put;
  out_GetDirectBufferPointer c o := (false, (0, 0), c, o);
  out_GetDirectBufferForNBytesAndAdvance _ c o := (None, c, o);
  out_EnableAliasing enabled o :=
    mkOut (o_end o) (o_buffer_end o) (o_stream o) (o_had_error o) enabled (o_deterministic o) (o_buffer o);
  zcos_ByteCount stream := Z.of_nat (length stream);
  zcos_Next stream := (true, 4096, 8, stream);
|}.

Definition toy_written (c : cursor) (o : OutStream bytes) : bytes := held o ++ pending c o.
Definition toy_usable (c : cursor) (o : OutStream bytes) : Prop := o_buffer o <= ptr c.

Lemma pending_empty p m o : p = o_buffer o -> pending (mkCursor p m) o = [].
Proof. intros ->. unfold pending. simpl. by rewrite Z.sub_diag. Qed.

Lemma pending_pokes l c o : o_buffer o <= ptr c -> pending (pokes l c) o = pending c o ++ l.
Proof.
  intros Hc. unfold pending. rewrite pokes_ptr.
  replace (Z.to_nat (ptr c + Z.of_nat (length l) - o_buffer o))
    with (Z.to_nat (ptr c - o_buffer o) + length l)%nat by lia.
  rewrite bytes_at_app. replace (o_buffer o + Z.of_nat (Z.to_nat (ptr c - o_buffer o))) with (ptr c) by lia.
  rewrite pokes_read. f_equal. apply bytes_at_ext. intros a Ha. apply pokes_frame. lia.
Qed.

Lemma put_spec data c o :
  let r := put data c o in
  toy_usable r.1 r.2 /\ ptr r.1 < o_end r.2 /\ (o_had_error o = true -> o_had_error r.2 = true) /\
  (o_had_error r.2 = false -> toy_written r.1 r.2 = toy_written c o ++ data).
Proof.
  unfold put. destruct (_ <=? limit)%nat; simpl; unfold toy_usable, out_kSlopBytes; simpl.
  - split; [lia|]. split; [lia|]. split; [done|]. intros _. unfold toy_written at 1.
    rewrite pending_empty by done. unfold held. simpl. by rewrite app_nil_r, app_assoc.
  - split; [lia|]. split; [lia|]. by split.
Qed.

#[global] Program Instance toy_laws : OutFallbackLaws bytes := {|
  written := toy_written;
  out_usable := toy_usable;
  sent stream := stream;
|}.
Next Obligation.
  intros stream det buffer m. simpl. unfold toy_usable, toy_written. rewrite pending_empty by done.
  simpl. by rewrite app_nil_r.
Qed.
Next Obligation.
  intros stream stream' det buffer m res data size Hn. injection Hn as <- <- <- <-. simpl.
  unfold toy_usable, toy_written. rewrite pending_empty by done. simpl. by rewrite app_nil_r.
Qed.
Next Obligation.
  intros c o l Hu Hr. unfold toy_usable, toy_written in *. rewrite pokes_ptr, pending_pokes, app_assoc by done.
  split; [lia|done].
Qed.
Next Obligation.
  intros c o Hu _. destruct (put_spec [] c o) as (H1 & H2 & H3 & H4). by split; [|].
Qed.
Next Obligation. intros data c o _. destruct (put_spec data c o) as (H1 & _ & H3 & H4). by split; [|split]. Qed.
Next Obligation. intros data c o _. destruct (put_spec data c o) as (H1 & _ & H3 & H4). by split; [|split]. Qed.
Next Obligation.
  intros num s c o _ _ _. destruct (put_spec (delimited num s) c o) as (H1 & _ & H3 & H4). by split; [|split].
Qed.
Next Obligation.
  intros num s c o _ _ _. destruct (put_spec (delimited num s) c o) as (H1 & _ & H3 & H4). by split; [|split].
Qed.

(** Messages are their bytes. *)
Definition ops : list (out_op (M := bytes)) :=
  [W_tag 1 WIRETYPE_VARINT; W_scalar S_SInt32 (-300); W_string 2 [104; 105];
   W_packed S_Int64 3 [1; -1]; W_packed S_Fixed32 4 [7; 8]; W_group 5 [1; 2]; W_message 6 [42]; W_aliased [9]].

Definition result (stream : bytes) : outcome (Coded bytes) :=
  run_ops (fun m => Z.of_nat (length m)) co_WriteRaw ops (CodedOutputStream_new stream false true 512 ∅).

Lemma ops_ok : Forall (op_ok (fun m => m)) ops.
Proof.
  unfold ops. rewrite !Forall_cons. unfold op_ok, valid_field, sc_ok, inS, inU. rewrite !Forall_cons.
  split_and!; try lia; try done; by constructor.
Qed.

Lemma ser_ok (m : bytes) (k : Coded bytes) : coded_usable k -> coded_appends m k (co_WriteRaw m k).
Proof. intros Hu. by apply on_impl_spec, WriteRaw_spec. Qed.

(** The stream below and the error flag after [FlushAndResetBuffer]. *)
Definition outcome_of (r : outcome (Coded bytes)) : outcome (bytes * bool) :=
  do k <- r; let '(e, k) := co_HadError k in Ret (held (k_impl k), e).
End Toy_out.

Example toy_out_bytes :
  Toy_out.outcome_of (Toy_out.result [77]) =
  Ret ([77; 8; 215; 4; 18; 2; 104; 105; 26; 11; 1; 255; 255; 255; 255; 255; 255; 255; 255; 255; 1;
        34; 8; 7; 0; 0; 0; 8; 0; 0; 0; 43; 1; 2; 44; 50; 1; 42; 9], false).
Proof. vm_compute. reflexivity. Qed.

Example toy_out_error : (do r <- Toy_out.outcome_of (Toy_out.result (repeat 0 60)); Ret (snd r)) = Ret true.
Proof. vm_compute. reflexivity. Qed.

Lemma toy_out_no_error k' : Toy_out.result [77] = Ret k' -> HadError (k_impl k') = false.
Proof.
  assert (Hr : (do k <- Toy_out.result [77]; Ret (HadError (k_impl k))) = Ret false) by (vm_compute; reflexivity).
  intros Ek. rewrite Ek in Hr. by injection Hr.
Qed.

Lemma stream_writes_exact_witness :
  exists k', Toy_out.result [77] = Ret k' /\ HadError (k_impl k') = false /\
    written (k_cur k') (k_impl k') = [77] ++ concat (op_bytes (fun m => m) <$> Toy_out.ops).
Proof.
  destruct (stream_writes_exact (fun m : bytes => Z.of_nat (length m)) co_WriteRaw (fun m => m)
    Toy_out.ser_ok (fun m => eq_refl) Toy_out.ops [77] false true 512 ∅ Toy_out.ops_ok)
    as (k' & Er & _ & Hw & _).
  pose proof (toy_out_no_error k' Er) as He.
  exists k'. split; [exact Er|]. split; [exact He|exact (Hw He)].
Defined.
