(* ===== verification/CodedInput.v ===== *)
(** * The buffered input stream ([google/protobuf/io/coded_stream.h])

    The inline methods of [CodedInputStream], the readers of [WireFormatLite]
    for scalar, repeated, packed, group and message fields, and the parser of
    message set items ([google/protobuf/wire_format_lite.h]).  The functions
    of [coded_stream.cc] are parameters; what the header says of them is the
    class [InFallbackLaws]. *)

From S2P Require Import Prelude CxxStd Bytes Varint VarintRead WireFormat RepeatedField.
Local Open Scope Z_scope.
Local Open Scope list_scope.

(** The members of [CodedInputStream], and the memory its buffer lies in.
    Objects of other classes are their addresses. *)
Record CodedIn (St : Type) := mkIn {
  i_buffer : Z;
  i_buffer_end : Z;
  i_input : option St;
  i_total_bytes_read : Z;
  i_overflow_bytes : Z;
  i_last_tag : Z;
  i_legitimate_message_end : bool;
  i_aliasing_enabled : bool;
  i_current_limit : Z;
  i_buffer_size_after_limit : Z;
  i_total_bytes_limit : Z;
  i_recursion_budget : Z;
  i_recursion_limit : Z;
  i_extension_pool : option Z;
  i_extension_factory : option Z;
  i_mem : memory;
}.
Arguments mkIn {St} _ _ _ _ _ _ _ _ _ _ _ _ _ _ _ _.
Arguments i_buffer {St} _.
Arguments i_buffer_end {St} _.
Arguments i_input {St} _.
Arguments i_total_bytes_read {St} _.
Arguments i_overflow_bytes {St} _.
Arguments i_last_tag {St} _.
Arguments i_legitimate_message_end {St} _.
Arguments i_aliasing_enabled {St} _.
Arguments i_current_limit {St} _.
Arguments i_buffer_size_after_limit {St} _.
Arguments i_total_bytes_limit {St} _.
Arguments i_recursion_budget {St} _.
Arguments i_recursion_limit {St} _.
Arguments i_extension_pool {St} _.
Arguments i_extension_factory {St} _.
Arguments i_mem {St} _.

(** The functions of [coded_stream.cc]; a reader that fails leaves no value. *)
Class InFallbacks (St : Type) := {
  ci_Refresh : CodedIn St -> bool * CodedIn St;
  ci_SkipFallback : Z -> Z -> CodedIn St -> bool * CodedIn St;
  ReadVarint32Fallback : Z -> CodedIn St -> Z * CodedIn St;
  ReadVarint64Fallback : CodedIn St -> Z * bool * CodedIn St;
  ReadVarintSizeAsIntFallback : CodedIn St -> Z * CodedIn St;
  ReadLittleEndian32Fallback : CodedIn St -> option Z * CodedIn St;
  ReadLittleEndian64Fallback : CodedIn St -> option Z * CodedIn St;
  ci_ReadTagFallback : Z -> CodedIn St -> Z * CodedIn St;
  ci_ReadRaw : Z -> CodedIn St -> option bytes * CodedIn St;
  ci_ReadCord : Z -> CodedIn St -> option bytes * CodedIn St;
  ci_PushLimit : Z -> CodedIn St -> Z * CodedIn St;
  ci_PopLimit : Z -> CodedIn St -> CodedIn St;
  ci_BytesUntilLimit : CodedIn St -> Z;
  BytesUntilTotalBytesLimit : CodedIn St -> Z;
  IncrementRecursionDepthAndPushLimit : Z -> CodedIn St -> Z * Z * CodedIn St;
  DecrementRecursionDepthAndPopLimit : Z -> CodedIn St -> bool * CodedIn St;
}.

(** ** [CodedInputStream] *)

Section input.
Context {St : Type} `{InFallbacks St}.
Implicit Types (s : CodedIn St).

Definition set_buffer (p : Z) s : CodedIn St :=
  mkIn p (i_buffer_end s) (i_input s) (i_total_bytes_read s) (i_overflow_bytes s) (i_last_tag s)
    (i_legitimate_message_end s) (i_aliasing_enabled s) (i_current_limit s) (i_buffer_size_after_limit s)
    (i_total_bytes_limit s) (i_recursion_budget s) (i_recursion_limit s) (i_extension_pool s)
    (i_extension_factory s) (i_mem s).
(** The last tag, whether the message ended legitimately, the recursion budget
    and limit, and the extension registry. *)
Definition set_marks (tag : Z) (legit : bool) (budget limit : Z) (pool factory : option Z) s : CodedIn St :=
  mkIn (i_buffer s) (i_buffer_end s) (i_input s) (i_total_bytes_read s) (i_overflow_bytes s) tag
    legit (i_aliasing_enabled s) (i_current_limit s) (i_buffer_size_after_limit s)
    (i_total_bytes_limit s) budget limit pool factory (i_mem s).
Definition set_last_tag (tag : Z) s : CodedIn St :=
  set_marks tag (i_legitimate_message_end s) (i_recursion_budget s) (i_recursion_limit s) (i_extension_pool s)
    (i_extension_factory s) s.
Definition set_budget (budget limit : Z) s : CodedIn St :=
  set_marks (i_last_tag s) (i_legitimate_message_end s) budget limit (i_extension_pool s) (i_extension_factory s) s.

(** The byte at [buffer_ + k]. *)
Definition peek (k : Z) s : Z := byte_at (i_mem s) (i_buffer s + k).

Definition kDefaultTotalBytesLimit : Z := int_max.

(** The constructors: from a stream, which is then read from, and for a flat
    array; [default_limit] is [default_recursion_limit_]. *)
Definition CodedInputStream_stream (input : St) (default_limit : Z) (m : memory) : CodedIn St :=
  (ci_Refresh (mkIn 0 0 (Some input) 0 0 0 false false int_max 0 kDefaultTotalBytesLimit default_limit default_limit
    None None m)).2.
Definition CodedInputStream_flat (buffer size default_limit : Z) (m : memory) : CodedIn St :=
  mkIn buffer (buffer + size) None size 0 0 false false size 0 kDefaultTotalBytesLimit default_limit default_limit
    None None m.

Definition IsFlat s : bool := match i_input s with None => true | Some _ => false end.
Definition ci_BufferSize s : Z := i32 (i_buffer_end s - i_buffer s).
Definition Advance (amount : Z) s : CodedIn St := set_buffer (i_buffer s + amount) s.
Definition ci_Skip (count : Z) s : bool * CodedIn St :=
  if count <? 0 then (false, s)
  else
    let original_buffer_size := ci_BufferSize s in
    if count <=? original_buffer_size then (true, Advance count s)
    else ci_SkipFallback count original_buffer_size s.
Definition CurrentPosition s : Z := i32 (i_total_bytes_read s - i32 (ci_BufferSize s + i_buffer_size_after_limit s)).
Definition GetDirectBufferPointerInline s : Z * Z := (i_buffer s, i32 (i_buffer_end s - i_buffer s)).

Definition ci_ReadVarint32 s : option Z * CodedIn St :=
  let v := if i_buffer s <? i_buffer_end s then peek 0 s else 0 in
  if (i_buffer s <? i_buffer_end s) && (v <? 0x80) then (Some v, Advance 1 s)
  else
    let '(result, s) := ReadVarint32Fallback v s in
    (if 0 <=? result then Some (u32 result) else None, s).
Definition ci_ReadVarint64 s : option Z * CodedIn St :=
  if (i_buffer s <? i_buffer_end s) && (peek 0 s <? 0x80) then (Some (peek 0 s), Advance 1 s)
  else
    let '(v, ok, s) := ReadVarint64Fallback s in
    (if (ok : bool) then Some v else None, s).
Definition ReadVarintSizeAsInt s : option Z * CodedIn St :=
  if (i_buffer s <? i_buffer_end s) && (peek 0 s <? 0x80) then (Some (peek 0 s), Advance 1 s)
  else
    let '(v, s) := ReadVarintSizeAsIntFallback s in
    (if 0 <=? v then Some v else None, s).

(** Both forms of these functions give the little-endian value: the value and
    the position behind it. *)
Definition ReadLittleEndian32FromArray (m : memory) (buffer : Z) : Z * Z := (UnalignedLoad 4 m buffer, buffer + 4).
Definition ReadLittleEndian64FromArray (m : memory) (buffer : Z) : Z * Z := (UnalignedLoad 8 m buffer, buffer + 8).
(** The little-endian host. *)
Definition ci_ReadLittleEndian32 s : option Z * CodedIn St :=
  if 4 <=? ci_BufferSize s then
    let '(v, buffer) := ReadLittleEndian32FromArray (i_mem s) (i_buffer s) in (Some v, set_buffer buffer s)
  else ReadLittleEndian32Fallback s.
Definition ci_ReadLittleEndian64 s : option Z * CodedIn St :=
  if 8 <=? ci_BufferSize s then
    let '(v, buffer) := ReadLittleEndian64FromArray (i_mem s) (i_buffer s) in (Some v, set_buffer buffer s)
  else ReadLittleEndian64Fallback s.

Definition ReadTagNoLastTag s : Z * CodedIn St :=
  let v := if i_buffer s <? i_buffer_end s then peek 0 s else 0 in
  if (i_buffer s <? i_buffer_end s) && (v <? 0x80) then (v, Advance 1 s) else ci_ReadTagFallback v s.
Definition ci_ReadTag s : Z * CodedIn St := let '(t, s) := ReadTagNoLastTag s in (t, set_last_tag t s).

(** The tag, and whether it is known to be at most [cutoff]. *)
Definition ReadTagWithCutoffNoLastTag (cutoff : Z) s : Z * bool * CodedIn St :=
  let have := i_buffer s <? i_buffer_end s in
  let first_byte_or_zero := if have then peek 0 s else 0 in
  if have && (0 <? wrapS 8 (peek 0 s)) then
    let kMax1ByteVarint := 0x7f in
    let tag := peek 0 s in
    (tag, (kMax1ByteVarint <=? cutoff) || (tag <=? cutoff), Advance 1 s)
  else if have && (0x80 <=? cutoff) && (i_buffer s + 1 <? i_buffer_end s) &&
      (0x80 <=? Z.land (peek 0 s) (Z.lnot (peek 1 s))) then
    let kMax2ByteVarint := 0x7f * 128 + 0x7f in
    let tag := u32 (128 * peek 1 s + (peek 0 s - 0x80)) in
    (tag, (kMax2ByteVarint <=? cutoff) || (tag <=? cutoff), Advance 2 s)
  else
    let '(tag, s) := ci_ReadTagFallback first_byte_or_zero s in
    (tag, u32 (tag - 1) <? cutoff, s).
Definition ReadTagWithCutoff (cutoff : Z) s : Z * bool * CodedIn St :=
  let '(tag, below, s) := ReadTagWithCutoffNoLastTag cutoff s in (tag, below, set_last_tag tag s).

Definition ExpectTag (expected : Z) s : bool * CodedIn St :=
  if expected <? 2 ^ 7 then
    if (i_buffer s <? i_buffer_end s) && (peek 0 s =? expected) then (true, Advance 1 s) else (false, s)
  else if expected <? 2 ^ 14 then
    if (2 <=? ci_BufferSize s) && (peek 0 s =? u8 (Z.lor expected 0x80)) && (peek 1 s =? u8 (Z.shiftr expected 7))
    then (true, Advance 2 s) else (false, s)
  else (false, s).
(** [None] is the null pointer. *)
Definition ExpectTagFromArray (m : memory) (buffer expected : Z) : option Z :=
  if expected <? 2 ^ 7 then
    if byte_at m buffer =? expected then Some (buffer + 1) else None
  else if expected <? 2 ^ 14 then
    if (byte_at m buffer =? u8 (Z.lor expected 0x80)) && (byte_at m (buffer + 1) =? u8 (Z.shiftr expected 7))
    then Some (buffer + 2) else None
  else None.

Definition ExpectAtEnd s : bool * CodedIn St :=
  if (i_buffer s =? i_buffer_end s) &&
     (negb (i_buffer_size_after_limit s =? 0) || (i_total_bytes_read s =? i_current_limit s))
  then (true, set_marks 0 true (i_recursion_budget s) (i_recursion_limit s) (i_extension_pool s)
                (i_extension_factory s) s)
  else (false, s).
Definition LastTagWas (expected : Z) s : bool := i_last_tag s =? expected.
Definition ci_SetLastTag (tag : Z) s : CodedIn St := set_last_tag tag s.
Definition ConsumedEntireMessage s : bool := i_legitimate_message_end s.
Definition SetConsumed s : CodedIn St :=
  set_marks (i_last_tag s) true (i_recursion_budget s) (i_recursion_limit s) (i_extension_pool s)
    (i_extension_factory s) s.

Definition SetRecursionLimit (limit : Z) s : CodedIn St :=
  set_budget (i32 (i_recursion_budget s + i32 (limit - i_recursion_limit s))) limit s.
Definition RecursionBudget s : Z := i_recursion_budget s.
Definition IncrementRecursionDepth s : bool * CodedIn St :=
  let s := set_budget (i32 (i_recursion_budget s - 1)) (i_recursion_limit s) s in (0 <=? i_recursion_budget s, s).
Definition DecrementRecursionDepth s : CodedIn St :=
  if i_recursion_budget s <? i_recursion_limit s
  then set_budget (i_recursion_budget s + 1) (i_recursion_limit s) s else s.
Definition UnsafeDecrementRecursionDepth s : CodedIn St :=
  set_budget (i32 (i_recursion_budget s + 1)) (i_recursion_limit s) s.
Definition SetExtensionRegistry (pool factory : option Z) s : CodedIn St :=
  set_marks (i_last_tag s) (i_legitimate_message_end s) (i_recursion_budget s) (i_recursion_limit s) pool factory s.
Definition GetExtensionPool s : option Z := i_extension_pool s.
Definition GetExtensionFactory s : option Z := i_extension_factory s.

(** ** [WireFormatLite], from a stream *)

(** A read value that is converted. *)
Definition converted (f : Z -> Z) (r : option Z * CodedIn St) : option Z * CodedIn St :=
  let '(temp, s) := r in (match temp with Some t => Some (f t) | None => None end, s).

Definition ReadPrimitive_INT32 s := converted i32 (ci_ReadVarint32 s).
Definition ReadPrimitive_INT64 s := converted i64 (ci_ReadVarint64 s).
Definition ReadPrimitive_UINT32 s := ci_ReadVarint32 s.
Definition ReadPrimitive_UINT64 s := ci_ReadVarint64 s.
Definition ReadPrimitive_SINT32 s := converted ZigZagDecode32 (ci_ReadVarint32 s).
Definition ReadPrimitive_SINT64 s := converted ZigZagDecode64 (ci_ReadVarint64 s).
Definition ReadPrimitive_FIXED32 s := ci_ReadLittleEndian32 s.
Definition ReadPrimitive_FIXED64 s := ci_ReadLittleEndian64 s.
Definition ReadPrimitive_SFIXED32 s := converted i32 (ci_ReadLittleEndian32 s).
Definition ReadPrimitive_SFIXED64 s := converted i64 (ci_ReadLittleEndian64 s).
Definition ReadPrimitive_FLOAT s := converted DecodeFloat (ci_ReadLittleEndian32 s).
Definition ReadPrimitive_DOUBLE s := converted DecodeDouble (ci_ReadLittleEndian64 s).
Definition ReadPrimitive_BOOL s := converted (fun temp => if temp =? 0 then 0 else 1) (ci_ReadVarint64 s).
Definition ReadPrimitive_ENUM s := converted i32 (ci_ReadVarint32 s).

(** The value and the position behind it. *)
Definition ReadPrimitiveFromArray_FIXED32 (m : memory) (buffer : Z) : Z * Z := ReadLittleEndian32FromArray m buffer.
Definition ReadPrimitiveFromArray_FIXED64 (m : memory) (buffer : Z) : Z * Z := ReadLittleEndian64FromArray m buffer.
Definition ReadPrimitiveFromArray_SFIXED32 (m : memory) (buffer : Z) : Z * Z :=
  let '(temp, buffer) := ReadLittleEndian32FromArray m buffer in (i32 temp, buffer).
Definition ReadPrimitiveFromArray_SFIXED64 (m : memory) (buffer : Z) : Z * Z :=
  let '(temp, buffer) := ReadLittleEndian64FromArray m buffer in (i64 temp, buffer).
Definition ReadPrimitiveFromArray_FLOAT (m : memory) (buffer : Z) : Z * Z :=
  let '(temp, buffer) := ReadLittleEndian32FromArray m buffer in (DecodeFloat temp, buffer).
Definition ReadPrimitiveFromArray_DOUBLE (m : memory) (buffer : Z) : Z * Z :=
  let '(temp, buffer) := ReadLittleEndian64FromArray m buffer in (DecodeDouble temp, buffer).

(** The result of a reader of a field: success, the stream and the elements. *)
Definition field_result : Type := outcome (bool * CodedIn St * RepeatedField Z).

Section readers.
(** [sizeof(CType)] and [ReadPrimitive] of the type. *)
Context (size_of : Z) (read : CodedIn St -> option Z * CodedIn St).

(** The loop of [ReadRepeatedPrimitive]; its bound is the room in the array. *)
Fixpoint reserved_loop (n : nat) (tag : Z) s (values : RepeatedField Z) : field_result :=
  match n with
  | O => Ret (true, s, values)
  | S n =>
      let '(hit, s) := ExpectTag tag s in
      if (hit : bool) then
        match read s with
        | (None, s) => Ret (false, s, values)
        | (Some v, s) => do values <- AddAlreadyReserved v values; reserved_loop n tag s values
        end
      else Ret (true, s, values)
  end.
Definition ReadRepeatedPrimitive (tag : Z) s (values : RepeatedField Z) : field_result :=
  match read s with
  | (None, s) => Ret (false, s, values)
  | (Some v, s) =>
      do values <- rf_Add size_of v values;
      reserved_loop (Z.to_nat (rf_Capacity values - rf_size values)) tag s values
  end.

(** The loop over the buffer, whose result is [num_read] and the elements. *)
Fixpoint fixed_loop (from_array : memory -> Z -> Z * Z) (n : nat) (m : memory) (buffer tag num_read : Z)
    (values : RepeatedField Z) : outcome (Z * RepeatedField Z) :=
  match n with
  | O => Ret (num_read, values)
  | S n =>
      match ExpectTagFromArray m buffer tag with
      | None => Ret (num_read, values)
      | Some buffer =>
          let '(v, buffer) := from_array m buffer in
          do values <- AddAlreadyReserved v values;
          fixed_loop from_array n m buffer tag (num_read + 1) values
      end
  end.
Definition ReadRepeatedFixedSizePrimitive (from_array : memory -> Z -> Z * Z) (tag_size tag : Z) s
    (values : RepeatedField Z) : field_result :=
  match read s with
  | (None, s) => Ret (false, s, values)
  | (Some v, s) =>
      do values <- rf_Add size_of v values;
      let '(void_pointer, size) := GetDirectBufferPointerInline s in
      if 0 <? size then
        let per_value_size := tag_size + size_of in
        let elements_available := Z.min (rf_Capacity values - rf_size values) (Z.quot size per_value_size) in
        do (num_read, values) <- fixed_loop from_array (Z.to_nat elements_available) (i_mem s) void_pointer tag 0 values;
        let read_bytes := num_read * per_value_size in
        let s := if 0 <? read_bytes then (ci_Skip read_bytes s).2 else s in
        Ret (true, s, values)
      else Ret (true, s, values)
  end.

(** The loop of [ReadPackedPrimitive], with more fuel than bytes up to the
    limit, so that the fuel cannot end first. *)
Fixpoint packed_read_loop (fuel : nat) s (values : RepeatedField Z) : field_result :=
  match fuel with
  | O => UB
  | S fuel =>
      if 0 <? ci_BytesUntilLimit s then
        match read s with
        | (None, s) => Ret (false, s, values)
        | (Some v, s) => do values <- rf_Add size_of v values; packed_read_loop fuel s values
        end
      else Ret (true, s, values)
  end.
Definition ReadPackedPrimitive s (values : RepeatedField Z) : field_result :=
  match ReadVarintSizeAsInt s with
  | (None, s) => Ret (false, s, values)
  | (Some length, s) =>
      let '(limit, s) := ci_PushLimit length s in
      do (ok, s, values) <- packed_read_loop (S (Z.to_nat (ci_BytesUntilLimit s))) s values;
      if (ok : bool) then Ret (true, ci_PopLimit limit s, values) else Ret (false, s, values)
  end.

(** [n] reads that are added one by one. *)
Fixpoint counted_loop (n : nat) s (values : RepeatedField Z) : field_result :=
  match n with
  | O => Ret (true, s, values)
  | S n =>
      match read s with
      | (None, s) => Ret (false, s, values)
      | (Some v, s) => do values <- rf_Add size_of v values; counted_loop n s values
      end
  end.
(** The elements a block of bytes holds on a little-endian host. *)
Fixpoint block_elements (as_ctype : Z -> Z) (n : nat) (l : bytes) : list Z :=
  match n with
  | O => []
  | S n => as_ctype (le_value (take (Z.to_nat size_of) l)) :: block_elements as_ctype n (drop (Z.to_nat size_of) l)
  end.
Definition ReadPackedFixedSizePrimitive (as_ctype : Z -> Z) s (values : RepeatedField Z) : field_result :=
  match ReadVarintSizeAsInt s with
  | (None, s) => Ret (false, s, values)
  | (Some length, s) =>
      let old_entries := rf_size values in
      let new_entries := Z.quot length size_of in
      let new_bytes := new_entries * size_of in
      if negb (new_bytes =? length) then Ret (false, s, values)
      else
        let bytes_limit := BytesUntilTotalBytesLimit s in
        let bytes_limit :=
          if bytes_limit =? -1 then ci_BytesUntilLimit s else Z.min bytes_limit (ci_BytesUntilLimit s) in
        if new_bytes <=? bytes_limit then
          do n <- int_add old_entries new_entries;
          do values <- rf_Resize size_of n 0 values;
          match ci_ReadRaw new_bytes s with
          | (None, s) => Ret (false, s, rf_Truncate old_entries values)
          | (Some data, s) =>
              do values <- store_slots old_entries (Some <$> block_elements as_ctype (Z.to_nat new_entries) data) values;
              Ret (true, s, values)
          end
        else counted_loop (Z.to_nat new_entries) s values
  end.
End readers.

(** A cord is its bytes. *)
Definition ci_ReadBytes s : option bytes * CodedIn St :=
  match ReadVarintSizeAsInt s with
  | (None, s) => (None, s)
  | (Some length, s) => ci_ReadCord length s
  end.

(** A message is given by [MergePartialFromCodedStream]. *)
Section messages.
Context {M : Type} (MergePartialFromCodedStream : CodedIn St -> M -> bool * CodedIn St * M).

Definition ci_ReadGroup (field_number : Z) s (value : M) : bool * CodedIn St * M :=
  let '(ok, s) := IncrementRecursionDepth s in
  if negb ok then (false, s, value)
  else
    let '(ok, s, value) := MergePartialFromCodedStream s value in
    if negb ok then (false, s, value)
    else
      let s := UnsafeDecrementRecursionDepth s in
      if LastTagWas (MakeTag field_number WIRETYPE_END_GROUP) s then (true, s, value) else (false, s, value).
Definition ci_ReadMessage s (value : M) : bool * CodedIn St * M :=
  match ReadVarintSizeAsInt s with
  | (None, s) => (false, s, value)
  | (Some length, s) =>
      let '(limit, budget, s) := IncrementRecursionDepthAndPushLimit length s in
      if budget <? 0 then (false, s, value)
      else
        let '(ok, s, value) := MergePartialFromCodedStream s value in
        if negb ok then (false, s, value)
        else let '(ok, s) := DecrementRecursionDepthAndPopLimit limit s in (ok, s, value)
  end.
End messages.

(** ** Message set items *)

Inductive item_state := kNoTag | kHasType | kHasPayload | kDone.

#[export] Instance item_state_eq_dec : EqDecision item_state.
Proof. solve_decision. Defined.

(** The message set [ms] parses a field of a given type and skips a field;
    [data_at] is where [message_data] keeps its bytes, [default_limit] the
    recursion limit of a new stream. *)
Section item.
Context {Ms : Type} (ParseField : Z -> CodedIn St -> Ms -> bool * CodedIn St * Ms)
  (SkipField : Z -> CodedIn St -> Ms -> bool * CodedIn St * Ms) (data_at default_limit : Z).

(** [last_type_id], [message_data] and [state]. *)
Record item := mkItem { it_type : Z; it_data : bytes; it_state : item_state }.

(** What a round does: it ends the function, or goes on. *)
Inductive step_result := Return (ok : bool) | Continue (t : item).

Definition item_step (t : item) s (ms : Ms) : step_result * CodedIn St * Ms :=
  let '(tag, s) := ReadTagNoLastTag s in
  if tag =? 0 then (Return false, s, ms)
  else if tag =? kMessageSetTypeIdTag then
    match ci_ReadVarint32 s with
    | (None, s) => (Return false, s, ms)
    | (Some type_id, s) =>
        if type_id =? 0 then (Return false, s, ms)
        else
          match it_state t with
          | kNoTag => (Continue (mkItem type_id (it_data t) kHasType), s, ms)
          | kHasPayload =>
              let data := mem (pokes (it_data t) (mkCursor data_at ∅)) in
              let sub_input := CodedInputStream_flat data_at (i32 (Z.of_nat (length (it_data t)))) default_limit data in
              let sub_input := SetRecursionLimit (RecursionBudget s) sub_input in
              let '(ok, _, ms) := ParseField type_id sub_input ms in
              if negb ok then (Return false, s, ms) else (Continue (mkItem (it_type t) [] kDone), s, ms)
          | _ => (Continue t, s, ms)
          end
    end
  else if tag =? kMessageSetMessageTag then
    match it_state t with
    | kHasType =>
        let '(ok, s, ms) := ParseField (it_type t) s ms in
        if negb ok then (Return false, s, ms) else (Continue (mkItem (it_type t) (it_data t) kDone), s, ms)
    | kNoTag =>
        match ci_ReadVarint32 s with
        | (None, s) => (Return false, s, ms)
        | (Some length, s) =>
            if i32 length <? 0 then (Return false, s, ms)
            else
              let size := u32 (length + VarintSize32 length) in
              let ptr := WriteVarint32ToArray length (mkCursor data_at ∅) in
              match ci_ReadRaw length s with
              | (None, s) => (Return false, s, ms)
              | (Some raw, s) =>
                  let data := bytes_at (mem (memcpy_advance raw ptr)) data_at (Z.to_nat size) in
                  (Continue (mkItem (it_type t) data kHasPayload), s, ms)
              end
        end
    | _ =>
        let '(ok, s, ms) := SkipField tag s ms in
        if negb ok then (Return false, s, ms) else (Continue t, s, ms)
    end
  else if tag =? kMessageSetItemEndTag then (Return true, s, ms)
  else
    let '(ok, s, ms) := SkipField tag s ms in
    if negb ok then (Return false, s, ms) else (Continue t, s, ms).

(** The [while] loop; every round reads a tag, and [None] is fuel that was not
    enough. *)
Fixpoint item_loop (fuel : nat) (t : item) s (ms : Ms) : option (bool * CodedIn St * Ms) :=
  match fuel with
  | O => None
  | S fuel =>
      match item_step t s ms with
      | (Return ok, s, ms) => Some (ok, s, ms)
      | (Continue t, s, ms) => item_loop fuel t s ms
      end
  end.
Definition ParseMessageSetItemImpl (fuel : nat) s (ms : Ms) : option (bool * CodedIn St * Ms) :=
  item_loop fuel (mkItem 0 [] kNoTag) s ms.
End item.
End input.

(** ** What the out-of-line functions promise *)

(** Bytes left before the limit. *)
Definition until {St} (s : CodedIn St) : Z := i_current_limit s - CurrentPosition s.

(** Reading leaves the recursion budget alone. *)
Definition same_marks {St} (s s' : CodedIn St) : Prop :=
  i_recursion_budget s' = i_recursion_budget s /\ i_recursion_limit s' = i_recursion_limit s.

(** The first byte in the buffer, or zero. *)
Definition first_byte_or_zero {St} (s : CodedIn St) : Z := if i_buffer s <? i_buffer_end s then peek 0 s else 0.
Definition needs_fallback {St} (s : CodedIn St) : Prop := i_buffer_end s <= i_buffer s \/ 128 <= peek 0 s.

(** [view] is what follows to the end of the stream, whatever the limit. *)
Class InFallbackLaws (St : Type) `{InFallbacks St} := {
  in_ok : CodedIn St -> Prop;
  view : CodedIn St -> bytes;
  (** [l] comes next, before the limit. *)
  next (l rest : bytes) (s : CodedIn St) : Prop :=
    in_ok s /\ view s = l ++ rest /\ Z.of_nat (length l) <= until s;
  (** [s'] is [s] after [l] was read. *)
  consumes (l : bytes) (s s' : CodedIn St) : Prop :=
    in_ok s' /\ view s = l ++ view s' /\ CurrentPosition s' = CurrentPosition s + Z.of_nat (length l) /\
    i_current_limit s' = i_current_limit s /\ same_marks s s';
  marks_law s tag legit budget limit pool factory :
    in_ok s -> in_ok (set_marks tag legit budget limit pool factory s) /\
    view (set_marks tag legit budget limit pool factory s) = view s;
  buffer_law s :
    in_ok s -> 0 <= i_buffer_end s - i_buffer s <= int_max /\ mem_ok (i_mem s) /\
    i_buffer_end s - i_buffer s <= until s /\
    exists r, view s = bytes_at (i_mem s) (i_buffer s) (Z.to_nat (i_buffer_end s - i_buffer s)) ++ r;
  advance_law s n :
    in_ok s -> 0 <= n <= i_buffer_end s - i_buffer s ->
    consumes (bytes_at (i_mem s) (i_buffer s) (Z.to_nat n)) s (Advance n s);
  varint32_law s v rest :
    inU 64 v -> next (varint v) rest s -> needs_fallback s ->
    let '(r, s') := ReadVarint32Fallback (first_byte_or_zero s) s in r = u32 v /\ consumes (varint v) s s';
  varint64_law s v rest :
    inU 64 v -> next (varint v) rest s -> needs_fallback s ->
    let '(r, ok, s') := ReadVarint64Fallback s in r = v /\ ok = true /\ consumes (varint v) s s';
  size_law s v rest :
    0 <= v < 2 ^ 31 -> next (varint v) rest s -> needs_fallback s ->
    let '(r, s') := ReadVarintSizeAsIntFallback s in r = v /\ consumes (varint v) s s';
  fixed32_law s v rest :
    inU 32 v -> next (le_bytes 4 v) rest s ->
    let '(r, s') := ReadLittleEndian32Fallback s in r = Some v /\ consumes (le_bytes 4 v) s s';
  fixed64_law s v rest :
    inU 64 v -> next (le_bytes 8 v) rest s ->
    let '(r, s') := ReadLittleEndian64Fallback s in r = Some v /\ consumes (le_bytes 8 v) s s';
  tag_law s v rest :
    inU 32 v -> next (varint v) rest s -> needs_fallback s ->
    let '(r, s') := ci_ReadTagFallback (first_byte_or_zero s) s in r = v /\ consumes (varint v) s s';
  tag_end_law s :
    in_ok s -> view s = [] \/ until s <= 0 -> let '(r, s') := ci_ReadTagFallback 0 s in r = 0 /\ consumes [] s s';
  raw_in_law s l rest :
    next l rest s ->
    let '(r, s') := ci_ReadRaw (Z.of_nat (length l)) s in r = Some l /\ consumes l s s';
  push_law s n :
    in_ok s -> 0 <= n <= int_max ->
    let '(old, s') := ci_PushLimit n s in
    in_ok s' /\ view s' = view s /\ CurrentPosition s' = CurrentPosition s /\ same_marks s s' /\
    i_current_limit s' = Z.min (i_current_limit s) (CurrentPosition s + n) /\
    (** what [PopLimit] does to a stream under that limit *)
    forall s2, in_ok s2 -> i_current_limit s2 = i_current_limit s' -> CurrentPosition s2 <= i_current_limit s2 ->
      let s3 := ci_PopLimit old s2 in
      in_ok s3 /\ view s3 = view s2 /\ CurrentPosition s3 = CurrentPosition s2 /\ same_marks s2 s3 /\
      i_current_limit s3 = i_current_limit s;
  until_law s : in_ok s -> i_current_limit s < int_max -> ci_BytesUntilLimit s = until s;
  (** "Shorthand for make_pair(PushLimit(byte_limit), --recursion_budget_)" *)
  increment_law s n :
    IncrementRecursionDepthAndPushLimit n s =
      (let '(old, s') := ci_PushLimit n s in
       let s' := set_budget (i32 (i_recursion_budget s' - 1)) (i_recursion_limit s') s' in
       (old, i_recursion_budget s', s'));
  (** "equivalent to ConsumedEntireMessage(), PopLimit(limit) and
      UnsafeDecrementRecursionDepth()" *)
  decrement_law s limit :
    DecrementRecursionDepthAndPopLimit limit s =
      (ConsumedEntireMessage s, UnsafeDecrementRecursionDepth (ci_PopLimit limit s));
  flat_law m buffer size default_limit :
    mem_ok m -> 0 <= size <= int_max ->
    in_ok (CodedInputStream_flat buffer size default_limit m) /\
    view (CodedInputStream_flat buffer size default_limit m) = bytes_at m buffer (Z.to_nat size);
}.

Section in_facts.
Context {St : Type} `{InFallbackLaws St}.
Implicit Types (s : CodedIn St) (l : bytes).

Lemma next_app l1 l2 rest s : next (l1 ++ l2) rest s -> next l1 (l2 ++ rest) s.
Proof. intros (Hs & Hv & Hu). rewrite length_app in Hu. split; [done|]. split; [by rewrite app_assoc|lia]. Qed.

(** After a part was read the remainder comes next. *)
Lemma next_after l1 l2 rest s s' : next (l1 ++ l2) rest s -> consumes l1 s s' -> next l2 rest s'.
Proof.
  intros (Hs & Hv & Hu) (C1 & C2 & C3 & C4 & _). split; [done|]. split.
  - rewrite C2, <- app_assoc in Hv. by apply app_inv_head in Hv.
  - rewrite length_app in Hu. unfold until in *. rewrite C3, C4. lia.
Qed.

Lemma consumes_refl s : in_ok s -> consumes [] s s.
Proof. intros Hs. unfold consumes, same_marks. simpl. split_and!; try done. lia. Qed.

Lemma consumes_trans l1 l2 s1 s2 s3 : consumes l1 s1 s2 -> consumes l2 s2 s3 -> consumes (l1 ++ l2) s1 s3.
Proof.
  intros (A1 & A2 & A3 & A4 & A5 & A6) (B1 & B2 & B3 & B4 & B5 & B6). unfold consumes, same_marks.
  rewrite length_app. split_and!; try congruence; [by rewrite A2, B2, app_assoc|lia].
Qed.

Lemma buffer_size_ok s : in_ok s -> ci_BufferSize s = i_buffer_end s - i_buffer s.
Proof.
  intros Hs. destruct (buffer_law s Hs) as ((B1 & B2) & _). unfold ci_BufferSize. apply wrapS_id; [lia|].
  unfold int_max in B2. unfold inS. lia.
Qed.

(** What the buffer holds comes next. *)
Lemma buffered l rest s n :
  next l rest s -> n <= i_buffer_end s - i_buffer s -> Z.of_nat (length l) = n ->
  bytes_at (i_mem s) (i_buffer s) (Z.to_nat n) = l.
Proof.
  intros (Hs & Hv & Hu) Hn Hl. destruct (buffer_law s Hs) as (_ & _ & _ & r & Hr). rewrite Hr in Hv.
  replace (Z.to_nat (i_buffer_end s - i_buffer s))
    with (Z.to_nat n + Z.to_nat (i_buffer_end s - i_buffer s - n))%nat in Hv by lia.
  rewrite bytes_at_app, <- app_assoc in Hv. apply app_inj_1 in Hv as [Hv _]; [done|].
  rewrite bytes_at_length. lia.
Qed.

Lemma read_advance l rest s :
  next l rest s -> Z.of_nat (length l) <= i_buffer_end s - i_buffer s ->
  consumes l s (Advance (Z.of_nat (length l)) s).
Proof.
  intros Hn Hl. rewrite <- (buffered l rest s (Z.of_nat (length l)) Hn Hl eq_refl) at 1. apply advance_law; [apply Hn|lia].
Qed.

Lemma peek_next b l rest s : next (b :: l) rest s -> i_buffer s < i_buffer_end s -> peek 0 s = b.
Proof.
  intros Hn Hb. pose proof (buffered [b] (l ++ rest) s 1 (next_app [b] l rest s Hn) ltac:(lia) eq_refl) as Hp.
  unfold peek. rewrite Z.add_0_r. by injection Hp.
Qed.

(** A varint that begins below 128 is one byte. *)
Lemma varint_short v b l : inU 64 v -> varint v = b :: l -> b < 128 -> l = [] /\ b = v.
Proof.
  intros Hv El Hb. pose proof (varint_bytes_form 10 v (u64_128 v Hv) ltac:(lia)) as Hf. fold (varint v) in Hf.
  rewrite El in Hf. destruct l as [|b' l]; [|destruct Hf; lia]. split; [done|].
  unfold varint in El. cbn [varint_bytes] in El. destruct (v <? 128).
  - by injection El as <-.
  - injection El as E _. pose proof (Z.mod_pos_bound v 128). lia.
Qed.

Lemma varint_cons v : inU 64 v -> exists b l, varint v = b :: l.
Proof. intros Hv. pose proof (varint_size_bounds v Hv) as Hs. unfold varint_size in Hs. destruct (varint v); [simpl in Hs; lia|eauto]. Qed.

(** The common shape of the varint readers. *)
Lemma varint_entry {A} (fast : A) (fallback : A) v rest s (P : A -> Prop) :
  inU 64 v -> next (varint v) rest s ->
  (first_byte_or_zero s = v /\ peek 0 s = v /\ inU 7 v -> consumes (varint v) s (Advance 1 s) -> P fast) ->
  (needs_fallback s -> P fallback) ->
  P (if (i_buffer s <? i_buffer_end s) && (first_byte_or_zero s <? 0x80) then fast else fallback).
Proof.
  intros Hv Hn Hf Hs. unfold first_byte_or_zero. destruct (Z.ltb_spec (i_buffer s) (i_buffer_end s)) as [Hb|Hb]; simpl.
  - destruct (Z.ltb_spec (peek 0 s) 128) as [Hp|Hp]; [|apply Hs; by right].
    destruct (varint_cons v Hv) as (b & l & El). rewrite El in Hn. pose proof (peek_next b l rest s Hn Hb) as Hpk.
    destruct (varint_short v b l Hv El ltac:(lia)) as [-> ->]. apply Hf.
    { unfold inU in *. split_and!; try done; [|lia|lia]. unfold first_byte_or_zero. by rewrite (proj2 (Z.ltb_lt _ _)). }
    rewrite El. apply (read_advance [v] rest s Hn). simpl. lia.
  - apply Hs. by left.
Qed.

Lemma ci_ReadVarint32_spec v rest s :
  inU 64 v -> next (varint v) rest s ->
  exists s', ci_ReadVarint32 s = (Some (u32 v), s') /\ consumes (varint v) s s'.
Proof.
  intros Hv Hn. unfold ci_ReadVarint32. fold (first_byte_or_zero s).
  apply (varint_entry _ _ v rest s (fun r => exists s', r = _ /\ _) Hv Hn).
  - intros (-> & _ & H7) Hc. exists (Advance 1 s). split; [|done].
    rewrite wrapU_id; [done|]. unfold inU in *. lia.
  - intros Hf. pose proof (varint32_law s v rest Hv Hn Hf) as Hl.
    destruct (ReadVarint32Fallback (first_byte_or_zero s) s) as [r s']. destruct Hl as [-> Hc].
    pose proof (wrapU_range 32 v ltac:(lia)) as Hr. exists s'. split; [|done].
    rewrite (proj2 (Z.leb_le _ _)) by apply Hr. by rewrite (wrapU_id 32 (u32 v)).
Qed.

Lemma fast_test s :
  (i_buffer s <? i_buffer_end s) && (peek 0 s <? 0x80) =
  (i_buffer s <? i_buffer_end s) && (first_byte_or_zero s <? 0x80).
Proof. unfold first_byte_or_zero. by destruct (i_buffer s <? i_buffer_end s). Qed.

Lemma ci_ReadVarint64_spec v rest s :
  inU 64 v -> next (varint v) rest s ->
  exists s', ci_ReadVarint64 s = (Some v, s') /\ consumes (varint v) s s'.
Proof.
  intros Hv Hn. unfold ci_ReadVarint64. rewrite fast_test.
  apply (varint_entry _ _ v rest s (fun r => exists s', r = _ /\ _) Hv Hn).
  - intros (_ & -> & _) Hc. by exists (Advance 1 s).
  - intros Hf. pose proof (varint64_law s v rest Hv Hn Hf) as Hl.
    destruct (ReadVarint64Fallback s) as [[r ok] s']. destruct Hl as (-> & -> & Hc). by exists s'.
Qed.

Lemma ReadVarintSizeAsInt_spec v rest s :
  0 <= v < 2 ^ 31 -> next (varint v) rest s ->
  exists s', ReadVarintSizeAsInt s = (Some v, s') /\ consumes (varint v) s s'.
Proof.
  intros Hv Hn. unfold ReadVarintSizeAsInt. rewrite fast_test.
  apply (varint_entry _ _ v rest s (fun r => exists s', r = _ /\ _) ltac:(unfold inU; lia) Hn).
  - intros (_ & -> & _) Hc. by exists (Advance 1 s).
  - intros Hf. pose proof (size_law s v rest Hv Hn Hf) as Hl.
    destruct (ReadVarintSizeAsIntFallback s) as [r s']. destruct Hl as (-> & Hc). exists s'.
    by rewrite (proj2 (Z.leb_le _ _)) by lia.
Qed.

Lemma ReadTagNoLastTag_spec v rest s :
  inU 32 v -> next (varint v) rest s ->
  exists s', ReadTagNoLastTag s = (v, s') /\ consumes (varint v) s s'.
Proof.
  intros Hv Hn. unfold ReadTagNoLastTag. fold (first_byte_or_zero s).
  apply (varint_entry _ _ v rest s (fun r => exists s', r = _ /\ _) (inU_32_64 _ Hv) Hn).
  - intros (-> & _ & _) Hc. by exists (Advance 1 s).
  - intros Hf. pose proof (tag_law s v rest Hv Hn Hf) as Hl.
    destruct (ci_ReadTagFallback (first_byte_or_zero s) s) as [r s']. destruct Hl as (-> & Hc). by exists s'.
Qed.

(** Little-endian numbers, in the buffer or not. *)
Lemma load_next n v rest s :
  next (le_bytes n v) rest s -> 0 <= v < 256 ^ Z.of_nat n -> Z.of_nat n <= i_buffer_end s - i_buffer s ->
  UnalignedLoad n (i_mem s) (i_buffer s) = v /\ consumes (le_bytes n v) s (Advance (Z.of_nat n) s).
Proof.
  intros Hn Hv Hb. pose proof (le_bytes_length n v) as Hl. split.
  - unfold UnalignedLoad, EndianLoad. pose proof (buffered _ rest s (Z.of_nat n) Hn Hb ltac:(lia)) as Hx.
    rewrite Nat2Z.id in Hx. rewrite Hx. by apply le_roundtrip.
  - pose proof (read_advance _ rest s Hn ltac:(lia)) as Hx. by rewrite Hl in Hx.
Qed.

Lemma ci_ReadLittleEndian32_spec v rest s :
  inU 32 v -> next (le_bytes 4 v) rest s ->
  exists s', ci_ReadLittleEndian32 s = (Some v, s') /\ consumes (le_bytes 4 v) s s'.
Proof.
  intros Hv Hn. unfold ci_ReadLittleEndian32. rewrite buffer_size_ok by apply Hn.
  destruct (Z.leb_spec 4 (i_buffer_end s - i_buffer s)) as [Hb|Hb].
  - destruct (load_next 4 v rest s Hn Hv Hb) as [E Hc]. unfold ReadLittleEndian32FromArray. rewrite E. by exists (Advance 4 s).
  - pose proof (fixed32_law s v rest Hv Hn) as Hl. destruct (ReadLittleEndian32Fallback s) as [r s'].
    destruct Hl as [-> Hc]. by exists s'.
Qed.

Lemma ci_ReadLittleEndian64_spec v rest s :
  inU 64 v -> next (le_bytes 8 v) rest s ->
  exists s', ci_ReadLittleEndian64 s = (Some v, s') /\ consumes (le_bytes 8 v) s s'.
Proof.
  intros Hv Hn. unfold ci_ReadLittleEndian64. rewrite buffer_size_ok by apply Hn.
  destruct (Z.leb_spec 8 (i_buffer_end s - i_buffer s)) as [Hb|Hb].
  - destruct (load_next 8 v rest s Hn Hv Hb) as [E Hc]. unfold ReadLittleEndian64FromArray. rewrite E. by exists (Advance 8 s).
  - pose proof (fixed64_law s v rest Hv Hn) as Hl. destruct (ReadLittleEndian64Fallback s) as [r s'].
    destruct Hl as [-> Hc]. by exists s'.
Qed.

(** *** Scalars *)

Definition read_primitive (t : scalar) s : option Z * CodedIn St :=
  match t with
  | S_Int32 => ReadPrimitive_INT32 s
  | S_Int64 => ReadPrimitive_INT64 s
  | S_UInt32 => ReadPrimitive_UINT32 s
  | S_UInt64 => ReadPrimitive_UINT64 s
  | S_SInt32 => ReadPrimitive_SINT32 s
  | S_SInt64 => ReadPrimitive_SINT64 s
  | S_Fixed32 => ReadPrimitive_FIXED32 s
  | S_Fixed64 => ReadPrimitive_FIXED64 s
  | S_SFixed32 => ReadPrimitive_SFIXED32 s
  | S_SFixed64 => ReadPrimitive_SFIXED64 s
  | S_Float => ReadPrimitive_FLOAT s
  | S_Double => ReadPrimitive_DOUBLE s
  | S_Bool => ReadPrimitive_BOOL s
  | S_Enum => ReadPrimitive_ENUM s
  end.

Lemma converted_spec (f : Z -> Z) l s r v w :
  (exists s', r = (Some v, s') /\ consumes l s s') -> f v = w ->
  exists s', converted f r = (Some w, s') /\ consumes l s s'.
Proof. intros (s' & -> & Hc) <-. by exists s'. Qed.

(** A signed number survives the conversion to 64 bits and back. *)
Lemma sign_extended v : inS 32 v -> i32 (u32 (u64 v)) = v.
Proof.
  intros Hv. assert (E : u32 (u64 v) = u32 v).
  { unfold wrapU. apply Z.mod_mod_divide. by exists (2 ^ 32). }
  rewrite E, wrapS_wrapU by lia. by apply wrapS_id.
Qed.

(** Reading is the inverse of writing, for every scalar type. *)
Lemma read_primitive_spec t v rest s :
  sc_ok t v -> next (sc_bytes t v) rest s ->
  exists s', read_primitive t s = (Some v, s') /\ consumes (sc_bytes t v) s s'.
Proof.
  assert (Hsint : forall w, 1 < w -> inS w v -> inU w (ZigZagEncode w v) /\ ZigZagDecode w (ZigZagEncode w v) = v).
  { intros w Hw Hv. destruct (zigzag_roundtrip w v 0 Hw Hv) as (E & _ & Hr & _); [unfold inU; lia|by split]. }
  assert (H64 : inU 64 (u64 v)) by (apply wrapU_range; lia).
  destruct t; cbn [sc_bytes read_primitive sc_ok]; intros Hv Hn.
  - eapply converted_spec; [by apply (ci_ReadVarint32_spec _ rest)|by apply sign_extended].
  - eapply converted_spec; [by apply (ci_ReadVarint64_spec _ rest)|]. rewrite wrapS_wrapU by lia. by apply wrapS_id.
  - destruct (ci_ReadVarint32_spec v rest s (inU_32_64 _ Hv) Hn) as (s' & E & Hc). rewrite wrapU_id in E by done.
    by exists s'.
  - by apply (ci_ReadVarint64_spec _ rest).
  - destruct (Hsint 32 ltac:(lia) Hv) as [Hr E].
    eapply converted_spec; [by apply (ci_ReadVarint32_spec _ rest); [apply inU_32_64|]|]. by rewrite wrapU_id.
  - destruct (Hsint 64 ltac:(lia) Hv) as [Hr E]. eapply converted_spec; [by apply (ci_ReadVarint64_spec _ rest)|done].
  - by apply (ci_ReadLittleEndian32_spec _ rest).
  - by apply (ci_ReadLittleEndian64_spec _ rest).
  - rewrite <- (le_bytes_wrap 4 v) in Hn |- *.
    eapply converted_spec; [apply (ci_ReadLittleEndian32_spec _ rest); [apply (wrapU_range 32); lia|done]|].
    change (v mod 256 ^ Z.of_nat 4) with (u32 v). rewrite wrapS_wrapU by lia. by apply wrapS_id.
  - rewrite <- (le_bytes_wrap 8 v) in Hn |- *.
    eapply converted_spec; [apply (ci_ReadLittleEndian64_spec _ rest); [apply (wrapU_range 64); lia|done]|].
    change (v mod 256 ^ Z.of_nat 8) with (u64 v). rewrite wrapS_wrapU by lia. by apply wrapS_id.
  - eapply converted_spec; [by apply (ci_ReadLittleEndian32_spec _ rest)|done].
  - eapply converted_spec; [by apply (ci_ReadLittleEndian64_spec _ rest)|done].
  - eapply converted_spec; [apply (ci_ReadVarint64_spec _ rest); [unfold inU; lia|done]|]. by destruct Hv as [-> | ->].
  - eapply converted_spec; [by apply (ci_ReadVarint32_spec _ rest)|by apply sign_extended].
Qed.

(** *** Tags that are expected *)

Lemma tag_one v : 0 <= v < 2 ^ 7 -> varint v = [v].
Proof. intros Hv. unfold varint. cbn [varint_bytes]. by rewrite (proj2 (Z.ltb_lt _ _)) by lia. Qed.

Lemma tag_two v : 2 ^ 7 <= v < 2 ^ 14 -> varint v = [u8 (Z.lor v 0x80); u8 (Z.shiftr v 7)].
Proof.
  intros Hv. unfold varint. cbn [varint_bytes]. rewrite (proj2 (Z.ltb_ge _ _)) by lia.
  assert (0 <= v / 128 < 128) by (split; [apply Z.div_pos|apply Z.div_lt_upper_bound]; lia).
  rewrite (proj2 (Z.ltb_lt _ _)) by lia. rewrite cont_byte, Z.shiftr_div_pow2 by lia. change (2 ^ 7) with 128.
  f_equal. f_equal. symmetry. apply Z.mod_small. lia.
Qed.

(** A tag that is found is the tag that comes next. *)
Lemma ExpectTag_spec tag s :
  in_ok s -> 0 <= tag ->
  (exists s', ExpectTag tag s = (true, s') /\ consumes (varint tag) s s' /\ Z.of_nat (length (varint tag)) <= until s) \/
  ExpectTag tag s = (false, s).
Proof.
  intros Hs Ht. destruct (buffer_law s Hs) as (Hb & Hm & Hu & _). unfold ExpectTag. rewrite buffer_size_ok by done.
  destruct (Z.ltb_spec tag (2 ^ 7)); [|destruct (Z.ltb_spec tag (2 ^ 14)); [|by right]].
  - destruct (Z.ltb_spec (i_buffer s) (i_buffer_end s)); [|by right].
    destruct (Z.eqb_spec (peek 0 s) tag) as [E|]; [|by right]. left. eexists. split; [reflexivity|].
    rewrite tag_one by lia. split; [|simpl; lia].
    pose proof (advance_law s 1 Hs ltac:(lia)) as Ha. simpl in Ha. unfold peek in E. rewrite Z.add_0_r in E. by rewrite E in Ha.
  - destruct (Z.leb_spec 2 (i_buffer_end s - i_buffer s)); [|by right].
    destruct (Z.eqb_spec (peek 0 s) (u8 (Z.lor tag 0x80))) as [E0|]; [|by right].
    destruct (Z.eqb_spec (peek 1 s) (u8 (Z.shiftr tag 7))) as [E1|]; [|by right].
    left. eexists. split; [reflexivity|]. rewrite tag_two by lia. split; [|simpl; lia].
    pose proof (advance_law s 2 Hs ltac:(lia)) as Ha. simpl in Ha. unfold peek in E0, E1. rewrite Z.add_0_r in E0.
    by rewrite E0, E1 in Ha.
Qed.

Lemma ExpectTagFromArray_spec m p tag :
  0 <= tag ->
  ExpectTagFromArray m p tag = None \/
  (ExpectTagFromArray m p tag = Some (p + Z.of_nat (length (varint tag))) /\ reads m p (varint tag)).
Proof.
  intros Ht. unfold ExpectTagFromArray.
  destruct (Z.ltb_spec tag (2 ^ 7)); [|destruct (Z.ltb_spec tag (2 ^ 14)); [|by left]].
  - destruct (Z.eqb_spec (byte_at m p) tag) as [E|]; [|by left]. right. rewrite tag_one by lia.
    split; [done|]. unfold reads. simpl. by rewrite E.
  - destruct (Z.eqb_spec (byte_at m p) (u8 (Z.lor tag 0x80))) as [E0|]; [|by left].
    destruct (Z.eqb_spec (byte_at m (p + 1)) (u8 (Z.shiftr tag 7))) as [E1|]; [|by left].
    right. rewrite tag_two by lia. split; [done|]. unfold reads. simpl. by rewrite E0, E1.
Qed.

(** A tag of one or two bytes that comes next and lies in the buffer is
    found. *)
Lemma ExpectTag_found tag rest s :
  0 <= tag < 2 ^ 14 -> next (varint tag) rest s -> Z.of_nat (length (varint tag)) <= i_buffer_end s - i_buffer s ->
  exists s', ExpectTag tag s = (true, s').
Proof.
  intros Ht Hn Hb. pose proof (buffered _ rest s _ Hn Hb eq_refl) as E. unfold ExpectTag. rewrite buffer_size_ok by apply Hn.
  destruct (Z.ltb_spec tag (2 ^ 7)).
  - rewrite tag_one in E, Hb by lia. simpl in E, Hb. rewrite (proj2 (Z.ltb_lt _ _)) by lia.
    injection E as E. unfold peek. rewrite Z.add_0_r, E, Z.eqb_refl. eauto.
  - rewrite tag_two in E, Hb by lia. simpl in E, Hb. rewrite (proj2 (Z.ltb_lt _ _)), (proj2 (Z.leb_le _ _)) by lia.
    injection E as E0 E1. unfold peek. rewrite Z.add_0_r, E0, E1, !Z.eqb_refl. eauto.
Qed.

Lemma ExpectTagFromArray_found m p tag :
  0 <= tag < 2 ^ 14 -> reads m p (varint tag) -> ExpectTagFromArray m p tag <> None.
Proof.
  intros Ht Hr. unfold ExpectTagFromArray. destruct (Z.ltb_spec tag (2 ^ 7)).
  - rewrite tag_one in Hr by lia. injection Hr as ->. by rewrite Z.eqb_refl.
  - rewrite tag_two in Hr by lia. injection Hr as -> ->. by rewrite (proj2 (Z.ltb_lt _ _)), !Z.eqb_refl by lia.
Qed.

(** *** Repeated fields *)

(** The elements [vs] of field [n], each with its tag, come next, and then
    something that is no further element. *)
Definition elements_next (t : scalar) (n : Z) (vs : list Z) (rest : bytes) s : Prop :=
  next (concat (field_bytes t n <$> vs)) rest s /\
  forall r, rest <> varint (MakeTag n (sc_wire t)) ++ r.

(** [values'] is [values] with [vs] added, and the bytes of [l] are read. *)
Definition adds (size_of : Z) (vs : list Z) (l : bytes) s s' (values values' : RepeatedField Z) : Prop :=
  consumes l s s' /\ rep_ok size_of values' /\ in_use values' = in_use values ++ (Some <$> vs).

Lemma elements_step t n vs rest s s1 :
  elements_next t n vs rest s -> consumes (varint (MakeTag n (sc_wire t))) s s1 ->
  exists v vs', vs = v :: vs' /\ next (sc_bytes t v) (concat (field_bytes t n <$> vs') ++ rest) s1.
Proof.
  intros [Hn Hr] Hc. destruct vs as [|v vs].
  - exfalso. destruct Hn as (_ & Hv & _). destruct Hc as (_ & Hv' & _). rewrite Hv in Hv'. by eapply Hr.
  - exists v, vs. split; [done|]. csimpl in Hn. unfold field_bytes at 1 in Hn. rewrite <- !app_assoc in Hn.
    apply (next_after _ _ _ _ s1) in Hn; [|done]. by apply next_app in Hn.
Qed.

Lemma elements_after t n v vs rest s s1 s2 :
  elements_next t n (v :: vs) rest s -> consumes (varint (MakeTag n (sc_wire t))) s s1 -> consumes (sc_bytes t v) s1 s2 ->
  elements_next t n vs rest s2.
Proof.
  intros [Hn Hr] H1 H2. split; [|done]. csimpl in Hn. unfold field_bytes at 1 in Hn. rewrite <- !app_assoc in Hn.
  eapply next_after; [|exact H2]. by eapply next_after.
Qed.

(** A tag that is not found although an element comes next is too long to be
    looked for, or runs over the end of the buffer. *)
Lemma tag_missed t n vs rest s (full : Prop) :
  elements_next t n vs rest s -> 0 <= MakeTag n (sc_wire t) -> ExpectTag (MakeTag n (sc_wire t)) s = (false, s) ->
  0%nat = length vs \/ full \/ 2 ^ 14 <= MakeTag n (sc_wire t) \/
  i_buffer_end s - i_buffer s < Z.of_nat (length (varint (MakeTag n (sc_wire t)))).
Proof.
  intros [Hn _] Ht E. destruct vs as [|v vs]; [by left|right; right].
  destruct (Z.le_gt_cases (2 ^ 14) (MakeTag n (sc_wire t))) as [|Hlt]; [by left|right].
  destruct (Z.le_gt_cases (Z.of_nat (length (varint (MakeTag n (sc_wire t))))) (i_buffer_end s - i_buffer s)) as [Hb|]; [|lia].
  csimpl in Hn. unfold field_bytes at 1 in Hn. rewrite <- app_assoc in Hn. apply next_app in Hn.
  destruct (ExpectTag_found (MakeTag n (sc_wire t)) _ s (conj Ht Hlt) Hn Hb) as [s' E']. congruence.
Qed.

Lemma reserved_loop_spec t n size_of vs rest k s values :
  0 < size_of -> valid_field n -> Forall (sc_ok t) vs -> elements_next t n vs rest s ->
  rep_ok size_of values -> current_size values + Z.of_nat k = total_size values ->
  exists j s' values', reserved_loop (read_primitive t) k (MakeTag n (sc_wire t)) s values = Ret (true, s', values') /\
    (j <= length vs)%nat /\
    adds size_of (take j vs) (concat (field_bytes t n <$> take j vs)) s s' values values' /\
    (j = length vs \/ current_size values' = total_size values' \/ 2 ^ 14 <= MakeTag n (sc_wire t) \/
     i_buffer_end s' - i_buffer s' < Z.of_nat (length (varint (MakeTag n (sc_wire t))))).
Proof.
  intros Hsz Hf. revert vs s values. induction k as [|k IH]; intros vs s values Hv He Hr Hk.
  { exists 0%nat, s, values. split; [done|]. split; [lia|]. unfold adds. simpl. rewrite app_nil_r.
    split; [split; [apply consumes_refl, He|by split]|]. right. left. lia. }
  cbn [reserved_loop]. destruct (MakeTag_range n (sc_wire t) Hf) as [Ht _].
  destruct (ExpectTag_spec (MakeTag n (sc_wire t)) s ltac:(apply He) ltac:(lia)) as [(s1 & -> & H1 & _)|E0].
  2: { rewrite E0. exists 0%nat, s, values. split; [done|]. split; [lia|]. unfold adds. simpl. rewrite app_nil_r.
       split; [split; [apply consumes_refl, He|by split]|]. eapply (tag_missed t n vs rest); [done|lia|done]. }
  destruct (elements_step t n vs rest s s1 He H1) as (v & vs' & -> & Hn). apply Forall_cons in Hv as [Hv Hvs].
  destruct (read_primitive_spec t v _ s1 Hv Hn) as (s2 & -> & H2).
  destruct (AddAlreadyReserved_spec size_of Hsz v values Hr ltac:(lia)) as (values1 & -> & (A1 & A2 & _) & At). cbn [obind].
  pose proof (in_use_length size_of values1 A1) as Hl. rewrite A2, length_app, Nat2Z.inj_add, (in_use_length size_of) in Hl by done.
  simpl in Hl.
  destruct (IH vs' s2 values1 Hvs (elements_after t n v vs' rest s s1 s2 He H1 H2) A1 ltac:(lia))
    as (j & s' & values' & E & Hj & (C & R & U) & Hstop).
  exists (S j), s', values'. split; [exact E|]. split; [simpl; lia|]. split; [|destruct Hstop as [->|?]; [by left|by right]].
  cbn [take]. csimpl. split; [|split; [done|]].
  - unfold field_bytes at 1. rewrite <- app_assoc. eapply consumes_trans; [exact H1|]. by eapply consumes_trans.
  - by rewrite U, A2, <- app_assoc.
Qed.

(** The types of fixed size, and their readers from an array. *)
Definition is_fixed (t : scalar) : Prop := t ∈ [S_Fixed32; S_Fixed64; S_SFixed32; S_SFixed64; S_Float; S_Double].
#[local] Instance is_fixed_dec t : Decision (is_fixed t).
Proof. unfold is_fixed. apply _. Defined.

Definition read_from_array (t : scalar) (m : memory) (buffer : Z) : Z * Z :=
  match t with
  | S_Fixed32 => ReadPrimitiveFromArray_FIXED32 m buffer
  | S_Fixed64 => ReadPrimitiveFromArray_FIXED64 m buffer
  | S_SFixed32 => ReadPrimitiveFromArray_SFIXED32 m buffer
  | S_SFixed64 => ReadPrimitiveFromArray_SFIXED64 m buffer
  | S_Float => ReadPrimitiveFromArray_FLOAT m buffer
  | _ => ReadPrimitiveFromArray_DOUBLE m buffer
  end.

Lemma fixed_length t v : is_fixed t -> length (sc_bytes t v) = fixed_size t.
Proof.
  unfold is_fixed. rewrite !elem_of_cons, elem_of_nil. intros Ht.
  repeat destruct Ht as [-> | Ht]; try done; apply le_bytes_length.
Qed.

Lemma load_le n m p v : reads m p (le_bytes n v) -> UnalignedLoad n m p = v mod 256 ^ Z.of_nat n.
Proof.
  unfold reads, UnalignedLoad, EndianLoad. rewrite le_bytes_length. intros ->. apply le_value_bytes.
Qed.

Lemma read_from_array_spec t m p v :
  is_fixed t -> sc_ok t v -> reads m p (sc_bytes t v) -> read_from_array t m p = (v, p + Z.of_nat (fixed_size t)).
Proof.
  intros Ht. unfold is_fixed in Ht. rewrite !elem_of_cons, elem_of_nil in Ht.
  assert (Hu : forall n (f : Z -> Z), 0 <= v < 256 ^ Z.of_nat n -> f v = v -> f (v mod 256 ^ Z.of_nat n) = v).
  { intros n f Hv Hf. by rewrite Z.mod_small. }
  repeat destruct Ht as [-> | Ht]; try done; cbn [sc_bytes sc_ok read_from_array]; intros Hv Hr;
    apply load_le in Hr;
    unfold ReadPrimitiveFromArray_FIXED32, ReadPrimitiveFromArray_FIXED64, ReadPrimitiveFromArray_SFIXED32,
      ReadPrimitiveFromArray_SFIXED64, ReadPrimitiveFromArray_FLOAT, ReadPrimitiveFromArray_DOUBLE,
      ReadLittleEndian32FromArray, ReadLittleEndian64FromArray; rewrite Hr; f_equal.
  - by apply (Hu 4%nat (fun x => x)).
  - by apply (Hu 8%nat (fun x => x)).
  - change (256 ^ Z.of_nat 4) with (2 ^ 32). fold (wrapU 32 v). rewrite wrapS_wrapU by lia. by apply wrapS_id.
  - change (256 ^ Z.of_nat 8) with (2 ^ 64). fold (wrapU 64 v). rewrite wrapS_wrapU by lia. by apply wrapS_id.
  - by apply (Hu 4%nat (fun x => x)).
  - by apply (Hu 8%nat (fun x => x)).
Qed.

Lemma reads_take m p b n : reads m p b -> reads m p (take n b).
Proof. intros Hb. rewrite <- (take_drop n b) in Hb. by apply reads_app in Hb as [Hb _]. Qed.

(** The loop over the buffer holds [b], the first bytes of what comes next. *)
Lemma fixed_loop_spec t n size_of vs rest k m p b r num values :
  0 < size_of -> is_fixed t -> Forall (sc_ok t) vs ->
  reads m p b -> concat (field_bytes t n <$> vs) ++ rest = b ++ r -> valid_field n ->
  (forall r, rest <> varint (MakeTag n (sc_wire t)) ++ r) ->
  (k * (length (varint (MakeTag n (sc_wire t))) + fixed_size t) <= length b)%nat ->
  rep_ok size_of values -> current_size values + Z.of_nat k <= total_size values ->
  exists j values', fixed_loop (read_from_array t) k m p (MakeTag n (sc_wire t)) num values = Ret (num + Z.of_nat j, values') /\
    (j <= length vs)%nat /\ (j <= k)%nat /\ rep_ok size_of values' /\
    in_use values' = in_use values ++ (Some <$> take j vs) /\ total_size values' = total_size values /\
    (j = length vs \/ j = k \/ 2 ^ 14 <= MakeTag n (sc_wire t)).
Proof.
  intros Hsz Ht Hv Hb E Hf Hr. revert vs k p b num values Hv Hb E.
  assert (Hstop : forall vs k num values, rep_ok size_of values ->
    0%nat = length vs \/ 0%nat = k \/ 2 ^ 14 <= MakeTag n (sc_wire t) ->
    exists j values', (Ret (num, values) : outcome (Z * RepeatedField Z)) = Ret (num + Z.of_nat j, values') /\
    (j <= length vs)%nat /\ (j <= k)%nat /\ rep_ok size_of values' /\
    in_use values' = in_use values ++ (Some <$> take j vs) /\ total_size values' = total_size values /\
    (j = length vs \/ j = k \/ 2 ^ 14 <= MakeTag n (sc_wire t))).
  { intros vs k num values Ho Hs. exists 0%nat, values. rewrite Z.add_0_r, app_nil_r. split_and!; try done; lia. }
  intros vs k. revert vs. induction k as [|k IH]; intros vs p b num values Hv Hb E Hk Ho Hroom; [apply Hstop; auto|].
  cbn [fixed_loop]. destruct (MakeTag_range n (sc_wire t) Hf) as [Htag _].
  set (vt := varint (MakeTag n (sc_wire t))) in *.
  destruct (ExpectTagFromArray_spec m p (MakeTag n (sc_wire t)) ltac:(lia)) as [Emiss | [-> Hvt]].
  { rewrite Emiss. apply Hstop; [done|]. destruct vs as [|v vs]; [by left|right; right].
    destruct (Z.le_gt_cases (2 ^ 14) (MakeTag n (sc_wire t))) as [|Hlt]; [done|]. exfalso.
    eapply ExpectTagFromArray_found; [| |exact Emiss]; [lia|]. fold vt.
    pose proof (reads_take m p b (length vt) Hb) as Hx. csimpl in E. unfold field_bytes at 1 in E. fold vt in E.
    rewrite <- !app_assoc in E. apply (f_equal (take (length vt))) in E.
    rewrite take_app_length, take_app_le in E by lia. by rewrite <- E in Hx. }
  fold vt in Hvt |- *. assert (Hb1 : b = vt ++ drop (length vt) b).
  { rewrite <- (take_drop (length vt) b) at 1. f_equal. pose proof (reads_take m p b (length vt) Hb) as Hx.
    unfold reads in Hx, Hvt. rewrite length_take, Nat.min_l in Hx by lia. congruence. }
  destruct vs as [|v vs].
  { exfalso. csimpl in E. rewrite Hb1, <- app_assoc in E. by eapply Hr. }
  apply Forall_cons in Hv as [Hv Hvs]. csimpl in E. unfold field_bytes at 1 in E. fold vt in E.
  rewrite Hb1, <- !app_assoc in E. apply app_inv_head in E.
  rewrite Hb1 in Hb. apply reads_app in Hb as [_ Hb]. pose proof (fixed_length t v Ht) as Hlen.
  assert (Hle : (length (sc_bytes t v) <= length (drop (length vt) b))%nat) by (rewrite length_drop; lia).
  assert (Hb2 : drop (length vt) b = sc_bytes t v ++ drop (length (sc_bytes t v)) (drop (length vt) b)).
  { rewrite <- (take_drop (length (sc_bytes t v)) (drop (length vt) b)) at 1. f_equal.
    apply (f_equal (take (length (sc_bytes t v)))) in E. rewrite (take_app_le (drop _ _)) in E by done.
    rewrite <- E. by rewrite take_app_length. }
  rewrite Hb2, <- !app_assoc in E. apply app_inv_head in E.
  rewrite Hb2 in Hb. apply reads_app in Hb as [Hb3 Hb4].
  rewrite (read_from_array_spec t m _ v Ht Hv Hb3).
  destruct (AddAlreadyReserved_spec size_of Hsz v values Ho ltac:(lia)) as (values1 & -> & (A1 & A2 & _) & At). cbn [obind].
  pose proof (in_use_length size_of values1 A1) as Hl. rewrite A2, length_app, Nat2Z.inj_add, (in_use_length size_of) in Hl by done.
  simpl in Hl. rewrite Hlen in Hb4, E.
  destruct (IH vs _ (drop (fixed_size t) (drop (length vt) b)) (num + 1) values1 Hvs Hb4 E) as (j & values' & Ej & J1 & J2 & J3 & J4 & J5 & J6);
    [rewrite !length_drop; lia|done|lia|].
  exists (S j), values'. rewrite Ej. split_and!; [f_equal; f_equal; lia|simpl; lia|lia|done| |congruence|simpl; lia].
  cbn [take]. csimpl. by rewrite J4, A2, <- app_assoc.
Qed.

(** [sizeof(CType)]. *)
Definition ctype_size (t : scalar) : Z :=
  match t with
  | S_Int64 | S_UInt64 | S_SInt64 | S_Fixed64 | S_SFixed64 | S_Double => 8
  | S_Bool => 1
  | _ => 4
  end.

(** [ReadRepeatedPrimitive] of every type, the specialised forms included. *)
Definition read_repeated (t : scalar) (tag_size tag : Z) s (values : RepeatedField Z) : field_result :=
  if decide (is_fixed t)
  then ReadRepeatedFixedSizePrimitive (ctype_size t) (read_primitive t) (read_from_array t) tag_size tag s values
  else ReadRepeatedPrimitive (ctype_size t) (read_primitive t) tag s values.

Lemma ctype_pos t : 0 < ctype_size t.
Proof. by destruct t. Qed.

Lemma fixed_ctype t : is_fixed t -> Z.of_nat (fixed_size t) = ctype_size t.
Proof.
  unfold is_fixed. rewrite !elem_of_cons, elem_of_nil. intros Ht. by repeat destruct Ht as [-> | Ht].
Qed.

Lemma field_bytes_length t n v :
  is_fixed t -> Z.of_nat (length (field_bytes t n v)) = Z.of_nat (length (varint (MakeTag n (sc_wire t)))) + ctype_size t.
Proof.
  intros Ht. unfold field_bytes. rewrite length_app, (fixed_length t v Ht), Nat2Z.inj_add. by rewrite fixed_ctype.
Qed.

Lemma concat_length t n vs :
  is_fixed t ->
  Z.of_nat (length (concat (field_bytes t n <$> vs))) =
    Z.of_nat (length vs) * (Z.of_nat (length (varint (MakeTag n (sc_wire t)))) + ctype_size t).
Proof.
  intros Ht. induction vs as [|v vs IH]; [done|]. csimpl.
  rewrite length_app, Nat2Z.inj_add, IH, field_bytes_length by done. lia.
Qed.

(** The buffer read as an array, then skipped. *)
Lemma fixed_buffer_spec t n vs rest s values :
  is_fixed t -> valid_field n -> Forall (sc_ok t) vs -> elements_next t n vs rest s -> rep_ok (ctype_size t) values ->
  let tag := MakeTag n (sc_wire t) in
  let per := Z.of_nat (length (varint tag)) + ctype_size t in
  let size := i_buffer_end s - i_buffer s in
  let available := Z.min (rf_Capacity values - rf_size values) (Z.quot size per) in
  exists j s' values',
    (do (num_read, values) <- fixed_loop (read_from_array t) (Z.to_nat available) (i_mem s) (i_buffer s) tag 0 values;
     Ret (true, (if 0 <? num_read * per then (ci_Skip (num_read * per) s).2 else s), values)) = Ret (true, s', values') /\
    (j <= length vs)%nat /\
    adds (ctype_size t) (take j vs) (concat (field_bytes t n <$> take j vs)) s s' values values' /\
    (j = length vs \/ current_size values' = total_size values' \/ 2 ^ 14 <= tag \/ i_buffer_end s' - i_buffer s' < per).
Proof.
  intros Ht Hf Hv [Hn Hr] Ho tag per size available. pose proof (ctype_pos t) as Hct.
  destruct (buffer_law s (proj1 Hn)) as ((B1 & B2) & _ & _ & r & Br).
  assert (Hper : 0 < per) by (unfold per; lia).
  assert (Hq : Z.quot size per * per <= size) by (pose proof (Z.mul_quot_le size per); unfold size in *; lia).
  assert (Hav : available <= Z.quot size per /\ available <= total_size values - current_size values)
    by (unfold available, rf_Capacity, rf_size; lia).
  pose proof (fixed_ctype t Ht) as Hfc. pose proof Ho as (O1 & O2 & _).
  assert (0 <= Z.quot size per) by (apply Z.quot_pos; unfold size; lia).
  destruct (fixed_loop_spec t n (ctype_size t) vs rest (Z.to_nat available) (i_mem s) (i_buffer s)
    (bytes_at (i_mem s) (i_buffer s) (Z.to_nat size)) r 0 values Hct Ht Hv) as (j & values' & E & J1 & J2 & J3 & J4 & J5 & J6); try done.
  - unfold reads. by rewrite bytes_at_length.
  - destruct Hn as (_ & Hview & _). by rewrite <- Hview, Br.
  - rewrite bytes_at_length. apply Nat2Z.inj_le. rewrite Nat2Z.inj_mul, Nat2Z.inj_add, Hfc.
    fold tag. fold per. rewrite !Z2Nat.id by (unfold available, rf_Capacity, rf_size, size in *; lia). nia.
  - rewrite Z2Nat.id by (unfold available, rf_Capacity, rf_size in *; lia). lia.
  - fold tag in E. rewrite E. cbn [obind]. rewrite Z.add_0_l.
    pose proof (concat_length t n (take j vs) Ht) as Hcl. fold tag in Hcl. fold per in Hcl.
    rewrite length_take, Nat.min_l in Hcl by done.
    assert (Hfit : Z.of_nat j * per <= size) by (unfold available, rf_Capacity, rf_size, size in *; nia).
    assert (Hc : consumes (concat (field_bytes t n <$> take j vs)) s
      (if 0 <? Z.of_nat j * per then (ci_Skip (Z.of_nat j * per) s).2 else s)).
    { rewrite <- (take_drop j vs), fmap_app, concat_app in Hn. apply next_app in Hn.
      destruct (Z.ltb_spec 0 (Z.of_nat j * per)).
      - unfold ci_Skip. rewrite (proj2 (Z.ltb_ge _ 0)) by lia. rewrite buffer_size_ok by apply Hn.
        fold size. rewrite (proj2 (Z.leb_le _ _)) by lia. simpl. rewrite <- Hcl. by apply (read_advance _ _ s Hn); lia.
      - assert (concat (field_bytes t n <$> take j vs) = []) as -> by (apply length_zero_iff_nil; lia).
        apply consumes_refl, Hn. }
    exists j. eexists _, values'. split; [reflexivity|]. split; [done|]. split; [by split|].
    assert (Hcur : current_size values' = current_size values + Z.of_nat j).
    { pose proof (in_use_length (ctype_size t) values Ho) as L. pose proof (in_use_length (ctype_size t) values' J3) as L'.
      rewrite J4, length_app, length_fmap, length_take in L'. lia. }
    assert (Hleft : i_buffer_end (if 0 <? Z.of_nat j * per then (ci_Skip (Z.of_nat j * per) s).2 else s) -
      i_buffer (if 0 <? Z.of_nat j * per then (ci_Skip (Z.of_nat j * per) s).2 else s) = size - Z.of_nat j * per).
    { destruct (Z.ltb_spec 0 (Z.of_nat j * per)); [|unfold size; nia].
      unfold ci_Skip. rewrite (proj2 (Z.ltb_ge _ 0)) by lia. rewrite buffer_size_ok by apply Hn.
      fold size. rewrite (proj2 (Z.leb_le _ _)) by lia. unfold size. simpl. lia. }
    destruct J6 as [?|[Ej|?]]; [by left| |by right; right; left].
    assert (Ej' : Z.of_nat j = available) by (unfold available, rf_Capacity, rf_size, size in *; lia).
    unfold available, rf_Capacity, rf_size in Ej'.
    destruct (Z.min_spec (total_size values - current_size values) (Z.quot size per)) as [[_ Em]|[_ Em]]; rewrite Em in Ej'.
    + right. left. lia.
    + right. right. right. rewrite Hleft. pose proof (Z.quot_rem' size per). pose proof (Z.rem_bound_pos size per). unfold size in *. nia.
Qed.

Lemma ReadRepeated_first t n v vs rest s :
  sc_ok t v -> next (sc_bytes t v ++ concat (field_bytes t n <$> vs)) rest s ->
  (forall r, rest <> varint (MakeTag n (sc_wire t)) ++ r) ->
  exists s1, read_primitive t s = (Some v, s1) /\ consumes (sc_bytes t v) s s1 /\ elements_next t n vs rest s1.
Proof.
  intros Hv Hn Hr. destruct (read_primitive_spec t v _ s Hv (next_app _ _ _ _ Hn)) as (s1 & E & Hc).
  exists s1. split; [done|]. split; [done|]. split; [by eapply next_after|done].
Qed.

(** One element added to the field. *)
Lemma add_one (size_of : Z) v (values : RepeatedField Z) (n : Z) :
  0 < size_of -> rep_ok size_of values -> 0 < n -> current_size values + n <= int_max ->
  exists values', rf_Add size_of v values = Ret values' /\ rep_ok size_of values' /\
    in_use values' = in_use values ++ [Some v] /\ current_size values' + (n - 1) <= int_max.
Proof.
  intros Hsz Ho Hp Hn. destruct (rf_Add_spec size_of Hsz v values Ho ltac:(lia)) as (values' & E & (A1 & A2 & _) & _).
  exists values'. split_and!; try done. pose proof (in_use_length size_of values' A1) as Hl.
  rewrite A2, length_app, Nat2Z.inj_add, (in_use_length size_of) in Hl by done. simpl in Hl. lia.
Qed.

(** Why the reader of a repeated field stops after [j] more elements: there
    are no more, the array is full, or the fast path does not apply - the tag
    has more than two bytes, or the buffer ends within the next tag or, where
    the elements have a fixed size, within the next element. *)
Definition stops_for (t : scalar) (n : Z) (vs : list Z) (j : nat) s' (values' : RepeatedField Z) : Prop :=
  let tag := MakeTag n (sc_wire t) in
  j = length vs \/ current_size values' = total_size values' \/ 2 ^ 14 <= tag \/
  i_buffer_end s' - i_buffer s' < Z.of_nat (length (varint tag)) + (if decide (is_fixed t) then ctype_size t else 0).

(** Reading a repeated field whose tag was read: the first element and as many
    more as there is room for. *)
Lemma read_repeated_spec t n v vs rest s values :
  valid_field n -> Forall (sc_ok t) (v :: vs) -> rep_ok (ctype_size t) values -> current_size values + 1 <= int_max ->
  next (sc_bytes t v ++ concat (field_bytes t n <$> vs)) rest s ->
  (forall r, rest <> varint (MakeTag n (sc_wire t)) ++ r) ->
  let tag := MakeTag n (sc_wire t) in
  exists j s' values',
    read_repeated t (Z.of_nat (length (varint tag))) tag s values = Ret (true, s', values') /\ (j <= length vs)%nat /\
    adds (ctype_size t) (v :: take j vs) (sc_bytes t v ++ concat (field_bytes t n <$> take j vs)) s s' values values' /\
    stops_for t n vs j s' values'.
Proof.
  intros Hf Hv Ho Hsz Hn Hr tag. apply Forall_cons in Hv as [Hv Hvs]. pose proof (ctype_pos t) as Hct.
  destruct (ReadRepeated_first t n v vs rest s Hv Hn Hr) as (s1 & E1 & C1 & He).
  destruct (add_one (ctype_size t) v values 1 Hct Ho ltac:(lia) Hsz) as (values1 & E2 & O1 & U1 & _).
  assert (Hcombine : forall j s' values', adds (ctype_size t) (take j vs) (concat (field_bytes t n <$> take j vs)) s1 s' values1 values' ->
    adds (ctype_size t) (v :: take j vs) (sc_bytes t v ++ concat (field_bytes t n <$> take j vs)) s s' values values').
  { intros j s' values' (A1 & A2 & A3). split; [by eapply consumes_trans|]. split; [done|]. csimpl.
    by rewrite A3, U1, <- app_assoc. }
  pose proof O1 as (P1 & P2 & _).
  unfold read_repeated, ReadRepeatedFixedSizePrimitive, ReadRepeatedPrimitive. rewrite E1. destruct (decide (is_fixed t)) as [Ht|Ht].
  - rewrite E2. cbn [obind]. unfold GetDirectBufferPointerInline. change (i32 (i_buffer_end s1 - i_buffer s1)) with (ci_BufferSize s1).
    pose proof (proj1 (proj1 He)) as Hs1. rewrite buffer_size_ok by done.
    destruct (Z.ltb_spec 0 (i_buffer_end s1 - i_buffer s1)).
    + destruct (fixed_buffer_spec t n vs rest s1 values1 Ht Hf Hvs He O1) as (j & s' & values' & E & Hj & Ha & Hstop).
      exists j, s', values'. split; [exact E|]. split; [done|]. split; [by apply Hcombine|].
      unfold stops_for. by rewrite decide_True by done.
    + exists 0%nat, s1, values1. split; [done|]. split; [lia|]. split.
      * apply Hcombine. split; [by apply consumes_refl|]. split; [done|]. by rewrite app_nil_r.
      * right. right. right. rewrite decide_True by done. lia.
  - rewrite E2. cbn [obind]. unfold rf_Capacity, rf_size.
    destruct (reserved_loop_spec t n (ctype_size t) vs rest (Z.to_nat (total_size values1 - current_size values1)) s1 values1
      Hct Hf Hvs He O1 ltac:(lia)) as (j & s' & values' & E & Hj & Ha & Hstop).
    exists j, s', values'. split; [exact E|]. split; [done|]. split; [by apply Hcombine|].
    unfold stops_for. by rewrite decide_False, Z.add_0_r by done.
Qed.

(** *** Packed fields *)

Definition packed_elements (t : scalar) (vs : list Z) : bytes := concat (sc_bytes t <$> vs).

Lemma sc_bytes_nonempty t v : sc_ok t v -> (1 <= length (sc_bytes t v))%nat.
Proof.
  intros Hv. assert (Hvar : forall w, inU 64 w -> (1 <= length (varint w))%nat).
  { intros w Hw. pose proof (varint_size_bounds w Hw) as Hs. unfold varint_size in Hs. lia. }
  destruct t; cbn [sc_bytes sc_ok] in *; rewrite ?le_bytes_length; try lia; apply Hvar;
    first [done|by apply inU_32_64|apply wrapU_range; lia|idtac].
  - apply inU_32_64, ZigZagEncode_range; [lia|done].
  - apply ZigZagEncode_range; [lia|done].
  - unfold inU. lia.
Qed.

Lemma packed_length_ge t vs : Forall (sc_ok t) vs -> (length vs <= length (packed_elements t vs))%nat.
Proof.
  unfold packed_elements. induction 1 as [|v vs Hv Hvs IH]; csimpl; [lia|]. rewrite length_app.
  pose proof (sc_bytes_nonempty t v Hv). lia.
Qed.

(** Reading elements one by one. *)
Lemma counted_loop_spec t vs rest s values :
  Forall (sc_ok t) vs -> next (packed_elements t vs) rest s -> rep_ok (ctype_size t) values ->
  current_size values + Z.of_nat (length vs) <= int_max ->
  exists s' values', counted_loop (ctype_size t) (read_primitive t) (length vs) s values = Ret (true, s', values') /\
    adds (ctype_size t) vs (packed_elements t vs) s s' values values'.
Proof.
  intros Hv. revert s values. unfold packed_elements. induction Hv as [|v vs Hv Hvs IH]; intros s values Hn Ho Hsz; csimpl.
  - exists s, values. split; [done|]. split; [apply consumes_refl, Hn|]. split; [done|]. by rewrite app_nil_r.
  - cbn [length] in Hsz. csimpl in Hn. destruct (read_primitive_spec t v _ s Hv (next_app _ _ _ _ Hn)) as (s1 & -> & C1).
    destruct (add_one (ctype_size t) v values (Z.of_nat (S (length vs))) (ctype_pos t) Ho ltac:(lia) ltac:(lia))
      as (values1 & -> & O1 & U1 & Hsz1). cbn [obind].
    destruct (IH s1 values1 (next_after _ _ _ _ _ Hn C1) O1 ltac:(lia)) as (s' & values' & E & A1 & A2 & A3).
    exists s', values'. split; [done|]. split; [by eapply consumes_trans|]. split; [done|]. csimpl. by rewrite A3, U1, <- app_assoc.
Qed.

(** The loop to the limit reads the same elements. *)
Lemma packed_loop_counted t vs rest s values fuel :
  Forall (sc_ok t) vs -> next (packed_elements t vs) rest s -> rep_ok (ctype_size t) values ->
  current_size values + Z.of_nat (length vs) <= int_max ->
  until s = Z.of_nat (length (packed_elements t vs)) -> i_current_limit s < int_max -> (length vs < fuel)%nat ->
  packed_read_loop (ctype_size t) (read_primitive t) fuel s values =
  counted_loop (ctype_size t) (read_primitive t) (length vs) s values.
Proof.
  intros Hv. revert s values fuel. unfold packed_elements.
  induction Hv as [|v vs Hv Hvs IH]; intros s values fuel Hn Ho Hsz Hu Hlim Hfuel; (destruct fuel as [|fuel]; [lia|]);
    cbn [packed_read_loop counted_loop length]; csimpl in Hu; csimpl in Hn; rewrite until_law by (done || apply Hn).
  - by rewrite Hu.
  - rewrite length_app in Hu. pose proof (sc_bytes_nonempty t v Hv). rewrite (proj2 (Z.ltb_lt _ _)) by lia.
    cbn [length] in Hsz, Hfuel. destruct (read_primitive_spec t v _ s Hv (next_app _ _ _ _ Hn)) as (s1 & -> & C1).
    destruct (add_one (ctype_size t) v values (Z.of_nat (S (length vs))) (ctype_pos t) Ho ltac:(lia) ltac:(lia))
      as (values1 & -> & O1 & U1 & Hsz1). cbn [obind].
    destruct C1 as (D1 & D2 & D3 & D4 & D5).
    apply IH; try done; [by eapply next_after|lia|unfold until in *; rewrite D3, D4; lia|lia|lia].
Qed.

(** The same, whatever became of the marks. *)
Definition moves l s s' : Prop :=
  in_ok s' /\ view s = l ++ view s' /\ CurrentPosition s' = CurrentPosition s + Z.of_nat (length l) /\
  i_current_limit s' = i_current_limit s.

Lemma consumes_moves l s s' : consumes l s s' <-> moves l s s' /\ same_marks s s'.
Proof. unfold consumes, moves. tauto. Qed.

(** Under a pushed limit, and back. *)
Lemma limited l rest s :
  next l rest s -> Z.of_nat (length l) <= int_max -> CurrentPosition s + Z.of_nat (length l) < int_max ->
  exists old s1, ci_PushLimit (Z.of_nat (length l)) s = (old, s1) /\ next l rest s1 /\ same_marks s s1 /\
    until s1 = Z.of_nat (length l) /\ i_current_limit s1 < int_max /\
    forall s2, moves l s1 s2 -> moves l s (ci_PopLimit old s2) /\ same_marks s2 (ci_PopLimit old s2).
Proof.
  intros (Hs & Hv & Hu) Hl Hp. pose proof (push_law s (Z.of_nat (length l)) Hs ltac:(lia)) as Hpush.
  destruct (ci_PushLimit (Z.of_nat (length l)) s) as [old s1].
  destruct Hpush as (P1 & P2 & P3 & P4 & P5 & P6). exists old, s1. unfold until in *.
  rewrite Z.min_r in P5 by lia. rewrite P3, P5. split_and!; try done; [|lia|].
  { split; [done|]. split; [by rewrite P2|unfold until; lia]. }
  intros s2 (C1 & C2 & C3 & C4). destruct (P6 s2 C1 ltac:(congruence) ltac:(lia)) as (Q1 & Q2 & Q3 & Q4 & Q5).
  split; [|done]. unfold moves. split_and!; try done; [congruence|lia].
Qed.

Lemma varint_packed_spec t vs rest s values :
  Forall (sc_ok t) vs -> Z.of_nat (length (packed_elements t vs)) < 2 ^ 31 ->
  next (varint (Z.of_nat (length (packed_elements t vs))) ++ packed_elements t vs) rest s ->
  i_current_limit s <= int_max -> CurrentPosition s + 5 + Z.of_nat (length (packed_elements t vs)) < int_max ->
  rep_ok (ctype_size t) values -> current_size values + Z.of_nat (length vs) <= int_max ->
  exists s' values', ReadPackedPrimitive (ctype_size t) (read_primitive t) s values = Ret (true, s', values') /\
    adds (ctype_size t) vs (varint (Z.of_nat (length (packed_elements t vs))) ++ packed_elements t vs) s s' values values'.
Proof.
  intros Hv Hl Hn Hlim Hpos Ho Hsz. set (l := packed_elements t vs) in *.
  assert (Hu32 : inU 32 (Z.of_nat (length l))) by (unfold inU; lia).
  pose proof (varint_size_32 _ Hu32) as Hvs. unfold varint_size in Hvs.
  destruct (ReadVarintSizeAsInt_spec (Z.of_nat (length l)) _ s ltac:(lia) (next_app _ _ _ _ Hn)) as (s1 & E1 & C1).
  unfold ReadPackedPrimitive. rewrite E1. pose proof (next_after _ _ _ _ _ Hn C1) as Hn1.
  destruct C1 as (D1 & D2 & D3 & D4 & D5).
  destruct (limited l rest s1 Hn1 ltac:(unfold int_max; lia) ltac:(lia)) as (old & s2 & -> & Hn2 & M2 & U2 & L2 & Hpop).
  rewrite until_law by (done || apply Hn2). rewrite U2, Nat2Z.id.
  rewrite (packed_loop_counted t vs rest) by (try done; unfold l; pose proof (packed_length_ge t vs Hv); lia).
  destruct (counted_loop_spec t vs rest s2 values Hv Hn2 Ho Hsz) as (s3 & values' & -> & (A1 & A2 & A3)). cbn [obind].
  eexists _, values'. split; [reflexivity|]. split; [|by split].
  eapply consumes_trans; [exact (conj D1 (conj D2 (conj D3 (conj D4 D5))))|].
  apply consumes_moves in A1 as [A1 [B1 B2]]. destruct (Hpop s3 A1) as [P1 [P2 P3]], M2 as [M2 M3].
  apply consumes_moves. split; [exact P1|]. split; congruence.
Qed.

(** The conversion of a block of bytes to elements. *)
Definition as_ctype (t : scalar) (v : Z) : Z :=
  match t with S_SFixed32 => i32 v | S_SFixed64 => i64 v | _ => v end.

Lemma as_ctype_spec t v : is_fixed t -> sc_ok t v -> as_ctype t (le_value (sc_bytes t v)) = v.
Proof.
  unfold is_fixed. rewrite !elem_of_cons, elem_of_nil. intros Ht.
  repeat destruct Ht as [-> | Ht]; try done; cbn [sc_bytes sc_ok as_ctype]; intros Hv; rewrite le_value_bytes;
    try (by apply Z.mod_small).
  - change (256 ^ Z.of_nat 4) with (2 ^ 32). fold (wrapU 32 v). rewrite wrapS_wrapU by lia. by apply wrapS_id.
  - change (256 ^ Z.of_nat 8) with (2 ^ 64). fold (wrapU 64 v). rewrite wrapS_wrapU by lia. by apply wrapS_id.
Qed.

Lemma block_elements_spec t vs :
  is_fixed t -> Forall (sc_ok t) vs ->
  block_elements (ctype_size t) (as_ctype t) (length vs) (packed_elements t vs) = vs.
Proof.
  intros Ht. unfold packed_elements. induction 1 as [|v vs Hv Hvs IH]; [done|]. csimpl. cbn [block_elements].
  pose proof (fixed_length t v Ht) as Hl. pose proof (fixed_ctype t Ht) as Hc.
  rewrite take_app_length', drop_app_length' by lia. f_equal; [by apply as_ctype_spec|exact IH].
Qed.

Lemma packed_fixed_length t vs :
  is_fixed t -> Z.of_nat (length (packed_elements t vs)) = Z.of_nat (length vs) * ctype_size t.
Proof.
  intros Ht. unfold packed_elements. induction vs as [|v vs IH]; csimpl; [done|].
  rewrite length_app, Nat2Z.inj_add, IH, (fixed_length t v Ht), fixed_ctype by done. lia.
Qed.

(** Both paths give the elements, whatever the limits. *)
Lemma fixed_packed_spec t vs rest s values :
  is_fixed t -> Forall (sc_ok t) vs -> Z.of_nat (length (packed_elements t vs)) < 2 ^ 31 ->
  next (varint (Z.of_nat (length (packed_elements t vs))) ++ packed_elements t vs) rest s ->
  rep_ok (ctype_size t) values -> current_size values + Z.of_nat (length vs) <= int_max ->
  exists s' values', ReadPackedFixedSizePrimitive (ctype_size t) (read_primitive t) (as_ctype t) s values = Ret (true, s', values') /\
    adds (ctype_size t) vs (varint (Z.of_nat (length (packed_elements t vs))) ++ packed_elements t vs) s s' values values'.
Proof.
  intros Ht Hv Hl Hn Ho Hsz. pose proof (ctype_pos t) as Hct. pose proof (packed_fixed_length t vs Ht) as Hpl.
  set (l := packed_elements t vs) in *.
  destruct (ReadVarintSizeAsInt_spec (Z.of_nat (length l)) _ s ltac:(lia) (next_app _ _ _ _ Hn)) as (s1 & E1 & C1).
  unfold ReadPackedFixedSizePrimitive. rewrite E1. pose proof (next_after _ _ _ _ _ Hn C1) as Hn1.
  assert (Eq : Z.quot (Z.of_nat (length l)) (ctype_size t) = Z.of_nat (length vs)) by (rewrite Hpl; apply Z.quot_mul; lia).
  rewrite Eq, <- Hpl, Z.eqb_refl. cbn [negb]. rewrite Nat2Z.id.
  pose proof (in_use_length (ctype_size t) values Ho) as Hul. pose proof Ho as (O1 & O2 & _).
  destruct (Z.of_nat (length l) <=? _).
  - unfold rf_size. rewrite int_add_Ret by done. cbn [obind].
    destruct (rf_Resize_spec (ctype_size t) Hct (current_size values + Z.of_nat (length vs)) 0 values Ho ltac:(lia))
      as (v1 & -> & (R1 & R2 & _)). cbn [obind].
    rewrite take_ge in R2 by lia.
    replace (Z.to_nat (current_size values + Z.of_nat (length vs)) - length (in_use values))%nat with (length vs) in R2 by lia.
    pose proof (raw_in_law s1 l rest Hn1) as Hraw. destruct (ci_ReadRaw (Z.of_nat (length l)) s1) as [r s2].
    destruct Hraw as [-> C2]. unfold l. rewrite block_elements_spec by done. fold l.
    pose proof (in_use_length (ctype_size t) v1 R1) as Hl1.
    rewrite R2, length_app, length_replicate, Nat2Z.inj_add, Hul in Hl1.
    destruct (write_spec (ctype_size t) Hct (current_size values) (Some <$> vs) v1 R1 ltac:(lia)) as (v2 & E2 & (W1 & W2 & _) & _).
    { rewrite length_fmap. lia. }
    rewrite E2. cbn [obind]. exists s2, v2. split; [done|]. split; [by eapply consumes_trans|]. split; [done|].
    rewrite W2, R2. replace (Z.to_nat (current_size values)) with (length (in_use values) + 0)%nat by lia.
    rewrite list_inserts_app_r. f_equal. rewrite <- (app_nil_r (replicate _ _)).
    rewrite list_inserts_0_r by (by rewrite length_fmap, length_replicate). by rewrite app_nil_r.
  - destruct (counted_loop_spec t vs rest s1 values Hv Hn1 Ho Hsz) as (s2 & v2 & -> & (A1 & A2 & A3)).
    exists s2, v2. split; [done|]. split; [by eapply consumes_trans|]. by split.
Qed.

(** C28: what the writers of [WireFormatLite] put on the wire the readers of
    [CodedInputStream] give back, wherever the buffer of the stream ends and
    under any limit the bytes respect: every scalar of every type; a repeated
    field, whose first element is read and then more of them one by one, up to
    the last one or until the array is full, unless the tag has more than two
    bytes or the buffer ends within the next element, where the reader leaves
    the rest to its caller; a packed field, by the loop to the limit or as a
    block, on the pre-allocating and on the careful path.  Exactly the bytes of
    the elements returned are consumed and the limit is as before. *)
Theorem fields_read_back t n v vs rest s values :
  valid_field n -> Forall (sc_ok t) (v :: vs) -> rep_ok (ctype_size t) values ->
  current_size values + Z.of_nat (length (v :: vs)) <= int_max ->
  (next (sc_bytes t v) rest s ->
   exists s', read_primitive t s = (Some v, s') /\ consumes (sc_bytes t v) s s') /\
  (next (sc_bytes t v ++ concat (field_bytes t n <$> vs)) rest s ->
   (forall r, rest <> varint (MakeTag n (sc_wire t)) ++ r) ->
   exists j s' values',
     read_repeated t (Z.of_nat (length (varint (MakeTag n (sc_wire t))))) (MakeTag n (sc_wire t)) s values =
       Ret (true, s', values') /\ (j <= length vs)%nat /\
     adds (ctype_size t) (v :: take j vs) (sc_bytes t v ++ concat (field_bytes t n <$> take j vs)) s s' values values' /\
     stops_for t n vs j s' values') /\
  (let l := packed_elements t (v :: vs) in
   Z.of_nat (length l) < 2 ^ 31 -> next (varint (Z.of_nat (length l)) ++ l) rest s ->
   i_current_limit s <= int_max -> CurrentPosition s + 5 + Z.of_nat (length l) < int_max ->
   exists s' values',
     (if decide (is_fixed t)
      then ReadPackedFixedSizePrimitive (ctype_size t) (read_primitive t) (as_ctype t) s values
      else ReadPackedPrimitive (ctype_size t) (read_primitive t) s values) = Ret (true, s', values') /\
     adds (ctype_size t) (v :: vs) (varint (Z.of_nat (length l)) ++ l) s s' values values').
Proof.
  intros Hf Hv Ho Hsz. cbn [length] in Hsz. pose proof Hv as Hv'. apply Forall_cons in Hv' as [Hv1 Hvs]. split_and!.
  - by apply read_primitive_spec.
  - intros Hn Hr. apply (read_repeated_spec t n v vs rest); try done. lia.
  - intros l Hl Hn Hlim Hpos. destruct (decide (is_fixed t)) as [Ht|Ht].
    + by apply (fixed_packed_spec t (v :: vs) rest).
    + by apply (varint_packed_spec t (v :: vs) rest).
Qed.

(** *** Messages and groups *)

Lemma set_budget_ok b r s : in_ok s -> in_ok (set_budget b r s) /\ view (set_budget b r s) = view s.
Proof. intros Hs. by apply marks_law. Qed.

(** An embedded message is read by its own parser under a limit that is
    its length and with one level of recursion less; when the parser reads the
    whole of it, the message is accepted, the limit and the recursion budget
    are as before and the stream stands behind it.  With no recursion budget
    left the parser is not called and the message is refused. *)
Lemma message_read {M : Type} (merge : CodedIn St -> M -> bool * CodedIn St * M) (parse : M -> M) l rest s value :
  Z.of_nat (length l) < 2 ^ 31 -> next (varint (Z.of_nat (length l)) ++ l) rest s ->
  CurrentPosition s + 5 + Z.of_nat (length l) < int_max ->
  0 <= i_recursion_budget s < 2 ^ 31 ->
  (forall s1, next l rest s1 -> until s1 = Z.of_nat (length l) -> i_recursion_budget s1 = i_recursion_budget s - 1 ->
     exists s2, merge s1 value = (true, s2, parse value) /\ consumes l s1 s2 /\ ConsumedEntireMessage s2 = true) ->
  exists s',
    if i_recursion_budget s =? 0 then ci_ReadMessage merge s value = (false, s', value)
    else ci_ReadMessage merge s value = (true, s', parse value) /\
      consumes (varint (Z.of_nat (length l)) ++ l) s s'.
Proof.
  intros Hl Hn Hpos Hb Hmerge.
  assert (Hu32 : inU 32 (Z.of_nat (length l))) by (unfold inU; lia).
  pose proof (varint_size_32 _ Hu32) as Hvs. unfold varint_size in Hvs.
  destruct (ReadVarintSizeAsInt_spec (Z.of_nat (length l)) _ s ltac:(lia) (next_app _ _ _ _ Hn)) as (s1 & E1 & C1).
  pose proof (next_after _ _ _ _ _ Hn C1) as Hn1. pose proof C1 as (_ & _ & D3 & _ & D5 & D6).
  destruct (limited l rest s1 Hn1 ltac:(unfold int_max; lia) ltac:(lia)) as (old & s2 & E2 & Hn2 & [M2 M3] & U2 & L2 & Hpop).
  unfold ci_ReadMessage. rewrite E1, increment_law, E2. cbn [i_recursion_budget set_budget set_marks].
  rewrite M2, D5, (wrapS_id 32) by (lia || unfold inS; lia).
  set (s3 := set_budget (i_recursion_budget s - 1) (i_recursion_limit s2) s2).
  destruct (Z.eqb_spec (i_recursion_budget s) 0) as [E0|Hne].
  { exists s3. by rewrite (proj2 (Z.ltb_lt _ _)) by lia. }
  rewrite (proj2 (Z.ltb_ge _ _)) by lia. destruct Hn2 as (N1 & N2 & N3).
  destruct (set_budget_ok (i_recursion_budget s - 1) (i_recursion_limit s2) s2 N1) as [S1 S2]. fold s3 in S1, S2.
  destruct (Hmerge s3) as (s4 & -> & C4 & Hend).
  { split; [done|]. split; [by rewrite S2|exact N3]. }
  { exact U2. }
  { done. }
  cbn [negb]. rewrite decrement_law, Hend.
  apply consumes_moves in C4 as [(F1 & F2 & F3 & F4) [F5 F6]].
  cbn [i_recursion_budget i_recursion_limit s3 set_budget set_marks] in F5, F6.
  destruct (Hpop s4) as [(P1 & P2 & P3 & P4) [P5 P6]].
  { split; [done|]. split; [by rewrite <- F2, S2|]. by split. }
  eexists. split; [reflexivity|]. eapply consumes_trans; [exact C1|].
  destruct (set_budget_ok (i32 (i_recursion_budget (ci_PopLimit old s4) + 1)) (i_recursion_limit (ci_PopLimit old s4)) _ P1) as [R1 R2].
  unfold UnsafeDecrementRecursionDepth. apply consumes_moves. split.
  - split; [done|]. split; [by rewrite R2|]. by split.
  - split; cbn [i_recursion_budget i_recursion_limit set_budget set_marks]; [|congruence].
    rewrite P5, F5, wrapS_id by (lia || unfold inS; lia). lia.
Qed.

(** A group is read up to its end tag, which is compared; the recursion budget
    is given back. *)
Lemma group_read {M : Type} (merge : CodedIn St -> M -> bool * CodedIn St * M) n s s1 s2 value value' :
  0 <= i_recursion_budget s < 2 ^ 31 ->
  s1 = set_budget (i_recursion_budget s - 1) (i_recursion_limit s) s ->
  merge s1 value = (true, s2, value') -> same_marks s1 s2 ->
  exists s', ci_ReadGroup merge n s value =
    (if i_recursion_budget s =? 0 then (false, s1, value)
     else (i_last_tag s2 =? MakeTag n WIRETYPE_END_GROUP, s', value')) /\ (0 < i_recursion_budget s -> same_marks s s').
Proof.
  intros Hb Es1 Em [M1 M2]. exists (UnsafeDecrementRecursionDepth s2).
  assert (Ei : IncrementRecursionDepth s = (0 <=? i_recursion_budget s - 1, s1)).
  { unfold IncrementRecursionDepth. rewrite wrapS_id by (lia || unfold inS; lia). by rewrite Es1. }
  unfold ci_ReadGroup. rewrite Ei. split.
  - destruct (Z.eqb_spec (i_recursion_budget s) 0) as [E0|Hne]; [by rewrite E0|].
    rewrite (proj2 (Z.leb_le _ _)) by lia. cbn [negb]. rewrite Em. cbn [negb].
    unfold LastTagWas. change (i_last_tag (UnsafeDecrementRecursionDepth s2)) with (i_last_tag s2).
    by destruct (i_last_tag s2 =? _).
  - intros Hp. rewrite Es1 in M1, M2. cbn in M1, M2. unfold same_marks, UnsafeDecrementRecursionDepth. cbn.
    rewrite M1, wrapS_id by (lia || unfold inS; lia). split; [lia|done].
Qed.

(** *** Message set items *)

Lemma set_tags :
  kMessageSetTypeIdTag = 16 /\ kMessageSetMessageTag = 26 /\ kMessageSetItemEndTag = 12.
Proof. by split_and!. Qed.

Lemma read_tag_next tag l rest s :
  inU 32 tag -> next (varint tag ++ l) rest s ->
  exists s', ReadTagNoLastTag s = (tag, s') /\ consumes (varint tag) s s' /\ next l rest s'.
Proof.
  intros Ht Hn. destruct (ReadTagNoLastTag_spec tag _ s Ht (next_app _ _ _ _ Hn)) as (s' & E & Hc).
  exists s'. split; [done|]. split; [done|]. by eapply next_after.
Qed.

Lemma read_varint32_next v l rest s :
  inU 32 v -> next (varint v ++ l) rest s ->
  exists s', ci_ReadVarint32 s = (Some v, s') /\ consumes (varint v) s s' /\ next l rest s'.
Proof.
  intros Hv Hn. destruct (ci_ReadVarint32_spec v _ s (inU_32_64 _ Hv) (next_app _ _ _ _ Hn)) as (s' & E & Hc).
  rewrite wrapU_id in E by done. exists s'. split; [done|]. split; [done|]. by eapply next_after.
Qed.

Section items.
Context {Ms : Type} (ParseField SkipField : Z -> CodedIn St -> Ms -> bool * CodedIn St * Ms) (data_at default_limit : Z).
Local Abbreviation step := (item_step ParseField SkipField data_at default_limit).

Lemma tags_32 : inU 32 kMessageSetTypeIdTag /\ inU 32 kMessageSetMessageTag /\ inU 32 kMessageSetItemEndTag.
Proof. destruct set_tags as (-> & -> & ->). unfold inU. lia. Qed.

(** The rounds, by tag and state. *)
Lemma read_type tid l rest s :
  inU 32 tid -> next (varint kMessageSetTypeIdTag ++ varint tid ++ l) rest s ->
  exists s1 s', ReadTagNoLastTag s = (kMessageSetTypeIdTag, s1) /\ ci_ReadVarint32 s1 = (Some tid, s') /\
    consumes (varint kMessageSetTypeIdTag ++ varint tid) s s' /\ next l rest s'.
Proof.
  intros Ht Hn. destruct (read_tag_next _ _ _ s (proj1 tags_32) Hn) as (s1 & E1 & C1 & N1).
  destruct (read_varint32_next tid _ _ s1 Ht N1) as (s2 & E2 & C2 & N2).
  exists s1, s2. split_and!; try done. by eapply consumes_trans.
Qed.

Lemma step_type tid l rest s ms t :
  inU 32 tid -> tid <> 0 -> it_state t = kNoTag -> next (varint kMessageSetTypeIdTag ++ varint tid ++ l) rest s ->
  exists s', step t s ms = (Continue (mkItem tid (it_data t) kHasType), s', ms) /\
    consumes (varint kMessageSetTypeIdTag ++ varint tid) s s' /\ next l rest s'.
Proof.
  intros Ht Hne Hst Hn. destruct (read_type tid l rest s Ht Hn) as (s1 & s2 & E1 & E2 & C2 & N2).
  exists s2. split; [|by split]. unfold item_step. rewrite E1, E2, Hst, Z.eqb_refl.
  change (kMessageSetTypeIdTag =? 0) with false. cbv iota. by rewrite (proj2 (Z.eqb_neq tid 0)).
Qed.

Lemma step_end rest s ms t :
  next (varint kMessageSetItemEndTag) rest s ->
  exists s', step t s ms = (Return true, s', ms) /\ consumes (varint kMessageSetItemEndTag) s s'.
Proof.
  intros Hn. rewrite <- (app_nil_r (varint _)) in Hn.
  destruct (read_tag_next _ _ _ s (proj2 (proj2 tags_32)) Hn) as (s1 & E1 & C1 & _).
  exists s1. split; [|done]. unfold item_step. rewrite E1. change (kMessageSetItemEndTag =? 0) with false.
  change (kMessageSetItemEndTag =? kMessageSetTypeIdTag) with false.
  change (kMessageSetItemEndTag =? kMessageSetMessageTag) with false. by rewrite Z.eqb_refl.
Qed.
Context (p : bytes) (field : Z -> Ms -> Ms).

(** The payload with its length, which is what a field of the set reads. *)
Definition payload : bytes := varint (Z.of_nat (length p)) ++ p.
Definition parses_payload : Prop :=
  forall tid s ms rest, next payload rest s ->
    exists s', ParseField tid s ms = (true, s', field tid ms) /\ consumes payload s s'.

Context (Hp : Z.of_nat (length p) < 2 ^ 31 - 16) (Hbytes : Forall is_byte p).

Lemma step_payload l rest s ms t :
  parses_payload -> it_state t = kHasType -> next (varint kMessageSetMessageTag ++ payload ++ l) rest s ->
  exists s', step t s ms = (Continue (mkItem (it_type t) (it_data t) kDone), s', field (it_type t) ms) /\
    consumes (varint kMessageSetMessageTag ++ payload) s s' /\ next l rest s'.
Proof.
  intros Hparse Hst Hn. destruct (read_tag_next _ _ _ s (proj1 (proj2 tags_32)) Hn) as (s1 & E1 & C1 & N1).
  destruct (Hparse (it_type t) s1 ms _ (next_app _ _ _ _ N1)) as (s2 & E2 & C2).
  exists s2. split; [|split; [by eapply consumes_trans|by eapply next_after]].
  unfold item_step. rewrite E1, Hst, E2. change (kMessageSetMessageTag =? 0) with false.
  by change (kMessageSetMessageTag =? kMessageSetTypeIdTag) with false.
Qed.

Lemma payload_length : Z.of_nat (length payload) = VarintSize32 (Z.of_nat (length p)) + Z.of_nat (length p) /\
  VarintSize32 (Z.of_nat (length p)) <= 5.
Proof.
  assert (Hu : inU 32 (Z.of_nat (length p))) by (unfold inU; lia).
  rewrite (proj1 (VarintSize32_spec _ Hu)). pose proof (varint_size_32 _ Hu). unfold payload, varint_size in *.
  rewrite length_app. lia.
Qed.

(** A payload that comes first is kept with its length. *)
Lemma step_stash l rest s ms t :
  it_state t = kNoTag -> next (varint kMessageSetMessageTag ++ payload ++ l) rest s ->
  exists s', step t s ms = (Continue (mkItem (it_type t) payload kHasPayload), s', ms) /\
    consumes (varint kMessageSetMessageTag ++ payload) s s' /\ next l rest s'.
Proof.
  intros Hst Hn. destruct (read_tag_next _ _ _ s (proj1 (proj2 tags_32)) Hn) as (s1 & E1 & C1 & N1).
  assert (Hu : inU 32 (Z.of_nat (length p))) by (unfold inU; lia).
  unfold payload in N1. rewrite <- app_assoc in N1.
  destruct (read_varint32_next _ _ _ s1 Hu N1) as (s2 & E2 & C2 & N2).
  pose proof (raw_in_law s2 p _ (next_app _ _ _ _ N2)) as Hraw.
  destruct (ci_ReadRaw (Z.of_nat (length p)) s2) as [r s3] eqn:E3. destruct Hraw as [-> C3].
  exists s3. split; [|split; [eapply consumes_trans; [exact C1|]; by eapply consumes_trans|by eapply next_after]].
  unfold item_step. rewrite E1, Hst. change (kMessageSetMessageTag =? 0) with false.
  change (kMessageSetMessageTag =? kMessageSetTypeIdTag) with false. rewrite Z.eqb_refl. cbv iota.
  rewrite E2, (wrapS_id 32) by (lia || unfold inS; lia). rewrite (proj2 (Z.ltb_ge _ 0)) by lia. rewrite E3.
  destruct payload_length as [L1 L2].
  rewrite wrapU_id by (unfold inU; pose proof (VarintSize32_spec _ Hu); lia).
  unfold WriteVarint32ToArray, memcpy_advance. rewrite UnsafeVarint_spec by (by apply inU_32_64).
  rewrite <- pokes_app. fold payload. rewrite (Z.add_comm (Z.of_nat (length p))), <- L1, Nat2Z.id.
  by rewrite (pokes_read payload (mkCursor data_at ∅)).
Qed.

(** Then the type identifier has it parsed, from a stream of its own. *)
Lemma step_late tid l rest s ms t :
  parses_payload -> inU 32 tid -> tid <> 0 -> it_state t = kHasPayload -> it_data t = payload ->
  next (varint kMessageSetTypeIdTag ++ varint tid ++ l) rest s ->
  exists s', step t s ms = (Continue (mkItem (it_type t) [] kDone), s', field tid ms) /\
    consumes (varint kMessageSetTypeIdTag ++ varint tid) s s' /\ next l rest s'.
Proof.
  intros Hparse Ht Hne Hst Hd Hn. destruct (read_type tid l rest s Ht Hn) as (s1 & s2 & E1 & E2 & C2 & N2).
  exists s2. split; [|by split]. destruct payload_length as [L1 L2].
  set (m := mem (pokes payload (mkCursor data_at ∅))).
  set (sub := SetRecursionLimit (RecursionBudget s2)
    (CodedInputStream_flat data_at (Z.of_nat (length payload)) default_limit m) : CodedIn St).
  assert (Hsub : next payload [] sub).
  { assert (Hm : mem_ok m).
    { apply pokes_ok; [|exact empty_ok]. unfold payload. apply Forall_app. split; [|done].
      apply varint_bytes_byte. lia. }
    destruct (flat_law m data_at (Z.of_nat (length payload)) default_limit Hm ltac:(unfold int_max; lia)) as [F1 F2].
    destruct (set_budget_ok (i32 (default_limit + i32 (RecursionBudget s2 - default_limit))) (RecursionBudget s2) _ F1) as [S1 S2].
    destruct (buffer_law _ S1) as (_ & _ & Hu & _).
    split; [exact S1|]. split.
    - rewrite app_nil_r. unfold sub, SetRecursionLimit. cbn [i_recursion_budget i_recursion_limit CodedInputStream_flat].
      rewrite S2, F2, Nat2Z.id. exact (pokes_read payload (mkCursor data_at ∅)).
    - change (data_at + Z.of_nat (length payload) - data_at <= until sub) in Hu. lia. }
  destruct (Hparse tid sub ms [] Hsub) as (s3 & E3 & _).
  unfold item_step. rewrite E1, E2, Hst, Hd, Z.eqb_refl. change (kMessageSetTypeIdTag =? 0) with false. cbv iota.
  rewrite (proj2 (Z.eqb_neq tid 0)) by done. rewrite (wrapS_id 32) by (lia || unfold inS; lia).
  fold m. fold sub. by rewrite E3.
Qed.
End items.

(** An item of a message set is understood in both orders: whether the
    type identifier or the payload comes first, the payload is parsed once, as
    a field of that type - from the stream, or from the copy that was kept
    with its length - and the stream ends behind the end tag.  A stream that
    ends inside the item is refused. *)
Lemma item_either_order {Ms : Type} (ParseField SkipField : Z -> CodedIn St -> Ms -> bool * CodedIn St * Ms)
    data_at default_limit p field tid rest s ms fuel :
  Z.of_nat (length p) < 2 ^ 31 - 16 -> Forall is_byte p -> parses_payload ParseField p field ->
  inU 32 tid -> tid <> 0 -> (3 <= fuel)%nat ->
  let parse := ParseMessageSetItemImpl ParseField SkipField data_at default_limit fuel s ms in
  let type_first := (varint kMessageSetTypeIdTag ++ varint tid) ++ (varint kMessageSetMessageTag ++ payload p) in
  let payload_first := (varint kMessageSetMessageTag ++ payload p) ++ (varint kMessageSetTypeIdTag ++ varint tid) in
  (forall order, order = type_first \/ order = payload_first ->
   next (order ++ varint kMessageSetItemEndTag) rest s ->
   exists s', parse = Some (true, s', field tid ms) /\ consumes (order ++ varint kMessageSetItemEndTag) s s') /\
  (in_ok s -> view s = [] -> exists s', parse = Some (false, s', ms)).
Proof.
  intros Hp Hb Hparse Ht Hne Hfuel parse type_first payload_first. split.
  - destruct fuel as [|[|[|fuel]]]; [lia..|]. intros order [-> | ->] Hn; unfold parse, ParseMessageSetItemImpl; cbn [item_loop].
    + unfold type_first in *. rewrite <- !app_assoc in Hn.
      destruct (step_type ParseField SkipField data_at default_limit tid _ rest s ms (mkItem 0 [] kNoTag) Ht Hne eq_refl Hn)
        as (s1 & -> & C1 & N1). cbn [it_data it_type item_loop].
      destruct (step_payload ParseField SkipField data_at default_limit p field _ rest s1 ms (mkItem tid [] kHasType) Hparse eq_refl N1)
        as (s2 & -> & C2 & N2). cbn [it_data it_type item_loop].
      destruct (step_end ParseField SkipField data_at default_limit rest s2 (field tid ms) (mkItem tid [] kDone) N2) as (s3 & -> & C3).
      exists s3. split; [done|]. eapply consumes_trans; [|exact C3]. by eapply consumes_trans.
    + unfold payload_first in *. rewrite <- !app_assoc in Hn.
      destruct (step_stash ParseField SkipField data_at default_limit p Hp _ rest s ms (mkItem 0 [] kNoTag) eq_refl Hn)
        as (s1 & -> & C1 & N1). cbn [it_data it_type item_loop].
      destruct (step_late ParseField SkipField data_at default_limit p field Hp Hb tid _ rest s1 ms
        (mkItem 0 (payload p) kHasPayload) Hparse Ht Hne eq_refl eq_refl N1) as (s2 & -> & C2 & N2). cbn [it_data it_type item_loop].
      destruct (step_end ParseField SkipField data_at default_limit rest s2 (field tid ms) (mkItem 0 [] kDone) N2) as (s3 & -> & C3).
      exists s3. split; [done|]. eapply consumes_trans; [|exact C3]. by eapply consumes_trans.
  - intros Hs Hv. destruct fuel as [|fuel]; [lia|]. unfold parse, ParseMessageSetItemImpl. cbn [item_loop].
    destruct (buffer_law s Hs) as ((B1 & _) & _ & _ & r & Br). rewrite Hv in Br.
    assert (Hempty : i_buffer_end s <= i_buffer s).
    { symmetry in Br. apply app_eq_nil in Br as [Br _]. apply (f_equal length) in Br. rewrite bytes_at_length in Br. simpl in Br. lia. }
    pose proof (tag_end_law s Hs (or_introl Hv)) as Hend. destruct (ci_ReadTagFallback 0 s) as [r0 s'] eqn:E. destruct Hend as [-> _].
    exists s'. unfold item_step, ReadTagNoLastTag. rewrite (proj2 (Z.ltb_ge _ _)) by lia. cbn [andb]. by rewrite E.
Qed.
End in_facts.

(** ** A flat stream *)

(** A stream over an array: the limit moves the end of the buffer, and a
    reader outside the buffer finds what is left of it. *)
Module Toy_in.
Implicit Types (s : CodedIn unit).

Definition hidden (limit : Z) s : Z := Z.max 0 (i_total_bytes_read s - limit).
(** Bytes in the buffer or behind the limit. *)
Definition left_over s : Z := i_buffer_end s - i_buffer s + i_buffer_size_after_limit s.
Definition set_limit (limit : Z) s : CodedIn unit :=
  mkIn (i_buffer s) (i_buffer_end s + i_buffer_size_after_limit s - hidden limit s) (i_input s) (i_total_bytes_read s)
    (i_overflow_bytes s) (i_last_tag s) (i_legitimate_message_end s) (i_aliasing_enabled s) limit (hidden limit s)
    (i_total_bytes_limit s) (i_recursion_budget s) (i_recursion_limit s) (i_extension_pool s) (i_extension_factory s)
    (i_mem s).

Definition buffer_bytes s : bytes := bytes_at (i_mem s) (i_buffer s) (Z.to_nat (i_buffer_end s - i_buffer s)).

(** A decoder gives a value and the number of bytes it takes. *)
Definition decode {A} (dec : bytes -> option (A * nat)) (failure : A) s : A * CodedIn unit :=
  match dec (buffer_bytes s) with
  | Some (v, n) => (v, Advance (Z.of_nat n) s)
  | None => (failure, s)
  end.
Fixpoint dec_varint (fuel : nat) (l : bytes) : option (Z * nat) :=
  match fuel, l with
  | S fuel, b :: l =>
      if b <? 128 then Some (b, 1%nat)
      else match dec_varint fuel l with Some (v, n) => Some (b - 128 + 128 * v, S n) | None => None end
  | _, _ => None
  end.
Definition mapped {A B} (f : A -> B) (r : option (A * nat)) : option (B * nat) :=
  match r with Some (v, n) => Some (f v, n) | None => None end.
Definition dec_block (n : nat) (l : bytes) : option (bytes * nat) :=
  if (n <=? length l)%nat then Some (take n l, n) else None.

Definition push (n : Z) s : Z * CodedIn unit :=
  (i_current_limit s, set_limit (Z.min (i_current_limit s) (CurrentPosition s + n)) s).

#[global] Instance toy_in : InFallbacks unit := {|
  ci_Refresh s := (false, s);
  ci_SkipFallback _ _ s := (false, s);
  ReadVarint32Fallback _ := decode (fun l => mapped (wrapU 32) (dec_varint 10 l)) (-1);
  ReadVarint64Fallback := decode (fun l => mapped (fun v => (v, true)) (dec_varint 10 l)) (0, false);
  ReadVarintSizeAsIntFallback := decode (fun l => mapped (fun v => if v <? 2 ^ 31 then v else -1) (dec_varint 10 l)) (-1);
  ReadLittleEndian32Fallback := decode (fun l => mapped (fun b => Some (le_value b)) (dec_block 4 l)) None;
  ReadLittleEndian64Fallback := decode (fun l => mapped (fun b => Some (le_value b)) (dec_block 8 l)) None;
  ci_ReadTagFallback _ := decode (fun l => mapped (wrapU 32) (dec_varint 10 l)) 0;
  ci_ReadRaw n := decode (fun l => mapped Some (dec_block (Z.to_nat n) l)) None;
  ci_ReadCord n := decode (fun l => mapped Some (dec_block (Z.to_nat n) l)) None;
  ci_PushLimit := push;
  ci_PopLimit := set_limit;
  ci_BytesUntilLimit s := if i_current_limit s =? int_max then -1 else i_current_limit s - CurrentPosition s;
  BytesUntilTotalBytesLimit _ := -1;
  IncrementRecursionDepthAndPushLimit n s :=
    let '(old, s') := push n s in
    let s' := set_budget (i32 (i_recursion_budget s' - 1)) (i_recursion_limit s') s' in
    (old, i_recursion_budget s', s');
  DecrementRecursionDepthAndPopLimit limit s :=
    (ConsumedEntireMessage s, UnsafeDecrementRecursionDepth (set_limit limit s));
|}.

Definition toy_ok s : Prop :=
  mem_ok (i_mem s) /\ 0 <= i_buffer_end s - i_buffer s /\ left_over s <= i_total_bytes_read s <= int_max /\
  i_buffer_size_after_limit s = hidden (i_current_limit s) s.
Definition toy_view s : bytes := bytes_at (i_mem s) (i_buffer s) (Z.to_nat (left_over s)).

Lemma position_ok s : toy_ok s -> CurrentPosition s = i_total_bytes_read s - left_over s /\
  0 <= i_buffer_size_after_limit s /\ i_buffer_end s - i_buffer s <= until s /\
  (i_buffer_size_after_limit s = 0 \/ until s = i_buffer_end s - i_buffer s).
Proof.
  intros (Hm & Hb & Hl & Ha). unfold hidden, left_over, int_max in *.
  assert (Hp : CurrentPosition s = i_total_bytes_read s - left_over s).
  { unfold CurrentPosition, ci_BufferSize, left_over.
    rewrite (wrapS_id 32 (i_buffer_end s - i_buffer s)) by (lia || unfold inS; lia).
    rewrite (wrapS_id 32 (_ + _)) by (lia || unfold inS; lia). by rewrite wrapS_id by (lia || unfold inS; lia). }
  unfold until. rewrite Hp. unfold left_over. split_and!; lia.
Qed.

(** What comes next lies in the buffer. *)
Lemma next_in_buffer l rest s :
  toy_ok s -> toy_view s = l ++ rest -> Z.of_nat (length l) <= until s ->
  exists r, buffer_bytes s = l ++ r /\ Z.of_nat (length l) <= i_buffer_end s - i_buffer s.
Proof.
  intros Hs Hv Hu. destruct (position_ok s Hs) as (_ & Ha & _ & Hor). destruct Hs as (Hm & Hb & Hl & _).
  unfold toy_view, left_over in *.
  assert (Hle : Z.of_nat (length l) <= i_buffer_end s - i_buffer s).
  { destruct Hor as [E|]; [|lia]. apply (f_equal length) in Hv. rewrite bytes_at_length, length_app in Hv. lia. }
  exists (drop (length l) (buffer_bytes s)). split; [|done]. unfold buffer_bytes.
  rewrite <- (take_drop (length l) (bytes_at _ _ _)) at 1. f_equal.
  apply (f_equal (take (length l))) in Hv. rewrite take_app_length in Hv. rewrite <- Hv at 2.
  replace (Z.to_nat (i_buffer_end s - i_buffer s + i_buffer_size_after_limit s))
    with (Z.to_nat (i_buffer_end s - i_buffer s) + Z.to_nat (i_buffer_size_after_limit s))%nat by lia.
  rewrite bytes_at_app, take_app_le; [done|]. rewrite bytes_at_length. lia.
Qed.

Definition toy_consumes (l : bytes) s s' : Prop :=
  toy_ok s' /\ toy_view s = l ++ toy_view s' /\ CurrentPosition s' = CurrentPosition s + Z.of_nat (length l) /\
  i_current_limit s' = i_current_limit s /\ same_marks s s'.

Lemma advance_ok n s :
  toy_ok s -> 0 <= n <= i_buffer_end s - i_buffer s ->
  toy_consumes (bytes_at (i_mem s) (i_buffer s) (Z.to_nat n)) s (Advance n s).
Proof.
  intros Hs Hn. destruct (position_ok s Hs) as (Hp & Ha & _). pose proof Hs as (Hm & Hb & Hl & Hh).
  assert (Hs' : toy_ok (Advance n s)).
  { unfold toy_ok, left_over, hidden in *. simpl. split_and!; try done; lia. }
  destruct (position_ok _ Hs') as (Hp' & _). unfold left_over in *. simpl in Hp'.
  unfold toy_consumes, same_marks. rewrite bytes_at_length. split_and!; try done; [|lia].
  unfold toy_view, left_over. simpl.
  replace (Z.to_nat (i_buffer_end s - i_buffer s + i_buffer_size_after_limit s))
    with (Z.to_nat n + Z.to_nat (i_buffer_end s - (i_buffer s + n) + i_buffer_size_after_limit s))%nat by lia.
  rewrite bytes_at_app. by rewrite Z2Nat.id by lia.
Qed.

(** A decoder that knows what comes next. *)
Lemma decode_ok {A} (dec : bytes -> option (A * nat)) failure v l rest s :
  toy_ok s -> toy_view s = l ++ rest -> Z.of_nat (length l) <= until s ->
  (forall r, dec (l ++ r) = Some (v, length l)) ->
  exists s', decode dec failure s = (v, s') /\ toy_consumes l s s'.
Proof.
  intros Hs Hv Hu Hd. destruct (next_in_buffer l rest s Hs Hv Hu) as (r & Hr & Hle).
  unfold decode. rewrite Hr, Hd. exists (Advance (Z.of_nat (length l)) s). split; [done|].
  pose proof (advance_ok (Z.of_nat (length l)) s Hs ltac:(lia)) as Ha. rewrite Nat2Z.id in Ha.
  assert (El : bytes_at (i_mem s) (i_buffer s) (length l) = l).
  { unfold buffer_bytes in Hr. apply (f_equal (take (length l))) in Hr. rewrite take_app_length in Hr.
    replace (Z.to_nat (i_buffer_end s - i_buffer s))
      with (length l + Z.to_nat (i_buffer_end s - i_buffer s - Z.of_nat (length l)))%nat in Hr by lia.
    rewrite bytes_at_app, take_app_length' in Hr; [done|]. by rewrite bytes_at_length. }
  by rewrite El in Ha.
Qed.

Lemma dec_varint_ok n v r :
  (1 <= n)%nat -> 0 <= v < 128 ^ Z.of_nat n -> dec_varint n (varint_bytes n v ++ r) = Some (v, length (varint_bytes n v)).
Proof.
  revert v. induction n as [|n IH]; intros v Hn Hv; [lia|]. cbn [varint_bytes dec_varint].
  destruct (Z.ltb_spec v 128) as [Hlt|Hge]; cbn [app].
  - by rewrite (proj2 (Z.ltb_lt _ _)).
  - pose proof (Z.mod_pos_bound v 128 ltac:(lia)). rewrite (proj2 (Z.ltb_ge _ _)) by lia.
    rewrite pow128 in Hv. destruct n as [|n]; [simpl in Hv; lia|].
    rewrite IH; [|lia|split; [apply Z.div_pos; lia|apply Z.div_lt_upper_bound; lia]].
    f_equal. f_equal. pose proof (Z.div_mod v 128 ltac:(lia)). lia.
Qed.

Lemma varint_ok v r : inU 64 v -> dec_varint 10 (varint v ++ r) = Some (v, length (varint v)).
Proof. intros Hv. apply dec_varint_ok; [lia|by apply u64_128]. Qed.

Lemma dec_block_ok n l r : length l = n -> dec_block n (l ++ r) = Some (l, length l).
Proof.
  intros <-. unfold dec_block. rewrite length_app.
  rewrite (proj2 (Nat.leb_le _ _)) by lia. by rewrite take_app_length.
Qed.

Lemma set_limit_ok limit s :
  toy_ok s -> CurrentPosition s <= limit ->
  toy_ok (set_limit limit s) /\ toy_view (set_limit limit s) = toy_view s /\
  CurrentPosition (set_limit limit s) = CurrentPosition s.
Proof.
  intros Hs Hl. destruct (position_ok s Hs) as (Hp & Ha & _). pose proof Hs as (Hm & Hb & Ht & Hh).
  assert (El : left_over (set_limit limit s) = left_over s) by (unfold left_over; simpl; lia).
  assert (Hs' : toy_ok (set_limit limit s)).
  { unfold toy_ok. rewrite El. simpl. unfold hidden, left_over in *. split_and!; (done || lia). }
  destruct (position_ok _ Hs') as (Hp' & _). split_and!; [done| |rewrite Hp', El; simpl; lia].
  unfold toy_view. by rewrite El.
Qed.

Ltac decoded := eapply decode_ok; [eassumption..|intros r].
Ltac finish Hx := let s' := fresh "s" in let E := fresh "E" in let C := fresh "C" in
  destruct Hx as (s' & E & C); cbn [toy_in ReadVarint32Fallback ReadVarint64Fallback ReadVarintSizeAsIntFallback
    ReadLittleEndian32Fallback ReadLittleEndian64Fallback ci_ReadTagFallback ci_ReadRaw]; rewrite E; repeat (split; [reflexivity|]); exact C.

#[global] Program Instance toy_in_laws : InFallbackLaws unit := {| in_ok := toy_ok; view := toy_view |}.
Next Obligation. intros s tag legit budget limit pool factory Hs. by split. Qed.
Next Obligation.
  intros s Hs. destruct (position_ok s Hs) as (_ & Ha & Hu & _). destruct Hs as (Hm & Hb & Hl & _).
  unfold left_over in *. split; [lia|]. split; [done|]. split; [done|].
  exists (bytes_at (i_mem s) (i_buffer s + (i_buffer_end s - i_buffer s)) (Z.to_nat (i_buffer_size_after_limit s))).
  unfold toy_view, left_over. rewrite Z2Nat.inj_add by lia. rewrite bytes_at_app. by rewrite Z2Nat.id by lia.
Qed.
Next Obligation. intros s n Hs Hn. by apply advance_ok. Qed.
Next Obligation.
  intros s v rest Hv (Hs & Hw & Hu) _.
  assert (Hx : exists s', decode (fun l => mapped (wrapU 32) (dec_varint 10 l)) (-1) s = (u32 v, s') /\ toy_consumes (varint v) s s')
    by (decoded; by rewrite varint_ok).
  finish Hx.
Qed.
Next Obligation.
  intros s v rest Hv (Hs & Hw & Hu) _.
  assert (Hx : exists s', decode (fun l => mapped (fun v => (v, true)) (dec_varint 10 l)) (0, false) s = ((v, true), s') /\
    toy_consumes (varint v) s s') by (decoded; by rewrite varint_ok).
  finish Hx.
Qed.
Next Obligation.
  intros s v rest Hv (Hs & Hw & Hu) _.
  assert (Hx : exists s', decode (fun l => mapped (fun v => if v <? 2 ^ 31 then v else -1) (dec_varint 10 l)) (-1) s = (v, s') /\
    toy_consumes (varint v) s s').
  { decoded. rewrite varint_ok by (unfold inU; lia). cbn [mapped]. by rewrite (proj2 (Z.ltb_lt _ _)) by lia. }
  finish Hx.
Qed.
Next Obligation.
  intros s v rest Hv (Hs & Hw & Hu).
  assert (Hx : exists s', decode (fun l => mapped (fun b => Some (le_value b)) (dec_block 4 l)) None s = (Some v, s') /\
    toy_consumes (le_bytes 4 v) s s').
  { decoded. rewrite dec_block_ok by apply le_bytes_length. cbn [mapped]. by rewrite le_roundtrip. }
  finish Hx.
Qed.
Next Obligation.
  intros s v rest Hv (Hs & Hw & Hu).
  assert (Hx : exists s', decode (fun l => mapped (fun b => Some (le_value b)) (dec_block 8 l)) None s = (Some v, s') /\
    toy_consumes (le_bytes 8 v) s s').
  { decoded. rewrite dec_block_ok by apply le_bytes_length. cbn [mapped]. by rewrite le_roundtrip. }
  finish Hx.
Qed.
Next Obligation.
  intros s v rest Hv (Hs & Hw & Hu) _.
  assert (Hx : exists s', decode (fun l => mapped (wrapU 32) (dec_varint 10 l)) 0 s = (v, s') /\ toy_consumes (varint v) s s').
  { decoded. rewrite varint_ok by (by apply inU_32_64). cbn [mapped]. by rewrite wrapU_id. }
  finish Hx.
Qed.
Next Obligation.
  intros s Hs Hv. destruct (position_ok s Hs) as (Hp & Ha & Hu & _). pose proof Hs as (Hm & Hb & Hl & _).
  assert (E : i_buffer_end s - i_buffer s = 0).
  { destruct Hv as [Hv|Hv]; [|lia]. unfold toy_view in Hv. apply (f_equal length) in Hv. rewrite bytes_at_length in Hv.
    unfold left_over in Hv. simpl in Hv. lia. }
  cbn. unfold decode, buffer_bytes. rewrite E. cbn. split; [done|].
  unfold same_marks. simpl. split_and!; try done. lia.
Qed.
Next Obligation.
  intros s l rest (Hs & Hw & Hu).
  assert (Hx : exists s', decode (fun b => mapped Some (dec_block (Z.to_nat (Z.of_nat (length l))) b)) None s = (Some l, s') /\
    toy_consumes l s s') by (decoded; by rewrite dec_block_ok by lia).
  finish Hx.
Qed.
Next Obligation.
  intros s n Hs Hn. cbn. destruct (position_ok s Hs) as (Hp & Ha & Hu & _). pose proof Hs as (Hm & Hb & Hl & Hh).
  unfold until in Hu. destruct (set_limit_ok (Z.min (i_current_limit s) (CurrentPosition s + n)) s Hs ltac:(lia)) as (L1 & L2 & L3).
  split_and!; try done. intros s2 Hs2 El Hpos. cbn in El.
  destruct (set_limit_ok (i_current_limit s) s2 Hs2 ltac:(lia)) as (R1 & R2 & R3). by split_and!.
Qed.
Next Obligation. intros s Hs Hl. cbn. by rewrite (proj2 (Z.eqb_neq _ _)) by lia. Qed.
Next Obligation. intros s n. done. Qed.
Next Obligation. intros s limit. done. Qed.
Next Obligation.
  intros m buffer size default_limit Hm Hs. unfold toy_ok, toy_view, left_over, hidden. cbn. split.
  - split_and!; try done; lia.
  - f_equal. lia.
Qed.

(** A flat stream over the bytes [l]. *)
Definition stream_of (l : bytes) : CodedIn unit :=
  CodedInputStream_flat 64 (Z.of_nat (length l)) 100 (mem (pokes l (mkCursor 64 ∅))).

Lemma stream_next l rest :
  Forall is_byte (l ++ rest) -> Z.of_nat (length (l ++ rest)) <= int_max -> next l rest (stream_of (l ++ rest)).
Proof.
  intros Hb Hl. assert (Hm : mem_ok (mem (pokes (l ++ rest) (mkCursor 64 ∅)))) by (by apply pokes_ok, empty_ok).
  destruct (flat_law _ 64 (Z.of_nat (length (l ++ rest))) 100 Hm ltac:(lia)) as [F1 F2].
  destruct (position_ok _ F1) as (_ & _ & Hu & _).
  split; [exact F1|]. unfold stream_of. split.
  - rewrite F2, Nat2Z.id. exact (pokes_read (l ++ rest) (mkCursor 64 ∅)).
  - cbn in Hu. rewrite length_app in *. etrans; [|exact Hu]. lia.
Qed.

Lemma bytes_ok (l : bytes) : forallb (fun b => (0 <=? b) && (b <? 256)) l = true -> Forall is_byte l.
Proof. rewrite forallb_forall, Forall_forall. intros Hl b Hb. apply list_elem_of_In, Hl in Hb. unfold is_byte. lia. Qed.

(** A message is a list of numbers; its parser reads one more. *)
Definition merge_one (s : CodedIn unit) (m : list Z) : bool * CodedIn unit * list Z :=
  match ci_ReadVarint32 s with
  | (Some v, s) => (true, SetConsumed s, m ++ [v])
  | (None, s) => (false, s, m)
  end.

Lemma merge_one_ok m rest (s1 : CodedIn unit) :
  next (varint 300) rest s1 ->
  exists s2, merge_one s1 m = (true, s2, m ++ [300]) /\ consumes (varint 300) s1 s2 /\ ConsumedEntireMessage s2 = true.
Proof.
  intros Hn. destruct (ci_ReadVarint32_spec 300 rest s1 ltac:(unfold inU; lia) Hn) as (s2 & E & (C1 & C2 & C3 & C4 & C5)).
  unfold merge_one. rewrite E. exists (SetConsumed s2). split; [done|]. split; [|done].
  destruct (marks_law s2 (i_last_tag s2) true (i_recursion_budget s2) (i_recursion_limit s2) (i_extension_pool s2)
    (i_extension_factory s2) C1) as [M1 M2].
  split; [exact M1|]. split; [by rewrite C2; f_equal|]. by split_and!.
Qed.

(** A message set is a list of types and payloads. *)
Definition parse_field (tid : Z) (s : CodedIn unit) (ms : list (Z * bytes)) : bool * CodedIn unit * list (Z * bytes) :=
  match ReadVarintSizeAsInt s with
  | (Some n, s) =>
      match ci_ReadRaw n s with
      | (Some raw, s) => (true, s, ms ++ [(tid, raw)])
      | (None, s) => (false, s, ms)
      end
  | (None, s) => (false, s, ms)
  end.
Definition skip_field (tag : Z) (s : CodedIn unit) (ms : list (Z * bytes)) : bool * CodedIn unit * list (Z * bytes) :=
  (false, s, ms).

Lemma parse_field_ok : parses_payload parse_field [1; 2; 3] (fun tid ms => ms ++ [(tid, [1; 2; 3])]).
Proof.
  intros tid s ms rest Hn. unfold payload in *.
  destruct (ReadVarintSizeAsInt_spec 3 _ s ltac:(lia) (next_app _ _ _ _ Hn)) as (s1 & E1 & C1).
  pose proof (raw_in_law s1 [1; 2; 3] rest (next_after _ _ _ _ _ Hn C1)) as Hraw.
  unfold parse_field. rewrite E1. change (Z.of_nat (length [1; 2; 3])) with 3 in *.
  destruct (ci_ReadRaw 3 s1) as [r s2]. destruct Hraw as [-> C2]. exists s2. split; [done|]. by eapply consumes_trans.
Qed.

Definition repeated_wire : bytes := [5; 8; 6].
Definition message_wire : bytes := [2; 172; 2].
Definition item_wire : bytes := [26; 3; 1; 2; 3; 16; 9; 12].
End Toy_in.

Lemma fields_read_back_witness :
  exists j s' values',
    read_repeated S_Int32 1 8 (Toy_in.stream_of (Toy_in.repeated_wire ++ [0])) (RepeatedField_new None) = Ret (true, s', values') /\
    (j <= 1)%nat /\
    adds 4 (5 :: take j [6]) (5 :: concat (field_bytes S_Int32 1 <$> take j [6]))
      (Toy_in.stream_of (Toy_in.repeated_wire ++ [0])) s' (RepeatedField_new None) values' /\
    stops_for S_Int32 1 [6] j s' values'.
Proof.
  exact (proj1 (proj2 (fields_read_back S_Int32 1 5 [6] [0] (Toy_in.stream_of (Toy_in.repeated_wire ++ [0]))
    (RepeatedField_new None)
    ltac:(unfold valid_field; lia) ltac:(rewrite !Forall_cons; unfold sc_ok, inS; split_and!; try lia; by constructor)
    ltac:(by apply new_ok) ltac:(vm_compute; discriminate)))
    (Toy_in.stream_next Toy_in.repeated_wire [0] ltac:(by apply Toy_in.bytes_ok) ltac:(vm_compute; discriminate))
    ltac:(discriminate)).
Defined.

Lemma message_read_witness :
  exists s', ci_ReadMessage Toy_in.merge_one (Toy_in.stream_of (Toy_in.message_wire ++ [])) [7] = (true, s', [7; 300]) /\
    consumes Toy_in.message_wire (Toy_in.stream_of (Toy_in.message_wire ++ [])) s'.
Proof.
  exact (message_read Toy_in.merge_one (fun m => m ++ [300]) (varint 300) []
    (Toy_in.stream_of (Toy_in.message_wire ++ [])) [7]
    ltac:(reflexivity) (Toy_in.stream_next Toy_in.message_wire [] ltac:(by apply Toy_in.bytes_ok) ltac:(vm_compute; discriminate))
    ltac:(vm_compute; reflexivity) ltac:(split; [vm_compute; discriminate|vm_compute; reflexivity])
    (fun s1 Hn _ _ => Toy_in.merge_one_ok [7] [] s1 Hn)).
Defined.

Lemma item_either_order_witness :
  exists s', ParseMessageSetItemImpl Toy_in.parse_field Toy_in.skip_field 8192 100 3
      (Toy_in.stream_of (Toy_in.item_wire ++ [])) [] = Some (true, s', [(9, [1; 2; 3])]) /\
    consumes Toy_in.item_wire (Toy_in.stream_of (Toy_in.item_wire ++ [])) s'.
Proof.
  exact (proj1 (item_either_order Toy_in.parse_field Toy_in.skip_field 8192 100 [1; 2; 3]
    (fun tid ms => ms ++ [(tid, [1; 2; 3])]) 9 [] (Toy_in.stream_of (Toy_in.item_wire ++ [])) [] 3
    ltac:(reflexivity) ltac:(by apply Toy_in.bytes_ok) Toy_in.parse_field_ok ltac:(unfold inU; lia) ltac:(lia) ltac:(lia))
    _ (or_intror eq_refl)
    (Toy_in.stream_next Toy_in.item_wire [] ltac:(by apply Toy_in.bytes_ok) ltac:(vm_compute; discriminate))).
Defined.
