(* ===== verification/TableParser.v ===== *)
(** * The table-driven parser of a message
    ([google/protobuf/generated_message_tctable_decl.h],
    [generated_message_tctable_impl.h]; closed enums: [parse_context.h])

    The packed entries of the parse tables, the choice of an entry from the
    two bytes of a tag, the presence bits carried from field to field, the
    fallback for unknown fields, and the parser of packed closed enums.  The
    functions of the table ([FastV32S1] and the others) are defined elsewhere:
    they are a type [F] with a meaning. *)

From Stdlib Require Import Lia String.
From S2P Require Import Prelude Bytes Bits Varint VarintRead WireFormat ParseCtx RepeatedField Metadata HasBits.
Local Open Scope Z_scope.
Local Open Scope list_scope.

(** ** Entries: [TcFieldData], a [uint64_t] *)

Definition TcFieldData : Type := Z.

Definition TcFieldData_fast (coded_tag hasbit_idx aux_idx offset : Z) : TcFieldData :=
  Z.lor (Z.lor (Z.lor (shlU 64 offset 48) (shlU 64 aux_idx 24)) (shlU 64 hasbit_idx 16)) coded_tag.
Definition TcFieldData_nonfield (coded_tag nonfield_info : Z) : TcFieldData := Z.lor (shlU 64 nonfield_info 16) coded_tag.

(** [TagType] has [w] bits. *)
Definition coded_tag (w : Z) (data : TcFieldData) : Z := wrapU w data.
Definition hasbit_idx (data : TcFieldData) : Z := u8 (Z.shiftr data 16).
Definition aux_idx (data : TcFieldData) : Z := u8 (Z.shiftr data 24).
Definition td_offset (data : TcFieldData) : Z := u16 (Z.shiftr data 48).
Definition decoded_tag (data : TcFieldData) : Z := u16 (Z.shiftr data 16).
Definition td_tag (data : TcFieldData) : Z := u32 data.
Definition entry_offset (data : TcFieldData) : Z := u32 (Z.shiftr data 32).

(** ** Type cards of map entries *)

Inductive CppType := kBool | k32 | k64 | kString | kMessage.
Definition CppType_value (t : CppType) : Z :=
  match t with kBool => 0 | k32 => 1 | k64 => 2 | kString => 3 | kMessage => 4 end.

Definition MapTypeCard : Type := Z.

Definition MapTypeCard_new (wiretype : WireType) (cpp_type : CppType) (is_zigzag_utf8 is_signed : bool) : MapTypeCard :=
  u8 (Z.lor (Z.lor (Z.lor (Z.shiftl (WireType_value wiretype) 0) (Z.shiftl (CppType_value cpp_type) 3))
                   (Z.shiftl (Z.b2z is_zigzag_utf8) 6))
            (Z.shiftl (Z.b2z is_signed) 7)).

Definition card_wiretype (data : MapTypeCard) : Z := Z.land (Z.shiftr data 0) 0x7.
Definition card_cpp_type (data : MapTypeCard) : Z := Z.land (Z.shiftr data 3) 0x7.
Definition card_is_signed (data : MapTypeCard) : bool := negb (Z.shiftr data 7 =? 0).
Definition card_is_zigzag_utf8 (data : MapTypeCard) : bool := negb (Z.land (Z.shiftr data 6) 0x1 =? 0).
Definition card_is_zigzag (data : MapTypeCard) : bool := card_is_zigzag_utf8 data.
Definition card_is_utf8 (data : MapTypeCard) : bool := card_is_zigzag_utf8 data.

(** A group is no map entry: the compiler may assume there is none. *)
Definition MakeMapTypeCard (type : FieldType) : outcome MapTypeCard :=
  match type with
  | TYPE_FLOAT => Ret (MapTypeCard_new WIRETYPE_FIXED32 k32 false true)
  | TYPE_FIXED32 => Ret (MapTypeCard_new WIRETYPE_FIXED32 k32 false false)
  | TYPE_SFIXED32 => Ret (MapTypeCard_new WIRETYPE_FIXED32 k32 false true)
  | TYPE_DOUBLE => Ret (MapTypeCard_new WIRETYPE_FIXED64 k64 false true)
  | TYPE_FIXED64 => Ret (MapTypeCard_new WIRETYPE_FIXED64 k64 false false)
  | TYPE_SFIXED64 => Ret (MapTypeCard_new WIRETYPE_FIXED64 k64 false true)
  | TYPE_BOOL => Ret (MapTypeCard_new WIRETYPE_VARINT kBool false false)
  | TYPE_ENUM => Ret (MapTypeCard_new WIRETYPE_VARINT k32 false true)
  | TYPE_INT32 => Ret (MapTypeCard_new WIRETYPE_VARINT k32 false true)
  | TYPE_UINT32 => Ret (MapTypeCard_new WIRETYPE_VARINT k32 false false)
  | TYPE_INT64 => Ret (MapTypeCard_new WIRETYPE_VARINT k64 false true)
  | TYPE_UINT64 => Ret (MapTypeCard_new WIRETYPE_VARINT k64 false false)
  | TYPE_SINT32 => Ret (MapTypeCard_new WIRETYPE_VARINT k32 true true)
  | TYPE_SINT64 => Ret (MapTypeCard_new WIRETYPE_VARINT k64 true true)
  | TYPE_STRING => Ret (MapTypeCard_new WIRETYPE_LENGTH_DELIMITED kString true false)
  | TYPE_BYTES => Ret (MapTypeCard_new WIRETYPE_LENGTH_DELIMITED kString false false)
  | TYPE_MESSAGE => Ret (MapTypeCard_new WIRETYPE_LENGTH_DELIMITED kMessage false false)
  | TYPE_GROUP => UB
  end.

Record MapAuxInfo := mkMapAux {
  key_type_card : MapTypeCard;
  value_type_card : MapTypeCard;
  is_supported : bool;
  use_lite : bool;
  fail_on_utf8_failure : bool;
  log_debug_utf8_failure : bool;
  value_is_validated_enum : bool;
  node_size_info : Z;
}.

(** [lite]: the map field is no [MapFieldBaseForParse]. *)
Definition GetMapAuxInfo (lite : bool) (size_info : Z) (fail_utf8 log_utf8 validated_enum_value : bool)
    (key_type value_type : FieldType) : outcome MapAuxInfo :=
  do k <- MakeMapTypeCard key_type;
  do v <- MakeMapTypeCard value_type;
  Ret (mkMapAux k v true lite fail_utf8 log_utf8 validated_enum_value size_info).

(** ** Type cards of fields: [field_layout] *)

Module field_layout.
Definition mask (bits shift : Z) : Z := Z.shiftl (Z.shiftl 1 bits - 1) shift.

Definition kFkShift : Z := 0.
Definition kFkBits : Z := 3.
Definition kFkMask : Z := mask kFkBits kFkShift.
Inductive FieldKind := kFkNone | kFkVarint | kFkPackedVarint | kFkFixed | kFkPackedFixed | kFkString | kFkMessage | kFkMap.
Definition kind_value (k : FieldKind) : Z :=
  match k with
  | kFkNone => 0 | kFkVarint => 1 | kFkPackedVarint => 2 | kFkFixed => 3
  | kFkPackedFixed => 4 | kFkString => 5 | kFkMessage => 6 | kFkMap => 7
  end.

Definition kSplitShift : Z := kFkShift + kFkBits.
Definition kSplitBits : Z := 1.
Definition kSplitMask : Z := mask kSplitBits kSplitShift.
Inductive FieldSplit := kSplitFalse | kSplitTrue.
Definition split_value (s : FieldSplit) : Z :=
  match s with kSplitFalse => 0 | kSplitTrue => Z.shiftl 1 kSplitShift end.

Definition kFcShift : Z := kSplitShift + kSplitBits.
Definition kFcBits : Z := 2.
Definition kFcMask : Z := mask kFcBits kFcShift.
Inductive Cardinality := kFcSingular | kFcOptional | kFcRepeated | kFcOneof.
Definition cardinality_value (c : Cardinality) : Z :=
  match c with
  | kFcSingular => 0 | kFcOptional => Z.shiftl 1 kFcShift
  | kFcRepeated => Z.shiftl 2 kFcShift | kFcOneof => Z.shiftl 3 kFcShift
  end.

(** Enumerators with one value for several purposes. *)
Definition kRepShift : Z := kFcShift + kFcBits.
Definition kRepBits : Z := 3.
Definition kRepMask : Z := mask kRepBits kRepShift.
Inductive FieldRep :=
| kRep8Bits | kRep32Bits | kRep64Bits | kRepAString | kRepIString | kRepCord | kRepSPiece | kRepSString
| kRepMessage | kRepGroup | kRepLazy.
Definition rep_value (r : FieldRep) : Z :=
  match r with
  | kRep8Bits | kRepAString | kRepMessage => 0
  | kRepIString | kRepGroup => Z.shiftl 1 kRepShift
  | kRep32Bits | kRepCord | kRepLazy => Z.shiftl 2 kRepShift
  | kRep64Bits | kRepSPiece => Z.shiftl 3 kRepShift
  | kRepSString => Z.shiftl 4 kRepShift
  end.

Definition kTvShift : Z := kRepShift + kRepBits.
Definition kTvBits : Z := 2.
Definition kTvMask : Z := mask kTvBits kTvShift.
Inductive TransformValidation :=
| kTvZigZag | kTvEnum | kTvRange | kTvUtf8Debug | kTvUtf8 | kTvDefault | kTvTable | kTvWeakPtr | kTvEager | kTvLazy.
Definition tv_value (t : TransformValidation) : Z :=
  match t with
  | kTvZigZag | kTvUtf8Debug | kTvDefault | kTvEager => Z.shiftl 1 kTvShift
  | kTvEnum | kTvUtf8 | kTvTable | kTvLazy => Z.shiftl 2 kTvShift
  | kTvRange | kTvWeakPtr => Z.shiftl 3 kTvShift
  end.

Definition kFmtShift : Z := kTvShift + kTvBits.
Definition kFmtBits : Z := 2.
Definition kFmtMask : Z := mask kFmtBits kFmtShift.
Inductive FormatDiscriminator :=
| kFmtUnsigned | kFmtSigned | kFmtFloating | kFmtEnum | kFmtUtf8 | kFmtUtf8Escape | kFmtArray | kFmtShow.
Definition fmt_value (f : FormatDiscriminator) : Z :=
  match f with
  | kFmtUnsigned | kFmtUtf8 | kFmtArray | kFmtShow => Z.shiftl 1 kFmtShift
  | kFmtSigned | kFmtUtf8Escape => Z.shiftl 2 kFmtShift
  | kFmtFloating | kFmtEnum => Z.shiftl 3 kFmtShift
  end.

(** [0 | kind | rep | fmt | tv], what is absent being 0. *)
Definition ored (k : FieldKind) (rep fmt tv : Z) : Z := Z.lor (Z.lor (Z.lor (kind_value k) rep) fmt) tv.
Inductive fl_FieldType :=
| kBool | kFixed32 | kUInt32 | kSFixed32 | kInt32 | kSInt32 | kFloat | kEnum
| kEnumRange | kOpenEnum | kFixed64 | kUInt64 | kSFixed64 | kInt64 | kSInt64 | kDouble
| kPackedBool | kPackedFixed32 | kPackedUInt32 | kPackedSFixed32 | kPackedInt32 | kPackedSInt32 | kPackedFloat | kPackedEnum
| kPackedEnumRange | kPackedOpenEnum | kPackedFixed64 | kPackedUInt64 | kPackedSFixed64 | kPackedInt64 | kPackedSInt64 | kPackedDouble
| kBytes | kRawString | kUtf8String | kMessage | kMap.
Definition fl_value (t : fl_FieldType) : Z :=
  match t with
  | kBool => ored kFkVarint (rep_value kRep8Bits) 0 0
  | kFixed32 => ored kFkFixed (rep_value kRep32Bits) (fmt_value kFmtUnsigned) 0
  | kUInt32 => ored kFkVarint (rep_value kRep32Bits) (fmt_value kFmtUnsigned) 0
  | kSFixed32 => ored kFkFixed (rep_value kRep32Bits) (fmt_value kFmtSigned) 0
  | kInt32 => ored kFkVarint (rep_value kRep32Bits) (fmt_value kFmtSigned) 0
  | kSInt32 => ored kFkVarint (rep_value kRep32Bits) (fmt_value kFmtSigned) (tv_value kTvZigZag)
  | kFloat => ored kFkFixed (rep_value kRep32Bits) (fmt_value kFmtFloating) 0
  | kEnum => ored kFkVarint (rep_value kRep32Bits) (fmt_value kFmtEnum) (tv_value kTvEnum)
  | kEnumRange => ored kFkVarint (rep_value kRep32Bits) (fmt_value kFmtEnum) (tv_value kTvRange)
  | kOpenEnum => ored kFkVarint (rep_value kRep32Bits) (fmt_value kFmtEnum) 0
  | kFixed64 => ored kFkFixed (rep_value kRep64Bits) (fmt_value kFmtUnsigned) 0
  | kUInt64 => ored kFkVarint (rep_value kRep64Bits) (fmt_value kFmtUnsigned) 0
  | kSFixed64 => ored kFkFixed (rep_value kRep64Bits) (fmt_value kFmtSigned) 0
  | kInt64 => ored kFkVarint (rep_value kRep64Bits) (fmt_value kFmtSigned) 0
  | kSInt64 => ored kFkVarint (rep_value kRep64Bits) (fmt_value kFmtSigned) (tv_value kTvZigZag)
  | kDouble => ored kFkFixed (rep_value kRep64Bits) (fmt_value kFmtFloating) 0
  | kPackedBool => ored kFkPackedVarint (rep_value kRep8Bits) 0 0
  | kPackedFixed32 => ored kFkPackedFixed (rep_value kRep32Bits) (fmt_value kFmtUnsigned) 0
  | kPackedUInt32 => ored kFkPackedVarint (rep_value kRep32Bits) (fmt_value kFmtUnsigned) 0
  | kPackedSFixed32 => ored kFkPackedFixed (rep_value kRep32Bits) (fmt_value kFmtSigned) 0
  | kPackedInt32 => ored kFkPackedVarint (rep_value kRep32Bits) (fmt_value kFmtSigned) 0
  | kPackedSInt32 => ored kFkPackedVarint (rep_value kRep32Bits) (fmt_value kFmtSigned) (tv_value kTvZigZag)
  | kPackedFloat => ored kFkPackedFixed (rep_value kRep32Bits) (fmt_value kFmtFloating) 0
  | kPackedEnum => ored kFkPackedVarint (rep_value kRep32Bits) (fmt_value kFmtEnum) (tv_value kTvEnum)
  | kPackedEnumRange => ored kFkPackedVarint (rep_value kRep32Bits) (fmt_value kFmtEnum) (tv_value kTvRange)
  | kPackedOpenEnum => ored kFkPackedVarint (rep_value kRep32Bits) (fmt_value kFmtEnum) 0
  | kPackedFixed64 => ored kFkPackedFixed (rep_value kRep64Bits) (fmt_value kFmtUnsigned) 0
  | kPackedUInt64 => ored kFkPackedVarint (rep_value kRep64Bits) (fmt_value kFmtUnsigned) 0
  | kPackedSFixed64 => ored kFkPackedFixed (rep_value kRep64Bits) (fmt_value kFmtSigned) 0
  | kPackedInt64 => ored kFkPackedVarint (rep_value kRep64Bits) (fmt_value kFmtSigned) 0
  | kPackedSInt64 => ored kFkPackedVarint (rep_value kRep64Bits) (fmt_value kFmtSigned) (tv_value kTvZigZag)
  | kPackedDouble => ored kFkPackedFixed (rep_value kRep64Bits) (fmt_value kFmtFloating) 0
  | kBytes => ored kFkString 0 (fmt_value kFmtArray) 0
  | kRawString => ored kFkString 0 (fmt_value kFmtUtf8) (tv_value kTvUtf8Debug)
  | kUtf8String => ored kFkString 0 (fmt_value kFmtUtf8) (tv_value kTvUtf8)
  | kMessage => ored kFkMessage 0 0 0
  | kMap => ored kFkMap 0 0 0
  end.
End field_layout.

(** ** The table *)

(** [TcParseTableBase]; the fast entries lie behind it, each a function with
    its bits. *)
Record TcParseTable (F : Type) := mkTable {
  has_bits_offset : Z;
  extension_offset : Z;
  max_field_number : Z;
  fast_idx_mask : Z;
  lookup_table_offset : Z;
  skipmap32 : Z;
  field_entries_offset : Z;
  num_field_entries : Z;
  num_aux_entries : Z;
  aux_offset : Z;
  default_instance : Z;
  fallback : F;
  fast_entries : list (F * TcFieldData);
}.
Arguments mkTable {F} _ _ _ _ _ _ _ _ _ _ _ _ _.
Arguments has_bits_offset {F} _.
Arguments extension_offset {F} _.
Arguments max_field_number {F} _.
Arguments fast_idx_mask {F} _.
Arguments lookup_table_offset {F} _.
Arguments skipmap32 {F} _.
Arguments field_entries_offset {F} _.
Arguments num_field_entries {F} _.
Arguments num_aux_entries {F} _.
Arguments aux_offset {F} _.
Arguments default_instance {F} _.
Arguments fallback {F} _.
Arguments fast_entries {F} _.

(** Addresses behind a table at [this]; [aux_size] is [sizeof(FieldAux)]. *)
Section layout.
Context {F : Type} (t : TcParseTable F) (this : Z).
Definition field_lookup_begin : Z := this + lookup_table_offset t.
Definition field_entries_begin : Z := this + field_entries_offset t.
Definition field_aux (aux_size idx : Z) : Z := this + aux_offset t + aux_size * idx.
Definition name_data (aux_size : Z) : Z := this + aux_offset t + num_aux_entries t * aux_size.
End layout.

(** The message that is parsed: its 32-bit words by offset, its metadata in
    the heap of unknown fields, and the input. *)
Record Parse (St : Type) := mkParse { p_msg : gmap Z Z; p_meta : Heap string; p_ctx : Ctx St }.
Arguments mkParse {St} _ _ _.
Arguments p_msg {St} _.
Arguments p_meta {St} _.
Arguments p_ctx {St} _.

Section parser.
Context {St F : Type} `{Malloc}.
(** The message's name among the words of the metadata. *)
Context (msg : nat).
(** The functions of the table: pointer, data, has-bits. *)
Context (call : F -> Parse St -> Z -> TcFieldData -> Z -> outcome (option Z * Parse St)).
(** [ExtensionSet::ParseField] at an offset, [UnknownFieldParse] and the
    writers of unknown fields. *)
Context (ExtensionSet_ParseField : Z -> Z -> Z -> Z -> Parse St -> outcome (option Z * Parse St)).
Context (UnknownFieldParse : Z -> string -> Z -> Ctx St -> option Z * string * Ctx St).
Context (WriteVarint : Z -> Z -> string -> string) (WriteLengthDelimited : Z -> bytes -> string -> string).
(** Whether the compiler makes tail calls. *)
Context (PROTOBUF_TAILCALL : bool).
Implicit Types (s : Parse St) (ptr hasbits : Z) (t : TcParseTable F).

Definition SyncHasbits hasbits t s : outcome (Parse St) :=
  if negb (has_bits_offset t =? 0) then
    match p_msg s !! has_bits_offset t with
    | Some w => Ret (mkParse (<[has_bits_offset t := Z.lor w (u32 hasbits)]> (p_msg s)) (p_meta s) (p_ctx s))
    | None => UB
    end
  else Ret s.

Definition fast_entry (idx : Z) t : outcome (F * TcFieldData) :=
  match fast_entries t !! Z.to_nat idx with Some e => Ret e | None => UB end.

Definition TagDispatch t ptr hasbits s : outcome (option Z * Parse St) :=
  let coded := UnalignedLoad 2 (x_mem (p_ctx s)) ptr in
  let idx := Z.land coded (fast_idx_mask t) in
  if negb (Z.land idx 7 =? 0) then UB
  else
    do (target, bits) <- fast_entry (Z.shiftr idx 3) t;
    call target s ptr (Z.lxor bits coded) hasbits.

Definition ToParseLoop t ptr hasbits s : outcome (option Z * Parse St) :=
  do s <- SyncHasbits hasbits t s; Ret (Some ptr, s).

Definition ToTagDispatch t ptr hasbits s : outcome (option Z * Parse St) :=
  let always_return := negb PROTOBUF_TAILCALL in
  if always_return || negb (DataAvailable ptr (p_ctx s)) then ToParseLoop t ptr hasbits s
  else TagDispatch t ptr hasbits s.

(** [msg->_internal_metadata_.mutable_unknown_fields<std::string>()] and
    something done to the string. *)
Definition on_unknown (f : string -> string) s : outcome (Parse St) :=
  do (p, h) <- mutable_unknown_fields msg (p_meta s);
  do h <- update f p h;
  Ret (mkParse (p_msg s) h (p_ctx s)).

(** [int] to [uint32_t] and [uint64_t]. *)
Definition WriteVarintToUnknown (number value : Z) s : outcome (Parse St) :=
  on_unknown (WriteVarint (u32 number) (u64 value)) s.
Definition WriteLengthDelimitedToUnknown (number : Z) (value : bytes) s : outcome (Parse St) :=
  on_unknown (WriteLengthDelimited (u32 number) value) s.

Record UnknownFieldOps := mkOps {
  write_varint : Z -> Z -> Parse St -> outcome (Parse St);
  write_length_delimited : Z -> bytes -> Parse St -> outcome (Parse St);
}.
Definition kOps : UnknownFieldOps := mkOps WriteVarintToUnknown WriteLengthDelimitedToUnknown.

(** A null pointer asks for the writers. *)
Definition GenericFallbackImpl t (ptr : option Z) (data : TcFieldData) hasbits s
    : outcome (UnknownFieldOps + option Z * Parse St) :=
  match ptr with
  | None => Ret (inl kOps)
  | Some ptr =>
      do s <- SyncHasbits hasbits t s;
      let tag := td_tag data in
      if (Z.land tag 7 =? WireType_value WIRETYPE_END_GROUP) || (tag =? 0)
      then Ret (inr (Some ptr, mkParse (p_msg s) (p_meta s) (SetLastTag tag (p_ctx s))))
      else if negb (extension_offset t =? 0)
      then do r <- ExtensionSet_ParseField (extension_offset t) tag ptr (default_instance t) s; Ret (inr r)
      else
        do (p, h) <- mutable_unknown_fields msg (p_meta s);
        do c <- container p h;
        let '(r, x, ctx) := UnknownFieldParse tag (c_unknown_fields c) ptr (p_ctx s) in
        Ret (inr (r, mkParse (p_msg s) (set_container p (set_fields x c) h) ctx))
  end.

(** ** Packed closed enums ([parse_context.h]) *)

Context (Next : Ctx St -> option Z * Ctx St).
Context (VarintParseSlow64 : memory -> Z -> Z -> option Z * Z) (ReadSizeFallback : memory -> Z -> Z -> option Z * Z).

(** The callback of the reader: a known value into the field, another one
    among the unknown fields. *)
Definition enum_value (size_of : Z) (is_valid : Z -> bool) (field_num : Z) (varint : Z)
    (st : RepeatedField Z * Parse St) : outcome (RepeatedField Z * Parse St) :=
  let '(object, s) := st in
  let val := i32 varint in
  if is_valid val then do object <- rf_Add size_of val object; Ret (object, s)
  else do s <- on_unknown (WriteVarint (u32 field_num) (u64 val)) s; Ret (object, s).

(** The reader hands the values to the callback in the order it reads them. *)
Definition PackedEnumParser (fuel : nat) (buf_addr size_of : Z) ptr (is_valid : Z -> bool) (field_num : Z)
    (object : RepeatedField Z) s : outcome (option Z * RepeatedField Z * Parse St) :=
  let '(p, _, values, ctx) :=
    ReadPackedVarint Next VarintParseSlow64 ReadSizeFallback fuel buf_addr ptr (fun _ u => u) tt [] (p_ctx s) in
  do (object, s) <- ofold (enum_value size_of is_valid field_num) values (object, s);
  Ret (p, object, mkParse (p_msg s) (p_meta s) ctx).

Definition PackedEnumParserArg {D : Type} (fuel : nat) (buf_addr size_of : Z) ptr (is_valid : D -> Z -> bool) (data : D)
    (field_num : Z) (object : RepeatedField Z) s : outcome (option Z * RepeatedField Z * Parse St) :=
  PackedEnumParser fuel buf_addr size_of ptr (is_valid data) field_num object s.
End parser.

(** ** What the bits say *)

Section bits.
Implicit Types (ct h a o c : Z).

Lemma lor_shift k x r : 0 <= k -> inU k x -> Z.lor (Z.shiftl r k) x = x + 2 ^ k * r.
Proof.
  intros Hk Hx. rewrite Z.shiftl_mul_pow2 by done. rewrite <- Z.lxor_lor, <- Z.add_nocarry_lxor; [lia|..].
  all: apply Z.bits_inj'; intros i Hi; rewrite Z.bits_0, Z.land_spec;
    destruct (decide (i < k)) as [Hlt|Hge];
    [rewrite Z.mul_pow2_bits_low by lia; done|by rewrite (inU_testbit k x) by (done || lia); apply andb_false_r].
Qed.

Lemma lxor_inU k x c : 0 <= k -> inU k x -> inU k c -> inU k (Z.lxor x c).
Proof.
  intros Hk Hx Hc. assert (E : Z.lxor x c = Z.lxor x c mod 2 ^ k); [|rewrite E; by apply wrapU_range].
  apply Z.bits_inj'. intros i Hi. destruct (decide (i < k)) as [Hlt|Hge].
  - by rewrite Z.mod_pow2_bits_low.
  - rewrite Z.mod_pow2_bits_high, Z.lxor_spec, !(inU_testbit k) by (done || lia). done.
Qed.

Lemma lxor_low k x r c : 0 <= k -> inU k x -> inU k c -> Z.lxor (x + 2 ^ k * r) c = Z.lxor x c + 2 ^ k * r.
Proof.
  intros Hk Hx Hc. rewrite <- !lor_shift by (try apply lxor_inU; done).
  apply Z.bits_inj'. intros i Hi. rewrite Z.lxor_spec, !Z.lor_spec, Z.shiftl_spec, Z.lxor_spec by done.
  destruct (decide (i < k)) as [Hlt|Hge].
  - by rewrite Z.testbit_neg_r by lia.
  - rewrite (inU_testbit k x i), (inU_testbit k c i) by (done || lia). by rewrite !orb_false_r, xorb_false_r.
Qed.

(** The entry as a number. *)
Lemma fast_value ct h a o :
  inU 16 ct -> inU 8 h -> inU 8 a -> inU 16 o ->
  TcFieldData_fast ct h a o = ct + 2 ^ 16 * (h + 2 ^ 8 * a + 2 ^ 32 * o).
Proof.
  intros Hc Hh Ha Ho. unfold TcFieldData_fast, shlU. unfold inU in *.
  rewrite !wrapU_id by (unfold inU; rewrite Z.shiftl_mul_pow2; lia).
  rewrite <- !Z.lor_assoc. rewrite (lor_shift 16 ct h) by (unfold inU; lia).
  rewrite (lor_shift 24) by (unfold inU; lia). rewrite (lor_shift 48) by (unfold inU; lia). lia.
Qed.

Lemma low_part k x y : 0 <= x < 2 ^ k -> (x + 2 ^ k * y) / 2 ^ k = y.
Proof. intros Hx. symmetry. apply (Z.div_unique _ _ _ x); lia. Qed.

(** The tag is taken off the entry; the rest stays. *)
Lemma matched_fields ct h a o c :
  inU 16 ct -> inU 8 h -> inU 8 a -> inU 16 o -> inU 16 c ->
  let data := Z.lxor (TcFieldData_fast ct h a o) c in
  hasbit_idx data = h /\ aux_idx data = a /\ td_offset data = o /\
  (forall w, w = 8 \/ w = 16 -> coded_tag w data = 0 <-> ct mod 2 ^ w = c mod 2 ^ w).
Proof.
  intros Hc Hh Ha Ho Hcc. cbv zeta. rewrite fast_value, lxor_low by (done || lia).
  pose proof (lxor_inU 16 ct c ltac:(lia) Hc Hcc) as Hx. unfold hasbit_idx, aux_idx, td_offset, coded_tag, wrapU.
  set (x := Z.lxor ct c) in *. rewrite !Z.shiftr_div_pow2 by lia. unfold inU in *. split_and!.
  - rewrite low_part by done. symmetry. apply (Z.mod_unique _ _ (a + 2 ^ 24 * o)); lia.
  - replace (x + _) with ((x + 2 ^ 16 * h) + 2 ^ 24 * (a + 2 ^ 24 * o)) by lia. rewrite low_part by lia.
    symmetry. apply (Z.mod_unique _ _ (2 ^ 16 * o)); lia.
  - replace (x + _) with ((x + 2 ^ 16 * h + 2 ^ 24 * a) + 2 ^ 48 * o) by lia. rewrite low_part by lia.
    apply Z.mod_small. lia.
  - intros w Hw. assert (E : (x + 2 ^ 16 * (h + 2 ^ 8 * a + 2 ^ 32 * o)) mod 2 ^ w = x mod 2 ^ w).
    { replace (2 ^ 16) with (2 ^ (16 - w) * 2 ^ w) by (destruct Hw as [-> | ->]; lia).
      rewrite <- (Z_mod_plus_full x (2 ^ (16 - w) * (h + 2 ^ 8 * a + 2 ^ 32 * o))). f_equal. lia. }
    rewrite E. unfold x. rewrite <- !Z.land_ones by lia. split.
    + intros Hz. apply Z.lxor_eq. apply Z.bits_inj'. intros i Hi. apply (f_equal (fun z => Z.testbit z i)) in Hz.
      rewrite Z.land_spec, Z.lxor_spec, Z.bits_0 in Hz. rewrite Z.lxor_spec, !Z.land_spec, Z.bits_0.
      destruct (Z.testbit ct i), (Z.testbit c i), (Z.testbit (Z.ones w) i); done.
    + intros Hz. apply Z.bits_inj'. intros i Hi. apply (f_equal (fun z => Z.testbit z i)) in Hz.
      rewrite !Z.land_spec in Hz. rewrite Z.land_spec, Z.lxor_spec, Z.bits_0.
      destruct (Z.testbit ct i), (Z.testbit c i), (Z.testbit (Z.ones w) i); done.
Qed.
End bits.

(** ** Dispatch *)

(** Fields whose tag takes one or two bytes. *)
Definition small_field (n : Z) : Prop := 1 <= n < 2048.

(** The bits of the tag of a field, and its fast entry. *)
Definition tag_bits (n : Z) (ty : WireType) : Z := 8 * Z.of_nat (length (varint (MakeTag n ty))).
Definition entry_for (n : Z) (ty : WireType) (h a o : Z) : TcFieldData :=
  TcFieldData_fast (le_value (varint (MakeTag n ty))) h a o.

(** The table has [2 ^ k] fast entries, found by bits 3 and up of the first
    byte of the tag. *)
Definition fast_table {F : Type} (k : Z) (t : TcParseTable F) : Prop :=
  0 <= k <= 5 /\ fast_idx_mask t = 8 * (2 ^ k - 1) /\ Z.of_nat (length (fast_entries t)) = 2 ^ k.
Definition slot (k n : Z) (ty : WireType) : Z := nth 0 (varint (MakeTag n ty)) 0 / 8 mod 2 ^ k.

Section dispatch.
Implicit Types (n : Z) (ty : WireType) (m : memory).

(** The tag of a small field: a number below 2^14, in one byte or two. *)
Lemma small_tag n ty :
  small_field n ->
  let tag := MakeTag n ty in
  tag = 8 * n + WireType_value ty /\ 8 <= tag < 2 ^ 14 /\
  varint tag = if tag <? 128 then [tag] else [128 + tag mod 128; tag / 128].
Proof.
  intros Hn. unfold small_field in Hn. cbv zeta. rewrite MakeTag_spec by lia. pose proof (WireType_range ty).
  assert (Ht : 8 <= 8 * n + WireType_value ty < 2 ^ 14) by lia. split; [done|]. split; [done|].
  revert Ht. generalize (8 * n + WireType_value ty). intros tag Ht. unfold varint. cbn [varint_bytes].
  destruct (Z.ltb_spec tag 128); [done|]. rewrite (proj2 (Z.ltb_lt (tag / 128) 128)); [done|]. apply Z.div_lt_upper_bound; lia.
Qed.

Lemma small_tag_inj n ty n' ty' :
  small_field n -> small_field n' -> MakeTag n' ty' = MakeTag n ty <-> n' = n /\ ty' = ty.
Proof.
  intros Hn Hn'. rewrite (proj1 (small_tag n ty Hn)), (proj1 (small_tag n' ty' Hn')).
  split; [|by intros [-> ->]]. intros E. pose proof (WireType_range ty). pose proof (WireType_range ty').
  split; [lia|]. assert (Ev : WireType_value ty' = WireType_value ty) by lia. by destruct ty, ty'.
Qed.

Lemma loaded_byte b c : 0 <= b < 256 -> (b + 256 * c) mod 2 ^ 8 = b /\ (b + 256 * c) mod 256 = b.
Proof. intros Hb. split; symmetry; apply (Z.mod_unique _ _ c); lia. Qed.

(** The two bytes loaded: the entry of another field never matches. *)
Lemma loaded_match n ty n' ty' m p :
  small_field n -> small_field n' -> mem_ok m -> reads m p (varint (MakeTag n ty)) ->
  let coded := UnalignedLoad 2 m p in
  let ct := le_value (varint (MakeTag n' ty')) in
  inU 16 coded /\ inU 16 ct /\ coded mod 256 = nth 0 (varint (MakeTag n ty)) 0 /\
  (tag_bits n' ty' = 8 \/ tag_bits n' ty' = 16) /\
  (ct mod 2 ^ tag_bits n' ty' = coded mod 2 ^ tag_bits n' ty' <-> n' = n /\ ty' = ty).
Proof.
  intros Hn Hn' Hm Hr. cbv zeta. rewrite <- (small_tag_inj n ty n' ty') by done.
  destruct (small_tag n ty Hn) as (_ & Ht & E), (small_tag n' ty' Hn') as (_ & Ht' & E'). unfold tag_bits.
  rewrite E'. rewrite E in Hr. rewrite E. set (tag := MakeTag n ty) in *. set (tag' := MakeTag n' ty') in *.
  rewrite (load2 m p (byte_at m p) (byte_at m (p + 1))) by done.
  pose proof (Hm p) as Hb0. pose proof (Hm (p + 1)) as Hb1. unfold is_byte in *.
  assert (Hq : forall t, 128 <= t < 2 ^ 14 -> exists q r, t mod 128 = r /\ t / 128 = q /\ t = 128 * q + r /\ 0 <= r < 128 /\ 1 <= q < 128).
  { intros t H. exists (t / 128), (t mod 128). pose proof (Z.div_mod t 128 ltac:(lia)). pose proof (Z.mod_pos_bound t 128 ltac:(lia)). lia. }
  destruct (Z.ltb_spec tag 128) as [H1|H1];
    [|destruct (Hq tag ltac:(lia)) as (q & r & Er & Eq & Etag & Hr' & Hq'); rewrite Er, Eq in *];
  (destruct (Z.ltb_spec tag' 128) as [H2|H2];
    [|destruct (Hq tag' ltac:(lia)) as (q2 & r2 & Er2 & Eq2 & Etag2 & Hr2 & Hq2); rewrite Er2, Eq2 in *]);
  rewrite ?reads_cons in Hr; destruct_and?; cbn [length le_value nth];
  change (8 * Z.of_nat 1) with 8; change (8 * Z.of_nat 2) with 16;
  pose proof (loaded_byte (byte_at m p) (byte_at m (p + 1)) ltac:(lia)) as [L1 L2]; rewrite ?L1, ?L2;
  rewrite ?(Z.mod_small _ (2 ^ 16)) by lia; rewrite ?Z.mul_0_r, ?Z.add_0_r, ?(Z.mod_small tag' (2 ^ 8)) by lia; split_and!; unfold inU; lia.
Qed.
End dispatch.

Lemma land_slots c k : 0 <= c -> 0 <= k -> Z.land c (8 * (2 ^ k - 1)) = 8 * (c / 8 mod 2 ^ k).
Proof.
  intros Hc Hk. replace (8 * (2 ^ k - 1)) with (Z.shiftl (Z.ones k) 3) by (rewrite Z.shiftl_mul_pow2, Z.ones_equiv; lia).
  rewrite <- Z.land_ones by done. change 8 with (2 ^ 3) at 1 2. rewrite <- Z.shiftr_div_pow2 by done.
  rewrite (Z.mul_comm (2 ^ 3)), <- Z.shiftl_mul_pow2 by done.
  apply Z.bits_inj'. intros i Hi. rewrite Z.land_spec, !Z.shiftl_spec by done.
  destruct (decide (i < 3)); [by rewrite !(Z.testbit_neg_r _ (i - 3)), andb_false_r by lia|].
  rewrite Z.land_spec, Z.shiftr_spec by lia. by replace (i - 3 + 3) with i by lia.
Qed.

Section dispatch_facts.
Context {St F : Type}.
Context (call : F -> Parse St -> Z -> TcFieldData -> Z -> outcome (option Z * Parse St)).
Implicit Types (t : TcParseTable F) (s : Parse St).

(** The slot of a field: the lowest bits of its number, except in a table of
    32 slots, where a field from 16 on - whose tag has two bytes - goes into the
    upper half by its four lowest bits. *)
Lemma slot_of_field k n ty :
  0 <= k <= 5 -> small_field n ->
  slot k n ty = if (k =? 5) && (16 <=? n) then 16 + n mod 16 else n mod 2 ^ k.
Proof.
  intros Hk Hn. unfold slot. destruct (small_tag n ty Hn) as (Et & Hr & ->). pose proof (WireType_range ty).
  unfold small_field in Hn. rewrite Et in *.
  assert (E8 : (8 * n + WireType_value ty) / 8 = n) by (symmetry; apply (Z.div_unique_pos _ _ _ (WireType_value ty)); lia).
  destruct (Z.ltb_spec (8 * n + WireType_value ty) 128); cbn [nth].
  - rewrite E8, (proj2 (Z.leb_gt 16 n)) by lia. by rewrite andb_false_r.
  - rewrite (proj2 (Z.leb_le 16 n)), andb_true_r by lia.
    assert (Eb : (128 + (8 * n + WireType_value ty) mod 128) / 8 = 16 + n mod 16).
    { pose proof (Z.div_mod n 16 ltac:(lia)). pose proof (Z.mod_pos_bound n 16 ltac:(lia)).
      assert ((8 * n + WireType_value ty) mod 128 = 8 * (n mod 16) + WireType_value ty) as ->
        by (symmetry; apply (Z.mod_unique_pos _ _ (n / 16)); lia).
      symmetry. apply (Z.div_unique_pos _ _ _ (WireType_value ty)); lia. }
    rewrite Eb. destruct (Z.eqb_spec k 5) as [->|Hne].
    + apply Z.mod_small. pose proof (Z.mod_pos_bound n 16 ltac:(lia)). lia.
    + assert (Hd : 16 = 2 ^ (4 - k) * 2 ^ k) by (rewrite <- Z.pow_add_r by lia; by replace (4 - k + k) with 4 by lia).
      rewrite <- Zplus_mod_idemp_l. replace (16 mod 2 ^ k) with 0 by (rewrite Hd; symmetry; apply Z.mod_mul; lia).
      rewrite Z.add_0_l. apply Z.mod_mod_divide. by exists (2 ^ (4 - k)).
Qed.

(** C31: dispatch on a tag is exact.  At the tag of any field below 2048 the
    parser calls the function of that field's slot, with the has-bit, the
    auxiliary index and the offset of the slot's entry untouched, and the
    function sees a cleared tag of its own width exactly when the entry is
    that of this field and wire type; so a field filed in its slot is parsed
    by its own entry and no other field ever is.  The slot is given by the
    lowest bits of the field's number, but in a table of 32 slots the fields
    from 16 on share the upper half by their four lowest bits. *)
Theorem dispatch_exact t k n ty s ptr hasbits :
  fast_table k t -> small_field n -> mem_ok (x_mem (p_ctx s)) -> reads (x_mem (p_ctx s)) ptr (varint (MakeTag n ty)) ->
  exists f bits data,
    slot k n ty = (if (k =? 5) && (16 <=? n) then 16 + n mod 16 else n mod 2 ^ k) /\
    fast_entries t !! Z.to_nat (slot k n ty) = Some (f, bits) /\
    TagDispatch call t ptr hasbits s = call f s ptr data hasbits /\
    forall n' ty' h a o,
      small_field n' -> inU 8 h -> inU 8 a -> inU 16 o -> bits = entry_for n' ty' h a o ->
      hasbit_idx data = h /\ aux_idx data = a /\ td_offset data = o /\
      (coded_tag (tag_bits n' ty') data = 0 <-> n' = n /\ ty' = ty).
Proof.
  intros (Hk & Hmask & Hlen) Hn Hm Hr. set (m := x_mem (p_ctx s)) in *.
  pose proof (fun n' ty' Hn' => loaded_match n ty n' ty' m ptr Hn Hn' Hm Hr) as Hmatch. cbv zeta in Hmatch.
  destruct (Hmatch n ty Hn) as (Hc & _ & Hfirst & _). set (coded := UnalignedLoad 2 m ptr) in *.
  assert (Hidx : Z.land coded (fast_idx_mask t) = 8 * slot k n ty).
  { rewrite Hmask, land_slots by (unfold inU in Hc; lia). unfold slot. rewrite <- Hfirst. f_equal.
    replace (coded mod 256 / 8) with (coded / 8 mod 2 ^ 5)
      by (symmetry; apply (Z.mod_unique _ _ (coded / 256)); Z.to_euclidean_division_equations; lia).
    symmetry. apply Z.mod_mod_divide. exists (2 ^ (5 - k)). rewrite <- Z.pow_add_r by lia. f_equal. lia. }
  assert (Hs : 0 <= slot k n ty < 2 ^ k) by (apply Z.mod_pos_bound; lia).
  destruct (lookup_lt_is_Some_2 (fast_entries t) (Z.to_nat (slot k n ty))) as [[f bits] He]; [lia|].
  exists f, bits, (Z.lxor bits coded). split; [by apply slot_of_field|]. split; [exact He|]. split.
  - unfold TagDispatch. fold m coded. rewrite Hidx.
    replace (Z.land (8 * slot k n ty) 7) with 0 by (change 7 with (Z.ones 3); rewrite Z.land_ones, Z.mul_comm by lia; symmetry; by apply Z.mod_mul).
    replace (Z.shiftr (8 * slot k n ty) 3) with (slot k n ty) by (rewrite Z.shiftr_div_pow2, Z.mul_comm by lia; symmetry; by apply Z.div_mul).
    cbn [Z.eqb negb]. unfold fast_entry. by rewrite He.
  - intros n' ty' h a o Hn' Hh Ha Ho ->. destruct (Hmatch n' ty' Hn') as (_ & Hct & _ & Hw & Hiff).
    destruct (matched_fields _ h a o coded Hct Hh Ha Ho Hc) as (E1 & E2 & E3 & E4).
    do 3 (split; [done|]). rewrite <- Hiff. by apply E4.
Qed.

Implicit Types (hasbits ptr : Z).

(** The has-bits of the parser are merged into the first word of the message's. *)
Lemma SyncHasbits_spec hasbits t s w :
  has_bits_offset t <> 0 -> p_msg s !! has_bits_offset t = Some w ->
  SyncHasbits hasbits t s = Ret (mkParse (<[has_bits_offset t := Z.lor w (u32 hasbits)]> (p_msg s)) (p_meta s) (p_ctx s)) /\
  forall i rest, (i < 32)%nat ->
    present (Z.lor w (u32 hasbits) :: rest) i = present (w :: rest) i || Z.testbit hasbits (Z.of_nat i).
Proof.
  intros Ho Hw. unfold SyncHasbits. rewrite (proj2 (Z.eqb_neq _ _) Ho), Hw. split; [done|]. intros i rest Hi.
  unfold present. rewrite Nat.div_small, Nat.mod_small by done. cbn. rewrite Z.lor_spec. f_equal.
  unfold wrapU. by rewrite Z.mod_pow2_bits_low by lia.
Qed.
End dispatch_facts.

Section unknown_facts.
Context {St F : Type} `{Malloc}.
Context (msg : nat).
Context (ExtensionSet_ParseField : Z -> Z -> Z -> Z -> Parse St -> outcome (option Z * Parse St)).
Context (UnknownFieldParse : Z -> string -> Z -> Ctx St -> option Z * string * Ctx St).
Context (WriteVarint : Z -> Z -> string -> string) (WriteLengthDelimited : Z -> bytes -> string -> string).
Implicit Types (s : Parse St) (t : TcParseTable F).

(** The message is there and well kept, with these unknown fields. *)
Definition has_unknown (a : Z) (x : string) s : Prop := kept (p_meta s) /\ messages (p_meta s) !! msg = Some (a, x).

Lemma on_unknown_spec a x f s :
  has_unknown a x s ->
  exists s', on_unknown msg f s = Ret s' /\ has_unknown a (f x) s' /\ p_msg s' = p_msg s /\ p_ctx s' = p_ctx s /\
    messages (p_meta s') = <[msg := (a, f x)]> (messages (p_meta s)).
Proof.
  intros [HK Hx]. destruct (mutate_spec (p_meta s) msg a x f HK Hx) as (h' & E & HK' & Em). unfold on_unknown.
  destruct (mutable_unknown_fields msg (p_meta s)) as [[p h]| |]; try discriminate E. cbn [obind] in *. rewrite E. cbn [obind].
  eexists. split; [done|]. split; [|by split_and!]. split; [done|]. simpl. by rewrite Em, lookup_insert_eq.
Qed.

(** A field that is in no table goes to the message's own unknown fields. *)
Lemma fallback_unknown t ptr data a x s r x' ctx' :
  has_bits_offset t = 0 -> extension_offset t = 0 -> has_unknown a x s ->
  td_tag data <> 0 -> Z.land (td_tag data) 7 <> 4 ->
  UnknownFieldParse (td_tag data) x ptr (p_ctx s) = (r, x', ctx') ->
  exists s', GenericFallbackImpl msg ExtensionSet_ParseField UnknownFieldParse WriteVarint WriteLengthDelimited t
      (Some ptr) data 0 s = Ret (inr (r, s')) /\
    has_unknown a x' s' /\ p_msg s' = p_msg s /\ p_ctx s' = ctx' /\
    messages (p_meta s') = <[msg := (a, x')]> (messages (p_meta s)).
Proof.
  intros Hh He [HK Hx] Ht Hg Hp. unfold GenericFallbackImpl, SyncHasbits. rewrite Hh, He. cbn [Z.eqb negb obind WireType_value].
  rewrite (proj2 (Z.eqb_neq _ _) Ht), (proj2 (Z.eqb_neq _ _) Hg). cbn [orb].
  destruct (mutable_spec (p_meta s) msg a x HK Hx) as (p & c & h1 & E & HK1 & Hc & <- & <- & Em & _). rewrite E. cbn [obind].
  rewrite (container_Ret _ _ _ _ Hc). cbn [obind]. rewrite Hp. eexists. split; [done|].
  destruct (write_fields h1 msg p c x' HK1 Hc) as (HK2 & _ & Em2). rewrite <- Em.
  split; [|by split_and!]. split; [done|]. simpl. by rewrite Em2, lookup_insert_eq.
Qed.
End unknown_facts.

Section enum_facts.
Context {St : Type} `{Malloc}.
Context (msg : nat) (WriteVarint : Z -> Z -> string -> string).
Context (Next : Ctx St -> option Z * Ctx St) (upcoming : Ctx St -> bytes).
Context (VarintParseSlow64 : memory -> Z -> Z -> option Z * Z) (ReadSizeFallback : memory -> Z -> Z -> option Z * Z).
Context (size_of : Z) (is_valid : Z -> bool) (field_num : Z).
Implicit Types (s : Parse St) (object : RepeatedField Z) (vs : list Z).

#[local] Abbreviation packed vs := (concat (varint <$> vs)).

Definition known vs : list Z := filter (fun v => is_valid v = true) (i32 <$> vs).
Definition unknown vs : list Z := filter (fun v => is_valid v = false) (i32 <$> vs).
Definition write_unknown (l : list Z) (x : string) : string :=
  foldl (fun x v => WriteVarint (u32 field_num) (u64 v) x) x l.

Lemma enum_values a vs x object s :
  0 < size_of -> rep_ok size_of object -> current_size object + Z.of_nat (length (known vs)) <= int_max ->
  has_unknown msg a x s ->
  exists object' s',
    ofold (enum_value msg WriteVarint size_of is_valid field_num) vs (object, s) = Ret (object', s') /\
    becomes size_of object object' (in_use object ++ (Some <$> known vs)) /\
    has_unknown msg a (write_unknown (unknown vs) x) s' /\ p_msg s' = p_msg s /\ p_ctx s' = p_ctx s /\
    forall m, m <> msg -> messages (p_meta s') !! m = messages (p_meta s) !! m.
Proof.
  intros Hsz. revert x object s. induction vs as [|v vs IH]; intros x object s Hf Hn Hx.
  - exists object, s. simpl. rewrite app_nil_r. by split_and!; [|apply becomes_refl|..].
  - cbn [ofold]. unfold enum_value at 1. unfold known, unknown in *. cbn [fmap list_fmap] in *. rewrite !filter_cons in *.
    destruct (is_valid (i32 v)) eqn:Ev.
    + rewrite decide_True in Hn |- * by done. rewrite decide_False by done. cbn [length] in Hn.
      destruct (rf_Add_spec size_of Hsz (i32 v) object Hf ltac:(lia)) as (o1 & -> & B & _). cbn [obind].
      assert (Hlen : current_size o1 = current_size object + 1).
      { pose proof (in_use_length size_of object Hf) as L. pose proof (in_use_length size_of o1 (proj1 B)) as L1.
        rewrite (proj1 (proj2 B)), length_app in L1. simpl in L1. lia. }
      destruct (IH x o1 s (proj1 B) ltac:(lia) Hx) as (o2 & s2 & E & B2 & Rest).
      exists o2, s2. rewrite E. split; [done|]. split; [|done]. rewrite (proj1 (proj2 B)) in B2.
      rewrite fmap_cons, cons_middle, app_assoc. by eapply becomes_trans.
    + rewrite decide_False in Hn |- * by done. rewrite decide_True by done.
      destruct (on_unknown_spec msg a x (WriteVarint (u32 field_num) (u64 (i32 v))) s Hx) as (s1 & -> & Hx1 & E1 & E2 & E3).
      cbn [obind]. destruct (IH _ object s1 Hf Hn Hx1) as (o2 & s2 & E & B2 & Hx2 & F1 & F2 & F3).
      exists o2, s2. rewrite E. split_and!; try done; [congruence..|]. intros m Hm.
      by rewrite F3, E3, lookup_insert_ne by done.
Qed.

(** C30: a packed field of a closed enum is parsed as proto2 asks, across the
    reader, the repeated field and the metadata: all values are read, those
    the enum has are appended to the field in their order, the others are kept
    in their order, under the field's number, among this message's unknown
    fields; the input is left behind the field, the message keeps its arena
    and nothing else changes.  The field may lie in the buffer, end in its
    slop region or run over any number of chunks of the stream; only its length
    must lie in the buffer or the slop region, as it does behind a tag the
    parser has read, and the field be shorter than 2 GiB, as [ReadSize] asks. *)
Theorem packed_enum_exact fuel buf_addr ptr a x vs rest object s :
  slow64_spec VarintParseSlow64 -> size_fallback_spec ReadSizeFallback -> Next_spec upcoming Next ->
  Forall (inU 64) vs -> (length vs + length (packed vs) < fuel)%nat -> Z.of_nat (length (packed vs)) < 2 ^ 31 - 16 ->
  let len := varint (Z.of_nat (length (packed vs))) in
  stream_view upcoming (p_ctx s) ptr (len ++ packed vs ++ rest) -> Z.of_nat (length len) <= in_buffer ptr (p_ctx s) ->
  0 < size_of -> rep_ok size_of object -> current_size object + Z.of_nat (length (known vs)) <= int_max ->
  has_unknown msg a x s ->
  exists p' object' s',
    PackedEnumParser msg WriteVarint Next VarintParseSlow64 ReadSizeFallback fuel buf_addr size_of ptr is_valid field_num object s
      = Ret (Some p', object', s') /\
    stream_view upcoming (p_ctx s') p' rest /\ same_parse (p_ctx s) (p_ctx s') /\ p_msg s' = p_msg s /\
    (Z.of_nat (length (len ++ packed vs)) <= in_buffer ptr (p_ctx s) -> p_ctx s' = p_ctx s) /\
    in_use object' = in_use object ++ (Some <$> known vs) /\ rep_ok size_of object' /\
    has_unknown msg a (write_unknown (unknown vs) x) s' /\
    forall m, m <> msg -> messages (p_meta s') !! m = messages (p_meta s) !! m.
Proof.
  intros Hslow Hsize Hnext Hvs Hfuel Hlen len Hv Hin Hsz Hf Hn Hx.
  destruct (packed_varints_read upcoming VarintParseSlow64 ReadSizeFallback Next fuel buf_addr ptr (fun _ u => u) tt []
    vs rest (p_ctx s)) as (p' & c' & E & Hv' & Hsame & Hkeep); [done..|].
  destruct (enum_values a vs x object s Hsz Hf Hn Hx) as (object' & s' & E2 & (B1 & B2 & _) & Hx' & M1 & M2 & M3).
  exists p', object', (mkParse (p_msg s') (p_meta s') c'). unfold PackedEnumParser. rewrite E. cbn [app obind].
  rewrite E2. cbn [obind]. by split_and!.
Qed.
End enum_facts.

(** ** The cards *)

Lemma card_parts w c z g :
  let d := MapTypeCard_new w c z g in
  card_wiretype d = WireType_value w /\ card_cpp_type d = CppType_value c /\ card_is_signed d = g /\
  card_is_zigzag_utf8 d = z.
Proof. by destruct w, c, z, g. Qed.

(** The card of a scalar is read with the wire type the writers use. *)
Lemma map_card_wire (s : scalar) :
  exists c, MakeMapTypeCard (sc_type s) = Ret c /\ card_wiretype c = WireType_value (sc_wire s) /\
    card_is_zigzag c = bool_decide (s = S_SInt32 \/ s = S_SInt64).
Proof. destruct s; eexists; by split_and!. Qed.

Module layout_facts.
Import field_layout.

#[global] Instance fl_FieldType_eq_dec : EqDecision fl_FieldType.
Proof. solve_decision. Defined.

(** A type, a cardinality and the split bit share a card without touching. *)
Lemma card_separate t c s :
  let card := Z.lor (Z.lor (cardinality_value c) (split_value s)) (fl_value t) in
  Z.land card kFcMask = cardinality_value c /\ Z.land card kSplitMask = split_value s /\
  Z.land card (Z.lnot (Z.lor kFcMask kSplitMask)) = fl_value t /\ 0 <= card < 2 ^ 13.
Proof. by destruct t, c, s. Qed.

Definition all_types : list fl_FieldType :=
  [kBool; kFixed32; kUInt32; kSFixed32; kInt32; kSInt32; kFloat; kEnum; kEnumRange; kOpenEnum; kFixed64; kUInt64;
   kSFixed64; kInt64; kSInt64; kDouble; kPackedBool; kPackedFixed32; kPackedUInt32; kPackedSFixed32; kPackedInt32;
   kPackedSInt32; kPackedFloat; kPackedEnum; kPackedEnumRange; kPackedOpenEnum; kPackedFixed64; kPackedUInt64;
   kPackedSFixed64; kPackedInt64; kPackedSInt64; kPackedDouble; kBytes; kRawString; kUtf8String; kMessage; kMap].

(** No two types have one value. *)
Lemma types_distinct t t' : fl_value t = fl_value t' -> t = t'.
Proof.
  assert (Hall : forall t, t ∈ all_types) by (intros []; apply (bool_decide_unpack _); vm_compute; exact I).
  assert (Hnd : forall i j, (fl_value <$> all_types) !! i = (fl_value <$> all_types) !! j ->
    (i < length all_types)%nat -> i = j).
  { intros i j E Hi. assert (Nd : NoDup (fl_value <$> all_types)) by (apply (bool_decide_unpack _); vm_compute; exact I).
    destruct (lookup_lt_is_Some_2 (fl_value <$> all_types) i) as [v Hv]; [by rewrite length_fmap|].
    apply (NoDup_lookup _ i j v Nd Hv). congruence. }
  intros E. destruct (list_elem_of_lookup_1 _ _ (Hall t)) as [i Hi], (list_elem_of_lookup_1 _ _ (Hall t')) as [j Hj].
  assert (i = j) as ->; [|congruence].
  apply Hnd; [|by eapply lookup_lt_Some]. rewrite !list_lookup_fmap, Hi, Hj. simpl. by rewrite E.
Qed.

(** The kind, the representation and the transformation of a type. *)
Lemma type_fields t :
  Z.land (fl_value t) kFkMask <> 0 /\
  (Z.land (fl_value t) kFkMask = kind_value kFkVarint ->
     Z.land (fl_value t) kRepMask = rep_value kRep8Bits /\ t = kBool \/
     Z.land (fl_value t) kRepMask = rep_value kRep32Bits \/ Z.land (fl_value t) kRepMask = rep_value kRep64Bits).
Proof. destruct t; vm_compute; split; (discriminate || tauto). Qed.
End layout_facts.

(** ** Concrete inputs *)

Module Toy_table.
(** Fields 1 (a number) and 2 (a string) in a table of two; a function of the
    table steps over its tag. *)
Definition table : TcParseTable nat :=
  mkTable 0 0 2 8 0 0 0 2 0 0 0 9%nat
    [(2%nat, entry_for 2 WIRETYPE_LENGTH_DELIMITED 1 0 24); (1%nat, entry_for 1 WIRETYPE_VARINT 0 0 16)].
Definition over_tag (f : nat) (s : Parse bytes) (p data hasbits : Z) : outcome (option Z * Parse bytes) :=
  if coded_tag 8 data =? 0 then Ret (Some (p + 1), s) else Ret (None, s).
Definition at_tag : cursor := pokes (varint (MakeTag 2 WIRETYPE_LENGTH_DELIMITED)) (mkCursor 1000 ∅).
Definition one_message : Heap string := set_word 0 640 no_messages.
Definition parse_at (m : memory) : Parse bytes :=
  mkParse ∅ one_message (mkCtx m 1016 1016 None 0 0 0 0 kNoAliasing 100 INT_MIN 5000 []).

Lemma table_ok : fast_table 1 table.
Proof. unfold fast_table. vm_compute. intuition discriminate. Qed.
Lemma field_ok : small_field 2.
Proof. unfold small_field. lia. Qed.
Lemma at_tag_ok : mem_ok (mem at_tag).
Proof. apply pokes_ok; [|apply empty_ok]. by repeat constructor. Qed.

(** The values below 1000 belong to the enum. *)
Definition is_valid (v : Z) : bool := v <? 1000.
Definition append_u (number value : Z) (x : string) : string := (x ++ "u")%string.
Definition reading : Parse bytes := mkParse ∅ one_message Toy_ctx.long_ctx.

Lemma parse_ok : has_unknown 0 640 "" reading.
Proof.
  destruct no_messages_kept as [HK E]. destruct (new_kept no_messages 0 640 HK eq_refl eq_refl) as [HK' E'].
  split; [exact HK'|]. unfold reading, one_message. cbn [p_meta]. rewrite E'. apply lookup_insert_eq.
Qed.
Lemma field_new : rep_ok 4 (RepeatedField_new (T := Z) None).
Proof. unfold rep_ok, int_max. vm_compute. intuition discriminate. Qed.
End Toy_table.

Lemma dispatch_exact_witness :
  exists data,
    TagDispatch Toy_table.over_tag Toy_table.table 1000 0 (Toy_table.parse_at (mem Toy_table.at_tag)) =
      Toy_table.over_tag 2 (Toy_table.parse_at (mem Toy_table.at_tag)) 1000 data 0 /\
    hasbit_idx data = 1 /\ td_offset data = 24 /\ coded_tag (tag_bits 2 WIRETYPE_LENGTH_DELIMITED) data = 0.
Proof.
  destruct (dispatch_exact Toy_table.over_tag Toy_table.table 1 2 WIRETYPE_LENGTH_DELIMITED
    (Toy_table.parse_at (mem Toy_table.at_tag)) 1000 0 Toy_table.table_ok Toy_table.field_ok Toy_table.at_tag_ok
    (reads_pokes _ _)) as (f & bits & data & _ & Hslot & Hcall & Hfield).
  injection Hslot as <- <-. exists data. split; [exact Hcall|].
  destruct (Hfield 2 WIRETYPE_LENGTH_DELIMITED 1 0 24 Toy_table.field_ok) as (E1 & _ & E3 & E4);
    [by unfold inU|by unfold inU|by unfold inU|reflexivity|].
  split; [exact E1|]. split; [exact E3|]. by apply E4.
Defined.

(** A field that runs into the next chunk of the stream. *)
Lemma packed_enum_exact_witness :
  exists p' object' s',
    PackedEnumParser 0 Toy_table.append_u Toy_ctx.next_chunk Toy_varint.slow64 Toy_ctx.size_fallback 60 9000 4 1000
      Toy_table.is_valid 6 (RepeatedField_new None) Toy_table.reading = Ret (Some p', object', s') /\
    in_use object' = Some 3 :: Some 270 :: replicate 22 (Some 7) /\ has_unknown 0 640 "u" s'.
Proof.
  destruct (packed_enum_exact 0 Toy_table.append_u Toy_ctx.next_chunk Toy_ctx.coming Toy_varint.slow64 Toy_ctx.size_fallback
    4 Toy_table.is_valid 6 60 9000 1000 640 "" Toy_ctx.long_numbers [] (RepeatedField_new None) Toy_table.reading
    Toy_varint.slow64_ok Toy_ctx.size_fallback_ok Toy_ctx.next_chunk_ok Toy_ctx.long_ok ltac:(vm_compute; lia) eq_refl
    Toy_ctx.long_view ltac:(vm_compute; discriminate) eq_refl Toy_table.field_new ltac:(vm_compute; discriminate)
    Toy_table.parse_ok) as (p' & object' & s' & E & _ & _ & _ & _ & Hin & _ & Hx & _).
  exists p', object', s'. split; [exact E|]. split; [exact Hin|exact Hx].
Defined.
