(* ===== verification/Int128.v ===== *)
(** * 128-bit integers ([absl/numeric/int128.h])

    [uint128] and [int128] twice: on two 64-bit halves, the way compilers
    without 128-bit integers (the one of the Windows build among them) get
    them - [int128_no_intrinsic.inc] and the [#else] branches of the header -
    and on the compiler's own [__int128] - [int128_have_intrinsic.inc].
    Arithmetic on signed 64-bit and 128-bit integers that overflows is [UB],
    as is shifting by the width or more; shifting a negative number is what
    C++20 says.  The theorems compare the two. *)

From Stdlib Require Import Lia.
From S2P Require Import Prelude Bits.
Local Open Scope Z_scope.

(** ** 64-bit operations *)

Definition in_width (n : Z) : bool := (0 <=? n) && (n <? 64).
Definition shlU (x n : Z) : outcome Z := if in_width n then Ret (u64 (Z.shiftl x n)) else UB.
Definition shrU (x n : Z) : outcome Z := if in_width n then Ret (Z.shiftr x n) else UB.
Definition shlS (x n : Z) : outcome Z := if in_width n then Ret (i64 (Z.shiftl x n)) else UB.
Definition shrS (x n : Z) : outcome Z := if in_width n then Ret (Z.shiftr x n) else UB.
Definition notU (x : Z) : Z := u64 (Z.lnot x).
Definition in_signed (w z : Z) : bool := (- 2 ^ (w - 1) <=? z) && (z <? 2 ^ (w - 1)).
(** Signed addition and the like: [z] is the exact result. *)
Definition signed (w z : Z) : outcome Z := if in_signed w z then Ret z else UB.
Definition bit (b : bool) : Z := if b then 1 else 0.

Definition kuint64max : Z := 2 ^ 64 - 1.
Definition kint64max : Z := 2 ^ 63 - 1.
Definition kint64min : Z := - 2 ^ 63.

(** ** uint128 on two halves *)

Record uint128 := mkU { u_hi : Z; u_lo : Z }.
Implicit Types (lhs rhs val : uint128).

Definition MakeUint128 (high low : Z) : uint128 := mkU high low.
Definition Uint128Low64 val : Z := u_lo val.
Definition Uint128High64 val : Z := u_hi val.
Definition Uint128Max : uint128 := mkU kuint64max kuint64max.

(** From [int], [long], [long long] and from their unsigned types. *)
Definition uint128_of_signed (v : Z) : uint128 := mkU (if v <? 0 then kuint64max else 0) (u64 v).
Definition uint128_of_unsigned (v : Z) : uint128 := mkU 0 v.

(** To [bool] and to integers of [w] bits. *)
Definition u_to_bool val : bool := negb (u_lo val =? 0) || negb (u_hi val =? 0).
Definition u_to_unsigned (w : Z) val : Z := wrapU w (u_lo val).
Definition u_to_signed (w : Z) val : Z := wrapS w (u_lo val).

Definition u_eq lhs rhs : bool := (Uint128Low64 lhs =? Uint128Low64 rhs) && (Uint128High64 lhs =? Uint128High64 rhs).
Definition u_ne lhs rhs : bool := negb (u_eq lhs rhs).
Definition u_lt lhs rhs : bool :=
  if Uint128High64 lhs =? Uint128High64 rhs then Uint128Low64 lhs <? Uint128Low64 rhs else Uint128High64 lhs <? Uint128High64 rhs.
Definition u_gt lhs rhs : bool := u_lt rhs lhs.
Definition u_le lhs rhs : bool := negb (u_lt rhs lhs).
Definition u_ge lhs rhs : bool := negb (u_lt lhs rhs).
Definition u_cmp lhs rhs : comparison :=
  let lhs_high := Uint128High64 lhs in
  let rhs_high := Uint128High64 rhs in
  if lhs_high <? rhs_high then Lt
  else if rhs_high <? lhs_high then Gt
  else
    let lhs_low := Uint128Low64 lhs in
    let rhs_low := Uint128Low64 rhs in
    if lhs_low <? rhs_low then Lt else if rhs_low <? lhs_low then Gt else Eq.

Definition u_plus val : uint128 := val.
Definition u_neg val : uint128 :=
  MakeUint128 (u64 (notU (Uint128High64 val) + bit (Uint128Low64 val =? 0))) (u64 (notU (Uint128Low64 val) + 1)).
Definition u_not val : bool := (Uint128High64 val =? 0) && (Uint128Low64 val =? 0).
Definition u_compl val : uint128 := MakeUint128 (notU (Uint128High64 val)) (notU (Uint128Low64 val)).

(** The bitwise operators work on the halves. *)
Definition halves (f : Z -> Z -> Z) lhs rhs : uint128 :=
  MakeUint128 (f (Uint128High64 lhs) (Uint128High64 rhs)) (f (Uint128Low64 lhs) (Uint128Low64 rhs)).
Definition u_or lhs rhs : uint128 := halves Z.lor lhs rhs.
Definition u_and lhs rhs : uint128 := halves Z.land lhs rhs.
Definition u_xor lhs rhs : uint128 := halves Z.lxor lhs rhs.

Definition u_shl lhs (amount : Z) : outcome uint128 :=
  if 64 <=? amount then do h <- shlU (Uint128Low64 lhs) (amount - 64); Ret (MakeUint128 h 0)
  else if amount =? 0 then Ret lhs
  else
    do h <- shlU (Uint128High64 lhs) amount;
    do m <- shrU (Uint128Low64 lhs) (64 - amount);
    do l <- shlU (Uint128Low64 lhs) amount;
    Ret (MakeUint128 (Z.lor h m) l).
Definition u_shr lhs (amount : Z) : outcome uint128 :=
  if 64 <=? amount then do l <- shrU (Uint128High64 lhs) (amount - 64); Ret (MakeUint128 0 l)
  else if amount =? 0 then Ret lhs
  else
    do h <- shrU (Uint128High64 lhs) amount;
    do l <- shrU (Uint128Low64 lhs) amount;
    do m <- shlU (Uint128High64 lhs) (64 - amount);
    Ret (MakeUint128 h (Z.lor l m)).

Definition AddResult (result : uint128) lhs : uint128 :=
  if Uint128Low64 result <? Uint128Low64 lhs then MakeUint128 (u64 (Uint128High64 result + 1)) (Uint128Low64 result) else result.
Definition u_add lhs rhs : uint128 :=
  AddResult (MakeUint128 (u64 (Uint128High64 lhs + Uint128High64 rhs)) (u64 (Uint128Low64 lhs + Uint128Low64 rhs))) lhs.
Definition SubstructResult (result : uint128) lhs rhs : uint128 :=
  if Uint128Low64 lhs <? Uint128Low64 rhs then MakeUint128 (u64 (Uint128High64 result - 1)) (Uint128Low64 result) else result.
Definition u_sub lhs rhs : uint128 :=
  SubstructResult (MakeUint128 (u64 (Uint128High64 lhs - Uint128High64 rhs)) (u64 (Uint128Low64 lhs - Uint128Low64 rhs))) lhs rhs.

(** Four products of 32-bit halves. *)
Definition u_mul lhs rhs : outcome uint128 :=
  let a32 := Z.shiftr (Uint128Low64 lhs) 32 in
  let a00 := Z.land (Uint128Low64 lhs) 4294967295 in
  let b32 := Z.shiftr (Uint128Low64 rhs) 32 in
  let b00 := Z.land (Uint128Low64 rhs) 4294967295 in
  let result :=
    MakeUint128 (u64 (u64 (u64 (Uint128High64 lhs * Uint128Low64 rhs) + u64 (Uint128Low64 lhs * Uint128High64 rhs)) + u64 (a32 * b32)))
      (u64 (a00 * b00)) in
  do s <- u_shl (uint128_of_unsigned (u64 (a32 * b00))) 32;
  let result := u_add result s in
  do s <- u_shl (uint128_of_unsigned (u64 (a00 * b32))) 32;
  Ret (u_add result s).

(** The compiler's [_umul128]: the high and the low half of a product. *)
Class Umul128 := {
  umul128 : Z -> Z -> Z * Z;
  umul128_spec a b : inU 64 a -> inU 64 b -> umul128 a b = (a * b / 2 ^ 64, a * b mod 2 ^ 64);
}.
Definition u_mul_msvc `{Umul128} lhs rhs : uint128 :=
  let '(carry, low) := umul128 (Uint128Low64 lhs) (Uint128Low64 rhs) in
  MakeUint128 (u64 (u64 (u64 (Uint128Low64 lhs * Uint128High64 rhs) + u64 (Uint128High64 lhs * Uint128Low64 rhs)) + carry)) low.

(** [x++], [x--]: the old value and the new one. *)
Definition u_incr val : uint128 * uint128 := let tmp := val in (tmp, u_add val (uint128_of_signed 1)).
Definition u_decr val : uint128 * uint128 := let tmp := val in (tmp, u_sub val (uint128_of_signed 1)).

(** ** int128 on two halves *)

(** [hi_] is signed. *)
Record int128 := mkI { i_hi : Z; i_lo : Z }.
Implicit Types (v a b : int128).

Definition MakeInt128 (high low : Z) : int128 := mkI high low.
Definition Int128Low64 v : Z := i_lo v.
Definition Int128High64 v : Z := i_hi v.
Definition Int128Max : int128 := mkI kint64max kuint64max.
Definition Int128Min : int128 := mkI kint64min 0.

Definition BitCastToSigned (x : Z) : Z :=
  if negb (Z.land x (Z.shiftl 1 63) =? 0) then Z.lnot (i64 (notU x)) else i64 x.

Definition int128_of_signed (x : Z) : int128 := mkI (if x <? 0 then -1 else 0) (u64 x).
Definition int128_of_unsigned (x : Z) : int128 := mkI 0 x.
Definition int128_of_uint128 (x : uint128) : int128 := mkI (i64 (Uint128High64 x)) (Uint128Low64 x).
Definition uint128_of_int128 v : uint128 := mkU (u64 (Int128High64 v)) (Int128Low64 v).

(** To [bool], to unsigned integers, to [long long] and from there to the
    smaller signed ones. *)
Definition i_to_bool v : bool := negb (i_lo v =? 0) || negb (i_hi v =? 0).
Definition i_to_unsigned (w : Z) v : Z := wrapU w (i_lo v).
Definition i_to_long_long v : Z := BitCastToSigned (i_lo v).
Definition i_to_signed (w : Z) v : Z := wrapS w (i_to_long_long v).

Definition i_eq a b : bool := (Int128Low64 a =? Int128Low64 b) && (Int128High64 a =? Int128High64 b).
Definition i_ne a b : bool := negb (i_eq a b).
Definition i_lt a b : bool :=
  if Int128High64 a =? Int128High64 b then Int128Low64 a <? Int128Low64 b else Int128High64 a <? Int128High64 b.
Definition i_gt a b : bool :=
  if Int128High64 a =? Int128High64 b then Int128Low64 b <? Int128Low64 a else Int128High64 b <? Int128High64 a.
Definition i_le a b : bool := negb (i_gt a b).
Definition i_ge a b : bool := negb (i_lt a b).
(** The low halves are taken after a conversion to [uint128]. *)
Definition i_cmp a b : comparison :=
  let lhs_high := Int128High64 a in
  let rhs_high := Int128High64 b in
  if lhs_high <? rhs_high then Lt
  else if rhs_high <? lhs_high then Gt
  else
    let lhs_low := Uint128Low64 (uint128_of_int128 a) in
    let rhs_low := Uint128Low64 (uint128_of_int128 b) in
    if lhs_low <? rhs_low then Lt else if rhs_low <? lhs_low then Gt else Eq.

Definition i_plus v : int128 := v.
Definition i_neg v : outcome int128 :=
  do h <- signed 64 (Z.lnot (Int128High64 v) + bit (Int128Low64 v =? 0));
  Ret (MakeInt128 h (u64 (notU (Int128Low64 v) + 1))).
Definition i_not v : bool := (Int128Low64 v =? 0) && (Int128High64 v =? 0).
Definition i_compl v : int128 := MakeInt128 (Z.lnot (Int128High64 v)) (notU (Int128Low64 v)).

Definition SignedAddResult (result : int128) a : outcome int128 :=
  if Int128Low64 result <? Int128Low64 a
  then do h <- signed 64 (Int128High64 result + 1); Ret (MakeInt128 h (Int128Low64 result)) else Ret result.
Definition i_add a b : outcome int128 :=
  do h <- signed 64 (Int128High64 a + Int128High64 b);
  SignedAddResult (MakeInt128 h (u64 (Int128Low64 a + Int128Low64 b))) a.
Definition SignedSubstructResult (result : int128) a b : outcome int128 :=
  if Int128Low64 a <? Int128Low64 b
  then do h <- signed 64 (Int128High64 result - 1); Ret (MakeInt128 h (Int128Low64 result)) else Ret result.
Definition i_sub a b : outcome int128 :=
  do h <- signed 64 (Int128High64 a - Int128High64 b);
  SignedSubstructResult (MakeInt128 h (u64 (Int128Low64 a - Int128Low64 b))) a b.

Definition i_mul a b : outcome int128 :=
  do p <- u_mul (uint128_of_int128 a) (uint128_of_int128 b);
  Ret (MakeInt128 (BitCastToSigned (Uint128High64 p)) (Uint128Low64 p)).

Definition i_incr v : outcome (int128 * int128) := let tmp := v in do v <- i_add v (int128_of_signed 1); Ret (tmp, v).
Definition i_decr v : outcome (int128 * int128) := let tmp := v in do v <- i_sub v (int128_of_signed 1); Ret (tmp, v).

Definition i_halves (f : Z -> Z -> Z) a b : int128 :=
  MakeInt128 (f (Int128High64 a) (Int128High64 b)) (f (Int128Low64 a) (Int128Low64 b)).
Definition i_or a b : int128 := i_halves Z.lor a b.
Definition i_and a b : int128 := i_halves Z.land a b.
Definition i_xor a b : int128 := i_halves Z.lxor a b.

(** [assert], which ends the program unless [NDEBUG] is defined. *)
Definition assert (ndebug b : bool) : outcome unit := if ndebug || b then Ret tt else Throw fatal_message.

Definition i_shl (ndebug : bool) a (amount : Z) : outcome int128 :=
  do _ <- assert ndebug ((0 <=? amount) && (amount <? 127));
  if amount <=? 0 then Ret a
  else if amount <? 63 then
    do h <- shlS (Int128High64 a) amount;
    do m <- shrU (Int128Low64 a) (64 - amount);
    do l <- shlU (Int128Low64 a) amount;
    Ret (MakeInt128 (Z.lor h (i64 m)) l)
  else if amount =? 63 then
    do h <- shlS (Int128High64 a) 32;
    do h <- shlS h 31;
    do m <- shrU (Int128Low64 a) 1;
    do l <- shlU (Int128Low64 a) 32;
    do l <- shlU l 31;
    Ret (MakeInt128 (Z.lor h (i64 m)) l)
  else if amount =? 127 then do h <- shlU (Int128Low64 a) 63; Ret (MakeInt128 (i64 h) 0)
  else if 127 <? amount then Ret (MakeInt128 0 0)
  else do h <- shlU (Int128Low64 a) (amount - 64); Ret (MakeInt128 (i64 h) 0).

Definition i_shr (ndebug : bool) a (amount : Z) : outcome int128 :=
  do _ <- assert ndebug ((0 <=? amount) && (amount <? 127));
  if amount <=? 0 then Ret a
  else if amount <? 63 then
    do h <- shrS (Int128High64 a) amount;
    do l <- shrU (Int128Low64 a) amount;
    do m <- shlU (u64 (Int128High64 a)) (64 - amount);
    Ret (MakeInt128 h (Z.lor l m))
  else if amount =? 63 then
    do h <- shrS (Int128High64 a) 32;
    do h <- shrS h 31;
    do m <- shlS (Int128High64 a) 1;
    do l <- shrU (Int128Low64 a) 32;
    do l <- shrU l 31;
    Ret (MakeInt128 h (Z.lor (u64 m) l))
  else
    do h <- shrS (Int128High64 a) 32;
    do h <- shrS h 31;
    if 127 <=? amount then Ret (MakeInt128 h (u64 h))
    else do l <- shrS (Int128High64 a) (amount - 64); Ret (MakeInt128 h (u64 l)).

(** ** uint128 by the compiler's integers *)

(** The conversions to [unsigned __int128] and back. *)
Definition to_native val : Z := wrapU 128 (wrapU 128 (Z.shiftl (u_hi val) 64) + u_lo val).
Definition of_native (x : Z) : uint128 := mkU (u64 (Z.shiftr x 64)) (u64 (Z.land x kuint64max)).

Definition nu_eq lhs rhs : bool := to_native lhs =? to_native rhs.
Definition nu_lt lhs rhs : bool := to_native lhs <? to_native rhs.
Definition nu_cmp lhs rhs : comparison :=
  let lhs_128 := to_native lhs in
  let rhs_128 := to_native rhs in
  if lhs_128 <? rhs_128 then Lt else if rhs_128 <? lhs_128 then Gt else Eq.
Definition nu_neg val : uint128 := of_native (wrapU 128 (- to_native val)).
Definition nu_not val : bool := to_native val =? 0.
Definition nu_compl val : uint128 := of_native (wrapU 128 (Z.lnot (to_native val))).
Definition nu_or lhs rhs : uint128 := of_native (Z.lor (to_native lhs) (to_native rhs)).
Definition nu_and lhs rhs : uint128 := of_native (Z.land (to_native lhs) (to_native rhs)).
Definition nu_xor lhs rhs : uint128 := of_native (Z.lxor (to_native lhs) (to_native rhs)).
Definition in_width128 (n : Z) : bool := (0 <=? n) && (n <? 128).
Definition nu_shl lhs (amount : Z) : outcome uint128 :=
  if in_width128 amount then Ret (of_native (wrapU 128 (Z.shiftl (to_native lhs) amount))) else UB.
Definition nu_shr lhs (amount : Z) : outcome uint128 :=
  if in_width128 amount then Ret (of_native (Z.shiftr (to_native lhs) amount)) else UB.
Definition nu_add lhs rhs : uint128 := of_native (wrapU 128 (to_native lhs + to_native rhs)).
Definition nu_sub lhs rhs : uint128 := of_native (wrapU 128 (to_native lhs - to_native rhs)).
Definition nu_mul lhs rhs : uint128 := of_native (wrapU 128 (to_native lhs * to_native rhs)).
Definition nu_div lhs rhs : outcome uint128 := if to_native rhs =? 0 then UB else Ret (of_native (to_native lhs / to_native rhs)).
Definition nu_mod lhs rhs : outcome uint128 := if to_native rhs =? 0 then UB else Ret (of_native (to_native lhs mod to_native rhs)).

(** ** int128 by the compiler's integers *)

(** The member [v_], an [__int128]. *)
Record native := mkN { v_ : Z }.
Implicit Types (m n : native).

Definition BitCastToSigned128 (x : Z) : Z :=
  if negb (Z.land x (Z.shiftl 1 127) =? 0) then Z.lnot (wrapS 128 (wrapU 128 (Z.lnot x))) else wrapS 128 x.
Definition n_Low64 n : Z := u64 (Z.land (v_ n) kuint64max).
Definition n_High64 n : Z := BitCastToSigned (u64 (Z.shiftr (wrapU 128 (v_ n)) 64)).
Definition n_Make (high low : Z) : native := mkN (Z.lor (BitCastToSigned128 (wrapU 128 (Z.shiftl (wrapU 128 high) 64))) low).
(** [int], [long], [long long], their unsigned types and [__int128]. *)
Definition n_of (x : Z) : native := mkN x.
Definition n_of_unsigned128 (x : Z) : native := mkN (wrapS 128 x).
Definition n_of_uint128 (x : uint128) : native := mkN (wrapS 128 (Z.shiftl (u_hi x) 64) + u_lo x).

Definition n_to_bool n : bool := negb (v_ n =? 0).
Definition n_to_unsigned (w : Z) n : Z := wrapU w (v_ n).
Definition n_to_signed (w : Z) n : Z := wrapS w (v_ n).

Definition n_eq m n : bool := v_ m =? v_ n.
Definition n_ne m n : bool := negb (v_ m =? v_ n).
Definition n_lt m n : bool := v_ m <? v_ n.
Definition n_gt m n : bool := v_ n <? v_ m.
Definition n_le m n : bool := v_ m <=? v_ n.
Definition n_ge m n : bool := v_ n <=? v_ m.
Definition n_cmp m n : comparison :=
  let lhs_128 := v_ m in
  let rhs_128 := v_ n in
  if lhs_128 <? rhs_128 then Lt else if rhs_128 <? lhs_128 then Gt else Eq.

Definition checked (x : Z) : outcome native := do x <- signed 128 x; Ret (mkN x).
Definition n_neg n : outcome native := checked (- v_ n).
Definition n_not n : bool := v_ n =? 0.
Definition n_compl n : native := mkN (Z.lnot (v_ n)).
Definition n_add m n : outcome native := checked (v_ m + v_ n).
Definition n_sub m n : outcome native := checked (v_ m - v_ n).
Definition n_mul m n : outcome native := checked (v_ m * v_ n).
Definition n_div m n : outcome native := if v_ n =? 0 then UB else checked (Z.quot (v_ m) (v_ n)).
Definition n_mod m n : outcome native := if v_ n =? 0 then UB else do _ <- checked (Z.quot (v_ m) (v_ n)); Ret (mkN (Z.rem (v_ m) (v_ n))).
Definition n_incr n : outcome (native * native) := let tmp := n in do n <- checked (v_ n + 1); Ret (tmp, n).
Definition n_decr n : outcome (native * native) := let tmp := n in do n <- checked (v_ n - 1); Ret (tmp, n).
Definition n_or m n : native := mkN (Z.lor (v_ m) (v_ n)).
Definition n_and m n : native := mkN (Z.land (v_ m) (v_ n)).
Definition n_xor m n : native := mkN (Z.lxor (v_ m) (v_ n)).
Definition n_shl n (amount : Z) : outcome native :=
  if in_width128 amount then Ret (mkN (wrapS 128 (Z.shiftl (v_ n) amount))) else UB.
Definition n_shr n (amount : Z) : outcome native :=
  if in_width128 amount then Ret (mkN (Z.shiftr (v_ n) amount)) else UB.

(** ** Two halves as one number *)

Definition pack (h l : Z) : Z := h * 2 ^ 64 + l.
Definition wfU val : Prop := inU 64 (u_hi val) /\ inU 64 (u_lo val).
Definition wfI v : Prop := inS 64 (i_hi v) /\ inU 64 (i_lo v).
Definition uval val : Z := pack (u_hi val) (u_lo val).
Definition ival v : Z := pack (i_hi v) (i_lo v).

#[local] Ltac widths :=
  unfold inU, inS, uval, ival, pack, wfU, wfI, kuint64max, kint64max, kint64min in *; simpl u_hi in *; simpl u_lo in *; simpl i_hi in *; simpl i_lo in *;
  change (2 ^ 64) with 18446744073709551616 in *; change (2 ^ (64 - 1)) with 9223372036854775808 in *;
  change (2 ^ 63) with 9223372036854775808 in *;
  change (2 ^ 128) with 340282366920938463463374607431768211456 in *;
  change (2 ^ (128 - 1)) with 170141183460469231731687303715884105728 in *.

Lemma pack_inj h1 l1 h2 l2 : inU 64 l1 -> inU 64 l2 -> pack h1 l1 = pack h2 l2 -> h1 = h2 /\ l1 = l2.
Proof. intros. widths. lia. Qed.

Lemma pack_inU h l : inU 64 h -> inU 64 l -> inU 128 (pack h l).
Proof. intros. widths. lia. Qed.

Lemma pack_inS h l : inS 64 h -> inU 64 l -> inS 128 (pack h l).
Proof. intros. widths. lia. Qed.

Lemma pack_testbit h l i : inU 64 l -> Z.testbit (pack h l) i = if i <? 64 then Z.testbit l i else Z.testbit h (i - 64).
Proof.
  intros Hl. destruct (Z.ltb_spec i 0) as [Hn|Hn].
  { rewrite !Z.testbit_neg_r by done. by rewrite (proj2 (Z.ltb_lt _ _)) by lia. }
  assert (E : pack h l = Z.lor (Z.shiftl h 64) l).
  { unfold pack. rewrite <- Z.shiftl_mul_pow2 by lia. rewrite Z.add_nocarry_lxor, Z.lxor_lor; [done|..];
      apply Z.bits_inj'; intros j Hj; rewrite Z.land_spec, Z.shiftl_spec, Z.bits_0 by done;
      (destruct (Z.ltb_spec j 64); [by rewrite Z.testbit_neg_r by lia|]); rewrite (inU_testbit 64 l j) by (done || lia); apply andb_false_r. }
  rewrite E, Z.lor_spec, Z.shiftl_spec by done. destruct (Z.ltb_spec i 64) as [Hi|Hi].
  - by rewrite (Z.testbit_neg_r h) by lia.
  - rewrite (inU_testbit 64 l i) by (done || lia). apply orb_false_r.
Qed.

(** Bits at any index, negative ones included. *)
Lemma wrapU_bit w x i : 0 <= w -> Z.testbit (wrapU w x) i = (i <? w) && Z.testbit x i.
Proof.
  intros Hw. destruct (Z.ltb_spec i 0) as [Hn|Hn]; [|by apply wrapU_testbit]. by rewrite !Z.testbit_neg_r, andb_false_r by done.
Qed.

Lemma shiftl_bit (x n i : Z) : 0 <= n -> Z.testbit (Z.shiftl x n) i = Z.testbit x (i - n).
Proof.
  intros Hw. destruct (Z.ltb_spec i 0) as [Hn|Hn]; [|by apply Z.shiftl_spec]. by rewrite !Z.testbit_neg_r by lia.
Qed.

Lemma shiftr_bit (x n i : Z) : 0 <= n -> Z.testbit (Z.shiftr x n) i = (0 <=? i) && Z.testbit x (i + n).
Proof.
  intros Hw. destruct (Z.leb_spec 0 i) as [Hn|Hn]; [by apply Z.shiftr_spec|]. by rewrite !Z.testbit_neg_r by lia.
Qed.

Lemma sign_bit w y : 0 < w -> inU w y -> Z.testbit y (w - 1) = (2 ^ (w - 1) <=? y).
Proof.
  intros Hw Hy. pose proof (pow2_half w Hw) as E. unfold inU in Hy. rewrite Z.testbit_eqb by lia. destruct (Z.leb_spec (2 ^ (w - 1)) y).
  - rewrite <- (Z.div_unique y (2 ^ (w - 1)) 1 (y - 2 ^ (w - 1))) by lia. done.
  - by rewrite Z.div_small by lia.
Qed.

Lemma wrapS_inU w y : 0 < w -> inU w y -> wrapS w y = if 2 ^ (w - 1) <=? y then y - 2 ^ w else y.
Proof.
  intros Hw Hy. pose proof (pow2_half w Hw) as E. unfold inU in Hy. destruct (Z.leb_spec (2 ^ (w - 1)) y).
  - unfold wrapS. rewrite <- (Z.mod_unique (y + 2 ^ (w - 1)) (2 ^ w) 1 (y - 2 ^ (w - 1))); lia.
  - apply wrapS_id; [done|]. unfold inS. lia.
Qed.

Lemma wrapS_bit w x i : 0 < w -> Z.testbit (wrapS w x) i = if i <? w then Z.testbit x i else Z.testbit x (w - 1).
Proof.
  intros Hw. set (y := wrapU w x).
  assert (Hlow : forall j, j < w -> Z.testbit x j = Z.testbit y j).
  { intros j Hj. unfold y. rewrite wrapU_bit by lia. by rewrite (proj2 (Z.ltb_lt _ _)). }
  rewrite <- (wrapS_wrapU w x Hw). fold y. pose proof (wrapU_range w x ltac:(lia)) as Hy. fold y in Hy.
  rewrite (Hlow (w - 1)), (sign_bit w y), (wrapS_inU w y) by (done || lia). destruct (Z.leb_spec (2 ^ (w - 1)) y) as [Hb|Hb].
  - destruct (Z.ltb_spec i w) as [Hi|Hi].
    + rewrite Hlow by done. destruct (Z.ltb_spec i 0) as [Hn|Hn]; [by rewrite !Z.testbit_neg_r|].
      replace (y - 2 ^ w) with (y + (-1) * 2 ^ w) by lia. by rewrite <- (Z.mod_pow2_bits_low (y + -1 * 2 ^ w) w), Z.mod_add, Z.mod_pow2_bits_low by lia.
    + replace (y - 2 ^ w) with (Z.lnot (2 ^ w - 1 - y)) by (unfold Z.lnot; lia).
      rewrite Z.lnot_spec by lia. rewrite (inU_testbit w) by (unfold inU in *; lia). done.
  - destruct (Z.ltb_spec i w); [by rewrite Hlow|]. apply (inU_testbit w); [done|lia].
Qed.

Lemma inS_testbit x i : inS 64 x -> 63 <= i -> Z.testbit x i = Z.testbit x 63.
Proof.
  intros Hx Hi. rewrite <- (wrapS_id 64 x ltac:(lia) Hx), !wrapS_bit by lia. destruct (Z.ltb_spec i 64); [|done]. by replace i with 63 by lia.
Qed.

Lemma half_bits x : (0 <= x) -> (forall i, 64 <= i -> Z.testbit x i = false) -> inU 64 x.
Proof.
  intros Hx Hb. destruct (Z.ltb_spec x (2 ^ 64)) as [Hl|Hl]; [by split|]. exfalso.
  assert (H64 : 64 <= Z.log2 x) by (apply (Z.log2_le_mono (2 ^ 64)); done).
  specialize (Hb (Z.log2 x) H64). rewrite Z.bit_log2 in Hb by lia. done.
Qed.

Lemma inU_land x y : inU 64 x -> inU 64 y -> inU 64 (Z.land x y).
Proof.
  intros Hx Hy. apply half_bits; [apply Z.land_nonneg; left; apply Hx|]. intros i Hi. rewrite Z.land_spec, (inU_testbit 64 x) by (done || lia). done.
Qed.
Lemma inU_lor x y : inU 64 x -> inU 64 y -> inU 64 (Z.lor x y).
Proof.
  intros Hx Hy. apply half_bits; [apply Z.lor_nonneg; split; [apply Hx|apply Hy]|]. intros i Hi.
  by rewrite Z.lor_spec, (inU_testbit 64 x), (inU_testbit 64 y) by (done || lia).
Qed.
Lemma inU_lxor x y : inU 64 x -> inU 64 y -> inU 64 (Z.lxor x y).
Proof.
  intros Hx Hy. apply half_bits; [apply Z.lxor_nonneg; split; intros _; [apply Hy|apply Hx]|]. intros i Hi.
  by rewrite Z.lxor_spec, (inU_testbit 64 x), (inU_testbit 64 y) by (done || lia).
Qed.
Lemma inU_shiftr x (k : Z) : inU 64 x -> 0 <= k -> inU 64 (Z.shiftr x k).
Proof.
  intros Hx Hk. apply half_bits; [apply Z.shiftr_nonneg, Hx|]. intros i Hi. rewrite Z.shiftr_spec by lia. apply (inU_testbit 64); [done|lia].
Qed.

(** Comparing two numbers bit by bit. *)
#[local] Ltac bit_cases :=
  repeat match goal with
  | |- context [?x <? ?y] => destruct (Z.ltb_spec x y)
  | |- context [?x <=? ?y] => destruct (Z.leb_spec x y)
  end.
#[local] Ltac bit_finish :=
  repeat match goal with
  | |- context [Z.testbit ?x ?j] => rewrite (Z.testbit_neg_r x j) by lia
  | H : inU 64 ?x |- context [Z.testbit ?x ?j] => rewrite (inU_testbit 64 x j H) by lia
  | H : inS 64 ?x |- context [Z.testbit ?x ?j] => assert_fails (constr_eq j 63); rewrite (inS_testbit x j H) by lia
  end; rewrite ?Z.bits_0, ?andb_false_r, ?orb_false_r; simpl; try lia; try done;
  repeat match goal with
  | |- context [Z.testbit ?x ?a] => match goal with |- context [Z.testbit x ?b] => assert_fails (constr_eq a b); replace b with a by lia end
  end; try reflexivity.
(** A half is in range. *)
#[local] Ltac half := first [done | apply wrapU_range; lia | apply inU_land; half | apply inU_lor; half | apply inU_lxor; half | apply inU_shiftr; [half|lia]].
#[local] Ltac bits :=
  apply Z.bits_inj'; intros i Hi;
  repeat first [rewrite pack_testbit by half | rewrite wrapU_bit by lia | rewrite wrapS_bit by lia | rewrite Z.lor_spec
    | rewrite Z.land_spec | rewrite Z.lxor_spec | rewrite Z.lnot_spec by lia | rewrite shiftl_bit by lia | rewrite shiftr_bit by lia];
  bit_cases; bit_finish.

(** Shifts of both halves at once. *)
Lemma pack_shl h l (k : Z) : inU 64 l -> 0 < k < 64 ->
  wrapU 128 (Z.shiftl (pack h l) k) = pack (Z.lor (u64 (Z.shiftl h k)) (Z.shiftr l (64 - k))) (u64 (Z.shiftl l k)).
Proof. intros Hl Hk. bits. Qed.
Lemma pack_shl_far h l (k : Z) : inU 64 l -> 64 <= k < 128 ->
  wrapU 128 (Z.shiftl (pack h l) k) = pack (u64 (Z.shiftl l (k - 64))) 0.
Proof. intros Hl Hk. assert (inU 64 0) by done. bits. Qed.
Lemma pack_shr h l (k : Z) : inU 64 l -> 0 < k < 64 ->
  Z.shiftr (pack h l) k = pack (Z.shiftr h k) (Z.lor (Z.shiftr l k) (u64 (Z.shiftl h (64 - k)))).
Proof. intros Hl Hk. bits. Qed.
Lemma pack_shr_far h l (k : Z) : inU 64 l -> inU 64 h -> 64 <= k -> Z.shiftr (pack h l) k = pack 0 (Z.shiftr h (k - 64)).
Proof. intros Hl Hh Hk. bits. Qed.

Lemma pack_lor h1 l1 h2 l2 : inU 64 l1 -> inU 64 l2 -> Z.lor (pack h1 l1) (pack h2 l2) = pack (Z.lor h1 h2) (Z.lor l1 l2).
Proof. intros. bits. Qed.
Lemma pack_land h1 l1 h2 l2 : inU 64 l1 -> inU 64 l2 -> Z.land (pack h1 l1) (pack h2 l2) = pack (Z.land h1 h2) (Z.land l1 l2).
Proof. intros. bits. Qed.
Lemma pack_lxor h1 l1 h2 l2 : inU 64 l1 -> inU 64 l2 -> Z.lxor (pack h1 l1) (pack h2 l2) = pack (Z.lxor h1 h2) (Z.lxor l1 l2).
Proof. intros. bits. Qed.

(** ** The unsigned type *)

Lemma to_native_val val : wfU val -> to_native val = uval val.
Proof.
  intros (Hh & Hl). unfold to_native. rewrite Z.shiftl_mul_pow2 by lia. rewrite (wrapU_id 128 (_ * _)) by (widths; lia).
  apply wrapU_id. by apply pack_inU.
Qed.

Lemma of_native_eq (r : uint128) x : wfU r -> uval r = x -> of_native x = r.
Proof.
  intros (Hh & Hl) <-. unfold of_native, uval, kuint64max. destruct r as [h l]. simpl in *.
  rewrite Z.shiftr_div_pow2 by lia. change (2 ^ 64 - 1) with (Z.ones 64). rewrite Z.land_ones by lia. f_equal.
  - rewrite <- (Z.div_unique (pack h l) (2 ^ 64) h l); [by apply wrapU_id|left; exact Hl|unfold pack; lia].
  - rewrite <- (Z.mod_unique (pack h l) (2 ^ 64) h l); [by apply wrapU_id|left; exact Hl|unfold pack; lia].
Qed.

Lemma u64_add_carry x y : inU 64 x -> inU 64 y ->
  u64 (x + y) = x + y /\ (u64 (x + y) <? x) = false /\ x + y < 2 ^ 64 \/
  u64 (x + y) = x + y - 2 ^ 64 /\ (u64 (x + y) <? x) = true /\ 2 ^ 64 <= x + y.
Proof.
  intros Hx Hy. unfold inU in *. destruct (Z.ltb_spec (x + y) (2 ^ 64)) as [Hs|Hs]; [left|right].
  - rewrite wrapU_id by (unfold inU; lia). split; [done|]. rewrite (proj2 (Z.ltb_ge _ _)) by lia. done.
  - assert (E : u64 (x + y) = x + y - 2 ^ 64) by (symmetry; apply (Z.mod_unique _ _ 1); lia). rewrite E.
    split; [done|]. rewrite (proj2 (Z.ltb_lt _ _)) by lia. done.
Qed.

Lemma u64_sub_borrow x y : inU 64 x -> inU 64 y ->
  u64 (x - y) = x - y /\ (x <? y) = false \/ u64 (x - y) = x - y + 2 ^ 64 /\ (x <? y) = true.
Proof.
  intros Hx Hy. unfold inU in *. destruct (Z.ltb_spec x y) as [Hs|Hs]; [right|left].
  - split; [|done]. symmetry. apply (Z.mod_unique _ _ (-1)); lia.
  - split; [|done]. apply wrapU_id. unfold inU. lia.
Qed.

(** What a wrap takes away. *)
Lemma wrapU_minus w x : 0 <= w -> exists q, wrapU w x = x - q * 2 ^ w.
Proof. intros Hw. exists (x / 2 ^ w). unfold wrapU. pose proof (Z.div_mod x (2 ^ w) ltac:(pose proof (pow2_pos w Hw); lia)). lia. Qed.

Lemma wrap128_eq x y q : inU 128 y -> x = y + q * 2 ^ 128 -> wrapU 128 x = y.
Proof. intros Hy ->. unfold wrapU. rewrite Z.mod_add by done. by apply wrapU_id. Qed.

Lemma wfU_make h l : inU 64 l -> wfU (MakeUint128 (u64 h) l).
Proof. intros Hl. split; [apply wrapU_range; lia|done]. Qed.

Lemma u_add_spec lhs rhs : wfU lhs -> wfU rhs -> wfU (u_add lhs rhs) /\ uval (u_add lhs rhs) = wrapU 128 (uval lhs + uval rhs).
Proof.
  intros (Ha & Hb) (Hc & Hd). destruct lhs as [ha la], rhs as [hb lb]. simpl in *. unfold u_add, AddResult, MakeUint128, Uint128Low64, Uint128High64. simpl.
  destruct (u64_add_carry la lb Hb Hd) as [(E & -> & Hs)|(E & -> & Hs)].
  - assert (W : wfU (mkU (u64 (ha + hb)) (u64 (la + lb)))) by (apply wfU_make, wrapU_range; lia). split; [done|].
    destruct (wrapU_minus 64 (ha + hb)) as [q Eq]; [lia|]. symmetry. apply (wrap128_eq _ _ q); [by apply pack_inU; apply W|].
    unfold uval, pack. simpl. rewrite E, Eq. lia.
  - assert (W : wfU (mkU (u64 (u64 (ha + hb) + 1)) (u64 (la + lb)))) by (apply wfU_make, wrapU_range; lia). split; [done|].
    destruct (wrapU_minus 64 (ha + hb)) as [q Eq]; [lia|]. destruct (wrapU_minus 64 (u64 (ha + hb) + 1)) as [q2 Eq2]; [lia|].
    symmetry. apply (wrap128_eq _ _ (q + q2)); [by apply pack_inU; apply W|]. unfold uval, pack. simpl. rewrite E, Eq2, Eq. lia.
Qed.

Lemma u_sub_spec lhs rhs : wfU lhs -> wfU rhs -> wfU (u_sub lhs rhs) /\ uval (u_sub lhs rhs) = wrapU 128 (uval lhs - uval rhs).
Proof.
  intros (Ha & Hb) (Hc & Hd). destruct lhs as [ha la], rhs as [hb lb]. simpl in *. unfold u_sub, SubstructResult, MakeUint128, Uint128Low64, Uint128High64. simpl.
  destruct (u64_sub_borrow la lb Hb Hd) as [(E & ->)|(E & ->)].
  - assert (W : wfU (mkU (u64 (ha - hb)) (u64 (la - lb)))) by (apply wfU_make, wrapU_range; lia). split; [done|].
    destruct (wrapU_minus 64 (ha - hb)) as [q Eq]; [lia|]. symmetry. apply (wrap128_eq _ _ q); [by apply pack_inU; apply W|].
    unfold uval, pack. simpl. rewrite E, Eq. lia.
  - assert (W : wfU (mkU (u64 (u64 (ha - hb) - 1)) (u64 (la - lb)))) by (apply wfU_make, wrapU_range; lia). split; [done|].
    destruct (wrapU_minus 64 (ha - hb)) as [q Eq]; [lia|]. destruct (wrapU_minus 64 (u64 (ha - hb) - 1)) as [q2 Eq2]; [lia|].
    symmetry. apply (wrap128_eq _ _ (q + q2)); [by apply pack_inU; apply W|]. unfold uval, pack. simpl. rewrite E, Eq2, Eq. lia.
Qed.

Lemma u_shl_spec val (amount : Z) : wfU val ->
  if in_width128 amount
  then exists r, u_shl val amount = Ret r /\ wfU r /\ uval r = wrapU 128 (Z.shiftl (uval val) amount)
  else u_shl val amount = UB.
Proof.
  intros (Hh & Hl). destruct val as [h l]. simpl in *. unfold in_width128, u_shl, shlU, shrU, in_width, Uint128Low64, Uint128High64, MakeUint128. simpl.
  destruct (Z.leb_spec 64 amount) as [E|E].
  - rewrite !(proj2 (Z.leb_le 0 _)) by lia. cbn [andb]. destruct (Z.ltb_spec amount 128) as [E2|E2].
    + rewrite (proj2 (Z.ltb_lt _ _)) by lia. cbn [obind]. eexists. split; [done|]. split; [by apply wfU_make|]. unfold uval. simpl. by rewrite pack_shl_far.
    + by rewrite (proj2 (Z.ltb_ge _ _)) by lia.
  - rewrite (proj2 (Z.ltb_lt amount 128)) by lia. rewrite andb_true_r. destruct (Z.eqb_spec amount 0) as [->|E0].
    + eexists. split; [done|]. split; [done|]. rewrite Z.shiftl_0_r. unfold uval. symmetry. apply wrapU_id. by apply pack_inU.
    + destruct (Z.leb_spec 0 amount) as [E1|E1]; cbn [andb]; [|by destruct (Z.ltb_spec amount 64); [|lia]].
      rewrite !(proj2 (Z.ltb_lt _ 64)), (proj2 (Z.leb_le 0 (64 - amount))) by lia. cbn [andb obind]. eexists. split; [done|].
      split; [split; [apply inU_lor; half|half]|]. unfold uval. simpl. by rewrite pack_shl by (done || lia).
Qed.

Lemma u_shr_spec val (amount : Z) : wfU val ->
  if in_width128 amount
  then exists r, u_shr val amount = Ret r /\ wfU r /\ uval r = Z.shiftr (uval val) amount
  else u_shr val amount = UB.
Proof.
  intros (Hh & Hl). destruct val as [h l]. simpl in *. unfold in_width128, u_shr, shlU, shrU, in_width, Uint128Low64, Uint128High64, MakeUint128. simpl.
  destruct (Z.leb_spec 64 amount) as [E|E].
  - rewrite !(proj2 (Z.leb_le 0 _)) by lia. cbn [andb]. destruct (Z.ltb_spec amount 128) as [E2|E2].
    + rewrite (proj2 (Z.ltb_lt _ _)) by lia. cbn [obind]. eexists. split; [done|]. split; [split; [done|half]|]. unfold uval. simpl. by rewrite pack_shr_far.
    + by rewrite (proj2 (Z.ltb_ge _ _)) by lia.
  - rewrite (proj2 (Z.ltb_lt amount 128)) by lia. rewrite andb_true_r. destruct (Z.eqb_spec amount 0) as [->|E0].
    + eexists. split; [done|]. split; [done|]. by rewrite Z.shiftr_0_r.
    + destruct (Z.leb_spec 0 amount) as [E1|E1]; cbn [andb]; [|by destruct (Z.ltb_spec amount 64); [|lia]].
      rewrite !(proj2 (Z.ltb_lt _ 64)), (proj2 (Z.leb_le 0 (64 - amount))) by lia. cbn [andb obind]. eexists. split; [done|].
      split; [split; half|]. unfold uval. simpl. by rewrite pack_shr by (done || lia).
Qed.

(** ** Products *)

(** The 32-bit halves of a 64-bit number. *)
Lemma split32 x : inU 64 x -> exists x32 x00,
  Z.shiftr x 32 = x32 /\ Z.land x 4294967295 = x00 /\ x = x32 * 2 ^ 32 + x00 /\ inU 32 x32 /\ inU 32 x00.
Proof.
  intros Hx. exists (x / 2 ^ 32), (x mod 2 ^ 32). rewrite Z.shiftr_div_pow2 by lia. change 4294967295 with (Z.ones 32). rewrite Z.land_ones by lia.
  pose proof (Z.div_mod x (2 ^ 32) ltac:(done)). pose proof (Z.mod_pos_bound x (2 ^ 32) ltac:(done)). unfold inU in *.
  split_and!; [done|done|lia| | |lia..]; [apply Z.div_pos; lia|apply Z.div_lt_upper_bound; [done|]; change (2 ^ 32 * 2 ^ 32) with (2 ^ 64); lia].
Qed.

Lemma product32 x y : inU 32 x -> inU 32 y -> inU 64 (x * y).
Proof. unfold inU. intros Hx Hy. change (2 ^ 64) with (2 ^ 32 * 2 ^ 32). nia. Qed.

(** A product shifted by half a word. *)
Lemma middle_product x y : inU 32 x -> inU 32 y ->
  exists r, u_shl (uint128_of_unsigned (u64 (x * y))) 32 = Ret r /\ wfU r /\ uval r = x * y * 2 ^ 32.
Proof.
  intros Hx Hy. pose proof (product32 x y Hx Hy) as Hp. rewrite (wrapU_id 64) by done.
  pose proof (u_shl_spec (uint128_of_unsigned (x * y)) 32 ltac:(by split)) as W. cbn [in_width128 Z.leb Z.ltb Z.compare andb] in W.
  destruct W as (r & E & Hr & V). exists r. split; [done|]. split; [done|]. rewrite V. unfold uval, uint128_of_unsigned, pack. simpl.
  rewrite Z.add_0_l, Z.shiftl_mul_pow2 by lia. apply wrapU_id. unfold inU in *. change (2 ^ 128) with (2 ^ 96 * 2 ^ 32). nia.
Qed.

Lemma u_mul_spec lhs rhs : wfU lhs -> wfU rhs ->
  exists r, u_mul lhs rhs = Ret r /\ wfU r /\ uval r = wrapU 128 (uval lhs * uval rhs).
Proof.
  intros (Ha & Hb) (Hc & Hd). destruct lhs as [ha la], rhs as [hb lb]. simpl in *. unfold u_mul, Uint128Low64, Uint128High64. cbn [u_hi u_lo].
  destruct (split32 la Hb) as (a32 & a00 & -> & -> & Ela & Ha32 & Ha00). destruct (split32 lb Hd) as (b32 & b00 & -> & -> & Elb & Hb32 & Hb00).
  destruct (middle_product a32 b00 Ha32 Hb00) as (m1 & -> & W1 & V1). destruct (middle_product a00 b32 Ha00 Hb32) as (m2 & -> & W2 & V2). cbn [obind].
  set (top := MakeUint128 _ _).
  assert (Wt : wfU top) by (apply wfU_make, wrapU_range; lia).
  destruct (u_add_spec top m1 Wt W1) as [Ws Vs]. destruct (u_add_spec _ m2 Ws W2) as [Wr Vr].
  eexists. split; [done|]. split; [exact Wr|]. rewrite Vr, Vs, V1, V2.
  destruct (wrapU_minus 64 (ha * lb)) as [q1 E1]; [lia|]. destruct (wrapU_minus 64 (la * hb)) as [q2 E2]; [lia|].
  destruct (wrapU_minus 64 (u64 (ha * lb) + u64 (la * hb))) as [q3 E3]; [lia|].
  destruct (wrapU_minus 64 (u64 (u64 (ha * lb) + u64 (la * hb)) + u64 (a32 * b32))) as [q4 E4]; [lia|].
  assert (Vt : uval top = (ha * lb + la * hb + a32 * b32 - (q1 + q2 + q3 + q4) * 2 ^ 64) * 2 ^ 64 + a00 * b00).
  { unfold top, uval, pack. simpl. rewrite (wrapU_id 64 (a00 * b00)) by (by apply product32).
    rewrite E4, E3, E1, E2, (wrapU_id 64 (a32 * b32)) by (by apply product32). ring. }
  destruct (wrapU_minus 128 (uval top + a32 * b00 * 2 ^ 32)) as [q5 E5]; [lia|]. rewrite E5.
  destruct (wrapU_minus 128 (uval (mkU ha la) * uval (mkU hb lb))) as [q6 E6]; [lia|].
  apply (wrap128_eq _ _ (q6 - q5 - (q1 + q2 + q3 + q4) - ha * hb)); [apply wrapU_range; lia|]. rewrite E6, Vt. unfold uval, pack. simpl u_hi. simpl u_lo.
  change (2 ^ 128) with (2 ^ 64 * 2 ^ 64). change (2 ^ 64) with (2 ^ 32 * 2 ^ 32). rewrite Ela, Elb. ring.
Qed.

Lemma u_mul_msvc_spec `{Umul128} lhs rhs : wfU lhs -> wfU rhs -> Ret (u_mul_msvc lhs rhs) = u_mul lhs rhs.
Proof.
  intros Hl Hr. destruct (u_mul_spec lhs rhs Hl Hr) as (r & -> & (Wr1 & Wr2) & Vr). f_equal. destruct Hl as (Ha & Hb), Hr as (Hc & Hd).
  destruct lhs as [ha la], rhs as [hb lb]. simpl in *. unfold u_mul_msvc, Uint128Low64, Uint128High64. simpl. rewrite umul128_spec by done.
  pose proof (Z.mod_pos_bound (la * lb) (2 ^ 64) ltac:(done)) as Hlo.
  assert (W : wfU (MakeUint128 (u64 (u64 (u64 (la * hb) + u64 (ha * lb)) + la * lb / 2 ^ 64)) ((la * lb) mod 2 ^ 64))) by (by apply wfU_make).
  assert (V : uval (MakeUint128 (u64 (u64 (u64 (la * hb) + u64 (ha * lb)) + la * lb / 2 ^ 64)) ((la * lb) mod 2 ^ 64)) = uval r).
  { rewrite Vr. symmetry. destruct (wrapU_minus 64 (ha * lb)) as [q1 E1]; [lia|]. destruct (wrapU_minus 64 (la * hb)) as [q2 E2]; [lia|].
    destruct (wrapU_minus 64 (u64 (la * hb) + u64 (ha * lb))) as [q3 E3]; [lia|].
    destruct (wrapU_minus 64 (u64 (u64 (la * hb) + u64 (ha * lb)) + la * lb / 2 ^ 64)) as [q4 E4]; [lia|].
    apply (wrap128_eq _ _ (ha * hb + q1 + q2 + q3 + q4)); [apply pack_inU; apply W|]. unfold uval, pack. simpl. rewrite E4, E3, E1, E2.
    pose proof (Z.div_mod (la * lb) (2 ^ 64) ltac:(done)) as Hdm. change (2 ^ 128) with (2 ^ 64 * 2 ^ 64). nia. }
  destruct r as [hr lr]. destruct W as [W1 W2]. apply pack_inj in V as [V1 V2]; [|done..]. unfold MakeUint128 in *. simpl in V1, V2. congruence.
Qed.

(** ** The unsigned operators agree *)

Section unsigned_agreement.
Implicit Types (x y : uint128) (amount : Z).

Lemma nu_add_eq x y : wfU x -> wfU y -> nu_add x y = u_add x y.
Proof. intros Hx Hy. destruct (u_add_spec x y Hx Hy) as [W V]. unfold nu_add. rewrite !to_native_val by done. by apply of_native_eq. Qed.
Lemma nu_sub_eq x y : wfU x -> wfU y -> nu_sub x y = u_sub x y.
Proof. intros Hx Hy. destruct (u_sub_spec x y Hx Hy) as [W V]. unfold nu_sub. rewrite !to_native_val by done. by apply of_native_eq. Qed.
Lemma nu_mul_eq x y : wfU x -> wfU y -> Ret (nu_mul x y) = u_mul x y.
Proof.
  intros Hx Hy. destruct (u_mul_spec x y Hx Hy) as (r & -> & W & V). unfold nu_mul. rewrite !to_native_val by done. f_equal. by apply of_native_eq.
Qed.

Lemma nu_shl_eq x amount : wfU x -> nu_shl x amount = u_shl x amount.
Proof.
  intros Hx. pose proof (u_shl_spec x amount Hx) as W. unfold nu_shl. destruct (in_width128 amount); [|done].
  destruct W as (r & -> & W & V). rewrite to_native_val by done. f_equal. by apply of_native_eq.
Qed.
Lemma nu_shr_eq x amount : wfU x -> nu_shr x amount = u_shr x amount.
Proof.
  intros Hx. pose proof (u_shr_spec x amount Hx) as W. unfold nu_shr. destruct (in_width128 amount); [|done].
  destruct W as (r & -> & W & V). rewrite to_native_val by done. f_equal. by apply of_native_eq.
Qed.

Lemma nu_bitwise_eq x y : wfU x -> wfU y -> nu_or x y = u_or x y /\ nu_and x y = u_and x y /\ nu_xor x y = u_xor x y.
Proof.
  intros Hx Hy. unfold nu_or, nu_and, nu_xor. rewrite !to_native_val by done. destruct Hx as (? & ?), Hy as (? & ?).
  split_and!; (apply of_native_eq; [split; simpl; unfold Uint128High64, Uint128Low64; half|]); unfold uval; symmetry; [apply pack_lor|apply pack_land|apply pack_lxor]; done.
Qed.

Lemma notU_val (z : Z) : inU 64 z -> notU z = 2 ^ 64 - 1 - z.
Proof. intros Hz. unfold notU. symmetry. apply (Z.mod_unique _ _ (-1)); [left; unfold inU in Hz; lia|unfold Z.lnot; lia]. Qed.

Lemma pack_lnot h l : inU 64 l -> Z.lnot (pack h l) = pack (Z.lnot h) (notU l).
Proof. intros Hl. rewrite notU_val by done. unfold pack, Z.lnot. lia. Qed.

Lemma nu_compl_eq x : wfU x -> nu_compl x = u_compl x.
Proof.
  intros Hx. unfold nu_compl. rewrite to_native_val by done. destruct Hx as (Hh & Hl).
  assert (W : wfU (u_compl x)) by (split; apply wrapU_range; lia). apply of_native_eq; [done|]. symmetry.
  apply (wrap128_eq _ _ (-1)); [apply pack_inU; apply W|]. unfold uval, u_compl, MakeUint128, Uint128High64, Uint128Low64. simpl.
  rewrite pack_lnot by done. rewrite (notU_val (u_hi x)) by done. unfold pack, Z.lnot. change (2 ^ 128) with (2 ^ 64 * 2 ^ 64). lia.
Qed.

Lemma nu_neg_eq x : wfU x -> nu_neg x = u_neg x.
Proof.
  intros Hx. unfold nu_neg. rewrite to_native_val by done. destruct Hx as (Hh & Hl). destruct x as [h l]. simpl in *.
  assert (W : wfU (u_neg (mkU h l))) by (split; apply wrapU_range; lia). apply of_native_eq; [done|]. symmetry.
  unfold u_neg, MakeUint128, Uint128High64, Uint128Low64 in *. simpl in *. rewrite !notU_val in * by done. unfold bit in *.
  destruct (wrapU_minus 64 (2 ^ 64 - 1 - h + (if l =? 0 then 1 else 0))) as [q E]; [lia|].
  destruct (Z.eqb_spec l 0) as [->|Hn].
  - replace (u64 (2 ^ 64 - 1 - 0 + 1)) with 0 in * by done. apply (wrap128_eq _ _ (q - 1)); [apply pack_inU; apply W|].
    unfold uval, pack. simpl u_hi. simpl u_lo. rewrite E. change (2 ^ 128) with (2 ^ 64 * 2 ^ 64). lia.
  - rewrite (wrapU_id 64 (_ - l + 1)) in * by (unfold inU in *; lia). apply (wrap128_eq _ _ (q - 1)); [apply pack_inU; apply W|].
    unfold uval, pack. simpl u_hi. simpl u_lo. rewrite E. change (2 ^ 128) with (2 ^ 64 * 2 ^ 64). lia.
Qed.

#[local] Ltac compare_all :=
  repeat match goal with
  | |- context [?p =? ?q] => destruct (Z.eqb_spec p q)
  | |- context [?p <? ?q] => destruct (Z.ltb_spec p q)
  | |- context [?p <=? ?q] => destruct (Z.leb_spec p q)
  end; simpl; try done; exfalso; widths; lia.

Lemma nu_compare_eq x y : wfU x -> wfU y ->
  nu_eq x y = u_eq x y /\ nu_lt x y = u_lt x y /\ nu_cmp x y = u_cmp x y /\ nu_not x = u_not x.
Proof.
  intros Hx Hy. unfold nu_eq, nu_lt, nu_cmp, nu_not. rewrite !to_native_val by done. destruct Hx as (? & ?), Hy as (? & ?). destruct x as [h1 l1], y as [h2 l2].
  unfold u_eq, u_lt, u_cmp, u_not, Uint128High64, Uint128Low64, uval, pack. simpl in *. split_and!; compare_all.
Qed.

(** C36: the portable [uint128] is the compiler's unsigned 128-bit integer.
    On every two values and for every shift amount, the code on 64-bit
    halves - the product by 32-bit pieces and the one for the Microsoft
    compiler included - gives what the compiler's type gives, and shifts are
    undefined for the same amounts. *)
Theorem uint128_portable `{Umul128} x y amount :
  wfU x -> wfU y ->
  u_add x y = nu_add x y /\ u_sub x y = nu_sub x y /\ u_mul x y = Ret (nu_mul x y) /\ u_mul_msvc x y = nu_mul x y /\
  u_or x y = nu_or x y /\ u_and x y = nu_and x y /\ u_xor x y = nu_xor x y /\ u_compl x = nu_compl x /\ u_neg x = nu_neg x /\
  u_shl x amount = nu_shl x amount /\ u_shr x amount = nu_shr x amount /\
  u_eq x y = nu_eq x y /\ u_lt x y = nu_lt x y /\ u_cmp x y = nu_cmp x y /\ u_not x = nu_not x.
Proof.
  intros Hx Hy. rewrite nu_add_eq, nu_sub_eq, nu_mul_eq, nu_compl_eq, nu_neg_eq, nu_shl_eq, nu_shr_eq by done.
  destruct (nu_bitwise_eq x y Hx Hy) as (-> & -> & ->). destruct (nu_compare_eq x y Hx Hy) as (-> & -> & -> & ->).
  split_and!; try done. pose proof (u_mul_msvc_spec x y Hx Hy) as E. rewrite <- nu_mul_eq in E by done. by injection E.
Qed.
End unsigned_agreement.

(** ** The signed type *)

Lemma land_bit x (k : Z) : 0 <= k -> Z.land x (Z.shiftl 1 k) = if Z.testbit x k then 2 ^ k else 0.
Proof.
  intros Hk. apply Z.bits_inj'. intros i Hi. rewrite Z.land_spec, shiftl_bit by done.
  destruct (decide (i = k)) as [->|Hn].
  - rewrite Z.sub_diag. simpl Z.testbit at 2. rewrite andb_true_r. destruct (Z.testbit x k); [by rewrite Z.pow2_bits_true|by rewrite Z.bits_0].
  - assert (E : Z.testbit 1 (i - k) = false).
    { destruct (Z.ltb_spec (i - k) 0); [by apply Z.testbit_neg_r|]. apply (inU_testbit 1); [done|lia]. }
    rewrite E, andb_false_r. destruct (Z.testbit x k); [by rewrite Z.pow2_bits_false by lia|by rewrite Z.bits_0].
Qed.

Lemma BitCastToSigned_val x : inU 64 x -> BitCastToSigned x = i64 x.
Proof.
  intros Hx. unfold BitCastToSigned. rewrite land_bit by lia. change 63 with (64 - 1). rewrite (sign_bit 64 x), (wrapS_inU 64 x) by (done || lia).
  destruct (Z.leb_spec (2 ^ (64 - 1)) x) as [Hs|Hs]; cbn [Z.eqb negb].
  - change (2 ^ (64 - 1) =? 0) with false. cbn [negb]. rewrite notU_val by done. rewrite wrapS_id by (widths; lia). unfold Z.lnot. lia.
  - done.
Qed.

Lemma ival_cast (x : uint128) : wfU x -> wfI (int128_of_uint128 x) /\ ival (int128_of_uint128 x) = wrapS 128 (uval x).
Proof.
  intros (Hh & Hl). destruct x as [h l]. simpl in *. unfold int128_of_uint128, Uint128High64, Uint128Low64. split; [split; [apply wrapS_range; lia|done]|].
  unfold ival, uval. simpl. rewrite (wrapS_inU 128), (wrapS_inU 64) by (done || lia || by apply pack_inU).
  destruct (Z.leb_spec (2 ^ (64 - 1)) h), (Z.leb_spec (2 ^ (128 - 1)) (pack h l)); widths; lia.
Qed.

Lemma uval_cast v : wfI v -> wfU (uint128_of_int128 v) /\ uval (uint128_of_int128 v) = wrapU 128 (ival v).
Proof.
  intros (Hh & Hl). destruct v as [h l]. simpl in *. unfold uint128_of_int128, Int128High64, Int128Low64. simpl. split; [split; [apply wrapU_range; lia|done]|].
  destruct (wrapU_minus 64 h) as [q E]; [lia|]. symmetry. apply (wrap128_eq _ _ q); [apply pack_inU; [apply wrapU_range; lia|done]|].
  unfold uval, ival, pack. simpl. rewrite E. change (2 ^ 128) with (2 ^ 64 * 2 ^ 64). lia.
Qed.

Definition as_native v : native := mkN (ival v).
Definition omap (m : outcome int128) : outcome native := do v <- m; Ret (as_native v).

Lemma wrap_mul w x y : 0 <= w -> wrapU w (wrapU w x * wrapU w y) = wrapU w (x * y).
Proof. intros Hw. unfold wrapU. by rewrite <- Z.mul_mod by (pose proof (pow2_pos w Hw); lia). Qed.

Lemma i_mul_spec a b : wfI a -> wfI b -> exists r, i_mul a b = Ret r /\ wfI r /\ ival r = wrapS 128 (ival a * ival b).
Proof.
  intros Ha Hb. destruct (uval_cast a Ha) as [Wa Va], (uval_cast b Hb) as [Wb Vb]. unfold i_mul.
  destruct (u_mul_spec _ _ Wa Wb) as (p & -> & Wp & Vp). cbn [obind]. rewrite BitCastToSigned_val by apply Wp.
  destruct (ival_cast p Wp) as [Wr Vr]. exists (int128_of_uint128 p). split; [done|]. split; [done|].
  by rewrite Vr, Vp, Va, Vb, wrap_mul, wrapS_wrapU by lia.
Qed.

(** One sum the compiler's type has and the halves do not: the sum of the
    high halves is below the smallest number by one, and a carry comes. *)
Definition early_add a b : bool := (Int128High64 a + Int128High64 b =? kint64min - 1) && (2 ^ 64 <=? Int128Low64 a + Int128Low64 b).
Definition early_sub a b : bool := (Int128High64 a - Int128High64 b =? kint64max + 1) && (Int128Low64 a <? Int128Low64 b).

#[local] Ltac signed_cases :=
  repeat match goal with
  | |- context [?p =? ?q] => destruct (Z.eqb_spec p q)
  | |- context [?p <? ?q] => destruct (Z.ltb_spec p q)
  | |- context [?p <=? ?q] => destruct (Z.leb_spec p q)
  end; cbn [v_] in *; simpl; intros; try done; first [exfalso; lia | unfold as_native, ival, pack; simpl; do 2 f_equal; lia | idtac].

Lemma i_add_exact a b : wfI a -> wfI b -> omap (i_add a b) = if early_add a b then UB else n_add (as_native a) (as_native b).
Proof.
  intros (Ha & Hb) (Hc & Hd). destruct a as [h1 l1], b as [h2 l2]. simpl in *.
  unfold i_add, SignedAddResult, early_add, n_add, checked, signed, in_signed, as_native, omap, Int128High64, Int128Low64, MakeInt128. simpl i_hi. simpl i_lo.
  destruct (u64_add_carry l1 l2 Hb Hd) as [(E & Ec & Hs)|(E & Ec & Hs)];
  destruct ((- 2 ^ (64 - 1) <=? h1 + h2) && (h1 + h2 <? 2 ^ (64 - 1))) eqn:E1; cbn [obind i_hi i_lo]; rewrite ?Ec; cbn [obind i_hi i_lo];
    revert E1; unfold ival; simpl i_hi; simpl i_lo; rewrite ?E; widths; signed_cases.
Qed.

Lemma i_sub_exact a b : wfI a -> wfI b -> omap (i_sub a b) = if early_sub a b then UB else n_sub (as_native a) (as_native b).
Proof.
  intros (Ha & Hb) (Hc & Hd). destruct a as [h1 l1], b as [h2 l2]. simpl in *.
  unfold i_sub, SignedSubstructResult, early_sub, n_sub, checked, signed, in_signed, as_native, omap, Int128High64, Int128Low64, MakeInt128. simpl i_hi. simpl i_lo.
  destruct (u64_sub_borrow l1 l2 Hb Hd) as [(E & Ec)|(E & Ec)];
  destruct ((- 2 ^ (64 - 1) <=? h1 - h2) && (h1 - h2 <? 2 ^ (64 - 1))) eqn:E1; cbn [obind i_hi i_lo]; rewrite ?Ec; cbn [obind i_hi i_lo];
    revert E1 Ec; unfold ival; simpl i_hi; simpl i_lo; rewrite ?E; widths; signed_cases.
Qed.

Lemma i_neg_exact v : wfI v -> omap (i_neg v) = n_neg (as_native v).
Proof.
  intros (Ha & Hb). destruct v as [h l]. simpl in *.
  unfold i_neg, n_neg, checked, signed, in_signed, as_native, omap, Int128High64, Int128Low64, MakeInt128, bit. simpl i_hi. simpl i_lo. rewrite notU_val by done.
  assert (E : u64 (2 ^ 64 - 1 - l + 1) = if l =? 0 then 0 else 2 ^ 64 - l).
  { destruct (Z.eqb_spec l 0) as [->|]; [done|]. replace (2 ^ 64 - 1 - l + 1) with (2 ^ 64 - l) by lia. apply wrapU_id. unfold inU in *. lia. }
  rewrite E. unfold ival, Z.lnot. simpl i_hi. simpl i_lo. cbn [obind]. widths. destruct (Z.eqb_spec l 0); signed_cases.
Qed.

(** ** Signed shifts *)

Lemma inS_lor x y : inS 64 x -> inS 64 y -> inS 64 (Z.lor x y).
Proof.
  intros Hx Hy. assert (E : Z.lor x y = i64 (Z.lor x y)); [|rewrite E; apply wrapS_range; lia].
  apply Z.bits_inj'. intros i Hi. rewrite wrapS_bit, !Z.lor_spec by lia. destruct (Z.ltb_spec i 64); [done|].
  by rewrite (inS_testbit x i), (inS_testbit y i) by (done || lia).
Qed.

Lemma inS_shiftr x (k : Z) : inS 64 x -> 0 <= k -> inS 64 (Z.shiftr x k).
Proof.
  intros Hx Hk. assert (E : Z.shiftr x k = i64 (Z.shiftr x k)); [|rewrite E; apply wrapS_range; lia].
  apply Z.bits_inj'. intros i Hi. rewrite wrapS_bit, !shiftr_bit by lia. destruct (Z.ltb_spec i 64); [done|].
  rewrite (inS_testbit x (i + k)), (inS_testbit x (64 - 1 + k)) by (done || lia). by rewrite (proj2 (Z.leb_le 0 i)) by lia.
Qed.

Lemma ipack_shl h l (k : Z) : inS 64 h -> inU 64 l -> 0 < k < 64 ->
  wrapS 128 (Z.shiftl (pack h l) k) = pack (Z.lor (i64 (Z.shiftl h k)) (i64 (Z.shiftr l (64 - k)))) (u64 (Z.shiftl l k)).
Proof. intros Hh Hl Hk. bits. Qed.
Lemma ipack_shl63 h l : inS 64 h -> inU 64 l ->
  wrapS 128 (Z.shiftl (pack h l) 63) =
    pack (Z.lor (i64 (Z.shiftl (i64 (Z.shiftl h 32)) 31)) (i64 (Z.shiftr l 1))) (u64 (Z.shiftl (u64 (Z.shiftl l 32)) 31)).
Proof. intros Hh Hl. bits. Qed.
Lemma ipack_shl_far h l (k : Z) : inS 64 h -> inU 64 l -> 64 <= k < 128 ->
  wrapS 128 (Z.shiftl (pack h l) k) = pack (i64 (u64 (Z.shiftl l (k - 64)))) 0.
Proof. intros Hh Hl Hk. assert (inU 64 0) by done. bits. Qed.
Lemma ipack_shr h l (k : Z) : inS 64 h -> inU 64 l -> 0 < k < 64 ->
  Z.shiftr (pack h l) k = pack (Z.shiftr h k) (Z.lor (Z.shiftr l k) (u64 (Z.shiftl (u64 h) (64 - k)))).
Proof. intros Hh Hl Hk. bits. Qed.
Lemma ipack_shr63 h l : inS 64 h -> inU 64 l ->
  Z.shiftr (pack h l) 63 =
    pack (Z.shiftr (Z.shiftr h 32) 31) (Z.lor (u64 (i64 (Z.shiftl h 1))) (Z.shiftr (Z.shiftr l 32) 31)).
Proof. intros Hh Hl. bits. Qed.
Lemma ipack_shr_far h l (k : Z) : inS 64 h -> inU 64 l -> 64 <= k < 128 ->
  Z.shiftr (pack h l) k = pack (Z.shiftr (Z.shiftr h 32) 31) (u64 (Z.shiftr h (k - 64))).
Proof. intros Hh Hl Hk. bits. Qed.
Lemma ipack_shr127 h l : inS 64 h -> inU 64 l ->
  Z.shiftr (pack h l) 127 = pack (Z.shiftr (Z.shiftr h 32) 31) (u64 (Z.shiftr (Z.shiftr h 32) 31)).
Proof. intros Hh Hl. bits. Qed.

(** The amounts that pass the assertion, and the one more that is handled. *)
Definition shift_ok (ndebug : bool) (amount : Z) : Prop := 0 <= amount < 127 \/ ndebug = true /\ amount = 127.

Lemma assert_ok ndebug (amount : Z) : shift_ok ndebug amount -> assert ndebug ((0 <=? amount) && (amount <? 127)) = Ret tt.
Proof.
  unfold assert. intros [H|[-> ->]]; [|done]. rewrite (proj2 (Z.leb_le _ _)), (proj2 (Z.ltb_lt _ _)) by lia. by rewrite orb_true_r.
Qed.

#[local] Ltac decide_all :=
  repeat match goal with
  | |- context [?p <=? ?q] => first [rewrite (proj2 (Z.leb_le p q)) by lia | rewrite (proj2 (Z.leb_gt p q)) by lia]
  | |- context [?p <? ?q] => first [rewrite (proj2 (Z.ltb_lt p q)) by lia | rewrite (proj2 (Z.ltb_ge p q)) by lia]
  | |- context [?p =? ?q] => first [rewrite (proj2 (Z.eqb_eq p q)) by lia | rewrite (proj2 (Z.eqb_neq p q)) by lia]
  end; cbn [andb obind].
#[local] Ltac shifted := eexists; split; [reflexivity|]; split; [split; simpl; first [half | apply inS_lor; apply wrapS_range; lia | apply wrapS_range; lia | repeat (apply inS_shiftr; [|lia]); done]|].

Lemma i_shl_spec ndebug v (amount : Z) : wfI v -> shift_ok ndebug amount ->
  exists r, i_shl ndebug v amount = Ret r /\ wfI r /\ ival r = wrapS 128 (Z.shiftl (ival v) amount).
Proof.
  intros (Hh & Hl) Ha. unfold i_shl. rewrite assert_ok by done. assert (Hk : 0 <= amount <= 127) by (destruct Ha; lia). clear Ha.
  destruct v as [h l]. simpl in Hh, Hl. unfold shlS, shrU, shlU, in_width, Int128High64, Int128Low64, MakeInt128, ival. simpl i_hi. simpl i_lo. cbn [obind].
  destruct (Z.leb_spec amount 0) as [H0|H0].
  { exists (mkI h l). split; [done|]. split; [done|]. replace amount with 0 by lia. rewrite Z.shiftl_0_r. simpl. symmetry. apply wrapS_id; [lia|by apply pack_inS]. }
  destruct (Z.ltb_spec amount 63) as [H1|H1].
  { decide_all. shifted. simpl. by rewrite ipack_shl by (done || lia). }
  destruct (Z.eqb_spec amount 63) as [->|H2].
  { cbn [Z.leb Z.ltb Z.compare Pos.compare Pos.compare_cont andb obind]. shifted. simpl. by rewrite ipack_shl63. }
  destruct (Z.eqb_spec amount 127) as [->|H3].
  { cbn [Z.leb Z.ltb Z.compare Pos.compare Pos.compare_cont andb obind]. shifted. simpl. by rewrite ipack_shl_far. }
  rewrite (proj2 (Z.ltb_ge 127 amount)) by lia. decide_all. shifted. simpl. by rewrite ipack_shl_far by (done || lia).
Qed.

Lemma i_shr_spec ndebug v (amount : Z) : wfI v -> shift_ok ndebug amount ->
  exists r, i_shr ndebug v amount = Ret r /\ wfI r /\ ival r = Z.shiftr (ival v) amount.
Proof.
  intros (Hh & Hl) Ha. unfold i_shr. rewrite assert_ok by done. assert (Hk : 0 <= amount <= 127) by (destruct Ha; lia). clear Ha.
  destruct v as [h l]. simpl in Hh, Hl. unfold shlS, shrS, shrU, shlU, in_width, Int128High64, Int128Low64, MakeInt128, ival. simpl i_hi. simpl i_lo. cbn [obind].
  destruct (Z.leb_spec amount 0) as [H0|H0].
  { exists (mkI h l). split; [done|]. split; [done|]. replace amount with 0 by lia. by rewrite Z.shiftr_0_r. }
  destruct (Z.ltb_spec amount 63) as [H1|H1].
  { decide_all. shifted. simpl. by rewrite ipack_shr by (done || lia). }
  destruct (Z.eqb_spec amount 63) as [->|H2].
  { cbn [Z.leb Z.ltb Z.compare Pos.compare Pos.compare_cont andb obind]. shifted. simpl. by rewrite ipack_shr63. }
  cbn [Z.leb Z.ltb Z.compare Pos.compare Pos.compare_cont andb obind].
  destruct (Z.leb_spec 127 amount) as [H3|H3].
  { shifted. simpl. replace amount with 127 by lia. by rewrite ipack_shr127. }
  decide_all. shifted. simpl. by rewrite ipack_shr_far by (done || lia).
Qed.

(** ** The signed operators agree *)

Section signed_agreement.
Implicit Types (x y : int128) (amount w z : Z).

Lemma i_bitwise_eq x y : wfI x -> wfI y ->
  as_native (i_or x y) = n_or (as_native x) (as_native y) /\ as_native (i_and x y) = n_and (as_native x) (as_native y) /\
  as_native (i_xor x y) = n_xor (as_native x) (as_native y) /\ as_native (i_compl x) = n_compl (as_native x).
Proof.
  intros (? & ?) (? & ?). unfold n_or, n_and, n_xor, n_compl, as_native, ival. cbn [v_].
  rewrite pack_lor, pack_land, pack_lxor, pack_lnot by done. done.
Qed.

#[local] Ltac order_all :=
  repeat match goal with
  | |- context [?p =? ?q] => destruct (Z.eqb_spec p q)
  | |- context [?p <? ?q] => destruct (Z.ltb_spec p q)
  | |- context [?p <=? ?q] => destruct (Z.leb_spec p q)
  end; simpl; try done; exfalso; widths; lia.

Lemma i_compare_eq x y : wfI x -> wfI y ->
  i_eq x y = n_eq (as_native x) (as_native y) /\ i_ne x y = n_ne (as_native x) (as_native y) /\
  i_lt x y = n_lt (as_native x) (as_native y) /\ i_gt x y = n_gt (as_native x) (as_native y) /\
  i_le x y = n_le (as_native x) (as_native y) /\ i_ge x y = n_ge (as_native x) (as_native y) /\
  i_cmp x y = n_cmp (as_native x) (as_native y) /\ i_not x = n_not (as_native x) /\ i_to_bool x = n_to_bool (as_native x).
Proof.
  intros (? & ?) (? & ?). destruct x as [h1 l1], y as [h2 l2].
  unfold n_eq, n_ne, n_lt, n_gt, n_le, n_ge, n_cmp, n_not, n_to_bool, i_eq, i_ne, i_lt, i_gt, i_le, i_ge, i_cmp, i_not, i_to_bool, i_eq, i_lt, i_gt,
    uint128_of_int128, Uint128Low64, Int128High64, Int128Low64, as_native, ival, pack. simpl in *. split_and!; order_all.
Qed.

Lemma wrapU_pack w h l : 0 <= w <= 64 -> wrapU w (pack h l) = wrapU w l.
Proof.
  intros Hw. unfold wrapU, pack. replace (h * 2 ^ 64) with (h * 2 ^ (64 - w) * 2 ^ w) by (rewrite <- Z.mul_assoc, <- Z.pow_add_r by lia; f_equal; f_equal; lia).
  rewrite Z.add_comm. apply Z.mod_add. pose proof (pow2_pos w). lia.
Qed.

Lemma i_convert_eq w x : wfI x -> 0 < w <= 64 ->
  i_to_unsigned w x = n_to_unsigned w (as_native x) /\ i_to_signed w x = n_to_signed w (as_native x).
Proof.
  intros (Hh & Hl) Hw. destruct x as [h l]. simpl in *. unfold i_to_unsigned, n_to_unsigned, i_to_signed, n_to_signed, i_to_long_long, as_native, ival. simpl.
  rewrite BitCastToSigned_val by done. split; [by rewrite wrapU_pack by lia|].
  rewrite <- (wrapS_wrapU w (pack h l)), wrapU_pack by lia. rewrite <- (wrapS_wrapU w (i64 l)) by lia.
  assert (E : wrapU w (i64 l) = wrapU w l).
  { rewrite (wrapS_inU 64) by (done || lia). destruct (2 ^ (64 - 1) <=? l); [|done]. replace (l - 2 ^ 64) with (pack (-1) l) by (unfold pack; lia). by apply wrapU_pack; lia. }
  by rewrite E.
Qed.

Lemma i_construct_eq z : inS 64 z -> as_native (int128_of_signed z) = n_of z.
Proof.
  intros Hz. unfold as_native, n_of, ival, int128_of_signed. f_equal. simpl. destruct (Z.ltb_spec z 0).
  - replace (u64 z) with (z + 2 ^ 64) by (apply (Z.mod_unique _ _ (-1)); widths; lia). unfold pack. lia.
  - rewrite wrapU_id by (widths; lia). unfold pack. lia.
Qed.

Lemma i_parts_eq x : wfI x ->
  n_Low64 (as_native x) = Int128Low64 x /\ n_High64 (as_native x) = Int128High64 x.
Proof.
  intros (Hh & Hl). destruct x as [h l]. simpl in *. unfold n_Low64, n_High64, as_native, ival, Int128Low64, Int128High64. simpl.
  rewrite BitCastToSigned_val by half. unfold kuint64max. change (2 ^ 64 - 1) with (Z.ones 64). rewrite Z.land_ones by lia.
  split; [change (u64 (u64 (pack h l)) = l); rewrite wrapU_idem, wrapU_pack by lia; by apply wrapU_id|].
  rewrite wrapS_wrapU by lia. rewrite Z.shiftr_div_pow2 by lia. destruct (wrapU_minus 128 (pack h l)) as [q E]; [lia|]. rewrite E.
  rewrite <- (Z.div_unique _ (2 ^ 64) (h - q * 2 ^ 64) l); [|left; exact Hl|unfold pack; change (2 ^ 128) with (2 ^ 64 * 2 ^ 64); lia].
  rewrite <- (wrapS_wrapU 64) by lia. unfold wrapU. replace (h - q * 2 ^ 64) with (h + (- q) * 2 ^ 64) by lia. rewrite Z.mod_add by done.
  change (i64 (u64 h) = h). rewrite wrapS_wrapU by lia. by apply wrapS_id; [lia|].
Qed.

(** C35: the portable [int128] is the compiler's signed 128-bit integer, but
    for one sum and one difference.  Where the compiler's type has a result,
    so have the halves, and it is the same: for negation exactly, for
    products, bitwise and comparison operators, conversions and every shift
    the assertion lets through.  Sums and differences differ when the high
    halves alone overflow by one and the carry would bring them back: then
    the code on halves is undefined, and in every other case it is defined
    exactly when the compiler's is and gives the same. *)
Theorem int128_portable ndebug x y amount w :
  wfI x -> wfI y -> shift_ok ndebug amount -> 0 < w <= 64 ->
  omap (i_add x y) = (if early_add x y then UB else n_add (as_native x) (as_native y)) /\
  omap (i_sub x y) = (if early_sub x y then UB else n_sub (as_native x) (as_native y)) /\
  omap (i_neg x) = n_neg (as_native x) /\
  (forall n, n_mul (as_native x) (as_native y) = Ret n -> omap (i_mul x y) = Ret n) /\
  omap (i_shl ndebug x amount) = n_shl (as_native x) amount /\ omap (i_shr ndebug x amount) = n_shr (as_native x) amount /\
  as_native (i_or x y) = n_or (as_native x) (as_native y) /\ as_native (i_and x y) = n_and (as_native x) (as_native y) /\
  as_native (i_xor x y) = n_xor (as_native x) (as_native y) /\ as_native (i_compl x) = n_compl (as_native x) /\
  i_eq x y = n_eq (as_native x) (as_native y) /\ i_lt x y = n_lt (as_native x) (as_native y) /\ i_cmp x y = n_cmp (as_native x) (as_native y) /\
  i_to_unsigned w x = n_to_unsigned w (as_native x) /\ i_to_signed w x = n_to_signed w (as_native x) /\
  n_Low64 (as_native x) = Int128Low64 x /\ n_High64 (as_native x) = Int128High64 x.
Proof.
  intros Hx Hy Ha Hw. destruct (i_bitwise_eq x y Hx Hy) as (-> & -> & -> & ->). destruct (i_compare_eq x y Hx Hy) as (-> & _ & -> & _ & _ & _ & -> & _).
  destruct (i_convert_eq w x Hx Hw) as (-> & ->). destruct (i_parts_eq x Hx) as (-> & ->).
  assert (H128 : in_width128 amount = true) by (destruct Ha as [Ha|[_ ->]]; [|done]; unfold in_width128; apply andb_true_iff; rewrite Z.leb_le, Z.ltb_lt; lia).
  split; [by apply i_add_exact|]. split; [by apply i_sub_exact|]. split; [by apply i_neg_exact|]. split; [|split; [|split; [|done]]].
  - intros n. unfold n_mul, checked, signed, in_signed. intros En. destruct (i_mul_spec x y Hx Hy) as (r & -> & _ & V). unfold omap. cbn [obind].
    destruct (_ && _) eqn:E in En; [|discriminate En]. injection En as <-. apply andb_true_iff in E. rewrite Z.leb_le, Z.ltb_lt in E.
    unfold as_native. rewrite V. by rewrite wrapS_id by (done || lia).
  - destruct (i_shl_spec ndebug x amount Hx Ha) as (r & -> & _ & V). unfold omap, n_shl. rewrite H128. cbn [obind]. unfold as_native. by rewrite V.
  - destruct (i_shr_spec ndebug x amount Hx Ha) as (r & -> & _ & V). unfold omap, n_shr. rewrite H128. cbn [obind]. unfold as_native. by rewrite V.
Qed.

(** The sum that is lost: the smallest number but a bit, and -1. *)
Lemma early_sum : exists x y, wfI x /\ wfI y /\ inS 128 (ival x + ival y) /\ i_add x y = UB.
Proof. exists (mkI (- 2 ^ 63) (2 ^ 64 - 1)), (mkI (-1) (2 ^ 64 - 1)). by vm_compute. Qed.
(** [0 - (Int128Min() + 1)], which is [Int128Max()]. *)
Lemma early_difference : exists x, wfI x /\ ival x = ival Int128Min + 1 /\ inS 128 (0 - ival x) /\ i_sub (int128_of_signed 0) x = UB.
Proof. exists (mkI (- 2 ^ 63) 1). by vm_compute. Qed.
End signed_agreement.

(** ** Examples *)

#[global] Instance exact_umul128 : Umul128 := {| umul128 (a b : Z) := (a * b / 2 ^ 64, a * b mod 2 ^ 64); umul128_spec (a b : Z) _ _ := eq_refl |}.

Lemma uint128_portable_witness :
  u_mul (mkU 3 (2 ^ 64 - 1)) (mkU 0 (2 ^ 64 - 2)) = Ret (nu_mul (mkU 3 (2 ^ 64 - 1)) (mkU 0 (2 ^ 64 - 2))) /\
  u_shl (mkU 3 (2 ^ 64 - 1)) 70 = nu_shl (mkU 3 (2 ^ 64 - 1)) 70.
Proof.
  pose proof (uint128_portable (mkU 3 (2 ^ 64 - 1)) (mkU 0 (2 ^ 64 - 2)) 70 ltac:(by vm_compute) ltac:(by vm_compute)) as W. split; apply W.
Defined.

Lemma int128_portable_witness :
  omap (i_add (mkI (-5) 7) (mkI 2 (2 ^ 64 - 1))) = n_add (as_native (mkI (-5) 7)) (as_native (mkI 2 (2 ^ 64 - 1))) /\
  omap (i_shr true (mkI (-5) 7) 127) = n_shr (as_native (mkI (-5) 7)) 127.
Proof.
  pose proof (int128_portable true (mkI (-5) 7) (mkI 2 (2 ^ 64 - 1)) 127 32 ltac:(by vm_compute) ltac:(by vm_compute) ltac:(by right) ltac:(lia)) as W.
  split; apply W.
Defined.
