(* ===== verification/SwissGroup.v ===== *)
(** * Groups of control bytes ([absl/container/internal/raw_hash_set.h])

    The hash tables of absl keep one control byte per slot and look at a
    whole group of them at a time.  This file holds the control bytes, the
    bit masks a group answers with, and the three implementations of a group:
    a 64-bit word, sixteen lanes of SSE2 and eight of NEON.  The word is
    proved to answer, byte by byte, what the predicates on one control byte
    say; the intrinsics of the other two are classes with their documented
    lane-wise behaviour.  [GroupLaws] is what the table needs of a group. *)

From S2P Require Import Prelude Bytes Bits Popcount.
Local Open Scope Z_scope.
Local Open Scope list_scope.

(** ** Control bytes *)

(** [enum class ctrl_t : int8_t]; a full slot holds its seven bits of hash. *)
Definition kEmpty : Z := -128.
Definition kDeleted : Z := -2.
Definition kSentinel : Z := -1.

Definition IsEmpty (c : Z) : bool := c =? kEmpty.
Definition IsFull (c : Z) : bool := 0 <=? c.
Definition IsDeleted (c : Z) : bool := c =? kDeleted.
Definition IsEmptyOrDeleted (c : Z) : bool := c <? kSentinel.

Definition ctrl_t (c : Z) : Prop :=
  c = kEmpty \/ c = kDeleted \/ c = kSentinel \/ 0 <= c < 128.

(** The seven low bits of a hash are the control byte of a full slot; the
    rest, mixed with the address of the control bytes, starts the probing. *)
Definition PerTableSalt (ctrl : Z) : Z := Z.shiftr ctrl 12.
Definition hash_H1 (hash ctrl : Z) : Z := Z.lxor (Z.shiftr hash 7) (PerTableSalt ctrl).
Definition hash_H2 (hash : Z) : Z := Z.land hash 0x7F.

(** ** Bit masks *)

Definition kMsbs8Bytes : Z := 0x8080808080808080.

(** The template parameters come first: the bits of [T], [SignificantBits],
    [Shift] and [NullifyBitsOnIteration]. *)
Record BitMask := mkMask {
  bm_T : Z;
  bm_SignificantBits : Z;
  bm_Shift : Z;
  bm_Nullify : bool;
  mask_ : Z;
}.

(** [TrailingZeros] assumes that some bit is set. *)
Definition TrailingZeros (w x : Z) : outcome Z :=
  if x =? 0 then UB else Ret (u32 (countr_zero w x)).

Definition bm_bool (m : BitMask) : bool := negb (mask_ m =? 0).

Definition LowestBitSet (m : BitMask) : outcome Z :=
  do z <- TrailingZeros (bm_T m) (mask_ m); Ret (Z.shiftr z (bm_Shift m)).

Definition HighestBitSet (m : BitMask) : Z :=
  u32 (Z.shiftr (bit_width (bm_T m) (mask_ m) - 1) (bm_Shift m)).

Definition bm_TrailingZeros := LowestBitSet.

Definition LeadingZeros (m : BitMask) : Z :=
  let total_significant_bits := Z.shiftl (bm_SignificantBits m) (bm_Shift m) in
  let extra_bits := bm_T m - total_significant_bits in
  Z.shiftr (u32 (countl_zero (bm_T m) (shlU (bm_T m) (mask_ m) extra_bits))) (bm_Shift m).

(** [operator++]. *)
Definition bm_next (m : BitMask) : BitMask :=
  let x := if (bm_Shift m =? 3) && bm_Nullify m then Z.land (mask_ m) kMsbs8Bytes else mask_ m in
  mkMask (bm_T m) (bm_SignificantBits m) (bm_Shift m) (bm_Nullify m)
    (Z.land x (wrapU (bm_T m) (x - 1))).

(** [for (uint32_t i : mask)]: the indices in the order of the loop. *)
Fixpoint bm_indices (fuel : nat) (m : BitMask) : outcome (list Z) :=
  match fuel with
  | O => Ret []
  | S fuel =>
      if negb (bm_bool m) then Ret []
      else
        do i <- LowestBitSet m;
        do l <- bm_indices fuel (bm_next m);
        Ret (i :: l)
  end.

(** A mask has at most [SignificantBits] indices. *)
Definition bm_list (m : BitMask) : outcome (list Z) :=
  bm_indices (S (Z.to_nat (bm_SignificantBits m))) m.

(** ** Groups *)

(** What the template parameter [Group] provides: each function takes the
    bytes of the group at its address. *)
Record GroupImpl := mkGroup {
  kWidth : Z;
  Match : list Z -> Z -> BitMask;
  MaskEmpty : list Z -> BitMask;
  MaskFull : list Z -> BitMask;
  MaskNonFull : list Z -> BitMask;
  MaskEmptyOrDeleted : list Z -> BitMask;
  CountLeadingEmptyOrDeleted : list Z -> outcome Z;
  ConvertSpecialToEmptyAndFullToDeleted : list Z -> list Z;
}.

(** *** One 64-bit word *)

(** [little_endian::Load64] and [Store64] of eight [int8_t]. *)
Definition Load64 (pos : list Z) : Z := le_value (u8 <$> pos).
Definition Store64 (v : Z) : list Z := wrapS 8 <$> le_bytes 8 v.

Module Portable.

Definition word_mask (x : Z) : BitMask := mkMask 64 8 3 false x.

Definition p_Match (pos : list Z) (hash : Z) : BitMask :=
  let ctrl := Load64 pos in
  let lsbs := 0x0101010101010101 in
  let x := Z.lxor ctrl (u64 (lsbs * hash)) in
  word_mask (Z.land (Z.land (u64 (x - lsbs)) (notU 64 x)) kMsbs8Bytes).

Definition p_MaskEmpty (pos : list Z) : BitMask :=
  let ctrl := Load64 pos in
  word_mask (Z.land (Z.land ctrl (notU 64 (shlU 64 ctrl 6))) kMsbs8Bytes).

Definition p_MaskFull (pos : list Z) : BitMask :=
  word_mask (Z.land (Z.lxor (Load64 pos) kMsbs8Bytes) kMsbs8Bytes).

Definition p_MaskNonFull (pos : list Z) : BitMask := word_mask (Z.land (Load64 pos) kMsbs8Bytes).

Definition p_MaskEmptyOrDeleted (pos : list Z) : BitMask :=
  let ctrl := Load64 pos in
  word_mask (Z.land (Z.land ctrl (notU 64 (shlU 64 ctrl 7))) kMsbs8Bytes).

Definition p_CountLeadingEmptyOrDeleted (pos : list Z) : outcome Z :=
  let ctrl := Load64 pos in
  let bits := 0x0101010101010101 in
  Ret (u32 (Z.shiftr (countr_zero 64 (Z.land (Z.lor ctrl (notU 64 (Z.shiftr ctrl 7))) bits)) 3)).

Definition p_ConvertSpecialToEmptyAndFullToDeleted (pos : list Z) : list Z :=
  let lsbs := 0x0101010101010101 in
  let x := Z.land (Load64 pos) kMsbs8Bytes in
  Store64 (Z.land (u64 (notU 64 x + Z.shiftr x 7)) (notU 64 lsbs)).

End Portable.
Import Portable.

Definition GroupPortableImpl : GroupImpl :=
  mkGroup 8 p_Match p_MaskEmpty p_MaskFull p_MaskNonFull p_MaskEmptyOrDeleted
    p_CountLeadingEmptyOrDeleted p_ConvertSpecialToEmptyAndFullToDeleted.

(** *** Sixteen lanes of SSE2 *)

(** A number in base [b] with the digit [d] where a mark is set. *)
Fixpoint digits (b d : Z) (marks : list bool) : Z :=
  match marks with
  | [] => 0
  | m :: marks => (if m then d else 0) + b * digits b d marks
  end.

Definition all_ones (b : bool) : Z := if b then -1 else 0.

(** The intrinsics the file uses, with the behaviour its comments list: they
    work on each of sixteen [int8_t] lanes by itself.  [unsigned_char] is
    GCC with [-funsigned-char], where [_mm_cmpgt_epi8] is not relied on. *)
Class Sse2 := {
  M128i : Type;
  lanes : M128i -> list Z;
  have_ssse3 : bool;
  unsigned_char : bool;
  mm_loadu_si128 : list Z -> M128i;
  mm_setzero_si128 : M128i;
  mm_set1_epi8 : Z -> M128i;
  mm_subs_epi8 : M128i -> M128i -> M128i;
  mm_and_si128 : M128i -> M128i -> M128i;
  mm_or_si128 : M128i -> M128i -> M128i;
  mm_andnot_si128 : M128i -> M128i -> M128i;
  mm_cmpeq_epi8 : M128i -> M128i -> M128i;
  mm_cmpgt_epi8 : M128i -> M128i -> M128i;
  mm_sign_epi8 : M128i -> M128i -> M128i;
  mm_shuffle_epi8 : M128i -> M128i -> M128i;
  mm_movemask_epi8 : M128i -> Z;
}.

Class Sse2Laws (I : Sse2) := {
  loadu_lanes p : length p = 16%nat -> lanes (mm_loadu_si128 p) = p;
  setzero_lanes : lanes mm_setzero_si128 = replicate 16 0;
  set1_lanes c : lanes (mm_set1_epi8 c) = replicate 16 (wrapS 8 c);
  subs_lanes a b : lanes (mm_subs_epi8 a b) =
    zip_with (fun x y => Z.max (-128) (Z.min 127 (x - y))) (lanes a) (lanes b);
  and_lanes a b : lanes (mm_and_si128 a b) = zip_with Z.land (lanes a) (lanes b);
  or_lanes a b : lanes (mm_or_si128 a b) = zip_with Z.lor (lanes a) (lanes b);
  andnot_lanes a b : lanes (mm_andnot_si128 a b) =
    zip_with (fun x y => Z.land (Z.lnot x) y) (lanes a) (lanes b);
  cmpeq_lanes a b : lanes (mm_cmpeq_epi8 a b) =
    zip_with (fun x y => all_ones (x =? y)) (lanes a) (lanes b);
  cmpgt_lanes a b : unsigned_char = false ->
    lanes (mm_cmpgt_epi8 a b) = zip_with (fun x y => all_ones (y <? x)) (lanes a) (lanes b);
  sign_lanes a b : lanes (mm_sign_epi8 a b) =
    zip_with (fun x y => if y <? 0 then wrapS 8 (- x) else if y =? 0 then 0 else x) (lanes a) (lanes b);
  shuffle_lanes a b : lanes (mm_shuffle_epi8 a b) =
    (fun y => if y <? 0 then 0 else lanes a !!! Z.to_nat (Z.land y 15)) <$> lanes b;
  movemask_lanes a : mm_movemask_epi8 a = digits 2 1 ((fun x => x <? 0) <$> lanes a);
}.

Section sse2.
Context `{I : Sse2}.

Definition mm_cmpgt_epi8_fixed (a b : M128i) : M128i :=
  if unsigned_char then
    let mask := mm_set1_epi8 0x80 in
    let diff := mm_subs_epi8 b a in
    mm_cmpeq_epi8 (mm_and_si128 diff mask) mask
  else mm_cmpgt_epi8 a b.

Definition mask16 (x : Z) : BitMask := mkMask 16 16 0 false (u16 x).

Definition s_Match (pos : list Z) (hash : Z) : BitMask :=
  let ctrl := mm_loadu_si128 pos in
  let match_ := mm_set1_epi8 (wrapS 8 hash) in
  mask16 (mm_movemask_epi8 (mm_cmpeq_epi8 match_ ctrl)).

Definition s_MaskEmpty (pos : list Z) : BitMask :=
  let ctrl := mm_loadu_si128 pos in
  if have_ssse3 then mask16 (mm_movemask_epi8 (mm_sign_epi8 ctrl ctrl))
  else mask16 (mm_movemask_epi8 (mm_cmpeq_epi8 (mm_set1_epi8 kEmpty) ctrl)).

Definition s_MaskFull (pos : list Z) : BitMask :=
  mask16 (Z.lxor (mm_movemask_epi8 (mm_loadu_si128 pos)) 0xffff).

Definition s_MaskNonFull (pos : list Z) : BitMask :=
  mask16 (mm_movemask_epi8 (mm_loadu_si128 pos)).

Definition s_MaskEmptyOrDeleted (pos : list Z) : BitMask :=
  mask16 (mm_movemask_epi8 (mm_cmpgt_epi8_fixed (mm_set1_epi8 kSentinel) (mm_loadu_si128 pos))).

Definition s_CountLeadingEmptyOrDeleted (pos : list Z) : outcome Z :=
  let special := mm_set1_epi8 kSentinel in
  TrailingZeros 32 (u32 (mm_movemask_epi8 (mm_cmpgt_epi8_fixed special (mm_loadu_si128 pos)) + 1)).

Definition s_ConvertSpecialToEmptyAndFullToDeleted (pos : list Z) : list Z :=
  let ctrl := mm_loadu_si128 pos in
  let msbs := mm_set1_epi8 (-128) in
  let x126 := mm_set1_epi8 126 in
  if have_ssse3 then lanes (mm_or_si128 (mm_shuffle_epi8 x126 ctrl) msbs)
  else
    let special_mask := mm_cmpgt_epi8_fixed mm_setzero_si128 ctrl in
    lanes (mm_or_si128 msbs (mm_andnot_si128 special_mask x126)).

Definition GroupSse2Impl : GroupImpl :=
  mkGroup 16 s_Match s_MaskEmpty s_MaskFull s_MaskNonFull s_MaskEmptyOrDeleted
    s_CountLeadingEmptyOrDeleted s_ConvertSpecialToEmptyAndFullToDeleted.
End sse2.

(** *** Eight lanes of NEON *)

(** The comparisons set a lane to 0xff or 0; [vget_lane_u64] of a vector
    reinterpreted as one 64-bit lane is its eight bytes. *)
Class Neon := {
  U8x8 : Type;
  vbytes : U8x8 -> list Z;
  vld1_u8 : list Z -> U8x8;
  vdup_n_u8 : Z -> U8x8;
  vdup_n_s8 : Z -> U8x8;
  vceq_u8 : U8x8 -> U8x8 -> U8x8;
  vceq_s8 : U8x8 -> U8x8 -> U8x8;
  vcge_s8 : U8x8 -> U8x8 -> U8x8;
  vclt_s8 : U8x8 -> U8x8 -> U8x8;
  vcgt_s8 : U8x8 -> U8x8 -> U8x8;
  vcle_s8 : U8x8 -> U8x8 -> U8x8;
  vget_lane_u64 : U8x8 -> Z;
}.

Definition lane_mask (b : bool) : Z := if b then 0xff else 0.

(** A comparison of the lanes as [int8_t]. *)
Definition signed (r : Z -> Z -> bool) (x y : Z) : Z := lane_mask (r (wrapS 8 x) (wrapS 8 y)).

Class NeonLaws (I : Neon) := {
  vld1_bytes p : length p = 8%nat -> vbytes (vld1_u8 p) = p;
  vdup_bytes c : vbytes (vdup_n_u8 c) = replicate 8 (u8 c);
  vdup_s8_bytes c : vbytes (vdup_n_s8 c) = replicate 8 (u8 c);
  vceq_u8_bytes a b : vbytes (vceq_u8 a b) = zip_with (fun x y => lane_mask (x =? y)) (vbytes a) (vbytes b);
  vceq_s8_bytes a b : vbytes (vceq_s8 a b) = zip_with (signed Z.eqb) (vbytes a) (vbytes b);
  vcge_bytes a b : vbytes (vcge_s8 a b) = zip_with (signed Z.geb) (vbytes a) (vbytes b);
  vclt_bytes a b : vbytes (vclt_s8 a b) = zip_with (signed Z.ltb) (vbytes a) (vbytes b);
  vcgt_bytes a b : vbytes (vcgt_s8 a b) = zip_with (signed Z.gtb) (vbytes a) (vbytes b);
  vcle_bytes a b : vbytes (vcle_s8 a b) = zip_with (signed Z.leb) (vbytes a) (vbytes b);
  vget_lane_bytes a : vget_lane_u64 a = le_value (vbytes a);
}.

Section neon.
Context `{I : Neon}.

Definition n_load (pos : list Z) : U8x8 := vld1_u8 (u8 <$> pos).
Definition mask64 (nullify : bool) (v : U8x8) : BitMask := mkMask 64 8 3 nullify (vget_lane_u64 v).

Definition n_Match (pos : list Z) (hash : Z) : BitMask :=
  mask64 true (vceq_u8 (n_load pos) (vdup_n_u8 hash)).
Definition n_MaskEmpty (pos : list Z) : BitMask :=
  mask64 false (vceq_s8 (vdup_n_s8 kEmpty) (n_load pos)).
Definition n_MaskFull (pos : list Z) : BitMask := mask64 true (vcge_s8 (n_load pos) (vdup_n_s8 0)).
Definition n_MaskNonFull (pos : list Z) : BitMask := mask64 true (vclt_s8 (n_load pos) (vdup_n_s8 0)).
Definition n_MaskEmptyOrDeleted (pos : list Z) : BitMask :=
  mask64 false (vcgt_s8 (vdup_n_s8 kSentinel) (n_load pos)).

Definition n_CountLeadingEmptyOrDeleted (pos : list Z) : outcome Z :=
  let mask := vget_lane_u64 (vcle_s8 (vdup_n_s8 kSentinel) (n_load pos)) in
  Ret (Z.shiftr (u32 (countr_zero 64 mask)) 3).

Definition n_ConvertSpecialToEmptyAndFullToDeleted (pos : list Z) : list Z :=
  let mask := vget_lane_u64 (n_load pos) in
  let slsbs := 0x0202020202020202 in
  let midbs := 0x7e7e7e7e7e7e7e7e in
  let x := Z.land slsbs (Z.shiftr mask 6) in
  Store64 (Z.lor (u64 (x + midbs)) kMsbs8Bytes).

Definition GroupAArch64Impl : GroupImpl :=
  mkGroup 8 n_Match n_MaskEmpty n_MaskFull n_MaskNonFull n_MaskEmptyOrDeleted
    n_CountLeadingEmptyOrDeleted n_ConvertSpecialToEmptyAndFullToDeleted.
End neon.

(** ** What a mask shows *)

(** The positions of the set marks, counted from [k]. *)
Fixpoint set_positions (k : Z) (marks : list bool) : list Z :=
  match marks with
  | [] => []
  | m :: marks => (if m then [k] else []) ++ set_positions (k + 1) marks
  end.

Definition base (m : BitMask) : Z := if bm_Shift m =? 0 then 2 else 256.

(** The mask has a digit for each mark: one bit, the top bit of a byte or all
    bits of a byte. *)
Definition shows (m : BitMask) (marks : list bool) : Prop :=
  exists d, mask_ m = digits (base m) d marks /\ bm_SignificantBits m = Z.of_nat (length marks) /\
    ((bm_T m = 16 /\ bm_Shift m = 0 /\ d = 1 /\ length marks = 16%nat) \/
     (bm_T m = 64 /\ bm_Shift m = 3 /\ (d = 0x80 \/ d = 0xff) /\ length marks = 8%nat)).

(** What the constructor of [BitMask] asserts. *)
Definition iterable (m : BitMask) : Prop :=
  bm_Shift m = 3 -> bm_Nullify m = false -> Z.land (mask_ m) kMsbs8Bytes = mask_ m.

Lemma digits_app b d n l : digits b d (replicate n false ++ l) = b ^ Z.of_nat n * digits b d l.
Proof.
  induction n as [|n IH]; [simpl; lia|]. cbn [replicate app digits].
  rewrite IH, Nat2Z.inj_succ, Z.pow_succ_r by lia. lia.
Qed.

Lemma digits_range b d l : 0 < d < b -> 0 <= digits b d l < b ^ Z.of_nat (length l).
Proof.
  intros Hd. induction l as [|m l IH]; [simpl; lia|]. cbn [digits length].
  rewrite Nat2Z.inj_succ, Z.pow_succ_r by lia. destruct m; nia.
Qed.

Lemma digits_none b d n : digits b d (replicate n false) = 0.
Proof. rewrite <- (app_nil_r (replicate n false)), digits_app. simpl. lia. Qed.

(** A list of marks has none set, or a first one. *)
Lemma first_mark (l : list bool) :
  l = replicate (length l) false \/ exists n r, l = replicate n false ++ true :: r.
Proof.
  induction l as [|[] l IH]; [by left|right; by exists 0%nat, l|].
  destruct IH as [E|(n & r & E)]; [left; simpl; by rewrite <- E|right].
  exists (S n), r. simpl. by rewrite <- E.
Qed.

Lemma set_positions_app k n l :
  set_positions k (replicate n false ++ l) = set_positions (k + Z.of_nat n) l.
Proof.
  revert k. induction n as [|n IH]; intros k; [simpl; f_equal; lia|].
  cbn [replicate app set_positions]. rewrite IH. f_equal. lia.
Qed.

Lemma set_positions_elem k l i :
  i ∈ set_positions k l <-> k <= i /\ l !! Z.to_nat (i - k) = Some true.
Proof.
  revert k. induction l as [|m l IH]; intros k; simpl.
  - split; [by intros ?%not_elem_of_nil|]. by intros [_ ?].
  - rewrite elem_of_app, IH. destruct (Z.eq_dec i k) as [->|Hne].
    + rewrite Z.sub_diag. simpl. destruct m; split.
      * intros _. split; [lia|done].
      * intros _. left. by apply list_elem_of_singleton.
      * intros [?%not_elem_of_nil|[? _]]; [done|lia].
      * by intros [_ ?].
    + assert (Hm : i ∉ (if m then [k] else [])) by (destruct m; set_solver).
      split.
      * intros [?|[Hk Hi]]; [done|]. split; [lia|].
        replace (Z.to_nat (i - k)) with (S (Z.to_nat (i - (k + 1)))) by lia. done.
      * intros [Hk Hi]. right. split; [lia|].
        replace (Z.to_nat (i - k)) with (S (Z.to_nat (i - (k + 1)))) in Hi by lia. done.
Qed.

Lemma set_positions_length k l : (length (set_positions k l) <= length l)%nat.
Proof. revert k. induction l as [|[] l IH]; intros k; simpl; [lia|specialize (IH (k + 1))..]; lia. Qed.

Lemma set_positions_head k l i r : set_positions k l = i :: r -> forall j, j ∈ i :: r -> i <= j.
Proof.
  revert k. induction l as [|[] l IH]; intros k E; [done| |].
  - simpl in E. injection E as <- <-. intros j [-> | [Hj _]%set_positions_elem]%elem_of_cons; lia.
  - exact (IH _ E).
Qed.

(** The lowest digit that is set: [t] zero bits below it. *)
Lemma digits_trailing s t n r d m :
  0 < s -> 0 <= t < s -> d = 2 ^ t * (2 * m + 1) -> 
  trailing (digits (2 ^ s) d (replicate n false ++ true :: r)) (s * Z.of_nat n + t).
Proof.
  intros Hs Ht Hd. split; [lia|]. rewrite digits_app. cbn [digits].
  generalize (digits (2 ^ s) d r) as X. intros X. exists (m + 2 ^ (s - t - 1) * X).
  assert (E : 2 ^ s = 2 ^ t * (2 * 2 ^ (s - t - 1))).
  { rewrite <- Z.pow_succ_r, <- Z.pow_add_r by lia. f_equal. lia. }
  rewrite <- Z.pow_mul_r, Z.pow_add_r, Hd, E by lia. ring.
Qed.

Lemma trailing_pos x k : trailing x k -> 0 <= x -> 0 < x.
Proof.
  intros [Hk [q ->]] Hx. pose proof (Z.pow_pos_nonneg 2 k ltac:(lia) Hk).
  assert (2 ^ k * (2 * q + 1) <> 0) by (apply Z.neq_mul_0; lia). lia.
Qed.

(** The bits below the lowest set position, for the three digits. *)
Lemma shows_trailing m n r :
  shows m (replicate n false ++ true :: r) ->
  exists k, trailing (mask_ m) k /\ inU (bm_T m) (mask_ m) /\ 0 < mask_ m /\
    unsigned_width (bm_T m) /\ Z.shiftr k (bm_Shift m) = Z.of_nat n.
Proof.
  intros (d & Em & _ & Hk). set (l := replicate n false ++ true :: r) in *.
  pose proof (digits_range (base m) d l) as Hr. rewrite <- Em in Hr.
  destruct Hk as [(Ht & Hs & -> & Hlen)|(Ht & Hs & Hd & Hlen)]; rewrite Hlen in Hr;
    unfold base in *; rewrite Hs in *; cbn [Z.eqb] in *.
  - pose proof (digits_trailing 1 0 n r 1 0 ltac:(lia) ltac:(lia) eq_refl) as Htr. fold l in Htr.
    change (2 ^ 1) with 2 in Htr. rewrite <- Em in Htr. exists (1 * Z.of_nat n + 0). rewrite Ht. split_and!; [done|apply Hr; lia| |right; by left|].
    + apply (trailing_pos _ _ Htr), Hr. lia.
    + rewrite Z.shiftr_0_r. lia.
  - pose proof (fun t q => digits_trailing 8 t n r d q ltac:(lia)) as Htr. fold l in Htr.
    change (2 ^ 8) with 256 in Htr. rewrite <- Em in Htr. rewrite Ht.
    assert (exists t, 0 <= t < 8 /\ trailing (mask_ m) (8 * Z.of_nat n + t)) as (t & Ht8 & Htr').
    { destruct Hd as [-> | ->]; [exists 7|exists 0]; (split; [lia|]).
      - apply (Htr 7 0); [lia|done].
      - apply (Htr 0 127); [lia|done]. }
    exists (8 * Z.of_nat n + t). split_and!; [done|apply Hr; lia| |by do 3 right|].
    + apply (trailing_pos _ _ Htr'), Hr. lia.
    + rewrite Z.shiftr_div_pow2 by lia. change (2 ^ 3) with 8. symmetry.
      apply (Z.div_unique_pos _ _ _ t); lia.
Qed.

Lemma shows_lowest m n r :
  shows m (replicate n false ++ true :: r) -> LowestBitSet m = Ret (Z.of_nat n).
Proof.
  intros Hm. destruct (shows_trailing m n r Hm) as (k & Hk & HU & Hpos & Hw & Es).
  unfold LowestBitSet, TrailingZeros. destruct (Z.eqb_spec (mask_ m) 0); [lia|].
  rewrite (countr_zero_is _ _ k) by done. simpl. rewrite wrapU_id, Es; [done|].
  assert (0 <= k < bm_T m) by (eapply trailing_lt; eauto; unfold unsigned_width in Hw; lia).
  unfold inU. unfold unsigned_width in Hw. lia.
Qed.

Lemma shows_none m n : shows m (replicate n false) -> mask_ m = 0.
Proof. intros (d & -> & _). apply digits_none. Qed.

(** One check for each of the [2 ^ n] lists of marks. *)
Fixpoint all_marks (n : nat) : list (list bool) :=
  match n with
  | O => [[]]
  | S n => (cons true <$> all_marks n) ++ (cons false <$> all_marks n)
  end.

Lemma marks_table (f : list bool -> bool) n :
  forallb f (all_marks n) = true -> forall l, length l = n -> f l = true.
Proof.
  intros Hf l Hl. rewrite forallb_forall in Hf. apply Hf, list_elem_of_In. clear Hf.
  revert n Hl. induction l as [|m l IH]; intros [|n] Hl; try discriminate Hl; [by left|].
  simpl. apply elem_of_app. destruct m; [left|right]; apply list_elem_of_fmap; eexists; (split; [done|]);
    apply IH; by injection Hl.
Qed.

Lemma marks_eq_table `{EqDecision A} (f h : list bool -> A) n :
  forallb (fun l => bool_decide (f l = h l)) (all_marks n) = true -> forall l, length l = n -> f l = h l.
Proof.
  intros Hf l Hl. pose proof (marks_table (fun l => bool_decide (f l = h l)) n Hf l Hl) as E.
  by apply bool_decide_eq_true_1 in E.
Qed.

Lemma digits_msbs d l :
  d = 0x80 \/ d = 0xff -> length l = 8%nat ->
  Z.land (digits 256 d l) kMsbs8Bytes = digits 256 0x80 l.
Proof.
  intros Hd. revert l. destruct Hd as [-> | ->].
  - apply (marks_eq_table (fun l => Z.land (digits 256 0x80 l) kMsbs8Bytes) (digits 256 0x80) 8).
    vm_compute. reflexivity.
  - apply (marks_eq_table (fun l => Z.land (digits 256 0xff l) kMsbs8Bytes) (digits 256 0x80) 8).
    vm_compute. reflexivity.
Qed.

(** [operator++] clears the lowest position. *)
Lemma shows_next m n r :
  shows m (replicate n false ++ true :: r) -> iterable m ->
  shows (bm_next m) (replicate (S n) false ++ r) /\ iterable (bm_next m).
Proof.
  intros Hm Hit. destruct (shows_trailing m n r Hm) as (_ & _ & HU & Hpos & Hw & _).
  assert (Hlen : length (replicate (S n) false ++ r) = length (replicate n false ++ true :: r))
    by (rewrite !length_app, !length_replicate; simpl; lia).
  destruct Hm as (d & Em & Esig & Hk). 
  assert (Hgen : forall x s t q, x = digits (2 ^ s) (2 ^ t) (replicate n false ++ true :: r) ->
    0 <= t < s -> 0 < x -> inU (bm_T m) x -> q = Z.land x (wrapU (bm_T m) (x - 1)) ->
    q = digits (2 ^ s) (2 ^ t) (replicate (S n) false ++ r)).
  { intros x s t q Ex Ht Hx HUx ->. rewrite land_wrap by (done || (unfold unsigned_width in Hw; lia)).
    assert (Hb : 0 < 2 ^ t < 2 ^ s) by (split; [apply Z.pow_pos_nonneg|apply Z.pow_lt_mono_r]; lia).
    pose proof (digits_range (2 ^ s) (2 ^ t) r Hb) as HR.
    set (R := digits (2 ^ s) (2 ^ t) r) in *.
    assert (Es : 2 ^ s = 2 ^ t * 2 ^ (s - t)) by (rewrite <- Z.pow_add_r by lia; f_equal; lia).
    assert (E2 : 2 ^ (s - t) = 2 * 2 ^ (s - t - 1)) by (rewrite <- Z.pow_succ_r by lia; f_equal; lia).
    assert (E3 : 2 ^ (s * Z.of_nat n + t) = (2 ^ s) ^ Z.of_nat n * 2 ^ t)
      by (rewrite Z.pow_add_r, Z.pow_mul_r by nia; done).
    rewrite digits_app in Ex |- *. cbn [digits] in Ex. fold R in Ex |- *.
    rewrite (land_pred x (s * Z.of_nat n + t) (2 ^ (s - t - 1) * R)).
    - rewrite Nat2Z.inj_succ, Z.pow_succ_r, E3, Es, E2 by lia. ring.
    - nia.
    - apply Z.mul_nonneg_nonneg; [apply Z.pow_nonneg|]; lia.
    - rewrite E3, Ex, Es, E2. ring. }
  destruct Hk as [(Ht & Hs & -> & Hl)|(Ht & Hs & Hd & Hl)]; unfold base in Em; rewrite Hs in Em; cbn [Z.eqb] in Em.
  - split; [|intros Hc; cbn in Hc; lia]. exists 1. unfold base, bm_next. rewrite Hs. cbn [mask_ bm_T bm_Shift bm_SignificantBits bm_Nullify Z.eqb andb]. split_and!; [|by rewrite Hlen|].
    + by apply (Hgen (mask_ m) 1 0).
    + left. by rewrite Hlen.
  - set (l := replicate n false ++ true :: r) in *.
    assert (Ey : (if (bm_Shift m =? 3) && bm_Nullify m then Z.land (mask_ m) kMsbs8Bytes else mask_ m) =
      digits 256 0x80 l).
    { rewrite Hs. cbn [Z.eqb andb]. rewrite <- (digits_msbs d l), <- Em by done.
      destruct (bm_Nullify m) eqn:Hn; [done|]. symmetry. by apply Hit. }
    assert (En : mask_ (bm_next m) = digits 256 0x80 (replicate (S n) false ++ r)).
    { unfold bm_next. cbn [mask_]. rewrite Ey. apply (Hgen (digits 256 0x80 l) 8 7); try lia; try done.
      all: pose proof (digits_range 256 0x80 l ltac:(lia)) as HR; rewrite Hl in HR.
      - apply (trailing_pos _ (8 * Z.of_nat n + 7)); [|lia].
        apply (digits_trailing 8 7 n r 0x80 0); [lia|lia|done].
      - rewrite Ht. exact HR. }
    split; [|intros _ _; rewrite En; apply digits_msbs; [by left|by rewrite Hlen]].
    exists 0x80. unfold base. rewrite En. unfold bm_next. cbn [mask_ bm_T bm_Shift bm_SignificantBits bm_Nullify Z.eqb andb]. rewrite Hs, Hlen. split_and!; [done|done|].
    right. split_and!; auto.
Qed.

(** The loop over a mask visits the positions that are set, in order. *)
Lemma bm_indices_spec fuel m n r :
  shows m (replicate n false ++ r) -> iterable m -> (length (set_positions (Z.of_nat n) r) < fuel)%nat ->
  bm_indices fuel m = Ret (set_positions (Z.of_nat n) r).
Proof.
  revert m n r. induction fuel as [|fuel IH]; intros m n r Hm Hit Hf; [lia|]. cbn [bm_indices].
  unfold bm_bool. destruct (first_mark r) as [E|(k & r' & ->)].
  - rewrite E in Hm |- *. rewrite <- replicate_add in Hm. rewrite (shows_none _ _ Hm). cbn.
    rewrite <- (app_nil_r (replicate _ _)), set_positions_app. done.
  - rewrite app_assoc, <- replicate_add in Hm. rewrite set_positions_app in Hf |- *. cbn [set_positions app length] in Hf |- *.
    destruct (shows_trailing _ _ _ Hm) as (_ & _ & _ & Hpos & _). destruct (Z.eqb_spec (mask_ m) 0); [lia|].
    cbn [negb]. rewrite (shows_lowest _ _ _ Hm). cbn [obind].
    destruct (shows_next _ _ _ Hm Hit) as [Hn Hi].
    replace (Z.of_nat n + Z.of_nat k + 1) with (Z.of_nat (S (n + k))) in Hf |- * by lia.
    rewrite (IH _ _ _ Hn Hi) by lia. cbn [obind]. do 2 f_equal. lia.
Qed.

Lemma bm_list_spec m marks :
  shows m marks -> iterable m -> bm_list m = Ret (set_positions 0 marks).
Proof.
  intros Hm Hit. apply (bm_indices_spec _ m 0 marks); [done..|].
  destruct Hm as (d & _ & -> & _). change (Z.of_nat 0) with 0.
  pose proof (set_positions_length 0 marks). lia.
Qed.

Lemma shows_bool m marks : shows m marks -> bm_bool m = existsb id marks.
Proof.
  intros Hm. unfold bm_bool. destruct (first_mark marks) as [E|(n & r & ->)].
  - rewrite E in Hm |- *. rewrite (shows_none _ _ Hm). simpl. clear. by induction (length marks).
  - destruct (shows_trailing _ _ _ Hm) as (_ & _ & _ & Hpos & _). destruct (Z.eqb_spec (mask_ m) 0); [lia|].
    rewrite existsb_app. simpl. by rewrite orb_true_r.
Qed.

(** The highest position that is set. *)
Lemma shows_highest m l n :
  shows m (l ++ true :: replicate n false) -> HighestBitSet m = Z.of_nat (length l).
Proof.
  intros (d & Em & _ & Hk). unfold HighestBitSet.
  assert (E : digits (base m) d (l ++ true :: replicate n false) =
    digits (base m) d l + (base m) ^ Z.of_nat (length l) * d).
  { clear. induction l as [|b l IH]; cbn [app digits length]; [rewrite digits_none; simpl; lia|].
    rewrite IH, Nat2Z.inj_succ, Z.pow_succ_r by lia. lia. }
  rewrite E in Em. clear E. rewrite length_app in Hk. cbn [length] in Hk. rewrite length_replicate in Hk.
  pose proof (digits_range (base m) d l) as Hr.
  assert (exists e, 0 < e /\ base m = 2 ^ e /\ 0 < d < base m /\
    (forall x, e * Z.of_nat (length l) <= x < e * (Z.of_nat (length l) + 1) ->
      Z.shiftr x (bm_Shift m) = Z.of_nat (length l)) /\
    unsigned_width (bm_T m) /\ e * (Z.of_nat (length l) + 1) <= bm_T m <= 64)
    as (e & He & Hb & Hd & Hsh & Hw & HT).
  { unfold base. destruct Hk as [(-> & -> & -> & Hl)|(-> & -> & Hd & Hl)]; cbn [Z.eqb].
    - exists 1. split_and!; [lia..| | |lia|lia].
      + intros x Hx. rewrite Z.shiftr_0_r. lia.
      + right. by left.
    - exists 8. split_and!; [lia..| | |lia|lia].
      + intros x Hx. rewrite Z.shiftr_div_pow2 by lia. change (2 ^ 3) with 8. symmetry.
        apply (Z.div_unique_pos _ _ _ (x - 8 * Z.of_nat (length l))); lia.
      + by do 3 right. }
  specialize (Hr Hd). rewrite Hb in Hr, Em, Hd. rewrite <- Z.pow_mul_r in Hr, Em by lia.
  set (k := Z.of_nat (length l)) in *.
  assert (Hlo : 2 ^ (e * k) <= mask_ m) by nia.
  assert (Hhi : mask_ m < 2 ^ (e * (k + 1))).
  { rewrite Z.mul_add_distr_l, Z.pow_add_r, Z.mul_1_r by nia. nia. }
  pose proof (Z.pow_pos_nonneg 2 (e * k) ltac:(lia) ltac:(nia)) as Hp.
  pose proof (Z.pow_le_mono_r 2 _ (bm_T m) ltac:(lia) (proj1 HT)) as Hle.
  rewrite bit_width_spec by (done || (unfold inU; lia)). unfold bit_length.
  destruct (Z.eqb_spec (mask_ m) 0); [lia|].
  rewrite Z.add_simpl_r, Hsh; [|split].
  - apply wrapU_id. unfold inU. nia.
  - apply Z.log2_le_pow2; lia.
  - apply Z.log2_lt_pow2; lia.
Qed.

(** ** What a table asks of a group *)

(** A group is given [kWidth] control bytes. *)
Definition window (n : nat) (g : list Z) : Prop := length g = n /\ Forall ctrl_t g.

(** The number of empty or deleted bytes at the start. *)
Fixpoint leading (g : list Z) : Z :=
  match g with
  | [] => 0
  | c :: g => if IsEmptyOrDeleted c then 1 + leading g else 0
  end.

Class GroupLaws (G : GroupImpl) (n : nat) := {
  group_width : kWidth G = Z.of_nat n;
  group_size : n = 8%nat \/ n = 16%nat;
  (** every byte that matches is shown, never a special one; a group
      without a match shows nothing *)
  match_shows g h : window n g -> 0 <= h < 128 -> exists marks,
    shows (Match G g h) marks /\ iterable (Match G g h) /\
    (forall i, marks !! i = Some true -> exists c, g !! i = Some c /\ 0 <= c) /\
    (forall i, g !! i = Some h -> marks !! i = Some true) /\
    (h ∉ g -> existsb id marks = false);
  empty_shows g : window n g -> shows (MaskEmpty G g) (IsEmpty <$> g);
  full_shows g : window n g -> shows (MaskFull G g) (IsFull <$> g);
  full_iterable g : window n g -> iterable (MaskFull G g);
  non_full_shows g : window n g -> shows (MaskNonFull G g) ((fun c => negb (IsFull c)) <$> g);
  empty_or_deleted_shows g : window n g -> shows (MaskEmptyOrDeleted G g) (IsEmptyOrDeleted <$> g);
  leading_count g : window n g -> CountLeadingEmptyOrDeleted G g = Ret (leading g);
  convert_bytes g : window n g ->
    ConvertSpecialToEmptyAndFullToDeleted G g = (fun c => if IsFull c then kDeleted else kEmpty) <$> g;
}.

#[export] Instance ctrl_t_dec c : Decision (ctrl_t c).
Proof. unfold ctrl_t. apply _. Defined.

#[export] Instance window_dec n g : Decision (window n g).
Proof. unfold window. apply _. Defined.

(** ** The word of eight bytes *)

(** One entry for each control byte. *)
Lemma ctrl_table (f : Z -> bool) :
  f kEmpty && f kDeleted && f kSentinel && forallb f (below 128) = true ->
  forall c, ctrl_t c -> f c = true.
Proof.
  intros Hf c Hc. apply andb_prop in Hf as [Hf Hfull]. apply andb_prop in Hf as [Hf Hs].
  apply andb_prop in Hf as [He Hd]. destruct Hc as [-> | [-> | [-> | Hc]]]; [done..|].
  rewrite forallb_forall in Hfull. apply Hfull, list_elem_of_In, in_below. lia.
Qed.

Lemma ctrl_eq (f h : Z -> bool) :
  (let same c := Bool.eqb (f c) (h c) in
   same kEmpty && same kDeleted && same kSentinel && forallb same (below 128)) = true ->
  forall c, ctrl_t c -> f c = h c.
Proof. intros Hf c Hc. apply Bool.eqb_prop. by apply (ctrl_table (fun c => Bool.eqb (f c) (h c))). Qed.

(** Decides an equation of two tests of the control byte [c]. *)
Ltac by_ctrl c :=
  match goal with |- ?a = ?b =>
    let fa := eval pattern c in a in
    let fb := eval pattern c in b in
    match fa with ?f _ => match fb with ?h _ =>
      apply (ctrl_eq f h); [vm_compute; reflexivity|assumption] end end end.

Lemma u8_bytes g : Forall is_byte (u8 <$> g).
Proof. apply Forall_fmap, Forall_true. intros c. apply wrapU_range. lia. Qed.

(** Bit [j] of byte [i] of a little-endian number. *)
Lemma le_value_bit l i j :
  Forall is_byte l -> 0 <= j < 8 ->
  Z.testbit (le_value l) (8 * Z.of_nat i + j) =
    match l !! i with Some c => Z.testbit c j | None => false end.
Proof.
  intros Hl Hj. revert i. induction Hl as [|c l Hc Hl IH]; intros i; [by rewrite Z.testbit_0_l|].
  cbn [le_value]. unfold is_byte in Hc. rewrite split_testbit by lia. destruct i as [|i].
  - destruct (Z.ltb_spec (8 * Z.of_nat 0 + j) 8); [|lia]. done.
  - destruct (Z.ltb_spec (8 * Z.of_nat (S i) + j) 8); [lia|].
    replace (8 * Z.of_nat (S i) + j - 8) with (8 * Z.of_nat i + j) by lia. apply IH.
Qed.

Lemma Load64_bit g i j c :
  g !! i = Some c -> 0 <= j < 8 -> Z.testbit (Load64 g) (8 * Z.of_nat i + j) = Z.testbit (u8 c) j.
Proof.
  intros Hi Hj. unfold Load64. rewrite le_value_bit by (done || apply u8_bytes).
  by rewrite list_lookup_fmap, Hi.
Qed.

Lemma Load64_range g : length g = 8%nat -> inU 64 (Load64 g).
Proof.
  intros Hg. pose proof (le_value_range _ (u8_bytes g)) as Hr. by rewrite length_fmap, Hg in Hr.
Qed.

Lemma digits_le d l :
  digits 256 d l = le_value ((fun b : bool => if b then d else 0) <$> l).
Proof. induction l as [|b l IH]; [done|]. csimpl. cbn [digits le_value]. by rewrite IH. Qed.

Lemma digits_bytes d l : 0 <= d < 256 -> Forall is_byte ((fun b : bool => if b then d else 0) <$> l).
Proof. intros Hd. apply Forall_fmap, Forall_true. intros []; unfold is_byte; simpl; lia. Qed.

(** A mask that keeps one bit of every byte. *)
Lemma land_digits x k marks :
  0 <= k < 8 -> length marks = 8%nat ->
  (forall i b, marks !! i = Some b -> Z.testbit x (8 * Z.of_nat i + k) = b) ->
  Z.land x (digits 256 (2 ^ k) (replicate 8 true)) = digits 256 (2 ^ k) marks.
Proof.
  intros Hk Hl Hx. assert (Hd : 0 <= 2 ^ k < 256).
  { pose proof (Z.pow_pos_nonneg 2 k). pose proof (Z.pow_lt_mono_r 2 k 8). lia. }
  apply Z.bits_inj'. intros p Hp. rewrite Z.land_spec.
  replace p with (8 * Z.of_nat (Z.to_nat (p / 8)) + p mod 8)
    by (pose proof (Z.div_mod p 8); pose proof (Z.div_pos p 8); lia).
  set (i := Z.to_nat (p / 8)). pose proof (Z.mod_pos_bound p 8 ltac:(lia)) as Hj. set (j := p mod 8) in *.
  rewrite !digits_le, !le_value_bit, !list_lookup_fmap by (done || by apply digits_bytes).
  destruct (marks !! i) as [b|] eqn:Ei.
  - rewrite lookup_replicate_2 by (apply lookup_lt_Some in Ei; lia). cbn [fmap option_fmap option_map].
    rewrite Z.pow2_bits_eqb by lia. destruct (Z.eqb_spec k j) as [Ekj|Hne].
    + rewrite andb_true_r. subst k. rewrite (Hx i b Ei). destruct b; [|by rewrite Z.testbit_0_l].
      by rewrite Z.pow2_bits_true by lia.
    + rewrite andb_false_r. destruct b; [|by rewrite Z.testbit_0_l].
      by rewrite Z.pow2_bits_false by lia.
  - rewrite (proj2 (lookup_ge_None _ _)); [by rewrite andb_false_r|].
    rewrite length_replicate. apply lookup_ge_None in Ei. lia.
Qed.

Lemma land_msbs x marks :
  length marks = 8%nat -> (forall i b, marks !! i = Some b -> Z.testbit x (8 * Z.of_nat i + 7) = b) ->
  Z.land x kMsbs8Bytes = digits 256 0x80 marks.
Proof. exact (land_digits x 7 marks ltac:(lia)). Qed.

Lemma land_lsbs x marks :
  length marks = 8%nat -> (forall i b, marks !! i = Some b -> Z.testbit x (8 * Z.of_nat i) = b) ->
  Z.land x 0x0101010101010101 = digits 256 1 marks.
Proof.
  intros Hl Hx. apply (land_digits x 0 marks ltac:(lia) Hl). intros i b Hi. rewrite Z.add_0_r. by apply Hx.
Qed.

Lemma notU64_bit x k : 0 <= k < 64 -> Z.testbit (notU 64 x) k = negb (Z.testbit x k).
Proof.
  intros Hk. unfold notU. rewrite wrapU_testbit, Z.lnot_spec by lia.
  destruct (Z.ltb_spec k 64); [done|lia].
Qed.

Lemma shl64_bit x s k : 0 <= s <= k -> k < 64 -> Z.testbit (shlU 64 x s) k = Z.testbit x (k - s).
Proof.
  intros Hs Hk. unfold shlU. rewrite wrapU_testbit, Z.shiftl_spec by lia.
  destruct (Z.ltb_spec k 64); [done|lia].
Qed.

Lemma word_mask_shows x marks :
  length marks = 8%nat -> x = digits 256 0x80 marks ->
  shows (word_mask x) marks /\ iterable (word_mask x).
Proof.
  intros Hl ->. split.
  - exists 0x80. unfold word_mask, base. cbn [mask_ bm_T bm_Shift bm_SignificantBits Z.eqb]. rewrite Hl.
    split_and!; [done|done|right; auto].
  - intros _ _. apply digits_msbs; [by left|done].
Qed.

(** A word is masked to the top bits of its bytes: one test per byte. *)
Lemma masked_shows g x (f : Z -> bool) :
  window 8 g ->
  (forall i c, g !! i = Some c -> ctrl_t c -> (i < 8)%nat -> Z.testbit x (8 * Z.of_nat i + 7) = f c) ->
  shows (word_mask (Z.land x kMsbs8Bytes)) (f <$> g) /\ iterable (word_mask (Z.land x kMsbs8Bytes)).
Proof.
  intros [Hl Hg] Hx. apply word_mask_shows; [by rewrite length_fmap|].
  apply land_msbs; [by rewrite length_fmap|]. intros i b. rewrite list_lookup_fmap.
  destruct (g !! i) as [c|] eqn:Ei; simpl; [|done]. intros [= <-].
  apply Hx; [done| |apply lookup_lt_Some in Ei; lia]. by eapply Forall_lookup_1.
Qed.

Lemma p_empty_shows g : window 8 g -> shows (p_MaskEmpty g) (IsEmpty <$> g).
Proof.
  intros Hw. apply (masked_shows g (Z.land (Load64 g) (notU 64 (shlU 64 (Load64 g) 6)))); [done|].
  intros i c Hi Hc Hlt. rewrite Z.land_spec, notU64_bit, shl64_bit by lia.
  replace (8 * Z.of_nat i + 7 - 6) with (8 * Z.of_nat i + 1) by lia.
  rewrite !(Load64_bit g i _ c) by (done || lia). by_ctrl c.
Qed.

Lemma p_empty_or_deleted_shows g :
  window 8 g -> shows (p_MaskEmptyOrDeleted g) (IsEmptyOrDeleted <$> g).
Proof.
  intros Hw. apply (masked_shows g (Z.land (Load64 g) (notU 64 (shlU 64 (Load64 g) 7)))); [done|].
  intros i c Hi Hc Hlt. rewrite Z.land_spec, notU64_bit, shl64_bit by lia.
  replace (8 * Z.of_nat i + 7 - 7) with (8 * Z.of_nat i + 0) by lia.
  rewrite !(Load64_bit g i _ c) by (done || lia). by_ctrl c.
Qed.

Lemma kMsbs_bit i : (i < 8)%nat -> Z.testbit kMsbs8Bytes (8 * Z.of_nat i + 7) = true.
Proof. intros Hi. do 8 (destruct i as [|i]; [reflexivity|]). lia. Qed.

Lemma p_full_shows g :
  window 8 g -> shows (p_MaskFull g) (IsFull <$> g) /\ iterable (p_MaskFull g).
Proof.
  intros Hw. apply masked_shows; [done|]. intros i c Hi Hc Hlt.
  rewrite Z.lxor_spec, kMsbs_bit by done. rewrite (Load64_bit g i _ c) by (done || lia). by_ctrl c.
Qed.

Lemma p_non_full_shows g :
  window 8 g -> shows (p_MaskNonFull g) ((fun c => negb (IsFull c)) <$> g).
Proof.
  intros Hw. apply (masked_shows g (Load64 g)); [done|]. intros i c Hi Hc Hlt.
  rewrite (Load64_bit g i _ c) by (done || lia). by_ctrl c.
Qed.

(** The number of leading marks that are not set. *)
Lemma leading_first g :
  (IsEmptyOrDeleted <$> g) = replicate (length g) true /\ leading g = Z.of_nat (length g) \/
  exists n r, leading g = Z.of_nat n /\ (n < length g)%nat /\
    ((fun c => negb (IsEmptyOrDeleted c)) <$> g) = replicate n false ++ true :: r.
Proof.
  induction g as [|c g IH]; [by left|]. cbn [leading length]. csimpl.
  destruct (IsEmptyOrDeleted c) eqn:Ec; cbn [negb].
  - destruct IH as [[E El]|(n & r & El & Hn & E)]; [left|right].
    + split; [by rewrite E|lia].
    + exists (S n), r. split; [lia|]. split; [lia|]. simpl. by rewrite E.
  - right. exists 0%nat. eexists. split; [done|]. split; [lia|done].
Qed.

Lemma leading_range g : 0 <= leading g <= Z.of_nat (length g).
Proof. induction g as [|c g IH]; cbn [leading length]; [lia|]. destruct (IsEmptyOrDeleted c); lia. Qed.

(** Trailing zeroes of a word with one bit or all bits of each byte that is
    neither empty nor deleted. *)
Lemma leading_ctz g x d t m :
  length g = 8%nat -> 0 <= t < 8 -> d = 2 ^ t * (2 * m + 1) -> 0 < d < 256 ->
  x = digits 256 d ((fun c => negb (IsEmptyOrDeleted c)) <$> g) ->
  Z.shiftr (countr_zero 64 x) 3 = leading g /\ inU 32 (countr_zero 64 x).
Proof.
  intros Hl Ht Ed Hd Ex. destruct (leading_first g) as [[E El]|(n & r & El & Hn & E)].
  - assert (x = 0) as ->.
    { rewrite Ex. replace ((fun c => negb (IsEmptyOrDeleted c)) <$> g) with (replicate (length g) false);
        [apply digits_none|]. clear -E. induction g as [|c g IH]; [done|]. csimpl. simpl in E.
      injection E as -> E. by rewrite <- IH. }
    rewrite El, Hl. split; [reflexivity|]. vm_compute. split; [discriminate|reflexivity].
  - pose proof (digits_trailing 8 t n r d m ltac:(lia) Ht Ed) as Htr.
    rewrite <- E in Htr. change (2 ^ 8) with 256 in Htr. rewrite <- Ex in Htr.
    pose proof (digits_range 256 d ((fun c => negb (IsEmptyOrDeleted c)) <$> g) Hd) as Hr.
    rewrite <- Ex, length_fmap, Hl in Hr.
    rewrite (countr_zero_is 64 x (8 * Z.of_nat n + t)).
    + rewrite Z.shiftr_div_pow2 by lia. change (2 ^ 3) with 8. split; [|unfold inU; lia].
      rewrite El. symmetry. apply (Z.div_unique_pos _ _ _ t); lia.
    + by do 3 right.
    + exact Hr.
    + apply (trailing_pos _ _ Htr). lia.
    + done.
Qed.

Lemma p_leading_count g : window 8 g -> p_CountLeadingEmptyOrDeleted g = Ret (leading g).
Proof.
  intros [Hl Hg]. unfold p_CountLeadingEmptyOrDeleted. f_equal.
  destruct (leading_ctz g (Z.land (Z.lor (Load64 g) (notU 64 (Z.shiftr (Load64 g) 7))) 0x0101010101010101) 1 0 0)
    as [E _]; [done|lia|done|lia| |rewrite E; apply wrapU_id; pose proof (leading_range g); unfold inU; lia].
  apply land_lsbs; [by rewrite length_fmap|]. intros i b. rewrite list_lookup_fmap.
  destruct (g !! i) as [c|] eqn:Ei; simpl; [|done]. intros [= <-].
  pose proof (lookup_lt_Some _ _ _ Ei) as Hlt. assert (Hc : ctrl_t c) by (by eapply Forall_lookup_1).
  rewrite Z.lor_spec, notU64_bit, Z.shiftr_spec by lia.
  replace (8 * Z.of_nat i) with (8 * Z.of_nat i + 0) at 1 by lia.
  rewrite !(Load64_bit g i _ c) by (done || lia). by_ctrl c.
Qed.

(** *** Matching: the borrow of [x - lsbs] runs from byte to byte *)

(** The marks of [(x - lsbs) & ~x], from the lowest byte on. *)
Fixpoint borrow_marks (b : Z) (xs : list Z) : list bool :=
  match xs with
  | [] => []
  | x :: xs => ((x <? 128) && (x <=? b)) :: borrow_marks (if x <=? b then 1 else 0) xs
  end.

Fixpoint borrow_sub (b : Z) (xs : list Z) : list Z :=
  match xs with
  | [] => []
  | x :: xs => (x - 1 - b) mod 256 :: borrow_sub (if x <=? b then 1 else 0) xs
  end.

Lemma borrow_sub_value b xs :
  0 <= b <= 1 -> Forall is_byte xs ->
  (le_value xs - le_value (replicate (length xs) 1) - b) mod 256 ^ Z.of_nat (length xs) =
    le_value (borrow_sub b xs).
Proof.
  intros Hb Hxs. revert b Hb. induction Hxs as [|x xs Hx Hxs IH]; intros b Hb; [apply Z.mod_1_r|].
  cbn [length replicate le_value borrow_sub]. unfold is_byte in Hx.
  set (b' := if x <=? b then 1 else 0). specialize (IH b' ltac:(subst b'; destruct (x <=? b); lia)).
  rewrite <- IH, Nat2Z.inj_succ, Z.pow_succ_r by lia.
  set (A := le_value xs). set (L := le_value (replicate (length xs) 1)).
  replace (x + 256 * A - (1 + 256 * L) - b) with ((x - 1 - b) mod 256 + (A - L - b') * 256).
  - rewrite Z.rem_mul_r by (try apply Z.pow_pos_nonneg; lia).
    rewrite Z.mod_add, Z.mod_mod, Z.div_add by lia.
    rewrite Z.div_small by (apply Z.mod_pos_bound; lia). done.
  - subst b'. destruct (Z.leb_spec x b).
    + rewrite <- (Z.mod_unique_pos (x - 1 - b) 256 (-1) (x - 1 - b + 256)) by lia. lia.
    + rewrite Z.mod_small by lia. lia.
Qed.

Lemma borrow_sub_bytes b xs : Forall is_byte (borrow_sub b xs).
Proof. revert b. induction xs; intros b; simpl; constructor; [apply Z.mod_pos_bound; lia|done]. Qed.

Lemma borrow_byte x b :
  0 <= x < 256 -> 0 <= b <= 1 ->
  Z.testbit ((x - 1 - b) mod 256) 7 && negb (Z.testbit x 7) = (x <? 128) && (x <=? b).
Proof.
  intros Hx Hb. apply Bool.eqb_prop.
  apply (bytes_table2 (fun x b => Bool.eqb (Z.testbit ((x - 1 - b) mod 256) 7 && negb (Z.testbit x 7))
    ((x <? 128) && (x <=? b))) 2); [vm_compute; reflexivity|lia|lia].
Qed.

Lemma borrow_marks_bits b xs i m :
  0 <= b <= 1 -> Forall is_byte xs -> borrow_marks b xs !! i = Some m ->
  exists x y, xs !! i = Some x /\ borrow_sub b xs !! i = Some y /\
    m = Z.testbit y 7 && negb (Z.testbit x 7).
Proof.
  intros Hb Hxs. revert b i Hb. induction Hxs as [|x xs Hx Hxs IH]; intros b i Hb; [done|].
  destruct i as [|i]; cbn [borrow_marks borrow_sub lookup list_lookup].
  - intros [= <-]. exists x. eexists. split; [done|]. split; [done|]. by rewrite borrow_byte.
  - apply IH. destruct (x <=? b); lia.
Qed.

Lemma borrow_marks_length b xs : length (borrow_marks b xs) = length xs.
Proof. revert b. induction xs; intros b; simpl; auto. Qed.

(** A mark is on a byte below 128, on every zero, and nowhere if there is no
    zero. *)
Lemma borrow_marks_spec b xs :
  (forall i, borrow_marks b xs !! i = Some true -> exists x, xs !! i = Some x /\ x < 128) /\
  (forall i, 0 <= b -> xs !! i = Some 0 -> borrow_marks b xs !! i = Some true) /\
  (b = 0 -> Forall is_byte xs -> 0 ∉ xs -> existsb id (borrow_marks b xs) = false).
Proof.
  revert b. induction xs as [|x xs IH]; intros b; [done|]. cbn [borrow_marks].
  destruct (IH (if x <=? b then 1 else 0)) as (IH1 & IH2 & IH3). split_and!.
  - intros [|i]; [|apply IH1]. cbn. intros [= Hm]. exists x. split; [done|].
    apply andb_prop in Hm as [Hm _]. lia.
  - intros [|i] Hb.
    + cbn. intros [= ->]. f_equal. apply andb_true_intro. lia.
    + intros Hi. apply IH2; [destruct (x <=? b); lia|done].
  - intros -> [Hx Hxs]%Forall_cons Hno. apply not_elem_of_cons in Hno as [Hx0 Hno]. unfold is_byte in Hx.
    destruct (Z.leb_spec x 0); [lia|]. rewrite andb_false_r. simpl. by apply IH3.
Qed.

Lemma lxor_bytes h g :
  0 <= h < 256 -> Forall is_byte g ->
  Z.lxor (le_value g) (le_value (replicate (length g) h)) = le_value ((fun c => Z.lxor c h) <$> g) /\
  Forall is_byte ((fun c => Z.lxor c h) <$> g).
Proof.
  intros Hh Hg. induction Hg as [|c g Hc Hg [IH IHb]]; [done|]. csimpl. cbn [le_value length replicate].
  assert (Hx : is_byte (Z.lxor c h)).
  { unfold is_byte in *. split; [apply Z.lxor_nonneg; lia|].
    destruct (Z.eq_dec (Z.lxor c h) 0); [lia|].
    assert (0 <= Z.lxor c h) by (apply Z.lxor_nonneg; lia).
    apply (Z.log2_lt_pow2 (Z.lxor c h) 8); [lia|]. pose proof (Z.log2_lxor c h ltac:(lia) ltac:(lia)).
    pose proof (Z.log2_le_mono c 255). pose proof (Z.log2_le_mono h 255). change (Z.log2 255) with 7 in *. lia. }
  split; [|by constructor]. rewrite <- IH. apply Z.bits_inj'. intros i Hi. unfold is_byte in *.
  rewrite Z.lxor_spec, !split_testbit by lia. destruct (i <? 8); by rewrite Z.lxor_spec.
Qed.

Lemma lxor_ctrl c h : ctrl_t c -> 0 <= h < 128 ->
  Z.eqb (Z.lxor (u8 c) h) 0 = Z.eqb c h /\ (Z.lxor (u8 c) h < 128 -> 0 <= c).
Proof.
  intros Hc Hh. set (f c h := Bool.eqb (Z.lxor (u8 c) h =? 0) (c =? h) &&
    ((128 <=? Z.lxor (u8 c) h) || (0 <=? c))).
  assert (f c h = true) as Hf; [|unfold f in Hf; destruct (Z.eqb _ 0), (Z.eqb c h); simpl in Hf; (split; [done|lia])].
  assert (Ht : forallb (f c) (below 128) = true)
    by (apply (ctrl_table (fun c => forallb (f c) (below 128))); [vm_compute; reflexivity|done]).
  rewrite forallb_forall in Ht. apply Ht, list_elem_of_In, in_below. lia.
Qed.

Lemma p_match_shows g h : window 8 g -> 0 <= h < 128 -> exists marks,
  shows (p_Match g h) marks /\ iterable (p_Match g h) /\
  (forall i, marks !! i = Some true -> exists c, g !! i = Some c /\ 0 <= c) /\
  (forall i, g !! i = Some h -> marks !! i = Some true) /\
  (h ∉ g -> existsb id marks = false).
Proof.
  intros [Hl Hg] Hh. set (xs := (fun c => Z.lxor c h) <$> (u8 <$> g)).
  assert (Hlu : length (u8 <$> g) = 8%nat) by (by rewrite length_fmap).
  destruct (lxor_bytes h (u8 <$> g) ltac:(lia) (u8_bytes g)) as [Ex Hxs]. fold xs in Ex, Hxs.
  assert (Hlx : length xs = 8%nat) by (unfold xs; by rewrite length_fmap).
  assert (Hxi : forall i, xs !! i = (fun c => Z.lxor (u8 c) h) <$> (g !! i)).
  { intros i. unfold xs. rewrite !list_lookup_fmap. by destruct (g !! i). }
  assert (Hgi : forall i c, g !! i = Some c -> ctrl_t c) by (intros; by eapply Forall_lookup_1).
  destruct (borrow_marks_spec 0 xs) as (Hfull & Hall & Hnone).
  exists (borrow_marks 0 xs). apply and_assoc. split.
  - apply word_mask_shows; [by rewrite borrow_marks_length|].
    apply land_msbs; [by rewrite borrow_marks_length|]. intros i m Hm.
    destruct (borrow_marks_bits 0 xs i m ltac:(lia) Hxs Hm) as (x & y & Hx & Hy & ->).
    pose proof (lookup_lt_Some _ _ _ Hx) as Hlt.
    replace (u64 (0x0101010101010101 * h)) with (le_value (replicate (length (u8 <$> g)) h)).
    2: { rewrite Hlu, wrapU_id by (unfold inU; lia). cbn [replicate le_value]. lia. }
    fold (Load64 g) in Ex. rewrite Ex, Z.land_spec, notU64_bit, (le_value_bit xs) by (done || lia). rewrite Hx.
    f_equal. pose proof (borrow_sub_value 0 xs ltac:(lia) Hxs) as Eb. rewrite Hlx, Z.sub_0_r in Eb.
    change (256 ^ Z.of_nat 8) with (2 ^ 64) in Eb.
    change (le_value (replicate 8 1)) with 0x0101010101010101 in Eb. unfold wrapU. rewrite Eb.
    rewrite le_value_bit by (lia || apply borrow_sub_bytes). by rewrite Hy.
  - split_and!.
    + intros i Hi. destruct (Hfull i Hi) as (x & Hx & Hlt). rewrite Hxi in Hx.
      destruct (g !! i) as [c|] eqn:Ei; [|done]. injection Hx as <-. exists c. split; [done|].
      apply (lxor_ctrl c h); [by apply (Hgi i)|done|done].
    + intros i Hi. apply Hall; [done|]. rewrite Hxi, Hi. simpl. f_equal. apply Z.eqb_eq.
      rewrite (proj1 (lxor_ctrl h h (Hgi i h Hi) Hh)). apply Z.eqb_refl.
    + intros Hno. apply Hnone; [done..|]. intros [i Hi]%list_elem_of_lookup. rewrite Hxi in Hi.
      destruct (g !! i) as [c|] eqn:Ei; [|done]. injection Hi as Hz. apply Hno.
      apply Z.eqb_eq in Hz. rewrite (proj1 (lxor_ctrl c h (Hgi i c Ei) Hh)) in Hz.
      apply Z.eqb_eq in Hz. subst c. by eapply list_elem_of_lookup_2.
Qed.

(** *** Tombstones to empty, full to tombstones *)

(** The marks of the special bytes, as the mask [ctrl & kMsbs8Bytes]. *)
Lemma special_word g k :
  window 8 g -> 0 <= k < 8 -> 
  Z.land (Z.shiftr (Load64 g) (7 - k)) (digits 256 (2 ^ k) (replicate 8 true)) =
    digits 256 (2 ^ k) ((fun c => negb (IsFull c)) <$> g).
Proof.
  intros [Hl Hg] Hk. apply land_digits; [done|by rewrite length_fmap|]. intros i b. rewrite list_lookup_fmap.
  destruct (g !! i) as [c|] eqn:Ei; simpl; [|done]. intros [= <-].
  assert (Hc : ctrl_t c) by (by eapply Forall_lookup_1). rewrite Z.shiftr_spec by lia.
  replace (8 * Z.of_nat i + k + (7 - k)) with (8 * Z.of_nat i + 7) by lia.
  rewrite (Load64_bit g i _ c) by (done || lia). by_ctrl c.
Qed.

Definition converted (marks : list bool) : list Z :=
  (fun b : bool => if b then kEmpty else kDeleted) <$> marks.

Lemma converted_special g :
  converted ((fun c => negb (IsFull c)) <$> g) = (fun c => if IsFull c then kDeleted else kEmpty) <$> g.
Proof. unfold converted. rewrite <- list_fmap_compose. apply list_fmap_ext. intros _ c _. simpl. by destruct (IsFull c). Qed.

Lemma p_convert_bytes g : window 8 g ->
  p_ConvertSpecialToEmptyAndFullToDeleted g = (fun c => if IsFull c then kDeleted else kEmpty) <$> g.
Proof.
  intros Hw. unfold p_ConvertSpecialToEmptyAndFullToDeleted.
  pose proof (special_word g 7 Hw ltac:(lia)) as E. cbn in E. rewrite Z.shiftr_0_r in E.
  rewrite <- converted_special. set (marks := (fun c => negb (IsFull c)) <$> g) in *.
  assert (Hm : length marks = 8%nat) by (unfold marks; rewrite length_fmap; apply Hw).
  change (Z.land (Load64 g) kMsbs8Bytes = digits 256 128 marks) in E. rewrite E.
  apply (marks_eq_table (fun l => Store64 (Z.land (u64 (notU 64 (digits 256 128 l) +
    Z.shiftr (digits 256 128 l) 7)) (notU 64 0x0101010101010101))) converted 8); [vm_compute; reflexivity|done].
Qed.

#[export] Instance portable_laws : GroupLaws GroupPortableImpl 8.
Proof.
  split.
  - done.
  - by left.
  - exact p_match_shows.
  - exact p_empty_shows.
  - intros g Hg. apply (p_full_shows g Hg).
  - intros g Hg. apply (p_full_shows g Hg).
  - exact p_non_full_shows.
  - exact p_empty_or_deleted_shows.
  - exact p_leading_count.
  - exact p_convert_bytes.
Qed.

(** ** The lanes of SSE2 *)

Lemma ctrl_inS c : ctrl_t c -> inS 8 c.
Proof. unfold ctrl_t, inS, kEmpty, kDeleted, kSentinel. lia. Qed.

Section sse2_laws.
Context `{I : Sse2} `{!Sse2Laws I}.
Implicit Types v : M128i.

Lemma replicate_lanes {A B C} (f : A -> B -> C) a g :
  length g = 16%nat -> zip_with f (replicate 16 a) g = f a <$> g.
Proof. intros Hg. apply zip_with_replicate_l. lia. Qed.

Lemma mask16_shows marks v :
  length marks = 16%nat -> ((fun x => x <? 0) <$> lanes v) = marks ->
  shows (mask16 (mm_movemask_epi8 v)) marks /\ iterable (mask16 (mm_movemask_epi8 v)).
Proof.
  intros Hl Hv. rewrite movemask_lanes, Hv. split; [|intros Hc; cbn in Hc; lia].
  pose proof (digits_range 2 1 marks ltac:(lia)) as Hr. rewrite Hl in Hr.
  exists 1. unfold mask16, base. cbn [mask_ bm_T bm_Shift bm_SignificantBits Z.eqb].
  rewrite wrapU_id by exact Hr. rewrite Hl. split_and!; [done|done|left; auto].
Qed.

(** A comparison of one byte with every lane. *)
Lemma cmpeq_set c g :
  inS 8 c -> window 16 g ->
  lanes (mm_cmpeq_epi8 (mm_set1_epi8 c) (mm_loadu_si128 g)) = (fun y => all_ones (c =? y)) <$> g.
Proof.
  intros Hc [Hl _]. rewrite cmpeq_lanes, set1_lanes, loadu_lanes, wrapS_id by (done || lia).
  by apply replicate_lanes.
Qed.

Lemma sat_sub x y : inS 8 x -> inS 8 y ->
  (Z.land (Z.max (-128) (Z.min 127 (x - y))) (-128) =? -128) = (x <? y).
Proof.
  unfold inS. change (2 ^ (8 - 1)) with 128. intros Hx Hy.
  set (d := Z.max (-128) (Z.min 127 (x - y))).
  pose proof (bytes_table (fun a => Bool.eqb (Z.land (a - 128) (-128) =? -128) (a - 128 <? 0))) as Ht.
  specialize (Ht ltac:(vm_compute; reflexivity) (d + 128) ltac:(lia)). cbn beta in Ht.
  apply Bool.eqb_prop in Ht. rewrite Z.add_simpl_r in Ht. rewrite Ht. subst d.
  destruct (Z.ltb_spec x y); apply Z.ltb_lt || apply Z.ltb_ge; lia.
Qed.

Lemma cmpgt_fixed_lanes v c g :
  lanes v = replicate 16 c -> inS 8 c -> window 16 g ->
  lanes (mm_cmpgt_epi8_fixed v (mm_loadu_si128 g)) = (fun y => all_ones (y <? c)) <$> g.
Proof.
  intros Hv Hc [Hl Hg]. unfold mm_cmpgt_epi8_fixed. destruct unsigned_char eqn:Eu.
  - rewrite cmpeq_lanes, and_lanes, subs_lanes, set1_lanes, loadu_lanes, Hv by done.
    rewrite (zip_with_replicate_r_eq _ 16 c g), (zip_with_replicate_r_eq Z.land), zip_with_replicate_r_eq
      by (by rewrite ?length_fmap).
    rewrite <- !list_fmap_compose. apply list_fmap_ext. intros i y Hi. simpl.
    change (wrapS 8 128) with (-128). f_equal. apply sat_sub; [|done]. apply ctrl_inS. by eapply Forall_lookup_1.
  - rewrite cmpgt_lanes, Hv, loadu_lanes by done. by apply replicate_lanes.
Qed.

Lemma all_ones_neg (f : Z -> bool) (g : list Z) : ((fun x => x <? 0) <$> ((fun y => all_ones (f y)) <$> g)) = f <$> g.
Proof. rewrite <- list_fmap_compose. apply list_fmap_ext. intros _ c _. simpl. by destruct (f c). Qed.

Lemma set_sentinel : lanes (mm_set1_epi8 kSentinel) = replicate 16 kSentinel.
Proof. by rewrite set1_lanes. Qed.

Lemma existsb_false {A} (f : A -> bool) l : (forall x, x ∈ l -> f x = false) -> existsb id (f <$> l) = false.
Proof.
  induction l as [|x l IH]; intros Hl; [done|]. csimpl.
  rewrite (Hl x), IH; [done| |by left]. intros y Hy. apply Hl. by right.
Qed.

Lemma s_match_shows g h : window 16 g -> 0 <= h < 128 -> exists marks,
  shows (s_Match g h) marks /\ iterable (s_Match g h) /\
  (forall i, marks !! i = Some true -> exists c, g !! i = Some c /\ 0 <= c) /\
  (forall i, g !! i = Some h -> marks !! i = Some true) /\
  (h ∉ g -> existsb id marks = false).
Proof.
  intros Hw Hh. exists ((fun c => h =? c) <$> g). apply and_assoc.
  assert (Hc : inS 8 h) by (unfold inS; change (2 ^ (8 - 1)) with 128; lia). split.
  - unfold s_Match. rewrite (wrapS_id 8 h) by (done || lia).
    apply mask16_shows; [by rewrite length_fmap; apply Hw|]. by rewrite cmpeq_set, all_ones_neg.
  - split_and!.
    + intros i. rewrite list_lookup_fmap. destruct (g !! i) as [c|]; [|done]. simpl. intros [= E].
      exists c. split; [done|lia].
    + intros i Hi. rewrite list_lookup_fmap, Hi. simpl. by rewrite Z.eqb_refl.
    + intros Hno. apply existsb_false. intros c Hin. apply Z.eqb_neq. intros ->. done.
Qed.

Lemma s_empty_shows g : window 16 g -> shows (s_MaskEmpty g) (IsEmpty <$> g).
Proof.
  intros Hw. unfold s_MaskEmpty. destruct have_ssse3.
  - apply mask16_shows; [by rewrite length_fmap; apply Hw|]. destruct Hw as [Hl Hg].
    rewrite sign_lanes, loadu_lanes by done. clear Hl. induction Hg as [|c g Hc Hg IH]; [done|]. csimpl.
    f_equal; [|exact IH]. clear -Hc. by_ctrl c.
  - apply mask16_shows; [by rewrite length_fmap; apply Hw|].
    rewrite cmpeq_set, all_ones_neg by (done || apply ctrl_inS; by left).
    apply list_fmap_ext. intros _ c _. apply Z.eqb_sym.
Qed.

Lemma s_non_full_shows g :
  window 16 g -> shows (s_MaskNonFull g) ((fun c => negb (IsFull c)) <$> g).
Proof.
  intros Hw. apply mask16_shows; [by rewrite length_fmap; apply Hw|].
  rewrite loadu_lanes by apply Hw. apply list_fmap_ext. intros _ c _. unfold IsFull. lia.
Qed.

Lemma s_empty_or_deleted_shows g :
  window 16 g -> shows (s_MaskEmptyOrDeleted g) (IsEmptyOrDeleted <$> g).
Proof.
  intros Hw. apply mask16_shows; [by rewrite length_fmap; apply Hw|].
  by rewrite (cmpgt_fixed_lanes _ kSentinel), all_ones_neg
    by (done || apply set_sentinel || (apply ctrl_inS; right; right; by left)).
Qed.

Lemma s_full_shows g :
  window 16 g -> shows (s_MaskFull g) (IsFull <$> g) /\ iterable (s_MaskFull g).
Proof.
  intros [Hl Hg]. split; [|intros Hc; cbn in Hc; lia].
  set (marks := (fun x => x <? 0) <$> g). set (full := IsFull <$> g).
  assert (E : Z.lxor (mm_movemask_epi8 (mm_loadu_si128 g)) 0xffff = digits 2 1 full).
  { rewrite movemask_lanes, loadu_lanes by done. fold marks.
    assert (Hf : full = negb <$> marks).
    { unfold full, marks. rewrite <- list_fmap_compose. apply list_fmap_ext. intros _ c _. unfold IsFull. simpl. lia. }
    rewrite Hf. change 0xffff with (Z.ones (Z.of_nat 16)). rewrite <- Hl.
    replace (length g) with (length marks) by (unfold marks; apply length_fmap). generalize marks. clear.
    intros l. induction l as [|b l IH]; [done|]. csimpl. cbn [digits length].
    rewrite <- IH, !Z.ones_equiv, Nat2Z.inj_succ, Z.pow_succ_r by lia. rewrite <- !Z.sub_1_r.
    apply Z.bits_inj'. intros i Hi. rewrite Z.lxor_spec. 
    replace (2 * 2 ^ Z.of_nat (length l) - 1) with (1 + 2 * (2 ^ Z.of_nat (length l) - 1)) by lia.
    assert (Hbit : forall c : bool, forall x, Z.testbit ((if c then 1 else 0) + 2 * x) i =
      if i =? 0 then c else Z.testbit x (i - 1)).
    { intros c x. rewrite Z.add_comm. destruct (Z.eqb_spec i 0) as [->|Hne].
      - destruct c; [apply Z.testbit_odd_0|rewrite Z.add_0_r; apply Z.testbit_even_0].
      - replace i with (Z.succ (i - 1)) at 1 by lia.
        destruct c; [apply Z.testbit_odd_succ; lia|rewrite Z.add_0_r; apply Z.testbit_even_succ; lia]. }
    rewrite Hbit, (Hbit (negb b)), (Hbit true). destruct (i =? 0); [by rewrite xorb_true_r|].
    by rewrite Z.lxor_spec. }
  unfold s_MaskFull. rewrite E. pose proof (digits_range 2 1 full ltac:(lia)) as Hr.
  assert (Hlf : length full = 16%nat) by (unfold full; by rewrite length_fmap). rewrite Hlf in Hr.
  exists 1. unfold mask16, base. cbn [mask_ bm_T bm_Shift bm_SignificantBits Z.eqb].
  rewrite wrapU_id by exact Hr. rewrite Hlf. split_and!; [done|done|left; auto].
Qed.

Lemma digits_carry n l : digits 2 1 (replicate n true ++ l) + 1 = 2 ^ Z.of_nat n * (digits 2 1 l + 1).
Proof.
  induction n as [|n IH]; [change (2 ^ Z.of_nat 0) with 1; simpl; lia|].
  cbn [replicate app digits]. rewrite Nat2Z.inj_succ, Z.pow_succ_r by lia. lia.
Qed.

Lemma leading_split g : exists r,
  (IsEmptyOrDeleted <$> g) = replicate (Z.to_nat (leading g)) true ++ r /\ (r = [] \/ exists r', r = false :: r').
Proof.
  induction g as [|c g (r & E & Hr)]; [exists []; auto|]. cbn [leading]. csimpl.
  pose proof (leading_range g). destruct (IsEmptyOrDeleted c).
  - exists r. rewrite Z2Nat.inj_add by lia. simpl. split; [by rewrite E|done].
  - eexists. split; [done|]. right. eauto.
Qed.

Lemma s_leading_count g : window 16 g -> s_CountLeadingEmptyOrDeleted g = Ret (leading g).
Proof.
  intros Hw. pose proof (leading_range g) as Hn. rewrite (proj1 Hw) in Hn.
  unfold s_CountLeadingEmptyOrDeleted. rewrite movemask_lanes.
  rewrite (cmpgt_fixed_lanes _ kSentinel), all_ones_neg
    by (done || apply set_sentinel || (apply ctrl_inS; right; right; by left)).
  change ((fun y => y <? kSentinel) <$> g) with (IsEmptyOrDeleted <$> g).
  destruct (leading_split g) as (r & E & Hr).
  pose proof (digits_range 2 1 (IsEmptyOrDeleted <$> g) ltac:(lia)) as Hd.
  rewrite length_fmap, (proj1 Hw) in Hd.
  rewrite wrapU_id by (unfold inU; lia). set (x := digits 2 1 (IsEmptyOrDeleted <$> g) + 1) in *.
  assert (Ht : trailing x (leading g)).
  { split; [lia|]. unfold x. rewrite E, digits_carry, Z2Nat.id by lia.
    destruct Hr as [-> | [r' ->]]; [exists 0|exists (digits 2 1 r')]; cbn [digits]; f_equal; lia. }
  unfold TrailingZeros. destruct (Z.eqb_spec x 0); [lia|].
  rewrite (countr_zero_is 32 x (leading g)); [|right; right; by left|unfold inU; lia|lia|done].
  rewrite wrapU_id; [done|]. unfold inU. lia.
Qed.

Lemma s_convert_bytes g : window 16 g ->
  s_ConvertSpecialToEmptyAndFullToDeleted g = (fun c => if IsFull c then kDeleted else kEmpty) <$> g.
Proof.
  intros Hw. unfold s_ConvertSpecialToEmptyAndFullToDeleted. destruct have_ssse3.
  - rewrite or_lanes, shuffle_lanes, !set1_lanes, loadu_lanes by apply Hw.
    rewrite zip_with_replicate_r_eq by (rewrite length_fmap; apply Hw).
    rewrite <- list_fmap_compose. apply list_fmap_ext. intros _ y _. unfold IsFull, flip, compose. cbn beta.
    destruct (Z.ltb_spec y 0), (Z.leb_spec 0 y); try lia; [reflexivity|].
    rewrite (lookup_total_replicate_2 16); [reflexivity|].
    pose proof (Z.land_ones y 4 ltac:(lia)) as E. change (Z.ones 4) with 15 in E. rewrite E.
    pose proof (Z.mod_pos_bound y (2 ^ 4) ltac:(lia)). lia.
  - rewrite or_lanes, andnot_lanes, !set1_lanes.
    rewrite (cmpgt_fixed_lanes _ 0) by (done || apply setzero_lanes || (apply ctrl_inS; right; right; right; lia)).
    rewrite zip_with_replicate_r_eq by (rewrite length_fmap; apply Hw).
    rewrite replicate_lanes by (rewrite !length_fmap; apply Hw).
    rewrite <- !list_fmap_compose. apply list_fmap_ext. intros _ y _. unfold IsFull, flip, compose. cbn beta.
    destruct (Z.ltb_spec y 0), (Z.leb_spec 0 y); try lia; reflexivity.
Qed.

#[export] Instance sse2_group_laws : GroupLaws GroupSse2Impl 16.
Proof.
  split.
  - done.
  - by right.
  - exact s_match_shows.
  - exact s_empty_shows.
  - intros g Hg. apply (s_full_shows g Hg).
  - intros g Hg. apply (s_full_shows g Hg).
  - exact s_non_full_shows.
  - exact s_empty_or_deleted_shows.
  - exact s_leading_count.
  - exact s_convert_bytes.
Qed.
End sse2_laws.

(** ** The lanes of NEON *)

Lemma u8_ctrl c : ctrl_t c -> wrapS 8 (u8 c) = c.
Proof. intros Hc. rewrite wrapS_wrapU by lia. apply wrapS_id; [lia|]. by apply ctrl_inS. Qed.

Section neon_laws.
Context `{I : Neon} `{!NeonLaws I}.
Implicit Types v : U8x8.

Lemma n_load_bytes g : length g = 8%nat -> vbytes (n_load g) = u8 <$> g.
Proof. intros Hg. apply vld1_bytes. by rewrite length_fmap. Qed.

(** A comparison that answers [f] on every control byte. *)
Lemma lanes_digits v g (f : Z -> bool) :
  vbytes v = (fun c => lane_mask (f c)) <$> g -> vget_lane_u64 v = digits 256 0xff (f <$> g).
Proof.
  intros Hv. rewrite vget_lane_bytes, Hv, digits_le. f_equal. rewrite <- list_fmap_compose.
  apply list_fmap_ext. intros _ c _. done.
Qed.

Lemma mask64_shows b v g (f : Z -> bool) :
  window 8 g -> vbytes v = (fun c => lane_mask (f c)) <$> g -> shows (mask64 b v) (f <$> g).
Proof.
  intros Hw Hv. exists 0xff. unfold mask64, base. cbn [mask_ bm_T bm_Shift bm_SignificantBits Z.eqb].
  rewrite (lanes_digits v g f Hv), length_fmap, (proj1 Hw). split_and!; [done|done|right; auto].
Qed.

Lemma mask64_iterable v : iterable (mask64 true v).
Proof. intros _ Hc. discriminate Hc. Qed.

(** The lanes as [int8_t], on either side of a comparison with [x]. *)
Lemma signed_left (r : Z -> Z -> bool) x g :
  window 8 g -> inS 8 x ->
  zip_with (signed r) (replicate 8 (u8 x)) (u8 <$> g) = (fun c => lane_mask (r x c)) <$> g.
Proof.
  intros [Hl Hg] Hx. rewrite zip_with_replicate_l by (rewrite length_fmap; lia).
  rewrite <- list_fmap_compose. apply list_fmap_ext. intros i c Hi. unfold signed, compose.
  rewrite (u8_ctrl c) by (by eapply Forall_lookup_1). by rewrite wrapS_wrapU, wrapS_id by (done || lia).
Qed.

Lemma signed_right (r : Z -> Z -> bool) x g :
  window 8 g -> inS 8 x ->
  zip_with (signed r) (u8 <$> g) (replicate 8 (u8 x)) = (fun c => lane_mask (r c x)) <$> g.
Proof.
  intros [Hl Hg] Hx. rewrite zip_with_replicate_r by (rewrite length_fmap; lia).
  rewrite <- list_fmap_compose. apply list_fmap_ext. intros i c Hi. unfold signed, flip, compose.
  rewrite (u8_ctrl c) by (by eapply Forall_lookup_1). by rewrite wrapS_wrapU, wrapS_id by (done || lia).
Qed.

Lemma n_match_shows g h : window 8 g -> 0 <= h < 128 -> exists marks,
  shows (n_Match g h) marks /\ iterable (n_Match g h) /\
  (forall i, marks !! i = Some true -> exists c, g !! i = Some c /\ 0 <= c) /\
  (forall i, g !! i = Some h -> marks !! i = Some true) /\
  (h ∉ g -> existsb id marks = false).
Proof.
  intros Hw Hh. destruct (Hw) as [Hl Hg]. exists ((fun c => u8 c =? h) <$> g).
  assert (Hq : forall c, c ∈ g -> (u8 c =? h) = (c =? h)).
  { intros c Hc. apply Forall_forall with (x := c) in Hg; [|done]. destruct (Z.eqb_spec c h) as [->|Hne].
    - apply Z.eqb_eq, wrapU_id. unfold inU. lia.
    - apply Z.eqb_neq. intros E. apply Hne. rewrite <- (u8_ctrl c Hg), E. apply wrapS_id; [lia|].
      unfold inS. lia. }
  split_and!.
  - apply mask64_shows; [done|]. rewrite vceq_u8_bytes, vdup_bytes, n_load_bytes by done.
    rewrite zip_with_replicate_r by (rewrite length_fmap; lia). rewrite <- list_fmap_compose.
    apply list_fmap_ext. intros _ c _. unfold flip, compose. rewrite (wrapU_id 8 h); [done|]. unfold inU. lia.
  - apply mask64_iterable.
  - intros i. rewrite list_lookup_fmap. destruct (g !! i) as [c|] eqn:Ei; [|done]. simpl. intros [= E].
    rewrite Hq in E by (by eapply list_elem_of_lookup_2). exists c. split; [done|lia].
  - intros i Hi. rewrite list_lookup_fmap, Hi. simpl. rewrite Hq by (by eapply list_elem_of_lookup_2).
    by rewrite Z.eqb_refl.
  - intros Hno. apply existsb_false. intros c Hin. rewrite Hq by done. apply Z.eqb_neq. by intros ->.
Qed.

Lemma n_empty_shows g : window 8 g -> shows (n_MaskEmpty g) (IsEmpty <$> g).
Proof.
  intros Hw. apply mask64_shows; [done|]. rewrite vceq_s8_bytes, vdup_s8_bytes, n_load_bytes by apply Hw.
  rewrite signed_left by (done || (apply ctrl_inS; by left)).
  apply list_fmap_ext. intros _ c _. f_equal. apply Z.eqb_sym.
Qed.

Lemma n_full_shows g : window 8 g -> shows (n_MaskFull g) (IsFull <$> g).
Proof.
  intros Hw. apply mask64_shows; [done|]. rewrite vcge_bytes, vdup_s8_bytes, n_load_bytes by apply Hw.
  rewrite signed_right by (done || (apply ctrl_inS; right; right; right; lia)).
  apply list_fmap_ext. intros _ c _. f_equal. apply Z.geb_leb.
Qed.

Lemma n_non_full_shows g :
  window 8 g -> shows (n_MaskNonFull g) ((fun c => negb (IsFull c)) <$> g).
Proof.
  intros Hw. apply mask64_shows; [done|]. rewrite vclt_bytes, vdup_s8_bytes, n_load_bytes by apply Hw.
  rewrite signed_right by (done || (apply ctrl_inS; right; right; right; lia)).
  apply list_fmap_ext. intros _ c _. f_equal. apply Z.ltb_antisym.
Qed.

Lemma n_empty_or_deleted_shows g :
  window 8 g -> shows (n_MaskEmptyOrDeleted g) (IsEmptyOrDeleted <$> g).
Proof.
  intros Hw. apply mask64_shows; [done|]. rewrite vcgt_bytes, vdup_s8_bytes, n_load_bytes by apply Hw.
  rewrite signed_left by (done || (apply ctrl_inS; right; right; by left)).
  apply list_fmap_ext. intros _ c _. f_equal. apply Z.gtb_ltb.
Qed.

Lemma n_leading_count g : window 8 g -> n_CountLeadingEmptyOrDeleted g = Ret (leading g).
Proof.
  intros Hw. unfold n_CountLeadingEmptyOrDeleted. f_equal.
  rewrite (lanes_digits _ g (fun c => negb (IsEmptyOrDeleted c))).
  - destruct (leading_ctz g (digits 256 0xff ((fun c => negb (IsEmptyOrDeleted c)) <$> g)) 0xff 0 127)
      as [E HU]; [apply Hw|lia|done|lia|done|]. by rewrite wrapU_id.
  - rewrite vcle_bytes, vdup_s8_bytes, n_load_bytes by apply Hw.
    rewrite signed_left by (done || (apply ctrl_inS; right; right; by left)).
    apply list_fmap_ext. intros _ c _. f_equal. unfold IsEmptyOrDeleted. rewrite Z.ltb_antisym.
    by rewrite negb_involutive.
Qed.

Lemma n_convert_bytes g : window 8 g ->
  n_ConvertSpecialToEmptyAndFullToDeleted g = (fun c => if IsFull c then kDeleted else kEmpty) <$> g.
Proof.
  intros Hw. unfold n_ConvertSpecialToEmptyAndFullToDeleted.
  rewrite vget_lane_bytes, n_load_bytes by apply Hw. fold (Load64 g). rewrite Z.land_comm.
  pose proof (special_word g 1 Hw ltac:(lia)) as E. change (7 - 1) with 6 in E.
  change (2 ^ 1) with 2 in E. change (digits 256 2 (replicate 8 true)) with 0x0202020202020202 in E.
  rewrite E, <- converted_special.
  apply (marks_eq_table (fun l => Store64 (Z.lor (u64 (digits 256 2 l + 0x7e7e7e7e7e7e7e7e)) kMsbs8Bytes))
    converted 8); [vm_compute; reflexivity|]. rewrite length_fmap. apply Hw.
Qed.

#[export] Instance aarch64_group_laws : GroupLaws GroupAArch64Impl 8.
Proof.
  split.
  - done.
  - by left.
  - exact n_match_shows.
  - exact n_empty_shows.
  - exact n_full_shows.
  - intros g _. apply mask64_iterable.
  - exact n_non_full_shows.
  - exact n_empty_or_deleted_shows.
  - exact n_leading_count.
  - exact n_convert_bytes.
Qed.
End neon_laws.

(** ** Vectors as lists of lanes *)

(** The intrinsics computed lane by lane, for the builds with and without
    SSSE3 and [-funsigned-char]. *)
Definition lane_sse2 (ssse3 uchar : bool) : Sse2 := {|
  M128i := list Z;
  lanes v := v;
  have_ssse3 := ssse3;
  unsigned_char := uchar;
  mm_loadu_si128 p := p;
  mm_setzero_si128 := replicate 16 0;
  mm_set1_epi8 c := replicate 16 (wrapS 8 c);
  mm_subs_epi8 := zip_with (fun x y => Z.max (-128) (Z.min 127 (x - y)));
  mm_and_si128 := zip_with Z.land;
  mm_or_si128 := zip_with Z.lor;
  mm_andnot_si128 := zip_with (fun x y => Z.land (Z.lnot x) y);
  mm_cmpeq_epi8 := zip_with (fun x y => all_ones (x =? y));
  mm_cmpgt_epi8 a b := if uchar then [] else zip_with (fun x y => all_ones (y <? x)) a b;
  mm_sign_epi8 := zip_with (fun x y => if y <? 0 then wrapS 8 (- x) else if y =? 0 then 0 else x);
  mm_shuffle_epi8 a b := (fun y => if y <? 0 then 0 else a !!! Z.to_nat (Z.land y 15)) <$> b;
  mm_movemask_epi8 a := digits 2 1 ((fun x => x <? 0) <$> a);
|}.

#[export] Instance lane_sse2_laws ssse3 uchar : Sse2Laws (lane_sse2 ssse3 uchar).
Proof. split; try done. cbn. by intros a b ->. Qed.

Definition lane_neon : Neon := {|
  U8x8 := list Z;
  vbytes v := v;
  vld1_u8 p := p;
  vdup_n_u8 c := replicate 8 (u8 c);
  vdup_n_s8 c := replicate 8 (u8 c);
  vceq_u8 := zip_with (fun x y => lane_mask (x =? y));
  vceq_s8 := zip_with (signed Z.eqb);
  vcge_s8 := zip_with (signed Z.geb);
  vclt_s8 := zip_with (signed Z.ltb);
  vcgt_s8 := zip_with (signed Z.gtb);
  vcle_s8 := zip_with (signed Z.leb);
  vget_lane_u64 := le_value;
|}.

#[export] Instance lane_neon_laws : NeonLaws lane_neon.
Proof. by split. Qed.

(** ** The word against the control bytes *)

(** The positions of a group whose byte passes a test, in order. *)
Definition positions (f : Z -> bool) (g : list Z) : list Z := set_positions 0 (f <$> g).

Lemma positions_elem f g i :
  i ∈ positions f g <-> exists c, 0 <= i /\ g !! Z.to_nat i = Some c /\ f c = true.
Proof.
  unfold positions. rewrite set_positions_elem, Z.sub_0_r, list_lookup_fmap.
  destruct (g !! Z.to_nat i) as [c|]; simpl; split.
  - intros [Hi [= Hc]]. by exists c.
  - intros (c' & Hi & [= <-] & Hc). by rewrite Hc.
  - by intros [_ ?].
  - by intros (c' & _ & ? & _).
Qed.

Lemma shows_test m f g :
  shows m (f <$> g) -> bm_bool m = existsb f g /\
    (bm_bool m = true -> exists i l, positions f g = i :: l /\ LowestBitSet m = Ret i).
Proof.
  intros Hm. split.
  - rewrite (shows_bool _ _ Hm). clear. induction g as [|c g IH]; [done|]. csimpl. by rewrite IH.
  - rewrite (shows_bool _ _ Hm). unfold positions. destruct (first_mark (f <$> g)) as [E|(n & r & E)].
    + rewrite E. clear. intros Hx. exfalso. revert Hx. induction (length (f <$> g)); [done|done].
    + intros _. rewrite E in Hm |- *. rewrite set_positions_app. cbn [set_positions app].
      eexists _, _. split; [done|]. rewrite (shows_lowest _ _ _ Hm). f_equal.
Qed.

Lemma match_list `{!GroupLaws G n} g h :
  window n g -> 0 <= h < 128 -> exists l, bm_list (Match G g h) = Ret l /\
    (forall i, i ∈ l -> exists c, 0 <= i /\ g !! Z.to_nat i = Some c /\ 0 <= c) /\
    (forall i, g !! i = Some h -> Z.of_nat i ∈ l) /\ (h ∉ g -> l = []).
Proof.
  intros Hw Hh. destruct (match_shows (G := G) g h Hw Hh) as (marks & Hm & Hit & Hf & Ha & Hn).
  exists (set_positions 0 marks). split; [by apply bm_list_spec|]. split_and!.
  - intros i [Hi Hb]%set_positions_elem. rewrite Z.sub_0_r in Hb. destruct (Hf _ Hb) as (c & Hc & Hc0). eauto.
  - intros i Hi. apply set_positions_elem. split; [lia|]. rewrite Z.sub_0_r, Nat2Z.id. by apply Ha.
  - intros Hno. specialize (Hn Hno). clear -Hn. generalize 0. revert Hn.
    induction marks as [|[] marks IH]; intros Hn k; [done|done|]. simpl in *. by apply IH.
Qed.

(** C39: The 64-bit word answers for its eight control bytes what a loop over
    the bytes would.  [MaskFull] lists exactly the full positions;
    [MaskEmpty], [MaskNonFull] and [MaskEmptyOrDeleted] hold exactly when
    some byte is of that kind and then give the first such position;
    [CountLeadingEmptyOrDeleted] counts the empty and deleted bytes before
    the first other one; the conversion turns full bytes into tombstones and
    special ones into empty ones.  [Match] lists every position that holds
    the hash; the false matches of its subtraction fall on full bytes only,
    and only in a group that has a true match. *)
Theorem word_group_exact g h :
  window 8 g -> 0 <= h < 128 ->
  bm_list (p_MaskFull g) = Ret (positions IsFull g) /\
  (forall m f, (m, f) ∈ [(p_MaskEmpty g, IsEmpty); (p_MaskEmptyOrDeleted g, IsEmptyOrDeleted);
      (p_MaskNonFull g, fun c => negb (IsFull c))] ->
    bm_bool m = existsb f g /\
    (bm_bool m = true -> exists i l, positions f g = i :: l /\ LowestBitSet m = Ret i)) /\
  p_CountLeadingEmptyOrDeleted g = Ret (leading g) /\
  p_ConvertSpecialToEmptyAndFullToDeleted g = (fun c => if IsFull c then kDeleted else kEmpty) <$> g /\
  (exists l, bm_list (p_Match g h) = Ret l /\
    (forall i, i ∈ l -> exists c, 0 <= i /\ g !! Z.to_nat i = Some c /\ 0 <= c) /\
    (forall i, g !! i = Some h -> Z.of_nat i ∈ l) /\ (h ∉ g -> l = [])).
Proof.
  intros Hw Hh. split_and!.
  - apply bm_list_spec; apply (p_full_shows g Hw).
  - intros m f Hin. rewrite !elem_of_cons in Hin. destruct Hin as [E|[E|[E|E%not_elem_of_nil]]]; [..|done];
      injection E as -> ->; apply shows_test;
      auto using p_empty_shows, p_empty_or_deleted_shows, p_non_full_shows.
  - by apply p_leading_count.
  - by apply p_convert_bytes.
  - exact (match_list (G := GroupPortableImpl) g h Hw Hh).
Qed.

(** A false match: the byte 0x13 after 0x12. *)
Lemma word_group_exact_witness :
  bm_list (p_Match [0x10; 0x12; 0x13; -1; -128; -2; 0x12; 0] 0x12) = Ret [1; 2; 6] /\
  bm_list (p_MaskFull [0x10; 0x12; 0x13; -1; -128; -2; 0x12; 0]) =
    Ret (positions IsFull [0x10; 0x12; 0x13; -1; -128; -2; 0x12; 0]).
Proof.
  split; [vm_compute; reflexivity|]. refine (proj1 (word_group_exact _ 0x12 _ _)); [|lia].
  refine (bool_decide_eq_true_1 _ _). vm_compute. reflexivity.
Defined.
