(* ===== verification/SwissProbe.v ===== *)
(** * Capacities, probing and control arrays ([raw_hash_set.h])

    The arithmetic of a hash table of absl: capacities of the form
    [2 ^ m - 1] and the load factor, the word that counts the free slots, the
    offsets of the backing array, the probe sequence, and the array of
    control bytes with its sentinel and its cloned tail.  The probe sequence
    is proved to reach every slot, [SetCtrl] to keep the clones. *)

From S2P Require Import Prelude Bits SwissGroup.
Local Open Scope Z_scope.
Local Open Scope list_scope.

(** ** Capacity and load factor *)

Definition IsValidCapacity (n : Z) : bool := (Z.land (u64 (n + 1)) n =? 0) && (0 <? n).
Definition NumClonedBytes (W : Z) : Z := W - 1.
Definition NumControlBytes (W capacity : Z) : Z := u64 (capacity + 1 + NumClonedBytes W).
Definition NextCapacity (n : Z) : Z := u64 (n * 2 + 1).

(** [n ? ~size_t{} >> countl_zero(n) : 1]. *)
Definition NormalizeCapacity (n : Z) : Z :=
  if n =? 0 then 1 else Z.shiftr (notU 64 0) (countl_zero 64 n).

Definition CapacityToGrowth (W capacity : Z) : Z :=
  if (W =? 8) && (capacity =? 7) then 6 else u64 (capacity - capacity / 8).

Definition GrowthToLowerboundCapacity (W growth : Z) : Z :=
  if (W =? 8) && (growth =? 7) then 8
  else u64 (growth + u64 (Z.quot (i64 growth - 1) 7)).

Definition is_small (W capacity : Z) : bool := capacity <? W - 1.
Definition is_single_group (W capacity : Z) : bool := capacity <=? W.

Definition IsGrowingIntoSingleGroupApplicable (W old_capacity new_capacity : Z) : bool :=
  is_single_group W new_capacity && (old_capacity <? new_capacity).

(** ** The backing array *)

(** [sizeof_infoz] is the size of the sampling handle, [gen_bytes] that of
    the generation, 0 unless a sanitizer asks for it. *)
Definition ControlOffset (sizeof_infoz : Z) (has_infoz : bool) : Z :=
  (if has_infoz then sizeof_infoz else 0) + 8.

Record RawHashSetLayout := mkLayout {
  rl_capacity : Z;
  rl_control_offset : Z;
  rl_generation_offset : Z;
  rl_slot_offset : Z;
}.

Definition RawHashSetLayout_new (W sizeof_infoz gen_bytes capacity slot_align : Z) (has_infoz : bool) :
    RawHashSetLayout :=
  let control := ControlOffset sizeof_infoz has_infoz in
  let generation := u64 (control + NumControlBytes W capacity) in
  mkLayout capacity control generation
    (Z.land (u64 (generation + gen_bytes + slot_align - 1)) (u64 (notU 64 slot_align + 1))).

Definition rl_alloc_size (l : RawHashSetLayout) (slot_size : Z) : Z :=
  u64 (rl_slot_offset l + u64 (rl_capacity l * slot_size)).

(** ** [GrowthInfo]: the growth that is left and a bit for tombstones *)

Definition kGrowthLeftMask : Z := Z.shiftr (notU 64 0) 1.
Definition kDeletedBit : Z := notU 64 kGrowthLeftMask.

Definition InitGrowthLeftNoDeleted (growth_left : Z) : Z := growth_left.
Definition OverwriteFullAsEmpty (g : Z) : Z := u64 (g + 1).
Definition OverwriteEmptyAsFull (g : Z) : Z := u64 (g - 1).
Definition OverwriteManyEmptyAsFull (g cnt : Z) : Z := u64 (g - cnt).
Definition OverwriteControlAsFull (g ctrl : Z) : Z := u64 (g - (if IsEmpty ctrl then 1 else 0)).
Definition OverwriteFullAsDeleted (g : Z) : Z := Z.lor g kDeletedBit.
Definition HasNoDeletedAndGrowthLeft (g : Z) : bool := 0 <? i64 g.
Definition HasNoGrowthLeftAndNoDeleted (g : Z) : bool := g =? 0.
Definition HasNoDeleted (g : Z) : bool := 0 <=? i64 g.
Definition GetGrowthLeft (g : Z) : Z := Z.land g kGrowthLeftMask.

(** ** The probe sequence *)

Record probe_seq := mkSeq { ps_mask : Z; ps_offset : Z; ps_index : Z }.

Definition probe_seq_new (hash mask : Z) : probe_seq := mkSeq mask (Z.land hash mask) 0.
Definition ps_offset_i (s : probe_seq) (i : Z) : Z := Z.land (u64 (ps_offset s + i)) (ps_mask s).

Definition ps_next (W : Z) (s : probe_seq) : probe_seq :=
  let index := u64 (ps_index s + W) in
  mkSeq (ps_mask s) (Z.land (u64 (ps_offset s + index)) (ps_mask s)) index.

(** [probe] begins with the H1 of the hash. *)
Definition probe (ctrl capacity hash : Z) : probe_seq := probe_seq_new (hash_H1 hash ctrl) capacity.

(** ** The array of control bytes *)

Definition memset (n : Z) (c : Z) : list Z := replicate (Z.to_nat n) c.

(** The bytes after [ResetCtrl]. *)
Definition ResetCtrl_bytes (W capacity : Z) : list Z :=
  <[Z.to_nat capacity := kSentinel]> (memset (capacity + 1 + NumClonedBytes W) kEmpty).

(** [ctrl[i] = h], and the mirrored byte. *)
Definition SetCtrl_bytes (W capacity : Z) (ctrl : list Z) (i h : Z) : list Z :=
  let ctrl := <[Z.to_nat i := h]> ctrl in
  <[Z.to_nat (Z.land (u64 (i - NumClonedBytes W)) capacity + Z.land (NumClonedBytes W) capacity) := h]> ctrl.

Definition SetCtrlInSingleGroupTable_bytes (capacity : Z) (ctrl : list Z) (i h : Z) : list Z :=
  <[Z.to_nat (i + capacity + 1) := h]> (<[Z.to_nat i := h]> ctrl).

(** The bytes a group at [o] loads: undefined past the array. *)
Definition load (n : nat) (ctrl : list Z) (o : Z) : outcome (list Z) :=
  if (0 <=? o) && (Z.to_nat o + n <=? length ctrl)%nat then Ret (take n (drop (Z.to_nat o) ctrl)) else UB.

(** ** Capacities *)

(** The capacities of tables, and 0 for one without an array; the bound
    keeps every size below the address space. *)
Definition capacity_of (m : Z) : Z := 2 ^ m - 1.
Definition good_capacity (c : Z) : Prop := exists m, 0 <= m <= 56 /\ c = capacity_of m.

Lemma capacity_pos m : 0 <= m <= 56 -> 0 <= capacity_of m < 2 ^ 56.
Proof.
  intros Hm. unfold capacity_of. pose proof (Z.pow_pos_nonneg 2 m). pose proof (Z.pow_le_mono_r 2 m 56). lia.
Qed.

Lemma land_capacity x m : 0 <= m -> Z.land x (capacity_of m) = x mod 2 ^ m.
Proof. intros Hm. unfold capacity_of. rewrite Z.sub_1_r, <- Z.ones_equiv. by apply Z.land_ones. Qed.

Lemma u64_mod x m : 0 <= m <= 64 -> u64 x mod 2 ^ m = x mod 2 ^ m.
Proof.
  intros Hm. unfold wrapU. replace (2 ^ 64) with (2 ^ m * 2 ^ (64 - m)) by (rewrite <- Z.pow_add_r by lia; f_equal; lia).
  pose proof (Z.pow_pos_nonneg 2 m). pose proof (Z.pow_pos_nonneg 2 (64 - m)).
  rewrite Z.rem_mul_r by lia. rewrite Z.mul_comm, Z.mod_add, Z.mod_mod by lia. done.
Qed.

Lemma land_u64_capacity x m : 0 <= m <= 56 -> Z.land (u64 x) (capacity_of m) = x mod 2 ^ m.
Proof. intros Hm. rewrite land_capacity by lia. apply u64_mod. lia. Qed.

Lemma IsValidCapacity_spec n :
  0 <= n < 2 ^ 63 -> IsValidCapacity n = true <-> exists m, 0 < m /\ n = capacity_of m.
Proof.
  intros Hn. unfold IsValidCapacity. rewrite wrapU_id by (unfold inU; lia).
  pose proof (has_single_bit_spec 64 (n + 1) ltac:(lia) ltac:(unfold inU; lia)) as Hb.
  unfold has_single_bit in Hb. rewrite Z.add_simpl_r, wrapU_id in Hb by (unfold inU; lia).
  destruct (Z.eqb_spec (n + 1) 0); [lia|]. cbn [negb andb] in Hb. rewrite andb_true_iff, Hb.
  unfold capacity_of. split.
  - intros ((k & Hk & E) & Hpos). exists k. destruct (Z.eq_dec k 0) as [->|]; [change (2 ^ 0) with 1 in E|]; lia.
  - intros (m & Hm & ->). split; [exists m; lia|]. pose proof (Z.pow_gt_1 2 m). lia.
Qed.

Lemma NormalizeCapacity_spec n :
  0 <= n < 2 ^ 64 -> exists m, 0 < m <= 64 /\ NormalizeCapacity n = capacity_of m /\ n <= capacity_of m /\
    (forall k, 0 < k -> n <= capacity_of k -> m <= k).
Proof.
  intros Hn. unfold NormalizeCapacity. destruct (Z.eqb_spec n 0) as [->|Hne].
  - exists 1. unfold capacity_of. split_and!; try done. intros; lia.
  - rewrite (proj1 (countl_zero_correct 64 n ltac:(by do 3 right) Hn)). unfold bit_length.
    destruct (Z.eqb_spec n 0); [done|]. pose proof (Z.log2_spec n ltac:(lia)) as Hl.
    pose proof (Z.log2_nonneg n). assert (Z.log2 n < 64) by (apply Z.log2_lt_pow2; lia).
    exists (Z.log2 n + 1). split; [lia|]. split; [|split].
    + change (notU 64 0) with (2 ^ 64 - 1). rewrite Z.shiftr_div_pow2 by lia.
      set (k := Z.log2 n + 1). replace (2 ^ 64 - 1) with (2 ^ (64 - k) * (2 ^ k - 1) + (2 ^ (64 - k) - 1)).
      * pose proof (Z.pow_pos_nonneg 2 (64 - k)). symmetry. unfold capacity_of.
        apply (Z.div_unique_pos _ _ _ (2 ^ (64 - k) - 1)); [lia|]. done.
      * replace (2 ^ 64) with (2 ^ (64 - k) * 2 ^ k) by (rewrite <- Z.pow_add_r by lia; f_equal; lia). lia.
    + unfold capacity_of. rewrite Z.add_1_r. lia.
    + intros k Hk Hnk. unfold capacity_of in Hnk. enough (Z.log2 n < k) by lia.
      apply Z.log2_lt_pow2; lia.
Qed.

Definition group_width_ok (W : Z) : Prop := W = 8 \/ W = 16.

Lemma capacity_small m : 0 <= m < 3 -> capacity_of m = 0 \/ capacity_of m = 1 \/ capacity_of m = 3.
Proof. intros Hm. assert (m = 0 \/ m = 1 \/ m = 2) as [-> | [-> | ->]] by lia; unfold capacity_of; auto. Qed.

Lemma capacity_large m : 3 <= m -> exists q, 0 <= q /\ capacity_of m = 8 * q + 7.
Proof.
  intros Hm. exists (2 ^ (m - 3) - 1). pose proof (Z.pow_pos_nonneg 2 (m - 3)). split; [lia|].
  unfold capacity_of. replace (2 ^ m) with (8 * 2 ^ (m - 3)); [lia|].
  change 8 with (2 ^ 3). rewrite <- Z.pow_add_r by lia. f_equal. lia.
Qed.

Lemma small_growth W c :
  group_width_ok W -> c = 0 \/ c = 1 \/ c = 3 -> CapacityToGrowth W c = c.
Proof. intros [-> | ->] [-> | [-> | ->]]; reflexivity. Qed.

(** The load factor: all slots of a small table, seven eighths of a larger
    one, which leaves an empty slot in a table that needs one. *)
Lemma growth_bounds W m :
  group_width_ok W -> 0 <= m <= 56 ->
  0 <= CapacityToGrowth W (capacity_of m) <= capacity_of m /\
  (0 < m -> 0 < CapacityToGrowth W (capacity_of m)) /\
  (W - 1 <= capacity_of m -> CapacityToGrowth W (capacity_of m) < capacity_of m).
Proof.
  intros HW Hm. pose proof (capacity_pos m Hm) as Hp.
  destruct (Z.lt_ge_cases m 3) as [Hlt|Hge].
  - assert (0 < m -> capacity_of m <> 0).
    { intros Hm0. assert (m = 1 \/ m = 2) as [-> | ->] by lia; discriminate. }
    pose proof (small_growth W (capacity_of m) HW (capacity_small m ltac:(lia))) as ->.
    pose proof (capacity_small m ltac:(lia)). destruct HW; lia.
  - unfold CapacityToGrowth. destruct (capacity_large m Hge) as (q & Hq & E). rewrite E in *.
    replace ((8 * q + 7) / 8) with q by (apply (Z.div_unique_pos _ _ _ 7); lia).
    destruct (Z.eqb_spec W 8), (Z.eqb_spec (8 * q + 7) 7); cbn [andb];
      rewrite ?wrapU_id by (unfold inU; lia); destruct HW; try lia.
Qed.

(** A larger table has room for more. *)
Lemma growth_mono W m m' :
  group_width_ok W -> 0 <= m < m' -> m' <= 56 ->
  CapacityToGrowth W (capacity_of m) < CapacityToGrowth W (capacity_of m').
Proof.
  intros HW Hm Hm'. pose proof (growth_bounds W m HW ltac:(lia)) as (Hb & _).
  assert (Hlt : 2 * capacity_of m + 1 <= capacity_of m').
  { unfold capacity_of. pose proof (Z.pow_le_mono_r 2 (m + 1) m' ltac:(lia) ltac:(lia)) as Hp.
    rewrite Z.pow_add_r in Hp by lia. lia. }
  pose proof (capacity_pos m' ltac:(lia)) as Hp'. pose proof (capacity_pos m ltac:(lia)) as Hp.
  destruct (Z.lt_ge_cases m' 3) as [Hs|Hg'].
  { rewrite (small_growth W (capacity_of m')) by (done || apply capacity_small; lia). lia. }
  destruct (capacity_large m' Hg') as (q' & Hq' & E'). unfold CapacityToGrowth at 2. rewrite E' in *.
  replace ((8 * q' + 7) / 8) with q' by (apply (Z.div_unique_pos _ _ _ 7); lia).
  rewrite wrapU_id by (unfold inU; lia).
  destruct ((W =? 8) && (8 * q' + 7 =? 7)) eqn:E; lia.
Qed.

(** Room for [g] elements is what [NormalizeCapacity] of the lower bound
    gives. *)
Lemma reserve_room W g :
  group_width_ok W -> 0 <= g < 2 ^ 50 ->
  exists m, 0 < m <= 56 /\ NormalizeCapacity (GrowthToLowerboundCapacity W g) = capacity_of m /\
    g <= CapacityToGrowth W (capacity_of m).
Proof.
  intros HW Hg.
  assert (exists c, GrowthToLowerboundCapacity W g = c /\ 0 <= c < 2 ^ 51 /\
    (forall m, 0 < m <= 56 -> c <= capacity_of m -> g <= CapacityToGrowth W (capacity_of m))) as (c & Ec & Hc & Hroom).
  { unfold GrowthToLowerboundCapacity. destruct ((W =? 8) && (g =? 7)) eqn:E8.
    - exists 8. split_and!; [done|lia|lia|]. intros m Hm Hle. assert (g = 7 /\ W = 8) as [-> ->] by lia.
      destruct (Z.lt_ge_cases m 3) as [Hlt|Hge]; [destruct (capacity_small m) as [E|[E|E]]; lia|].
      destruct (capacity_large m Hge) as (q & Hq & E). unfold CapacityToGrowth. rewrite E in *.
      replace ((8 * q + 7) / 8) with q by (apply (Z.div_unique_pos _ _ _ 7); lia).
      destruct (Z.eqb_spec (8 * q + 7) 7); [lia|]. rewrite andb_false_r.
      pose proof (capacity_pos m ltac:(lia)) as Hp. rewrite E in Hp. rewrite wrapU_id by (unfold inU; lia). lia.
    - rewrite wrapS_id by (unfold inS; change (2 ^ (64 - 1)) with 9223372036854775808; lia).
      set (k := Z.quot (g - 1) 7).
      assert (Hk : 0 <= k /\ (0 < g -> 7 * k <= g - 1 < 7 * k + 7)).
      { destruct (Z.eq_dec g 0) as [->|]; [vm_compute in k; subst k; lia|].
        subst k. rewrite Z.quot_div_nonneg by lia. pose proof (Z.div_pos (g - 1) 7).
        pose proof (Z.div_mod (g - 1) 7). pose proof (Z.mod_pos_bound (g - 1) 7). lia. }
      exists (g + k). assert (k < 2 ^ 50) by (destruct (Z.eq_dec g 0) as [->|]; [vm_compute in k; subst k|]; lia).
      rewrite !wrapU_id by (unfold inU; try rewrite wrapU_id by (unfold inU; lia); lia).
      split_and!; [done|lia|lia|]. intros m Hm Hle.
      pose proof (capacity_pos m ltac:(lia)).
      destruct (Z.lt_ge_cases m 3) as [Hlt|Hge].
      + rewrite small_growth by (done || apply capacity_small; lia). lia.
      + unfold CapacityToGrowth. destruct (capacity_large m Hge) as (q & Hq & E). rewrite E in *.
        replace ((8 * q + 7) / 8) with q by (apply (Z.div_unique_pos _ _ _ 7); lia).
        destruct (Z.eqb_spec W 8), (Z.eqb_spec (8 * q + 7) 7); cbn [andb];
          rewrite ?wrapU_id by (unfold inU; lia); lia. }
  rewrite Ec. destruct (NormalizeCapacity_spec c ltac:(lia)) as (m & Hm & En & Hle & Hmin). exists m.
  assert (m <= 51) by (apply Hmin; [lia|unfold capacity_of; lia]). split; [lia|]. split; [done|].
  apply Hroom; [lia|done].
Qed.

(** ** [GrowthInfo] as a number and a flag *)

Definition ginfo (left : Z) (deleted : bool) : Z := left + (if deleted then 2 ^ 63 else 0).

Section ginfo.
Context (left : Z) (deleted : bool) (Hl : 0 <= left < 2 ^ 62).

Lemma ginfo_left : GetGrowthLeft (ginfo left deleted) = left.
Proof.
  unfold GetGrowthLeft. change kGrowthLeftMask with (Z.ones 63). rewrite Z.land_ones by lia.
  unfold ginfo. destruct deleted.
  - symmetry. apply (Z.mod_unique_pos _ _ 1); lia.
  - rewrite Z.add_0_r. apply Z.mod_small. lia.
Qed.

Lemma ginfo_signed : i64 (ginfo left deleted) = left - (if deleted then 2 ^ 63 else 0).
Proof.
  unfold wrapS, ginfo. change (2 ^ (64 - 1)) with (2 ^ 63). destruct deleted.
  - rewrite <- (Z.mod_unique_pos (left + 2 ^ 63 + 2 ^ 63) (2 ^ 64) 1 left) by lia. lia.
  - rewrite Z.mod_small by lia. lia.
Qed.

Lemma ginfo_no_deleted : HasNoDeleted (ginfo left deleted) = negb deleted.
Proof. unfold HasNoDeleted. rewrite ginfo_signed. destruct deleted; simpl; lia. Qed.

Lemma ginfo_no_deleted_and_left :
  HasNoDeletedAndGrowthLeft (ginfo left deleted) = negb deleted && (0 <? left).
Proof. unfold HasNoDeletedAndGrowthLeft. rewrite ginfo_signed. destruct deleted; simpl; lia. Qed.

Lemma ginfo_as_empty : OverwriteFullAsEmpty (ginfo left deleted) = ginfo (left + 1) deleted.
Proof. unfold OverwriteFullAsEmpty, ginfo. rewrite wrapU_id; [lia|]. unfold inU. destruct deleted; lia. Qed.

Lemma ginfo_control_as_full c : (IsEmpty c = true -> 0 < left) ->
  OverwriteControlAsFull (ginfo left deleted) c = ginfo (left - (if IsEmpty c then 1 else 0)) deleted.
Proof.
  intros Hc. unfold OverwriteControlAsFull, ginfo.
  rewrite wrapU_id; [lia|]. unfold inU. destruct (IsEmpty c), deleted; specialize (Hc eq_refl) || clear Hc; lia.
Qed.

Lemma ginfo_as_deleted : OverwriteFullAsDeleted (ginfo left deleted) = ginfo left true.
Proof.
  unfold OverwriteFullAsDeleted. change kDeletedBit with (2 ^ 63).
  assert (E : Z.lor left (2 ^ 63) = left + 2 ^ 63).
  { assert (Z.land left (2 ^ 63) = 0) as H0; [|by rewrite <- Z.lxor_lor, Z.add_nocarry_lxor].
    apply Z.bits_inj'. intros i Hi. rewrite Z.land_spec, Z.bits_0, Z.pow2_bits_eqb by lia.
    destruct (Z.eqb_spec 63 i) as [<-|]; [|apply andb_false_r].
    rewrite andb_true_r. apply (inU_testbit 62); [exact Hl|lia]. }
  unfold ginfo. destruct deleted.
  - by rewrite <- E, <- Z.lor_assoc, Z.lor_diag.
  - by rewrite Z.add_0_r.
Qed.
End ginfo.

(** ** The probe sequence reaches every slot *)

(** Triangular numbers. *)
Fixpoint tri (k : nat) : Z := match k with O => 0 | S j => tri j + Z.of_nat (S j) end.

Lemma tri_double k : 2 * tri k = Z.of_nat k * (Z.of_nat k + 1).
Proof. induction k as [|k IH]; [done|]. cbn [tri]. lia. Qed.

Lemma pow2_odd_coprime n x : 0 <= n -> Z.Odd x -> Z.gcd (2 ^ n) x = 1.
Proof.
  intros Hn [y ->]. apply Z.coprime_pow_l; [done|]. replace (2 * y + 1) with (1 + y * 2) by lia.
  unfold Z.coprime. by rewrite Z.gcd_add_mult_diag_r.
Qed.

(** The first [2 ^ n] of them differ modulo [2 ^ n]. *)
Lemma tri_inj n i j :
  0 <= n -> (i < j)%nat -> Z.of_nat j < 2 ^ n -> tri i mod 2 ^ n <> tri j mod 2 ^ n.
Proof.
  intros Hn Hij Hj E. pose proof (Z.pow_pos_nonneg 2 n ltac:(lia) Hn) as Hp.
  assert (Hd : (2 ^ (n + 1) | (Z.of_nat j - Z.of_nat i) * (Z.of_nat j + Z.of_nat i + 1))).
  { exists (tri j / 2 ^ n - tri i / 2 ^ n). rewrite Z.pow_add_r, Z.pow_1_r by lia.
    pose proof (Z.div_mod (tri i) (2 ^ n)). pose proof (Z.div_mod (tri j) (2 ^ n)).
    pose proof (tri_double i). pose proof (tri_double j). nia. }
  assert (Hlt : forall x, (2 ^ (n + 1) | x) -> 0 < x -> 2 ^ (n + 1) <= x)
    by (intros x Hx Hx0; by apply Z.divide_pos_le).
  rewrite Z.pow_add_r, Z.pow_1_r in Hlt by lia.
  destruct (Z.Even_or_Odd (Z.of_nat j - Z.of_nat i)) as [[q Eq]|Ho].
  - rewrite Z.mul_comm in Hd. rewrite <- (Z.pow_1_r 2) in Hlt. rewrite <- Z.pow_add_r in Hlt by lia.
    apply Z.gauss in Hd; [|apply pow2_odd_coprime; [lia|exists (Z.of_nat i + q); lia]].
    specialize (Hlt _ Hd ltac:(lia)). rewrite Z.pow_add_r, Z.pow_1_r in Hlt by lia. lia.
  - rewrite <- (Z.pow_1_r 2) in Hlt. rewrite <- Z.pow_add_r in Hlt by lia.
    apply Z.gauss in Hd; [|apply pow2_odd_coprime; [lia|done]].
    specialize (Hlt _ Hd ltac:(lia)). rewrite Z.pow_add_r, Z.pow_1_r in Hlt by lia. lia.
Qed.

Lemma tri_surj n r : 0 <= n -> 0 <= r < 2 ^ n -> exists k, Z.of_nat k < 2 ^ n /\ tri k mod 2 ^ n = r.
Proof.
  intros Hn Hr. set (N := Z.to_nat (2 ^ n)).
  assert (HN : Z.of_nat N = 2 ^ n) by (unfold N; lia).
  set (l := (fun k => Z.to_nat (tri k mod 2 ^ n)) <$> seq 0 N).
  assert (Hl : l ≡ₚ seq 0 N).
  { apply submseteq_length_Permutation; [|unfold l; by rewrite length_fmap].
    apply NoDup_submseteq.
    - apply NoDup_fmap_2_strong; [|apply NoDup_seq]. intros i j Hi%elem_of_seq Hj%elem_of_seq E.
      pose proof (Z.mod_pos_bound (tri i) (2 ^ n) ltac:(lia)). pose proof (Z.mod_pos_bound (tri j) (2 ^ n) ltac:(lia)).
      destruct (Nat.lt_trichotomy i j) as [Hlt|[?|Hlt]]; [exfalso|done|exfalso].
      + apply (tri_inj n i j); lia.
      + apply (tri_inj n j i); lia.
    - intros x (k & -> & _)%list_elem_of_fmap. apply elem_of_seq.
      pose proof (Z.mod_pos_bound (tri k) (2 ^ n) ltac:(lia)). lia. }
  assert (Hin : Z.to_nat r ∈ l) by (rewrite Hl; apply elem_of_seq; lia).
  apply list_elem_of_fmap in Hin as (k & E & Hk%elem_of_seq). exists k. split; [lia|].
  pose proof (Z.mod_pos_bound (tri k) (2 ^ n) ltac:(lia)). lia.
Qed.

Definition probe_at (W hash cap : Z) (k : nat) : probe_seq :=
  Nat.iter k (ps_next W) (probe_seq_new hash cap).

(** The number of groups of a table. *)
Definition ngroups (W cap : Z) : nat := Z.to_nat (Z.max 1 ((cap + 1) / W)).

Section probing.
Context (W m : Z) (HW : group_width_ok W) (Hm : 0 <= m <= 56).
Abbreviation cap := (capacity_of m).

Lemma probe_at_spec hash k :
  probe_at W hash cap k = mkSeq cap ((hash + W * tri k) mod 2 ^ m) (u64 (W * Z.of_nat k)).
Proof.
  induction k as [|k IH]; unfold probe_at in *; cbn [Nat.iter].
  - unfold probe_seq_new. rewrite land_capacity by lia. simpl tri. rewrite Z.mul_0_r, Z.add_0_r.
    by rewrite Z.mul_0_r.
  - change (Nat.iter (S k) ?f ?x) with (f (Nat.iter k f x)). rewrite IH. unfold ps_next. cbn [ps_mask ps_offset ps_index].
    assert (E : u64 (u64 (W * Z.of_nat k) + W) = u64 (W * Z.of_nat (S k))).
    { unfold wrapU. rewrite Zplus_mod_idemp_l. f_equal. lia. }
    rewrite E, land_u64_capacity by done. f_equal.
    rewrite Zplus_mod_idemp_l, <- Zplus_mod_idemp_r, u64_mod, Zplus_mod_idemp_r by lia.
    f_equal. cbn [tri]. lia.
Qed.

Lemma ps_offset_i_spec s i :
  ps_mask s = cap -> ps_offset_i s i = (ps_offset s + i) mod 2 ^ m.
Proof. intros E. unfold ps_offset_i. rewrite E. by apply land_u64_capacity. Qed.

Lemma probe_offset_range hash k : 0 <= ps_offset (probe_at W hash cap k) <= cap.
Proof.
  rewrite probe_at_spec. cbn [ps_offset]. unfold capacity_of.
  pose proof (Z.mod_pos_bound (hash + W * tri k) (2 ^ m)). pose proof (Z.pow_pos_nonneg 2 m). lia.
Qed.

(** Every slot lies in one of the groups of the sequence. *)
Lemma probe_covers hash p :
  0 <= p <= cap -> exists k i, (k < ngroups W cap)%nat /\ 0 <= i < W /\ i <= cap /\
    (ps_offset (probe_at W hash cap k) + i) mod 2 ^ m = p.
Proof.
  intros Hp. unfold ngroups. pose proof (Z.pow_pos_nonneg 2 m ltac:(lia) ltac:(lia)) as Hpm.
  assert (Ec : cap + 1 = 2 ^ m) by (unfold capacity_of; lia). rewrite Ec.
  destruct (Z.lt_ge_cases (2 ^ m) W) as [Hs|Hl].
  - exists 0%nat, ((p - hash) mod 2 ^ m). pose proof (Z.mod_pos_bound (p - hash) (2 ^ m) Hpm).
    split_and!; try lia. rewrite probe_at_spec. cbn [ps_offset tri]. rewrite Z.mul_0_r, Z.add_0_r.
    rewrite <- Zplus_mod. replace (hash + (p - hash)) with p by lia. apply Z.mod_small. lia.
  - assert (exists n, 0 <= n /\ 2 ^ m = W * 2 ^ n) as (n & Hn & En).
    { destruct HW as [-> | ->]; [exists (m - 3)|exists (m - 4)].
      - destruct (Z.lt_ge_cases m 3) as [Hlt|Hge].
        + exfalso. pose proof (Z.pow_lt_mono_r 2 m 3). lia.
        + split; [lia|]. change 8 with (2 ^ 3). rewrite <- Z.pow_add_r by lia. f_equal. lia.
      - destruct (Z.lt_ge_cases m 4) as [Hlt|Hge].
        + exfalso. pose proof (Z.pow_lt_mono_r 2 m 4). lia.
        + split; [lia|]. change 16 with (2 ^ 4). rewrite <- Z.pow_add_r by lia. f_equal. lia. }
    assert (HW0 : 0 < W) by (destruct HW; lia).
    pose proof (Z.pow_pos_nonneg 2 n ltac:(lia) Hn) as Hpn.
    set (x := (p - hash) mod 2 ^ m). pose proof (Z.mod_pos_bound (p - hash) (2 ^ m) Hpm) as Hx. fold x in Hx.
    pose proof (Z.div_mod x W ltac:(lia)) as Dx. pose proof (Z.mod_pos_bound x W HW0) as Mx.
    assert (Hr : 0 <= x / W < 2 ^ n) by (split; [apply Z.div_pos|apply Z.div_lt_upper_bound]; lia).
    destruct (tri_surj n (x / W) Hn Hr) as (k & Hk & Ek). exists k, (x mod W).
    assert ((W * 2 ^ n) / W = 2 ^ n) as Eq by (rewrite Z.mul_comm; apply Z.div_mul; lia).
    split_and!; [rewrite En, Eq; lia|lia|lia|nia|]. rewrite probe_at_spec. cbn [ps_offset].
    rewrite Zplus_mod_idemp_l.
    pose proof (Z.div_mod (tri k) (2 ^ n) ltac:(lia)) as Dk. rewrite Ek in Dk.
    replace (hash + W * tri k + x mod W) with (hash + x + (tri k / 2 ^ n) * 2 ^ m) by (rewrite En; nia).
    rewrite Z.mod_add by lia. unfold x. rewrite Zplus_mod_idemp_r.
    replace (hash + (p - hash)) with p by lia. apply Z.mod_small. lia.
Qed.
End probing.

(** ** The layout of the control bytes *)

(** The bytes of the slots, the sentinel, the cloned bytes and, in a small
    table, bytes that stay empty. *)
Definition layout (W : Z) (real : list Z) : list Z :=
  real ++ kSentinel :: take (Z.to_nat (W - 1)) real ++ replicate (Z.to_nat (W - 1) - length real) kEmpty.

Section layout.
Context (W : Z) (HW : group_width_ok W).

Lemma layout_length real : length (layout W real) = (length real + Z.to_nat W)%nat.
Proof.
  unfold layout. rewrite length_app. cbn [length]. rewrite length_app, length_take, length_replicate.
  destruct HW as [-> | ->]; lia.
Qed.

Lemma layout_lookup real q :
  (q < length real + Z.to_nat W)%nat ->
  layout W real !! q =
    if (q <? length real)%nat then real !! q
    else if (q =? length real)%nat then Some kSentinel
    else if (q - length real - 1 <? length real)%nat then real !! (q - length real - 1)%nat
    else Some kEmpty.
Proof.
  intros Hq. unfold layout. destruct (Nat.ltb_spec q (length real)); [by rewrite lookup_app_l|].
  rewrite lookup_app_r by done. destruct (Nat.eqb_spec q (length real)) as [->|Hne]; [by rewrite Nat.sub_diag|].
  match goal with |- (kSentinel :: ?l) !! _ = _ => change (kSentinel :: l) with ([kSentinel] ++ l) end.
  rewrite lookup_app_r by (cbn; lia). cbn [length].
  set (j := (q - length real - 1)%nat). assert (Hj : (j < Z.to_nat (W - 1))%nat) by (destruct HW as [-> | ->]; lia).
  destruct (Nat.ltb_spec j (length real)).
  - rewrite lookup_app_l by (rewrite length_take; lia). by rewrite lookup_take_lt.
  - rewrite lookup_app_r by (rewrite length_take; lia). apply lookup_replicate_2. rewrite length_take. lia.
Qed.

Lemma ResetCtrl_layout m :
  0 <= m <= 56 -> ResetCtrl_bytes W (capacity_of m) = layout W (replicate (Z.to_nat (capacity_of m)) kEmpty).
Proof.
  intros Hm. pose proof (capacity_pos m Hm) as Hc. unfold ResetCtrl_bytes, memset, NumClonedBytes.
  set (c := Z.to_nat (capacity_of m)).
  replace (Z.to_nat (capacity_of m + 1 + (W - 1))) with (c + Z.to_nat W)%nat by (destruct HW as [-> | ->]; lia).
  apply list_eq_same_length with (n := (c + Z.to_nat W)%nat).
  - by rewrite layout_length, length_replicate.
  - by rewrite length_insert, length_replicate.
  - intros q x y Hq Hx Hy. rewrite layout_lookup in Hy by (by rewrite length_replicate).
    rewrite length_replicate in Hy. destruct (Nat.eqb_spec q c) as [->|Hne].
    + rewrite list_lookup_insert_eq in Hx by (rewrite length_replicate; destruct HW as [-> | ->]; lia).
      rewrite Nat.ltb_irrefl in Hy. congruence.
    + rewrite list_lookup_insert_ne, lookup_replicate_2 in Hx by lia.
      destruct (Nat.ltb_spec q c); [rewrite lookup_replicate_2 in Hy by done; congruence|].
      destruct (Nat.ltb_spec (q - c - 1) c); [rewrite lookup_replicate_2 in Hy by done; congruence|congruence].
Qed.

(** [SetCtrl] keeps the clones: it is an update of the slots' bytes. *)
Lemma layout_insert real i h :
  (i < length real)%nat ->
  <[(if (i <? Z.to_nat (W - 1))%nat then i + length real + 1 else i)%nat := h]> (<[i := h]> (layout W real)) =
  layout W (<[i := h]> real).
Proof.
  intros Hi. set (c := length real) in *.
  apply list_eq_same_length with (n := (c + Z.to_nat W)%nat).
  - rewrite layout_length. unfold c. by rewrite length_insert.
  - by rewrite !length_insert, layout_length.
  - intros q x y Hq Hx Hy. rewrite layout_lookup in Hy by (by rewrite length_insert).
    rewrite length_insert in Hy. fold c in Hy.
    assert (Hll : length (layout W real) = (c + Z.to_nat W)%nat) by apply layout_length.
    pose proof (layout_lookup real q Hq) as Hr. fold c in Hr.
    destruct (Nat.eqb_spec q i) as [->|Hqi].
    { destruct (Nat.ltb_spec i c); [|lia]. rewrite list_lookup_insert_eq in Hy by done.
      destruct (Nat.ltb_spec i (Z.to_nat (W - 1))).
      - rewrite list_lookup_insert_ne, list_lookup_insert_eq in Hx by lia. congruence.
      - rewrite list_lookup_insert_eq in Hx by (rewrite length_insert; lia). congruence. }
    destruct (Nat.eqb_spec q (i + c + 1)) as [->|Hqc].
    { destruct (Nat.ltb_spec i (Z.to_nat (W - 1))); [|destruct HW as [-> | ->]; lia].
      rewrite list_lookup_insert_eq in Hx by (rewrite length_insert; lia).
      destruct (Nat.ltb_spec (i + c + 1) c); [lia|]. destruct (Nat.eqb_spec (i + c + 1) c); [lia|].
      replace (i + c + 1 - c - 1)%nat with i in Hy by lia. destruct (Nat.ltb_spec i c); [|lia].
      rewrite list_lookup_insert_eq in Hy by done. congruence. }
    assert (Hx' : layout W real !! q = Some x).
    { destruct (i <? Z.to_nat (W - 1))%nat; rewrite !list_lookup_insert_ne in Hx by lia; done. }
    rewrite Hr in Hx'. destruct (Nat.ltb_spec q c); [rewrite list_lookup_insert_ne in Hy by lia; congruence|].
    destruct (Nat.eqb_spec q c); [congruence|].
    destruct (Nat.ltb_spec (q - c - 1) c); [rewrite list_lookup_insert_ne in Hy by lia|]; congruence.
Qed.

Lemma SetCtrl_layout m real i h :
  0 <= m <= 56 -> Z.of_nat (length real) = capacity_of m -> 0 <= i < capacity_of m ->
  SetCtrl_bytes W (capacity_of m) (layout W real) i h = layout W (<[Z.to_nat i := h]> real).
Proof.
  intros Hm Hl Hi. rewrite <- layout_insert by lia. unfold SetCtrl_bytes. f_equal.
  unfold NumClonedBytes. rewrite land_u64_capacity by done. rewrite land_capacity by lia.
  assert (Ec : 2 ^ m = capacity_of m + 1) by (unfold capacity_of; lia). rewrite Ec.
  pose proof (capacity_pos m Hm) as Hp. set (c := capacity_of m) in *.
  destruct (Z.lt_ge_cases c (W - 1)) as [Hs|Hb].
  - assert (E : (i - (W - 1)) mod (c + 1) + (W - 1) mod (c + 1) = i + c + 1).
    { assert (Hm3 : m < 4).
      { destruct (Z.lt_ge_cases m 4) as [|Hge]; [done|]. pose proof (Z.pow_le_mono_r 2 4 m). destruct HW; lia. }
      clear Hl Hp. assert (m = 0 \/ m = 1 \/ m = 2 \/ m = 3) as [Em|[Em|[Em|Em]]] by lia; subst m;
        vm_compute in c; subst c; destruct HW as [-> | ->]; try lia; Z.div_mod_to_equations; lia. }
    rewrite E. destruct (Nat.ltb_spec (Z.to_nat i) (Z.to_nat (W - 1))); [|destruct HW as [-> | ->]; lia]. lia.
  - rewrite (Z.mod_small (W - 1)) by (destruct HW; lia).
    destruct (Nat.ltb_spec (Z.to_nat i) (Z.to_nat (W - 1))).
    + rewrite <- (Z.mod_unique_pos (i - (W - 1)) (c + 1) (-1) (i - (W - 1) + c + 1)) by (destruct HW; lia). lia.
    + rewrite Z.mod_small by (destruct HW; lia). lia.
Qed.

Lemma single_capacity m :
  0 <= m <= 56 -> is_single_group W (capacity_of m) = true -> capacity_of m <= W - 1.
Proof.
  intros Hm Hs. unfold is_single_group in Hs.
  destruct (Z.eq_dec (capacity_of m) W) as [E|]; [exfalso|lia].
  destruct (Z.lt_ge_cases m 3) as [Hlt|Hge]; [destruct (capacity_small m) as [?|[?|?]]; destruct HW; lia|].
  destruct (capacity_large m Hge) as (q & _ & ?). destruct HW; lia.
Qed.

Lemma SetCtrlInSingleGroupTable_layout m real i h :
  0 <= m <= 56 -> Z.of_nat (length real) = capacity_of m -> is_single_group W (capacity_of m) = true ->
  0 <= i < capacity_of m ->
  SetCtrlInSingleGroupTable_bytes (capacity_of m) (layout W real) i h = layout W (<[Z.to_nat i := h]> real).
Proof.
  intros Hm Hl Hs Hi. rewrite <- layout_insert by lia. unfold SetCtrlInSingleGroupTable_bytes. f_equal.
  pose proof (single_capacity m Hm Hs).
  destruct (Nat.ltb_spec (Z.to_nat i) (Z.to_nat (W - 1))); lia.
Qed.

(** *** The group at an offset *)

Definition slot_byte (c : Z) : Prop := ctrl_t c /\ c <> kSentinel.

Lemma layout_ctrl real : Forall slot_byte real -> Forall ctrl_t (layout W real).
Proof.
  intros Hr. assert (Hc : Forall ctrl_t real) by (eapply Forall_impl; [exact Hr|by intros c []]).
  unfold layout. apply Forall_app. split; [done|]. constructor; [right; right; by left|].
  apply Forall_app. split; [by apply Forall_take|]. apply Forall_replicate. by left.
Qed.

Lemma load_layout real o :
  Forall slot_byte real -> 0 <= o <= Z.of_nat (length real) ->
  exists g, load (Z.to_nat W) (layout W real) o = Ret g /\ window (Z.to_nat W) g /\
    forall i, (i < Z.to_nat W)%nat -> g !! i = layout W real !! (Z.to_nat o + i)%nat.
Proof.
  intros Hr Ho. unfold load. rewrite layout_length.
  destruct (Z.leb_spec 0 o); [|lia]. destruct (Nat.leb_spec (Z.to_nat o + Z.to_nat W) (length real + Z.to_nat W)); [|lia].
  eexists. split; [done|]. split.
  - split; [rewrite length_take, length_drop, layout_length; lia|]. by apply Forall_take, Forall_drop, layout_ctrl.
  - intros i Hi. by rewrite lookup_take_lt, lookup_drop.
Qed.

(** A byte of a group belongs to a slot, or is the sentinel, or is one of the
    empty bytes behind the clones of a small table. *)
Lemma layout_byte m real o i c :
  0 <= m <= 56 -> Z.of_nat (length real) = capacity_of m ->
  0 <= o <= capacity_of m -> 0 <= i < W -> layout W real !! (Z.to_nat o + Z.to_nat i)%nat = Some c ->
  (o + i = capacity_of m /\ c = kSentinel) \/
  (exists p, 0 <= p < capacity_of m /\ p = (o + i) mod 2 ^ m /\ real !! Z.to_nat p = Some c) \/
  (2 * capacity_of m + 1 <= o + i /\ c = kEmpty).
Proof.
  intros Hm Hl Ho Hi. rewrite layout_lookup by (destruct HW; lia).
  assert (Ec : 2 ^ m = capacity_of m + 1) by (unfold capacity_of; lia). rewrite Ec.
  set (cp := capacity_of m) in *.
  destruct (Nat.ltb_spec (Z.to_nat o + Z.to_nat i) (length real)).
  { intros Hc. right. left. exists (o + i). split; [lia|]. split; [rewrite Z.mod_small; lia|].
    by rewrite Z2Nat.inj_add by lia. }
  destruct (Nat.eqb_spec (Z.to_nat o + Z.to_nat i) (length real)); [intros [= <-]; left; lia|].
  destruct (Nat.ltb_spec (Z.to_nat o + Z.to_nat i - length real - 1) (length real)).
  - intros Hc. right. left. exists (o + i - cp - 1). split; [lia|]. split.
    + apply (Z.mod_unique_pos _ _ 1); lia.
    + rewrite <- Hc. f_equal. lia.
  - intros [= <-]. right. right. lia.
Qed.

(** And every slot a group reaches is shown, at its first position. *)
Lemma layout_shows m real o i :
  0 <= m <= 56 -> Z.of_nat (length real) = capacity_of m ->
  0 <= o <= capacity_of m -> 0 <= i < W -> i <= capacity_of m -> (o + i) mod 2 ^ m < capacity_of m ->
  layout W real !! (Z.to_nat o + Z.to_nat i)%nat = real !! Z.to_nat ((o + i) mod 2 ^ m).
Proof.
  intros Hm Hl Ho Hi Hic. assert (Ec : 2 ^ m = capacity_of m + 1) by (unfold capacity_of; lia). rewrite Ec.
  set (cp := capacity_of m) in *. intros Hp. rewrite layout_lookup by (destruct HW; lia).
  destruct (Z.lt_ge_cases (o + i) (cp + 1)).
  - rewrite Z.mod_small in Hp |- * by lia.
    destruct (Nat.ltb_spec (Z.to_nat o + Z.to_nat i) (length real)); [f_equal; lia|lia].
  - rewrite <- (Z.mod_unique_pos (o + i) (cp + 1) 1 (o + i - cp - 1)) in Hp |- * by lia.
    destruct (Nat.ltb_spec (Z.to_nat o + Z.to_nat i) (length real)); [lia|].
    destruct (Nat.eqb_spec (Z.to_nat o + Z.to_nat i) (length real)); [lia|].
    destruct (Nat.ltb_spec (Z.to_nat o + Z.to_nat i - length real - 1) (length real)); [f_equal; lia|lia].
Qed.
End layout.
