(* ===== verification/SwissTable.v ===== *)
(** * Hash tables ([absl/container/internal/raw_hash_set.h])

    The table itself, for a policy without inline storage and without
    [memcpy] transfers: lookup, insertion, resizing, erasure, iteration.  The
    functions of [raw_hash_set.cc], which the headers only declare, are the
    class [RawHashSetCc].  [wf] says that a table is in order: the control
    bytes describe the slots and every element is found by its probe
    sequence before an empty byte. *)

From S2P Require Import Prelude Bits SwissGroup SwissProbe.
Local Open Scope Z_scope.
Local Open Scope list_scope.

(** ** Parameters *)

(** The groups of the platform. *)
Class Groups := {
  Group : GroupImpl;
  GroupFullEmptyOrDeleted : GroupImpl;
  group_bytes : nat;
}.

Class GroupsLaws `(Groups) := {
  group_laws :: GroupLaws Group group_bytes;
  special_laws :: GroupLaws GroupFullEmptyOrDeleted group_bytes;
}.

(** Keys, their hash and equality; slots of a size and an alignment; the
    addresses the allocator gives, one after the other. *)
Class Policy (K V : Type) := {
  key_of : V -> K;
  Hash : K -> Z;
  Eq : K -> K -> bool;
  sizeof_infoz : Z;
  slot_align : Z;
  Allocate : nat -> Z;
}.

(** "If two keys compare equal, then their hash values MUST be equal." *)
Class PolicyLaws `(P : Policy K V) := {
  Eq_refl k : Eq k k = true;
  Eq_sym a b : Eq a b = Eq b a;
  Eq_trans a b c : Eq a b = true -> Eq b c = true -> Eq a c = true;
  Eq_hash a b : Eq a b = true -> Hash a = Hash b;
}.

(** ** The state *)

(** [cf_allocs] counts the arrays that have been allocated; [control_at] is
    the address of the control bytes; a slot without an object is [None]. *)
Record CommonFields (V : Type) := mkCommon {
  capacity_ : Z;
  size_ : Z;
  control_at : Z;
  control : list Z;
  slot_array : list (option V);
  growth_info : Z;
  cf_allocs : nat;
}.
Arguments mkCommon {V}.
Arguments capacity_ {V}.
Arguments size_ {V}.
Arguments control_at {V}.
Arguments control {V}.
Arguments slot_array {V}.
Arguments growth_info {V}.
Arguments cf_allocs {V}.

Record FindInfo := mkFound { fi_offset : Z; fi_probe_length : Z }.

(** A position of the table or [end()]. *)
Inductive iterator := At (i : Z) | End.

(** ** Common fields *)

Section common.
Context {V : Type}.
Implicit Types c : CommonFields V.

Definition HasInfozShift : Z := 1.
Definition HasInfozMask : Z := Z.shiftl 1 HasInfozShift - 1.

Definition size c : Z := Z.shiftr (size_ c) HasInfozShift.
Definition empty c : bool := size c =? 0.

Definition with_size c (s : Z) : CommonFields V :=
  mkCommon (capacity_ c) s (control_at c) (control c) (slot_array c) (growth_info c) (cf_allocs c).
Definition set_size c (s : Z) : CommonFields V :=
  with_size c (Z.lor (shlU 64 s HasInfozShift) (Z.land (size_ c) HasInfozMask)).
Definition increment_size c : CommonFields V := with_size c (u64 (size_ c + Z.shiftl 1 HasInfozShift)).
Definition decrement_size c : CommonFields V := with_size c (u64 (size_ c - Z.shiftl 1 HasInfozShift)).
Definition set_capacity c (n : Z) : CommonFields V :=
  mkCommon n (size_ c) (control_at c) (control c) (slot_array c) (growth_info c) (cf_allocs c).
Definition set_growth c (g : Z) : CommonFields V :=
  mkCommon (capacity_ c) (size_ c) (control_at c) (control c) (slot_array c) g (cf_allocs c).
Definition set_control c (ctrl : list Z) : CommonFields V :=
  mkCommon (capacity_ c) (size_ c) (control_at c) ctrl (slot_array c) (growth_info c) (cf_allocs c).
Definition set_slot c (i : Z) (v : option V) : CommonFields V :=
  mkCommon (capacity_ c) (size_ c) (control_at c) (control c) (<[Z.to_nat i := v]> (slot_array c))
    (growth_info c) (cf_allocs c).

(** The object in a slot: undefined where there is none. *)
Definition slot_at c (i : Z) : outcome V :=
  match slot_array c !! Z.to_nat i with Some (Some v) => Ret v | _ => UB end.
End common.

(** ** Functions of [raw_hash_set.cc] *)

Class RawHashSetCc (V : Type) := {
  GrowIntoSingleGroupShuffleControlBytes : list Z -> Z -> Z -> list Z;
  PrepareInsertNonSoo : CommonFields V -> Z -> FindInfo -> outcome (option (CommonFields V * Z));
  EraseMetaOnly : CommonFields V -> Z -> CommonFields V;
  ClearBackingArray : CommonFields V -> bool -> CommonFields V;
}.

(** ** Operations on control bytes and slots *)

Section table.
Context {K V : Type} `{P : Policy K V} {Gs : Groups}.
Implicit Types c : CommonFields V.
Abbreviation W := (kWidth Group).

(** [CommonFields()]: the control bytes of an empty group. *)
Definition CommonFields_new : CommonFields V :=
  mkCommon 0 0 0 (kSentinel :: memset (NumClonedBytes W) kEmpty) [] 0 0.

Definition load_group c (o : Z) : outcome (list Z) := load (Z.to_nat W) (control c) o.

Definition ctrl_byte c (i : Z) : outcome Z :=
  match control c !! Z.to_nat i with Some b => Ret b | None => UB end.

Definition cf_probe c (hash : Z) : probe_seq := probe (control_at c) (capacity_ c) hash.

(** [GetInsertionOffset], as compiled with [NDEBUG]. *)
Definition GetInsertionOffset (mask : BitMask) : outcome Z := LowestBitSet mask.

Fixpoint find_first_non_full_loop (fuel : nat) c (seq : probe_seq) : outcome (option FindInfo) :=
  match fuel with
  | O => Ret None
  | S fuel =>
      do g <- load_group c (ps_offset seq);
      let mask := MaskEmptyOrDeleted GroupFullEmptyOrDeleted g in
      if bm_bool mask then
        do i <- GetInsertionOffset mask;
        Ret (Some (mkFound (ps_offset_i seq i) (ps_index seq)))
      else find_first_non_full_loop fuel c (ps_next W seq)
  end.

(** One step per group of the table. *)
Definition find_first_non_full c (hash : Z) : outcome (option FindInfo) :=
  let seq := cf_probe c hash in
  do b <- ctrl_byte c (ps_offset seq);
  if IsEmptyOrDeleted b then Ret (Some (mkFound (ps_offset seq) 0))
  else find_first_non_full_loop (ngroups W (capacity_ c)) c seq.

Definition FindFirstNonFullAfterResize c (old_capacity hash : Z) : outcome (option FindInfo) :=
  if negb (IsGrowingIntoSingleGroupApplicable W old_capacity (capacity_ c)) then find_first_non_full c hash
  else
    let offset := ps_offset (cf_probe c hash) in
    let offset := if old_capacity <=? u64 (offset - u64 (old_capacity + 1)) then old_capacity / 2 else offset in
    Ret (Some (mkFound offset 0)).

Definition SetCtrl c (i h : Z) : outcome (CommonFields V) :=
  if (0 <=? i) && (i <? capacity_ c) then Ret (set_control c (SetCtrl_bytes W (capacity_ c) (control c) i h))
  else UB.

Definition ResetGrowthLeft c : CommonFields V :=
  set_growth c (InitGrowthLeftNoDeleted (u64 (CapacityToGrowth W (capacity_ c) - size c))).

Definition ResetCtrl c : CommonFields V := set_control c (ResetCtrl_bytes W (capacity_ c)).

Definition PrepareInsertCommon c : CommonFields V := increment_size c.

(** ** Lookup *)

(** The loop over the positions that match; [None] when none is the key. *)
Fixpoint match_loop c (key : K) (seq : probe_seq) (l : list Z) : outcome (option Z) :=
  match l with
  | [] => Ret None
  | i :: l =>
      do v <- slot_at c (ps_offset_i seq i);
      if Eq key (key_of v) then Ret (Some (ps_offset_i seq i)) else match_loop c key seq l
  end.

(** The loop [find_non_soo] and [find_or_prepare_insert_non_soo] share: the
    position of the key, or the group with an empty byte that ends it. *)
Inductive search := Hit (i : Z) | Miss (seq : probe_seq) (mask_empty : BitMask).

Fixpoint search_loop (fuel : nat) c (key : K) (hash : Z) (seq : probe_seq) : outcome (option search) :=
  match fuel with
  | O => Ret None
  | S fuel =>
      do g <- load_group c (ps_offset seq);
      do l <- bm_list (Match Group g (hash_H2 hash));
      do r <- match_loop c key seq l;
      match r with
      | Some i => Ret (Some (Hit i))
      | None =>
          let mask_empty := MaskEmpty Group g in
          if bm_bool mask_empty then Ret (Some (Miss seq mask_empty))
          else search_loop fuel c key hash (ps_next W seq)
      end
  end.

Definition find_non_soo c (key : K) (hash : Z) : outcome (option iterator) :=
  do r <- search_loop (ngroups W (capacity_ c)) c key hash (cf_probe c hash);
  Ret (match r with Some (Hit i) => Some (At i) | Some (Miss _ _) => Some End | None => None end).

Definition find c (key : K) : outcome (option iterator) := find_non_soo c key (Hash key).

Definition contains c (key : K) : outcome (option bool) :=
  do r <- find c key; Ret ((fun it => match it with At _ => true | End => false end) <$> r).

Definition count c (key : K) : outcome (option Z) :=
  do r <- find c key; Ret ((fun it => match it with At _ => 1 | End => 0 end) <$> r).

(** ** Resizing *)

Section resize.
Context {Cc : RawHashSetCc V}.

(** [InitializeSlots]: a new array; whether the old one fits its first group. *)
Definition InitializeSlots (old c : CommonFields V) : CommonFields V * bool :=
  let layout := RawHashSetLayout_new W sizeof_infoz 0 (capacity_ c) slot_align false in
  let mem := Allocate (cf_allocs c) in
  let c := mkCommon (capacity_ c) (size_ c) (mem + rl_control_offset layout) []
    (replicate (Z.to_nat (capacity_ c)) None) (growth_info c) (S (cf_allocs c)) in
  let c := ResetGrowthLeft c in
  let grow_single_group := IsGrowingIntoSingleGroupApplicable W (capacity_ old) (rl_capacity layout) in
  if negb (capacity_ old =? 0) && grow_single_group then
    (set_control c (GrowIntoSingleGroupShuffleControlBytes (control old) (capacity_ old) (rl_capacity layout)),
     grow_single_group)
  else (ResetCtrl c, grow_single_group).

(** The bits of the index that are flipped when a table grows inside one
    group. *)
Definition shuffle_bit (old_capacity : Z) : Z := old_capacity / 2 + 1.

Definition grow_slot (old : CommonFields V) (i : nat) c : outcome (CommonFields V) :=
  do b <- ctrl_byte old (Z.of_nat i);
  if IsFull b then
    do v <- slot_at old (Z.of_nat i);
    Ret (set_slot c (Z.lxor (Z.of_nat i) (shuffle_bit (capacity_ old))) (Some v))
  else Ret c.

Definition GrowSizeIntoSingleGroup (old c : CommonFields V) : outcome (CommonFields V) :=
  ofold (grow_slot old) (seq 0 (Z.to_nat (capacity_ old))) c.

(** The lambda [insert_slot] of [resize_impl]. *)
Definition insert_slot (v : V) c : outcome (CommonFields V) :=
  let hash := Hash (key_of v) in
  do target <- find_first_non_full c hash;
  match target with
  | None => UB
  | Some target =>
      do c <- SetCtrl c (fi_offset target) (hash_H2 hash);
      Ret (set_slot c (fi_offset target) (Some v))
  end.

Definition rehash_slot (old : CommonFields V) (i : nat) c : outcome (CommonFields V) :=
  do b <- ctrl_byte old (Z.of_nat i);
  if IsFull b then do v <- slot_at old (Z.of_nat i); insert_slot v c else Ret c.

Definition resize_impl c (new_capacity : Z) : outcome (CommonFields V) :=
  let old := c in
  let '(c, grow_single_group) := InitializeSlots old (set_capacity c new_capacity) in
  if capacity_ old =? 0 then Ret c
  else if grow_single_group then GrowSizeIntoSingleGroup old c
  else ofold (rehash_slot old) (seq 0 (Z.to_nat (capacity_ old))) c.

Definition raw_hash_set_new (bucket_count : Z) : outcome (CommonFields V) :=
  if 0 <? bucket_count then resize_impl CommonFields_new (NormalizeCapacity bucket_count)
  else Ret CommonFields_new.

Definition reserve c (n : Z) : outcome (CommonFields V) :=
  let max_size_before_growth := u64 (size c + GetGrowthLeft (growth_info c)) in
  if max_size_before_growth <? n then resize_impl c (NormalizeCapacity (GrowthToLowerboundCapacity W n))
  else Ret c.

Definition rehash c (n : Z) : outcome (CommonFields V) :=
  let cap := capacity_ c in
  if (n =? 0) && (cap =? 0) then Ret c
  else if (n =? 0) && empty c then Ret (ClearBackingArray c false)
  else
    let m := NormalizeCapacity (Z.lor n (GrowthToLowerboundCapacity W (size c))) in
    if (n =? 0) || (cap <? m) then resize_impl c m else Ret c.

(** ** Insertion, erasure, clearing *)

Definition find_or_prepare_insert_non_soo c (key : K) : outcome (option (CommonFields V * Z * bool)) :=
  let hash := Hash key in
  do r <- search_loop (ngroups W (capacity_ c)) c key hash (cf_probe c hash);
  match r with
  | None => Ret None
  | Some (Hit i) => Ret (Some (c, i, false))
  | Some (Miss seq mask_empty) =>
      do i <- GetInsertionOffset mask_empty;
      do p <- PrepareInsertNonSoo c hash (mkFound (ps_offset_i seq i) (ps_index seq));
      Ret ((fun '(c, i) => (c, i, true)) <$> p)
  end.

(** [EmplaceDecomposable], with the object constructed in the slot. *)
Definition emplace c (v : V) : outcome (option (CommonFields V * iterator * bool)) :=
  do r <- find_or_prepare_insert_non_soo c (key_of v);
  Ret ((fun '(c, i, inserted) =>
    if inserted : bool then (set_slot c i (Some v), At i, true) else (c, At i, false)) <$> r).

(** [erase(iterator)]: the object is destroyed, then its control byte. *)
Definition erase_at c (i : Z) : outcome (CommonFields V) :=
  do _ <- slot_at c i; Ret (EraseMetaOnly (set_slot c i None) i).

Definition erase c (key : K) : outcome (option (CommonFields V * Z)) :=
  do r <- find c key;
  match r with
  | None => Ret None
  | Some End => Ret (Some (c, 0))
  | Some (At i) => do c <- erase_at c i; Ret (Some (c, 1))
  end.

(** ** Iteration *)

(** [IterateOverFullSlots]: the positions the callback gets.  In a small
    table the group starts at the sentinel, so that an index is one more than
    its slot. *)
Fixpoint full_groups (fuel : nat) c (pos remaining : Z) : outcome (option (list Z)) :=
  if remaining =? 0 then Ret (Some [])
  else match fuel with
  | O => Ret None
  | S fuel =>
      do g <- load_group c pos;
      do l <- bm_list (MaskFull GroupFullEmptyOrDeleted g);
      do r <- full_groups fuel c (pos + W) (u64 (remaining - Z.of_nat (length l)));
      Ret (app (Z.add pos <$> l) <$> r)
  end.

Definition IterateOverFullSlots c : outcome (option (list Z)) :=
  let cap := capacity_ c in
  if is_small W cap then
    do g <- load 8 (control c) cap;
    do l <- bm_list (MaskFull GroupPortableImpl g);
    Ret (Some ((fun i => i - 1) <$> l))
  else full_groups (ngroups W cap) c 0 (size c).

(** [destroy_slots]: each object is destroyed once. *)
Definition destroy_slot (i : Z) c : outcome (CommonFields V) := do _ <- slot_at c i; Ret (set_slot c i None).

Definition destroy_slots c : outcome (option (CommonFields V)) :=
  do l <- IterateOverFullSlots c;
  match l with
  | None => Ret None
  | Some l => do c <- ofold destroy_slot l c; Ret (Some c)
  end.

Definition clear c : outcome (option (CommonFields V)) :=
  let cap := capacity_ c in
  if cap =? 0 then Ret (Some c)
  else
    do r <- destroy_slots c;
    Ret ((fun c => ClearBackingArray c (cap <? 128)) <$> r).

(** [skip_empty_or_deleted] from position [i]. *)
Fixpoint skip_empty_or_deleted (fuel : nat) c (i : Z) : outcome (option Z) :=
  match fuel with
  | O => Ret None
  | S fuel =>
      do b <- ctrl_byte c i;
      if IsEmptyOrDeleted b then
        do g <- load_group c i;
        do shift <- CountLeadingEmptyOrDeleted GroupFullEmptyOrDeleted g;
        skip_empty_or_deleted fuel c (i + shift)
      else Ret (Some i)
  end.

Definition skip_fuel c : nat := S (S (Z.to_nat (capacity_ c))).

Definition begin c : outcome (option iterator) :=
  if empty c then Ret (Some End)
  else do r <- skip_empty_or_deleted (skip_fuel c) c 0; Ret (At <$> r).

(** [operator++] of an iterator that is not [end()]. *)
Definition it_next c (i : Z) : outcome (option iterator) :=
  do r <- skip_empty_or_deleted (skip_fuel c) c (i + 1);
  match r with
  | None => Ret None
  | Some i => do b <- ctrl_byte c i; Ret (Some (if b =? kSentinel then End else At i))
  end.

(** [for (it = begin(); it != end(); ++it)]: the slots in order. *)
Fixpoint for_each (fuel : nat) c (it : iterator) : outcome (option (list V)) :=
  match it with
  | End => Ret (Some [])
  | At i =>
      match fuel with
      | O => Ret None
      | S fuel =>
          do v <- slot_at c i;
          do it <- it_next c i;
          match it with
          | None => Ret None
          | Some it => do l <- for_each fuel c it; Ret (cons v <$> l)
          end
      end
  end.

Definition range_for c : outcome (option (list V)) :=
  do it <- begin c;
  match it with
  | None => Ret None
  | Some it => for_each (Z.to_nat (capacity_ c)) c it
  end.

End resize.
End table.

(** ** A table in order *)

(** The number of bytes that pass a test. *)
Fixpoint tally (f : Z -> bool) (l : list Z) : Z :=
  match l with [] => 0 | c :: l => (if f c then 1 else 0) + tally f l end.

Lemma tally_insert f l i a b :
  l !! i = Some a ->
  tally f (<[i := b]> l) = tally f l - (if f a then 1 else 0) + (if f b then 1 else 0).
Proof.
  revert i. induction l as [|c l IH]; intros [|i]; [done..| |].
  - intros [= ->]. change (<[0%nat := b]> (a :: l)) with (b :: l). cbn [tally]. lia.
  - intros Hi. change (<[S i := b]> (c :: l)) with (c :: <[i := b]> l). cbn [tally]. rewrite (IH i Hi). lia.
Qed.

Lemma tally_range f l : 0 <= tally f l <= Z.of_nat (length l).
Proof. induction l as [|c l IH]; simpl tally; [simpl; lia|]. cbn [length]. destruct (f c); lia. Qed.

Lemma tally_pos f l : 0 < tally f l -> exists i c, l !! i = Some c /\ f c = true.
Proof.
  induction l as [|c l IH]; simpl; [lia|]. destruct (f c) eqn:E; [by exists 0%nat, c|].
  intros H. destruct (IH ltac:(lia)) as (i & c' & Hi & Hc). by exists (S i), c'.
Qed.

Lemma tally_replicate f n c : tally f (replicate n c) = if f c then Z.of_nat n else 0.
Proof. induction n as [|n IH]; simpl; [by destruct (f c)|]. rewrite IH. destruct (f c); lia. Qed.

(** Every slot byte is full, deleted or empty. *)
Lemma tally_all l : Forall slot_byte l ->
  tally IsFull l + tally IsDeleted l + tally IsEmpty l = Z.of_nat (length l).
Proof.
  induction 1 as [|c l [Hc Hs] _ IH]; [done|]. simpl tally. cbn [length].
  assert ((if IsFull c then 1 else 0) + (if IsDeleted c then 1 else 0) + (if IsEmpty c then 1 else 0) = 1).
  { destruct Hc as [-> | [-> | [-> | Hc]]]; [done..|].
    unfold IsFull, IsDeleted, IsEmpty, kDeleted, kEmpty.
    destruct (Z.leb_spec 0 c), (Z.eqb_spec c (-2)), (Z.eqb_spec c (-128)); lia. }
  lia.
Qed.

(** A loop over indices keeps what each step keeps. *)
Lemma ofold_seq {S} (f : nat -> S -> outcome S) (I : nat -> S -> Prop) j k s :
  (forall i s, (j <= i < j + k)%nat -> I i s -> exists s', f i s = Ret s' /\ I (Datatypes.S i) s') ->
  I j s -> exists s', ofold f (seq j k) s = Ret s' /\ I (j + k)%nat s'.
Proof.
  revert j s. induction k as [|k IH]; intros j s Hf Hs; cbn [seq ofold].
  - exists s. by rewrite Nat.add_0_r.
  - destruct (Hf j s ltac:(lia) Hs) as (s1 & -> & H1). cbn [obind].
    destruct (IH (Datatypes.S j) s1) as (s2 & E & H2); [intros; apply Hf; [lia|done]|done|].
    exists s2. split; [done|]. by rewrite <- Nat.add_succ_comm.
Qed.

Section invariant.
Context {K V : Type} `{P : Policy K V} {Gs : Groups}.
Implicit Types (c : CommonFields V) (real : list Z).
Abbreviation W := (kWidth Group).

(** The offset of the [k]th group for a hash, and what a group shows. *)
Definition group_offset c (hash : Z) (k : nat) : Z :=
  ps_offset (probe_at W (hash_H1 hash (control_at c)) (capacity_ c) k).

Definition has_empty c (o : Z) : Prop :=
  exists i, 0 <= i < W /\ control c !! (Z.to_nat o + Z.to_nat i)%nat = Some kEmpty.

(** Slot [p] lies in the group at [o]. *)
Definition covers c (o p : Z) : Prop :=
  exists i, 0 <= i < W /\ i <= capacity_ c /\ (o + i) mod (capacity_ c + 1) = p.

(** The probe sequence of the hash meets slot [p] before any empty byte. *)
Definition reaches c (hash p : Z) : Prop :=
  exists k, covers c (group_offset c hash k) p /\ forall j, (j < k)%nat -> ~ has_empty c (group_offset c hash j).

(** The object of a slot. *)
Definition holds c (p : Z) (v : V) : Prop := 0 <= p /\ slot_array c !! Z.to_nat p = Some (Some v).

Record in_order (m : Z) c real : Prop := {
  io_m : 0 <= m <= 56;
  io_cap : capacity_ c = capacity_of m;
  io_len : Z.of_nat (length real) = capacity_of m;
  io_ctrl : control c = layout W real;
  io_bytes : Forall slot_byte real;
  io_slots : length (slot_array c) = length real;
  io_full : forall i b, real !! i = Some b ->
    match slot_array c !! i with
    | Some (Some v) => b = hash_H2 (Hash (key_of v))
    | _ => IsFull b = false
    end;
  io_reach : forall p v, holds c p v -> reaches c (Hash (key_of v)) p;
  io_keys : forall p q v w, holds c p v -> holds c q w -> Eq (key_of v) (key_of w) = true -> p = q;
}.

(** The bookkeeping on top: the size, the growth that is left, the flag for
    tombstones, of which a single group has none. *)
Record wf (m : Z) c real : Prop := {
  wf_order : in_order m c real;
  wf_size : size_ c = 2 * tally IsFull real;
  wf_growth : exists left deleted, growth_info c = ginfo left deleted /\ 0 <= left /\
    left + tally IsFull real + tally IsDeleted real = CapacityToGrowth W (capacity_of m) /\
    (deleted = false -> tally IsDeleted real = 0);
  wf_single : is_single_group W (capacity_of m) = true -> tally IsDeleted real = 0;
}.

Definition contents c : list V := omap id (slot_array c).

Context {GL : GroupsLaws Gs}.

Lemma W_bytes : W = Z.of_nat group_bytes.
Proof. apply group_width. Qed.
Lemma W_ok : group_width_ok W.
Proof. rewrite W_bytes. destruct (group_size (G := Group)) as [-> | ->]; [by left|by right]. Qed.
Lemma W_nat : Z.to_nat W = group_bytes.
Proof. rewrite W_bytes. lia. Qed.
Lemma W_pos : 8 <= W <= 16.
Proof. destruct W_ok; lia. Qed.

Lemma hash_H2_range h : 0 <= hash_H2 h < 128.
Proof.
  unfold hash_H2. change 0x7F with (Z.ones 7). rewrite Z.land_ones by lia. apply Z.mod_pos_bound. lia.
Qed.

Lemma full_iff c real m i b : in_order m c real -> real !! i = Some b ->
  IsFull b = true <-> exists v, slot_array c !! i = Some (Some v).
Proof.
  intros Ho Hi. pose proof (io_full _ _ _ Ho i b Hi) as Hf. split.
  - intros Hb. destruct (slot_array c !! i) as [[v|]|] eqn:E; [by exists v|congruence..].
  - intros [v Hv]. rewrite Hv in Hf. subst b. unfold IsFull. pose proof (hash_H2_range (Hash (key_of v))). lia.
Qed.

Section ordered.
Context (m : Z) (c : CommonFields V) (real : list Z) (Ho : in_order m c real).

Lemma cap_pow : 2 ^ m = capacity_ c + 1.
Proof. rewrite (io_cap _ _ _ Ho). unfold capacity_of. lia. Qed.

Lemma cap_len : capacity_ c = Z.of_nat (length real).
Proof. rewrite (io_cap _ _ _ Ho). symmetry. apply (io_len _ _ _ Ho). Qed.

Lemma group_offset_range hash k : 0 <= group_offset c hash k <= capacity_ c.
Proof.
  unfold group_offset. rewrite (io_cap _ _ _ Ho). apply probe_offset_range, (io_m _ _ _ Ho).
Qed.

(** The state of the probe after [k] steps. *)
Lemma probe_state hash k (s := probe_at W (hash_H1 hash (control_at c)) (capacity_ c) k) :
  ps_offset s = group_offset c hash k /\
  (forall i, ps_offset_i s i = (group_offset c hash k + i) mod (capacity_ c + 1)) /\
  ps_next W s = probe_at W (hash_H1 hash (control_at c)) (capacity_ c) (S k).
Proof.
  split; [done|]. split; [|done]. intros i. unfold group_offset. rewrite <- cap_pow.
  rewrite (ps_offset_i_spec m) by (apply (io_m _ _ _ Ho) || (unfold s; rewrite (io_cap _ _ _ Ho), probe_at_spec; [done|apply (io_m _ _ _ Ho)])).
  done.
Qed.

Lemma load_at o : 0 <= o <= capacity_ c -> exists g,
  load_group c o = Ret g /\ window group_bytes g /\
  forall i, (i < group_bytes)%nat -> g !! i = control c !! (Z.to_nat o + i)%nat.
Proof.
  intros Hr. unfold load_group. rewrite (io_ctrl _ _ _ Ho). rewrite cap_len in Hr.
  destruct (load_layout W W_ok real o (io_bytes _ _ _ Ho) Hr) as (g & E & Hw & Hg).
  rewrite W_nat in E, Hw, Hg |- *. eauto.
Qed.

Lemma byte_cases o i b :
  0 <= o <= capacity_ c -> 0 <= i < W -> control c !! (Z.to_nat o + Z.to_nat i)%nat = Some b ->
  (o + i = capacity_ c /\ b = kSentinel) \/
  (exists p, 0 <= p < capacity_ c /\ p = (o + i) mod (capacity_ c + 1) /\ real !! Z.to_nat p = Some b) \/
  (2 * capacity_ c + 1 <= o + i /\ b = kEmpty).
Proof.
  rewrite (io_ctrl _ _ _ Ho), <- cap_pow, (io_cap _ _ _ Ho). intros Hr Hi Hb.
  by apply (layout_byte W W_ok m real o i b (io_m _ _ _ Ho) (io_len _ _ _ Ho)).
Qed.

Lemma byte_of_slot o p : 0 <= o <= capacity_ c -> covers c o p -> p < capacity_ c ->
  exists i, 0 <= i < W /\ i <= capacity_ c /\ (o + i) mod (capacity_ c + 1) = p /\
    control c !! (Z.to_nat o + Z.to_nat i)%nat = real !! Z.to_nat p.
Proof.
  intros Hr (i & Hi & Hic & <-) Hp. exists i. split_and!; try lia.
  rewrite (io_ctrl _ _ _ Ho). rewrite <- cap_pow in Hp |- *. rewrite (io_cap _ _ _ Ho) in Hr, Hic, Hp.
  pose proof (io_m _ _ _ Ho). pose proof (io_len _ _ _ Ho). by apply (layout_shows W W_ok m).
Qed.

Lemma groups_cover hash p : 0 <= p <= capacity_ c -> exists k,
  (k < ngroups W (capacity_ c))%nat /\ covers c (group_offset c hash k) p.
Proof.
  intros Hp. rewrite (io_cap _ _ _ Ho) in Hp.
  destruct (probe_covers W m W_ok (io_m _ _ _ Ho) (hash_H1 hash (control_at c)) p Hp) as (k & i & Hk & Hi & Hic & E).
  rewrite <- (io_cap _ _ _ Ho) in Hk, E, Hic. exists k. split; [done|]. exists i. rewrite <- cap_pow. split_and!; [lia..|done].
Qed.

Lemma holds_range p v : holds c p v -> 0 <= p < capacity_ c.
Proof.
  intros [Hp Hv]. apply lookup_lt_Some in Hv. rewrite (io_slots _ _ _ Ho) in Hv. rewrite cap_len. lia.
Qed.

Lemma holds_byte p v : holds c p v -> real !! Z.to_nat p = Some (hash_H2 (Hash (key_of v))).
Proof.
  intros Hv. pose proof (holds_range p v Hv) as Hr. rewrite cap_len in Hr.
  destruct (lookup_lt_is_Some_2 real (Z.to_nat p) ltac:(lia)) as [b Hb]. rewrite Hb.
  pose proof (io_full _ _ _ Ho _ _ Hb) as Hf. destruct Hv as [_ Hv]. rewrite Hv in Hf. by subst.
Qed.

(** Every group of a small table shows an empty byte behind the clones. *)
Lemma small_has_empty o : capacity_ c < W - 1 -> 0 <= o <= capacity_ c -> has_empty c o.
Proof.
  intros Hs Hr. exists (W - 1). split; [pose proof W_pos; lia|].
  rewrite (io_ctrl _ _ _ Ho), layout_lookup by (apply W_ok || (rewrite cap_len in Hr; pose proof W_pos; lia)).
  assert (Hm3 : 2 * capacity_ c + 1 <= W - 1).
  { pose proof (io_m _ _ _ Ho). rewrite (io_cap _ _ _ Ho) in Hs |- *.
    assert (m < 4). { destruct (Z.lt_ge_cases m 4) as [|Hge]; [done|]. pose proof (Z.pow_le_mono_r 2 4 m). unfold capacity_of in Hs. pose proof W_pos. lia. }
    assert (m = 0 \/ m = 1 \/ m = 2 \/ m = 3) as [Em|[Em|[Em|Em]]] by lia; subst m; unfold capacity_of in *;
      destruct W_ok as [E|E]; rewrite E in *; lia. }
  rewrite cap_len in Hm3, Hr, Hs. pose proof W_pos.
  destruct (Nat.ltb_spec (Z.to_nat o + Z.to_nat (W - 1)) (length real)); [lia|].
  destruct (Nat.eqb_spec (Z.to_nat o + Z.to_nat (W - 1)) (length real)); [lia|].
  destruct (Nat.ltb_spec (Z.to_nat o + Z.to_nat (W - 1) - length real - 1) (length real)); [lia|done].
Qed.

(** So does every group that an empty slot lies in. *)
Lemma slot_has_empty o i :
  0 <= o <= capacity_ c -> real !! i = Some kEmpty -> covers c o (Z.of_nat i) -> has_empty c o.
Proof.
  intros Hr Hi Hc. pose proof (lookup_lt_Some _ _ _ Hi) as Hl.
  destruct (byte_of_slot _ _ Hr Hc) as (j & Hj & _ & _ & E); [rewrite cap_len; lia|].
  exists j. split; [done|]. by rewrite E, Nat2Z.id.
Qed.

(** In a table with a free slot, or a small one, some group has an empty byte. *)
Lemma some_empty hash :
  (exists i, real !! i = Some kEmpty) \/ capacity_ c < W - 1 ->
  exists k, (k < ngroups W (capacity_ c))%nat /\ has_empty c (group_offset c hash k).
Proof.
  intros [[i Hi]|Hs].
  - pose proof (lookup_lt_Some _ _ _ Hi) as Hl.
    destruct (groups_cover hash (Z.of_nat i)) as (k & Hk & Hc); [rewrite cap_len; lia|].
    exists k. split; [done|]. by apply (slot_has_empty _ i); [apply group_offset_range| |].
  - exists 0%nat. split; [unfold ngroups; lia|]. by apply small_has_empty, group_offset_range.
Qed.
End ordered.

(** ** Lookup *)

Context {PL : PolicyLaws P}.

Lemma slot_at_holds c p v : holds c p v -> slot_at c p = Ret v.
Proof. intros [_ Hv]. unfold slot_at. by rewrite Hv. Qed.

Lemma match_loop_spec c key s l :
  (forall i, i ∈ l -> exists v, holds c (ps_offset_i s i) v) ->
  exists r, match_loop c key s l = Ret r /\
    match r with
    | Some p => exists v, holds c p v /\ Eq key (key_of v) = true
    | None => forall i v, i ∈ l -> holds c (ps_offset_i s i) v -> Eq key (key_of v) = false
    end.
Proof.
  induction l as [|i l IH]; intros Hl.
  - exists None. split; [done|]. by intros i v ?%not_elem_of_nil.
  - destruct (Hl i ltac:(left)) as [v Hv]. cbn [match_loop]. rewrite (slot_at_holds _ _ _ Hv). cbn [obind].
    destruct (Eq key (key_of v)) eqn:E; [by eexists; split; [done|]; exists v|].
    destruct IH as (r & Er & Hr); [intros; apply Hl; by right|]. exists r. split; [done|].
    destruct r; [done|]. intros j w [-> | Hj]%elem_of_cons Hw; [|by eapply Hr].
    destruct Hv as [_ Hv], Hw as [_ Hw]. rewrite Hv in Hw. by injection Hw as <-.
Qed.

Section search.
Context (m : Z) (c : CommonFields V) (real : list Z) (Ho : in_order m c real) (key : K).
Abbreviation hash := (Hash key).
Abbreviation offset := (group_offset c hash).

(** A test that holds of a byte of the group at [o]. *)
Lemma group_test o g f :
  0 <= o <= capacity_ c -> window group_bytes g ->
  (forall i, (i < group_bytes)%nat -> g !! i = control c !! (Z.to_nat o + i)%nat) ->
  existsb f g = true <-> exists i b, 0 <= i < W /\ control c !! (Z.to_nat o + Z.to_nat i)%nat = Some b /\ f b = true.
Proof.
  intros Hr [Hlen _] Hg. rewrite existsb_exists. split.
  - intros (b & [i Hi]%list_elem_of_In%list_elem_of_lookup & Hb).
    pose proof (lookup_lt_Some _ _ _ Hi) as Hl. rewrite Hlen in Hl.
    exists (Z.of_nat i), b. rewrite Nat2Z.id, <- Hg by done. rewrite W_bytes. split_and!; [lia..|done|done].
  - intros (i & b & Hi & Hb & Hf). exists b. split; [|done]. apply list_elem_of_In, list_elem_of_lookup.
    exists (Z.to_nat i). rewrite W_bytes in Hi. rewrite Hg by lia. done.
Qed.

(** What one group tells. *)
Lemma search_step k (s := probe_at W (hash_H1 hash (control_at c)) (capacity_ c) k) :
  exists g l r, load_group c (ps_offset s) = Ret g /\ window group_bytes g /\
    (forall i, (i < group_bytes)%nat -> g !! i = control c !! (Z.to_nat (offset k) + i)%nat) /\
    bm_list (Match Group g (hash_H2 hash)) = Ret l /\ match_loop c key s l = Ret r /\
    match r with
    | Some p => exists v, holds c p v /\ Eq key (key_of v) = true
    | None => forall p v, covers c (offset k) p -> holds c p v -> Eq key (key_of v) = false
    end /\
    (bm_bool (MaskEmpty Group g) = true <-> has_empty c (offset k)).
Proof.
  destruct (probe_state m c real Ho hash k) as (Es & Ei & _). fold s in Es, Ei. rewrite Es.
  pose proof (group_offset_range m c real Ho hash k) as Hr.
  destruct (load_at m c real Ho (offset k) Hr) as (g & Eg & Hw & Hg). exists g.
  destruct (match_list (G := Group) g (hash_H2 hash) Hw (hash_H2_range hash)) as (l & El & Hfull & Hall & _).
  assert (Hpos : forall i, i ∈ l -> exists v, holds c (ps_offset_i s i) v).
  { intros i Hi. destruct (Hfull i Hi) as (b & Hi0 & Hb & Hb0).
    pose proof (lookup_lt_Some _ _ _ Hb) as Hlt. rewrite (proj1 Hw) in Hlt.
    rewrite Hg in Hb by done. rewrite Ei.
    destruct (byte_cases m c real Ho (offset k) i b Hr) as [[_ ->]|[(p & Hp & <- & Hpb)|[_ ->]]];
      [rewrite W_bytes; lia|done|done| |done].
    destruct (proj1 (full_iff c real m _ b Ho Hpb)) as [v Hv]; [unfold IsFull; lia|]. exists v. split; [lia|done]. }
  destruct (match_loop_spec c key s l Hpos) as (r & Er & Hr').
  exists l, r. split_and!; try done.
  - destruct r; [done|]. intros p v Hc Hv. pose proof (holds_range m c real Ho p v Hv) as Hp.
    destruct (byte_of_slot m c real Ho (offset k) p Hr Hc ltac:(lia)) as (i & Hi & Hic & Emod & Eb).
    destruct (Eq key (key_of v)) eqn:Ek; [|done]. exfalso.
    rewrite (holds_byte m c real Ho p v Hv), <- (Eq_hash _ _ Ek) in Eb.
    rewrite W_bytes in Hi. specialize (Hall (Z.to_nat i)). rewrite Hg in Hall by lia. specialize (Hall Eb).
    rewrite Z2Nat.id in Hall by lia. assert (Eq key (key_of v) = false); [|congruence].
    apply (Hr' i); [done|]. by rewrite Ei, Emod.
  - destruct (shows_test _ _ _ (empty_shows (G := Group) g Hw)) as [-> _].
    rewrite (group_test (offset k) g IsEmpty Hr Hw Hg). unfold has_empty. split.
    + intros (i & b & Hi & Hb & Hf). exists i. split; [done|]. rewrite Hb. f_equal. unfold IsEmpty in Hf. lia.
    + intros (i & Hi & Hb). exists i, kEmpty. done.
Qed.

(** The search ends at the key, or, when no slot has it, at the first group
    with an empty byte. *)
Definition search_result (r : search) : Prop :=
  match r with
  | Hit p => exists v, holds c p v /\ Eq key (key_of v) = true
  | Miss s mask => (forall p v, holds c p v -> Eq key (key_of v) = false) /\
      exists k g, s = probe_at W (hash_H1 hash (control_at c)) (capacity_ c) k /\
        (forall j, (j < k)%nat -> ~ has_empty c (offset j)) /\ has_empty c (offset k) /\
        window group_bytes g /\ mask = MaskEmpty Group g /\
        (forall i, (i < group_bytes)%nat -> g !! i = control c !! (Z.to_nat (offset k) + i)%nat)
  end.

Lemma search_loop_spec fuel k :
  (forall j, (j < k)%nat -> ~ has_empty c (offset j)) ->
  (forall j p v, (j < k)%nat -> covers c (offset j) p -> holds c p v -> Eq key (key_of v) = false) ->
  (exists e, (k <= e < k + fuel)%nat /\ has_empty c (offset e)) ->
  exists r, search_loop fuel c key hash (probe_at W (hash_H1 hash (control_at c)) (capacity_ c) k) = Ret (Some r) /\
    search_result r.
Proof.
  revert k. induction fuel as [|fuel IH]; intros k Hne Hmiss (e & He & Hee); [lia|]. cbn [search_loop].
  destruct (search_step k) as (g & l & r & -> & Hw & Hg & El & Er & Hr & Hem).
  cbn [obind]. rewrite El. cbn [obind]. rewrite Er. cbn [obind].
  destruct r as [p|]; [by exists (Hit p)|].
  assert (Hmiss' : forall j p v, (j < S k)%nat -> covers c (offset j) p -> holds c p v -> Eq key (key_of v) = false).
  { intros j p v Hj. destruct (Nat.eq_dec j k) as [->|]; [apply Hr|]. apply Hmiss. lia. }
  destruct (bm_bool (MaskEmpty Group g)) eqn:Eb.
  - eexists. split; [done|]. split.
    + intros p v Hv. destruct (Eq key (key_of v)) eqn:Ek; [|done].
      destruct (io_reach _ _ _ Ho p v Hv) as (k' & Hc & Hk'). rewrite <- (Eq_hash _ _ Ek) in Hc, Hk'.
      destruct (Nat.lt_ge_cases k k') as [Hlt|Hle]; [destruct (Hk' k Hlt); by apply Hem|].
      rewrite <- Ek. apply (Hmiss' k' p v); [lia|done|done].
    + exists k, g. split_and!; try done. by apply Hem.
  - destruct (probe_state m c real Ho hash k) as (_ & _ & ->). apply IH; [|done|].
    + intros j Hj. destruct (Nat.eq_dec j k) as [->|]; [|apply Hne; lia]. rewrite <- Hem. congruence.
    + exists e. split; [|done]. destruct (Nat.eq_dec e k) as [->|]; [|lia].
      apply Hem in Hee. congruence.
Qed.

Lemma search_spec :
  (exists i, real !! i = Some kEmpty) \/ capacity_ c < W - 1 ->
  exists r, search_loop (ngroups W (capacity_ c)) c key hash (cf_probe c hash) = Ret (Some r) /\ search_result r.
Proof.
  intros He. destruct (some_empty m c real Ho hash He) as (k & Hk & Hek).
  apply (search_loop_spec _ 0); [lia|lia|]. exists k. split; [lia|done].
Qed.

Lemma find_in_order :
  (exists i, real !! i = Some kEmpty) \/ capacity_ c < W - 1 ->
  exists it, find c key = Ret (Some it) /\
    match it with
    | At p => exists v, holds c p v /\ Eq key (key_of v) = true
    | End => forall p v, holds c p v -> Eq key (key_of v) = false
    end.
Proof.
  intros He. destruct (search_spec He) as (r & E & Hr). unfold find, find_non_soo. rewrite E.
  destruct r as [p|s mask]; eexists; (split; [done|]); [done|exact (proj1 Hr)].
Qed.
End search.

(** A table in order with its books balanced has one. *)
Lemma wf_some_empty m c real : wf m c real ->
  (exists i, real !! i = Some kEmpty) \/ capacity_ c < W - 1.
Proof.
  intros [Ho _ (left & del & _ & Hl & Hb & _) _]. rewrite (io_cap _ _ _ Ho).
  destruct (Z.lt_ge_cases (capacity_of m) (W - 1)) as [|Hge]; [by right|left].
  pose proof (proj2 (proj2 (growth_bounds W m W_ok (io_m _ _ _ Ho))) Hge) as Hg.
  pose proof (tally_all real (io_bytes _ _ _ Ho)) as Ht. rewrite (io_len _ _ _ Ho) in Ht.
  destruct (tally_pos IsEmpty real ltac:(lia)) as (i & b & Hi & Hb'). exists i. rewrite Hi.
  f_equal. unfold IsEmpty in Hb'. lia.
Qed.

(** ** A place for an element *)

Section place.
Context (m : Z) (c : CommonFields V) (real : list Z) (Ho : in_order m c real).

(** The lowest byte of a group that passes a test is that of a slot, when
    some slot passes the test. *)
Lemma lowest_is_slot o g f i l :
  0 <= o <= capacity_ c -> window group_bytes g ->
  (forall i, (i < group_bytes)%nat -> g !! i = control c !! (Z.to_nat o + i)%nat) ->
  f kSentinel = false -> positions f g = i :: l ->
  (exists q b, real !! q = Some b /\ f b = true) ->
  let p := (o + i) mod (capacity_ c + 1) in
  0 <= p < capacity_ c /\ covers c o p /\ exists b, real !! Z.to_nat p = Some b /\ f b = true.
Proof.
  intros Hr Hw Hg Hs El (q & bq & Hq & Hfq) p.
  pose proof (set_positions_head _ _ _ _ El) as Hlow.
  assert (Hin : forall j b, 0 <= j < W -> control c !! (Z.to_nat o + Z.to_nat j)%nat = Some b -> f b = true -> i <= j).
  { intros j b Hj Hb Hf. apply Hlow. rewrite <- El. apply positions_elem. exists b. split; [lia|].
    rewrite W_bytes in Hj. by rewrite Hg by lia. }
  assert (Hcap : 0 < capacity_ c + 1) by lia.
  (* a slot that passes, seen from this group, is not below [i] *)
  assert (Hslot : forall p b, 0 <= p < capacity_ c -> real !! Z.to_nat p = Some b -> f b = true ->
    (p - o) mod (capacity_ c + 1) < W -> i <= (p - o) mod (capacity_ c + 1)).
  { intros p' b Hp Hb Hf Hlt. pose proof (Z.mod_pos_bound (p' - o) _ Hcap) as Hm.
    assert (Emod : (o + (p' - o) mod (capacity_ c + 1)) mod (capacity_ c + 1) = p').
    { rewrite Zplus_mod_idemp_r. replace (o + (p' - o)) with p' by lia. apply Z.mod_small. lia. }
    destruct (byte_of_slot m c real Ho o p' Hr) as (j & Hj & Hjc & Ej & Eb);
      [exists ((p' - o) mod (capacity_ c + 1)); split_and!; [lia..|done]|lia|].
    rewrite Hb in Eb. assert (j = (p' - o) mod (capacity_ c + 1)) as ->; [|by eapply Hin].
    rewrite <- Ej, Zminus_mod_idemp_l. replace (o + j - o) with j by lia. symmetry. apply Z.mod_small. lia. }
  assert (Hi : i ∈ positions f g) by (rewrite El; left).
  apply positions_elem in Hi as (b & Hi0 & Hb & Hf). pose proof (lookup_lt_Some _ _ _ Hb) as Hlt.
  rewrite (proj1 Hw) in Hlt. rewrite Hg in Hb by done.
  assert (HiW : 0 <= i < W) by (rewrite W_bytes; lia).
  destruct (byte_cases m c real Ho o i b Hr HiW Hb) as [[_ ->]|[(p' & Hp & Ep & Hpb)|[Hdummy ->]]]; [congruence| |].
  - fold p in Ep. subst p'. split; [done|]. split; [|by exists b].
    assert (Hm : (p - o) mod (capacity_ c + 1) = i mod (capacity_ c + 1)).
    { unfold p. rewrite Zminus_mod_idemp_l. f_equal. lia. }
    assert (i mod (capacity_ c + 1) <= i) by (apply Z.mod_le; lia).
    specialize (Hslot p b Hp Hpb Hf ltac:(lia)). pose proof (Z.mod_pos_bound i _ Hcap).
    exists i. split_and!; [lia..|done].
  - exfalso. pose proof (lookup_lt_Some _ _ _ Hq) as Hql.
    assert (Hcl : capacity_ c = Z.of_nat (length real)) by apply (cap_len m c real Ho).
    pose proof (Z.mod_pos_bound (Z.of_nat q - o) _ Hcap) as Hm.
    specialize (Hslot (Z.of_nat q) bq ltac:(lia)). rewrite Nat2Z.id in Hslot.
    specialize (Hslot Hq Hfq ltac:(lia)). lia.
Qed.

Definition has_special (o : Z) : Prop :=
  exists i b, 0 <= i < W /\ control c !! (Z.to_nat o + Z.to_nat i)%nat = Some b /\ IsEmptyOrDeleted b = true.

(** A slot to put an element with this hash into. *)
Definition good_place (hash p : Z) : Prop :=
  0 <= p < capacity_ c /\ reaches c hash p /\ exists b, real !! Z.to_nat p = Some b /\ IsEmptyOrDeleted b = true.

Lemma empty_special o : has_empty c o -> has_special o.
Proof. intros (i & Hi & Hb). by exists i, kEmpty. Qed.

Lemma find_first_loop_spec hash fuel k :
  (exists q b, real !! q = Some b /\ IsEmptyOrDeleted b = true) ->
  (forall j, (j < k)%nat -> ~ has_special (group_offset c hash j)) ->
  (exists e, (k <= e < k + fuel)%nat /\ has_special (group_offset c hash e)) ->
  exists fi, find_first_non_full_loop fuel c (probe_at W (hash_H1 hash (control_at c)) (capacity_ c) k) =
    Ret (Some fi) /\ good_place hash (fi_offset fi).
Proof.
  intros Hq. revert k. induction fuel as [|fuel IH]; intros k Hno (e & He & Hee); [lia|].
  cbn [find_first_non_full_loop]. destruct (probe_state m c real Ho hash k) as (-> & Ei & ->).
  pose proof (group_offset_range m c real Ho hash k) as Hr. set (o := group_offset c hash k) in *.
  destruct (load_at m c real Ho o Hr) as (g & -> & Hw & Hg). cbn [obind].
  destruct (shows_test _ _ _ (empty_or_deleted_shows (G := GroupFullEmptyOrDeleted) g Hw)) as [Eb Hlow].
  pose proof (group_test c o g IsEmptyOrDeleted Hr Hw Hg) as Ht. rewrite <- Eb in Ht. fold (has_special o) in Ht.
  destruct (bm_bool _) eqn:Em.
  - destruct (Hlow eq_refl) as (i & l & El & Elow). unfold GetInsertionOffset. rewrite Elow. cbn [obind].
    eexists. split; [done|]. cbn [fi_offset]. rewrite Ei.
    destruct (lowest_is_slot o g IsEmptyOrDeleted i l Hr Hw Hg eq_refl El Hq) as (Hp & Hc & Hb).
    split; [done|]. split; [|done]. exists k. split; [done|]. intros j Hj He'. by apply (Hno j Hj), empty_special.
  - apply IH.
    + intros j Hj. destruct (Nat.eq_dec j k) as [->|]; [fold o; rewrite <- Ht; congruence|apply Hno; lia].
    + exists e. split; [|done]. destruct (Nat.eq_dec e k) as [->|]; [|lia]. apply Ht in Hee. congruence.
Qed.

Lemma find_first_non_full_spec hash :
  (exists q b, real !! q = Some b /\ IsEmptyOrDeleted b = true) ->
  exists fi, find_first_non_full c hash = Ret (Some fi) /\ good_place hash (fi_offset fi).
Proof.
  intros Hq. unfold find_first_non_full, cf_probe, probe.
  change (probe_seq_new ?h ?k) with (probe_at W h k 0).
  destruct (probe_state m c real Ho hash 0) as (-> & _ & _).
  pose proof (group_offset_range m c real Ho hash 0) as Hr. set (o := group_offset c hash 0) in *.
  pose proof (cap_len m c real Ho) as Hcl. pose proof W_pos as HW.
  unfold ctrl_byte. rewrite (io_ctrl _ _ _ Ho).
  destruct (lookup_lt_is_Some_2 (layout W real) (Z.to_nat o)) as [b Hb].
  { rewrite layout_length by apply W_ok. lia. }
  rewrite Hb. cbn [obind]. destruct (IsEmptyOrDeleted b) eqn:Eb.
  - eexists. split; [done|]. cbn [fi_offset]. rewrite <- (io_ctrl _ _ _ Ho) in Hb.
    rewrite <- (Nat.add_0_r (Z.to_nat o)) in Hb.
    destruct (byte_cases m c real Ho o 0 b Hr ltac:(lia) Hb) as [[_ ->]|[(p & Hp & Ep & Hpb)|[Hd ->]]]; [done| |].
    + rewrite Z.add_0_r, Z.mod_small in Ep by lia. subst p. split; [done|]. split; [|by exists b].
      exists 0%nat. split; [|lia]. exists 0. rewrite Z.add_0_r. split_and!; [lia..|apply Z.mod_small; lia].
    + exfalso. destruct Hq as (q & bq & Hq & _). apply lookup_lt_Some in Hq. lia.
  - apply (find_first_loop_spec hash _ 0 Hq); [lia|].
    destruct Hq as (q & bq & Hq & Hbq). pose proof (lookup_lt_Some _ _ _ Hq).
    destruct (groups_cover m c real Ho hash (Z.of_nat q) ltac:(lia)) as (k & Hk & Hc).
    exists k. split; [lia|].
    destruct (byte_of_slot m c real Ho _ _ (group_offset_range m c real Ho hash k) Hc ltac:(lia))
      as (i & Hi & _ & _ & E). rewrite Nat2Z.id in E. exists i, bq. by rewrite E.
Qed.
End place.

Lemma miss_offset c key s mask :
  search_result c key (Miss s mask) -> exists i, GetInsertionOffset mask = Ret i.
Proof.
  intros (_ & k & g & _ & _ & (i & Hi & Hb) & Hw & -> & Hg).
  destruct (shows_test _ _ _ (empty_shows (G := Group) g Hw)) as [Eb Hlow].
  destruct Hlow as (j & l & _ & Ej); [|by exists j]. rewrite Eb. apply existsb_exists. exists kEmpty.
  split; [|done]. apply list_elem_of_In, list_elem_of_lookup. exists (Z.to_nat i).
  rewrite W_bytes in Hi. by rewrite Hg by lia.
Qed.

(** The target a search gives an insertion, in a table with an empty slot. *)
Lemma miss_target m c real key s mask :
  in_order m c real -> search_result c key (Miss s mask) -> (exists q, real !! q = Some kEmpty) ->
  exists i, GetInsertionOffset mask = Ret i /\ good_place c real (Hash key) (ps_offset_i s i) /\
    real !! Z.to_nat (ps_offset_i s i) = Some kEmpty.
Proof.
  intros Ho (_ & k & g & -> & Hne & He & Hw & -> & Hg) [q Hq].
  destruct (probe_state m c real Ho (Hash key) k) as (_ & Ei & _).
  pose proof (group_offset_range m c real Ho (Hash key) k) as Hr. set (o := group_offset c (Hash key) k) in *.
  destruct (shows_test _ _ _ (empty_shows (G := Group) g Hw)) as [Eb Hlow].
  assert (Hb : bm_bool (MaskEmpty Group g) = true).
  { rewrite Eb. apply (group_test c o g IsEmpty Hr Hw Hg). destruct He as (i & Hi & He). by exists i, kEmpty. }
  destruct (Hlow Hb) as (i & l & El & Elow). exists i. split; [done|]. rewrite Ei.
  destruct (lowest_is_slot m c real Ho o g IsEmpty i l Hr Hw Hg eq_refl El) as (Hp & Hc & b & Hpb & Hf);
    [by exists q, kEmpty|]. assert (b = kEmpty) as -> by (unfold IsEmpty in Hf; lia).
  split; [|done]. split; [done|]. split; [by exists k|by exists kEmpty].
Qed.

(** ** Changing a slot *)

Definition same_place c c' : Prop := capacity_ c' = capacity_ c /\ control_at c' = control_at c.

Lemma group_offset_same c c' hash k : same_place c c' -> group_offset c' hash k = group_offset c hash k.
Proof. intros [E1 E2]. unfold group_offset. by rewrite E1, E2. Qed.

Lemma reaches_same c c' hash p :
  same_place c c' -> (forall o, has_empty c' o -> has_empty c o) -> reaches c hash p -> reaches c' hash p.
Proof.
  intros Hs He (k & Hc & Hk). exists k. unfold covers. rewrite !(group_offset_same c c') by done.
  rewrite (proj1 Hs). split; [done|]. intros j Hj Hej. rewrite (group_offset_same c c') in Hej by done.
  by apply (Hk j Hj), He.
Qed.

(** A new byte that is not empty makes no group empty. *)
Lemma has_empty_update c c' real i h o :
  control c = layout W real -> control c' = layout W (<[i := h]> real) -> (i < length real)%nat ->
  h <> kEmpty -> has_empty c' o -> has_empty c o.
Proof.
  intros Ec Ec' Hi Hh (j & Hj & Hb). exists j. split; [done|]. rewrite Ec. rewrite Ec' in Hb.
  rewrite <- layout_insert in Hb by (apply W_ok || done).
  apply list_lookup_insert_Some in Hb as [(_ & ? & _)|[_ Hb]]; [congruence|].
  by apply list_lookup_insert_Some in Hb as [(_ & ? & _)|[_ Hb]]; [congruence|].
Qed.

Lemma holds_insert c c' p q v w :
  slot_array c' = <[Z.to_nat p := Some v]> (slot_array c) -> 0 <= p < Z.of_nat (length (slot_array c)) ->
  holds c' q w <-> (q = p /\ w = v) \/ (q <> p /\ holds c q w).
Proof.
  intros Es Hp. unfold holds. rewrite Es. destruct (Z.eq_dec q p) as [->|Hne].
  - rewrite list_lookup_insert_eq by lia. naive_solver.
  - split.
    + intros [Hq Hw]. rewrite list_lookup_insert_ne in Hw by lia. auto.
    + intros [[? _]|(_ & Hq & Hw)]; [done|]. split; [done|]. by rewrite list_lookup_insert_ne by lia.
Qed.

(** An element in a slot that was free, marked with its hash. *)
Lemma in_order_place m c c' real p v :
  in_order m c real -> good_place c real (Hash (key_of v)) p ->
  (forall q w, holds c q w -> Eq (key_of v) (key_of w) = false) ->
  same_place c c' -> control c' = layout W (<[Z.to_nat p := hash_H2 (Hash (key_of v))]> real) ->
  slot_array c' = <[Z.to_nat p := Some v]> (slot_array c) ->
  in_order m c' (<[Z.to_nat p := hash_H2 (Hash (key_of v))]> real).
Proof.
  intros Ho (Hp & Hreach & b & Hb & Hfree) Hnew Hs Ec Es.
  set (h := hash_H2 (Hash (key_of v))) in *. pose proof (hash_H2_range (Hash (key_of v))) as Hh. fold h in Hh.
  pose proof (cap_len m c real Ho) as Hcl.
  assert (Hpl : 0 <= p < Z.of_nat (length (slot_array c))) by (rewrite (io_slots _ _ _ Ho); lia).
  assert (Hemp : forall o, has_empty c' o -> has_empty c o).
  { intros o. apply (has_empty_update c c' real (Z.to_nat p) h); [apply (io_ctrl _ _ _ Ho)|done|lia|]. unfold kEmpty. lia. }
  pose proof (fun q w => holds_insert c c' p q v w Es Hpl) as Hh'.
  constructor.
  - apply (io_m _ _ _ Ho).
  - rewrite (proj1 Hs). apply (io_cap _ _ _ Ho).
  - rewrite length_insert. apply (io_len _ _ _ Ho).
  - done.
  - apply Forall_insert; [apply (io_bytes _ _ _ Ho)|]. split; [right; right; right; lia|unfold kSentinel; lia].
  - by rewrite Es, !length_insert, (io_slots _ _ _ Ho).
  - intros i x Hi. rewrite Es. destruct (Nat.eq_dec i (Z.to_nat p)) as [->|Hne].
    + rewrite list_lookup_insert_eq in Hi by lia. rewrite list_lookup_insert_eq by lia. by injection Hi as <-.
    + rewrite list_lookup_insert_ne in Hi by lia. rewrite list_lookup_insert_ne by lia.
      by apply (io_full _ _ _ Ho).
  - intros q w [[-> ->]|[_ Hq]]%Hh'; eapply reaches_same; eauto. by apply (io_reach _ _ _ Ho).
  - intros q1 q2 w1 w2 [[-> ->]|[_ H1']]%Hh' [[-> ->]|[_ H2']]%Hh' E; [done| | |].
    + by rewrite (Hnew _ _ H2') in E.
    + rewrite Eq_sym, (Hnew _ _ H1') in E. done.
    + by apply (io_keys _ _ _ Ho _ _ _ _ H1' H2').
Qed.

(** The contents of the table, as a list. *)
Lemma omap_insert_none (l : list (option V)) i v :
  l !! i = Some None -> omap id (<[i := Some v]> l) ≡ₚ v :: omap id l.
Proof.
  revert i. induction l as [|x l IH]; intros [|i]; [done..| |].
  - intros [= ->]. done.
  - intros Hi. change (<[S i := Some v]> (x :: l)) with (x :: <[i := Some v]> l). cbn [omap list_omap].
    specialize (IH i Hi). destruct x as [x|]; simpl; rewrite IH; [apply Permutation_swap|done].
Qed.

Lemma omap_insert_some (l : list (option V)) i v :
  l !! i = Some (Some v) -> omap id l ≡ₚ v :: omap id (<[i := None]> l).
Proof.
  intros Hi. rewrite <- (list_insert_id l i (Some v)) at 1 by done.
  rewrite <- (list_insert_insert_eq l i (Some v) None). apply omap_insert_none.
  apply list_lookup_insert_eq. by eapply lookup_lt_Some.
Qed.

Lemma free_slot m c real p b :
  in_order m c real -> 0 <= p -> real !! Z.to_nat p = Some b -> IsFull b = false -> slot_array c !! Z.to_nat p = Some None.
Proof.
  intros Ho Hp Hb Hf. pose proof (lookup_lt_Some _ _ _ Hb) as Hl. rewrite <- (io_slots _ _ _ Ho) in Hl.
  destruct (lookup_lt_is_Some_2 _ _ Hl) as [[w|] Hw]; [|done].
  exfalso. assert (IsFull b = true); [|congruence]. apply (full_iff c real m _ b Ho Hb). by exists w.
Qed.

Lemma special_not_full b : IsEmptyOrDeleted b = true -> IsFull b = false.
Proof. unfold IsEmptyOrDeleted, IsFull, kSentinel. lia. Qed.

Lemma contents_elem c v : v ∈ contents c <-> exists p, holds c p v.
Proof.
  unfold contents, holds. rewrite list_elem_of_omap. split.
  - intros (x & Hx & Ev). unfold id in Ev. subst x. apply list_elem_of_lookup in Hx as [i Hi].
    exists (Z.of_nat i). rewrite Nat2Z.id. split; [lia|done].
  - intros (p & _ & Hp). exists (Some v). split; [by eapply list_elem_of_lookup_2|done].
Qed.

(** Two lists in step: a byte is full where there is an object. *)
Lemma tally_objects (real : list Z) (slots : list (option V)) :
  length slots = length real ->
  (forall i b, real !! i = Some b -> IsFull b = true <-> exists v, slots !! i = Some (Some v)) ->
  tally IsFull real = Z.of_nat (length (omap id slots)).
Proof.
  revert slots. induction real as [|b real IH]; intros [|x slots] Hl Hi; try discriminate Hl; [done|].
  cbn [tally]. rewrite (IH slots); [|by injection Hl|intros i; apply (Hi (S i))].
  pose proof (Hi 0%nat b eq_refl) as H0. simpl in H0. destruct x as [v|].
  - rewrite (proj2 H0 (ex_intro _ v eq_refl)). change (omap id (Some v :: slots)) with (v :: omap id slots).
    cbn [length]. lia.
  - change (omap id (None :: slots)) with (omap id slots). destruct (IsFull b); [|lia]. by destruct (proj1 H0 eq_refl).
Qed.

Lemma tally_full m c real : in_order m c real -> tally IsFull real = Z.of_nat (length (contents c)).
Proof.
  intros Ho. apply tally_objects; [apply (io_slots _ _ _ Ho)|]. intros i b Hi. by apply (full_iff c real m).
Qed.

Lemma room_special m c real :
  in_order m c real -> Z.of_nat (length (contents c)) < capacity_of m ->
  exists q b, real !! q = Some b /\ IsEmptyOrDeleted b = true.
Proof.
  intros Ho Hl. rewrite <- (tally_full m c real Ho) in Hl.
  pose proof (tally_all real (io_bytes _ _ _ Ho)) as Ht. rewrite (io_len _ _ _ Ho) in Ht.
  destruct (Z.lt_ge_cases 0 (tally IsEmpty real)) as [He|He].
  - destruct (tally_pos _ _ He) as (i & b & Hi & Hb). exists i, b. split; [done|].
    unfold IsEmpty, IsEmptyOrDeleted, kEmpty, kSentinel in *. lia.
  - pose proof (tally_range IsDeleted real). destruct (tally_pos IsDeleted real ltac:(lia)) as (i & b & Hi & Hb).
    exists i, b. split; [done|]. unfold IsDeleted, IsEmptyOrDeleted, kDeleted, kSentinel in *. lia.
Qed.

Lemma SetCtrl_spec m c c' real p h :
  in_order m c real -> 0 <= p < capacity_ c -> same_place c c' -> control c' = control c ->
  SetCtrl c' p h = Ret (set_control c' (layout W (<[Z.to_nat p := h]> real))).
Proof.
  intros Ho Hp [E _] Ec. unfold SetCtrl. rewrite E, Ec. destruct (Z.leb_spec 0 p), (Z.ltb_spec p (capacity_ c)); try lia.
  cbn [andb]. rewrite (io_ctrl _ _ _ Ho). rewrite (io_cap _ _ _ Ho) in Hp |- *.
  rewrite SetCtrl_layout; [done|apply W_ok|apply (io_m _ _ _ Ho)|apply (io_len _ _ _ Ho)|lia].
Qed.

(** Everything but control bytes and slots. *)
Definition same_books c c' : Prop :=
  same_place c c' /\ size_ c' = size_ c /\ growth_info c' = growth_info c /\ cf_allocs c' = cf_allocs c.

Lemma same_books_trans c1 c2 c3 : same_books c1 c2 -> same_books c2 c3 -> same_books c1 c3.
Proof. intros ([] & ? & ? & ?) ([] & ? & ? & ?). repeat split; congruence. Qed.

Lemma insert_slot_spec m c real v :
  in_order m c real -> Z.of_nat (length (contents c)) < capacity_of m -> tally IsDeleted real = 0 ->
  (forall q w, holds c q w -> Eq (key_of v) (key_of w) = false) ->
  exists c' real', insert_slot v c = Ret c' /\ in_order m c' real' /\ tally IsDeleted real' = 0 /\
    contents c' ≡ₚ v :: contents c /\ same_books c c'.
Proof.
  intros Ho Hroom Hdel Hnew.
  destruct (find_first_non_full_spec m c real Ho (Hash (key_of v)) (room_special m c real Ho Hroom)) as (fi & E & Hp).
  pose proof Hp as (Hr & _ & b & Hb & Hs). unfold insert_slot. rewrite E. cbn [obind].
  rewrite (SetCtrl_spec m c c real) by done. cbn [obind].
  set (p := fi_offset fi) in *. eexists _, (<[Z.to_nat p := _]> real). split; [done|]. split; [|split; [|split]].
  - by apply (in_order_place m c _ real p v).
  - rewrite (tally_insert _ _ _ _ _ Hb), Hdel.
    assert (IsDeleted b = false) as ->.
    { destruct (IsDeleted b) eqn:Ed; [|done]. pose proof (tally_insert IsDeleted real _ b kEmpty Hb) as Ht.
      rewrite Ed, Hdel in Ht. cbn in Ht. pose proof (tally_range IsDeleted (<[Z.to_nat p := kEmpty]> real)). lia. }
    pose proof (hash_H2_range (Hash (key_of v))). unfold IsDeleted, kDeleted.
    destruct (Z.eqb_spec (hash_H2 (Hash (key_of v))) (-2)); lia.
  - unfold contents. cbn. apply omap_insert_none. eapply free_slot; [exact Ho|lia|exact Hb|by apply special_not_full].
  - done.
Qed.

(** ** Resizing *)

(** A table just allocated. *)
Lemma in_order_empty m c :
  0 <= m <= 56 -> capacity_ c = capacity_of m -> control c = ResetCtrl_bytes W (capacity_of m) ->
  slot_array c = replicate (Z.to_nat (capacity_of m)) None ->
  in_order m c (replicate (Z.to_nat (capacity_of m)) kEmpty).
Proof.
  intros Hm Ec Ectrl Es. pose proof (capacity_pos m Hm) as Hc.
  assert (Hno : forall p v, ~ holds c p v).
  { intros p v [_ Hv]. rewrite Es in Hv. by apply lookup_replicate in Hv as [? _]. }
  constructor; try done.
  - rewrite length_replicate. lia.
  - by rewrite Ectrl, ResetCtrl_layout by apply W_ok || done.
  - apply Forall_replicate. split; [by left|done].
  - by rewrite Es, !length_replicate.
  - intros i b [-> Hi]%lookup_replicate. rewrite Es, lookup_replicate_2 by done. done.
  - intros p v Hv. by destruct (Hno p v).
  - intros p q v w Hv. by destruct (Hno p v).
Qed.

Lemma contents_none c n : slot_array c = replicate n None -> contents c = [].
Proof. intros E. unfold contents. rewrite E. clear E. induction n; [done|]. simpl. apply IHn. Qed.

(** Single groups. *)

Lemma covers_single m c real o p :
  in_order m c real -> is_single_group W (capacity_of m) = true -> 0 <= p < capacity_ c -> covers c o p.
Proof.
  intros Ho Hs Hp. pose proof (single_capacity W W_ok m (io_m _ _ _ Ho) Hs) as Hc.
  rewrite <- (io_cap _ _ _ Ho) in Hc. pose proof (Z.mod_pos_bound (p - o) (capacity_ c + 1) ltac:(lia)).
  exists ((p - o) mod (capacity_ c + 1)). split_and!; [lia..|]. rewrite Zplus_mod_idemp_r.
  replace (o + (p - o)) with p by lia. apply Z.mod_small. lia.
Qed.

Definition flip_index (old_cap : Z) (q : nat) : nat := Z.to_nat (Z.lxor (Z.of_nat q) (shuffle_bit old_cap)).

(** The bytes of a table that has grown inside one group. *)
Definition shuffled real (n : nat) : list Z :=
  (fun q => match real !! flip_index (Z.of_nat (length real)) q with
            | Some b => if IsFull b then b else kEmpty
            | None => kEmpty
            end) <$> seq 0 n.

Lemma flip_flip old_cap q : 0 <= old_cap -> flip_index old_cap (flip_index old_cap q) = q.
Proof.
  intros Hc. unfold flip_index, shuffle_bit. rewrite Z2Nat.id by (apply Z.lxor_nonneg; pose proof (Z.div_pos old_cap 2); lia).
  rewrite Z.lxor_assoc, Z.lxor_nilpotent, Z.lxor_0_r. lia.
Qed.

Lemma flip_range mo q : 0 < mo -> Z.of_nat q < 2 ^ mo -> Z.of_nat (flip_index (capacity_of mo) q) < 2 ^ mo.
Proof.
  intros Hm Hq. assert (Es : shuffle_bit (capacity_of mo) = 2 ^ (mo - 1)).
  { unfold shuffle_bit, capacity_of. replace (2 ^ mo - 1) with (2 * (2 ^ (mo - 1) - 1) + 1).
    - rewrite <- (Z.div_unique_pos _ 2 (2 ^ (mo - 1) - 1) 1); lia.
    - replace (2 ^ mo) with (2 * 2 ^ (mo - 1)); [lia|]. rewrite <- Z.pow_succ_r by lia. f_equal. lia. }
  unfold flip_index. rewrite Es. pose proof (Z.pow_pos_nonneg 2 (mo - 1)).
  assert (0 <= Z.lxor (Z.of_nat q) (2 ^ (mo - 1))) by (apply Z.lxor_nonneg; lia).
  rewrite Z2Nat.id by done.
  destruct (Z.eq_dec (Z.lxor (Z.of_nat q) (2 ^ (mo - 1))) 0) as [->|]; [apply Z.pow_pos_nonneg; lia|].
  apply Z.log2_lt_pow2; [lia|]. pose proof (Z.log2_lxor (Z.of_nat q) (2 ^ (mo - 1)) ltac:(lia) ltac:(lia)) as Hl.
  rewrite Z.log2_pow2 in Hl by lia.
  assert (Z.log2 (Z.of_nat q) < mo).
  { destruct (Z.eq_dec (Z.of_nat q) 0) as [->|]; [done|]. apply Z.log2_lt_pow2; lia. }
  lia.
Qed.
End invariant.

(** ** What the table asks of [raw_hash_set.cc] *)

Section resizing.
Context {K V : Type} `{P : Policy K V} {Gs : Groups} {Cc : RawHashSetCc V}.
Implicit Types (c : CommonFields V) (real : list Z).
Abbreviation W := (kWidth Group).

(** "Elements are rotated by [old_capacity_ / 2 + 1] positions": the bytes of
    a table without tombstones, inside one group. *)
Class ShuffleLaw := {
  shuffle_bytes m m' real :
    0 < m < m' -> m' <= 56 -> is_single_group W (capacity_of m') = true ->
    Z.of_nat (length real) = capacity_of m -> Forall slot_byte real -> tally IsDeleted real = 0 ->
    GrowIntoSingleGroupShuffleControlBytes (layout W real) (capacity_of m) (capacity_of m') =
      layout W (shuffled real (Z.to_nat (capacity_of m')));
}.

Context {GL : GroupsLaws Gs} {PL : PolicyLaws P} {SL : ShuffleLaw}.

(** The table a resize makes: fresh books, the same elements. *)
Record resized (m : Z) c c' real : Prop := {
  rs_order : in_order m c' real;
  rs_clean : tally IsDeleted real = 0;
  rs_contents : contents c' ≡ₚ contents c;
  rs_size : size_ c' = size_ c;
  rs_growth : growth_info c' = ginfo (CapacityToGrowth W (capacity_of m) - size c) false;
}.

Lemma growth_reset m c :
  0 <= m <= 56 -> capacity_ c = capacity_of m -> 0 <= size c <= CapacityToGrowth W (capacity_of m) ->
  growth_info (ResetGrowthLeft c) = ginfo (CapacityToGrowth W (capacity_of m) - size c) false.
Proof.
  intros Hm Ec Hs. unfold ResetGrowthLeft, set_growth, InitGrowthLeftNoDeleted, ginfo. cbn [growth_info].
  rewrite Ec, Z.add_0_r. apply wrapU_id. pose proof (growth_bounds W m W_ok Hm). pose proof (capacity_pos m Hm).
  unfold inU. lia.
Qed.

(** The elements in the first [i] slots. *)
Definition first_elements c (i : nat) : list V := omap id (take i (slot_array c)).

Lemma first_elements_S c i :
  (i < length (slot_array c))%nat ->
  first_elements c (S i) = first_elements c i ++ match slot_array c !! i with Some (Some v) => [v] | _ => [] end.
Proof.
  intros Hi. unfold first_elements. destruct (lookup_lt_is_Some_2 _ _ Hi) as [x Hx]. rewrite Hx.
  by rewrite (take_S_r _ _ x Hx), omap_app.
Qed.

Lemma first_elements_all c i : (length (slot_array c) <= i)%nat -> first_elements c i = contents c.
Proof. intros Hi. unfold first_elements. by rewrite take_ge. Qed.

Lemma first_elements_in c i v : v ∈ first_elements c i -> exists p, holds c p v /\ p < Z.of_nat i.
Proof.
  unfold first_elements. rewrite list_elem_of_omap. intros (x & Hx & Ev). unfold id in Ev. subst x.
  apply list_elem_of_lookup in Hx as [j Hj]. apply lookup_take_Some in Hj as [Hj Hlt].
  exists (Z.of_nat j). unfold holds. rewrite Nat2Z.id. split; [split; [lia|done]|lia].
Qed.

Section old.
Context (mo : Z) (old : CommonFields V) (oreal : list Z) (Hold : in_order mo old oreal).

(** A full byte of the old array has its object. *)
Lemma old_slot i : (i < Z.to_nat (capacity_ old))%nat -> exists b,
  ctrl_byte old (Z.of_nat i) = Ret b /\ oreal !! i = Some b /\
  match slot_array old !! i with
  | Some (Some v) => IsFull b = true /\ slot_at old (Z.of_nat i) = Ret v /\ holds old (Z.of_nat i) v
  | _ => IsFull b = false
  end.
Proof.
  intros Hi. pose proof (cap_len mo old oreal Hold) as Hcl.
  destruct (lookup_lt_is_Some_2 oreal i ltac:(lia)) as [b Hb]. exists b.
  assert (Hc : control old !! i = Some b).
  { rewrite (io_ctrl _ _ _ Hold), layout_lookup by (apply W_ok || lia). by destruct (Nat.ltb_spec i (length oreal)); [|lia]. }
  unfold ctrl_byte. rewrite Nat2Z.id, Hc. split; [done|]. split; [done|].
  pose proof (full_iff old oreal mo i b Hold Hb) as Hf. destruct (slot_array old !! i) as [[v|]|] eqn:Es.
  - split; [apply Hf; by exists v|]. unfold slot_at, holds. rewrite Nat2Z.id, Es. split; [done|]. split; [lia|done].
  - destruct (IsFull b); [|done]. destruct (proj1 Hf eq_refl); congruence.
  - destruct (IsFull b); [|done]. destruct (proj1 Hf eq_refl); congruence.
Qed.

(** The elements are inserted one by one into the new array. *)
Lemma rehash_loop m c real :
  in_order m c real -> contents c = [] -> Z.of_nat (length (contents old)) <= capacity_of m ->
  tally IsDeleted real = 0 ->
  exists c' real', ofold (rehash_slot old) (seq 0 (Z.to_nat (capacity_ old))) c = Ret c' /\
    in_order m c' real' /\ tally IsDeleted real' = 0 /\ contents c' ≡ₚ contents old /\ same_books c c'.
Proof.
  intros Ho He Hroom Hdel. pose proof (cap_len mo old oreal Hold) as Hcl.
  pose proof (io_slots _ _ _ Hold) as Hsl.
  set (I i c' := exists real', in_order m c' real' /\ tally IsDeleted real' = 0 /\
    contents c' ≡ₚ first_elements old i /\ same_books c c').
  destruct (ofold_seq (rehash_slot old) I 0 (Z.to_nat (capacity_ old)) c) as (c' & E & real' & Ho' & Hd & Hc & Hb).
  - intros i c1 Hi (real1 & Ho1 & Hd1 & Hc1 & Hb1).
    destruct (old_slot i ltac:(lia)) as (b & Eb & _ & Hs). unfold rehash_slot. rewrite Eb. cbn [obind].
    pose proof (first_elements_S old i ltac:(lia)) as Hfe.
    destruct (slot_array old !! i) as [[v|]|] eqn:Es.
    + destruct Hs as (-> & -> & Hh). cbn [obind].
      destruct (insert_slot_spec m c1 real1 v Ho1) as (c2 & real2 & E2 & Ho2 & Hd2 & Hc2 & Hb2); [|done| |].
      * rewrite Hc1. assert (Hle : (length (first_elements old (S i)) <= length (contents old))%nat).
        { unfold contents. rewrite <- (take_drop (S i) (slot_array old)), omap_app, length_app. unfold first_elements. lia. }
        rewrite Hfe, length_app in Hle. simpl in Hle. lia.
      * intros q w Hq. destruct (Eq (key_of v) (key_of w)) eqn:Ek; [|done].
        assert (Hw : w ∈ contents c1) by (apply contents_elem; by exists q).
        rewrite Hc1 in Hw. apply first_elements_in in Hw as (p & Hp & Hlt).
        pose proof (io_keys _ _ _ Hold _ _ _ _ Hh Hp Ek). lia.
      * exists c2. split; [done|]. exists real2. split; [done|]. split; [done|]. split.
        -- rewrite Hc2, Hc1, Hfe. by rewrite Permutation_app_comm.
        -- by eapply same_books_trans.
    + rewrite Hs. exists c1. split; [done|]. exists real1. rewrite Hfe, app_nil_r. done.
    + rewrite Hs. exists c1. split; [done|]. exists real1. rewrite Hfe, app_nil_r. done.
  - exists real. rewrite He. done.
  - exists c', real'. split; [done|]. rewrite first_elements_all in Hc by lia. done.
Qed.

(** The elements change places with one bit of their index flipped. *)
Lemma grow_loop m c :
  mo < m <= 56 -> 0 < mo -> capacity_ c = capacity_of m -> is_single_group W (capacity_of m) = true ->
  control c = layout W (shuffled oreal (Z.to_nat (capacity_of m))) ->
  slot_array c = replicate (Z.to_nat (capacity_of m)) None -> tally IsDeleted oreal = 0 ->
  exists c', GrowSizeIntoSingleGroup old c = Ret c' /\
    in_order m c' (shuffled oreal (Z.to_nat (capacity_of m))) /\ contents c' ≡ₚ contents old /\ same_books c c'.
Proof.
  intros Hm Hmo Ec Hsg Ectrl Es Hdel. pose proof (cap_len mo old oreal Hold) as Hcl.
  pose proof (io_slots _ _ _ Hold) as Hsl. pose proof (io_m _ _ _ Hold) as Hmr.
  assert (Ecap : capacity_ old = capacity_of mo) by apply (io_cap _ _ _ Hold).
  pose proof (capacity_pos mo Hmr) as Hpo. pose proof (capacity_pos m ltac:(lia)) as Hpn.
  assert (Hpow : 2 ^ mo = capacity_of mo + 1) by (unfold capacity_of; lia).
  assert (Hlt : capacity_of mo < capacity_of m).
  { unfold capacity_of. pose proof (Z.pow_lt_mono_r 2 mo m). lia. }
  set (flip := flip_index (capacity_ old)).
  assert (Hff : forall q, flip (flip q) = q) by (intros; apply flip_flip; lia).
  assert (Hfr : forall q, Z.of_nat q <= capacity_of mo -> Z.of_nat (flip q) <= capacity_of mo).
  { intros q Hq. pose proof (flip_range mo q Hmo ltac:(lia)). unfold flip. rewrite Ecap. lia. }
  set (n := Z.to_nat (capacity_of m)) in *.
  set (I i c' := (forall q, (q < n)%nat -> slot_array c' !! q = Some (if (flip q <? i)%nat then
       match slot_array old !! flip q with Some (Some v) => Some v | _ => None end else None)) /\
    length (slot_array c') = n /\ contents c' ≡ₚ first_elements old i /\ control c' = control c /\ same_books c c').
  destruct (ofold_seq (grow_slot old) I 0 (Z.to_nat (capacity_ old)) c) as (c' & E & Hq & Hlen & Hc & Hctrl & Hb).
  - intros i c1 Hi (Hq & Hlen & Hc & Hctrl & Hb). rewrite Nat.add_0_l in Hi.
    destruct (old_slot i ltac:(lia)) as (b & Eb & _ & Hs). unfold grow_slot. rewrite Eb. cbn [obind].
    pose proof (first_elements_S old i ltac:(lia)) as Hfe. rewrite <- Hsl in Hcl.
    assert (Hstep : forall q, (q < n)%nat -> q <> flip i -> (flip q <? S i)%nat = (flip q <? i)%nat).
    { intros q Hqn Hne. assert (flip q <> i) by (intros <-; by rewrite Hff in Hne).
      destruct (Nat.ltb_spec (flip q) (S i)), (Nat.ltb_spec (flip q) i); lia. }
    assert (Hfi : (flip i < n)%nat) by (specialize (Hfr i ltac:(lia)); lia).
    assert (Hnone : slot_array c1 !! flip i = Some None).
    { rewrite Hq, Hff by done. by rewrite Nat.ltb_irrefl. }
    destruct (slot_array old !! i) as [[v|]|] eqn:Eo.
    + destruct Hs as (-> & -> & Hh). cbn [obind]. eexists. split; [done|].
      change (Z.to_nat (Z.lxor (Z.of_nat i) (shuffle_bit (capacity_ old)))) with (flip i).
      split_and!; cbn [set_slot slot_array control].
      * intros q Hqn. change (Z.to_nat (Z.lxor (Z.of_nat i) (shuffle_bit (capacity_ old)))) with (flip i).
        destruct (Nat.eq_dec q (flip i)) as [->|Hne].
        -- rewrite list_lookup_insert_eq by lia. rewrite Hff, Eo. by destruct (Nat.ltb_spec i (S i)); [|lia].
        -- rewrite list_lookup_insert_ne by done. by rewrite Hstep, Hq.
      * by rewrite length_insert.
      * unfold contents. cbn [set_slot slot_array].
        change (Z.to_nat (Z.lxor (Z.of_nat i) (shuffle_bit (capacity_ old)))) with (flip i).
        rewrite omap_insert_none by done. fold (contents c1). rewrite Hc, Hfe. by rewrite Permutation_app_comm.
      * done.
      * done.
    + rewrite Hs. exists c1. split; [done|]. split_and!; [|done| |done|done].
      * intros q Hqn. destruct (Nat.eq_dec q (flip i)) as [->|Hne]; [|by rewrite Hstep, Hq].
        rewrite Hnone, Hff, Eo. by destruct (i <? S i)%nat.
      * by rewrite Hfe, app_nil_r.
    + rewrite Hs. exists c1. split; [done|]. split_and!; [|done| |done|done].
      * intros q Hqn. destruct (Nat.eq_dec q (flip i)) as [->|Hne]; [|by rewrite Hstep, Hq].
        rewrite Hnone, Hff, Eo. by destruct (i <? S i)%nat.
      * by rewrite Hfe, app_nil_r.
  - split_and!; try done.
    + intros q Hqn. rewrite Es. by rewrite lookup_replicate_2.
    + by rewrite Es, length_replicate.
    + by rewrite (contents_none c n).
  - exists c'. split; [done|]. rewrite first_elements_all in Hc by lia.
    split; [|by split]. rewrite Nat.add_0_l in Hq. destruct Hb as (Hsame & Hrest).
    assert (Hq' : forall q, (q < n)%nat -> slot_array c' !! q =
      Some (match slot_array old !! flip q with Some (Some v) => Some v | _ => None end)).
    { intros q Hqn. rewrite (Hq q Hqn). f_equal. destruct (Nat.ltb_spec (flip q) (Z.to_nat (capacity_ old))); [done|].
      rewrite (proj2 (lookup_ge_None _ _)); [done|]. lia. }
    assert (Hholds : forall p v, holds c' p v -> 0 <= p < capacity_of m /\ holds old (Z.of_nat (flip (Z.to_nat p))) v).
    { intros p v [Hp Hv]. pose proof (lookup_lt_Some _ _ _ Hv) as Hl. rewrite Hlen in Hl. split; [unfold n in Hl; lia|].
      rewrite Hq' in Hv by done. unfold holds. rewrite Nat2Z.id. split; [lia|].
      destruct (slot_array old !! flip (Z.to_nat p)) as [[w|]|]; congruence. }
    assert (Hlr : Z.of_nat (length oreal) = capacity_ old) by lia.
    assert (Ereal : forall q, shuffled oreal n !! q = (fun q => match oreal !! flip q with
        Some b => if IsFull b then b else kEmpty | None => kEmpty end) <$> seq 0 n !! q).
    { intros q. unfold shuffled. rewrite list_lookup_fmap, Hlr. done. }
    constructor.
    + lia.
    + rewrite (proj1 Hsame). done.
    + unfold shuffled. rewrite length_fmap, length_seq. unfold n. lia.
    + by rewrite Hctrl.
    + apply Forall_lookup. intros q b. rewrite Ereal. destruct (seq 0 n !! q) as [q'|]; [|done]. simpl. intros [= <-].
      destruct (oreal !! flip q') as [b|] eqn:Eb; [|by split; [left|]].
      destruct (IsFull b); [|by split; [left|]]. exact (Forall_lookup_1 _ _ _ _ (io_bytes _ _ _ Hold) Eb).
    + unfold shuffled. by rewrite length_fmap, length_seq.
    + intros q b. rewrite Ereal. destruct (seq 0 n !! q) as [q'|] eqn:Eq'; [|done].
      apply lookup_seq in Eq' as [-> Hqn]. simpl. intros [= <-]. rewrite Hq' by done.
      destruct (oreal !! flip q) as [b|] eqn:Eb.
      * pose proof (io_full _ _ _ Hold _ _ Eb) as Hf. destruct (slot_array old !! flip q) as [[v|]|] eqn:Eo.
        -- subst b. pose proof (hash_H2_range (Hash (key_of v))). unfold IsFull.
           by destruct (Z.leb_spec 0 (hash_H2 (Hash (key_of v)))); [|lia].
        -- by rewrite Hf.
        -- by rewrite Hf.
      * assert (slot_array old !! flip q = None) as ->; [|done].
        apply lookup_ge_None. apply lookup_ge_None in Eb. lia.
    + intros p v Hv. destruct (Hholds p v Hv) as [Hp _]. exists 0%nat. split; [|lia].
      pose proof (single_capacity W W_ok m ltac:(lia) Hsg) as Hsc.
      assert (Ec' : capacity_ c' = capacity_of m) by (rewrite (proj1 Hsame); done).
      set (o := group_offset c' _ 0). pose proof (Z.mod_pos_bound (p - o) (capacity_ c' + 1) ltac:(lia)).
      exists ((p - o) mod (capacity_ c' + 1)). split_and!; [lia..|]. rewrite Zplus_mod_idemp_r.
      replace (o + (p - o)) with p by lia. apply Z.mod_small. lia.
    + intros p q v w Hv Hw Ek. destruct (Hholds p v Hv) as [Hp Hv'], (Hholds q w Hw) as [Hq0 Hw'].
      pose proof (io_keys _ _ _ Hold _ _ _ _ Hv' Hw' Ek) as E2. apply Nat2Z.inj in E2.
      apply (f_equal flip) in E2. rewrite !Hff in E2. lia.
Qed.
End old.

Lemma wf_size_contents m c real : wf m c real -> size c = Z.of_nat (length (contents c)).
Proof.
  intros Hw. rewrite <- (tally_full m c real) by apply Hw. unfold size, HasInfozShift.
  rewrite (wf_size _ _ _ Hw), Z.shiftr_div_pow2 by lia. change (2 ^ 1) with 2. rewrite Z.mul_comm. apply Z.div_mul. lia.
Qed.

Lemma wf_size_growth m c real : wf m c real -> 0 <= size c <= CapacityToGrowth W (capacity_of m).
Proof.
  intros Hw. rewrite (wf_size_contents m c real Hw), <- (tally_full m c real) by apply Hw.
  destruct (wf_growth _ _ _ Hw) as (left & del & _ & Hl & Hb & _).
  pose proof (tally_range IsDeleted real). pose proof (tally_range IsFull real). lia.
Qed.

Lemma wf_resized m0 m c c' real0 real :
  wf m0 c real0 -> size c <= CapacityToGrowth W (capacity_of m) -> resized m c c' real -> wf m c' real.
Proof.
  intros Hw Hs [Ho Hd Hc Hsz Hg]. pose proof (wf_size_contents m0 c real0 Hw) as Hsc.
  assert (Hf : tally IsFull real = size c) by (rewrite (tally_full m c' real Ho), Hc; done).
  constructor; [done| | |done].
  - rewrite Hsz, (wf_size _ _ _ Hw), Hf, Hsc. f_equal. apply (tally_full m0), Hw.
  - eexists _, false. split; [exact Hg|]. lia.
Qed.

Lemma shuffled_nil n : shuffled [] n = replicate n kEmpty.
Proof.
  transitivity ((fun _ : nat => kEmpty) <$> seq 0 n).
  - apply list_fmap_ext. intros _ q _. by rewrite lookup_nil.
  - generalize 0%nat. induction n as [|n IH]; intros k; [done|]. cbn [seq replicate]. csimpl. by rewrite IH.
Qed.

(** A resize keeps the elements, whichever way the new array is filled. *)
Lemma resize_spec m m' c real :
  wf m c real -> 0 < m' <= 56 -> size c <= CapacityToGrowth W (capacity_of m') ->
  exists c' real', resize_impl c (capacity_of m') = Ret c' /\ resized m' c c' real' /\
    (IsGrowingIntoSingleGroupApplicable W (capacity_ c) (capacity_of m') = true ->
      real' = shuffled real (Z.to_nat (capacity_of m'))).
Proof.
  intros Hw Hm' Hsize. pose proof (wf_order _ _ _ Hw) as Ho.
  pose proof (io_m _ _ _ Ho) as Hm. pose proof (io_cap _ _ _ Ho) as Ecap.
  pose proof (capacity_pos m Hm) as Hcp. pose proof (capacity_pos m' ltac:(lia)) as Hcp'.
  pose proof (wf_size_growth m c real Hw) as Hsg. pose proof (wf_size_contents m c real Hw) as Hsc.
  pose proof (growth_bounds W m' W_ok ltac:(lia)) as Hgb.
  unfold resize_impl, InitializeSlots. cbn [set_capacity capacity_ size_ growth_info cf_allocs RawHashSetLayout_new rl_capacity rl_control_offset].
  set (c0 := ResetGrowthLeft _).
  assert (Hg0 : growth_info c0 = ginfo (CapacityToGrowth W (capacity_of m') - size c) false)
    by (unfold c0; rewrite (growth_reset m'); [done|lia|done|unfold size in *; cbn; lia]).
  assert (Hs0 : size_ c0 = size_ c) by done. assert (Hc0 : capacity_ c0 = capacity_of m') by done.
  assert (Hsl0 : slot_array c0 = replicate (Z.to_nat (capacity_of m')) None) by done.
  assert (Hne0 : contents c0 = []) by (by apply (contents_none c0 (Z.to_nat (capacity_of m')))).
  clearbody c0.
  set (single := IsGrowingIntoSingleGroupApplicable W (capacity_ c) (capacity_of m')).
  destruct (negb (capacity_ c =? 0) && single) eqn:Eg.
  - apply andb_prop in Eg as [Enz Es]. destruct (Z.eqb_spec (capacity_ c) 0) as [|Hnz]; [done|]. rewrite Es.
    unfold single, IsGrowingIntoSingleGroupApplicable in Es. apply andb_prop in Es as [Es Elt]. apply Z.ltb_lt in Elt.
    assert (Hm0 : 0 < m).
    { destruct (Z.eq_dec m 0) as [->|]; [|lia]. by rewrite Ecap in Hnz. }
    assert (Hmm : m < m').
    { destruct (Z.lt_ge_cases m m') as [|Hge]; [done|]. pose proof (Z.pow_le_mono_r 2 m' m). unfold capacity_of in *. lia. }
    assert (Hd : tally IsDeleted real = 0).
    { apply (wf_single _ _ _ Hw). unfold is_single_group in *. apply Z.leb_le. apply Z.leb_le in Es. lia. }
    rewrite (io_ctrl _ _ _ Ho), Ecap.
    rewrite (shuffle_bytes m m' real ltac:(lia) ltac:(lia) Es (io_len _ _ _ Ho) (io_bytes _ _ _ Ho) Hd).
    destruct (grow_loop m c real Ho m' (set_control c0 (layout W (shuffled real (Z.to_nat (capacity_of m'))))))
      as (c' & E & Ho' & Hcon & (Hb1 & Hb2 & Hb3 & Hb4)); try done; [lia|].
    exists c', (shuffled real (Z.to_nat (capacity_of m'))). split; [done|]. split; [|done]. constructor; try done.
    + unfold shuffled. clear. generalize (seq 0 (Z.to_nat (capacity_of m'))). intros l.
      induction l as [|q l IH]; [done|]. csimpl. cbn [tally]. rewrite IH.
      destruct (real !! _) as [b|]; [|done]. destruct (IsFull b) eqn:Ef; [|done].
      unfold IsFull, IsDeleted, kDeleted in *. destruct (Z.eqb_spec b (-2)); lia.
    + by rewrite Hb2.
    + by rewrite Hb3.
  - assert (Hoe : in_order m' (ResetCtrl c0) (replicate (Z.to_nat (capacity_of m')) kEmpty)).
    { apply in_order_empty; [lia|done| |done]. unfold ResetCtrl. cbn. by rewrite Hc0. }
    destruct (Z.eqb_spec (capacity_ c) 0) as [Hz|Hnz].
    + exists (ResetCtrl c0), (replicate (Z.to_nat (capacity_of m')) kEmpty). split; [done|].
      pose proof (io_slots _ _ _ Ho) as Hsl. pose proof (cap_len m c real Ho) as Hcl.
      assert (real = []) as -> by (apply length_zero_iff_nil; lia).
      split; [|intros _; symmetry; apply shuffled_nil]. constructor; try done; [by rewrite tally_replicate|].
      assert (contents c = []) as ->; [|by rewrite <- Hne0].
      unfold contents. destruct (slot_array c); [done|]. simpl in Hsl. lia.
    + cbn [negb andb] in Eg. rewrite Eg.
      destruct (rehash_loop m c real Ho m' (ResetCtrl c0) (replicate (Z.to_nat (capacity_of m')) kEmpty))
        as (c' & real' & E & Ho' & Hd & Hcon & (Hb1 & Hb2 & Hb3 & Hb4)); [done|done| |by rewrite tally_replicate|].
      { lia. }
      exists c', real'. split; [done|]. split; [|intros Hs'; unfold single in Eg; congruence].
      constructor; try done; [by rewrite Hb2|by rewrite Hb3].
Qed.

(** The free slot [FindFirstNonFullAfterResize] picks without probing. *)
Lemma shuffled_free mo real n q :
  0 <= mo -> Z.of_nat (length real) = capacity_of mo -> (q < n)%nat ->
  (capacity_of mo < Z.of_nat q \/ Z.of_nat q = capacity_of mo / 2) -> shuffled real n !! q = Some kEmpty.
Proof.
  intros Hmo Hl Hq Hc. unfold shuffled. rewrite list_lookup_fmap, lookup_seq_lt by done. cbn [fmap option_fmap option_map].
  rewrite (proj2 (lookup_ge_None _ _)); [done|]. rewrite Hl, Nat.add_0_l.
  destruct (Z.eq_dec mo 0) as [->|]; [change (capacity_of 0) with 0 in Hl; lia|].
  assert (Hp : 2 ^ mo = capacity_of mo + 1) by (unfold capacity_of; lia). pose proof (Z.pow_pos_nonneg 2 mo).
  destruct Hc as [Hc|Hc].
  - destruct (Nat.le_gt_cases (length real) (flip_index (capacity_of mo) q)) as [|Hlt]; [done|exfalso].
    pose proof (flip_range mo (flip_index (capacity_of mo) q) ltac:(lia) ltac:(lia)) as Hr.
    rewrite flip_flip in Hr by lia. lia.
  - unfold flip_index, shuffle_bit. rewrite Hc.
    assert (E2 : 2 ^ mo = 2 * 2 ^ (mo - 1)) by (rewrite <- Z.pow_succ_r by lia; f_equal; lia).
    pose proof (Z.pow_pos_nonneg 2 (mo - 1) ltac:(lia) ltac:(lia)) as Hp1.
    assert (Eh : capacity_of mo / 2 = 2 ^ (mo - 1) - 1).
    { symmetry. apply (Z.div_unique_pos _ _ _ 1); unfold capacity_of; lia. }
    rewrite Eh, Z.sub_add. rewrite <- Z.add_nocarry_lxor; [lia|].
    rewrite Z.land_comm, (Z.sub_1_r (2 ^ (mo - 1))), <- Z.ones_equiv, Z.land_ones by lia. apply Z.mod_same. lia.
Qed.

Lemma after_resize_spec m m' c real c' real' hash :
  wf m c real -> 0 < m' <= 56 -> size c < CapacityToGrowth W (capacity_of m') ->
  resize_impl c (capacity_of m') = Ret c' -> resized m' c c' real' ->
  (IsGrowingIntoSingleGroupApplicable W (capacity_ c) (capacity_of m') = true ->
      real' = shuffled real (Z.to_nat (capacity_of m'))) ->
  exists fi, FindFirstNonFullAfterResize c' (capacity_ c) hash = Ret (Some fi) /\ good_place c' real' hash (fi_offset fi).
Proof.
  intros Hw Hm' Hsize E Hrs Hshuf. pose proof (rs_order _ _ _ _ Hrs) as Ho'. pose proof (wf_order _ _ _ Hw) as Ho.
  pose proof (io_cap _ _ _ Ho') as Ecap'. pose proof (capacity_pos m' ltac:(lia)) as Hcp'.
  pose proof (growth_bounds W m' W_ok ltac:(lia)) as Hgb.
  unfold FindFirstNonFullAfterResize. rewrite Ecap'.
  destruct (IsGrowingIntoSingleGroupApplicable _ _ _) eqn:Es; cbn [negb].
  - specialize (Hshuf eq_refl). unfold IsGrowingIntoSingleGroupApplicable in Es.
    apply andb_prop in Es as [Es Elt]. apply Z.ltb_lt in Elt.
    pose proof (io_m _ _ _ Ho) as Hm. rewrite (io_cap _ _ _ Ho) in Elt |- *. set (oc := capacity_of m) in *.
    pose proof (capacity_pos m Hm) as Hcp. fold oc in Hcp.
    pose proof (group_offset_range m' c' real' Ho' hash 0) as Hr. rewrite Ecap' in Hr.
    change (ps_offset (cf_probe c' hash)) with (group_offset c' hash 0). set (o := group_offset c' hash 0) in *.
    assert (Hmm : m < m').
    { destruct (Z.lt_ge_cases m m') as [|Hge]; [done|]. pose proof (Z.pow_le_mono_r 2 m' m). subst oc. unfold capacity_of in *. lia. }
    assert (Hdouble : 2 * oc + 1 <= capacity_of m').
    { subst oc. unfold capacity_of. pose proof (Z.pow_le_mono_r 2 (m + 1) m' ltac:(lia) ltac:(lia)) as Hp.
      rewrite Z.pow_add_r in Hp by lia. lia. }
    eexists. split; [done|]. cbn [fi_offset]. rewrite (wrapU_id 64 (oc + 1)) by (unfold inU; lia).
    set (p := if _ <=? _ then _ else _).
    assert (Hp : 0 <= p < capacity_of m' /\ (oc < p \/ p = oc / 2)).
    { pose proof (Z.div_pos oc 2 ltac:(lia) ltac:(lia)). pose proof (Z.div_le_upper_bound oc 2 oc ltac:(lia) ltac:(lia)).
      subst p. destruct (Z.leb_spec oc (u64 (o - (oc + 1)))) as [Hle|Hgt]; [split; [lia|by right]|].
      destruct (Z.lt_ge_cases o (oc + 1)) as [Hlt|Hge].
      - exfalso. unfold wrapU in Hgt. rewrite <- (Z.mod_unique_pos (o - (oc + 1)) (2 ^ 64) (-1) (o - (oc + 1) + 2 ^ 64)) in Hgt by lia. lia.
      - rewrite wrapU_id in Hgt by (unfold inU; lia). lia. }
    assert (Hfree : real' !! Z.to_nat p = Some kEmpty).
    { rewrite Hshuf. apply (shuffled_free m); [lia|apply (io_len _ _ _ Ho)|lia|]. fold oc. rewrite Z2Nat.id by lia. apply Hp. }
    split; [rewrite Ecap'; apply Hp|]. split; [|by exists kEmpty].
    exists 0%nat. split; [|lia]. apply (covers_single m' c' real'); [done|done|rewrite Ecap'; apply Hp].
  - apply (find_first_non_full_spec m' c' real' Ho'). apply (room_special m' c' real' Ho').
    rewrite (rs_contents _ _ _ _ Hrs), <- (wf_size_contents m c real Hw). lia.
Qed.

(** ** Insertion *)

(** Writing the control byte of a new element, and the books of it. *)
Definition mark c (p hash : Z) : outcome (CommonFields V) :=
  let c := PrepareInsertCommon c in
  do b <- ctrl_byte c p;
  SetCtrl (set_growth c (OverwriteControlAsFull (growth_info c) b)) p (hash_H2 hash).

Lemma mark_spec m c real p v b :
  wf m c real -> good_place c real (Hash (key_of v)) p -> real !! Z.to_nat p = Some b ->
  (IsEmpty b = true -> 0 < GetGrowthLeft (growth_info c)) ->
  (forall q w, holds c q w -> Eq (key_of v) (key_of w) = false) ->
  exists c' real', mark c p (Hash (key_of v)) = Ret c' /\ wf m (set_slot c' p (Some v)) real' /\
    contents (set_slot c' p (Some v)) ≡ₚ v :: contents c.
Proof.
  intros Hw Hp Hb Hroom Hnew. pose proof (wf_order _ _ _ Hw) as Ho. pose proof Hp as (Hr & _ & b' & Hb' & Hs).
  rewrite Hb in Hb'. injection Hb' as <-. pose proof (cap_len m c real Ho) as Hcl. pose proof (io_m _ _ _ Ho) as Hm.
  destruct (wf_growth _ _ _ Hw) as (left & del & Hg & Hl & Hbal & Hdel).
  pose proof (growth_bounds W m W_ok Hm) as Hgb. pose proof (capacity_pos m Hm) as Hcp.
  pose proof (tally_range IsFull real) as Hf0. pose proof (tally_range IsDeleted real) as Hd0.
  pose proof (wf_size _ _ _ Hw) as Hsz.
  assert (Hbyte : ctrl_byte (PrepareInsertCommon c) p = Ret b).
  { unfold ctrl_byte. cbn. rewrite (io_ctrl _ _ _ Ho), layout_lookup by (apply W_ok || lia).
    destruct (Nat.ltb_spec (Z.to_nat p) (length real)); [by rewrite Hb|lia]. }
  unfold mark. rewrite Hbyte. cbn [obind].
  rewrite (SetCtrl_spec m c _ real) by done. set (h := hash_H2 (Hash (key_of v))).
  pose proof (hash_H2_range (Hash (key_of v))) as Hh. fold h in Hh.
  eexists _, (<[Z.to_nat p := h]> real). split; [done|].
  assert (Hfh : IsFull h = true) by (unfold IsFull; lia).
  assert (Hdh : IsDeleted h = false) by (unfold IsDeleted, kDeleted; lia).
  assert (Hfb : IsFull b = false) by (by apply special_not_full).
  assert (Hlen : Z.of_nat (length real) = capacity_of m) by apply (io_len _ _ _ Ho).
  split; [constructor|].
  - by apply (in_order_place m c _ real p v).
  - cbn. rewrite (tally_insert _ _ _ _ _ Hb), Hfh, Hfb, Hsz.
    unfold HasInfozShift. change (Z.shiftl 1 1) with 2. rewrite wrapU_id by (unfold inU; lia). lia.
  - cbn. rewrite Hg in Hroom |- *. rewrite ginfo_left in Hroom by lia. rewrite ginfo_control_as_full by (done || lia).
    eexists _, del. split; [done|]. rewrite !(tally_insert _ _ _ _ _ Hb), Hfh, Hfb, Hdh.
    assert ((if IsEmpty b then 1 else 0) + (if IsDeleted b then 1 else 0) = 1).
    { pose proof (Forall_lookup_1 _ _ _ _ (io_bytes _ _ _ Ho) Hb) as [Hct Hns].
      destruct Hct as [-> | [-> | [-> | Hct]]]; try done. unfold IsFull in Hfb. lia. }
    assert (IsDeleted b = true -> 0 < tally IsDeleted real).
    { intros Hdb. pose proof (tally_insert IsDeleted real _ b kEmpty Hb) as Ht. rewrite Hdb in Ht. cbn in Ht.
      pose proof (tally_range IsDeleted (<[Z.to_nat p := kEmpty]> real)). lia. }
    split; [destruct (IsEmpty b); [specialize (Hroom eq_refl)|]; lia|].
    split; [destruct (IsEmpty b), (IsDeleted b); lia|].
    intros ->. specialize (Hdel eq_refl). destruct (IsDeleted b); [specialize (H0 eq_refl)|]; lia.
  - intros Hsg. rewrite (tally_insert _ _ _ _ _ Hb), Hdh, (wf_single _ _ _ Hw Hsg).
    destruct (IsDeleted b) eqn:Hdb; [|lia]. pose proof (tally_insert IsDeleted real _ b kEmpty Hb) as Ht.
    rewrite Hdb, (wf_single _ _ _ Hw Hsg) in Ht. cbn in Ht.
    pose proof (tally_range IsDeleted (<[Z.to_nat p := kEmpty]> real)). lia.
  - unfold contents. cbn. apply omap_insert_none. eapply free_slot; [exact Ho|lia|exact Hb|done].
Qed.

(** Where [PrepareInsertNonSoo] puts an element: at the target, when there
    are no deleted slots and growth is left; else at the result of another
    search, in the table itself, a larger one, or one that was rehashed. *)
Inductive placed c (hash : Z) (target : FindInfo) : CommonFields V -> Z -> Prop :=
| placed_target :
    HasNoDeletedAndGrowthLeft (growth_info c) = true -> placed c hash target c (fi_offset target)
| placed_again fi :
    HasNoDeletedAndGrowthLeft (growth_info c) = false -> 0 < GetGrowthLeft (growth_info c) ->
    find_first_non_full c hash = Ret (Some fi) -> placed c hash target c (fi_offset fi)
| placed_resized m c1 fi :
    HasNoDeletedAndGrowthLeft (growth_info c) = false -> 0 < m <= 56 ->
    size c < CapacityToGrowth W (capacity_of m) -> resize_impl c (capacity_of m) = Ret c1 ->
    FindFirstNonFullAfterResize c1 (capacity_ c) hash = Ret (Some fi) ->
    placed c hash target c1 (fi_offset fi)
| placed_rehashed m c1 real1 fi :
    HasNoDeletedAndGrowthLeft (growth_info c) = false -> wf m c1 real1 -> contents c1 ≡ₚ contents c ->
    0 < GetGrowthLeft (growth_info c1) -> find_first_non_full c1 hash = Ret (Some fi) ->
    placed c hash target c1 (fi_offset fi).

(** The bound on the size is far beyond memory. *)
Class PrepareLaw := {
  prepare_insert m c real hash target :
    wf m c real -> size c < 2 ^ 50 ->
    (HasNoDeletedAndGrowthLeft (growth_info c) = true ->
      good_place c real hash (fi_offset target) /\ real !! Z.to_nat (fi_offset target) = Some kEmpty) ->
    exists c1 p c2, placed c hash target c1 p /\ mark c1 p hash = Ret c2 /\
      PrepareInsertNonSoo c hash target = Ret (Some (c2, p));
}.

Context {PI : PrepareLaw}.

Lemma wf_left m c real : wf m c real -> exists left del, growth_info c = ginfo left del /\ 0 <= left < 2 ^ 62 /\
  left + tally IsFull real + tally IsDeleted real = CapacityToGrowth W (capacity_of m) /\
  (del = false -> tally IsDeleted real = 0).
Proof.
  intros Hw. destruct (wf_growth _ _ _ Hw) as (left & del & Hg & Hl & Hb & Hd).
  pose proof (io_m _ _ _ (wf_order _ _ _ Hw)) as Hm. pose proof (growth_bounds W m W_ok Hm).
  pose proof (capacity_pos m Hm). pose proof (tally_range IsFull real). pose proof (tally_range IsDeleted real).
  exists left, del. split_and!; [done|lia|lia|lia|done].
Qed.

Lemma left_empty m c real : wf m c real -> 0 < GetGrowthLeft (growth_info c) -> exists q, real !! q = Some kEmpty.
Proof.
  intros Hw Hg. destruct (wf_left m c real Hw) as (left & del & E & Hl & Hb & _).
  rewrite E, ginfo_left in Hg by done. pose proof (wf_order _ _ _ Hw) as Ho.
  pose proof (growth_bounds W m W_ok (io_m _ _ _ Ho)) as Hgb. pose proof (tally_all real (io_bytes _ _ _ Ho)) as Ht.
  rewrite (io_len _ _ _ Ho) in Ht. destruct (tally_pos IsEmpty real ltac:(lia)) as (i & b & Hi & Hbe).
  exists i. rewrite Hi. f_equal. unfold IsEmpty in Hbe. lia.
Qed.

Lemma special_place m c real hash :
  wf m c real -> 0 < GetGrowthLeft (growth_info c) ->
  exists fi, find_first_non_full c hash = Ret (Some fi) /\ good_place c real hash (fi_offset fi).
Proof.
  intros Hw Hg. apply (find_first_non_full_spec m c real (wf_order _ _ _ Hw)).
  destruct (left_empty m c real Hw Hg) as [q Hq]. by exists q, kEmpty.
Qed.

Definition has_key c (k : K) : Prop := exists w, w ∈ contents c /\ Eq k (key_of w) = true.

Lemma no_key_new c c1 k : contents c1 ≡ₚ contents c -> ~ has_key c k ->
  forall q w, holds c1 q w -> Eq k (key_of w) = false.
Proof.
  intros Hc Hn q w Hq. destruct (Eq k (key_of w)) eqn:E; [|done]. destruct Hn. exists w. split; [|done].
  rewrite <- Hc. apply contents_elem. by exists q.
Qed.

(** However it is placed, the new element ends up in a table in order. *)
Lemma placed_spec m c real v target c1 p c2 :
  wf m c real -> ~ has_key c (key_of v) ->
  (HasNoDeletedAndGrowthLeft (growth_info c) = true ->
    good_place c real (Hash (key_of v)) (fi_offset target) /\ real !! Z.to_nat (fi_offset target) = Some kEmpty) ->
  placed c (Hash (key_of v)) target c1 p -> mark c1 p (Hash (key_of v)) = Ret c2 ->
  exists m' real', wf m' (set_slot c2 p (Some v)) real' /\ contents (set_slot c2 p (Some v)) ≡ₚ v :: contents c /\
    holds (set_slot c2 p (Some v)) p v.
Proof.
  intros Hw Hnew Htarget Hpl Hmark.
  assert (exists m1 real1, wf m1 c1 real1 /\ contents c1 ≡ₚ contents c /\ 0 < GetGrowthLeft (growth_info c1) /\
    good_place c1 real1 (Hash (key_of v)) p) as (m1 & real1 & Hw1 & Hc1 & Hg1 & Hp1).
  { destruct Hpl as [Hh|fi Hh Hg Ef|m1 c1 fi Hh Hm1 Hs Er Ef|m1 c1 real1 fi Hh Hw1 Hc1 Hg Ef].
    - exists m, real. destruct (Htarget Hh) as [Hp He]. split; [done|]. split; [done|]. split; [|done].
      destruct (wf_left m c real Hw) as (left & del & E & Hl & _). rewrite E in Hh |- *.
      rewrite ginfo_no_deleted_and_left in Hh by done. rewrite ginfo_left by done.
      apply andb_prop in Hh as [_ Hh]. lia.
    - exists m, real. destruct (special_place m c real (Hash (key_of v)) Hw Hg) as (fi' & Ef' & Hp).
      rewrite Ef in Ef'. injection Ef' as <-. done.
    - destruct (resize_spec m m1 c real Hw Hm1 ltac:(lia)) as (c' & real' & Er' & Hrs & Hsh).
      rewrite Er in Er'. injection Er' as <-. exists m1, real'.
      assert (Hw1 : wf m1 c1 real') by (by eapply wf_resized; [exact Hw|lia|]).
      split; [done|]. split; [apply (rs_contents _ _ _ _ Hrs)|]. split.
      + rewrite (rs_growth _ _ _ _ Hrs), ginfo_left; [lia|]. pose proof (wf_size_growth m c real Hw).
        pose proof (growth_bounds W m1 W_ok ltac:(lia)). pose proof (capacity_pos m1 ltac:(lia)). lia.
      + destruct (after_resize_spec m m1 c real c1 real' (Hash (key_of v)) Hw Hm1 Hs Er Hrs Hsh) as (fi' & Ef' & Hp).
        rewrite Ef in Ef'. by injection Ef' as <-.
    - exists m1, real1. destruct (special_place m1 c1 real1 (Hash (key_of v)) Hw1 Hg) as (fi' & Ef' & Hp).
      rewrite Ef in Ef'. injection Ef' as <-. done. }
  pose proof Hp1 as (Hr & _ & b & Hb & _).
  destruct (mark_spec m1 c1 real1 p v b Hw1 Hp1 Hb) as (c2' & real2 & E2 & Hw2 & Hc2);
    [done|by eapply no_key_new|].
  rewrite Hmark in E2. injection E2 as <-. exists m1, real2. split; [done|]. split; [by rewrite Hc2, Hc1|].
  split; [lia|]. cbn [set_slot slot_array]. apply list_lookup_insert_eq.
  pose proof (wf_order _ _ _ Hw2) as Ho2. pose proof (io_slots _ _ _ Ho2) as Hsl. pose proof (io_len _ _ _ Ho2) as Hl2.
  rewrite (io_cap _ _ _ (wf_order _ _ _ Hw1)) in Hr. cbn [set_slot slot_array] in Hsl. rewrite length_insert in Hsl. lia.
Qed.

Lemma emplace_spec m c real v :
  wf m c real -> size c < 2 ^ 50 ->
  exists c' p inserted m' real', emplace c v = Ret (Some (c', At p, inserted)) /\ wf m' c' real' /\
    match inserted with
    | false => c' = c /\ exists w, holds c p w /\ Eq (key_of v) (key_of w) = true
    | true => ~ has_key c (key_of v) /\ contents c' ≡ₚ v :: contents c /\ holds c' p v
    end.
Proof.
  intros Hw Hs. pose proof (wf_order _ _ _ Hw) as Ho. unfold emplace, find_or_prepare_insert_non_soo.
  destruct (search_spec m c real Ho (key_of v) (wf_some_empty m c real Hw)) as (r & -> & Hr). cbn [obind].
  destruct r as [p|sq mask].
  - exists c, p, false, m, real. split; [done|]. split; [done|]. by split.
  - destruct (miss_offset c (key_of v) sq mask Hr) as [i Ei]. rewrite Ei. cbn [obind].
    set (target := mkFound (ps_offset_i sq i) (ps_index sq)).
    assert (Htarget : HasNoDeletedAndGrowthLeft (growth_info c) = true ->
      good_place c real (Hash (key_of v)) (fi_offset target) /\ real !! Z.to_nat (fi_offset target) = Some kEmpty).
    { intros Hh. destruct (wf_left m c real Hw) as (left & del & E & Hl & _). pose proof Hh as Hh'.
      rewrite E, ginfo_no_deleted_and_left in Hh' by done. apply andb_prop in Hh' as [_ Hh'].
      destruct (left_empty m c real Hw) as [q Hq]; [rewrite E, ginfo_left by done; lia|].
      destruct (miss_target m c real (key_of v) sq mask Ho Hr (ex_intro _ q Hq)) as (i' & Ei' & Hp & Hb).
      rewrite Ei in Ei'. injection Ei' as <-. done. }
    destruct (prepare_insert m c real (Hash (key_of v)) target Hw Hs) as (c1 & p & c2 & Hpl & Hmk & ->);
      [exact Htarget|]. cbn.
    assert (Hnew : ~ has_key c (key_of v)).
    { intros (w & Hin & Ek). apply contents_elem in Hin as [q Hq]. rewrite (proj1 Hr _ _ Hq) in Ek. done. }
    destruct (placed_spec m c real v target c1 p c2 Hw Hnew Htarget Hpl Hmk) as (m' & real' & Hw' & Hc' & Hh').
    exists (set_slot c2 p (Some v)), p, true, m', real'. done.
Qed.
(** ** Erasure *)

(** "We can prove this by observing that if a group has any empty slots, it
    has never been full": every group that shows the slot has one. *)
Definition never_full c (p : Z) : Prop :=
  forall o, 0 <= o <= capacity_ c -> covers c o p -> has_empty c o.

(** The byte of an erased element becomes empty, when its groups have never
    been full, or a tombstone, of which a single group has none. *)
Class EraseLaw := {
  erase_meta m c real p v :
    wf m c real -> holds c p v ->
    let c1 := set_slot c p None in
    let result h g := EraseMetaOnly c1 p =
      set_growth (decrement_size (set_control c1 (layout W (<[Z.to_nat p := h]> real)))) g in
    (result kEmpty (OverwriteFullAsEmpty (growth_info c)) /\ never_full c p) \/
    (result kDeleted (OverwriteFullAsDeleted (growth_info c)) /\ is_single_group W (capacity_ c) = false);
}.

Context {EL : EraseLaw}.

(** Erasing makes no group empty that an insertion has passed. *)
Lemma erase_has_empty m c c' real p h :
  in_order m c real -> 0 <= p < capacity_ c -> control c' = layout W (<[Z.to_nat p := h]> real) ->
  (h = kEmpty -> never_full c p) ->
  forall o, 0 <= o <= capacity_ c -> has_empty c' o -> has_empty c o.
Proof.
  intros Ho Hp Ec' Hnf o Hr He. pose proof (cap_len m c real Ho) as Hcl.
  destruct (Z.eq_dec h kEmpty) as [->|Hne];
    [|by apply (has_empty_update c c' real (Z.to_nat p) h); [apply (io_ctrl _ _ _ Ho)|done|lia|..]].
  destruct He as (j & Hj & Hb). rewrite Ec', <- layout_insert in Hb by (apply W_ok || lia).
  assert (Hcov : (o + j) mod (capacity_ c + 1) = p -> has_empty c o).
  { intros E. apply (Hnf eq_refl o Hr). pose proof (Z.mod_pos_bound j (capacity_ c + 1) ltac:(lia)).
    pose proof (Z.mod_le j (capacity_ c + 1) ltac:(lia) ltac:(lia)).
    exists (j mod (capacity_ c + 1)). split_and!; [lia..|]. by rewrite Zplus_mod_idemp_r. }
  apply list_lookup_insert_Some in Hb as [(E & _)|[_ Hb]].
  - apply Hcov. destruct (Z.to_nat p <? _)%nat.
    + symmetry. apply (Z.mod_unique_pos _ _ 1); lia.
    + rewrite Z.mod_small by lia. lia.
  - apply list_lookup_insert_Some in Hb as [(E & _)|[_ Hb]].
    + apply Hcov. rewrite Z.mod_small by lia. lia.
    + exists j. split; [done|]. by rewrite (io_ctrl _ _ _ Ho).
Qed.

Lemma holds_remove c c' p q w :
  slot_array c' = <[Z.to_nat p := None]> (slot_array c) -> 0 <= p < Z.of_nat (length (slot_array c)) ->
  holds c' q w <-> q <> p /\ holds c q w.
Proof.
  intros Es Hp. unfold holds. rewrite Es. destruct (Z.eq_dec q p) as [->|Hne].
  - rewrite list_lookup_insert_eq by lia. naive_solver.
  - split.
    + intros [Hq Hw]. rewrite list_lookup_insert_ne in Hw by lia. auto.
    + intros (_ & Hq & Hw). split; [done|]. by rewrite list_lookup_insert_ne by lia.
Qed.

Lemma in_order_remove m c c' real p v h :
  in_order m c real -> holds c p v -> same_place c c' ->
  control c' = layout W (<[Z.to_nat p := h]> real) -> slot_array c' = <[Z.to_nat p := None]> (slot_array c) ->
  (h = kEmpty /\ never_full c p) \/ h = kDeleted -> in_order m c' (<[Z.to_nat p := h]> real).
Proof.
  intros Ho Hv Hs Ec Es Hh. pose proof (holds_range m c real Ho p v Hv) as Hp.
  pose proof (cap_len m c real Ho) as Hcl. pose proof (io_slots _ _ _ Ho) as Hsl.
  pose proof (fun q w => holds_remove c c' p q w Es ltac:(lia)) as Hh'.
  assert (Hnf : h = kEmpty -> never_full c p) by (destruct Hh as [[_ ?]| ->]; [done|discriminate]).
  assert (Hb : slot_byte h /\ IsFull h = false).
  { destruct Hh as [[-> _]| ->]; (split; [split; [|done]|done]); [by left|right; by left]. }
  constructor.
  - apply (io_m _ _ _ Ho).
  - rewrite (proj1 Hs). apply (io_cap _ _ _ Ho).
  - rewrite length_insert. apply (io_len _ _ _ Ho).
  - done.
  - apply Forall_insert; [apply (io_bytes _ _ _ Ho)|apply Hb].
  - by rewrite Es, !length_insert.
  - intros i x Hi. rewrite Es. destruct (Nat.eq_dec i (Z.to_nat p)) as [->|Hne].
    + rewrite list_lookup_insert_eq in Hi by lia. rewrite list_lookup_insert_eq by lia. injection Hi as <-. apply Hb.
    + rewrite list_lookup_insert_ne in Hi by lia. rewrite list_lookup_insert_ne by lia. by apply (io_full _ _ _ Ho).
  - intros q w [_ Hq]%Hh'. destruct (io_reach _ _ _ Ho q w Hq) as (k & Hc & Hk). exists k.
    unfold covers. rewrite (group_offset_same c c'), (proj1 Hs) by done. split; [done|].
    intros j Hj Hej. rewrite (group_offset_same c c') in Hej by done. apply (Hk j Hj).
    by apply (erase_has_empty m c c' real p h Ho Hp Ec Hnf); [apply (group_offset_range m c real Ho)|].
  - intros q1 q2 w1 w2 [_ H1']%Hh' [_ H2']%Hh'. by apply (io_keys _ _ _ Ho).
Qed.

Lemma erase_at_spec m c real p v :
  wf m c real -> holds c p v -> exists c' real', erase_at c p = Ret c' /\ wf m c' real' /\
    contents c ≡ₚ v :: contents c'.
Proof.
  intros Hw Hv. pose proof (wf_order _ _ _ Hw) as Ho. pose proof (holds_range m c real Ho p v Hv) as Hp.
  pose proof (holds_byte m c real Ho p v Hv) as Hb. pose proof (cap_len m c real Ho) as Hcl.
  set (b := hash_H2 _) in Hb. pose proof (hash_H2_range (Hash (key_of v))) as Hbr. fold b in Hbr.
  assert (Hfb : IsFull b = true) by (unfold IsFull; lia).
  assert (Hdb : IsDeleted b = false) by (unfold IsDeleted, kDeleted; lia).
  destruct (wf_left m c real Hw) as (left & del & Hg & Hl & Hbal & Hdel).
  pose proof (tally_range IsFull real) as Hf0. pose proof (tally_range IsDeleted real) as Hd0.
  pose proof (tally_insert IsFull real _ _ kEmpty Hb) as Htf. rewrite Hfb in Htf.
  pose proof (tally_range IsFull (<[Z.to_nat p := kEmpty]> real)) as Htr. cbn in Htf.
  pose proof (growth_bounds W m W_ok (io_m _ _ _ Ho)) as Hgb. pose proof (capacity_pos m (io_m _ _ _ Ho)) as Hcp.
  assert (Hsz : u64 (size_ c - Z.shiftl 1 HasInfozShift) = 2 * (tally IsFull real - 1)).
  { rewrite (wf_size _ _ _ Hw). change (Z.shiftl 1 HasInfozShift) with 2. rewrite wrapU_id; [lia|]. unfold inU. lia. }
  unfold erase_at. rewrite (slot_at_holds _ _ _ Hv). cbn [obind].
  assert (Hcon : forall c', slot_array c' = <[Z.to_nat p := None]> (slot_array c) -> contents c ≡ₚ v :: contents c').
  { intros c' Es. unfold contents. rewrite Es. apply omap_insert_some, Hv. }
  destruct (erase_meta m c real p v Hw Hv) as [[-> Hnf]|[-> Hsg]]; (eexists _, _; split; [done|]; split; [constructor|by apply Hcon]).
  - apply (in_order_remove m c _ real p v kEmpty); try done. by left.
  - cbn. rewrite (tally_insert _ _ _ _ _ Hb), Hfb, Hsz. cbn. lia.
  - cbn. rewrite Hg, ginfo_as_empty by done. eexists _, del. split; [done|].
    rewrite !(tally_insert _ _ _ _ _ Hb), Hfb, Hdb. cbn. split; [lia|]. split; [lia|]. intros E. specialize (Hdel E). lia.
  - intros Hsg. rewrite (tally_insert _ _ _ _ _ Hb), Hdb, (wf_single _ _ _ Hw Hsg). done.
  - apply (in_order_remove m c _ real p v kDeleted); try done. by right.
  - cbn. rewrite (tally_insert _ _ _ _ _ Hb), Hfb, Hsz. cbn. lia.
  - cbn. rewrite Hg, ginfo_as_deleted by done. eexists left, true. split; [done|].
    rewrite !(tally_insert _ _ _ _ _ Hb), Hfb, Hdb. cbn. split; [lia|]. split; [lia|done].
  - intros Hsg'. rewrite (io_cap _ _ _ Ho) in Hsg. congruence.
Qed.

Lemma erase_spec m c real k :
  wf m c real -> exists c' n m' real', erase c k = Ret (Some (c', n)) /\ wf m' c' real' /\
    ((n = 0 /\ c' = c /\ ~ has_key c k) \/
     (n = 1 /\ exists v, Eq k (key_of v) = true /\ contents c ≡ₚ v :: contents c')).
Proof.
  intros Hw. unfold erase.
  destruct (find_in_order m c real (wf_order _ _ _ Hw) k (wf_some_empty m c real Hw)) as (it & -> & Hit). cbn [obind].
  destruct it as [p|].
  - destruct Hit as (v & Hv & Ek). destruct (erase_at_spec m c real p v Hw Hv) as (c' & real' & -> & Hw' & Hc).
    exists c', 1, m, real'. split; [done|]. split; [done|]. right. split; [done|]. by exists v.
  - exists c, 0, m, real. split; [done|]. split; [done|]. left. split_and!; [done..|].
    intros (w & Hin & Ek). apply contents_elem in Hin as [q Hq]. by rewrite (Hit _ _ Hq) in Ek.
Qed.

(** ** Iteration *)

Lemma set_positions_shift k d l : Z.add d <$> set_positions k l = set_positions (d + k) l.
Proof.
  revert k. induction l as [|b l IH]; intros k; [done|]. cbn [set_positions].
  rewrite fmap_app, IH, Z.add_assoc. by destruct b.
Qed.

Lemma set_positions_none k l : Forall (fun b => b = false) l -> set_positions k l = [].
Proof. intros Hl. revert k. induction Hl as [|b l -> _ IH]; intros k; [done|]. apply IH. Qed.

Lemma set_positions_full k (l1 l2 : list Z) :
  set_positions k (IsFull <$> l1 ++ l2) =
  set_positions k (IsFull <$> l1) ++ set_positions (k + Z.of_nat (length l1)) (IsFull <$> l2).
Proof.
  revert k. induction l1 as [|b l1 IH]; intros k; [simpl; by rewrite Z.add_0_r|].
  cbn [app length]. rewrite !fmap_cons. cbn [set_positions]. rewrite IH, <- app_assoc. do 3 f_equal. lia.
Qed.

Lemma set_positions_tally k (l : list Z) : Z.of_nat (length (set_positions k (IsFull <$> l))) = tally IsFull l.
Proof.
  revert k. induction l as [|b l IH]; intros k; [done|]. rewrite fmap_cons. cbn [set_positions tally].
  rewrite length_app, Nat2Z.inj_add, IH. by destruct (IsFull b).
Qed.

Lemma tally_app f l1 l2 : tally f (l1 ++ l2) = tally f l1 + tally f l2.
Proof. induction l1 as [|b l1 IH]; [done|]. cbn [app tally]. rewrite IH. lia. Qed.

Lemma full_groups_spec m c real fuel pos :
  in_order m c real -> W - 1 <= capacity_ c ->
  let ext := real ++ [kSentinel] in
  (exists q, (length (drop pos ext) = q * group_bytes /\ q <= fuel)%nat) ->
  full_groups fuel c (Z.of_nat pos) (tally IsFull (drop pos ext)) =
    Ret (Some (set_positions (Z.of_nat pos) (IsFull <$> drop pos ext))).
Proof.
  intros Ho Hc ext. revert pos. induction fuel as [|fuel IH]; intros pos (q & Hq & Hle).
  - assert (drop pos ext = []) as -> by (apply length_zero_iff_nil; lia). done.
  - cbn [full_groups]. destruct (Z.eqb_spec (tally IsFull (drop pos ext)) 0) as [E0|Hne].
    { rewrite <- (set_positions_tally (Z.of_nat pos)) in E0. do 2 f_equal. symmetry. apply length_zero_iff_nil. lia. }
    destruct q as [|q]; [assert (drop pos ext = []) as E by (apply length_zero_iff_nil; lia); by rewrite E in Hne|].
    pose proof (cap_len m c real Ho) as Hcl. pose proof W_bytes as HWb. pose proof W_pos as HW.
    assert (Hlen : length ext = S (length real)) by (unfold ext; rewrite length_app; simpl; lia).
    assert (Hpos : (pos + group_bytes <= length ext)%nat) by (rewrite length_drop in Hq; lia).
    destruct (load_at m c real Ho (Z.of_nat pos)) as (g & -> & Hw & Hg); [lia|]. cbn [obind].
    assert (Eg : g = take group_bytes (drop pos ext)).
    { apply list_eq. intros i. destruct (Nat.lt_ge_cases i group_bytes) as [Hi|Hi].
      - rewrite Hg, lookup_take_lt, lookup_drop by done. rewrite Nat2Z.id, (io_ctrl _ _ _ Ho).
        unfold ext, layout. destruct (Nat.lt_ge_cases (pos + i) (length real)) as [Hl|Hl].
        + by rewrite !lookup_app_l by lia.
        + replace (pos + i)%nat with (length real) by lia. by rewrite !list_lookup_middle by done.
      - rewrite !(proj2 (lookup_ge_None _ _)); [done| |rewrite (proj1 Hw); lia]. rewrite length_take. lia. }
    rewrite (bm_list_spec _ (IsFull <$> g)) by (apply full_shows || apply full_iterable; done). cbn [obind].
    assert (Esplit : drop pos ext = g ++ drop (pos + group_bytes) ext).
    { rewrite Eg, <- (take_drop group_bytes (drop pos ext)) at 1. by rewrite drop_drop. }
    rewrite Esplit. rewrite set_positions_tally, tally_app.
    pose proof (tally_range IsFull (drop (pos + group_bytes) ext)) as Hr. rewrite length_drop in Hr.
    pose proof (io_m _ _ _ Ho) as Hm. pose proof (capacity_pos m Hm). rewrite (io_cap _ _ _ Ho) in Hcl.
    rewrite wrapU_id by (unfold inU; lia). rewrite Z.add_simpl_l.
    replace (Z.of_nat pos + W) with (Z.of_nat (pos + group_bytes)) by lia.
    rewrite IH.
    + cbn. rewrite set_positions_shift, Z.add_0_r, set_positions_full. do 4 f_equal. rewrite (proj1 Hw). lia.
    + exists q. split; [|lia]. rewrite length_drop in Hq |- *. lia.
Qed.

(** [IterateOverFullSlots] visits each full slot once, in order. *)
Lemma IterateOverFullSlots_spec m c real :
  wf m c real -> IterateOverFullSlots c = Ret (Some (set_positions 0 (IsFull <$> real))).
Proof.
  intros Hw. pose proof (wf_order _ _ _ Hw) as Ho. pose proof (cap_len m c real Ho) as Hcl.
  pose proof W_pos as HW. unfold IterateOverFullSlots. unfold is_small.
  destruct (Z.ltb_spec (capacity_ c) (W - 1)) as [Hs|Hb].
  - assert (Hc8 : (length real <= 7)%nat).
    { pose proof (io_m _ _ _ Ho) as Hm. pose proof (io_cap _ _ _ Ho) as E. unfold capacity_of in E.
      destruct (Z.lt_ge_cases m 4) as [Hlt|Hge]; [|pose proof (Z.pow_le_mono_r 2 4 m ltac:(lia) Hge); lia].
      pose proof (Z.pow_le_mono_r 2 m 3 ltac:(lia) ltac:(lia)). lia. }
    unfold load. rewrite (io_ctrl _ _ _ Ho), layout_length by apply W_ok.
    destruct (Z.leb_spec 0 (capacity_ c)); [|lia].
    destruct (Nat.leb_spec (Z.to_nat (capacity_ c) + 8) (length real + Z.to_nat W)); [|lia]. cbn [andb obind].
    set (g := take 8 _). assert (Eg : g = kSentinel :: real ++ replicate (7 - length real) kEmpty).
    { unfold g, layout. rewrite Hcl, Nat2Z.id, drop_app_length. cbn [take]. f_equal.
      rewrite (take_ge real) by lia. rewrite take_app, (take_ge real) by lia. f_equal.
      rewrite take_replicate. f_equal. lia. }
    assert (Hwin : window 8 g).
    { rewrite Eg. split; [simpl; rewrite length_app, length_replicate; lia|].
      constructor; [right; right; by left|]. apply Forall_app. split.
      - eapply Forall_impl; [apply (io_bytes _ _ _ Ho)|]. by intros b [? _].
      - apply Forall_replicate. by left. }
    rewrite (bm_list_spec _ (IsFull <$> g)) by (apply full_shows || apply full_iterable; done). cbn [obind].
    rewrite Eg, fmap_cons. cbn [set_positions app]. change (IsFull kSentinel) with false. cbn [app].
    rewrite set_positions_full, (set_positions_none _ (IsFull <$> replicate _ _)), app_nil_r
      by (apply Forall_fmap, Forall_replicate; done).
    rewrite (list_fmap_ext (fun i => i - 1) (Z.add (-1))) by (intros; lia). by rewrite set_positions_shift.
  - pose proof (full_groups_spec m c real (ngroups W (capacity_ c)) 0 Ho Hb) as Hf. cbn zeta in Hf.
    rewrite drop_0 in Hf. change (Z.of_nat 0) with 0 in Hf.
    rewrite tally_app, fmap_app, (wf_size_contents m c real Hw), <- (tally_full m c real Ho) in *.
    change (tally IsFull [kSentinel]) with 0 in Hf. rewrite Z.add_0_r in Hf. rewrite Hf.
    + rewrite <- fmap_app, set_positions_full. cbn. by rewrite app_nil_r.
    + exists (Z.to_nat ((capacity_ c + 1) / W)). rewrite length_app. cbn [length]. split.
      * pose proof (io_m _ _ _ Ho) as Hm. assert (Hd : exists d, capacity_ c + 1 = W * d).
        { rewrite <- (cap_pow m c real Ho). pose proof (cap_pow m c real Ho) as Hp. destruct W_ok as [E|E]; rewrite E in *.
          - destruct (Z.lt_ge_cases m 3) as [Hlt|Hge]; [pose proof (Z.pow_le_mono_r 2 m 2 ltac:(lia) ltac:(lia)); lia|].
            exists (2 ^ (m - 3)). change 8 with (2 ^ 3). rewrite <- Z.pow_add_r by lia. f_equal. lia.
          - destruct (Z.lt_ge_cases m 4) as [Hlt|Hge]; [pose proof (Z.pow_le_mono_r 2 m 3 ltac:(lia) ltac:(lia)); lia|].
            exists (2 ^ (m - 4)). change 16 with (2 ^ 4). rewrite <- Z.pow_add_r by lia. f_equal. lia. }
        destruct Hd as [d Hd]. rewrite Hd, Z.mul_comm, Z.div_mul by lia. pose proof W_bytes. nia.
      * unfold ngroups. lia.
Qed.

(** ** Clearing *)

(** "Clears the backing array, either modifying it in place, or creating a
    new one": a table without elements, whose slots were destroyed before. *)
Record cleared (m : Z) c : Prop := {
  cl_m : 0 <= m <= 56;
  cl_cap : capacity_ c = capacity_of m;
  cl_size : size_ c = 0;
  cl_ctrl : control c = ResetCtrl_bytes W (capacity_of m);
  cl_slots : slot_array c = replicate (Z.to_nat (capacity_of m)) None;
  cl_growth : growth_info c = ginfo (CapacityToGrowth W (capacity_of m)) false;
}.

Class ClearLaw := {
  clear_array m c reuse :
    0 < m <= 56 -> capacity_ c = capacity_of m -> Z.even (size_ c) = true ->
    slot_array c = replicate (Z.to_nat (capacity_of m)) None ->
    exists m', cleared m' (ClearBackingArray c reuse);
}.

Context {CL : ClearLaw}.

Lemma cleared_wf m c : cleared m c -> wf m c (replicate (Z.to_nat (capacity_of m)) kEmpty) /\ contents c = [].
Proof.
  intros [Hm Hc Hs Hctrl Hsl Hg]. pose proof (growth_bounds W m W_ok Hm) as Hgb.
  split; [|by eapply contents_none]. constructor.
  - by apply in_order_empty.
  - by rewrite tally_replicate, Hs.
  - eexists _, false. rewrite !tally_replicate. cbn. split; [done|]. lia.
  - by rewrite tally_replicate.
Qed.

Lemma new_cleared : cleared 0 (CommonFields_new (V := V)).
Proof.
  constructor; try done; [|by destruct W_ok as [-> | ->]].
  unfold ResetCtrl_bytes, memset. cbn [control CommonFields_new]. change (capacity_of 0) with 0.
  replace (Z.to_nat (0 + 1 + NumClonedBytes W)) with (S (Z.to_nat (NumClonedBytes W)))
    by (unfold NumClonedBytes; pose proof W_pos; lia). done.
Qed.

Lemma new_wf : wf 0 (CommonFields_new (V := V)) [] /\ contents (CommonFields_new (V := V)) = [].
Proof. apply (cleared_wf 0), new_cleared. Qed.

Lemma set_positions_NoDup k l : NoDup (set_positions k l).
Proof.
  revert k. induction l as [|b l IH]; intros k; [constructor|]. cbn [set_positions].
  destruct b; [|by apply IH]. constructor; [|by apply IH]. rewrite set_positions_elem. lia.
Qed.

(** A loop that destroys some of the elements. *)
Lemma destroy_loop l c :
  NoDup l -> (forall i, i ∈ l -> exists v, holds c i v) ->
  exists c', ofold destroy_slot l c = Ret c' /\ capacity_ c' = capacity_ c /\ size_ c' = size_ c /\
    length (slot_array c') = length (slot_array c) /\
    forall q x, slot_array c' !! q = Some x -> (Z.of_nat q ∈ l /\ x = None) \/ ((Z.of_nat q ∉ l) /\ slot_array c !! q = Some x).
Proof.
  intros Hnd. revert c. induction Hnd as [|i l Hi _ IH]; intros c Hl.
  - exists c. split_and!; try done. intros q x Hx. right. split; [apply not_elem_of_nil|done].
  - destruct (Hl i ltac:(left)) as [v Hv]. cbn [ofold]. unfold destroy_slot. rewrite (slot_at_holds _ _ _ Hv). cbn [obind].
    pose proof Hv as [Hi0 Hsl]. pose proof (lookup_lt_Some _ _ _ Hsl) as Hlt.
    destruct (IH (set_slot c i None)) as (c' & E & Hc & Hs & Hln & Hq).
    + intros j Hj. destruct (Hl j ltac:(by right)) as [w Hw]. exists w.
      apply (holds_remove c (set_slot c i None) i); [done|lia|]. split; [by intros ->|done].
    + exists c'. split; [exact E|]. split; [done|]. split; [done|]. cbn in Hln. rewrite length_insert in Hln. split; [done|].
      intros q x Hx. rewrite elem_of_cons. destruct (Hq q x Hx) as [[Hin ->]|[Hnin Hx']]; [left; split; [by right|done]|].
      cbn in Hx'. destruct (decide (q = Z.to_nat i)) as [->|Hne].
      * rewrite list_lookup_insert_eq in Hx' by done. injection Hx' as <-. left. split; [left; lia|done].
      * rewrite list_lookup_insert_ne in Hx' by done. right. split; [|done]. intros [?|?]; [lia|done].
Qed.

Lemma destroy_slots_spec m c real :
  wf m c real -> exists c', destroy_slots c = Ret (Some c') /\ capacity_ c' = capacity_ c /\ size_ c' = size_ c /\
    slot_array c' = replicate (Z.to_nat (capacity_of m)) None.
Proof.
  intros Hw. pose proof (wf_order _ _ _ Hw) as Ho. unfold destroy_slots.
  rewrite (IterateOverFullSlots_spec m c real Hw). cbn [obind].
  assert (Hin : forall q, Z.of_nat q ∈ set_positions 0 (IsFull <$> real) <-> exists v, slot_array c !! q = Some (Some v)).
  { intros q. rewrite set_positions_elem, Z.sub_0_r, Nat2Z.id, list_lookup_fmap. split.
    - intros [_ Hb]. destruct (real !! q) as [b|] eqn:Eb; [|done]. injection Hb as Hb. by apply (full_iff c real m q b).
    - intros Hv. pose proof Hv as [v Hv']. pose proof (lookup_lt_Some _ _ _ Hv') as Hlt. rewrite (io_slots _ _ _ Ho) in Hlt.
      destruct (lookup_lt_is_Some_2 _ _ Hlt) as [b Hb]. rewrite Hb. split; [lia|]. cbn. f_equal. by apply (full_iff c real m q b). }
  destruct (destroy_loop (set_positions 0 (IsFull <$> real)) c) as (c' & -> & Hc & Hs & Hln & Hq).
  - apply set_positions_NoDup.
  - intros i Hi. pose proof (proj1 (proj1 (set_positions_elem _ _ _) Hi)) as Hi0.
    rewrite <- (Z2Nat.id i) in Hi by done. apply Hin in Hi as [v Hv]. by exists v.
  - cbn. exists c'. split; [done|]. split; [done|]. split; [done|].
    rewrite (io_slots _ _ _ Ho) in Hln. pose proof (io_len _ _ _ Ho) as Hl.
    apply list_eq_same_length with (n := Z.to_nat (capacity_of m)); [rewrite length_replicate; lia|lia|].
    intros q x y Hqn Hx Hy. rewrite lookup_replicate_2 in Hy by done. injection Hy as <-.
    destruct (Hq q x Hx) as [[_ ->]|[Hnin Hx']]; [done|].
    destruct x as [v|]; [|done]. destruct Hnin. apply Hin. by exists v.
Qed.

Lemma clear_spec m c real :
  wf m c real -> exists c' m' real', clear c = Ret (Some c') /\ wf m' c' real' /\ contents c' = [].
Proof.
  intros Hw. pose proof (wf_order _ _ _ Hw) as Ho. pose proof (io_m _ _ _ Ho) as Hm. unfold clear.
  destruct (Z.eqb_spec (capacity_ c) 0) as [Hz|Hnz].
  - exists c, m, real. split; [done|]. split; [done|]. pose proof (cap_len m c real Ho) as Hcl.
    pose proof (io_slots _ _ _ Ho) as Hsl. unfold contents.
    destruct (slot_array c); [done|]. cbn [length] in Hsl. lia.
  - destruct (destroy_slots_spec m c real Hw) as (c1 & -> & Hc1 & Hs1 & Hsl1). cbn [obind].
    rewrite (io_cap _ _ _ Ho) in Hc1, Hnz |- *.
    destruct (clear_array m c1 (capacity_of m <? 128)) as [m' Hcl]; [| done | | done |].
    + destruct (Z.eq_dec m 0) as [->|]; [done|lia].
    + rewrite Hs1, (wf_size _ _ _ Hw). apply Z.even_mul.
    + destruct (cleared_wf _ _ Hcl). eexists _, m', _. done.
Qed.

(** ** Iterators *)

Lemma leading_spec g :
  (forall i, Z.of_nat i < leading g -> exists b, g !! i = Some b /\ IsEmptyOrDeleted b = true) /\
  (leading g < Z.of_nat (length g) -> exists b, g !! Z.to_nat (leading g) = Some b /\ IsEmptyOrDeleted b = false).
Proof.
  induction g as [|b g [IH1 IH2]]; cbn [leading length]; [split; lia|].
  pose proof (leading_range g). destruct (IsEmptyOrDeleted b) eqn:Eb.
  - split.
    + intros [|i] Hi; [by exists b|]. apply IH1. lia.
    + intros Hl. destruct IH2 as (b' & Hb & Hs); [lia|]. exists b'.
      replace (Z.to_nat (1 + leading g)) with (S (Z.to_nat (leading g))) by lia. done.
  - split; [intros i; lia|]. intros _. by exists b.
Qed.

Section iterate.
Context (m : Z) (c : CommonFields V) (real : list Z) (Ho : in_order m c real).

Lemma ctrl_sentinel : control c !! Z.to_nat (capacity_ c) = Some kSentinel.
Proof.
  pose proof (cap_len m c real Ho) as Hcl. rewrite (io_ctrl _ _ _ Ho). unfold layout.
  by rewrite list_lookup_middle by lia.
Qed.

Lemma ctrl_slot p b : real !! p = Some b -> control c !! p = Some b.
Proof.
  intros Hb. pose proof (lookup_lt_Some _ _ _ Hb). rewrite (io_ctrl _ _ _ Ho). unfold layout. by rewrite lookup_app_l.
Qed.

(** The next position that is neither empty nor deleted. *)
Lemma skip_spec fuel i :
  0 <= i <= capacity_ c -> capacity_ c - i < Z.of_nat fuel ->
  exists j, skip_empty_or_deleted fuel c i = Ret (Some j) /\ i <= j <= capacity_ c /\
    (forall q, i <= q < j -> exists b, control c !! Z.to_nat q = Some b /\ IsEmptyOrDeleted b = true) /\
    exists b, control c !! Z.to_nat j = Some b /\ IsEmptyOrDeleted b = false.
Proof.
  revert i. induction fuel as [|fuel IH]; intros i Hi Hf; [lia|]. cbn [skip_empty_or_deleted].
  destruct (load_at m c real Ho i Hi) as (g & Eg & Hw & Hg). pose proof W_pos as HW. pose proof W_bytes as HWb.
  destruct (lookup_lt_is_Some_2 g 0 ltac:(rewrite (proj1 Hw); lia)) as [b0 Hb0].
  pose proof Hb0 as Hb. rewrite Hg, Nat.add_0_r in Hb by lia. unfold ctrl_byte. rewrite Hb. cbn [obind].
  destruct (IsEmptyOrDeleted b0) eqn:Es; [|exists i; split; [done|]; split; [lia|]; split; [lia|by exists b0]].
  rewrite Eg. cbn [obind]. rewrite (leading_count g Hw). cbn [obind].
  destruct (leading_spec g) as [Hlt Hat]. pose proof (leading_range g) as Hr. rewrite (proj1 Hw) in Hr, Hat.
  assert (H1 : 1 <= leading g).
  { destruct g as [|b1 g]; [done|]. injection Hb0 as ->. cbn [leading]. rewrite Es. pose proof (leading_range g). lia. }
  assert (Hc : i + leading g <= capacity_ c).
  { destruct (Z.le_gt_cases (i + leading g) (capacity_ c)) as [|Hgt]; [done|exfalso].
    destruct (Hlt (Z.to_nat (capacity_ c - i)) ltac:(lia)) as (b & Hb1 & Hs). rewrite Hg in Hb1 by lia.
    replace (Z.to_nat i + Z.to_nat (capacity_ c - i))%nat with (Z.to_nat (capacity_ c)) in Hb1 by lia.
    rewrite ctrl_sentinel in Hb1. injection Hb1 as <-. done. }
  destruct (IH (i + leading g) ltac:(lia) ltac:(lia)) as (j & E & Hj & Hsp & Hend).
  exists j. split; [done|]. split; [lia|]. split; [|done]. intros q Hq.
  destruct (Z.lt_ge_cases q (i + leading g)) as [Hql|Hqg]; [|apply Hsp; lia].
  destruct (Hlt (Z.to_nat (q - i)) ltac:(lia)) as (b & Hb1 & Hs). rewrite Hg in Hb1 by lia.
  replace (Z.to_nat i + Z.to_nat (q - i))%nat with (Z.to_nat q) in Hb1 by lia. by exists b.
Qed.

(** No element lies between two positions that are skipped. *)
Lemma skip_nothing (i j : nat) :
  (i <= j)%nat -> Z.of_nat j <= capacity_ c ->
  (forall q, Z.of_nat i <= q < Z.of_nat j -> exists b, control c !! Z.to_nat q = Some b /\ IsEmptyOrDeleted b = true) ->
  omap id (drop i (slot_array c)) = omap id (drop j (slot_array c)).
Proof.
  intros Hij Hj Hsp. pose proof (cap_len m c real Ho) as Hcl. pose proof (io_slots _ _ _ Ho) as Hsl.
  induction Hij as [|j Hij IH]; [done|]. rewrite IH; [|lia|intros q Hq; apply Hsp; lia].
  destruct (Hsp (Z.of_nat j) ltac:(lia)) as (b & Hb & Hs). rewrite Nat2Z.id in Hb.
  destruct (lookup_lt_is_Some_2 real j ltac:(lia)) as [b' Hb']. pose proof (ctrl_slot _ _ Hb') as Hb2.
  rewrite Hb in Hb2. injection Hb2 as <-.
  pose proof (free_slot m c real (Z.of_nat j) b Ho ltac:(lia)) as Hfree. rewrite Nat2Z.id in Hfree.
  rewrite (drop_S _ _ _ (Hfree Hb' (special_not_full b Hs))). done.
Qed.

(** Where a skip ends: at an element, or at the sentinel. *)
Lemma skip_end j b :
  0 <= j <= capacity_ c -> control c !! Z.to_nat j = Some b -> IsEmptyOrDeleted b = false ->
  (j < capacity_ c /\ b <> kSentinel /\ exists v, holds c j v) \/ (j = capacity_ c /\ b = kSentinel).
Proof.
  intros Hj Hb Hs. pose proof (cap_len m c real Ho) as Hcl.
  destruct (Z.eq_dec j (capacity_ c)) as [->|Hne].
  - right. rewrite ctrl_sentinel in Hb. by injection Hb as <-.
  - left. split; [lia|]. destruct (lookup_lt_is_Some_2 real (Z.to_nat j) ltac:(lia)) as [b' Hb'].
    pose proof (ctrl_slot _ _ Hb') as Hb2. rewrite Hb in Hb2. injection Hb2 as <-.
    pose proof (Forall_lookup_1 _ _ _ _ (io_bytes _ _ _ Ho) Hb') as [Hct Hns]. split; [done|].
    destruct (proj1 (full_iff c real m _ b Ho Hb')) as [v Hv].
    + destruct Hct as [-> | [-> | [-> | Hct]]]; try done. unfold IsFull. lia.
    + exists v. split; [lia|done].
Qed.

Lemma for_each_spec fuel i v :
  holds c i v -> capacity_ c - i <= Z.of_nat fuel ->
  for_each fuel c (At i) = Ret (Some (omap id (drop (Z.to_nat i) (slot_array c)))).
Proof.
  revert i v. induction fuel as [|fuel IH]; intros i v Hv Hf; pose proof (holds_range m c real Ho i v Hv) as Hi; [lia|].
  cbn [for_each]. rewrite (slot_at_holds _ _ _ Hv). cbn [obind]. unfold it_next, skip_fuel.
  destruct (skip_spec (S (S (Z.to_nat (capacity_ c)))) (i + 1)) as (j & -> & Hj & Hsp & b & Hb & Hs); [lia..|].
  cbn [obind]. unfold ctrl_byte. rewrite Hb. cbn [obind].
  rewrite (drop_S _ _ _ (proj2 Hv)). change (omap id (Some v :: ?l)) with (v :: omap id l).
  rewrite (skip_nothing (S (Z.to_nat i)) (Z.to_nat j)); [|lia|lia|intros q Hq; apply Hsp; lia].
  pose proof (io_slots _ _ _ Ho) as Hsl. pose proof (cap_len m c real Ho) as Hcl.
  destruct (skip_end j b ltac:(lia) Hb Hs) as [(Hlt & Hns & w & Hw)|[-> ->]].
  - destruct (Z.eqb_spec b kSentinel); [done|]. rewrite (IH j w Hw) by lia. done.
  - change (kSentinel =? kSentinel) with true. cbn iota. rewrite (drop_ge (slot_array c)) by lia. by destruct fuel.
Qed.
End iterate.

(** The loop over the iterators gives the elements in the order of the slots. *)
Lemma elements_spec m c real : wf m c real -> range_for c = Ret (Some (contents c)).
Proof.
  intros Hw. pose proof (wf_order _ _ _ Hw) as Ho. unfold range_for, begin, empty.
  pose proof (cap_len m c real Ho) as Hcl. pose proof (wf_size_contents m c real Hw) as Hsz.
  destruct (Z.eqb_spec (size c) 0) as [Hz|Hnz].
  - cbn [obind]. assert (contents c = []) as -> by (apply length_zero_iff_nil; lia). by destruct (Z.to_nat (capacity_ c)).
  - unfold skip_fuel. destruct (skip_spec m c real Ho (S (S (Z.to_nat (capacity_ c)))) 0) as (j & -> & Hj & Hsp & b & Hb & Hs); [lia..|].
    cbn [obind fmap option_fmap option_map].
    assert (Ec : contents c = omap id (drop (Z.to_nat j) (slot_array c))).
    { unfold contents. rewrite <- (skip_nothing m c real Ho 0 (Z.to_nat j)); [done|lia|lia|intros q Hq; apply Hsp; lia]. }
    destruct (skip_end m c real Ho j b Hj Hb Hs) as [(Hlt & _ & v & Hv)|[-> _]].
    + rewrite Ec. apply (for_each_spec m c real Ho _ _ v Hv). lia.
    + rewrite drop_ge in Ec by (rewrite (io_slots _ _ _ Ho); lia). rewrite Ec in Hsz. done.
Qed.

(** ** [reserve] and [rehash] *)

(** After [reserve] that many elements fit without another resize. *)
Lemma reserve_spec m c real n :
  wf m c real -> 0 <= n < 2 ^ 50 -> exists c' m' real', reserve c n = Ret c' /\ wf m' c' real' /\
    contents c' ≡ₚ contents c /\ n <= size c' + GetGrowthLeft (growth_info c').
Proof.
  intros Hw Hn. pose proof (wf_order _ _ _ Hw) as Ho. pose proof (io_m _ _ _ Ho) as Hm.
  destruct (wf_left m c real Hw) as (left & del & Hg & Hl & Hb & _).
  pose proof (wf_size_growth m c real Hw) as Hsz. pose proof (growth_bounds W m W_ok Hm). pose proof (capacity_pos m Hm).
  unfold reserve. rewrite Hg, ginfo_left by done. rewrite wrapU_id by (unfold inU; lia).
  destruct (Z.ltb_spec (size c + left) n) as [Hlt|Hge].
  - destruct (reserve_room W n W_ok Hn) as (m' & Hm' & -> & Hroom).
    destruct (resize_spec m m' c real Hw Hm' ltac:(lia)) as (c' & real' & E & Hrs & _).
    exists c', m', real'. split; [done|]. split; [apply (wf_resized m m' c c' real real'); [done|lia|done]|]. split; [apply Hrs|].
    pose proof (growth_bounds W m' W_ok ltac:(lia)). pose proof (capacity_pos m' ltac:(lia)).
    assert (size c' = size c) as -> by (unfold size; by rewrite (rs_size _ _ _ _ Hrs)).
    rewrite (rs_growth _ _ _ _ Hrs), ginfo_left by lia. lia.
  - exists c, m, real. rewrite Hg, ginfo_left by done. done.
Qed.

Lemma no_contents m c real : in_order m c real -> contents c = [] ->
  slot_array c = replicate (Z.to_nat (capacity_of m)) None.
Proof.
  intros Ho Hc. pose proof (io_slots _ _ _ Ho) as Hsl. pose proof (io_len _ _ _ Ho) as Hl.
  replace (Z.to_nat (capacity_of m)) with (length (slot_array c)) by lia. clear -Hc. unfold contents in Hc.
  induction (slot_array c) as [|[v|] l IH]; [done|done|]. cbn [length replicate]. f_equal. by apply IH.
Qed.

Lemma NormalizeCapacity_lor a b m :
  0 <= a < 2 ^ 50 -> 0 <= b -> 0 < m <= 56 -> NormalizeCapacity b = capacity_of m -> b < 2 ^ 64 ->
  exists m', m <= m' <= 56 /\ NormalizeCapacity (Z.lor a b) = capacity_of m' /\ a <= capacity_of m'.
Proof.
  intros Ha Hb Hm Eb Hb64. destruct (NormalizeCapacity_spec b ltac:(lia)) as (m1 & Hm1 & E1 & Hle1 & Hmin1).
  rewrite Eb in E1. assert (m1 = m) as ->.
  { unfold capacity_of in E1. apply (Z.pow_inj_r 2); lia. }
  assert (H56 : b < 2 ^ 56) by (pose proof (capacity_pos m ltac:(lia)); lia).
  assert (Hlor : 0 <= Z.lor a b < 2 ^ 56).
  { split; [apply Z.lor_nonneg; lia|]. destruct (Z.eq_dec (Z.lor a b) 0) as [->|]; [lia|].
    pose proof (proj2 (Z.lor_nonneg a b) (conj (proj1 Ha) Hb)).
    apply Z.log2_lt_pow2; [lia|]. rewrite Z.log2_lor by lia.
    assert (forall x, 0 <= x < 2 ^ 56 -> Z.log2 x < 56) as Hlg.
    { intros x Hx. destruct (Z.eq_dec x 0) as [->|]; [done|]. apply Z.log2_lt_pow2; lia. }
    pose proof (Hlg a ltac:(lia)). pose proof (Hlg b ltac:(lia)). lia. }
  assert (Hge : a <= Z.lor a b /\ b <= Z.lor a b).
  { split; apply Z.ldiff_le; try lia; apply Z.bits_inj'; intros i Hi; rewrite Z.ldiff_spec, Z.lor_spec, Z.bits_0;
      by destruct (Z.testbit a i), (Z.testbit b i). }
  destruct (NormalizeCapacity_spec (Z.lor a b) ltac:(lia)) as (m' & Hm' & E' & Hle' & Hmin').
  exists m'. split; [|split; [done|lia]]. split; [apply Hmin1; lia|]. apply Hmin'; [lia|]. unfold capacity_of. lia.
Qed.

(** After [rehash] the capacity is the asked one or more. *)
Lemma rehash_spec m c real n :
  wf m c real -> 0 <= n < 2 ^ 50 -> size c < 2 ^ 50 -> exists c' m' real', rehash c n = Ret c' /\ wf m' c' real' /\
    contents c' ≡ₚ contents c /\ n <= capacity_ c'.
Proof.
  intros Hw Hn Hs. pose proof (wf_order _ _ _ Hw) as Ho. pose proof (io_m _ _ _ Ho) as Hm.
  pose proof (wf_size_growth m c real Hw) as Hsz. pose proof (io_cap _ _ _ Ho) as Ec.
  pose proof (capacity_pos m Hm) as Hcp. unfold rehash.
  destruct ((n =? 0) && (capacity_ c =? 0)) eqn:E0; [exists c, m, real; split; [done|]; split; [done|]; split; [done|lia]|].
  destruct ((n =? 0) && empty c) eqn:E1.
  - assert (Hc : contents c = []).
    { apply length_zero_iff_nil. pose proof (wf_size_contents m c real Hw). unfold empty in E1. lia. }
    assert (Hm0 : m <> 0) by (intros ->; change (capacity_of 0) with 0 in Ec; lia).
    destruct (clear_array m c false) as [m' Hcl]; [lia|done| |by apply (no_contents m c real)|].
    + rewrite (wf_size _ _ _ Hw). apply Z.even_mul.
    + destruct (cleared_wf _ _ Hcl) as [Hw' Hc']. eexists _, m', _. split; [done|]. split; [exact Hw'|].
      rewrite Hc, Hc'. split; [done|]. rewrite (cl_cap _ _ Hcl). pose proof (capacity_pos m' (cl_m _ _ Hcl)). lia.
  - destruct (reserve_room W (size c) W_ok ltac:(lia)) as (m0 & Hm0 & En & Hroom).
    assert (Hlo : 0 <= GrowthToLowerboundCapacity W (size c) < 2 ^ 64).
    { unfold GrowthToLowerboundCapacity. destruct ((W =? 8) && (size c =? 7)); [lia|]. apply wrapU_range. lia. }
    destruct (NormalizeCapacity_lor n _ m0 Hn (proj1 Hlo) Hm0 En (proj2 Hlo)) as (m' & Hm' & -> & Hnm).
    destruct ((n =? 0) || (capacity_ c <? capacity_of m')) eqn:E2.
    + assert (Hroom' : size c <= CapacityToGrowth W (capacity_of m')).
      { destruct (Z.eq_dec m' m0) as [->|]; [done|]. pose proof (growth_mono W m0 m' W_ok ltac:(lia) ltac:(lia)). lia. }
      destruct (resize_spec m m' c real Hw ltac:(lia) Hroom') as (c' & real' & E & Hrs & _).
      exists c', m', real'. split; [done|]. split; [by apply (wf_resized m m' c c' real real')|]. split; [apply Hrs|].
      rewrite (io_cap _ _ _ (rs_order _ _ _ _ Hrs)). lia.
    + exists c, m, real. split; [done|]. split; [done|]. split; [done|]. lia.
Qed.

End resizing.
