(* ===== verification/SwissMulti.v ===== *)
(** * Two hash tables ([absl/container/internal/raw_hash_set.h])

    The operations of a table that take another one: copying, assignment,
    merging, comparison, swapping.  A copy inside one group does not probe: it
    steps through the positions by an odd number, which meets each of them
    once. *)

From S2P Require Import Prelude Bits SwissGroup SwissProbe SwissTable.
Local Open Scope Z_scope.
Local Open Scope list_scope.

Section operations.
Context {K V : Type} `{P : Policy K V} {Gs : Groups} {Cc : RawHashSetCc V}.
Implicit Types c : CommonFields V.
Abbreviation W := (kWidth Group).

(** ** Copying *)

(** The callback of the copy constructor: the table under construction and
    the last position. *)
Definition copy_slot (that : CommonFields V) (shift cap : Z) (i : Z) (s : CommonFields V * Z) :
    outcome (CommonFields V * Z) :=
  let '(c, offset) := s in
  do v <- slot_at that i;
  do offset <- (if shift =? 0 then
      do target <- find_first_non_full c (Hash (key_of v));
      match target with Some target => Ret (fi_offset target) | None => UB end
    else Ret (Z.land (u64 (offset + shift)) cap));
  do h2 <- ctrl_byte that i;
  do c <- SetCtrl c offset (u8 h2);
  Ret (set_slot c offset (Some v), offset).

Definition raw_hash_set_copy (that : CommonFields V) : outcome (option (CommonFields V)) :=
  do c <- raw_hash_set_new (GrowthToLowerboundCapacity W (size that));
  let size := size that in
  if size =? 0 then Ret (Some c)
  else
    let cap := capacity_ c in
    let shift := if is_single_group W cap then Z.lor (PerTableSalt (control_at c)) 1 else 0 in
    do l <- IterateOverFullSlots that;
    match l with
    | None => Ret None
    | Some l =>
        do s <- ofold (copy_slot that shift cap) l (c, cap);
        let c := set_size (fst s) size in
        Ret (Some (set_growth c (OverwriteManyEmptyAsFull (growth_info c) size)))
    end.

Definition destructor_impl c : outcome (option unit) :=
  if capacity_ c =? 0 then Ret (Some tt)
  else do r <- destroy_slots c; Ret ((fun _ => tt) <$> r).

(** [operator=(const raw_hash_set&)] of another table. *)
Definition copy_assign c (that : CommonFields V) : outcome (option (CommonFields V)) :=
  do tmp <- raw_hash_set_copy that;
  match tmp with
  | None => Ret None
  | Some tmp => do r <- destructor_impl c; Ret ((fun _ => tmp) <$> r)
  end.

(** ** Merging *)

(** [insert_slot] of [merge]: the object moves when its key is new. *)
Definition merge_slot c (src : CommonFields V) (i : Z) : outcome (option (CommonFields V * CommonFields V)) :=
  do v <- slot_at src i;
  do r <- emplace c v;
  match r with
  | None => Ret None
  | Some (c, _, inserted) =>
      if inserted : bool then Ret (Some (c, EraseMetaOnly (set_slot src i None) i)) else Ret (Some (c, src))
  end.

Fixpoint merge_loop (fuel : nat) c (src : CommonFields V) (it : iterator) :
    outcome (option (CommonFields V * CommonFields V)) :=
  match it with
  | End => Ret (Some (c, src))
  | At i =>
      match fuel with
      | O => Ret None
      | S fuel =>
          do next <- it_next src i;
          match next with
          | None => Ret None
          | Some next =>
              do r <- merge_slot c src i;
              match r with
              | None => Ret None
              | Some (c, src) => merge_loop fuel c src next
              end
          end
      end
  end.

Definition merge c (src : CommonFields V) : outcome (option (CommonFields V * CommonFields V)) :=
  do it <- begin src;
  match it with
  | None => Ret None
  | Some it => merge_loop (Z.to_nat (capacity_ src)) c src it
  end.

(** ** Comparison *)

Context (value_eq : V -> V -> bool).

(** Whether each of these elements is found in the other table, and equal. *)
Fixpoint all_found (inner : CommonFields V) (l : list V) : outcome (option bool) :=
  match l with
  | [] => Ret (Some true)
  | v :: l =>
      do it <- find inner (key_of v);
      match it with
      | None => Ret None
      | Some End => Ret (Some false)
      | Some (At i) =>
          do w <- slot_at inner i;
          if value_eq w v then all_found inner l else Ret (Some false)
      end
  end.

Definition equals (a b : CommonFields V) : outcome (option bool) :=
  if negb (size a =? size b) then Ret (Some false)
  else
    let '(outer, inner) := if capacity_ b <? capacity_ a then (b, a) else (a, b) in
    do l <- range_for outer;
    match l with None => Ret None | Some l => all_found inner l end.
End operations.

Section lists.
Context {K V : Type} `{P : Policy K V}.

(** ** Lists of distinct keys *)

Definition lookup_key (l : list V) (k : K) : option V := List.find (fun w => Eq k (key_of w)) l.

Fixpoint distinct (l : list V) : Prop :=
  match l with
  | [] => True
  | v :: l => (forall w, w ∈ l -> Eq (key_of v) (key_of w) = false) /\ distinct l
  end.

Context {PL : PolicyLaws P}.

#[export] Instance distinct_perm : Proper ((≡ₚ) ==> impl) distinct.
Proof.
  intros l l' Hp. induction Hp as [|v l l' Hp IH|v w l|l1 l2 l3 _ IH1 _ IH2]; unfold impl in *; cbn [distinct].
  - done.
  - intros [Hv Hl]. split; [|by apply IH]. intros w Hw. apply Hv. by rewrite Hp.
  - intros (Hw & Hv & Hl). split; [|split; [|done]].
    + intros u [->|Hu]%elem_of_cons; [|by apply Hv]. rewrite Eq_sym. apply Hw. left.
    + intros u Hu. apply Hw. by right.
  - auto.
Qed.

Lemma lookup_key_some l k w : distinct l -> w ∈ l -> Eq k (key_of w) = true -> lookup_key l k = Some w.
Proof.
  induction l as [|v l IH]; [by intros _ ?%not_elem_of_nil|]. intros [Hv Hl] Hw Ek. unfold lookup_key. cbn [List.find].
  destruct (Eq k (key_of v)) eqn:E.
  - apply elem_of_cons in Hw as [->|Hw]; [done|exfalso]. specialize (Hv w Hw).
    rewrite (Eq_trans (key_of v) k (key_of w)) in Hv; [done| |done]. by rewrite Eq_sym.
  - apply elem_of_cons in Hw as [->|Hw]; [congruence|]. by apply IH.
Qed.

Lemma lookup_key_none l k : lookup_key l k = None <-> forall w, w ∈ l -> Eq k (key_of w) = false.
Proof.
  unfold lookup_key. split.
  - intros Hn w Hw. apply (List.find_none _ _ Hn), list_elem_of_In, Hw.
  - intros Hl. destruct (List.find _ l) as [w|] eqn:E; [|done]. apply List.find_some in E as [Hin Ek].
    rewrite Hl in Ek; [done|]. by apply list_elem_of_In.
Qed.

Lemma filter_key l k v l' :
  distinct l -> l ≡ₚ v :: l' -> Eq k (key_of v) = true -> List.filter (fun w => negb (Eq k (key_of w))) l ≡ₚ l'.
Proof.
  intros Hd Hp Ek. assert (Hf : forall l1 l2 : list V, l1 ≡ₚ l2 ->
    List.filter (fun w => negb (Eq k (key_of w))) l1 ≡ₚ List.filter (fun w => negb (Eq k (key_of w))) l2).
  { intros l1 l2 H12. induction H12 as [|x l1 l2 _ IH|x y l0|? ? ? _ IH1 _ IH2]; [done| | |by rewrite IH1].
    - cbn [List.filter]. destruct (negb _); [by constructor|done].
    - cbn [List.filter]. destruct (negb (Eq k (key_of x))), (negb (Eq k (key_of y))); try done. apply Permutation_swap. }
  rewrite (Hf _ _ Hp). cbn [List.filter]. rewrite Ek. cbn [negb].
  rewrite Hp in Hd. destruct Hd as [Hv _]. clear Hp Hf. induction l' as [|w l' IH]; [done|]. cbn [List.filter].
  assert (Eq k (key_of w) = false) as ->.
  { destruct (Eq k (key_of w)) eqn:E; [|done]. rewrite <- (Hv w) by left. symmetry.
    apply (Eq_trans _ k); [by rewrite Eq_sym|done]. }
  cbn [negb]. constructor. apply IH. intros u Hu. apply Hv. by right.
Qed.
End lists.

Section proofs.
Context {K V : Type} `{P : Policy K V} {Gs : Groups} {Cc : RawHashSetCc V}.
Implicit Types (c : CommonFields V) (real : list Z).
Abbreviation W := (kWidth Group).
Context {GL : GroupsLaws Gs} {PL : PolicyLaws P}.

(** ** The elements at a list of positions *)

Definition at_positions c (l : list Z) : list V := omap (fun i => mjoin (slot_array c !! Z.to_nat i)) l.

Lemma positions_objects (slots : list (option V)) real k :
  length slots = length real ->
  (forall i b, real !! i = Some b -> IsFull b = true <-> exists v, slots !! i = Some (Some v)) ->
  omap (fun i => mjoin (slots !! Z.to_nat (i - k))) (set_positions k (IsFull <$> real)) = omap id slots.
Proof.
  revert slots k. induction real as [|b real IH]; intros [|x slots] k Hl Hi; try discriminate Hl; [done|].
  rewrite fmap_cons. cbn [set_positions]. rewrite omap_app.
  assert (E : omap (fun i => mjoin ((x :: slots) !! Z.to_nat (i - k))) (set_positions (k + 1) (IsFull <$> real)) = omap id slots).
  { rewrite <- (IH slots (k + 1)); [|by injection Hl|intros i; apply (Hi (S i))].
    apply list_omap_ext, Forall2_same_length_lookup_2. { done. }
    intros i y z Hy Hz. rewrite Hy in Hz. injection Hz as <-.
    apply list_elem_of_lookup_2, set_positions_elem in Hy as [Hky _].
    replace (Z.to_nat (y - k)) with (S (Z.to_nat (y - (k + 1)))) by lia. done. }
  rewrite E. clear E. pose proof (Hi 0%nat b eq_refl) as H0. simpl in H0. destruct x as [v|].
  - rewrite (proj2 H0 (ex_intro _ v eq_refl)). cbn. by rewrite Z.sub_diag.
  - destruct (IsFull b); [by destruct (proj1 H0 eq_refl)|done].
Qed.

Lemma at_all_positions m c real :
  in_order m c real -> at_positions c (set_positions 0 (IsFull <$> real)) = contents c.
Proof.
  intros Ho. unfold at_positions, contents.
  rewrite <- (positions_objects (slot_array c) real 0); [|apply (io_slots _ _ _ Ho)|intros i b; apply (full_iff c real m i b Ho)].
  apply list_omap_ext, Forall2_same_length_lookup_2; [done|]. intros i y z Hy Hz. rewrite Hy in Hz. injection Hz as <-.
  by rewrite Z.sub_0_r.
Qed.

Lemma full_positions m c real i :
  in_order m c real -> i ∈ set_positions 0 (IsFull <$> real) -> exists v, holds c i v.
Proof.
  intros Ho [Hi Hb]%set_positions_elem. rewrite Z.sub_0_r, list_lookup_fmap in Hb.
  destruct (real !! Z.to_nat i) as [b|] eqn:Eb; [|done]. injection Hb as Hb.
  destruct (proj1 (full_iff c real m _ b Ho Eb) Hb) as [v Hv]. by exists v.
Qed.

(** ** Copying *)

(** An element put into an empty place of a table under construction. *)
Lemma place_step m c real p v :
  in_order m c real -> good_place c real (Hash (key_of v)) p -> real !! Z.to_nat p = Some kEmpty ->
  (forall q w, holds c q w -> Eq (key_of v) (key_of w) = false) ->
  let h := hash_H2 (Hash (key_of v)) in
  exists c1, SetCtrl c p h = Ret c1 /\ in_order m (set_slot c1 p (Some v)) (<[Z.to_nat p := h]> real) /\
    contents (set_slot c1 p (Some v)) ≡ₚ v :: contents c /\ same_books c (set_slot c1 p (Some v)) /\
    tally IsDeleted (<[Z.to_nat p := h]> real) = tally IsDeleted real.
Proof.
  intros Ho Hp Hb Hnew h. pose proof Hp as (Hr & _). eexists. split; [by apply (SetCtrl_spec m c c real)|].
  split; [by apply (in_order_place m c _ real p v)|]. split; [|split; [done|]].
  - unfold contents. cbn. apply omap_insert_none. eapply free_slot; [exact Ho|lia|exact Hb|done].
  - rewrite (tally_insert _ _ _ _ _ Hb). pose proof (hash_H2_range (Hash (key_of v))) as Hh. fold h in Hh.
    unfold IsDeleted at 2 3, kDeleted. change (kEmpty =? -2) with false. destruct (Z.eqb_spec h (-2)); lia.
Qed.

(** The positions a copy steps through inside one group. *)
Definition stepped (m shift : Z) (k : nat) : Z := (capacity_of m + Z.of_nat k * shift) mod 2 ^ m.

Lemma stepped_S m shift k : 0 <= m <= 56 ->
  Z.land (u64 (stepped m shift k + shift)) (capacity_of m) = stepped m shift (S k).
Proof.
  intros Hm. rewrite land_u64_capacity by done. unfold stepped. rewrite Zplus_mod_idemp_l. f_equal. lia.
Qed.

Lemma stepped_apart m shift j k :
  0 <= m -> Z.Odd shift -> (j < k)%nat -> Z.of_nat k < 2 ^ m -> stepped m shift j <> stepped m shift k.
Proof.
  intros Hm Hs Hjk Hk E. unfold stepped in E. pose proof (Z.pow_pos_nonneg 2 m ltac:(lia) Hm) as Hp.
  assert (Hd : (2 ^ m | shift * (Z.of_nat k - Z.of_nat j))).
  { exists ((capacity_of m + Z.of_nat k * shift) / 2 ^ m - (capacity_of m + Z.of_nat j * shift) / 2 ^ m).
    pose proof (Z.div_mod (capacity_of m + Z.of_nat k * shift) (2 ^ m) ltac:(lia)).
    pose proof (Z.div_mod (capacity_of m + Z.of_nat j * shift) (2 ^ m) ltac:(lia)). lia. }
  apply Z.gauss in Hd; [|by apply pow2_odd_coprime]. apply Z.divide_pos_le in Hd; lia.
Qed.

Lemma salt_odd x : Z.Odd (Z.lor x 1).
Proof. apply Z.odd_spec. rewrite <- Z.bit0_odd, Z.lor_spec. by rewrite orb_true_r. Qed.

(** The state of the copy after [k] elements: [shift] is 0, or the positions
    that have been taken are the first [k] steps. *)
Definition copying (m shift : Z) (k : nat) c real (offset : Z) : Prop :=
  in_order m c real /\ tally IsDeleted real = 0 /\ length (contents c) = k /\
  (shift <> 0 -> Z.Odd shift /\ is_single_group W (capacity_of m) = true /\ offset = stepped m shift k /\
    forall q b, real !! q = Some b -> b = kEmpty \/ exists j, (1 <= j <= k)%nat /\ Z.of_nat q = stepped m shift j).

Lemma stepped_0 m shift : 0 <= m <= 56 -> stepped m shift 0 = capacity_of m.
Proof.
  intros Hm. unfold stepped. rewrite Z.mul_0_l, Z.add_0_r. apply Z.mod_small. pose proof (capacity_pos m Hm).
  unfold capacity_of in *. lia.
Qed.

(** The next position is a place for any element. *)
Lemma copy_target m shift k c real offset hash :
  copying m shift k c real offset -> Z.of_nat k < capacity_of m ->
  exists p, (if shift =? 0 then
      do target <- find_first_non_full c hash;
      match target with Some target => Ret (fi_offset target) | None => UB end
    else Ret (Z.land (u64 (offset + shift)) (capacity_of m))) = Ret p /\
    good_place c real hash p /\ real !! Z.to_nat p = Some kEmpty /\
    (shift <> 0 -> p = stepped m shift (S k)).
Proof.
  intros (Ho & Hdel & Hk & Hst) Hlt. pose proof (io_m _ _ _ Ho) as Hm. pose proof (cap_len m c real Ho) as Hcl.
  pose proof (io_cap _ _ _ Ho) as Ec. pose proof (capacity_pos m Hm) as Hcp.
  assert (Hpow : 2 ^ m = capacity_of m + 1) by (unfold capacity_of; lia).
  destruct (Z.eqb_spec shift 0) as [Hz|Hnz].
  - destruct (find_first_non_full_spec m c real Ho hash) as (fi & -> & Hp).
    { apply (room_special m c real Ho). lia. }
    cbn [obind]. exists (fi_offset fi). split; [done|]. split; [done|]. split; [|done].
    pose proof Hp as (Hr & _ & b & Hb & Hs). rewrite Hb. f_equal.
    pose proof (Forall_lookup_1 _ _ _ _ (io_bytes _ _ _ Ho) Hb) as [Hct Hns].
    destruct Hct as [-> | [-> | [-> | Hct]]]; try done.
    + exfalso. pose proof (tally_insert IsDeleted real _ _ kEmpty Hb) as Ht. rewrite Hdel in Ht. cbn in Ht.
      pose proof (tally_range IsDeleted (<[Z.to_nat (fi_offset fi) := kEmpty]> real)). lia.
    + apply special_not_full in Hs. unfold IsFull in Hs. lia.
  - destruct (Hst Hnz) as (Hodd & Hsg & -> & Hreal). rewrite stepped_S by done.
    exists (stepped m shift (S k)). split; [done|].
    assert (Hr : 0 <= stepped m shift (S k) <= capacity_of m).
    { unfold stepped. pose proof (Z.mod_pos_bound (capacity_of m + Z.of_nat (S k) * shift) (2 ^ m)). lia. }
    assert (Hnc : stepped m shift (S k) <> capacity_of m).
    { intros E. apply (stepped_apart m shift 0 (S k)); [lia|done|lia|lia|]. by rewrite stepped_0. }
    assert (Hfree : real !! Z.to_nat (stepped m shift (S k)) = Some kEmpty).
    { destruct (lookup_lt_is_Some_2 real (Z.to_nat (stepped m shift (S k))) ltac:(lia)) as [b Hb]. rewrite Hb.
      destruct (Hreal _ _ Hb) as [->|(j & Hj & E)]; [done|exfalso]. rewrite Z2Nat.id in E by lia. symmetry in E. revert E.
      apply stepped_apart; [lia|done|lia|lia]. }
    split; [|done]. split; [lia|]. split; [|by exists kEmpty]. exists 0%nat. split; [|lia].
    apply (covers_single m c real); [done|done|lia].
Qed.

Lemma copy_loop m shift mt (that : CommonFields V) treal l c real offset :
  in_order mt that treal -> NoDup l -> (forall i, i ∈ l -> exists v, holds that i v) ->
  copying m shift (length (contents c)) c real offset ->
  Z.of_nat (length (contents c) + length l) <= capacity_of m ->
  (forall i v q w, i ∈ l -> holds that i v -> holds c q w -> Eq (key_of v) (key_of w) = false) ->
  exists c' offset' real', ofold (copy_slot that shift (capacity_of m)) l (c, offset) = Ret (c', offset') /\
    in_order m c' real' /\ tally IsDeleted real' = 0 /\ contents c' ≡ₚ at_positions that l ++ contents c /\ same_books c c'.
Proof.
  intros Hthat Hnd. revert c real offset. induction Hnd as [|i l Hil Hnd IH]; intros c real offset Hl Hcopy Hroom Hnew.
  - exists c, offset, real. destruct Hcopy as (Ho & Hd & _). done.
  - destruct (Hl i ltac:(left)) as [v Hv]. cbn [length] in Hroom.
    destruct (copy_target m shift _ c real offset (Hash (key_of v)) Hcopy ltac:(lia)) as (p & Ep & Hp & Hb & Hst).
    pose proof Hcopy as (Ho & Hd & _ & Hst0).
    destruct (place_step m c real p v Ho Hp Hb) as (c1 & E1 & Ho1 & Hc1 & Hbooks & Hd1).
    { intros q w Hq. apply (Hnew i v q w); [left|done|done]. }
    cbn [ofold]. unfold copy_slot at 1. rewrite (slot_at_holds _ _ _ Hv). cbn [obind].
    rewrite Ep. cbn [obind]. unfold ctrl_byte. rewrite (ctrl_slot mt that treal Hthat _ _ (holds_byte mt that treal Hthat i v Hv)).
    cbn [obind]. pose proof (hash_H2_range (Hash (key_of v))) as Hh. rewrite (wrapU_id 8) by (unfold inU; lia).
    rewrite E1. cbn [obind]. set (c2 := set_slot c1 p (Some v)) in *.
    destruct (IH c2 (<[Z.to_nat p := hash_H2 (Hash (key_of v))]> real) p) as (c' & offset' & real' & E & Ho' & Hd' & Hc' & Hb').
    + intros j Hj. apply Hl. by right.
    + split; [done|]. split; [by rewrite Hd1|]. split; [done|]. intros Hnz. destruct (Hst0 Hnz) as (Hodd & Hsg & _ & Hreal).
      assert (length (contents c2) = S (length (contents c))) as -> by (by rewrite Hc1).
      split; [done|]. split; [done|]. split; [by apply Hst|]. intros q b Hq.
      apply list_lookup_insert_Some in Hq as [(<- & _ & _)|[_ Hq]].
      * right. exists (S (length (contents c))). split; [lia|]. rewrite <- Hst by done. pose proof Hp as (Hr & _). lia.
      * destruct (Hreal q b Hq) as [->|(j & Hj & E)]; [by left|]. right. exists j. split; [lia|done].
    + rewrite Hc1. cbn [length]. lia.
    + intros j w q u Hj Hw Hu. assert (Hin : u ∈ contents c2) by (apply contents_elem; by exists q).
      rewrite Hc1 in Hin. apply elem_of_cons in Hin as [->|Hin].
      * destruct (Eq (key_of w) (key_of v)) eqn:Ek; [|done]. exfalso.
        rewrite (io_keys _ _ _ Hthat _ _ _ _ Hw Hv Ek) in Hj. done.
      * apply contents_elem in Hin as [q' Hq']. apply (Hnew j w q' u); [by right|done|done].
    + exists c', offset', real'. split; [done|]. split; [done|]. split; [done|]. split; [|by eapply same_books_trans].
      rewrite Hc', Hc1. unfold at_positions. cbn [omap list_omap].
      rewrite (proj2 Hv). cbn. by rewrite Permutation_middle.
Qed.

Context {SL : ShuffleLaw}.

Lemma lowerbound_pos g : 0 < g < 2 ^ 50 -> 0 < GrowthToLowerboundCapacity W g.
Proof.
  intros Hg. unfold GrowthToLowerboundCapacity. destruct ((W =? 8) && (g =? 7)); [lia|].
  rewrite wrapS_id by (unfold inS; change (2 ^ (64 - 1)) with 9223372036854775808; lia).
  rewrite Z.quot_div_nonneg by lia. pose proof (Z.div_pos (g - 1) 7 ltac:(lia) ltac:(lia)).
  pose proof (Z.div_le_upper_bound (g - 1) 7 g ltac:(lia) ltac:(lia)).
  rewrite (wrapU_id 64 ((g - 1) / 7)) by (unfold inU; lia). rewrite wrapU_id by (unfold inU; lia). lia.
Qed.

Lemma lowerbound_0 : GrowthToLowerboundCapacity W 0 = 0.
Proof. unfold GrowthToLowerboundCapacity. change (0 =? 7) with false. by rewrite andb_false_r. Qed.

(** Every byte of a table without elements and tombstones is empty. *)
Lemma all_empty m c real q b :
  in_order m c real -> contents c = [] -> tally IsDeleted real = 0 -> real !! q = Some b -> b = kEmpty.
Proof.
  intros Ho Hc Hd Hb. pose proof (tally_full m c real Ho) as Hf. rewrite Hc in Hf.
  pose proof (Forall_lookup_1 _ _ _ _ (io_bytes _ _ _ Ho) Hb) as [Hct Hns].
  pose proof (tally_insert IsFull real _ _ kEmpty Hb) as Tf. pose proof (tally_insert IsDeleted real _ _ kEmpty Hb) as Td.
  pose proof (tally_range IsFull (<[q := kEmpty]> real)). pose proof (tally_range IsDeleted (<[q := kEmpty]> real)).
  rewrite Hf in Tf. rewrite Hd in Td. destruct Hct as [-> | [-> | [-> | Hr]]]; [done| |done|].
  - cbn in Td. lia.
  - rewrite (proj2 (Z.leb_le 0 b : IsFull b = true <-> _)) in Tf by lia. cbn in Tf. lia.
Qed.

(** A table being copied into, when the elements are in and the books are
    written. *)
Lemma copied_wf m c c1 real size :
  in_order m c real -> tally IsDeleted real = 0 -> same_books c1 c -> size_ c1 = 0 ->
  growth_info c1 = ginfo (CapacityToGrowth W (capacity_of m)) false ->
  size = Z.of_nat (length (contents c)) -> size <= CapacityToGrowth W (capacity_of m) ->
  let c2 := set_size c size in
  wf m (set_growth c2 (OverwriteManyEmptyAsFull (growth_info c2) size)) real.
Proof.
  intros Ho Hd (_ & Hs & Hg & _) Hs0 Hg0 Hsz Hle c2. pose proof (io_m _ _ _ Ho) as Hm.
  pose proof (growth_bounds W m W_ok Hm) as Hgb. pose proof (capacity_pos m Hm) as Hcp.
  pose proof (tally_full m c real Ho) as Hf. rewrite <- Hsz in Hf. constructor.
  - destruct Ho. by constructor.
  - cbn. rewrite Hs, Hs0, Z.land_0_l, Z.lor_0_r, Hf. unfold shlU. rewrite Z.shiftl_mul_pow2 by done.
    change (2 ^ HasInfozShift) with 2. rewrite wrapU_id; [lia|]. unfold inU. lia.
  - exists (CapacityToGrowth W (capacity_of m) - size), false. split; [|lia].
    cbn. rewrite Hg, Hg0. unfold OverwriteManyEmptyAsFull, ginfo. rewrite wrapU_id; [lia|]. unfold inU. lia.
  - done.
Qed.

Lemma table_copy_spec m c real : wf m c real -> size c < 2 ^ 50 ->
  exists c' m' real', raw_hash_set_copy c = Ret (Some c') /\ wf m' c' real' /\ contents c' ≡ₚ contents c.
Proof.
  intros Hw Hs. pose proof (wf_order _ _ _ Hw) as Ho. pose proof (wf_size_growth m c real Hw) as Hsg.
  pose proof (wf_size_contents m c real Hw) as Hsc. destruct (new_wf (V := V)) as [Hnew Hnc].
  unfold raw_hash_set_copy, raw_hash_set_new. destruct (Z.eqb_spec (size c) 0) as [Hz|Hnz].
  - rewrite Hz, lowerbound_0. cbn [obind Z.ltb Z.compare]. exists CommonFields_new, 0, []. split; [done|]. split; [done|].
    rewrite Hnc. rewrite Hz in Hsc. by rewrite (proj1 (length_zero_iff_nil (contents c))) by lia.
  - pose proof (lowerbound_pos (size c) ltac:(lia)) as Hlp. destruct (Z.ltb_spec 0 (GrowthToLowerboundCapacity W (size c))); [|lia].
    destruct (reserve_room W (size c) W_ok ltac:(lia)) as (m' & Hm' & -> & Hroom).
    pose proof (growth_bounds W m' W_ok ltac:(lia)) as Hgb.
    destruct (resize_spec 0 m' CommonFields_new [] Hnew Hm') as (c1 & real1 & -> & Hrs & _);
      [change (size CommonFields_new) with 0; lia|]. cbn [obind].
    pose proof (rs_order _ _ _ _ Hrs) as Ho1. rewrite (io_cap _ _ _ Ho1).
    assert (Hc1 : contents c1 = []) by (apply Permutation_nil; rewrite <- Hnc; symmetry; apply (rs_contents _ _ _ _ Hrs)).
    rewrite (IterateOverFullSlots_spec m c real Hw). cbn [obind].
    set (shift := if is_single_group W (capacity_of m') then _ else 0).
    assert (Hlen : length (set_positions 0 (IsFull <$> real)) = length (contents c)).
    { apply Nat2Z.inj. by rewrite set_positions_tally, (tally_full m c real Ho). }
    destruct (copy_loop m' shift m c real (set_positions 0 (IsFull <$> real)) c1 real1 (capacity_of m'))
      as (c2 & offset & real2 & -> & Ho2 & Hd2 & Hc2 & Hb2).
    + done.
    + apply set_positions_NoDup.
    + intros i. by apply (full_positions m c real).
    + rewrite Hc1. split; [done|]. split; [apply (rs_clean _ _ _ _ Hrs)|]. split; [by rewrite Hc1|]. intros Hsh. unfold shift in Hsh |- *.
      destruct (is_single_group W (capacity_of m')) eqn:Esg; [|done]. split; [apply salt_odd|]. split; [done|].
      split; [symmetry; apply stepped_0; lia|]. intros q b Hb. left.
      by apply (all_empty m' c1 real1 q b Ho1 Hc1 (rs_clean _ _ _ _ Hrs)).
    + rewrite Hc1, Hlen. cbn [length]. lia.
    + intros i v q w _ _ Hq. assert (Hin : w ∈ contents c1) by (apply contents_elem; by exists q).
      rewrite Hc1 in Hin. by apply not_elem_of_nil in Hin.
    + cbn [obind fst]. rewrite Hc1, app_nil_r, (at_all_positions m c real Ho) in Hc2.
      eexists _, m', real2. split; [done|]. split; [|by rewrite <- Hc2].
      apply (copied_wf m' c2 c1 real2); [done|done|done|by rewrite (rs_size _ _ _ _ Hrs)| |by rewrite Hc2|done].
      rewrite (rs_growth _ _ _ _ Hrs). change (size CommonFields_new) with 0. by rewrite Z.sub_0_r.
Qed.

Lemma destructor_spec m c real : wf m c real -> destructor_impl c = Ret (Some tt).
Proof.
  intros Hw. unfold destructor_impl. destruct (capacity_ c =? 0); [done|].
  destruct (destroy_slots_spec m c real Hw) as (c' & -> & _). done.
Qed.

(** ** Merging *)

Context {PI : PrepareLaw} {EL : EraseLaw}.

(** No element of the list has the key of [v]. *)
Definition is_new (l : list V) (v : V) : bool := negb (existsb (fun w => Eq (key_of v) (key_of w)) l).

Lemma is_new_spec c v : is_new (contents c) v = true <-> ~ has_key c (key_of v).
Proof.
  unfold is_new. rewrite negb_true_iff, <- not_true_iff_false, existsb_exists. unfold has_key.
  split; intros Hn (w & Hw & Ek); apply Hn; exists w; (split; [by apply list_elem_of_In|done]).
Qed.

Lemma filter_same (f g : V -> bool) l : (forall v, v ∈ l -> f v = g v) -> List.filter f l = List.filter g l.
Proof.
  induction l as [|v l IH]; intros Hf; [done|]. cbn [List.filter]. rewrite (Hf v) by left.
  rewrite IH by (intros; apply Hf; by right). done.
Qed.

Lemma filter_split (f : V -> bool) l : l ≡ₚ List.filter f l ++ List.filter (fun v => negb (f v)) l.
Proof.
  induction l as [|v l IH]; [done|]. cbn [List.filter]. destruct (f v); cbn [negb app]; [by constructor|].
  rewrite <- Permutation_middle. by constructor.
Qed.

(** One element: it moves when no element of the target has its key. *)
Lemma merge_slot_spec m c real ms (src : CommonFields V) sreal i v :
  wf m c real -> wf ms src sreal -> holds src i v -> size c < 2 ^ 50 ->
  exists c' src', merge_slot c src i = Ret (Some (c', src')) /\
    (exists m' real', wf m' c' real') /\ (exists ms' sreal', wf ms' src' sreal') /\
    capacity_ src' = capacity_ src /\
    if is_new (contents c) v then
      contents c' ≡ₚ v :: contents c /\ contents src ≡ₚ v :: contents src' /\
      slot_array src' = <[Z.to_nat i := None]> (slot_array src)
    else c' = c /\ src' = src.
Proof.
  intros Hw Hws Hv Hs. unfold merge_slot. rewrite (slot_at_holds _ _ _ Hv). cbn [obind].
  destruct (emplace_spec m c real v Hw Hs) as (c' & p & ins & m' & real' & -> & Hw' & Hcase). cbn [obind].
  pose proof (is_new_spec c v) as Hn. destruct ins.
  - destruct Hcase as (Hno & Hc & _). rewrite (proj2 Hn Hno).
    destruct (erase_at_spec ms src sreal i v Hws Hv) as (src' & sreal' & E & Hws' & Hp).
    unfold erase_at in E. rewrite (slot_at_holds _ _ _ Hv) in E. cbn [obind] in E. injection E as <-.
    eexists _, _. split; [done|]. split; [by exists m', real'|]. split; [by exists ms, sreal'|].
    assert (Hsame : capacity_ (EraseMetaOnly (set_slot src i None) i) = capacity_ src /\
      slot_array (EraseMetaOnly (set_slot src i None) i) = <[Z.to_nat i := None]> (slot_array src)).
    { destruct (erase_meta ms src sreal i v Hws Hv) as [[-> _]|[-> _]]; done. }
    split; [apply Hsame|]. split; [done|]. split; [done|]. apply Hsame.
  - destruct Hcase as (-> & w & Hh & Ek). destruct (is_new (contents c) v) eqn:En.
    + destruct (proj1 Hn eq_refl). exists w. split; [|done]. apply contents_elem. by exists p.
    + exists c, src. split; [done|]. split; [by exists m, real|]. split; [by exists ms, sreal|]. done.
Qed.

(** What the rest of the source still gives. *)
Lemma rest_after (l : list (option V)) i j : (i < j)%nat -> omap id (drop j (<[i := None]> l)) = omap id (drop j l).
Proof. intros Hij. by rewrite drop_insert_lt. Qed.

Lemma merge_loop_spec fuel m c real ms (src : CommonFields V) sreal i v :
  wf m c real -> wf ms src sreal -> holds src i v -> capacity_ src - i <= Z.of_nat fuel ->
  let rest := omap id (drop (Z.to_nat i) (slot_array src)) in
  Z.of_nat (length (contents c) + length rest) < 2 ^ 50 ->
  exists c' src', merge_loop fuel c src (At i) = Ret (Some (c', src')) /\
    (exists m' real', wf m' c' real') /\ (exists ms' sreal', wf ms' src' sreal') /\
    contents c' ≡ₚ List.filter (is_new (contents c)) rest ++ contents c /\
    contents src ≡ₚ List.filter (is_new (contents c)) rest ++ contents src'.
Proof.
  revert m c real ms src sreal i v. induction fuel as [|fuel IH]; intros m c real ms src sreal i v Hw Hws Hv Hf rest Hlen;
    pose proof (holds_range ms src sreal (wf_order _ _ _ Hws) i v Hv) as Hi; [lia|].
  pose proof (wf_order _ _ _ Hws) as Hso. cbn [merge_loop]. unfold it_next, skip_fuel.
  destruct (skip_spec ms src sreal Hso (S (S (Z.to_nat (capacity_ src)))) (i + 1)) as (j & -> & Hj & Hsp & b & Hb & Hsb); [lia..|].
  cbn [obind]. unfold ctrl_byte. rewrite Hb. cbn [obind].
  assert (Hrest : rest = v :: omap id (drop (Z.to_nat j) (slot_array src))).
  { unfold rest. rewrite (drop_S _ _ _ (proj2 Hv)). change (omap id (Some v :: ?l)) with (v :: omap id l). f_equal.
    apply (skip_nothing ms src sreal Hso); [lia|lia|]. intros q Hq. apply Hsp. lia. }
  rewrite Hrest in Hlen |- *. clear rest Hrest. set (rest := omap id (drop (Z.to_nat j) (slot_array src))) in *.
  cbn [length] in Hlen.
  destruct (merge_slot_spec m c real ms src sreal i v Hw Hws Hv) as (c1 & src1 & -> & (m1 & real1 & Hw1) & (ms1 & sreal1 & Hws1) & Hcap1 & Hcase);
    [rewrite (wf_size_contents m c real Hw); lia|]. cbn [obind].
  assert (Hdiff : forall u, u ∈ rest -> Eq (key_of u) (key_of v) = false).
  { intros u Hu. apply list_elem_of_omap in Hu as (x & Hx & Ex). unfold id in Ex. subst x.
    apply list_elem_of_lookup in Hx as [k Hk]. rewrite lookup_drop in Hk.
    destruct (Eq (key_of u) (key_of v)) eqn:Ek; [|done]. exfalso.
    assert (Hu' : holds src (Z.of_nat (Z.to_nat j + k)) u) by (split; [lia|by rewrite Nat2Z.id]).
    pose proof (io_keys _ _ _ Hso _ _ _ _ Hu' Hv Ek). lia. }
  (* the tables before the rest is merged *)
  assert (Hmid : contents c1 ≡ₚ (if is_new (contents c) v then [v] else []) ++ contents c /\
    contents src ≡ₚ (if is_new (contents c) v then [v] else []) ++ contents src1 /\
    omap id (drop (Z.to_nat j) (slot_array src1)) = rest /\
    (forall q w, i < q -> holds src q w -> holds src1 q w) /\
    List.filter (is_new (contents c1)) rest = List.filter (is_new (contents c)) rest).
  { destruct (is_new (contents c) v).
    - destruct Hcase as (Hc1 & Hp & Hsl). split; [done|]. split; [done|]. split; [|split].
      + rewrite Hsl. apply rest_after. lia.
      + intros q w Hq [Hq0 Hw']. split; [done|]. rewrite Hsl. by rewrite list_lookup_insert_ne by lia.
      + apply filter_same. intros u Hu. unfold is_new. f_equal. apply eq_bool_prop_intro. rewrite !Is_true_true, !existsb_exists.
        split.
        * intros (w & Hin & Ek). apply list_elem_of_In in Hin. rewrite Hc1 in Hin. apply elem_of_cons in Hin as [->|Hin].
          -- by rewrite (Hdiff u Hu) in Ek.
          -- exists w. split; [by apply list_elem_of_In|done].
        * intros (w & Hin & Ek). exists w. split; [|done]. apply list_elem_of_In. rewrite Hc1. right. by apply list_elem_of_In.
    - destruct Hcase as [-> ->]. done. }
  destruct Hmid as (Hc1 & Hsrc1 & Hrest & Hkeep & Hfil).
  cbn [List.filter].
  destruct (skip_end ms src sreal Hso j b ltac:(lia) Hb Hsb) as [(Hlt & Hns & w & Hjw)|[-> ->]].
  - destruct (Z.eqb_spec b kSentinel); [done|].
    destruct (IH m1 c1 real1 ms1 src1 sreal1 j w Hw1 Hws1) as (c' & src' & E & Hwc & Hwsrc & Hc' & Hs'); [apply Hkeep; [lia|done]|lia| |].
    { rewrite Hrest, Hc1, length_app. destruct (is_new (contents c) v); cbn [length]; lia. }
    exists c', src'. rewrite E. split; [done|]. split; [done|]. split; [done|]. rewrite Hrest, Hfil in Hc', Hs'.
    split; [rewrite Hc', Hc1|rewrite Hsrc1, Hs']; destruct (is_new (contents c) v); cbn [app]; try done.
    by rewrite Permutation_middle.
  - assert (rest = []) as Er. { unfold rest. rewrite drop_ge; [done|]. rewrite (io_slots _ _ _ Hso). pose proof (cap_len ms src sreal Hso). lia. }
    rewrite Er. cbn [List.filter]. change (kSentinel =? kSentinel) with true. cbn iota.
    exists c1, src1. split; [by destruct fuel|]. split; [by exists m1, real1|]. split; [by exists ms1, sreal1|].
    destruct (is_new (contents c) v); done.
Qed.

(** Merging moves exactly the elements whose keys are new. *)
Lemma merge_spec m c real ms (src : CommonFields V) sreal :
  wf m c real -> wf ms src sreal -> Z.of_nat (length (contents c) + length (contents src)) < 2 ^ 50 ->
  exists c' src', merge c src = Ret (Some (c', src')) /\
    (exists m' real', wf m' c' real') /\ (exists ms' sreal', wf ms' src' sreal') /\
    contents c' ≡ₚ List.filter (is_new (contents c)) (contents src) ++ contents c /\
    contents src' ≡ₚ List.filter (fun v => negb (is_new (contents c) v)) (contents src).
Proof.
  intros Hw Hws Hlen. pose proof (wf_order _ _ _ Hws) as Hso. unfold merge, begin, empty.
  pose proof (cap_len ms src sreal Hso) as Hcl. pose proof (wf_size_contents ms src sreal Hws) as Hsz.
  assert (Hnil : contents src = [] -> exists c' src', Ret (Some (c, src)) = Ret (Some (c', src')) /\
    (exists m' real', wf m' c' real') /\ (exists ms' sreal', wf ms' src' sreal') /\
    contents c' ≡ₚ List.filter (is_new (contents c)) (contents src) ++ contents c /\
    contents src' ≡ₚ List.filter (fun v => negb (is_new (contents c) v)) (contents src)).
  { intros E. exists c, src. split; [done|]. split; [by exists m, real|]. split; [by exists ms, sreal|]. by rewrite E. }
  destruct (Z.eqb_spec (size src) 0) as [Hz|Hnz].
  - cbn [obind]. assert (E : contents src = []) by (apply length_zero_iff_nil; lia).
    destruct (Hnil E) as (c' & src' & Ee & Hrest). exists c', src'. rewrite <- Ee. split; [|done].
    by destruct (Z.to_nat (capacity_ src)).
  - unfold skip_fuel. destruct (skip_spec ms src sreal Hso (S (S (Z.to_nat (capacity_ src)))) 0) as (j & -> & Hj & Hsp & b & Hb & Hsb); [lia..|].
    cbn [obind fmap option_fmap option_map].
    assert (Ec : contents src = omap id (drop (Z.to_nat j) (slot_array src))).
    { unfold contents. rewrite <- (skip_nothing ms src sreal Hso 0 (Z.to_nat j)); [done|lia|lia|intros q Hq; apply Hsp; lia]. }
    destruct (skip_end ms src sreal Hso j b Hj Hb Hsb) as [(Hlt & _ & v & Hv)|[-> _]].
    + destruct (merge_loop_spec (Z.to_nat (capacity_ src)) m c real ms src sreal j v Hw Hws Hv) as (c' & src' & E & Hwc & Hwsrc & Hc' & Hs');
        [lia|by rewrite <- Ec|].
      rewrite <- Ec in Hc', Hs'. exists c', src'. split; [done|]. split; [done|]. split; [done|]. split; [done|].
      rewrite (filter_split (is_new (contents c)) (contents src)) in Hs' at 1. symmetry. by apply Permutation_app_inv_l in Hs'.
    + rewrite drop_ge in Ec by (rewrite (io_slots _ _ _ Hso); lia). rewrite Ec in Hsz. done.
Qed.

(** ** Comparison *)

Section compare.
Context (value_eq : V -> V -> bool).

Definition found_in (l : list V) (v : V) : bool :=
  match lookup_key l (key_of v) with Some w => value_eq w v | None => false end.

(** As many elements, each with an equal one of the same key. *)
Definition same_elements (l1 l2 : list V) : bool :=
  Nat.eqb (length l1) (length l2) && forallb (found_in l2) l1.

Lemma lookup_key_perm l1 l2 k : distinct l1 -> l1 ≡ₚ l2 -> lookup_key l1 k = lookup_key l2 k.
Proof.
  intros Hd Hp. destruct (lookup_key l1 k) as [w|] eqn:E.
  - unfold lookup_key in E. apply List.find_some in E as [Hin Ek]. symmetry. apply lookup_key_some; [by rewrite <- Hp| |done].
    rewrite <- Hp. by apply list_elem_of_In.
  - symmetry. apply lookup_key_none. intros w Hw. rewrite <- Hp in Hw. by apply (proj1 (lookup_key_none l1 k)).
Qed.

Lemma forallb_perm (f : V -> bool) l1 l2 : l1 ≡ₚ l2 -> forallb f l1 = forallb f l2.
Proof.
  induction 1 as [|x l1 l2 _ IH|x y l|? ? ? _ IH1 _ IH2]; cbn; [done|by rewrite IH| |by rewrite IH1].
  by destruct (f x), (f y).
Qed.

Lemma same_elements_perm l1 l1' l2 l2' :
  distinct l2 -> l1 ≡ₚ l1' -> l2 ≡ₚ l2' -> same_elements l1 l2 = same_elements l1' l2'.
Proof.
  intros Hd H1 H2. unfold same_elements.
  rewrite (Permutation_length H1), (Permutation_length H2), (forallb_perm _ _ _ H1). f_equal. clear H1.
  induction l1' as [|v l IH]; [done|]. cbn [forallb]. rewrite IH. f_equal. unfold found_in.
  by rewrite (lookup_key_perm _ _ _ Hd H2).
Qed.

Lemma distinct_NoDup l : distinct l -> NoDup l.
Proof.
  induction l as [|v l IH]; [constructor|]. intros [Hv Hd]. constructor; [|by apply IH].
  intros Hin. pose proof (Eq_refl (key_of v)) as He. by rewrite (Hv v Hin) in He.
Qed.

(** The comparison of the tables may start from either. *)
Lemma same_elements_comm l1 l2 :
  (forall v w, value_eq v w = value_eq w v) -> distinct l1 -> distinct l2 -> same_elements l1 l2 = same_elements l2 l1.
Proof.
  intros Hsym. assert (Hone : forall l1 l2, distinct l1 -> distinct l2 -> same_elements l1 l2 = true -> same_elements l2 l1 = true).
  { clear l1 l2. intros l1 l2 Hd1 Hd2 [Hl Hf]%andb_prop. apply Nat.eqb_eq in Hl. rewrite forallb_forall in Hf.
    set (image := omap (fun v => lookup_key l2 (key_of v)) l1).
    assert (Himg : forall w, w ∈ image <-> exists v, v ∈ l1 /\ lookup_key l2 (key_of v) = Some w) by (intros; apply list_elem_of_omap).
    assert (Hlk : forall v w, lookup_key l2 (key_of v) = Some w -> w ∈ l2 /\ Eq (key_of v) (key_of w) = true).
    { intros v w E. apply List.find_some in E as [Hin Ek]. split; [by apply list_elem_of_In|done]. }
    assert (Hlen : length image = length l1 /\ NoDup image).
    { assert (Hf' : forall v, v ∈ l1 -> is_Some (lookup_key l2 (key_of v))).
      { intros v Hv. specialize (Hf v ltac:(by apply list_elem_of_In)). unfold found_in in Hf.
        destruct (lookup_key l2 (key_of v)); [by eexists|done]. }
      clear Hl Hf Himg. unfold image. clear image. induction l1 as [|v l1 IH]; [by split; [|constructor]|].
      destruct Hd1 as [Hv Hd1]. destruct IH as [Hl Hn]; [done|intros; apply Hf'; by right|].
      cbn [omap list_omap]. destruct (Hf' v ltac:(left)) as [w Hw]. rewrite Hw. cbn [length].
      split; [by rewrite Hl|]. constructor; [|done]. intros (u & Hu & Eu)%list_elem_of_omap.
      destruct (Hlk _ _ Hw) as [_ E1], (Hlk _ _ Eu) as [_ E2].
      pose proof (Hv u Hu) as Hvu. rewrite (Eq_trans (key_of v) (key_of w) (key_of u)) in Hvu; [done|done|by rewrite Eq_sym]. }
    destruct Hlen as [Hlen Hnd].
    assert (Hp : image ≡ₚ l2).
    { apply submseteq_length_Permutation; [|lia]. apply NoDup_submseteq; [done|].
      intros w Hw. apply Himg in Hw as (v & _ & E). by apply (Hlk v). }
    unfold same_elements. rewrite Hl, Nat.eqb_refl. cbn [andb]. apply forallb_forall. intros w Hw.
    apply list_elem_of_In in Hw. rewrite <- Hp in Hw. apply Himg in Hw as (v & Hv & E). destruct (Hlk _ _ E) as [_ Ek].
    unfold found_in. rewrite (lookup_key_some l1 (key_of w) v Hd1 Hv) by (by rewrite Eq_sym).
    specialize (Hf v ltac:(by apply list_elem_of_In)). unfold found_in in Hf. rewrite E in Hf. by rewrite Hsym. }
  intros Hd1 Hd2. destruct (same_elements l1 l2) eqn:E1.
  - symmetry. by apply Hone.
  - destruct (same_elements l2 l1) eqn:E2; [|done]. by rewrite (Hone _ _ Hd2 Hd1 E2) in E1.
Qed.

Lemma all_found_spec m inner real l :
  wf m inner real -> distinct (contents inner) -> all_found value_eq inner l = Ret (Some (forallb (found_in (contents inner)) l)).
Proof.
  intros Hw Hd. induction l as [|v l IH]; [done|]. cbn [all_found forallb].
  destruct (find_in_order m inner real (wf_order _ _ _ Hw) (key_of v) (wf_some_empty m inner real Hw)) as (it & -> & Hit).
  cbn [obind]. unfold found_in at 1. destruct it as [p|].
  - destruct Hit as (w & Hh & Ek). rewrite (slot_at_holds _ _ _ Hh). cbn [obind].
    rewrite (lookup_key_some _ _ w Hd); [|apply contents_elem; by exists p|done].
    destruct (value_eq w v); [apply IH|done].
  - assert (lookup_key (contents inner) (key_of v) = None) as ->; [|done].
    apply lookup_key_none. intros w Hin. apply contents_elem in Hin as [p Hp]. by eapply Hit.
Qed.

Lemma equals_spec ma a ra mb b rb :
  (forall v w, value_eq v w = value_eq w v) -> wf ma a ra -> wf mb b rb ->
  distinct (contents a) -> distinct (contents b) ->
  equals value_eq a b = Ret (Some (same_elements (contents a) (contents b))).
Proof.
  intros Hsym Ha Hb Hda Hdb. unfold equals.
  rewrite (wf_size_contents ma a ra Ha), (wf_size_contents mb b rb Hb).
  destruct (Z.eqb_spec (Z.of_nat (length (contents a))) (Z.of_nat (length (contents b)))) as [El|Hne]; cbn [negb].
  - destruct (capacity_ b <? capacity_ a).
    + rewrite (elements_spec mb b rb Hb). cbn [obind]. rewrite (all_found_spec ma a ra) by done. rewrite same_elements_comm by done. unfold same_elements.
      by rewrite (proj2 (Nat.eqb_eq _ _)) by lia.
    + rewrite (elements_spec ma a ra Ha). cbn [obind]. rewrite (all_found_spec mb b rb) by done. unfold same_elements. by rewrite (proj2 (Nat.eqb_eq _ _)) by lia.
  - unfold same_elements. destruct (Nat.eqb_spec (length (contents a)) (length (contents b))); [lia|done].
Qed.
End compare.
End proofs.
