(* ===== verification/SwissMachine.v ===== *)
(** * A hash table against a list ([absl/container/internal/raw_hash_set.h])

    Sequences of calls of the public functions of a table, and what a list
    of elements with distinct keys answers to the same calls.  The functions
    of [raw_hash_set.cc], which a table is given, are then instantiated by
    concrete ones, on which sequences of calls evaluate. *)

From S2P Require Import Prelude Bits SwissGroup SwissProbe SwissTable SwissMulti.
Local Open Scope Z_scope.
Local Open Scope list_scope.

Section machine.
Context {K V : Type} `{P : Policy K V} {Gs : Groups} {Cc : RawHashSetCc V}.
Implicit Types c : CommonFields V.

(** ** Calls and answers *)

Inductive call :=
| Emplace (v : V)
| Find (k : K)
| Contains (k : K)
| Erase (k : K)
| Reserve (n : Z)
| Rehash (n : Z)
| Clear
| Size
| ForEach.

(** [Emplaced]: the element that is in the table after the call, and whether
    it is the new one.  [Listed]: in the order of the iteration. *)
Inductive answer :=
| Emplaced (v : V) (inserted : bool)
| Found (v : option V)
| Answered (b : bool)
| Erased (n : Z)
| Done
| Sized (n : Z)
| Listed (l : list V).

(** The element at an iterator. *)
Definition deref c (it : iterator) : outcome (option V) :=
  match it with At i => do v <- slot_at c i; Ret (Some v) | End => Ret None end.

Definition exec c (o : call) : outcome (option (CommonFields V * answer)) :=
  match o with
  | Emplace v =>
      do r <- emplace c v;
      match r with
      | Some (c, At i, inserted) => do w <- slot_at c i; Ret (Some (c, Emplaced w inserted))
      | _ => Ret None
      end
  | Find k =>
      do r <- find c k;
      match r with Some it => do v <- deref c it; Ret (Some (c, Found v)) | None => Ret None end
  | Contains k => do r <- contains c k; Ret ((fun b => (c, Answered b)) <$> r)
  | Erase k => do r <- erase c k; Ret ((fun '(c, n) => (c, Erased n)) <$> r)
  | Reserve n => do c <- reserve c n; Ret (Some (c, Done))
  | Rehash n => do c <- rehash c n; Ret (Some (c, Done))
  | Clear => do r <- clear c; Ret ((fun c => (c, Done)) <$> r)
  | Size => Ret (Some (c, Sized (size c)))
  | ForEach => do r <- range_for c; Ret ((fun l => (c, Listed l)) <$> r)
  end.

(** Two tables: [second] says which of them a request is for. *)
Inductive request :=
| On (second : bool) (o : call)
| Assign (second : bool)
| MergeInto (second : bool)
| Compare
| Swap.

(** The table a request is for, and the other one. *)
Definition focus {A} (second : bool) (s : A * A) : A * A := if second then (snd s, fst s) else s.

Context (value_eq : V -> V -> bool).

Definition serve (s : CommonFields V * CommonFields V) (r : request) :
    outcome (option (CommonFields V * CommonFields V * answer)) :=
  match r with
  | On second o =>
      let '(c, other) := focus second s in
      do r <- exec c o; Ret ((fun '(c, a) => (focus second (c, other), a)) <$> r)
  | Assign second =>
      let '(c, other) := focus second s in
      do r <- copy_assign c other; Ret ((fun c => (focus second (c, other), Done)) <$> r)
  | MergeInto second =>
      let '(c, other) := focus second s in
      do r <- merge c other; Ret ((fun s => (focus second s, Done)) <$> r)
  | Compare => do r <- equals value_eq (fst s) (snd s); Ret ((fun b => (s, Answered b)) <$> r)
  | Swap => Ret (Some ((snd s, fst s), Done))
  end.

Fixpoint serve_all (s : CommonFields V * CommonFields V) (l : list request) :
    outcome (option (CommonFields V * CommonFields V * list answer)) :=
  match l with
  | [] => Ret (Some (s, []))
  | r :: l =>
      do x <- serve s r;
      match x with
      | None => Ret None
      | Some (s, a) =>
          do x <- serve_all s l;
          Ret ((fun '(s, answers) => (s, a :: answers)) <$> x)
      end
  end.

(** ** The list *)

Definition list_step (l : list V) (o : call) : list V * answer :=
  match o with
  | Emplace v =>
      match lookup_key l (key_of v) with
      | Some w => (l, Emplaced w false)
      | None => (v :: l, Emplaced v true)
      end
  | Find k => (l, Found (lookup_key l k))
  | Contains k => (l, Answered (bool_decide (is_Some (lookup_key l k))))
  | Erase k =>
      match lookup_key l k with
      | Some _ => (List.filter (fun w => negb (Eq k (key_of w))) l, Erased 1)
      | None => (l, Erased 0)
      end
  | Reserve _ | Rehash _ => (l, Done)
  | Clear => ([], Done)
  | Size => (l, Sized (Z.of_nat (length l)))
  | ForEach => (l, Listed l)
  end.

Definition list_serve (s : list V * list V) (r : request) : (list V * list V) * answer :=
  match r with
  | On second o =>
      let '(l, other) := focus second s in
      let '(l, a) := list_step l o in (focus second (l, other), a)
  | Assign second => let '(_, other) := focus second s in ((other, other), Done)
  | MergeInto second =>
      let '(l, other) := focus second s in
      (focus second (List.filter (is_new l) other ++ l, List.filter (fun v => negb (is_new l v)) other), Done)
  | Compare => (s, Answered (same_elements value_eq (fst s) (snd s)))
  | Swap => ((snd s, fst s), Done)
  end.

Fixpoint list_run (s : list V * list V) (rs : list request) : (list V * list V) * list answer :=
  match rs with
  | [] => (s, [])
  | r :: rs =>
      let '(s, a) := list_serve s r in
      let '(s, answers) := list_run s rs in (s, a :: answers)
  end.

(** The iteration may give the elements in any order. *)
Definition agrees (a b : answer) : Prop :=
  match a, b with
  | Listed l, Listed l' => l ≡ₚ l'
  | _, _ => a = b
  end.

(** Arguments that are sizes stay far below the address space. *)
Definition sized (o : call) : Prop :=
  match o with Reserve n | Rehash n => 0 <= n < 2 ^ 50 | _ => True end.

#[export] Instance sized_dec o : Decision (sized o).
Proof. destruct o; apply _. Defined.

Definition request_sized (r : request) : Prop := match r with On _ o => sized o | _ => True end.

#[export] Instance request_sized_dec r : Decision (request_sized r).
Proof. destruct r; apply _. Defined.

Context {GL : GroupsLaws Gs} {PL : PolicyLaws P}.

(** ** The table answers as the list does *)

Context {SL : ShuffleLaw} {PI : PrepareLaw} {EL : EraseLaw} {CL : ClearLaw}.

Definition refines c (l : list V) : Prop := (exists m real, wf m c real) /\ contents c ≡ₚ l /\ distinct l.

Lemma refines_size c l : refines c l -> size c = Z.of_nat (length l).
Proof. intros ((m & real & Hw) & Hc & _). by rewrite (wf_size_contents m c real Hw), Hc. Qed.

(** What an iterator of [find] says of the list. *)
Lemma refines_lookup c l k it :
  refines c l ->
  match it with
  | At p => exists v, holds c p v /\ Eq k (key_of v) = true
  | End => forall p v, holds c p v -> Eq k (key_of v) = false
  end ->
  deref c it = Ret (lookup_key l k) /\ (is_Some (lookup_key l k) <-> it <> End).
Proof.
  intros (_ & Hc & Hd) Hit. destruct it as [p|].
  - destruct Hit as (v & Hv & Ek). cbn [deref]. rewrite (slot_at_holds _ _ _ Hv). cbn [obind].
    rewrite (lookup_key_some l k v Hd); [|rewrite <- Hc; apply contents_elem; by exists p|done].
    split; [done|]. split; [done|by eexists].
  - assert (lookup_key l k = None) as ->.
    { apply lookup_key_none. intros w Hw. rewrite <- Hc in Hw. apply contents_elem in Hw as [p Hp]. by eapply Hit. }
    split; [done|]. split; [by intros [? ?]|done].
Qed.

Lemma refines_find c l k : refines c l -> exists it, find c k = Ret (Some it) /\
  deref c it = Ret (lookup_key l k) /\ (is_Some (lookup_key l k) <-> it <> End).
Proof.
  intros Hr. pose proof Hr as ((m & real & Hw) & _).
  destruct (find_in_order m c real (wf_order _ _ _ Hw) k (wf_some_empty m c real Hw)) as (it & E & Hit).
  exists it. split; [done|]. by apply refines_lookup.
Qed.

Lemma has_key_lookup c l k : refines c l -> has_key c k <-> is_Some (lookup_key l k).
Proof.
  intros (_ & Hc & Hd). split.
  - intros (w & Hw & Ek). rewrite Hc in Hw. exists w. by apply lookup_key_some.
  - intros [w Hw]. unfold lookup_key in Hw. apply List.find_some in Hw as [Hin Ek]. exists w.
    rewrite Hc. split; [by apply list_elem_of_In|done].
Qed.

Lemma agrees_refl a : agrees a a.
Proof. by destruct a; cbn. Qed.

Lemma refines_emplace c l v :
  refines c l -> Z.of_nat (length l) < 2 ^ 50 ->
  exists c' a, exec c (Emplace v) = Ret (Some (c', a)) /\ refines c' (fst (list_step l (Emplace v))) /\
    a = snd (list_step l (Emplace v)).
Proof.
  intros Hr Hl. pose proof Hr as ((m & real & Hw) & Hc & Hd). cbn [exec list_step].
  destruct (emplace_spec m c real v Hw) as (c' & p & ins & m' & real' & -> & Hw' & Hcase);
    [by rewrite (refines_size c l Hr)|]. cbn [obind].
  pose proof (has_key_lookup c l (key_of v) Hr) as Hk. destruct ins.
  - destruct Hcase as (Hno & Hc' & Hh). rewrite (slot_at_holds _ _ _ Hh). cbn [obind].
    destruct (lookup_key l (key_of v)) as [w|] eqn:El; [destruct Hno; apply Hk; by eexists|].
    eexists _, _. split; [done|]. split; [|done]. split; [by exists m', real'|]. split; [by rewrite Hc', Hc|].
    cbn [fst distinct]. split; [|done]. by apply lookup_key_none.
  - destruct Hcase as (-> & w & Hh & Ek). rewrite (slot_at_holds _ _ _ Hh). cbn [obind].
    rewrite (lookup_key_some l (key_of v) w Hd); [|rewrite <- Hc; apply contents_elem; by exists p|done].
    eexists _, _. split; [done|]. split; [|done]. split; [by exists m, real|done].
Qed.

Lemma refines_erase c l k :
  refines c l -> exists c' a, exec c (Erase k) = Ret (Some (c', a)) /\
    refines c' (fst (list_step l (Erase k))) /\ a = snd (list_step l (Erase k)).
Proof.
  intros Hr. pose proof Hr as ((m & real & Hw) & Hc & Hd). cbn [exec list_step].
  destruct (erase_spec m c real k Hw) as (c' & n & m' & real' & -> & Hw' & Hcase). cbn.
  pose proof (has_key_lookup c l k Hr) as Hk. destruct Hcase as [(-> & -> & Hno)|(-> & v & Ek & Hp)].
  - destruct (lookup_key l k) as [w|] eqn:El; [destruct Hno; apply Hk; by eexists|].
    eexists _, _. split; [done|]. split; [|done]. split; [by exists m, real|done].
  - rewrite Hc in Hp. rewrite (lookup_key_some l k v Hd); [|rewrite Hp; left|done].
    eexists _, _. split; [done|]. split; [|done]. pose proof (filter_key l k v _ Hd Hp Ek) as Hf.
    split; [by exists m', real'|]. split; [by rewrite Hf|]. rewrite Hf. rewrite Hp in Hd. apply Hd.
Qed.

Lemma refines_step c l o :
  refines c l -> sized o -> Z.of_nat (length l) < 2 ^ 50 ->
  exists c' a, exec c o = Ret (Some (c', a)) /\ refines c' (fst (list_step l o)) /\ agrees a (snd (list_step l o)).
Proof.
  intros Hr Ho Hl. pose proof Hr as ((m & real & Hw) & Hc & Hd).
  assert (Hsize : size c < 2 ^ 50) by (by rewrite (refines_size c l Hr)).
  destruct o as [v|k|k|k|n|n| | |].
  - destruct (refines_emplace c l v Hr Hl) as (c' & a & E & Hr' & ->). eexists _, _. split; [done|]. split; [done|].
    apply agrees_refl.
  - destruct (refines_find c l k Hr) as (it & E & Ed & _). cbn [exec]. rewrite E. cbn [obind]. rewrite Ed.
    eexists _, _. done.
  - destruct (refines_find c l k Hr) as (it & E & _ & Ei). cbn [exec]. unfold contains. rewrite E. cbn.
    eexists _, _. split; [done|]. split; [done|]. cbn. f_equal. symmetry. destruct it.
    + apply bool_decide_eq_true_2. by apply Ei.
    + apply bool_decide_eq_false_2. rewrite Ei. by intros [].
  - destruct (refines_erase c l k Hr) as (c' & a & E & Hr' & ->). eexists _, _. split; [done|]. split; [done|].
    apply agrees_refl.
  - destruct (reserve_spec m c real n Hw Ho) as (c' & m' & real' & E & Hw' & Hc' & _). cbn [exec]. rewrite E. cbn.
    eexists _, _. split; [done|]. split; [|done]. split; [by exists m', real'|]. split; [by rewrite Hc'|done].
  - destruct (rehash_spec m c real n Hw Ho Hsize) as (c' & m' & real' & E & Hw' & Hc' & _). cbn [exec]. rewrite E. cbn.
    eexists _, _. split; [done|]. split; [|done]. split; [by exists m', real'|]. split; [by rewrite Hc'|done].
  - destruct (clear_spec m c real Hw) as (c' & m' & real' & E & Hw' & Hc'). cbn [exec]. rewrite E. cbn.
    eexists _, _. split; [done|]. split; [|done]. split; [by exists m', real'|]. by rewrite Hc'.
  - cbn. eexists _, _. split; [done|]. split; [done|]. cbn. by rewrite (refines_size c l Hr).
  - cbn [exec]. rewrite (elements_spec m c real Hw). cbn. eexists _, _. split; [done|]. done.
Qed.

(** ** Two tables *)

(** The elements a request can bring into a table. *)
Definition brings (r : request) : list V := match r with On _ (Emplace v) => [v] | _ => [] end.

Lemma list_step_incl l second o : fst (list_step l o) ⊆ brings (On second o) ++ l.
Proof.
  destruct o as [v|k|k|k|n|n| | |]; cbn [list_step brings app fst]; try done.
  - destruct (lookup_key l (key_of v)); set_solver.
  - destruct (lookup_key l k); [|done]. intros w Hw. apply list_elem_of_In, List.filter_In in Hw as [Hw _].
    by apply list_elem_of_In.
  - set_solver.
Qed.

Lemma is_new_perm l1 l2 v : l1 ≡ₚ l2 -> is_new l1 v = is_new l2 v.
Proof.
  intros Hp. unfold is_new. f_equal. apply eq_bool_prop_intro. rewrite !Is_true_true, !existsb_exists.
  split; intros (w & Hw & Ek); exists w; (split; [|done]); apply list_elem_of_In; apply list_elem_of_In in Hw;
    by rewrite Hp in *.
Qed.

Lemma filter_perm (f : V -> bool) l1 l2 : l1 ≡ₚ l2 -> List.filter f l1 ≡ₚ List.filter f l2.
Proof.
  induction 1 as [|x l1 l2 _ IH|x y l0|? ? ? _ IH1 _ IH2]; [done| | |by rewrite IH1]; cbn [List.filter].
  - destruct (f x); [by constructor|done].
  - destruct (f x), (f y); try done. apply Permutation_swap.
Qed.

Lemma distinct_filter (f : V -> bool) l : distinct l -> distinct (List.filter f l).
Proof.
  induction l as [|v l IH]; [done|]. intros [Hv Hd]. cbn [List.filter]. destruct (f v); [|by apply IH].
  split; [|by apply IH]. intros w Hw. apply Hv. apply list_elem_of_In, List.filter_In in Hw as [Hw _].
  by apply list_elem_of_In.
Qed.

Lemma distinct_merge l other : distinct l -> distinct other -> distinct (List.filter (is_new l) other ++ l).
Proof.
  intros Hl. induction other as [|v other IH]; [done|]. intros [Hv Hd]. cbn [List.filter].
  destruct (is_new l v) eqn:En; [|by apply IH]. cbn [app distinct]. split; [|by apply IH].
  intros w [Hw|Hw]%elem_of_app.
  - apply Hv. apply list_elem_of_In, List.filter_In in Hw as [Hw _]. by apply list_elem_of_In.
  - destruct (Eq (key_of v) (key_of w)) eqn:Ek; [|done]. unfold is_new in En. apply negb_true_iff in En.
    rewrite <- not_true_iff_false, existsb_exists in En. destruct En. exists w. split; [by apply list_elem_of_In|done].
Qed.

Definition both (s : CommonFields V * CommonFields V) (ls : list V * list V) : Prop :=
  refines (fst s) (fst ls) /\ refines (snd s) (snd ls).

Lemma both_focus second s ls : both s ls -> both (focus second s) (focus second ls).
Proof. destruct second; [intros []; by split|done]. Qed.

Lemma focus_focus {A} second (s : A * A) : focus second (focus second s) = s.
Proof. by destruct second, s. Qed.

Definition within (ls : list V * list V) (all : list V) : Prop := fst ls ⊆ all /\ snd ls ⊆ all.

Lemma within_focus second ls all : within ls all -> within (focus second ls) all.
Proof. destruct second; [intros []; by split|done]. Qed.

Lemma distinct_length l all : distinct l -> l ⊆ all -> (length l <= length all)%nat.
Proof. intros Hd Hs. apply submseteq_length, NoDup_submseteq; [by apply distinct_NoDup|done]. Qed.

Lemma list_serve_within ls all r : within ls all -> within (fst (list_serve ls r)) (brings r ++ all).
Proof.
  intros Hw. destruct r as [second o|second|second| |]; cbn [list_serve].
  - pose proof (within_focus second ls all Hw) as [H1 H2]. destruct (focus second ls) as [l other].
    pose proof (list_step_incl l second o) as Hi. destruct (list_step l o) as [l' a]. cbn [fst snd] in *.
    apply within_focus. split; cbn [fst snd]; set_solver.
  - pose proof (within_focus second ls all Hw) as [H1 H2]. destruct (focus second ls) as [l other]. by split.
  - pose proof (within_focus second ls all Hw) as [H1 H2]. destruct (focus second ls) as [l other]. cbn [fst snd] in *.
    assert (Hf : forall f : V -> bool, List.filter f other ⊆ all).
    { intros f w Hin. apply list_elem_of_In, List.filter_In in Hin as [Hin _]. apply H2. by apply list_elem_of_In. }
    apply within_focus. split; cbn [fst snd brings app]; [|done]. intros w [Hin|Hin]%elem_of_app; [by eapply Hf|by apply H1].
  - done.
  - destruct Hw. by split.
Qed.

Context (value_eq_sym : forall v w, value_eq v w = value_eq w v).

Lemma serve_refines s ls all r :
  both s ls -> within ls all -> request_sized r -> Z.of_nat (length all) < 2 ^ 49 ->
  exists s' a, serve s r = Ret (Some (s', a)) /\ both s' (fst (list_serve ls r)) /\ agrees a (snd (list_serve ls r)).
Proof.
  intros Hb Hw Hr Hall. destruct r as [second o|second|second| |]; cbn [serve list_serve].
  - pose proof (both_focus second s ls Hb) as [H1 H2]. pose proof (within_focus second ls all Hw) as [W1 _].
    destruct (focus second s) as [c other], (focus second ls) as [l lother]. cbn [fst snd] in *.
    pose proof (distinct_length l all (proj2 (proj2 H1)) W1).
    destruct (refines_step c l o H1 Hr ltac:(lia)) as (c' & a & -> & Hr' & Ha). cbn.
    destruct (list_step l o) as [l' b]. eexists _, _. split; [done|]. split; [|done]. by apply both_focus.
  - pose proof (both_focus second s ls Hb) as [H1 H2]. pose proof (within_focus second ls all Hw) as [_ W2].
    destruct (focus second s) as [c other], (focus second ls) as [l lother]. cbn [fst snd] in *.
    pose proof H2 as ((m & real & Hwo) & Hc & Hd). pose proof H1 as ((m1 & real1 & Hw1) & _).
    pose proof (distinct_length lother all Hd W2). pose proof (refines_size other lother H2) as Hsz.
    destruct (table_copy_spec m other real Hwo) as (c' & m' & real' & E & Hw' & Hc'); [lia|].
    unfold copy_assign. rewrite E. cbn [obind]. rewrite (destructor_spec m1 c real1 Hw1). cbn.
    eexists _, _. split; [done|]. split; [|done].
    assert (refines c' lother) by (split; [by exists m', real'|]; split; [by rewrite Hc'|done]).
    destruct second; by split.
  - pose proof (both_focus second s ls Hb) as [H1 H2]. pose proof (within_focus second ls all Hw) as [W1 W2].
    destruct (focus second s) as [c other], (focus second ls) as [l lother]. cbn [fst snd] in *.
    pose proof H1 as ((m & real & Hwc) & Hc & Hd). pose proof H2 as ((mo & reo & Hwo) & Hco & Hdo).
    pose proof (distinct_length l all Hd W1). pose proof (distinct_length lother all Hdo W2).
    destruct (merge_spec m c real mo other reo Hwc Hwo) as (c' & other' & -> & Hwc' & Hwo' & Hc' & Ho'); [rewrite Hc, Hco; lia|].
    cbn. eexists _, _. split; [done|]. split; [|done]. apply both_focus. split; cbn [fst snd].
    + split; [done|]. split; [|by apply distinct_merge]. rewrite Hc', (filter_perm _ _ _ Hco).
      rewrite (filter_same _ _ lother (fun v _ => is_new_perm _ _ v Hc)). by rewrite Hc.
    + split; [done|]. split; [|by apply distinct_filter]. rewrite Ho', (filter_perm _ _ _ Hco).
      rewrite (filter_same _ (fun v => negb (is_new l v)) lother); [done|]. intros v _. by rewrite (is_new_perm _ _ v Hc).
  - destruct Hb as [((ma & ra & Ha) & Hca & Hda) ((mb & rb & Hb) & Hcb & Hdb)].
    rewrite (equals_spec value_eq ma _ ra mb _ rb value_eq_sym Ha Hb); [|by rewrite Hca|by rewrite Hcb]. cbn.
    eexists _, _. split; [done|]. split; [split; cbn; [split; [by exists ma, ra|done]|split; [by exists mb, rb|done]]|].
    cbn. f_equal. apply same_elements_perm; [by rewrite Hcb|done|done].
  - eexists _, _. split; [done|]. destruct Hb. by split.
Qed.

Lemma serve_all_refines s ls all rs :
  both s ls -> within ls all -> Forall request_sized rs -> Z.of_nat (length all + length rs) < 2 ^ 49 ->
  exists s' answers, serve_all s rs = Ret (Some (s', answers)) /\
    Forall2 agrees answers (snd (list_run ls rs)) /\ both s' (fst (list_run ls rs)).
Proof.
  intros Hb Hw Hs. revert s ls all Hb Hw. induction Hs as [|r rs Hr _ IH]; intros s ls all Hb Hw Hl.
  - exists s, []. split; [done|]. by split; [constructor|].
  - cbn [length] in Hl. destruct (serve_refines s ls all r Hb Hw Hr ltac:(lia)) as (s1 & a & E & Hb1 & Ha).
    pose proof (list_serve_within ls all r Hw) as Hw1. cbn [serve_all list_run]. rewrite E. cbn [obind].
    destruct (list_serve ls r) as [ls1 b]. cbn [fst snd] in *.
    destruct (IH s1 ls1 (brings r ++ all) Hb1 Hw1) as (s2 & answers & E2 & Hf & Hb2).
    { rewrite length_app. assert (length (brings r) <= 1)%nat by (destruct r as [? []| | | |]; simpl; lia). lia. }
    rewrite E2. cbn. destruct (list_run ls1 rs) as [ls2 bs]. eexists _, _. split; [done|]. split; [by constructor|done].
Qed.

(** C38: Hash tables behave as sets of elements with distinct keys.  From two
    empty tables any sequence of insertions, lookups, erasures, [reserve],
    [rehash] and [clear] on either, of assignments, merges, comparisons and
    swaps between them runs to its end: every probe loop finds an empty byte
    within the groups of its table, every load stays inside the control
    bytes, every slot that is read holds an object.  Each call answers what
    lists answer, whatever the hash function and wherever the allocator puts
    the arrays: a key is found exactly when an element has it, an insertion
    keeps the element that is there, the iteration gives each element once, a
    copy has the same elements, a merge moves those whose keys are new.  The
    tables hold at the end what the lists hold. *)
Theorem swiss_table_refines rs :
  Forall request_sized rs -> Z.of_nat (length rs) < 2 ^ 49 ->
  exists a b answers, serve_all (CommonFields_new, CommonFields_new) rs = Ret (Some ((a, b), answers)) /\
    Forall2 agrees answers (snd (list_run ([], []) rs)) /\
    contents a ≡ₚ fst (fst (list_run ([], []) rs)) /\ contents b ≡ₚ snd (fst (list_run ([], []) rs)).
Proof.
  intros Hs Hl. destruct new_wf as [Hw Hc].
  assert (Hr : refines CommonFields_new []) by (split; [by exists 0, []|]; by rewrite Hc).
  destruct (serve_all_refines (CommonFields_new, CommonFields_new) ([], []) [] rs) as ([a b] & answers & E & Hf & Ha & Hb);
    [by split|by split|done|done|].
  exists a, b, answers. split; [done|]. split; [done|]. split; [apply Ha|apply Hb].
Qed.
End machine.

(** ** Functions a table can be given *)

Section reference.
Context {K V : Type} `{P : Policy K V} {Gs : Groups}.
Implicit Types (c : CommonFields V) (real : list Z).
Abbreviation W := (kWidth Group).

Definition shuffle_bytes_of (ctrl : list Z) (old_capacity new_capacity : Z) : list Z :=
  layout W (shuffled (take (Z.to_nat old_capacity) ctrl) (Z.to_nat new_capacity)).

(** Whether some byte of the group at [o] is empty, and whether that is so of
    every group that shows slot [p]. *)
Definition group_empty c (o : nat) : bool :=
  existsb IsEmpty (take (Z.to_nat W) (drop o (control c))).

Definition shows_slot c (o : nat) (p : Z) : bool :=
  existsb (fun i => (Z.of_nat o + Z.of_nat i) mod (capacity_ c + 1) =? p)
    (seq 0 (Z.to_nat (Z.min W (capacity_ c + 1)))).

Definition never_full_test c (p : Z) : bool :=
  forallb (fun o => negb (shows_slot c o p) || group_empty c o) (seq 0 (Z.to_nat (capacity_ c + 1))).

Definition erase_bytes c (p : Z) : CommonFields V :=
  let empty := never_full_test c p in
  let h := if empty then kEmpty else kDeleted in
  let g := growth_info c in
  set_growth (decrement_size (set_control c (SetCtrl_bytes W (capacity_ c) (control c) p h)))
    (if empty then OverwriteFullAsEmpty g else OverwriteFullAsDeleted g).

Definition clear_bytes c (reuse : bool) : CommonFields V :=
  if reuse then ResetGrowthLeft (ResetCtrl (with_size c 0)) else CommonFields_new.

(** Only the shuffle is used by a resize. *)
Definition shuffle_only : RawHashSetCc V := {|
  GrowIntoSingleGroupShuffleControlBytes := shuffle_bytes_of;
  PrepareInsertNonSoo _ _ _ := UB;
  EraseMetaOnly c _ := c;
  ClearBackingArray c _ := c;
|}.

Definition place_at c (hash : Z) (fi : option FindInfo) : outcome (option (CommonFields V * Z)) :=
  match fi with
  | None => Ret None
  | Some fi => do c <- mark c (fi_offset fi) hash; Ret (Some (c, fi_offset fi))
  end.

(** The target, another search, a table with the tombstones gone, or one of
    the next capacity. *)
Definition prepare_bytes c (hash : Z) (target : FindInfo) : outcome (option (CommonFields V * Z)) :=
  if HasNoDeletedAndGrowthLeft (growth_info c) then place_at c hash (Some target)
  else if 0 <? GetGrowthLeft (growth_info c) then do fi <- find_first_non_full c hash; place_at c hash fi
  else
    let cap := capacity_ c in
    do c1 <- resize_impl (Cc := shuffle_only) c
      (if size c <? CapacityToGrowth W cap then cap else NextCapacity cap);
    do fi <- FindFirstNonFullAfterResize c1 cap hash;
    place_at c1 hash fi.

Definition reference_cc : RawHashSetCc V := {|
  GrowIntoSingleGroupShuffleControlBytes := shuffle_bytes_of;
  PrepareInsertNonSoo := prepare_bytes;
  EraseMetaOnly := erase_bytes;
  ClearBackingArray := clear_bytes;
|}.

#[local] Existing Instance reference_cc.

Context {GL : GroupsLaws Gs} {PL : PolicyLaws P}.

#[export] Instance reference_shuffle : ShuffleLaw (Cc := reference_cc).
Proof.
  constructor. intros m m' real _ _ _ Hl _ _. cbn [GrowIntoSingleGroupShuffleControlBytes reference_cc].
  unfold shuffle_bytes_of. do 2 f_equal. unfold layout. rewrite take_app_length'; [done|lia].
Qed.

Lemma reference_resize c n : resize_impl (Cc := shuffle_only) c n = resize_impl (Cc := reference_cc) c n.
Proof. done. Qed.

#[export] Instance reference_clear : ClearLaw (Cc := reference_cc).
Proof.
  constructor. intros m c reuse Hm Hc _ Hs. cbn [ClearBackingArray reference_cc]. unfold clear_bytes. destruct reuse.
  - exists m. pose proof (growth_bounds W m W_ok ltac:(lia)) as Hgb. pose proof (capacity_pos m ltac:(lia)).
    constructor; try done; [lia| |].
    + cbn. by rewrite Hc.
    + rewrite (growth_reset m); [|lia|done|change (0 <= 0 <= CapacityToGrowth W (capacity_of m)); lia].
      change (size _) with 0. by rewrite Z.sub_0_r.
  - exists 0. apply new_cleared.
Qed.

Lemma group_empty_spec m c real o : in_order m c real -> Z.of_nat o <= capacity_ c ->
  group_empty c o = true <-> has_empty c (Z.of_nat o).
Proof.
  intros Ho Hr. unfold group_empty. rewrite existsb_exists. unfold has_empty. rewrite Nat2Z.id. pose proof W_pos. split.
  - intros (b & [i Hi]%list_elem_of_In%list_elem_of_lookup & Hb). apply lookup_take_Some in Hi as [Hi Hlt].
    rewrite lookup_drop in Hi. exists (Z.of_nat i). split; [lia|]. rewrite Nat2Z.id, Hi. f_equal.
    unfold IsEmpty in Hb. lia.
  - intros (i & Hi & Hb). exists kEmpty. split; [|done]. apply list_elem_of_In, list_elem_of_lookup.
    exists (Z.to_nat i). by rewrite lookup_take_lt, lookup_drop by lia.
Qed.

Lemma shows_slot_spec m c real o p : in_order m c real ->
  shows_slot c o p = true <-> covers c (Z.of_nat o) p.
Proof.
  intros Ho. unfold shows_slot. rewrite existsb_exists. unfold covers. pose proof W_pos.
  pose proof (cap_len m c real Ho). split.
  - intros (i & Hi & E). apply in_seq in Hi. exists (Z.of_nat i). split_and!; [lia..|]. by apply Z.eqb_eq.
  - intros (i & Hi & Hic & E). exists (Z.to_nat i). split; [apply in_seq; lia|]. rewrite Z2Nat.id by lia. by apply Z.eqb_eq.
Qed.

Lemma never_full_test_spec m c real p : in_order m c real -> never_full_test c p = true <-> never_full c p.
Proof.
  intros Ho. unfold never_full_test. rewrite forallb_forall. unfold never_full. split.
  - intros Hf o Hr Hc. specialize (Hf (Z.to_nat o) ltac:(apply in_seq; lia)).
    apply orb_prop in Hf as [Hf|Hf].
    + apply negb_true_iff in Hf. apply not_true_iff_false in Hf. destruct Hf. apply (shows_slot_spec m c real); [done|].
      by rewrite Z2Nat.id by lia.
    + apply (group_empty_spec m c real) in Hf; [|done|lia]. by rewrite Z2Nat.id in Hf by lia.
  - intros Hf o Ho'. apply in_seq in Ho'. destruct (shows_slot c o p) eqn:Es; [|done]. cbn [negb orb].
    apply (group_empty_spec m c real); [done|lia|]. apply Hf; [lia|]. by apply (shows_slot_spec m c real).
Qed.

(** A single group always has an empty byte. *)
Lemma single_never_full m c real p :
  wf m c real -> is_single_group W (capacity_ c) = true -> never_full c p.
Proof.
  intros Hw Hs o Hr _. pose proof (wf_order _ _ _ Hw) as Ho. rewrite (io_cap _ _ _ Ho) in Hs.
  destruct (wf_some_empty m c real Hw) as [[i Hi]|Hsm]; [|by apply (small_has_empty m c real Ho)].
  apply (slot_has_empty m c real Ho o i Hr Hi). pose proof (lookup_lt_Some _ _ _ Hi).
  apply (covers_single m c real); [done|done|]. rewrite (cap_len m c real Ho). lia.
Qed.

#[export] Instance reference_erase : EraseLaw (Cc := reference_cc).
Proof.
  constructor. intros m c real p v Hw Hv c1 result. pose proof (wf_order _ _ _ Hw) as Ho.
  pose proof (holds_range m c real Ho p v Hv) as Hp.
  assert (Hbytes : forall h, SetCtrl_bytes W (capacity_ c1) (control c1) p h = layout W (<[Z.to_nat p := h]> real)).
  { intros h. cbn. rewrite (io_ctrl _ _ _ Ho). rewrite (io_cap _ _ _ Ho) in Hp |- *.
    apply SetCtrl_layout; [apply W_ok|apply (io_m _ _ _ Ho)|apply (io_len _ _ _ Ho)|lia]. }
  assert (Hnf : never_full_test c1 p = true <-> never_full c p) by apply (never_full_test_spec m c real p Ho).
  unfold result. cbn [EraseMetaOnly reference_cc]. unfold erase_bytes. destruct (never_full_test c1 p).
  - left. split; [|by apply Hnf]. by rewrite Hbytes.
  - right. split; [by rewrite Hbytes|]. destruct (is_single_group W (capacity_ c)) eqn:Es; [|done].
    pose proof (proj2 Hnf (single_never_full m c real p Hw Es)). done.
Qed.

Lemma mark_defined m c real hash p : wf m c real -> good_place c real hash p -> exists c', mark c p hash = Ret c'.
Proof.
  intros Hw (Hr & _ & b & Hb & _). pose proof (wf_order _ _ _ Hw) as Ho. unfold mark.
  assert (ctrl_byte (PrepareInsertCommon c) p = Ret b) as ->.
  { unfold ctrl_byte. cbn. by rewrite (ctrl_slot m c real Ho _ b Hb). }
  cbn [obind]. rewrite (SetCtrl_spec m c _ real) by done. by eexists.
Qed.

#[export] Instance reference_prepare : PrepareLaw (Cc := reference_cc).
Proof.
  constructor. intros m c real hash target Hw Hs Ht. cbn [PrepareInsertNonSoo reference_cc]. unfold prepare_bytes.
  pose proof (wf_order _ _ _ Hw) as Ho. pose proof (io_cap _ _ _ Ho) as Ec. pose proof (io_m _ _ _ Ho) as Hm.
  destruct (HasNoDeletedAndGrowthLeft (growth_info c)) eqn:Eh.
  { destruct (mark_defined m c real hash (fi_offset target) Hw (proj1 (Ht eq_refl))) as [c2 E2]. cbn [place_at].
    rewrite E2. eexists c, _, c2. split; [by constructor|done]. }
  destruct (Z.ltb_spec 0 (GetGrowthLeft (growth_info c))) as [Hg|Hg].
  { destruct (special_place m c real hash Hw Hg) as (fi & Ef & Hp). destruct (mark_defined m c real hash _ Hw Hp) as [c2 E2].
    rewrite Ef. cbn [obind place_at]. rewrite E2. eexists c, _, c2. split; [by apply placed_again|done]. }
  rewrite Ec.
  assert (exists m', 0 < m' <= 56 /\ size c < CapacityToGrowth W (capacity_of m') /\
    (if size c <? CapacityToGrowth W (capacity_of m) then capacity_of m else NextCapacity (capacity_of m)) = capacity_of m')
    as (m' & Hm' & Hsm & ->).
  { pose proof (wf_size_growth m c real Hw) as Hsg. destruct (Z.ltb_spec (size c) (CapacityToGrowth W (capacity_of m))) as [Hlt|Hge].
    - exists m. split; [|done]. destruct (Z.eq_dec m 0) as [->|]; [|lia].
      exfalso. change (capacity_of 0) with 0 in Hlt. rewrite small_growth in Hlt by (apply W_ok || by left). lia.
    - assert (m <= 52).
      { destruct (Z.le_gt_cases m 52) as [|Hgt]; [done|]. pose proof (growth_mono W 52 m W_ok ltac:(lia) ltac:(lia)) as Hgm.
        assert (2 ^ 50 <= CapacityToGrowth W (capacity_of 52)) by (destruct W_ok as [-> | ->]; vm_compute; discriminate). lia. }
      exists (m + 1). split; [lia|]. split; [pose proof (growth_mono W m (m + 1) W_ok ltac:(lia) ltac:(lia)); lia|].
      pose proof (capacity_pos m Hm). unfold NextCapacity. rewrite wrapU_id by (unfold inU; lia).
      unfold capacity_of. rewrite Z.pow_add_r by lia. lia. }
  destruct (resize_spec m m' c real Hw Hm' ltac:(lia)) as (c1 & real1 & E1 & Hrs & Hsh).
  rewrite reference_resize, E1. cbn [obind].
  destruct (after_resize_spec m m' c real c1 real1 hash Hw Hm' Hsm E1 Hrs Hsh) as (fi & Ef & Hp).
  assert (Hw1 : wf m' c1 real1) by (apply (wf_resized m m' c c1 real real1); [done|lia|done]).
  destruct (mark_defined m' c1 real1 hash _ Hw1 Hp) as [c2 E2]. rewrite Ec in Ef. rewrite Ef. cbn [obind place_at]. rewrite E2.
  eexists c1, _, c2. split; [|done]. apply (placed_resized _ _ _ m'); try done. by rewrite Ec.
Qed.
End reference.

(** ** A table of numbers *)

(** Pairs of a key and a value; the hash spreads the keys over four groups
    and gives two keys in three the same H2. *)
Definition pairs : Policy Z (Z * Z) := {|
  key_of := fst;
  Hash k := Z.lor (Z.shiftl (k mod 32) 7) (k mod 3 / 2);
  Eq := Z.eqb;
  sizeof_infoz := 8;
  slot_align := 8;
  Allocate n := 4096 * (Z.of_nat n + 1);
|}.

Definition words : Groups :=
  {| Group := GroupPortableImpl; GroupFullEmptyOrDeleted := GroupPortableImpl; group_bytes := 8 |}.

(** [Group] of a platform with SSE2 and SSSE3. *)
Definition vectors : Groups :=
  {| Group := @GroupSse2Impl (lane_sse2 true false); GroupFullEmptyOrDeleted := GroupPortableImpl; group_bytes := 16 |}.

#[export] Instance pairs_laws : PolicyLaws pairs.
Proof.
  constructor; cbn.
  - apply Z.eqb_refl.
  - apply Z.eqb_sym.
  - intros a b c Hab Hbc. lia.
  - intros a b ->%Z.eqb_eq. done.
Qed.

#[export] Instance words_laws : GroupsLaws words.
Proof. constructor; apply _. Qed.

Definition numbers (a n : nat) : list Z := Z.of_nat <$> seq a n.

(** Growth inside one group and beyond it, tombstones, a rehash, small and
    large copies, merges both ways. *)
Definition sample_requests : list (request (K := Z) (V := Z * Z)) :=
  ((fun k => On false (Emplace (k * 7, k))) <$> numbers 0 5) ++ [Assign true; Compare] ++
  ((fun k => On false (Emplace (k * 7, k))) <$> numbers 5 15) ++
  [On false (Find 21); On false (Contains 5); On false (Emplace (21, 100))] ++
  ((fun k => On false (Erase (k * 7))) <$> numbers 3 12) ++
  ((fun k => On false (Emplace (k * 5 + 1, k))) <$> numbers 0 30) ++
  [MergeInto true; On false Size; On true Size; On true ForEach; Swap; On true (Reserve 100); Assign true; Compare;
   On false (Rehash 0); On false (Find 126); Compare; On false Clear; On false ForEach; On false (Emplace (1, 1)); Compare].

Definition sample_run :
    outcome (option (CommonFields (Z * Z) * CommonFields (Z * Z) * list (answer (V := Z * Z)))) :=
  serve_all (P := pairs) (Gs := words) (Cc := reference_cc (P := pairs) (Gs := words))
    (fun v w => bool_decide (v = w)) (CommonFields_new (Gs := words), CommonFields_new (Gs := words)) sample_requests.

Definition sample_lists : (list (Z * Z) * list (Z * Z)) * list (answer (V := Z * Z)) :=
  list_run (P := pairs) (fun v w => bool_decide (v = w)) ([], []) sample_requests.

Lemma swiss_table_refines_witness :
  (exists s answers, sample_run = Ret (Some (s, answers)) /\
    nth 24 answers Done = Emplaced (21, 3) false /\ last answers = Some (Answered false)) /\
  (exists a b answers, sample_run = Ret (Some ((a, b), answers)) /\
    Forall2 agrees answers (snd sample_lists) /\
    contents a ≡ₚ fst (fst sample_lists) /\ contents b ≡ₚ snd (fst sample_lists)).
Proof.
  split.
  - eexists _, _. split; [vm_compute; reflexivity|]. split; reflexivity.
  - refine (swiss_table_refines (P := pairs) (Gs := words) (Cc := reference_cc (P := pairs) (Gs := words))
      (fun v w => bool_decide (v = w)) _ sample_requests _ _).
    + intros v w. by apply bool_decide_ext.
    + refine (bool_decide_eq_true_1 _ _). vm_compute. reflexivity.
    + vm_compute. reflexivity.
Defined.
