(* ===== verification/PtrField.v ===== *)
(** * Repeated strings and messages ([google/protobuf/repeated_ptr_field.h])

    [RepeatedPtrFieldBase] and [RepeatedPtrField]: an array of pointers to
    elements the field owns, the first [current_size] of them in use and the
    others kept, cleared, for reuse; with room for one it needs no array.  The
    objects lie in a heap by address, each with the arena it is on; using or
    freeing what is not there is [UB].  The functions defined elsewhere are
    the class [PtrFieldOut], with a simple instance.

    [rep] relates a field to its elements, [own] a field and its elements to
    their piece of the heap, [both] two fields; each operation has a lemma on
    [own] or [both] that leaves the rest of the heap alone.  [World] is a
    program with any number of fields, [step] a call, [Account] what the
    program knows; [ptr_field_owns] is about every run of calls. *)

From Stdlib Require Import Lia.
From S2P Require Import Prelude RepeatedField Metadata.
Local Open Scope Z_scope.
Local Open Scope list_scope.

(** ** Objects *)

(** An object, and the arena it is on ([0] for the heap). *)
Record Obj (T : Type) := mkObj { o_home : Z; o_value : T }.
Arguments mkObj {T} _ _.
Arguments o_home {T} _.
Arguments o_value {T} _.

Abbreviation Objs T := (gmap Z (Obj T)).

(** [TypeHandler]: what an element can do, and whether it is a message or a
    string; a string does not know its arena. *)
Class Handler (T : Type) := {
  hd_new : T;
  hd_Clear : T -> T;
  (** [Merge(from, to)] *)
  hd_Merge : T -> T -> T;
  hd_message : bool;
  hd_clear_new x : hd_Clear x = hd_new;
  hd_merge_new x : hd_Merge x hd_new = x;
}.

Section objects.
Context {T : Type} `{Handler T} `{Malloc}.
Implicit Types (h : Objs T) (p arena : Z) (x : T).

Definition load p h : outcome T := match h !! p with Some o => Ret (o_value o) | None => UB end.
Definition modify (g : T -> T) p h : outcome (Objs T) :=
  match h !! p with Some o => Ret (<[p := mkObj (o_home o) (g (o_value o))]> h) | None => UB end.

(** [TypeHandler::New], empty or from a value. *)
Definition hd_New_value arena x h : Z * Objs T :=
  let p := malloc (dom h) in (p, <[p := mkObj arena x]> h).
Definition hd_New arena h : Z * Objs T := hd_New_value arena hd_new h.
Definition NewFromPrototype (prototype : option Z) arena h : Z * Objs T := hd_New arena h.

(** [TypeHandler::GetArena], [Delete] and [Clear]. *)
Definition hd_GetArena p h : outcome Z :=
  if hd_message then match h !! p with Some o => Ret (o_home o) | None => UB end else Ret 0.
Definition hd_Delete p arena h : outcome (Objs T) :=
  if negb (arena =? 0) then Ret h
  else match h !! p with Some o => if o_home o =? 0 then Ret (delete p h) else UB | None => UB end.
Definition Clear_at p h : outcome (Objs T) := modify hd_Clear p h.
Definition Merge_into (from : T) p h : outcome (Objs T) := modify (hd_Merge from) p h.

(** [Arena::Own]: the arena will delete an object of the heap. *)
Definition Own p arena h : outcome (Objs T) :=
  match h !! p with Some o => if o_home o =? 0 then Ret (<[p := mkObj arena (o_value o)]> h) else UB | None => UB end.
End objects.

(** ** The field *)

(** [tagged_rep_or_elem_]: an element or null, or the array with its
    [allocated_size]. *)
Inductive pstore := Sso (e : Z) | Rep (allocated : Z) (slots : list Z).

Record PtrField := mkPtr { pf_store : pstore; pf_current : Z; pf_total : Z; pf_arena : Z }.
Implicit Types (f g other : PtrField).

Definition kSSOCapacity : Z := 1.
Definition PtrField_new (arena : Z) : PtrField := mkPtr (Sso 0) 0 kSSOCapacity arena.

Definition using_sso f : bool := match pf_store f with Sso _ => true | Rep _ _ => false end.
Definition pf_empty f : bool := pf_current f =? 0.
Definition pf_size f : Z := pf_current f.
Definition pf_Capacity f : Z := pf_total f.
Definition pf_GetArena f : Z := pf_arena f.
Definition allocated_size f : Z := match pf_store f with Sso e => if e =? 0 then 0 else 1 | Rep a _ => a end.

Definition pf_elements f : list Z := match pf_store f with Sso e => [e] | Rep _ slots => slots end.
Definition with_elements (l : list Z) f : PtrField :=
  mkPtr (match pf_store f with Sso _ => Sso (nth 0 l 0) | Rep a _ => Rep a l end) (pf_current f) (pf_total f) (pf_arena f).
Definition element_at (index : Z) f : outcome Z :=
  if 0 <=? index then match pf_elements f !! Z.to_nat index with Some p => Ret p | None => UB end else UB.
Definition set_element (index p : Z) f : outcome PtrField :=
  if (0 <=? index) && (index <? Z.of_nat (length (pf_elements f)))
  then Ret (with_elements (<[Z.to_nat index := p]> (pf_elements f)) f) else UB.

(** [++rep()->allocated_size], [--]. *)
Definition add_allocated (d : Z) f : outcome PtrField :=
  match pf_store f with
  | Sso _ => UB
  | Rep a slots => Ret (mkPtr (Rep (a + d) slots) (pf_current f) (pf_total f) (pf_arena f))
  end.
Definition bump_allocated f : outcome PtrField := if negb (using_sso f) then add_allocated 1 f else Ret f.
Definition set_sso (e : Z) f : PtrField := mkPtr (Sso e) (pf_current f) (pf_total f) (pf_arena f).

Definition pf_ExchangeCurrentSize (new_size : Z) f : Z * PtrField :=
  (pf_current f, mkPtr (pf_store f) new_size (pf_total f) (pf_arena f)).

(** [element_at(ExchangeCurrentSize(current_size_ + 1)) = value], and the
    element that is taken into use. *)
Definition put_next (p : Z) f : outcome PtrField :=
  let '(i, f) := pf_ExchangeCurrentSize (pf_current f + 1) f in set_element i p f.
Definition take_next f : outcome (Z * PtrField) :=
  let '(i, f) := pf_ExchangeCurrentSize (pf_current f + 1) f in
  do p <- element_at i f; Ret (p, f).

(** The pointers a field owns. *)
Definition allocated f : list Z := take (Z.to_nat (allocated_size f)) (pf_elements f).

Definition shape_ok f : Prop :=
  0 <= pf_current f <= allocated_size f /\ allocated_size f <= pf_total f <= int_max /\
  Z.of_nat (length (pf_elements f)) = pf_total f /\ Forall (fun p => p <> 0) (allocated f).

(** The same elements, on the same arena, in a field that may be larger and
    that keeps its array if it has one. *)
Definition same_elements f f' : Prop :=
  shape_ok f' /\ allocated f' = allocated f /\ pf_current f' = pf_current f /\ pf_arena f' = pf_arena f /\
  pf_total f <= pf_total f' /\ (using_sso f' = true -> using_sso f = true).

(** ** What is defined elsewhere *)

(** Pointers and values side by side as a piece of the heap. *)
Definition cells {T : Type} (arena : Z) (l : list (Z * T)) : list (Z * Obj T) := (fun c => (c.1, mkObj arena c.2)) <$> l.

(** The heap is exactly these objects, each at one address. *)
Definition holds {T : Type} (l : list (Z * Obj T)) (h : Objs T) : Prop :=
  NoDup l.*1 /\ Forall (fun p => p <> 0) l.*1 /\ h = list_to_map l.

(** A field with these elements in use and these to spare. *)
Definition rep {T : Type} f (live spare : list (Z * T)) : Prop :=
  shape_ok f /\ allocated f = live.*1 ++ spare.*1 /\ pf_current f = Z.of_nat (length live).

(** [InternalExtend], [Reserve], [CloseGap], [AddOutOfLineHelper],
    [MergeFromConcreteMessage] (and its variant for strings) and
    [DestroyProtos], with what the header says of them. *)
Class PtrFieldOut (T : Type) `{Handler T} := {
  InternalExtend : Z -> PtrField -> outcome PtrField;
  out_Reserve : Z -> PtrField -> outcome PtrField;
  CloseGap : Z -> Z -> PtrField -> outcome PtrField;
  AddOutOfLineHelper : Z -> PtrField -> outcome PtrField;
  AddOutOfLineHelper_factory : PtrField -> Objs T -> outcome (Z * PtrField * Objs T);
  MergeFromConcreteMessage : PtrField -> PtrField -> Objs T -> outcome (PtrField * Objs T);
  DestroyProtos : PtrField -> Objs T -> outcome (Objs T);
  (** "Extends capacity by at least [extend_amount]." *)
  InternalExtend_spec n f :
    shape_ok f -> 0 < n -> pf_total f + n <= int_max ->
    exists f', InternalExtend n f = Ret f' /\ same_elements f f' /\ pf_total f + n <= pf_total f';
  (** "Reserves space to expand the field to at least the given size." *)
  out_Reserve_spec n f :
    shape_ok f -> n <= int_max -> exists f', out_Reserve n f = Ret f' /\ same_elements f f' /\ n <= pf_total f';
  (** The pointers behind the gap move up. *)
  CloseGap_spec start num f :
    shape_ok f -> 0 <= start -> 0 < num -> start + num <= pf_current f ->
    exists f', CloseGap start num f = Ret f' /\ shape_ok f' /\
      allocated f' = take (Z.to_nat start) (allocated f) ++ drop (Z.to_nat (start + num)) (allocated f) /\
      pf_current f' = pf_current f - num /\ pf_total f' = pf_total f /\ pf_arena f' = pf_arena f;
  (** "adds obj as the next element in the array, including potentially
      resizing" *)
  AddOutOfLineHelper_spec p f :
    shape_ok f -> p <> 0 -> pf_current f = allocated_size f -> pf_current f < int_max ->
    exists f', AddOutOfLineHelper p f = Ret f' /\ shape_ok f' /\ allocated f' = allocated f ++ [p] /\
      pf_current f' = pf_current f + 1 /\ pf_arena f' = pf_arena f /\ pf_total f <= pf_total f';
  (** "it might re-use an element left over" *)
  AddOutOfLineHelper_factory_spec f (live spare : list (Z * T)) rest h :
    rep f live spare -> holds (cells (pf_arena f) (live ++ spare) ++ rest) h ->
    Forall (fun c => c.2 = hd_new) spare -> pf_current f < int_max ->
    exists p f' h' spare', AddOutOfLineHelper_factory f h = Ret (p, f', h') /\
      rep f' (live ++ [(p, hd_new)]) spare' /\ pf_arena f' = pf_arena f /\
      Forall (fun c => c.2 = hd_new) spare' /\
      holds (cells (pf_arena f) ((live ++ [(p, hd_new)]) ++ spare') ++ rest) h';
  (** "Appends all values from [from] to this instance", into cleared ones
      first. *)
  MergeFromConcreteMessage_spec f (live spare : list (Z * T)) from (flive fspare : list (Z * T)) rest h :
    rep f live spare -> rep from flive fspare ->
    holds (cells (pf_arena f) (live ++ spare) ++ cells (pf_arena from) (flive ++ fspare) ++ rest) h ->
    Forall (fun c => c.2 = hd_new) spare -> pf_current f + pf_current from <= int_max ->
    exists more spare' f' h', MergeFromConcreteMessage from f h = Ret (f', h') /\
      rep f' (live ++ more) spare' /\ pf_arena f' = pf_arena f /\ more.*2 = flive.*2 /\
      Forall (fun c => c.2 = hd_new) spare' /\
      holds (cells (pf_arena f) ((live ++ more) ++ spare') ++ cells (pf_arena from) (flive ++ fspare) ++ rest) h';
  (** [Destroy] of messages. *)
  DestroyProtos_spec f (live spare : list (Z * T)) rest h :
    rep f live spare -> pf_arena f = 0 -> holds (cells 0 (live ++ spare) ++ rest) h ->
    exists h', DestroyProtos f h = Ret h' /\ holds rest h';
}.

(** ** Methods of [RepeatedPtrFieldBase] *)

Section base.
Context {T : Type} `{PtrFieldOut T} `{Malloc}.
Implicit Types (h : Objs T) (p index : Z) (x : T).

Definition MaybeExtend f : outcome PtrField :=
  if match pf_store f with Sso e => negb (e =? 0) | Rep a _ => a =? pf_total f end
  then InternalExtend 1 f else Ret f.

(** The pointer behind the last element is an index. *)
Definition InternalReserve (n : Z) f : outcome (Z * PtrField) :=
  if n <=? pf_total f then Ret (pf_current f, f)
  else do f <- InternalExtend (n - pf_total f) f; Ret (pf_current f, f).

Definition pf_at index f h : outcome T :=
  if index <? 0 then Throw fatal_message
  else if pf_current f <=? index then Throw fatal_message
  else do p <- element_at index f; load p h.
Definition pf_Get index f h : outcome T := do p <- element_at index f; load p h.
Definition pf_Mutable index f : outcome Z := element_at index f.

Definition base_Add f h : outcome (Z * PtrField * Objs T) := AddOutOfLineHelper_factory f h.
Definition Add_prototype (prototype : option Z) f h : outcome (Z * PtrField * Objs T) :=
  if pf_current f <? allocated_size f then do (p, f) <- take_next f; Ret (p, f, h)
  else
    let '(result, h) := NewFromPrototype prototype (pf_arena f) h in
    do f <- AddOutOfLineHelper result f; Ret (result, f, h).

(** [Add] of a value that may be moved from. *)
Definition Add_value x f h : outcome (PtrField * Objs T) :=
  if pf_current f <? allocated_size f
  then do (p, f) <- take_next f; do h <- modify (fun _ => x) p h; Ret (f, h)
  else
    do f <- MaybeExtend f;
    do f <- bump_allocated f;
    let '(result, h) := hd_New_value (pf_arena f) x h in
    do f <- put_next result f; Ret (f, h).

Definition base_Delete index f h : outcome (Objs T) := do p <- element_at index f; hd_Delete p (pf_arena f) h.

(** [Destroy]: the elements of the first [n] slots, whether in use or not. *)
Definition Destroy f h : outcome (Objs T) :=
  if negb (pf_arena f =? 0) then Ret h
  else ofold (fun p h => hd_Delete p 0 h) (take (Z.to_nat (allocated_size f)) (pf_elements f)) h.
Definition NeedsDestroy f : bool := negb (match pf_store f with Sso e => e =? 0 | Rep _ _ => false end) && (pf_arena f =? 0).

Definition ClearNonEmpty f h : outcome (PtrField * Objs T) :=
  do h <- ofold (fun i h => do p <- element_at (Z.of_nat i) f; Clear_at p h) (seq 0 (Z.to_nat (pf_current f))) h;
  Ret ((pf_ExchangeCurrentSize 0 f).2, h).
Definition base_Clear f h : outcome (PtrField * Objs T) := if 0 <? pf_current f then ClearNonEmpty f h else Ret (f, h).

Definition base_MergeFrom from f h : outcome (PtrField * Objs T) := MergeFromConcreteMessage from f h.

(** All members but the arena. *)
Definition InternalSwap f rhs : PtrField * PtrField :=
  (mkPtr (pf_store rhs) (pf_current rhs) (pf_total rhs) (pf_arena f),
   mkPtr (pf_store f) (pf_current f) (pf_total f) (pf_arena rhs)).

Definition PrepareForParse f : bool := allocated_size f =? pf_current f.
Definition AddAllocatedForParse p f : outcome PtrField :=
  do f <- MaybeExtend f;
  do f <- put_next p f;
  bump_allocated f.

Definition base_RemoveLast f h : outcome (PtrField * Objs T) :=
  let '(_, f) := pf_ExchangeCurrentSize (pf_current f - 1) f in
  do p <- element_at (pf_current f) f;
  do h <- Clear_at p h; Ret (f, h).

(** [same] tells that both are one object. *)
Definition base_CopyFrom (same : bool) other f h : outcome (PtrField * Objs T) :=
  if same then Ret (f, h)
  else
    do (f, h) <- base_Clear f h;
    if pf_empty other then Ret (f, h) else base_MergeFrom other f h.

(** A copy on an arena, or on the heap. *)
Definition copy_on arena p h : outcome (Z * Objs T) :=
  let '(new_value, h) := NewFromPrototype (Some p) arena h in
  do x <- load p h;
  do h <- Merge_into x new_value h; Ret (new_value, h).
Definition copy_value p h : outcome (Z * Objs T) := copy_on 0 p h.

Definition base_SwapElements (index1 index2 : Z) f : outcome PtrField :=
  do a <- element_at index1 f;
  do b <- element_at index2 f;
  do f <- set_element index1 b f;
  set_element index2 a f.

Definition pf_kRepHeaderSize : Z := 8.
Definition pf_SpaceUsedExcludingSelfLong (SpaceUsedLong : T -> Z) f h : outcome Z :=
  let allocated_bytes := if using_sso f then 0 else pf_total f * 8 + pf_kRepHeaderSize in
  ofold (fun p n => do x <- load p h; Ret (n + SpaceUsedLong x))
    (take (Z.to_nat (allocated_size f)) (pf_elements f)) allocated_bytes.

Definition AddFromCleared f : outcome (option Z * PtrField) :=
  if pf_current f <? allocated_size f then do (p, f) <- take_next f; Ret (Some p, f) else Ret (None, f).

Definition base_UnsafeArenaAddAllocated p f h : outcome (PtrField * Objs T) :=
  do (f, h) <-
    (if pf_current f =? pf_total f then
       do f <- out_Reserve (pf_total f + 1) f;
       do f <- add_allocated 1 f; Ret (f, h)
     else if allocated_size f =? pf_total f then
       do q <- element_at (pf_current f) f;
       do h <- hd_Delete q (pf_arena f) h; Ret (f, h)
     else if pf_current f <? allocated_size f then
       do q <- element_at (pf_current f) f;
       do f <- set_element (allocated_size f) q f;
       do f <- add_allocated 1 f; Ret (f, h)
     else do f <- bump_allocated f; Ret (f, h));
  do f <- put_next p f; Ret (f, h).

Definition AddAllocatedSlowWithCopy p (value_arena my_arena : Z) f h : outcome (PtrField * Objs T) :=
  do (p, h) <-
    (if negb (my_arena =? 0) && (value_arena =? 0) then do h <- Own p my_arena h; Ret (p, h)
     else if negb (my_arena =? value_arena) then
       do (new_value, h) <- copy_on my_arena p h;
       do h <- hd_Delete p value_arena h; Ret (new_value, h)
     else Ret (p, h));
  base_UnsafeArenaAddAllocated p f h.

(** Room at the end, the first cleared element moving behind the others. *)
Definition add_fast p f : outcome PtrField :=
  do f <- (if pf_current f <? allocated_size f
           then do q <- element_at (pf_current f) f; set_element (allocated_size f) q f else Ret f);
  do f <- put_next p f;
  bump_allocated f.

(** For types that can be copied, and for those that cannot. *)
Definition AddAllocatedInternal (merges : bool) p f h : outcome (PtrField * Objs T) :=
  if merges then
    do element_arena <- hd_GetArena p h;
    let arena := pf_arena f in
    if (arena =? element_arena) && (allocated_size f <? pf_total f)
    then do f <- add_fast p f; Ret (f, h)
    else AddAllocatedSlowWithCopy p element_arena arena f h
  else if allocated_size f <? pf_total f then do f <- add_fast p f; Ret (f, h)
  else base_UnsafeArenaAddAllocated p f h.

Definition base_UnsafeArenaReleaseLast f : outcome (Z * PtrField) :=
  let '(_, f) := pf_ExchangeCurrentSize (pf_current f - 1) f in
  do result <- element_at (pf_current f) f;
  if using_sso f then Ret (result, set_sso 0 f)
  else
    do f <- add_allocated (-1) f;
    do f <- (if pf_current f <? allocated_size f
             then do q <- element_at (allocated_size f) f; set_element (pf_current f) q f else Ret f);
    Ret (result, f).

Definition ReleaseLastInternal (merges : bool) f h : outcome (Z * PtrField * Objs T) :=
  do (result, f) <- base_UnsafeArenaReleaseLast f;
  if merges && negb (pf_arena f =? 0) then do (q, h) <- copy_value result h; Ret (q, f, h) else Ret (result, f, h).

Definition ClearedCount f : Z := allocated_size f - pf_current f.

Definition base_AddCleared p f : outcome PtrField :=
  do f <- MaybeExtend f;
  if using_sso f then Ret (set_sso p f)
  else let i := allocated_size f in do f <- add_allocated 1 f; set_element i p f.
Definition base_ReleaseCleared f : outcome (Z * PtrField) :=
  match pf_store f with
  | Sso e => Ret (e, set_sso 0 f)
  | Rep _ _ => do f <- add_allocated (-1) f; do p <- element_at (allocated_size f) f; Ret (p, f)
  end.

(** The temporary is on [other]'s arena. *)
Definition SwapFallback f other h : outcome (PtrField * PtrField * Objs T) :=
  let temp := PtrField_new (pf_arena other) in
  do (temp, h) <- (if negb (pf_empty f) then base_MergeFrom f temp h else Ret (temp, h));
  do (f, h) <- base_CopyFrom false other f h;
  let '(other, temp) := InternalSwap other temp in
  do h <- Destroy temp h; Ret (f, other, h).
Definition base_Swap f other h : outcome (PtrField * PtrField * Objs T) :=
  if pf_arena f =? pf_arena other then let '(f, other) := InternalSwap f other in Ret (f, other, h)
  else SwapFallback f other h.
End base.

(** ** Methods of [RepeatedPtrField<Element>] *)

Section field.
Context {T : Type} `{PtrFieldOut T} `{Malloc}.
Implicit Types (h : Objs T) (p index start num : Z) (x : T) (l : list T).

(** [std::is_base_of<MessageLite, Element>]: messages have a destructor of
    their own out of line. *)
Definition pf_destroy f h : outcome (Objs T) :=
  if hd_message then if NeedsDestroy f then DestroyProtos f h else Ret h else Destroy f h.

Definition pf_Add f h : outcome (Z * PtrField * Objs T) := base_Add f h.
Definition pf_Add_value x f h : outcome (PtrField * Objs T) := Add_value x f h.
Definition pf_Reserve (new_size : Z) f : outcome PtrField := out_Reserve new_size f.

(** [*Add() = *begin]; a forward range is counted first. *)
Definition pf_Add_range (forward : bool) l f h : outcome (PtrField * Objs T) :=
  do f <- (if forward then do n <- int_add (pf_size f) (i32 (Z.of_nat (length l))); pf_Reserve n f else Ret f);
  ofold (fun x '(f, h) => do (p, f, h) <- pf_Add f h; do h <- modify (fun _ => x) p h; Ret (f, h)) l (f, h).

Definition pf_RemoveLast f h : outcome (PtrField * Objs T) := base_RemoveLast f h.

(** [data() + start], [num] pointers from there. *)
Definition pointers start num f : outcome (list Z) :=
  if (0 <=? start) && (start + num <=? Z.of_nat (length (pf_elements f)))
  then Ret (take (Z.to_nat num) (drop (Z.to_nat start) (pf_elements f))) else UB.

(** The array [elements] of the caller receives the pointers. *)
Definition pf_UnsafeArenaExtractSubrange start num f : outcome (list Z * PtrField) :=
  if 0 <? num
  then do elements <- pointers start num f; do f <- CloseGap start num f; Ret (elements, f)
  else Ret ([], f).

Fixpoint copy_all (extracted : list Z) h : outcome (list Z * Objs T) :=
  match extracted with
  | [] => Ret ([], h)
  | p :: extracted =>
      do (q, h) <- copy_value p h;
      do (l, h) <- copy_all extracted h; Ret (q :: l, h)
  end.

Definition pf_ExtractSubrange (merges : bool) start num f h : outcome (list Z * PtrField * Objs T) :=
  if merges then
    if num =? 0 then Ret ([], f, h)
    else
      do extracted <- pointers start num f;
      do (elements, h) <- (if negb (pf_arena f =? 0) then copy_all extracted h else Ret (extracted, h));
      do f <- CloseGap start num f; Ret (elements, f, h)
  else do (elements, f) <- pf_UnsafeArenaExtractSubrange start num f; Ret (elements, f, h).

Definition pf_DeleteSubrange start num f h : outcome (PtrField * Objs T) :=
  do subrange <- pointers start num f;
  do h <- ofold (fun p h => hd_Delete p (pf_arena f) h) subrange h;
  do (_, f) <- pf_UnsafeArenaExtractSubrange start num f; Ret (f, h).

Definition pf_Clear f h : outcome (PtrField * Objs T) := base_Clear f h.
Definition pf_MergeFrom other f h : outcome (PtrField * Objs T) :=
  if pf_empty other then Ret (f, h) else base_MergeFrom other f h.
Definition pf_CopyFrom (same : bool) other f h : outcome (PtrField * Objs T) := base_CopyFrom same other f h.
Definition pf_Assign (forward : bool) l f h : outcome (PtrField * Objs T) :=
  do (f, h) <- pf_Clear f h; pf_Add_range forward l f h.

(** [erase] returns an iterator, here its index. *)
Definition pf_erase (first last : Z) f h : outcome (Z * PtrField * Objs T) :=
  do (f, h) <- pf_DeleteSubrange first (last - first) f h; Ret (first, f, h).
Definition pf_erase_at position f h : outcome (Z * PtrField * Objs T) := pf_erase position (position + 1) f h.

Definition pf_Swap (same : bool) f other h : outcome (PtrField * PtrField * Objs T) :=
  if same then Ret (f, other, h) else base_Swap f other h.
Definition pf_UnsafeArenaSwap (same : bool) f other : PtrField * PtrField :=
  if same then (f, other) else InternalSwap f other.

Definition pf_copy_new (arena : Z) rhs h : outcome (PtrField * Objs T) := pf_MergeFrom rhs (PtrField_new arena) h.
Definition pf_range_new (forward : bool) l h : outcome (PtrField * Objs T) := pf_Add_range forward l (PtrField_new 0) h.
Definition pf_assign (same : bool) other f h : outcome (PtrField * Objs T) :=
  if same then Ret (f, h) else pf_CopyFrom false other f h.
Definition pf_move_new other h : outcome (PtrField * PtrField * Objs T) :=
  let f := PtrField_new 0 in
  if negb (pf_arena other =? 0) then do (f, h) <- pf_CopyFrom false other f h; Ret (f, other, h)
  else let '(f, other) := InternalSwap f other in Ret (f, other, h).
Definition pf_move_assign (same : bool) other f h : outcome (PtrField * PtrField * Objs T) :=
  if same then Ret (f, other, h)
  else if negb (pf_arena f =? pf_arena other) then do (f, h) <- pf_CopyFrom false other f h; Ret (f, other, h)
  else let '(f, other) := InternalSwap f other in Ret (f, other, h).

Definition pf_AddAllocated p f h : outcome (PtrField * Objs T) := AddAllocatedInternal true p f h.
Definition pf_ReleaseLast f h : outcome (Z * PtrField * Objs T) := ReleaseLastInternal true f h.
End field.

(** ** A piece of the heap *)

Section heap_facts.
Context {T : Type} `{Handler T} `{Malloc}.
Implicit Types (h : Objs T) (l : list (Z * Obj T)) (p : Z) (o : Obj T).

#[global] Instance holds_proper : Proper ((≡ₚ) ==> eq ==> iff) (@holds T).
Proof.
  assert (Hw : forall l1 l2 h, l1 ≡ₚ l2 -> holds l1 h -> holds l2 h).
  { intros l1 l2 h E (N1 & N2 & ->). assert (E' : l1.*1 ≡ₚ l2.*1) by (by rewrite E).
    split; [by rewrite <- E'|]. split; [by rewrite <- E'|]. by apply list_to_map_proper. }
  intros l1 l2 E h ? <-. split; apply Hw; [done|by symmetry].
Qed.

Lemma holds_lookup p o l h : holds ((p, o) :: l) h -> h !! p = Some o.
Proof. intros (_ & _ & ->). apply lookup_insert_eq. Qed.

Lemma holds_update p o o' l h : holds ((p, o) :: l) h -> holds ((p, o') :: l) (<[p := o']> h).
Proof. intros (N1 & N2 & ->). split; [done|]. split; [done|]. simpl. by rewrite insert_insert_eq. Qed.

Lemma holds_delete p o l h : holds ((p, o) :: l) h -> holds l (delete p h).
Proof.
  intros (N1 & N2 & ->). simpl in *. apply NoDup_cons in N1 as [Np N1]. inversion N2; subst. split; [done|]. split; [done|].
  simpl. apply delete_insert_id. by apply not_elem_of_list_to_map.
Qed.

Lemma holds_new o l h : holds l h -> holds ((malloc (dom h), o) :: l) (<[malloc (dom h) := o]> h).
Proof.
  intros (N1 & N2 & E). split; [|split].
  - simpl. apply NoDup_cons. split; [|done]. intros Hin.
    pose proof (malloc_fresh (dom h)) as Hf. rewrite not_elem_of_dom in Hf. rewrite E in Hf at 2.
    by apply not_elem_of_list_to_map in Hf.
  - constructor; [|done]. simpl. destruct (malloc_aligned (dom h)). lia.
  - simpl. by rewrite <- E.
Qed.

Lemma holds_nonzero p o l h : holds ((p, o) :: l) h -> p <> 0.
Proof. intros (_ & N & _). by inversion N. Qed.

Lemma cells_app a (l1 l2 : list (Z * T)) : cells a (l1 ++ l2) = cells a l1 ++ cells a l2.
Proof. apply fmap_app. Qed.
Lemma cells_cons a p (x : T) (cs : list (Z * T)) : cells a ((p, x) :: cs) = (p, mkObj a x) :: cells a cs.
Proof. done. Qed.
Lemma cells_fst a (cs : list (Z * T)) : (cells a cs).*1 = cs.*1.
Proof. unfold cells. rewrite <- list_fmap_compose. by apply list_fmap_ext. Qed.

#[global] Instance cells_proper a : Proper ((≡ₚ) ==> (≡ₚ)) (@cells T a).
Proof. intros l1 l2 E. unfold cells. by rewrite E. Qed.

(** A piece of the heap in any order. *)
Lemma holds_any l l' h : l ≡ₚ l' -> holds l h -> holds l' h.
Proof. by intros ->. Qed.
End heap_facts.

#[local] Ltac piece := rewrite ?cells_app, ?cells_cons, ?app_nil_r, <- ?app_assoc, <- ?app_comm_cons in *; simpl; solve_Permutation.

(** ** The four shapes of a field *)

Section shapes.
Context {T : Type}.
Implicit Types (live spare : list (Z * T)) (p arena : Z) (x : T) (junk : list Z).

Inductive view : PtrField -> list (Z * T) -> list (Z * T) -> Prop :=
| view_none arena : view (mkPtr (Sso 0) 0 1 arena) [] []
| view_live p x arena : p <> 0 -> view (mkPtr (Sso p) 1 1 arena) [(p, x)] []
| view_spare p x arena : p <> 0 -> view (mkPtr (Sso p) 0 1 arena) [] [(p, x)]
| view_rep live spare junk total arena :
    Forall (fun p => p <> 0) (live.*1 ++ spare.*1) -> total <= int_max ->
    Z.of_nat (length live + length spare + length junk) = total ->
    view (mkPtr (Rep (Z.of_nat (length live + length spare)) (live.*1 ++ spare.*1 ++ junk)) (Z.of_nat (length live)) total arena)
      live spare.

Lemma view_of_rep f live spare : rep f live spare -> view f live spare.
Proof.
  intros ((Hc & Ht & Hl & Hn) & Ha & Hcur). destruct f as [[e|a slots] cur total arena]; unfold allocated, allocated_size, pf_elements in *; simpl in *.
  - subst total. destruct (Z.eqb_spec e 0) as [->|He]; simpl in *.
    + destruct live; [|done]. destruct spare; [|done]. simpl in *. subst cur. constructor.
    + destruct live as [|[q x] live]; simpl in *.
      * destruct spare as [|[q x] [|? ?]]; try discriminate Ha. injection Ha as <-. subst cur. by constructor.
      * injection Ha as <- Ha. destruct live; [|done]. destruct spare; [|done]. subst cur. by constructor.
  - assert (Hlen : a = Z.of_nat (length live + length spare)).
    { apply (f_equal length) in Ha. rewrite length_take, length_app, !length_fmap in Ha. lia. }
    rewrite <- (take_drop (Z.to_nat a) slots) in Hl |- *. rewrite Ha in Hl, Hn |- *. subst a cur. rewrite Nat2Z.id, <- app_assoc in *.
    rewrite !length_app, !length_fmap in Hl. constructor; [done|lia|lia].
Qed.

Lemma rep_of_view f live spare : view f live spare -> rep f live spare.
Proof.
  intros []; unfold rep, shape_ok, allocated, allocated_size, pf_elements, int_max in *; simpl.
  - split_and!; [lia..|constructor|done|done].
  - rewrite (proj2 (Z.eqb_neq _ _)) by done. split_and!; [lia..|by repeat constructor|done|done].
  - rewrite (proj2 (Z.eqb_neq _ _)) by done. split_and!; [lia..|by repeat constructor|done|done].
  - rewrite !length_app, !length_fmap, Nat2Z.id, app_assoc.
    assert (E : length (live0.*1 ++ spare0.*1) = (length live0 + length spare0)%nat) by (by rewrite length_app, !length_fmap).
    rewrite <- E, take_app_length. split_and!; (lia || done).
Qed.
End shapes.

(** ** Pointers *)

Section pointer_facts.
Context {T : Type}.
Implicit Types (live spare : list (Z * T)) (p arena : Z) (x : T) (junk : list Z).

Lemma rep_counts f live spare :
  rep f live spare ->
  pf_current f = Z.of_nat (length live) /\ allocated_size f = Z.of_nat (length live + length spare) /\
  allocated_size f <= pf_total f <= int_max.
Proof.
  intros HR. split_and!; [apply HR| |apply HR|apply HR]. apply view_of_rep in HR.
  destruct HR; unfold allocated_size; simpl; rewrite ?(proj2 (Z.eqb_neq _ _)) by done; done.
Qed.

Lemma rep_nonzero f live spare : rep f live spare -> Forall (fun p => p <> 0) (live.*1 ++ spare.*1).
Proof. intros ((_ & _ & _ & Hn) & Ha & _). by rewrite <- Ha. Qed.

(** A field with an array, as built by the operations. *)
Lemma rep_array cur a slots total arena live spare junk :
  slots = live.*1 ++ spare.*1 ++ junk -> cur = Z.of_nat (length live) -> a = Z.of_nat (length live + length spare) ->
  total = Z.of_nat (length slots) -> total <= int_max -> Forall (fun p => p <> 0) (live.*1 ++ spare.*1) ->
  rep (mkPtr (Rep a slots) cur total arena) live spare.
Proof.
  intros -> -> -> -> Hm Hn. apply rep_of_view. constructor; [done|done|]. rewrite !length_app, !length_fmap. lia.
Qed.

Lemma element_lookup f live spare i c :
  rep f live spare -> (live ++ spare) !! i = Some c -> element_at (Z.of_nat i) f = Ret c.1.
Proof.
  intros ((Hc & Ht & Hl & Hn) & Ha & _) Hi. unfold element_at. rewrite (proj2 (Z.leb_le _ _)) by lia. rewrite Nat2Z.id.
  assert (E : allocated f !! i = Some c.1) by (by rewrite Ha, <- fmap_app, list_lookup_fmap, Hi).
  unfold allocated in E. apply lookup_take_Some in E as [E _]. by rewrite E.
Qed.

Lemma element_live f live c live2 spare :
  rep f (live ++ c :: live2) spare -> element_at (Z.of_nat (length live)) f = Ret c.1.
Proof. intros HR. apply (element_lookup _ _ _ _ c HR). rewrite <- app_assoc. by apply list_lookup_middle. Qed.

Lemma element_spare f live c spare : rep f live (c :: spare) -> element_at (Z.of_nat (length live)) f = Ret c.1.
Proof. intros HR. apply (element_lookup _ _ _ _ c HR). by apply list_lookup_middle. Qed.

Lemma take_next_spec f live p x spare :
  rep f live ((p, x) :: spare) ->
  exists f', take_next f = Ret (p, f') /\ rep f' (live ++ [(p, x)]) spare /\ pf_arena f' = pf_arena f /\
    pf_total f' = pf_total f.
Proof.
  intros HR. pose proof (element_spare _ _ _ _ HR) as He. pose proof (proj1 (rep_counts _ _ _ HR)) as Hc.
  unfold take_next, pf_ExchangeCurrentSize. cbn [obind]. rewrite Hc.
  assert (E : element_at (Z.of_nat (length live)) (mkPtr (pf_store f) (Z.of_nat (length live) + 1) (pf_total f) (pf_arena f)) = Ret p).
  { change p with (p, x).1. rewrite <- He. by destruct f. }
  rewrite E. cbn [obind]. eexists. split; [done|]. split; [|done].
  pose proof (proj1 (proj2 (rep_counts _ _ _ HR))) as Hsize. simpl length in Hsize.
  destruct HR as ((Hcc & Ht & Hl & Hn) & Ha & _).
  split; [|split].
  - split; [|done]. change (allocated_size _) with (allocated_size f). simpl. lia.
  - rewrite fmap_app, <- app_assoc. exact Ha.
  - simpl. rewrite length_app. simpl. lia.
Qed.

Lemma exchange_spec f live1 live2 spare :
  rep f (live1 ++ live2) spare ->
  rep (pf_ExchangeCurrentSize (Z.of_nat (length live1)) f).2 live1 (live2 ++ spare).
Proof.
  intros ((Hcc & Ht & Hl & Hn) & Ha & Hc). rewrite length_app in Hc. split; [|split].
  - split; [|done]. change (allocated_size _) with (allocated_size f). simpl. lia.
  - rewrite fmap_app, <- app_assoc in Ha. by rewrite fmap_app.
  - done.
Qed.

Lemma same_elements_rep f f' live spare : rep f live spare -> same_elements f f' -> rep f' live spare.
Proof. intros (_ & Ha & Hc) (Hs & Ea & Ec & _). split; [done|]. split; congruence. Qed.

Lemma rep_arena_change f live spare arena : rep f live spare -> rep (mkPtr (pf_store f) (pf_current f) (pf_total f) arena) live spare.
Proof. intros HR. exact HR. Qed.

(** Room for one more. *)
Definition roomy f : Prop := allocated_size f < pf_total f.

Lemma roomy_spare f live c spare :
  rep f live (c :: spare) -> roomy f -> exists junk slots total arena j,
    junk = j :: slots /\ f = mkPtr (Rep (Z.of_nat (length live + S (length spare))) (live.*1 ++ (c :: spare).*1 ++ junk))
      (Z.of_nat (length live)) total arena /\ total <= int_max /\
    Z.of_nat (length live + S (length spare) + length junk) = total.
Proof.
  intros HR Hr. apply view_of_rep in HR. unfold roomy in Hr. inversion HR; subst; simpl in *.
  - unfold allocated_size in Hr. simpl in Hr. rewrite (proj2 (Z.eqb_neq _ _)) in Hr by done. lia.
  - unfold allocated_size in Hr. simpl in Hr. destruct junk as [|j junk]; [simpl in *; lia|].
    exists (j :: junk), junk, (Z.of_nat (length live + S (length spare) + length (j :: junk))), arena, j. split_and!; (done || lia).
Qed.

(** The first cleared element behind the others. *)
Definition rotate (spare : list (Z * T)) : list (Z * T) := match spare with [] => [] | c :: spare => spare ++ [c] end.

Lemma rotate_perm spare : rotate spare ≡ₚ spare.
Proof. destruct spare; simpl; [done|]. solve_Permutation. Qed.

Lemma put_bump_spec f live p x :
  rep f live [] -> roomy f -> p <> 0 ->
  exists f', (do f <- put_next p f; bump_allocated f) = Ret f' /\ (do f <- bump_allocated f; put_next p f) = Ret f' /\
    rep f' (live ++ [(p, x)]) [] /\ pf_arena f' = pf_arena f /\ pf_total f' = pf_total f.
Proof.
  intros HR Hr Hp. apply view_of_rep in HR. unfold roomy in Hr. inversion HR; subst; unfold allocated_size in Hr; simpl in Hr.
  - eexists. split; [done|]. split; [done|]. split; [|done]. apply rep_of_view. by constructor.
  - rewrite (proj2 (Z.eqb_neq _ _)) in Hr by done. lia.
  - destruct junk as [|j junk]; [simpl in *; lia|]. rewrite app_nil_l in *.
    assert (Hlen : length (live.*1 ++ j :: junk) = (length live + S (length junk))%nat) by (rewrite length_app, length_fmap; done).
    assert (Hlt : ((0 <=? Z.of_nat (length live)) && (Z.of_nat (length live) <? Z.of_nat (length (live.*1 ++ j :: junk)))) = true)
      by (apply andb_true_iff; rewrite Z.leb_le, Z.ltb_lt, Hlen; lia).
    assert (Ei : <[Z.to_nat (Z.of_nat (length live)):=p]> (live.*1 ++ j :: junk) = (live ++ [(p, x)]).*1 ++ junk).
    { rewrite Nat2Z.id, fmap_app, <- app_assoc. rewrite insert_app_r_alt by (by rewrite length_fmap).
      by rewrite length_fmap, Nat.sub_diag. }
    eexists. unfold put_next, bump_allocated, set_element, pf_ExchangeCurrentSize, add_allocated; cbn [obind using_sso negb pf_store pf_current pf_elements].
    rewrite Hlt. cbn [obind using_sso negb pf_store pf_current pf_elements with_elements]. rewrite Ei. split; [done|]. split; [done|]. split; [|done].
    apply (rep_array _ _ _ _ _ _ _ junk); rewrite ?app_nil_r in *.
    + done.
    + rewrite length_app. simpl. lia.
    + rewrite length_app. simpl. lia.
    + rewrite length_app, length_fmap, length_app. simpl in *. lia.
    + done.
    + rewrite fmap_app. apply Forall_app. split; [done|]. by constructor.
Qed.
End pointer_facts.

(** Addresses that are known not to be null. *)
#[local] Ltac nonzero :=
  simpl in *; repeat match goal with H : Forall _ _ |- _ => revert H end;
  rewrite ?fmap_app; repeat (rewrite ?Forall_app, ?Forall_cons, ?Forall_nil; simpl); tauto.

Section pointer_ops.
Context {T : Type}.
Implicit Types (live spare : list (Z * T)) (p arena : Z) (x : T) (junk : list Z).

(** Writing a slot of an array. *)
Lemma set_slot a cur total arena l1 q l2 p :
  set_element (Z.of_nat (length l1)) p (mkPtr (Rep a (l1 ++ q :: l2)) cur total arena) =
    Ret (mkPtr (Rep a (l1 ++ p :: l2)) cur total arena).
Proof.
  unfold set_element, pf_elements, with_elements. simpl pf_store. cbn iota.
  rewrite (proj2 (Z.leb_le _ _)), (proj2 (Z.ltb_lt _ _)) by (rewrite ?length_app; simpl; lia).
  rewrite Nat2Z.id, insert_app_r_alt, Nat.sub_diag by done. done.
Qed.

Lemma get_slot a cur total arena l1 q l2 :
  element_at (Z.of_nat (length l1)) (mkPtr (Rep a (l1 ++ q :: l2)) cur total arena) = Ret q.
Proof.
  unfold element_at, pf_elements. simpl pf_store. cbn iota. rewrite (proj2 (Z.leb_le _ _)) by lia.
  by rewrite Nat2Z.id, list_lookup_middle.
Qed.

(** The first cleared element moves to the end, where there is room. *)
Lemma move_first f live c spare :
  rep f live (c :: spare) -> roomy f ->
  exists j junk total arena,
    (do q <- element_at (pf_current f) f; set_element (allocated_size f) q f) =
      Ret (mkPtr (Rep (Z.of_nat (length live + S (length spare))) (live.*1 ++ c.1 :: (spare ++ [c]).*1 ++ junk))
             (Z.of_nat (length live)) total arena) /\
    f = mkPtr (Rep (Z.of_nat (length live + S (length spare))) (live.*1 ++ (c :: spare).*1 ++ j :: junk)) (Z.of_nat (length live)) total arena /\
    total <= int_max /\ Z.of_nat (length live + S (length spare) + S (length junk)) = total.
Proof.
  intros HR Hr. pose proof (element_spare _ _ _ _ HR) as He.
  destruct (roomy_spare _ _ _ _ HR Hr) as (? & junk & total & arena & j & -> & -> & Hm & Hl).
  exists j, junk, total, arena. simpl pf_current. rewrite He. cbn [obind]. unfold allocated_size at 1. simpl pf_store. cbn iota.
  split; [|done]. change (live.*1 ++ (c :: spare).*1 ++ j :: junk) with (live.*1 ++ c.1 :: (spare.*1 ++ j :: junk)).
  replace (Z.of_nat (length live + S (length spare))) with (Z.of_nat (length (live.*1 ++ c.1 :: spare.*1))) at 1
    by (rewrite length_app; simpl; rewrite !length_fmap; done).
  replace (live.*1 ++ c.1 :: spare.*1 ++ j :: junk) with ((live.*1 ++ c.1 :: spare.*1) ++ j :: junk) by (by rewrite <- app_assoc).
  rewrite set_slot. by rewrite fmap_app, <- !app_assoc.
Qed.

Lemma add_fast_spec f live spare p x :
  rep f live spare -> roomy f -> p <> 0 ->
  exists f', add_fast p f = Ret f' /\ rep f' (live ++ [(p, x)]) (rotate spare) /\ pf_arena f' = pf_arena f /\
    pf_total f' = pf_total f.
Proof.
  intros HR Hr Hp. pose proof (rep_counts _ _ _ HR) as (Hc & Ha & Hb). pose proof (rep_nonzero _ _ _ HR) as Hn. unfold add_fast.
  destruct spare as [|c spare].
  - rewrite (proj2 (Z.ltb_ge _ _)) by (rewrite Hc, Ha; simpl; lia). cbn [obind].
    destruct (put_bump_spec f live p x HR Hr Hp) as (f' & E & _ & R). by exists f'.
  - rewrite (proj2 (Z.ltb_lt _ _)) by (rewrite Hc, Ha; simpl; lia).
    destruct (move_first f live c spare HR Hr) as (j & junk & total & arena & E & -> & Hm & Hl). rewrite E. cbn [obind].
    unfold put_next, pf_ExchangeCurrentSize. cbn [pf_current pf_store pf_total pf_arena].
    rewrite <- (length_fmap fst live), set_slot. cbn [obind bump_allocated using_sso negb pf_store add_allocated].
    unfold bump_allocated, add_allocated. cbn [using_sso negb pf_store pf_current pf_total pf_arena]. eexists. split; [done|].
    split; [|done]. apply (rep_array _ _ _ _ _ _ _ junk); rewrite ?fmap_app, ?length_app, ?length_fmap in *; simpl in *.
    + by rewrite fmap_app, <- !app_assoc.
    + lia.
    + rewrite length_app. simpl. lia.
    + rewrite !length_app, !length_fmap. simpl. lia.
    + done.
    + rewrite fmap_app, !Forall_app, Forall_cons in *. simpl. rewrite ?Forall_cons in *. destruct_and!. split_and!; try done; by constructor.
Qed.

(** What takes the place of the element that was last in use. *)
Lemma unsafe_release_spec f live p x spare :
  rep f (live ++ [(p, x)]) spare ->
  exists f' spare', base_UnsafeArenaReleaseLast f = Ret (p, f') /\ rep f' live spare' /\ spare' ≡ₚ spare /\
    pf_arena f' = pf_arena f /\ pf_total f' = pf_total f.
Proof.
  intros HR. pose proof (rep_nonzero _ _ _ HR) as Hn. apply view_of_rep in HR. unfold base_UnsafeArenaReleaseLast, pf_ExchangeCurrentSize.
  inversion HR as [|q y ar Hq|q y ar Hq|lv sp junk total ar Hnn Hm Hl]; subst.
  - destruct live; discriminate.
  - destruct live as [|? [|]]; simplify_eq/=. eexists _, []. split; [done|].
    split; [|done]. apply rep_of_view. constructor.
  - destruct live; discriminate.
  - rewrite fmap_app, length_app, <- app_assoc in *. simpl in Hm, Hn |- *.
    replace (Z.of_nat (length live + 1) - 1) with (Z.of_nat (length live)) by lia.
    rewrite <- (length_fmap fst live), get_slot. cbn [obind using_sso pf_store add_allocated]. unfold add_allocated. cbn [pf_store obind pf_current pf_total pf_arena].
    rewrite (length_fmap fst live) in *. replace (Z.of_nat (length live + 1 + length spare) + -1) with (Z.of_nat (length live + length spare)) by lia.
    unfold allocated_size. cbn [pf_store].
    destruct spare as [|c spare _] using rev_ind.
    + rewrite (proj2 (Z.ltb_ge _ _)) by (simpl; lia). cbn [obind]. eexists _, []. split; [done|]. split; [|done].
      apply (rep_array _ _ _ _ _ _ _ (p :: junk)); simpl in *; try done.
      * rewrite length_app, length_fmap. simpl. lia.
      * rewrite app_nil_r, !Forall_app in *. tauto.
    + rewrite length_app in *. simpl in Hm |- *. rewrite (proj2 (Z.ltb_lt _ _)) by lia.
      rewrite fmap_app in *. simpl in *.
      match goal with |- context [element_at ?i _] => replace i with (Z.of_nat (length (live.*1 ++ p :: spare.*1)))
        by (rewrite length_app; simpl; rewrite !length_fmap; lia) end.
      replace (live.*1 ++ p :: (spare.*1 ++ [c.1]) ++ junk) with ((live.*1 ++ p :: spare.*1) ++ c.1 :: junk) by (by rewrite <- !app_assoc).
      rewrite get_slot. cbn [obind].
      replace ((live.*1 ++ p :: spare.*1) ++ c.1 :: junk) with (live.*1 ++ p :: spare.*1 ++ c.1 :: junk) by (by rewrite <- !app_assoc).
      match goal with |- context [set_element ?i _ _] => replace i with (Z.of_nat (length live.*1)) by (by rewrite length_fmap) end.
      rewrite set_slot. cbn [obind]. eexists _, (c :: spare). split; [done|].
      split; [|split; [solve_Permutation|done]].
      apply (rep_array _ _ _ _ _ _ _ (c.1 :: junk)); simpl.
      * done.
      * by rewrite ?length_fmap.
      * rewrite length_app. simpl. rewrite !length_fmap. lia.
      * rewrite !length_app, length_fmap. simpl. rewrite length_app, length_fmap. simpl. lia.
      * done.
      * nonzero.
Qed.

Lemma release_cleared_spec f live p x spare :
  rep f live (spare ++ [(p, x)]) ->
  exists f', base_ReleaseCleared f = Ret (p, f') /\ rep f' live spare /\ pf_arena f' = pf_arena f /\ pf_total f' = pf_total f.
Proof.
  intros HR. pose proof (rep_nonzero _ _ _ HR) as Hn. apply view_of_rep in HR. unfold base_ReleaseCleared.
  inversion HR as [|q y ar Hq|q y ar Hq|lv sp junk total ar Hnn Hm Hl]; subst.
  - destruct spare; discriminate.
  - destruct spare; discriminate.
  - destruct spare as [|? [|]]; try discriminate. simplify_eq/=. eexists. split; [done|]. split; [|done]. apply rep_of_view. constructor.
  - cbn [pf_store]. unfold add_allocated. cbn [pf_store obind pf_current pf_total pf_arena]. unfold allocated_size. cbn [pf_store].
    rewrite length_app, fmap_app in *. simpl in *.
    replace (Z.of_nat (length live + (length spare + 1)) + -1) with (Z.of_nat (length (live.*1 ++ spare.*1)))
      by (rewrite length_app, !length_fmap; lia).
    replace (live.*1 ++ (spare.*1 ++ [p]) ++ junk) with ((live.*1 ++ spare.*1) ++ p :: junk) by (by rewrite <- !app_assoc).
    rewrite get_slot. cbn [obind]. eexists. split; [done|]. split; [|done].
    apply (rep_array _ _ _ _ _ _ _ (p :: junk)).
    + by rewrite <- app_assoc.
    + done.
    + by rewrite length_app, !length_fmap.
    + rewrite length_app. simpl. rewrite length_app, !length_fmap. lia.
    + done.
    + rewrite !Forall_app in *. tauto.
Qed.
End pointer_ops.

Section grow_ops.
Context {T : Type} `{PtrFieldOut T}.
Implicit Types (live spare : list (Z * T)) (p arena : Z) (x : T) (junk : list Z).

Lemma maybe_extend_spec f live spare :
  rep f live spare -> allocated_size f < int_max ->
  exists f', MaybeExtend f = Ret f' /\ rep f' live spare /\ roomy f' /\ pf_arena f' = pf_arena f /\ pf_total f <= pf_total f'.
Proof.
  intros HR Hm. unfold MaybeExtend.
  assert (Et : match pf_store f with Sso e => negb (e =? 0) | Rep a _ => a =? pf_total f end = (allocated_size f =? pf_total f)).
  { apply view_of_rep in HR. destruct HR; unfold allocated_size; simpl; rewrite ?(proj2 (Z.eqb_neq _ _)) by done; done. }
  rewrite Et. destruct (Z.eqb_spec (allocated_size f) (pf_total f)) as [E|E].
  - destruct (InternalExtend_spec 1 f (proj1 HR) ltac:(lia) ltac:(lia)) as (f' & -> & Hs & Ht). exists f'.
    pose proof (same_elements_rep _ _ _ _ HR Hs) as HR'. split; [done|]. split; [done|].
    pose proof (rep_counts _ _ _ HR) as (_ & Ha & _). pose proof (rep_counts _ _ _ HR') as (_ & Ha' & _).
    destruct Hs as (_ & _ & _ & Har & Ht2 & _). unfold roomy. split_and!; (done || lia).
  - exists f. pose proof (rep_counts _ _ _ HR) as (_ & _ & Hb). unfold roomy. split_and!; (done || lia).
Qed.

Lemma add_cleared_spec f live spare p x :
  rep f live spare -> allocated_size f < int_max -> p <> 0 ->
  exists f', base_AddCleared p f = Ret f' /\ rep f' live (spare ++ [(p, x)]) /\ pf_arena f' = pf_arena f /\ pf_total f <= pf_total f'.
Proof.
  intros HR Hm Hp. destruct (maybe_extend_spec f live spare HR Hm) as (f1 & E & HR1 & Hr & <- & Ht). unfold base_AddCleared.
  rewrite E. cbn [obind]. clear E HR Hm. pose proof (rep_nonzero _ _ _ HR1) as Hn. apply view_of_rep in HR1. unfold roomy, allocated_size in Hr.
  inversion HR1 as [|q y ar Hq|q y ar Hq|lv sp junk total ar Hnn Hm Hl]; subst; simpl in Hr.
  - eexists. split; [done|]. split; [|done]. apply rep_of_view. by constructor.
  - rewrite (proj2 (Z.eqb_neq _ _)) in Hr by done. lia.
  - rewrite (proj2 (Z.eqb_neq _ _)) in Hr by done. lia.
  - destruct junk as [|j junk]; [simpl in *; lia|]. cbn [using_sso pf_store]. unfold add_allocated, allocated_size. cbn [obind pf_store pf_current pf_total pf_arena].
    replace (live.*1 ++ spare.*1 ++ j :: junk) with ((live.*1 ++ spare.*1) ++ j :: junk) by (by rewrite <- app_assoc).
    match goal with |- context [set_element ?i _ _] => replace i with (Z.of_nat (length (live.*1 ++ spare.*1))) by (by rewrite length_app, !length_fmap) end.
    rewrite set_slot. eexists. split; [done|]. split; [|done]. apply (rep_array _ _ _ _ _ _ _ junk).
    + by rewrite fmap_app, <- !app_assoc.
    + done.
    + rewrite !length_app, !length_fmap. simpl. lia.
    + rewrite !length_app, !length_fmap. simpl. lia.
    + done.
    + nonzero.
Qed.

Lemma for_parse_spec f live p x :
  rep f live [] -> pf_current f < int_max -> p <> 0 ->
  exists f', AddAllocatedForParse p f = Ret f' /\ rep f' (live ++ [(p, x)]) [] /\ pf_arena f' = pf_arena f /\ pf_total f <= pf_total f'.
Proof.
  intros HR Hm Hp. pose proof (rep_counts _ _ _ HR) as (Hc & Ha & _). rewrite Nat.add_0_r in Ha.
  destruct (maybe_extend_spec f live [] HR ltac:(lia)) as (f1 & E & HR1 & Hr & <- & Ht). unfold AddAllocatedForParse.
  rewrite E. cbn [obind]. destruct (put_bump_spec f1 live p x HR1 Hr Hp) as (f2 & E2 & _ & HR2 & A2 & T2).
  exists f2. rewrite T2. by split_and!.
Qed.

(** Two elements change places. *)
Lemma swap_elements_spec f live spare i j c d :
  rep f live spare -> live !! i = Some c -> live !! j = Some d ->
  exists f', base_SwapElements (Z.of_nat i) (Z.of_nat j) f = Ret f' /\ rep f' (<[j := c]> (<[i := d]> live)) spare /\
    pf_arena f' = pf_arena f /\ pf_total f' = pf_total f.
Proof.
  intros HR Hi Hj. assert (Hset : forall f live k p x, rep f live spare -> (k < length live)%nat -> p <> 0 ->
    exists f', set_element (Z.of_nat k) p f = Ret f' /\ rep f' (<[k := (p, x)]> live) spare /\ pf_arena f' = pf_arena f /\ pf_total f' = pf_total f).
  { clear. intros f live k p x HR Hk Hp. pose proof (rep_nonzero _ _ _ HR) as Hn. apply view_of_rep in HR.
    destruct HR as [|q y ar Hq| |live spare junk total ar Hnn Hm Hl]; simpl in Hk; [lia| |lia|].
    - destruct k as [|k]; [|lia]. eexists. split; [done|]. split; [|done]. apply rep_of_view. by constructor.
    - destruct (lookup_lt_is_Some_2 live k Hk) as [c Hc].
      assert (exists l1 l2, live = l1 ++ c :: l2 /\ k = length l1) as (l1 & l2 & -> & ->).
      { exists (take k live), (drop (S k) live). split; [by rewrite take_drop_middle|rewrite length_take; lia]. }
      rewrite insert_app_r_alt, Nat.sub_diag by lia. simpl. rewrite fmap_app, <- app_assoc, fmap_cons. simpl.
      match goal with |- context [mkPtr (Rep ?a _) ?cur ?tot ?arena] =>
        pose proof (set_slot a cur tot arena l1.*1 c.1 (l2.*1 ++ spare.*1 ++ junk) p) as W end.
      rewrite length_fmap in W. eexists. split; [exact W|]. split; [|done].
      rewrite !length_app in *. simpl in *. apply (rep_array _ _ _ _ _ _ _ junk).
      + by rewrite fmap_app, <- app_assoc.
      + rewrite length_app. done.
      + rewrite length_app. done.
      + rewrite !length_app, length_fmap. simpl. rewrite !length_app, !length_fmap. lia.
      + lia.
      + nonzero. }
  unfold base_SwapElements. pose proof (rep_nonzero _ _ _ HR) as Hn. rewrite Forall_app in Hn. destruct Hn as [Hn _].
  rewrite (element_lookup _ _ _ _ c HR) by (by apply lookup_app_l_Some). rewrite (element_lookup _ _ _ _ d HR) by (by apply lookup_app_l_Some).
  cbn [obind]. assert (Hz : forall k c, live !! k = Some c -> c.1 <> 0).
  { intros k e Hk. rewrite Forall_forall in Hn. apply Hn. apply list_elem_of_fmap. exists e. split; [done|]. by eapply list_elem_of_lookup_2. }
  destruct (Hset f live i d.1 d.2 HR) as (f1 & -> & HR1 & A1 & T1); [by eapply lookup_lt_Some|by eapply Hz|]. cbn [obind].
  destruct (Hset f1 _ j c.1 c.2 HR1) as (f2 & -> & HR2 & A2 & T2); [rewrite length_insert; by eapply lookup_lt_Some|by eapply Hz|].
  exists f2. split; [done|]. destruct c, d. split; [done|]. split; congruence.
Qed.
End grow_ops.

(** ** Operations on one field *)

Section own.
Context {T : Type} `{PtrFieldOut T} `{Malloc}.
Implicit Types (live spare : list (Z * T)) (p arena : Z) (x : T) (h : Objs T) (rest : list (Z * Obj T)).

(** A field, its elements and its cleared elements, and the rest of the heap. *)
Definition own f live spare rest h : Prop :=
  rep f live spare /\ Forall (fun c => c.2 = hd_new) spare /\ holds (cells (pf_arena f) (live ++ spare) ++ rest) h.

Lemma own_rest f live spare rest rest' h : rest ≡ₚ rest' -> own f live spare rest h -> own f live spare rest' h.
Proof. intros E (HR & HC & HH). split; [done|]. split; [done|]. by rewrite <- E. Qed.

Lemma own_new arena rest h : holds rest h -> own (PtrField_new arena) [] [] rest h.
Proof. intros Hh. split; [apply rep_of_view; constructor|]. by split. Qed.

(** An element is in the heap, and can be changed there. *)
Lemma own_modify f live1 p x live2 spare rest h (u : T -> T) :
  own f (live1 ++ (p, x) :: live2) spare rest h ->
  h !! p = Some (mkObj (pf_arena f) x) /\
  exists h', modify u p h = Ret h' /\ own f (live1 ++ (p, u x) :: live2) spare rest h'.
Proof.
  intros (HR & HC & HH).
  assert (HH' : holds ((p, mkObj (pf_arena f) x) :: cells (pf_arena f) (live1 ++ live2 ++ spare) ++ rest) h)
    by (eapply holds_any; [|exact HH]; piece).
  pose proof (holds_lookup _ _ _ _ HH') as Hp. split; [done|]. unfold modify. rewrite Hp. eexists. split; [done|].
  split; [|split; [done|]].
  - destruct HR as (Hs & Ha & Hc). split; [done|]. rewrite !fmap_app, !length_app in *. by split.
  - apply (holds_any ((p, mkObj (pf_arena f) (u x)) :: cells (pf_arena f) (live1 ++ live2 ++ spare) ++ rest)); [piece|].
    by eapply holds_update.
Qed.

Lemma own_load f live1 p x live2 spare rest h : own f (live1 ++ (p, x) :: live2) spare rest h -> load p h = Ret x.
Proof. intros HO. unfold load. by rewrite (proj1 (own_modify _ _ _ _ _ _ _ _ (fun y => y) HO)). Qed.

Lemma Get_spec f live spare rest h i c :
  own f live spare rest h -> live !! i = Some c -> pf_Get (Z.of_nat i) f h = Ret c.2.
Proof.
  intros HO Hi. unfold pf_Get. rewrite (element_lookup _ _ _ _ c (proj1 HO)) by (by apply lookup_app_l_Some). cbn [obind].
  apply take_drop_middle in Hi. rewrite <- Hi in HO. destruct c. by eapply own_load.
Qed.

Lemma Add_spec f live spare rest h :
  own f live spare rest h -> pf_current f < int_max ->
  exists p f' spare' h', base_Add f h = Ret (p, f', h') /\ own f' (live ++ [(p, hd_new)]) spare' rest h' /\ pf_arena f' = pf_arena f.
Proof.
  intros (HR & HC & HH) Hm. destruct (AddOutOfLineHelper_factory_spec f live spare rest h HR HH HC Hm)
    as (p & f' & h' & spare' & E & HR' & Ea & HC' & HH').
  exists p, f', spare', h'. split; [done|]. split; [|done]. split; [done|]. split; [done|]. by rewrite Ea.
Qed.

Lemma Add_value_spec f live spare rest h x :
  own f live spare rest h -> pf_current f < int_max ->
  exists p f' spare' h', Add_value x f h = Ret (f', h') /\ own f' (live ++ [(p, x)]) spare' rest h' /\ pf_arena f' = pf_arena f.
Proof.
  intros (HR & HC & HH) Hm. pose proof (rep_counts _ _ _ HR) as (Hc & Ha & _). unfold Add_value.
  destruct spare as [|[p y] spare].
  - rewrite (proj2 (Z.ltb_ge _ _)) by (rewrite Hc, Ha; simpl; lia).
    destruct (maybe_extend_spec f live [] HR) as (f1 & -> & HR1 & Hr & Ea & _); [simpl in Ha; lia|]. cbn [obind].
    set (q := malloc (dom h)). assert (Hq : q <> 0) by (unfold q; destruct (malloc_aligned (dom h)); lia).
    destruct (put_bump_spec f1 live q x HR1 Hr Hq) as (f2 & _ & E & HR2 & A2 & _).
    destruct (bump_allocated f1) as [f1'| |] eqn:Eb; try discriminate E. cbn [obind] in *.
    assert (Ea' : pf_arena f1' = pf_arena f1).
    { unfold bump_allocated, add_allocated in Eb. destruct (pf_store f1); destruct (using_sso f1); simpl in Eb; by inversion Eb. }
    unfold hd_New_value. fold q. rewrite E. cbn [obind]. rewrite Ea', Ea.
    exists q, f2, [], (<[q := mkObj (pf_arena f) x]> h). split; [done|]. rewrite A2, Ea. split; [|done].
    split; [done|]. split; [done|]. rewrite A2, Ea.
    apply (holds_any ((q, mkObj (pf_arena f) x) :: cells (pf_arena f) (live ++ []) ++ rest)); [piece|]. by apply holds_new.
  - rewrite (proj2 (Z.ltb_lt _ _)) by (rewrite Hc, Ha; simpl; lia).
    destruct (take_next_spec f live p y spare HR) as (f1 & -> & HR1 & A1 & _). cbn [obind].
    assert (HO : own f1 (live ++ [(p, y)]) spare rest h).
    { split; [done|]. split; [by inversion HC|]. rewrite A1. eapply holds_any; [|exact HH]. piece. }
    destruct (own_modify f1 live p y [] spare rest h (fun _ => x) HO) as (_ & h1 & -> & HO1). cbn [obind].
    by exists p, f1, spare, h1.
Qed.

Lemma Add_prototype_spec f live spare rest h proto :
  own f live spare rest h -> pf_current f < int_max ->
  exists p f' spare' h', Add_prototype proto f h = Ret (p, f', h') /\ own f' (live ++ [(p, hd_new)]) spare' rest h' /\ pf_arena f' = pf_arena f.
Proof.
  intros (HR & HC & HH) Hm. pose proof (rep_counts _ _ _ HR) as (Hc & Ha & _). unfold Add_prototype.
  destruct spare as [|[p y] spare].
  - rewrite (proj2 (Z.ltb_ge _ _)) by (rewrite Hc, Ha; simpl; lia). unfold NewFromPrototype, hd_New, hd_New_value.
    set (q := malloc (dom h)). assert (Hq : q <> 0) by (unfold q; destruct (malloc_aligned (dom h)); lia).
    destruct (AddOutOfLineHelper_spec q f (proj1 HR) Hq) as (f' & -> & Hs & Hal & Hcur & Ear & _); [rewrite Hc, Ha; simpl; lia|done|].
    cbn [obind]. exists q, f', [], (<[q := mkObj (pf_arena f) hd_new]> h). split; [done|]. split; [|done]. split; [|split; [done|]].
    + split; [done|]. rewrite Hal, (proj1 (proj2 HR)), Hcur, Hc, fmap_app, length_app. simpl. rewrite !app_nil_r. split; [done|lia].
    + rewrite Ear. apply (holds_any ((q, mkObj (pf_arena f) hd_new) :: cells (pf_arena f) (live ++ []) ++ rest)); [piece|]. by apply holds_new.
  - rewrite (proj2 (Z.ltb_lt _ _)) by (rewrite Hc, Ha; simpl; lia). inversion HC as [|? ? Hy HC']; simpl in Hy; subst y.
    destruct (take_next_spec f live p hd_new spare HR) as (f1 & -> & HR1 & A1 & _). cbn [obind].
    exists p, f1, spare, h. split; [done|]. split; [|done]. split; [done|]. split; [done|]. rewrite A1. eapply holds_any; [|exact HH]. piece.
Qed.

Lemma RemoveLast_spec f live p x spare rest h :
  own f (live ++ [(p, x)]) spare rest h ->
  exists f' h', base_RemoveLast f h = Ret (f', h') /\ own f' live ((p, hd_new) :: spare) rest h' /\ pf_arena f' = pf_arena f.
Proof.
  intros HO. pose proof (proj1 (rep_counts _ _ _ (proj1 HO))) as Hc. rewrite length_app in Hc. simpl in Hc. unfold base_RemoveLast, pf_ExchangeCurrentSize.
  pose proof (exchange_spec f live [(p, x)] spare (proj1 HO)) as HR1. unfold pf_ExchangeCurrentSize in HR1. simpl in HR1.
  replace (pf_current f - 1) with (Z.of_nat (length live)) by lia. cbn [pf_current].
  rewrite (element_spare _ _ _ _ HR1). cbn [obind fst].
  destruct (own_modify f live p x [] spare rest h hd_Clear HO) as (_ & h' & E & HR' & HC' & HH'). unfold Clear_at. rewrite E. cbn [obind].
  eexists _, h'. split; [done|]. split; [|done]. rewrite hd_clear_new in HH'. split; [|split].
  - destruct HR1 as (A1 & A2 & A3). split; [done|]. by split.
  - by constructor.
  - eapply holds_any; [|exact HH']. simpl. piece.
Qed.

(** Clearing the elements one by one. *)
Lemma clear_loop f live1 live2 spare rest h :
  own f (live1 ++ live2) spare rest h ->
  exists h', ofold (fun i h => do p <- element_at (Z.of_nat i) f; Clear_at p h) (seq (length live1) (length live2)) h = Ret h' /\
    own f (live1 ++ ((fun c => (c.1, hd_new)) <$> live2)) spare rest h'.
Proof.
  revert live1 h. induction live2 as [|[p x] live2 IH]; intros live1 h HO; [by exists h|]. cbn [length seq ofold].
  rewrite (element_live _ _ _ _ _ (proj1 HO)). cbn [obind fst].
  destruct (own_modify f live1 p x live2 spare rest h hd_Clear HO) as (_ & h1 & E & HO1). unfold Clear_at at 1. rewrite E. cbn [obind].
  rewrite hd_clear_new in HO1. rewrite cons_middle, app_assoc in HO1. destruct (IH (live1 ++ [(p, hd_new)]) h1 HO1) as (h2 & E2 & HO2).
  rewrite length_app in E2. simpl in E2. rewrite Nat.add_1_r in E2. exists h2. split; [done|]. rewrite <- app_assoc in HO2. exact HO2.
Qed.

Lemma Clear_spec f live spare rest h :
  own f live spare rest h ->
  exists f' h', base_Clear f h = Ret (f', h') /\ own f' [] (((fun c => (c.1, hd_new)) <$> live) ++ spare) rest h' /\
    pf_arena f' = pf_arena f /\ pf_total f' = pf_total f.
Proof.
  intros HO. pose proof (proj1 (rep_counts _ _ _ (proj1 HO))) as Hc. unfold base_Clear. destruct live as [|c live].
  - rewrite (proj2 (Z.ltb_ge _ _)) by (rewrite Hc; simpl; lia). by exists f, h.
  - rewrite (proj2 (Z.ltb_lt _ _)) by (rewrite Hc; simpl; lia). unfold ClearNonEmpty.
    rewrite Hc, Nat2Z.id. destruct (clear_loop f [] (c :: live) spare rest h HO) as (h' & E & HR' & HC' & HH'). simpl length in E |- *. rewrite E. cbn [obind].
    eexists _, h'. split; [done|]. split; [|done]. pose proof (exchange_spec f [] _ spare HR') as HR1. split; [exact HR1|]. split.
    + apply Forall_app. split; [|done]. apply Forall_fmap. by apply Forall_true.
    + exact HH'.
Qed.

(** Deleting a list of elements of the heap. *)
Lemma delete_loop (cs : list (Z * T)) rest h :
  holds (cells 0 cs ++ rest) h ->
  exists h', ofold (fun p h => hd_Delete p 0 h) cs.*1 h = Ret h' /\ holds rest h'.
Proof.
  revert h. induction cs as [|[p x] cs IH]; intros h HH; [by exists h|]. rewrite cells_cons in HH. cbn [fmap list_fmap ofold fst].
  unfold hd_Delete at 1. cbn [Z.eqb negb]. rewrite (holds_lookup _ _ _ _ HH). cbn [o_home Z.eqb obind]. apply IH. by eapply holds_delete.
Qed.

Lemma Destroy_spec f live spare rest h :
  rep f live spare -> holds (cells (pf_arena f) (live ++ spare) ++ rest) h ->
  exists h', Destroy f h = Ret h' /\ holds (cells (pf_arena f) (if pf_arena f =? 0 then [] else live ++ spare) ++ rest) h'.
Proof.
  intros HR HH. unfold Destroy. destruct (Z.eqb_spec (pf_arena f) 0) as [E|E]; cbn [negb]; [|by exists h].
  rewrite E in *. change (take _ _) with (allocated f). rewrite (proj1 (proj2 HR)), <- fmap_app. by apply delete_loop.
Qed.

(** The destructor frees every element of the heap, in use or not; an arena
    keeps its own. *)
Lemma destroy_spec f live spare rest h :
  own f live spare rest h ->
  exists h', pf_destroy f h = Ret h' /\ holds ((if pf_arena f =? 0 then [] else cells (pf_arena f) (live ++ spare)) ++ rest) h'.
Proof.
  intros (HR & _ & HH). unfold pf_destroy, NeedsDestroy, Destroy. destruct (Z.eqb_spec (pf_arena f) 0) as [E|E].
  - rewrite E in *. destruct hd_message.
    + destruct (match pf_store f with Sso e => e =? 0 | Rep _ _ => false end) eqn:En; cbn [negb andb].
      * exists h. split; [done|]. apply view_of_rep in HR. destruct HR; simpl in *; rewrite ?(proj2 (Z.eqb_neq _ _)) in En by done; done.
      * by destruct (DestroyProtos_spec f live spare rest h HR E HH) as (h' & -> & Hh); exists h'.
    + cbn [negb]. change (take _ _) with (allocated f). rewrite (proj1 (proj2 HR)), <- fmap_app. by apply delete_loop.
  - exists h. split; [|done]. destruct hd_message; [|done]. by rewrite andb_false_r.
Qed.
End own.

(** ** Taking elements in and giving them away *)

Section transfer.
Context {T : Type} `{PtrFieldOut T} `{Malloc}.
Implicit Types (live spare : list (Z * T)) (p arena : Z) (x : T) (h : Objs T) (rest : list (Z * Obj T)).

(** An element whose room is ready, or is made by freeing or moving a cleared
    one, or by growing. *)
Lemma unsafe_add_spec f live spare p x rest h :
  own f live spare ((p, mkObj (pf_arena f) x) :: rest) h -> pf_current f < int_max ->
  exists f' spare' gone h', base_UnsafeArenaAddAllocated p f h = Ret (f', h') /\
    own f' (live ++ [(p, x)]) spare' (cells (pf_arena f) gone ++ rest) h' /\ pf_arena f' = pf_arena f /\ (pf_arena f = 0 -> gone = []).
Proof.
  intros (HR & HC & HH) Hm. pose proof (rep_counts _ _ _ HR) as (Hc & Ha & Hb).
  assert (Hp : p <> 0).
  { apply (holds_nonzero p (mkObj (pf_arena f) x) (cells (pf_arena f) (live ++ spare) ++ rest) h). eapply holds_any; [|exact HH]. piece. }
  assert (Hput : forall f1 live1, rep f1 live1 [] -> roomy f1 ->
    exists f2, (do f <- bump_allocated f1; put_next p f) = Ret f2 /\ rep f2 (live1 ++ [(p, x)]) [] /\ pf_arena f2 = pf_arena f1).
  { intros f1 live1 HR1 Hr1. destruct (put_bump_spec f1 live1 p x HR1 Hr1 Hp) as (f2 & _ & E & HR2 & A2 & _). by exists f2. }
  unfold base_UnsafeArenaAddAllocated. destruct (Z.eqb_spec (pf_current f) (pf_total f)) as [Ef|Ef].
  - (* full: grow *)
    assert (spare = []) as -> by (destruct spare; [done|simpl in Ha; lia]).
    destruct (out_Reserve_spec (pf_total f + 1) f (proj1 HR) ltac:(lia)) as (f1 & -> & Hs & Ht). cbn [obind].
    pose proof (same_elements_rep _ _ _ _ HR Hs) as HR1. pose proof (rep_counts _ _ _ HR1) as (Hc1 & Ha1 & _).
    assert (Hr1 : roomy f1) by (unfold roomy; lia). destruct Hs as (_ & _ & _ & Ar & _ & Hkeep).
    destruct (Hput f1 live HR1 Hr1) as (f2 & E & HR2 & A2). unfold bump_allocated in E.
    assert (Hsso : using_sso f1 = false).
    { destruct (using_sso f1) eqn:Eu; [|done]. specialize (Hkeep eq_refl). apply view_of_rep in HR1, HR.
      destruct HR1; simpl in *; try discriminate; destruct HR; simpl in *; try discriminate; lia. }
    rewrite Hsso in E. cbn [negb] in E. destruct (add_allocated 1 f1) as [f1'| |]; try discriminate E. cbn [obind] in *. rewrite E. cbn [obind].
    exists f2, [], [], h. split; [done|]. rewrite A2, Ar. split; [|done]. split; [done|]. split; [done|]. rewrite A2, Ar. eapply holds_any; [|exact HH]. piece.
  - destruct (Z.eqb_spec (allocated_size f) (pf_total f)) as [Eg|Eg].
    + (* no slot is free, but an element is cleared: it goes *)
      destruct spare as [|[q y] spare]; [simpl in Ha; lia|]. rewrite Hc. rewrite (element_spare _ _ _ _ HR). cbn [obind fst].
      assert (Hdel : exists h' gone, hd_Delete q (pf_arena f) h = Ret h' /\ (pf_arena f = 0 -> gone = []) /\
        holds (cells (pf_arena f) (live ++ spare) ++ (p, mkObj (pf_arena f) x) :: cells (pf_arena f) gone ++ rest) h').
      { unfold hd_Delete. destruct (Z.eqb_spec (pf_arena f) 0) as [E0|E0]; cbn [negb].
        - assert (HH' : holds ((q, mkObj (pf_arena f) y) :: cells (pf_arena f) (live ++ spare) ++ (p, mkObj (pf_arena f) x) :: rest) h)
            by (eapply holds_any; [|exact HH]; piece).
          rewrite (holds_lookup _ _ _ _ HH'). cbn [o_home]. rewrite (proj2 (Z.eqb_eq _ _) E0). exists (delete q h), []. split; [done|]. split; [done|]. by eapply holds_delete.
        - exists h, [(q, y)]. split; [done|]. split; [done|]. eapply holds_any; [|exact HH]. piece. }
      destruct Hdel as (h' & gone & -> & Hg & HH'). cbn [obind].
      (* the slot of the deleted element *)
      pose proof (rep_nonzero _ _ _ HR) as Hn. apply view_of_rep in HR. unfold put_next, pf_ExchangeCurrentSize.
      inversion HR as [|? ? ? ?|q' y' ar Hq|lv sp junk total ar Hnn Hm' Hl]; subst; unfold allocated_size in *; simpl in *.
      * eexists _, [], gone, h'. split; [done|]. split; [|done]. split; [apply rep_of_view; by constructor|]. split; [done|]. simpl. eapply holds_any; [|exact HH']. piece.
      * rewrite <- (length_fmap fst live), set_slot. cbn [obind]. eexists _, spare, gone, h'. split; [done|]. split; [|done].
        split; [|split; [by inversion HC|]].
        -- apply (rep_array _ _ _ _ _ _ _ junk); rewrite ?fmap_app, ?length_app, ?length_fmap; simpl; try lia.
           ++ by rewrite <- app_assoc.
           ++ rewrite length_app, length_fmap. lia.
           ++ nonzero.
        -- simpl. eapply holds_any; [|exact HH']. piece.
    + destruct spare as [|c spare].
      * (* nothing is cleared *)
        rewrite (proj2 (Z.ltb_ge _ _)) by (rewrite Hc, Ha; simpl; lia).
        destruct (Hput f live HR) as (f2 & E & HR2 & A2); [unfold roomy; lia|].
        destruct (bump_allocated f) as [f1| |]; try discriminate E. cbn [obind] in *. rewrite E. cbn [obind].
        exists f2, [], [], h. split; [done|]. rewrite A2. split; [|done]. split; [done|]. split; [done|]. rewrite A2. eapply holds_any; [|exact HH]. piece.
      * (* the first cleared element moves to the end *)
        rewrite (proj2 (Z.ltb_lt _ _)) by (rewrite Hc, Ha; simpl; lia).
        assert (Hr : roomy f) by (unfold roomy; lia).
        destruct (add_fast_spec f live (c :: spare) p x HR Hr Hp) as (f2 & E & HR2 & A2 & _). simpl rotate in HR2.
        destruct (move_first f live c spare HR Hr) as (j & junk & total & arena & E1 & Ef1 & _ & _).
        unfold add_fast in E. rewrite (proj2 (Z.ltb_lt _ _)) in E by (rewrite Hc, Ha; simpl; lia). rewrite E1 in E. cbn [obind] in E.
        destruct (element_at (pf_current f) f) as [q| |]; try discriminate E1. cbn [obind] in *. rewrite E1. cbn [obind].
        unfold put_next, pf_ExchangeCurrentSize in E |- *. cbn [pf_current pf_store pf_total pf_arena] in E.
        unfold add_allocated. cbn [pf_store pf_current pf_total pf_arena obind].
        rewrite <- (length_fmap fst live), set_slot in E |- *. cbn [obind] in E |- *.
        unfold bump_allocated, add_allocated in E. cbn [using_sso negb pf_store pf_current pf_total pf_arena] in E. injection E as E. rewrite E.
        exists f2, (spare ++ [c]), [], h. split; [done|]. split; [|done]. split; [done|]. split.
        -- apply Forall_app. inversion HC; subst. split; [done|]. by constructor.
        -- rewrite A2. eapply holds_any; [|exact HH]. piece.
Qed.

(** A copy of an object. *)
Lemma copy_spec to p arena x rest h :
  holds ((p, mkObj arena x) :: rest) h ->
  exists q h', copy_on to p h = Ret (q, h') /\ holds ((q, mkObj to x) :: (p, mkObj arena x) :: rest) h'.
Proof.
  intros HH. unfold copy_on, NewFromPrototype, hd_New, hd_New_value. set (q := malloc (dom h)).
  pose proof (holds_new (mkObj to hd_new) _ _ HH) as HN. fold q in HN.
  assert (HM : holds ((p, mkObj arena x) :: (q, mkObj to hd_new) :: rest) (<[q := mkObj to hd_new]> h)) by (eapply holds_any; [|exact HN]; solve_Permutation).
  unfold load. rewrite (holds_lookup _ _ _ _ HM). cbn [o_value obind]. unfold Merge_into, modify. rewrite (holds_lookup _ _ _ _ HN). cbn [o_home o_value obind].
  eexists q, _. split; [done|]. rewrite hd_merge_new. by eapply holds_update.
Qed.

(** [ReleaseLast]: the caller gets the element itself or, from an arena, a
    copy on the heap. *)
Lemma release_last_spec f live p x spare rest h :
  own f (live ++ [(p, x)]) spare rest h ->
  exists q f' spare' kept h', pf_ReleaseLast f h = Ret (q, f', h') /\
    own f' live spare' ((q, mkObj 0 x) :: cells (pf_arena f) kept ++ rest) h' /\ pf_arena f' = pf_arena f /\
    kept = (if pf_arena f =? 0 then [] else [(p, x)]).
Proof.
  intros (HR & HC & HH). unfold pf_ReleaseLast, ReleaseLastInternal.
  destruct (unsafe_release_spec f live p x spare HR) as (f1 & spare1 & -> & HR1 & Hperm & A1 & _). cbn [obind andb]. rewrite A1.
  assert (HC1 : Forall (fun c => c.2 = hd_new) spare1) by (by rewrite Hperm).
  assert (HH1 : holds ((p, mkObj (pf_arena f) x) :: cells (pf_arena f) (live ++ spare1) ++ rest) h).
  { eapply holds_any; [|exact HH]. rewrite !cells_app, Hperm. piece. }
  destruct (Z.eqb_spec (pf_arena f) 0) as [E|E]; cbn [negb andb].
  - exists p, f1, spare1, [], h. split; [done|]. split; [|done]. split; [done|]. split; [done|]. rewrite A1, E in *. eapply holds_any; [|exact HH1]. piece.
  - destruct (copy_spec 0 p (pf_arena f) x _ _ HH1) as (q & h' & E2 & HH2). unfold copy_value. rewrite E2. cbn [obind].
    exists q, f1, spare1, [(p, x)], h'. split; [done|]. split; [|done]. split; [done|]. split; [done|]. rewrite A1. eapply holds_any; [|exact HH2]. piece.
Qed.

Lemma delete_arena p arena h : arena <> 0 -> hd_Delete p arena h = Ret h.
Proof. intros Ha. unfold hd_Delete. by rewrite (proj2 (Z.eqb_neq _ _)). Qed.

(** Objects that no one has to free: they are on an arena. *)
Definition on_arena (l : list (Z * Obj T)) : Prop := Forall (fun c => o_home c.2 <> 0) l.

Lemma on_arena_cells arena cs : (arena = 0 -> cs = []) -> on_arena (cells arena cs).
Proof. intros Hz. destruct (decide (arena = 0)) as [E|E]; [by rewrite Hz; [constructor|]|]. apply Forall_fmap, Forall_true. by intros []. Qed.

(** [AddAllocated]: the field takes the object, its arena adopts it, or an
    object of another arena is copied. *)
Lemma add_allocated_spec f live spare p (o : Obj T) rest h :
  own f live spare ((p, o) :: rest) h -> pf_current f < int_max -> (hd_message = false -> o_home o = 0) ->
  exists q f' spare' kept h', pf_AddAllocated p f h = Ret (f', h') /\
    own f' (live ++ [(q, o_value o)]) spare' (kept ++ rest) h' /\ pf_arena f' = pf_arena f /\ on_arena kept.
Proof.
  intros (HR & HC & HH) Hm Hs. unfold pf_AddAllocated, AddAllocatedInternal.
  assert (HH1 : holds ((p, o) :: cells (pf_arena f) (live ++ spare) ++ rest) h) by (eapply holds_any; [|exact HH]; piece).
  assert (Hplain : forall q h1 kept, holds ((q, mkObj (pf_arena f) (o_value o)) :: cells (pf_arena f) (live ++ spare) ++ kept ++ rest) h1 ->
    on_arena kept -> exists f' spare' kept' h', base_UnsafeArenaAddAllocated q f h1 = Ret (f', h') /\
      own f' (live ++ [(q, o_value o)]) spare' (kept' ++ rest) h' /\ pf_arena f' = pf_arena f /\ on_arena kept').
  { intros q h1 kept HQ Hk. destruct (unsafe_add_spec f live spare q (o_value o) (kept ++ rest) h1) as (f' & spare' & gone & h' & E & HO & A & Hg).
    - split; [done|]. split; [done|]. eapply holds_any; [|exact HQ]. piece.
    - done.
    - exists f', spare', (cells (pf_arena f) gone ++ kept), h'. split; [done|]. rewrite <- app_assoc. split; [done|]. split; [done|].
      apply Forall_app. split; [by apply on_arena_cells|done]. }
  assert (EA : hd_GetArena p h = Ret (o_home o)).
  { unfold hd_GetArena. rewrite (holds_lookup _ _ _ _ HH1). destruct hd_message; [done|by rewrite Hs]. }
  rewrite EA. cbn [obind]. clear EA.
  destruct o as [home x]. cbn [o_home o_value] in *.
  destruct (Z.eqb_spec (pf_arena f) home) as [E|E]; cbn [andb].
  - subst home. destruct (Z.ltb_spec (allocated_size f) (pf_total f)) as [Hr|Hr].
    + destruct (add_fast_spec f live spare p x HR Hr) as (f' & -> & HR' & A & _); [by eapply holds_nonzero|]. cbn [obind].
      exists p, f', (rotate spare), [], h. split; [done|]. split; [|split; [done|by constructor]]. split; [done|]. split; [by rewrite rotate_perm|].
      rewrite A. eapply holds_any; [|exact HH]. rewrite cells_app, (cells_app _ _ (rotate spare)), rotate_perm. piece.
    + unfold AddAllocatedSlowWithCopy. rewrite Z.eqb_refl, andb_negb_l. cbn [negb obind].
      destruct (Hplain p h []) as (f' & spare' & kept & h' & W); [exact HH1|by constructor|]. by exists p, f', spare', kept, h'.
  - unfold AddAllocatedSlowWithCopy. destruct (Z.eqb_spec home 0) as [Eh|Eh]; destruct (Z.eqb_spec (pf_arena f) 0) as [Ea|Ea]; try congruence; cbn [negb andb].
    + unfold Own. rewrite (holds_lookup _ _ _ _ HH1). cbn [o_home o_value]. rewrite (proj2 (Z.eqb_eq _ _) Eh). cbn [obind].
      destruct (Hplain p (<[p:=mkObj (pf_arena f) x]> h) []) as (f' & spare' & kept & h' & W); [by eapply holds_update|by constructor|].
      by exists p, f', spare', kept, h'.
    + rewrite (proj2 (Z.eqb_neq _ _) E). cbn [negb]. destruct (copy_spec (pf_arena f) p home x _ h HH1) as (q & h1 & -> & HQ). cbn [obind].
      rewrite delete_arena by done. cbn [obind].
      destruct (Hplain q h1 [(p, mkObj home x)]) as (f' & spare' & kept & h' & W); [eapply holds_any; [|exact HQ]; piece|by repeat constructor|].
      by exists q, f', spare', kept, h'.
    + rewrite (proj2 (Z.eqb_neq _ _) E). cbn [negb]. destruct (copy_spec (pf_arena f) p home x _ h HH1) as (q & h1 & -> & HQ). cbn [obind].
      rewrite delete_arena by done. cbn [obind].
      destruct (Hplain q h1 [(p, mkObj home x)]) as (f' & spare' & kept & h' & W); [eapply holds_any; [|exact HQ]; piece|by repeat constructor|].
      by exists q, f', spare', kept, h'.
Qed.
End transfer.

(** ** Ranges of elements *)

Section ranges.
Context {T : Type} `{PtrFieldOut T} `{Malloc}.
Implicit Types (live spare mid : list (Z * T)) (p arena : Z) (x : T) (h : Objs T) (rest : list (Z * Obj T)).

Lemma elements_split f live spare : rep f live spare -> exists junk, pf_elements f = live.*1 ++ spare.*1 ++ junk.
Proof.
  intros (_ & Ha & _). unfold allocated in Ha. exists (drop (Z.to_nat (allocated_size f)) (pf_elements f)).
  rewrite app_assoc, <- Ha. by rewrite take_drop.
Qed.

Lemma pointers_spec f live1 mid live2 spare :
  rep f (live1 ++ mid ++ live2) spare -> pointers (Z.of_nat (length live1)) (Z.of_nat (length mid)) f = Ret mid.*1.
Proof.
  intros HR. destruct (elements_split _ _ _ HR) as (junk & E). unfold pointers.
  rewrite E, !fmap_app, <- !app_assoc, !length_app, !length_fmap, !Nat2Z.id.
  rewrite (proj2 (Z.leb_le _ _)), (proj2 (Z.leb_le _ _)) by lia. cbn [andb].
  rewrite <- (length_fmap fst live1) at 1. rewrite drop_app_length, <- (length_fmap fst mid), take_app_length. done.
Qed.

(** The elements behind the range close up; the cleared ones stay. *)
Lemma extract_spec f live1 mid live2 spare :
  rep f (live1 ++ mid ++ live2) spare ->
  exists f', pf_UnsafeArenaExtractSubrange (Z.of_nat (length live1)) (Z.of_nat (length mid)) f = Ret (mid.*1, f') /\
    rep f' (live1 ++ live2) spare /\ pf_arena f' = pf_arena f.
Proof.
  intros HR. unfold pf_UnsafeArenaExtractSubrange. destruct mid as [|c mid]; [by exists f|].
  rewrite (proj2 (Z.ltb_lt _ _)) by (simpl; lia). rewrite (pointers_spec _ _ _ _ _ HR). cbn [obind].
  pose proof (rep_counts _ _ _ HR) as (Hc & _). rewrite !length_app in Hc.
  destruct (CloseGap_spec (Z.of_nat (length live1)) (Z.of_nat (length (c :: mid))) f (proj1 HR)) as (f' & -> & Hs & Ea & Ec & _ & A); try (simpl in *; lia).
  cbn [obind]. exists f'. split; [done|]. split; [|done]. split; [done|]. split.
  - rewrite Ea, (proj1 (proj2 HR)), !fmap_app, <- !app_assoc.
    rewrite <- Nat2Z.inj_add, !Nat2Z.id, <- drop_drop.
    rewrite <- (length_fmap fst live1), take_app_length, drop_app_length, <- (length_fmap fst (c :: mid)), drop_app_length. done.
  - rewrite Ec, Hc, length_app. lia.
Qed.

Lemma delete_all (cs : list (Z * T)) arena rest h :
  holds (cells arena cs ++ rest) h ->
  exists h', ofold (fun p h => hd_Delete p arena h) cs.*1 h = Ret h' /\
    holds (cells arena (if arena =? 0 then [] else cs) ++ rest) h'.
Proof.
  intros HH. destruct (Z.eqb_spec arena 0) as [->|Ha]; [by apply delete_loop|]. exists h. split; [|done].
  clear HH. induction cs as [|[p x] cs IH]; [done|]. cbn [fmap list_fmap ofold fst]. rewrite delete_arena by done. by cbn [obind].
Qed.

(** [DeleteSubrange] frees what is on the heap; an arena keeps its own. *)
Lemma delete_subrange_spec f live1 mid live2 spare rest h :
  own f (live1 ++ mid ++ live2) spare rest h ->
  exists f' kept h', pf_DeleteSubrange (Z.of_nat (length live1)) (Z.of_nat (length mid)) f h = Ret (f', h') /\
    own f' (live1 ++ live2) spare (kept ++ rest) h' /\ pf_arena f' = pf_arena f /\ on_arena kept.
Proof.
  intros (HR & HC & HH). unfold pf_DeleteSubrange. rewrite (pointers_spec _ _ _ _ _ HR). cbn [obind].
  destruct (delete_all mid (pf_arena f) (cells (pf_arena f) (live1 ++ live2 ++ spare) ++ rest) h) as (h' & -> & HH').
  { eapply holds_any; [|exact HH]. piece. }
  cbn [obind]. destruct (extract_spec f live1 mid live2 spare HR) as (f' & -> & HR' & A). cbn [obind].
  exists f', (cells (pf_arena f) (if pf_arena f =? 0 then [] else mid)), h'. split; [done|]. split; [|split; [done|]].
  - split; [done|]. split; [done|]. rewrite A. eapply holds_any; [|exact HH']. piece.
  - apply on_arena_cells. intros ->. done.
Qed.

Lemma copy_all_spec arena (cs : list (Z * T)) rest h :
  holds (cells arena cs ++ rest) h ->
  exists qs h', copy_all cs.*1 h = Ret (qs.*1, h') /\ qs.*2 = cs.*2 /\ holds (cells 0 qs ++ cells arena cs ++ rest) h'.
Proof.
  revert rest h. induction cs as [|[p x] cs IH]; intros rest h HH; [by exists [], h|].
  cbn [fmap list_fmap copy_all fst snd]. destruct (copy_spec 0 p arena x (cells arena cs ++ rest) h HH) as (q & h1 & E & HH1).
  unfold copy_value. rewrite E. cbn [obind].
  destruct (IH ((q, mkObj 0 x) :: (p, mkObj arena x) :: rest) h1) as (qs & h2 & -> & Ev & HH2); [eapply holds_any; [|exact HH1]; piece|].
  cbn [obind]. exists ((q, x) :: qs), h2. split; [done|]. split; [by rewrite !fmap_cons, Ev|]. eapply holds_any; [|exact HH2]. piece.
Qed.

(** [ExtractSubrange]: the caller gets objects of the heap. *)
Lemma extract_subrange_spec f live1 mid live2 spare rest h :
  own f (live1 ++ mid ++ live2) spare rest h ->
  exists qs f' kept h', pf_ExtractSubrange true (Z.of_nat (length live1)) (Z.of_nat (length mid)) f h = Ret (qs.*1, f', h') /\
    own f' (live1 ++ live2) spare (cells 0 qs ++ kept ++ rest) h' /\ pf_arena f' = pf_arena f /\ qs.*2 = mid.*2 /\ on_arena kept.
Proof.
  intros (HR & HC & HH). unfold pf_ExtractSubrange. destruct mid as [|c mid].
  { exists [], f, [], h. split; [done|]. split_and!; [done..|constructor]. }
  destruct (extract_spec f live1 (c :: mid) live2 spare HR) as (f' & E & HR' & A). unfold pf_UnsafeArenaExtractSubrange in E.
  rewrite (proj2 (Z.ltb_lt _ _)) in E by (simpl; lia). rewrite (proj2 (Z.eqb_neq _ _)) by (simpl; lia).
  rewrite (pointers_spec _ _ _ _ _ HR) in E |- *. cbn [obind] in *.
  destruct (CloseGap (Z.of_nat (length live1)) (Z.of_nat (length (c :: mid))) f) as [f1| |]; try discriminate E. injection E as ->.
  assert (HH0 : holds (cells (pf_arena f) (c :: mid) ++ cells (pf_arena f) (live1 ++ live2 ++ spare) ++ rest) h)
    by (destruct c; eapply holds_any; [|exact HH]; piece).
  destruct (Z.eqb_spec (pf_arena f) 0) as [Ea|Ea]; cbn [negb].
  - cbn [obind]. exists (c :: mid), f', [], h. split; [done|]. split_and!; [|done|done|constructor].
    split; [done|]. split; [done|]. rewrite A. rewrite Ea in *. destruct c. eapply holds_any; [|exact HH0]. piece.
  - destruct (copy_all_spec (pf_arena f) (c :: mid) _ h HH0) as (qs & h1 & -> & Ev & HH1). cbn [obind].
    exists qs, f', (cells (pf_arena f) (c :: mid)), h1. split; [done|]. split_and!; [|done|done|by apply on_arena_cells].
    split; [done|]. split; [done|]. rewrite A. destruct c. eapply holds_any; [|exact HH1]. piece.
Qed.
End ranges.

(** ** Two fields *)

Section two.
Context {T : Type} `{PtrFieldOut T} `{Malloc}.
Implicit Types (live spare glive gspare : list (Z * T)) (p arena : Z) (x : T) (h : Objs T) (rest : list (Z * Obj T)).

Definition both f live spare g glive gspare rest h : Prop :=
  own f live spare (cells (pf_arena g) (glive ++ gspare) ++ rest) h /\ rep g glive gspare /\ Forall (fun c => c.2 = hd_new) gspare.

Lemma both_sym f live spare g glive gspare rest h : both f live spare g glive gspare rest h -> both g glive gspare f live spare rest h.
Proof.
  intros ((HR & HC & HH) & HRg & HCg). split; [|done]. split; [done|]. split; [done|]. eapply holds_any; [|exact HH]. piece.
Qed.

Lemma both_rest f live spare g glive gspare rest rest' h :
  rest ≡ₚ rest' -> both f live spare g glive gspare rest h -> both f live spare g glive gspare rest' h.
Proof. intros E (HO & HG). split; [|done]. eapply own_rest; [|exact HO]. by rewrite E. Qed.

Lemma own_of_both f live spare g glive gspare rest h :
  both f live spare g glive gspare rest h -> own g glive gspare (cells (pf_arena f) (live ++ spare) ++ rest) h.
Proof. intros HB. apply (proj1 (both_sym _ _ _ _ _ _ _ _ HB)). Qed.

(** Copies of the elements of another field are appended. *)
Lemma MergeFrom_spec f live spare g glive gspare rest h :
  both f live spare g glive gspare rest h -> pf_current f + pf_current g <= int_max ->
  exists more spare' f' h', pf_MergeFrom g f h = Ret (f', h') /\ both f' (live ++ more) spare' g glive gspare rest h' /\
    pf_arena f' = pf_arena f /\ more.*2 = glive.*2.
Proof.
  intros ((HR & HC & HH) & HRg & HCg) Hm. unfold pf_MergeFrom, pf_empty. destruct (Z.eqb_spec (pf_current g) 0) as [E|E].
  - rewrite (proj1 (rep_counts _ _ _ HRg)) in E. destruct glive; [|simpl in E; lia]. exists [], spare, f, h. rewrite app_nil_r. by split_and!.
  - destruct (MergeFromConcreteMessage_spec f live spare g glive gspare rest h HR HRg HH HC Hm)
      as (more & spare' & f' & h' & EM & HR' & A & Ev & HC' & HH').
    unfold base_MergeFrom. exists more, spare', f', h'. split; [done|]. split; [|done]. split; [|done]. split; [done|]. split; [done|]. by rewrite A.
Qed.

(** [CopyFrom] of another field. *)
Lemma CopyFrom_spec f live spare g glive gspare rest h :
  both f live spare g glive gspare rest h ->
  exists live' spare' f' h', base_CopyFrom false g f h = Ret (f', h') /\ both f' live' spare' g glive gspare rest h' /\
    pf_arena f' = pf_arena f /\ live'.*2 = glive.*2.
Proof.
  intros (HO & HG). unfold base_CopyFrom. destruct (Clear_spec _ _ _ _ _ HO) as (f1 & h1 & -> & HO1 & A1 & _). cbn [obind].
  pose proof (rep_counts _ _ _ (proj1 HO1)) as (Hc & _). pose proof (rep_counts _ _ _ (proj1 HG)) as (Hcg & Hag & Hbg).
  destruct (MergeFrom_spec f1 [] _ g glive gspare rest h1 (conj HO1 HG)) as (more & spare' & f' & h' & E & HB & A & Ev); [simpl in Hc; lia|].
  change (if pf_empty g then Ret (f1, h1) else base_MergeFrom g f1 h1) with (pf_MergeFrom g f1 h1).
  exists more, spare', f', h'. split; [done|]. split; [exact HB|]. split; congruence.
Qed.

(** All but the arenas changes hands; on one arena the elements stay where
    they are. *)
Lemma internal_swap_spec f live spare g glive gspare rest h :
  both f live spare g glive gspare rest h -> pf_arena f = pf_arena g ->
  both (InternalSwap f g).1 glive gspare (InternalSwap f g).2 live spare rest h.
Proof.
  intros ((HR & HC & HH) & HRg & HCg) Ea. split; [|split; [exact HR|done]]. split; [exact HRg|]. split; [done|]. simpl. rewrite Ea in *.
  eapply holds_any; [|exact HH]. piece.
Qed.

(** [Swap], the arenas the same or not. *)
Lemma Swap_spec f live spare g glive gspare rest h :
  both f live spare g glive gspare rest h ->
  exists live' spare' f' glive' gspare' g' kept h', base_Swap f g h = Ret (f', g', h') /\
    both f' live' spare' g' glive' gspare' (kept ++ rest) h' /\ pf_arena f' = pf_arena f /\ pf_arena g' = pf_arena g /\
    live'.*2 = glive.*2 /\ glive'.*2 = live.*2 /\ on_arena kept.
Proof.
  intros HB. unfold base_Swap. destruct (Z.eqb_spec (pf_arena f) (pf_arena g)) as [Ea|Ea].
  { pose proof (internal_swap_spec _ _ _ _ _ _ _ _ HB Ea) as HB'. unfold InternalSwap in *. simpl in HB'.
    do 6 eexists. exists [], h. split; [done|]. split; [exact HB'|]. split_and!; [done..|constructor]. }
  unfold SwapFallback. set (t := PtrField_new (pf_arena g)).
  assert (HT : both t [] [] f live spare (cells (pf_arena g) (glive ++ gspare) ++ rest) h).
  { split; [|by destruct HB as ((? & ? & _) & _)]. apply own_new. destruct HB as ((_ & _ & HH) & _). exact HH. }
  pose proof (rep_counts _ _ _ (proj1 (proj1 HB))) as (Hc & Ha & Hb).
  destruct (MergeFrom_spec _ _ _ _ _ _ _ _ HT) as (more & spare1 & t1 & h1 & E1 & HB1 & A1 & V1); [change (pf_current t) with 0; lia|].
  unfold pf_MergeFrom in E1. replace (if negb (pf_empty f) then base_MergeFrom f t h else Ret (t, h)) with
    (if pf_empty f then Ret (t, h) else base_MergeFrom f t h) by (by destruct (pf_empty f)). rewrite E1. cbn [obind].
  (* the other field's elements *)
  assert (HB2 : both f live spare g glive gspare (cells (pf_arena t1) (more ++ spare1) ++ rest) h1).
  { destruct HB1 as ((HRt & HCt & HHt) & HRf & HCf). split; [|apply HB]. split; [done|]. split; [done|]. eapply holds_any; [|exact HHt]. piece. }
  destruct (CopyFrom_spec _ _ _ _ _ _ _ _ HB2) as (live' & spare' & f' & h2 & -> & HB3 & A2 & V2). cbn [obind].
  (* what the temporary has, and what the other had *)
  assert (HB4 : both g glive gspare t1 more spare1 (cells (pf_arena f') (live' ++ spare') ++ rest) h2).
  { destruct HB3 as ((HRf & HCf & HHf) & HRg & HCg). destruct HB1 as ((HRt & HCt & _) & _). split; [|done]. split; [done|]. split; [done|].
    eapply holds_any; [|exact HHf]. piece. }
  pose proof (internal_swap_spec _ _ _ _ _ _ _ _ HB4 (eq_sym A1)) as HB5. unfold InternalSwap in *. simpl in HB5. cbn [obind].
  apply both_sym in HB5. destruct HB5 as ((HRt & HCt & HHt) & HRg & HCg).
  set (g' := mkPtr (pf_store t1) _ _ _) in *. set (t' := mkPtr (pf_store g) _ _ _) in *.
  destruct (Destroy_spec t' glive gspare _ h2 HRt HHt) as (h3 & -> & HH3). cbn [obind].
  exists live', spare', f', more, spare1, g', (cells (pf_arena t') (if pf_arena t' =? 0 then [] else glive ++ gspare)), h3.
  split; [done|]. split; [|split_and!; try done].
  - destruct HB3 as ((HRf & HCf & HHf) & _). split; [|done]. split; [done|]. split; [done|]. eapply holds_any; [|exact HH3]. piece.
  - apply on_arena_cells. by intros ->.
Qed.
End two.

(** ** Values from a range *)

Section add_ranges.
Context {T : Type} `{PtrFieldOut T} `{Malloc}.
Implicit Types (live spare : list (Z * T)) (x : T) (l : list T) (h : Objs T) (rest : list (Z * Obj T)).

Lemma add_each_spec l f live spare rest h :
  own f live spare rest h -> pf_current f + Z.of_nat (length l) <= int_max ->
  exists more spare' f' h', ofold (fun x '(f, h) => do (p, f, h) <- pf_Add f h; do h <- modify (fun _ => x) p h; Ret (f, h)) l (f, h) = Ret (f', h') /\
    own f' (live ++ more) spare' rest h' /\ pf_arena f' = pf_arena f /\ more.*2 = l.
Proof.
  revert f live spare h. induction l as [|x l IH]; intros f live spare h HO Hm.
  { exists [], spare, f, h. rewrite app_nil_r. by split_and!. }
  cbn [ofold]. destruct (Add_spec f live spare rest h HO) as (p & f1 & spare1 & h1 & E & HO1 & A1); [simpl in Hm; lia|].
  unfold pf_Add at 1. rewrite E. cbn [obind]. destruct (own_modify f1 live p hd_new [] spare1 rest h1 (fun _ => x) HO1) as (_ & h2 & -> & HO2). cbn [obind].
  pose proof (proj1 (rep_counts _ _ _ (proj1 HO))) as Hc. pose proof (proj1 (rep_counts _ _ _ (proj1 HO2))) as Hc2. rewrite length_app in Hc2.
  destruct (IH f1 (live ++ [(p, x)]) spare1 h2 HO2) as (more & spare' & f' & h' & -> & HO' & A' & Ev); [simpl in *; lia|].
  exists ((p, x) :: more), spare', f', h'. rewrite cons_middle, app_assoc. split; [done|]. split; [done|]. split; [congruence|]. by rewrite fmap_cons, Ev.
Qed.

Lemma Reserve_spec n f live spare rest h :
  own f live spare rest h -> n <= int_max -> exists f', pf_Reserve n f = Ret f' /\ own f' live spare rest h /\ pf_arena f' = pf_arena f.
Proof.
  intros (HR & HC & HH) Hn. destruct (out_Reserve_spec n f (proj1 HR) Hn) as (f' & E & Hs & _). exists f'. pose proof Hs as (_ & _ & _ & A & _).
  split; [done|]. split; [|done]. split; [by eapply same_elements_rep|]. split; [done|]. by rewrite A.
Qed.

Lemma Add_range_spec forward l f live spare rest h :
  own f live spare rest h -> pf_current f + Z.of_nat (length l) <= int_max ->
  exists more spare' f' h', pf_Add_range forward l f h = Ret (f', h') /\
    own f' (live ++ more) spare' rest h' /\ pf_arena f' = pf_arena f /\ more.*2 = l.
Proof.
  intros HO Hm. unfold pf_Add_range. pose proof (proj1 (rep_counts _ _ _ (proj1 HO))) as Hc. destruct forward; [|by apply (add_each_spec l _ _ spare)].
  rewrite wrapS_id by (unfold inS, int_max in *; lia). rewrite int_add_Ret by (unfold pf_size; lia). cbn [obind].
  destruct (Reserve_spec (pf_size f + Z.of_nat (length l)) _ _ _ _ _ HO) as (f1 & -> & HO1 & A1); [done|]. cbn [obind]. rewrite <- A1.
  apply (add_each_spec l _ _ spare); [done|]. rewrite (proj1 (rep_counts _ _ _ (proj1 HO1))). lia.
Qed.
End add_ranges.

(** ** A program that uses fields *)

(** The fields and the heap. *)
Record World (T : Type) := mkWorld { w_fields : list PtrField; w_heap : Objs T }.
Arguments mkWorld {T} _ _.
Arguments w_fields {T} _.
Arguments w_heap {T} _.

(** What the program knows: for each field its arena and its values, and the
    objects that are the program's own. *)
Record Account (T : Type) := mkAccount { a_fields : list (Z * list T); a_mine : Objs T }.
Arguments mkAccount {T} _ _.
Arguments a_fields {T} _.
Arguments a_mine {T} _.

(** Calls on the [k]-th field, and on two. *)
Inductive Op (T : Type) :=
| ONew (arena : Z) | ODestroy (k : nat)
| OCopyNew (arena : Z) (j : nat) | OMoveNew (j : nat)
| OAdd (k : nat) | OAddValue (k : nat) (x : T) | OSet (k i : nat) (x : T)
| OAddRange (k : nat) (forward : bool) (l : list T) | OAssign (k : nat) (forward : bool) (l : list T)
| ORemoveLast (k : nat) | OClear (k : nat) | OReserve (k : nat) (n : Z) | OSwapElements (k i j : nat)
| OAddAllocated (k : nat) (p : Z) | OUnsafeArenaAddAllocated (k : nat) (p : Z) | OAddAllocatedForParse (k : nat) (p : Z)
| OReleaseLast (k : nat) | OUnsafeArenaReleaseLast (k : nat)
| OAddCleared (k : nat) (p : Z) | OReleaseCleared (k : nat)
| ODeleteSubrange (k start num : nat) | OExtractSubrange (k start num : nat) | OUnsafeArenaExtractSubrange (k start num : nat)
| OMergeFrom (k j : nat) | OCopyFrom (k j : nat) | OSwap (k j : nat) | OUnsafeArenaSwap (k j : nat) | OMoveAssign (k j : nat).
Arguments ONew {T} _.
Arguments ODestroy {T} _.
Arguments OCopyNew {T} _ _.
Arguments OMoveNew {T} _.
Arguments OAdd {T} _.
Arguments OAddValue {T} _ _.
Arguments OSet {T} _ _ _.
Arguments OAddRange {T} _ _ _.
Arguments OAssign {T} _ _ _.
Arguments ORemoveLast {T} _.
Arguments OClear {T} _.
Arguments OReserve {T} _ _.
Arguments OSwapElements {T} _ _ _.
Arguments OAddAllocated {T} _ _.
Arguments OUnsafeArenaAddAllocated {T} _ _.
Arguments OAddAllocatedForParse {T} _ _.
Arguments OReleaseLast {T} _.
Arguments OUnsafeArenaReleaseLast {T} _.
Arguments OAddCleared {T} _ _.
Arguments OReleaseCleared {T} _.
Arguments ODeleteSubrange {T} _ _ _.
Arguments OExtractSubrange {T} _ _ _.
Arguments OUnsafeArenaExtractSubrange {T} _ _ _.
Arguments OMergeFrom {T} _ _.
Arguments OCopyFrom {T} _ _.
Arguments OSwap {T} _ _.
Arguments OUnsafeArenaSwap {T} _ _.
Arguments OMoveAssign {T} _ _.

Section world.
Context {T : Type} `{PtrFieldOut T} `{Malloc}.
Implicit Types (w : World T) (a : Account T) (h : Objs T) (op : Op T) (ret ptrs : list Z) (vs : list T).

Definition on_field (k : nat) w (act : PtrField -> Objs T -> outcome (list Z * PtrField * Objs T)) : outcome (list Z * World T) :=
  match w_fields w !! k with
  | Some f => do (ret, f, h) <- act f (w_heap w); Ret (ret, mkWorld (<[k := f]> (w_fields w)) h)
  | None => UB
  end.
Definition on_fields (k j : nat) w (act : PtrField -> PtrField -> Objs T -> outcome (PtrField * PtrField * Objs T)) : outcome (list Z * World T) :=
  match w_fields w !! k, w_fields w !! j with
  | Some f, Some g =>
      do (f, g, h) <- act f g (w_heap w);
      Ret ([], mkWorld (<[k := f]> (<[j := g]> (w_fields w))) h)
  | _, _ => UB
  end.

(** Calls that give nothing back, or a pointer. *)
Definition nothing (r : outcome (PtrField * Objs T)) : outcome (list Z * PtrField * Objs T) := do (f, h) <- r; Ret ([], f, h).
Definition pointer (r : outcome (Z * PtrField * Objs T)) : outcome (list Z * PtrField * Objs T) := do (p, f, h) <- r; Ret ([p], f, h).
Definition heapless h (r : outcome PtrField) : outcome (PtrField * Objs T) := do f <- r; Ret (f, h).
Definition heapless_pointer h (r : outcome (Z * PtrField)) : outcome (Z * PtrField * Objs T) := do (p, f) <- r; Ret (p, f, h).

Definition step op w : outcome (list Z * World T) :=
  match op with
  | ONew arena => Ret ([], mkWorld (w_fields w ++ [PtrField_new arena]) (w_heap w))
  | ODestroy k =>
      match w_fields w !! k with
      | Some f => do h <- pf_destroy f (w_heap w); Ret ([], mkWorld (list_delete k (w_fields w)) h)
      | None => UB
      end
  | OCopyNew arena j =>
      match w_fields w !! j with
      | Some g => do (f, h) <- pf_copy_new arena g (w_heap w); Ret ([], mkWorld (w_fields w ++ [f]) h)
      | None => UB
      end
  | OMoveNew j =>
      match w_fields w !! j with
      | Some g => do (f, g, h) <- pf_move_new g (w_heap w); Ret ([], mkWorld (<[j := g]> (w_fields w) ++ [f]) h)
      | None => UB
      end
  | OAdd k => on_field k w (fun f h => pointer (pf_Add f h))
  | OAddValue k x => on_field k w (fun f h => nothing (pf_Add_value x f h))
  | OSet k i x => on_field k w (fun f h => nothing (do p <- pf_Mutable (Z.of_nat i) f; do h <- modify (fun _ => x) p h; Ret (f, h)))
  | OAddRange k forward l => on_field k w (fun f h => nothing (pf_Add_range forward l f h))
  | OAssign k forward l => on_field k w (fun f h => nothing (pf_Assign forward l f h))
  | ORemoveLast k => on_field k w (fun f h => nothing (pf_RemoveLast f h))
  | OClear k => on_field k w (fun f h => nothing (pf_Clear f h))
  | OReserve k n => on_field k w (fun f h => nothing (heapless h (pf_Reserve n f)))
  | OSwapElements k i j => on_field k w (fun f h => nothing (heapless h (base_SwapElements (Z.of_nat i) (Z.of_nat j) f)))
  | OAddAllocated k p => on_field k w (fun f h => nothing (pf_AddAllocated p f h))
  | OUnsafeArenaAddAllocated k p => on_field k w (fun f h => nothing (base_UnsafeArenaAddAllocated p f h))
  | OAddAllocatedForParse k p => on_field k w (fun f h => nothing (heapless h (AddAllocatedForParse p f)))
  | OReleaseLast k => on_field k w (fun f h => pointer (pf_ReleaseLast f h))
  | OUnsafeArenaReleaseLast k => on_field k w (fun f h => pointer (heapless_pointer h (base_UnsafeArenaReleaseLast f)))
  | OAddCleared k p => on_field k w (fun f h => nothing (heapless h (base_AddCleared p f)))
  | OReleaseCleared k => on_field k w (fun f h => pointer (heapless_pointer h (base_ReleaseCleared f)))
  | ODeleteSubrange k start num => on_field k w (fun f h => nothing (pf_DeleteSubrange (Z.of_nat start) (Z.of_nat num) f h))
  | OExtractSubrange k start num => on_field k w (fun f h => pf_ExtractSubrange true (Z.of_nat start) (Z.of_nat num) f h)
  | OUnsafeArenaExtractSubrange k start num =>
      on_field k w (fun f h => do (ptrs, f) <- pf_UnsafeArenaExtractSubrange (Z.of_nat start) (Z.of_nat num) f; Ret (ptrs, f, h))
  | OMergeFrom k j => on_fields k j w (fun f g h => do (f, h) <- pf_MergeFrom g f h; Ret (f, g, h))
  | OCopyFrom k j => on_fields k j w (fun f g h => do (f, h) <- pf_CopyFrom (k =? j)%nat g f h; Ret (f, g, h))
  | OSwap k j => on_fields k j w (fun f g h => pf_Swap (k =? j)%nat f g h)
  | OUnsafeArenaSwap k j => on_fields k j w (fun f g h => let '(f, g) := pf_UnsafeArenaSwap (k =? j)%nat f g in Ret (f, g, h))
  | OMoveAssign k j => on_fields k j w (fun f g h => pf_move_assign (k =? j)%nat g f h)
  end.

(** What a call changes for the program; [ret] are the pointers it got. *)
Definition update (k : nat) (g : list T -> list T) a : Account T :=
  match a_fields a !! k with
  | Some (arena, vs) => mkAccount (<[k := (arena, g vs)]> (a_fields a)) (a_mine a)
  | None => a
  end.
Definition give (given : list (Z * Obj T)) (mine : Objs T) : Objs T := list_to_map given ∪ mine.
Definition receive (home : Z) ptrs vs a : Account T := mkAccount (a_fields a) (give (zip ptrs (mkObj home <$> vs)) (a_mine a)).
Definition hand_over (p : Z) a : Account T := mkAccount (a_fields a) (delete p (a_mine a)).
Definition values (k : nat) a : list T := match a_fields a !! k with Some c => c.2 | None => [] end.
Definition home (k : nat) a : Z := match a_fields a !! k with Some c => c.1 | None => 0 end.
Definition append_mine (k : nat) (p : Z) a : Account T :=
  match a_mine a !! p with
  | Some o => hand_over p (update k (fun vs => vs ++ [o_value o]) a)
  | None => a
  end.
Definition cut (start num : nat) vs : list T := take start vs ++ drop (start + num) vs.
Definition piece_of (start num : nat) vs : list T := take num (drop start vs).
Definition exchange (k j : nat) a : Account T := update k (fun _ => values j a) (update j (fun _ => values k a) a).

Definition account op ret a : Account T :=
  match op with
  | ONew arena => mkAccount (a_fields a ++ [(arena, [])]) (a_mine a)
  | ODestroy k => mkAccount (list_delete k (a_fields a)) (a_mine a)
  | OCopyNew arena j => mkAccount (a_fields a ++ [(arena, values j a)]) (a_mine a)
  | OMoveNew j =>
      let a' := if home j a =? 0 then update j (fun _ => []) a else a in
      mkAccount (a_fields a' ++ [(0, values j a)]) (a_mine a)
  | OAdd k => update k (fun vs => vs ++ [hd_new]) a
  | OAddValue k x => update k (fun vs => vs ++ [x]) a
  | OSet k i x => update k (fun vs => <[i := x]> vs) a
  | OAddRange k _ l => update k (fun vs => vs ++ l) a
  | OAssign k _ l => update k (fun _ => l) a
  | ORemoveLast k => update k (fun vs => take (length vs - 1) vs) a
  | OClear k => update k (fun _ => []) a
  | OReserve _ _ => a
  | OSwapElements k i j =>
      update k (fun vs => match vs !! i, vs !! j with Some x, Some y => <[j := x]> (<[i := y]> vs) | _, _ => vs end) a
  | OAddAllocated k p | OUnsafeArenaAddAllocated k p | OAddAllocatedForParse k p => append_mine k p a
  | OReleaseLast k =>
      receive 0 ret (drop (length (values k a) - 1) (values k a)) (update k (fun vs => take (length vs - 1) vs) a)
  | OUnsafeArenaReleaseLast k =>
      receive (home k a) ret (drop (length (values k a) - 1) (values k a)) (update k (fun vs => take (length vs - 1) vs) a)
  | OAddCleared _ p => hand_over p a
  | OReleaseCleared _ => receive 0 ret [hd_new] a
  | ODeleteSubrange k start num => update k (cut start num) a
  | OExtractSubrange k start num => receive 0 ret (piece_of start num (values k a)) (update k (cut start num) a)
  | OUnsafeArenaExtractSubrange k start num =>
      receive (home k a) ret (piece_of start num (values k a)) (update k (cut start num) a)
  | OMergeFrom k j => update k (fun vs => vs ++ values j a) a
  | OCopyFrom k j => update k (fun _ => values j a) a
  | OSwap k j | OUnsafeArenaSwap k j => exchange k j a
  | OMoveAssign k j => if home k a =? home j a then exchange k j a else update k (fun _ => values j a) a
  end.

(** What the header asks of the caller: fields and elements that exist, room
    below the largest index, objects that are the caller's, on an arena only
    where that is allowed. *)
Definition exists_field (k : nat) a : Prop := (k < length (a_fields a))%nat.
Definition fits (n : nat) : Prop := Z.of_nat n <= int_max.
Definition field_of (k : nat) w : PtrField := default (PtrField_new 0) (w_fields w !! k).

Definition enabled op w a : Prop :=
  match op with
  | ONew _ => True
  | ODestroy k | OClear k | OCopyNew _ k | OMoveNew k => exists_field k a
  | OAdd k | OAddValue k _ => exists_field k a /\ fits (length (values k a) + 1)
  | OSet k i _ => exists_field k a /\ (i < length (values k a))%nat
  | OAddRange k _ l => exists_field k a /\ fits (length (values k a) + length l)
  | OAssign k _ l => exists_field k a /\ fits (length l)
  | OReserve k n => exists_field k a /\ n <= int_max
  | OSwapElements k i j => exists_field k a /\ (i < length (values k a))%nat /\ (j < length (values k a))%nat
  | OAddAllocated k p =>
      exists_field k a /\ fits (length (values k a) + 1) /\
      exists o, a_mine a !! p = Some o /\ (hd_message = false -> o_home o = 0)
  | OUnsafeArenaAddAllocated k p =>
      exists_field k a /\ fits (length (values k a) + 1) /\ exists x, a_mine a !! p = Some (mkObj (home k a) x)
  | OAddAllocatedForParse k p =>
      exists_field k a /\ fits (length (values k a) + 1) /\ PrepareForParse (field_of k w) = true /\
      exists x, a_mine a !! p = Some (mkObj (home k a) x)
  | ORemoveLast k | OReleaseLast k | OUnsafeArenaReleaseLast k => exists_field k a /\ values k a <> []
  | OAddCleared k p =>
      exists_field k a /\ home k a = 0 /\ a_mine a !! p = Some (mkObj 0 hd_new) /\ allocated_size (field_of k w) < int_max
  | OReleaseCleared k => exists_field k a /\ home k a = 0 /\ 0 < ClearedCount (field_of k w)
  | ODeleteSubrange k start num | OExtractSubrange k start num | OUnsafeArenaExtractSubrange k start num =>
      exists_field k a /\ (start + num <= length (values k a))%nat
  | OMergeFrom k j =>
      exists_field k a /\ exists_field j a /\ k <> j /\ fits (length (values k a) + length (values j a))
  | OCopyFrom k j | OSwap k j | OMoveAssign k j => exists_field k a /\ exists_field j a
  | OUnsafeArenaSwap k j => exists_field k a /\ exists_field j a /\ home k a = home j a
  end.

Inductive reachable : World T -> Account T -> Prop :=
| r_start : reachable (mkWorld [] ∅) (mkAccount [] ∅)
| r_new p arena x w a : (* the program makes an object of its own *)
    reachable w a -> p = malloc (dom (w_heap w)) ->
    reachable (mkWorld (w_fields w) (<[p := mkObj arena x]> (w_heap w))) (mkAccount (a_fields a) (<[p := mkObj arena x]> (a_mine a)))
| r_delete p x w a : (* and deletes one *)
    reachable w a -> a_mine a !! p = Some (mkObj 0 x) ->
    reachable (mkWorld (w_fields w) (delete p (w_heap w))) (mkAccount (a_fields a) (delete p (a_mine a)))
| r_step op ret w' w a :
    reachable w a -> enabled op w a -> step op w = Ret (ret, w') -> reachable w' (account op ret a).
End world.

(** ** What the program knows is so *)

Section agreement.
Context {T : Type} `{PtrFieldOut T} `{Malloc}.
Implicit Types (w : World T) (a : Account T) (h : Objs T) (live spare : list (Z * T)) (rest : list (Z * Obj T)).

Record Part := mkPart { pt_field : PtrField; pt_live : list (Z * T); pt_spare : list (Z * T) }.
Implicit Types (d e : Part) (parts : list Part).

Definition part_ok d : Prop := rep (pt_field d) (pt_live d) (pt_spare d) /\ Forall (fun c => c.2 = hd_new) (pt_spare d).
Definition part_cells d : list (Z * Obj T) := cells (pf_arena (pt_field d)) (pt_live d ++ pt_spare d).
Definition part_known d : Z * list T := (pf_arena (pt_field d), (pt_live d).*2).
Definition no_part : Part := mkPart (PtrField_new 0) [] [].

Definition agrees w a : Prop :=
  exists parts kept, w_fields w = pt_field <$> parts /\ a_fields a = part_known <$> parts /\ Forall part_ok parts /\
    on_arena kept /\ holds ((parts ≫= part_cells) ++ map_to_list (a_mine a) ++ kept) (w_heap w).

Lemma parts_at k parts d : parts !! k = Some d -> parts ≫= part_cells ≡ₚ part_cells d ++ (<[k := no_part]> parts ≫= part_cells).
Proof.
  intros Hk. destruct (list_elem_of_split_length _ _ _ Hk) as (l1 & l2 & -> & ->). rewrite insert_app_r_alt, Nat.sub_diag by done. simpl.
  rewrite !bind_app. simpl. solve_Permutation.
Qed.

Lemma parts_insert k parts d e :
  parts !! k = Some d -> <[k := e]> parts ≫= part_cells ≡ₚ part_cells e ++ (<[k := no_part]> parts ≫= part_cells).
Proof.
  intros Hk. rewrite (parts_at k _ e) by (apply list_lookup_insert_eq; by eapply lookup_lt_Some). by rewrite list_insert_insert_eq.
Qed.

Lemma parts_delete k parts d :
  parts !! k = Some d -> list_delete k parts ≫= part_cells ≡ₚ (<[k := no_part]> parts ≫= part_cells).
Proof.
  intros Hk. destruct (list_elem_of_split_length _ _ _ Hk) as (l1 & l2 & -> & ->). change (list_delete ?i ?l) with (delete i l).
  rewrite delete_middle, insert_app_r_alt, Nat.sub_diag by done. simpl. by rewrite !bind_app.
Qed.

Lemma give_perm given (mine : Objs T) rest h :
  holds (given ++ map_to_list mine ++ rest) h -> map_to_list (give given mine) ≡ₚ given ++ map_to_list mine.
Proof.
  intros (Hnd & _). unfold give. rewrite <- (list_to_map_to_list mine) at 1. rewrite <- list_to_map_app. apply map_to_list_to_map.
  rewrite !fmap_app in *. rewrite app_assoc, NoDup_app in Hnd. apply Hnd.
Qed.

Lemma own_part f live spare rest h : own f live spare rest h <-> part_ok (mkPart f live spare) /\ holds (part_cells (mkPart f live spare) ++ rest) h.
Proof. unfold own, part_ok, part_cells. simpl. tauto. Qed.

(** A call on one field sees that field, and leaves the others alone. *)
Lemma on_one k w a :
  agrees w a -> exists_field k a ->
  exists f live spare rest, w_fields w !! k = Some f /\ a_fields a !! k = Some (pf_arena f, live.*2) /\
    own f live spare (map_to_list (a_mine a) ++ rest) (w_heap w) /\
    (forall f' live' spare' given mine' kept h',
       own f' live' spare' (given ++ map_to_list mine' ++ kept ++ rest) h' -> pf_arena f' = pf_arena f -> on_arena kept ->
       agrees (mkWorld (<[k := f']> (w_fields w)) h') (mkAccount (<[k := (pf_arena f, live'.*2)]> (a_fields a)) (give given mine'))) /\
    (forall kept h', holds (kept ++ map_to_list (a_mine a) ++ rest) h' -> on_arena kept ->
       agrees (mkWorld (list_delete k (w_fields w)) h') (mkAccount (list_delete k (a_fields a)) (a_mine a))).
Proof.
  intros (parts & kept & Ef & Ea & Hok & Hk & HH) Hlt. unfold exists_field in Hlt. rewrite Ea, length_fmap in Hlt.
  destruct (lookup_lt_is_Some_2 _ _ Hlt) as [[f live spare] Hd].
  exists f, live, spare, ((<[k := no_part]> parts ≫= part_cells) ++ kept). rewrite Ef, Ea, !list_lookup_fmap, Hd.
  split; [done|]. split; [done|]. rewrite (parts_at _ _ _ Hd) in HH.
  assert (Hp : part_ok (mkPart f live spare)) by (rewrite Forall_lookup in Hok; by eapply Hok).
  split; [|split].
  - apply own_part. split; [done|]. eapply holds_any; [|exact HH]. solve_Permutation.
  - intros f' live' spare' given mine' kept' h' HO A Hk'. apply own_part in HO as [Hp' HH'].
    exists (<[k := mkPart f' live' spare']> parts), (kept' ++ kept). simpl. rewrite !list_fmap_insert. split; [done|].
    split; [unfold part_known at 2; simpl; by rewrite A|]. split; [by apply Forall_insert|]. split; [by apply Forall_app|].
    rewrite (parts_insert _ _ _ _ Hd). rewrite (give_perm given mine' (part_cells (mkPart f' live' spare') ++ kept' ++ (<[k := no_part]> parts ≫= part_cells) ++ kept) h')
      by (eapply holds_any; [|exact HH']; solve_Permutation).
    eapply holds_any; [|exact HH']. solve_Permutation.
  - intros kept' h' HH' Hk'. exists (list_delete k parts), (kept' ++ kept). simpl. change (list_delete ?i ?l) with (delete i l).
    rewrite !list_fmap_delete. split; [done|]. split; [done|]. split; [by apply Forall_delete|]. split; [by apply Forall_app|].
    change (delete k parts) with (list_delete k parts). rewrite (parts_delete _ _ _ Hd). eapply holds_any; [|exact HH']. solve_Permutation.
Qed.

(** A call on two fields. *)
Lemma on_two k j w a :
  agrees w a -> exists_field k a -> exists_field j a -> k <> j ->
  exists f live spare g glive gspare rest, w_fields w !! k = Some f /\ w_fields w !! j = Some g /\
    a_fields a !! k = Some (pf_arena f, live.*2) /\ a_fields a !! j = Some (pf_arena g, glive.*2) /\
    both f live spare g glive gspare (map_to_list (a_mine a) ++ rest) (w_heap w) /\
    (forall f' live' spare' g' glive' gspare' kept h',
       both f' live' spare' g' glive' gspare' (kept ++ map_to_list (a_mine a) ++ rest) h' ->
       pf_arena f' = pf_arena f -> pf_arena g' = pf_arena g -> on_arena kept ->
       agrees (mkWorld (<[k := f']> (<[j := g']> (w_fields w))) h')
         (mkAccount (<[k := (pf_arena f, live'.*2)]> (<[j := (pf_arena g, glive'.*2)]> (a_fields a))) (a_mine a))).
Proof.
  intros (parts & kept & Ef & Ea & Hok & Hk & HH) Hlt Hltj Hkj. unfold exists_field in Hlt, Hltj. rewrite Ea, length_fmap in Hlt, Hltj.
  destruct (lookup_lt_is_Some_2 _ _ Hlt) as [[f live spare] Hd]. destruct (lookup_lt_is_Some_2 _ _ Hltj) as [[g glive gspare] He].
  exists f, live, spare, g, glive, gspare, ((<[j := no_part]> (<[k := no_part]> parts) ≫= part_cells) ++ kept).
  rewrite Ef, Ea, !list_lookup_fmap, Hd, He. do 4 (split; [done|]).
  rewrite (parts_at _ _ _ Hd), (parts_at j (<[k:=no_part]> parts) _ ltac:(by rewrite list_lookup_insert_ne)) in HH.
  rewrite Forall_lookup in Hok. pose proof (Hok _ _ Hd) as [Hp1 Hp2]. pose proof (Hok _ _ He) as [Hp3 Hp4]. simpl in *. split.
  - split; [|done]. split; [done|]. split; [done|]. unfold part_cells in HH at 1 2. simpl in HH. eapply holds_any; [|exact HH]. solve_Permutation.
  - intros f' live' spare' g' glive' gspare' kept' h' ((HR & HC & HH') & HRg & HCg) A1 A2 Hk'.
    exists (<[k := mkPart f' live' spare']> (<[j := mkPart g' glive' gspare']> parts)), (kept' ++ kept). simpl. rewrite !list_fmap_insert.
    split; [done|]. split; [unfold part_known at 2 3; simpl; by rewrite A1, A2|].
    split; [apply Forall_insert; [apply Forall_insert; [by apply Forall_lookup|done]|done]|]. split; [by apply Forall_app|].
    rewrite (parts_insert k (<[j:=mkPart g' glive' gspare']> parts) _ _ ltac:(by rewrite list_lookup_insert_ne)).
    rewrite list_insert_insert_ne by done. rewrite (parts_insert j (<[k:=no_part]> parts) _ _ ltac:(by rewrite list_lookup_insert_ne)).
    unfold part_cells at 1 2. simpl. eapply holds_any; [|exact HH']. solve_Permutation.
Qed.

Lemma agrees_new arena w a :
  agrees w a -> agrees (mkWorld (w_fields w ++ [PtrField_new arena]) (w_heap w)) (mkAccount (a_fields a ++ [(arena, [])]) (a_mine a)).
Proof.
  intros (parts & kept & Ef & Ea & Hok & Hk & HH). exists (parts ++ [mkPart (PtrField_new arena) [] []]), kept. simpl. rewrite Ef, Ea, !fmap_app.
  split; [done|]. split; [done|]. split.
  - apply Forall_app. split; [done|]. constructor; [|done]. split; [apply rep_of_view; constructor|done].
  - split; [done|]. rewrite bind_app. simpl. by rewrite app_nil_r.
Qed.

(** ** One call *)

(** The call runs, and what the program then knows is so. *)
Definition runs (op : Op T) w a : Prop := exists ret w', step op w = Ret (ret, w') /\ agrees w' (account op ret a).

Lemma give_nil (mine : Objs T) : give [] mine = mine.
Proof. apply (left_id_L ∅ (∪)). Qed.

Lemma one_call k w a act (res : list Z -> Account T) :
  agrees w a -> exists_field k a ->
  (forall f live spare rest, w_fields w !! k = Some f -> a_fields a !! k = Some (pf_arena f, live.*2) ->
     own f live spare (map_to_list (a_mine a) ++ rest) (w_heap w) ->
     exists ret f' live' spare' given mine' kept h', act f (w_heap w) = Ret (ret, f', h') /\
       own f' live' spare' (given ++ map_to_list mine' ++ kept ++ rest) h' /\ pf_arena f' = pf_arena f /\ on_arena kept /\
       res ret = mkAccount (<[k := (pf_arena f, live'.*2)]> (a_fields a)) (give given mine')) ->
  exists ret w', on_field k w act = Ret (ret, w') /\ agrees w' (res ret).
Proof.
  intros Ha Hx Hcall. destruct (on_one k w a Ha Hx) as (f & live & spare & rest & Ef & Ea & HO & Hback & _).
  destruct (Hcall _ _ _ _ Ef Ea HO) as (ret & f' & live' & spare' & given & mine' & kept & h' & E & HO' & A & Hk & Er).
  unfold on_field. rewrite Ef, E. cbn [obind]. eexists _, _. split; [done|]. rewrite Er. by eapply Hback.
Qed.

(** Calls that only change the field's values. *)
Lemma plain_call k w a call (g : list T -> list T) :
  agrees w a -> exists_field k a ->
  (forall f live spare rest h, own f live spare rest h -> values k a = live.*2 -> pf_current f = Z.of_nat (length (values k a)) ->
     exists f' live' spare' kept h', call f h = Ret (f', h') /\
       own f' live' spare' (kept ++ rest) h' /\ pf_arena f' = pf_arena f /\ on_arena kept /\ live'.*2 = g (live.*2)) ->
  exists ret w', on_field k w (fun f h => nothing (call f h)) = Ret (ret, w') /\ agrees w' (update k g a).
Proof.
  intros Ha Hx Hcall. apply (one_call k w a _ (fun _ => update k g a) Ha Hx). intros f live spare rest _ Ea HO.
  assert (Ev : values k a = live.*2) by (unfold values; by rewrite Ea).
  destruct (Hcall f live spare _ _ HO Ev) as (f' & live' & spare' & kept & h' & E & HO' & A & Hk & Eg).
  { rewrite Ev, length_fmap. apply (rep_counts _ _ _ (proj1 HO)). }
  exists [], f', live', spare', [], (a_mine a), kept, h'. unfold nothing. rewrite E. split; [done|].
  split; [eapply own_rest; [|exact HO']; solve_Permutation|]. split; [done|]. split; [done|]. unfold update. by rewrite Ea, Eg, give_nil.
Qed.

(** The same, of a call that keeps nothing. *)
Lemma plain_call' k w a call (g : list T -> list T) :
  agrees w a -> exists_field k a ->
  (forall f live spare rest h, own f live spare rest h -> values k a = live.*2 -> pf_current f = Z.of_nat (length (values k a)) ->
     exists f' live' spare' h', call f h = Ret (f', h') /\ own f' live' spare' rest h' /\ pf_arena f' = pf_arena f /\ live'.*2 = g (live.*2)) ->
  exists ret w', on_field k w (fun f h => nothing (call f h)) = Ret (ret, w') /\ agrees w' (update k g a).
Proof.
  intros Ha Hx Hcall. apply plain_call; [done|done|]. intros f live spare rest h HO Ev Hc.
  destruct (Hcall f live spare rest h HO Ev Hc) as (f' & live' & spare' & h' & E & HO' & A & Eg).
  exists f', live', spare', [], h'. split_and!; [done|done|done|by constructor|done].
Qed.

Lemma runs_add k w a : agrees w a -> exists_field k a -> fits (length (values k a) + 1) -> runs (OAdd k) w a.
Proof.
  intros Ha Hx Hf. unfold runs. simpl step. simpl account. apply (one_call k w a _ (fun _ => _) Ha Hx). intros f live spare rest _ Ea HO.
  destruct (Add_spec f live spare _ _ HO) as (p & f' & spare' & h' & E & HO' & A).
  { unfold fits, values in Hf. rewrite Ea in Hf. simpl in Hf. rewrite length_fmap in Hf. rewrite (proj1 (rep_counts _ _ _ (proj1 HO))). lia. }
  unfold pf_Add, pointer. rewrite E. cbn [obind]. exists [p], f', (live ++ [(p, hd_new)]), spare', [], (a_mine a), [], h'.
  split; [done|]. split; [done|]. split; [done|]. split; [by constructor|]. unfold update. by rewrite Ea, give_nil, fmap_app.
Qed.

Lemma runs_add_value k x w a : agrees w a -> exists_field k a -> fits (length (values k a) + 1) -> runs (OAddValue k x) w a.
Proof.
  intros Ha Hx Hf. apply plain_call'; [done|done|]. intros f live spare rest h HO Ev Hc. unfold fits in Hf.
  destruct (Add_value_spec f live spare rest h x HO) as (p & f' & spare' & h' & E & HO' & A); [lia|].
  eexists f', _, spare', h'. split; [done|]. split; [exact HO'|]. split; [done|]. by rewrite fmap_app.
Qed.

Lemma runs_set k i x w a : agrees w a -> exists_field k a -> (i < length (values k a))%nat -> runs (OSet k i x) w a.
Proof.
  intros Ha Hx Hi. apply plain_call'; [done|done|]. intros f live spare rest h HO Ev Hc. rewrite Ev, length_fmap in Hi.
  destruct (lookup_lt_is_Some_2 _ _ Hi) as [[p y] Hp]. destruct (list_elem_of_split_length _ _ _ Hp) as (l1 & l2 & -> & ->).
  unfold pf_Mutable. rewrite (element_live _ _ _ _ _ (proj1 HO)). cbn [obind fst].
  destruct (own_modify f l1 p y l2 spare rest h (fun _ => x) HO) as (_ & h' & -> & HO'). cbn [obind].
  eexists f, _, spare, h'. split; [done|]. split; [exact HO'|]. split; [done|]. rewrite !fmap_app. simpl.
  by rewrite insert_app_r_alt, length_fmap, Nat.sub_diag by (by rewrite length_fmap).
Qed.

Lemma runs_add_range k forward l w a : agrees w a -> exists_field k a -> fits (length (values k a) + length l) -> runs (OAddRange k forward l) w a.
Proof.
  intros Ha Hx Hf. apply plain_call'; [done|done|]. intros f live spare rest h HO Ev Hc. unfold fits in Hf.
  destruct (Add_range_spec forward l f live spare rest h HO) as (more & spare' & f' & h' & E & HO' & A & Em); [lia|].
  eexists f', _, spare', h'. split; [done|]. split; [exact HO'|]. split; [done|]. by rewrite fmap_app, Em.
Qed.

Lemma runs_assign k forward l w a : agrees w a -> exists_field k a -> fits (length l) -> runs (OAssign k forward l) w a.
Proof.
  intros Ha Hx Hf. apply plain_call'; [done|done|]. intros f live spare rest h HO Ev Hc. unfold fits in Hf. unfold pf_Assign, pf_Clear.
  destruct (Clear_spec _ _ _ _ _ HO) as (f1 & h1 & -> & HO1 & A1 & _). cbn [obind].
  destruct (Add_range_spec forward l f1 _ _ _ h1 HO1) as (more & spare' & f' & h' & -> & HO' & A & Em).
  { rewrite (proj1 (rep_counts _ _ _ (proj1 HO1))). simpl. lia. }
  eexists f', _, spare', h'. split; [done|]. split; [exact HO'|]. split; [congruence|done].
Qed.

Lemma runs_clear k w a : agrees w a -> exists_field k a -> runs (OClear k) w a.
Proof.
  intros Ha Hx. apply plain_call'; [done|done|]. intros f live spare rest h HO Ev Hc. unfold pf_Clear.
  destruct (Clear_spec _ _ _ _ _ HO) as (f1 & h1 & -> & HO1 & A1 & _). eexists f1, [], _, h1. split; [done|]. split; [exact HO1|done].
Qed.

Lemma last_known live : live.*2 <> [] ->
  exists live0 p x, live = live0 ++ [(p, x)] /\ take (length live.*2 - 1) live.*2 = live0.*2 /\ drop (length live.*2 - 1) live.*2 = [x].
Proof.
  destruct live as [|[p x] live0 _] using rev_ind; [done|]. intros _. exists live0, p, x. split; [done|].
  rewrite !fmap_app, length_app. simpl. rewrite Nat.add_sub. by rewrite take_app_length, drop_app_length.
Qed.

Lemma runs_remove_last k w a : agrees w a -> exists_field k a -> values k a <> [] -> runs (ORemoveLast k) w a.
Proof.
  intros Ha Hx Hn. apply plain_call'; [done|done|]. intros f live spare rest h HO Ev Hc. rewrite Ev in Hn.
  destruct (last_known live Hn) as (live0 & p & x & -> & Et & _). unfold pf_RemoveLast.
  destruct (RemoveLast_spec f live0 p x spare rest h HO) as (f' & h' & E & HO' & A). by exists f', live0, ((p, hd_new) :: spare), h'.
Qed.

Lemma update_same k a : exists_field k a -> update k (fun vs => vs) a = a.
Proof.
  intros Hx. unfold update. destruct (a_fields a !! k) as [[arena vs]|] eqn:E; [|done]. rewrite list_insert_id by done. by destruct a.
Qed.

Lemma runs_reserve k n w a : agrees w a -> exists_field k a -> n <= int_max -> runs (OReserve k n) w a.
Proof.
  intros Ha Hx Hn. destruct (plain_call' k w a (fun f h => heapless h (pf_Reserve n f)) (fun vs => vs) Ha Hx) as (ret & w' & E & Hw).
  - intros f live spare rest h HO _ _. unfold heapless. destruct (Reserve_spec n f live spare rest h HO Hn) as (f' & -> & HO' & A).
    by exists f', live, spare, h.
  - exists ret, w'. rewrite update_same in Hw by done. by split.
Qed.

Lemma runs_swap_elements k i j w a :
  agrees w a -> exists_field k a -> (i < length (values k a))%nat -> (j < length (values k a))%nat -> runs (OSwapElements k i j) w a.
Proof.
  intros Ha Hx Hi Hj. apply plain_call'; [done|done|]. intros f live spare rest h (HR & HC & HH) Ev Hc. rewrite Ev, length_fmap in Hi, Hj.
  destruct (lookup_lt_is_Some_2 _ _ Hi) as [c Ec], (lookup_lt_is_Some_2 _ _ Hj) as [d Ed]. unfold heapless.
  destruct (swap_elements_spec f live spare i j c d HR Ec Ed) as (f' & -> & HR' & A & _). cbn [obind].
  exists f', (<[j := c]> (<[i := d]> live)), spare, h. split; [done|]. split; [|split; [done|by rewrite !list_lookup_fmap, Ec, Ed, !list_fmap_insert]].
  split; [done|]. split; [done|]. rewrite A. eapply holds_any; [|exact HH]. rewrite !cells_app.
  by rewrite (Permutation_insert_swap live i j c d Ec Ed).
Qed.

(** An object of the program's own, apart. *)
Lemma own_taken f live spare a p (o : Obj T) rest h :
  a_mine a !! p = Some o -> own f live spare (map_to_list (a_mine a) ++ rest) h ->
  own f live spare ((p, o) :: map_to_list (delete p (a_mine a)) ++ rest) h.
Proof. intros Hp HO. eapply own_rest; [|exact HO]. by rewrite <- (map_to_list_delete _ _ _ Hp). Qed.

Lemma runs_add_allocated k p w a (o : Obj T) :
  agrees w a -> exists_field k a -> fits (length (values k a) + 1) -> a_mine a !! p = Some o -> (hd_message = false -> o_home o = 0) ->
  runs (OAddAllocated k p) w a.
Proof.
  intros Ha Hx Hf Hp Hs. unfold runs. simpl step. simpl account. apply (one_call k w a _ (fun _ => _) Ha Hx). intros f live spare rest _ Ea HO.
  destruct (add_allocated_spec f live spare p o _ _ (own_taken _ _ _ _ _ _ _ _ Hp HO)) as (q & f' & spare' & kept & h' & E & HO' & A & Hk); [|done|].
  { unfold fits, values in Hf. rewrite Ea in Hf. simpl in Hf. rewrite length_fmap in Hf. rewrite (proj1 (rep_counts _ _ _ (proj1 HO))). lia. }
  unfold nothing. rewrite E. cbn [obind]. exists [], f', (live ++ [(q, o_value o)]), spare', [], (delete p (a_mine a)), kept, h'.
  split; [done|]. split; [eapply own_rest; [|exact HO']; solve_Permutation|]. split; [done|]. split; [done|].
  unfold append_mine, update, hand_over. by rewrite Hp, Ea, give_nil, fmap_app.
Qed.

Lemma runs_unsafe_add k p w a x :
  agrees w a -> exists_field k a -> fits (length (values k a) + 1) -> a_mine a !! p = Some (mkObj (home k a) x) ->
  runs (OUnsafeArenaAddAllocated k p) w a.
Proof.
  intros Ha Hx Hf Hp. unfold runs. simpl step. simpl account. apply (one_call k w a _ (fun _ => _) Ha Hx). intros f live spare rest _ Ea HO.
  pose proof (own_taken _ _ _ _ _ _ _ _ Hp HO) as HO1. unfold home in HO1. rewrite Ea in HO1.
  destruct (unsafe_add_spec f live spare p x _ _ HO1) as (f' & spare' & gone & h' & E & HO' & A & Hg).
  { unfold fits, values in Hf. rewrite Ea in Hf. simpl in Hf. rewrite length_fmap in Hf. rewrite (proj1 (rep_counts _ _ _ (proj1 HO))). lia. }
  unfold nothing. rewrite E. cbn [obind]. exists [], f', (live ++ [(p, x)]), spare', [], (delete p (a_mine a)), (cells (pf_arena f) gone), h'.
  split; [done|]. split; [eapply own_rest; [|exact HO']; solve_Permutation|]. split; [done|]. split; [by apply on_arena_cells|].
  unfold append_mine, update, hand_over. by rewrite Hp, Ea, give_nil, fmap_app.
Qed.

Lemma field_of_at k w f : w_fields w !! k = Some f -> field_of k w = f.
Proof. unfold field_of. by intros ->. Qed.

Lemma runs_for_parse k p w a x :
  agrees w a -> exists_field k a -> fits (length (values k a) + 1) -> PrepareForParse (field_of k w) = true ->
  a_mine a !! p = Some (mkObj (home k a) x) -> runs (OAddAllocatedForParse k p) w a.
Proof.
  intros Ha Hx Hf HP Hp. unfold runs. simpl step. simpl account. apply (one_call k w a _ (fun _ => _) Ha Hx). intros f live spare rest Ef Ea HO.
  rewrite (field_of_at _ _ _ Ef) in HP. apply Z.eqb_eq in HP. pose proof (rep_counts _ _ _ (proj1 HO)) as (Hc & Hal & _).
  assert (spare = []) as -> by (destruct spare; [done|simpl in Hal; lia]).
  pose proof (own_taken _ _ _ _ _ _ _ _ Hp HO) as (HR & HC & HH). unfold home in HH. rewrite Ea in HH. simpl in HH.
  destruct (for_parse_spec f live p x HR) as (f' & E & HR' & A & _).
  { unfold fits, values in Hf. rewrite Ea in Hf. simpl in Hf. rewrite length_fmap in Hf. lia. }
  { eapply (holds_nonzero p (mkObj (pf_arena f) x) (cells (pf_arena f) (live ++ []) ++ map_to_list (delete p (a_mine a)) ++ rest)). eapply holds_any; [|exact HH]. solve_Permutation. }
  unfold nothing, heapless. rewrite E. cbn [obind]. exists [], f', (live ++ [(p, x)]), [], [], (delete p (a_mine a)), [], (w_heap w).
  split; [done|]. split; [|split; [done|split; [by constructor|unfold append_mine, update, hand_over; by rewrite Hp, Ea, give_nil, fmap_app]]].
  split; [done|]. split; [done|]. rewrite A. eapply holds_any; [|exact HH]. piece.
Qed.

Lemma runs_release_last k w a : agrees w a -> exists_field k a -> values k a <> [] -> runs (OReleaseLast k) w a.
Proof.
  intros Ha Hx Hn. apply (one_call k w a _ (fun ret => account (OReleaseLast k) ret a) Ha Hx). intros f live spare rest _ Ea HO.
  unfold values in Hn. rewrite Ea in Hn. destruct (last_known live Hn) as (live0 & p & x & -> & Et & Ed).
  destruct (release_last_spec f live0 p x spare _ _ HO) as (q & f' & spare' & kept & h' & E & HO' & A & Ek).
  unfold pointer. rewrite E. cbn [obind]. exists [q], f', live0, spare', [(q, mkObj 0 x)], (a_mine a), (cells (pf_arena f) kept), h'.
  split; [done|]. split; [eapply own_rest; [|exact HO']; solve_Permutation|]. split; [done|].
  split; [apply on_arena_cells; intros E0; by rewrite Ek, E0|].
  unfold account, receive, update, values. rewrite Ea. simpl. by rewrite Et, Ed.
Qed.

Lemma runs_unsafe_release k w a : agrees w a -> exists_field k a -> values k a <> [] -> runs (OUnsafeArenaReleaseLast k) w a.
Proof.
  intros Ha Hx Hn. apply (one_call k w a _ (fun ret => account (OUnsafeArenaReleaseLast k) ret a) Ha Hx). intros f live spare rest _ Ea (HR & HC & HH).
  unfold values in Hn. rewrite Ea in Hn. destruct (last_known live Hn) as (live0 & p & x & -> & Et & Ed).
  destruct (unsafe_release_spec f live0 p x spare HR) as (f' & spare' & E & HR' & Hp & A & _).
  unfold pointer, heapless_pointer. rewrite E. cbn [obind]. exists [p], f', live0, spare', [(p, mkObj (pf_arena f) x)], (a_mine a), [], (w_heap w).
  split; [done|]. split; [split; [done|split; [by rewrite Hp|]]|].
  - rewrite A. eapply holds_any; [|exact HH]. rewrite (cells_app _ live0 spare'), Hp. piece.
  - split; [done|]. split; [by constructor|]. unfold account, receive, update, values, home. rewrite Ea. simpl. by rewrite Et, Ed.
Qed.

Lemma runs_add_cleared k p w a :
  agrees w a -> exists_field k a -> home k a = 0 -> a_mine a !! p = Some (mkObj 0 hd_new) -> allocated_size (field_of k w) < int_max ->
  runs (OAddCleared k p) w a.
Proof.
  intros Ha Hx Hh Hp Hm. unfold runs. simpl step. simpl account. apply (one_call k w a _ (fun _ => _) Ha Hx). intros f live spare rest Ef Ea HO.
  rewrite (field_of_at _ _ _ Ef) in Hm. unfold home in Hh. rewrite Ea in Hh. simpl in Hh.
  pose proof (own_taken _ _ _ _ _ _ _ _ Hp HO) as (HR & HC & HH).
  destruct (add_cleared_spec f live spare p hd_new HR Hm) as (f' & E & HR' & A & _).
  { eapply (holds_nonzero p (mkObj 0 hd_new) (cells (pf_arena f) (live ++ spare) ++ map_to_list (delete p (a_mine a)) ++ rest)). eapply holds_any; [|exact HH]. solve_Permutation. }
  unfold nothing, heapless. rewrite E. cbn [obind]. exists [], f', live, (spare ++ [(p, hd_new)]), [], (delete p (a_mine a)), [], (w_heap w).
  split; [done|]. split; [|split; [done|split; [by constructor|unfold hand_over; rewrite give_nil, list_insert_id; done]]].
  split; [done|]. split; [apply Forall_app; split; [done|by constructor]|]. rewrite A, Hh in *. eapply holds_any; [|exact HH]. piece.
Qed.

Lemma runs_release_cleared k w a :
  agrees w a -> exists_field k a -> home k a = 0 -> 0 < ClearedCount (field_of k w) -> runs (OReleaseCleared k) w a.
Proof.
  intros Ha Hx Hh Hm. apply (one_call k w a _ (fun ret => account (OReleaseCleared k) ret a) Ha Hx). intros f live spare rest Ef Ea (HR & HC & HH).
  rewrite (field_of_at _ _ _ Ef) in Hm. unfold home in Hh. rewrite Ea in Hh. simpl in Hh. unfold ClearedCount in Hm.
  pose proof (rep_counts _ _ _ HR) as (Hc & Hal & _). destruct spare as [|[p x] spare _] using rev_ind; [simpl in Hal; lia|].
  destruct (release_cleared_spec f live p x spare HR) as (f' & E & HR' & A & _). apply Forall_app in HC as [HC Hx']. inversion Hx'; simpl in *; subst x.
  unfold pointer, heapless_pointer. rewrite E. cbn [obind]. exists [p], f', live, spare, [(p, mkObj 0 hd_new)], (a_mine a), [], (w_heap w).
  split; [done|]. split; [|split; [done|split; [by constructor|unfold account, receive; rewrite list_insert_id; done]]].
  split; [done|]. split; [done|]. rewrite A, Hh in *. eapply holds_any; [|exact HH]. piece.
Qed.

(** A range of the elements. *)
Lemma range_known live start num : (start + num <= length live.*2)%nat ->
  exists live1 mid live2, live = live1 ++ mid ++ live2 /\ length live1 = start /\ length mid = num /\
    cut start num live.*2 = (live1 ++ live2).*2 /\ piece_of start num live.*2 = mid.*2.
Proof.
  rewrite length_fmap. intros Hl. exists (take start live), (take num (drop start live)), (drop (start + num) live).
  rewrite <- drop_drop, !take_drop, !length_take, length_drop. unfold cut, piece_of. rewrite fmap_app, !fmap_take, !fmap_drop, drop_drop. split_and!; [done|lia|lia|done|done].
Qed.

Lemma runs_delete_subrange k start num w a :
  agrees w a -> exists_field k a -> (start + num <= length (values k a))%nat -> runs (ODeleteSubrange k start num) w a.
Proof.
  intros Ha Hx Hl. apply plain_call; [done|done|]. intros f live spare rest h HO Ev Hc. rewrite Ev in Hl.
  destruct (range_known live start num Hl) as (live1 & mid & live2 & -> & <- & <- & Ec & _).
  destruct (delete_subrange_spec f live1 mid live2 spare rest h HO) as (f' & kept & h' & E & HO' & A & Hk). by exists f', (live1 ++ live2), spare, kept, h'.
Qed.

Lemma zip_cells arena (qs : list (Z * T)) : zip qs.*1 (mkObj arena <$> qs.*2) = cells arena qs.
Proof. induction qs as [|[q x] qs IH]; [done|]. exact (f_equal (cons (q, mkObj arena x)) IH). Qed.

Lemma runs_extract_subrange k start num w a :
  agrees w a -> exists_field k a -> (start + num <= length (values k a))%nat -> runs (OExtractSubrange k start num) w a.
Proof.
  intros Ha Hx Hl. apply (one_call k w a _ (fun ret => account (OExtractSubrange k start num) ret a) Ha Hx). intros f live spare rest _ Ea HO.
  unfold values in Hl. rewrite Ea in Hl. destruct (range_known live start num Hl) as (live1 & mid & live2 & -> & <- & <- & Ec & Ep).
  destruct (extract_subrange_spec f live1 mid live2 spare _ _ HO) as (qs & f' & kept & h' & E & HO' & A & Eq & Hk).
  exists qs.*1, f', (live1 ++ live2), spare, (cells 0 qs), (a_mine a), kept, h'. split; [exact E|].
  split; [eapply own_rest; [|exact HO']; solve_Permutation|]. split; [done|]. split; [done|].
  unfold account, receive, update, values. rewrite Ea. simpl. by rewrite Ec, Ep, <- Eq, zip_cells.
Qed.

Lemma runs_unsafe_extract k start num w a :
  agrees w a -> exists_field k a -> (start + num <= length (values k a))%nat -> runs (OUnsafeArenaExtractSubrange k start num) w a.
Proof.
  intros Ha Hx Hl. apply (one_call k w a _ (fun ret => account (OUnsafeArenaExtractSubrange k start num) ret a) Ha Hx). intros f live spare rest _ Ea (HR & HC & HH).
  unfold values in Hl. rewrite Ea in Hl. destruct (range_known live start num Hl) as (live1 & mid & live2 & -> & <- & <- & Ec & Ep).
  destruct (extract_spec f live1 mid live2 spare HR) as (f' & E & HR' & A). rewrite E. cbn [obind].
  exists mid.*1, f', (live1 ++ live2), spare, (cells (pf_arena f) mid), (a_mine a), [], (w_heap w). split; [done|].
  split; [|split; [done|split; [by constructor|unfold account, receive, update, values, home; rewrite Ea; simpl; by rewrite Ec, Ep, zip_cells]]].
  split; [done|]. split; [done|]. rewrite A. eapply holds_any; [|exact HH]. piece.
Qed.

(** ** Calls on two fields *)

Lemma update_known k (g : list T -> list T) a : update k g a = update k (fun _ => g (values k a)) a.
Proof. unfold update, values. by destruct (a_fields a !! k) as [[arena vs]|]. Qed.

Lemma update_keep k a : update k (fun _ => values k a) a = a.
Proof.
  unfold update, values. destruct (a_fields a !! k) as [[arena vs]|] eqn:E; [|done]. simpl. rewrite list_insert_id by done. by destruct a.
Qed.

Lemma two_call k j w a act vs1 vs2 :
  agrees w a -> exists_field k a -> exists_field j a -> k <> j ->
  (forall f live spare g glive gspare rest h, both f live spare g glive gspare rest h ->
     values k a = live.*2 -> values j a = glive.*2 -> home k a = pf_arena f -> home j a = pf_arena g ->
     exists f' live' spare' g' glive' gspare' kept h', act f g h = Ret (f', g', h') /\
       both f' live' spare' g' glive' gspare' (kept ++ rest) h' /\ pf_arena f' = pf_arena f /\ pf_arena g' = pf_arena g /\ on_arena kept /\
       live'.*2 = vs1 /\ glive'.*2 = vs2) ->
  exists ret w', on_fields k j w act = Ret (ret, w') /\ agrees w' (update k (fun _ => vs1) (update j (fun _ => vs2) a)).
Proof.
  intros Ha Hk Hj Hn Hcall.
  destruct (on_two k j w a Ha Hk Hj Hn) as (f & live & spare & g & glive & gspare & rest & Ef & Eg & Eaf & Eag & HB & Hback).
  destruct (Hcall _ _ _ _ _ _ _ _ HB) as (f' & live' & spare' & g' & glive' & gspare' & kept & h' & E & HB' & A1 & A2 & Hkept & <- & <-);
    [unfold values, home; by rewrite ?Eaf, ?Eag..|].
  unfold on_fields. rewrite Ef, Eg, E. cbn [obind]. eexists _, _. split; [done|].
  unfold update. rewrite Eag. simpl. rewrite list_lookup_insert_ne, Eaf by done. by eapply Hback.
Qed.

(** A field with itself: nothing happens. *)
Lemma same_call k w a act :
  agrees w a -> exists_field k a -> (forall f h, act f f h = Ret (f, f, h)) ->
  exists ret w', on_fields k k w act = Ret (ret, w') /\ agrees w' a.
Proof.
  intros Ha Hx Hact. destruct (on_one k w a Ha Hx) as (f & live & spare & rest & Ef & _). unfold on_fields. rewrite Ef, Hact. cbn [obind].
  rewrite list_insert_insert_eq, list_insert_id by done. eexists _, _. split; [done|]. by destruct w.
Qed.

Lemma runs_merge_from k j w a :
  agrees w a -> exists_field k a -> exists_field j a -> k <> j -> fits (length (values k a) + length (values j a)) -> runs (OMergeFrom k j) w a.
Proof.
  intros Ha Hk Hj Hn Hf. unfold runs. simpl account. rewrite update_known.
  pose proof (two_call k j w a (fun f g h => do (f, h) <- pf_MergeFrom g f h; Ret (f, g, h)) (values k a ++ values j a) (values j a)) as W.
  rewrite update_keep in W. apply W; try done.
  intros f live spare g glive gspare rest h HB Ev Ew _ _. unfold fits in Hf. rewrite Ev, Ew, !length_fmap in Hf.
  destruct (MergeFrom_spec _ _ _ _ _ _ _ _ HB) as (more & spare' & f' & h' & -> & HB' & A & Em).
  { rewrite (proj1 (rep_counts _ _ _ (proj1 (proj1 HB)))), (proj1 (rep_counts _ _ _ (proj1 (proj2 HB)))). lia. }
  cbn [obind]. exists f', (live ++ more), spare', g, glive, gspare, [], h'. rewrite Ev, Ew, fmap_app, Em. split_and!; try done. by constructor.
Qed.

Lemma copy_runs k j w a :
  agrees w a -> exists_field k a -> exists_field j a -> k <> j ->
  exists ret w', on_fields k j w (fun f g h => do (f, h) <- pf_CopyFrom false g f h; Ret (f, g, h)) = Ret (ret, w') /\
    agrees w' (update k (fun _ => values j a) a).
Proof.
  intros Ha Hk Hj Hn. 
  pose proof (two_call k j w a (fun f g h => do (f, h) <- pf_CopyFrom false g f h; Ret (f, g, h)) (values j a) (values j a)) as W.
  rewrite update_keep in W. apply W; try done. intros f live spare g glive gspare rest h HB Ev Ew _ _.
  unfold pf_CopyFrom. destruct (CopyFrom_spec _ _ _ _ _ _ _ _ HB) as (live' & spare' & f' & h' & -> & HB' & A & Em). cbn [obind].
  exists f', live', spare', g, glive, gspare, [], h'. rewrite Ew, Em. split_and!; try done. by constructor.
Qed.

Lemma runs_copy_from k j w a : agrees w a -> exists_field k a -> exists_field j a -> runs (OCopyFrom k j) w a.
Proof.
  intros Ha Hk Hj. unfold runs. simpl. destruct (Nat.eqb_spec k j) as [<-|Hn]; [|by apply copy_runs].
  rewrite update_keep. by apply same_call.
Qed.

Lemma exchange_same k a : exchange k k a = a.
Proof. unfold exchange. by rewrite update_keep, update_keep. Qed.

Lemma swap_runs k j w a :
  agrees w a -> exists_field k a -> exists_field j a -> k <> j -> home k a = home j a ->
  exists ret w', on_fields k j w (fun f g h => let '(f, g) := InternalSwap f g in Ret (f, g, h)) = Ret (ret, w') /\ agrees w' (exchange k j a).
Proof.
  intros Ha Hk Hj Hn Hh. apply two_call; try done. intros f live spare g glive gspare rest h HB Ev Ew Ef Eg.
  pose proof (internal_swap_spec _ _ _ _ _ _ _ _ HB ltac:(congruence)) as HB'. destruct (InternalSwap f g) as [f' g'] eqn:E.
  unfold InternalSwap in E. injection E as <- <-. do 6 eexists. exists [], h. split; [done|]. split; [exact HB'|]. split_and!; try done. by constructor.
Qed.

Lemma runs_swap k j w a : agrees w a -> exists_field k a -> exists_field j a -> runs (OSwap k j) w a.
Proof.
  intros Ha Hk Hj. unfold runs. simpl. destruct (Nat.eqb_spec k j) as [<-|Hn].
  { rewrite exchange_same. by apply same_call. }
  apply two_call; try done. intros f live spare g glive gspare rest h HB Ev Ew _ _. unfold pf_Swap.
  destruct (Swap_spec _ _ _ _ _ _ _ _ HB) as (live' & spare' & f' & glive' & gspare' & g' & kept & h' & -> & HB' & A1 & A2 & E1 & E2 & Hkept).
  exists f', live', spare', g', glive', gspare', kept, h'. rewrite Ev, Ew, E1, E2. by split_and!.
Qed.

Lemma runs_unsafe_swap k j w a : agrees w a -> exists_field k a -> exists_field j a -> home k a = home j a -> runs (OUnsafeArenaSwap k j) w a.
Proof.
  intros Ha Hk Hj Hh. unfold runs. simpl. destruct (Nat.eqb_spec k j) as [<-|Hn]; [|by apply swap_runs].
  rewrite exchange_same. by apply same_call.
Qed.

Lemma on_fields_ext k j w a act act' :
  agrees w a -> exists_field k a -> exists_field j a -> k <> j ->
  (forall f g h, home k a = pf_arena f -> home j a = pf_arena g -> act f g h = act' f g h) -> on_fields k j w act = on_fields k j w act'.
Proof.
  intros Ha Hk Hj Hn He. destruct (on_two k j w a Ha Hk Hj Hn) as (f & live & spare & g & glive & gspare & rest & Ef & Eg & Eaf & Eag & _).
  unfold on_fields. rewrite Ef, Eg. rewrite He; [done|unfold home; by rewrite ?Eaf, ?Eag..].
Qed.

Lemma runs_move_assign k j w a : agrees w a -> exists_field k a -> exists_field j a -> runs (OMoveAssign k j) w a.
Proof.
  intros Ha Hk Hj. unfold runs. simpl. destruct (Nat.eqb_spec k j) as [<-|Hn].
  { rewrite Z.eqb_refl, exchange_same. by apply same_call. }
  unfold pf_move_assign. destruct (Z.eqb_spec (home k a) (home j a)) as [Eh|Eh].
  - rewrite (on_fields_ext k j w a _ (fun f g h => let '(f, g) := InternalSwap f g in Ret (f, g, h))) by
      (try done; intros f g h E1 E2; rewrite <- E1, <- E2, Eh, Z.eqb_refl; done). by apply swap_runs.
  - rewrite (on_fields_ext k j w a _ (fun f g h => do (f, h) <- pf_CopyFrom false g f h; Ret (f, g, h))) by
      (try done; intros f g h E1 E2; rewrite <- E1, <- E2, (proj2 (Z.eqb_neq _ _)) by done; done). by apply copy_runs.
Qed.

(** ** Fields that come and go *)

Lemma runs_destroy k w a : agrees w a -> exists_field k a -> runs (ODestroy k) w a.
Proof.
  intros Ha Hk. destruct (on_one k w a Ha Hk) as (f & live & spare & rest & Ef & _ & HO & _ & Hback).
  destruct (destroy_spec f live spare _ _ HO) as (h' & E & HH'). unfold runs, step. rewrite Ef, E. cbn [obind].
  eexists _, _. split; [done|]. eapply Hback; [exact HH'|].
  destruct (Z.eqb_spec (pf_arena f) 0); [by constructor|by apply on_arena_cells].
Qed.

Lemma insert_behind {A} (l : list A) j n x y : (j < length l)%nat -> <[length l := x]> (<[j := y]> (l ++ [n])) = <[j := y]> l ++ [x].
Proof. intros Hj. rewrite insert_app_l, insert_app_r_alt by (rewrite ?length_insert; lia). by rewrite length_insert, Nat.sub_diag. Qed.

(** A new field that takes what another has. *)
Lemma new_from arena j w a act vs1 vs2 :
  agrees w a -> exists_field j a ->
  (forall f g glive gspare rest h, both f [] [] g glive gspare rest h -> f = PtrField_new arena -> values j a = glive.*2 -> home j a = pf_arena g ->
     exists f' live' spare' g' glive' gspare' kept h', act f g h = Ret (f', g', h') /\
       both f' live' spare' g' glive' gspare' (kept ++ rest) h' /\ pf_arena f' = pf_arena f /\ pf_arena g' = pf_arena g /\ on_arena kept /\
       live'.*2 = vs1 /\ glive'.*2 = vs2) ->
  exists g f' g' h', w_fields w !! j = Some g /\ home j a = pf_arena g /\ act (PtrField_new arena) g (w_heap w) = Ret (f', g', h') /\
    agrees (mkWorld (<[j := g']> (w_fields w) ++ [f']) h')
      (mkAccount (a_fields (update j (fun _ => vs2) a) ++ [(arena, vs1)]) (a_mine a)).
Proof.
  intros Ha Hj Hcall. set (k := length (a_fields a)). unfold exists_field in Hj.
  assert (Ek : length (w_fields w) = k) by (destruct Ha as (parts & _ & E1 & E2 & _); unfold k; by rewrite E1, E2, !length_fmap).
  set (w1 := mkWorld (w_fields w ++ [PtrField_new arena]) (w_heap w)). set (a1 := mkAccount (a_fields a ++ [(arena, [])]) (a_mine a)).
  assert (Hl1 : w_fields w1 !! k = Some (PtrField_new arena)) by (simpl; rewrite <- Ek; by apply list_lookup_middle).
  destruct (on_two k j w1 a1 (agrees_new arena w a Ha)) as (f & live & spare & g & glive & gspare & rest & Ef & Eg & Eaf & Eag & HB & Hback).
  1, 2: unfold exists_field; simpl; rewrite length_app; simpl; lia.
  { unfold k. lia. }
  rewrite Hl1 in Ef. injection Ef as <-. unfold a1 in Eag; simpl in Eg, Eag. rewrite lookup_app_l in Eg by lia. rewrite lookup_app_l in Eag by lia.
  assert (live = [] /\ spare = []) as [-> ->].
  { destruct HB as ((HR & _) & _). apply view_of_rep in HR. inversion HR; by subst. }
  destruct (Hcall _ _ _ _ _ _ HB) as (f' & live' & spare' & g' & glive' & gspare' & kept & h' & E & HB' & A1 & A2 & Hkept & <- & <-);
    [done|unfold values, home; by rewrite ?Eag..|].
  exists g, f', g', h'. split; [done|]. split; [unfold home; by rewrite Eag|]. split; [done|].
  specialize (Hback _ _ _ _ _ _ _ _ HB' A1 A2 Hkept). simpl in Hback. unfold update. rewrite Eag. simpl.
  rewrite <- Ek, (insert_behind (w_fields w)) in Hback by lia. rewrite Ek in Hback. unfold k in Hback.
  rewrite (insert_behind (a_fields a)) in Hback by lia. exact Hback.
Qed.

Lemma copy_new_runs arena j w a :
  agrees w a -> exists_field j a ->
  exists g f' h', w_fields w !! j = Some g /\ home j a = pf_arena g /\ pf_CopyFrom false g (PtrField_new arena) (w_heap w) = Ret (f', h') /\
    pf_copy_new arena g (w_heap w) = Ret (f', h') /\
    agrees (mkWorld (w_fields w ++ [f']) h') (mkAccount (a_fields a ++ [(arena, values j a)]) (a_mine a)).
Proof.
  intros Ha Hj. destruct (new_from arena j w a (fun f g h => do (f, h) <- pf_MergeFrom g f h; Ret (f, g, h)) (values j a) (values j a) Ha Hj)
    as (g & f' & g' & h' & Eg & Eh & E & Hag).
  - intros f g glive gspare rest h HB -> Ev _. destruct (MergeFrom_spec _ _ _ _ _ _ _ _ HB) as (more & spare' & f' & h' & -> & HB' & A & Em).
    { pose proof (rep_counts _ _ _ (proj1 (proj2 HB))). simpl. lia. }
    cbn [obind]. exists f', more, spare', g, glive, gspare, [], h'. rewrite Ev, Em. split_and!; try done. by constructor.
  - rewrite update_keep in Hag. destruct (pf_MergeFrom g (PtrField_new arena) (w_heap w)) as [[f1 h1]| |] eqn:EM; try discriminate E.
    cbn [obind] in E. injection E as -> <- ->. rewrite list_insert_id in Hag by done. by exists g, f', h'.
Qed.

Lemma runs_copy_new arena j w a : agrees w a -> exists_field j a -> runs (OCopyNew arena j) w a.
Proof.
  intros Ha Hj. destruct (copy_new_runs arena j w a Ha Hj) as (g & f & h & Eg & _ & _ & E & Hag). unfold runs, step. rewrite Eg, E. cbn [obind].
  eexists _, _. split; [done|]. exact Hag.
Qed.

Lemma runs_move_new j w a : agrees w a -> exists_field j a -> runs (OMoveNew j) w a.
Proof.
  intros Ha Hj. unfold runs, step, account. destruct (Z.eqb_spec (home j a) 0) as [Eh|Eh].
  - destruct (new_from 0 j w a (fun f g h => let '(f, g) := InternalSwap f g in Ret (f, g, h)) (values j a) [] Ha Hj)
      as (g & f' & g' & h' & Eg & Eh' & E & Hag).
    + intros f g glive gspare rest h HB -> Ev Ea. pose proof (internal_swap_spec _ _ _ _ _ _ _ _ HB ltac:(simpl; congruence)) as HB'.
      simpl in HB'. do 6 eexists. exists [], h. split; [done|]. split; [exact HB'|]. split_and!; try done. by constructor.
    + rewrite Eg. unfold pf_move_new. rewrite <- Eh', Eh. cbn [Z.eqb negb]. rewrite E. cbn [obind].
      eexists _, _. split; [done|]. unfold update in Hag |- *. destruct (a_fields a !! j) as [[ar vs]|] eqn:E3; exact Hag.
  - destruct (copy_new_runs 0 j w a Ha Hj) as (g & f & h & Eg & Eh' & E & _ & Hag). rewrite Eg. unfold pf_move_new.
    rewrite <- Eh', (proj2 (Z.eqb_neq _ _)) by done. cbn [negb]. rewrite E. cbn [obind].
    rewrite list_insert_id by done. eexists _, _. split; [done|]. exact Hag.
Qed.

(** ** All calls *)

Lemma enabled_runs op w a : agrees w a -> enabled op w a -> runs op w a.
Proof.
  intros Ha He. destruct op; simpl in He; try by (destruct_and?; eauto using runs_destroy, runs_copy_new, runs_move_new, runs_add,
    runs_add_value, runs_set, runs_add_range, runs_assign, runs_remove_last, runs_clear, runs_reserve, runs_swap_elements, runs_release_last,
    runs_unsafe_release, runs_add_cleared, runs_release_cleared, runs_delete_subrange, runs_extract_subrange, runs_unsafe_extract,
    runs_merge_from, runs_copy_from, runs_swap, runs_unsafe_swap, runs_move_assign).
  - eexists _, _. split; [done|]. by apply agrees_new.
  - destruct He as (? & ? & o & ? & ?). by eapply runs_add_allocated.
  - destruct He as (? & ? & x & ?). by eapply runs_unsafe_add.
  - destruct He as (? & ? & ? & x & ?). by eapply runs_for_parse.
Qed.

Lemma reachable_agrees w a : reachable w a -> agrees w a.
Proof.
  induction 1 as [|p arena x w a _ IH ->|p x w a _ IH Hp|op ret w' w a _ IH He E].
  - exists [], []. split_and!; try done; [by constructor|]. simpl. rewrite map_to_list_empty. split_and!; [constructor..|done].
  - destruct IH as (parts & kept & Ef & Ea & Hok & Hk & HH). exists parts, kept. split_and!; try done. simpl.
    pose proof (holds_new (mkObj arena x) _ _ HH) as HN.
    rewrite map_to_list_insert; [eapply holds_any; [|exact HN]; solve_Permutation|].
    destruct (a_mine a !! malloc (dom (w_heap w))) eqn:E; [|done]. exfalso. apply elem_of_map_to_list, list_elem_of_fmap_2 with (f := fst) in E.
    destruct HN as [HN _]. simpl in HN. apply NoDup_cons in HN as [HN _]. apply HN. rewrite !fmap_app, !elem_of_app. by right; left.
  - destruct IH as (parts & kept & Ef & Ea & Hok & Hk & HH). exists parts, kept. split_and!; try done. simpl.
    rewrite <- (map_to_list_delete _ _ _ Hp) in HH. apply (holds_delete p (mkObj 0 x)). eapply holds_any; [|exact HH]. solve_Permutation.
  - destruct (enabled_runs op w a IH He) as (ret1 & w1 & E1 & Hag). rewrite E in E1. by injection E1 as <- <-.
Qed.

(** What the program can see of a field. *)
Definition shows h f (c : Z * list T) : Prop :=
  pf_GetArena f = c.1 /\ pf_size f = Z.of_nat (length c.2) /\ forall i x, c.2 !! i = Some x -> pf_at (Z.of_nat i) f h = Ret x.

Lemma own_shows f live spare rest h : own f live spare rest h -> shows h f (pf_arena f, live.*2).
Proof.
  intros HO. pose proof (proj1 (rep_counts _ _ _ (proj1 HO))) as Hc. split; [done|]. split; [simpl; by rewrite length_fmap|].
  intros i x Hi. simpl in Hi. pose proof (lookup_lt_Some _ _ _ Hi) as Hl. rewrite length_fmap in Hl. rewrite list_lookup_fmap_Some in Hi.
  destruct Hi as ([p y] & -> & Hi). unfold pf_at. rewrite (proj2 (Z.ltb_ge _ _)), (proj2 (Z.leb_gt _ _)) by lia.
  apply (Get_spec _ _ _ _ _ _ _ HO Hi).
Qed.

Lemma agrees_shows w a : agrees w a -> Forall2 (shows (w_heap w)) (w_fields w) (a_fields a).
Proof.
  intros (parts & kept & Ef & Ea & Hok & Hk & HH). rewrite Ef, Ea. apply Forall2_fmap_l, Forall2_fmap_r, Forall_Forall2_diag, Forall_lookup.
  intros k d Hd. rewrite (parts_at _ _ _ Hd), <- app_assoc in HH. rewrite Forall_lookup in Hok. destruct d as [f live spare].
  eapply (own_shows f live spare), own_part. split; [by eapply Hok|exact HH].
Qed.

(** Every pointer that someone has to free, or that a field uses. *)
Definition owned w a : list Z := (map_to_list (a_mine a)).*1 ++ (w_fields w ≫= allocated).

Lemma allocated_cells parts : Forall part_ok parts -> (parts ≫= part_cells).*1 = (pt_field <$> parts) ≫= allocated.
Proof.
  induction 1 as [|d parts [HR _] _ IH]; [done|].
  rewrite fmap_cons, !bind_cons, fmap_app, IH. f_equal. unfold part_cells. rewrite cells_fst, fmap_app.
  symmetry. apply HR.
Qed.

Lemma agrees_owned w a :
  agrees w a -> a_mine a ⊆ w_heap w /\ NoDup (owned w a) /\
  forall p o, w_heap w !! p = Some o -> o_home o = 0 -> p ∈ owned w a.
Proof.
  intros (parts & kept & Ef & Ea & Hok & Hk & Hnd & _ & Eh). unfold owned. rewrite Ef, <- allocated_cells by done.
  split; [|split].
  - apply map_subseteq_spec. intros p o Hp. rewrite Eh. apply elem_of_list_to_map; [done|]. rewrite !elem_of_app. right; left. by apply elem_of_map_to_list.
  - rewrite app_assoc, fmap_app, NoDup_app in Hnd. destruct Hnd as (Hnd & _). rewrite fmap_app in Hnd. by rewrite (Permutation_app_comm _ _).
  - intros p o Hp Ho. rewrite Eh in Hp. apply elem_of_list_to_map in Hp; [|done]. rewrite !elem_of_app in *.
    destruct Hp as [Hp|[Hp|Hp]]; [right|left|exfalso; unfold on_arena in Hk; rewrite Forall_forall in Hk; by apply (Hk _ Hp)];
      apply list_elem_of_fmap; by exists (p, o).
Qed.

(** C32: repeated strings and messages are used safely and own their elements.
    Whatever calls the program makes within the header's rules - adding,
    setting, removing, clearing, merging, copying, swapping and moving between
    fields on any arenas, handing objects over and taking them back - no call
    is undefined; each field has exactly the values a list would have; no
    object belongs to two owners, and every object of the heap that has not
    been freed belongs to the program or to one field, in use or cleared. *)
Theorem ptr_field_owns w a :
  reachable w a ->
  Forall2 (shows (w_heap w)) (w_fields w) (a_fields a) /\
  a_mine a ⊆ w_heap w /\ NoDup (owned w a) /\
  (forall p o, w_heap w !! p = Some o -> o_home o = 0 -> p ∈ owned w a) /\
  forall op, enabled op w a -> exists ret w', step op w = Ret (ret, w').
Proof.
  intros Hr. pose proof (reachable_agrees w a Hr) as Ha. split; [by apply agrees_shows|].
  destruct (agrees_owned w a Ha) as (H1' & H2' & H3'). split_and!; [done..|]. intros op He.
  destruct (enabled_runs op w a Ha He) as (ret & w' & E & _). by exists ret, w'.
Qed.
End agreement.

(** ** The functions defined elsewhere, for one *)

Section simple.
Context {T : Type} `{Handler T} `{Malloc}.
Implicit Types (h : Objs T) (p : Z) (x : T) (live spare : list (Z * T)) (rest : list (Z * Obj T)).

Definition simple_extend (n : Z) f : outcome PtrField :=
  Ret (mkPtr (Rep (allocated_size f) (pf_elements f ++ replicate (Z.to_nat n) 0)) (pf_current f) (pf_total f + n) (pf_arena f)).
Definition simple_reserve (n : Z) f : outcome PtrField := if pf_total f <? n then simple_extend (n - pf_total f) f else Ret f.
Definition simple_close (start num : Z) f : outcome PtrField :=
  Ret (mkPtr (match pf_store f with
              | Sso _ => Sso 0
              | Rep a slots => Rep (a - num) (take (Z.to_nat start) slots ++ drop (Z.to_nat (start + num)) slots ++ replicate (Z.to_nat num) 0)
              end) (pf_current f - num) (pf_total f) (pf_arena f)).
Definition simple_add p f : outcome PtrField :=
  do f <- (if allocated_size f =? pf_total f then simple_extend 1 f else Ret f);
  do f <- put_next p f; bump_allocated f.
Definition simple_new f h : outcome (Z * PtrField * Objs T) :=
  if pf_current f <? allocated_size f then do (p, f) <- take_next f; Ret (p, f, h)
  else let '(p, h) := hd_New (pf_arena f) h in do f <- simple_add p f; Ret (p, f, h).
Definition simple_merge from f h : outcome (PtrField * Objs T) :=
  ofold (fun q '(f, h) =>
    do x <- load q h; do (p, f, h) <- simple_new f h; do h <- modify (hd_Merge x) p h; Ret (f, h))
    (take (Z.to_nat (pf_current from)) (pf_elements from)) (f, h).
Definition simple_destroy f h : outcome (Objs T) := ofold (fun p h => hd_Delete p 0 h) (allocated f) h.

Lemma simple_extend_spec n f :
  shape_ok f -> 0 < n -> pf_total f + n <= int_max ->
  exists f', simple_extend n f = Ret f' /\ same_elements f f' /\ pf_total f + n <= pf_total f'.
Proof.
  intros (Hc & Ht & Hl & Hn) Hp Hm. eexists. split; [done|]. split; [|simpl; lia].
  assert (E : take (Z.to_nat (allocated_size f)) (pf_elements f ++ replicate (Z.to_nat n) 0) = allocated f) by (by rewrite take_app_le by lia).
  split; [split; [|split; [|split]]|split; [exact E|split_and!; [done|done|simpl; lia|done]]].
  - done.
  - unfold allocated_size at 1. simpl. lia.
  - unfold pf_elements at 1. cbn [pf_store pf_total]. rewrite length_app, length_replicate. lia.
  - change (Forall (fun p => p <> 0) (take (Z.to_nat (allocated_size f)) (pf_elements f ++ replicate (Z.to_nat n) 0))). by rewrite E.
Qed.

Lemma simple_reserve_spec n f :
  shape_ok f -> n <= int_max -> exists f', simple_reserve n f = Ret f' /\ same_elements f f' /\ n <= pf_total f'.
Proof.
  intros Hs Hn. unfold simple_reserve. destruct (Z.ltb_spec (pf_total f) n) as [E|E].
  - destruct (simple_extend_spec (n - pf_total f) f Hs) as (f' & -> & Hsame & Ht); [lia..|]. exists f'. split_and!; (done || lia).
  - exists f. split_and!; (done || lia).
Qed.

Lemma simple_close_spec start num f :
  shape_ok f -> 0 <= start -> 0 < num -> start + num <= pf_current f ->
  exists f', simple_close start num f = Ret f' /\ shape_ok f' /\
    allocated f' = take (Z.to_nat start) (allocated f) ++ drop (Z.to_nat (start + num)) (allocated f) /\
    pf_current f' = pf_current f - num /\ pf_total f' = pf_total f /\ pf_arena f' = pf_arena f.
Proof.
  intros (Hc & Ht & Hl & Hn) Hs Hp Hm. eexists. split; [done|].
  destruct f as [[e|a slots] cur total arena]; unfold shape_ok, allocated, allocated_size, pf_elements in *; simpl in *.
  - assert (e <> 0) by (intros ->; simpl in *; lia). rewrite (proj2 (Z.eqb_neq _ _)) in * by done.
    assert (start = 0 /\ num = 1) as [-> ->] by lia. simpl. split_and!; (lia || done || by constructor).
  - rewrite !length_app, length_take, length_drop, length_replicate.
    assert (Ea : take (Z.to_nat (a - num)) (take (Z.to_nat start) slots ++ drop (Z.to_nat (start + num)) slots ++ replicate (Z.to_nat num) 0) =
      take (Z.to_nat start) (take (Z.to_nat a) slots) ++ drop (Z.to_nat (start + num)) (take (Z.to_nat a) slots)).
    { rewrite take_app_ge by (rewrite length_take; lia). rewrite length_take, Nat.min_l by lia. rewrite take_app_le by (rewrite length_drop; lia).
      rewrite take_take, Nat.min_l, take_drop_commute by lia. do 2 f_equal. f_equal. lia. }
    rewrite Ea. split_and!; try lia; try done. apply Forall_app. split; [by apply Forall_take|by apply Forall_drop].
Qed.

Lemma simple_add_spec p x f live :
  rep f live [] -> p <> 0 -> pf_current f < int_max ->
  exists f', simple_add p f = Ret f' /\ rep f' (live ++ [(p, x)]) [] /\ pf_arena f' = pf_arena f /\ pf_total f <= pf_total f'.
Proof.
  intros HR Hp Hm. pose proof (rep_counts _ _ _ HR) as (Hc & Ha & Hb). rewrite Nat.add_0_r in Ha. unfold simple_add.
  destruct (Z.eqb_spec (allocated_size f) (pf_total f)) as [E|E].
  - destruct (simple_extend_spec 1 f (proj1 HR)) as (f1 & -> & Hs & Ht); [lia..|]. cbn [obind].
    pose proof (same_elements_rep _ _ _ _ HR Hs) as HR1. destruct (rep_counts _ _ _ HR1) as (_ & Ha1 & _).
    destruct (put_bump_spec f1 live p x HR1) as (f' & E' & _ & HR' & A & T'); [unfold roomy; simpl in Ha1; lia|done|].
    exists f'. rewrite E', A, T'. destruct Hs as (_ & _ & _ & A1 & _). split_and!; (done || lia).
  - destruct (put_bump_spec f live p x HR) as (f' & E' & _ & HR' & A & T'); [unfold roomy; lia|done|]. exists f'. cbn [obind].
    rewrite E', A, T'. split_and!; (done || lia).
Qed.

Lemma simple_new_spec f live spare rest h :
  rep f live spare -> holds (cells (pf_arena f) (live ++ spare) ++ rest) h ->
  Forall (fun c => c.2 = hd_new) spare -> pf_current f < int_max ->
  exists p f' h' spare', simple_new f h = Ret (p, f', h') /\
    rep f' (live ++ [(p, hd_new)]) spare' /\ pf_arena f' = pf_arena f /\
    Forall (fun c => c.2 = hd_new) spare' /\
    holds (cells (pf_arena f) ((live ++ [(p, hd_new)]) ++ spare') ++ rest) h'.
Proof.
  intros HR HH HC Hm. pose proof (rep_counts _ _ _ HR) as (Hc & Ha & _). unfold simple_new. destruct spare as [|[p y] spare].
  - rewrite (proj2 (Z.ltb_ge _ _)) by (rewrite Hc, Ha; simpl; lia). unfold hd_New, hd_New_value.
    set (q := malloc (dom h)). assert (Hq : q <> 0) by (unfold q; destruct (malloc_aligned (dom h)); lia).
    destruct (simple_add_spec q hd_new f live HR Hq Hm) as (f' & -> & HR' & A & _). cbn [obind].
    exists q, f', (<[q := mkObj (pf_arena f) hd_new]> h), []. split_and!; try done.
    apply (holds_any ((q, mkObj (pf_arena f) hd_new) :: cells (pf_arena f) (live ++ []) ++ rest)); [piece|]. by apply holds_new.
  - rewrite (proj2 (Z.ltb_lt _ _)) by (rewrite Hc, Ha; simpl; lia). inversion HC as [|? ? Hy HC']; simpl in Hy; subst y.
    destruct (take_next_spec f live p hd_new spare HR) as (f' & -> & HR' & A & _). cbn [obind].
    exists p, f', h, spare. split_and!; try done. eapply holds_any; [|exact HH]. piece.
Qed.

Lemma simple_destroy_spec f live spare rest h :
  rep f live spare -> pf_arena f = 0 -> holds (cells 0 (live ++ spare) ++ rest) h -> exists h', simple_destroy f h = Ret h' /\ holds rest h'.
Proof. intros HR _ HH. unfold simple_destroy. rewrite (proj1 (proj2 HR)), <- fmap_app. by apply delete_loop. Qed.

Lemma simple_merge_loop arena (cs : list (Z * T)) f live spare rest h :
  own f live spare (cells arena cs ++ rest) h -> pf_current f + Z.of_nat (length cs) <= int_max ->
  exists more spare' f' h',
    ofold (fun q '(f, h) => do x <- load q h; do (p, f, h) <- simple_new f h; do h <- modify (hd_Merge x) p h; Ret (f, h)) cs.*1 (f, h) = Ret (f', h') /\
    own f' (live ++ more) spare' (cells arena cs ++ rest) h' /\ pf_arena f' = pf_arena f /\ more.*2 = cs.*2.
Proof.
  revert f live spare rest h. induction cs as [|[q x] cs IH]; intros f live spare rest h HO Hm.
  { exists [], spare, f, h. rewrite app_nil_r. by split_and!. }
  rewrite fmap_cons. cbn [ofold fst].
  assert (Hq : load q h = Ret x).
  { destruct HO as (_ & _ & HH). assert (HH' : holds ((q, mkObj arena x) :: cells (pf_arena f) (live ++ spare) ++ cells arena cs ++ rest) h)
      by (eapply holds_any; [|exact HH]; piece). unfold load. by rewrite (holds_lookup _ _ _ _ HH'). }
  rewrite Hq. cbn [obind]. pose proof HO as (HR & HC & HH).
  destruct (simple_new_spec f live spare _ h HR HH HC) as (p & f1 & h1 & spare1 & -> & HR1 & A1 & HC1 & HH1); [simpl in Hm; lia|]. cbn [obind].
  rewrite <- A1 in HH1. destruct (own_modify f1 live p hd_new [] spare1 _ h1 (hd_Merge x) (conj HR1 (conj HC1 HH1))) as (_ & h2 & -> & HO2).
  cbn [obind]. rewrite hd_merge_new in HO2. pose proof (proj1 (rep_counts _ _ _ HR)) as Hc. pose proof (proj1 (rep_counts _ _ _ (proj1 HO2))) as Hc2.
  rewrite length_app in Hc2.
  destruct (IH f1 (live ++ [(p, x)]) spare1 ((q, mkObj arena x) :: rest) h2) as (more & spare' & f' & h' & -> & HO' & A' & Ev);
    [eapply own_rest; [|exact HO2]; piece|simpl in *; lia|].
  exists ((p, x) :: more), spare', f', h'. split; [done|]. rewrite <- app_assoc in HO'. split; [eapply own_rest; [|exact HO']; piece|].
  split; [congruence|]. by rewrite !fmap_cons, Ev.
Qed.

Lemma simple_merge_spec f live spare g glive gspare rest h :
  rep f live spare -> rep g glive gspare ->
  holds (cells (pf_arena f) (live ++ spare) ++ cells (pf_arena g) (glive ++ gspare) ++ rest) h ->
  Forall (fun c => c.2 = hd_new) spare -> pf_current f + pf_current g <= int_max ->
  exists more spare' f' h', simple_merge g f h = Ret (f', h') /\
    rep f' (live ++ more) spare' /\ pf_arena f' = pf_arena f /\ more.*2 = glive.*2 /\ Forall (fun c => c.2 = hd_new) spare' /\
    holds (cells (pf_arena f) ((live ++ more) ++ spare') ++ cells (pf_arena g) (glive ++ gspare) ++ rest) h'.
Proof.
  intros HR HRg HH HC Hm. pose proof (proj1 (rep_counts _ _ _ HRg)) as Hcg. rewrite Hcg in Hm. unfold simple_merge.
  destruct (elements_split _ _ _ HRg) as (junk & ->). rewrite Hcg, Nat2Z.id, <- (length_fmap fst glive), take_app_length.
  destruct (simple_merge_loop (pf_arena g) glive f live spare (cells (pf_arena g) gspare ++ rest) h) as (more & spare' & f' & h' & E & (HR' & HC' & HH') & A & Ev).
  - split; [done|]. split; [done|]. eapply holds_any; [|exact HH]. piece.
  - done.
  - exists more, spare', f', h'. split_and!; try done. rewrite <- A. eapply holds_any; [|exact HH']. piece.
Qed.

Lemma simple_add_pointer p f :
  shape_ok f -> p <> 0 -> pf_current f = allocated_size f -> pf_current f < int_max ->
  exists f', simple_add p f = Ret f' /\ shape_ok f' /\ allocated f' = allocated f ++ [p] /\
    pf_current f' = pf_current f + 1 /\ pf_arena f' = pf_arena f /\ pf_total f <= pf_total f'.
Proof.
  intros Hs Hp Hc Hm.
  assert (HR : rep f ((fun q => (q, hd_new)) <$> allocated f) []).
  { split; [done|]. rewrite <- list_fmap_compose. split; [simpl; by rewrite app_nil_r, list_fmap_id|]. rewrite length_fmap. unfold allocated.
    rewrite length_take. destruct Hs as (? & ? & ? & _). lia. }
  destruct (simple_add_spec p hd_new f _ HR Hp Hm) as (f' & E & (Hs' & Ea & Ec) & A & Ht). exists f'.
  rewrite fmap_app, <- list_fmap_compose in Ea. simpl in Ea. rewrite app_nil_r, list_fmap_id in Ea.
  split_and!; try done. rewrite Ec, length_app, length_fmap. simpl. destruct HR as (_ & _ & Hc'). rewrite length_fmap in Hc'. lia.
Qed.

Definition simple_out : PtrFieldOut T := {|
  InternalExtend := simple_extend;
  out_Reserve := simple_reserve;
  CloseGap := simple_close;
  AddOutOfLineHelper := fun p f => simple_add p f;
  AddOutOfLineHelper_factory := simple_new;
  MergeFromConcreteMessage := simple_merge;
  DestroyProtos := simple_destroy;
  InternalExtend_spec := simple_extend_spec;
  out_Reserve_spec := simple_reserve_spec;
  CloseGap_spec := simple_close_spec;
  AddOutOfLineHelper_spec := simple_add_pointer;
  AddOutOfLineHelper_factory_spec := simple_new_spec;
  MergeFromConcreteMessage_spec := simple_merge_spec;
  DestroyProtos_spec := simple_destroy_spec;
|}.
End simple.


(** ** An example *)

Module Toy_fields.

(** Messages that are lists of numbers; merging appends. *)
#[global] Instance toy_handler : Handler (list Z).
Proof.
  refine {| hd_new := []; hd_Clear := fun _ => []; hd_Merge from to := to ++ from; hd_message := true |}; [done|done].
Defined.

#[global] Instance toy_out : PtrFieldOut (list Z) := simple_out.

Definition State : Type := World (list Z) * Account (list Z).

Definition after (op : Op (list Z)) (s : State) : State :=
  match step op s.1 with Ret (ret, w) => (w, account op ret s.2) | _ => s end.

Lemma reach_after op (s : State) :
  reachable s.1 s.2 -> enabled op s.1 s.2 -> match step op s.1 with Ret _ => true | _ => false end = true ->
  reachable (after op s).1 (after op s).2.
Proof.
  intros Hr He Hs. unfold after. destruct (step op s.1) as [[ret w]| |] eqn:E; try discriminate Hs. by eapply r_step.
Qed.

(** A field on the heap and one on arena 7; elements are added, merged over,
    taken back and handed to the other. *)
Definition s0 : State := (mkWorld [] ∅, mkAccount [] ∅).
Definition s1 : State := after (ONew 7) (after (ONew 0) s0).
Definition s2 : State := after (OAddRange 0 true [[1]; [2; 3]; [4]]) s1.
Definition s3 : State := after (OMergeFrom 1 0) s2.
Definition s4 : State := after (OReleaseLast 0) s3.
Definition given_back : Z := hd 0 (map_to_list (a_mine s4.2)).*1.
Definition s5 : State := after (OAddAllocated 1 given_back) s4.
Definition s6 : State := after (OSwap 0 1) (after (ODeleteSubrange 1 1 1) s5).

#[local] Ltac arrive :=
  lazymatch goal with
  | |- reachable (after _ _).1 _ => apply reach_after; [arrive| |vm_compute; reflexivity]
  | |- _ => apply r_start
  end.
#[local] Ltac ground :=
  first [exact I | by (vm_compute; lia) | by (vm_compute; discriminate) | lazymatch goal with |- _ /\ _ => split; ground end | idtac].

Lemma s6_reachable : reachable s6.1 s6.2.
Proof.
  unfold s6, s5, s4, s3, s2, s1.
  arrive; cbn [enabled]; ground. eexists. split; [vm_compute; reflexivity|done].
Qed.

Lemma ptr_field_owns_witness :
  reachable s6.1 s6.2 /\ a_fields s6.2 = [(0, [[1]; [4]; [4]]); (7, [[1]; [2; 3]])] /\
  Forall2 (shows (w_heap s6.1)) (w_fields s6.1) (a_fields s6.2) /\ NoDup (owned s6.1 s6.2) /\
  exists ret w', step (ODestroy 1) s6.1 = Ret (ret, w').
Proof.
  pose proof (ptr_field_owns s6.1 s6.2 s6_reachable) as (Hs & _ & Hn & _ & He).
  split; [exact s6_reachable|]. split; [vm_compute; reflexivity|]. split; [exact Hs|]. split; [exact Hn|].
  apply He. vm_compute. lia.
Defined.
End Toy_fields.
