(* ===== verification/Process.v ===== *)
(** * Child processes ([daemon/Process.h], [daemon/Process.cpp])

    The repository's copy of the process class.  The Win32 calls are
    parameters: what [CreateProcessW] answers, and what exit code the system
    reports for a handle.  The file also provides the instances of
    [ExitCodes] and [ProcessOps] through which the other components see it. *)

From Stdlib Require Import String.
From S2P Require Import Prelude CxxStd External.
Local Open Scope string_scope.
Local Open Scope Z_scope.

Inductive LaunchMode := NewConsole | InheritConsole | NoConsole.

Inductive ExitCodeResult := R_NoInit | R_NotStarted | R_StillRunning | R_Exited.

Definition ExitCodeResult_value (r : ExitCodeResult) : Z :=
  match r with
  | R_NoInit => -100
  | R_NotStarted => -2
  | R_StillRunning => -1
  | R_Exited => 0
  end.

#[export] Instance ExitCodeResult_eq_dec : EqDecision ExitCodeResult.
Proof. solve_decision. Defined.

Record PROCESS_INFORMATION := mkPI {
  hProcess : Z;
  hThread : Z;
  dwProcessId : Z;
  dwThreadId : Z;
}.

(** [memset(&m_processInfo, 0, sizeof)]. *)
Definition PI_zero : PROCESS_INFORMATION := mkPI 0 0 0 0.

Record AppObject := mkApp {
  m_processInfo : PROCESS_INFORMATION;
  m_nativePath : string;
  m_commandLine : string;
  m_workingDirectory : string;
  m_launchMode : LaunchMode;
  m_success : bool;
  m_loggingContext : string;
}.

Definition AppObject_new (nativePath commandLine : string) (workingDirectory : option string)
    (launchMode : LaunchMode) : AppObject :=
  mkApp PI_zero nativePath commandLine (default "" workingDirectory) launchMode false "".

Definition getLoggingContext (a : AppObject) : string := m_loggingContext a.
Definition setLoggingContext (str : string) (a : AppObject) : AppObject :=
  mkApp (m_processInfo a) (m_nativePath a) (m_commandLine a) (m_workingDirectory a)
    (m_launchMode a) (m_success a) str.
Definition getCommandLine (a : AppObject) : string := m_commandLine a.
Definition setCommandLine (str : string) (a : AppObject) : AppObject :=
  mkApp (m_processInfo a) (m_nativePath a) str (m_workingDirectory a)
    (m_launchMode a) (m_success a) (m_loggingContext a).

(** Win32 constants. *)
Definition CREATE_NEW_CONSOLE : Z := 0x10.
Definition CREATE_NEW_PROCESS_GROUP : Z := 0x200.
Definition CREATE_NO_WINDOW : Z := 0x08000000.
Definition STILL_ACTIVE : Z := 259.

Definition launch_flags (mode : LaunchMode) : Z :=
  match mode with
  | NewConsole => Z.lor CREATE_NEW_CONSOLE CREATE_NEW_PROCESS_GROUP
  | InheritConsole => CREATE_NEW_PROCESS_GROUP
  | NoConsole => CREATE_NO_WINDOW
  end.

(** An observable call into the operating system. *)
Inductive os_call := CloseHandle (h : Z) | TerminateProcess (h code : Z).

#[export] Instance os_call_eq_dec : EqDecision os_call.
Proof. solve_decision. Defined.

Section process.
Context {wstring : Type}.
(** [su::convertUtf8ToWide] and [su::String_format2("\"%s\" %s", ..)]. *)
Context (convertUtf8ToWide : string -> wstring) (format_command : string -> string -> string).
(** [CreateProcessW(path, cmdline, flags, dir)]: the process information, or
    [None] for a failure. *)
Context (CreateProcessW : wstring -> wstring -> Z -> option wstring -> option PROCESS_INFORMATION).
(** [GetExitCodeProcess(handle)]: a [DWORD], or [None] for a failure. *)
Context (GetExitCodeProcess : Z -> option Z).

Definition execute (a : AppObject) : bool * AppObject :=
  let flags := launch_flags (m_launchMode a) in
  let finalCommandLine := format_command (m_nativePath a) (m_commandLine a) in
  let widePath := convertUtf8ToWide (m_nativePath a) in
  let wideCommandLine := convertUtf8ToWide finalCommandLine in
  let pWideDir :=
    if 0 <? str_len (m_workingDirectory a)
    then Some (convertUtf8ToWide (m_workingDirectory a)) else None in
  let a :=
    match CreateProcessW widePath wideCommandLine flags pWideDir with
    | Some info => mkApp info (m_nativePath a) (m_commandLine a) (m_workingDirectory a)
                     (m_launchMode a) true (m_loggingContext a)
    | None => a
    end in
  (m_success a, a).

(** The second component is what is stored in [*exitCodeDest], if anything;
    [dest] tells whether the pointer is non-null. *)
Definition getProcessExitCode (a : AppObject) (dest : bool) : ExitCodeResult * option Z :=
  if m_success a then
    match GetExitCodeProcess (hProcess (m_processInfo a)) with
    | Some ec =>
        if ec =? STILL_ACTIVE then (R_StillRunning, None)
        else (R_Exited, if dest then Some (i32 ec) else None)
    | None => (R_NotStarted, None)
    end
  else (R_NotStarted, None).

Definition isRunning (a : AppObject) : bool :=
  bool_decide ((getProcessExitCode a false).1 = R_StillRunning).

Definition terminate (a : AppObject) : list os_call :=
  if isRunning a then [TerminateProcess (hProcess (m_processInfo a)) 1] else [].

Definition getProcessId (a : AppObject) : Z :=
  if m_success a then dwProcessId (m_processInfo a) else 0.

(** The destructor. *)
Definition AppObject_delete (a : AppObject) : list os_call :=
  if m_success a
  then [CloseHandle (hThread (m_processInfo a)); CloseHandle (hProcess (m_processInfo a))]
  else [].
End process.

(** ** Facts *)

Section process_facts.
Context {wstring : Type}.
Context (convertUtf8ToWide : string -> wstring) (format_command : string -> string -> string).
Context (CreateProcessW : wstring -> wstring -> Z -> option wstring -> option PROCESS_INFORMATION).
Context (GetExitCodeProcess : Z -> option Z).
Abbreviation execute' := (execute convertUtf8ToWide format_command CreateProcessW).
Abbreviation exit_code := (getProcessExitCode GetExitCodeProcess).

Lemma getProcessExitCode_not_NoInit a d : (exit_code a d).1 <> R_NoInit.
Proof. unfold getProcessExitCode. repeat case_match; done. Qed.

(** The life of a process object.  It counts as running exactly while it
    was started and the system reports [STILL_ACTIVE]; [Exited] - the only
    result that stores an exit code - is reported exactly when the system
    reports another code, and that code is stored as a signed 32-bit value;
    in every other case the result is [NotStarted].  [terminate] acts on
    running processes only. *)
Lemma process_status a :
  (isRunning GetExitCodeProcess a = true <->
     m_success a = true /\ GetExitCodeProcess (hProcess (m_processInfo a)) = Some STILL_ACTIVE) /\
  (forall c, exit_code a true = (R_Exited, Some c) <->
     exists ec, m_success a = true /\ GetExitCodeProcess (hProcess (m_processInfo a)) = Some ec /\
                ec <> STILL_ACTIVE /\ c = i32 ec) /\
  (forall d, (exit_code a d).1 = R_NotStarted <->
     m_success a = false \/ GetExitCodeProcess (hProcess (m_processInfo a)) = None) /\
  (terminate GetExitCodeProcess a <> [] <-> isRunning GetExitCodeProcess a = true).
Proof.
  unfold terminate, isRunning, getProcessExitCode.
  destruct (m_success a); [|repeat split; naive_solver].
  destruct (GetExitCodeProcess _) as [ec|]; [|repeat split; naive_solver].
  destruct (Z.eqb_spec ec STILL_ACTIVE); repeat split; naive_solver.
Qed.

(** Handles are released exactly once: the destructor of an object whose
    [execute] succeeded closes the thread and the process handle that
    [CreateProcessW] returned, and the destructor of an object that was never
    started closes nothing. *)
Theorem process_handles nativePath commandLine workingDirectory mode :
  let a := AppObject_new nativePath commandLine workingDirectory mode in
  AppObject_delete a = [] /\ getProcessId a = 0 /\
  match execute' a with
  | (true, a') =>
      exists info,
        CreateProcessW (convertUtf8ToWide nativePath)
          (convertUtf8ToWide (format_command nativePath commandLine)) (launch_flags mode)
          (match workingDirectory with
           | Some d => if 0 <? str_len d then Some (convertUtf8ToWide d) else None
           | None => None end) = Some info /\
        AppObject_delete a' = [CloseHandle (hThread info); CloseHandle (hProcess info)] /\
        getProcessId a' = dwProcessId info
  | (false, a') => a' = a /\ AppObject_delete a' = []
  end.
Proof.
  split; [done|]. split; [done|]. unfold execute. simpl.
  replace (if 0 <? str_len (default "" workingDirectory) then _ else _)
    with (match workingDirectory with
          | Some d => if 0 <? str_len d then Some (convertUtf8ToWide d) else None
          | None => None end) by (by destruct workingDirectory).
  destruct (CreateProcessW _ _ _ _) as [info|]; simpl; [exists info|]; done.
Qed.
End process_facts.

(** A process that ends with exit code 259 cannot be told from a running one. *)
Lemma exit_code_259_looks_running a get :
  m_success a = true -> get (hProcess (m_processInfo a)) = Some 259 ->
  isRunning get a = true /\ getProcessExitCode get a true = (R_StillRunning, None).
Proof. unfold isRunning, getProcessExitCode. by intros -> ->. Qed.

(** ** Instances *)

#[export] Instance process_exit_codes : ExitCodes.
Proof.
  refine {| NoInit := ExitCodeResult_value R_NoInit;
            NotStarted := ExitCodeResult_value R_NotStarted;
            Exited := ExitCodeResult_value R_Exited |}.
  simpl. lia.
Defined.

(** An observation of the system is the exit code of each handle. *)
#[export] Instance app_process_ops : ProcessOps (Z -> option Z) AppObject := {|
  proc_isRunning w a := isRunning w a;
  proc_getExitCode w a :=
    let '(r, c) := getProcessExitCode w a true in (ExitCodeResult_value r, c);
|}.
