(* ===== verification/Projects.v ===== *)
(** * The project registry and the work-time settings ([common/project.cpp])

    [Projects] maps project names to their paths and holds the time window
    with its two load percentages; [getFreeCore] turns the percentage in
    force into the number of tasks a daemon accepts. *)

From Stdlib Require Import QArith String Lqa.
From S2P Require Import Prelude Float32 CxxStd External.
Local Open Scope string_scope.
Local Open Scope Z_scope.

Record Item := mkItem { m_name : string; m_path : string; m_workPath : string }.

Record Projects := mkProjects {
  m_items : gmap string Item;
  m_workBegin : Z;
  m_workEnd : Z;
  m_workBath : f32;
  m_workDefault : f32;
}.

Definition Projects_init : Projects := mkProjects ∅ 0 0 (F_fin 100) (F_fin 100).

Definition set_items v (s : Projects) :=
  mkProjects v (m_workBegin s) (m_workEnd s) (m_workBath s) (m_workDefault s).
Definition set_workBegin v (s : Projects) :=
  mkProjects (m_items s) v (m_workEnd s) (m_workBath s) (m_workDefault s).
Definition set_workEnd v (s : Projects) :=
  mkProjects (m_items s) (m_workBegin s) v (m_workBath s) (m_workDefault s).
Definition set_workBath v (s : Projects) :=
  mkProjects (m_items s) (m_workBegin s) (m_workEnd s) v (m_workDefault s).
Definition set_workDefault v (s : Projects) :=
  mkProjects (m_items s) (m_workBegin s) (m_workEnd s) (m_workBath s) v.

Definition getProject (s : Projects) (prjname : string) : option Item :=
  m_items s !! prjname.

(** [hour] and [min] are [tm_hour] and [tm_min] of the local time. *)
Definition getWorkPercent (hour min : Z) (s : Projects) : f32 :=
  let workNow := hour * 60 + min in
  if m_workBegin s <? m_workEnd s then
    if (m_workBegin s <=? workNow) && (workNow <=? m_workEnd s)
    then m_workBath s else m_workDefault s
  else
    if (m_workBegin s <=? workNow) || (workNow <=? m_workEnd s)
    then m_workBath s else m_workDefault s.

(** [threads] is what [su::ThreadPool::getMaxThreads] returns. *)
Definition getFreeCore (threads hour min : Z) (s : Projects) : outcome Z :=
  let coreReserved := 3 in
  let maxThreads := i32 (threads - coreReserved) in
  let maxThreads := if maxThreads <? 1 then 1 else maxThreads in
  let maxTasksCount :=
    f32_div_lit (f32_mul (f32_of_Z maxThreads) (getWorkPercent hour min s)) 100 in
  f32_to_u32 (f32_add_lit maxTasksCount (1 # 2)).

Section load.
Context `{XmlDom D E} `{StringUtils}.
(** [std::filesystem::absolute] and [XMLDocument::LoadFile] of this host. *)
Context (absolute : string -> string) (LoadFile : string -> option D).

(** One of the two time fields; a missing text is a null [char*] given to
    the constructor of [std::istringstream]. *)
Definition load_minutes (set : Z -> Projects -> Projects) (x : option E)
    (s : Projects) : outcome (bool * Projects) :=
  match x with
  | None => Ret (true, s)
  | Some e =>
      match GetText e with
      | None => UB
      | Some text =>
          match get_time_HM text with
          | None => Ret (false, s)
          | Some (h, m) => Ret (true, set (h * 60 + m) s)
          end
      end
  end.

(** One of the two percentages; [std::atof(nullptr)] is undefined. *)
Definition load_percent (set : f32 -> Projects -> Projects) (x : option E)
    (s : Projects) : outcome Projects :=
  match x with
  | None => Ret s
  | Some e =>
      match GetText e with
      | None => UB
      | Some text =>
          Ret (set (f32_clamp (f32_of_f64 (atof text)) (F_fin 0) (F_fin 100)) s)
      end
  end.

Definition loadWorkTime (root : option E) (s : Projects) : outcome (bool * Projects) :=
  match root with
  | None => Ret (true, s)
  | Some r =>
      do (ok1, s1) <- load_minutes set_workBegin (FirstChildElement r "Begin") s;
      if negb ok1 then Ret (false, s1) else
      do (ok2, s2) <- load_minutes set_workEnd (FirstChildElement r "End") s1;
      if negb ok2 then Ret (false, s2) else
      do s3 <- load_percent set_workBath (FirstChildElement r "Bath") s2;
      do s4 <- load_percent set_workDefault (FirstChildElement r "Default") s3;
      Ret (true, s4)
  end.

(** The [Item] read from a [Project] element. *)
Definition loadItem (project : E) : Item :=
  let name := getAttributeString project "Name" "" true in
  let path := getAttributeString project "Path" "" true in
  let workPath := getAttributeString project "WorkDir" "C:\Windows\Temp" true in
  let path := String_replace path "/" "\" true in
  let workPath := String_replace workPath "/" "\" true in
  let workPath := absolute workPath in
  mkItem name path (addSeparator workPath).

Definition loadProject (s : Projects) (project : E) : Projects :=
  let prj := loadItem project in
  set_items (<[m_name prj := prj]> (m_items s)) s.

(** [false] leaves the object as far as it was filled in. *)
Definition loadFromFile (filename : string) (s : Projects) : outcome (bool * Projects) :=
  match LoadFile filename with
  | None => Ret (false, s)
  | Some doc =>
      match doc_FirstChildElement doc "Config" with
      | None => Ret (false, s)
      | Some root =>
          let s1 := fold_left loadProject (children root "Project") s in
          do (ok, s2) <- loadWorkTime (FirstChildElement root "WorkTime") s1;
          if negb ok then Ret (false, s2) else Ret (true, s2)
      end
  end.
End load.

(** ** Well-formed settings *)

(** A percentage that a load can leave behind: within 0..100, or the NaN that
    [std::clamp] lets through. *)
Definition percent_ok (v : f32) : Prop :=
  exists q, v = F_fin q /\ (0 <= q)%Q /\ (q <= 100)%Q.
Definition percent_loaded (v : f32) : Prop := percent_ok v \/ v = F_nan.

Definition minute_ok (z : Z) : Prop := 0 <= z < 24 * 60.

Record wf_projects (s : Projects) : Prop := {
  wf_begin : minute_ok (m_workBegin s);
  wf_end : minute_ok (m_workEnd s);
  wf_bath : percent_loaded (m_workBath s);
  wf_default : percent_loaded (m_workDefault s);
  wf_items n i : m_items s !! n = Some i -> m_name i = n;
}.

Lemma percent_ok_const z : 0 <= z <= 100 -> percent_ok (F_fin (inject_Z z)).
Proof.
  intros Hz. exists (inject_Z z). split; [done|].
  change 0%Q with (inject_Z 0). change 100%Q with (inject_Z 100). now rewrite <- !Zle_Qle.
Qed.

Lemma Projects_init_wf : wf_projects Projects_init.
Proof.
  split; simpl; try (unfold minute_ok; lia); try (left; now apply (percent_ok_const 100)).
  intros n i H. now rewrite lookup_empty in H.
Qed.

Lemma clamp_loaded v : percent_loaded (f32_clamp v (F_fin 0) (F_fin 100)).
Proof.
  destruct (decide (v = F_nan)) as [->|Hv]; [right; done|left].
  now apply f32_clamp_range.
Qed.

Lemma minute_ok_HM s h m : get_time_HM s = Some (h, m) -> minute_ok (h * 60 + m).
Proof. intros H%get_time_HM_range. unfold minute_ok. lia. Qed.

Section load_facts.
Context `{XmlDom D E} `{StringUtils}.
Context (absolute : string -> string) (LoadFile : string -> option D).
Implicit Types (s t : Projects) (e : E).

(** What every setter of [loadWorkTime] preserves, the whole load does. *)
Section preserved.
Context (P : Projects -> Prop).
Hypothesis P_begin : forall v u, minute_ok v -> P u -> P (set_workBegin v u).
Hypothesis P_end : forall v u, minute_ok v -> P u -> P (set_workEnd v u).
Hypothesis P_bath : forall v u, percent_loaded v -> P u -> P (set_workBath v u).
Hypothesis P_default : forall v u, percent_loaded v -> P u -> P (set_workDefault v u).

Lemma load_minutes_preserved set x s ok t :
  (forall v u, minute_ok v -> P u -> P (set v u)) ->
  P s -> load_minutes set x s = Ret (ok, t) -> P t.
Proof using.
  unfold load_minutes. intros Hset Hs HR. repeat case_match; simplify_eq; try done.
  eauto using minute_ok_HM.
Qed.

Lemma load_percent_preserved set x s t :
  (forall v u, percent_loaded v -> P u -> P (set v u)) ->
  P s -> load_percent set x s = Ret t -> P t.
Proof using.
  unfold load_percent. intros Hset Hs HR. repeat case_match; simplify_eq; try done.
  apply Hset; [apply clamp_loaded|done].
Qed.

Lemma loadWorkTime_preserved root s ok t :
  P s -> loadWorkTime root s = Ret (ok, t) -> P t.
Proof using P_begin P_end P_bath P_default.
  unfold loadWorkTime. intros Hs HR. destruct root as [r|]; [|by inv_outcome].
  apply obind_Ret_inv in HR as ([ok1 s1] & H1 & HR).
  apply load_minutes_preserved in H1; [|done..].
  destruct ok1; simpl in HR; [|by inv_outcome].
  apply obind_Ret_inv in HR as ([ok2 s2] & H2 & HR).
  apply load_minutes_preserved in H2; [|done..].
  destruct ok2; simpl in HR; [|by inv_outcome].
  apply obind_Ret_inv in HR as (s3 & H3 & HR).
  apply load_percent_preserved in H3; [|done..].
  apply obind_Ret_inv in HR as (s4 & H4 & HR).
  apply load_percent_preserved in H4; [|done..].
  by inv_outcome.
Qed.
End preserved.

Lemma loadWorkTime_wf root s ok t :
  wf_projects s -> loadWorkTime root s = Ret (ok, t) -> wf_projects t.
Proof. apply loadWorkTime_preserved; by intros v u ? []. Qed.

Lemma loadProject_wf s e : wf_projects s -> wf_projects (loadProject absolute s e).
Proof.
  intros [? ? ? ? Hi]. split; try done. simpl. intros n i Hl.
  destruct (decide (m_name (loadItem absolute e) = n)) as [<-|Hn].
  - rewrite lookup_insert_eq in Hl. by simplify_eq.
  - rewrite lookup_insert_ne in Hl by done. eauto.
Qed.

Lemma loadProjects_wf l s : wf_projects s -> wf_projects (fold_left (loadProject absolute) l s).
Proof. revert s; induction l; simpl; eauto using loadProject_wf. Qed.

(** What the last matching element of a list says. *)
Definition last_item (l : list E) (n : string) : option Item :=
  loadItem absolute <$> last (filter (fun e => m_name (loadItem absolute e) = n) l).

Lemma loadProjects_lookup l s n :
  m_items (fold_left (loadProject absolute) l s) !! n
  = match last_item l n with Some i => Some i | None => m_items s !! n end.
Proof.
  unfold last_item. revert s.
  induction l as [|e l IH] using rev_ind; intros s; [done|].
  rewrite fold_left_app, filter_app; simpl.
  destruct (decide (m_name (loadItem absolute e) = n)) as [Hn|Hn].
  - rewrite filter_cons_True, filter_nil, last_snoc by done. simpl.
    rewrite <- Hn. apply lookup_insert_eq.
  - rewrite filter_cons_False, filter_nil, app_nil_r by done.
    rewrite lookup_insert_ne by done. apply IH.
Qed.

Lemma loadWorkTime_items root s ok t :
  loadWorkTime root s = Ret (ok, t) -> m_items t = m_items s.
Proof. apply (loadWorkTime_preserved (fun u => m_items u = m_items s)); done. Qed.
End load_facts.

(** ** The core count *)

Lemma core_chain n p :
  0 < n <= 2 ^ 17 -> (0 <= p)%Q -> (p <= 100)%Q ->
  exists r1 r2 r3,
    f32_mul (f32_of_Z n) (F_fin p) = F_fin r1 /\ r1 == round 24 (-149) (Qred (inject_Z n) * p)%Q /\
    f32_div_lit (F_fin r1) 100 = F_fin r2 /\ r2 == round 24 (-149) (r1 / 100)%Q /\
    f32_add_lit (F_fin r2) (1 # 2) = F_fin r3 /\ r3 == round 24 (-149) (r2 + (1 # 2))%Q /\
    (0 <= r1)%Q /\ (0 <= r2)%Q /\ (0 <= r3)%Q /\
    (r1 <= inject_Z (100 * n))%Q /\ (r2 <= inject_Z n)%Q /\ (r3 <= (2 * n + 1) # 2)%Q.
Proof.
  intros Hn Hp0 Hp1. unfold f32_of_Z. rewrite mk_f32_exact by (apply is_f32_int; lia).
  assert (Hn' : (0 < inject_Z n)%Q) by (apply inject_Z_pos; lia).
  pose proof (Qred_correct (inject_Z n)) as En.
  destruct (mk_f32_le (Qred (inject_Z n) * p) (inject_Z (100 * n))) as (r1 & E1 & R1 & ? & H1).
  { apply is_f32_int; lia. }
  { rewrite En. apply Qmult_le_0_compat; lra. }
  { rewrite En, inject_Z_mult. change (inject_Z 100) with 100%Q. nra. }
  rewrite inject_Z_mult in H1. change (inject_Z 100) with 100%Q in H1.
  destruct (mk_f32_le (r1 / 100) (inject_Z n)) as (r2 & E2 & R2 & ? & H2).
  { apply is_f32_int; lia. }
  { apply Qle_shift_div_l; [done|]. lra. }
  { apply Qle_shift_div_r; [done|]. lra. }
  assert (Eh : (2 * n + 1 # 2) == (inject_Z n + (1 # 2))%Q) by (unfold Qeq; simpl; lia).
  destruct (mk_f32_le (r2 + (1 # 2)) (2 * n + 1 # 2)) as (r3 & E3 & R3 & ? & H3).
  { apply is_f32_half; lia. }
  { lra. }
  { rewrite Eh. lra. }
  exists r1, r2, r3. rewrite inject_Z_mult. by repeat split.
Qed.

(** The number of workers counted: all but three threads, at least one. *)
Definition usable (threads : Z) : Z := Z.max 1 (threads - 3).

Lemma usable_spec threads :
  0 <= threads <= 2 ^ 17 ->
  (if i32 (threads - 3) <? 1 then 1 else i32 (threads - 3)) = usable threads.
Proof.
  intros Ht. rewrite (wrapS_id 32) by (unfold inS; lia). unfold usable.
  destruct (Z.ltb_spec (threads - 3) 1); lia.
Qed.

Lemma getFreeCore_eq threads hour min s p :
  0 <= threads <= 2 ^ 17 -> getWorkPercent hour min s = F_fin p ->
  getFreeCore threads hour min s =
  f32_to_u32 (f32_add_lit (f32_div_lit (f32_mul (f32_of_Z (usable threads)) (F_fin p)) 100) (1 # 2)).
Proof. intros Ht Hp. unfold getFreeCore. by rewrite usable_spec, Hp. Qed.

Lemma getFreeCore_ret threads hour min s p :
  0 <= threads <= 2 ^ 17 -> getWorkPercent hour min s = F_fin p ->
  (0 <= p)%Q -> (p <= 100)%Q ->
  exists n, getFreeCore threads hour min s = Ret n /\ 0 <= n <= usable threads.
Proof.
  intros Ht Hp Hp0 Hp1. rewrite (getFreeCore_eq _ _ _ _ p) by done.
  assert (Hu : 0 < usable threads <= 2 ^ 17) by (unfold usable; lia).
  destruct (core_chain _ p Hu Hp0 Hp1)
    as (r1 & r2 & r3 & -> & _ & -> & _ & -> & _ & _ & _ & H0 & _ & _ & H3).
  apply f32_to_u32_fin; [done| |lia].
  eapply Qle_lt_trans; [exact H3|]. unfold Qlt; simpl. lia.
Qed.

(** C23: a daemon never advertises more tasks than its machine has usable
    threads: with well-formed settings whose percentages are numbers, at any
    time of day, [getFreeCore] is defined (the final conversion to
    [uint32_t] is in range) and lies between 0 and all threads but three,
    with a floor of one; binary32 rounding included. *)
Theorem getFreeCore_bounded threads hour min s :
  0 <= threads <= 2 ^ 17 -> percent_ok (m_workBath s) -> percent_ok (m_workDefault s) ->
  exists n, getFreeCore threads hour min s = Ret n /\ 0 <= n <= usable threads.
Proof.
  intros Ht (qb & Eb & Hb) (qd & Ed & Hd).
  assert (Hp : exists p, getWorkPercent hour min s = F_fin p /\ (0 <= p)%Q /\ (p <= 100)%Q)
    by (unfold getWorkPercent; repeat case_match; eauto).
  destruct Hp as (p & Hp & Hp0 & Hp1). by apply (getFreeCore_ret _ _ _ _ p).
Qed.

Lemma getFreeCore_bounded_witness :
  percent_ok (m_workBath (set_workBath (F_fin (125 # 2)) Projects_init)) /\
  exists n, getFreeCore 16 10 30 (set_workBath (F_fin (125 # 2)) Projects_init) = Ret n
            /\ 0 <= n <= usable 16.
Proof.
  assert (H : percent_ok (m_workBath (set_workBath (F_fin (125 # 2)) Projects_init)))
    by (exists (125 # 2); done).
  split; [exact H|].
  apply (getFreeCore_bounded 16 10 30 _ ltac:(lia) H (percent_ok_const 100 ltac:(lia))).
Defined.

Example getFreeCore_example :
  getFreeCore 16 10 30 (set_workBath (F_fin (125 # 2)) Projects_init) = Ret 8.
Proof. vm_compute. reflexivity. Qed.

(** A higher percentage never yields fewer tasks. *)
Lemma getFreeCore_monotone threads hour1 min1 s1 hour2 min2 s2 p1 p2 n1 n2 :
  0 <= threads <= 2 ^ 17 ->
  getWorkPercent hour1 min1 s1 = F_fin p1 -> getWorkPercent hour2 min2 s2 = F_fin p2 ->
  (0 <= p1)%Q -> (p1 <= p2)%Q -> (p2 <= 100)%Q ->
  getFreeCore threads hour1 min1 s1 = Ret n1 ->
  getFreeCore threads hour2 min2 s2 = Ret n2 -> n1 <= n2.
Proof.
  intros Ht E1 E2 H0 H12 H2.
  rewrite (getFreeCore_eq _ _ _ s1 p1), (getFreeCore_eq _ _ _ s2 p2) by done.
  assert (Hu : 0 < usable threads <= 2 ^ 17) by (unfold usable; lia).
  destruct (core_chain _ p1 Hu) as (a1 & a2 & a3 & -> & A1 & -> & A2 & -> & A3 & ? & ? & ? & _);
    [lra..|].
  destruct (core_chain _ p2 Hu) as (b1 & b2 & b3 & -> & B1 & -> & B2 & -> & B3 & _);
    [lra..|].
  assert (Hn : (0 <= Qred (inject_Z (usable threads)))%Q).
  { rewrite Qred_correct. apply Qlt_le_weak, inject_Z_pos. lia. }
  apply f32_to_u32_mono; [done|].
  rewrite A3, B3. apply round_mono; [lia|lra|].
  apply Qplus_le_compat; [|apply Qle_refl].
  rewrite A2, B2. apply round_mono; [lia| |].
  { apply Qle_shift_div_l; [done|]. lra. }
  apply Qmult_le_compat_r; [|done].
  rewrite A1, B1. apply round_mono; [lia| |].
  { by apply Qmult_le_0_compat. }
  rewrite (Qmult_comm _ p1), (Qmult_comm _ p2). by apply Qmult_le_compat_r.
Qed.

Lemma getFreeCore_monotone_witness :
  getFreeCore 64 1 0 (set_workBath (F_fin 30) Projects_init) = Ret 18 /\ 18 <= 61.
Proof.
  split; [vm_compute; reflexivity|].
  apply (getFreeCore_monotone 64 1 0 (set_workBath (F_fin 30) Projects_init)
           1 0 Projects_init 30 100); try reflexivity; try discriminate; try lia.
Defined.

Lemma f32_to_u32_half q n :
  q == (2 * n + 1 # 2)%Q -> 0 <= n < 2 ^ 32 -> f32_to_u32 (F_fin q) = Ret n.
Proof.
  destruct q as [a d]. unfold Qeq, f32_to_u32; simpl. intros E Hn.
  rewrite Z.quot_div_nonneg by nia.
  replace (a / Z.pos d) with n.
  - replace ((0 <=? n) && (n <? 2 ^ 32)) with true; [done|]. symmetry. lia.
  - apply Z.div_unique with (a - Z.pos d * n); lia.
Qed.

Lemma round_sandwich q b : is_f32 b -> q == b -> round 24 (-149) q == b.
Proof.
  intros (H0 & _ & Hb) E. rewrite <- Hb.
  apply Qle_antisym; apply round_mono; try lia; lra.
Qed.

(** At 100 percent - the setting of a configuration without a
    [WorkTime] element - the count is exactly the number of usable threads:
    the three roundings of the [float] computation cancel. *)
Theorem getFreeCore_full threads hour min s :
  0 <= threads <= 2 ^ 17 -> getWorkPercent hour min s = F_fin 100 ->
  getFreeCore threads hour min s = Ret (usable threads).
Proof.
  intros Ht Hp. rewrite (getFreeCore_eq _ _ _ _ 100) by done.
  assert (Hu : 0 < usable threads <= 2 ^ 17) by (unfold usable; lia).
  destruct (core_chain _ 100 Hu) as (r1 & r2 & r3 & -> & R1 & -> & R2 & -> & R3 & _);
    [discriminate|apply Qle_refl|].
  set (n := usable threads) in *.
  rewrite (round_sandwich _ (inject_Z (100 * n))) in R1;
    [|apply is_f32_int; lia|rewrite Qred_correct, inject_Z_mult; apply Qmult_comm].
  rewrite (round_sandwich _ (inject_Z n)) in R2;
    [|apply is_f32_int; lia|rewrite R1, inject_Z_mult; change (inject_Z 100) with 100%Q; field].
  rewrite (round_sandwich _ (2 * n + 1 # 2)) in R3;
    [|apply is_f32_half; lia|rewrite R2; unfold Qeq; simpl; lia].
  apply f32_to_u32_half; [done|lia].
Qed.

Lemma getFreeCore_full_witness : getFreeCore 12 23 59 Projects_init = Ret 9.
Proof. apply (getFreeCore_full 12 23 59 Projects_init); [lia|reflexivity]. Defined.

(** ** The daily window *)

(** [k] minutes after [b], on a 24-hour dial. *)
Definition minutes_after (b now : Z) : Z := (now - b) mod (24 * 60).

(** The window test with its two cases is membership in the circular
    interval from [Begin] to [End]: counted on a 24-hour dial from [Begin],
    the time of day comes no later than [End].  This covers windows that
    contain midnight. *)
Lemma getWorkPercent_window hour min s :
  0 <= hour < 24 -> 0 <= min < 60 ->
  minute_ok (m_workBegin s) -> minute_ok (m_workEnd s) -> m_workBegin s <> m_workEnd s ->
  getWorkPercent hour min s =
    if minutes_after (m_workBegin s) (hour * 60 + min)
       <=? minutes_after (m_workBegin s) (m_workEnd s)
    then m_workBath s else m_workDefault s.
Proof.
  unfold minute_ok, getWorkPercent, minutes_after. intros Hh Hm Hb He Hne.
  set (now := hour * 60 + min). set (b := m_workBegin s) in *. set (e := m_workEnd s) in *.
  assert (Hnow : 0 <= now < 1440) by lia.
  assert (En : (now - b) mod (24 * 60) = if b <=? now then now - b else now - b + 1440).
  { destruct (Z.leb_spec b now); symmetry;
      [apply (Z.mod_unique _ _ 0)|apply (Z.mod_unique _ _ (-1))]; lia. }
  assert (Ee : (e - b) mod (24 * 60) = if b <=? e then e - b else e - b + 1440).
  { destruct (Z.leb_spec b e); symmetry;
      [apply (Z.mod_unique _ _ 0)|apply (Z.mod_unique _ _ (-1))]; lia. }
  rewrite En, Ee.
  destruct (Z.ltb_spec b e); destruct (Z.leb_spec b now); destruct (Z.leb_spec b e);
    destruct (Z.leb_spec now e); simpl; case_match; lia || done.
Qed.

Lemma getWorkPercent_window_witness :
  let s := set_workBegin (22 * 60) (set_workEnd (6 * 60) (set_workBath (F_fin 20) Projects_init)) in
  getWorkPercent 23 30 s = F_fin 20 /\ getWorkPercent 7 0 s = F_fin 100.
Proof.
  intros s. split.
  - rewrite (getWorkPercent_window 23 30 s); try (unfold minute_ok; simpl; lia). reflexivity.
  - rewrite (getWorkPercent_window 7 0 s); try (unfold minute_ok; simpl; lia). reflexivity.
Defined.

(** ** Loading *)

Section load_theorems.
Context `{XmlDom D E} `{StringUtils}.
Context (absolute : string -> string) (LoadFile : string -> option D).

(** C24: whatever the file holds, a load that returns leaves well-formed
    settings: minutes of the day, percentages in 0..100 (or NaN), and items
    filed under their own name - also when it reports failure half-way. *)
Theorem loadFromFile_wf filename s ok t :
  wf_projects s -> loadFromFile absolute LoadFile filename s = Ret (ok, t) -> wf_projects t.
Proof.
  unfold loadFromFile. intros Hs HR.
  destruct (LoadFile filename) as [doc|]; [|by inv_outcome].
  destruct (doc_FirstChildElement doc "Config") as [root|]; [|by inv_outcome].
  apply obind_Ret_inv in HR as ([ok' s2] & H2 & HR).
  apply loadWorkTime_wf in H2; [|by apply loadProjects_wf].
  destruct ok'; simpl in HR; by inv_outcome.
Qed.

(** [getProject] after a successful load returns the item of the last
    [Project] element of that name, and what was there before when the file
    names no such project. *)
Lemma loadFromFile_getProject filename doc root s t n :
  LoadFile filename = Some doc -> doc_FirstChildElement doc "Config" = Some root ->
  loadFromFile absolute LoadFile filename s = Ret (true, t) ->
  getProject t n =
    match last_item absolute (children root "Project") n with
    | Some i => Some i
    | None => getProject s n
    end.
Proof.
  unfold loadFromFile, getProject. intros -> -> HR.
  apply obind_Ret_inv in HR as ([ok' s2] & H2 & HR).
  apply loadWorkTime_items in H2.
  destruct ok'; simpl in HR; inv_outcome.
  rewrite H2. apply loadProjects_lookup.
Qed.
End load_theorems.

(** A configuration with a night window and two projects of the same name. *)
Module Toy_config.
Definition leaf t x := ToyElt t [] x [] [].
Definition prj n p := ToyElt "Project" [("Name", n); ("Path", p)] None [] [].
Definition doc : list toy_elt :=
  [ToyElt "Config" [] None
     [prj "game" "d:/a"; prj "game" "d:/b";
      ToyElt "WorkTime" [] None
        [leaf "Begin" (Some "22:00"); leaf "End" (Some "6:00"); leaf "Bath" (Some "25")] []] []].
Definition load := loadFromFile (fun x => x) (fun _ => Some doc) "fdb.xml" Projects_init.
Definition result : Projects :=
  match load with Ret (_, t) => t | _ => Projects_init end.
End Toy_config.

Lemma loadFromFile_wf_witness :
  Toy_config.load = Ret (true, Toy_config.result) /\ wf_projects Toy_config.result.
Proof.
  assert (HR : Toy_config.load = Ret (true, Toy_config.result)) by (vm_compute; reflexivity).
  split; [exact HR|].
  apply (loadFromFile_wf (fun x => x) (fun _ => Some Toy_config.doc) "fdb.xml"
           Projects_init true _ Projects_init_wf HR).
Defined.

Lemma loadFromFile_getProject_witness :
  m_path <$> getProject Toy_config.result "game" = Some "d:\b".
Proof.
  rewrite (loadFromFile_getProject (fun x => x) (fun _ => Some Toy_config.doc) "fdb.xml"
             Toy_config.doc (ToyElt "Config" [] None (Toy.kids (List.hd (ToyElt "" [] None [] []) Toy_config.doc)) [])
             Projects_init Toy_config.result "game");
    vm_compute; reflexivity.
Defined.

(** The percentage "nan" passes [std::clamp] and leaves [getFreeCore]
    undefined: the conversion to [uint32_t] has no value. *)
Lemma getFreeCore_nan threads hour min s :
  getWorkPercent hour min s = F_nan -> getFreeCore threads hour min s = UB.
Proof. intros Hp. unfold getFreeCore. rewrite Hp. by destruct (f32_of_Z _). Qed.

Lemma load_percent_nan `{XmlDom D E} set (e : E) s :
  GetText e = Some "nan" -> load_percent set (Some e) s = Ret (set F_nan s).
Proof. intros HT. unfold load_percent. rewrite HT. reflexivity. Qed.
