(* ===== verification/Messages.v ===== *)
(** * Protocol messages and the protobuf node ([protocol/])

    The messages of [master.proto] and [slave.proto] as records whose fields
    are present or absent, and [TcpProtobufNode] on top of the packet node of
    smallUtils.  The serialiser is generated code; its contract is the class
    [MessageCodec]. *)

From Stdlib Require Import String.
From S2P Require Import Prelude CxxStd External.
Local Open Scope string_scope.
Local Open Scope Z_scope.

(** ** master.proto *)

Record MTask := mkMTask {
  mt_id : option Z;
  mt_project : option string;
  mt_outputFile : option string;
  mt_application : option string;
  mt_commandline : option string;
  mt_workingDir : option string;
  mt_sourceFile : option string;
  mt_inputData : option string;
  mt_abortOnError : option bool;
}.

Record MSystem := mkMSystem { ms_close : option bool }.

Record MPacket := mkMPacket { mp_task : option MTask; mp_system : option MSystem }.

(** ** slave.proto *)

Record SInfo := mkSInfo { si_task_count : option Z }.

Record SResult := mkSResult {
  sr_id : option Z;
  sr_exit_code : option Z;
  sr_process_code : option Z;
  sr_outputFile : option string;
  sr_outputData : option string;
}.

Record SPacket := mkSPacket { sp_info : option SInfo; sp_result : option SResult }.

#[export] Instance MTask_eq_dec : EqDecision MTask.
Proof. solve_decision. Defined.
#[export] Instance MSystem_eq_dec : EqDecision MSystem.
Proof. solve_decision. Defined.
#[export] Instance MPacket_eq_dec : EqDecision MPacket.
Proof. solve_decision. Defined.
#[export] Instance SInfo_eq_dec : EqDecision SInfo.
Proof. solve_decision. Defined.
#[export] Instance SResult_eq_dec : EqDecision SResult.
Proof. solve_decision. Defined.
#[export] Instance SPacket_eq_dec : EqDecision SPacket.
Proof. solve_decision. Defined.

Definition MTask_empty : MTask := mkMTask None None None None None None None None None.
Definition SResult_empty : SResult := mkSResult None None None None None.

(** ** Required fields *)

Definition has {A} (o : option A) : bool := match o with Some _ => true | None => false end.

Definition MTask_IsInitialized (m : MTask) : bool :=
  has (mt_id m) && has (mt_project m) && has (mt_outputFile m) && has (mt_application m)
  && has (mt_commandline m) && has (mt_workingDir m) && has (mt_sourceFile m)
  && has (mt_inputData m).

Definition MPacket_IsInitialized (p : MPacket) : bool :=
  match mp_task p with Some t => MTask_IsInitialized t | None => true end.

Definition SResult_IsInitialized (r : SResult) : bool :=
  has (sr_id r) && has (sr_exit_code r) && has (sr_process_code r).

Definition SPacket_IsInitialized (p : SPacket) : bool :=
  match sp_info p with Some i => has (si_task_count i) | None => true end
  && match sp_result p with Some r => SResult_IsInitialized r | None => true end.

(** ** Setters, with the conversions of the generated C++ signatures *)

Definition set_id v (m : MTask) := mkMTask (Some (u32 v)) (mt_project m) (mt_outputFile m)
  (mt_application m) (mt_commandline m) (mt_workingDir m) (mt_sourceFile m) (mt_inputData m)
  (mt_abortOnError m).
Definition set_project v (m : MTask) := mkMTask (mt_id m) (Some v) (mt_outputFile m)
  (mt_application m) (mt_commandline m) (mt_workingDir m) (mt_sourceFile m) (mt_inputData m)
  (mt_abortOnError m).
Definition set_outputfile v (m : MTask) := mkMTask (mt_id m) (mt_project m) (Some v)
  (mt_application m) (mt_commandline m) (mt_workingDir m) (mt_sourceFile m) (mt_inputData m)
  (mt_abortOnError m).
Definition set_application v (m : MTask) := mkMTask (mt_id m) (mt_project m) (mt_outputFile m)
  (Some v) (mt_commandline m) (mt_workingDir m) (mt_sourceFile m) (mt_inputData m)
  (mt_abortOnError m).
Definition set_commandline v (m : MTask) := mkMTask (mt_id m) (mt_project m) (mt_outputFile m)
  (mt_application m) (Some v) (mt_workingDir m) (mt_sourceFile m) (mt_inputData m)
  (mt_abortOnError m).
Definition set_workingdir v (m : MTask) := mkMTask (mt_id m) (mt_project m) (mt_outputFile m)
  (mt_application m) (mt_commandline m) (Some v) (mt_sourceFile m) (mt_inputData m)
  (mt_abortOnError m).
Definition set_sourcefile v (m : MTask) := mkMTask (mt_id m) (mt_project m) (mt_outputFile m)
  (mt_application m) (mt_commandline m) (mt_workingDir m) (Some v) (mt_inputData m)
  (mt_abortOnError m).
Definition set_inputdata v (m : MTask) := mkMTask (mt_id m) (mt_project m) (mt_outputFile m)
  (mt_application m) (mt_commandline m) (mt_workingDir m) (mt_sourceFile m) (Some v)
  (mt_abortOnError m).
Definition set_abortonerror v (m : MTask) := mkMTask (mt_id m) (mt_project m) (mt_outputFile m)
  (mt_application m) (mt_commandline m) (mt_workingDir m) (mt_sourceFile m) (mt_inputData m)
  (Some v).

(** Getters return the type's default for an absent field. *)
Definition get_num_field (o : option Z) : Z := default 0 o.
Definition get_str_field (o : option string) : string := default "" o.
Definition get_bool_field (o : option bool) : bool := default false o.

(** ** The generated serialiser *)

(** Field values that the C++ types can hold. *)
Definition u32_field (o : option Z) : Prop := match o with Some z => inU 32 z | None => True end.
Definition i32_field (o : option Z) : Prop := match o with Some z => inS 32 z | None => True end.

Definition MTask_typed (m : MTask) : Prop := u32_field (mt_id m).
Definition MPacket_typed (p : MPacket) : Prop :=
  match mp_task p with Some t => MTask_typed t | None => True end.
Definition SResult_typed (r : SResult) : Prop :=
  u32_field (sr_id r) /\ i32_field (sr_exit_code r) /\ i32_field (sr_process_code r).
Definition SPacket_typed (p : SPacket) : Prop :=
  match sp_info p with Some i => i32_field (si_task_count i) | None => True end
  /\ match sp_result p with Some r => SResult_typed r | None => True end.

(** What protobuf documents of [SerializeToString], [ParseFromArray] and
    [ByteSizeLong] for messages whose encoding stays below 2 GiB. *)
Class MessageCodec (M : Type) := {
  IsInitialized : M -> bool;
  typed : M -> Prop;
  ByteSizeLong : M -> Z;
  SerializeToString : M -> string;
  ParseFromArray : string -> M;
  size_serialize m : typed m -> IsInitialized m = true ->
    ByteSizeLong m = str_len (SerializeToString m);
  parse_serialize m : typed m -> IsInitialized m = true -> ByteSizeLong m < 2 ^ 31 ->
    ParseFromArray (SerializeToString m) = m;
}.

(** ** TcpProtobufNode *)

Record TcpProtobufNode (N : Type) := mkNode {
  pn_base : N;
  m_freeCores : Z;
}.
Arguments mkNode {N} _ _.
Arguments pn_base {N} _.
Arguments m_freeCores {N} _.

Section node.
Context {N : Type} `{PacketNode N}.

Definition TcpProtobufNode_new (base : N) : TcpProtobufNode N := mkNode base 0.

(** [send]: 0 when there is nothing to send or a required field is
    missing, otherwise what the packet layer answers. *)
Definition send `{MessageCodec M} (node : TcpProtobufNode N) (message : M)
    : Z * TcpProtobufNode N :=
  let size := ByteSizeLong message in
  if (size =? 0) || negb (IsInitialized message) then (0, node)
  else
    let data := SerializeToString message in
    let '(r, base) := PacketNode_send (pn_base node) data in
    (r, mkNode base (m_freeCores node)).

Definition onRecivedMessage {M} (message : M) : bool := true.

Lemma send_freeCores `{MessageCodec M} node (m : M) :
  m_freeCores (send node m).2 = m_freeCores node.
Proof.
  unfold send. destruct (_ || _); [done|]. by destruct (PacketNode_send _ _).
Qed.

(** Nothing reaches the wire for an incomplete or an empty message. *)
Lemma send_refused `{MessageCodec M} node (m : M) :
  ByteSizeLong m = 0 \/ IsInitialized m = false -> send node m = (0, node).
Proof.
  unfold send. intros [->|E]; [done|]. rewrite E, orb_true_r. done.
Qed.

Lemma send_accepted `{MessageCodec M} node (m : M) :
  ByteSizeLong m <> 0 -> IsInitialized m = true ->
  send node m = ((PacketNode_send (pn_base node) (SerializeToString m)).1,
                 mkNode (PacketNode_send (pn_base node) (SerializeToString m)).2 (m_freeCores node)).
Proof.
  unfold send. intros Hs%Z.eqb_neq ->. rewrite Hs. simpl.
  by destruct (PacketNode_send _ _).
Qed.
End node.
