(* ===== verification/Codec.v ===== *)
(** * A serialiser for the messages of the protocol

    The compiled form of [master.proto] and [slave.proto] is generated and is
    not in the repository; the development takes it as the class
    [MessageCodec].  This file shows that the class is inhabited by the
    encoding that the protobuf documentation describes: it writes the fields
    with the tags and varints of [Varint.v] and reads them back.  The
    concrete instances serve the worked examples. *)

From Stdlib Require Import String.
From S2P Require Import Prelude CxxStd Bytes Bits Varint External Messages.
Local Open Scope string_scope.
Local Open Scope Z_scope.
Local Open Scope list_scope.

(** ** Fields on the wire *)

Inductive payload := PVarint (v : Z) | PLen (l : bytes).

Definition enc_field (f : Z * payload) : bytes :=
  match f with
  | (n, PVarint v) => varint (MakeTag n WIRETYPE_VARINT) ++ varint v
  | (n, PLen l) =>
      varint (MakeTag n WIRETYPE_LENGTH_DELIMITED) ++ varint (Z.of_nat (length l)) ++ l
  end.

Definition enc_fields (fs : list (Z * payload)) : bytes := concat (enc_field <$> fs).

Fixpoint take_varint (n : nat) (l : bytes) : option (Z * bytes) :=
  match n, l with
  | S n, b :: l =>
      if b <? 128 then Some (b, l)
      else '(v, l) ← take_varint n l; Some (b - 128 + 128 * v, l)
  | _, _ => None
  end.

Definition dec_field (l : bytes) : option ((Z * payload) * bytes) :=
  '(tag, l) ← take_varint 10 l;
  if tag mod 8 =? 0 then
    '(v, l) ← take_varint 10 l; Some ((tag / 8, PVarint v), l)
  else if tag mod 8 =? 2 then
    '(n, l) ← take_varint 10 l;
    if n <=? Z.of_nat (length l)
    then Some ((tag / 8, PLen (take (Z.to_nat n) l)), drop (Z.to_nat n) l)
    else None
  else None.

Fixpoint dec_fields (fuel : nat) (l : bytes) : option (list (Z * payload)) :=
  match l, fuel with
  | [], _ => Some []
  | _, O => None
  | _, S fuel => '(f, l) ← dec_field l; fs ← dec_fields fuel l; Some (f :: fs)
  end.

Definition field_ok (f : Z * payload) : Prop :=
  valid_field f.1 /\ match f.2 with PVarint v => inU 64 v | PLen l => Forall is_byte l end.

Lemma take_varint_bytes n v rest :
  0 <= v < 128 ^ Z.of_nat n -> take_varint n (varint_bytes n v ++ rest) = if decide (n = O) then None else Some (v, rest).
Proof.
  revert v. induction n as [|n IH]; intros v Hv; [done|]. cbn [varint_bytes].
  destruct (Z.ltb_spec v 128); cbn [app take_varint].
  - destruct (Z.ltb_spec v 128); [done|lia].
  - pose proof (Z.mod_pos_bound v 128 ltac:(lia)). destruct (Z.ltb_spec (128 + v mod 128) 128); [lia|].
    rewrite pow128 in Hv.
    rewrite IH by (split; [apply Z.div_pos; lia|apply Z.div_lt_upper_bound; lia]).
    destruct n; [simpl in Hv; lia|]. simpl. do 2 f_equal. pose proof (Z.div_mod v 128 ltac:(lia)). lia.
Qed.

Lemma take_varint_spec v rest : inU 64 v -> take_varint 10 (varint v ++ rest) = Some (v, rest).
Proof. intros Hv. unfold varint. by rewrite take_varint_bytes by (by apply u64_128). Qed.

Lemma dec_enc_field f rest :
  field_ok f -> Z.of_nat (length (enc_field f)) < 2 ^ 64 -> dec_field (enc_field f ++ rest) = Some (f, rest).
Proof.
  destruct f as [n [v|l]]; intros [Hn Hp] Hsize; cbn [fst snd enc_field] in *; unfold dec_field;
    rewrite <- !app_assoc; unfold valid_field in Hn.
  - pose proof (MakeTag_range n WIRETYPE_VARINT Hn) as [_ Hr].
    rewrite take_varint_spec by (by apply inU_32_64). cbn [mbind option_bind].
    rewrite MakeTag_spec by lia. cbn [WireType_value].
    replace ((8 * n + 0) mod 8) with 0 by (apply (Z.mod_unique_pos _ _ n); lia). cbn [Z.eqb].
    rewrite take_varint_spec by done. cbn [mbind option_bind].
    by replace ((8 * n + 0) / 8) with n by (apply (Z.div_unique_pos _ _ _ 0); lia).
  - pose proof (MakeTag_range n WIRETYPE_LENGTH_DELIMITED Hn) as [_ Hr].
    rewrite take_varint_spec by (by apply inU_32_64). cbn [mbind option_bind].
    rewrite MakeTag_spec by lia. cbn [WireType_value].
    replace ((8 * n + 2) mod 8) with 2 by (apply (Z.mod_unique_pos _ _ n); lia). cbn [Z.eqb Pos.eqb].
    rewrite !length_app in Hsize. rewrite take_varint_spec by (unfold inU; lia). cbn [mbind option_bind].
    rewrite length_app. destruct (Z.leb_spec (Z.of_nat (length l)) (Z.of_nat (length l + length rest))); [|lia].
    rewrite Nat2Z.id, take_app_length, drop_app_length.
    by replace ((8 * n + 2) / 8) with n by (apply (Z.div_unique_pos _ _ _ 2); lia).
Qed.

Lemma varint_nonempty v : (0 < length (varint v))%nat.
Proof. unfold varint. cbn [varint_bytes]. destruct (v <? 128); simpl; lia. Qed.

Lemma enc_field_nonempty f : (0 < length (enc_field f))%nat.
Proof. destruct f as [n [v|l]]; simpl; rewrite length_app; pose proof (varint_nonempty (MakeTag n WIRETYPE_VARINT));
  pose proof (varint_nonempty (MakeTag n WIRETYPE_LENGTH_DELIMITED)); lia. Qed.

(** What is written is read back, field by field. *)
Lemma dec_enc_fields fs fuel :
  Forall field_ok fs -> Z.of_nat (length (enc_fields fs)) < 2 ^ 64 ->
  (length (enc_fields fs) <= fuel)%nat -> dec_fields fuel (enc_fields fs) = Some fs.
Proof.
  intros Hok. revert fuel. induction Hok as [|f fs Hf Hfs IH]; intros fuel Hsize Hfuel; [by destruct fuel|].
  change (enc_fields (f :: fs)) with (enc_field f ++ enc_fields fs) in *. rewrite length_app in *.
  pose proof (enc_field_nonempty f) as Hne. destruct fuel as [|fuel]; [lia|].
  destruct (enc_field f ++ enc_fields fs) as [|b l] eqn:E.
  { apply (f_equal length) in E. rewrite length_app in E. simpl in E. lia. }
  cbn [dec_fields]. rewrite <- E, dec_enc_field by (done || lia). cbn [mbind option_bind].
  by rewrite IH by lia.
Qed.

Lemma enc_fields_byte fs : Forall field_ok fs -> Forall is_byte (enc_fields fs).
Proof.
  induction 1 as [|[n p] fs [Hn Hp] Hfs IH]; [constructor|].
  change (enc_fields ((n, p) :: fs)) with (enc_field (n, p) ++ enc_fields fs).
  apply Forall_app. split; [|done]. cbn [fst snd] in *.
  destruct p as [v|l]; cbn [enc_field]; rewrite !Forall_app; repeat split; try done;
    apply varint_bytes_byte; try (unfold inU in *; lia);
    [pose proof (MakeTag_range n WIRETYPE_VARINT Hn) as [_ Hr]
    |pose proof (MakeTag_range n WIRETYPE_LENGTH_DELIMITED Hn) as [_ Hr]]; unfold inU in Hr; lia.
Qed.

(** ** Messages as field lists *)

Definition opt {A} (n : Z) (f : A -> payload) (o : option A) : list (Z * payload) :=
  match o with Some x => [(n, f x)] | None => [] end.

Definition p_num (v : Z) : payload := PVarint (u64 v).
Definition p_str (s : string) : payload := PLen (bytes_of_string s).
Definition p_bool (b : bool) : payload := PVarint (if b then 1 else 0).

Definition fields_Task (m : MTask) : list (Z * payload) :=
  opt 1 p_num (mt_id m) ++ opt 2 p_str (mt_project m) ++ opt 3 p_str (mt_outputFile m)
  ++ opt 4 p_str (mt_application m) ++ opt 5 p_str (mt_commandline m) ++ opt 6 p_str (mt_workingDir m)
  ++ opt 7 p_str (mt_sourceFile m) ++ opt 8 p_str (mt_inputData m) ++ opt 9 p_bool (mt_abortOnError m).
Definition fields_System (m : MSystem) : list (Z * payload) := opt 1 p_bool (ms_close m).
Definition fields_MPacket (p : MPacket) : list (Z * payload) :=
  opt 1 (fun t => PLen (enc_fields (fields_Task t))) (mp_task p)
  ++ opt 2 (fun s => PLen (enc_fields (fields_System s))) (mp_system p).

Definition fields_Info (m : SInfo) : list (Z * payload) := opt 1 p_num (si_task_count m).
Definition fields_Result (m : SResult) : list (Z * payload) :=
  opt 1 p_num (sr_id m) ++ opt 2 p_num (sr_exit_code m) ++ opt 3 p_num (sr_process_code m)
  ++ opt 4 p_str (sr_outputFile m) ++ opt 5 p_str (sr_outputData m).
Definition fields_SPacket (p : SPacket) : list (Z * payload) :=
  opt 1 (fun i => PLen (enc_fields (fields_Info i))) (sp_info p)
  ++ opt 2 (fun r => PLen (enc_fields (fields_Result r))) (sp_result p).

(** The last occurrence of a field counts, unknown fields are skipped. *)
Fixpoint find_field {A} (n : Z) (f : payload -> option A) (fs : list (Z * payload)) : option A :=
  match fs with
  | [] => None
  | (k, p) :: fs =>
      match find_field n f fs with
      | Some x => Some x
      | None => if k =? n then f p else None
      end
  end.

Definition g_u32 (p : payload) : option Z := match p with PVarint v => Some (u32 v) | PLen _ => None end.
Definition g_i32 (p : payload) : option Z := match p with PVarint v => Some (i32 v) | PLen _ => None end.
Definition g_bool (p : payload) : option bool := match p with PVarint v => Some (negb (v =? 0)) | PLen _ => None end.
Definition g_str (p : payload) : option string := match p with PLen l => Some (string_of_bytes l) | PVarint _ => None end.
Definition g_msg {A} (f : list (Z * payload) -> A) (p : payload) : option A :=
  match p with PLen l => f <$> dec_fields (length l) l | PVarint _ => None end.

Definition Task_of (fs : list (Z * payload)) : MTask :=
  mkMTask (find_field 1 g_u32 fs) (find_field 2 g_str fs) (find_field 3 g_str fs) (find_field 4 g_str fs)
    (find_field 5 g_str fs) (find_field 6 g_str fs) (find_field 7 g_str fs) (find_field 8 g_str fs)
    (find_field 9 g_bool fs).
Definition System_of (fs : list (Z * payload)) : MSystem := mkMSystem (find_field 1 g_bool fs).
Definition MPacket_of (fs : list (Z * payload)) : MPacket :=
  mkMPacket (find_field 1 (g_msg Task_of) fs) (find_field 2 (g_msg System_of) fs).
Definition Info_of (fs : list (Z * payload)) : SInfo := mkSInfo (find_field 1 g_i32 fs).
Definition Result_of (fs : list (Z * payload)) : SResult :=
  mkSResult (find_field 1 g_u32 fs) (find_field 2 g_i32 fs) (find_field 3 g_i32 fs)
    (find_field 4 g_str fs) (find_field 5 g_str fs).
Definition SPacket_of (fs : list (Z * payload)) : SPacket :=
  mkSPacket (find_field 1 (g_msg Info_of) fs) (find_field 2 (g_msg Result_of) fs).

Definition serialize (fs : list (Z * payload)) : string := string_of_bytes (enc_fields fs).
Definition parse {A} (f : list (Z * payload) -> A) (s : string) : A :=
  let l := bytes_of_string s in f (default [] (dec_fields (length l) l)).

(** ** Round trips *)

Lemma find_app {A} n (g : payload -> option A) a b :
  find_field n g (a ++ b) = match find_field n g b with Some x => Some x | None => find_field n g a end.
Proof.
  induction a as [|[k p] a IH]; simpl; [by destruct (find_field n g b)|].
  rewrite IH. by destruct (find_field n g b).
Qed.

Lemma find_opt {A B} n k (g : payload -> option B) (f : A -> payload) o :
  find_field n g (opt k f o) = if k =? n then o ≫= (fun x => g (f x)) else None.
Proof. destruct o as [x|]; simpl; by destruct (k =? n). Qed.

Lemma bind_id {A B} (P : A -> Prop) (g : B -> option A) (f : A -> B) o :
  (forall x, P x -> g (f x) = Some x) -> match o with Some x => P x | None => True end ->
  o ≫= (fun x => g (f x)) = o.
Proof. intros Hg Ho. destruct o as [x|]; simpl; [by apply Hg|done]. Qed.

Lemma g_u32_num x : inU 32 x -> g_u32 (p_num x) = Some x.
Proof. intros Hx. simpl. rewrite (wrapU_id 64) by (by apply inU_32_64). by rewrite wrapU_id. Qed.

Lemma g_i32_num x : inS 32 x -> g_i32 (p_num x) = Some x.
Proof.
  intros Hx. simpl. f_equal. rewrite <- (wrapS_id 32 x) at 2 by (done || lia).
  unfold wrapS, wrapU. f_equal. change (2 ^ 64) with (2 ^ 32 * 2 ^ 32).
  rewrite <- Zplus_mod_idemp_l. rewrite (Z.rem_mul_r x (2 ^ 32)) by lia.
  rewrite (Z.mul_comm (2 ^ 32) (_ mod _)), Z_mod_plus_full, Zmod_mod. apply Zplus_mod_idemp_l.
Qed.

Lemma g_str_str x : g_str (p_str x) = Some x.
Proof. simpl. by rewrite string_bytes_string. Qed.

Lemma g_bool_bool x : g_bool (p_bool x) = Some x.
Proof. by destruct x. Qed.

Lemma g_msg_enc {A} (rd : list (Z * payload) -> A) (wr : A -> list (Z * payload)) x :
  Forall field_ok (wr x) -> Z.of_nat (length (enc_fields (wr x))) < 2 ^ 64 -> rd (wr x) = x ->
  g_msg rd (PLen (enc_fields (wr x))) = Some x.
Proof. intros Hok Hsize E. simpl. rewrite dec_enc_fields by done. simpl. by rewrite E. Qed.

Lemma opt_ok {A} n (f : A -> payload) o :
  0 < n < 2 ^ 29 ->
  (forall x, o = Some x -> match f x with PVarint v => inU 64 v | PLen l => Forall is_byte l end) ->
  Forall field_ok (opt n f o).
Proof. intros Hn Hf. destruct o as [x|]; simpl; constructor; [|constructor]. split; [done|]. by apply Hf. Qed.

Ltac fields_ok :=
  repeat (apply Forall_app; split); apply opt_ok; try lia; intros ? _; simpl;
  try apply wrapU_range; try apply bytes_of_string_byte; try lia;
  try (unfold inU; case_match; lia).

Lemma fields_Task_ok m : Forall field_ok (fields_Task m).
Proof. unfold fields_Task. fields_ok. Qed.
Lemma fields_System_ok m : Forall field_ok (fields_System m).
Proof. unfold fields_System. fields_ok. Qed.
Lemma fields_Info_ok m : Forall field_ok (fields_Info m).
Proof. unfold fields_Info. fields_ok. Qed.
Lemma fields_Result_ok m : Forall field_ok (fields_Result m).
Proof. unfold fields_Result. fields_ok. Qed.

Lemma nested_ok (fs : list (Z * payload)) : Forall field_ok fs -> Forall is_byte (enc_fields fs).
Proof. apply enc_fields_byte. Qed.

Lemma fields_MPacket_ok p : Forall field_ok (fields_MPacket p).
Proof.
  unfold fields_MPacket. apply Forall_app; split; apply opt_ok; try lia; intros x _; apply nested_ok;
    [apply fields_Task_ok|apply fields_System_ok].
Qed.
Lemma fields_SPacket_ok p : Forall field_ok (fields_SPacket p).
Proof.
  unfold fields_SPacket. apply Forall_app; split; apply opt_ok; try lia; intros x _; apply nested_ok;
    [apply fields_Info_ok|apply fields_Result_ok].
Qed.

Lemma match_none_r {A} (o : option A) : match o with Some x => Some x | None => None end = o.
Proof. by destruct o. Qed.

Ltac find_it := rewrite ?find_app, ?find_opt; cbn [Z.eqb Pos.eqb]; rewrite ?match_none_r.

Lemma Task_roundtrip m : MTask_typed m -> Task_of (fields_Task m) = m.
Proof.
  destruct m as [i p o a c w s d b]. unfold MTask_typed, u32_field, Task_of, fields_Task; cbn. intros Hi.
  f_equal; find_it; cbn.
  - apply (bind_id (inU 32)); [apply g_u32_num|done].
  - apply (bind_id (fun _ => True)); [intros; apply g_str_str|by destruct p].
  - apply (bind_id (fun _ => True)); [intros; apply g_str_str|by destruct o].
  - apply (bind_id (fun _ => True)); [intros; apply g_str_str|by destruct a].
  - apply (bind_id (fun _ => True)); [intros; apply g_str_str|by destruct c].
  - apply (bind_id (fun _ => True)); [intros; apply g_str_str|by destruct w].
  - apply (bind_id (fun _ => True)); [intros; apply g_str_str|by destruct s].
  - apply (bind_id (fun _ => True)); [intros; apply g_str_str|by destruct d].
  - apply (bind_id (fun _ => True)); [intros; apply g_bool_bool|by destruct b].
Qed.

Lemma System_roundtrip m : System_of (fields_System m) = m.
Proof. by destruct m as [[[]|]]. Qed.

Lemma Info_roundtrip m : i32_field (si_task_count m) -> Info_of (fields_Info m) = m.
Proof.
  destruct m as [i]. unfold Info_of, fields_Info; cbn. intros Hi. f_equal. find_it; cbn.
  apply (bind_id (inS 32)); [apply g_i32_num|done].
Qed.

Lemma Result_roundtrip m : SResult_typed m -> Result_of (fields_Result m) = m.
Proof.
  destruct m as [i e p o d]. unfold SResult_typed, Result_of, fields_Result; cbn. intros (Hi & He & Hp).
  f_equal; find_it; cbn.
  - apply (bind_id (inU 32)); [apply g_u32_num|done].
  - apply (bind_id (inS 32)); [apply g_i32_num|done].
  - apply (bind_id (inS 32)); [apply g_i32_num|done].
  - apply (bind_id (fun _ => True)); [intros; apply g_str_str|by destruct o].
  - apply (bind_id (fun _ => True)); [intros; apply g_str_str|by destruct d].
Qed.

(** The size of a nested message is below that of the message around it. *)
Lemma enc_fields_app a b : enc_fields (a ++ b) = enc_fields a ++ enc_fields b.
Proof. unfold enc_fields. by rewrite fmap_app, concat_app. Qed.

Lemma nested_size n l : (length l <= length (enc_fields [(n, PLen l)]))%nat.
Proof. unfold enc_fields; simpl. rewrite !length_app. lia. Qed.

Lemma MPacket_roundtrip p :
  MPacket_typed p -> Z.of_nat (length (enc_fields (fields_MPacket p))) < 2 ^ 64 ->
  MPacket_of (fields_MPacket p) = p.
Proof.
  destruct p as [t s]. unfold MPacket_typed, MPacket_of, fields_MPacket; cbn [mp_task mp_system].
  rewrite enc_fields_app, length_app. intros Ht Hsize. f_equal; find_it; cbn [find_field match_none_r].
  - destruct t as [t|]; [|by destruct s]. pose proof (nested_size 1 (enc_fields (fields_Task t))).
    change (opt 1 _ (Some t)) with [(1, PLen (enc_fields (fields_Task t)))] in Hsize.
    assert (E : g_msg Task_of (PLen (enc_fields (fields_Task t))) = Some t).
    { apply (g_msg_enc Task_of fields_Task); [apply fields_Task_ok|lia|by apply Task_roundtrip]. }
    cbn [mbind option_bind]. rewrite E. by destruct s.
  - destruct s as [s|]; [|by destruct t]. pose proof (nested_size 2 (enc_fields (fields_System s))).
    change (opt 2 _ (Some s)) with [(2, PLen (enc_fields (fields_System s)))] in Hsize.
    assert (E : g_msg System_of (PLen (enc_fields (fields_System s))) = Some s).
    { apply (g_msg_enc System_of fields_System); [apply fields_System_ok|lia|apply System_roundtrip]. }
    cbn [mbind option_bind]. by rewrite E.
Qed.

Lemma SPacket_roundtrip p :
  SPacket_typed p -> Z.of_nat (length (enc_fields (fields_SPacket p))) < 2 ^ 64 ->
  SPacket_of (fields_SPacket p) = p.
Proof.
  destruct p as [t s]. unfold SPacket_typed, SPacket_of, fields_SPacket; cbn [sp_info sp_result].
  rewrite enc_fields_app, length_app. intros [Hi Hr] Hsize. f_equal; find_it; cbn [find_field match_none_r].
  - destruct t as [t|]; [|by destruct s]. pose proof (nested_size 1 (enc_fields (fields_Info t))).
    change (opt 1 _ (Some t)) with [(1, PLen (enc_fields (fields_Info t)))] in Hsize.
    assert (E : g_msg Info_of (PLen (enc_fields (fields_Info t))) = Some t).
    { apply (g_msg_enc Info_of fields_Info); [apply fields_Info_ok|lia|by apply Info_roundtrip]. }
    cbn [mbind option_bind]. rewrite E. by destruct s.
  - destruct s as [s|]; [|by destruct t]. pose proof (nested_size 2 (enc_fields (fields_Result s))).
    change (opt 2 _ (Some s)) with [(2, PLen (enc_fields (fields_Result s)))] in Hsize.
    assert (E : g_msg Result_of (PLen (enc_fields (fields_Result s))) = Some s).
    { apply (g_msg_enc Result_of fields_Result); [apply fields_Result_ok|lia|by apply Result_roundtrip]. }
    cbn [mbind option_bind]. by rewrite E.
Qed.

Lemma parse_serialize_fields {A} (rd : list (Z * payload) -> A) (wr : A -> list (Z * payload)) x :
  Forall field_ok (wr x) -> Z.of_nat (length (enc_fields (wr x))) < 2 ^ 64 -> rd (wr x) = x ->
  parse rd (serialize (wr x)) = x.
Proof.
  intros Hok Hsize E. unfold parse, serialize. rewrite bytes_string_bytes by (by apply enc_fields_byte).
  rewrite dec_enc_fields by done. exact E.
Qed.

Lemma serialize_length (fs : list (Z * payload)) :
  Forall field_ok fs -> str_len (serialize fs) = Z.of_nat (length (enc_fields fs)).
Proof.
  intros Hok. unfold str_len, serialize. rewrite <- bytes_of_string_length, bytes_string_bytes; [done|].
  by apply enc_fields_byte.
Qed.

(** How long an encoding can be. *)
Lemma varint_bytes_bound n v : (length (varint_bytes n v) <= n)%nat.
Proof.
  revert v. induction n as [|n IH]; intros v; [done|]. cbn [varint_bytes].
  destruct (v <? 128); simpl; [lia|]. specialize (IH (v / 128)). lia.
Qed.

Definition payload_length (p : payload) : nat := match p with PVarint _ => O | PLen l => length l end.

Lemma enc_field_bound f : (length (enc_field f) <= 20 + payload_length f.2)%nat.
Proof.
  destruct f as [n [v|l]]; cbn [enc_field snd payload_length]; rewrite !length_app; unfold varint.
  - pose proof (varint_bytes_bound 10 (MakeTag n WIRETYPE_VARINT)). pose proof (varint_bytes_bound 10 v). lia.
  - pose proof (varint_bytes_bound 10 (MakeTag n WIRETYPE_LENGTH_DELIMITED)).
    pose proof (varint_bytes_bound 10 (Z.of_nat (length l))). lia.
Qed.

Fixpoint fields_weight (fs : list (Z * payload)) : nat :=
  match fs with [] => O | f :: fs => 20 + payload_length f.2 + fields_weight fs end.

Lemma enc_fields_bound fs : (length (enc_fields fs) <= fields_weight fs)%nat.
Proof.
  induction fs as [|f fs IH]; [done|]. change (enc_fields (f :: fs)) with (enc_field f ++ enc_fields fs).
  rewrite length_app. cbn [fields_weight]. pose proof (enc_field_bound f). lia.
Qed.

(** ** The instances *)

#[export] Program Instance master_codec : MessageCodec MPacket := {|
  IsInitialized := MPacket_IsInitialized;
  typed := MPacket_typed;
  ByteSizeLong p := str_len (serialize (fields_MPacket p));
  SerializeToString p := serialize (fields_MPacket p);
  ParseFromArray := parse MPacket_of;
|}.
Next Obligation. done. Qed.
Next Obligation.
  intros p Ht _ Hs. change (str_len (serialize (fields_MPacket p)) < 2 ^ 31) in Hs.
  rewrite serialize_length in Hs by apply fields_MPacket_ok.
  apply parse_serialize_fields; [apply fields_MPacket_ok|lia|apply MPacket_roundtrip; [done|lia]].
Qed.

#[export] Program Instance slave_codec : MessageCodec SPacket := {|
  IsInitialized := SPacket_IsInitialized;
  typed := SPacket_typed;
  ByteSizeLong p := str_len (serialize (fields_SPacket p));
  SerializeToString p := serialize (fields_SPacket p);
  ParseFromArray := parse SPacket_of;
|}.
Next Obligation. done. Qed.
Next Obligation.
  intros p Ht _ Hs. change (str_len (serialize (fields_SPacket p)) < 2 ^ 31) in Hs.
  rewrite serialize_length in Hs by apply fields_SPacket_ok.
  apply parse_serialize_fields; [apply fields_SPacket_ok|lia|apply SPacket_roundtrip; [done|lia]].
Qed.

(** A result packet on the wire. *)
Example wire_result :
  SerializeToString (mkSPacket None (Some (mkSResult (Some 300) (Some (-1)) (Some 1) None (Some "ok")))) =
  string_of_bytes [18; 20; 8; 172; 2; 16; 255; 255; 255; 255; 255; 255; 255; 255; 255; 1; 24; 1; 42; 2; 111; 107].
Proof. vm_compute. reflexivity. Qed.
