(* ===== verification/Tasks.v ===== *)
(** * Task variables and task records ([console/console.h])

    [TaskVariables] with its placeholder substitution and [TaskInfo], the
    unit the console schedules. *)

From Stdlib Require Import String.
From S2P Require Import Prelude CxxStd External Messages.
Local Open Scope string_scope.
Local Open Scope Z_scope.
Local Open Scope list_scope.

Record TaskVariables := mkVars {
  PName : string;
  PDir : string;
  SDir : string;
  ODir : string;
  WDir : string;
  SFile : string;
  OFile : string;
  SourceFile : string;
  SourceFileName : string;
  OutputFile : string;
}.

Definition TaskVariables_init : TaskVariables := mkVars "" "" "" "" "" "" "" "" "" "".

Definition set_PName v x := mkVars v (PDir x) (SDir x) (ODir x) (WDir x) (SFile x) (OFile x)
  (SourceFile x) (SourceFileName x) (OutputFile x).
Definition set_PDir v x := mkVars (PName x) v (SDir x) (ODir x) (WDir x) (SFile x) (OFile x)
  (SourceFile x) (SourceFileName x) (OutputFile x).
Definition set_ODir v x := mkVars (PName x) (PDir x) (SDir x) v (WDir x) (SFile x) (OFile x)
  (SourceFile x) (SourceFileName x) (OutputFile x).
Definition set_SourceFile v x := mkVars (PName x) (PDir x) (SDir x) (ODir x) (WDir x) (SFile x)
  (OFile x) v (SourceFileName x) (OutputFile x).
Definition set_SourceFileName v x := mkVars (PName x) (PDir x) (SDir x) (ODir x) (WDir x) (SFile x)
  (OFile x) (SourceFile x) v (OutputFile x).
Definition set_OutputFile v x := mkVars (PName x) (PDir x) (SDir x) (ODir x) (WDir x) (SFile x)
  (OFile x) (SourceFile x) (SourceFileName x) v.

Section replace.
Context `{StringUtils}.

(** The nine substitutions, in the order of the code. *)
Definition replace (x : TaskVariables) (str : string) : string :=
  let out := str in
  let out := String_replace out "$(pname)" (PName x) true in
  let out := String_replace out "$(pdir)" (PDir x) true in
  let out := String_replace out "$(sdir)" (SDir x) true in
  let out := String_replace out "$(wdir)" (WDir x) true in
  let out := String_replace out "$(sfile)" (SFile x) true in
  let out := String_replace out "$(ofile)" (OFile x) true in
  let out := String_replace out "$(sourcefile)" (SourceFile x) true in
  let out := String_replace out "$(sourcefilename)" (SourceFileName x) true in
  let out := String_replace out "$(outputfile)" (OutputFile x) true in
  out.

(** The placeholders that [replace] looks for. *)
Definition placeholders : list string :=
  ["$(pname)"; "$(pdir)"; "$(sdir)"; "$(wdir)"; "$(sfile)"; "$(ofile)";
   "$(sourcefile)"; "$(sourcefilename)"; "$(outputfile)"].

Lemma replace_plain `{!StringUtilsLaws} x str :
  Forall (fun p => ~ occurs p str) placeholders -> replace x str = str.
Proof.
  unfold placeholders, replace. rewrite !Forall_cons.
  intros (? & ? & ? & ? & ? & ? & ? & ? & ? & _). simpl.
  by repeat rewrite (replace_absent str) by done.
Qed.

(** [ODir] takes no part in the substitution. *)
Lemma replace_ignores_ODir v x str : replace (set_ODir v x) str = replace x str.
Proof. done. Qed.
End replace.

(** A pointer to a [TcpProtobufNode] is the identity of the connection. *)
Abbreviation NodeId := positive.

Record TaskInfo := mkTaskInfo {
  m_vars : TaskVariables;
  m_message : MTask;
  m_node : option NodeId;
  m_exitCode : Z;
  m_result : Z;
  m_doneIp : string;
}.

Definition set_vars v t := mkTaskInfo v (m_message t) (m_node t) (m_exitCode t) (m_result t) (m_doneIp t).
Definition set_message v t := mkTaskInfo (m_vars t) v (m_node t) (m_exitCode t) (m_result t) (m_doneIp t).
Definition set_node v t := mkTaskInfo (m_vars t) (m_message t) v (m_exitCode t) (m_result t) (m_doneIp t).
Definition set_exitCode v t := mkTaskInfo (m_vars t) (m_message t) (m_node t) v (m_result t) (m_doneIp t).
Definition set_result v t := mkTaskInfo (m_vars t) (m_message t) (m_node t) (m_exitCode t) v (m_doneIp t).
Definition set_doneIp v t := mkTaskInfo (m_vars t) (m_message t) (m_node t) (m_exitCode t) (m_result t) v.

Section taskinfo.
Context `{ExitCodes}.

(** The member initialisers. *)
Definition TaskInfo_default : TaskInfo :=
  mkTaskInfo TaskVariables_init MTask_empty None 0 NoInit "".

Definition TaskInfo_new (id : Z) : TaskInfo := set_message (set_id id MTask_empty) TaskInfo_default.

(** [copyFrom] transfers the variables and the message only. *)
Definition copyFrom (dst src : TaskInfo) : TaskInfo :=
  set_message (m_message src) (set_vars (m_vars src) dst).

(** Copy and "move" construction. *)
Definition TaskInfo_copy (src : TaskInfo) : TaskInfo := copyFrom TaskInfo_default src.

(** Inserting at the end of a [std::vector]: the new elements are copy
    constructed, and the old ones too when the storage is reallocated. *)
Definition vector_append (realloc : bool) (v out : list TaskInfo) : list TaskInfo :=
  (if realloc then TaskInfo_copy <$> v else v) ++ (TaskInfo_copy <$> out).

(** A task nobody has worked on. *)
Definition fresh (t : TaskInfo) : Prop :=
  m_node t = None /\ m_exitCode t = 0 /\ m_result t = NoInit /\ m_doneIp t = "".

Lemma TaskInfo_copy_fresh t : fresh t -> TaskInfo_copy t = t.
Proof. destruct t. unfold fresh; simpl. intros (-> & -> & -> & ->). done. Qed.

Lemma TaskInfo_new_fresh id : fresh (TaskInfo_new id).
Proof. done. Qed.

Lemma map_copy_fresh l : Forall fresh l -> TaskInfo_copy <$> l = l.
Proof. induction 1; csimpl; [done|]. f_equal; [by apply TaskInfo_copy_fresh|done]. Qed.

(** Reallocation is invisible as long as no task has been handed out. *)
Lemma vector_append_fresh realloc v out :
  Forall fresh v -> Forall fresh out -> vector_append realloc v out = v ++ out.
Proof.
  intros Hv Ho. unfold vector_append. rewrite (map_copy_fresh out) by done.
  destruct realloc; [|done]. by rewrite map_copy_fresh.
Qed.
End taskinfo.

Definition task_id (t : TaskInfo) : option Z := mt_id (m_message t).

(** Every required field but the input data, which is filled in on sending. *)
Definition message_complete (t : TaskInfo) : Prop :=
  forall data, MTask_IsInitialized (set_inputdata data (m_message t)) = true.

(** What a task was made from. *)
Definition same_job (t t' : TaskInfo) : Prop := m_vars t' = m_vars t /\ m_message t' = m_message t.

#[export] Instance same_job_preorder : PreOrder same_job.
Proof. split; [done|]. intros t1 t2 t3 [E1 E2] [E3 E4]. split; congruence. Qed.
