(* ===== verification/TaskGen.v ===== *)
(** * From the build file to the task list ([console/console.cpp])

    [taskGenerator] expands one [Task] element, with or without a wildcard,
    and [loadConfig] runs it over the build set. *)

From Stdlib Require Import Ascii String.
From S2P Require Import Prelude CxxStd External Process Messages Tasks Projects.
Local Open Scope string_scope.
Local Open Scope Z_scope.
Local Open Scope list_scope.

(** [std::filesystem::path(s).filename().string()] on Windows: what follows
    the last separator, or the drive. *)
Fixpoint path_filename (s : string) : string :=
  match s with
  | EmptyString => ""
  | String a s' =>
      match find_char "\" s', find_char "/" s', find_char ":" s' with
      | None, None, None =>
          if bool_decide (a = "\"%char) || bool_decide (a = "/"%char) || bool_decide (a = ":"%char)
          then s' else s
      | _, _, _ => path_filename s'
      end
  end.

Section generator.
Context `{XmlDom D E} `{StringUtils} `{ExitCodes}.
(** [std::filesystem::directory_iterator]: the paths of the entries, or an
    exception. *)
Context (directory_iterator : string -> outcome (list string)).
Context (LoadFile : string -> option D).
(** Whether the growth of the task vector reallocates, given the old and the
    added length. *)
Context (realloc : nat -> nat -> bool).

Definition norm (s : string) : string := String_replace s "/" "\" true.

(** One iteration of the directory loop. *)
Definition match_entry (mask : string) (vars : TaskVariables) (outputFile : string)
    (entry : string) (acc : list TaskInfo * Z) : outcome (list TaskInfo * Z) :=
  let '(out, id) := acc in
  let filename := String_tolower entry in
  do suffix <- substr_from filename (u64 (str_len filename - str_len mask));
  if bool_decide (suffix = mask) then
    let id := u32 (id + 1) in
    let mti := TaskInfo_new id in
    let mti := set_vars (set_OutputFile outputFile (set_SourceFile filename vars)) mti in
    Ret (out ++ [mti], id)
  else Ret (out, id).

Definition mask_of (sourceFile : string) : outcome string :=
  match rfind_char "\" sourceFile with
  | Some p => do s <- substr_from sourceFile (p + 2); Ret (String_tolower s)
  | None => Ret (String_tolower sourceFile)
  end.

Definition dir_of (sourceFile : string) : string :=
  match rfind_char "\" sourceFile with
  | Some p => String.substring 0 (Z.to_nat p) sourceFile
  | None => ".\"
  end.

(** The part of [taskGenerator] that collects the raw tasks. *)
Definition collect (sourceFile outputFile : string) (vars : TaskVariables) (id : Z)
    : outcome (list TaskInfo * Z) :=
  match find_char "*" sourceFile with
  | Some _ =>
      let sourceFile := replace vars sourceFile in
      do mask <- mask_of sourceFile;
      do entries <- directory_iterator (dir_of sourceFile);
      ofold (match_entry mask vars outputFile) entries ([], id)
  | None =>
      let id := u32 (id + 1) in
      let mti := TaskInfo_new id in
      let mti := set_vars (set_OutputFile outputFile (set_SourceFile sourceFile vars)) mti in
      Ret ([mti], id)
  end.

(** The loop over the collected tasks: steps 1 to 4. *)
Definition finish_task (application params workingDir : string) (isAbortOnError : bool)
    (task : TaskInfo) : TaskInfo :=
  let v := m_vars task in
  let v := set_SourceFile (replace v (SourceFile v)) v in
  let v := set_SourceFileName (String_rawFilename (path_filename (SourceFile v))) v in
  let v := set_OutputFile (replace v (OutputFile v)) v in
  let curCommandline := replace v params in
  let curWorkingDir := replace v workingDir in
  let sourceFile := String_replace (SourceFile v) (PDir v) "$(pdir)" true in
  let outputFile := String_replace (OutputFile v) (PDir v) "$(pdir)" true in
  let curCommandline := String_replace curCommandline (PDir v) "$(pdir)" true in
  let curWorkingDir := String_replace curWorkingDir (PDir v) "$(pdir)" true in
  let m := m_message task in
  let m := set_project (PName v) m in
  let m := set_sourcefile sourceFile m in
  let m := set_outputfile outputFile m in
  let m := set_application (replace v application) m in
  let m := set_commandline curCommandline m in
  let m := set_workingdir curWorkingDir m in
  let m := set_abortonerror isAbortOnError m in
  set_message m (set_vars v task).

Definition taskGenerator (element : E) (vars : TaskVariables) (tasks : list TaskInfo) (id : Z)
    : outcome (bool * list TaskInfo * Z) :=
  let sourceFile := getAttributeString element "SourceFile" "" true in
  let outputFile := getAttributeString element "OutputFile" "" true in
  let application := getAttributeString element "Application" "" true in
  let params := getAttributeString element "Params" "" true in
  let workingDir := getAttributeString element "WorkingDir" "" true in
  let isAbortOnError := getAttributeBool element "AbortOnError" true in
  let sourceFile := norm sourceFile in
  let outputFile := norm outputFile in
  let application := norm application in
  let params := norm params in
  let workingDir := norm workingDir in
  do (out, id) <- collect sourceFile outputFile vars id;
  let out := finish_task application params workingDir isAbortOnError <$> out in
  let tasks :=
    if (0 <? Z.of_nat (length out))
    then vector_append (realloc (length tasks) (length out)) tasks out else tasks in
  Ret (true, tasks, id).

(** The loop over the [Task] elements of a project. *)
Fixpoint generate (elements : list E) (vars : TaskVariables) (tasks : list TaskInfo) (id : Z)
    : outcome (bool * list TaskInfo * Z) :=
  match elements with
  | [] => Ret (true, tasks, id)
  | element :: rest =>
      do (ok, tasks, id) <- taskGenerator element vars tasks id;
      if negb ok then Ret (false, tasks, id) else generate rest vars tasks id
  end.

(** The loop over the [Project] elements. *)
Fixpoint load_projects (prjs : list E) (projects : Projects) (vars : TaskVariables)
    (tasks : list TaskInfo) (id : Z) : outcome (bool * list TaskInfo * Z) :=
  match prjs with
  | [] => Ret (true, tasks, id)
  | project :: rest =>
      let prjName := getAttributeString project "Name" "" true in
      match getProject projects prjName with
      | None => load_projects rest projects vars tasks id
      | Some prj =>
          let prjVars := set_PDir (m_path prj) (set_PName prjName vars) in
          do (ok, tasks, id) <- generate (children project "Task") prjVars tasks id;
          if negb ok then Ret (false, tasks, id)
          else load_projects rest projects vars tasks id
      end
  end.

Definition loadConfig (filename : string) (projects : Projects) (vars : TaskVariables)
    (tasks : list TaskInfo) : outcome (bool * list TaskInfo) :=
  let id := 0 in
  match LoadFile filename with
  | None => Ret (false, tasks)
  | Some doc =>
      match doc_FirstChildElement doc "BuildSet" with
      | None => Ret (false, tasks)
      | Some root =>
          do (ok, tasks, id) <- load_projects (children root "Project") projects vars tasks id;
          if negb ok then Ret (false, tasks)
          else Ret (0 <? Z.of_nat (length tasks), tasks)
      end
  end.
End generator.

(** ** Numbering *)

(** The identifiers [k + 1], [k + 2], ... of a 32-bit counter. *)
Definition expected_ids (k : Z) (n : nat) : list (option Z) :=
  (fun i => Some (u32 (k + Z.of_nat i))) <$> seq 1 n.

Record batch (P : TaskInfo -> Prop) (k : Z) (l : list TaskInfo) (k' : Z) : Prop := {
  batch_ids : task_id <$> l = expected_ids k (length l);
  batch_next : k' = u32 (k + Z.of_nat (length l));
  batch_all : Forall P l;
}.

Lemma u32_add_l a b : u32 (u32 a + b) = u32 (a + b).
Proof. apply Zplus_mod_idemp_l. Qed.

Lemma expected_ids_app k n m :
  expected_ids k (n + m) = expected_ids k n ++ expected_ids (u32 (k + Z.of_nat n)) m.
Proof.
  unfold expected_ids. rewrite seq_app, fmap_app. f_equal.
  replace (1 + n)%nat with (n + 1)%nat by lia. rewrite <- (fmap_add_seq n 1 m).
  rewrite <- list_fmap_compose.
  apply list_fmap_ext. intros i x _. simpl. f_equal. rewrite u32_add_l. f_equal. lia.
Qed.

Lemma batch_nil P k : inU 32 k -> batch P k [] k.
Proof.
  intros Hk. split; try done. simpl. rewrite Z.add_0_r. by rewrite wrapU_id.
Qed.

Lemma batch_app P k l1 k1 l2 k2 :
  batch P k l1 k1 -> batch P k1 l2 k2 -> batch P k (l1 ++ l2) k2.
Proof.
  intros [I1 -> A1] [I2 -> A2]. split.
  - by rewrite fmap_app, length_app, expected_ids_app, I1, I2.
  - rewrite length_app, u32_add_l. f_equal. lia.
  - by apply Forall_app.
Qed.

Lemma batch_one (P : TaskInfo -> Prop) k t :
  P t -> task_id t = Some (u32 (k + 1)) -> batch P k [t] (u32 (k + 1)).
Proof. intros HP Hid. split; [by simpl; rewrite Hid|done|by constructor]. Qed.

Lemma batch_map (P Q : TaskInfo -> Prop) f k l k' :
  (forall t, P t -> Q (f t) /\ task_id (f t) = task_id t) ->
  batch P k l k' -> batch Q k (f <$> l) k'.
Proof.
  intros Hf [Hi Hn Ha]. split; rewrite ?length_fmap; try done.
  - rewrite <- Hi, <- list_fmap_compose. clear Hi Hn.
    induction Ha as [|t l Ht Ha IH]; csimpl; [done|]. f_equal; [by apply Hf|done].
  - apply Forall_fmap. eapply Forall_impl; [exact Ha|]. intros t Ht. by apply Hf.
Qed.

(** ** Tasks ready to be sent *)

(** Only [inputData] is missing; [sendTasksToSlave] fills it in. *)
Definition ready (t : TaskInfo) `{ExitCodes} : Prop :=
  fresh t /\ mt_inputData (m_message t) = None /\ MTask_typed (m_message t) /\
  message_complete t.

Definition raw (t : TaskInfo) `{ExitCodes} : Prop :=
  fresh t /\ exists id, m_message t = set_id id MTask_empty.

Lemma ready_fresh `{ExitCodes} l : Forall (fun t => ready t) l -> Forall fresh l.
Proof. intros Hl. eapply Forall_impl; [exact Hl|]. by intros t []. Qed.

Section generator_facts.
Context `{XmlDom D E} `{StringUtils} `{ExitCodes}.
Context (directory_iterator : string -> outcome (list string)).
Context (LoadFile : string -> option D).
Context (realloc : nat -> nat -> bool).

Lemma finish_task_ready a p w b t :
  raw t -> ready (finish_task a p w b t) /\ task_id (finish_task a p w b t) = task_id t.
Proof.
  intros [Hf [id Hm]]. destruct t as [v m ? ? ? ?]. simpl in Hm. subst m.
  split; [|done]. split; [by destruct Hf as (?&?&?&?)|].
  split; [done|]. split; [|by intros].
  apply (wrapU_range 32 id). lia.
Qed.

Lemma match_entry_batch mask v o entry k out id out' id' :
  batch (fun t => raw t) k out id ->
  match_entry mask v o entry (out, id) = Ret (out', id') ->
  batch (fun t => raw t) k out' id'.
Proof.
  intros Hb HR. unfold match_entry in HR.
  apply obind_Ret_inv in HR as (suffix & _ & HR).
  case_bool_decide; simplify_eq; [|done].
  eapply batch_app; [exact Hb|]. apply batch_one; [by split; [|eexists]|].
  unfold task_id; simpl. by rewrite wrapU_idem.
Qed.

Lemma collect_batch sf o v id out id' :
  inU 32 id -> collect directory_iterator sf o v id = Ret (out, id') ->
  batch (fun t => raw t) id out id'.
Proof.
  unfold collect. intros Hid HR. destruct (find_char "*" sf).
  - apply obind_Ret_inv in HR as (mask & _ & HR).
    apply obind_Ret_inv in HR as (entries & _ & HR).
    change out with (out, id').1. change id' with (out, id').2.
    refine (ofold_inv (fun s => batch (fun t => raw t) id s.1 s.2) _ _ ([], id) _ _ _ HR).
    + intros entry [o1 i1] [o2 i2] _ Hb Hm. eapply match_entry_batch; [exact Hb|exact Hm].
    + by apply batch_nil.
  - simplify_eq. apply batch_one; [by split; [|eexists]|].
    unfold task_id; simpl. by rewrite wrapU_idem.
Qed.

Lemma batch_inU P k l k' : batch P k l k' -> inU 32 k'.
Proof. intros [_ -> _]. apply (wrapU_range 32). lia. Qed.

Lemma taskGenerator_batch e v k tasks id ok tasks' id' :
  inU 32 id -> batch (fun t => ready t) k tasks id ->
  taskGenerator directory_iterator realloc e v tasks id = Ret (ok, tasks', id') ->
  ok = true /\ batch (fun t => ready t) k tasks' id'.
Proof.
  unfold taskGenerator. intros Hid Hb HR.
  apply obind_Ret_inv in HR as ([out i] & Hc & HR).
  apply collect_batch in Hc; [|done].
  apply (batch_map _ (fun t => ready t) _ _ _ _ (finish_task_ready
    (norm (getAttributeString e "Application" "" true))
    (norm (getAttributeString e "Params" "" true))
    (norm (getAttributeString e "WorkingDir" "" true))
    (getAttributeBool e "AbortOnError" true))) in Hc.
  injection HR as <- <- <-. split; [done|].
  destruct (0 <? _) eqn:E0.
  - rewrite vector_append_fresh; [by eapply batch_app|..];
      apply ready_fresh; eapply batch_all; eauto.
  - rewrite length_fmap in E0. apply Z.ltb_ge in E0.
    destruct out; [|cbn [length] in E0; lia]. simpl in *.
    pose proof (batch_app _ _ _ _ _ _ Hb Hc) as Hb'. by rewrite app_nil_r in Hb'.
Qed.

Lemma generate_batch l v k tasks id ok tasks' id' :
  inU 32 id -> batch (fun t => ready t) k tasks id ->
  generate directory_iterator realloc l v tasks id = Ret (ok, tasks', id') ->
  ok = true /\ batch (fun t => ready t) k tasks' id'.
Proof.
  revert tasks id. induction l as [|e l IH]; intros tasks id Hid Hb HR; simpl in HR.
  - by simplify_eq.
  - apply obind_Ret_inv in HR as ([[ok1 t1] i1] & Hg & HR).
    apply (taskGenerator_batch _ _ k) in Hg as [-> Hb1]; [|done..]. simpl in HR.
    eapply IH; [|exact Hb1|exact HR]. by eapply batch_inU.
Qed.

Lemma load_projects_batch l projects v k tasks id ok tasks' id' :
  inU 32 id -> batch (fun t => ready t) k tasks id ->
  load_projects directory_iterator realloc l projects v tasks id = Ret (ok, tasks', id') ->
  ok = true /\ batch (fun t => ready t) k tasks' id'.
Proof.
  revert tasks id. induction l as [|e l IH]; intros tasks id Hid Hb HR; simpl in HR.
  - by simplify_eq.
  - destruct (getProject _ _) as [prj|]; [|by eapply IH].
    apply obind_Ret_inv in HR as ([[ok1 t1] i1] & Hg & HR).
    apply (generate_batch _ _ k) in Hg as [-> Hb1]; [|done..]. simpl in HR.
    eapply IH; [|exact Hb1|exact HR]. by eapply batch_inU.
Qed.

Lemma loadConfig_batch filename projects v ok tasks :
  loadConfig directory_iterator LoadFile realloc filename projects v [] = Ret (ok, tasks) ->
  exists id, batch (fun t => ready t) 0 tasks id.
Proof.
  assert (Hz : batch (fun t => ready t) 0 [] 0) by (apply batch_nil; unfold inU; lia).
  unfold loadConfig. intros HR.
  destruct (LoadFile filename) as [doc|]; [|by simplify_eq; eauto].
  destruct (doc_FirstChildElement doc "BuildSet") as [root|]; [|by simplify_eq; eauto].
  apply obind_Ret_inv in HR as ([[ok1 t1] i1] & Hg & HR).
  apply (load_projects_batch _ _ _ 0) in Hg as [-> Hb]; [|unfold inU; lia|done].
  simpl in HR. simplify_eq. eauto.
Qed.
Lemma loadConfig_nonempty filename projects v tasks :
  loadConfig directory_iterator LoadFile realloc filename projects v [] = Ret (true, tasks) -> tasks <> [].
Proof.
  unfold loadConfig. destruct (LoadFile filename) as [doc|]; [|done].
  destruct (doc_FirstChildElement doc "BuildSet") as [root|]; [|done].
  intros ([[ok1 t1] i1] & _ & HR)%obind_Ret_inv. destruct ok1; simpl in HR; [|done].
  injection HR as Hl <-. by intros ->.
Qed.
End generator_facts.

(** ** The wildcard *)

Lemma substr_suffix m s :
  str_len m < 2 ^ 63 -> str_len s < 2 ^ 63 ->
  substr_from s (u64 (str_len s - str_len m)) =
    if decide (str_len m <= str_len s) then Ret (suffix_of (String.length m) s)
    else Throw out_of_range.
Proof.
  unfold substr_from, suffix_of, str_len. intros Hm Hs. case_decide as Hd.
  - rewrite wrapU_id by (unfold inU; lia).
    replace (_ <? _) with false by (symmetry; lia).
    by replace (Z.to_nat (Z.of_nat (String.length s) - Z.of_nat (String.length m)))
      with (String.length s - String.length m)%nat by lia.
  - replace (u64 _) with (Z.of_nat (String.length s) - Z.of_nat (String.length m) + 2 ^ 64).
    + replace (_ <? _) with true by (symmetry; lia). done.
    + symmetry. symmetry. unfold wrapU. apply (Z.mod_unique _ _ (-1)); lia.
Qed.

Section wildcard.
Context `{StringUtils} `{ExitCodes}.
Context (mask : string) (vars : TaskVariables) (outputFile : string).
Hypothesis mask_size : str_len mask < 2 ^ 63.

(** An entry that [substr] accepts. *)
Definition long_enough (f : string) : Prop := str_len mask <= str_len f < 2 ^ 63.

Lemma match_entry_spec entry out id :
  long_enough (String_tolower entry) ->
  match_entry mask vars outputFile entry (out, id) =
    if decide (ends_with mask (String_tolower entry)) then
      Ret (out ++ [set_vars (set_OutputFile outputFile (set_SourceFile (String_tolower entry) vars))
                     (TaskInfo_new (u32 (id + 1)))], u32 (id + 1))
    else Ret (out, id).
Proof using mask_size.
  intros Hl. unfold match_entry. rewrite substr_suffix by (destruct Hl; done).
  rewrite decide_True by (by destruct Hl). simpl.
  pose proof (suffix_of_spec mask (String_tolower entry)) as Hs.
  assert (Hle : (String.length mask <= String.length (String_tolower entry))%nat)
    by (destruct Hl as [Hl _]; unfold str_len in Hl; lia).
  specialize (Hs Hle). case_decide as Hd; case_bool_decide as Hb; tauto || done.
Qed.

Lemma match_entries_spec entries out id :
  Forall (fun e => long_enough (String_tolower e)) entries ->
  exists out' id',
    ofold (match_entry mask vars outputFile) entries (out, id) = Ret (out ++ out', id') /\
    (fun t => SourceFile (m_vars t)) <$> out' = filter (ends_with mask) (String_tolower <$> entries).
Proof using mask_size.
  revert out id. induction entries as [|e l IH]; intros out id Hl.
  - exists [], id. by rewrite app_nil_r.
  - apply Forall_cons in Hl as [He Hl]. cbn [ofold]. rewrite match_entry_spec by done.
    rewrite fmap_cons. case_decide as Hd.
    + rewrite filter_cons_True by done. simpl.
      match goal with |- context [ofold _ l (out ++ [?t], ?i)] =>
        destruct (IH (out ++ [t]) i Hl) as (out' & id' & HR & Hf); exists (t :: out'), id' end.
      rewrite HR, <- app_assoc. split; [done|]. rewrite fmap_cons. by rewrite Hf.
    + rewrite filter_cons_False by done. simpl. apply (IH out id Hl).
Qed.
End wildcard.

Section generator_theorems.
Context `{XmlDom D E} `{StringUtils} `{ExitCodes}.
Context (directory_iterator : string -> outcome (list string)).
Context (LoadFile : string -> option D).
Context (realloc : nat -> nat -> bool).

(** C15: the tasks of a build set are numbered 1, 2, 3, ... in the order of
    the file, across all projects and wildcards, so no two tasks share an
    identifier (while there are fewer than 2^32 of them). *)
Theorem loadConfig_numbering filename projects vars ok tasks :
  loadConfig directory_iterator LoadFile realloc filename projects vars [] = Ret (ok, tasks) ->
  Z.of_nat (length tasks) < 2 ^ 32 ->
  task_id <$> tasks = (fun i => Some (Z.of_nat i)) <$> seq 1 (length tasks) /\
  NoDup (task_id <$> tasks).
Proof.
  intros HR Hn. destruct (loadConfig_batch _ _ _ _ _ _ _ _ HR) as [id [Hi _ _]].
  assert (E1 : task_id <$> tasks = (fun i => Some (Z.of_nat i)) <$> seq 1 (length tasks)).
  { rewrite Hi. unfold expected_ids. apply list_fmap_ext.
    intros i x Hx%lookup_seq. by rewrite wrapU_id by (unfold inU; lia). }
  split; [done|]. rewrite E1. apply NoDup_fmap_2_strong; [|apply NoDup_seq].
  intros a b _ _ Hab. by simplify_eq.
Qed.

(** C16: every task that [loadConfig] hands to the server is untouched - no
    node, no exit code, no result - and its message lacks nothing but the
    input data that is loaded when it is sent: all other required fields of
    [Master.Task] are set. *)
Theorem loadConfig_ready filename projects vars ok tasks :
  loadConfig directory_iterator LoadFile realloc filename projects vars [] = Ret (ok, tasks) ->
  Forall (fun t => ready t) tasks.
Proof.
  intros HR. destruct (loadConfig_batch _ _ _ _ _ _ _ _ HR) as [id Hb]. by destruct Hb.
Qed.

(** A wildcard expands to exactly the directory entries whose lower-case
    path ends with the text after the asterisk, in directory order, whenever
    every entry is at least as long as that text. *)
Lemma collect_wildcard sourceFile outputFile vars id mask entries :
  find_char "*" sourceFile <> None ->
  mask_of (replace vars sourceFile) = Ret mask -> str_len mask < 2 ^ 63 ->
  directory_iterator (dir_of (replace vars sourceFile)) = Ret entries ->
  Forall (fun e => long_enough mask (String_tolower e)) entries ->
  exists out id',
    collect directory_iterator sourceFile outputFile vars id = Ret (out, id') /\
    (fun t => SourceFile (m_vars t)) <$> out =
      filter (ends_with mask) (String_tolower <$> entries).
Proof.
  intros Hstar Hmask Hlen Hdir Hl. unfold collect.
  destruct (find_char "*" sourceFile); [|done]. rewrite Hmask, Hdir. simpl.
  exact (match_entries_spec mask vars outputFile Hlen entries [] id Hl).
Qed.

(** A directory entry whose path is shorter than the wildcard's suffix
    makes the generator throw [std::out_of_range]: [filename.size() -
    mask.size()] wraps around below zero and [substr] rejects it. *)
Lemma collect_short_entry_throws sourceFile outputFile vars id mask entry entries :
  find_char "*" sourceFile <> None ->
  mask_of (replace vars sourceFile) = Ret mask -> str_len mask < 2 ^ 63 ->
  directory_iterator (dir_of (replace vars sourceFile)) = Ret (entry :: entries) ->
  str_len (String_tolower entry) < str_len mask ->
  collect directory_iterator sourceFile outputFile vars id = Throw out_of_range.
Proof.
  intros Hstar Hmask Hlen Hdir Hs. unfold collect.
  destruct (find_char "*" sourceFile); [|done]. rewrite Hmask, Hdir. simpl.
  unfold match_entry. rewrite substr_suffix by lia. by rewrite decide_False by lia.
Qed.
End generator_theorems.

(** ** A build set *)

Module Toy_build.
Definition task s o := ToyElt "Task" [("SourceFile", s); ("OutputFile", o); ("Params", "-i $(sourcefile)")] None [] [].
Definition project n l := ToyElt "Project" [("Name", n)] None l [].
Definition doc : list toy_elt :=
  [ToyElt "BuildSet" [] None
     [project "game" [task "$(pdir)/a.c" "$(pdir)/a.o"; task "$(pdir)/src/*.uc" "$(sourcefilename).o"];
      project "unknown" [task "x" "y"]; project "game" [task "b.c" "b.o"]] []].
Definition projects : Projects :=
  set_items {["game" := mkItem "game" "d:\g" "c:\tmp\"]} Projects_init.
Definition listing (dir : string) : outcome (list string) :=
  if bool_decide (dir = "d:\g\src") then Ret ["d:\g\src\One.uc"; "d:\g\src\two.txt"; "d:\g\src\three.uc"]
  else Throw filesystem_error.
Definition load :=
  loadConfig listing (fun _ => Some doc) (fun _ _ => true) "b.xml" projects TaskVariables_init [].
Definition tasks : list TaskInfo := match load with Ret (_, t) => t | _ => [] end.
End Toy_build.

Example Toy_build_sources :
  (fun t => SourceFile (m_vars t)) <$> Toy_build.tasks
  = ["d:\g\a.c"; "d:\g\src\one.uc"; "d:\g\src\three.uc"; "b.c"].
Proof. vm_compute. reflexivity. Qed.

Example Toy_build_message :
  mt_sourceFile <$> (m_message <$> Toy_build.tasks !! 1%nat) = Some (Some "$(pdir)\src\one.uc").
Proof. vm_compute. reflexivity. Qed.

Lemma loadConfig_numbering_witness :
  task_id <$> Toy_build.tasks = [Some 1; Some 2; Some 3; Some 4] /\
  NoDup (task_id <$> Toy_build.tasks).
Proof.
  apply (loadConfig_numbering Toy_build.listing (fun _ => Some Toy_build.doc) (fun _ _ => true)
    "b.xml" Toy_build.projects TaskVariables_init true); [vm_compute; reflexivity|vm_compute; reflexivity].
Defined.

Lemma loadConfig_ready_witness : Forall (fun t => ready t) Toy_build.tasks.
Proof.
  apply (loadConfig_ready Toy_build.listing (fun _ => Some Toy_build.doc) (fun _ _ => true)
    "b.xml" Toy_build.projects TaskVariables_init true). vm_compute. reflexivity.
Defined.

Lemma collect_wildcard_witness :
  exists out id',
    collect Toy_build.listing "$(pdir)\src\*.uc" "o"
      (set_PDir "d:\g" TaskVariables_init) 0 = Ret (out, id') /\
    (fun t => SourceFile (m_vars t)) <$> out = ["d:\g\src\one.uc"; "d:\g\src\three.uc"].
Proof.
  replace ["d:\g\src\one.uc"; "d:\g\src\three.uc"] with
    (filter (ends_with ".uc") (String_tolower <$> ["d:\g\src\One.uc"; "d:\g\src\two.txt"; "d:\g\src\three.uc"]))
    by (vm_compute; reflexivity).
  apply (collect_wildcard Toy_build.listing "$(pdir)\src\*.uc" "o"
    (set_PDir "d:\g" TaskVariables_init) 0 ".uc"
    ["d:\g\src\One.uc"; "d:\g\src\two.txt"; "d:\g\src\three.uc"]).
  - vm_compute; discriminate.
  - vm_compute; reflexivity.
  - vm_compute; reflexivity.
  - vm_compute; reflexivity.
  - repeat apply Forall_cons_2; [..|apply Forall_nil_2];
      (split; [vm_compute; discriminate|vm_compute; reflexivity]).
Defined.

Lemma collect_short_entry_throws_witness :
  collect (fun _ => Ret ["s\x"]) "s\*.json" "o" TaskVariables_init 0 = Throw out_of_range.
Proof.
  apply (collect_short_entry_throws (fun _ => Ret ["s\x"]) "s\*.json" "o" TaskVariables_init 0
    ".json" "s\x" []); vm_compute; (reflexivity || discriminate).
Defined.
