(* ===== verification/Server.v ===== *)
(** * The console's TCP server ([console/tcp_protobufserver.cpp])

    [TcpProtobufServer] hands the tasks of the vector to the connected
    daemons and takes their results.  A connection is identified by a
    [NodeId], which stands for the address of its [TcpProtobufNode]; a task
    refers to the node it was given to by that identity, as the pointer
    [TaskInfo::m_node] does. *)

From Stdlib Require Import String.
From S2P Require Import Prelude CxxStd External Process Messages Tasks.
Local Open Scope string_scope.
Local Open Scope Z_scope.
Local Open Scope list_scope.

Record Server (N F : Type) := mkServer {
  sv_tasks : list TaskInfo;
  sv_nodes : gmap NodeId (TcpProtobufNode N);
  sv_clients : list NodeId;
  sv_fs : F;
}.
Arguments mkServer {N F} _ _ _ _.
Arguments sv_tasks {N F} _.
Arguments sv_nodes {N F} _.
Arguments sv_clients {N F} _.
Arguments sv_fs {N F} _.

Section server.
Context {N : Type} `{PacketNode N} {F : Type} `{FileSystem F} `{ExitCodes}.
Context `{MessageCodec MPacket} `{MessageCodec SPacket}.
(** [su::Net::Node::fullId]. *)
Context (fullId : NodeId -> string).
Implicit Types (s : Server N F) (nid : NodeId) (node : TcpProtobufNode N).

Definition set_tasks (ts : list TaskInfo) s : Server N F :=
  mkServer ts (sv_nodes s) (sv_clients s) (sv_fs s).
Definition set_client nid node s : Server N F :=
  mkServer (sv_tasks s) (<[nid := node]> (sv_nodes s)) (sv_clients s) (sv_fs s).
Definition set_fs (f : F) s : Server N F :=
  mkServer (sv_tasks s) (sv_nodes s) (sv_clients s) f.
Definition with_freeCores (v : Z) node : TcpProtobufNode N := mkNode (pn_base node) v.

(** The test that skips a task: it has a node, or it has a result. *)
Definition busy (task : TaskInfo) : bool := has (m_node task) || negb (m_result task =? NoInit).

(** The packet for a task: its message with the source file as input data. *)
Definition task_packet (f : F) (task : TaskInfo) : MTask :=
  let '(_, data) := fs_load f (SourceFile (m_vars task)) in
  set_inputdata data (m_message task).

(** The loop of [sendTasksToSlave]. *)
Fixpoint send_loop (f : F) nid node (tasks : list TaskInfo)
    : bool * TcpProtobufNode N * list TaskInfo :=
  match tasks with
  | [] => (true, node, [])
  | task :: rest =>
      if busy task then
        let '(r, node, rest) := send_loop f nid node rest in (r, node, task :: rest)
      else
        let packet := task_packet f task in
        if negb (MTask_IsInitialized packet) then (false, node, task :: rest)
        else
          let task := set_node (Some nid) task in
          let '(_, node) := send node (mkMPacket (Some packet) None) in
          let node := with_freeCores (i32 (m_freeCores node - 1)) node in
          (true, node, task :: rest)
  end.

Definition sendTasksToSlave nid s : bool * Server N F :=
  match sv_nodes s !! nid with
  | None => (true, s)
  | Some node =>
      if m_freeCores node <=? 0 then (true, s)
      else
        let '(r, node, tasks) := send_loop (sv_fs s) nid node (sv_tasks s) in
        (r, set_client nid node (set_tasks tasks s))
  end.

(** What [applyResultFromSlave] does to the matching task. *)
Definition apply_result (f : F) nid (packet : SResult) (task : TaskInfo) : TaskInfo * F :=
  let task := set_exitCode (get_num_field (sr_exit_code packet)) task in
  let task := set_result (get_num_field (sr_process_code packet)) task in
  let task := set_doneIp (fullId nid) task in
  let task := set_node None task in
  if (m_exitCode task =? 0) && (m_result task =? Exited) && has (sr_outputData packet) then
    let '(code, f) := fs_save f (OutputFile (m_vars task)) (get_str_field (sr_outputData packet)) in
    (set_exitCode (i32 code) task, f)
  else (task, f).

(** The test that finds the task a result belongs to. *)
Definition result_for nid (packet : SResult) (task : TaskInfo) : bool :=
  bool_decide (m_node task = Some nid)
  && (get_num_field (sr_id packet) =? get_num_field (mt_id (m_message task))).

Fixpoint apply_loop (f : F) nid (packet : SResult) (tasks : list TaskInfo)
    : bool * list TaskInfo * F :=
  match tasks with
  | [] => (false, [], f)
  | task :: rest =>
      if negb (result_for nid packet task) then
        let '(r, rest, f) := apply_loop f nid packet rest in (r, task :: rest, f)
      else
        let '(task, f) := apply_result f nid packet task in (true, task :: rest, f)
  end.

Definition applyResultFromSlave nid (packet : SResult) s : bool * Server N F :=
  let '(r, tasks, f) := apply_loop (sv_fs s) nid packet (sv_tasks s) in
  (r, set_fs f (set_tasks tasks s)).

(** The part of [doWork] after the base class has done its work. *)
Definition doWork s : Server N F :=
  fold_left (fun s nid => (sendTasksToSlave nid s).2) (sv_clients s) s.

Definition release nid (task : TaskInfo) : TaskInfo :=
  if bool_decide (m_node task = Some nid) then set_node None task else task.

Definition onClientDisconnected nid s : Server N F :=
  set_tasks (release nid <$> sv_tasks s) s.

(** One packet of a slave, once it has been parsed. *)
Definition handle_packet nid (packet : SPacket) s : Server N F :=
  let s :=
    match sp_info packet, sv_nodes s !! nid with
    | Some info, Some node =>
        let s := set_client nid (with_freeCores (get_num_field (si_task_count info)) node) s in
        (sendTasksToSlave nid s).2
    | _, _ => s
    end in
  match sp_result packet with
  | Some result => (applyResultFromSlave nid result s).2
  | None => s
  end.

(** The packet loop of [onRecvFromNode]; the queue bounds its length. *)
Fixpoint recv_loop (fuel : nat) nid s : bool * Server N F :=
  match fuel, sv_nodes s !! nid with
  | S fuel, Some node =>
      if Nat.ltb 0 (countRecvPackets (pn_base node)) then
        let '(data, base) := extractRecvPacket (pn_base node) in
        let s := set_client nid (mkNode base (m_freeCores node)) s in
        let packet := ParseFromArray data in
        if negb (SPacket_IsInitialized packet) then (false, s)
        else recv_loop fuel nid (handle_packet nid packet s)
      else (true, s)
  | _, _ => (true, s)
  end.

Definition queue_length nid s : nat :=
  match sv_nodes s !! nid with Some node => countRecvPackets (pn_base node) | None => O end.

Definition onRecvFromNode nid s : bool * Server N F := recv_loop (S (queue_length nid s)) nid s.

(** [newClient], and the base class adding the node to [m_clients]. *)
Definition newClient nid (base : N) s : Server N F :=
  mkServer (sv_tasks s) (<[nid := TcpProtobufNode_new base]> (sv_nodes s))
    (sv_clients s ++ [nid]) (sv_fs s).

(** The base class drops a connection after [onClientDisconnected]. *)
Definition drop_client nid s : Server N F :=
  let s := onClientDisconnected nid s in
  mkServer (sv_tasks s) (delete nid (sv_nodes s)) (filter (fun n => n <> nid) (sv_clients s)) (sv_fs s).

Definition close_packet : MPacket := mkMPacket None (Some (mkMSystem (Some true))).

Definition closeAllClients s : Server N F :=
  fold_left (fun s nid =>
    match sv_nodes s !! nid with
    | Some node => set_client nid (send node close_packet).2 s
    | None => s
    end) (sv_clients s) s.

Definition Server_init (tasks : list TaskInfo) (f : F) : Server N F := mkServer tasks ∅ [] f.
End server.

(** ** The loops *)

Section loops.
Context {N : Type} `{PacketNode N} {F : Type} `{FileSystem F} `{ExitCodes}.
Context `{MessageCodec MPacket} `{MessageCodec SPacket}.
Context (fullId : NodeId -> string).
Implicit Types (s : Server N F) (nid : NodeId) (node : TcpProtobufNode N).

(** The first task that is not busy, with what surrounds it. *)
Lemma first_free tasks :
  Forall (fun t => busy t = true) tasks \/
  exists pre t post, tasks = pre ++ t :: post /\
    Forall (fun t => busy t = true) pre /\ busy t = false.
Proof.
  induction tasks as [|t l IH]; [by left; constructor|].
  destruct (busy t) eqn:E.
  - destruct IH as [IH|(pre & u & post & -> & Hp & Hu)]; [left; by constructor|].
    right. exists (t :: pre), u, post. repeat split; [by constructor|done].
  - right. exists [], t, l. by repeat split; [constructor|].
Qed.

Lemma send_loop_all_busy (f : F) nid node tasks :
  Forall (fun t => busy t = true) tasks -> send_loop f nid node tasks = (true, node, tasks).
Proof.
  induction 1 as [|t l Ht Hl IH]; [done|]. cbn [send_loop]. by rewrite Ht, IH.
Qed.

(** The node after a task packet has been sent to it. *)
Definition node_after (f : F) node (t : TaskInfo) : TcpProtobufNode N :=
  with_freeCores (i32 (m_freeCores node - 1))
    (send node (mkMPacket (Some (task_packet f t)) None)).2.

Lemma send_loop_first (f : F) nid node pre t post :
  Forall (fun t => busy t = true) pre -> busy t = false ->
  send_loop f nid node (pre ++ t :: post) =
    if MTask_IsInitialized (task_packet f t)
    then (true, node_after f node t, pre ++ set_node (Some nid) t :: post)
    else (false, node, pre ++ t :: post).
Proof.
  intros Hp Ht. induction Hp as [|u l Hu Hl IH].
  - cbn [send_loop app]. rewrite Ht.
    destruct (MTask_IsInitialized (task_packet f t)); [|done]. unfold node_after. simpl.
    pose proof (send_freeCores node (mkMPacket (Some (task_packet f t)) None)) as Hf.
    destruct (send node _) as [r node']. simpl in *. by rewrite Hf.
  - cbn [send_loop app]. rewrite Hu, IH. by destruct (MTask_IsInitialized _).
Qed.

Lemma apply_loop_none f nid packet tasks :
  Forall (fun t => result_for nid packet t = false) tasks ->
  apply_loop fullId f nid packet tasks = (false, tasks, f).
Proof.
  induction 1 as [|t l Ht Hl IH]; [done|]. cbn [apply_loop]. by rewrite Ht, IH.
Qed.

Lemma apply_loop_first f nid packet pre t post :
  Forall (fun t => result_for nid packet t = false) pre -> result_for nid packet t = true ->
  apply_loop fullId f nid packet (pre ++ t :: post) =
    (true, pre ++ (apply_result fullId f nid packet t).1 :: post, (apply_result fullId f nid packet t).2).
Proof.
  intros Hp Ht. induction Hp as [|u l Hu Hl IH]; cbn [apply_loop app].
  - rewrite Ht. by destruct (apply_result _ _ _ _ _).
  - by rewrite Hu, IH.
Qed.

Lemma first_result nid packet tasks :
  Forall (fun t => result_for nid packet t = false) tasks \/
  exists pre t post, tasks = pre ++ t :: post /\
    Forall (fun t => result_for nid packet t = false) pre /\ result_for nid packet t = true.
Proof.
  induction tasks as [|t l IH]; [by left; constructor|].
  destruct (result_for nid packet t) eqn:E.
  - right. exists [], t, l. by repeat split; [constructor|].
  - destruct IH as [IH|(pre & u & post & -> & Hp & Hu)]; [left; by constructor|].
    right. exists (t :: pre), u, post. repeat split; [by constructor|done].
Qed.

(** The test of the loop, in the terms of the task and the packet. *)
Lemma result_for_true nid packet t :
  result_for nid packet t = true <->
  m_node t = Some nid /\ get_num_field (mt_id (m_message t)) = get_num_field (sr_id packet).
Proof. unfold result_for. rewrite andb_true_iff, bool_decide_eq_true, Z.eqb_eq. split; intros [? ?]; by split. Qed.

Lemma result_for_none nid packet tasks :
  Forall (fun t => result_for nid packet t = false) tasks <->
  Forall (fun t => m_node t <> Some nid \/ get_num_field (mt_id (m_message t)) <> get_num_field (sr_id packet)) tasks.
Proof.
  apply Forall_iff. intros t. rewrite <- not_true_iff_false, result_for_true. split; [|tauto].
  intros Hn. destruct (decide (m_node t = Some nid)); [|by left]. right. tauto.
Qed.

(** What a result does to its task, in one equation. *)
Lemma apply_result_fields f nid packet t :
  let t' := (apply_result fullId f nid packet t).1 in
  m_vars t' = m_vars t /\ m_message t' = m_message t /\ m_node t' = None /\
  m_result t' = get_num_field (sr_process_code packet) /\ m_doneIp t' = fullId nid.
Proof.
  unfold apply_result. cbn zeta. destruct (_ && _); [|done]. by destruct (fs_save _ _ _).
Qed.

(** ** Fuel of the packet loop *)

Lemma queue_length_set nid node s : queue_length nid (set_client nid node s) = countRecvPackets (pn_base node).
Proof. unfold queue_length; simpl. by rewrite lookup_insert_eq. Qed.

Lemma queue_length_tasks nid s tasks : queue_length nid (set_tasks tasks s) = queue_length nid s.
Proof. done. Qed.

Lemma send_queue node (m : MPacket) :
  countRecvPackets (pn_base (send node m).2) = countRecvPackets (pn_base node).
Proof.
  unfold send. destruct (_ || _); [done|].
  pose proof (send_count (pn_base node) (SerializeToString m)) as Hc.
  by destruct (PacketNode_send _ _).
Qed.

Lemma sendTasks_queue nid s : queue_length nid (sendTasksToSlave nid s).2 = queue_length nid s.
Proof.
  unfold sendTasksToSlave. destruct (sv_nodes s !! nid) as [node|] eqn:E; [|done].
  destruct (m_freeCores node <=? 0); [done|].
  destruct (first_free (sv_tasks s)) as [Hb|(pre & t & post & Et & Hp & Ht)].
  - rewrite send_loop_all_busy by done. simpl. rewrite queue_length_set.
    unfold queue_length. by rewrite E.
  - rewrite Et, send_loop_first by done.
    destruct (MTask_IsInitialized _); simpl; rewrite queue_length_set;
      unfold queue_length; rewrite E; [|done].
    unfold node_after; simpl. apply send_queue.
Qed.

Lemma applyResult_queue nid nid' packet s :
  queue_length nid (applyResultFromSlave fullId nid' packet s).2 = queue_length nid s.
Proof. unfold applyResultFromSlave. by destruct (apply_loop _ _ _ _ _) as [[? ?] ?]. Qed.

Lemma handle_packet_queue nid packet s :
  queue_length nid (handle_packet fullId nid packet s) = queue_length nid s.
Proof.
  unfold handle_packet. set (s1 := match sp_info packet with Some _ => _ | None => s end).
  assert (E1 : queue_length nid s1 = queue_length nid s).
  { subst s1. destruct (sp_info packet) as [info|]; [|done].
    destruct (sv_nodes s !! nid) as [node|] eqn:E; [|done].
    rewrite sendTasks_queue, queue_length_set. unfold queue_length. by rewrite E. }
  destruct (sp_result packet); [|done]. by rewrite applyResult_queue.
Qed.

(** C20: reading a connection always terminates and consumes the queue: with
    at least one step more than there are packets the loop's outcome no
    longer depends on the bound, and when it reports success the queue of
    that connection is empty. *)
Theorem recv_loop_total fuel nid s :
  (queue_length nid s < fuel)%nat ->
  recv_loop fullId fuel nid s = onRecvFromNode fullId nid s /\
  ((recv_loop fullId fuel nid s).1 = true -> queue_length nid (recv_loop fullId fuel nid s).2 = O).
Proof.
  unfold onRecvFromNode. remember (queue_length nid s) as n eqn:En.
  revert fuel s En. induction n as [n IH] using lt_wf_ind. intros fuel s En Hf.
  destruct fuel as [|fuel]; [lia|]. cbn [recv_loop].
  unfold queue_length in En. destruct (sv_nodes s !! nid) as [node|] eqn:E;
    [|split; [done|]; intros _; unfold queue_length; simpl; by rewrite E].
  destruct (Nat.ltb_spec 0 (countRecvPackets (pn_base node))) as [Hpos|Hz].
  - pose proof (extract_count (pn_base node) Hpos) as Hx.
    destruct (extractRecvPacket (pn_base node)) as [data base]. simpl in Hx.
    destruct (negb _) eqn:Ei; [by split|].
    set (s1 := handle_packet fullId nid (ParseFromArray data) (set_client nid (mkNode base (m_freeCores node)) s)).
    assert (Hq : queue_length nid s1 = (n - 1)%nat)
      by (subst s1; rewrite handle_packet_queue, queue_length_set; simpl; lia).
    destruct (IH (n - 1)%nat ltac:(lia) fuel s1 ltac:(lia) ltac:(lia)) as [H1' H2'].
    destruct (IH (n - 1)%nat ltac:(lia) n s1 ltac:(lia) ltac:(lia)) as [H3' _].
    split; [|exact H2']. by rewrite H1', H3'.
  - split; [done|]. intros _. simpl. unfold queue_length. rewrite E. lia.
Qed.
End loops.
