(* ===== verification/Schedule.v ===== *)
(** * The scheduling contract and its refinement by the server

    What the console promises: every job is pending, running on one connected
    node, or done; a job leaves a node only by a result of that node or by its
    disconnection; what is done stays done.  [spec_step] is that contract as
    a transition system, [sv_step] the server with its environment, and
    [server_refines] the simulation. *)

From Stdlib Require Import String.
From S2P Require Import Prelude CxxStd External Process Messages Tasks Server.
Local Open Scope string_scope.
Local Open Scope Z_scope.
Local Open Scope list_scope.

(** ** The contract *)

Inductive status := Pending | Running (n : NodeId) | Done (result exitCode : Z).

Record spec_state := mkSpec { jobs : list status; connected : gset NodeId }.

(** A node going away takes its jobs back to the pending state. *)
Definition lose (n : NodeId) (st : status) : status :=
  match st with Running m => if decide (m = n) then Pending else st | _ => st end.

Inductive spec_step : spec_state -> spec_state -> Prop :=
| spec_connect n js c : n ∉ c -> spec_step (mkSpec js c) (mkSpec js ({[n]} ∪ c))
| spec_disconnect n js c :
    n ∈ c -> spec_step (mkSpec js c) (mkSpec (lose n <$> js) (c ∖ {[n]}))
| spec_assign i n js c :
    js !! i = Some Pending -> n ∈ c ->
    spec_step (mkSpec js c) (mkSpec (<[i := Running n]> js) c)
| spec_finish i n r e js c :
    js !! i = Some (Running n) ->
    spec_step (mkSpec js c) (mkSpec (<[i := Done r e]> js) c)
| spec_return i n js c :
    js !! i = Some (Running n) ->
    spec_step (mkSpec js c) (mkSpec (<[i := Pending]> js) c).

(** Running jobs run on connected nodes. *)
Definition spec_inv (s : spec_state) : Prop :=
  forall i n, jobs s !! i = Some (Running n) -> n ∈ connected s.

Lemma lookup_insert_cases {A} (l : list A) i j x y :
  <[i := x]> l !! j = Some y -> (i = j /\ y = x) \/ (i <> j /\ l !! j = Some y).
Proof.
  intros [(-> & -> & _)|[? ?]]%list_lookup_insert_Some; [left|right]; done.
Qed.

Lemma spec_step_inv s s' : spec_inv s -> spec_step s s' -> spec_inv s'.
Proof.
  unfold spec_inv. intros HI Hstep. destruct Hstep; simpl in *; intros j m Hj.
  - apply HI in Hj. set_solver.
  - rewrite list_lookup_fmap in Hj. destruct (js !! j) as [st|] eqn:E; [|done]. simpl in Hj.
    destruct st as [|k|]; simpl in Hj; try done. case_decide; simplify_eq.
    apply HI in E. set_solver.
  - apply lookup_insert_cases in Hj as [[_ ?]|[_ Hj]]; simplify_eq; eauto.
  - apply lookup_insert_cases in Hj as [[_ ?]|[_ Hj]]; simplify_eq; eauto.
  - apply lookup_insert_cases in Hj as [[_ ?]|[_ Hj]]; simplify_eq; eauto.
Qed.

Lemma spec_step_done s s' i r e :
  spec_step s s' -> jobs s !! i = Some (Done r e) -> jobs s' !! i = Some (Done r e).
Proof.
  intros Hstep Hi. destruct Hstep; simpl in *; try done.
  - by rewrite list_lookup_fmap, Hi.
  - rewrite list_lookup_insert_ne; [done|]. intros ->. simplify_eq.
  - rewrite list_lookup_insert_ne; [done|]. intros ->. simplify_eq.
  - rewrite list_lookup_insert_ne; [done|]. intros ->. simplify_eq.
Qed.

Lemma spec_steps_done s s' i r e :
  rtc spec_step s s' -> jobs s !! i = Some (Done r e) -> jobs s' !! i = Some (Done r e).
Proof.
  intros Hs. apply (rtc_preserves spec_step (fun s => jobs s !! i = Some (Done r e))); [|done].
  eauto using spec_step_done.
Qed.

Lemma spec_step_length s s' : spec_step s s' -> length (jobs s') = length (jobs s).
Proof. intros []; simpl; rewrite ?length_insert, ?length_fmap; done. Qed.

(** ** The server's view *)

Section refinement.
Context {N : Type} `{PacketNode N} {F : Type} `{FileSystem F} `{ExitCodes}.
Context `{MessageCodec MPacket} `{MessageCodec SPacket}.
Context (fullId : NodeId -> string).
Implicit Types (s : Server N F) (nid : NodeId) (node : TcpProtobufNode N) (t : TaskInfo).

Definition abs (t : TaskInfo) : status :=
  match m_node t with
  | Some n => Running n
  | None => if m_result t =? NoInit then Pending else Done (m_result t) (m_exitCode t)
  end.

Definition view s : spec_state := mkSpec (abs <$> sv_tasks s) (list_to_set (sv_clients s)).

(** One atomic action of the server's thread: the base class accepts, drops
    or feeds a connection, a handler runs, or the disk changes.  The packet
    loop of [onRecvFromNode] counts as one action for every [k] packets, since
    the other thread can get in between two of them; the whole handler is the
    action with [k] above the length of the queue. *)
Inductive server_step : Server N F -> Server N F -> Prop :=
| st_connect nid base s : sv_nodes s !! nid = None -> server_step s (newClient nid base s)
| st_disconnect nid s : nid ∈ sv_clients s -> server_step s (drop_client nid s)
| st_traffic nid base node s :
    sv_nodes s !! nid = Some node ->
    server_step s (set_client nid (mkNode base (m_freeCores node)) s)
| st_recv k nid s : nid ∈ sv_clients s -> server_step s (recv_loop fullId k nid s).2
| st_work s : server_step s (doWork s)
| st_close s : server_step s (closeAllClients s)
| st_disk f s : server_step s (set_fs f s).

(** The server's thread, interleaved with the console's main thread taking
    note of finished tasks. *)
Inductive sv_step : Server N F -> Server N F -> Prop :=
| st_server s s' : server_step s s' -> sv_step s s'
| st_note i t s :
    sv_tasks s !! i = Some t -> m_result t <> NoInit ->
    sv_step s (set_tasks (<[i := set_doneIp "" t]> (sv_tasks s)) s).

Record server_inv s : Prop := {
  (** A task with a node is unfinished and the node is connected. *)
  inv_assigned t n : t ∈ sv_tasks s -> m_node t = Some n -> n ∈ sv_clients s /\ m_result t = NoInit;
  inv_nodes n : n ∈ sv_clients s <-> is_Some (sv_nodes s !! n);
  inv_nodup : NoDup (sv_clients s);
  inv_complete : Forall message_complete (sv_tasks s);
}.

Lemma abs_eq_running t n : abs t = Running n <-> m_node t = Some n.
Proof. unfold abs. destruct (m_node t); [naive_solver|]. case_match; naive_solver. Qed.

Lemma abs_pending t : busy t = false <-> abs t = Pending.
Proof.
  unfold busy, abs. destruct (m_node t); simpl; [naive_solver|].
  destruct (_ =? _); naive_solver.
Qed.

(** ** Operations that only touch tasks and one node *)

(** What the server does to one task: its job stays; nothing changes once it
    has a result; a new result comes with the name of the node that sent it. *)
Definition evolves t t' : Prop :=
  same_job t t' /\ (t' = t \/ (m_result t = NoInit /\ (m_result t' = NoInit \/ exists n, m_doneIp t' = fullId n))).

#[export] Instance evolves_preorder : PreOrder evolves.
Proof.
  split; [intros t; split; [done|by left]|]. intros t1 t2 t3 [J12 H12] [J23 H23]. split; [by etransitivity|].
  destruct H12 as [->|[Hn H12]]; [done|]. destruct H23 as [->|[Hn2 H23]]; right; by split.
Qed.

(** The history between two states: contract steps, and what became of each
    task. *)
Definition hist s s' : Prop :=
  rtc spec_step (view s) (view s') /\ Forall2 evolves (sv_tasks s) (sv_tasks s').

#[export] Instance hist_preorder : PreOrder hist.
Proof.
  split; [intros s; split; [constructor|done]|].
  intros s1 s2 s3 [R12 F12] [R23 F23]. split; [by etransitivity|]. by etransitivity.
Qed.

(** [s'] follows [s]; the connections are the same and the invariant is
    kept. *)
Definition good s s' : Prop :=
  server_inv s -> server_inv s' /\ sv_clients s' = sv_clients s /\ hist s s'.

Lemma good_refl s : good s s.
Proof. intros Hs. by split. Qed.

Lemma good_trans s1 s2 s3 : good s1 s2 -> good s2 s3 -> good s1 s3.
Proof.
  intros H12 H23 HI. destruct (H12 HI) as (HI2 & E2 & R2).
  destruct (H23 HI2) as (HI3 & E3 & R3).
  split; [done|]. split; [congruence|]. by etransitivity.
Qed.

Lemma set_tasks_id s : set_tasks (sv_tasks s) s = s.
Proof. by destruct s. Qed.

Lemma good_client nid node' s :
  is_Some (sv_nodes s !! nid) -> good s (set_client nid node' s).
Proof.
  intros Hn [Ha Hnd Hdup Hc]. split; [|by split; [|split; [constructor|]]].
  split; try done. intros n. rewrite Hnd. simpl.
  destruct (decide (nid = n)) as [->|Hne];
    [rewrite lookup_insert_eq|rewrite lookup_insert_ne by done]; naive_solver.
Qed.

(** Replacing one task, when the change is one spec step or none. *)
Lemma good_task pre t t' post s :
  sv_tasks s = pre ++ t :: post ->
  m_message t' = m_message t ->
  (forall n, m_node t' = Some n -> n ∈ sv_clients s /\ m_result t' = NoInit) ->
  (server_inv s -> abs t' = abs t \/
    forall js c, js !! length pre = Some (abs t) -> list_to_set (sv_clients s) = c ->
      spec_step (mkSpec js c) (mkSpec (<[length pre := abs t']> js) c)) ->
  (server_inv s -> evolves t t') ->
  good s (set_tasks (pre ++ t' :: post) s).
Proof.
  intros Et Hm Hn Hstep Hev HI. pose proof HI as [Ha Hnd Hdup Hc]. split.
  - split; try done; simpl.
    + intros u n Hu Hun. apply elem_of_app in Hu as [Hu|Hu]; [|apply elem_of_cons in Hu as [->|Hu]].
      * apply (Ha u n); [|done]. rewrite Et. set_solver.
      * by apply Hn.
      * apply (Ha u n); [|done]. rewrite Et. set_solver.
    + rewrite Et in Hc. apply Forall_app in Hc as [H1' Hc]. apply Forall_cons in Hc as [Ht H2'].
      apply Forall_app. split; [done|]. constructor; [|done].
      unfold message_complete in *. by rewrite Hm.
  - split; [done|]. split.
    2: { simpl. rewrite Et. apply Forall2_app; [done|]. constructor; [by apply Hev|done]. }
    unfold view; simpl. rewrite Et, !fmap_app, !fmap_cons.
    destruct (Hstep HI) as [E|Hs]; [by rewrite E|].
    specialize (Hs ((abs <$> pre) ++ abs t :: (abs <$> post)) _
      ltac:(rewrite list_lookup_middle; [done|by rewrite length_fmap]) eq_refl).
    apply rtc_once. rewrite <- (length_fmap abs pre) in Hs.
    by rewrite insert_app_r_alt, Nat.sub_diag in Hs by lia.
Qed.

Lemma sendTasks_good nid s : nid ∈ sv_clients s -> good s (sendTasksToSlave nid s).2.
Proof.
  intros Hin. unfold sendTasksToSlave. destruct (sv_nodes s !! nid) as [node|] eqn:E; [|apply good_refl].
  destruct (m_freeCores node <=? 0); [apply good_refl|].
  destruct (first_free (sv_tasks s)) as [Hb|(pre & t & post & Et & Hp & Ht)].
  - rewrite send_loop_all_busy, set_tasks_id by done. apply good_client. rewrite E. by eexists.
  - rewrite Et, send_loop_first by done.
    destruct (MTask_IsInitialized _); simpl.
    + apply (good_trans _ (set_tasks (pre ++ set_node (Some nid) t :: post) s));
        [|apply good_client; simpl; rewrite E; by eexists].
      eapply good_task; [exact Et|done| | |].
      * intros n [= <-]. split; [done|]. apply abs_pending in Ht. unfold abs in Ht. simpl.
        destruct (m_node t); [done|]. destruct (Z.eqb_spec (m_result t) NoInit); done.
      * intros _. right. intros js c Hj <-. apply abs_pending in Ht. rewrite Ht in Hj.
        change (abs (set_node (Some nid) t)) with (Running nid).
        constructor; [done|]. by apply elem_of_list_to_set.
      * intros _. split; [done|]. right. unfold busy in Ht. apply orb_false_iff in Ht as [_ Ht].
        apply negb_false_iff, Z.eqb_eq in Ht. split; [done|by left].
    + rewrite <- Et, set_tasks_id. apply good_client. rewrite E. by eexists.
Qed.

Lemma good_fs f s : good s (set_fs f s).
Proof. intros [? ? ? ?]. split; [by split|]. by split; [|split; [constructor|]]. Qed.

Lemma applyResult_good nid packet s : good s (applyResultFromSlave fullId nid packet s).2.
Proof.
  unfold applyResultFromSlave.
  destruct (first_result nid packet (sv_tasks s)) as [Hn|(pre & t & post & Et & Hp & Ht)].
  - rewrite apply_loop_none, set_tasks_id by done. apply good_fs.
  - rewrite Et, apply_loop_first by done. simpl.
    destruct (apply_result_fields fullId (sv_fs s) nid packet t) as (Hv & Hm & Hnode & Hr & Hip).
    set (t' := (apply_result fullId (sv_fs s) nid packet t).1) in *.
    assert (Ha : abs t = Running nid).
    { apply abs_eq_running. unfold result_for in Ht.
      apply andb_true_iff in Ht as [Ht _]. by apply bool_decide_eq_true in Ht. }
    eapply good_trans; [|apply good_fs].
    eapply good_task; [exact Et|exact Hm| | |].
    + intros n Hc. rewrite Hnode in Hc. done.
    + intros _. right. intros js c Hj _.
      rewrite Ha in Hj. unfold abs. rewrite Hnode.
      destruct (m_result t' =? NoInit); [by eapply spec_return|by eapply spec_finish].
    + intros HI. split; [done|]. right. split; [|right; by exists nid].
      apply (inv_assigned s HI t nid); [rewrite Et; set_solver|by apply abs_eq_running].
Qed.

Lemma fold_good (g : Server N F -> NodeId -> Server N F) l s :
  (forall u n, n ∈ sv_clients u -> good u (g u n)) ->
  Forall (fun n => n ∈ sv_clients s) l -> good s (fold_left g l s).
Proof.
  intros Hg. revert s. induction l as [|a l IH]; intros s Hl; [apply good_refl|].
  apply Forall_cons in Hl as [Ha Hl]. intros HI. simpl.
  destruct (Hg s a Ha HI) as (HI2 & E2 & R2).
  destruct (IH (g s a)) as (HI3 & E3 & R3); [by rewrite E2|done|].
  split; [done|]. split; [congruence|]. by etransitivity.
Qed.

Lemma doWork_good s : good s (doWork s).
Proof.
  apply fold_good; [intros; by apply sendTasks_good|]. by apply Forall_forall.
Qed.

Lemma closeAll_good s : good s (closeAllClients s).
Proof.
  apply fold_good; [|by apply Forall_forall]. intros u n Hn.
  destruct (sv_nodes u !! n) as [node|] eqn:E; [|apply good_refl].
  apply good_client. rewrite E. by eexists.
Qed.

Lemma handle_packet_good nid packet s : nid ∈ sv_clients s -> good s (handle_packet fullId nid packet s).
Proof.
  intros Hn. unfold handle_packet.
  set (s1 := match sp_info packet with Some _ => _ | None => s end).
  assert (G1 : good s s1).
  { subst s1. destruct (sp_info packet) as [info|]; [|apply good_refl].
    destruct (sv_nodes s !! nid) as [node|] eqn:E; [|apply good_refl].
    eapply good_trans; [apply good_client; rewrite E; by eexists|]. by apply sendTasks_good. }
  destruct (sp_result packet) as [r|]; [|done].
  eapply good_trans; [exact G1|]. apply applyResult_good.
Qed.

Lemma recv_loop_good fuel nid s : nid ∈ sv_clients s -> good s (recv_loop fullId fuel nid s).2.
Proof.
  revert s. induction fuel as [|fuel IH]; intros s Hn; [apply good_refl|]. cbn [recv_loop].
  destruct (sv_nodes s !! nid) as [node|] eqn:E; [|apply good_refl].
  destruct (Nat.ltb _ _); [|apply good_refl].
  destruct (extractRecvPacket (pn_base node)) as [data base].
  set (s1 := set_client nid (mkNode base (m_freeCores node)) s).
  assert (G1 : good s s1) by (apply good_client; rewrite E; by eexists).
  destruct (negb _); [done|].
  pose proof (handle_packet_good nid (ParseFromArray data) s1 Hn) as G2.
  intros HI. destruct (good_trans _ _ _ G1 G2 HI) as (HI2 & E2 & R2).
  destruct (IH (handle_packet fullId nid (ParseFromArray data) s1)) as (HI3 & E3 & R3);
    [by rewrite E2|done|].
  split; [done|]. split; [congruence|]. by etransitivity.
Qed.

(** ** Every atomic action *)

Lemma release_abs nid t :
  (forall n, m_node t = Some n -> m_result t = NoInit) -> abs (release nid t) = lose nid (abs t).
Proof.
  intros Hr. unfold release, lose, abs. case_bool_decide as Hd.
  - rewrite Hd. simpl. by rewrite decide_True, (Hr nid), Z.eqb_refl.
  - destruct (m_node t) as [n|] eqn:E; [|by destruct (_ =? _)].
    rewrite decide_False by congruence. done.
Qed.

Lemma drop_client_step nid s :
  nid ∈ sv_clients s -> server_inv s ->
  server_inv (drop_client nid s) /\ hist s (drop_client nid s).
Proof.
  intros Hn [Ha Hnd Hdup Hc]. split.
  - split; simpl.
    + intros t n Ht Htn. apply list_elem_of_fmap in Ht as (u & -> & Hu). unfold release in *.
      case_bool_decide as Hb; [done|]. destruct (Ha u n Hu Htn) as [Hn' Hr].
      split; [|done]. apply list_elem_of_filter. split; [congruence|done].
    + intros n. rewrite list_elem_of_filter, Hnd. destruct (decide (n = nid)) as [->|Hne].
      * rewrite lookup_delete_eq. split; [by intros [? _]|by intros [? ?]].
      * rewrite lookup_delete_ne by done. naive_solver.
    + by apply NoDup_filter.
    + apply Forall_fmap. eapply Forall_impl; [exact Hc|]. intros t Ht. simpl. unfold release.
      by case_bool_decide.
  - split.
    2: { simpl. apply Forall2_fmap_r, Forall_Forall2_diag, Forall_forall. intros t Ht.
         change (evolves t (release nid t)). unfold release.
         destruct (decide (m_node t = Some nid)) as [Hb|Hb];
           [rewrite bool_decide_eq_true_2 by done|by rewrite bool_decide_eq_false_2]. split; [done|]. right.
         destruct (Ha t nid Ht Hb) as [_ Hr]. split; [done|by left]. }
    apply rtc_once. unfold view, drop_client; simpl.
    replace (abs <$> (release nid <$> sv_tasks s)) with (lose nid <$> (abs <$> sv_tasks s)).
    + replace (list_to_set (filter (fun n => n <> nid) (sv_clients s)))
        with (list_to_set (C := gset NodeId) (sv_clients s) ∖ {[nid]}).
      * constructor. by apply elem_of_list_to_set.
      * apply set_eq. intros n. rewrite elem_of_difference, !elem_of_list_to_set,
          list_elem_of_filter. set_solver.
    + rewrite <- !list_fmap_compose. apply list_fmap_ext. intros i t Ht%list_elem_of_lookup_2.
      symmetry. apply release_abs. intros n Hn'. by eapply Ha.
Qed.

Lemma newClient_step nid base s :
  sv_nodes s !! nid = None -> server_inv s ->
  server_inv (newClient nid base s) /\ hist s (newClient nid base s).
Proof.
  intros Hn [Ha Hnd Hdup Hc].
  assert (Hnew : nid ∉ sv_clients s) by (rewrite Hnd, Hn; by intros [? ?]).
  split.
  - split; simpl.
    + intros t n Ht Htn. destruct (Ha t n Ht Htn). set_solver.
    + intros n. rewrite elem_of_app, list_elem_of_singleton, Hnd.
      destruct (decide (n = nid)) as [->|Hne];
        [rewrite lookup_insert_eq|rewrite lookup_insert_ne by done]; naive_solver.
    + apply NoDup_app. split; [done|]. split; [set_solver|]. apply NoDup_singleton.
    + done.
  - split; [|done]. apply rtc_once. unfold view; simpl. rewrite list_to_set_app_L.
    replace (list_to_set (sv_clients s) ∪ list_to_set [nid])
      with ({[nid]} ∪ list_to_set (C := gset NodeId) (sv_clients s)) by set_solver.
    constructor. by rewrite elem_of_list_to_set.
Qed.

Lemma note_step i t s :
  sv_tasks s !! i = Some t -> m_result t <> NoInit -> server_inv s ->
  server_inv (set_tasks (<[i := set_doneIp "" t]> (sv_tasks s)) s) /\
  view (set_tasks (<[i := set_doneIp "" t]> (sv_tasks s)) s) = view s.
Proof.
  intros Hi Hr [Ha Hnd Hdup Hc]. split.
  - split; simpl; try done.
    + intros u n [k Hk]%list_elem_of_lookup Hun.
      apply lookup_insert_cases in Hk as [[-> ->]|[_ Hk]].
      * apply (Ha t n); [by eapply list_elem_of_lookup_2|done].
      * apply (Ha u n); [by eapply list_elem_of_lookup_2|done].
    + apply Forall_insert; [done|]. rewrite Forall_lookup in Hc. apply (Hc i t Hi).
  - unfold view; simpl. f_equal. rewrite list_fmap_insert.
    apply list_insert_id. rewrite list_lookup_fmap, Hi. done.
Qed.

Lemma server_step_good s s' :
  server_inv s -> server_step s s' -> server_inv s' /\ hist s s'.
Proof.
  intros HI Hstep. destruct Hstep.
  - by apply newClient_step.
  - by apply drop_client_step.
  - destruct (good_client nid (mkNode base (m_freeCores node)) s) as (? & _ & ?); [by eexists|done|done].
  - destruct (recv_loop_good k nid s) as (? & _ & ?); done.
  - destruct (doWork_good s) as (? & _ & ?); done.
  - destruct (closeAll_good s) as (? & _ & ?); done.
  - destruct (good_fs f s) as (? & _ & ?); done.
Qed.

Lemma sv_step_good s s' :
  server_inv s -> sv_step s s' -> server_inv s' /\ rtc spec_step (view s) (view s').
Proof.
  intros HI Hstep. revert HI. destruct Hstep as [s1 s2 H12|i t s1 Hi Hr]; intros HI.
  - destruct (server_step_good _ _ HI H12) as [? [? _]]. done.
  - by destruct (note_step i t s1) as [? ->].
Qed.

Lemma sv_steps_good s s' :
  server_inv s -> rtc sv_step s s' -> server_inv s' /\ rtc spec_step (view s) (view s').
Proof.
  intros HI Hs. revert HI. induction Hs as [|s1 s2 s3 H12 _ IH]; intros HI; [by split; [|constructor]|].
  destruct (sv_step_good _ _ HI H12) as [HI2 R2]. destruct (IH HI2) as [HI3 R3].
  split; [done|]. by etransitivity.
Qed.

Lemma Server_init_inv tasks f :
  Forall (fun t => fresh t /\ message_complete t) tasks -> server_inv (Server_init tasks f : Server N F).
Proof.
  intros Hf. split; simpl.
  - intros t n Ht. rewrite Forall_forall in Hf. destruct (Hf t Ht) as [(-> & _) _]. done.
  - intros n. rewrite lookup_empty. split; [set_solver|by intros [? ?]].
  - constructor.
  - eapply Forall_impl; [exact Hf|]. by intros t [].
Qed.

Lemma Server_init_view tasks f :
  Forall (fun t => fresh t /\ message_complete t) tasks ->
  view (Server_init tasks f : Server N F) = mkSpec (replicate (length tasks) Pending) ∅.
Proof.
  intros Hf. unfold view; simpl. f_equal. induction Hf as [|t l [(Hn & _ & Hr & _) _] Hl IH]; [done|].
  csimpl. rewrite IH. f_equal. unfold abs. by rewrite Hn, Hr, Z.eqb_refl.
Qed.

(** ** The number of waiting tasks *)

Definition pending_tasks (l : list TaskInfo) : nat :=
  length (filter (fun t => busy t = false) l).

Definition hungry s (n : NodeId) : bool :=
  match sv_nodes s !! n with Some node => 0 <? m_freeCores node | None => false end.

Lemma pending_app l1 l2 : pending_tasks (l1 ++ l2) = (pending_tasks l1 + pending_tasks l2)%nat.
Proof. unfold pending_tasks. by rewrite filter_app, length_app. Qed.

Lemma pending_cons t l :
  pending_tasks (t :: l) = ((if busy t then 0 else 1) + pending_tasks l)%nat.
Proof.
  unfold pending_tasks. rewrite filter_cons.
  case_decide as Hd; [by rewrite Hd|]. by destruct (busy t).
Qed.

Lemma pending_all_busy l : Forall (fun t => busy t = true) l -> pending_tasks l = O.
Proof. induction 1 as [|t l Ht _ IH]; [done|]. by rewrite pending_cons, Ht. Qed.

(** One call of [sendTasksToSlave] in full: it does nothing without capacity
    or without a waiting task; otherwise the first waiting task goes to the
    node, whose capacity drops by one. *)
Lemma sendTasks_spec nid node s :
  server_inv s -> sv_nodes s !! nid = Some node ->
  (hungry s nid = false /\ sendTasksToSlave nid s = (true, s)) \/
  (hungry s nid = true /\ Forall (fun t => busy t = true) (sv_tasks s) /\
     sendTasksToSlave nid s = (true, set_client nid node s)) \/
  (hungry s nid = true /\ exists pre t post, sv_tasks s = pre ++ t :: post /\
     Forall (fun t => busy t = true) pre /\ busy t = false /\
     sendTasksToSlave nid s =
       (true, set_client nid (node_after (sv_fs s) node t)
                (set_tasks (pre ++ set_node (Some nid) t :: post) s))).
Proof.
  intros HI E. unfold hungry, sendTasksToSlave. rewrite E.
  destruct (Z.leb_spec (m_freeCores node) 0) as [Hz|Hz].
  { left. split; [|done]. lia. }
  right. assert (Hh : (0 <? m_freeCores node) = true) by lia.
  destruct (first_free (sv_tasks s)) as [Hb|(pre & t & post & Et & Hp & Ht)].
  - left. split; [done|]. split; [done|]. by rewrite send_loop_all_busy, set_tasks_id by done.
  - right. split; [done|]. exists pre, t, post. split; [done|]. split; [done|]. split; [done|].
    rewrite Et, send_loop_first by done.
    pose proof (inv_complete _ HI) as Hc. rewrite Et in Hc.
    apply Forall_app in Hc as [_ Hc]. apply Forall_cons in Hc as [Hc _].
    unfold task_packet. destruct (fs_load _ _) as [code data]. by rewrite Hc.
Qed.

Lemma sendTasks_pending nid s :
  server_inv s ->
  pending_tasks (sv_tasks (sendTasksToSlave nid s).2) =
    (pending_tasks (sv_tasks s) - (if hungry s nid then 1 else 0))%nat /\
  forall m, m <> nid -> hungry (sendTasksToSlave nid s).2 m = hungry s m.
Proof.
  intros HI. destruct (sv_nodes s !! nid) as [node|] eqn:E.
  - destruct (sendTasks_spec nid node s HI E)
      as [[Hh ->]|[(Hh & Hb & ->)|(Hh & pre & t & post & Et & Hp & Ht & ->)]]; simpl.
    + rewrite Hh. split; [lia|done].
    + rewrite pending_all_busy by done. split; [done|]. intros m Hm. unfold hungry; simpl.
      by rewrite lookup_insert_ne.
    + rewrite Hh, Et, !pending_app, !pending_cons, Ht. simpl. split; [lia|].
      intros m Hm. unfold hungry; simpl. by rewrite lookup_insert_ne.
  - unfold hungry, sendTasksToSlave. rewrite E. simpl. split; [lia|done].
Qed.

Lemma fold_send_pending l s :
  server_inv s -> NoDup l -> Forall (fun n => n ∈ sv_clients s) l ->
  pending_tasks (sv_tasks (fold_left (fun s nid => (sendTasksToSlave nid s).2) l s)) =
  (pending_tasks (sv_tasks s) - length (filter (fun n => hungry s n = true) l))%nat.
Proof.
  revert s. induction l as [|n l IH]; intros s HI Hd Hl; simpl; [lia|].
  apply NoDup_cons in Hd as [Hn Hd]. apply Forall_cons in Hl as [Hc Hl].
  destruct (sendTasks_good n s Hc HI) as (HI2 & E2 & _).
  destruct (sendTasks_pending n s HI) as [Hp Hh].
  rewrite IH, Hp; [|done|done|by rewrite E2].
  replace (filter (fun m => hungry (sendTasksToSlave n s).2 m = true) l)
    with (filter (fun m => hungry s m = true) l).
  - rewrite filter_cons. destruct (hungry s n); simpl; lia.
  - apply list_filter_ext. intros m Hm. rewrite Hh; [done|]. by intros ->.
Qed.

(** ** The theorems *)

(** C1: the server implements the scheduling contract.  Started on any list
    of untouched, complete tasks - what [loadConfig] produces - and driven by
    any interleaving of connections, disconnections, arriving packets, its
    own work loop, disk changes and the console's main thread, every history
    of the server is a history of the contract in which all jobs start
    pending, and the invariants hold throughout. *)
Theorem server_refines tasks f s :
  Forall (fun t => fresh t /\ message_complete t) tasks ->
  rtc sv_step (Server_init tasks f) s ->
  server_inv s /\ rtc spec_step (mkSpec (replicate (length tasks) Pending) ∅) (view s).
Proof.
  intros Hf Hs. rewrite <- (Server_init_view tasks f) by done.
  apply sv_steps_good; [by apply Server_init_inv|done].
Qed.

(** C2: no result is ever lost or replaced: once a task has a result and no
    node, it keeps result, exit code and place whatever happens later, so it
    is never sent to a daemon again. *)
Theorem done_is_final s s' i t :
  server_inv s -> rtc sv_step s s' ->
  sv_tasks s !! i = Some t -> m_node t = None -> m_result t <> NoInit ->
  exists t', sv_tasks s' !! i = Some t' /\ m_node t' = None /\
    m_result t' = m_result t /\ m_exitCode t' = m_exitCode t.
Proof.
  intros HI Hs Hi Hn Hr. destruct (sv_steps_good _ _ HI Hs) as [_ Hspec].
  assert (Hd : jobs (view s) !! i = Some (Done (m_result t) (m_exitCode t))).
  { simpl. rewrite list_lookup_fmap, Hi. simpl. unfold abs. rewrite Hn.
    by destruct (Z.eqb_spec (m_result t) NoInit). }
  apply (spec_steps_done _ _ _ _ _ Hspec) in Hd. simpl in Hd.
  rewrite list_lookup_fmap in Hd. destruct (sv_tasks s' !! i) as [t'|]; [|done].
  exists t'. split; [done|]. simpl in Hd. unfold abs in Hd.
  destruct (m_node t'); [done|]. case_match; by simplify_eq.
Qed.

(** Each pass of the work loop hands out as much as it can: the number
    of waiting tasks drops by the number of clients with free cores, or to
    zero. *)
Lemma doWork_throughput s :
  server_inv s ->
  pending_tasks (sv_tasks (doWork s)) =
  (pending_tasks (sv_tasks s) - length (filter (fun n => hungry s n = true) (sv_clients s)))%nat.
Proof.
  intros HI. apply fold_send_pending; [done|apply inv_nodup; done|]. by apply Forall_forall.
Qed.


(** C13: a result counts only when it comes from the node that holds the task
    and carries the task's identifier: then exactly the first such task takes
    the exit code (or the code of saving the output file), the process code
    and the daemon's name, and is free of its node, and the tasks before and
    behind it are as they were; without such a task nothing changes and the
    answer is false. *)
Theorem applyResult_exact nid packet s :
  let id_of t := get_num_field (mt_id (m_message t)) in
  let asked := get_num_field (sr_id packet) in
  match applyResultFromSlave fullId nid packet s with
  | (false, s') => s' = s /\ Forall (fun t => m_node t <> Some nid \/ id_of t <> asked) (sv_tasks s)
  | (true, s') =>
      exists pre t t' post,
        sv_tasks s = pre ++ t :: post /\ sv_tasks s' = pre ++ t' :: post /\
        Forall (fun u => m_node u <> Some nid \/ id_of u <> asked) pre /\
        m_node t = Some nid /\ id_of t = asked /\
        m_message t' = m_message t /\ m_vars t' = m_vars t /\ m_node t' = None /\
        m_result t' = get_num_field (sr_process_code packet) /\ m_doneIp t' = fullId nid /\
        let code := get_num_field (sr_exit_code packet) in
        match sr_outputData packet with
        | Some data =>
            if (code =? 0) && (m_result t' =? Exited) then
              m_exitCode t' = i32 (fs_save (sv_fs s) (OutputFile (m_vars t)) data).1 /\
              sv_fs s' = (fs_save (sv_fs s) (OutputFile (m_vars t)) data).2
            else m_exitCode t' = code /\ sv_fs s' = sv_fs s
        | None => m_exitCode t' = code /\ sv_fs s' = sv_fs s
        end
  end.
Proof.
  cbv zeta. unfold applyResultFromSlave.
  destruct (first_result nid packet (sv_tasks s)) as [Hn|(pre & t & post & Et & Hp & Ht)].
  - rewrite apply_loop_none by done. split; [by destruct s|]. by apply result_for_none.
  - rewrite Et, apply_loop_first by done.
    exists pre, t, (apply_result fullId (sv_fs s) nid packet t).1, post.
    destruct (apply_result_fields fullId (sv_fs s) nid packet t) as (Hv & Hm & Hnode & Hr & Hip).
    do 2 (split; [done|]). split; [by apply result_for_none|]. apply result_for_true in Ht as [Hn Hid].
    repeat (split; [done|]). rewrite Hr. unfold apply_result. simpl.
    destruct (sr_outputData packet) as [data|]; simpl; rewrite ?andb_true_r, ?andb_false_r; [|done].
    destruct (_ && _); [|done]. simpl. by destruct (fs_save _ _ _).
Qed.

(** C19: a daemon that goes away loses nothing but its own work: every task
    it held waits again, every other task is untouched. *)
Theorem disconnect_releases nid s i t :
  server_inv s -> sv_tasks s !! i = Some t ->
  exists t', sv_tasks (onClientDisconnected nid s) !! i = Some t' /\
    (m_node t = Some nid -> busy t' = false /\ m_message t' = m_message t /\ m_vars t' = m_vars t) /\
    (m_node t <> Some nid -> t' = t).
Proof.
  intros HI Hi. exists (release nid t). split; [|split].
  - simpl. by rewrite list_lookup_fmap, Hi.
  - intros Hn. unfold release. rewrite bool_decide_eq_true_2 by done. split; [|done].
    unfold busy; simpl. destruct (inv_assigned s HI t nid) as [_ ->];
      [by eapply list_elem_of_lookup_2|done|]. by rewrite Z.eqb_refl.
  - intros Hn. unfold release. by rewrite bool_decide_eq_false_2.
Qed.
End refinement.
