(* ===== verification/Client.v ===== *)
(** * The daemon's TCP client ([daemon/tcp_protobufclient.cpp])

    [TcpProtobufClient] runs the tasks it receives as child processes and
    reports each one when its process has ended.  The vector of task pointers
    is a list, since every pointer has one owner; what is allocated and never
    freed is counted by the two ghost-like fields [cl_live] (objects of type
    [Task]) and [cl_procs] (process objects). *)

From Stdlib Require Import String.
From S2P Require Import Prelude CxxStd External Float32 Projects Process Messages Server.
Local Open Scope string_scope.
Local Open Scope Z_scope.
Local Open Scope list_scope.

(** [TcpProtobufClient::Task]. *)
Record CTask (P : Type) := mkCTask {
  ct_process : P;
  ct_id : Z;
  ct_sourceFile : string;
  ct_outputFile : string;
  ct_abortOnError : bool;
}.
Arguments mkCTask {P} _ _ _ _ _.
Arguments ct_process {P} _.
Arguments ct_id {P} _.
Arguments ct_sourceFile {P} _.
Arguments ct_outputFile {P} _.
Arguments ct_abortOnError {P} _.

Record Client (N F P : Type) := mkClient {
  cl_node : TcpProtobufNode N;
  cl_fs : F;
  cl_tasks : list (CTask P);
  (** [disconnect()] of the base class has been called. *)
  cl_disconnect : bool;
  (** Calls of [TcpClient::restartKeepAliveTimer]. *)
  cl_keepalive : nat;
  (** [Task] objects allocated and not deleted. *)
  cl_live : nat;
  (** Process objects allocated and not deleted, in order of creation. *)
  cl_procs : list P;
}.
Arguments mkClient {N F P} _ _ _ _ _ _ _.
Arguments cl_node {N F P} _.
Arguments cl_fs {N F P} _.
Arguments cl_tasks {N F P} _.
Arguments cl_disconnect {N F P} _.
Arguments cl_keepalive {N F P} _.
Arguments cl_live {N F P} _.
Arguments cl_procs {N F P} _.

(** What one iteration of a loop sees of its host: the operating system's
    answers about processes and the local time. *)
Record Env (W : Type) := mkEnv { e_os : W; e_hour : Z; e_min : Z }.
Arguments mkEnv {W} _ _ _.
Arguments e_os {W} _.
Arguments e_hour {W} _.
Arguments e_min {W} _.

Section client.
Context {N : Type} `{PacketNode N} {F : Type} `{FileSystem F} `{ExitCodes} `{ProcessOps W P} `{StringUtils}.
Context `{MessageCodec MPacket} `{MessageCodec SPacket}.
(** The host: hardware threads, and the process object that results from
    constructing and executing the [n]-th one with these three strings. *)
Context (threads : Z) (launch : nat -> string -> string -> string -> P).
(** The log call of a failed task, whose arguments do not match its format. *)
Context (log_fault : Z -> Z -> Z -> outcome unit).
Context (projects : Projects).
Implicit Types (c : Client N F P) (task : CTask P).

Definition cl_set_node node c : Client N F P :=
  mkClient node (cl_fs c) (cl_tasks c) (cl_disconnect c) (cl_keepalive c) (cl_live c) (cl_procs c).
Definition cl_set_fs f c : Client N F P :=
  mkClient (cl_node c) f (cl_tasks c) (cl_disconnect c) (cl_keepalive c) (cl_live c) (cl_procs c).
Definition cl_set_tasks ts c : Client N F P :=
  mkClient (cl_node c) (cl_fs c) ts (cl_disconnect c) (cl_keepalive c) (cl_live c) (cl_procs c).
Definition disconnect c : Client N F P :=
  mkClient (cl_node c) (cl_fs c) (cl_tasks c) true (cl_keepalive c) (cl_live c) (cl_procs c).
Definition restartKeepAliveTimer c : Client N F P :=
  mkClient (cl_node c) (cl_fs c) (cl_tasks c) (cl_disconnect c) (S (cl_keepalive c)) (cl_live c)
    (cl_procs c).
Definition cl_set_live n c : Client N F P :=
  mkClient (cl_node c) (cl_fs c) (cl_tasks c) (cl_disconnect c) (cl_keepalive c) n (cl_procs c).
Definition cl_add_proc p c : Client N F P :=
  mkClient (cl_node c) (cl_fs c) (cl_tasks c) (cl_disconnect c) (cl_keepalive c) (cl_live c)
    (cl_procs c ++ [p]).

Definition freeCore (e : Env W) : outcome Z := getFreeCore threads (e_hour e) (e_min e) projects.

(** The packet that reports [task], with [free] cores and [size] tasks in
    the vector. *)
Definition report (e : Env W) (f : F) (free : Z) (size : nat) task : SPacket :=
  let '(resultCode, written) := proc_getExitCode (e_os e) (ct_process task) in
  let exitCode := default 0 written in
  let '(_, data) := fs_load f (ct_outputFile task) in
  mkSPacket
    (Some (mkSInfo (Some (i32 (u32 (free - u32 (Z.of_nat size)))))))
    (Some (mkSResult (Some (ct_id task)) (Some (i32 exitCode)) (Some (i32 resultCode))
             (Some (ct_outputFile task)) (Some data))).

(** [resultCode != Exited || exitCode]. *)
Definition faulty (e : Env W) task : bool :=
  let '(resultCode, written) := proc_getExitCode (e_os e) (ct_process task) in
  negb (resultCode =? Exited) || negb (default 0 written =? 0).

(** The log call on a fault. *)
Definition log_if_faulty (e : Env W) task : outcome unit :=
  if faulty e task then
    let '(resultCode, written) := proc_getExitCode (e_os e) (ct_process task) in
    log_fault (ct_id task) resultCode (default 0 written)
  else Ret tt.

(** The body of the loop of [doWork], for the task at index [ii]; the boolean
    is [false] on [break].  Reading past the end of the vector would be
    undefined. *)
Definition doWork_body (e : Env W) (ii : Z) c : outcome (bool * Z * Client N F P) :=
  match cl_tasks c !! Z.to_nat ii with
  | None => UB
  | Some task =>
      if proc_isRunning (e_os e) (ct_process task) then Ret (true, ii, restartKeepAliveTimer c)
      else
        do free <- freeCore e;
        let packet := report e (cl_fs c) free (length (cl_tasks c)) task in
        if negb (SPacket_IsInitialized packet) then Ret (false, ii, disconnect c)
        else
          let '(sent, node) := send (cl_node c) packet in
          let c := cl_set_node node c in
          if sent =? 0 then Ret (false, ii, disconnect c)
          else
            do _ <- log_if_faulty e task;
            if faulty e task && ct_abortOnError task then Ret (false, ii, disconnect c)
            else
              let c := cl_set_fs (fs_deleteFile (cl_fs c) (ct_sourceFile task)) c in
              let c := cl_set_fs (fs_deleteFile (cl_fs c) (ct_outputFile task)) c in
              let c := cl_set_live (cl_live c - 1) c in
              let c := cl_set_tasks (delete (Z.to_nat ii) (cl_tasks c)) c in
              Ret (true, u64 (ii - 1), c)
  end.

(** The loop, with [size_t ii]: the decrement after erasing the first element
    wraps around and the increment of the [for] wraps back. *)
Fixpoint doWork_loop (fuel : nat) (env : nat -> Env W) (ii : Z) c : outcome (Client N F P) :=
  match fuel with
  | O => Ret c
  | S fuel =>
      if ii <? Z.of_nat (length (cl_tasks c)) then
        do (go, ii, c) <- doWork_body (env O) ii c;
        if go : bool then doWork_loop fuel (fun k => env (S k)) (u64 (ii + 1)) c else Ret c
      else Ret c
  end.

(** [doWork], after the base class has done its work. *)
Definition cl_doWork (env : nat -> Env W) c : outcome (Client N F P) :=
  doWork_loop (length (cl_tasks c)) env 0 c.

Definition onConnect (e : Env W) c : outcome (bool * Client N F P) :=
  do free <- freeCore e;
  let packet := mkSPacket (Some (mkSInfo (Some (i32 free)))) None in
  let '(_, node) := send (cl_node c) packet in
  Ret (true, cl_set_node node c).

Definition runTaskProcess (packet : MTask) c : bool * Client N F P :=
  let prjname := get_str_field (mt_project packet) in
  let workingdir := get_str_field (mt_workingDir packet) in
  let application := get_str_field (mt_application packet) in
  let commandline := get_str_field (mt_commandline packet) in
  let outputfile := get_str_field (mt_outputFile packet) in
  let sourcefile := get_str_field (mt_sourceFile packet) in
  match getProject projects prjname with
  | None => (false, c)
  | Some prj =>
      let workingdir := String_replace workingdir "$(pdir)" (m_path prj) true in
      let application := String_replace application "$(pdir)" (m_path prj) true in
      let commandline := String_replace commandline "$(pdir)" (m_workPath prj) true in
      let sourcefile := String_replace sourcefile "$(pdir)" (m_workPath prj) true in
      let outputfile := String_replace outputfile "$(pdir)" (m_workPath prj) true in
      let c := cl_set_live (S (cl_live c)) c in
      let '(result, f) := fs_save (cl_fs c) sourcefile (get_str_field (mt_inputData packet)) in
      let c := cl_set_fs f c in
      if negb (result =? fs_OK (F := F)) then (false, c)
      else
        let process := launch (length (cl_procs c)) (c_str application) (c_str commandline)
                         (c_str workingdir) in
        let c := cl_add_proc process c in
        let task := mkCTask process (u32 (get_num_field (mt_id packet))) sourcefile outputfile
                      (get_bool_field (mt_abortOnError packet)) in
        (true, cl_set_tasks (cl_tasks c ++ [task]) c)
  end.

(** One packet of the master; [false] ends the connection. *)
Definition cl_handle (packet : MPacket) c : bool * Client N F P :=
  let '(ok, c) :=
    match mp_task packet with
    | None => (true, c)
    | Some t =>
        let '(ok, c) := runTaskProcess t c in
        if ok then (true, c)
        else (false, cl_set_node (mkNode (clearRecvPackets (pn_base (cl_node c)))
                                    (m_freeCores (cl_node c))) c)
    end in
  if negb ok then (false, c)
  else
    match mp_system packet with
    | Some sys =>
        if has (ms_close sys) && get_bool_field (ms_close sys) then (false, c) else (true, c)
    | None => (true, c)
    end.

Fixpoint cl_recv_loop (fuel : nat) c : bool * Client N F P :=
  match fuel with
  | O => (true, c)
  | S fuel =>
      if Nat.ltb 0 (countRecvPackets (pn_base (cl_node c))) then
        let '(data, base) := extractRecvPacket (pn_base (cl_node c)) in
        let c := cl_set_node (mkNode base (m_freeCores (cl_node c))) c in
        let packet := ParseFromArray data in
        if negb (MPacket_IsInitialized packet) then (false, c)
        else
          let '(go, c) := cl_handle packet c in
          if go then cl_recv_loop fuel c else (false, c)
      else (true, c)
  end.

Definition cl_onRecvFromNode c : bool * Client N F P :=
  cl_recv_loop (S (countRecvPackets (pn_base (cl_node c)))) c.
End client.

(** ** The work loop against a reference that recurses over the tasks *)

Section client_facts.
Context {N : Type} `{PacketNode N} {F : Type} `{FileSystem F} `{ExitCodes} `{ProcessOps W P} `{StringUtils}.
Context `{MessageCodec MPacket} `{MessageCodec SPacket}.
Context (threads : Z) (launch : nat -> string -> string -> string -> P).
Context (log_fault : Z -> Z -> Z -> outcome unit).
Context (projects : Projects).
Implicit Types (c : Client N F P) (task t : CTask P) (env : nat -> Env W).

Abbreviation free_core := (freeCore (W := W) threads projects).
Abbreviation work_loop := (doWork_loop threads log_fault projects).
Abbreviation work := (cl_doWork threads log_fault projects).

Definition running (e : Env W) task : bool := proc_isRunning (e_os e) (ct_process task).

(** Reporting an ended task when the vector holds [size] tasks; [false] when
    the pass stops there. *)
Definition settle (e : Env W) (size : nat) task c : outcome (bool * Client N F P) :=
  do free <- free_core e;
  let '(sent, node) := send (cl_node c) (report e (cl_fs c) free size task) in
  let c := cl_set_node node c in
  if sent =? 0 then Ret (false, disconnect c)
  else
    do _ <- log_if_faulty log_fault e task;
    if faulty e task && ct_abortOnError task then Ret (false, disconnect c)
    else
      Ret (true, cl_set_live (cl_live c - 1)
        (cl_set_fs (fs_deleteFile (fs_deleteFile (cl_fs c) (ct_sourceFile task)) (ct_outputFile task)) c)).

Fixpoint sweep env (kept rest : list (CTask P)) c : outcome (Client N F P) :=
  match rest with
  | [] => Ret (cl_set_tasks kept c)
  | task :: rest' =>
      if running (env O) task then
        sweep (fun k => env (S k)) (kept ++ [task]) rest' (restartKeepAliveTimer c)
      else
        do (go, c) <- settle (env O) (length kept + length rest) task c;
        if go : bool then sweep (fun k => env (S k)) kept rest' c
        else Ret (cl_set_tasks (kept ++ rest) c)
  end.

Lemma report_initialized e f free size task : SPacket_IsInitialized (report e f free size task) = true.
Proof. unfold report. destruct (proc_getExitCode _ _). by destruct (fs_load _ _). Qed.

Lemma cl_set_tasks_idem a b c : cl_set_tasks a (cl_set_tasks b c) = cl_set_tasks a c.
Proof. done. Qed.

Lemma cl_set_tasks_id c : cl_set_tasks (cl_tasks c) c = c.
Proof. by destruct c. Qed.

(** [sweep] and [settle] do not look at the vector. *)
Lemma settle_tasks e size task ts c :
  settle e size task (cl_set_tasks ts c) =
    (do (go, c') <- settle e size task c; Ret (go, cl_set_tasks ts c')).
Proof.
  unfold settle. destruct (free_core e); simpl; [|done|done].
  destruct (send _ _) as [sent node]. simpl. destruct (sent =? 0); [done|].
  destruct (log_if_faulty _ _ _); simpl; [|done|done]. by destruct (_ && _).
Qed.

Lemma sweep_tasks env kept rest ts c :
  sweep env kept rest (cl_set_tasks ts c) = sweep env kept rest c.
Proof.
  revert env kept ts c. induction rest as [|task rest IH]; intros env kept ts c; [done|]. cbn [sweep].
  destruct (running _ _).
  - exact (IH _ _ ts (restartKeepAliveTimer c)).
  - rewrite settle_tasks. destruct (settle _ _ _ c) as [[go c']| |]; simpl; [|done|done].
    destruct go; [apply IH|done].
Qed.

Lemma settle_keeps e size task c go c' :
  settle e size task c = Ret (go, c') -> cl_tasks c' = cl_tasks c /\ cl_procs c' = cl_procs c.
Proof.
  unfold settle. intros (free & _ & HR)%obind_Ret_inv. destruct (send _ _) as [sent node].
  destruct (sent =? 0); [by inv_outcome|]. apply obind_Ret_inv in HR as (? & _ & HR).
  destruct (_ && _); by inv_outcome.
Qed.

Lemma lookup_middle_len {A} (l1 l2 : list A) x n :
  n = Z.of_nat (length l1) -> (l1 ++ x :: l2) !! Z.to_nat n = Some x.
Proof. intros ->. rewrite Nat2Z.id. by apply list_lookup_middle. Qed.

Lemma delete_middle_len {A} (l1 l2 : list A) x n :
  n = Z.of_nat (length l1) -> delete (Z.to_nat n) (l1 ++ x :: l2) = l1 ++ l2.
Proof. intros ->. rewrite Nat2Z.id. by apply delete_middle. Qed.

Lemma next_index (n : nat) : Z.of_nat n < 2 ^ 64 -> u64 (u64 (Z.of_nat n - 1) + 1) = Z.of_nat n.
Proof.
  intros Hn. unfold wrapU. rewrite Zplus_mod_idemp_l, Z.mod_small; lia.
Qed.

(** One iteration of the loop, at the index that follows the kept tasks. *)
Lemma doWork_body_spec e kept task rest c :
  cl_tasks c = kept ++ task :: rest ->
  doWork_body threads log_fault projects e (Z.of_nat (length kept)) c =
    if running e task then Ret (true, Z.of_nat (length kept), restartKeepAliveTimer c)
    else
      do (go, c') <- settle e (length kept + S (length rest)) task c;
      if go : bool then Ret (true, u64 (Z.of_nat (length kept) - 1), cl_set_tasks (kept ++ rest) c')
      else Ret (false, Z.of_nat (length kept), c').
Proof.
  intros Et. unfold doWork_body, settle, running.
  rewrite Et, lookup_middle_len by done.
  destruct (proc_isRunning _ _); [done|]. rewrite length_app. simpl length.
  destruct (free_core e) as [free| |]; simpl; [|done|done].
  rewrite report_initialized. simpl. destruct (send _ _) as [sent node].
  destruct (sent =? 0); [done|]. simpl.
  destruct (log_if_faulty _ _ _); simpl; [|done|done].
  destruct (_ && _); [done|]. simpl. by rewrite Et, delete_middle_len.
Qed.

Lemma doWork_loop_sweep fuel env kept rest c :
  cl_tasks c = kept ++ rest -> (length rest <= fuel)%nat -> Z.of_nat (length (cl_tasks c)) < 2 ^ 64 ->
  work_loop fuel env (Z.of_nat (length kept)) c = sweep env kept rest c.
Proof.
  revert env kept rest c. induction fuel as [|fuel IH]; intros env kept rest c Et Hf Hn.
  { destruct rest; [|simpl in Hf; lia]. cbn [sweep doWork_loop]. rewrite app_nil_r in Et.
    rewrite <- Et. by rewrite cl_set_tasks_id. }
  cbn [doWork_loop]. destruct rest as [|task rest].
  { cbn [sweep]. rewrite app_nil_r in Et. rewrite Et, Z.ltb_irrefl, <- Et. by rewrite cl_set_tasks_id. }
  rewrite Et in Hn. rewrite length_app in Hn. simpl in Hn, Hf.
  rewrite (proj2 (Z.ltb_lt _ _)) by (rewrite Et, length_app; simpl; lia).
  rewrite (doWork_body_spec _ kept task rest) by done. cbn [sweep].
  destruct (running (env O) task).
  - cbn [obind]. replace (u64 (Z.of_nat (length kept) + 1)) with (Z.of_nat (length (kept ++ [task]))).
    + apply IH; [by rewrite <- app_assoc|lia|]. simpl. rewrite Et, length_app. simpl. lia.
    + rewrite length_app. unfold wrapU. rewrite Z.mod_small; simpl; lia.
  - cbn [length]. destruct (settle _ _ _ _) as [[go c']| |] eqn:Es; simpl; [|done|done].
    destruct go; simpl.
    + rewrite next_index by lia. rewrite <- (sweep_tasks _ kept rest (kept ++ rest) c').
      apply IH; [done|lia|]. simpl. rewrite length_app. lia.
    + apply settle_keeps in Es as [Es _]. rewrite <- Et, <- Es. by rewrite cl_set_tasks_id.
Qed.

(** ** What a pass amounts to *)

(** The tasks that run, and those that have ended, when task [k] is looked at
    in [env k]. *)
Fixpoint kept_by env (l : list (CTask P)) : list (CTask P) :=
  match l with
  | [] => []
  | t :: l =>
      if running (env O) t then t :: kept_by (fun k => env (S k)) l
      else kept_by (fun k => env (S k)) l
  end.

Fixpoint ended_by env (l : list (CTask P)) : list (Env W * CTask P) :=
  match l with
  | [] => []
  | t :: l =>
      if running (env O) t then ended_by (fun k => env (S k)) l
      else (env O, t) :: ended_by (fun k => env (S k)) l
  end.

Definition without_files (f : F) (t : CTask P) : F :=
  fs_deleteFile (fs_deleteFile f (ct_sourceFile t)) (ct_outputFile t).

(** One report per ended task: each sees the files the earlier ones left and
    a vector that is one task shorter. *)
Fixpoint reports (free : Env W -> Z) (f : F) (size : nat) (l : list (Env W * CTask P)) : list SPacket :=
  match l with
  | [] => []
  | (e, t) :: l => report e f (free e) size t :: reports free (without_files f t) (size - 1) l
  end.

Fixpoint send_all (node : TcpProtobufNode N) (ps : list SPacket) : bool * TcpProtobufNode N :=
  match ps with
  | [] => (true, node)
  | p :: ps =>
      let '(r, node) := send node p in
      if r =? 0 then (false, node) else send_all node ps
  end.

(** The pass goes on after this task. *)
Definition goes_on (et : Env W * CTask P) : Prop :=
  (faulty et.1 et.2 && ct_abortOnError et.2) = false /\ log_if_faulty log_fault et.1 et.2 = Ret tt.

Lemma ended_length env l : (length (kept_by env l) + length (ended_by env l) = length l)%nat.
Proof.
  revert env. induction l as [|t l IH]; intros env; [done|]. cbn [kept_by ended_by].
  specialize (IH (fun k => env (S k))). destruct (running _ _); simpl; lia.
Qed.

Lemma reports_ids free f size l :
  ((fun p => sp_result p ≫= sr_id) <$> reports free f size l) = ((fun et => Some (ct_id et.2)) <$> l).
Proof.
  revert f size. induction l as [|[e t] l IH]; intros f size; [done|]. cbn [reports]. csimpl.
  rewrite IH. f_equal. unfold report. destruct (proc_getExitCode _ _). by destruct (fs_load _ _).
Qed.

Lemma sweep_clean free env kept rest c node' :
  (forall k, free_core (env k) = Ret (free (env k))) ->
  Forall goes_on (ended_by env rest) ->
  send_all (cl_node c) (reports free (cl_fs c) (length kept + length rest) (ended_by env rest))
    = (true, node') ->
  exists c', sweep env kept rest c = Ret c' /\
    cl_tasks c' = kept ++ kept_by env rest /\ cl_node c' = node' /\
    cl_fs c' = fold_left without_files (snd <$> ended_by env rest) (cl_fs c) /\
    cl_disconnect c' = cl_disconnect c /\
    cl_live c' = (cl_live c - length (ended_by env rest))%nat /\
    cl_keepalive c' = (cl_keepalive c + length (kept_by env rest))%nat /\
    cl_procs c' = cl_procs c.
Proof.
  intros Hfree. revert env kept c Hfree. induction rest as [|task rest IH]; intros env kept c Hfree Hg Hs.
  { simpl in Hs. injection Hs as <-. eexists. split; [done|]. simpl. rewrite app_nil_r.
    repeat split; lia. }
  cbn [sweep ended_by kept_by] in *. destruct (running (env O) task) eqn:Er.
  - destruct (IH (fun k => env (S k)) (kept ++ [task]) (restartKeepAliveTimer c))
      as (c' & -> & Ht & Hn & Hf & Hd & Hl & Hk & Hp); try done.
    { by rewrite length_app, <- Nat.add_assoc. }
    exists c'. split; [done|]. rewrite Ht, <- app_assoc. simpl in *. repeat split; try done. lia.
  - apply Forall_cons in Hg as [[Ha Hlog] Hg]. simpl in Ha, Hlog.
    cbn [reports send_all] in Hs. unfold settle. rewrite Hfree. cbn [obind length] in *.
    destruct (send _ _) as [sent node]. destruct (sent =? 0); [done|].
    rewrite Hlog. cbn [obind]. rewrite Ha. cbn [obind].
    match goal with |- context [sweep _ _ _ ?c] => set (c1 := c) end.
    destruct (IH (fun k => env (S k)) kept c1) as (c' & -> & Ht & Hn & Hf & Hd & Hl & Hk & Hp); try done.
    { simpl. rewrite Nat.add_succ_r, Nat.sub_succ, Nat.sub_0_r in Hs. exact Hs. }
    exists c'. simpl in *. repeat split; try done. lia.
Qed.

(** The index loop with its wrap-around decrement is a single pass over the
    tasks: with at least as many steps as there are tasks it ends, it never
    reads past the vector, and it does what the structural recursion [sweep]
    does. *)
Lemma doWork_sweep fuel env c :
  Z.of_nat (length (cl_tasks c)) < 2 ^ 64 -> (length (cl_tasks c) <= fuel)%nat ->
  work_loop fuel env 0 c = work env c /\ work env c = sweep env [] (cl_tasks c) c.
Proof.
  intros Hn Hf. unfold cl_doWork. change 0 with (Z.of_nat (length ([] : list (CTask P)))).
  rewrite !(doWork_loop_sweep _ env [] (cl_tasks c)) by done. done.
Qed.


Lemma settle_stops e size task c go c' :
  settle e size task c = Ret (go, c') ->
  (go = true /\ cl_live c' = (cl_live c - 1)%nat /\ cl_disconnect c' = cl_disconnect c) \/
  (go = false /\ cl_live c' = cl_live c /\ cl_disconnect c' = true).
Proof.
  unfold settle. intros (free & _ & HR)%obind_Ret_inv. destruct (send _ _) as [sent node].
  destruct (sent =? 0); [inv_outcome; by right|]. apply obind_Ret_inv in HR as (? & _ & HR).
  destruct (_ && _); inv_outcome; [by right|by left].
Qed.

Lemma sweep_no_loss env kept rest c c' :
  sweep env kept rest c = Ret c' ->
  exists pre post, rest = pre ++ post /\ cl_tasks c' = kept ++ kept_by env pre ++ post /\
    cl_live c' = (cl_live c - length (ended_by env pre))%nat /\ cl_procs c' = cl_procs c /\
    (post = [] \/ cl_disconnect c' = true).
Proof.
  revert env kept c. induction rest as [|task rest IH]; intros env kept c; cbn [sweep].
  { intros [= <-]. exists [], []. simpl. rewrite app_nil_r. repeat split; [lia|by left]. }
  destruct (running (env O) task) eqn:Er.
  - intros (pre & post & -> & Ht & Hl & Hp & Hd)%IH. exists (task :: pre), post.
    cbn [kept_by ended_by]. rewrite Er, Ht, <- app_assoc. by repeat split.
  - intros ([go c1] & Es & HR)%obind_Ret_inv.
    pose proof (settle_keeps _ _ _ _ _ _ Es) as [_ Hp1].
    destruct (settle_stops _ _ _ _ _ _ Es) as [(-> & Hl1 & Hd1)|(-> & Hl1 & Hd1)].
    + apply IH in HR as (pre & post & -> & Ht & Hl & Hp & Hd). exists (task :: pre), post.
      cbn [kept_by ended_by]. rewrite Er. cbn [length].
      repeat split; [done|lia|congruence|done].
    + inv_outcome. exists [], (task :: rest). simpl.
      repeat split; [lia|done|by right].
Qed.

(** No task is forgotten, whatever fails: after a pass that returns, the
    vector holds the running tasks of the part that was looked at and all of
    the rest; something remains unlooked at only after [disconnect]. *)
Lemma doWork_no_loss env c c' :
  Z.of_nat (length (cl_tasks c)) < 2 ^ 64 -> work env c = Ret c' ->
  exists pre post, cl_tasks c = pre ++ post /\ cl_tasks c' = kept_by env pre ++ post /\
    cl_live c' = (cl_live c - length (ended_by env pre))%nat /\ cl_procs c' = cl_procs c /\
    (post = [] \/ cl_disconnect c' = true).
Proof.
  unfold cl_doWork. intros Hn.
  rewrite (doWork_loop_sweep _ env [] (cl_tasks c)) by done. apply sweep_no_loss.
Qed.

(** ** Receiving *)

Abbreviation run_task := (runTaskProcess launch projects).
Abbreviation recv := (cl_onRecvFromNode launch projects).

(** The project-relative strings of a packet on this host. *)
Definition local_path (prj : Item) (o : option string) : string :=
  String_replace (get_str_field o) "$(pdir)" (m_workPath prj) true.

(** The task object for a packet. *)
Definition task_of (prj : Item) (n : nat) (packet : MTask) : CTask P :=
  mkCTask
    (launch n (c_str (String_replace (get_str_field (mt_application packet)) "$(pdir)" (m_path prj) true))
       (c_str (local_path prj (mt_commandline packet)))
       (c_str (String_replace (get_str_field (mt_workingDir packet)) "$(pdir)" (m_path prj) true)))
    (u32 (get_num_field (mt_id packet)))
    (local_path prj (mt_sourceFile packet)) (local_path prj (mt_outputFile packet))
    (get_bool_field (mt_abortOnError packet)).

Lemma runTaskProcess_cases packet c :
  match getProject projects (get_str_field (mt_project packet)) with
  | None => run_task packet c = (false, c)
  | Some prj =>
      let src := local_path prj (mt_sourceFile packet) in
      let '(result, f) := fs_save (cl_fs c) src (get_str_field (mt_inputData packet)) in
      (result <> fs_OK (F := F) ->
         run_task packet c = (false, cl_set_fs f (cl_set_live (S (cl_live c)) c))) /\
      (result = fs_OK (F := F) -> exists c',
         run_task packet c = (true, c') /\
         fs_load (cl_fs c') src = (fs_OK (F := F), get_str_field (mt_inputData packet)) /\
         let task := task_of prj (length (cl_procs c)) packet in
         cl_tasks c' = cl_tasks c ++ [task] /\ cl_procs c' = cl_procs c ++ [ct_process task] /\
         cl_live c' = S (cl_live c) /\ cl_node c' = cl_node c)
  end.
Proof.
  unfold runTaskProcess. destruct (getProject _ _) as [prj|]; [|done].
  fold (local_path prj (mt_sourceFile packet)). cbn zeta. simpl cl_fs.
  pose proof (save_load (cl_fs c) (local_path prj (mt_sourceFile packet))
    (get_str_field (mt_inputData packet))) as Hsave.
  destruct (fs_save _ _ _) as [result f]. simpl in Hsave. split.
  - intros Hne%Z.eqb_neq. by rewrite Hne.
  - intros ->. rewrite Z.eqb_refl. simpl. eexists. split; [done|]. simpl. split; [by apply Hsave|done].
Qed.

(** C14: a received task is refused for an unknown project - nothing changes -
    or when its source file cannot be saved - then only a [Task] object is
    lost; otherwise the source file holds exactly the bytes received, one
    process has been started for it with the project's paths filled in, and
    the task is the last one of the vector. *)
Theorem runTaskProcess_spec packet c :
  match getProject projects (get_str_field (mt_project packet)) with
  | None => run_task packet c = (false, c)
  | Some prj =>
      let src := local_path prj (mt_sourceFile packet) in
      let '(result, f) := fs_save (cl_fs c) src (get_str_field (mt_inputData packet)) in
      (result <> fs_OK (F := F) ->
         run_task packet c = (false, cl_set_fs f (cl_set_live (S (cl_live c)) c))) /\
      (result = fs_OK (F := F) -> exists c',
         run_task packet c = (true, c') /\
         fs_load (cl_fs c') src = (fs_OK (F := F), get_str_field (mt_inputData packet)) /\
         let task := task_of prj (length (cl_procs c)) packet in
         cl_tasks c' = cl_tasks c ++ [task] /\ cl_procs c' = cl_procs c ++ [ct_process task] /\
         cl_live c' = S (cl_live c) /\ cl_node c' = cl_node c)
  end.
Proof. apply runTaskProcess_cases. Qed.

(** ** Objects *)

(** What the client does to itself, one callback at a time. *)
Inductive client_step : Client N F P -> Client N F P -> Prop :=
| cs_work env c c' : work env c = Ret c' -> client_step c c'
| cs_recv c : client_step c (recv c).2
| cs_connect (e : Env W) c ok c' : onConnect threads projects e c = Ret (ok, c') -> client_step c c'
| cs_traffic base c : client_step c (cl_set_node (mkNode base (m_freeCores (cl_node c))) c).

Record client_inv c : Prop := {
  (** Every task of the vector is an allocated object ... *)
  ci_live : (length (cl_tasks c) <= cl_live c)%nat;
  (** ... and refers to a process object that exists. *)
  ci_procs t : t ∈ cl_tasks c -> ct_process t ∈ cl_procs c;
  ci_ids t : t ∈ cl_tasks c -> inU 32 (ct_id t);
  ci_size : Z.of_nat (cl_live c) < 2 ^ 64;
}.

Lemma kept_by_subset env l t : t ∈ kept_by env l -> t ∈ l.
Proof.
  revert env. induction l as [|u l IH]; intros env; cbn [kept_by]; [done|].
  destruct (running _ _); rewrite ?elem_of_cons; naive_solver.
Qed.

Definition grows c c' : Prop :=
  client_inv c -> Z.of_nat (cl_live c') < 2 ^ 64 ->
  client_inv c' /\ cl_procs c `prefix_of` cl_procs c'.

Lemma run_task_grows packet c : grows c (run_task packet c).2 /\ (cl_live c <= cl_live (run_task packet c).2)%nat.
Proof.
  unfold grows. pose proof (runTaskProcess_cases packet c) as Hs.
  destruct (getProject _ _) as [prj|]; [|rewrite Hs; done].
  cbn zeta in Hs. destruct (fs_save _ _ _) as [result f].
  destruct Hs as [Hbad Hok]. destruct (decide (result = fs_OK (F := F))) as [->|Hne].
  - destruct Hok as (c' & -> & _ & Ht & Hp & Hl & _); [done|]. simpl. split; [|lia].
    intros [H1' H2' H3' H4'] Hsz. split.
    + split; [rewrite Ht, Hl, length_app; simpl; lia| | |done].
      * rewrite Ht, Hp. intros t. rewrite !elem_of_app, !list_elem_of_singleton.
        intros [Hin| ->]; [left; by apply H2'|by right].
      * rewrite Ht. intros t. rewrite elem_of_app, list_elem_of_singleton.
        intros [Hin| ->]; [by apply H3'|]. by apply wrapU_range.
    + rewrite Hp. by eexists.
  - rewrite Hbad by done. simpl. split; [|lia]. intros [H1' H2' H3' H4'] Hsz. split; [|done].
    split; simpl; try done. lia.
Qed.

(** The composition of two growing actions; the number of live objects never
    decreases while receiving. *)
Definition grows' c c' : Prop := grows c c' /\ (cl_live c <= cl_live c')%nat.

Lemma grows_refl c : grows' c c.
Proof. split; [|done]. intros HI _. by split. Qed.

Lemma grows_trans c1 c2 c3 : grows' c1 c2 -> grows' c2 c3 -> grows' c1 c3.
Proof.
  intros [G12 L12] [G23 L23]. split; [|lia]. intros HI Hsz.
  destruct (G12 HI) as [HI2 P12]; [lia|]. destruct (G23 HI2 Hsz) as [HI3 P23].
  split; [done|]. by etransitivity.
Qed.

Lemma grows_node node c : grows' c (cl_set_node node c).
Proof. split; [|done]. intros [? ? ? ?] _. by split. Qed.

Lemma run_task_grows' packet c : grows' c (run_task packet c).2.
Proof. apply run_task_grows. Qed.

Lemma cl_handle_grows packet c : grows' c (cl_handle launch projects packet c).2.
Proof.
  unfold cl_handle. destruct (mp_task packet) as [t|]; simpl.
  - pose proof (run_task_grows' t c) as G. destruct (run_task t c) as [ok c1]. simpl in G.
    destruct ok; simpl.
    + destruct (mp_system packet); [|done]. by destruct (_ && _).
    + eapply grows_trans; [exact G|apply grows_node].
  - destruct (mp_system packet); [|apply grows_refl]. destruct (_ && _); apply grows_refl.
Qed.

Lemma cl_recv_loop_grows fuel c : grows' c (cl_recv_loop launch projects fuel c).2.
Proof.
  revert c. induction fuel as [|fuel IH]; intros c; [apply grows_refl|]. cbn [cl_recv_loop].
  destruct (Nat.ltb _ _); [|apply grows_refl].
  destruct (extractRecvPacket _) as [data base].
  set (c1 := cl_set_node _ c). assert (G1 : grows' c c1) by apply grows_node.
  destruct (negb _); [done|].
  pose proof (cl_handle_grows (ParseFromArray data) c1) as G2.
  destruct (cl_handle _ _ _ c1) as [go c2]. simpl in G2.
  assert (G : grows' c c2) by (by eapply grows_trans).
  destruct go; [|done]. by eapply grows_trans; [|apply IH].
Qed.

Lemma kept_bounds env pre post c c' :
  cl_tasks c = pre ++ post -> cl_tasks c' = kept_by env pre ++ post ->
  cl_live c' = (cl_live c - length (ended_by env pre))%nat -> cl_procs c' = cl_procs c ->
  client_inv c -> client_inv c'.
Proof.
  intros Et Et' El Ep [H1' H2' H3' H4'].
  pose proof (ended_length env pre) as Hlen. rewrite Et, length_app in H1'.
  assert (Hsub : forall t, t ∈ cl_tasks c' -> t ∈ cl_tasks c).
  { rewrite Et, Et'. intros t. rewrite !elem_of_app.
    intros [Hin|Hin]; [left; by eapply kept_by_subset|by right]. }
  split; [rewrite Et', length_app; lia| | |lia]; intros t Ht%Hsub; [rewrite Ep|]; auto.
Qed.

Lemma client_step_grows c c' : client_step c c' -> grows c c'.
Proof.
  intros [env c1 c2 Hw | c1 | e c1 ok c2 Hc | base c1].
  - intros HI Hsz. pose proof HI as [H1' _ _ H4'].
    assert (Hn : Z.of_nat (length (cl_tasks c1)) < 2 ^ 64) by lia.
    unfold cl_doWork in Hw. rewrite (doWork_loop_sweep _ env [] (cl_tasks c1)) in Hw by done.
    apply sweep_no_loss in Hw as (pre & post & Et & Et' & El & Ep & _).
    split; [by eapply (kept_bounds env pre post c1)|by rewrite Ep].
  - apply cl_recv_loop_grows.
  - unfold onConnect in Hc. apply obind_Ret_inv in Hc as (free & _ & Hc).
    destruct (send _ _) as [r node]. injection Hc as <- <-. apply grows_node.
  - apply grows_node.
Qed.

(** C18: ownership.  Every task of the vector is an allocated object with an
    existing process object and a 32-bit identifier, whatever the client
    does; and process objects are never destroyed, so each task that was ever
    started keeps its process and thread handles. *)
Theorem client_objects c c' :
  client_inv c -> Z.of_nat (cl_live c') < 2 ^ 64 -> client_step c c' ->
  client_inv c' /\ cl_procs c `prefix_of` cl_procs c'.
Proof. intros HI Hsz Hs. by apply client_step_grows. Qed.

(** ** The packet loop of the client *)

Abbreviation pending_packets c := (countRecvPackets (pn_base (cl_node c))).

Lemma cl_handle_queue packet c go c' :
  cl_handle launch projects packet c = (go, c') ->
  pending_packets c' = pending_packets c \/ (go = false /\ pending_packets c' = O).
Proof.
  unfold cl_handle. destruct (mp_task packet) as [t|].
  - pose proof (runTaskProcess_cases t c) as Hs.
    assert (Hq : cl_node (run_task t c).2 = cl_node c).
    { destruct (getProject _ _) as [prj|]; [|by rewrite Hs]. cbn zeta in Hs.
      destruct (fs_save _ _ _) as [result f]. destruct Hs as [Hbad Hok].
      destruct (decide (result = fs_OK (F := F))) as [->|Hne].
      - by destruct Hok as (c1 & -> & _ & _ & _ & _ & ?).
      - by rewrite Hbad. }
    destruct (run_task t c) as [ok c1]. simpl in Hq. destruct ok; simpl.
    + destruct (mp_system packet); [destruct (_ && _)|]; intros [= <- <-]; left; by rewrite Hq.
    + intros [= <- <-]. right. split; [done|]. simpl. apply clear_count.
  - simpl. destruct (mp_system packet); [destruct (_ && _)|]; intros [= <- <-]; by left.
Qed.

(** Receiving always terminates: with at least one step more than there
    are packets the outcome does not depend on the bound, and when the
    connection is to stay open the queue has been emptied. *)
Lemma client_recv_total fuel c :
  (pending_packets c < fuel)%nat ->
  cl_recv_loop launch projects fuel c = recv c /\
  ((recv c).1 = true -> pending_packets (recv c).2 = O).
Proof.
  unfold cl_onRecvFromNode. remember (pending_packets c) as n eqn:En.
  revert fuel c En. induction n as [n IH] using lt_wf_ind. intros fuel c En Hf.
  destruct fuel as [|fuel]; [lia|]. cbn [cl_recv_loop]. rewrite <- En.
  destruct (Nat.ltb_spec 0 n) as [Hpos|Hz]; [|split; [done|]; intros _; simpl; lia].
  pose proof (extract_count (pn_base (cl_node c)) ltac:(lia)) as Hx.
  destruct (extractRecvPacket (pn_base (cl_node c))) as [data base]. simpl in Hx.
  destruct (negb _); [by split|].
  set (c1 := cl_set_node _ c). destruct (cl_handle _ _ _ c1) as [go c2] eqn:Eh.
  destruct go; [|by split].
  apply cl_handle_queue in Eh as [Eh|[? _]]; [|done]. simpl in Eh.
  destruct (IH (n - 1)%nat ltac:(lia) fuel c2 ltac:(lia) ltac:(lia)) as [H1' H2'].
  destruct (IH (n - 1)%nat ltac:(lia) n c2 ltac:(lia) ltac:(lia)) as [H3' _].
  rewrite H1', H3'. done.
Qed.
End client_facts.
