(* ===== verification/System.v ===== *)
(** * The whole system: one console, many daemons, the links between them

    [Server] and every daemon's [Client] run against the same wire: what one
    side has sent lies in the outbox of its node until the link carries it
    into the inbox of the other.  [sys_step] interleaves all of them with
    failures.  The theorems account for every task the console believes to be
    running on a daemon. *)

From Stdlib Require Import String.
From stdpp Require Import functions.
From S2P Require Import Prelude CxxStd External Float32 Projects Process Messages Tasks Server Schedule Client.
Local Open Scope string_scope.
Local Open Scope Z_scope.
Local Open Scope list_scope.

(** ** What the libraries promise *)

(** A packet node delivers packets whole and in order. *)
Class FifoNode (N : Type) `{PacketNode N} := {
  inbox : N -> list string;
  outbox : N -> list string;
  (** The link puts a packet in, or takes the oldest one out. *)
  arrive : string -> N -> N;
  depart : N -> N;
  inbox_count n : countRecvPackets n = length (inbox n);
  inbox_extract n d l : inbox n = d :: l ->
    (extractRecvPacket n).1 = d /\ inbox (extractRecvPacket n).2 = l /\
    outbox (extractRecvPacket n).2 = outbox n;
  clear_boxes n : inbox (clearRecvPackets n) = [] /\ outbox (clearRecvPackets n) = outbox n;
  send_boxes n p :
    (p <> "" -> (PacketNode_send n p).1 <> 0) /\ inbox (PacketNode_send n p).2 = inbox n /\
    outbox (PacketNode_send n p).2 = outbox n ++ [p];
  arrive_boxes n p : inbox (arrive p n) = inbox n ++ [p] /\ outbox (arrive p n) = outbox n;
  depart_boxes n : inbox (depart n) = inbox n /\ outbox (depart n) = tail (outbox n);
}.

(** The generated classes check their required fields, hold what their types
    hold, and read the empty array as the empty message. *)
Class ProtoMessages `{MessageCodec MPacket} `{MessageCodec SPacket} : Prop := {
  init_M p : IsInitialized p = MPacket_IsInitialized p;
  init_S p : IsInitialized p = SPacket_IsInitialized p;
  typed_M p : MPacket_typed p -> typed p;
  typed_S p : SPacket_typed p -> typed p;
  parse_empty_M : ParseFromArray "" = mkMPacket None None;
  parse_empty_S : ParseFromArray "" = mkSPacket None None;
}.

(** ** What is on the wire *)

Section wire.
Context {N : Type} `{FifoNode N} `{ProtoMessages}.
Implicit Types (node : TcpProtobufNode N) (d : string).

(** The identifiers of the tasks, and of the results, among packets. *)
Definition m_id (d : string) : list Z :=
  match mp_task (ParseFromArray d : MPacket) with Some t => [get_num_field (mt_id t)] | None => [] end.
Definition s_id (d : string) : list Z :=
  match sp_result (ParseFromArray d : SPacket) with Some r => [get_num_field (sr_id r)] | None => [] end.
Definition m_ids (l : list string) : list Z := concat (m_id <$> l).
Definition s_ids (l : list string) : list Z := concat (s_id <$> l).

(** Packets as the two programs write them. *)
Definition m_ok (d : string) : Prop :=
  MPacket_IsInitialized (ParseFromArray d) = true /\ MPacket_typed (ParseFromArray d).
Definition s_ok (d : string) : Prop :=
  SPacket_IsInitialized (ParseFromArray d) = true /\ SPacket_typed (ParseFromArray d).

Definition in_box node : list string := inbox (pn_base node).
Definition out_box node : list string := outbox (pn_base node).

Definition small (d : string) : Prop := str_len d < 2 ^ 31.

Lemma m_ids_app l1 l2 : m_ids (l1 ++ l2) = m_ids l1 ++ m_ids l2.
Proof. unfold m_ids. by rewrite fmap_app, concat_app. Qed.
Lemma s_ids_app l1 l2 : s_ids (l1 ++ l2) = s_ids l1 ++ s_ids l2.
Proof. unfold s_ids. by rewrite fmap_app, concat_app. Qed.
Lemma m_ids_one d : m_ids [d] = m_id d.
Proof. unfold m_ids; simpl. apply app_nil_r. Qed.
Lemma s_ids_one d : s_ids [d] = s_id d.
Proof. unfold s_ids; simpl. apply app_nil_r. Qed.

(** Sending a complete message puts exactly that message on the wire. *)
Lemma send_master node (p : MPacket) :
  MPacket_IsInitialized p = true -> MPacket_typed p -> p <> mkMPacket None None ->
  exists d, in_box (send node p).2 = in_box node /\ out_box (send node p).2 = out_box node ++ [d] /\
    (small d -> ParseFromArray d = p).
Proof.
  intros Hi%eq_sym Ht Hne. rewrite <- init_M in Hi. symmetry in Hi. apply typed_M in Ht.
  pose proof (size_serialize p Ht Hi) as Hs. unfold send. rewrite Hi, orb_false_r.
  destruct (Z.eqb_spec (ByteSizeLong p) 0) as [E|E].
  - destruct Hne. rewrite <- parse_empty_M.
    assert (Ee : SerializeToString p = "") by (destruct (SerializeToString p); [done|]; unfold str_len in Hs; simpl in Hs; lia).
    rewrite <- Ee. symmetry. apply parse_serialize; [done|done|lia].
  - destruct (send_boxes (pn_base node) (SerializeToString p)) as (_ & Hin & Hout).
    exists (SerializeToString p). destruct (PacketNode_send _ _) as [r base]. simpl in *.
    split; [done|]. split; [done|]. intros Hsm. unfold small in Hsm. apply parse_serialize; [done|done|lia].
Qed.

Lemma send_slave node (p : SPacket) :
  SPacket_IsInitialized p = true -> SPacket_typed p -> p <> mkSPacket None None ->
  exists d, (send node p).1 <> 0 /\ in_box (send node p).2 = in_box node /\
    out_box (send node p).2 = out_box node ++ [d] /\ (small d -> ParseFromArray d = p).
Proof.
  intros Hi%eq_sym Ht Hne. rewrite <- init_S in Hi. symmetry in Hi. apply typed_S in Ht.
  pose proof (size_serialize p Ht Hi) as Hs. unfold send. rewrite Hi, orb_false_r.
  destruct (Z.eqb_spec (ByteSizeLong p) 0) as [E|E].
  - destruct Hne. rewrite <- parse_empty_S.
    assert (Ee : SerializeToString p = "") by (destruct (SerializeToString p); [done|]; unfold str_len in Hs; simpl in Hs; lia).
    rewrite <- Ee. symmetry. apply parse_serialize; [done|done|lia].
  - destruct (send_boxes (pn_base node) (SerializeToString p)) as (Hr & Hin & Hout).
    assert (Hne' : SerializeToString p <> "") by (intros Ee; rewrite Ee in Hs; done). specialize (Hr Hne').
    exists (SerializeToString p). destruct (PacketNode_send _ _) as [r base]. simpl in *.
    split; [done|]. split; [done|]. split; [done|]. intros Hsm. unfold small in Hsm.
    apply parse_serialize; [done|done|lia].
Qed.
End wire.

(** ** The console's side *)

Section master.
Context {N : Type} `{FifoNode N} {F : Type} `{FileSystem F} `{ExitCodes} `{ProtoMessages}.
Context (fullId : NodeId -> string).
Implicit Types (s : Server N F) (n : NodeId) (node : TcpProtobufNode N) (t : TaskInfo) (R : NodeId -> list Z).

Definition id_of (t : TaskInfo) : Z := get_num_field (task_id t).

(** The tasks the console has given to [n]. *)
Definition given (n : NodeId) (ts : list TaskInfo) : list Z :=
  id_of <$> filter (fun t => m_node t = Some n) ts.

Record server_ok s : Prop := {
  so_tasks : Forall (fun t => message_complete t /\ MTask_typed (m_message t)) (sv_tasks s);
  so_nodes n node : sv_nodes s !! n = Some node -> Forall m_ok (out_box node) /\ Forall s_ok (in_box node);
}.

(** What the console has given to [n] is on its way there, or its result is
    back at the console, or it is at [R n]. *)
Definition accounted R s : Prop := forall n node,
  sv_nodes s !! n = Some node ->
  given n (sv_tasks s) ≡ₚ m_ids (out_box node) ++ s_ids (in_box node) ++ R n.

Definition small_out s : Prop := forall n node, sv_nodes s !! n = Some node -> Forall small (out_box node).

(** Outboxes only grow. *)
Definition outbox_grows s s' : Prop := forall n node, sv_nodes s !! n = Some node ->
  exists node', sv_nodes s' !! n = Some node' /\ out_box node `prefix_of` out_box node'.

#[local] Instance outbox_grows_preorder : PreOrder outbox_grows.
Proof.
  split; [intros s n node Hn; by exists node|]. intros s1 s2 s3 H12 H23 n node Hn.
  destruct (H12 n node Hn) as (node2 & Hn2 & P2). destruct (H23 n node2 Hn2) as (node3 & Hn3 & P3).
  exists node3. split; [done|]. by etransitivity.
Qed.

Lemma small_out_before s s' : outbox_grows s s' -> small_out s' -> small_out s.
Proof.
  intros Hg Hs n node Hn. destruct (Hg n node Hn) as (node' & Hn' & [l E]).
  specialize (Hs n node' Hn'). rewrite E in Hs. by apply Forall_app in Hs as [Hs _].
Qed.

(** A step of the console that changes what lies elsewhere from [R] to [R'],
    as long as all packets are small. *)
Definition carries R R' s s' : Prop :=
  outbox_grows s s' /\
  (small_out s' -> server_ok s -> accounted R s -> server_ok s' /\ accounted R' s').

Lemma carries_refl R s : carries R R s s.
Proof. split; [done|]. auto. Qed.

Lemma carries_trans R1 R2 R3 s1 s2 s3 : carries R1 R2 s1 s2 -> carries R2 R3 s2 s3 -> carries R1 R3 s1 s3.
Proof.
  intros [G12 C12] [G23 C23]. split; [by etransitivity|]. intros Hs Hok Ha.
  destruct (C12 (small_out_before _ _ G23 Hs) Hok Ha) as [Hok2 Ha2]. by apply C23.
Qed.

(** *** Replacing one task *)

Lemma given_app n l1 l2 : given n (l1 ++ l2) = given n l1 ++ given n l2.
Proof. unfold given. by rewrite filter_app, fmap_app. Qed.

Lemma given_cons n t l : given n (t :: l) = (if decide (m_node t = Some n) then [id_of t] else []) ++ given n l.
Proof. unfold given. rewrite filter_cons. by case_decide. Qed.

Lemma given_same n f ts :
  (forall t, m_node (f t) = m_node t /\ m_message (f t) = m_message t) -> given n (f <$> ts) = given n ts.
Proof.
  intros Hf. induction ts as [|t ts IH]; [done|]. csimpl. rewrite !given_cons, IH.
  destruct (Hf t) as [E1 E2]. unfold id_of, task_id. by rewrite E1, E2.
Qed.

Lemma grows_client n node node' s :
  sv_nodes s !! n = Some node -> out_box node `prefix_of` out_box node' ->
  forall ts, outbox_grows s (set_client n node' (set_tasks ts s)).
Proof.
  intros Hn Hp ts m nodem Hm. simpl. destruct (decide (n = m)) as [->|Hne].
  - rewrite lookup_insert_eq. exists node'. split; [done|]. by simplify_eq.
  - rewrite lookup_insert_ne by done. by exists nodem.
Qed.

Lemma carries_tasks R ts s :
  Forall (fun t => message_complete t /\ MTask_typed (m_message t)) ts ->
  (forall n, given n ts = given n (sv_tasks s)) -> carries R R s (set_tasks ts s).
Proof.
  intros Hts Hg. split; [intros n node Hn; by exists node|].
  intros _ [Ht Hn] Ha. split; [by split|]. intros n node Hnode. simpl. rewrite Hg. by apply Ha.
Qed.

Lemma carries_fs R f s : carries R R s (set_fs f s).
Proof. split; [intros n node Hn; by exists node|]. intros _ [Ht Hn] Ha. split; [by split|done]. Qed.

(** Only the node [n] and its packets change. *)
Lemma carries_client R R' n node node' s :
  sv_nodes s !! n = Some node -> out_box node `prefix_of` out_box node' ->
  (forall m, m <> n -> R' m = R m) ->
  (Forall small (out_box node') -> Forall m_ok (out_box node) -> Forall s_ok (in_box node) ->
     Forall m_ok (out_box node') /\ Forall s_ok (in_box node') /\
     m_ids (out_box node') ++ s_ids (in_box node') ++ R' n ≡ₚ m_ids (out_box node) ++ s_ids (in_box node) ++ R n) ->
  carries R R' s (set_client n node' s).
Proof.
  intros Hn Hp HR Hids. split.
  { intros m nodem Hm. simpl. destruct (decide (n = m)) as [->|Hne].
    - rewrite lookup_insert_eq. exists node'. split; [done|]. by simplify_eq.
    - rewrite lookup_insert_ne by done. by exists nodem. }
  intros Hs [Ht Hnodes] Ha. specialize (Hs n node'). simpl in Hs. rewrite lookup_insert_eq in Hs.
  destruct (Hnodes n node Hn) as [Hm Hin]. destruct (Hids (Hs eq_refl) Hm Hin) as (Hm' & Hin' & E). split; [split|].
  - done.
  - intros m nodem. simpl. destruct (decide (n = m)) as [->|Hne].
    + rewrite lookup_insert_eq. intros [= <-]. done.
    + rewrite lookup_insert_ne by done. apply Hnodes.
  - intros m nodem. simpl. destruct (decide (n = m)) as [->|Hne].
    + rewrite lookup_insert_eq. intros [= <-]. rewrite E. by apply Ha.
    + rewrite lookup_insert_ne by done. rewrite (HR m) by done. apply Ha.
Qed.

(** *** The operations *)

Lemma task_packet_fields f t :
  message_complete t -> MTask_IsInitialized (task_packet f t) = true /\ mt_id (task_packet f t) = task_id t.
Proof.
  intros Hc. unfold task_packet. destruct (fs_load _ _) as [r data]. split; [apply Hc|done].
Qed.

(** A waiting task goes out to [n]. *)
Lemma carries_send R f n node pre t post s :
  server_ok s -> sv_nodes s !! n = Some node -> sv_tasks s = pre ++ t :: post -> m_node t = None ->
  carries R R s (set_client n (node_after f node t) (set_tasks (pre ++ set_node (Some n) t :: post) s)).
Proof.
  intros [Hts Hnodes] Hn Et Hnone. pose proof Hts as Hc. rewrite Et in Hc.
  apply Forall_app in Hc as [Hpre Hc]. apply Forall_cons in Hc as [[Hc Hty] Hpost].
  destruct (task_packet_fields f t Hc) as [Hi Hid].
  destruct (send_master node (mkMPacket (Some (task_packet f t)) None)) as (d & Ein & Eout & Hd); [done| |done|].
  { unfold MPacket_typed, MTask_typed; simpl. by rewrite Hid. }
  assert (Eout' : out_box (node_after f node t) = out_box node ++ [d]) by exact Eout.
  assert (Ein' : in_box (node_after f node t) = in_box node) by exact Ein.
  set (node' := node_after f node t) in *. clearbody node'.
  split; [apply (grows_client n node); [done|rewrite Eout'; by apply prefix_app_r]|].
  intros Hs _ Ha. specialize (Hs n node'). simpl in Hs. rewrite lookup_insert_eq in Hs.
  specialize (Hs eq_refl). rewrite Eout' in Hs. apply Forall_app in Hs as [_ Hd']. apply Forall_inv in Hd'.
  specialize (Hd Hd'). split; [split|].
  - simpl. apply Forall_app. split; [done|]. by constructor.
  - intros m nodem. simpl. destruct (decide (n = m)) as [->|Hne].
    + rewrite lookup_insert_eq. intros [= <-]. destruct (Hnodes m node Hn) as [Hm Hin].
      rewrite Eout', Ein'. split; [|done]. apply Forall_app. split; [done|]. apply Forall_singleton.
      unfold m_ok. rewrite Hd. split; [done|]. unfold MPacket_typed, MTask_typed; simpl. by rewrite Hid.
    + rewrite lookup_insert_ne by done. apply Hnodes.
  - intros m nodem. simpl. rewrite given_app, given_cons. simpl m_node.
    destruct (decide (n = m)) as [->|Hne].
    + rewrite lookup_insert_eq. intros [= <-]. rewrite decide_True by done.
      specialize (Ha m node Hn). rewrite Et, given_app, given_cons, Hnone in Ha. simpl in Ha.
      assert (Ed : m_id d = [id_of t]) by (unfold m_id; rewrite Hd; cbn [mp_task]; by rewrite Hid).
      rewrite Eout', Ein', m_ids_app, m_ids_one, Ed.
      change (id_of (set_node (Some m) t)) with (id_of t).
      rewrite <- !app_assoc. simpl. rewrite <- !Permutation_middle. by f_equiv.
    + rewrite lookup_insert_ne by done. intros Hm. rewrite decide_False by congruence.
      specialize (Ha m nodem Hm). by rewrite Et, given_app, given_cons, Hnone in Ha.
Qed.

Lemma carries_sendTasks R n s : carries R R s (sendTasksToSlave n s).2.
Proof.
  unfold sendTasksToSlave. destruct (sv_nodes s !! n) as [node|] eqn:E; [|apply carries_refl].
  destruct (m_freeCores node <=? 0); [apply carries_refl|].
  destruct (first_free (sv_tasks s)) as [Hb|(pre & t & post & Et & Hp & Ht)].
  - rewrite send_loop_all_busy, set_tasks_id by done. simpl.
    apply (carries_client R R n node); [done|done|done|]. by intros.
  - rewrite Et, send_loop_first by done.
    assert (Hnone : m_node t = None) by (unfold busy in Ht; by destruct (m_node t)).
    destruct (MTask_IsInitialized _) eqn:Ei; simpl.
    + split.
      * apply (grows_client n node); [done|]. unfold node_after, out_box, send; simpl.
        destruct (_ || _); [done|]. simpl.
        destruct (send_boxes (pn_base node) (SerializeToString (mkMPacket (Some (task_packet (sv_fs s) t)) None)))
          as (_ & _ & Eo).
        destruct (PacketNode_send _ _). simpl in *. rewrite Eo. by apply prefix_app_r.
      * intros Hs Hok Ha. by apply (carries_send R (sv_fs s) n node pre t post s).
    + rewrite <- Et, set_tasks_id. apply (carries_client R R n node); [done|done|done|]. by intros.
Qed.

(** [l] has reached the console from [n] and is being dealt with. *)
Definition bump n (l : list Z) R : NodeId -> list Z := fun m => if decide (m = n) then l ++ R m else R m.

Lemma bump_eq n l R : bump n l R n = l ++ R n.
Proof. unfold bump. by rewrite decide_True. Qed.
Lemma bump_ne n l R m : m <> n -> bump n l R m = R m.
Proof. intros Hne. unfold bump. by rewrite decide_False. Qed.

Lemma carries_result R n (r : SResult) s :
  carries (bump n [get_num_field (sr_id r)] R) R s (applyResultFromSlave fullId n r s).2.
Proof.
  unfold applyResultFromSlave.
  assert (Hother : forall ts m, (forall u, u ∈ ts -> result_for n r u = false) ->
    ~ (m = n /\ get_num_field (sr_id r) ∈ given m ts)).
  { intros ts m Hall [-> Hin]. unfold given in Hin. apply list_elem_of_fmap in Hin as (u & Eu & Hu).
    apply list_elem_of_filter in Hu as [Hn Hu]. specialize (Hall u Hu). unfold result_for in Hall.
    rewrite bool_decide_eq_true_2 in Hall by done. unfold id_of, task_id in Eu. rewrite Eu, Z.eqb_refl in Hall. done. }
  destruct (first_result n r (sv_tasks s)) as [Hn|(pre & t & post & Et & Hp & Ht)].
  - rewrite apply_loop_none, set_tasks_id by done. split; [intros m node Hm; by exists node|].
    intros _ [Hts Hnodes] Ha. split; [by split|]. intros m node Hm. specialize (Ha m node Hm).
    destruct (decide (m = n)) as [->|Hne]; [|by rewrite bump_ne in Ha].
    destruct (Hother (sv_tasks s) n); [by apply Forall_forall|]. split; [done|]. rewrite Ha, bump_eq. set_solver.
  - rewrite Et, apply_loop_first by done. simpl.
    destruct (apply_result_fields fullId (sv_fs s) n r t) as (_ & Hm & Hnode & _).
    set (t' := (apply_result fullId (sv_fs s) n r t).1) in *. clearbody t'.
    unfold result_for in Ht. apply andb_true_iff in Ht as [Hnt%bool_decide_eq_true Hid%Z.eqb_eq].
    split; [intros m node Hnode'; by exists node|].
    intros _ [Hts Hnodes] Ha. rewrite Et in Hts. apply Forall_app in Hts as [Hpre Hc].
    apply Forall_cons in Hc as [Hc Hpost]. split; [split; [|exact Hnodes]|].
    + simpl. apply Forall_app. split; [done|]. constructor; [|done].
      destruct Hc as [Hc Hty]. unfold message_complete. by rewrite Hm.
    + intros m node Hnd. specialize (Ha m node Hnd). simpl. rewrite given_app, given_cons, Hnode.
      rewrite Et, given_app, given_cons, Hnt in Ha. rewrite decide_False by done. simpl.
      destruct (decide (m = n)) as [->|Hne].
      * rewrite decide_True, bump_eq in Ha by done. unfold id_of, task_id in Ha. rewrite <- Hid in Ha.
        simpl in Ha. rewrite <- !Permutation_middle in Ha. by apply Permutation_cons_inv in Ha.
      * rewrite decide_False, bump_ne in Ha by congruence. done.
Qed.

Lemma carries_freeCores R n v node s :
  sv_nodes s !! n = Some node -> carries R R s (set_client n (with_freeCores v node) s).
Proof. intros Hn. apply (carries_client R R n node); [done|done|done|]. by intros. Qed.

Lemma carries_handle R n (p : SPacket) s :
  carries (bump n (match sp_result p with Some r => [get_num_field (sr_id r)] | None => [] end) R) R
    s (handle_packet fullId n p s).
Proof.
  unfold handle_packet. set (R1 := bump n _ R).
  set (s1 := match sp_info p with Some _ => _ | None => s end).
  assert (C1 : carries R1 R1 s s1).
  { subst s1. destruct (sp_info p) as [info|]; [|apply carries_refl].
    destruct (sv_nodes s !! n) as [node|] eqn:E; [|apply carries_refl].
    eapply carries_trans; [by apply carries_freeCores|apply carries_sendTasks]. }
  eapply carries_trans; [exact C1|]. subst R1. destruct (sp_result p) as [r|]; [apply carries_result|].
  split; [done|]. intros _ Hok Ha. split; [done|]. intros m node Hm. specialize (Ha m node Hm).
  unfold bump in Ha. by case_decide.
Qed.

(** A packet leaves the inbox. *)
Lemma carries_extract R n node d l free s :
  sv_nodes s !! n = Some node -> in_box node = d :: l ->
  carries R (bump n (s_id d) R) s
    (set_client n (mkNode (extractRecvPacket (pn_base node)).2 free) s).
Proof.
  intros Hn Hin. destruct (inbox_extract _ _ _ Hin) as (_ & Hin' & Hout).
  apply (carries_client R _ n node); [done| |intros; by apply bump_ne|].
  - unfold out_box; simpl. by rewrite Hout.
  - intros _ Hm Hs. unfold out_box, in_box in *; simpl. rewrite Hout, Hin', bump_eq.
    rewrite Hin in *. apply Forall_cons in Hs as [_ Hs]. split; [done|]. split; [done|].
    unfold s_ids; csimpl. rewrite <- !app_assoc. f_equiv. rewrite !app_assoc. f_equiv. apply Permutation_app_comm.
Qed.

Lemma carries_recv_loop fuel R n s : carries R R s (recv_loop fullId fuel n s).2.
Proof.
  revert s. induction fuel as [|fuel IH]; intros s; [apply carries_refl|]. cbn [recv_loop].
  destruct (sv_nodes s !! n) as [node|] eqn:E; [|apply carries_refl].
  destruct (Nat.ltb_spec 0 (countRecvPackets (pn_base node))) as [Hpos|]; [|apply carries_refl].
  rewrite inbox_count in Hpos. destruct (inbox (pn_base node)) as [|d l] eqn:Ein; [simpl in Hpos; lia|].
  destruct (inbox_extract _ _ _ Ein) as (Ed & _).
  pose proof (carries_extract R n node d l (m_freeCores node) s E Ein) as C1.
  destruct (extractRecvPacket (pn_base node)) as [data base]. simpl in Ed, C1. subst data.
  set (s1 := set_client n (mkNode base (m_freeCores node)) s) in *.
  destruct (SPacket_IsInitialized (ParseFromArray d)) eqn:Ei; cbn [negb].
  - eapply carries_trans; [exact C1|]. eapply carries_trans; [|apply IH].
    exact (carries_handle R n (ParseFromArray d) s1).
  - destruct C1 as [G1 C1]. split; [done|]. intros _ [_ Hnodes] _.
    destruct (Hnodes n node E) as [_ Hs]. unfold in_box in Hs. rewrite Ein in Hs.
    apply Forall_cons in Hs as [[Hs _] _]. congruence.
Qed.

(** Nothing that arrives is refused. *)
Lemma recv_loop_accepts fuel R n s :
  small_out (recv_loop fullId fuel n s).2 -> server_ok s -> accounted R s -> (recv_loop fullId fuel n s).1 = true.
Proof.
  revert s. induction fuel as [|fuel IH]; intros s Hsm Hok Ha; [done|]. cbn [recv_loop] in *.
  destruct (sv_nodes s !! n) as [node|] eqn:E; [|done].
  destruct (Nat.ltb_spec 0 (countRecvPackets (pn_base node))) as [Hpos|]; [|done].
  rewrite inbox_count in Hpos. destruct (inbox (pn_base node)) as [|d l] eqn:Ein; [simpl in Hpos; lia|].
  destruct (inbox_extract _ _ _ Ein) as (Ed & _).
  pose proof (carries_extract R n node d l (m_freeCores node) s E Ein) as C1.
  destruct (extractRecvPacket (pn_base node)) as [data base]. simpl in Ed, C1. subst data.
  destruct (so_nodes s Hok n node E) as [_ Hs]. unfold in_box in Hs. rewrite Ein in Hs.
  apply Forall_cons in Hs as [[Hi _] _]. rewrite Hi in *. cbn [negb] in *.
  set (s1 := set_client n (mkNode base (m_freeCores node)) s) in *.
  pose proof (carries_trans _ _ _ _ _ _ C1 (carries_handle R n (ParseFromArray d) s1)) as [_ C12].
  destruct (carries_recv_loop fuel R n (handle_packet fullId n (ParseFromArray d) s1)) as [G _].
  destruct (C12 (small_out_before _ _ G Hsm) Hok Ha) as [Hok2 Ha2]. by apply IH.
Qed.

Lemma carries_fold R (g : Server N F -> NodeId -> Server N F) l s :
  (forall u m, carries R R u (g u m)) -> carries R R s (fold_left g l s).
Proof.
  intros Hg. revert s. induction l as [|m l IH]; intros s; [apply carries_refl|]. simpl.
  eapply carries_trans; [apply Hg|apply IH].
Qed.

Lemma carries_doWork R s : carries R R s (doWork s).
Proof. apply carries_fold. intros. apply carries_sendTasks. Qed.

Lemma carries_close R s : carries R R s (closeAllClients s).
Proof.
  apply carries_fold. intros u n. destruct (sv_nodes u !! n) as [node|] eqn:E; [|apply carries_refl].
  destruct (send_master node close_packet) as (d & Hin & Hout & Hd); [done|done|done|].
  apply (carries_client R R n node); [done|rewrite Hout; by apply prefix_app_r|done|].
  rewrite Hout, Hin. intros Hs Hm Hsl. apply Forall_app in Hs as [_ Hs]. apply Forall_inv in Hs.
  specialize (Hd Hs). split; [|split; [done|]].
  - apply Forall_app. split; [done|]. apply Forall_singleton. unfold m_ok. by rewrite Hd.
  - rewrite m_ids_app, m_ids_one. unfold m_id. rewrite Hd. simpl. by rewrite app_nil_r.
Qed.
End master.

(** ** A daemon's side *)

Section slave.
Context {N : Type} `{FifoNode N} {F : Type} `{FileSystem F} `{ExitCodes} `{ProcessOps W P} `{StringUtils} `{ProtoMessages}.
Context (threads : Z) (launch : nat -> string -> string -> string -> P).
Context (log_fault : Z -> Z -> Z -> outcome unit) (projects : Projects).
Implicit Types (c : Client N F P) (task : CTask P) (env : nat -> Env W).

(** What lies at a daemon: tasks that have arrived, tasks that run, results
    that wait to leave. *)
Definition holds c : list Z :=
  m_ids (in_box (cl_node c)) ++ (ct_id <$> cl_tasks c) ++ s_ids (out_box (cl_node c)).

Record client_ok c : Prop := {
  co_in : Forall m_ok (in_box (cl_node c));
  co_out : Forall s_ok (out_box (cl_node c));
  co_ids : Forall (fun t => inU 32 (ct_id t)) (cl_tasks c);
}.

Definition cl_small c : Prop := Forall small (out_box (cl_node c)).

(** *** Receiving *)

(** What receiving leaves alone. *)
Definition quiet c c' : Prop :=
  out_box (cl_node c') = out_box (cl_node c) /\ cl_disconnect c' = cl_disconnect c.

Lemma cl_handle_moves (p : MPacket) c go c' :
  cl_handle launch projects p c = (go, c') -> MPacket_typed p ->
  quiet c c' /\
  (go = true -> in_box (cl_node c') = in_box (cl_node c) /\
     exists new, cl_tasks c' = cl_tasks c ++ new /\ Forall (fun t => inU 32 (ct_id t)) new /\
       ct_id <$> new = match mp_task p with Some t => [get_num_field (mt_id t)] | None => [] end).
Proof.
  intros Hh Hty. unfold cl_handle in Hh. destruct (mp_task p) as [t|] eqn:Et.
  - pose proof (runTaskProcess_cases launch projects t c) as Hr.
    assert (Hcase : let '(ok, c1) := runTaskProcess launch projects t c in
      cl_node c1 = cl_node c /\ cl_disconnect c1 = cl_disconnect c /\
      (ok = true -> exists task, cl_tasks c1 = cl_tasks c ++ [task] /\ ct_id task = u32 (get_num_field (mt_id t)))).
    { destruct (getProject projects _) as [prj|]; [|by rewrite Hr]. cbn zeta in Hr.
      destruct (runTaskProcess launch projects t c) as [ok c1] eqn:Er.
      assert (Hd : cl_disconnect c1 = cl_disconnect c).
      { unfold runTaskProcess in Er. destruct (getProject _ _); [|by injection Er as <- <-].
        destruct (fs_save _ _ _) as [r f]. destruct (negb _); by injection Er as <- <-. }
      destruct (fs_save _ _ _) as [r f]. destruct Hr as [Hbad Hok].
      destruct (decide (r = fs_OK (F := F))) as [->|Hne].
      - destruct Hok as (c2 & [= -> ->] & _ & Ht & _ & _ & Hn); [done|]. split; [done|]. split; [done|].
        intros _. by eexists.
      - specialize (Hbad Hne). injection Hbad as -> ->. by split. }
    destruct (runTaskProcess launch projects t c) as [ok c1]. destruct Hcase as (Hn & Hd & Hok).
    destruct ok; simpl in Hh.
    + destruct (Hok eq_refl) as (task & Ht & Hid).
      assert (Hid' : ct_id task = get_num_field (mt_id t)).
      { rewrite Hid. apply wrapU_id. unfold MPacket_typed, MTask_typed in Hty. rewrite Et in Hty.
        destruct (mt_id t); [exact Hty|unfold inU; simpl; lia]. }
      assert (c' = c1 /\ go = go) as [-> _].
      { destruct (mp_system p); [destruct (_ && _)|]; by injection Hh as <- <-. }
      split; [split; [by rewrite Hn|done]|]. intros _. split; [by rewrite Hn|].
      exists [task]. split; [done|]. split; [|by rewrite <- Hid'].
      apply Forall_singleton. rewrite Hid. by apply wrapU_range.
    + injection Hh as <- <-. split; [|done]. split; [|done]. unfold out_box; simpl.
      destruct (clear_boxes (pn_base (cl_node c1))) as [_ ->]. by rewrite Hn.
  - assert (c' = c) as ->.
    { simpl in Hh. destruct (mp_system p); [destruct (_ && _)|]; by injection Hh as <- <-. }
    split; [done|]. intros _. split; [done|]. exists []. by rewrite app_nil_r.
Qed.

Lemma cl_recv_loop_moves fuel c go c' :
  cl_recv_loop launch projects fuel c = (go, c') -> client_ok c ->
  quiet c c' /\ (go = true -> client_ok c' /\ holds c ≡ₚ holds c').
Proof.
  revert c. induction fuel as [|fuel IH]; intros c Hr Hok; cbn [cl_recv_loop] in Hr;
    [by injection Hr as <- <-|].
  destruct (Nat.ltb_spec 0 (countRecvPackets (pn_base (cl_node c)))) as [Hpos|];
    [|by injection Hr as <- <-].
  rewrite inbox_count in Hpos. destruct (inbox (pn_base (cl_node c))) as [|d l] eqn:Ein; [simpl in Hpos; lia|].
  destruct (inbox_extract _ _ _ Ein) as (Ed & Hin & Hout).
  destruct (extractRecvPacket (pn_base (cl_node c))) as [data base]. simpl in Ed, Hin, Hout. subst data.
  destruct Hok as [Hm Hs Hids]. unfold in_box in Hm. rewrite Ein in Hm. apply Forall_cons in Hm as [[Hi Hty] Hm].
  rewrite Hi in Hr. cbn [negb] in Hr. set (c1 := cl_set_node _ c) in Hr.
  destruct (cl_handle launch projects _ c1) as [go2 c2] eqn:Eh.
  destruct (cl_handle_moves _ _ _ _ Eh Hty) as [[Q1 Q2] Hgo].
  assert (Eo : out_box (cl_node c2) = out_box (cl_node c)) by (rewrite Q1; exact Hout).
  destruct go2; [|injection Hr as <- <-; split; [split; [done|by rewrite Q2]|done]].
  destruct (Hgo eq_refl) as (Hin2 & new & Ht & Hnew & Hid).
  destruct (IH c2 Hr) as [[Q3 Q4] Hrest].
  { split; [rewrite Hin2; unfold in_box; simpl; by rewrite Hin|by rewrite Eo|].
    rewrite Ht. apply Forall_app. by split. }
  split; [split; [by rewrite Q3|by rewrite Q4, Q2]|]. intros Hg. destruct (Hrest Hg) as [Hok' E]. split; [done|].
  rewrite <- E. unfold holds. rewrite Eo, Hin2, Ht, fmap_app, Hid.
  assert (E1 : m_ids (in_box (cl_node c)) = m_id d ++ m_ids l) by (unfold in_box; by rewrite Ein).
  assert (E2 : m_ids (in_box (cl_node c1)) = m_ids l) by (unfold in_box; simpl; by rewrite Hin).
  rewrite E1, E2. fold (m_id d). rewrite <- !app_assoc, (app_assoc _ (m_ids l)), (Permutation_app_comm (m_id d)).
  rewrite <- !app_assoc. f_equiv. rewrite !app_assoc. f_equiv. apply Permutation_app_comm.
Qed.

(** *** The work loop *)

Lemma report_typed e f free size task : inU 32 (ct_id task) -> SPacket_typed (report e f free size task).
Proof.
  intros Hid. unfold report. destruct (proc_getExitCode _ _) as [r w]. destruct (fs_load _ _) as [o data].
  repeat split; simpl; try (apply wrapS_range; lia); apply Hid.
Qed.

Lemma report_result e f free size task :
  exists r, sp_result (report e f free size task) = Some r /\ get_num_field (sr_id r) = ct_id task.
Proof.
  unfold report. destruct (proc_getExitCode _ _) as [r w]. destruct (fs_load _ _) as [o data]. by eexists.
Qed.

(** One ended task: its report is in the outbox. *)
Lemma settle_moves e size task c go c' :
  settle threads log_fault projects e size task c = Ret (go, c') -> inU 32 (ct_id task) ->
  in_box (cl_node c') = in_box (cl_node c) /\ cl_disconnect c' = (if go then cl_disconnect c else true) /\
  exists d, out_box (cl_node c') = out_box (cl_node c) ++ [d] /\ (small d -> s_ok d /\ s_id d = [ct_id task]).
Proof.
  intros Hs Hid. unfold settle in Hs. apply obind_Ret_inv in Hs as (free & _ & Hs).
  destruct (report_result e (cl_fs c) free size task) as (r & Er & Eid).
  set (p := report e (cl_fs c) free size task) in *.
  destruct (send_slave (cl_node c) p) as (d & Hr & Hin & Hout & Hd);
    [apply report_initialized|by apply report_typed|intros E; by rewrite E in Er|].
  destruct (send (cl_node c) p) as [sent node]. simpl in Hr, Hin, Hout.
  destruct (Z.eqb_spec sent 0); [done|]. apply obind_Ret_inv in Hs as (? & _ & Hs).
  assert (Hd' : small d -> s_ok d /\ s_id d = [ct_id task]).
  { intros Hsm. specialize (Hd Hsm). unfold s_ok, s_id. rewrite Hd, Er, Eid.
    split; [|done]. split; [apply report_initialized|by apply report_typed]. }
  destruct (_ && _); injection Hs as <- <-; (split; [done|]); (split; [done|]); by exists d.
Qed.

(** After a pass that started with [held] at the daemon. *)
Definition worked (held : list Z) c c' : Prop :=
  in_box (cl_node c') = in_box (cl_node c) /\ out_box (cl_node c) `prefix_of` out_box (cl_node c') /\
  (cl_small c' -> Forall s_ok (out_box (cl_node c)) -> Forall s_ok (out_box (cl_node c')) /\
     (cl_disconnect c' = false -> Forall (fun t => inU 32 (ct_id t)) (cl_tasks c') /\
        held ++ s_ids (out_box (cl_node c)) ≡ₚ (ct_id <$> cl_tasks c') ++ s_ids (out_box (cl_node c'))) /\
     (exists lost, held ++ s_ids (out_box (cl_node c)) ≡ₚ lost ++ s_ids (out_box (cl_node c')))).

Lemma sweep_moves env kept rest c c' :
  sweep threads log_fault projects env kept rest c = Ret c' ->
  Forall (fun t => inU 32 (ct_id t)) (kept ++ rest) ->
  worked (ct_id <$> (kept ++ rest)) c c'.
Proof.
  revert env kept c. induction rest as [|task rest IH]; intros env kept c Hs Hids; cbn [sweep] in Hs.
  { injection Hs as <-. rewrite app_nil_r in *. split; [done|]. split; [done|]. intros _ Hok.
    split; [done|]. split; [done|]. by exists (ct_id <$> kept). }
  destruct (running (env O) task).
  - apply IH in Hs; [|by rewrite <- app_assoc]. rewrite <- app_assoc in Hs. exact Hs.
  - apply obind_Ret_inv in Hs as ([go c1] & Es & Hs). pose proof Hids as Hids'.
    apply Forall_app in Hids' as [Hk Hids']. apply Forall_cons in Hids' as [Hid Hrest].
    destruct (settle_moves _ _ _ _ _ _ Es Hid) as (Hin & Hdisc & d & Hout & Hd).
    rewrite fmap_app, fmap_cons. destruct go.
    + apply IH in Hs as (Hin' & Hpre & Hw); [|by apply Forall_app].
      split; [congruence|]. rewrite Hout in Hpre. split; [etransitivity; [by apply prefix_app_r|exact Hpre]|].
      intros Hsm Hok. assert (Hsd : small d).
      { destruct Hpre as [l El]. unfold cl_small in Hsm. rewrite El in Hsm.
        apply Forall_app in Hsm as [Hsm _]. apply Forall_app in Hsm as [_ Hsm]. by apply Forall_inv in Hsm. }
      destruct (Hd Hsd) as [Hsok Hsid]. rewrite Hout in Hw.
      destruct (Hw Hsm) as (Hok' & Hlive & lost & El); [by apply Forall_app; split; [|apply Forall_singleton]|].
      rewrite s_ids_app, s_ids_one, Hsid, fmap_app in *.
      assert (E : ((ct_id <$> kept) ++ ct_id task :: (ct_id <$> rest)) ++ s_ids (out_box (cl_node c)) ≡ₚ
                  ((ct_id <$> kept) ++ (ct_id <$> rest)) ++ s_ids (out_box (cl_node c)) ++ [ct_id task]).
      { rewrite <- !app_assoc. simpl. rewrite !(app_assoc _ _ [_]), <- Permutation_cons_append. by rewrite <- Permutation_middle. }
      split; [done|]. split; [|exists lost; by rewrite E].
      intros Hc. destruct (Hlive Hc) as [Hu Ep]. split; [done|]. by rewrite E.
    + injection Hs as <-. set (c2 := cl_set_tasks _ c1).
      assert (Ho : out_box (cl_node c2) = out_box (cl_node c) ++ [d]) by exact Hout.
      split; [exact Hin|]. split; [rewrite Ho; by apply prefix_app_r|].
      intros Hsm Hok. unfold cl_small in Hsm. rewrite Ho in Hsm.
      apply Forall_app in Hsm as [_ Hsm]. apply Forall_inv in Hsm. destruct (Hd Hsm) as [Hsok Hsid].
      rewrite Ho. change (cl_disconnect c2) with (cl_disconnect c1).
      split; [by apply Forall_app; split; [|apply Forall_singleton]|]. rewrite Hdisc. split; [done|].
      exists ((ct_id <$> kept) ++ (ct_id <$> rest)). rewrite s_ids_app, s_ids_one, Hsid.
      rewrite <- !app_assoc. simpl. rewrite !(app_assoc _ _ [_]), <- Permutation_cons_append. by rewrite <- Permutation_middle.
Qed.

Lemma cl_doWork_moves env c c' :
  cl_doWork threads log_fault projects env c = Ret c' -> Z.of_nat (length (cl_tasks c)) < 2 ^ 64 ->
  client_ok c -> worked (ct_id <$> cl_tasks c) c c'.
Proof.
  intros Hw Hn [_ _ Hids]. unfold cl_doWork in Hw.
  rewrite (doWork_loop_sweep _ _ _ _ env [] (cl_tasks c)) in Hw by done. exact (sweep_moves _ _ _ _ _ Hw Hids).
Qed.

(** *** Connecting *)

Lemma onConnect_moves (e : Env W) c ok c' :
  onConnect threads projects e c = Ret (ok, c') ->
  cl_tasks c' = cl_tasks c /\ cl_disconnect c' = cl_disconnect c /\ in_box (cl_node c') = in_box (cl_node c) /\
  exists d, out_box (cl_node c') = out_box (cl_node c) ++ [d] /\ (small d -> s_ok d /\ s_id d = []).
Proof.
  unfold onConnect. intros (free & _ & Hs)%obind_Ret_inv.
  destruct (send_slave (cl_node c) (mkSPacket (Some (mkSInfo (Some (i32 free)))) None)) as (d & _ & Hin & Hout & Hd);
    [done|split; [apply wrapS_range; lia|done]|done|].
  destruct (send (cl_node c) _) as [r node]. injection Hs as _ <-. split; [done|]. split; [done|].
  split; [done|]. exists d. split; [done|]. intros Hsm. specialize (Hd Hsm). unfold s_ok, s_id. rewrite Hd.
  split; [|done]. split; [done|]. split; [apply wrapS_range; lia|done].
Qed.
End slave.

(** ** Both together *)

Section system.
Context {N : Type} `{FifoNode N} {F : Type} `{FileSystem F} `{ExitCodes} `{ProcessOps W P} `{StringUtils} `{ProtoMessages}.
Context (fullId : NodeId -> string).
(** Every daemon has a host and a project registry of its own. *)
Context (threads : NodeId -> Z) (launch : NodeId -> nat -> string -> string -> string -> P).
Context (log_fault : NodeId -> Z -> Z -> Z -> outcome unit) (projects : NodeId -> Projects).
Implicit Types (s : Server N F) (n : NodeId) (node : TcpProtobufNode N) (c : Client N F P).

Record Sys := mkSys {
  sy_server : Server N F;
  (** The client at the other end of a connection, while there is one. *)
  sy_clients : gmap NodeId (Client N F P);
}.
Implicit Types (S : Sys).

Definition with_base (base : N) node : TcpProtobufNode N := mkNode base (m_freeCores node).

(** A client that has just been created for a connection. *)
Definition new_client c : Prop :=
  cl_tasks c = [] /\ cl_disconnect c = false /\ in_box (cl_node c) = [] /\ out_box (cl_node c) = [].

(** A client that ended the connection does nothing more; what it has sent
    may still arrive. *)
Inductive net_step : Sys -> Sys -> Prop :=
| sys_connect n base e c c' s cs :
    sv_nodes s !! n = None -> inbox base = [] -> outbox base = [] -> new_client c ->
    onConnect (W := W) (threads n) (projects n) e c = Ret (true, c') ->
    net_step (mkSys s cs) (mkSys (newClient n base s) (<[n := c']> cs))
| sys_drop n s cs :
    n ∈ sv_clients s -> net_step (mkSys s cs) (mkSys (drop_client n s) (delete n cs))
| sys_crash n s cs : net_step (mkSys s cs) (mkSys s (delete n cs))
| sys_recv k n s cs :
    n ∈ sv_clients s -> net_step (mkSys s cs) (mkSys (recv_loop fullId k n s).2 cs)
| sys_work s cs : net_step (mkSys s cs) (mkSys (doWork s) cs)
| sys_close s cs : net_step (mkSys s cs) (mkSys (closeAllClients s) cs)
| sys_disk f s cs : net_step (mkSys s cs) (mkSys (set_fs f s) cs)
| sys_carry_out n node c d l s cs :
    sv_nodes s !! n = Some node -> out_box node = d :: l ->
    cs !! n = Some c -> cl_disconnect c = false ->
    net_step (mkSys s cs)
      (mkSys (set_client n (with_base (depart (pn_base node)) node) s)
             (<[n := cl_set_node (with_base (arrive d (pn_base (cl_node c))) (cl_node c)) c]> cs))
| sys_carry_back n node c d l s cs :
    sv_nodes s !! n = Some node -> cs !! n = Some c -> out_box (cl_node c) = d :: l ->
    net_step (mkSys s cs)
      (mkSys (set_client n (with_base (arrive d (pn_base node)) node) s)
             (<[n := cl_set_node (with_base (depart (pn_base (cl_node c))) (cl_node c)) c]> cs))
| sys_client_recv n c go c' s cs :
    cs !! n = Some c -> cl_disconnect c = false ->
    cl_onRecvFromNode (launch n) (projects n) c = (go, c') ->
    net_step (mkSys s cs) (mkSys s (<[n := if go : bool then c' else disconnect c']> cs))
| sys_client_work n env c c' s cs :
    cs !! n = Some c -> cl_disconnect c = false ->
    cl_doWork (W := W) (threads n) (log_fault n) (projects n) env c = Ret c' ->
    net_step (mkSys s cs) (mkSys s (<[n := c']> cs))
| sys_client_disk n f c s cs :
    cs !! n = Some c -> net_step (mkSys s cs) (mkSys s (<[n := cl_set_fs f c]> cs)).

(** The console's main thread taking note of a finished task, beside it. *)
Inductive sys_step : Sys -> Sys -> Prop :=
| sys_net S S' : net_step S S' -> sys_step S S'
| sys_note i t s cs :
    sv_tasks s !! i = Some t -> m_result t <> NoInit ->
    sys_step (mkSys s cs) (mkSys (set_tasks (<[i := set_doneIp "" t]> (sv_tasks s)) s) cs).

(** No packet on the wire reaches 2 GiB. *)
Definition sys_small S : Prop :=
  small_out (sy_server S) /\ forall n c, sy_clients S !! n = Some c -> cl_small c.

Definition run_step S S' : Prop := sys_step S S' /\ sys_small S'.
Definition net_run S S' : Prop := net_step S S' /\ sys_small S'.

Lemma net_run_step S S' : net_run S S' -> run_step S S'.
Proof. intros [Hs Hsm]. split; [by apply sys_net|done]. Qed.

Definition Sys_init (tasks : list TaskInfo) (f : F) : Sys := mkSys (Server_init tasks f) ∅.

(** *** The invariant *)

(** What the console cannot see of the tasks it gave to [n]; [lost n] went
    down with a client. *)
Definition elsewhere (lost : NodeId -> list Z) (cs : gmap NodeId (Client N F P)) n : list Z :=
  match cs !! n with
  | Some c => if cl_disconnect c then lost n ++ s_ids (out_box (cl_node c)) else holds c
  | None => lost n
  end.

Record sys_inv S : Prop := {
  sy_sched : server_inv (sy_server S);
  sy_ok : server_ok (sy_server S);
  sy_acc : exists lost, accounted (elsewhere lost (sy_clients S)) (sy_server S);
  sy_out n c : sy_clients S !! n = Some c ->
    Forall s_ok (out_box (cl_node c)) /\ (cl_disconnect c = false -> client_ok c);
  sy_ends n : is_Some (sy_clients S !! n) -> is_Some (sv_nodes (sy_server S) !! n);
  sy_size : Z.of_nat (length (sv_tasks (sy_server S))) < 2 ^ 64;
}.

Lemma accounted_ext R R' s :
  (forall n, is_Some (sv_nodes s !! n) -> R n ≡ₚ R' n) -> accounted R s -> accounted R' s.
Proof.
  intros HR Ha n node Hn. rewrite <- (HR n) by (by rewrite Hn; eexists). by apply Ha.
Qed.

Lemma carries_accounted R R' s s' :
  carries R R' s s' -> small_out s' -> server_ok s -> accounted R s -> server_ok s' /\ accounted R' s'.
Proof. intros [_ HC]. apply HC. Qed.

Lemma sv_step_length s s' :
  server_inv s -> sv_step fullId s s' -> length (sv_tasks s') = length (sv_tasks s).
Proof.
  intros HI Hs. destruct (sv_step_good fullId _ _ HI Hs) as [_ Hspec].
  assert (E : length (jobs (view s')) = length (jobs (view s))).
  { induction Hspec as [|a b d Hab _ IH]; [done|]. rewrite IH. by apply spec_step_length. }
  simpl in E. by rewrite !length_fmap in E.
Qed.

(** The console moves alone. *)
Lemma server_side s s' cs :
  sys_inv (mkSys s cs) -> small_out s' -> (forall R, carries R R s s') -> sv_step fullId s s' ->
  sys_inv (mkSys s' cs).
Proof.
  intros [Hsched Hok [lost Ha] Hout Hends Hsize] Hsm HC Hstep. simpl in *.
  destruct (carries_accounted _ _ _ _ (HC _) Hsm Hok Ha) as [Hok' Ha'].
  split; simpl; try done.
  - by destruct (sv_step_good fullId _ _ Hsched Hstep).
  - by exists lost.
  - intros n Hn. destruct (Hends n Hn) as [node Hnode]. destruct (HC (fun _ => [])) as [G _].
    destruct (G n node Hnode) as (node' & -> & _). by eexists.
  - by rewrite (sv_step_length _ _ Hsched Hstep).
Qed.

(** A client's share of the tasks, [l] of them being lost. *)
Definition share (l : list Z) c : list Z :=
  if cl_disconnect c then l ++ s_ids (out_box (cl_node c)) else holds c.

Lemma elsewhere_share lost cs n c : cs !! n = Some c -> elsewhere lost cs n = share (lost n) c.
Proof. intros Hn. unfold elsewhere. by rewrite Hn. Qed.

Lemma elsewhere_insert lost cs n c m l :
  elsewhere (<[n := l]> lost) (<[n := c]> cs) m = if decide (m = n) then share l c else elsewhere lost cs m.
Proof.
  unfold elsewhere. case_decide as Hd.
  - subst m. rewrite lookup_insert_eq. unfold share, insert, fn_insert. by rewrite decide_True.
  - rewrite lookup_insert_ne by done. unfold insert, fn_insert. by rewrite decide_False.
Qed.

(** One client moves alone. *)
Lemma client_side s cs n c c' :
  sys_inv (mkSys s cs) -> cs !! n = Some c ->
  Forall s_ok (out_box (cl_node c')) /\ (cl_disconnect c' = false -> client_ok c') ->
  (forall l, exists l', share l c ≡ₚ share l' c') ->
  sys_inv (mkSys s (<[n := c']> cs)).
Proof.
  intros [Hsched Hok [lost Ha] Hout Hends Hsize] Hn Hc' Hs. simpl in *.
  destruct (Hs (lost n)) as [l' El']. split; simpl; try done.
  - exists (<[n := l']> lost). eapply accounted_ext; [|exact Ha]. intros m _.
    rewrite elsewhere_insert. case_decide as Hd; [|done]. subst m. by rewrite (elsewhere_share _ _ _ _ Hn).
  - intros m cm. destruct (decide (m = n)) as [->|Hne].
    + rewrite lookup_insert_eq. by intros [= <-].
    + rewrite lookup_insert_ne by done. apply Hout.
  - intros m Hm. apply Hends. destruct (decide (m = n)) as [->|Hne]; [by rewrite Hn|].
    by rewrite lookup_insert_ne in Hm by done.
Qed.

(** A packet changes sides. *)
Lemma link_side s cs n node node' c c' :
  sys_inv (mkSys s cs) -> sv_nodes s !! n = Some node -> cs !! n = Some c ->
  m_freeCores node' = m_freeCores node ->
  Forall m_ok (out_box node') /\ Forall s_ok (in_box node') ->
  Forall s_ok (out_box (cl_node c')) /\ (cl_disconnect c' = false -> client_ok c') ->
  (forall l, m_ids (out_box node) ++ s_ids (in_box node) ++ share l c ≡ₚ
             m_ids (out_box node') ++ s_ids (in_box node') ++ share l c') ->
  sys_inv (mkSys (set_client n node' s) (<[n := c']> cs)).
Proof.
  intros [Hsched [Hts Hnodes] [lost Ha] Hout Hends Hsize] Hn Hc Hfree Hn' Hc' Hs. simpl in *.
  assert (Hcase : forall m nodem, <[n := node']> (sv_nodes s) !! m = Some nodem ->
    (m = n /\ nodem = node') \/ (m <> n /\ sv_nodes s !! m = Some nodem)).
  { intros m nodem. destruct (decide (m = n)) as [->|Hne].
    - rewrite lookup_insert_eq. intros [= <-]. by left.
    - rewrite lookup_insert_ne by done. by right. }
  split; simpl; try done.
  - assert (Hstep : sv_step fullId s (set_client n node' s)).
    { destruct node' as [b fc]. simpl in Hfree. subst fc. by apply st_server, (st_traffic fullId n b node). }
    by destruct (sv_step_good fullId _ _ Hsched Hstep).
  - split; [done|]. intros m nodem [[-> ->]|[_ Hm]]%Hcase; [done|by apply (Hnodes m)].
  - exists lost. intros m nodem [[-> ->]|[Hne Hm]]%Hcase; simpl.
    + rewrite (elsewhere_share _ _ _ c') by apply lookup_insert_eq. rewrite <- Hs, <- (elsewhere_share _ _ _ _ Hc).
      by apply Ha.
    + specialize (Ha m nodem Hm). unfold elsewhere in *. by rewrite lookup_insert_ne.
  - intros m cm. destruct (decide (m = n)) as [->|Hne].
    + rewrite lookup_insert_eq. by intros [= <-].
    + rewrite lookup_insert_ne by done. apply Hout.
  - intros m Hm. destruct (decide (m = n)) as [->|Hne]; [rewrite lookup_insert_eq; by eexists|].
    rewrite lookup_insert_ne in Hm by done. rewrite lookup_insert_ne by done. by apply Hends.
Qed.

(** *** Every step keeps it *)

Lemma given_length n ts : (length (given n ts) <= length ts)%nat.
Proof. unfold given. rewrite length_fmap. apply length_filter. Qed.

Lemma given_release n m ts : m <> n -> given m (release n <$> ts) = given m ts.
Proof.
  intros Hne. induction ts as [|t ts IH]; [done|]. csimpl. rewrite !given_cons, IH. unfold release.
  case_bool_decide as Hd; [|done]. simpl. rewrite Hd, !decide_False by congruence. done.
Qed.

Lemma given_unconnected n s : server_inv s -> sv_nodes s !! n = None -> given n (sv_tasks s) = [].
Proof.
  intros HI Hn. unfold given. assert (E : filter (fun t => m_node t = Some n) (sv_tasks s) = []); [|by rewrite E].
  destruct (filter _ _) as [|t l] eqn:E; [done|]. assert (Ht : t ∈ filter (fun t => m_node t = Some n) (sv_tasks s)).
  { rewrite E. by left. }
  apply list_elem_of_filter in Ht as [Htn Ht]. destruct (inv_assigned s HI t n Ht Htn) as [Hc _].
  apply (inv_nodes s HI) in Hc. rewrite Hn in Hc. by destruct Hc.
Qed.

Lemma inv_connect n base (e : Env W) c c' s cs :
  sv_nodes s !! n = None -> inbox base = [] -> outbox base = [] -> new_client c ->
  onConnect (threads n) (projects n) e c = Ret (true, c') -> cl_small c' ->
  sys_inv (mkSys s cs) -> sys_inv (mkSys (newClient n base s) (<[n := c']> cs)).
Proof.
  intros Hn Hin Hout (Ht & Hd & Hci & Hco) Hconn Hsm [Hsched [Hts Hnodes] [lost Ha] Hcl Hends Hsize]. simpl in *.
  destruct (onConnect_moves _ _ _ _ _ _ Hconn) as (Ht' & Hd' & Hci' & d & Hco' & Hd2).
  rewrite Ht in Ht'. rewrite Hd in Hd'. rewrite Hci in Hci'. rewrite Hco in Hco'. simpl in Hco'.
  unfold cl_small in Hsm. rewrite Hco' in Hsm. apply Forall_inv in Hsm. destruct (Hd2 Hsm) as [Hsok Hsid].
  assert (Hhold : holds c' = []) by (unfold holds; by rewrite Hci', Ht', Hco', s_ids_one, Hsid).
  split; simpl; try done.
  - by destruct (server_step_good fullId _ _ Hsched (st_connect fullId n base s Hn)).
  - split; [done|]. intros m nodem. simpl. destruct (decide (m = n)) as [->|Hne].
    + rewrite lookup_insert_eq. intros [= <-]. unfold out_box, in_box; simpl. by rewrite Hin, Hout.
    + rewrite lookup_insert_ne by done. apply Hnodes.
  - exists lost. intros m nodem. simpl. destruct (decide (m = n)) as [->|Hne].
    + rewrite lookup_insert_eq. intros [= <-]. rewrite (given_unconnected _ _ Hsched Hn).
      unfold out_box, in_box; simpl. rewrite Hin, Hout.
      rewrite (elsewhere_share _ _ _ c') by apply lookup_insert_eq. unfold share. by rewrite Hd', Hhold.
    + rewrite lookup_insert_ne by done. intros Hm. specialize (Ha m nodem Hm).
      unfold elsewhere in *. by rewrite lookup_insert_ne.
  - intros m cm. destruct (decide (m = n)) as [->|Hne].
    + rewrite lookup_insert_eq. intros [= <-]. rewrite Hco'. split; [by apply Forall_singleton|].
      intros _. split; rewrite ?Hci', ?Ht', ?Hco'; [done|by apply Forall_singleton|done].
    + rewrite lookup_insert_ne by done. apply Hcl.
  - intros m Hm. destruct (decide (m = n)) as [->|Hne]; [rewrite lookup_insert_eq; by eexists|].
    rewrite lookup_insert_ne in Hm by done. rewrite lookup_insert_ne by done. by apply Hends.
Qed.

Lemma inv_drop n s cs :
  n ∈ sv_clients s -> sys_inv (mkSys s cs) -> sys_inv (mkSys (drop_client n s) (delete n cs)).
Proof.
  intros Hn [Hsched [Hts Hnodes] [lost Ha] Hcl Hends Hsize]. simpl in *.
  assert (Hcase : forall m nodem, delete n (sv_nodes s) !! m = Some nodem -> m <> n /\ sv_nodes s !! m = Some nodem).
  { intros m nodem Hm. by apply lookup_delete_Some in Hm as [? ?]. }
  split; simpl; try done.
  - by destruct (server_step_good fullId _ _ Hsched (st_disconnect fullId n s Hn)).
  - split; simpl.
    + apply Forall_fmap. eapply Forall_impl; [exact Hts|]. intros t Ht. simpl. unfold release. by case_bool_decide.
    + intros m nodem [_ Hm]%Hcase. by apply (Hnodes m).
  - exists lost. intros m nodem [Hne Hm]%Hcase. simpl. rewrite given_release by done.
    specialize (Ha m nodem Hm). unfold elsewhere in *. by rewrite lookup_delete_ne.
  - intros m cm [_ Hm]%lookup_delete_Some. by apply (Hcl m).
  - intros m Hm. destruct (decide (m = n)) as [->|Hne]; [rewrite lookup_delete_eq in Hm; by destruct Hm|].
    rewrite lookup_delete_ne in Hm by done. rewrite lookup_delete_ne by done. by apply Hends.
  - by rewrite length_fmap.
Qed.

Lemma inv_crash n s cs : sys_inv (mkSys s cs) -> sys_inv (mkSys s (delete n cs)).
Proof.
  intros [Hsched Hok [lost Ha] Hcl Hends Hsize]. simpl in *. split; simpl; try done.
  - exists (<[n := elsewhere lost cs n]> lost). eapply accounted_ext; [|exact Ha]. intros m _.
    destruct (decide (m = n)) as [->|Hne].
    + unfold elsewhere at 2. rewrite lookup_delete_eq. by rewrite fn_lookup_insert.
    + unfold elsewhere. rewrite lookup_delete_ne by done. by rewrite fn_lookup_insert_ne.
  - intros m cm [_ Hm]%lookup_delete_Some. by apply (Hcl m).
  - intros m Hm. apply Hends. destruct (decide (m = n)) as [->|Hne]; [rewrite lookup_delete_eq in Hm; by destruct Hm|].
    by rewrite lookup_delete_ne in Hm by done.
Qed.

Lemma inv_client_work n env c c' s cs :
  cs !! n = Some c -> cl_disconnect c = false ->
  cl_doWork (threads n) (log_fault n) (projects n) env c = Ret c' -> cl_small c' ->
  sys_inv (mkSys s cs) -> sys_inv (mkSys s (<[n := c']> cs)).
Proof.
  intros Hn Hd Hw Hsm HI. pose proof HI as [Hsched Hok [lost Ha] Hcl Hends Hsize]. simpl in *.
  destruct (Hcl n c Hn) as [Ho Hcok]. specialize (Hcok Hd).
  assert (Hlen : Z.of_nat (length (cl_tasks c)) < 2 ^ 64).
  { destruct (Hends n) as [node Hnode]; [by rewrite Hn; eexists|].
    pose proof (given_length n (sv_tasks s)) as Hg. rewrite (Ha n node Hnode) in Hg.
    rewrite (elsewhere_share _ _ _ _ Hn) in Hg. unfold share in Hg. rewrite Hd in Hg. unfold holds in Hg.
    rewrite !length_app, length_fmap in Hg. lia. }
  destruct (cl_doWork_moves _ _ _ _ _ _ Hw Hlen Hcok) as (Hin & Hpre & Hm).
  destruct (Hm Hsm Ho) as (Ho' & Hlive & lost' & El).
  apply (client_side s cs n c c' HI Hn).
  - split; [done|]. intros Hc'. destruct (Hlive Hc') as [Hids _]. split; [by rewrite Hin; apply (co_in c)|done|done].
  - intros l. unfold share. rewrite Hd. destruct (cl_disconnect c') eqn:Ed'.
    + exists (m_ids (in_box (cl_node c)) ++ lost'). unfold holds. by rewrite El, app_assoc.
    + exists []. destruct (Hlive eq_refl) as [_ E]. unfold holds. by rewrite Hin, E.
Qed.

Lemma inv_client_recv n c go c' s cs :
  cs !! n = Some c -> cl_disconnect c = false ->
  cl_onRecvFromNode (launch n) (projects n) c = (go, c') ->
  sys_inv (mkSys s cs) -> sys_inv (mkSys s (<[n := if go : bool then c' else disconnect c']> cs)).
Proof.
  intros Hn Hd Hr HI. pose proof HI as [_ _ _ Hcl _ _]. simpl in *.
  destruct (Hcl n c Hn) as [Ho Hcok]. specialize (Hcok Hd).
  destruct (cl_recv_loop_moves _ _ _ _ _ _ Hr Hcok) as [[Q1 Q2] Hgo]. rewrite Hd in Q2.
  apply (client_side s cs n c _ HI Hn); destruct go; cbn [disconnect cl_node cl_disconnect].
  - destruct (Hgo eq_refl) as [Hok' _]. by rewrite Q1.
  - rewrite Q1. by split.
  - intros l. exists []. unfold share. rewrite Hd, Q2. by apply Hgo.
  - intros l. exists (m_ids (in_box (cl_node c)) ++ (ct_id <$> cl_tasks c)). unfold share.
    cbn [disconnect cl_node cl_disconnect]. rewrite Hd, Q1. unfold holds. by rewrite app_assoc.
Qed.

Lemma inv_carry_out n node c d l s cs :
  sv_nodes s !! n = Some node -> out_box node = d :: l -> cs !! n = Some c -> cl_disconnect c = false ->
  sys_inv (mkSys s cs) ->
  sys_inv (mkSys (set_client n (with_base (depart (pn_base node)) node) s)
                 (<[n := cl_set_node (with_base (arrive d (pn_base (cl_node c))) (cl_node c)) c]> cs)).
Proof.
  intros Hn Hout Hc Hd HI. pose proof HI as [_ [_ Hnodes] _ Hcl _ _]. simpl in *.
  destruct (Hnodes n node Hn) as [Hm Hs]. destruct (Hcl n c Hc) as [Ho Hcok]. destruct (Hcok Hd) as [Hi Ho' Hids].
  destruct (depart_boxes (pn_base node)) as [D1 D2]. destruct (arrive_boxes (pn_base (cl_node c)) d) as [A1 A2].
  unfold in_box, out_box in *. rewrite Hout in *. apply Forall_cons in Hm as [Hmd Hm]. simpl in D2.
  apply (link_side s cs n node _ c); try done; unfold in_box, out_box; cbn [with_base pn_base cl_set_node cl_node cl_tasks];
    rewrite ?D1, ?D2, ?A1, ?A2.
  - by split.
  - split; [done|]. intros _. split; unfold in_box, out_box; cbn [cl_set_node cl_node with_base pn_base cl_tasks];
      rewrite ?A1, ?A2; [|done|done]. apply Forall_app. split; [done|by apply Forall_singleton].
  - intros q. unfold share, holds, in_box, out_box. cbn [cl_set_node cl_node with_base pn_base cl_tasks cl_disconnect].
    rewrite Hd, A1, A2, Hout, m_ids_app, m_ids_one. assert (E : m_ids (d :: l) = m_id d ++ m_ids l) by done. rewrite E, <- !app_assoc.
    rewrite (Permutation_app_swap_app (m_id d)). f_equiv. rewrite (Permutation_app_swap_app (m_id d)). f_equiv.
    by rewrite (Permutation_app_swap_app (m_id d)).
Qed.

Lemma inv_carry_back n node c d l s cs :
  sv_nodes s !! n = Some node -> cs !! n = Some c -> out_box (cl_node c) = d :: l ->
  sys_inv (mkSys s cs) ->
  sys_inv (mkSys (set_client n (with_base (arrive d (pn_base node)) node) s)
                 (<[n := cl_set_node (with_base (depart (pn_base (cl_node c))) (cl_node c)) c]> cs)).
Proof.
  intros Hn Hc Hout HI. pose proof HI as [_ [_ Hnodes] _ Hcl _ _]. simpl in *.
  destruct (Hnodes n node Hn) as [Hm Hs]. destruct (Hcl n c Hc) as [Ho Hcok].
  destruct (arrive_boxes (pn_base node) d) as [A1 A2]. destruct (depart_boxes (pn_base (cl_node c))) as [D1 D2].
  assert (Ho2 : Forall s_ok l /\ s_ok d) by (rewrite Hout in Ho; apply Forall_cons in Ho as [? ?]; done).
  unfold in_box, out_box in *. rewrite Hout in D2. simpl in D2.
  apply (link_side s cs n node _ c); try done; unfold in_box, out_box; cbn [with_base pn_base cl_set_node cl_node cl_tasks];
    rewrite ?D1, ?D2, ?A1, ?A2.
  - split; [done|]. apply Forall_app. split; [done|]. apply Forall_singleton, Ho2.
  - split; [apply Ho2|]. intros Hd'. destruct (Hcok Hd') as [Hi _ Hids].
    split; unfold in_box, out_box; cbn [cl_set_node cl_node with_base pn_base cl_tasks]; rewrite ?D1, ?D2; [done|apply Ho2|done].
  - intros q. unfold share, holds, in_box, out_box. cbn [cl_set_node cl_node with_base pn_base cl_tasks cl_disconnect].
    rewrite D1, D2, Hout. assert (E : s_ids (d :: l) = s_id d ++ s_ids l) by done. rewrite E, s_ids_app, s_ids_one.
    rewrite <- !app_assoc. f_equiv. f_equiv. destruct (cl_disconnect c).
    + apply Permutation_app_swap_app.
    + rewrite (Permutation_app_swap_app _ (s_id d)). apply Permutation_app_swap_app.
Qed.

Lemma run_step_inv S S' : sys_inv S -> run_step S S' -> sys_inv S'.
Proof.
  intros HI [Hstep [Hs Hc]]. revert HI Hs Hc. destruct Hstep as [S S' Hnet|i t s cs Hit Hres]; [destruct Hnet|]; intros HI Hs Hc; simpl in *.
  - eapply inv_connect; try done. apply (Hc n). by rewrite lookup_insert_eq.
  - by apply inv_drop.
  - by apply inv_crash.
  - eapply server_side; [done|done|intros; apply carries_recv_loop|by apply st_server, st_recv].
  - eapply server_side; [done|done|intros; apply carries_doWork|by apply st_server, st_work].
  - eapply server_side; [done|done|intros; apply carries_close|by apply st_server, st_close].
  - eapply server_side; [done|done|intros; apply carries_fs|by apply st_server, st_disk].
  - eapply inv_carry_out; done.
  - eapply inv_carry_back; done.
  - eapply inv_client_recv; done.
  - eapply inv_client_work; try done. apply (Hc n). by rewrite lookup_insert_eq.
  - match goal with Hn : cs !! n = Some c |- _ => rename Hn into Hcn end.
    destruct (sy_out _ HI n c Hcn) as [Ho Hok]. apply (client_side s cs n c _ HI Hcn); [|intros q; by exists q].
    split; [exact Ho|]. intros Hd. destruct (Hok Hd). by split.
  - eapply server_side; [done|done| |by apply st_note]. intros R.
    assert (Et : sv_tasks s = take i (sv_tasks s) ++ t :: drop (S i) (sv_tasks s)) by (symmetry; by apply take_drop_middle).
    pose proof (sy_ok _ HI) as [Hts _]. simpl in Hts. apply carries_tasks.
    + apply Forall_insert; [done|]. rewrite Forall_lookup in Hts. exact (Hts i t Hit).
    + intros n. rewrite Et at 2. rewrite insert_take_drop by (by eapply lookup_lt_Some).
      rewrite !given_app, !given_cons. done.
Qed.

Lemma Sys_init_inv tasks f :
  Forall (fun t => fresh t /\ message_complete t /\ MTask_typed (m_message t)) tasks ->
  Z.of_nat (length tasks) < 2 ^ 64 -> sys_inv (Sys_init tasks f).
Proof.
  intros Hf Hn. split; simpl; try done.
  - apply Server_init_inv. eapply Forall_impl; [exact Hf|]. naive_solver.
  - split; [|done]. eapply Forall_impl; [exact Hf|]. naive_solver.
  - by exists (fun _ => []).
  - intros n [c Hc]. done.
Qed.

Lemma run_inv tasks f S :
  Forall (fun t => fresh t /\ message_complete t /\ MTask_typed (m_message t)) tasks ->
  Z.of_nat (length tasks) < 2 ^ 64 -> rtc run_step (Sys_init tasks f) S -> sys_inv S.
Proof.
  intros Hf Hn Hs. apply (rtc_preserves run_step sys_inv) with (Sys_init tasks f); [apply run_step_inv|done|].
  by apply Sys_init_inv.
Qed.

(** *** A connection at rest *)

(** The console has given nothing to [n] and believes it has no free core, and
    no packet of [n] is on its way. *)
Definition rests n s : Prop := exists node, sv_nodes s !! n = Some node /\
  m_freeCores node <= 0 /\ in_box node = [] /\ given n (sv_tasks s) = [].

Definition idle n S : Prop := rests n (sy_server S) /\
  forall c, sy_clients S !! n = Some c -> out_box (cl_node c) = [].

Lemma rests_client n m node s : m <> n -> rests n s -> rests n (set_client m node s).
Proof.
  intros Hne (nd & Hn & Hr). exists nd. split; [|exact Hr]. simpl. by rewrite lookup_insert_ne.
Qed.

Lemma rests_sendTasks n m s : rests n s -> rests n (sendTasksToSlave m s).2.
Proof.
  intros Hr. pose proof Hr as (node & Hn & Hf & Hin & Hg). unfold sendTasksToSlave.
  destruct (sv_nodes s !! m) as [nodem|] eqn:Em; [|done]. destruct (Z.leb_spec (m_freeCores nodem) 0); [done|].
  assert (Hne : m <> n) by (intros ->; rewrite Hn in Em; injection Em as ->; lia).
  destruct (first_free (sv_tasks s)) as [Hb|(pre & t & post & Et & Hp & Ht)].
  - rewrite send_loop_all_busy, set_tasks_id by done. by apply rests_client.
  - rewrite Et, send_loop_first by done. destruct (MTask_IsInitialized _); simpl;
      [|rewrite <- Et, set_tasks_id; by apply rests_client].
    apply rests_client; [done|]. exists node. repeat (split; [done|]). simpl.
    assert (Hnone : m_node t = None) by (unfold busy in Ht; by destruct (m_node t)).
    rewrite Et, given_app, given_cons, Hnone in Hg. rewrite given_app, given_cons.
    change (m_node (set_node (Some m) t)) with (Some m). by rewrite (decide_False (P := Some m = Some n)) by congruence.
Qed.

Lemma rests_result n m (r : SResult) s : rests n s -> rests n (applyResultFromSlave fullId m r s).2.
Proof.
  intros (node & Hn & Hf & Hin & Hg). exists node. unfold applyResultFromSlave.
  destruct (first_result m r (sv_tasks s)) as [Hno|(pre & t & post & Et & Hp & Ht)].
  - by rewrite apply_loop_none.
  - rewrite Et, apply_loop_first by done. simpl. repeat (split; [done|]).
    destruct (apply_result_fields fullId (sv_fs s) m r t) as (_ & _ & Hnode & _).
    rewrite given_app, given_cons, Hnode. rewrite Et, given_app, given_cons in Hg.
    apply app_eq_nil in Hg as [-> Hg]. apply app_eq_nil in Hg as [_ ->]. done.
Qed.

Lemma rests_handle n m (p : SPacket) s : m <> n -> rests n s -> rests n (handle_packet fullId m p s).
Proof.
  intros Hne Hr. unfold handle_packet. set (s1 := match sp_info p with Some _ => _ | None => s end).
  assert (Hr1 : rests n s1).
  { subst s1. destruct (sp_info p); [|done]. destruct (sv_nodes s !! m); [|done].
    by apply rests_sendTasks, rests_client. }
  destruct (sp_result p); [by apply rests_result|done].
Qed.

Lemma rests_recv_loop fuel n m s : rests n s -> rests n (recv_loop fullId fuel m s).2.
Proof.
  revert s. induction fuel as [|fuel IH]; intros s Hr; [done|]. cbn [recv_loop].
  destruct (sv_nodes s !! m) as [node|] eqn:E; [|done].
  destruct (Nat.ltb_spec 0 (countRecvPackets (pn_base node))) as [Hpos|]; [|done].
  destruct (decide (m = n)) as [->|Hne].
  { destruct Hr as (nd & Hn & _ & Hin & _). rewrite E in Hn. injection Hn as <-.
    rewrite inbox_count in Hpos. unfold in_box in Hin. rewrite Hin in Hpos. simpl in Hpos. lia. }
  destruct (extractRecvPacket (pn_base node)) as [data base].
  destruct (negb _); [by apply rests_client|]. apply IH, rests_handle; [done|]. by apply rests_client.
Qed.

Lemma rests_fold n (g : Server N F -> NodeId -> Server N F) l s :
  (forall u m, rests n u -> rests n (g u m)) -> rests n s -> rests n (fold_left g l s).
Proof. intros Hg. revert s. induction l as [|m l IH]; intros s Hr; [done|]. apply IH. by apply Hg. Qed.

Lemma rests_close n s : rests n s -> rests n (closeAllClients s).
Proof.
  apply rests_fold. intros u m Hr. destruct (sv_nodes u !! m) as [node|] eqn:E; [|done].
  destruct (decide (m = n)) as [->|Hne]; [|by apply rests_client].
  destruct Hr as (nd & Hn & Hf & Hin & Hg). rewrite E in Hn. injection Hn as <-.
  destruct (send_master node close_packet) as (d & Hin' & _ & _); [done|done|done|].
  exists (send node close_packet).2. simpl. rewrite lookup_insert_eq. rewrite send_freeCores, Hin'. done.
Qed.

(** What is nowhere cannot be at the client. *)
Lemma rests_client_empty n c S :
  sys_inv S -> rests n (sy_server S) -> sy_clients S !! n = Some c -> cl_disconnect c = false -> cl_tasks c = [].
Proof.
  intros [_ _ [lost Ha] _ _ _] (node & Hn & _ & _ & Hg) Hc Hd. specialize (Ha n node Hn).
  rewrite (elsewhere_share _ _ _ _ Hc) in Ha. unfold share, holds in Ha. rewrite Hd, Hg in Ha.
  apply Permutation_nil_l in Ha. apply symmetry, app_eq_nil in Ha as [_ Ha]. apply app_eq_nil in Ha as [_ Ha].
  apply app_eq_nil in Ha as [_ Ha]. apply app_eq_nil in Ha as [Ha _]. by apply fmap_nil_inv in Ha.
Qed.

Lemma idle_step n S S' :
  sys_inv S -> idle n S -> run_step S S' -> is_Some (sv_nodes (sy_server S') !! n) -> idle n S'.
Proof.
  intros HI [Hr Ho] [Hstep _] Hconn. revert HI Hr Ho Hconn.
  destruct Hstep as [S S' Hnet|i t s cs Hit Hres]; [destruct Hnet|]; intros HI Hr Ho Hconn; simpl in *; unfold idle; simpl.
  - assert (Hne : n0 <> n) by (intros ->; destruct Hr as (nd & Hn & _); congruence).
    split; [|intros cn; rewrite lookup_insert_ne by done; apply Ho].
    destruct Hr as (nd & Hn & Hr). exists nd. simpl. by rewrite lookup_insert_ne.
  - assert (Hne : n0 <> n) by (intros ->; rewrite lookup_delete_eq in Hconn; by destruct Hconn).
    split; [|intros cn; rewrite lookup_delete_ne by done; apply Ho].
    destruct Hr as (nd & Hn & Hf & Hin & Hg). exists nd. simpl. rewrite lookup_delete_ne by done.
    by rewrite given_release.
  - split; [done|]. intros cn [_ Hn]%lookup_delete_Some. by apply Ho.
  - split; [by apply rests_recv_loop|done].
  - split; [|done]. apply rests_fold; [intros; by apply rests_sendTasks|done].
  - split; [by apply rests_close|done].
  - done.
  - destruct (decide (n0 = n)) as [->|Hne].
    + match goal with Hn : sv_nodes s !! n = Some node, Hc : cs !! n = Some c |- _ => rename Hn into Hn0; rename Hc into Hc0 end.
      split.
      * destruct Hr as (nd & Hn & Hf & Hin & Hg). rewrite Hn0 in Hn. injection Hn as <-.
        exists (with_base (depart (pn_base node)) node). simpl. rewrite lookup_insert_eq.
        split; [done|]. split; [done|]. split; [|done].
        unfold in_box; simpl. destruct (depart_boxes (pn_base node)) as [-> _]. exact Hin.
      * rewrite lookup_insert_eq. intros cn [= <-]. unfold out_box; simpl.
        destruct (arrive_boxes (pn_base (cl_node c)) d) as [_ ->]. by apply Ho.
    + split; [by apply rests_client|]. intros cn. rewrite lookup_insert_ne by done. apply Ho.
  - assert (Hne : n0 <> n).
    { intros ->. match goal with Hc : cs !! n = Some c |- _ => specialize (Ho c Hc) end. congruence. }
    split; [by apply rests_client|]. intros cn. rewrite lookup_insert_ne by done. apply Ho.
  - split; [done|]. intros cn. destruct (decide (n0 = n)) as [->|Hne];
      [|rewrite lookup_insert_ne by done; apply Ho].
    rewrite lookup_insert_eq. intros [= <-].
    match goal with Hc : cs !! n = Some c, Hd : cl_disconnect c = false, Hr' : cl_onRecvFromNode _ _ _ = _ |- _ =>
      destruct (sy_out _ HI n c Hc) as [_ Hok]; specialize (Hok Hd);
      destruct (cl_recv_loop_moves _ _ _ _ _ _ Hr' Hok) as [[Q _] _]; specialize (Ho c Hc) end.
    destruct go; cbn [disconnect cl_node]; congruence.
  - split; [done|]. intros cn. destruct (decide (n0 = n)) as [->|Hne];
      [|rewrite lookup_insert_ne by done; apply Ho].
    rewrite lookup_insert_eq. intros [= <-].
    match goal with Hc : cs !! n = Some c, Hd : cl_disconnect c = false, Hw : cl_doWork _ _ _ _ _ = _ |- _ =>
      pose proof (rests_client_empty n c _ HI Hr Hc Hd) as Et; unfold cl_doWork in Hw; rewrite Et in Hw;
      simpl in Hw; injection Hw as <-; by apply Ho end.
  - split; [done|]. intros cn. destruct (decide (n0 = n)) as [->|Hne];
      [|rewrite lookup_insert_ne by done; apply Ho].
    rewrite lookup_insert_eq. intros [= <-]. by apply (Ho c).
  - split; [|done]. destruct Hr as (nd & Hn & Hf & Hin & Hg). exists nd. repeat (split; [done|]). simpl.
    assert (Et : sv_tasks s = take i (sv_tasks s) ++ t :: drop (S i) (sv_tasks s)) by (symmetry; by apply take_drop_middle).
    rewrite insert_take_drop by (by eapply lookup_lt_Some). rewrite Et, given_app, given_cons in Hg.
    by rewrite given_app, given_cons.
Qed.

(** *** The report of a daemon with one core *)

Lemma one_core_report e f size task :
  size = 1%nat -> get_num_field (sp_info (report e f 1 size task) ≫= si_task_count) = 0.
Proof.
  intros ->. unfold report. destruct (proc_getExitCode _ _) as [r w]. destruct (fs_load _ _) as [o data]. done.
Qed.

(** A pass over one ended task: one report, and nothing left. *)
Lemma work_one n env c c' t :
  cl_tasks c = [t] -> inU 32 (ct_id t) -> cl_disconnect c = false ->
  running (env O) t = false -> freeCore (W := W) (threads n) (projects n) (env O) = Ret 1 ->
  cl_doWork (threads n) (log_fault n) (projects n) env c = Ret c' -> cl_disconnect c' = false ->
  cl_tasks c' = [] /\ in_box (cl_node c') = in_box (cl_node c) /\
  exists d, out_box (cl_node c') = out_box (cl_node c) ++ [d] /\
    (small d -> exists p r, ParseFromArray d = p /\ SPacket_IsInitialized p = true /\
       sp_result p = Some r /\ exists info, sp_info p = Some info /\ get_num_field (si_task_count info) = 0).
Proof.
  intros Et Hid Hd Hrun Hfree Hw Hd'. unfold cl_doWork in Hw.
  rewrite (doWork_loop_sweep _ _ _ _ env [] (cl_tasks c)) in Hw by (rewrite ?Et; simpl; (done || lia)).
  rewrite Et in Hw. cbn [sweep] in Hw. rewrite Hrun in Hw. apply obind_Ret_inv in Hw as ([go c1] & Es & Hw).
  unfold settle in Es. rewrite Hfree in Es. cbn [obind length plus] in Es.
  destruct (report_result (env O) (cl_fs c) 1 1 t) as (r & Er & _).
  pose proof (one_core_report (env O) (cl_fs c) 1 t eq_refl) as Ei.
  pose proof (report_initialized (env O) (cl_fs c) 1 1 t) as Hi.
  set (p := report (env O) (cl_fs c) 1 1 t) in *.
  destruct (send_slave (cl_node c) p) as (d & Hr & Hin & Hout & Hp);
    [done|by apply report_typed|intros E; by rewrite E in Er|].
  destruct (send (cl_node c) p) as [sent nd]. simpl in Hr, Hin, Hout.
  destruct (Z.eqb_spec sent 0); [done|]. apply obind_Ret_inv in Es as (? & _ & Es).
  destruct (_ && _); injection Es as <- <-; injection Hw as <-; [done|].
  split; [done|]. split; [exact Hin|]. exists d. split; [exact Hout|]. intros Hsm. exists p, r.
  split; [by apply Hp|]. split; [done|]. split; [done|].
  destruct (sp_info p) as [info|] eqn:Einfo; [by exists info|].
  subst p. unfold report in Einfo. destruct (proc_getExitCode _ _). by destruct (fs_load _ _).
Qed.

(** The console takes one report that announces no free core. *)
Lemma recv_one n node d p r info s :
  sv_nodes s !! n = Some node -> in_box node = [d] -> ParseFromArray d = p ->
  SPacket_IsInitialized p = true -> sp_result p = Some r -> sp_info p = Some info ->
  get_num_field (si_task_count info) = 0 ->
  exists node', m_freeCores node' = 0 /\ in_box node' = [] /\ out_box node' = out_box node /\
    sv_nodes (onRecvFromNode fullId n s).2 = <[n := node']> (sv_nodes s).
Proof.
  intros Hn Hin Hp Hi Hr Hinfo Hz. unfold onRecvFromNode, queue_length. rewrite Hn, inbox_count.
  unfold in_box in Hin. rewrite Hin. cbn [length recv_loop]. rewrite Hn, inbox_count, Hin. cbn [length Nat.ltb Nat.leb].
  destruct (inbox_extract _ _ _ Hin) as (Ed & Hin' & Hout).
  destruct (extractRecvPacket (pn_base node)) as [data base]. simpl in Ed, Hin', Hout. subst data.
  rewrite Hp, Hi. cbn [negb]. set (s1 := handle_packet _ _ _ _).
  set (node' := with_freeCores 0 (mkNode base (m_freeCores node))).
  assert (En : sv_nodes s1 = <[n := node']> (sv_nodes s)).
  { subst s1. unfold handle_packet. rewrite Hinfo, Hr. simpl sv_nodes at 1. rewrite lookup_insert_eq, Hz.
    unfold sendTasksToSlave. simpl sv_nodes at 1. rewrite lookup_insert_eq. simpl.
    unfold applyResultFromSlave. destruct (apply_loop _ _ _ _ _) as [[? ?] ?]. simpl. apply insert_insert_eq. }
  exists node'. split; [done|]. split; [exact Hin'|]. split; [exact Hout|].
  rewrite En, lookup_insert_eq. cbn [pn_base with_freeCores node' Nat.ltb Nat.leb]. rewrite inbox_count, Hin'.
  simpl. exact En.
Qed.

Lemma run_small tasks f S : rtc run_step (Sys_init tasks f) S -> sys_small S.
Proof.
  intros Hs. apply (rtc_preserves run_step sys_small) with (Sys_init tasks f); [by intros ? ? _ [_ ?]|done|].
  by split.
Qed.

Lemma small_client (cs : gmap NodeId (Client N F P)) n c :
  (forall m cm, cs !! m = Some cm -> cl_small cm) -> cl_small c ->
  forall m cm, <[n := c]> cs !! m = Some cm -> cl_small cm.
Proof.
  intros Hcs Hx m cm. destruct (decide (m = n)) as [->|Hne]; [rewrite lookup_insert_eq; by intros [= <-]|].
  rewrite lookup_insert_ne by done. apply Hcs.
Qed.

Lemma small_node n node s (s' : Server N F) :
  small_out s -> sv_nodes s' = <[n := node]> (sv_nodes s) -> out_box node = [] -> small_out s'.
Proof.
  unfold small_out. intros Hss -> Hx m nm.
  destruct (decide (m = n)) as [->|Hne]; [rewrite lookup_insert_eq; intros [= <-]; by rewrite Hx|].
  rewrite lookup_insert_ne by done. apply Hss.
Qed.

(** Nothing is given to a connection that is empty from end to end. *)
Lemma rests_empty n node c s cs :
  sys_inv (mkSys s cs) -> sv_nodes s !! n = Some node -> cs !! n = Some c -> cl_disconnect c = false ->
  m_freeCores node <= 0 -> in_box node = [] -> out_box node = [] -> holds c = [] -> rests n s.
Proof.
  intros [_ _ [lost Ha] _ _ _] Hn Hc Hd Hf Hin Hout Hh. exists node. repeat (split; [done|]).
  specialize (Ha n node Hn). simpl in Ha. rewrite (elsewhere_share _ _ _ c) in Ha by done. unfold share in Ha.
  rewrite Hd, Hh, Hin, Hout in Ha. by apply Permutation_nil_r in Ha.
Qed.

(** From now on the connection stays. *)
Definition run_connected n S S' : Prop := run_step S S' /\ is_Some (sv_nodes (sy_server S') !! n).

Lemma idle_run n S S' :
  sys_inv S -> idle n S -> rtc (run_connected n) S S' -> given n (sv_tasks (sy_server S')) = [].
Proof.
  intros HI Hidle Hs.
  assert (Hboth : sys_inv S' /\ idle n S').
  { apply (rtc_preserves (run_connected n) (fun S => sys_inv S /\ idle n S)) with S; [|done|done].
    intros S1 S2 [HI1 Hd1] [Hstep Hc]. split; [by eapply run_step_inv|by eapply idle_step]. }
  destruct Hboth as [_ [(node & _ & _ & _ & Hg) _]]. exact Hg.
Qed.

(** ** The theorems *)

(** C3: nothing is lost between console and daemons, under any interleaving of
    connections, disconnections, crashes, packets in flight and work: the
    tasks the console believes to be running on a daemon are exactly those
    that are on their way to it, run there, or whose results wait to leave,
    travel back or wait at the console; every waiting result belongs to such a
    task, and a daemon that is not connected has none. *)
Theorem tasks_accounted tasks f S :
  Forall (fun t => fresh t /\ message_complete t /\ MTask_typed (m_message t)) tasks ->
  Z.of_nat (length tasks) < 2 ^ 64 -> rtc run_step (Sys_init tasks f) S ->
  (forall n node c, sv_nodes (sy_server S) !! n = Some node -> sy_clients S !! n = Some c ->
     cl_disconnect c = false ->
     given n (sv_tasks (sy_server S)) ≡ₚ
       m_ids (out_box node) ++ m_ids (in_box (cl_node c)) ++ (ct_id <$> cl_tasks c)
       ++ s_ids (out_box (cl_node c)) ++ s_ids (in_box node)) /\
  (forall n node, sv_nodes (sy_server S) !! n = Some node ->
     s_ids (in_box node) ⊆+ given n (sv_tasks (sy_server S))) /\
  (forall n, sv_nodes (sy_server S) !! n = None -> given n (sv_tasks (sy_server S)) = []).
Proof.
  intros Hf Hl Hs. destruct (run_inv tasks f S Hf Hl Hs) as [Hsched _ [lost Ha] _ _ _]. split; [|split].
  - intros n node c Hn Hc Hd. rewrite (Ha n node Hn), (elsewhere_share _ _ _ _ Hc). unfold share, holds. rewrite Hd.
    f_equiv. rewrite Permutation_app_comm. by rewrite <- !app_assoc.
  - intros n node Hn. rewrite (Ha n node Hn). rewrite (Permutation_app_swap_app _ (s_ids (in_box node))).
    apply submseteq_inserts_r. done.
  - intros n Hn. by apply given_unconnected.
Qed.

(** C6: everything on the wire is well typed and complete in every reachable
    state: what the console has sent and what a daemon has received reads as a
    master packet with all its required fields and 32-bit numbers, and the
    same holds of slave packets in the other direction; so the console never
    refuses what it reads. *)
Theorem packets_well_typed tasks f S :
  Forall (fun t => fresh t /\ message_complete t /\ MTask_typed (m_message t)) tasks ->
  Z.of_nat (length tasks) < 2 ^ 64 -> rtc run_step (Sys_init tasks f) S ->
  (forall n node, sv_nodes (sy_server S) !! n = Some node ->
     Forall m_ok (out_box node) /\ Forall s_ok (in_box node) /\
     (small_out (onRecvFromNode fullId n (sy_server S)).2 -> (onRecvFromNode fullId n (sy_server S)).1 = true)) /\
  (forall n c, sy_clients S !! n = Some c ->
     Forall s_ok (out_box (cl_node c)) /\
     (cl_disconnect c = false ->
        Forall m_ok (in_box (cl_node c)) /\ Forall (fun t => inU 32 (ct_id t)) (cl_tasks c))).
Proof.
  intros Hf Hl Hs. destruct (run_inv tasks f S Hf Hl Hs) as [_ Hok [lost Ha] Hout _ _]. split.
  - intros n node Hn. destruct (so_nodes _ Hok n node Hn) as [Hm Hsl]. split; [done|]. split; [done|].
    intros Hsm. by apply (recv_loop_accepts fullId _ _ _ _ Hsm Hok Ha).
  - intros n c Hc. destruct (Hout n c Hc) as [Ho Hcl]. split; [done|]. intros Hd. by destruct (Hcl Hd).
Qed.

(** C5: a daemon with one core is given one task only.  When its single task
    has ended and the links are empty, the report it sends announces no free
    core, because the finished task is still counted; once the console has
    read it, the daemon is given no further task as long as the connection
    lasts, whatever else happens. *)
Theorem one_core_starves tasks f s cs n node c env t c' :
  Forall (fun t => fresh t /\ message_complete t /\ MTask_typed (m_message t)) tasks ->
  Z.of_nat (length tasks) < 2 ^ 64 -> rtc run_step (Sys_init tasks f) (mkSys s cs) ->
  sv_nodes s !! n = Some node -> cs !! n = Some c -> cl_disconnect c = false ->
  in_box node = [] -> out_box node = [] -> in_box (cl_node c) = [] -> out_box (cl_node c) = [] ->
  cl_tasks c = [t] -> running (env O) t = false ->
  freeCore (W := W) (threads n) (projects n) (env O) = Ret 1 ->
  cl_doWork (threads n) (log_fault n) (projects n) env c = Ret c' -> cl_disconnect c' = false ->
  exists d, out_box (cl_node c') = [d] /\
    (small d -> forall S',
       rtc (run_connected n)
         (mkSys (onRecvFromNode fullId n (set_client n (with_base (arrive d (pn_base node)) node) s)).2
                (<[n := cl_set_node (with_base (depart (pn_base (cl_node c'))) (cl_node c')) c']> cs)) S' ->
       given n (sv_tasks (sy_server S')) = []).
Proof.
  intros Hf Hl Hrun Hn Hc Hd Hni Hno Hci Hco Et Hr Hfree Hw Hd'.
  pose proof (run_inv tasks f _ Hf Hl Hrun) as HI. destruct (run_small tasks f _ Hrun) as [Hss Hcs]. simpl in Hss, Hcs.
  assert (Hid : inU 32 (ct_id t)).
  { destruct (sy_out _ HI n c Hc) as [_ Hok]. pose proof (co_ids _ (Hok Hd)) as Hids. rewrite Et in Hids.
    by apply Forall_inv in Hids. }
  destruct (work_one n env c c' t Et Hid Hd Hr Hfree Hw Hd') as (Et' & Hci' & d & Hco' & Hp).
  rewrite Hco in Hco'. simpl in Hco'. exists d. split; [done|]. intros Hsm S' Hs'.
  destruct (Hp Hsm) as (p & r & Ep & Hi & Er & info & Ei & Hz).
  destruct (arrive_boxes (pn_base node) d) as [A1 A2]. destruct (depart_boxes (pn_base (cl_node c'))) as [D1 D2].
  unfold in_box, out_box in Hni, Hno, Hco'. rewrite Hni in A1. rewrite Hno in A2. rewrite Hco' in D2. simpl in D2.
  set (node1 := with_base (arrive d (pn_base node)) node) in *. set (s1 := set_client n node1 s) in *.
  set (c1 := cl_set_node (with_base (depart (pn_base (cl_node c'))) (cl_node c')) c') in *.
  assert (C1 : out_box node1 = []) by exact A2. assert (C2 : out_box (cl_node c1) = []) by exact D2.
  assert (C3 : cl_small c1) by (unfold cl_small; by rewrite C2).
  unfold in_box in Hci, Hci'.
  destruct (recv_one n node1 d p r info s1) as (node2 & Hf2 & Hin2 & Hout2 & En2); try done.
  { unfold s1; simpl. apply lookup_insert_eq. }
  assert (Hmid : sys_inv (mkSys s (<[n := c']> cs))).
  { eapply run_step_inv; [exact HI|]. split; [by apply sys_net, sys_client_work with (env := env) (c := c)|].
    split; [done|]. apply small_client; [done|]. unfold cl_small, out_box. rewrite Hco'. by apply Forall_singleton. }
  assert (Hback : sys_inv (mkSys s1 (<[n := c1]> cs))).
  { unfold s1, c1. rewrite <- (insert_insert_eq cs n _ c').
    eapply run_step_inv; [exact Hmid|]. split.
    - apply sys_net, (sys_carry_back n node c' d []); [done|apply lookup_insert_eq|exact Hco'].
    - split; simpl; [by apply (small_node n node1 s)|]. rewrite insert_insert_eq. by apply small_client. }
  set (s2 := (onRecvFromNode fullId n s1).2) in *. unfold s1 in En2; simpl in En2. rewrite insert_insert_eq in En2.
  assert (Hn2 : sv_nodes s2 !! n = Some node2) by (rewrite En2; apply lookup_insert_eq).
  assert (Hlast : sys_inv (mkSys s2 (<[n := c1]> cs))).
  { eapply run_step_inv; [exact Hback|]. split.
    - apply sys_net, sys_recv. apply (inv_nodes s1 (sy_sched _ Hback)). unfold s1; simpl. rewrite lookup_insert_eq. by eexists.
    - split; simpl; [apply (small_node n node2 s); [done|done|by rewrite Hout2]|by apply small_client]. }
  apply (idle_run n _ S' Hlast); [|done]. split; simpl; [|rewrite lookup_insert_eq; by intros cm [= <-]].
  apply (rests_empty n node2 c1 s2 (<[n := c1]> cs)); try done; [apply lookup_insert_eq|lia|by rewrite Hout2|].
  unfold holds. rewrite C2. unfold in_box, c1; simpl. by rewrite D1, Et', Hci', Hci.
Qed.
End system.
