(* ===== verification/Progress.v ===== *)
(** * A build can always be finished

    Whatever has happened to a build - daemons gone, tasks under way, packets
    in flight - one host that is able to run the tasks brings it to an end:
    from every reachable state of [System] there are further steps to a state
    in which every task has a result.  The steps are those of one daemon that
    connects, takes a task, reports it and leaves, once for every task that
    still waits. *)

From Stdlib Require Import String.
From S2P Require Import Prelude CxxStd External Float32 Projects Process Messages Tasks Server Schedule Client System.
Local Open Scope string_scope.
Local Open Scope Z_scope.
Local Open Scope list_scope.

(** ** Sending, to the byte *)

Section exact.
Context {N : Type} `{FifoNode N}.

Lemma send_exact `{MessageCodec M} node (p : M) :
  IsInitialized p = true -> typed p -> p <> ParseFromArray "" -> small (SerializeToString p) ->
  (send node p).1 <> 0 /\ in_box (send node p).2 = in_box node /\
  out_box (send node p).2 = out_box node ++ [SerializeToString p] /\
  ParseFromArray (SerializeToString p) = p.
Proof.
  intros Hi Ht Hne Hsm. unfold small in Hsm. pose proof (size_serialize p Ht Hi) as Hs.
  pose proof (parse_serialize p Ht Hi ltac:(lia)) as Hp.
  assert (Hd : SerializeToString p <> "") by (intros E; by rewrite E in Hp).
  unfold send. rewrite Hi, orb_false_r. destruct (Z.eqb_spec (ByteSizeLong p) 0) as [E|E].
  { destruct (SerializeToString p); [done|]. unfold str_len in Hs. simpl in Hs. lia. }
  destruct (send_boxes (pn_base node) (SerializeToString p)) as (Hr & Hin & Hout). specialize (Hr Hd).
  destruct (PacketNode_send _ _). by repeat split.
Qed.
End exact.

Section progress.
Context {N : Type} `{FifoNode N} {F : Type} `{FileSystem F} `{ExitCodes} `{ProcessOps W P} `{StringUtils} `{ProtoMessages}.
Context (fullId : NodeId -> string).
Context (threads : NodeId -> Z) (launch : NodeId -> nat -> string -> string -> string -> P).
Context (log_fault : NodeId -> Z -> Z -> Z -> outcome unit) (projects : NodeId -> Projects).
Implicit Types (s : Server N F) (node : TcpProtobufNode N) (c : Client N F P) (t : TaskInfo).
Implicit Types (ts tasks : list TaskInfo) (f g : F) (cs : gmap NodeId (Client N F P)).

Abbreviation run := (net_run (W := W) fullId threads launch log_fault projects).

(** ** A host that can work *)

(** The host [n] with the connection [base0], a client [c0] on it, what it
    observes, and the disks whose files fit into packets. *)
Context (n : NodeId) (base0 : N) (c0 : Client N F P) (e : Env W) (disk : F -> Prop).

Definition greeting (free : Z) : SPacket := mkSPacket (Some (mkSInfo (Some (i32 free)))) None.

(** The process [p] has ended, with exit code 0. *)
Definition ended (p : P) : Prop :=
  proc_isRunning (e_os e) p = false /\ proc_getExitCode (e_os e) p = (Exited, Some 0).

Record able_host : Prop := {
  ah_base : inbox base0 = [] /\ outbox base0 = [];
  ah_new : new_client c0;
  ah_disk : disk (cl_fs c0);
  (** It spares a core, and the process it starts ends well. *)
  ah_cores : exists free, freeCore (W := W) (threads n) (projects n) e = Ret free /\ 0 < free < 2 ^ 31 /\
    small (SerializeToString (greeting free));
  ah_ended app cmd dir : ended (launch n (length (cl_procs c0)) app cmd dir);
  ah_exited : i32 Exited = Exited;
  (** Files may be copied from disk to disk. *)
  ah_copy f g path src : disk f -> disk g -> disk (fs_save f path (fs_load g src).2).2;
}.

Definition pdir (prj : Item) (path : string) : string := String_replace path "$(pdir)" (m_workPath prj) true.

(** What [n] needs to run [t]: the project, the source file, and that the
    packets about it stay below 2 GiB. *)
Definition runnable t : Prop :=
  (forall f, disk f -> small (SerializeToString (mkMPacket (Some (task_packet f t)) None))) /\
  exists prj, getProject (projects n) (get_str_field (mt_project (m_message t))) = Some prj /\
    (forall f g, disk f -> disk g ->
       (fs_save f (pdir prj (get_str_field (mt_sourceFile (m_message t)))) (fs_load g (SourceFile (m_vars t))).2).1 =
       fs_OK (F := F)) /\
    (forall f free size (task : CTask P), disk f -> ct_id task = u32 (id_of t) ->
       ct_outputFile task = pdir prj (get_str_field (mt_outputFile (m_message t))) ->
       small (SerializeToString (report e f free size task))).

Lemma same_job_runnable t t' : same_job t t' -> runnable t -> runnable t'.
Proof. intros [E1 E2]. unfold runnable, task_packet, id_of, task_id. by rewrite E1, E2. Qed.

Lemma same_jobs_runnable ts ts' : Forall2 same_job ts ts' -> Forall runnable ts -> Forall runnable ts'.
Proof.
  induction 1 as [|t t' l l' Ht Hl IH]; [done|]. rewrite !Forall_cons. intros [Hr Hrs].
  split; [by eapply same_job_runnable|by apply IH].
Qed.

(** ** The console alone, and the console with one host *)

Definition idle_console ts f : Sys (N := N) (F := F) (P := P) := mkSys (mkServer ts ∅ [] f) ∅.
Definition serving ts f node : Server N F := mkServer ts {[n := node]} [n] f.
Definition with_host ts f node c : Sys (N := N) (F := F) (P := P) := mkSys (serving ts f node) {[n := c]}.

Lemma set_client_serving ts f node node' : set_client n node' (serving ts f node) = serving ts f node'.
Proof. unfold set_client, serving; simpl. f_equal. apply insert_singleton_eq. Qed.

Lemma with_host_moved ts f node c node' c' :
  with_host ts f node' c' = mkSys (set_client n node' (serving ts f node)) (<[n := c']> {[n := c]}).
Proof. unfold with_host. by rewrite set_client_serving, insert_singleton_eq. Qed.

Lemma serving_node ts f node : sv_nodes (serving ts f node) !! n = Some node.
Proof. apply lookup_singleton_eq. Qed.

Lemma small_with_host ts f node c :
  Forall small (out_box node) -> cl_small c -> sys_small (with_host ts f node c).
Proof.
  intros Hn Hc. split; unfold small_out, serving; simpl.
  - intros m x Hm. by apply lookup_singleton_Some in Hm as [<- <-].
  - intros m x Hm. by apply lookup_singleton_Some in Hm as [<- <-].
Qed.

(** ** Everyone may leave *)

(** The tasks without a result. *)
Definition waiting ts : nat := length (filter (fun t => m_result t = NoInit) ts).

Lemma waiting_cons t ts : waiting (t :: ts) = ((if decide (m_result t = NoInit) then 1 else 0) + waiting ts)%nat.
Proof. unfold waiting. rewrite filter_cons. by case_decide. Qed.

Lemma waiting_app ts ts' : waiting (ts ++ ts') = (waiting ts + waiting ts')%nat.
Proof. unfold waiting. by rewrite filter_app, length_app. Qed.

Lemma waiting_map (h : TaskInfo -> TaskInfo) ts :
  (forall t, m_result (h t) = m_result t) -> waiting (h <$> ts) = waiting ts.
Proof. intros Hh. induction ts as [|t ts IH]; [done|]. csimpl. by rewrite !waiting_cons, Hh, IH. Qed.

Lemma release_job m t : same_job t (release m t) /\ m_result (release m t) = m_result t.
Proof. unfold release. by case_bool_decide. Qed.

Lemma release_jobs m ts : Forall2 same_job ts (release m <$> ts) /\ waiting (release m <$> ts) = waiting ts.
Proof.
  split; [|apply waiting_map; intros; apply release_job].
  apply Forall2_fmap_r, Forall_Forall2_diag, Forall_true. intros; apply release_job.
Qed.

Lemma small_drop m s cs : sys_small (mkSys s cs) -> sys_small (mkSys (drop_client m s) (delete m cs)).
Proof.
  intros [Hs Hc]. split; unfold small_out, drop_client in *; simpl in *.
  - intros k node [_ Hk]%lookup_delete_Some. by apply (Hs k).
  - intros k c [_ Hk]%lookup_delete_Some. by apply (Hc k).
Qed.

Lemma dismiss_all S :
  sys_inv S -> sys_small S -> exists ts,
    rtc run S (idle_console ts (sv_fs (sy_server S))) /\ Forall2 same_job (sv_tasks (sy_server S)) ts /\
    waiting ts = waiting (sv_tasks (sy_server S)) /\ sys_inv (idle_console ts (sv_fs (sy_server S))).
Proof.
  destruct S as [s cs]. simpl. remember (length (sv_clients s)) as k eqn:Ek. revert s cs Ek.
  induction k as [k IH] using lt_wf_ind. intros s cs Ek HI Hsm.
  destruct (sv_clients s) as [|m l] eqn:El.
  - exists (sv_tasks s). pose proof (inv_nodes _ (sy_sched _ HI)) as Hn. simpl in Hn.
    assert (E1 : sv_nodes s = ∅).
    { apply map_empty. intros m. apply eq_None_not_Some. rewrite <- Hn, El. apply not_elem_of_nil. }
    assert (E2 : cs = ∅).
    { apply map_empty. intros m. apply eq_None_not_Some. intros Hm. pose proof (sy_ends _ HI m Hm) as Hs.
      simpl in Hs. rewrite E1, lookup_empty in Hs. by destruct Hs. }
    assert (E : mkSys s cs = idle_console (sv_tasks s) (sv_fs s)).
    { subst cs. unfold idle_console. destruct s. simpl in *. by subst. }
    rewrite <- E. split; [done|]. split; [done|]. by split.
  - assert (Hm : m ∈ sv_clients s) by (rewrite El; by left).
    assert (Hstep : run (mkSys s cs) (mkSys (drop_client m s) (delete m cs)))
      by (split; [by constructor|by apply small_drop]).
    destruct (IH (length (sv_clients (drop_client m s)))) with (s := drop_client m s) (cs := delete m cs)
      as (ts & Hr & Hj & Hw & HI'); [|done|by eapply run_step_inv, net_run_step|by apply small_drop|].
    + simpl. rewrite Ek, El, filter_cons, decide_False by (by intros []). simpl.
      pose proof (length_filter (fun n0 => n0 <> m) l). lia.
    + destruct (release_jobs m (sv_tasks s)) as [Hj1 Hw1]. exists ts. simpl in *.
      split; [by eapply rtc_l|]. split; [by etransitivity|]. split; [congruence|done].
Qed.

(** ** The steps of one visit *)

(** A client with these tasks and these packets, still connected. *)
Record visitor c (running : list (CTask P)) (received sent : list string) : Prop := {
  vi_tasks : cl_tasks c = running;
  vi_live : cl_disconnect c = false;
  vi_in : in_box (cl_node c) = received;
  vi_out : out_box (cl_node c) = sent;
  vi_disk : disk (cl_fs c);
  vi_procs : running = [] -> cl_procs c = cl_procs c0;
}.

(** The console's end of the connection. *)
Definition line node (received sent : list string) : Prop := in_box node = received /\ out_box node = sent.

Lemma visit_connect ts f :
  able_host -> exists free node c,
    freeCore (W := W) (threads n) (projects n) e = Ret free /\ 0 < free < 2 ^ 31 /\
    run (idle_console ts f) (with_host ts f node c) /\ line node [] [] /\
    visitor c [] [] [SerializeToString (greeting free)] /\
    ParseFromArray (SerializeToString (greeting free)) = greeting free.
Proof.
  intros [[Hi Ho] (Ht & Hd & Hci & Hco) Hdisk (free & Hf & Hr & Hsm) _ _ _].
  destruct (send_exact (cl_node c0) (greeting free)) as (_ & Hin & Hout & Hp);
    [by rewrite init_S|apply typed_S; split; [apply wrapS_range; lia|done]|by rewrite parse_empty_S|done|].
  rewrite Hci in Hin. rewrite Hco in Hout.
  exists free, (TcpProtobufNode_new base0), (cl_set_node (send (cl_node c0) (greeting free)).2 c0).
  assert (Hv : visitor (cl_set_node (send (cl_node c0) (greeting free)).2 c0) [] [] [SerializeToString (greeting free)])
    by (split; done).
  split; [done|]. split; [done|]. split; [|by split].
  split; [|apply small_with_host; [unfold out_box; simpl; by rewrite Ho|]].
  - apply (sys_connect _ _ _ _ _ n base0 e c0); [done|done|done|done|].
    unfold onConnect. rewrite Hf. cbn [obind]. fold (greeting free). by destruct (send _ _).
  - unfold cl_small. rewrite (vi_out _ _ _ _ Hv). by apply Forall_singleton.
Qed.

Lemma carry_back ts f node c l d :
  out_box (cl_node c) = [d] -> line node l [] -> exists node' base',
    run (with_host ts f node c) (with_host ts f node' (cl_set_node (with_base base' (cl_node c)) c)) /\
    line node' (l ++ [d]) [] /\ inbox base' = in_box (cl_node c) /\ outbox base' = [].
Proof.
  intros Ho [Hni Hno]. unfold in_box, out_box in *.
  destruct (arrive_boxes (pn_base node) d) as [A1 A2]. destruct (depart_boxes (pn_base (cl_node c))) as [D1 D2].
  rewrite Hni in A1. rewrite Hno in A2. rewrite Ho in D2. simpl in D2.
  exists (with_base (arrive d (pn_base node)) node), (depart (pn_base (cl_node c))).
  split; [|by split]. rewrite (with_host_moved ts f node c (with_base _ node)). split.
  - apply (sys_carry_back _ _ _ _ _ n node c d []); [apply serving_node|apply lookup_singleton_eq|done].
  - rewrite <- with_host_moved. apply small_with_host; unfold cl_small, out_box; simpl;
      [by rewrite A2|by rewrite D2].
Qed.

Lemma visit_carry_out ts f node c d run_c :
  visitor c run_c [] [] -> line node [] [d] -> exists node' c',
    run (with_host ts f node c) (with_host ts f node' c') /\ line node' [] [] /\
    m_freeCores node' = m_freeCores node /\ visitor c' run_c [d] [].
Proof.
  intros [Ht Hd Hi Ho Hk Hpr] [Hni Hno]. unfold in_box, out_box in *.
  destruct (depart_boxes (pn_base node)) as [D1 D2]. destruct (arrive_boxes (pn_base (cl_node c)) d) as [A1 A2].
  rewrite Hni in D1. rewrite Hno in D2. rewrite Hi in A1. rewrite Ho in A2. simpl in D2.
  exists (with_base (depart (pn_base node)) node), (cl_set_node (with_base (arrive d (pn_base (cl_node c))) (cl_node c)) c).
  split; [|by split]. rewrite (with_host_moved ts f node c (with_base _ node)). split.
  - apply (sys_carry_out _ _ _ _ _ n node c d []); [apply serving_node|done|apply lookup_singleton_eq|done].
  - rewrite <- with_host_moved. apply small_with_host; unfold cl_small, out_box; simpl;
      [by rewrite D2|by rewrite A2].
Qed.

(** The console reads one packet. *)
Lemma recv_single ts f node d p l :
  line node [d] l -> ParseFromArray d = p -> SPacket_IsInitialized p = true -> exists node1,
    line node1 [] l /\ m_freeCores node1 = m_freeCores node /\
    forall ts2 f2 node2, handle_packet fullId n p (serving ts f node1) = serving ts2 f2 node2 ->
      in_box node2 = [] -> (onRecvFromNode fullId n (serving ts f node)).2 = serving ts2 f2 node2.
Proof.
  intros [Hin Hout] Hp Hi. unfold in_box, out_box in *.
  destruct (inbox_extract _ _ _ Hin) as (Ed & Hin' & Hout').
  exists (mkNode (extractRecvPacket (pn_base node)).2 (m_freeCores node)).
  split; [unfold line, in_box, out_box; simpl; split; congruence|]. split; [done|]. intros ts2 f2 node2 Hh Hin2.
  unfold onRecvFromNode, queue_length. rewrite serving_node, inbox_count, Hin.
  cbn [length recv_loop]. rewrite serving_node, inbox_count, Hin. cbn [length Nat.ltb Nat.leb].
  destruct (extractRecvPacket (pn_base node)) as [data base]. simpl in *. subst data.
  rewrite Hp, Hi, set_client_serving. cbn [negb]. rewrite Hh, serving_node, inbox_count.
  by unfold in_box in Hin2; rewrite Hin2.
Qed.

(** ** The console hands out a task *)

Definition sendable t : Prop := message_complete t /\ MTask_typed (m_message t).
Definition task_bytes f t : string := SerializeToString (mkMPacket (Some (task_packet f t)) None).

Lemma task_packet_exact f node t :
  sendable t -> small (task_bytes f t) ->
  MTask_IsInitialized (task_packet f t) = true /\
  in_box (node_after f node t) = in_box node /\ out_box (node_after f node t) = out_box node ++ [task_bytes f t] /\
  ParseFromArray (task_bytes f t) = mkMPacket (Some (task_packet f t)) None.
Proof.
  intros [Hc Hty] Hsm. destruct (task_packet_fields f t Hc) as [Hi Hid]. split; [done|].
  destruct (send_exact node (mkMPacket (Some (task_packet f t)) None)) as (_ & Hin & Hout & Hp);
    [by rewrite init_M| |by rewrite parse_empty_M|done|by repeat split].
  apply typed_M. unfold MPacket_typed, MTask_typed; simpl. by rewrite Hid.
Qed.

Lemma serve_first ts f node pre t post :
  ts = pre ++ t :: post -> Forall (fun u => busy u = true) pre -> busy t = false -> 0 < m_freeCores node ->
  sendable t -> small (task_bytes f t) ->
  (sendTasksToSlave n (serving ts f node)).2 =
    serving (pre ++ set_node (Some n) t :: post) f (node_after f node t).
Proof.
  intros Et Hp Ht Hf Hs Hsm. destruct (task_packet_exact f node t Hs Hsm) as (Hi & _).
  unfold sendTasksToSlave. rewrite serving_node. destruct (Z.leb_spec (m_freeCores node) 0); [lia|].
  simpl sv_tasks. simpl sv_fs. rewrite Et, send_loop_first, Hi by done. cbn [snd].
  unfold set_client, set_tasks, serving; simpl. f_equal. apply insert_singleton_eq.
Qed.

(** Handing out only assigns tasks that wait. *)
Definition handed t t' : Prop := t' = t \/ (busy t = false /\ t' = set_node (Some n) t).

Lemma handed_refl ts : Forall2 handed ts ts.
Proof. apply Forall_Forall2_diag, Forall_true. by left. Qed.

Lemma serve_any ts f node l :
  Forall sendable ts -> Forall (fun t => small (task_bytes f t)) ts -> line node [] l -> Forall small l ->
  exists ts' node' l', (sendTasksToSlave n (serving ts f node)).2 = serving ts' f node' /\
    line node' [] l' /\ Forall small l' /\ Forall2 handed ts ts'.
Proof.
  intros Hs Hsm [Hin Hout] Hl. destruct (decide (m_freeCores node <= 0)) as [Hf|Hf].
  { exists ts, node, l. unfold sendTasksToSlave. rewrite serving_node. rewrite (proj2 (Z.leb_le _ _) Hf).
    repeat split; [done|done|done|apply handed_refl]. }
  destruct (first_free ts) as [Hb|(pre & t & post & Et & Hp & Ht)].
  - exists ts, node, l. unfold sendTasksToSlave. rewrite serving_node. rewrite (proj2 (Z.leb_gt _ _)) by lia.
    simpl sv_tasks. rewrite send_loop_all_busy by done. cbn [snd].
    split; [apply set_client_serving|]. split; [done|]. split; [done|apply handed_refl].
  - pose proof Hs as Hs'. pose proof Hsm as Hsm'. rewrite Et in Hs', Hsm'.
    apply Forall_app in Hs' as [_ Hs']. apply Forall_app in Hsm' as [_ Hsm'].
    apply Forall_inv in Hs'. apply Forall_inv in Hsm'.
    destruct (task_packet_exact f node t Hs' Hsm') as (_ & Ein & Eout & _).
    exists (pre ++ set_node (Some n) t :: post), (node_after f node t), (l ++ [task_bytes f t]).
    split; [by apply serve_first with (pre := pre); try done; lia|]. split; [split; congruence|].
    split; [apply Forall_app; split; [done|by apply Forall_singleton]|]. rewrite Et.
    apply Forall2_app; [apply handed_refl|]. constructor; [by right|apply handed_refl].
Qed.

(** The greeting arrives: the first task that waits goes out. *)
Lemma greeted_task ts f node free pre t post :
  ts = pre ++ t :: post -> Forall (fun u => busy u = true) pre -> busy t = false ->
  sendable t -> small (task_bytes f t) -> 0 < free < 2 ^ 31 ->
  ParseFromArray (SerializeToString (greeting free)) = greeting free ->
  line node [SerializeToString (greeting free)] [] -> exists node',
    (onRecvFromNode fullId n (serving ts f node)).2 = serving (pre ++ set_node (Some n) t :: post) f node' /\
    line node' [] [task_bytes f t].
Proof.
  intros Et Hp Ht Hs Hsm Hfree Hpar Hline.
  destruct (recv_single ts f node _ (greeting free) [] Hline Hpar eq_refl) as (node1 & [Hin1 Hout1] & _ & Hrec).
  set (node2 := with_freeCores (i32 free) node1).
  destruct (task_packet_exact f node2 t Hs Hsm) as (_ & Ein & Eout & _).
  exists (node_after f node2 t). assert (Hl : line (node_after f node2 t) [] [task_bytes f t]).
  { split; [rewrite Ein; exact Hin1|rewrite Eout]. change (out_box node2) with (out_box node1). by rewrite Hout1. }
  split; [|exact Hl]. apply Hrec; [|apply Hl].
  unfold handle_packet, greeting. cbn [sp_info sp_result si_task_count get_num_field default from_option].
  rewrite serving_node, set_client_serving. apply serve_first; try done.
  unfold node2; simpl. rewrite wrapS_id by (unfold inS; lia). lia.
Qed.

(** ** The host runs it *)

(** [task] was started for [t]. *)
Definition started_for t (task : CTask P) : Prop :=
  ended (ct_process task) /\ ct_id task = u32 (id_of t) /\ inU 32 (ct_id task) /\
  exists prj, getProject (projects n) (get_str_field (mt_project (m_message t))) = Some prj /\
    ct_outputFile task = pdir prj (get_str_field (mt_outputFile (m_message t))).

Lemma task_packet_data f t : task_packet f t = set_inputdata (fs_load f (SourceFile (m_vars t))).2 (m_message t).
Proof. unfold task_packet. by destruct (fs_load _ _). Qed.

(** The task packet starts a process. *)
Lemma visit_start c f t :
  able_host -> runnable t -> sendable t -> disk f -> visitor c [] [task_bytes f t] [] ->
  exists c' task, cl_onRecvFromNode (launch n) (projects n) c = (true, c') /\
    visitor c' [task] [] [] /\ started_for t task.
Proof.
  intros Hah (Hsmall & prj & Hprj & Hsave & _) Hs Hf [Ht Hd Hin Hout Hk Hpr].
  destruct (task_packet_exact f (cl_node c) t Hs (Hsmall f Hf)) as (Hi & _ & _ & Hpar).
  unfold cl_onRecvFromNode. unfold in_box in Hin. rewrite inbox_count, Hin. cbn [length cl_recv_loop].
  rewrite inbox_count, Hin. cbn [length Nat.ltb Nat.leb].
  destruct (inbox_extract _ _ _ Hin) as (Ed & Hin' & Hout').
  destruct (extractRecvPacket (pn_base (cl_node c))) as [data base]. simpl in Ed, Hin', Hout'. subst data.
  rewrite Hpar. assert (Hi2 : MPacket_IsInitialized (mkMPacket (Some (task_packet f t)) None) = true)
    by (unfold MPacket_IsInitialized; simpl; exact Hi).
  rewrite Hi2. cbn [negb]. unfold cl_handle. cbn [mp_task mp_system]. unfold runTaskProcess.
  rewrite task_packet_data. cbn [set_inputdata mt_project mt_workingDir mt_application mt_commandline mt_outputFile
    mt_sourceFile mt_inputData mt_id mt_abortOnError cl_set_live cl_set_node cl_fs].
  rewrite Hprj. specialize (Hsave (cl_fs c) f Hk Hf). pose proof (ah_copy Hah (cl_fs c) f
    (pdir prj (get_str_field (mt_sourceFile (m_message t)))) (SourceFile (m_vars t)) Hk Hf) as Hk'.
  fold (pdir prj (get_str_field (mt_sourceFile (m_message t)))).
  change (get_str_field (Some ?x)) with x. set (input := (fs_load f (SourceFile (m_vars t))).2) in *.
  destruct (fs_save (cl_fs c) _ input) as [r fs']. simpl in Hsave, Hk'. subst r. rewrite Z.eqb_refl. cbn [negb].
  cbn [cl_node cl_set_tasks cl_add_proc cl_set_fs cl_set_live cl_set_node pn_base]. rewrite inbox_count. rewrite Hin'. cbn [length Nat.ltb Nat.leb].
  eexists _, _. split; [reflexivity|]. split.
  - split; cbn; [by rewrite Ht|done|done| |done|done]. unfold out_box in *; simpl. congruence.
  - split; [cbn; rewrite Hpr by done; apply (ah_ended Hah)|]. split; [done|]. split; [apply wrapU_range; lia|]. by exists prj.
Qed.

(** The process has ended: the report is on its way. *)
Lemma visit_work c task free :
  ended (ct_process task) -> freeCore (W := W) (threads n) (projects n) e = Ret free ->
  visitor c [task] [] [] -> inU 32 (ct_id task) ->
  small (SerializeToString (report e (cl_fs c) free 1 task)) ->
  exists c', cl_doWork (threads n) (log_fault n) (projects n) (fun _ => e) c = Ret c' /\
    out_box (cl_node c') = [SerializeToString (report e (cl_fs c) free 1 task)] /\
    cl_disconnect c' = false /\
    ParseFromArray (SerializeToString (report e (cl_fs c) free 1 task)) = report e (cl_fs c) free 1 task.
Proof.
  intros [Hrun Hexit] Hfree [Ht Hd Hin Hout Hk _] Hid Hsm.
  destruct (report_result e (cl_fs c) free 1 task) as (r & Er & _).
  destruct (send_exact (cl_node c) (report e (cl_fs c) free 1 task)) as (Hr & _ & Hout' & Hpar);
    [rewrite init_S; apply report_initialized|by apply typed_S, report_typed
    |rewrite parse_empty_S; intros E; by rewrite E in Er|done|].
  rewrite Hout in Hout'.
  unfold cl_doWork. rewrite (doWork_loop_sweep _ _ _ _ _ [] (cl_tasks c)) by (rewrite ?Ht; simpl; (done || lia)).
  rewrite Ht. cbn [sweep]. unfold running at 1. rewrite Hrun. unfold settle. rewrite Hfree. cbn [obind length plus].
  destruct (send (cl_node c) _) as [sent node]. simpl in Hr, Hout'. destruct (Z.eqb_spec sent 0); [done|].
  assert (Hok : faulty e task = false) by (unfold faulty; rewrite Hexit, Z.eqb_refl; done).
  unfold log_if_faulty. rewrite Hok. cbn [obind andb]. eexists. split; [reflexivity|]. by repeat split.
Qed.

(** ** The console takes the report *)

Lemma handed_result t t' : handed t t' -> same_job t t' /\ m_result t' = m_result t.
Proof. intros [->|[_ ->]]; by split. Qed.

Lemma handed_waiting ts ts' : Forall2 handed ts ts' -> waiting ts' = waiting ts.
Proof.
  induction 1 as [|t t' l l' Ht Hl IH]; [done|].
  by rewrite !waiting_cons, (proj2 (handed_result _ _ Ht)), IH.
Qed.

Lemma handed_jobs ts ts' : Forall2 handed ts ts' -> Forall2 same_job ts ts'.
Proof. intros Hh. eapply Forall2_impl; [exact Hh|]. intros t t' Ht. by apply handed_result. Qed.

(** What was already taken is not handed out again. *)
Lemma handed_busy ts ts' : Forall2 handed ts ts' -> Forall (fun t => busy t = true) ts -> ts' = ts.
Proof.
  induction 1 as [|t t' l l' Ht Hl IH]; [done|]. rewrite Forall_cons. intros [Hb Hbs].
  rewrite IH by done. destruct Ht as [->|[Ht _]]; [done|congruence].
Qed.

Lemma report_result_eq fs free size (task : CTask P) :
  able_host -> ended (ct_process task) ->
  sp_result (report e fs free size task) =
    Some (mkSResult (Some (ct_id task)) (Some (i32 0)) (Some Exited) (Some (ct_outputFile task))
            (Some (fs_load fs (ct_outputFile task)).2)).
Proof.
  intros Hah [_ Hexit]. unfold report. rewrite Hexit.
  destruct (fs_load _ _). simpl. by rewrite (ah_exited Hah).
Qed.

(** The report of [t] gives it its result. *)
Lemma apply_report ts f node fs free (task : CTask P) r pre t post :
  able_host -> disk f -> disk fs -> sendable t -> started_for t task ->
  sp_result (report e fs free 1 task) = Some r ->
  ts = pre ++ set_node (Some n) t :: post -> Forall (fun u => m_node u <> Some n) pre ->
  exists t' f', (applyResultFromSlave fullId n r (serving ts f node)).2 = serving (pre ++ t' :: post) f' node /\
    same_job t t' /\ m_result t' = Exited /\ disk f'.
Proof.
  intros Hah Hf Hfs [_ Hty] (Hend & Hid & Hu & _) Hr Et Hp. rewrite (report_result_eq _ _ _ _ Hah Hend) in Hr. injection Hr as <-.
  set (r := mkSResult _ _ _ _ _). unfold applyResultFromSlave. simpl sv_fs. simpl sv_tasks.
  assert (Hidt : u32 (id_of t) = id_of t).
  { apply wrapU_id. unfold id_of, task_id. unfold MTask_typed, u32_field in Hty.
    destruct (mt_id (m_message t)); [done|unfold inU; simpl; lia]. }
  rewrite Et, (apply_loop_first fullId); cbn [snd].
  - destruct (apply_result_fields fullId f n r (set_node (Some n) t)) as (Hv & Hm & _ & Hres & _).
    exists (apply_result fullId f n r (set_node (Some n) t)).1, (apply_result fullId f n r (set_node (Some n) t)).2.
    split; [done|]. split; [split; [by rewrite Hv|by rewrite Hm]|]. split; [by rewrite Hres|].
    unfold apply_result. destruct (_ && _); [|exact Hf].
    pose proof (ah_copy Hah f fs (OutputFile (m_vars t)) (ct_outputFile task) Hf Hfs) as Hc.
    change (get_str_field (sr_outputData r)) with ((fs_load fs (ct_outputFile task)).2).
    match goal with |- context [fs_save f ?p _] => change p with (OutputFile (m_vars t)) end.
    by destruct (fs_save f _ _).
  - eapply Forall_impl; [exact Hp|]. intros u Hn. unfold result_for. by rewrite bool_decide_eq_false_2.
  - unfold result_for. rewrite bool_decide_eq_true_2 by done. cbn [andb]. apply Z.eqb_eq.
    change (ct_id task = id_of t). congruence.
Qed.

Lemma report_info fs free size (task : CTask P) :
  exists i, sp_info (report e fs free size task) = Some i.
Proof. unfold report. destruct (proc_getExitCode _ _), (fs_load _ _). by eexists. Qed.

Lemma visit_report ts f node fs free (task : CTask P) d pre t post :
  able_host -> disk f -> disk fs -> sendable t -> started_for t task ->
  d = SerializeToString (report e fs free 1 task) -> ParseFromArray d = report e fs free 1 task ->
  line node [d] [] ->
  ts = pre ++ set_node (Some n) t :: post -> Forall (fun u => busy u = true) pre -> Forall (fun u => m_node u <> Some n) pre ->
  Forall sendable ts -> Forall (fun u => forall g, disk g -> small (task_bytes g u)) ts ->
  exists t' post' f' node' l', (onRecvFromNode fullId n (serving ts f node)).2 = serving (pre ++ t' :: post') f' node' /\
    line node' [] l' /\ Forall small l' /\ same_job t t' /\ m_result t' = Exited /\ disk f' /\ Forall2 handed post post'.
Proof.
  intros Hah Hf Hfs Hs Hst -> Hpar Hline Et Hb Hp Hsd Hsm. pose proof Hst as [Hend _].
  destruct (recv_single ts f node _ _ [] Hline Hpar (report_initialized _ _ _ _ _)) as (node1 & Hl1 & _ & Hrec).
  destruct (report_info fs free 1 task) as [i Ei].
  set (node2 := with_freeCores (get_num_field (si_task_count i)) node1).
  destruct (serve_any ts f node2 []) as (ts' & node3 & l' & Eserve & Hl3 & Hsm' & Hh); [done| |exact Hl1|constructor|].
  { eapply Forall_impl; [exact Hsm|]. intros u Hu. by apply Hu. }
  rewrite Et in Hh. apply Forall2_app_inv_l in Hh as (pre' & rest' & Hpre & Hrest & ->).
  apply Forall2_cons_inv_l in Hrest as (t1 & post' & Ht1 & Hpost & ->).
  apply handed_busy in Hpre; [|done]. subst pre'.
  destruct Ht1 as [->|[Ht1 _]]; [|unfold busy in Ht1; simpl in Ht1; done].
  destruct (apply_report (pre ++ set_node (Some n) t :: post') f node3 fs free task _ pre t post' Hah Hf Hfs Hs Hst
    (report_result_eq _ _ _ _ Hah Hend) eq_refl Hp) as (t' & f' & Eapp & Hj & Hres & Hf').
  exists t', post', f', node3, l'. split; [|by do 5 (split; [done|])]. apply Hrec; [|apply Hl3].
  unfold handle_packet. rewrite Ei, serving_node, set_client_serving, (report_result_eq _ _ _ _ Hah Hend).
  fold node2. rewrite Eserve. exact Eapp.
Qed.

(** ** One visit, one result *)

Lemma step_recv ts f node c ts' f' node' l' :
  visitor c [] [] [] \/ cl_small c -> (onRecvFromNode fullId n (serving ts f node)).2 = serving ts' f' node' ->
  line node' [] l' -> Forall small l' -> run (with_host ts f node c) (with_host ts' f' node' c).
Proof.
  intros Hc E [_ Hout] Hl. unfold with_host at 2. rewrite <- E. split.
  - apply sys_recv. simpl. by left.
  - rewrite E. apply small_with_host; [by rewrite Hout|]. destruct Hc as [Hv|Hc]; [|done].
    unfold cl_small. by rewrite (vi_out _ _ _ _ Hv).
Qed.

Lemma step_leave ts f node c : run (with_host ts f node c) (idle_console (release n <$> ts) f).
Proof.
  assert (E : idle_console (release n <$> ts) f = mkSys (drop_client n (serving ts f node)) (delete n {[n := c]})).
  { unfold idle_console, drop_client, serving; simpl. rewrite !delete_singleton_eq.
    rewrite filter_cons, decide_False by (by intros []). done. }
  rewrite E. split; [apply sys_drop; simpl; by left|]. rewrite <- E. by split.
Qed.

Lemma idle_unassigned ts f : sys_inv (idle_console ts f) -> Forall (fun t => m_node t = None) ts.
Proof.
  intros HI. apply Forall_forall. intros t Ht. destruct (m_node t) as [m|] eqn:E; [|done].
  destruct (inv_assigned _ (sy_sched _ HI) t m Ht E) as [Hm _]. by apply not_elem_of_nil in Hm.
Qed.

(** A host comes and is given the first task that waits. *)
Lemma visit_greet ts f pre t post :
  able_host -> disk f -> runnable t -> sendable t ->
  ts = pre ++ t :: post -> Forall (fun u => busy u = true) pre -> busy t = false ->
  exists free node c,
    rtc run (idle_console ts f) (with_host (pre ++ set_node (Some n) t :: post) f node c) /\
    freeCore (W := W) (threads n) (projects n) e = Ret free /\ line node [] [task_bytes f t] /\ visitor c [] [] [].
Proof.
  intros Hah Hf (Hsmall & _) Hs Et Hp Ht.
  destruct (visit_connect ts f Hah) as (free & node1 & c1 & Hfree & Hrange & R1 & L1 & V1 & Hpg).
  pose proof V1 as [Ht1 Hd1 Hi1 Ho1 Hk1 Hp1]. destruct (carry_back ts f node1 c1 [] _ Ho1 L1) as (node2 & b2 & R2 & L2 & Hi2 & Ho2).
  set (c2 := cl_set_node _ c1) in R2. assert (V2 : visitor c2 [] [] []) by (split; unfold in_box, out_box in *; cbn; (done || congruence)).
  destruct (greeted_task ts f node2 free pre t post Et Hp Ht Hs (Hsmall f Hf) Hrange Hpg L2) as (node3 & E3 & L3).
  assert (Hsm : Forall small [task_bytes f t]) by (apply Forall_singleton, Hsmall, Hf).
  pose proof (step_recv _ _ _ c2 _ _ _ _ (or_introl V2) E3 L3 Hsm) as R3.
  exists free, node3, c2. split; [|done]. eapply rtc_l; [exact R1|]. eapply rtc_l; [exact R2|]. by apply rtc_once.
Qed.

(** It runs the task, reports it and leaves. *)
Lemma visit_serve ts f node c pre t post free :
  able_host -> disk f -> Forall runnable ts -> Forall sendable ts -> runnable t -> sendable t ->
  ts = pre ++ set_node (Some n) t :: post ->
  Forall (fun u => busy u = true) pre -> Forall (fun u => m_node u <> Some n) pre ->
  freeCore (W := W) (threads n) (projects n) e = Ret free -> line node [] [task_bytes f t] -> visitor c [] [] [] ->
  exists t' post' f', rtc run (with_host ts f node c) (idle_console (release n <$> (pre ++ t' :: post')) f') /\
    disk f' /\ same_job t t' /\ m_result t' = Exited /\ Forall2 handed post post'.
Proof.
  intros Hah Hf Hruns Hsends Hrt Hs Et Hb Hp Hfree L3 V3.
  destruct (visit_carry_out ts f node c _ _ V3 L3) as (node4 & c4 & R4 & L4 & _ & V4).
  destruct (visit_start c4 f t Hah Hrt Hs Hf V4) as (c5 & task & E5 & V5 & Hst).
  assert (R5 : run (with_host ts f node4 c4) (with_host ts f node4 c5)).
  { split; [|apply small_with_host; [by rewrite (proj2 L4)|unfold cl_small; by rewrite (vi_out _ _ _ _ V5)]].
    unfold with_host. rewrite <- (insert_singleton_eq n c5 c4).
    apply (sys_client_recv _ _ _ _ _ n c4 true); [apply lookup_singleton_eq|apply (vi_live _ _ _ _ V4)|exact E5]. }
  pose proof Hst as (Hend & Hid & Hu & prj & Hprj & Hout). pose proof Hrt as (_ & prj' & Hprj' & _ & Hrep).
  rewrite Hprj in Hprj'. injection Hprj' as <-.
  specialize (Hrep (cl_fs c5) free 1%nat task (vi_disk _ _ _ _ V5) Hid Hout).
  destruct (visit_work c5 task free Hend Hfree V5 Hu Hrep) as (c6 & E6 & O6 & Hd6 & Hpar).
  set (d := SerializeToString (report e (cl_fs c5) free 1 task)) in *.
  assert (R6 : run (with_host ts f node4 c5) (with_host ts f node4 c6)).
  { split; [|apply small_with_host; [by rewrite (proj2 L4)|unfold cl_small; rewrite O6; by apply Forall_singleton]].
    unfold with_host. rewrite <- (insert_singleton_eq n c6 c5).
    apply (sys_client_work _ _ _ _ _ n (fun _ => e) c5); [apply lookup_singleton_eq|apply (vi_live _ _ _ _ V5)|exact E6]. }
  destruct (carry_back ts f node4 c6 [] d O6 L4) as (node7 & b7 & R7 & L7 & _ & O7).
  set (c7 := cl_set_node _ c6) in R7.
  destruct (visit_report ts f node7 (cl_fs c5) free task d pre t post Hah Hf (vi_disk _ _ _ _ V5) Hs Hst eq_refl Hpar
    L7 Et Hb Hp Hsends) as (t' & post' & f' & node8 & l' & E8 & L8 & Hl8 & Hj & Hres & Hf' & Hh).
  { eapply Forall_impl; [exact Hruns|]. intros u [Hsm _]. exact Hsm. }
  assert (Hc7 : cl_small c7) by (unfold cl_small, c7, out_box; simpl; by rewrite O7).
  exists t', post', f'. split; [|done].
  eapply rtc_l; [exact R4|]. eapply rtc_l; [exact R5|]. eapply rtc_l; [exact R6|]. eapply rtc_l; [exact R7|].
  eapply rtc_l; [by apply (step_recv _ _ _ c7 _ _ _ _ (or_intror Hc7) E8 L8)|]. apply rtc_once, step_leave.
Qed.

Lemma busy_waiting ts :
  Forall (fun t => busy t = true) ts -> Forall (fun t => m_node t = None) ts -> waiting ts = O.
Proof.
  induction 1 as [|t ts Hb Hbs IH]; [done|]. rewrite Forall_cons. intros [Hn Hns]. rewrite waiting_cons, IH by done.
  unfold busy in Hb. rewrite Hn in Hb. simpl in Hb. destruct (Z.eqb_spec (m_result t) NoInit); [done|].
  by rewrite decide_False.
Qed.

Lemma visit ts f :
  able_host -> Forall runnable ts -> disk f -> sys_inv (idle_console ts f) -> (0 < waiting ts)%nat ->
  exists ts' f', rtc run (idle_console ts f) (idle_console ts' f') /\ disk f' /\ Forall2 same_job ts ts' /\
    waiting ts = S (waiting ts').
Proof.
  intros Hah Hrun Hf HI Hw. pose proof (so_tasks _ (sy_ok _ HI)) as Hsend. simpl in Hsend.
  pose proof (idle_unassigned ts f HI) as Hnone.
  destruct (first_free ts) as [Hb|(pre & t & post & Et & Hp & Ht)]; [rewrite busy_waiting in Hw by done; lia|].
  assert (Hsplit : forall Q : TaskInfo -> Prop, Forall Q ts -> Forall Q pre /\ Q t /\ Forall Q post).
  { intros Q HQ. rewrite Et in HQ. apply Forall_app in HQ as [? HQ]. by apply Forall_cons in HQ as [? ?]. }
  assert (Hjoin : forall Q : TaskInfo -> Prop, Q (set_node (Some n) t) -> Forall Q ts ->
    Forall Q (pre ++ set_node (Some n) t :: post)).
  { intros Q Ht' (? & _ & ?)%Hsplit. apply Forall_app. split; [done|by constructor]. }
  destruct (Hsplit _ Hrun) as (_ & Hrt & _). destruct (Hsplit _ Hsend) as (_ & Hst & _).
  destruct (Hsplit _ Hnone) as (Hnp & Hnt & Hnpost).
  destruct (visit_greet ts f pre t post Hah Hf Hrt Hst Et Hp Ht) as (free & node & c & R1 & Hfree & L & V).
  assert (Hnp' : Forall (fun u => m_node u <> Some n) pre).
  { eapply Forall_impl; [exact Hnp|]. intros u Hu E. simpl in Hu. congruence. }
  destruct (visit_serve _ f node c pre t post free Hah Hf (Hjoin _ (same_job_runnable t _ (conj eq_refl eq_refl) Hrt) Hrun)
    (Hjoin _ Hst Hsend) Hrt Hst eq_refl Hp Hnp' Hfree L V) as (t' & post' & f' & R2 & Hf' & Hj & Hres & Hh).
  destruct (release_jobs n (pre ++ t' :: post')) as [Hjobs Hwait].
  exists (release n <$> (pre ++ t' :: post')), f'. split; [by etransitivity|]. split; [done|]. split.
  - etransitivity; [|exact Hjobs]. rewrite Et. apply Forall2_app; [done|]. constructor; [done|by apply handed_jobs].
  - rewrite Hwait, Et, !waiting_app, !waiting_cons, (handed_waiting _ _ Hh), Hres.
    assert (Hn : m_result t = NoInit).
    { unfold busy in Ht. rewrite Hnt in Ht. simpl in Ht. by destruct (Z.eqb_spec (m_result t) NoInit). }
    pose proof exit_codes_distinct as (_ & Hne & _). rewrite decide_True by done. rewrite decide_False by done. lia.
Qed.

(** ** The build *)

Lemma visits k ts f :
  able_host -> waiting ts = k -> Forall runnable ts -> disk f -> sys_inv (idle_console ts f) ->
  exists ts' f', rtc run (idle_console ts f) (idle_console ts' f') /\ Forall2 same_job ts ts' /\ waiting ts' = O.
Proof.
  intros Hah. revert ts f. induction k as [|k IH]; intros ts f Hk Hrun Hf HI; [by exists ts, f|].
  destruct (visit ts f Hah Hrun Hf HI ltac:(lia)) as (ts1 & f1 & R1 & Hf1 & Hj1 & Hw1).
  destruct (IH ts1 f1) as (ts2 & f2 & R2 & Hj2 & Hw2); [lia|by eapply same_jobs_runnable|done| |].
  { eapply (rtc_preserves run sys_inv); [|exact R1|exact HI]. intros ? ? ? ?. by eapply run_step_inv, net_run_step. }
  exists ts2, f2. split; [by etransitivity|]. split; [by etransitivity|done].
Qed.

Lemma waiting_zero ts : waiting ts = O -> Forall (fun t => m_result t <> NoInit) ts.
Proof.
  induction ts as [|t ts IH]; [done|]. rewrite waiting_cons. intros Hw. constructor; [|apply IH; lia].
  intros Hn. rewrite decide_True in Hw by done. lia.
Qed.

(** No state is a dead end: whatever has happened to a build - daemons that
    left, crashed or starve, tasks under way, packets in flight - the host can
    finish it. *)
Lemma build_can_finish S :
  sys_inv S -> sys_small S ->
  able_host -> disk (sv_fs (sy_server S)) -> Forall runnable (sv_tasks (sy_server S)) ->
  exists ts g, rtc run S (idle_console ts g) /\
    Forall (fun t => m_result t <> NoInit /\ m_node t = None) ts /\ Forall2 same_job (sv_tasks (sy_server S)) ts.
Proof.
  intros HI Hsm Hah Hf Hr.
  destruct (dismiss_all S HI Hsm) as (ts1 & R1 & Hj1 & _ & HI1).
  destruct (visits (waiting ts1) ts1 (sv_fs (sy_server S)) Hah eq_refl) as (ts2 & g & R2 & Hj2 & Hw2);
    [by eapply same_jobs_runnable|done|done|].
  exists ts2, g. split; [by etransitivity|]. split; [|by etransitivity].
  apply Forall_and. split; [by apply waiting_zero|]. apply (idle_unassigned ts2 g).
  eapply (rtc_preserves run sys_inv); [|exact R2|exact HI1]. intros ? ? ? ?. by eapply run_step_inv, net_run_step.
Qed.
End progress.
