(* ===== verification/Discovery.v ===== *)
(** * The discovery datagram ([protocol/whoishere.h], [sendBroadcast])

    The console announces itself with one [WhoIsHere] datagram per network
    interface; daemons cast the received bytes back to the structure.  The
    layout is that of the compiler the program targets: fields at their
    natural alignment (which leaves no padding) and little-endian. *)

From Stdlib Require Import String.
From S2P Require Import Prelude CxxStd Bytes.
Local Open Scope string_scope.
Local Open Scope Z_scope.
Local Open Scope list_scope.

(** ** [common/global_constants.h] *)

Module Global.
Definition versionMajor : Z := 1.
Definition versionMinor : Z := 3.
Definition tcpDefaultPort : Z := 1290.
Definition udpDefaultPort : Z := 1291.
Definition udpMulticastIp : string := "239.172.22.165".
Definition tcpMagicNumber : Z := 0xffdd0011.
Definition udpMagicNumber : Z := 0xaaa33388.
Definition fileProjects : string := "FreeDistributedBuild.xml".
End Global.

(** ** [NetPacket::WhoIsHere] *)

Record WhoIsHere := mkWho {
  w_magic : Z;
  w_version : Z;
  w_masterPort : Z;
  w_masterIP : Z;
  w_project : bytes;
  w_crc32 : Z;
}.

Definition project_size : nat := 64.
Definition sizeof_WhoIsHere : nat := 80.

(** The default member initialisers. *)
Definition WhoIsHere_init : WhoIsHere := mkWho 0 0 0 0 (replicate project_size 0) 0.

Record who_typed (p : WhoIsHere) : Prop := {
  wt_magic : inU 32 (w_magic p);
  wt_version : inU 16 (w_version p);
  wt_port : inU 16 (w_masterPort p);
  wt_ip : inU 32 (w_masterIP p);
  wt_project : length (w_project p) = project_size;
  wt_chars : Forall is_byte (w_project p);
  wt_crc : inU 32 (w_crc32 p);
}.

(** The bytes the check sum covers, and the object representation. *)
Definition who_body (p : WhoIsHere) : bytes :=
  le_bytes 4 (w_magic p) ++ le_bytes 2 (w_version p) ++ le_bytes 2 (w_masterPort p) ++
  le_bytes 4 (w_masterIP p) ++ w_project p.

Definition who_bytes (p : WhoIsHere) : bytes := who_body p ++ le_bytes 4 (w_crc32 p).

(** Reading the structure through a pointer to a buffer; past the end of the
    buffer the behaviour is undefined. *)
Definition who_of_bytes (raw : bytes) : outcome WhoIsHere :=
  if decide (sizeof_WhoIsHere <= length raw)%nat then
    Ret (mkWho (le_value (take 4 raw)) (le_value (take 2 (drop 4 raw)))
           (le_value (take 2 (drop 6 raw))) (le_value (take 4 (drop 8 raw)))
           (take project_size (drop 12 raw)) (le_value (take 4 (drop 76 raw))))
  else UB.

Definition set_w_magic v p := mkWho v (w_version p) (w_masterPort p) (w_masterIP p) (w_project p) (w_crc32 p).
Definition set_w_version v p := mkWho (w_magic p) v (w_masterPort p) (w_masterIP p) (w_project p) (w_crc32 p).
Definition set_w_masterPort v p := mkWho (w_magic p) (w_version p) v (w_masterIP p) (w_project p) (w_crc32 p).
Definition set_w_masterIP v p := mkWho (w_magic p) (w_version p) (w_masterPort p) v (w_project p) (w_crc32 p).
Definition set_w_project v p := mkWho (w_magic p) (w_version p) (w_masterPort p) (w_masterIP p) v (w_crc32 p).
Definition set_w_crc32 v p := mkWho (w_magic p) (w_version p) (w_masterPort p) (w_masterIP p) (w_project p) v.

(** [strncpy_s(dest, 64, src, strlen(src) + 1)].  A source that does not fit
    with its terminator invokes the invalid parameter handler, which ends the
    program; [fill] is what a debugging library stores behind the terminator
    ([dest] itself otherwise). *)
Definition strncpy_s (fill : bytes -> bytes) (dest : bytes) (src : string) : outcome bytes :=
  let chars := bytes_of_string src in
  if decide (length chars < length dest)%nat then
    Ret (chars ++ 0 :: fill (drop (S (length chars)) dest))
  else UB.

Section discovery.
(** [su::Crc32::get]. *)
Context (crc32_get : bytes -> Z).
Context (fill : bytes -> bytes).

Definition who_packet (prjName : string) (addr : Z) : outcome WhoIsHere :=
  let packet := WhoIsHere_init in
  let packet := set_w_magic Global.udpMagicNumber packet in
  let packet := set_w_version 0x0100 packet in
  let packet := set_w_masterIP addr packet in
  let packet := set_w_masterPort Global.tcpDefaultPort packet in
  let packet := set_w_project (replicate project_size 0) packet in
  do project <- strncpy_s fill (w_project packet) (c_str prjName);
  let packet := set_w_project project packet in
  Ret (set_w_crc32 (crc32_get (who_body packet)) packet).

(** [updSend] for the [k]-th interface: the number of bytes sent. *)
Context (updSend : nat -> string -> Z -> bytes -> Z).

Fixpoint broadcast_loop (k : nat) (addresses : list Z) (prjName : string) (fault : Z) : outcome Z :=
  match addresses with
  | [] => Ret fault
  | addr :: rest =>
      do packet <- who_packet prjName addr;
      let bytesSent := updSend k Global.udpMulticastIp Global.udpDefaultPort (who_bytes packet) in
      let fault :=
        if negb (Z.of_nat sizeof_WhoIsHere =? bytesSent) then u64 (fault + 1) else fault in
      broadcast_loop (S k) rest prjName fault
  end.

Definition sendBroadcast (localIps : list Z) (prjName : string) : outcome bool :=
  do fault <- broadcast_loop O localIps prjName 0;
  Ret (fault =? 0).
End discovery.

(** ** Facts *)

Lemma who_body_length p : who_typed p -> length (who_body p) = 76%nat.
Proof. intros Ht. unfold who_body. rewrite !length_app, !le_bytes_length, (wt_project _ Ht). done. Qed.

Lemma who_bytes_length p : who_typed p -> length (who_bytes p) = sizeof_WhoIsHere.
Proof. intros Ht. unfold who_bytes. rewrite length_app, le_bytes_length, who_body_length; done. Qed.

Lemma take_app_len {A} (l1 l2 : list A) n : length l1 = n -> take n (l1 ++ l2) = l1.
Proof. intros <-. apply take_app_length. Qed.

Lemma drop_app_len {A} (l1 l2 : list A) n : length l1 = n -> drop n (l1 ++ l2) = l2.
Proof. intros <-. apply drop_app_length. Qed.

Lemma drop_drop' {A} (l : list A) n m k : (n + m = k)%nat -> drop k l = drop m (drop n l).
Proof. intros <-. by rewrite drop_drop. Qed.

Lemma who_of_who_bytes p rest :
  who_typed p -> who_of_bytes (who_bytes p ++ rest) = Ret p.
Proof.
  intros [Hm Hv Hp Hi Hl Hc Hr]. unfold who_of_bytes.
  rewrite decide_True by (rewrite length_app, who_bytes_length; [lia|by split]).
  unfold who_bytes, who_body. rewrite <- !app_assoc.
  rewrite (drop_drop' _ 4 2 6), (drop_drop' _ 6 2 8), (drop_drop' _ 4 2 6), (drop_drop' _ 8 4 12),
    (drop_drop' _ 6 2 8), (drop_drop' _ 4 2 6), (drop_drop' _ 12 64 76), (drop_drop' _ 8 4 12),
    (drop_drop' _ 6 2 8), (drop_drop' _ 4 2 6) by done.
  repeat first [rewrite drop_app_len by (rewrite ?le_bytes_length; done)
               |rewrite take_app_len by (rewrite ?le_bytes_length; done)].
  rewrite !le_roundtrip by assumption. by destruct p.
Qed.

(** C22: the datagram is faithful: what a daemon reads from its bytes,
    whatever follows them in the buffer, is the structure that was sent; and
    distinct structures have distinct bytes. *)
Theorem who_roundtrip p rest :
  who_typed p ->
  who_of_bytes (who_bytes p ++ rest) = Ret p /\
  (forall q, who_typed q -> who_bytes p = who_bytes q -> p = q).
Proof.
  intros Hp. split; [by apply who_of_who_bytes|]. intros q Hq E.
  pose proof (who_of_who_bytes p [] Hp) as Rp. rewrite E, who_of_who_bytes in Rp by done. by injection Rp.
Qed.

Section discovery_facts.
Context (crc32_get : bytes -> Z) (fill : bytes -> bytes).
Hypothesis crc32_range : forall l, inU 32 (crc32_get l).
Hypothesis fill_length : forall l, length (fill l) = length l.
Hypothesis fill_bytes : forall l, Forall is_byte l -> Forall is_byte (fill l).

(** A project name that fits: the packet, field by field. *)
Lemma who_packet_fits prjName addr :
  (String.length (c_str prjName) < project_size)%nat -> inU 32 addr ->
  exists p tl, who_packet crc32_get fill prjName addr = Ret p /\ who_typed p /\
    w_masterIP p = addr /\ w_masterPort p = Global.tcpDefaultPort /\
    w_project p = bytes_of_string (c_str prjName) ++ 0 :: tl /\
    w_crc32 p = crc32_get (who_body p).
Proof.
  intros Hl Ha. unfold who_packet, strncpy_s. cbn -[replicate].
  rewrite decide_True by (rewrite bytes_of_string_length, length_replicate; exact Hl).
  cbn -[replicate]. do 2 eexists. split; [reflexivity|].
  set (tl := fill _).
  assert (Hbyte : Forall is_byte tl).
  { apply fill_bytes, Forall_drop, Forall_replicate. unfold is_byte. lia. }
  assert (Hlen : length (bytes_of_string (c_str prjName) ++ 0 :: tl) = project_size).
  { rewrite length_app. cbn [length]. subst tl.
    rewrite fill_length, length_drop, length_replicate, bytes_of_string_length. lia. }
  split; [|by repeat split].
  split; simpl; [done|done|done|done|done| |apply crc32_range].
  apply Forall_app. split; [apply bytes_of_string_byte|]. constructor; [unfold is_byte; lia|done].
Qed.

(** A name of 64 or more characters ends the console. *)
Lemma who_packet_long prjName addr :
  (project_size <= String.length (c_str prjName))%nat ->
  who_packet crc32_get fill prjName addr = UB.
Proof.
  intros Hl. unfold who_packet, strncpy_s. cbn -[replicate].
  rewrite decide_False; [done|]. rewrite bytes_of_string_length, length_replicate. lia.
Qed.

Lemma c_str_nul_free s : nul_free (c_str s).
Proof.
  assert (Hp : forall s p, c_str_prefix s = Some p -> nul_free p).
  { clear. induction s as [|a s IH]; intros p; simpl; [done|].
    destruct (Ascii.ascii_dec a Ascii.zero) as [|Ha]; [by intros [= <-]; constructor|].
    destruct (c_str_prefix s) as [q|]; [|done]. intros [= <-].
    unfold nul_free, bytes_of_string. csimpl. constructor; [|by apply IH].
    intros Hz. apply Ha. rewrite <- (ascii_of_chr a), Hz. done. }
  unfold c_str. destruct (c_str_prefix s) as [p|] eqn:E; [by eapply Hp|]. simpl.
  revert E. induction s as [|a s IH]; simpl; intros E; [constructor|].
  destruct (Ascii.ascii_dec a Ascii.zero) as [|Ha]; [done|].
  destruct (c_str_prefix s); [done|].
  unfold nul_free, bytes_of_string. csimpl. constructor; [|by apply IH].
  intros Hz. apply Ha. rewrite <- (ascii_of_chr a), Hz. done.
Qed.

Context (updSend : nat -> string -> Z -> bytes -> Z).

(** What interface [k] answers to the announcement of its address. *)
Definition interface_ok (prjName : string) (k : nat) (addr : Z) : Prop :=
  exists p, who_packet crc32_get fill prjName addr = Ret p /\
    updSend k Global.udpMulticastIp Global.udpDefaultPort (who_bytes p) = Z.of_nat sizeof_WhoIsHere.

Lemma broadcast_loop_spec k addresses prjName fault :
  (String.length (c_str prjName) < project_size)%nat -> Forall (inU 32) addresses ->
  0 <= fault -> fault + Z.of_nat (length addresses) < 2 ^ 64 ->
  exists fault', broadcast_loop crc32_get fill updSend k addresses prjName fault = Ret fault' /\
    fault <= fault' <= fault + Z.of_nat (length addresses) /\
    (fault' = fault <-> forall i addr, addresses !! i = Some addr -> interface_ok prjName (k + i) addr).
Proof.
  intros Hl. revert k fault. induction addresses as [|a l IH]; intros k fault Ha Hf Hb.
  { exists fault. split; [done|]. split; [simpl; lia|]. by split. }
  apply Forall_cons in Ha as [Ha Hrest]. cbn [broadcast_loop].
  destruct (who_packet_fits prjName a Hl Ha) as (p & tl & Ep & _). rewrite Ep. cbn [obind].
  set (sent := updSend k _ _ _). cbn [length] in Hb.
  set (fault1 := if negb _ then _ else fault).
  assert (H1' : fault1 = fault + if decide (sent = Z.of_nat sizeof_WhoIsHere) then 0 else 1).
  { subst fault1. destruct (Z.eqb_spec (Z.of_nat sizeof_WhoIsHere) sent); case_decide; simpl; try lia.
    apply wrapU_id. unfold inU. lia. }
  destruct (IH (S k) fault1 Hrest) as (fault' & -> & Hr & Hi); [case_decide; lia..|].
  exists fault'. split; [done|]. split; [cbn [length]; case_decide; lia|].
  case_decide as Hs.
  - rewrite H1', Z.add_0_r in Hi. rewrite Hi. split.
    + intros Hall [|i] addr Hlk; [|rewrite <- Nat.add_succ_comm; by apply Hall].
      injection Hlk as <-. rewrite Nat.add_0_r. by exists p.
    + intros Hall i addr Hlk. rewrite Nat.add_succ_comm. by apply (Hall (S i)).
  - split; [lia|]. intros Hall. exfalso.
    destruct (Hall O a eq_refl) as (q & Eq & Hq). rewrite Nat.add_0_r in Hq.
    apply Hs. subst sent. assert (p = q) as -> by congruence. exact Hq.
Qed.

(** Whatever the name and the addresses: the loop ends in undefined behaviour
    only over a name that does not fit, and counts no fault only when every
    interface has sent a whole datagram. *)
Lemma broadcast_loop_cases k addresses prjName fault :
  0 <= fault -> fault + Z.of_nat (length addresses) < 2 ^ 64 ->
  match broadcast_loop crc32_get fill updSend k addresses prjName fault with
  | Ret fault' => fault <= fault' /\
      (fault' = fault -> forall i addr, addresses !! i = Some addr -> interface_ok prjName (k + i) addr)
  | UB => (project_size <= String.length (c_str prjName))%nat
  | Throw _ => False
  end.
Proof.
  revert k fault. induction addresses as [|a l IH]; intros k fault Hf Hb; [done|].
  cbn [broadcast_loop length] in *. destruct (who_packet crc32_get fill prjName a) as [p|e|] eqn:Ep; cbn [obind].
  - set (fault1 := if negb _ then _ else fault).
    assert (H1' : fault <= fault1 /\ fault1 + Z.of_nat (length l) < 2 ^ 64 /\ (fault1 = fault -> interface_ok prjName k a)).
    { subst fault1. destruct (Z.eqb_spec (Z.of_nat sizeof_WhoIsHere)
        (updSend k Global.udpMulticastIp Global.udpDefaultPort (who_bytes p))) as [E|]; cbn [negb].
      - split; [lia|]. split; [lia|]. by exists p.
      - rewrite wrapU_id by (unfold inU; lia). lia. }
    destruct H1' as (Hle & Hlt & Hk). specialize (IH (S k) fault1 ltac:(lia) Hlt).
    destruct (broadcast_loop _ _ _ _ _ _ _) as [fault'| |]; [|done..]. destruct IH as [Hle' Hi].
    split; [lia|]. intros -> [|i] addr Hlk; simpl in Hlk.
    + injection Hlk as <-. rewrite Nat.add_0_r. apply Hk. lia.
    + rewrite <- Nat.add_succ_comm. apply Hi; [lia|done].
  - unfold who_packet, strncpy_s in Ep. by case_decide.
  - destruct (decide (project_size <= String.length (c_str prjName))%nat) as [|Hs]; [done|].
    unfold who_packet, strncpy_s in Ep. cbn -[replicate] in Ep.
    rewrite decide_True in Ep by (rewrite bytes_of_string_length, length_replicate; lia). done.
Qed.

Lemma sendBroadcast_cases localIps prjName :
  Z.of_nat (length localIps) < 2 ^ 64 ->
  match sendBroadcast crc32_get fill updSend localIps prjName with
  | Ret true => forall i addr, localIps !! i = Some addr -> interface_ok prjName i addr
  | Ret false => True
  | UB => (project_size <= String.length (c_str prjName))%nat
  | Throw _ => False
  end.
Proof.
  intros Hn. unfold sendBroadcast. pose proof (broadcast_loop_cases 0 localIps prjName 0 ltac:(lia) Hn) as Hc.
  destruct (broadcast_loop _ _ _ _ _ _ _) as [fault| |]; cbn [obind]; [|done..].
  destruct (Z.eqb_spec fault 0) as [->|]; [|done]. by apply Hc.
Qed.

(** For a project name that fits, announcing never fails to produce a
    packet and succeeds exactly when every interface has sent a whole
    datagram. *)
Lemma sendBroadcast_spec localIps prjName :
  (String.length (c_str prjName) < project_size)%nat -> Forall (inU 32) localIps ->
  Z.of_nat (length localIps) < 2 ^ 64 ->
  exists b, sendBroadcast crc32_get fill updSend localIps prjName = Ret b /\
    (b = true <-> forall i addr, localIps !! i = Some addr -> interface_ok prjName i addr).
Proof.
  intros Hl Ha Hn. unfold sendBroadcast.
  destruct (broadcast_loop_spec 0 localIps prjName 0) as (fault & -> & Hr & Hi); try done; try lia.
  exists (fault =? 0). split; [done|]. rewrite Z.eqb_eq. apply Hi.
Qed.
End discovery_facts.
