(* ===== verification/Daemon.v ===== *)
(** * The daemon ([daemon/udp_daemonserver.cpp], [daemon/daemon.cpp])

    [UdpDaemonServer] waits for announcements and owns at most one
    [TcpProtobufClient] at a time.  The client is seen through its
    connection state only; what it does is the subject of [Client.v]. *)

From Stdlib Require Import String.
From S2P Require Import Prelude Float32 CxxStd Bytes External Projects Discovery.
Local Open Scope string_scope.
Local Open Scope Z_scope.
Local Open Scope list_scope.

Inductive Status := Idle | Connectig | Working.

#[export] Instance Status_eq_dec : EqDecision Status.
Proof. solve_decision. Defined.

Record UdpDaemonServer (Q C : Type) := mkDaemon {
  d_status : Status;
  d_client : option C;
  d_node : Q;
}.
Arguments mkDaemon {Q C} _ _ _.
Arguments d_status {Q C} _.
Arguments d_client {Q C} _.
Arguments d_node {Q C} _.

(** What the successive calls of [isConnecting] and [isConnected] answer. *)
Record conn_obs := mkObs { o_connecting : bool; o_connected1 : bool; o_connected2 : bool }.

Section daemon.
Context {Q : Type} `{UdpNode Q} {C : Type}.
(** [ipToString], and the client after [run] and [connect] have been called. *)
Context (ipToString : Z -> string) (connect_client : string -> Z -> C).
Context (crc32_get : bytes -> Z) (threads : Z) (projects : Projects).
Implicit Types d : UdpDaemonServer Q C.

Definition Daemon_new (node : Q) : UdpDaemonServer Q C := mkDaemon Idle None node.

(** [doWork], after the base class has done its work. *)
Definition ud_doWork (obs : conn_obs) d : UdpDaemonServer Q C :=
  if bool_decide (d_status d = Idle) then d
  else
    match d_client d with
    | None => mkDaemon Idle None (d_node d)
    | Some client =>
        if o_connecting obs then d
        else if o_connected1 obs then
          if bool_decide (d_status d = Connectig) then mkDaemon Working (Some client) (d_node d)
          else d
        else if negb (o_connected2 obs) then mkDaemon Idle None (d_node d)
        else d
    end.

(** The tests on one datagram: [Some] is the job to connect to. *)
Definition consider (now : Z * Z) (data : bytes * Z) : outcome (option (string * Z)) :=
  let '(raw, addr) := data in
  do packet <- who_of_bytes raw;
  if negb (w_crc32 packet =? crc32_get (take 76 raw)) then Ret None
  else
    match c_string (w_project packet) with
    | None => UB
    | Some prjName =>
        if negb (bool_decide (is_Some (getProject projects prjName))) then Ret None
        else if negb (addr =? w_masterIP packet) then Ret None
        else
          let hostIp := ipToString (w_masterIP packet) in
          let hostPort := w_masterPort packet in
          do free <- getFreeCore threads now.1 now.2 projects;
          if free =? 0 then Ret None else Ret (Some (hostIp, hostPort))
    end.

Fixpoint ud_recv_loop (fuel : nat) (now : nat -> Z * Z) d : outcome (bool * UdpDaemonServer Q C) :=
  match fuel with
  | O => Ret (true, d)
  | S fuel =>
      if Nat.ltb 0 (countOfPackets (d_node d)) then
        if negb (bool_decide (d_status d = Idle)) then
          Ret (true, mkDaemon (d_status d) (d_client d) (clearPackets (d_node d)))
        else
          let '(data, node) := extractPacket (d_node d) in
          do job <- consider (now O) data;
          match job with
          | None => ud_recv_loop fuel (fun k => now (S k)) (mkDaemon (d_status d) (d_client d) node)
          | Some (hostIp, hostPort) =>
              ud_recv_loop fuel (fun k => now (S k))
                (mkDaemon Connectig (Some (connect_client hostIp hostPort)) (clearPackets node))
          end
      else Ret (true, d)
  end.

Definition ud_onRecvFromNode (now : nat -> Z * Z) d : outcome (bool * UdpDaemonServer Q C) :=
  ud_recv_loop (S (countOfPackets (d_node d))) now d.

(** ** The reference: the first acceptable announcement in the queue *)

Fixpoint drain (n : nat) (q : Q) : list (bytes * Z) * Q :=
  match n with
  | O => ([], q)
  | S n => let '(data, q) := extractPacket q in let '(l, q) := drain n q in (data :: l, q)
  end.

Fixpoint first_job (now : nat -> Z * Z) (l : list (bytes * Z)) : outcome (option (string * Z)) :=
  match l with
  | [] => Ret None
  | data :: l =>
      do job <- consider (now O) data;
      match job with Some j => Ret (Some j) | None => first_job (fun k => now (S k)) l end
  end.

(** A daemon has a client exactly while it is not idle. *)
Definition daemon_inv d : Prop := d_status d = Idle <-> d_client d = None.

Lemma recv_loop_empty fuel now d :
  countOfPackets (d_node d) = O -> ud_recv_loop fuel now d = Ret (true, d).
Proof. intros Hz. destruct fuel; [done|]. cbn [ud_recv_loop]. by rewrite Hz. Qed.

Lemma recv_loop_busy fuel now d :
  d_status d <> Idle -> (0 < countOfPackets (d_node d))%nat ->
  ud_recv_loop (S fuel) now d =
    Ret (true, mkDaemon (d_status d) (d_client d) (clearPackets (d_node d))).
Proof.
  intros Hs Hp. cbn [ud_recv_loop]. rewrite (proj2 (Nat.ltb_lt _ _)) by lia.
  by rewrite bool_decide_eq_false_2.
Qed.

Lemma recv_loop_idle fuel now d :
  d_status d = Idle -> (countOfPackets (d_node d) < fuel)%nat ->
  exists node', countOfPackets node' = O /\
  ud_recv_loop fuel now d =
    (do job <- first_job now (drain (countOfPackets (d_node d)) (d_node d)).1;
     Ret (true, match job with
                | None => mkDaemon Idle (d_client d) (drain (countOfPackets (d_node d)) (d_node d)).2
                | Some j => mkDaemon Connectig (Some (connect_client j.1 j.2)) node'
                end)).
Proof.
  remember (countOfPackets (d_node d)) as n eqn:En. revert fuel now d En.
  induction n as [|n IH]; intros fuel now d En Hs Hf.
  { exists (clearPackets (d_node d)). split; [apply udp_clear_count|]. cbn [drain fst snd].
    rewrite recv_loop_empty by done. simpl. rewrite <- Hs. by destruct d. }
  destruct fuel as [|fuel]; [lia|]. cbn [ud_recv_loop]. rewrite <- En. cbn [Nat.ltb Nat.leb].
  rewrite bool_decide_eq_true_2 by done. cbn [negb].
  pose proof (udp_extract_count (d_node d) ltac:(lia)) as Hx. cbn [drain].
  destruct (extractPacket (d_node d)) as [data node]. simpl in Hx.
  destruct (IH fuel (fun k => now (S k)) (mkDaemon (d_status d) (d_client d) node)) as (n1 & Hn1 & E1);
    [simpl; lia|done|lia|]. simpl in E1.
  destruct (drain n node) as [l q] eqn:Ed. cbn [fst snd first_job] in *.
  destruct (consider (now O) data) as [[[hostIp hostPort]|]| |]; cbn [obind].
  - exists (clearPackets node). split; [apply udp_clear_count|].
    rewrite recv_loop_empty by apply udp_clear_count. done.
  - by exists n1.
  - by exists n1.
  - by exists n1.
Qed.

Lemma ud_onRecv_cases now d :
  (d_status d <> Idle -> exists node, ud_onRecvFromNode now d = Ret (true, mkDaemon (d_status d) (d_client d) node)
     /\ countOfPackets node = O) /\
  (d_status d = Idle -> exists node', countOfPackets node' = O /\
     ud_onRecvFromNode now d =
       (do job <- first_job now (drain (countOfPackets (d_node d)) (d_node d)).1;
        Ret (true, match job with
                   | None => mkDaemon Idle (d_client d) (drain (countOfPackets (d_node d)) (d_node d)).2
                   | Some j => mkDaemon Connectig (Some (connect_client j.1 j.2)) node'
                   end))).
Proof.
  unfold ud_onRecvFromNode. split; intros Hs; [|apply recv_loop_idle; [done|lia]].
  destruct (decide (countOfPackets (d_node d) = O)) as [Hz|Hz].
  - exists (d_node d). rewrite recv_loop_empty by done. split; [by destruct d|done].
  - eexists. rewrite recv_loop_busy by (done || lia). split; [done|apply udp_clear_count].
Qed.

(** ** The state machine *)

Inductive daemon_step : UdpDaemonServer Q C -> UdpDaemonServer Q C -> Prop :=
| ds_work obs d : daemon_step d (ud_doWork obs d)
| ds_recv now d b d' : ud_onRecvFromNode now d = Ret (b, d') -> daemon_step d d'
| ds_traffic node d : daemon_step d (mkDaemon (d_status d) (d_client d) node).

(** The moves the status may make. *)
Definition status_move (a b : Status) : Prop :=
  match a, b with
  | Idle, Working | Working, Connectig => False
  | _, _ => True
  end.

Lemma daemon_step_inv d d' :
  daemon_inv d -> daemon_step d d' -> daemon_inv d' /\ status_move (d_status d) (d_status d') /\
    (d_status d <> Idle -> d_status d' <> Idle -> d_client d' = d_client d).
Proof.
  unfold daemon_inv. intros HI Hstep. revert HI.
  destruct Hstep as [obs d1|now d1 b d2 Hr|node d1]; intros HI.
  - unfold ud_doWork. case_bool_decide as Hs.
    { split; [done|]. split; [by rewrite Hs|done]. }
    destruct (d_client d1) as [c|] eqn:Ec; [|destruct HI as [_ HI]; by rewrite HI in Hs].
    destruct (o_connecting obs); [rewrite Ec; by destruct (d_status d1)|].
    destruct (o_connected1 obs).
    + case_bool_decide as Hc; simpl; rewrite ?Hc, ?Ec; [done|]. by destruct (d_status d1).
    + destruct (negb _); simpl; rewrite ?Ec; by destruct (d_status d1).
  - destruct (ud_onRecv_cases now d1) as [Hb Hi].
    destruct (decide (d_status d1 = Idle)) as [Hs|Hs].
    + destruct (Hi Hs) as (node & _ & E). rewrite E in Hr.
      apply obind_Ret_inv in Hr as (job & _ & Hr). injection Hr as <- <-.
      rewrite Hs. destruct job as [j|]; simpl; naive_solver.
    + destruct (Hb Hs) as (node & E & _). rewrite E in Hr. injection Hr as <- <-. simpl.
      split; [done|]. split; [by destruct (d_status d1)|done].
  - simpl. split; [done|]. split; [by destruct (d_status d1)|done].
Qed.
(** Handling the datagrams of a daemon.  A busy daemon drops them all and
    keeps its client; an idle one starts exactly one client, for the first
    announcement that passes the tests, and drops those behind it; without an
    acceptable one it stays idle.  The call always ends, and unless a test is
    undefined it reports success. *)
Lemma ud_onRecv_spec now d :
  (d_status d <> Idle -> exists node, ud_onRecvFromNode now d = Ret (true, mkDaemon (d_status d) (d_client d) node)
     /\ countOfPackets node = O) /\
  (d_status d = Idle -> exists node', countOfPackets node' = O /\
     ud_onRecvFromNode now d =
       (do job <- first_job now (drain (countOfPackets (d_node d)) (d_node d)).1;
        Ret (true, match job with
                   | None => mkDaemon Idle (d_client d) (drain (countOfPackets (d_node d)) (d_node d)).2
                   | Some j => mkDaemon Connectig (Some (connect_client j.1 j.2)) node'
                   end))).
Proof. apply ud_onRecv_cases. Qed.
End daemon.

(** ** The theorems *)

Section daemon_facts.
Context {Q : Type} `{UdpNode Q} {C : Type}.
Context (ipToString : Z -> string) (connect_client : string -> Z -> C).
Context (crc32_get : bytes -> Z) (threads : Z) (projects : Projects).
Implicit Types d : UdpDaemonServer Q C.

Abbreviation step := (daemon_step ipToString connect_client crc32_get threads projects).
Abbreviation consider' := (consider ipToString crc32_get threads projects).
Abbreviation receive := (ud_onRecvFromNode ipToString connect_client crc32_get threads projects).

(** C21: in every reachable state the daemon has a client exactly while it is
    not idle, so the branch that resets a busy daemon without a client is
    dead; the status only moves from idle to connecting, from there to working
    or back to idle, and from working to idle; and while it stays busy the
    client is the same object. *)
Theorem daemon_machine node d d' :
  reachable (fun d0 => d0 = Daemon_new node) step d -> step d d' ->
  daemon_inv d /\ daemon_inv d' /\ status_move (d_status d) (d_status d') /\
  (d_status d <> Idle -> d_status d' <> Idle -> d_client d' = d_client d).
Proof.
  intros Hd Hs. assert (HI : daemon_inv d).
  { revert d Hd Hs. intros d Hd _. revert d Hd. apply reachable_inv.
    - by intros d0 ->.
    - intros d1 d2 HI1 Hs1. by destruct (daemon_step_inv _ _ _ _ _ _ _ HI1 Hs1). }
  split; [done|]. by destruct (daemon_step_inv _ _ _ _ _ _ _ HI Hs).
Qed.

(** A datagram that is shorter than the structure is read past its end. *)
Lemma short_datagram_undefined now raw addr :
  (length raw < sizeof_WhoIsHere)%nat -> consider' now (raw, addr) = UB.
Proof. intros Hl. simpl. unfold who_of_bytes. rewrite decide_False by lia. done. Qed.

(** The magic number and the version of an announcement are not looked at:
    any that carries a matching check sum is treated alike. *)
Lemma consider_ignores_magic now p q rest1 rest2 addr :
  who_typed p -> who_typed q ->
  w_project p = w_project q -> w_masterIP p = w_masterIP q -> w_masterPort p = w_masterPort q ->
  w_crc32 p = crc32_get (who_body p) -> w_crc32 q = crc32_get (who_body q) ->
  consider' now (who_bytes p ++ rest1, addr) = consider' now (who_bytes q ++ rest2, addr).
Proof.
  intros Hp Hq Epr Eip Eport Cp Cq. unfold consider. rewrite !who_of_who_bytes by done. cbn [obind].
  unfold who_bytes. rewrite <- !app_assoc, !take_app_len by (by apply who_body_length).
  by rewrite Cp, Cq, !Z.eqb_refl, Epr, Eip, Eport.
Qed.

Section fits.
Context (fill : bytes -> bytes).
Hypothesis crc32_range : forall l, inU 32 (crc32_get l).
Hypothesis fill_length : forall l, length (fill l) = length l.
Hypothesis fill_bytes : forall l, Forall is_byte l -> Forall is_byte (fill l).

(** The verdict on a datagram of the console. *)
Lemma consider_announcement now prjName addr rest :
  (String.length (c_str prjName) < project_size)%nat -> inU 32 addr ->
  exists p, who_packet crc32_get fill prjName addr = Ret p /\
    consider' now (who_bytes p ++ rest, addr) =
      match getProject projects (c_str prjName) with
      | None => Ret None
      | Some _ =>
          do free <- getFreeCore threads now.1 now.2 projects;
          if free =? 0 then Ret None
          else Ret (Some (ipToString addr, Global.tcpDefaultPort))
      end.
Proof.
  intros Hl Ha.
  destruct (who_packet_fits crc32_get fill crc32_range fill_length fill_bytes prjName addr Hl Ha)
    as (p & tl & Ep & Ht & Hip & Hport & Hprj & Hcrc).
  exists p. split; [exact Ep|]. unfold consider. rewrite who_of_who_bytes by done. cbn [obind].
  unfold who_bytes. rewrite <- app_assoc, take_app_len by (by apply who_body_length).
  rewrite Hcrc, Z.eqb_refl. cbn [negb].
  rewrite Hprj, c_string_app by apply c_str_nul_free.
  unfold getProject. destruct (m_items projects !! c_str prjName) as [i|]; simpl; [|done].
  by rewrite Hip, Hport, Z.eqb_refl.
Qed.

(** C11: discovery end to end.  An idle daemon with a free core that knows the
    project and receives, as its first datagram, the console's announcement
    from the interface it names, connects to that interface at the console's
    TCP port. *)
Theorem discovery_connects now d prjName addr rest free :
  (String.length (c_str prjName) < project_size)%nat -> inU 32 addr ->
  is_Some (getProject projects (c_str prjName)) ->
  getFreeCore threads (now O).1 (now O).2 projects = Ret free -> free <> 0 ->
  d_status d = Idle -> (0 < countOfPackets (d_node d))%nat ->
  exists p, who_packet crc32_get fill prjName addr = Ret p /\
    ((extractPacket (d_node d)).1 = (who_bytes p ++ rest, addr) ->
     exists node, receive now d = Ret (true, mkDaemon Connectig
       (Some (connect_client (ipToString addr) Global.tcpDefaultPort)) node) /\
       countOfPackets node = O).
Proof.
  intros Hl Ha [i Hi] Hfree Hnz Hs Hn.
  destruct (consider_announcement (now O) prjName addr rest Hl Ha) as (p & Ep & Ec).
  exists p. split; [exact Ep|]. intros Ex. unfold ud_onRecvFromNode.
  destruct (recv_loop_idle ipToString connect_client crc32_get threads projects
              (S (countOfPackets (d_node d))) now d Hs ltac:(lia)) as (node & Hz & ->).
  exists node. split; [|exact Hz].
  destruct (countOfPackets (d_node d)) as [|n]; [lia|]. cbn [drain].
  destruct (extractPacket (d_node d)) as [data q]. cbn [fst] in Ex. subst data.
  destruct (drain n q) as [l q']. cbn [fst first_job]. rewrite Ec, Hi, Hfree. cbn [obind].
  destruct (Z.eqb_spec free 0); [done|]. reflexivity.
Qed.
End fits.
End daemon_facts.

(** ** [main] of the daemon *)

(** What [main] does to the world, in order. *)
Inductive daemon_event := EvLoadProjects | EvInitWinSock | EvCreateWindow | EvUdpStart | EvUdpClose.

#[export] Instance daemon_event_eq_dec : EqDecision daemon_event.
Proof. solve_decision. Defined.

(** The exit code and the events: [loaded] is what [loadFromFile] answers
    and [winsock] what [initWinSock2] does; the window thread runs until it
    is joined. *)
Definition daemon_main (configFile : string) (loaded : outcome (bool * Projects)) (winsock : bool)
    : outcome (Z * list daemon_event) :=
  if empty configFile then Ret (0, [])
  else
    do (ok, projects) <- loaded;
    if negb ok then Ret (1, [EvLoadProjects])
    else if negb winsock then Ret (1, [EvLoadProjects; EvInitWinSock])
    else Ret (0, [EvLoadProjects; EvInitWinSock; EvCreateWindow; EvUdpStart; EvUdpClose]).

(** A server that has been started is closed again, and it is started only
    with a registry that has been loaded. *)
Lemma daemon_main_served configFile loaded winsock code evs :
  daemon_main configFile loaded winsock = Ret (code, evs) -> EvUdpStart ∈ evs ->
  code = 0 /\ winsock = true /\ (exists ps, loaded = Ret (true, ps)) /\ last evs = Some EvUdpClose.
Proof.
  unfold daemon_main. destruct (empty configFile); [intros [= <- <-] Hin; set_solver|].
  destruct loaded as [[ok ps]| |]; simpl; [|done|done].
  destruct ok; simpl; [|intros [= <- <-]; set_solver].
  destruct winsock; simpl; intros [= <- <-]; [|set_solver]. intros _. eauto 10.
Qed.

(** ** Witnesses *)

Module Toy_daemon.
Definition crc (l : bytes) : Z := u32 (foldr (fun b a => 31 * a + b) 7 l).
Definition fill (l : bytes) : bytes := l.
Definition addr : Z := 0x0100a8c0.
Definition packet : WhoIsHere :=
  match who_packet crc fill "game" addr with Ret p => p | _ => WhoIsHere_init end.
Definition queue : list (bytes * Z) := [(who_bytes packet ++ [1; 2; 3], addr); ([], 0)].
Definition idle : UdpDaemonServer (list (bytes * Z)) (string * Z) := Daemon_new queue.
Definition projects : Projects := Toy_config.result.
Definition show (ip : Z) : string := if ip =? addr then "192.168.0.1" else "?".

Lemma crc_range l : inU 32 (crc l).
Proof. by apply wrapU_range. Qed.
End Toy_daemon.

Lemma daemon_machine_witness :
  daemon_inv Toy_daemon.idle /\
  daemon_inv (mkDaemon Connectig (Some ("192.168.0.1", 1290)) ([] : list (bytes * Z))).
Proof.
  destruct (daemon_machine Toy_daemon.show pair Toy_daemon.crc 16 Toy_daemon.projects
    Toy_daemon.queue Toy_daemon.idle
    (mkDaemon Connectig (Some ("192.168.0.1", 1290)) [])) as (HI & HI' & _).
  - by apply reach_init.
  - apply (ds_recv _ _ _ _ _ (fun _ => (10, 0)) _ true). vm_compute. reflexivity.
  - split; [exact HI|exact HI'].
Defined.

Lemma discovery_connects_witness :
  exists node,
    ud_onRecvFromNode Toy_daemon.show pair Toy_daemon.crc 16 Toy_daemon.projects
      (fun _ => (10, 0)) Toy_daemon.idle =
    Ret (true, mkDaemon Connectig (Some ("192.168.0.1", 1290)) node) /\ countOfPackets node = O.
Proof.
  destruct (discovery_connects Toy_daemon.show pair Toy_daemon.crc 16 Toy_daemon.projects
    Toy_daemon.fill Toy_daemon.crc_range (fun _ => eq_refl) (fun _ Hl => Hl)
    (fun _ => (10, 0)) Toy_daemon.idle "game" Toy_daemon.addr [1; 2; 3] 13) as (p & Ep & Hp).
  - vm_compute. lia.
  - vm_compute. split; [discriminate|reflexivity].
  - exists (mkItem "game" "d:\b" "C:\Windows\Temp\"). vm_compute. reflexivity.
  - vm_compute. reflexivity.
  - discriminate.
  - reflexivity.
  - vm_compute. lia.
  - apply Hp. injection Ep as <-. vm_compute. reflexivity.
Defined.
