(* ===== verification/Window.v ===== *)
(** * The daemon's notification window ([daemon/window.cpp])

    The tray icon with its menu: [WindowProc] and the message loop of
    [createWindow].  Drawing is the system's business; the model keeps the
    icon, the menus that were created and the flag that ends the loop. *)

From Stdlib Require Import String.
From S2P Require Import Prelude.
Local Open Scope string_scope.
Local Open Scope Z_scope.
Local Open Scope list_scope.

Definition WM_CREATE : Z := 0x0001.
Definition WM_COMMAND : Z := 0x0111.
Definition WM_RBUTTONUP : Z := 0x0205.
Definition WM_USER : Z := 0x0400.
Definition WM_FDB_NOTIFYMESSAGE : Z := WM_USER + 1.
Definition ID_TASK_ICON : Z := 100.
Definition ID_MENU_ITEM_NAME : Z := 101.
Definition ID_MENU_ITEM_SEP : Z := 102.
Definition ID_MENU_ITEM_EXIT : Z := 103.

(** [LOWORD]. *)
Definition LOWORD (w : Z) : Z := wrapU 16 w.

Record win_state := mkWin {
  g_appName : string;
  g_finish : bool;
  (** The icon in the notification area with its hint. *)
  icon : option string;
  (** Popup menus, each with its items, newest last. *)
  menus : list (list (Z * string));
}.

Definition win_init : win_state := mkWin "app name" false None [].

Definition createNotifyIcon (hint : string) (s : win_state) : win_state :=
  mkWin (g_appName s) (g_finish s) (Some hint) (menus s).
Definition deleteNotifyIcon (s : win_state) : win_state :=
  mkWin (g_appName s) (g_finish s) None (menus s).
Definition changeNotifyIconHint (hint : string) (s : win_state) : win_state :=
  mkWin (g_appName s) (g_finish s) ((fun _ => hint) <$> icon s) (menus s).
Definition showMenu (s : win_state) : win_state :=
  let menu := [(ID_MENU_ITEM_NAME, g_appName s); (ID_MENU_ITEM_SEP, ""); (ID_MENU_ITEM_EXIT, "Exit")] in
  mkWin (g_appName s) (g_finish s) (icon s) (menus s ++ [menu]).

(** A message. *)
Record MSG := mkMSG { m_msg : Z; m_wParam : Z; m_lParam : Z }.

Section window.
(** [DefWindowProc]. *)
Context (DefWindowProc : MSG -> Z).

Definition WindowProc (m : MSG) (s : win_state) : Z * win_state :=
  if m_msg m =? WM_CREATE then (0, s)
  else if m_msg m =? WM_FDB_NOTIFYMESSAGE then
    if m_lParam m =? WM_RBUTTONUP then (0, showMenu s) else (DefWindowProc m, s)
  else if m_msg m =? WM_COMMAND then
    if (m_lParam m =? 0) && (LOWORD (m_wParam m) =? ID_MENU_ITEM_EXIT)
    then (0, mkWin (g_appName s) true (icon s) (menus s)) else (0, s)
  else (DefWindowProc m, s).

(** What [GetMessage] returns: [None] ends the program's messages (0), and
    [Some (Some m)] is a message; [Some None] is an error (-1), after which
    the loop goes on with the message it had. *)
Fixpoint message_loop (script : list (option (option MSG))) (last : option MSG) (s : win_state)
    : win_state :=
  match script with
  | [] | None :: _ => s
  | Some om :: rest =>
      let cur := match om with Some m => Some m | None => last end in
      let s := match cur with Some m => (WindowProc m s).2 | None => s end in
      if g_finish s then s else message_loop rest cur s
  end.

Definition createWindow (winName : string) (registered created : bool)
    (script : list (option (option MSG))) (s : win_state) : win_state :=
  if negb registered then s
  else
    let s := mkWin winName (g_finish s) (icon s) (menus s) in
    if negb created then s
    else deleteNotifyIcon (message_loop script None (createNotifyIcon winName s)).

(** The exit command, and nothing else, raises the flag. *)
Lemma WindowProc_finish m s :
  g_finish s = false ->
  g_finish (WindowProc m s).2 = true <->
  m_msg m = WM_COMMAND /\ m_lParam m = 0 /\ LOWORD (m_wParam m) = ID_MENU_ITEM_EXIT.
Proof.
  intros Hs. unfold WindowProc.
  destruct (Z.eqb_spec (m_msg m) WM_CREATE) as [E1|_]; [simpl; rewrite Hs, E1; split; [done|intros [Hm _]; discriminate Hm]|].
  destruct (Z.eqb_spec (m_msg m) WM_FDB_NOTIFYMESSAGE) as [E2|_].
  { rewrite E2. destruct (_ =? _); simpl; rewrite Hs; (split; [done|intros [Hm _]; discriminate Hm]). }
  destruct (Z.eqb_spec (m_msg m) WM_COMMAND) as [E3|N3]; [|simpl; rewrite Hs; naive_solver].
  destruct (Z.eqb_spec (m_lParam m) 0), (Z.eqb_spec (LOWORD (m_wParam m)) ID_MENU_ITEM_EXIT);
    simpl; rewrite ?Hs; naive_solver.
Qed.

(** Whatever happens in the loop, no icon is left behind. *)
Lemma createWindow_icon winName registered created script s :
  icon s = None -> icon (createWindow winName registered created script s) = None.
Proof. unfold createWindow. by destruct registered, created. Qed.

(** The loop returns at the exit command, before it looks at what follows. *)
Lemma message_loop_exit pre m rest last s :
  g_finish s = false ->
  (forall k, k ∈ pre -> exists x, k = Some (Some x) /\ m_msg x <> WM_COMMAND) ->
  m_msg m = WM_COMMAND -> m_lParam m = 0 -> LOWORD (m_wParam m) = ID_MENU_ITEM_EXIT ->
  message_loop (pre ++ Some (Some m) :: rest) last s = message_loop (pre ++ [Some (Some m)]) last s /\
  g_finish (message_loop (pre ++ Some (Some m) :: rest) last s) = true.
Proof.
  intros Hs Hpre Em El Ew. revert last s Hs. induction pre as [|k pre IH]; intros last s Hs.
  - cbn [app message_loop].
    assert (E : g_finish (WindowProc m s).2 = true) by (by apply WindowProc_finish). by rewrite !E.
  - destruct (Hpre k) as (x & -> & Hx); [by left|]. cbn [app message_loop].
    destruct (g_finish (WindowProc x s).2) eqn:E; [by apply WindowProc_finish in E as [? _]|].
    apply IH; [|done]. intros j Hj. apply Hpre. by right.
Qed.
End window.
