(* ===== verification/Console.v ===== *)
(** * The console ([main] of [console/console.cpp])

    The monitoring loop runs beside the server's thread; each task is looked
    at under its own lock, so the loop is a sequence of steps, one per task,
    which the server's handlers may interleave ([Locks] goes down to their
    critical sections).  [main] around it is the function [console_main]. *)

From Stdlib Require Import String.
From S2P Require Import Prelude CxxStd External Process Projects Messages Tasks Server Schedule.
Local Open Scope string_scope.
Local Open Scope Z_scope.
Local Open Scope list_scope.

Record ItemSlaveInfo := mkSlave { m_success : Z; m_errors : Z }.

Abbreviation info_map := (gmap string ItemSlaveInfo).

(** [++info[ip].m_errors] and [++info[ip].m_success]; the subscript creates
    a missing entry. *)
Definition slave_of (ip : string) (info : info_map) : ItemSlaveInfo := default (mkSlave 0 0) (info !! ip).
Definition count_error (ip : string) (info : info_map) : info_map :=
  let v := slave_of ip info in <[ip := mkSlave (m_success v) (u64 (m_errors v + 1))]> info.
Definition count_success (ip : string) (info : info_map) : info_map :=
  let v := slave_of ip info in <[ip := mkSlave (u64 (m_success v + 1)) (m_errors v)]> info.

Inductive phase := Top | Pass | Finished | TimedOut.

#[export] Instance phase_eq_dec : EqDecision phase.
Proof. solve_decision. Defined.

Record Monitor := mkMonitor {
  mo_phase : phase;
  mo_index : nat;
  mo_isFinished : bool;
  mo_info : info_map;
  mo_countError : Z;
  mo_countSuccess : Z;
}.

Definition Monitor_init : Monitor := mkMonitor Top 0 false ∅ 0 0.

Section console.
Context `{ExitCodes}.

(** The body of the loop over the tasks. *)
Definition note_task (task : TaskInfo) (info : info_map) (isFinished : bool)
    : TaskInfo * info_map * bool :=
  if m_result task =? NoInit then (task, info, false)
  else if empty (m_doneIp task) then (task, info, isFinished)
  else
    let info := if m_result task =? NotStarted then count_error (m_doneIp task) info else info in
    let info :=
      if m_result task =? Exited then
        if negb (m_exitCode task =? 0) then count_error (m_doneIp task) info
        else count_success (m_doneIp task) info
      else info in
    (set_doneIp "" task, info, isFinished).

(** The loop that adds up the map, in the map's order. *)
Definition totals (info : info_map) : Z * Z :=
  map_fold (fun _ value a => (u64 (a.1 + m_errors value), u64 (a.2 + m_success value))) (0, 0) info.

(** A whole pass that nothing interrupts. *)
Fixpoint note_all (tasks : list TaskInfo) (info : info_map) (isFinished : bool)
    : list TaskInfo * info_map * bool :=
  match tasks with
  | [] => ([], info, isFinished)
  | task :: rest =>
      let '(task, info, isFinished) := note_task task info isFinished in
      let '(rest, info, isFinished) := note_all rest info isFinished in
      (task :: rest, info, isFinished)
  end.
End console.

(** ** The loop beside the server *)

Section monitor.
Context {N : Type} `{PacketNode N} {F : Type} `{FileSystem F} `{ExitCodes}.
Context `{MessageCodec MPacket} `{MessageCodec SPacket}.
Context (fullId : NodeId -> string).
Implicit Types (s : Server N F) (t : TaskInfo) (m : Monitor) (info : info_map).

(** The timer is restarted at the top of the loop while there are clients,
    so it can be found expired only without any. *)
Inductive monitor_step : Server N F * Monitor -> Server N F * Monitor -> Prop :=
| mon_timeout s m :
    mo_phase m = Top -> sv_clients s = [] ->
    monitor_step (s, m)
      (s, mkMonitor TimedOut (mo_index m) (mo_isFinished m) (mo_info m) (mo_countError m) (mo_countSuccess m))
| mon_begin s m :
    mo_phase m = Top ->
    monitor_step (s, m) (s, mkMonitor Pass 0 true (mo_info m) (mo_countError m) (mo_countSuccess m))
| mon_task s m t t' info fin :
    mo_phase m = Pass -> sv_tasks s !! mo_index m = Some t ->
    note_task t (mo_info m) (mo_isFinished m) = (t', info, fin) ->
    monitor_step (s, m)
      (set_tasks (<[mo_index m := t']> (sv_tasks s)) s,
       mkMonitor Pass (S (mo_index m)) fin info (mo_countError m) (mo_countSuccess m))
| mon_end s m :
    mo_phase m = Pass -> sv_tasks s !! mo_index m = None ->
    monitor_step (s, m)
      (s, mkMonitor (if mo_isFinished m then Finished else Top) (mo_index m) (mo_isFinished m)
            (mo_info m) (totals (mo_info m)).1 (totals (mo_info m)).2).

Inductive con_step : Server N F * Monitor -> Server N F * Monitor -> Prop :=
| con_server s s' m : server_step fullId s s' -> con_step (s, m) (s', m)
| con_monitor sm sm' : monitor_step sm sm' -> con_step sm sm'.

(** ** Counting *)

Definition failed t : bool :=
  (m_result t =? NotStarted) || ((m_result t =? Exited) && negb (m_exitCode t =? 0)).
Definition succeeded t : bool := (m_result t =? Exited) && (m_exitCode t =? 0).

(** A finished task the main thread has taken note of. *)
Definition noted t : bool := negb (m_result t =? NoInit) && empty (m_doneIp t).

Definition count (P : TaskInfo -> bool) (l : list TaskInfo) : nat := length (filter (fun t => P t = true) l).

Definition sum_of (f : ItemSlaveInfo -> Z) info : Z := map_fold (fun _ v a => a + f v) 0 info.

Lemma sum_of_insert f k v info :
  sum_of f (<[k := v]> info) =
    sum_of f info + f v - match info !! k with Some w => f w | None => 0 end.
Proof.
  assert (Hnew : forall w : info_map, w !! k = None -> sum_of f (<[k := v]> w) = sum_of f w + f v).
  { intros w Hw. unfold sum_of. rewrite map_fold_insert_L; [done|intros; lia|done]. }
  destruct (info !! k) as [w|] eqn:E; [|rewrite Hnew by done; lia].
  assert (Hd : sum_of f info = sum_of f (delete k info) + f w).
  { unfold sum_of. rewrite (map_fold_delete_L _ _ k w info); [done|intros; lia|done]. }
  rewrite <- insert_delete_eq, Hnew, Hd by apply lookup_delete_eq. lia.
Qed.

Lemma totals_sums info :
  totals info = (u64 (sum_of m_errors info), u64 (sum_of m_success info)).
Proof.
  unfold totals, sum_of.
  apply (map_fold_weak_ind (fun (r : Z * Z) w => r =
    (u64 (map_fold (fun _ v a => a + m_errors v) 0 w), u64 (map_fold (fun _ v a => a + m_success v) 0 w)))).
  - by rewrite !map_fold_empty.
  - intros k v w r Hk ->. simpl.
    rewrite !map_fold_insert_L by (done || intros; lia).
    unfold wrapU. by rewrite !Zplus_mod_idemp_l.
Qed.

Lemma count_insert P l i t t' :
  l !! i = Some t ->
  Z.of_nat (count P (<[i := t']> l)) =
    Z.of_nat (count P l) + (if P t' then 1 else 0) - (if P t then 1 else 0).
Proof.
  intros Hi. unfold count. revert i Hi. induction l as [|a l IH]; intros [|i] Hi; [done..| |].
  - injection Hi as ->. simpl. rewrite !filter_cons.
    destruct (P t) eqn:Et, (P t') eqn:Et'; repeat case_decide; simpl; try done; lia.
  - simpl. rewrite !filter_cons. specialize (IH i Hi).
    case_decide; simpl; lia.
Qed.

Lemma count_le P l : (count P l <= length l)%nat.
Proof. apply length_filter. Qed.

(** What the server does leaves the noted tasks as they are and notes none. *)
Lemma evolves_noted (P : TaskInfo -> bool) t t' :
  (forall n, fullId n <> "") ->
  evolves fullId t t' -> noted t' && P t' = noted t && P t.
Proof.
  intros Hid [_ [->|[Hn [Hn'|[n Hip]]]]]; [done| |]; unfold noted; rewrite Hn, ?Hn', Z.eqb_refl; [done|].
  rewrite Hip. destruct (fullId n) eqn:E; [by destruct (Hid n)|]. simpl. by rewrite andb_false_r.
Qed.

Lemma evolve_count P l l' :
  (forall n, fullId n <> "") -> Forall2 (evolves fullId) l l' ->
  count (fun t => noted t && P t) l' = count (fun t => noted t && P t) l.
Proof.
  intros Hid. induction 1 as [|t t' l l' Ht Hl IH]; [done|]. unfold count in *. rewrite !filter_cons.
  pose proof (evolves_noted P t t' Hid Ht) as E. repeat case_decide; simpl; congruence.
Qed.

(** ** The invariant of the two threads *)

Record con_inv (n : nat) (sm : Server N F * Monitor) : Prop := {
  cn_server : server_inv sm.1;
  cn_length : length (sv_tasks sm.1) = n;
  (** The map counts exactly the noted tasks. *)
  cn_errors : sum_of m_errors (mo_info sm.2) = Z.of_nat (count (fun t => noted t && failed t) (sv_tasks sm.1));
  cn_success : sum_of m_success (mo_info sm.2) = Z.of_nat (count (fun t => noted t && succeeded t) (sv_tasks sm.1));
  cn_range ip v : mo_info sm.2 !! ip = Some v -> 0 <= m_errors v /\ 0 <= m_success v;
  (** While the flag stands, every task passed so far is noted. *)
  cn_index : (mo_index sm.2 <= n)%nat;
  cn_prefix : mo_isFinished sm.2 = true ->
    forall i t, (i < mo_index sm.2)%nat -> sv_tasks sm.1 !! i = Some t -> noted t = true;
  cn_finished : mo_phase sm.2 = Finished ->
    mo_isFinished sm.2 = true /\ mo_index sm.2 = n /\
    mo_countError sm.2 = Z.of_nat (count (fun t => noted t && failed t) (sv_tasks sm.1)) /\
    mo_countSuccess sm.2 = Z.of_nat (count (fun t => noted t && succeeded t) (sv_tasks sm.1));
}.

Lemma sum_of_nonneg f info : (forall ip v, info !! ip = Some v -> 0 <= f v) -> 0 <= sum_of f info.
Proof.
  induction info as [|k v info Hk IH] using map_ind; intros Hf; [done|].
  rewrite sum_of_insert, Hk. pose proof (Hf k v (lookup_insert_eq _ _ _)).
  enough (0 <= sum_of f info) by lia. apply IH. intros ip u Hu. apply (Hf ip u).
  rewrite lookup_insert_ne; [done|]. intros ->. congruence.
Qed.

Lemma sum_of_ge f info ip v :
  (forall ip v, info !! ip = Some v -> 0 <= f v) -> info !! ip = Some v -> f v <= sum_of f info.
Proof.
  intros Hf Hi. pose proof (sum_of_nonneg f (delete ip info)) as Hd.
  pose proof (sum_of_insert f ip v (delete ip info)) as E.
  rewrite lookup_delete_eq, insert_delete_id in E by done.
  enough (0 <= sum_of f (delete ip info)) by lia. apply Hd.
  intros k u Hu%lookup_delete_Some. naive_solver.
Qed.

Lemma slave_of_le f ip info :
  f (mkSlave 0 0) = 0 -> (forall ip v, info !! ip = Some v -> 0 <= f v) ->
  0 <= f (slave_of ip info) <= sum_of f info /\
  match info !! ip with Some w => f w | None => 0 end = f (slave_of ip info).
Proof.
  intros H0' Hf. unfold slave_of. destruct (info !! ip) as [v|] eqn:E; simpl.
  - split; [|done]. split; [by eapply Hf|by eapply sum_of_ge].
  - rewrite H0'. pose proof (sum_of_nonneg f info Hf). lia.
Qed.

(** The case of [note_task] in which a task is counted. *)
Lemma note_task_spec t info fin :
  note_task t info fin =
    if m_result t =? NoInit then (t, info, false)
    else if noted t then (t, info, fin)
    else (set_doneIp "" t,
          if failed t then count_error (m_doneIp t) info
          else if succeeded t then count_success (m_doneIp t) info else info, fin).
Proof.
  destruct exit_codes_distinct as (_ & _ & Hne). unfold note_task, noted, failed, succeeded.
  destruct (m_result t =? NoInit); [done|]. simpl. destruct (empty (m_doneIp t)); [done|].
  destruct (Z.eqb_spec (m_result t) NotStarted) as [E|E]; simpl.
  - destruct (Z.eqb_spec (m_result t) Exited); [congruence|done].
  - destruct (m_result t =? Exited); simpl; [|done]. by destruct (m_exitCode t =? 0).
Qed.

Definition nonneg info : Prop := forall ip v, info !! ip = Some v -> 0 <= m_errors v /\ 0 <= m_success v.

Lemma nonneg_insert ip a b info :
  nonneg info -> 0 <= a -> 0 <= b -> nonneg (<[ip := mkSlave a b]> info).
Proof.
  intros Hn Ha Hb k v. destruct (decide (ip = k)) as [->|Hne].
  - rewrite lookup_insert_eq. intros [= <-]. done.
  - rewrite lookup_insert_ne by done. apply Hn.
Qed.

Lemma count_error_sums ip info :
  nonneg info -> sum_of m_errors info + 1 < 2 ^ 64 ->
  sum_of m_errors (count_error ip info) = sum_of m_errors info + 1 /\
  sum_of m_success (count_error ip info) = sum_of m_success info /\ nonneg (count_error ip info).
Proof.
  intros Hn Hb.
  destruct (slave_of_le m_errors ip info eq_refl) as [He He']; [intros; by eapply Hn|].
  destruct (slave_of_le m_success ip info eq_refl) as [Hs Hs']; [intros; by eapply Hn|].
  unfold count_error. rewrite !sum_of_insert, He', Hs'. simpl.
  rewrite wrapU_id by (unfold inU; lia).
  split; [lia|]. split; [lia|]. apply nonneg_insert; [done|lia..].
Qed.

Lemma count_success_sums ip info :
  nonneg info -> sum_of m_success info + 1 < 2 ^ 64 ->
  sum_of m_success (count_success ip info) = sum_of m_success info + 1 /\
  sum_of m_errors (count_success ip info) = sum_of m_errors info /\ nonneg (count_success ip info).
Proof.
  intros Hn Hb.
  destruct (slave_of_le m_errors ip info eq_refl) as [He He']; [intros; by eapply Hn|].
  destruct (slave_of_le m_success ip info eq_refl) as [Hs Hs']; [intros; by eapply Hn|].
  unfold count_success. rewrite !sum_of_insert, He', Hs'. simpl.
  rewrite wrapU_id by (unfold inU; lia).
  split; [lia|]. split; [lia|]. apply nonneg_insert; [done|lia..].
Qed.

(** Taking note of a task keeps map and list in step. *)
Lemma note_counts t t' info info' fin fin' i l :
  l !! i = Some t -> note_task t info fin = (t', info', fin') -> nonneg info ->
  Z.of_nat (length l) < 2 ^ 64 - 1 ->
  sum_of m_errors info = Z.of_nat (count (fun t => noted t && failed t) l) ->
  sum_of m_success info = Z.of_nat (count (fun t => noted t && succeeded t) l) ->
  nonneg info' /\
  sum_of m_errors info' = Z.of_nat (count (fun t => noted t && failed t) (<[i := t']> l)) /\
  sum_of m_success info' = Z.of_nat (count (fun t => noted t && succeeded t) (<[i := t']> l)).
Proof.
  intros Hi Hnote Hn Hlen He Hs.
  pose proof (count_le (fun t => noted t && failed t) l).
  pose proof (count_le (fun t => noted t && succeeded t) l).
  rewrite !(count_insert _ l i t t' Hi). rewrite note_task_spec in Hnote.
  destruct (m_result t =? NoInit) eqn:En; [injection Hnote as <- <- <-; by rewrite !Z.add_simpl_r|].
  destruct (noted t) eqn:Ed; [injection Hnote as <- <- <-; rewrite Ed; by rewrite !Z.add_simpl_r|].
  injection Hnote as <- <- <-. simpl.
  assert (Hn' : noted (set_doneIp "" t) = true) by (unfold noted; simpl; by rewrite En).
  rewrite Hn'. change (failed (set_doneIp "" t)) with (failed t).
  change (succeeded (set_doneIp "" t)) with (succeeded t). simpl.
  assert (Hx : failed t = true -> succeeded t = false).
  { destruct exit_codes_distinct as (_ & _ & Hne). unfold failed, succeeded.
    destruct (Z.eqb_spec (m_result t) NotStarted), (Z.eqb_spec (m_result t) Exited),
      (m_exitCode t =? 0); simpl; congruence. }
  destruct (failed t) eqn:Ef.
  - rewrite (Hx eq_refl). destruct (count_error_sums (m_doneIp t) info) as (-> & -> & ?); [done|lia|].
    split; [done|lia].
  - destruct (succeeded t) eqn:Es; [|split; [done|lia]].
    destruct (count_success_sums (m_doneIp t) info) as (-> & -> & ?); [done|lia|]. split; [done|lia].
Qed.

Lemma note_task_noted t t' info info' fin fin' :
  note_task t info fin = (t', info', fin') -> fin' = true -> fin = true /\ noted t' = true.
Proof.
  rewrite note_task_spec. destruct (m_result t =? NoInit) eqn:E; [by intros [= <- <- <-]|].
  destruct (noted t) eqn:Ed; intros [= <- <- <-]; [done|]. intros ->. split; [done|].
  unfold noted; simpl. by rewrite E.
Qed.

Section invariant.
Hypothesis fullId_nonempty : forall n, fullId n <> "".

Lemma evolve_lookup_noted s s' i t' :
  Forall2 (evolves fullId) (sv_tasks s) (sv_tasks s') ->
  sv_tasks s' !! i = Some t' ->
  exists t, sv_tasks s !! i = Some t /\ (noted t = true -> t' = t).
Proof.
  intros Hf Hi. destruct (Forall2_lookup_r _ _ _ _ _ Hf Hi) as (t & Ht & Hev).
  exists t. split; [done|]. intros Hn. destruct Hev as [_ [->|[Hr _]]]; [done|].
  unfold noted in Hn. by rewrite Hr, Z.eqb_refl in Hn.
Qed.

Lemma con_task_inv n s m t t' info fin :
  Z.of_nat n < 2 ^ 64 - 1 -> con_inv n (s, m) ->
  mo_phase m = Pass -> sv_tasks s !! mo_index m = Some t ->
  note_task t (mo_info m) (mo_isFinished m) = (t', info, fin) ->
  con_inv n (set_tasks (<[mo_index m := t']> (sv_tasks s)) s,
             mkMonitor Pass (S (mo_index m)) fin info (mo_countError m) (mo_countSuccess m)).
Proof.
  intros Hn [HI Hl He Hs Hr Hx Hp Hfin] Hph Hi Hnote. simpl in *.
  destruct (note_counts t t' _ _ _ _ _ _ Hi Hnote Hr) as (Hr' & He' & Hs'); [lia|done|done|].
  split; simpl; try done.
  - rewrite note_task_spec in Hnote. destruct (Z.eqb_spec (m_result t) NoInit) as [E|E].
    { injection Hnote as <- <- <-. rewrite list_insert_id by done. by rewrite set_tasks_id. }
    destruct (noted t); injection Hnote as <- <- <-.
    + rewrite list_insert_id by done. by rewrite set_tasks_id.
    + by apply note_step.
  - by rewrite length_insert.
  - apply lookup_lt_Some in Hi. lia.
  - intros Hf j u Hj Hu. destruct (note_task_noted _ _ _ _ _ _ Hnote Hf) as [Hf0 Hn'].
    apply lookup_insert_cases in Hu as [[_ ->]|[Hne Hu]]; [done|].
    apply (Hp Hf0 j u); [lia|done].
Qed.

Lemma con_step_inv n sm sm' :
  Z.of_nat n < 2 ^ 64 - 1 -> con_inv n sm -> con_step sm sm' -> con_inv n sm'.
Proof.
  intros Hn HI Hstep. revert HI.
  destruct Hstep as [s s' m Hs|sm sm' [s m Hph Hc|s m Hph|s m t t' info fin Hph Hi Hnote|s m Hph Hi]];
    intros HI.
  - destruct HI as [HI Hl He Hsu Hr Hx Hp Hfin]. simpl in *.
    destruct (server_step_good _ _ _ HI Hs) as [HI' [_ Hev]].
    split; simpl; rewrite ?(evolve_count _ _ _ fullId_nonempty Hev); try done.
    + by rewrite <- (Forall2_length _ _ _ Hev).
    + intros Hf i t' Hi Ht'. destruct (evolve_lookup_noted _ _ _ _ Hev Ht') as (t & Ht & Hsame).
      pose proof (Hp Hf i t Hi Ht) as Hno. by rewrite Hsame.
  - destruct HI as [HI Hl He Hsu Hr Hx Hp Hfin]. by split.
  - destruct HI as [HI Hl He Hsu Hr Hx Hp Hfin]. simpl in *. split; simpl; try done; intros; lia.
  - by apply (con_task_inv n s m t).
  - destruct HI as [HI Hl He Hsu Hr Hx Hp Hfin]. simpl in *. rewrite totals_sums. split; simpl; try done.
    destruct (mo_isFinished m); [|done]. intros _. apply lookup_ge_None in Hi.
    split; [done|]. split; [lia|]. rewrite He, Hsu.
    pose proof (count_le (fun t => noted t && failed t) (sv_tasks s)).
    pose proof (count_le (fun t => noted t && succeeded t) (sv_tasks s)).
    split; apply wrapU_id; unfold inU; lia.
Qed.

Lemma con_init_inv tasks (f : F) :
  Forall (fun t => fresh t /\ message_complete t) tasks ->
  con_inv (length tasks) (Server_init tasks f, Monitor_init).
Proof.
  intros Hf.
  assert (Hz : forall P, count (fun t => noted t && P t) tasks = O).
  { intros P. induction Hf as [|t l [(_ & _ & Hr & _) _] Hl IH]; [done|]. unfold count in *.
    rewrite filter_cons, decide_False; [done|]. unfold noted. by rewrite Hr, Z.eqb_refl. }
  split; simpl; rewrite ?Hz; try done; [by apply Server_init_inv|lia].
Qed.

Lemma con_reachable_inv tasks (f : F) sm :
  Forall (fun t => fresh t /\ message_complete t) tasks -> Z.of_nat (length tasks) < 2 ^ 64 - 1 ->
  rtc con_step (Server_init tasks f, Monitor_init) sm -> con_inv (length tasks) sm.
Proof.
  intros Hf Hn Hs. eapply (rtc_preserves con_step); [|exact Hs|by apply con_init_inv].
  intros s1 s2 H1' H2'. by eapply con_step_inv.
Qed.

(** The counters are exact: they add up to the tasks taken note of. *)
Lemma con_totals tasks (f : F) s m :
  Forall (fun t => fresh t /\ message_complete t) tasks -> Z.of_nat (length tasks) < 2 ^ 64 - 1 ->
  rtc con_step (Server_init tasks f, Monitor_init) (s, m) ->
  totals (mo_info m) =
    (Z.of_nat (count (fun t => noted t && failed t) (sv_tasks s)),
     Z.of_nat (count (fun t => noted t && succeeded t) (sv_tasks s))).
Proof.
  intros Hf Hn Hs. destruct (con_reachable_inv _ _ _ Hf Hn Hs) as [_ Hl He Hsu _ _ _ _].
  simpl in *. rewrite totals_sums, He, Hsu.
  pose proof (count_le (fun t => noted t && failed t) (sv_tasks s)).
  pose proof (count_le (fun t => noted t && succeeded t) (sv_tasks s)).
  rewrite !wrapU_id by (unfold inU; lia). done.
Qed.

Lemma count_ext P Q l : Forall (fun t => P t = Q t) l -> count P l = count Q l.
Proof.
  unfold count. induction 1 as [|t l Ht _ IH]; [done|]. rewrite !filter_cons, <- Ht.
  case_decide; simpl; congruence.
Qed.

(** What is known when the loop has ended because a pass found nothing
    unfinished. *)
Lemma con_finished n s m :
  con_inv n (s, m) -> mo_phase m = Finished ->
  length (sv_tasks s) = n /\
  Forall (fun t => m_result t <> NoInit /\ m_node t = None /\ m_doneIp t = "") (sv_tasks s) /\
  mo_countError m = Z.of_nat (count failed (sv_tasks s)) /\
  mo_countSuccess m = Z.of_nat (count succeeded (sv_tasks s)).
Proof.
  intros [HI Hl _ _ _ _ Hp Hfin] Hph.
  destruct (Hfin Hph) as (Hfl & Hidx & He & Hsu). simpl in *.
  assert (Hno : Forall (fun t => noted t = true) (sv_tasks s)).
  { apply Forall_lookup. intros i t Hi. apply (Hp Hfl i t); [|done].
    apply lookup_lt_Some in Hi. lia. }
  split; [done|]. split.
  - apply Forall_forall. intros t Ht. rewrite Forall_forall in Hno. pose proof (Hno t Ht) as Hnt.
    unfold noted in Hnt. apply andb_true_iff in Hnt as [Hnt Hip].
    apply negb_true_iff, Z.eqb_neq in Hnt. split; [done|]. split; [|by destruct (m_doneIp t)].
    destruct (m_node t) as [k|] eqn:Ek; [|done]. by destruct (inv_assigned s HI t k Ht Ek).
  - rewrite He, Hsu. split; f_equal; apply count_ext;
      (eapply Forall_impl; [exact Hno|]); intros t Ht; simpl; by rewrite Ht.
Qed.

End invariant.

(** ** A pass that nothing interrupts *)

Lemma note_all_done tasks info :
  Forall (fun t => m_result t <> NoInit) tasks ->
  (note_all tasks info true).2 = true /\ Forall (fun t => m_doneIp t = "") (note_all tasks info true).1.1.
Proof.
  intros Hd. revert info. induction Hd as [|t l Ht Hl IH]; intros info; [done|]. cbn [note_all].
  rewrite note_task_spec. apply Z.eqb_neq in Ht. rewrite Ht.
  assert (He : noted t = true -> m_doneIp t = "").
  { unfold noted. rewrite Ht. simpl. by destruct (m_doneIp t). }
  destruct (noted t); simpl;
    match goal with |- context [note_all l ?i true] => specialize (IH i); destruct (note_all l i true) as [[? ?] ?] end;
    simpl in *; (split; [apply IH|constructor; [by auto|apply IH]]).
Qed.

Lemma note_all_length tasks info fin : length (note_all tasks info fin).1.1 = length tasks.
Proof.
  revert info fin. induction tasks as [|t l IH]; intros info fin; [done|]. cbn [note_all].
  destruct (note_task t info fin) as [[t1 i1] b1]. specialize (IH i1 b1).
  destruct (note_all l i1 b1) as [[l1 i2] b2]. simpl in *. by rewrite IH.
Qed.

(** The steps of a pass are [note_all] on what is left of the vector. *)
Lemma pass_steps pre tasks s m :
  mo_phase m = Pass -> sv_tasks s = pre ++ tasks -> mo_index m = length pre ->
  let '(tasks', info, fin) := note_all tasks (mo_info m) (mo_isFinished m) in
  rtc monitor_step (s, m)
    (set_tasks (pre ++ tasks') s,
     mkMonitor Pass (length (sv_tasks s)) fin info (mo_countError m) (mo_countSuccess m)).
Proof.
  revert pre s m. induction tasks as [|t tasks IH]; intros pre s m Hph Et Hi; cbn [note_all].
  - rewrite app_nil_r in Et. rewrite app_nil_r, <- Et, set_tasks_id.
    destruct m; simpl in *; subst. constructor.
  - destruct (note_task t (mo_info m) (mo_isFinished m)) as [[t' info1] fin1] eqn:En.
    assert (Hlk : sv_tasks s !! mo_index m = Some t) by (rewrite Et, Hi; by apply list_lookup_middle).
    pose proof (mon_task s m t t' info1 fin1 Hph Hlk En) as Hstep.
    specialize (IH (pre ++ [t']) (set_tasks (<[mo_index m := t']> (sv_tasks s)) s)
      (mkMonitor Pass (S (mo_index m)) fin1 info1 (mo_countError m) (mo_countSuccess m)) eq_refl).
    simpl in IH. destruct (note_all tasks info1 fin1) as [[tasks' info2] fin2].
    eapply rtc_l; [exact Hstep|]. rewrite length_insert, <- !app_assoc in IH. apply IH.
    + rewrite Et, Hi. rewrite insert_app_r_alt, Nat.sub_diag by lia. done.
    + rewrite length_app, Hi. simpl. lia.
Qed.

Lemma note_task_result t info fin : m_result (note_task t info fin).1.1 = m_result t.
Proof. rewrite note_task_spec. destruct (_ =? _); [done|]. by destruct (noted t). Qed.

Lemma note_all_results tasks info fin : m_result <$> (note_all tasks info fin).1.1 = m_result <$> tasks.
Proof.
  revert info fin. induction tasks as [|t l IH]; intros info fin; [done|]. cbn [note_all].
  pose proof (note_task_result t info fin) as Ht. destruct (note_task t info fin) as [[t1 i1] b1].
  specialize (IH i1 b1). destruct (note_all l i1 b1) as [[l1 i2] b2]. cbn [fst snd] in *. rewrite !fmap_cons. by f_equal.
Qed.

(** The rest of a pass, and the end of the loop's body. *)
Lemma pass_ends s m :
  mo_phase m = Pass -> (mo_index m <= length (sv_tasks s))%nat ->
  let '(tasks', info, fin) := note_all (drop (mo_index m) (sv_tasks s)) (mo_info m) (mo_isFinished m) in
  rtc monitor_step (s, m)
    (set_tasks (take (mo_index m) (sv_tasks s) ++ tasks') s,
     mkMonitor (if fin then Finished else Top) (length (sv_tasks s)) fin info (totals info).1 (totals info).2).
Proof.
  intros Hph Hle. pose proof (pass_steps (take (mo_index m) (sv_tasks s)) (drop (mo_index m) (sv_tasks s)) s m Hph) as Hp.
  rewrite take_drop, length_take_le in Hp by done. specialize (Hp eq_refl eq_refl).
  pose proof (note_all_length (drop (mo_index m) (sv_tasks s)) (mo_info m) (mo_isFinished m)) as Hlen.
  destruct (note_all _ _ _) as [[tasks' info] fin]. simpl in Hlen. rewrite length_drop in Hlen.
  eapply rtc_r; [exact Hp|]. apply (mon_end _ (mkMonitor Pass _ fin info _ _)); [done|]. simpl.
  apply lookup_ge_None. rewrite length_app, length_take_le by done. lia.
Qed.

(** The main thread can always come back to the top of its loop, or leave it,
    without touching a result. *)
Lemma pass_over s m :
  mo_phase m = Pass -> (mo_index m <= length (sv_tasks s))%nat ->
  exists ts m', rtc monitor_step (s, m) (set_tasks ts s, m') /\ (mo_phase m' = Top \/ mo_phase m' = Finished) /\
    m_result <$> ts = m_result <$> sv_tasks s.
Proof.
  intros Hph Hle. pose proof (pass_ends s m Hph Hle) as Hp.
  pose proof (note_all_results (drop (mo_index m) (sv_tasks s)) (mo_info m) (mo_isFinished m)) as Hr.
  destruct (note_all _ _ _) as [[tasks' info] fin]. do 2 eexists. split; [exact Hp|]. split; [destruct fin; auto|].
  simpl in Hr. by rewrite fmap_app, Hr, <- fmap_app, take_drop.
Qed.

(** Once every task has a result, the next pass of the main thread - whatever
    the counters hold - detects it and leaves the loop, with every task
    noted. *)
Lemma monitor_detects s m :
  mo_phase m = Top -> Forall (fun t => m_result t <> NoInit) (sv_tasks s) ->
  exists ts m', rtc monitor_step (s, m) (set_tasks ts s, m') /\ mo_phase m' = Finished.
Proof.
  intros Hph Hd. set (m1 := mkMonitor Pass 0 true (mo_info m) (mo_countError m) (mo_countSuccess m)).
  pose proof (pass_ends s m1 eq_refl ltac:(simpl; lia)) as Hpass. simpl in Hpass.
  destruct (note_all_done (sv_tasks s) (mo_info m) Hd) as [Hfin _]. unfold drop in Hpass.
  destruct (note_all (sv_tasks s) (mo_info m) true) as [[tasks' info] fin]. simpl in Hfin. subst fin.
  do 2 eexists. split; [eapply rtc_l; [by apply mon_begin|exact Hpass]|done].
Qed.
End monitor.

(** ** [main] *)

(** What [main] does to the world, in order. *)
Inductive console_event :=
| EvWSAStartup | EvServerStart | EvBroadcast | EvServerFinish | EvMonitor | EvCloseClients | EvServerClose.

#[export] Instance console_event_eq_dec : EqDecision console_event.
Proof. solve_decision. Defined.

(** The variables from the command line; [getOption] is what the parser of
    smallUtils holds for an option's long name. *)
Definition console_vars `{StringUtils} (getOption : string -> string) : TaskVariables :=
  let v := TaskVariables_init in
  let v := mkVars (PName v) (PDir v) (String_tolower (getOption "sdir")) (ODir v) (WDir v) (SFile v)
             (OFile v) (SourceFile v) (SourceFileName v) (OutputFile v) in
  let v := set_ODir (String_tolower (getOption "odir")) v in
  let v := mkVars (PName v) (PDir v) (SDir v) (ODir v) (String_tolower (getOption "wdir")) (SFile v)
             (OFile v) (SourceFile v) (SourceFileName v) (OutputFile v) in
  let v := mkVars (PName v) (PDir v) (SDir v) (ODir v) (WDir v) (String_tolower (getOption "sfile"))
             (OFile v) (SourceFile v) (SourceFileName v) (OutputFile v) in
  mkVars (PName v) (PDir v) (SDir v) (ODir v) (WDir v) (SFile v) (String_tolower (getOption "ofile"))
    (SourceFile v) (SourceFileName v) (OutputFile v).

Section console_main.
(** [loadFromFile], [loadConfig], the result of [WSAStartup], whether the
    server has started, [sendBroadcast], the monitor in the state in which
    its loop is left, and whether the timer is found expired after that. *)
Context (loaded : outcome (bool * Projects)).
Context (config : string -> Projects -> TaskVariables -> list TaskInfo -> outcome (bool * list TaskInfo)).
Context (wsa started : bool) (broadcast : string -> outcome bool).
Context (monitor : list TaskInfo -> Monitor) (expired_after : bool).

Definition console_main (configFile : string) (taskVariable : TaskVariables)
    : outcome (Z * list console_event) :=
  if empty configFile then Ret (0, [])
  else
    do (ok, projects) <- loaded;
    if negb ok then Ret (1, [])
    else
      do (ok, tasks) <- config configFile projects taskVariable [];
      if negb ok then Ret (1, [])
      else if negb wsa then Ret (1, [EvWSAStartup])
      else if negb started then Ret (1, [EvWSAStartup; EvServerStart])
      else
        match tasks with
        | [] => UB
        | task :: _ =>
            do sent <- broadcast (PName (m_vars task));
            if negb sent then
              Ret (1, [EvWSAStartup; EvServerStart; EvBroadcast; EvServerFinish; EvServerClose])
            else
              let m := monitor tasks in
              let expired := bool_decide (mo_phase m = TimedOut) || expired_after in
              Ret (if expired then 1 else 0,
                   [EvWSAStartup; EvServerStart; EvBroadcast; EvMonitor; EvCloseClients; EvServerClose])
        end.
End console_main.
