(* ===== verification/Locks.v ===== *)
(** * Lock by lock: the server's thread beside the main thread

    [tcp_protobufserver.cpp] and [main] of [console.cpp] lock one task at a
    time: the server inside the loops of [sendTasksToSlave],
    [applyResultFromSlave] and [onClientDisconnected], the main thread inside
    the loop of its pass.  Here one step is one critical section.  [control]
    says where the server's thread stands between two of them, and
    [lock_simulation] shows that a handler may be taken as one action of
    [Schedule.server_step] after all - for every interleaving there is one of
    whole handlers, or of whole packets, with the same outcome.  The claims
    about the monitoring loop are stated for the fine steps. *)

From Stdlib Require Import String.
From S2P Require Import Prelude CxxStd External Float32 Projects Process Messages Tasks Server Schedule Console.
Local Open Scope string_scope.
Local Open Scope Z_scope.
Local Open Scope list_scope.

Section locks.
Context {N : Type} `{PacketNode N} {F : Type} `{FileSystem F} `{ExitCodes}.
Context `{MessageCodec MPacket} `{MessageCodec SPacket}.
Context (fullId : NodeId -> string).
Implicit Types (s : Server N F) (t : TaskInfo) (m : Monitor) (nid : NodeId) (f : F).

(** ** The server's thread *)

(** Where [sendTasksToSlave] returns to: the loop of [doWork] with the rest of
    the clients, or the packet being handled. *)
Inductive caller :=
| ToWork (rest : list NodeId)
| ToPacket (nid : NodeId) (packet : SPacket).

Inductive control :=
| Between                                                  (* no handler runs *)
| Working (rest : list NodeId)                             (* [doWork], at the top of its loop *)
| Sending (nid : NodeId) (i : nat) (k : caller)            (* [sendTasksToSlave], before task [i] *)
| Reading (nid : NodeId)                                   (* [onRecvFromNode], at the top of its loop *)
| Answering (nid : NodeId) (packet : SPacket)              (* after [if (packet.has_info())] *)
| Applying (nid : NodeId) (result : SResult) (i : nat)     (* [applyResultFromSlave], before task [i] *)
| Releasing (nid : NodeId) (i : nat).                      (* [onClientDisconnected], before task [i] *)

#[export] Instance control_between_dec (c : control) : Decision (c = Between).
Proof. destruct c; [by left|by right..]. Defined.

Definition return_to (k : caller) : control :=
  match k with ToWork rest => Working rest | ToPacket nid packet => Answering nid packet end.

Definition enter_send nid (k : caller) s : Server N F * control :=
  match sv_nodes s !! nid with
  | None => (s, return_to k)
  | Some node => if m_freeCores node <=? 0 then (s, return_to k) else (s, Sending nid 0 k)
  end.

(** One critical section of [sendTasksToSlave]. *)
Definition send_section nid (i : nat) (k : caller) s : Server N F * control :=
  match sv_tasks s !! i, sv_nodes s !! nid with
  | Some task, Some node =>
      if busy task then (s, Sending nid (S i) k)
      else
        let packet := task_packet (sv_fs s) task in
        if negb (MTask_IsInitialized packet) then (s, return_to k)
        else
          let s := set_tasks (<[i := set_node (Some nid) task]> (sv_tasks s)) s in
          let '(_, node) := send node (mkMPacket (Some packet) None) in
          (set_client nid (with_freeCores (i32 (m_freeCores node - 1)) node) s, return_to k)
  | _, _ => (s, return_to k)
  end.

(** The top of the packet loop, up to the call of [sendTasksToSlave]. *)
Definition read_packet nid s : Server N F * control :=
  match sv_nodes s !! nid with
  | None => (s, Between)
  | Some node =>
      if Nat.ltb 0 (countRecvPackets (pn_base node)) then
        let '(data, base) := extractRecvPacket (pn_base node) in
        let s := set_client nid (mkNode base (m_freeCores node)) s in
        let packet := ParseFromArray data in
        if negb (SPacket_IsInitialized packet) then (s, Between)
        else
          match sp_info packet with
          | Some info =>
              enter_send nid (ToPacket nid packet)
                (set_client nid (with_freeCores (get_num_field (si_task_count info)) (mkNode base (m_freeCores node))) s)
          | None => (s, Answering nid packet)
          end
      else (s, Between)
  end.

(** One critical section of [applyResultFromSlave]. *)
Definition apply_section nid (result : SResult) (i : nat) s : Server N F * control :=
  match sv_tasks s !! i with
  | None => (s, Reading nid)
  | Some task =>
      if negb (result_for nid result task) then (s, Applying nid result (S i))
      else
        let '(task, f) := apply_result fullId (sv_fs s) nid result task in
        (set_fs f (set_tasks (<[i := task]> (sv_tasks s)) s), Reading nid)
  end.

(** One critical section of [onClientDisconnected]; after the last the base
    class drops the connection. *)
Definition release_section nid (i : nat) s : Server N F * control :=
  match sv_tasks s !! i with
  | None => (mkServer (sv_tasks s) (delete nid (sv_nodes s)) (filter (fun n => n <> nid) (sv_clients s)) (sv_fs s), Between)
  | Some task => (set_tasks (<[i := release nid task]> (sv_tasks s)) s, Releasing nid (S i))
  end.

Definition server_run s (c : control) : Server N F * control :=
  match c with
  | Between => (s, Between)
  | Working [] => (s, Between)
  | Working (nid :: rest) => enter_send nid (ToWork rest) s
  | Sending nid i k => send_section nid i k s
  | Reading nid => read_packet nid s
  | Answering nid packet =>
      match sp_result packet with Some result => (s, Applying nid result 0) | None => (s, Reading nid) end
  | Applying nid result i => apply_section nid result i s
  | Releasing nid i => release_section nid i s
  end.

(** Both threads.  What the base class does between two handlers - connecting,
    moving packets, calling the next handler - and changes of the disk are
    steps of their own. *)
Inductive lock_step : Server N F * control * Monitor -> Server N F * control * Monitor -> Prop :=
| lk_server s c m s' c' : c <> Between -> server_run s c = (s', c') -> lock_step (s, c, m) (s', c', m)
| lk_work s m : lock_step (s, Between, m) (s, Working (sv_clients s), m)
| lk_recv nid s m : nid ∈ sv_clients s -> lock_step (s, Between, m) (s, Reading nid, m)
| lk_drop nid s m : nid ∈ sv_clients s -> lock_step (s, Between, m) (s, Releasing nid 0, m)
| lk_connect nid base s m : sv_nodes s !! nid = None -> lock_step (s, Between, m) (newClient nid base s, Between, m)
| lk_traffic nid base node s m :
    sv_nodes s !! nid = Some node ->
    lock_step (s, Between, m) (set_client nid (mkNode base (m_freeCores node)) s, Between, m)
| lk_close s m : lock_step (s, Between, m) (closeAllClients s, Between, m)
| lk_disk f s m : lock_step (s, Between, m) (set_fs f s, Between, m)
| lk_main s s' c m m' : monitor_step (s, m) (s', m') -> lock_step (s, c, m) (s', c, m').

(** *** A schedule

    The main thread, one step; and both threads taking turns as [turns] says
    ([true] for the server's thread), while a handler runs. *)
Definition main_run s m : Server N F * Monitor :=
  match mo_phase m with
  | Top => (s, mkMonitor Pass 0 true (mo_info m) (mo_countError m) (mo_countSuccess m))
  | Pass =>
      match sv_tasks s !! mo_index m with
      | Some t =>
          let '(t', info, fin) := note_task t (mo_info m) (mo_isFinished m) in
          (set_tasks (<[mo_index m := t']> (sv_tasks s)) s,
           mkMonitor Pass (S (mo_index m)) fin info (mo_countError m) (mo_countSuccess m))
      | None =>
          (s, mkMonitor (if mo_isFinished m then Finished else Top) (mo_index m) (mo_isFinished m)
                (mo_info m) (totals (mo_info m)).1 (totals (mo_info m)).2)
      end
  | Finished | TimedOut => (s, m)
  end.

Fixpoint interleave (turns : list bool) (x : Server N F * control * Monitor) : Server N F * control * Monitor :=
  match turns with
  | [] => x
  | true :: turns => interleave turns (server_run x.1.1 x.1.2, x.2)
  | false :: turns => let '(s, m) := main_run x.1.1 x.2 in interleave turns (s, x.1.2, m)
  end.

Lemma main_run_step s m c : rtc lock_step (s, c, m) ((main_run s m).1, c, (main_run s m).2).
Proof.
  unfold main_run. destruct (mo_phase m) eqn:Hph; [by apply rtc_once, lk_main, mon_begin| |done..].
  destruct (sv_tasks s !! mo_index m) as [t|] eqn:Hi; [|by apply rtc_once, lk_main, mon_end].
  destruct (note_task t (mo_info m) (mo_isFinished m)) as [[t' info] fin] eqn:En.
  by apply rtc_once, lk_main, mon_task with t.
Qed.

Lemma interleave_steps turns x : rtc lock_step x (interleave turns x).
Proof.
  revert x. induction turns as [|[] turns IH]; intros [[s c] m]; [done|..]; cbn [interleave fst snd].
  - destruct (server_run s c) as [s' c'] eqn:Er. destruct (decide (c = Between)) as [->|Hc].
    + injection Er as <- <-. apply IH.
    + eapply rtc_l; [by apply lk_server|apply IH].
  - pose proof (main_run_step s m c) as Hm. destruct (main_run s m) as [s' m']. etransitivity; [exact Hm|apply IH].
Qed.

(** ** What the main thread sees of a task *)

Definition same_outcome t t' : Prop :=
  m_result t' = m_result t /\ m_exitCode t' = m_exitCode t /\ m_doneIp t' = m_doneIp t /\
  (m_result t <> NoInit -> m_node t = None -> m_node t' = None).

#[local] Instance same_outcome_preorder : PreOrder same_outcome.
Proof. split; [done|]. intros t1 t2 t3 (? & ? & ? & H12) (? & ? & ? & H23). repeat split; [congruence..|].
  intros Hr Hn. apply H23; [congruence|by apply H12].
Qed.

Abbreviation unnoticed s s' := (Forall2 same_outcome (sv_tasks s) (sv_tasks s') /\ sv_clients s' = sv_clients s).

(** Taking note of task [j]. *)
Definition note (j : nat) s : Server N F := set_tasks (alter (set_doneIp "") j (sv_tasks s)) s.

Lemma note_task_outcome t u info fin :
  same_outcome t u ->
  (note_task u info fin).1.2 = (note_task t info fin).1.2 /\ (note_task u info fin).2 = (note_task t info fin).2 /\
  ((note_task t info fin).1.1 = t /\ (note_task u info fin).1.1 = u \/
   (note_task t info fin).1.1 = set_doneIp "" t /\ (note_task u info fin).1.1 = set_doneIp "" u).
Proof.
  intros (Er & Ee & Ei & _). unfold note_task. rewrite Er, Ee, Ei.
  destruct (m_result t =? NoInit); [by auto|]. destruct (empty (m_doneIp t)); simpl; auto 10.
Qed.

Lemma alter_insert (l : list TaskInfo) j t g : l !! j = Some t -> alter g j l = <[j := g t]> l.
Proof.
  intros Hj. apply list_eq. intros i. destruct (decide (i = j)) as [->|Hne].
  - rewrite list_lookup_alter_eq, list_lookup_insert_eq, Hj by (by eapply lookup_lt_Some). done.
  - by rewrite list_lookup_alter_ne, list_lookup_insert_ne.
Qed.

(** A step of the main thread is the same step on any state it cannot tell
    apart. *)
Lemma monitor_step_unnoticed sa s s' m m' :
  unnoticed sa s -> monitor_step (s, m) (s', m') ->
  exists sa', monitor_step (sa, m) (sa', m') /\ ((sa' = sa /\ s' = s) \/ exists j, sa' = note j sa /\ s' = note j s).
Proof.
  intros [Hf Hc] Hm. inversion Hm as [? ? Hph Hcl|? ? Hph|? ? u u' info fin Hph Hi Hn|? ? Hph Hi]; subst.
  - exists sa. split; [apply mon_timeout; congruence|by left].
  - exists sa. split; [by apply mon_begin|by left].
  - destruct (Forall2_lookup_r _ _ _ _ _ Hf Hi) as (t & Ht & Ho).
    destruct (note_task_outcome t u (mo_info m) (mo_isFinished m) Ho) as (Ei & Eb & Et).
    rewrite Hn in Ei, Eb, Et. simpl in Ei, Eb, Et.
    destruct (note_task t (mo_info m) (mo_isFinished m)) as [[t' info'] fin'] eqn:En. simpl in *. subst info' fin'.
    exists (set_tasks (<[mo_index m := t']> (sv_tasks sa)) sa). split; [by eapply mon_task|].
    destruct Et as [[-> ->] | [-> ->]]; [left; by rewrite !list_insert_id, !set_tasks_id by done|].
    right. exists (mo_index m). unfold note. by erewrite !alter_insert by done.
  - exists sa. split; [|by left]. apply mon_end; [done|]. apply lookup_ge_None.
    apply lookup_ge_None in Hi. by rewrite (Forall2_length _ _ _ Hf).
Qed.

(** *** Handlers do not read what the main thread writes *)

Lemma send_loop_note f nid node tasks j :
  send_loop f nid node (alter (set_doneIp "") j tasks) =
  ((send_loop f nid node tasks).1, alter (set_doneIp "") j (send_loop f nid node tasks).2).
Proof.
  revert j. induction tasks as [|t tasks IH]; intros j; [done|]. destruct j as [|j]; cbn [alter list_alter send_loop].
  - change (busy (set_doneIp "" t)) with (busy t). change (task_packet f (set_doneIp "" t)) with (task_packet f t).
    destruct (busy t); [by destruct (send_loop f nid node tasks) as [[? ?] ?]|].
    destruct (negb _); [done|]. by destruct (send node _).
  - destruct (busy t); [|destruct (negb _); [done|by destruct (send node _)]].
    change (list_alter (set_doneIp "") j tasks) with (alter (set_doneIp "") j tasks).
    rewrite IH. by destruct (send_loop f nid node tasks) as [[? ?] ?].
Qed.

Lemma sendTasks_note nid j s : (sendTasksToSlave nid (note j s)).2 = note j (sendTasksToSlave nid s).2.
Proof.
  unfold sendTasksToSlave. simpl. destruct (sv_nodes s !! nid) as [node|]; [|done].
  destruct (m_freeCores node <=? 0); [done|]. rewrite send_loop_note.
  by destruct (send_loop (sv_fs s) nid node (sv_tasks s)) as [[? ?] ?].
Qed.

Definition sends (l : list NodeId) s : Server N F := fold_left (fun s nid => (sendTasksToSlave nid s).2) l s.

Lemma sends_snoc l nid s : sends (l ++ [nid]) s = (sendTasksToSlave nid (sends l s)).2.
Proof. unfold sends. by rewrite fold_left_app. Qed.

Lemma sends_note l j s : sends l (note j s) = note j (sends l s).
Proof. unfold sends. revert s. induction l as [|nid l IH]; intros s; [done|]. simpl. by rewrite sendTasks_note, IH. Qed.

(** Handing a task out leaves its outcome alone. *)
Lemma sendTasks_unnoticed nid s : unnoticed s (sendTasksToSlave nid s).2.
Proof.
  unfold sendTasksToSlave. destruct (sv_nodes s !! nid) as [node|]; [|done].
  destruct (m_freeCores node <=? 0); [done|]. destruct (first_free (sv_tasks s)) as [Hb|(pre & t & post & Et & Hp & Ht)].
  - by rewrite send_loop_all_busy.
  - rewrite Et, send_loop_first by done. destruct (MTask_IsInitialized _); simpl; (split; [|done]); [|done].
    apply Forall2_app; [done|]. constructor; [|done]. repeat split; simpl; try done. intros Hr _.
    unfold busy in Ht. apply orb_false_iff in Ht as [_ Ht]. apply negb_false_iff, Z.eqb_eq in Ht. done.
Qed.

Lemma sends_unnoticed l s : unnoticed s (sends l s).
Proof.
  unfold sends. revert s. induction l as [|nid l IH]; intros s; [done|]. simpl.
  destruct (sendTasks_unnoticed nid s) as [Hf Hc]. destruct (IH (sendTasksToSlave nid s).2) as [Hf' Hc'].
  split; [by etransitivity|congruence].
Qed.

(** ** Half-done handlers *)

(** The loop of [sendTasksToSlave] has come to task [i]. *)
Definition looking nid (i : nat) s : Prop :=
  exists node, sv_nodes s !! nid = Some node /\ 0 < m_freeCores node /\ Forall (fun t => busy t = true) (take i (sv_tasks s)).

(** The packet loop has taken [packet] out of the queue of [nid]. *)
Definition opened nid packet sa s : Prop :=
  exists node data base, sv_nodes sa !! nid = Some node /\ nid ∈ sv_clients sa /\
    (0 < countRecvPackets (pn_base node))%nat /\ extractRecvPacket (pn_base node) = (data, base) /\
    packet = ParseFromArray data /\ SPacket_IsInitialized packet = true /\
    s = set_client nid (mkNode base (m_freeCores node)) sa.

Definition set_cores nid packet s : Server N F :=
  match sp_info packet, sv_nodes s !! nid with
  | Some info, Some node => set_client nid (with_freeCores (get_num_field (si_task_count info)) node) s
  | _, _ => s
  end.

(** [if (packet.has_info())] of [onRecvFromNode]. *)
Definition after_info nid packet s : Server N F :=
  match sp_info packet with Some _ => (sendTasksToSlave nid (set_cores nid packet s)).2 | None => s end.

Definition released nid (i : nat) (l : list TaskInfo) : list TaskInfo :=
  imap (fun k t => if (k <? i)%nat then release nid t else t) l.

(** [sim sa s c]: the server's thread stands at [c] in the state [s], and the
    handler it runs - or the packet it handles - would have started in [sa]. *)
Inductive sim : Server N F -> Server N F -> control -> Prop :=
| sim_between s : sim s s Between
| sim_working done rest sa : sv_clients sa = done ++ rest -> sim sa (sends done sa) (Working rest)
| sim_send_work done nid rest i sa :
    sv_clients sa = done ++ nid :: rest -> looking nid i (sends done sa) ->
    sim sa (sends done sa) (Sending nid i (ToWork rest))
| sim_reading nid s : nid ∈ sv_clients s -> sim s s (Reading nid)
| sim_send_packet nid packet i sa s0 :
    opened nid packet sa s0 -> has (sp_info packet) = true -> looking nid i (set_cores nid packet s0) ->
    sim sa (set_cores nid packet s0) (Sending nid i (ToPacket nid packet))
| sim_answering nid packet sa s0 :
    opened nid packet sa s0 -> sim sa (after_info nid packet s0) (Answering nid packet)
| sim_applying nid packet result i sa s0 :
    opened nid packet sa s0 -> sp_result packet = Some result ->
    Forall (fun t => result_for nid result t = false) (take i (sv_tasks (after_info nid packet s0))) ->
    sim sa (after_info nid packet s0) (Applying nid result i)
| sim_releasing nid i sa :
    nid ∈ sv_clients sa -> sim sa (set_tasks (released nid i (sv_tasks sa)) sa) (Releasing nid i).

Lemma opened_unnoticed nid packet sa s : opened nid packet sa s -> unnoticed sa s.
Proof. by intros (? & ? & ? & _ & _ & _ & _ & _ & _ & ->). Qed.

Lemma set_cores_unnoticed nid packet s : unnoticed s (set_cores nid packet s).
Proof. unfold set_cores. destruct (sp_info packet); [|done]. by destruct (sv_nodes s !! nid). Qed.

Lemma unnoticed_trans (s1 s2 s3 : Server N F) : unnoticed s1 s2 -> unnoticed s2 s3 -> unnoticed s1 s3.
Proof. intros [F1 C1] [F2 C2]. split; [by etransitivity|congruence]. Qed.

Lemma after_info_unnoticed nid packet s : unnoticed s (after_info nid packet s).
Proof.
  unfold after_info. destruct (sp_info packet); [|done].
  eapply unnoticed_trans; [apply set_cores_unnoticed|apply sendTasks_unnoticed].
Qed.

Lemma released_unnoticed nid i l : Forall2 same_outcome l (released nid i l).
Proof.
  unfold released. apply Forall2_same_length_lookup. rewrite length_imap. split; [done|]. intros k t t' Hk Hk'.
  rewrite list_lookup_imap, Hk in Hk'. simpl in Hk'. injection Hk' as <-. destruct (k <? i)%nat; [|done].
  unfold release. by case_bool_decide.
Qed.

Lemma sim_unnoticed sa s c : sim sa s c -> unnoticed sa s.
Proof.
  destruct 1; try done; try apply sends_unnoticed; try (eapply unnoticed_trans; [by eapply opened_unnoticed|]).
  - apply set_cores_unnoticed.
  - apply after_info_unnoticed.
  - apply after_info_unnoticed.
  - split; [apply released_unnoticed|done].
Qed.

(** *** They commute with a note *)

Lemma Forall_note (Q : TaskInfo -> Prop) i j tasks :
  (forall t, Q t -> Q (set_doneIp "" t)) -> Forall Q (take i tasks) -> Forall Q (take i (alter (set_doneIp "") j tasks)).
Proof.
  intros HQ. revert i j. induction tasks as [|t tasks IH]; intros i j; [done|].
  destruct i as [|i]; [done|]. simpl. rewrite Forall_cons. intros [Ht Hl].
  destruct j as [|j]; cbn [alter list_alter take]; (constructor; [by auto|]); [done|by apply IH].
Qed.

Lemma looking_note nid i j s : looking nid i s -> looking nid i (note j s).
Proof.
  intros (node & Hn & Hc & Hb). exists node. split; [done|]. split; [done|]. simpl. by apply Forall_note.
Qed.

Lemma opened_note nid packet sa s j : opened nid packet sa s -> opened nid packet (note j sa) (note j s).
Proof.
  intros (node & data & base & Hn & Hcl & Hq & He & Hp & Hi & ->). exists node, data, base. by repeat split.
Qed.

Lemma set_cores_note nid packet j s : set_cores nid packet (note j s) = note j (set_cores nid packet s).
Proof. unfold set_cores. destruct (sp_info packet); [|done]. simpl. by destruct (sv_nodes s !! nid). Qed.

Lemma after_info_note nid packet j s : after_info nid packet (note j s) = note j (after_info nid packet s).
Proof. unfold after_info. destruct (sp_info packet); [|done]. by rewrite set_cores_note, sendTasks_note. Qed.

Lemma released_note nid i j l : released nid i (alter (set_doneIp "") j l) = alter (set_doneIp "") j (released nid i l).
Proof.
  unfold released. apply list_eq. intros k. rewrite list_lookup_imap. destruct (decide (k = j)) as [->|Hne].
  - rewrite !list_lookup_alter_eq, list_lookup_imap. destruct (l !! j) as [t|]; [|done]. simpl. f_equal.
    destruct (j <? i)%nat; [|done]. unfold release; simpl. by case_bool_decide.
  - by rewrite !list_lookup_alter_ne, list_lookup_imap.
Qed.

Lemma sim_note sa s c j : sim sa s c -> sim (note j sa) (note j s) c.
Proof.
  destruct 1 as [s|done rest sa Hc|done nid rest i sa Hc Hl|nid s Hn|nid packet i sa s0 Ho Hi Hl|nid packet sa s0 Ho
    |nid packet result i sa s0 Ho Hr Hf|nid i sa Hn].
  - constructor.
  - rewrite <- sends_note. by constructor.
  - rewrite <- sends_note. constructor; [done|]. rewrite sends_note. by apply looking_note.
  - by constructor.
  - rewrite <- set_cores_note. constructor; [by apply opened_note|done|]. rewrite set_cores_note. by apply looking_note.
  - rewrite <- after_info_note. constructor. by apply opened_note.
  - rewrite <- after_info_note. eapply sim_applying; [by apply opened_note|done|].
    rewrite after_info_note. simpl. by apply Forall_note.
  - unfold note at 2. cbn [sv_tasks set_tasks]. rewrite <- released_note. by apply (sim_releasing nid i (note j sa)).
Qed.

(** ** Whole handlers *)

Lemma set_client_id nid node s : sv_nodes s !! nid = Some node -> set_client nid node s = s.
Proof. intros Hn. unfold set_client. rewrite insert_id by done. by destruct s. Qed.

(** [sendTasksToSlave] is what its sections do. *)
Lemma send_section_spec nid i k s :
  looking nid i s ->
  (send_section nid i k s = (s, Sending nid (S i) k) /\ looking nid (S i) s) \/
  send_section nid i k s = ((sendTasksToSlave nid s).2, return_to k).
Proof.
  intros (node & Hn & Hc & Hb). unfold send_section, sendTasksToSlave. rewrite Hn.
  replace (m_freeCores node <=? 0) with false by (symmetry; lia).
  destruct (sv_tasks s !! i) as [t|] eqn:Ei.
  2:{ right. apply lookup_ge_None in Ei. rewrite take_ge in Hb by done. rewrite send_loop_all_busy by done.
      simpl. by rewrite set_tasks_id, set_client_id. }
  destruct (busy t) eqn:Et.
  { left. split; [done|]. exists node. split; [done|]. split; [done|].
    rewrite (take_S_r _ _ t) by done. apply Forall_app. by split; [|constructor]. }
  right. pose proof (send_loop_first (sv_fs s) nid node _ t (drop (S i) (sv_tasks s)) Hb Et) as E.
  rewrite take_drop_middle in E by done. rewrite E. clear E.
  destruct (MTask_IsInitialized _); simpl; [|by rewrite set_tasks_id, set_client_id].
  unfold node_after. pose proof (send_freeCores node (mkMPacket (Some (task_packet (sv_fs s) t)) None)) as Hf.
  destruct (send node _) as [r node']. simpl in *. rewrite Hf.
  by rewrite (insert_take_drop (sv_tasks s) i _) by (by eapply lookup_lt_Some).
Qed.

Lemma enter_send_spec nid k s :
  (enter_send nid k s = (s, Sending nid 0 k) /\ looking nid 0 s) \/
  (enter_send nid k s = (s, return_to k) /\ (sendTasksToSlave nid s).2 = s).
Proof.
  unfold enter_send, sendTasksToSlave. destruct (sv_nodes s !! nid) as [node|] eqn:Hn; [|by right].
  destruct (Z.leb_spec (m_freeCores node) 0); [by right|]. left. split; [done|]. by exists node.
Qed.

(** One packet: the body of the loop of [onRecvFromNode]. *)
Lemma handle_split nid packet s :
  is_Some (sv_nodes s !! nid) ->
  handle_packet fullId nid packet s =
    match sp_result packet with
    | Some result => (applyResultFromSlave fullId nid result (after_info nid packet s)).2
    | None => after_info nid packet s
    end.
Proof.
  intros [node Hn]. unfold handle_packet, after_info, set_cores. rewrite Hn. by destruct (sp_info packet).
Qed.

Lemma recv_opened nid packet sa s :
  opened nid packet sa s -> (recv_loop fullId 1 nid sa).2 = handle_packet fullId nid packet s.
Proof.
  intros (node & data & base & Hn & Hcl & Hq & He & -> & Hi & ->). cbn [recv_loop]. rewrite Hn.
  replace (Nat.ltb 0 _) with true by (symmetry; by apply Nat.ltb_lt). by rewrite He, Hi.
Qed.

Lemma opened_node nid packet sa s : opened nid packet sa s -> is_Some (sv_nodes s !! nid).
Proof. intros (node & data & base & _ & _ & _ & _ & _ & _ & ->). simpl. rewrite lookup_insert_eq. by eexists. Qed.

(** [applyResultFromSlave] is what its sections do. *)
Lemma apply_section_spec nid result i s :
  Forall (fun t => result_for nid result t = false) (take i (sv_tasks s)) ->
  (apply_section nid result i s = (s, Applying nid result (S i)) /\
   Forall (fun t => result_for nid result t = false) (take (S i) (sv_tasks s))) \/
  apply_section nid result i s = ((applyResultFromSlave fullId nid result s).2, Reading nid).
Proof.
  intros Hf. unfold apply_section, applyResultFromSlave. destruct (sv_tasks s !! i) as [t|] eqn:Ei.
  - destruct (result_for nid result t) eqn:Et; simpl; [right|left].
    + pose proof (apply_loop_first fullId (sv_fs s) nid result _ t (drop (S i) (sv_tasks s)) Hf Et) as E.
      rewrite take_drop_middle in E by done. rewrite E. destruct (apply_result _ _ _ _ t) as [t' f]. simpl.
      by rewrite insert_take_drop by (by eapply lookup_lt_Some).
    + split; [done|]. rewrite (take_S_r _ _ t) by done. apply Forall_app. by split; [|constructor].
  - right. apply lookup_ge_None in Ei. rewrite take_ge in Hf by done. rewrite apply_loop_none by done.
    simpl. rewrite set_tasks_id. by destruct s.
Qed.

Lemma released_0 nid l : released nid 0 l = l.
Proof. unfold released. apply list_eq. intros k. rewrite list_lookup_imap. by destruct (l !! k). Qed.

Lemma released_S nid i l t : l !! i = Some t -> <[i := release nid t]> (released nid i l) = released nid (S i) l.
Proof.
  intros Hi. unfold released. apply list_eq. intros k. rewrite list_lookup_imap. destruct (decide (k = i)) as [->|Hne].
  - rewrite list_lookup_insert_eq by (rewrite length_imap; by eapply lookup_lt_Some). rewrite Hi. simpl.
    by replace (i <? S i)%nat with true by (symmetry; apply Nat.ltb_lt; lia).
  - rewrite list_lookup_insert_ne, list_lookup_imap by done. destruct (l !! k); [|done]. simpl.
    by replace (k <? S i)%nat with (k <? i)%nat by (apply eq_true_iff_eq; rewrite !Nat.ltb_lt; lia).
Qed.

Lemma released_all nid i l : (length l <= i)%nat -> released nid i l = release nid <$> l.
Proof.
  intros Hi. unfold released. apply list_eq. intros k. rewrite list_lookup_imap, list_lookup_fmap.
  destruct (l !! k) eqn:Ek; [|done]. apply lookup_lt_Some in Ek. simpl.
  by replace (k <? i)%nat with true by (symmetry; apply Nat.ltb_lt; lia).
Qed.

(** ** The simulation *)

Lemma one_handler s s' m : server_step fullId s s' -> rtc (con_step fullId) (s, m) (s', m).
Proof. intros Hs. by apply rtc_once, con_server. Qed.

(** The loop of [doWork] goes on, after a call of [sendTasksToSlave] that
    began with [sends done sa]. *)
Lemma sim_sent done nid rest sa :
  sv_clients sa = done ++ nid :: rest -> sim sa (sendTasksToSlave nid (sends done sa)).2 (Working rest).
Proof. intros Hc. rewrite <- sends_snoc. constructor. by rewrite Hc, <- app_assoc. Qed.

(** A packet has been handled. *)
Lemma packet_done nid packet sa s0 s m :
  opened nid packet sa s0 -> handle_packet fullId nid packet s0 = s ->
  exists sa', rtc (con_step fullId) (sa, m) (sa', m) /\ sim sa' s (Reading nid).
Proof.
  intros Ho E. pose proof Ho as (_ & _ & _ & _ & Hcl & _).
  assert (Hstep : server_step fullId sa s) by (rewrite <- E, <- (recv_opened _ _ _ _ Ho); by apply st_recv).
  exists s. split; [by apply one_handler|]. constructor.
  assert (Hc : sv_clients s = sv_clients sa); [|by rewrite Hc].
  rewrite <- E, (handle_split _ _ _ (opened_node _ _ _ _ Ho)).
  assert (Hi : sv_clients (after_info nid packet s0) = sv_clients sa).
  { destruct (opened_unnoticed _ _ _ _ Ho) as [_ <-]. apply after_info_unnoticed. }
  destruct (sp_result packet) as [r|]; [|done]. unfold applyResultFromSlave.
  by destruct (apply_loop _ _ _ _ _) as [[? ?] ?].
Qed.

Lemma read_sim nid s m s' c' :
  nid ∈ sv_clients s -> read_packet nid s = (s', c') ->
  exists sa', rtc (con_step fullId) (s, m) (sa', m) /\ sim sa' s' c'.
Proof.
  intros Hcl. unfold read_packet. destruct (sv_nodes s !! nid) as [node|] eqn:Hn; [|intros [= <- <-]; by exists s; split; constructor].
  destruct (Nat.ltb_spec 0 (countRecvPackets (pn_base node))); [|intros [= <- <-]; by exists s; split; constructor].
  destruct (extractRecvPacket (pn_base node)) as [data base] eqn:He.
  destruct (SPacket_IsInitialized (ParseFromArray data)) eqn:Hi; cbn [negb].
  2:{ intros [= <- <-]. eexists. split; [apply one_handler, (st_recv fullId 1); exact Hcl|].
      cbn [recv_loop]. rewrite Hn. replace (Nat.ltb 0 _) with true by (symmetry; by apply Nat.ltb_lt).
      rewrite He, Hi. constructor. }
  set (s0 := set_client nid (mkNode base (m_freeCores node)) s).
  assert (Ho : opened nid (ParseFromArray data) s s0) by (by exists node, data, base).
  intros E. exists s. split; [done|]. revert E.
  pose proof (sim_answering _ _ _ _ Ho) as Hans. pose proof (sim_send_packet nid (ParseFromArray data) 0 s s0 Ho) as Hsend.
  unfold after_info, set_cores in Hans, Hsend. unfold s0 in Hans, Hsend; cbn [sv_nodes set_client] in Hans, Hsend.
  rewrite lookup_insert_eq in Hans, Hsend. fold s0 in Hans, Hsend.
  destruct (sp_info (ParseFromArray data)) as [info|]; [|by intros [= <- <-]].
  destruct (enter_send_spec nid (ToPacket nid (ParseFromArray data)) (set_client nid (with_freeCores
    (get_num_field (si_task_count info)) (mkNode base (m_freeCores node))) s0)) as [[-> Hl] | [-> Ee]]; intros [= <- <-].
  - by apply Hsend.
  - by rewrite Ee in Hans.
Qed.

Lemma server_run_sim sa s c s' c' m :
  sim sa s c -> server_run s c = (s', c') ->
  exists sa', rtc (con_step fullId) (sa, m) (sa', m) /\ sim sa' s' c'.
Proof.
  destruct 1 as [s|done rest sa Hc|done nid rest i sa Hc Hl|nid s Hn|nid packet i sa s0 Ho Hi Hl|nid packet sa s0 Ho
    |nid packet result i sa s0 Ho Hr Hf|nid i sa Hn]; cbn [server_run].
  - intros [= <- <-]. exists s. by split; [|constructor].
  - destruct rest as [|nid rest].
    + intros [= <- <-]. exists (doWork sa). split; [by apply one_handler, st_work|].
      rewrite app_nil_r in Hc. unfold doWork. rewrite Hc. constructor.
    + intros E. exists sa. split; [done|]. revert E.
      destruct (enter_send_spec nid (ToWork rest) (sends done sa)) as [[-> Hl] | [-> Ee]]; intros [= <- <-].
      * by constructor.
      * rewrite <- Ee at 1. by apply sim_sent.
  - intros E. exists sa. split; [done|]. revert E.
    destruct (send_section_spec nid i (ToWork rest) _ Hl) as [[-> Hl']| ->]; intros [= <- <-]; [by constructor|by apply sim_sent].
  - by apply read_sim.
  - intros E. exists sa. split; [done|]. revert E.
    destruct (send_section_spec nid i (ToPacket nid packet) _ Hl) as [[-> Hl']| ->]; intros [= <- <-]; [by constructor|].
    pose proof (sim_answering _ _ _ _ Ho) as Hans. unfold after_info in Hans. by destruct (sp_info packet).
  - pose proof (handle_split nid packet s0 (opened_node _ _ _ _ Ho)) as Eh.
    destruct (sp_result packet) as [result|] eqn:Er; intros [= <- <-].
    + exists sa. split; [done|]. by eapply sim_applying.
    + by eapply packet_done.
  - pose proof (handle_split nid packet s0 (opened_node _ _ _ _ Ho)) as Eh. rewrite Hr in Eh.
    destruct (apply_section_spec nid result i _ Hf) as [[-> Hf']| ->]; intros [= <- <-].
    + exists sa. split; [done|]. by eapply sim_applying.
    + by eapply packet_done.
  - unfold release_section. cbn [sv_tasks set_tasks]. unfold released at 1. rewrite list_lookup_imap.
    destruct (sv_tasks sa !! i) as [t|] eqn:Ei; simpl; intros [= <- <-].
    + exists sa. split; [done|]. rewrite Nat.ltb_irrefl, (released_S _ _ _ _ Ei). exact (sim_releasing nid (S i) sa Hn).
    + exists (drop_client nid sa). split; [by apply one_handler, st_disconnect|].
      apply lookup_ge_None in Ei. rewrite released_all by done. constructor.
Qed.

Lemma sim_between_inv sa s : sim sa s Between -> sa = s.
Proof. by inversion 1. Qed.

Lemma lock_step_sim sa s c m s' c' m' :
  sim sa s c -> lock_step (s, c, m) (s', c', m') ->
  exists sa', rtc (con_step fullId) (sa, m) (sa', m') /\ sim sa' s' c'.
Proof.
  intros Hsim Hstep. inversion Hstep; subst; [by eapply server_run_sim|apply sim_between_inv in Hsim as ->..|].
  - exists s'. split; [done|]. by apply (sim_working []).
  - exists s'. split; [done|]. by constructor.
  - exists s'. split; [done|]. pose proof (sim_releasing nid 0 s') as Hs. rewrite released_0, set_tasks_id in Hs. by apply Hs.
  - eexists. split; [by apply one_handler, st_connect|constructor].
  - eexists. split; [by apply one_handler; eapply st_traffic|constructor].
  - eexists. split; [by apply one_handler, st_close|constructor].
  - eexists. split; [by apply one_handler, st_disk|constructor].
  - match goal with Hm : monitor_step _ _ |- _ =>
      destruct (monitor_step_unnoticed sa _ _ _ _ (sim_unnoticed _ _ _ Hsim) Hm) as (sa' & Hm' & Hs) end.
    exists sa'. split; [by apply rtc_once, con_monitor|].
    destruct Hs as [[-> ->]|(j & -> & ->)]; [done|by apply sim_note].
Qed.

Lemma lock_simulation s0 s c m0 m :
  rtc lock_step (s0, Between, m0) (s, c, m) -> exists sa, rtc (con_step fullId) (s0, m0) (sa, m) /\ sim sa s c.
Proof.
  set (Q := fun x : Server N F * control * Monitor =>
    exists sa, rtc (con_step fullId) (s0, m0) (sa, x.2) /\ sim sa x.1.1 x.1.2).
  intros Hr. change (Q (s, c, m)). refine (rtc_preserves lock_step Q _ _ _ Hr _).
  - intros [[s1 c1] m1] [[s2 c2] m2] (sa & R & Hs) Hstep. destruct (lock_step_sim _ _ _ _ _ _ _ Hs Hstep) as (sa' & R' & Hs').
    exists sa'. split; [by etransitivity|done].
  - exists s0. by split; [|constructor].
Qed.

(** C7: a handler may be taken as one action.  Whatever the interleaving of
    the critical sections of the two threads, there is a run of whole handlers
    (and whole packets) that leads the main thread to the same state, past the
    same results; whenever the server's thread is between two handlers, the
    two runs are in the same state altogether. *)
Theorem handlers_atomic s0 m0 s c m :
  rtc lock_step (s0, Between, m0) (s, c, m) ->
  exists sa, rtc (con_step fullId) (s0, m0) (sa, m) /\
    Forall2 same_outcome (sv_tasks sa) (sv_tasks s) /\ sv_clients s = sv_clients sa /\ (c = Between -> sa = s).
Proof.
  intros Hr. destruct (lock_simulation _ _ _ _ _ Hr) as (sa & R & Hs). exists sa. split; [exact R|].
  destruct (sim_unnoticed _ _ _ Hs). do 2 (split; [done|]). intros ->. by apply sim_between_inv.
Qed.

Lemma count_outcome (Q : TaskInfo -> bool) l l' :
  (forall t t', same_outcome t t' -> Q t' = Q t) -> Forall2 same_outcome l l' -> count Q l' = count Q l.
Proof.
  intros HQ. induction 1 as [|t t' l l' Ht _ IH]; [done|]. unfold count in *. rewrite !filter_cons, (HQ _ _ Ht).
  case_decide; simpl; congruence.
Qed.

Lemma outcome_noted t t' : same_outcome t t' -> noted t' = noted t /\ failed t' = failed t /\ succeeded t' = succeeded t.
Proof. intros (Er & Ee & Ei & _). unfold noted, failed, succeeded. by rewrite Er, Ee, Ei. Qed.

Section claims.
Hypothesis fullId_nonempty : forall n, fullId n <> "".

(** C8: the progress the console prints is exact under every interleaving of
    the critical sections of its main thread and of its server: at each moment
    the per-daemon counters add up to the failed and to the successful tasks
    it has taken note of, no counter overflows, and no task is counted twice
    or lost. *)
Theorem monitor_accounting tasks f s c m :
  Forall (fun t => fresh t /\ message_complete t) tasks -> Z.of_nat (length tasks) < 2 ^ 64 - 1 ->
  rtc lock_step (Server_init tasks f, Between, Monitor_init) (s, c, m) ->
  totals (mo_info m) =
    (Z.of_nat (count (fun t => noted t && failed t) (sv_tasks s)),
     Z.of_nat (count (fun t => noted t && succeeded t) (sv_tasks s))).
Proof.
  intros Hf Hn Hr. destruct (lock_simulation _ _ _ _ _ Hr) as (sa & R & Hs).
  destruct (sim_unnoticed _ _ _ Hs) as [Ho _]. rewrite (con_totals fullId fullId_nonempty tasks f sa m Hf Hn R).
  do 2 f_equal; symmetry; apply count_outcome; try done; intros t t' Ht;
    destruct (outcome_noted t t' Ht) as (? & ? & ?); congruence.
Qed.

(** C9: the console stops with success only when the build is over: if the
    loop has ended because a pass found nothing unfinished, every task of the
    build has a result, and the two totals are the numbers of failed and of
    successful tasks - even if the server's thread is in the middle of a
    handler. *)
Theorem monitor_finished tasks f s c m :
  Forall (fun t => fresh t /\ message_complete t) tasks -> Z.of_nat (length tasks) < 2 ^ 64 - 1 ->
  rtc lock_step (Server_init tasks f, Between, Monitor_init) (s, c, m) -> mo_phase m = Finished ->
  length (sv_tasks s) = length tasks /\
  Forall (fun t => m_result t <> NoInit /\ m_node t = None /\ m_doneIp t = "") (sv_tasks s) /\
  mo_countError m = Z.of_nat (count failed (sv_tasks s)) /\
  mo_countSuccess m = Z.of_nat (count succeeded (sv_tasks s)).
Proof.
  intros Hf Hn Hr Hph. destruct (lock_simulation _ _ _ _ _ Hr) as (sa & R & Hs).
  destruct (sim_unnoticed _ _ _ Hs) as [Ho _].
  pose proof (con_reachable_inv fullId fullId_nonempty tasks f _ Hf Hn R) as HI.
  destruct (con_finished _ _ _ HI Hph) as (Hl & Hd & -> & ->).
  rewrite (Forall2_length _ _ _ Ho) in Hl. split; [done|]. split.
  - apply Forall_lookup. intros i t' Hi. destruct (Forall2_lookup_r _ _ _ _ _ Ho Hi) as (t & Ht & Er & Ee & Ei & Hnode).
    rewrite Forall_lookup in Hd. destruct (Hd i t Ht) as (? & ? & ?). rewrite Er, Ei. by split; [|split; [apply Hnode|]].
  - split; f_equal; symmetry; apply count_outcome; try done; intros t t' Ht;
      destruct (outcome_noted t t' Ht) as (_ & ? & ?); done.
Qed.
End claims.
End locks.
