(* ===== verification/Build.v ===== *)
(** * The whole build: console, daemons, links and the main thread

    [System] interleaves the console's server with the daemons and the links;
    [Console] interleaves it with the monitoring loop of [main].  Here all of
    them run together.  Each run projects on a run of the system and on a run
    of the console, so the invariants of both hold; and from every state that
    can be reached before the timeout the build can be brought to its end and
    [main] returns 0.  [fdbconsole] is [main] with the functions it calls put
    in, from the registry to the announcement. *)

From Stdlib Require Import String.
From S2P Require Import Prelude CxxStd Bytes External Float32 Projects Process Messages Tasks TaskGen.
From S2P Require Import Server Schedule Client System Progress Console Discovery.
Local Open Scope string_scope.
Local Open Scope Z_scope.
Local Open Scope list_scope.

Section build.
Context {N : Type} `{FifoNode N} {F : Type} `{FileSystem F} `{ExitCodes} `{ProcessOps W P} `{StringUtils} `{ProtoMessages}.
Context (fullId : NodeId -> string).
Context (threads : NodeId -> Z) (launch : NodeId -> nat -> string -> string -> string -> P).
Context (log_fault : NodeId -> Z -> Z -> Z -> outcome unit) (projects : NodeId -> Projects).
Implicit Types (s : Server N F) (t : TaskInfo) (m : Monitor) (cs : gmap NodeId (Client N F P)) (f g : F).
Implicit Types (S : Sys (N := N) (F := F) (P := P)) (X Y : Sys (N := N) (F := F) (P := P) * Monitor).

(** One step of a daemon, of a link or of the server's thread, or of the
    main thread; no packet on the wire reaches 2 GiB. *)
Inductive build_step : Sys (N := N) (F := F) (P := P) * Monitor -> Sys * Monitor -> Prop :=
| bs_net S S' m :
    net_run (W := W) fullId threads launch log_fault projects S S' -> build_step (S, m) (S', m)
| bs_main s s' m m' cs :
    monitor_step (s, m) (s', m') -> build_step (mkSys s cs, m) (mkSys s' cs, m').

Abbreviation run := (run_step (W := W) fullId threads launch log_fault projects).

(** ** Projections *)

Lemma set_tasks_insert_id s i t : sv_tasks s !! i = Some t -> set_tasks (<[i := t]> (sv_tasks s)) s = s.
Proof. intros Hi. by rewrite list_insert_id, set_tasks_id. Qed.

(** A task that still runs, or waits, is passed over. *)
Lemma main_waits s m t :
  mo_phase m = Pass -> sv_tasks s !! mo_index m = Some t -> m_result t = NoInit ->
  monitor_step (s, m) (s, mkMonitor Pass (1 + mo_index m) false (mo_info m) (mo_countError m) (mo_countSuccess m)).
Proof.
  intros Hph Hi Hr. rewrite <- (set_tasks_insert_id s (mo_index m) t Hi) at 2. apply mon_task with t; [done|done|].
  by rewrite note_task_spec, Hr, Z.eqb_refl.
Qed.

(** The main thread is visible to the system only as a note. *)
Lemma main_in_system s s' m m' cs :
  sys_small (mkSys s cs) -> monitor_step (s, m) (s', m') -> rtc run (mkSys s cs) (mkSys s' cs).
Proof.
  intros Hsm Hm. inversion Hm; subst; try done.
  match goal with Hn : note_task _ _ _ = _ |- _ => rename Hn into Hnote end. rewrite note_task_spec in Hnote.
  destruct (Z.eqb_spec (m_result t) NoInit); [injection Hnote as <- <- <-; by rewrite set_tasks_insert_id|].
  destruct (noted t); injection Hnote as <- <- <-; [by rewrite set_tasks_insert_id|].
  apply rtc_once. split; [by apply sys_note|done].
Qed.

Lemma build_in_system X Y : sys_small X.1 -> rtc build_step X Y -> rtc run X.1 Y.1 /\ sys_small Y.1.
Proof.
  intros Hsm. induction 1 as [|X1 X2 X3 H12 _ IH]; [done|].
  enough (rtc run X1.1 X2.1 /\ sys_small X2.1) as [R Hsm2].
  { destruct (IH Hsm2) as [R' ?]. split; [by etransitivity|done]. }
  destruct H12 as [S S' m HS|s s' m m' cs Hm]; simpl in *.
  - split; [apply rtc_once; by apply net_run_step|apply HS].
  - split; [by eapply main_in_system|]. by inversion Hm; subst.
Qed.

(** The server sees a daemon or a link only as traffic on a node. *)
Lemma net_in_console S S' :
  net_step (W := W) fullId threads launch log_fault projects S S' ->
  rtc (server_step fullId) (sy_server S) (sy_server S').
Proof.
  destruct 1; simpl; try done; apply rtc_once; try (by constructor).
  all: unfold with_base; by eapply st_traffic.
Qed.

Definition con_view X : Server N F * Monitor := (sy_server X.1, X.2).

Lemma build_in_console X Y : rtc build_step X Y -> rtc (con_step fullId) (con_view X) (con_view Y).
Proof.
  induction 1 as [|X1 X2 X3 H12 _ IH]; [done|]. etransitivity; [|exact IH]. clear IH.
  destruct H12 as [S S' m [HS _]|s s' m m' cs Hm]; unfold con_view; simpl.
  - apply net_in_console in HS. induction HS; [done|]. eapply rtc_l; [by apply con_server|done].
  - by apply rtc_once, con_monitor.
Qed.

(** ** Runs of the parts are runs of the whole *)

Lemma system_in_build S S' m :
  rtc (net_run (W := W) fullId threads launch log_fault projects) S S' -> rtc build_step (S, m) (S', m).
Proof. induction 1; [done|]. eapply rtc_l; [by apply bs_net|done]. Qed.

Lemma main_in_build s s' m m' cs :
  rtc monitor_step (s, m) (s', m') -> rtc build_step (mkSys s cs, m) (mkSys s' cs, m').
Proof.
  intros Hr. change (rtc build_step ((fun sm => (mkSys sm.1 cs, sm.2)) (s, m)) ((fun sm => (mkSys sm.1 cs, sm.2)) (s', m'))).
  eapply rtc_congruence; [|exact Hr]. intros [? ?] [? ?]. apply bs_main.
Qed.

(** ** The jobs of a build stay what they were *)

Lemma insert_jobs (l : list TaskInfo) i t t' : l !! i = Some t -> same_job t t' -> Forall2 same_job l (<[i := t']> l).
Proof.
  intros Hi Hj. rewrite insert_take_drop by (by eapply lookup_lt_Some). rewrite <- (take_drop_middle l i t Hi) at 1.
  apply Forall2_app; [done|]. by constructor.
Qed.

Lemma monitor_jobs s s' m m' : monitor_step (s, m) (s', m') -> Forall2 same_job (sv_tasks s) (sv_tasks s').
Proof.
  inversion 1; subst; try done.
  match goal with Hi : _ !! _ = Some t |- _ => eapply insert_jobs; [exact Hi|] end.
  match goal with Hn : note_task _ _ _ = _ |- _ => rewrite note_task_spec in Hn end.
  destruct (m_result t =? NoInit); [by simplify_eq|]. by destruct (noted t); simplify_eq.
Qed.

Lemma con_step_jobs n (sm sm' : Server N F * Monitor) :
  con_inv n sm -> con_step fullId sm sm' -> Forall2 same_job (sv_tasks sm.1) (sv_tasks sm'.1).
Proof.
  intros HI. destruct 1 as [s s' m Hs|[s m] [s' m'] Hm]; [|by eapply monitor_jobs].
  destruct (server_step_good _ _ _ (cn_server _ _ HI) Hs) as [_ [_ Hev]].
  eapply Forall2_impl; [exact Hev|]. by intros t t' [].
Qed.

Section runs.
Hypothesis fullId_nonempty : forall n, fullId n <> "".

(** What every state reached keeps. *)
Lemma build_reached tasks f S m :
  Forall (fun t => ready t) tasks -> Z.of_nat (length tasks) < 2 ^ 64 - 1 ->
  rtc build_step (Sys_init tasks f, Monitor_init) (S, m) ->
  sys_inv S /\ sys_small S /\ con_inv (length tasks) (sy_server S, m) /\
  Forall2 same_job tasks (sv_tasks (sy_server S)).
Proof.
  intros Hrd Hn Hr.
  assert (Hsm0 : sys_small (Sys_init (P := P) tasks f)) by (by split).
  destruct (build_in_system (Sys_init tasks f, Monitor_init) _ Hsm0 Hr) as [Rs Hsm].
  assert (Hf : Forall (fun t => fresh t /\ message_complete t) tasks).
  { eapply Forall_impl; [exact Hrd|]. by intros t (? & ? & ? & ?). }
  split.
  { eapply (run_inv _ _ _ _ _ tasks f); [|lia|exact Rs]. eapply Forall_impl; [exact Hrd|]. by intros t (? & ? & ? & ?). }
  split; [done|]. apply build_in_console in Hr.
  set (Q (sm : Server N F * Monitor) := con_inv (length tasks) sm /\ Forall2 same_job tasks (sv_tasks sm.1) : Prop).
  change (Q (con_view (S, m))). eapply (rtc_preserves (con_step fullId) Q); [|exact Hr|].
  - intros sm1 sm2 [HI Hj] Hstep. split; [by eapply con_step_inv|]. etransitivity; [exact Hj|]. by eapply con_step_jobs.
  - split; [by apply con_init_inv|done].
Qed.

(** The host [n] of [Progress], on the disks [disk]. *)
Context (n : NodeId) (base0 : N) (c0 : Client N F P) (e : Env W) (disk : F -> Prop).
Hypothesis able : able_host threads launch projects n base0 c0 e disk.
Abbreviation suits := (runnable projects n e disk).

(** The main thread can reach the top of its loop, or has left it. *)
Lemma main_to_top k S m :
  con_inv k (sy_server S, m) -> mo_phase m <> TimedOut ->
  exists ts m', rtc build_step (S, m) (mkSys (set_tasks ts (sy_server S)) (sy_clients S), m') /\
    (mo_phase m' = Top \/ mo_phase m' = Finished).
Proof.
  intros HI Hph. destruct S as [s cs]; simpl in *.
  destruct (mo_phase m) eqn:E; [| |exists (sv_tasks s), m|done].
  - exists (sv_tasks s), m. rewrite set_tasks_id, E. by split; [|left].
  - destruct (pass_over s m E) as (ts & m' & Hr & Hph' & _); [|by exists ts, m'; split; [apply main_in_build|]].
    pose proof (cn_index _ _ HI) as Hi. by rewrite <- (cn_length _ _ HI) in Hi.
  - rewrite set_tasks_id, E. by split; [|right].
Qed.

(** From the top of the loop a host finishes the build and a last pass finds
    it finished. *)
Lemma top_to_end S m :
  sys_inv S -> sys_small S -> mo_phase m = Top -> disk (sv_fs (sy_server S)) -> Forall suits (sv_tasks (sy_server S)) ->
  exists S' m', rtc build_step (S, m) (S', m') /\ mo_phase m' = Finished.
Proof.
  intros HI Hsm Hph Hd Hs.
  destruct (build_can_finish fullId threads launch log_fault projects n base0 c0 e disk S HI Hsm able Hd Hs)
    as (ts & g & R1 & Hdone & _).
  destruct (monitor_detects (mkServer ts ∅ [] g : Server N F) m Hph) as (ts' & m' & R2 & Hf).
  { eapply Forall_impl; [exact Hdone|]. by intros t []. }
  do 2 eexists. split; [|exact Hf]. etransitivity; [by apply system_in_build|]. by apply main_in_build.
Qed.

(** The state in which the loop has ended. *)
Definition over tasks S m : Prop :=
  Forall2 (fun t t' => same_job t t' /\ m_result t' <> NoInit /\ m_node t' = None) tasks (sv_tasks (sy_server S)) /\
  mo_countError m = Z.of_nat (count failed (sv_tasks (sy_server S))) /\
  mo_countSuccess m = Z.of_nat (count succeeded (sv_tasks (sy_server S))).

Lemma finished_over tasks f S m :
  Forall (fun t => ready t) tasks -> Z.of_nat (length tasks) < 2 ^ 64 - 1 ->
  rtc build_step (Sys_init tasks f, Monitor_init) (S, m) -> mo_phase m = Finished -> over tasks S m.
Proof.
  intros Hrd Hn Hr Hph. destruct (build_reached tasks f S m Hrd Hn Hr) as (_ & _ & HI & Hj).
  destruct (con_finished _ _ _ HI Hph) as (_ & Hdone & Hc). split; [|exact Hc].
  apply Forall2_same_length_lookup. split; [by eapply Forall2_length|]. intros i t t' Ht Ht'.
  rewrite Forall_lookup in Hdone. destruct (Hdone i t' Ht') as (? & ? & _).
  split; [|done]. by eapply Forall2_lookup_lr.
Qed.

Lemma build_ends tasks f S m :
  Forall (fun t => ready t) tasks -> Z.of_nat (length tasks) < 2 ^ 64 - 1 ->
  rtc build_step (Sys_init tasks f, Monitor_init) (S, m) -> mo_phase m <> TimedOut ->
  disk (sv_fs (sy_server S)) -> Forall suits tasks ->
  exists S' m', rtc build_step (S, m) (S', m') /\ mo_phase m' = Finished /\ over tasks S' m'.
Proof.
  intros Hrd Hn Hr Hph Hd Hs. destruct (build_reached tasks f S m Hrd Hn Hr) as (_ & _ & HI & _).
  destruct (main_to_top _ S m HI Hph) as (ts & m1 & R1 & Hph1).
  set (S1 := mkSys (set_tasks ts (sy_server S)) (sy_clients S)) in R1.
  assert (Hr1 : rtc build_step (Sys_init tasks f, Monitor_init) (S1, m1)) by (by etransitivity).
  enough (exists S' m', rtc build_step (S1, m1) (S', m') /\ mo_phase m' = Finished) as (S' & m' & R & Hf).
  { exists S', m'. split; [by etransitivity|]. split; [done|]. eapply finished_over; [done|done| |done]. by etransitivity. }
  destruct Hph1 as [Ht|Hf]; [|by exists S1, m1].
  destruct (build_reached tasks f S1 m1 Hrd Hn Hr1) as (HI1 & Hsm1 & _ & Hj1).
  apply top_to_end; [done|done|done|exact Hd|]. by eapply same_jobs_runnable.
Qed.
End runs.

(** ** The program *)

Section program.
Context `{XmlDom D E}.
Context (directory_iterator : string -> outcome (list string)) (LoadFile : string -> option D).
Context (realloc : nat -> nat -> bool) (broadcast : string -> outcome bool).
Abbreviation config := (loadConfig directory_iterator LoadFile realloc).

End program.

(** ** [main] with the parts it calls *)

Section exit_status.
Context `{XmlDom D E}.
(** The host: its paths, documents, directories and interfaces; [appPath] is
    the directory of the program and [LoadFile] reads both the registry and
    the build file. *)
Context (absolute : string -> string) (LoadFile : string -> option D) (appPath : string).
Context (directory_iterator : string -> outcome (list string)) (realloc : nat -> nat -> bool).
Context (crc32_get : bytes -> Z) (fill : bytes -> bytes) (localIps : list Z).
Context (updSend : nat -> string -> Z -> bytes -> Z).
Hypothesis few_interfaces : Z.of_nat (length localIps) < 2 ^ 64.
Hypothesis fullId_nonempty : forall k, fullId k <> "".

Definition registry : outcome (bool * Projects) :=
  loadFromFile absolute LoadFile (appPath ++ "\" ++ Global.fileProjects)%string Projects_init.

(** [WSAStartup] and the start of the server succeed or not; the monitoring
    loop is left in state [m], and [expired_after] is the timer's state after
    the loop. *)
Definition fdbconsole (wsa started : bool) (m : Monitor) (expired_after : bool)
    : string -> TaskVariables -> outcome (Z * list console_event) :=
  console_main registry (loadConfig directory_iterator LoadFile realloc) wsa started
    (sendBroadcast crc32_get fill updSend localIps) (fun _ => m) expired_after.

(** The tasks that [main] builds from the registry and the build file. *)
Definition plan configFile vars ps (tasks : list TaskInfo) : Prop :=
  registry = Ret (true, ps) /\
  loadConfig directory_iterator LoadFile realloc configFile ps vars [] = Ret (true, tasks).

(** The build of the plan has run until the monitoring loop was left. *)
Definition ran configFile vars f S m : Prop :=
  forall ps tasks, plan configFile vars ps tasks ->
    Z.of_nat (length tasks) < 2 ^ 64 - 1 /\
    rtc build_step (Sys_init tasks f, Monitor_init) (S, m) /\
    (mo_phase m = Finished \/ mo_phase m = TimedOut).

(** What [main] needs of the plan: it is not empty, and its tasks are fit to
    be built. *)
Lemma plan_tasks configFile vars ps tasks :
  plan configFile vars ps tasks ->
  exists task rest, tasks = task :: rest /\ Forall (fun t => ready t) tasks.
Proof.
  intros [_ Hc]. destruct (loadConfig_batch _ _ _ _ _ _ _ _ Hc) as [k Hb].
  pose proof (loadConfig_nonempty _ _ _ _ _ _ _ Hc) as Hne.
  destruct tasks as [|task rest]; [done|]. exists task, rest. split; [done|]. by eapply batch_all.
Qed.

End exit_status.
End build.
