(* ===== verification/Examples.v ===== *)
(** * Worked examples

    One small build, run through the definitions: a console with two tasks
    and a disk, a daemon that connects, takes a task and reports it, a
    daemon's client with three processes.  Each lemma applies a theorem of
    the development at such a state. *)

From Stdlib Require Import String.
From S2P Require Import Prelude CxxStd Bytes External Codec Process Projects Messages Tasks.
From S2P Require Import Server Schedule Client System Progress Discovery Daemon TaskGen Console Locks Build.
Local Open Scope string_scope.
Local Open Scope Z_scope.
Local Open Scope list_scope.

(** ** The console's side *)

Module Toy_console.
Definition vars (src out : string) : TaskVariables :=
  set_OutputFile out (set_SourceFileName (String_rawFilename src) (set_SourceFile src
    (set_PDir "d:\b" (set_PName "game" TaskVariables_init)))).

Definition message (id : Z) (src out : string) : MTask :=
  mkMTask (Some id) (Some "game") (Some out) (Some "cl.exe") (Some "-c") (Some "$(pdir)") (Some src)
    None (Some false).

Definition task (id : Z) (src out : string) : TaskInfo :=
  set_message (message id src out) (set_vars (vars src out) (TaskInfo_new id)).

Definition tasks : list TaskInfo := [task 1 "a.c" "a.o"; task 2 "b.c" "b.o"].
Definition disk : gmap string string := {["a.c" := "int a;"; "b.c" := "int b;"]}.

(** The build file the tasks come from. *)
Definition element (src out : string) : toy_elt :=
  ToyElt "Task" [("SourceFile", src); ("OutputFile", out); ("Application", "cl.exe"); ("Params", "-c");
                 ("WorkingDir", "$(pdir)"); ("AbortOnError", "false")] None [] [].
Definition build_file : list toy_elt :=
  [ToyElt "BuildSet" [] None [ToyElt "Project" [("Name", "game")] None [element "a.c" "a.o"; element "b.c" "b.o"] []] []].
Definition no_directory (dir : string) : outcome (list string) := Throw filesystem_error.
Definition LoadFile (file : string) : option (list toy_elt) := Some build_file.

Definition name (n : NodeId) : string := if decide (n = 1%positive) then "10.0.0.2" else "10.0.0.3".

(** What the daemon says: two free cores; then the result of task 1. *)
Definition hello : string := SerializeToString (mkSPacket (Some (mkSInfo (Some 2))) None).
Definition answer : SResult := mkSResult (Some 1) (Some 0) (Some Exited) (Some "a.o") (Some "OBJ").
Definition result : string := SerializeToString (mkSPacket (Some (mkSInfo (Some 1))) (Some answer)).

Abbreviation state := (Server toy_node (gmap string string)).
Definition start : state := Server_init tasks disk.
Definition joined : state := newClient 1%positive {| tn_recv := [hello]; tn_sent := [] |} start.
Definition assigned : state := (onRecvFromNode name 1%positive joined).2.
Definition answered : state :=
  set_client 1%positive (mkNode {| tn_recv := [result]; tn_sent := [] |} 1) assigned.
Definition done1 : state := (onRecvFromNode name 1%positive answered).2.

Lemma named n : name n <> "".
Proof. unfold name. by case_decide. Qed.

Lemma tasks_ready : Forall (fun t => fresh t /\ message_complete t) tasks.
Proof. repeat constructor. Qed.

Lemma reach_assigned : rtc (sv_step name) start assigned.
Proof.
  eapply rtc_l; [apply st_server, (st_connect name 1%positive); vm_compute; reflexivity|].
  apply rtc_once, st_server, (st_recv name _ 1%positive joined). vm_compute. left.
Qed.

Lemma assigned_done : rtc (sv_step name) assigned done1.
Proof.
  eapply rtc_l.
  - eapply st_server, (st_traffic name 1%positive {| tn_recv := [result]; tn_sent := [] |}
      (mkNode {| tn_recv := []; tn_sent := tn_sent (pn_base (default (TcpProtobufNode_new {| tn_recv := []; tn_sent := [] |})
         (sv_nodes assigned !! 1%positive))) |} 1)).
    vm_compute. reflexivity.
  - apply rtc_once, st_server, (st_recv name _ 1%positive answered). vm_compute. left.
Qed.

(** Both tasks done, the first noted by the main thread. *)
Definition finished_task (id : Z) (ip : string) (code : Z) : TaskInfo :=
  set_doneIp ip (set_exitCode code (set_result Exited (task id "a.c" "a.o"))).
Definition all_done : state := Server_init [finished_task 1 "" 0; finished_task 2 "10.0.0.2" 3] disk.
End Toy_console.

Lemma server_refines_witness :
  jobs (view Toy_console.assigned) = [Running 1%positive; Pending] /\
  rtc spec_step (mkSpec [Pending; Pending] ∅) (view Toy_console.assigned).
Proof.
  split; [vm_compute; reflexivity|].
  exact (proj2 (server_refines Toy_console.name Toy_console.tasks Toy_console.disk Toy_console.assigned
    Toy_console.tasks_ready Toy_console.reach_assigned)).
Defined.

Lemma assigned_inv : server_inv Toy_console.assigned.
Proof.
  apply (sv_steps_good Toy_console.name Toy_console.start); [|apply Toy_console.reach_assigned].
  apply Server_init_inv, Toy_console.tasks_ready.
Qed.

Lemma done1_inv : server_inv Toy_console.done1.
Proof.
  apply (sv_steps_good Toy_console.name Toy_console.assigned); [apply assigned_inv|].
  apply Toy_console.assigned_done.
Qed.

Lemma done_is_final_witness :
  jobs (view Toy_console.done1) = [Done Exited 0; Running 1%positive] /\
  exists t, sv_tasks (drop_client 1%positive Toy_console.done1) !! 0%nat = Some t /\ m_node t = None /\
    m_result t = Exited /\ m_exitCode t = 0.
Proof.
  split; [vm_compute; reflexivity|].
  apply (done_is_final Toy_console.name Toy_console.done1 _ 0%nat
    (set_doneIp "10.0.0.2" (set_result Exited (Toy_console.task 1 "a.c" "a.o"))) done1_inv).
  - apply rtc_once, st_server, st_disconnect. vm_compute. left.
  - vm_compute. reflexivity.
  - reflexivity.
  - discriminate.
Defined.

Lemma doWork_throughput_witness :
  pending_tasks (sv_tasks Toy_console.assigned) = 1%nat /\
  pending_tasks (sv_tasks (doWork Toy_console.assigned)) = 0%nat.
Proof.
  split; [vm_compute; reflexivity|].
  exact (eq_trans (doWork_throughput Toy_console.name Toy_console.assigned assigned_inv) ltac:(vm_compute; reflexivity)).
Defined.


Lemma disconnect_releases_witness :
  exists t, sv_tasks (onClientDisconnected 1%positive Toy_console.assigned) !! 0%nat = Some t /\ busy t = false.
Proof.
  destruct (disconnect_releases 1%positive Toy_console.assigned 0%nat
    (set_node (Some 1%positive) (Toy_console.task 1 "a.c" "a.o")) assigned_inv) as (t & Ht & Hn & _).
  - vm_compute. reflexivity.
  - exists t. split; [exact Ht|]. apply Hn. reflexivity.
Defined.

Lemma recv_loop_total_witness :
  queue_length 1%positive Toy_console.joined = 1%nat /\
  queue_length 1%positive (recv_loop Toy_console.name 7 1%positive Toy_console.joined).2 = 0%nat.
Proof.
  split; [reflexivity|].
  apply (recv_loop_total Toy_console.name 7 1%positive Toy_console.joined); [vm_compute; lia|].
  vm_compute. reflexivity.
Defined.

(** A build of one task, from the start to the end of the monitor's loop.  The
    two threads take turns: the first pass sees the task waiting, then the
    server hands it out and receives its result, and the second pass notes it
    while the server's thread is still in its packet loop. *)
Module Toy_build1.
Definition tasks : list TaskInfo := [Toy_console.task 1 "a.c" "a.o"].
Definition lock_state := (Server toy_node (gmap string string) * control * Monitor)%type.
Definition start : lock_state := (Server_init tasks Toy_console.disk, Between, Monitor_init).
(** The daemon's two packets have arrived on its connection: its free cores,
    and the result of the task. *)
Definition base : toy_node := {| tn_recv := [Toy_console.hello; Toy_console.result]; tn_sent := [] |}.
Definition joined : Server toy_node (gmap string string) := newClient 1%positive base (Server_init tasks Toy_console.disk).
Definition turns : list bool :=
  [true; false; false; true; true; false; true; true; true; true; false; true; false; false].
Definition final : lock_state := interleave Toy_console.name turns (joined, Reading 1%positive, Monitor_init).

Lemma ready : Forall (fun t => fresh t /\ message_complete t) tasks.
Proof. repeat constructor. Qed.

Lemma run : rtc (lock_step Toy_console.name) start (final.1.1, final.1.2, final.2).
Proof.
  eapply rtc_l; [apply (lk_connect Toy_console.name 1%positive base); vm_compute; reflexivity|].
  eapply rtc_l; [apply (lk_recv Toy_console.name 1%positive joined); vm_compute; left|].
  assert (E : final = (final.1.1, final.1.2, final.2)) by (by destruct final as [[? ?] ?]).
  rewrite <- E. apply interleave_steps.
Qed.
End Toy_build1.

Lemma monitor_accounting_witness : totals (mo_info (Toy_build1.final).2) = (0, 1).
Proof.
  exact (eq_trans (monitor_accounting Toy_console.name Toy_console.named Toy_build1.tasks Toy_console.disk
    Toy_build1.final.1.1 Toy_build1.final.1.2 Toy_build1.final.2 Toy_build1.ready ltac:(vm_compute; reflexivity)
    Toy_build1.run) ltac:(vm_compute; reflexivity)).
Defined.

Lemma monitor_finished_witness :
  Toy_build1.final.1.2 = Reading 1%positive /\
  Forall (fun t => m_result t <> NoInit /\ m_node t = None /\ m_doneIp t = "") (sv_tasks Toy_build1.final.1.1) /\
  mo_countSuccess Toy_build1.final.2 = 1.
Proof.
  split; [vm_compute; reflexivity|].
  destruct (monitor_finished Toy_console.name Toy_console.named Toy_build1.tasks Toy_console.disk
    Toy_build1.final.1.1 Toy_build1.final.1.2 Toy_build1.final.2 Toy_build1.ready ltac:(vm_compute; reflexivity)
    Toy_build1.run ltac:(vm_compute; reflexivity)) as (_ & Hall & _ & Hsu).
  split; [exact Hall|]. exact (eq_trans Hsu ltac:(vm_compute; reflexivity)).
Defined.

Lemma handlers_atomic_witness :
  exists sa, rtc (con_step Toy_console.name) (Server_init Toy_build1.tasks Toy_console.disk, Monitor_init)
    (sa, Toy_build1.final.2) /\ Forall2 same_outcome (sv_tasks sa) (sv_tasks Toy_build1.final.1.1).
Proof.
  destruct (handlers_atomic Toy_console.name _ _ _ _ _ Toy_build1.run) as (sa & Hr & Ho & _).
  exists sa. split; [exact Hr|exact Ho].
Defined.

(** ** The announcement *)

Lemma who_roundtrip_witness :
  who_of_bytes (who_bytes WhoIsHere_init ++ [1; 2; 3]) = Ret WhoIsHere_init.
Proof.
  refine (proj1 (who_roundtrip WhoIsHere_init [1; 2; 3] _)). split; try reflexivity; try (vm_compute; split; [discriminate|reflexivity]).
  repeat constructor; vm_compute; discriminate.
Defined.

Lemma sendBroadcast_spec_witness :
  exists b, sendBroadcast Toy_daemon.crc Toy_daemon.fill (fun k _ _ _ => if decide (k = 0)%nat then 80 else 79)
    [Toy_daemon.addr; 7] "game" = Ret b.
Proof.
  destruct (sendBroadcast_spec Toy_daemon.crc Toy_daemon.fill Toy_daemon.crc_range (fun _ => eq_refl)
    (fun _ Hl => Hl) (fun k _ _ _ => if decide (k = 0)%nat then 80 else 79) [Toy_daemon.addr; 7] "game")
    as (b & Hb & _).
  - vm_compute. lia.
  - repeat constructor; vm_compute; discriminate.
  - reflexivity.
  - exists b. exact Hb.
Defined.

(** ** The daemon's side *)

Module Toy_client.
(** The operating system lists the processes that have ended, with the exit
    code; a process is its number. *)
#[export] Instance procs : ProcessOps (list (nat * Z)) nat := {|
  proc_isRunning w p := negb (has (List.find (fun e => Nat.eqb e.1 p) w));
  proc_getExitCode w p :=
    match List.find (fun e => Nat.eqb e.1 p) w with Some e => (Exited, Some e.2) | None => (NoInit, None) end;
|}.

Definition ctask (p : nat) : CTask nat := mkCTask p (Z.of_nat p) "s" ("o" ++ String (Ascii.ascii_of_nat (48 + p)) "") false.
(** A task packet of the console. *)
Definition job : string :=
  SerializeToString (mkMPacket (Some (set_inputdata "int a;" (Toy_console.message 7 "$(pdir)a.c" "$(pdir)a.o"))) None).
Definition client : Client toy_node (gmap string string) nat :=
  mkClient (TcpProtobufNode_new {| tn_recv := [job]; tn_sent := [] |}) {["o0" := "A"; "o2" := "C"]}
    (ctask <$> [0; 1; 2]%nat) false 0 3 [0; 1; 2]%nat.
(** Processes 0 and 2 have ended, the latter after the loop has begun. *)
Definition env (k : nat) : Env (list (nat * Z)) :=
  mkEnv (if decide (k < 2)%nat then [(0%nat, 0)] else [(0%nat, 0); (2%nat, 5)]) 10 0.
Definition launch (n : nat) (app cmd dir : string) : nat := n.
Definition log_fault (id r e : Z) : outcome unit := Ret tt.
Definition after : Client toy_node (gmap string string) nat :=
  match cl_doWork 16 log_fault Toy_config.result env client with Ret c => c | _ => client end.
End Toy_client.

Import Toy_client.

Lemma doWork_sweep_witness :
  doWork_loop 16 Toy_client.log_fault Toy_config.result 3 Toy_client.env 0 Toy_client.client =
  sweep 16 Toy_client.log_fault Toy_config.result Toy_client.env [] (cl_tasks Toy_client.client) Toy_client.client.
Proof.
  destruct (doWork_sweep 16 Toy_client.log_fault Toy_config.result 3 Toy_client.env Toy_client.client) as [E1 E2].
  - reflexivity.
  - vm_compute. lia.
  - exact (eq_trans E1 E2).
Defined.


Lemma doWork_no_loss_witness :
  exists pre post, cl_tasks Toy_client.client = pre ++ post /\
    cl_tasks Toy_client.after = kept_by Toy_client.env pre ++ post.
Proof.
  destruct (doWork_no_loss 16 Toy_client.log_fault Toy_config.result Toy_client.env Toy_client.client Toy_client.after)
    as (pre & post & H1 & H2 & _).
  - reflexivity.
  - vm_compute. reflexivity.
  - exists pre, post. split; [exact H1|exact H2].
Defined.

Lemma client_objects_witness :
  client_inv Toy_client.after /\ cl_procs Toy_client.client `prefix_of` cl_procs Toy_client.after.
Proof.
  apply (client_objects 16 Toy_client.launch Toy_client.log_fault Toy_config.result).
  - split; [vm_compute; lia| | |reflexivity]; intros t Ht; simpl in Ht;
      repeat (apply elem_of_cons in Ht as [->|Ht]); try (by apply not_elem_of_nil in Ht);
      try (vm_compute; split; [discriminate|reflexivity]); simpl; rewrite !elem_of_cons; auto.
  - reflexivity.
  - apply (cs_work _ _ _ _ Toy_client.env). vm_compute. reflexivity.
Defined.

Lemma client_recv_total_witness :
  countRecvPackets (pn_base (cl_node Toy_client.client)) = 1%nat /\
  countRecvPackets (pn_base (cl_node
    (cl_recv_loop Toy_client.launch Toy_config.result 9 Toy_client.client).2)) = O.
Proof.
  split; [reflexivity|].
  destruct (client_recv_total Toy_client.launch Toy_config.result 9 Toy_client.client) as [E H1].
  - vm_compute. lia.
  - refine (eq_trans (f_equal (fun r => countRecvPackets (pn_base (cl_node r.2))) E) (H1 _)).
    vm_compute. reflexivity.
Defined.

(** ** Console and daemon together *)

#[export] Program Instance toy_fifo : FifoNode toy_node := {|
  inbox := tn_recv;
  outbox := tn_sent;
  arrive p n := {| tn_recv := tn_recv n ++ [p]; tn_sent := tn_sent n |};
  depart n := {| tn_recv := tn_recv n; tn_sent := tail (tn_sent n) |};
|}.
Next Obligation. done. Qed.
Next Obligation. intros [r o] d l; simpl. by intros ->. Qed.
Next Obligation. done. Qed.
Next Obligation.
  intros n p. split; [|done]. intros Hp. simpl. unfold str_len. destruct p; [done|]. simpl. lia.
Qed.
Next Obligation. done. Qed.
Next Obligation. done. Qed.

#[export] Instance toy_messages : ProtoMessages.
Proof. by split. Qed.

Module Toy_system.
Abbreviation server := (Server toy_node (gmap string string)).
Abbreviation daemon := (Client toy_node (gmap string string) nat).
Abbreviation sys := (Sys (N := toy_node) (F := gmap string string) (P := nat)).
Definition n1 : NodeId := 1%positive.
Definition threads (n : NodeId) : Z := 1.
Definition launch (n : NodeId) := Toy_client.launch.
Definition log_fault (n : NodeId) := Toy_client.log_fault.
Definition projects (n : NodeId) : Projects := Toy_config.result.
Abbreviation step := (run_step (W := list (nat * Z)) Toy_console.name threads launch log_fault projects).
Abbreviation net_only := (net_run (W := list (nat * Z)) Toy_console.name threads launch log_fault projects).

Definition no_packets : toy_node := {| tn_recv := []; tn_sent := [] |}.
Definition new_daemon : daemon := mkClient (TcpProtobufNode_new no_packets) ∅ [] false 0 0 [].
Definition ret {A} (d : A) (x : outcome A) : A := match x with Ret a => a | _ => d end.

(** The daemon connects, its greeting arrives, a task is sent, arrives and is
    started. *)
Definition greeted : daemon := (ret (false, new_daemon) (onConnect 1 Toy_config.result (Toy_client.env O) new_daemon)).2.
Definition start : sys := Sys_init Toy_console.tasks Toy_console.disk.
Definition client_at (S : sys) : daemon := default new_daemon (sy_clients S !! n1).
Definition node_at (S : sys) := default (TcpProtobufNode_new no_packets) (sv_nodes (sy_server S) !! n1).
Definition back (S : sys) : sys :=
  mkSys (set_client n1 (with_base (arrive (default "" (head (out_box (cl_node (client_at S))))) (pn_base (node_at S))) (node_at S)) (sy_server S))
    (<[n1 := cl_set_node (with_base (depart (pn_base (cl_node (client_at S)))) (cl_node (client_at S))) (client_at S)]> (sy_clients S)).
Definition out (S : sys) : sys :=
  mkSys (set_client n1 (with_base (depart (pn_base (node_at S))) (node_at S)) (sy_server S))
    (<[n1 := cl_set_node (with_base (arrive (default "" (head (out_box (node_at S)))) (pn_base (cl_node (client_at S)))) (cl_node (client_at S))) (client_at S)]> (sy_clients S)).
Definition console_reads (S : sys) : sys := mkSys (onRecvFromNode Toy_console.name n1 (sy_server S)).2 (sy_clients S).
Definition daemon_reads (S : sys) : sys :=
  mkSys (sy_server S) (<[n1 := (cl_onRecvFromNode (launch n1) (projects n1) (client_at S)).2]> (sy_clients S)).

Definition connected : sys := mkSys (newClient n1 no_packets (sy_server start)) {[n1 := greeted]}.
Definition greeting_in : sys := back connected.
Definition task_sent : sys := console_reads greeting_in.
Definition task_in : sys := out task_sent.
Definition task_runs : sys := daemon_reads task_in.
(** The process ends. *)
Definition reported : daemon :=
  ret new_daemon (cl_doWork 1 (log_fault n1) (projects n1) Toy_client.env (client_at task_runs)).
Definition report_in : sys := back (mkSys (sy_server task_runs) (<[n1 := reported]> (sy_clients task_runs))).
Definition report_read : sys := console_reads report_in.

#[export] Instance small_dec d : Decision (small d).
Proof. unfold small. apply _. Defined.

(** The packets of all nodes of a state. *)
Definition packets (S : sys) : list string :=
  concat (out_box <$> (snd <$> map_to_list (sv_nodes (sy_server S))))
    ++ concat ((fun c : daemon => out_box (cl_node c)) <$> (snd <$> map_to_list (sy_clients S))).

Lemma small_check (S : sys) : forallb (fun d => bool_decide (small d)) (packets S) = true -> sys_small S.
Proof.
  rewrite forallb_forall. intros Hall.
  assert (Hb : forall l d, d ∈ concat l -> (forall x, x ∈ concat l -> In x (packets S)) -> small d).
  { intros l d Hd Hin. specialize (Hall d (Hin d Hd)). by apply bool_decide_eq_true in Hall. }
  unfold packets in *. split.
  - intros n node Hn. apply Forall_forall. intros d Hd.
    apply (Hb (out_box <$> (snd <$> map_to_list (sv_nodes (sy_server S))))).
    + apply list_elem_of_In, in_concat. exists (out_box node). split; [|by apply list_elem_of_In].
      apply list_elem_of_In, list_elem_of_fmap. exists node. split; [done|].
      apply list_elem_of_fmap. exists (n, node). split; [done|]. by apply elem_of_map_to_list.
    + intros x Hx. apply list_elem_of_In, elem_of_app. by left.
  - intros n c Hn. apply Forall_forall. intros d Hd.
    apply (Hb ((fun c : daemon => out_box (cl_node c)) <$> (snd <$> map_to_list (sy_clients S)))).
    + apply list_elem_of_In, in_concat. exists (out_box (cl_node c)). split; [|by apply list_elem_of_In].
      apply list_elem_of_In, list_elem_of_fmap. exists c. split; [done|].
      apply list_elem_of_fmap. exists (n, c). split; [done|]. by apply elem_of_map_to_list.
    + intros x Hx. apply list_elem_of_In, elem_of_app. by right.
Qed.

Lemma sys_parts (S : sys) : S = mkSys (sy_server S) (sy_clients S).
Proof. by destruct S. Qed.

Lemma tasks_ok : Forall (fun t => fresh t /\ message_complete t /\ MTask_typed (m_message t)) Toy_console.tasks.
Proof. repeat constructor; vm_compute; done. Qed.

Lemma to_connected : net_only start connected.
Proof.
  split; [|apply small_check; vm_compute; reflexivity].
  apply (sys_connect _ _ _ _ _ n1 no_packets (Toy_client.env O) new_daemon greeted (sy_server start) ∅); try reflexivity.
  by repeat split.
Qed.

Lemma to_greeting : net_only connected greeting_in.
Proof.
  split; [|apply small_check; vm_compute; reflexivity].
  eapply (sys_carry_back _ _ _ _ _ n1); vm_compute; reflexivity.
Qed.

Lemma to_sent : net_only greeting_in task_sent.
Proof.
  split; [|apply small_check; vm_compute; reflexivity].
  apply (sys_recv _ _ _ _ _ _ n1). vm_compute. left.
Qed.

Lemma to_task_in : net_only task_sent task_in.
Proof.
  split; [|apply small_check; vm_compute; reflexivity].
  eapply (sys_carry_out _ _ _ _ _ n1); vm_compute; reflexivity.
Qed.

Lemma to_running : net_only task_in task_runs.
Proof.
  split; [|apply small_check; vm_compute; reflexivity].
  apply (sys_client_recv _ _ _ _ _ n1 (client_at task_in) true); vm_compute; reflexivity.
Qed.

Lemma all_steps : rtc net_only start task_runs.
Proof.
  eapply rtc_l; [apply to_connected|]. eapply rtc_l; [apply to_greeting|]. eapply rtc_l; [apply to_sent|].
  eapply rtc_l; [apply to_task_in|]. apply rtc_once, to_running.
Qed.

Lemma net_steps S S' : rtc net_only S S' -> rtc step S S'.
Proof. apply rtc_congruence with (f := fun S => S). intros. by apply net_run_step. Qed.
End Toy_system.

Lemma tasks_accounted_witness :
  given Toy_system.n1 (sv_tasks (sy_server Toy_system.task_runs)) ≡ₚ [1] /\
  given 2%positive (sv_tasks (sy_server Toy_system.task_runs)) = [].
Proof.
  destruct (tasks_accounted Toy_console.name Toy_system.threads Toy_system.launch Toy_system.log_fault
    Toy_system.projects Toy_console.tasks Toy_console.disk Toy_system.task_runs
    Toy_system.tasks_ok eq_refl (Toy_system.net_steps _ _ Toy_system.all_steps)) as (H1 & _ & H3).
  split; [|apply H3; vm_compute; reflexivity].
  refine (Permutation_trans (H1 Toy_system.n1 (Toy_system.node_at Toy_system.task_runs)
    (Toy_system.client_at Toy_system.task_runs) _ _ _) _); [vm_compute; reflexivity..|].
  vm_compute. reflexivity.
Defined.

(** The second task waits, the daemon is idle, and nothing happens. *)
Definition after_report : Toy_system.sys :=
  mkSys (doWork (sy_server Toy_system.report_read)) (sy_clients Toy_system.report_read).

Lemma one_core_starves_witness :
  pending_tasks (sv_tasks (sy_server after_report)) = 1%nat /\
  given Toy_system.n1 (sv_tasks (sy_server after_report)) = [].
Proof.
  split; [vm_compute; reflexivity|].
  destruct (one_core_starves Toy_console.name Toy_system.threads Toy_system.launch Toy_system.log_fault
    Toy_system.projects Toy_console.tasks Toy_console.disk (sy_server Toy_system.task_runs)
    (sy_clients Toy_system.task_runs) Toy_system.n1 (Toy_system.node_at Toy_system.task_runs)
    (Toy_system.client_at Toy_system.task_runs) Toy_client.env
    (hd (Toy_client.ctask 0) (cl_tasks (Toy_system.client_at Toy_system.task_runs))) Toy_system.reported
    Toy_system.tasks_ok eq_refl (Toy_system.net_steps _ _ Toy_system.all_steps)) as (d & Ed & Hs).
  1-12: vm_compute; reflexivity.
  - assert (E : d = hd "" (out_box (cl_node Toy_system.reported))) by (rewrite Ed; reflexivity).
    subst d. apply Hs; [vm_compute; reflexivity|].
    match goal with |- rtc _ ?S0 _ => assert (E0 : S0 = Toy_system.report_read) by (vm_compute; reflexivity); rewrite E0 end.
    apply rtc_once. split; [split|].
    + rewrite (Toy_system.sys_parts Toy_system.report_read) at 1. apply sys_net, sys_work.
    + apply Toy_system.small_check. vm_compute. reflexivity.
    + exists (Toy_system.node_at after_report). vm_compute. reflexivity.
Defined.

Lemma packets_well_typed_witness :
  Forall s_ok (in_box (Toy_system.node_at Toy_system.greeting_in)) /\
  length (in_box (Toy_system.node_at Toy_system.greeting_in)) = 1%nat /\
  (onRecvFromNode Toy_console.name Toy_system.n1 (sy_server Toy_system.greeting_in)).1 = true.
Proof.
  assert (Hr : rtc Toy_system.step Toy_system.start Toy_system.greeting_in).
  { apply Toy_system.net_steps. eapply rtc_l; [apply Toy_system.to_connected|]. apply rtc_once, Toy_system.to_greeting. }
  destruct (packets_well_typed Toy_console.name Toy_system.threads Toy_system.launch Toy_system.log_fault
    Toy_system.projects Toy_console.tasks Toy_console.disk Toy_system.greeting_in
    Toy_system.tasks_ok eq_refl Hr) as [H1 _].
  destruct (H1 Toy_system.n1 (Toy_system.node_at Toy_system.greeting_in) ltac:(vm_compute; reflexivity))
    as (_ & Hs & Hacc).
  split; [exact Hs|]. split; [vm_compute; reflexivity|]. apply Hacc.
  exact (proj1 (proj2 Toy_system.to_sent)).
Defined.

(** ** Bringing a build to its end

    The daemon of the run above never reports.  A second host, with one core
    to spare, finishes the build. *)

Module Toy_rescue.
Definition host : NodeId := 2%positive.
Definition seen : Env (list (nat * Z)) := mkEnv [(0%nat, 0)] 10 0.
(** Files of at most 1000 bytes. *)
Definition modest (f : gmap string string) : Prop := forall p, str_len (toy_load f p).2 <= 1000.

Lemma modest_copy f g p q : modest f -> modest g -> modest (toy_save f p (toy_load g q).2).2.
Proof.
  intros Hf Hg r. unfold toy_save. destruct (empty p); [apply Hf|]. simpl. unfold toy_load at 1.
  destruct (decide (p = r)) as [->|Hne]; [rewrite lookup_insert_eq; apply Hg|].
  rewrite lookup_insert_ne by done. apply Hf.
Qed.

Lemma modest_map f : map_Forall (fun _ d => str_len d <= 1000) f -> modest f.
Proof.
  intros Hf p. unfold toy_load. destruct (f !! p) as [d|] eqn:E; [|vm_compute; discriminate]. exact (Hf p d E).
Qed.

Lemma small_serialize fs :
  Forall field_ok fs -> Z.of_nat (fields_weight fs) < 100000 -> small (serialize fs).
Proof.
  intros Hok Hw. unfold small. rewrite serialize_length by done. pose proof (enc_fields_bound fs). lia.
Qed.

Lemma tasks_now : sv_tasks (sy_server Toy_system.task_runs) =
  [set_node (Some 1%positive) (Toy_console.task 1 "a.c" "a.o"); Toy_console.task 2 "b.c" "b.o"].
Proof. vm_compute. reflexivity. Qed.

(** The packets about a task of the build. *)
Lemma task_small f t :
  modest f -> t ∈ sv_tasks (sy_server Toy_system.task_runs) ->
  small (SerializeToString (mkMPacket (Some (task_packet f t)) None)).
Proof.
  intros Hf Ht. apply small_serialize; [apply fields_MPacket_ok|].
  rewrite task_packet_data. pose proof (Hf (SourceFile (m_vars t))) as Hd. change (fs_load f) with (toy_load f).
  set (d := (toy_load f (SourceFile (m_vars t))).2) in *. clearbody d.
  pose proof (enc_fields_bound (fields_Task (set_inputdata d (m_message t)))) as Hb.
  cbn [fields_MPacket mp_task mp_system opt app fields_weight payload_length snd].
  enough (Z.of_nat (fields_weight (fields_Task (set_inputdata d (m_message t)))) < 5000) by lia.
  clear Hb. revert Ht. rewrite tasks_now, !elem_of_cons, elem_of_nil. unfold str_len in Hd.
  intros [-> | [-> | []]]; cbn -[bytes_of_string Z.of_nat Nat.add]; rewrite !bytes_of_string_length; simpl String.length; lia.
Qed.

Lemma report_small f free size (task : CTask nat) :
  modest f -> str_len (ct_outputFile task) <= 1000 -> small (SerializeToString (report seen f free size task)).
Proof.
  intros Hf Ho. apply small_serialize; [apply fields_SPacket_ok|]. unfold report.
  destruct (proc_getExitCode _ _) as [r w]. pose proof (Hf (ct_outputFile task)) as Hd. change (fs_load f) with (toy_load f).
  destruct (toy_load f (ct_outputFile task)) as [r' d]. simpl in Hd. unfold str_len in *.
  cbn [fields_SPacket sp_info sp_result opt app fields_weight payload_length snd].
  match goal with |- context [enc_fields (fields_Info ?i)] =>
    pose proof (enc_fields_bound (fields_Info i)) as H1; set (l1 := length (enc_fields (fields_Info i))) in * end.
  match goal with |- context [enc_fields (fields_Result ?i)] =>
    pose proof (enc_fields_bound (fields_Result i)) as H2; set (l2 := length (enc_fields (fields_Result i))) in * end.
  clearbody l1 l2. cbn -[bytes_of_string Nat.add] in H1, H2. rewrite !bytes_of_string_length in H2. lia.
Qed.

Lemma able : able_host (W := list (nat * Z)) Toy_system.threads Toy_system.launch Toy_system.projects host
  Toy_system.no_packets Toy_system.new_daemon seen modest.
Proof.
  split.
  - done.
  - by repeat split.
  - apply modest_map. apply map_Forall_empty.
  - exists 1. split; [vm_compute; reflexivity|]. split; [lia|]. vm_compute. reflexivity.
  - intros app cmd dir. split; reflexivity.
  - reflexivity.
  - intros f g path src. apply modest_copy.
Qed.

Definition project : Item := default (mkItem "" "" "") (getProject Toy_config.result "game").

Lemma tasks_runnable : Forall (runnable (W := list (nat * Z)) Toy_system.projects host seen modest)
  (sv_tasks (sy_server Toy_system.task_runs)).
Proof.
  apply Forall_forall. intros t Ht. split; [intros f Hf; by apply task_small|]. exists project.
  assert (Hp : get_str_field (mt_project (m_message t)) = "game" /\
    pdir project (get_str_field (mt_sourceFile (m_message t))) <> "" /\
    str_len (pdir project (get_str_field (mt_outputFile (m_message t)))) <= 1000).
  { revert Ht. rewrite tasks_now, !elem_of_cons, elem_of_nil.
    intros [-> | [-> | []]]; (split; [reflexivity|]); split; vm_compute; discriminate. }
  destruct Hp as (-> & Hsrc & Hout). split; [vm_compute; reflexivity|]. split.
  - intros f g _ _. change (fs_save f) with (toy_save f). unfold toy_save. by destruct (pdir project _).
  - intros f free size task Hf _ E. apply report_small; [done|]. by rewrite E.
Qed.

Lemma build_runnable : Forall (runnable (W := list (nat * Z)) Toy_system.projects host seen modest) Toy_console.tasks.
Proof. eapply same_jobs_runnable; [|exact tasks_runnable]. rewrite tasks_now. by repeat constructor. Qed.
End Toy_rescue.

(** The build file above, read; the monitoring loop has looked at the first
    task, which runs, when the second host comes. *)
Module Toy_whole.
Abbreviation step := (build_step (W := list (nat * Z)) Toy_console.name Toy_system.threads Toy_system.launch
  Toy_system.log_fault Toy_system.projects).
Definition monitor : Monitor := mkMonitor Pass 1 false ∅ 0 0.
Definition started : Monitor := mkMonitor Pass 0 true ∅ 0 0.

Lemma read : loadConfig Toy_console.no_directory Toy_console.LoadFile (fun _ _ => true) "game.xml" Toy_config.result
  TaskVariables_init [] = Ret (true, Toy_console.tasks).
Proof. vm_compute. reflexivity. Qed.

Lemma reach : rtc step (Sys_init Toy_console.tasks Toy_console.disk, Monitor_init) (Toy_system.task_runs, monitor).
Proof.
  assert (Hnet : rtc step (Toy_system.start, Monitor_init) (Toy_system.task_runs, Monitor_init)).
  { apply system_in_build. apply Toy_system.all_steps. }
  etransitivity; [exact Hnet|]. rewrite (Toy_system.sys_parts Toy_system.task_runs). apply main_in_build.
  eapply rtc_l; [by apply mon_begin|]. apply rtc_once.
  apply (main_waits (sy_server Toy_system.task_runs) started
    (set_node (Some 1%positive) (Toy_console.task 1 "a.c" "a.o"))); [done| |done].
  by rewrite Toy_rescue.tasks_now.
Qed.
End Toy_whole.


(** The same program from its command line on: the registry and the build file
    are read, both interfaces send the announcement, and the second host ends
    the build. *)
Module Toy_main.
Definition LoadFile (file : string) : option (list toy_elt) :=
  if String.eqb file "C:\fdb\FreeDistributedBuild.xml" then Some Toy_config.doc else Toy_console.LoadFile file.
Definition send (k : nat) (ip : string) (port : Z) (data : bytes) : Z := Z.of_nat (length data).
Definition ips : list Z := [Toy_daemon.addr; 7].
Definition registry := registry (fun x => x) LoadFile "C:\fdb".
Abbreviation main m := (fdbconsole (fun x => x) LoadFile "C:\fdb" Toy_console.no_directory (fun _ _ => true)
  Toy_daemon.crc Toy_daemon.fill ips send true true m false "game.xml" TaskVariables_init).

Lemma registry_read : registry = Ret (true, Toy_config.result).
Proof. vm_compute. reflexivity. Qed.

Lemma tasks_read : loadConfig Toy_console.no_directory LoadFile (fun _ _ => true) "game.xml" Toy_config.result
  TaskVariables_init [] = Ret (true, Toy_console.tasks).
Proof. vm_compute. reflexivity. Qed.

Lemma announced : sendBroadcast Toy_daemon.crc Toy_daemon.fill send ips "game" = Ret true.
Proof. vm_compute. reflexivity. Qed.

(** A run to the end of the loop. *)
Lemma ended : exists S m, rtc Toy_whole.step (Sys_init Toy_console.tasks Toy_console.disk, Monitor_init) (S, m) /\
  mo_phase m = Finished.
Proof.
  destruct (loadConfig_batch _ _ _ _ _ _ _ _ tasks_read) as [k Hb].
  destruct (build_ends Toy_console.name Toy_system.threads Toy_system.launch Toy_system.log_fault Toy_system.projects
    Toy_console.named Toy_rescue.host Toy_system.no_packets Toy_system.new_daemon Toy_rescue.seen Toy_rescue.modest
    Toy_rescue.able Toy_console.tasks Toy_console.disk Toy_system.task_runs Toy_whole.monitor)
    as (S & m & R & Hf & _); [exact (batch_all _ _ _ _ Hb)|reflexivity|exact Toy_whole.reach|discriminate| |exact Toy_rescue.build_runnable|].
  - apply Toy_rescue.modest_map. apply (bool_decide_unpack _). vm_compute. exact I.
  - exists S, m. split; [|exact Hf]. etransitivity; [exact Toy_whole.reach|exact R].
Qed.

Lemma exits m : mo_phase m = Finished -> main m =
  Ret (0, [EvWSAStartup; EvServerStart; EvBroadcast; EvMonitor; EvCloseClients; EvServerClose]).
Proof.
  intros Hm. unfold fdbconsole, console_main. fold registry. rewrite registry_read. cbn [empty obind negb].
  rewrite tasks_read. cbn [obind negb]. change (PName (m_vars (Toy_console.task 1 "a.c" "a.o"))) with "game".
  cbn -[sendBroadcast]. rewrite announced. cbn [obind negb]. by rewrite Hm.
Qed.
End Toy_main.

